(* ===== verification/_CoqProject ===== *)
-Q . S2P
Prelude.v
RustStd.v
Maps.v
Interfaces.v
Codec.v
Limits.v
Pow.v
Wire.v
AccessWindow.v
Market.v
Settlement.v
Escrow.v
Election.v
Channels.v
Reach.v
Binding.v
Signing.v
Policy.v
Graph.v
Overlay.v
Shortcuts.v
Framing.v
Masque.v
Dns.v
FrontDoor.v
Pipeline.v
Sqlite.v
Enroll.v
Accounts.v
ChannelStore.v
ChannelGate.v
SockAddr.v
Broker.v
Membership.v
Join.v
EdgeParts.v
EdgeState.v
EdgeTunnels.v
KeyProof.v
Delivery.v
Receipts.v
History.v
Upgrade.v
TunnelStore.v
TunnelRuns.v
