(* ===== verification/Prelude.v ===== *)
(** * CADS Tunnel: a verification development

    CADS Tunnel lets machines behind NAT reach each other through an edge: agents hold
    channels with each other, admitted by signed grants, carried by relays when no direct
    path exists, metered and paid through a settlement chain. The implementation is a Rust
    workspace under [src/crates/]; this library models the parts of it that decide
    something, and proves what they decide.

    ** The program's parts

    - [crates/common] ([ct_common]) is the shared core: wire formats, credentials and
      grants, the replay and rate tables, the proof-of-work gate, the capacity marketplace,
      the settlement chain with its escrow and leader election, the policy engine, the
      overlay planner and the framing of the TLS-TCP fallback.
    - [crates/masque-proxy] is the CONNECT-UDP proxy an agent uses when UDP is blocked.
    - [crates/dns] is the authoritative responder for ACME DNS-01 challenges.
    - [crates/edge] terminates the front door on port 443 and runs the relays; it calls
      [ct_common] for every admission decision.
    - [crates/control-plane] is the account, billing and enrollment service; [crates/client]
      and the agent tools are the other ends of the protocols.

    A grant or an invitation is parsed and verified ([Channels]), the signer's messages are
    unambiguous ([Signing]), its use is limited ([Limits], [Pow], [AccessWindow]) and routed
    ([Reach], [Policy], [Overlay], [Shortcuts]); capacity is offered and matched ([Market]),
    paid through holds of an escrow ([Escrow]) whose operations are the content of the
    blocks ([Settlement]) that an elected leader appends ([Election]); bytes travel in the
    frames of [Framing], the capsules of [Masque], or after the classification of
    [FrontDoor].

    ** Files

    - [Prelude]: results and errors, machine integers, bytes and their codecs, tactics.
    - [RustStd]: what the code uses of Rust's standard library on strings, slices and
      sorting: UTF-8 validity, [trim], [split], [join], [chunks], ASCII case, byte order,
      decimal texts, the stable sort.
    - [Maps]: ordered iteration of maps, sums of balances.
    - [Interfaces]: the classes the components are proved against: [WireCodec] with its laws,
      [Ed25519] with its laws (and a toy instance for concrete runs), the byte cursor.
    - [Codec] ([common/src/hex.rs], [ct.rs], [preimage.rs]): [Hex], [Ct], [Preimage].
    - [Limits] ([replay.rs], [ratelimit.rs]): [Replay], [RateLimit].
    - [Pow] ([pow.rs]): the admission gate's puzzle.
    - [Wire] ([lib.rs], [credential.rs]): [Capability], [normalize_hostname], [Credential].
    - [AccessWindow] ([access_window.rs]): weekly and dated opening rules.
    - [Market] ([channel.rs], the marketplace half): offers, bids, matching, commitments,
      usage receipts, acceptances.
    - [Settlement] ([settlement.rs]): [Transfer], [Block], [Chain].
    - [Escrow] ([settlement.rs]): [Hold], [Escrow], [SettlementOp].
    - [Election] ([settlement.rs]): votes, the leader, attestations.
    - [Channels] ([channel.rs]): grants, invitations, join requests, membership staples and
      their cache, billing, settle receipts, agent cards.
    - [Reach] ([channel.rs]): address classes, dial filters, superpeers.
    - [Binding] ([agent_binding.rs]): the binding of an agent's key to a routing token.
    - [Signing]: the signed messages of the plane, together, with an edge's heartbeat.
    - [Policy] ([policy.rs]): flows, desired channels, explanation, reconciliation.
    - [Graph], [Overlay], [Shortcuts] ([overlay.rs]): connectivity and greedy exchange;
      union-find and Kruskal; Floyd-Warshall, shortcuts and the planner's entry points.
    - [Framing] ([fallback_framing.rs]): frame writer, frame reader, keepalive tracker.
    - [Masque] ([masque-proxy/src/varint.rs], [capsule.rs], [lib.rs]): [Varint], [Capsule],
      [Proxy].
    - [Dns] ([dns/src/message.rs], [store.rs], [server.rs]): [Message], [Store], [Server].
    - [FrontDoor] ([edge/src/sni.rs], [ja4.rs], [log_throttle.rs]): [Sni], [Ja4],
      [LogThrottle].
    - [Pipeline] ([common/src/pipeline.rs]): roles, convening under three policies, invitations.
    - [Sqlite]: tables with keys, transactions, the order of [ROWID].
    - [Enroll] ([control-plane/src/enrollment.rs], [credential.rs], [issuance.rs], the
      enrollment and bootstrap tables of [storage.rs]): [EnrollStore], join tokens, bootstrap.
    - [Accounts] ([accounts.rs], [billing.rs], [payment.rs], the ledger of [storage.rs], the
      purchase route of [service.rs]): [Ledger], [PaymentIntake], [LedgerStore], [Purchase].
    - [ChannelStore] ([storage.rs], 5636 to 7048): the channel registry, one transaction a step.
    - [ChannelGate] ([service.rs], [portal_api.rs]): the channel routes over that store, cut
      into the sections that hold its lock.
    - [SockAddr]: parser and printer of socket addresses.
    - [Broker] ([edge/src/channel_broker.rs]): [Pairer], sibling sightings, presence.
    - [Membership] ([edge/src/channel_authorize.rs], [grant_revocation.rs]): the authorizer's
      caches and queries, revocation, the sweep of live splices.
    - [Join] ([common/src/channel_wire.rs], [channel_wire/io.rs], [channel_broker.rs]): the join
      exchange with both ends as programs over a byte stream.
    - [EdgeParts] ([edge/src/state.rs]): connection caps, the broker's heartbeat, the refusal
      penalty, the fingerprint table.
    - [EdgeState], [EdgeTunnels] ([edge/src/state.rs]): the routing state and its operations;
      the theorems on them.
    - [KeyProof] ([edge/src/agent_key.rs], the roles A and V of [serve.rs]): the handshake that
      proves an agent's key, its configuration, the life of an agent's connection.
    - [Delivery] ([common/src/delivery.rs]): capabilities of a session, the records and the pump
      of one end of a session with delivery confirmation.
    - [Receipts] ([common/src/receipt.rs]): JSON values and their canonical text, signed receipts,
      the verifier of a chain.
    - [History] ([edge/src/tunnel_history.rs]): the sessions of the tunnels and their receipts.
    - [Upgrade] ([common/src/upgrade.rs], the multiplexed pump of [noise.rs]): the negotiation of
      a direct connection, the pump over two connections, the session around it.
    - [TunnelStore], [TunnelRuns] ([control-plane/src/storage.rs], [SqliteTunnelStore]): the tunnels of
      the accounts with grants, gates, badges, alerts, share links and certificate claims, one
      transaction a step; the theorems on them.

    A comment before a definition names the lines it translates and the Rust item; a
    definition keeps the item's name where it can.

    ** Conventions

    A byte is [byte], a [Vec<u8>], [String] or array a list of bytes; texts are the bytes of
    their UTF-8 form. Unsigned integers are [N] with the wrap-around or saturation written
    out, signed ones [Z]; the width is a hypothesis of the theorems that need it. The crates
    are built with overflow checks off, so unchecked arithmetic wraps. A [Result] is
    [Result]; an operation that can panic returns an [option] whose [None] is the panic
    ([Chain], [DisjointSet], [Overlay], [Shortcuts], [Varint], [Proxy]), and the theorems show
    when it does not. State is passed explicitly: [&mut self] methods return the new state.
    A method that holds a lock for its whole body is one step; interleavings are sequences
    of steps ([Proxy], [Store], [LogThrottle], [ChannelGate], [Tunnels], [KeyProof]). A [HashMap] or [BTreeMap] is a [gmap];
    where the code iterates a hash map, the theorem holds for any order.

    Parameters stand for what is not in the repository: [sha256], the [Ed25519] class (a
    verification that accepts what the key's owner signed; forging is excluded only where a
    theorem says so), tokio's [AsyncRead] and [AsyncWrite], the latency callback of the
    planner, the outcome of file and socket calls.

    Recursion on data that shrinks without being structural carries fuel, and the fuel is
    shown to be enough: the parsers and drains take one round per byte ([S (length buf)]);
    [find] of the disjoint sets takes one round per element, because a parent chain cannot
    be longer; the search of [solve] ends within [s + 1] rounds when [s] is a solution
    ([solve_terminates]).

    ** What the theorems show

    - Settlement: every reachable chain is valid and conserves value; a signed transfer
      is used once; a replica accepts exactly the next block of a valid chain and ends in
      the same state; the tip's hash commits to all blocks.
    - Escrow: what is locked is paid once or refunded, to the right party, never lost.
    - Election: the leader is exactly the strict majority's choice; two leaders expose a
      member that signed two votes.
    - Channels and signing: admissions are exactly what the signatures and the cache
      justify; the 25 messages that are signed under a domain are injective together, so a
      signature cannot be moved from one to another, and a bare 32-byte challenge is none of
      them but the shortest credentials; wire formats decode exactly what they encode.
    - Limits: the replay and rate tables refine the history of calls, within their bounds.
    - Market, access windows, reachability: exact decisions, no overbooking.
    - Policy and overlay: decisions are explained and converge; the overlay is a minimum
      spanning forest extended by the best shortcut of each round, of the promised size.
    - Framing, MASQUE, DNS, front door: what one side encodes the other decodes, whatever
      way the network cuts it; malformed input is refused, never read out of bounds; buffers
      and responses are bounded; routing and admission are exactly the stated tables.
    - Pipelines: a convened pipeline is exactly the policy's choice among the qualifying offers.
    - Accounts and purchases: the SQL ledger refines the in-memory one, its refusals included and
      without errors of the database; no operation creates
      credit; a block holds; a purchase with an idempotency key happens once.
    - Enrollment: a join token is redeemed once, and a binding in the store is the very key that
      was proven.
    - Channel registry and routes: the tables stay consistent, removals and revocations are
      complete, quotas hold under any interleaving of the routes, an invitation admits once while
      its expiry is below 2^63 and no later clock has pruned its record.
    - Broker, membership, join: every parked member is accounted for; a pair that completes
      agrees on its addresses, or an end is told why; the exchange admits exactly the requests whose grant, possession
      and endpoint pass; an honest member is admitted, and a refusal reaches it with its reason;
      a sweep cuts exactly the splices that lost their membership.
    - Edge: the routing state keeps its invariant, a revoked tunnel stays down, an enforced
      tunnel serves only agents whose registration carried a proof of the pinned key, a pin never
      goes back, a delivery takes the first live
      connection; caps, penalties and tables are exact and bounded.
    - Key proofs: a key is proven exactly by the handshake, and only such keys are pinned.
    - Delivery, for local sides whose end is told apart from the normal one: what an end reports
      as delivered was taken by the other end's application, a session without failures
      completes whatever its watchdog does, an honest peer is never accused.
    - Receipts and history: a verified receipt was signed over what it shows; every session has
      its receipts, and when the export of one tunnel verifies.
    - Upgrade: no byte is lost, repeated or reordered across the cut-over, the pump drains or ends
      with the error of a failed write, and a session becomes direct-only only when both ends
      agreed, with the marker on the relay.
    - Tunnel store: its tables stay consistent, a freed hostname passes nothing on, a spent link
      stays dead, a certificate is kept, the ledger of issuances is a day apart and lasts, the
      batched admission is the single one, a transfer moves exactly one tunnel.

    Definitions that translate code which a comment or a document describes differently are
    marked by lemmas that show the difference on a concrete input:
    [Reach.Address.broadcast_passes], [Escrow.relock_replays_receipt],
    [Shortcuts.not_the_farthest], [Proxy.plus_pairs_are_tokens],
    [Message.question_lowercased], [Message.dotted_label_splits],
    [ChannelStore.readding_forgets_the_claim], [ChannelGate.redemption_crosses_owners],
    [Pairer.three_sweeps_confirm], [Join.admission_bounded], [Join.Demo.oversized_ack],
    [Tunnels.parked_gauge_drifts], [Tunnels.uptime_survives_reaping],
    [unknown_zero_reads_as_normal], [interleaved_export_fails], [missed_receipt_leaves_no_gap],
    [unoffered_responder_waits], [missing_half_is_an_error],
    [broken_application_is_an_error], [ChannelStore.late_redemption_replays],
    [ChannelStore.far_invitation_replays], [pruned_export_fails],
    [moved_session_unattested], [overflowed_session_stays], [credential_as_challenge],
    [KeyProof.unanswered_registration_stays], and in [TunnelRuns]
    [opted_out_lapse_jumps_queue], [late_request_reaches_next_owner],
    [bridge_without_login], [grant_while_off].

    ** Not modelled

    The asynchronous loops around the modelled steps (sockets, TLS, QUIC, HTTP servers and
    clients), the portal's pages, the user interface and the deployment scripts: they are input
    and output, or calls of libraries outside the repository. serde's derived codecs are
    generated code. Of the control plane's SQL, the ledger, enrollment, bootstrap, channel and
    tunnel tables are modelled, each from a fresh file (a database that predates the unique
    index on hostnames and holds duplicates is outside); the topology, network and edge-mesh
    tables are not. Of the edge, the
    accept loops of [serve.rs] and the relay's copy loops are not; of [ct_common] not the Noise
    handshake, which is a library's, nor the dialer of channels. The manifest lists every part with
    its status. *)

From Stdlib Require Export Strings.Byte NArith ZArith Lia.
From stdpp Require Export base gmap list countable.
From Stdlib Require Strings.String.
Export Strings.String.StringSyntax.

#[global] Open Scope N_scope.

(** ** Results: Rust's [Result<T, E>] and [?] *)

Inductive Result (A E : Type) : Type :=
| Ok (a : A)
| Err (e : E).
Arguments Ok {A E} a.
Arguments Err {A E} e.

Definition is_ok {A E} (r : Result A E) : bool :=
  match r with Ok _ => true | Err _ => false end.

Definition rbind {A B E} (r : Result A E) (k : A → Result B E) : Result B E :=
  match r with Ok a => k a | Err e => Err e end.

(** [Option::ok_or]. *)
Definition ok_or {A E} (o : option A) (e : E) : Result A E :=
  match o with Some a => Ok a | None => Err e end.

(** [Result::ok]. *)
Definition result_ok {A E} (r : Result A E) : option A :=
  match r with Ok a => Some a | Err _ => None end.

Declare Scope cads_scope.
Delimit Scope cads_scope with cads.
Notation "x '<-?' c ';' k" := (rbind c (λ x, k))
  (at level 100, c at next level, k at level 200, right associativity) : cads_scope.
Notation "'check!' b 'else' e ';' k" := (if (b : bool) then k else Err e)
  (at level 100, b at level 99, e at level 99, k at level 200, right associativity) : cads_scope.
#[global] Open Scope cads_scope.

(** ** Machine integers

    Unsigned integers of the code are [N] (their width is a hypothesis of the
    theorems that need it), signed ones are [Z]. Rust's truncating [-] on [N]
    is exactly [saturating_sub]. *)

Definition U32 : N := 2 ^ 32.
Definition U64 : N := 2 ^ 64.

(** Release-profile arithmetic ([overflow-checks] off) wraps. *)
Definition wrap32 (n : N) : N := n mod U32.
Definition wrap64 (n : N) : N := n mod U64.

Definition u64_ok (n : N) : Prop := n < U64.
Definition u32_ok (n : N) : Prop := n < U32.

Definition checked_add64 (a b : N) : option N :=
  if a + b <? U64 then Some (a + b) else None.
Definition saturating_add64 (a b : N) : N := N.min (a + b) (U64 - 1).

(** ** Bytes *)

#[global] Instance byte_eq_dec : EqDecision byte := Byte.byte_eq_dec.

Definition byte_of_N (n : N) : byte :=
  match Byte.of_N (n mod 256) with Some b => b | None => x00 end.

Abbreviation N_of_byte := Byte.to_N.

Lemma byte_of_N_of_byte b : byte_of_N (N_of_byte b) = b.
Proof.
  unfold byte_of_N. pose proof (Byte.to_N_bounded b).
  rewrite N.mod_small by lia. by rewrite Byte.of_to_N.
Qed.

Lemma N_of_byte_of_N n : N_of_byte (byte_of_N n) = n mod 256.
Proof.
  unfold byte_of_N. destruct (Byte.of_N (n mod 256)) eqn:E.
  - by apply Byte.to_of_N in E.
  - apply Byte.of_N_None_iff in E. pose proof (N.mod_lt n 256). lia.
Qed.

Lemma N_of_byte_bound b : N_of_byte b < 256.
Proof. pose proof (Byte.to_N_bounded b). lia. Qed.

Lemma N_of_byte_inj a b : N_of_byte a = N_of_byte b → a = b.
Proof.
  intros H. by rewrite <- (byte_of_N_of_byte a), H, byte_of_N_of_byte.
Qed.

#[global] Instance byte_countable : Countable byte :=
  inj_countable' N_of_byte byte_of_N byte_of_N_of_byte.

(** A Rust [Vec<u8>], [[u8; n]] or the bytes of a [String]. *)
Abbreviation bytes := (list byte).

(** The bytes of a literal, as in [b"..."]. *)
Definition lit (s : String.string) : bytes := String.list_byte_of_string s.
Arguments lit s%_string_scope.

(** ** Integer codecs: [to_le_bytes], [from_le_bytes], [to_be_bytes], [from_be_bytes] *)

Fixpoint le_bytes (n : nat) (v : N) : bytes :=
  match n with
  | O => []
  | S n' => byte_of_N v :: le_bytes n' (v / 256)
  end.

Fixpoint le_val (l : bytes) : N :=
  match l with
  | [] => 0
  | b :: l' => N_of_byte b + 256 * le_val l'
  end.

Definition be_bytes (n : nat) (v : N) : bytes := rev (le_bytes n v).
Definition be_val (l : bytes) : N := le_val (rev l).

Definition u32_le (v : N) : bytes := le_bytes 4 v.
Definition u64_le (v : N) : bytes := le_bytes 8 v.
Definition u32_be (v : N) : bytes := be_bytes 4 v.
Definition u64_be (v : N) : bytes := be_bytes 8 v.
Definition u16_be (v : N) : bytes := be_bytes 2 v.

Lemma length_le_bytes n v : length (le_bytes n v) = n.
Proof. revert v. induction n as [|n IH]; intros v; cbn; [done|by rewrite IH]. Qed.

Lemma length_be_bytes n v : length (be_bytes n v) = n.
Proof. unfold be_bytes. by rewrite length_rev, length_le_bytes. Qed.

Lemma le_val_le_bytes n v : le_val (le_bytes n v) = v mod 256 ^ N.of_nat n.
Proof.
  revert v. induction n as [|n IH]; intros v; cbn [le_bytes le_val].
  - by rewrite N.mod_1_r.
  - rewrite IH, N_of_byte_of_N, Nat2N.inj_succ, N.pow_succ_r'.
    rewrite N.Div0.mod_mul_r. lia.
Qed.

Lemma le_val_bound l : le_val l < 256 ^ N.of_nat (length l).
Proof.
  induction l as [|b l IH]; cbn [le_val length]; [done|].
  rewrite Nat2N.inj_succ, N.pow_succ_r'. pose proof (N_of_byte_bound b). lia.
Qed.

Lemma le_bytes_le_val l : le_bytes (length l) (le_val l) = l.
Proof.
  induction l as [|b l IH]; cbn [le_val length le_bytes]; [done|].
  pose proof (N_of_byte_bound b) as Hb. f_equal.
  - apply N_of_byte_inj. rewrite N_of_byte_of_N, N.mul_comm, N.Div0.mod_add.
    by apply N.mod_small.
  - rewrite N.mul_comm, N.div_add by lia. rewrite N.div_small by lia. by rewrite N.add_0_l.
Qed.

Lemma le_val_app a b : le_val (a ++ b) = le_val a + 256 ^ N.of_nat (length a) * le_val b.
Proof.
  induction a as [|x a IH]; cbn [app le_val length]; [lia|].
  rewrite IH, Nat2N.inj_succ, N.pow_succ_r'. lia.
Qed.

Lemma be_val_cons b l : be_val (b :: l) = N_of_byte b * 256 ^ N.of_nat (length l) + be_val l.
Proof.
  unfold be_val. cbn [rev]. rewrite le_val_app, length_rev. cbn [le_val]. lia.
Qed.

Lemma be_val_be_bytes n v : be_val (be_bytes n v) = v mod 256 ^ N.of_nat n.
Proof. unfold be_val, be_bytes. by rewrite rev_involutive, le_val_le_bytes. Qed.

Lemma be_val_bound l : be_val l < 256 ^ N.of_nat (length l).
Proof. unfold be_val. rewrite <- (length_rev l). apply le_val_bound. Qed.

Lemma be_bytes_be_val l : be_bytes (length l) (be_val l) = l.
Proof.
  unfold be_bytes, be_val. rewrite <- (length_rev l), le_bytes_le_val. apply rev_involutive.
Qed.

Lemma le_val_small n v : v < 256 ^ N.of_nat n → le_val (le_bytes n v) = v.
Proof. intros. rewrite le_val_le_bytes. by apply N.mod_small. Qed.

Lemma be_val_small n v : v < 256 ^ N.of_nat n → be_val (be_bytes n v) = v.
Proof. intros. rewrite be_val_be_bytes. by apply N.mod_small. Qed.

Lemma le_bytes_inj n v w :
  v < 256 ^ N.of_nat n → w < 256 ^ N.of_nat n → le_bytes n v = le_bytes n w → v = w.
Proof. intros Hv Hw E. by rewrite <- (le_val_small n v Hv), E, le_val_small. Qed.

Lemma le_val_u32_le v : le_val (u32_le v) = wrap32 v.
Proof. apply le_val_le_bytes. Qed.
Lemma le_val_u64_le v : u64_ok v → le_val (u64_le v) = v.
Proof. apply (le_val_small 8). Qed.
Lemma be_val_u32_be v : u32_ok v → be_val (u32_be v) = v.
Proof. apply (be_val_small 4). Qed.
Lemma be_val_u64_be v : u64_ok v → be_val (u64_be v) = v.
Proof. apply (be_val_small 8). Qed.
Lemma length_u32_le v : length (u32_le v) = 4%nat.
Proof. apply length_le_bytes. Qed.
Lemma length_u64_le v : length (u64_le v) = 8%nat.
Proof. apply length_le_bytes. Qed.
Lemma length_u32_be v : length (u32_be v) = 4%nat.
Proof. apply length_be_bytes. Qed.
Lemma length_u64_be v : length (u64_be v) = 8%nat.
Proof. apply length_be_bytes. Qed.
Lemma u64_le_le_val l : length l = 8%nat → u64_le (le_val l) = l.
Proof. intros H. unfold u64_le. rewrite <- H. apply le_bytes_le_val. Qed.
Lemma u32_le_le_val l : length l = 4%nat → u32_le (le_val l) = l.
Proof. intros H. unfold u32_le. rewrite <- H. apply le_bytes_le_val. Qed.
Lemma le_val_u64_ok l : length l = 8%nat → u64_ok (le_val l).
Proof. intros H. pose proof (le_val_bound l) as B. by rewrite H in B. Qed.
Lemma be_val_u64_ok l : length l = 8%nat → u64_ok (be_val l).
Proof. intros H. pose proof (be_val_bound l) as B. by rewrite H in B. Qed.

Create HintDb codec.
Create Rewrite HintDb codec.
#[export] Hint Rewrite length_u32_le length_u64_le length_u32_be length_u64_be
  length_le_bytes length_be_bytes length_app @length_cons @length_nil : codec.
#[export] Hint Resolve length_u32_le length_u64_le length_u32_be length_u64_be : codec.

#[global] Arguments le_bytes : simpl never.
#[global] Arguments be_bytes : simpl never.
#[global] Arguments le_val : simpl never.
#[global] Arguments be_val : simpl never.
#[global] Arguments u32_le : simpl never.
#[global] Arguments u64_le : simpl never.
#[global] Arguments u32_be : simpl never.
#[global] Arguments u64_be : simpl never.
#[global] Arguments u16_be : simpl never.
#[global] Arguments N.mul : simpl never.
#[global] Arguments N.div : simpl never.
#[global] Arguments N.modulo : simpl never.

(** The number of bytes of a buffer, as the [usize] the code compares. *)
Definition blen (l : bytes) : N := N.of_nat (length l).

Lemma to_nat_blen l : N.to_nat (blen l) = length l.
Proof. apply Nat2N.id. Qed.

(** [&b[from..to]] for bounds the code has already checked. *)
Definition slice {A} (from to : nat) (l : list A) : list A := take (to - from) (drop from l).

#[global] Arguments blen : simpl never.
#[global] Arguments slice : simpl never.

Lemma length_slice {A} from to (l : list A) :
  (from ≤ to)%nat → (to ≤ length l)%nat → length (slice from to l) = (to - from)%nat.
Proof. intros. unfold slice. rewrite length_take, length_drop. lia. Qed.

(** Reading a slice that starts where a known prefix ends. *)
Lemma slice_app {A} (p x s : list A) from to :
  length p = from → (to - from)%nat = length x → slice from to (p ++ x ++ s) = x.
Proof.
  intros <- E. unfold slice. rewrite drop_app_length, E. by rewrite take_app_length.
Qed.

(** The field [x] of a buffer that is the fields [ps], then [x], then the rest [s]. *)
Lemma slice_field {A} (ps : list (list A)) (x s : list A) from to :
  from = sum_list (length <$> ps) → (to - from)%nat = length x →
  slice from to (foldr app (x ++ s) ps) = x.
Proof.
  intros ->. revert to. induction ps as [|p ps IH]; intros to E; cbn in *.
  - rewrite Nat.sub_0_r in E. unfold slice. rewrite drop_0, Nat.sub_0_r, E.
    by rewrite take_app_length.
  - etransitivity; [|apply (IH (to - length p)%nat); lia]. unfold slice.
    rewrite drop_app_ge by lia. f_equal; [lia|]. f_equal. lia.
Qed.

Lemma slice_last {A} (ps : list (list A)) (x : list A) from to :
  from = sum_list (length <$> ps) → (to - from)%nat = length x →
  slice from to (foldr app x ps) = x.
Proof. intros. rewrite <- (app_nil_r x) at 1. by apply slice_field. Qed.

(** Adjacent slices put a buffer back together. *)
Lemma slice_glue {A} (l : list A) a b c :
  (a ≤ b)%nat → (b ≤ c)%nat → slice a b l ++ slice b c l = slice a c l.
Proof.
  intros. unfold slice.
  assert (drop b l = drop (b - a) (drop a l)) as -> by (rewrite drop_drop; f_equal; lia).
  rewrite take_take_drop. f_equal. lia.
Qed.

Lemma slice_all {A} (l : list A) n : n = length l → slice 0 n l = l.
Proof. intros ->. unfold slice. rewrite drop_0, Nat.sub_0_r. by apply take_ge. Qed.

(** Cutting a buffer at a known offset. *)
Lemma app_inj_l {A} (a1 a2 b1 b2 : list A) :
  length a1 = length a2 → a1 ++ b1 = a2 ++ b2 → a1 = a2 ∧ b1 = b2.
Proof. intros L E. by apply app_inj_1 in E. Qed.

(** ** Tactics *)

(** Case analysis on the tests of the code, outermost first. *)
Ltac split_tests :=
  repeat match goal with
  | |- context [if ?b then _ else _] => let E := fresh "E" in destruct b eqn:E
  | |- context [match ?o with Some _ => _ | None => _ end] =>
      let E := fresh "E" in destruct o eqn:E
  | |- context [match ?o with Ok _ => _ | Err _ => _ end] =>
      let E := fresh "E" in destruct o eqn:E
  end.

(** Boolean tests of the code in the context, as propositions. *)
Ltac bool_facts :=
  repeat match goal with
  | H : _ && _ = true |- _ => apply andb_true_iff in H as [? ?]
  | H : _ || _ = false |- _ => apply orb_false_iff in H as [? ?]
  | H : negb _ = true |- _ => apply negb_true_iff in H
  | H : negb _ = false |- _ => apply negb_false_iff in H
  | H : (_ <? _)%N = true |- _ => apply N.ltb_lt in H
  | H : (_ <? _)%N = false |- _ => apply N.ltb_ge in H
  | H : (_ <=? _)%N = true |- _ => apply N.leb_le in H
  | H : (_ <=? _)%N = false |- _ => apply N.leb_gt in H
  | H : (_ =? _)%N = true |- _ => apply N.eqb_eq in H
  | H : (_ =? _)%N = false |- _ => apply N.eqb_neq in H
  | H : (_ <? _)%Z = true |- _ => apply Z.ltb_lt in H
  | H : (_ <? _)%Z = false |- _ => apply Z.ltb_ge in H
  | H : (_ <=? _)%Z = true |- _ => apply Z.leb_le in H
  | H : (_ <=? _)%Z = false |- _ => apply Z.leb_gt in H
  | H : (_ =? _)%Z = true |- _ => apply Z.eqb_eq in H
  | H : (_ =? _)%Z = false |- _ => apply Z.eqb_neq in H
  | H : (_ =? _)%nat = true |- _ => apply Nat.eqb_eq in H
  | H : (_ =? _)%nat = false |- _ => apply Nat.eqb_neq in H
  | H : bool_decide _ = true |- _ => apply bool_decide_eq_true in H
  | H : bool_decide _ = false |- _ => apply bool_decide_eq_false in H
  end.

(** [read_slice from to ps x]: the slice [from..to] of a buffer built from the fields
    [ps], then [x] and possibly more, is [x]. *)
Ltac read_slice from to ps x :=
  match goal with |- context [slice from to ?b] =>
    replace (slice from to b) with x
      by (symmetry; first [apply (slice_field ps)|apply (slice_last ps)]; cbn;
          rewrite ?length_u64_le, ?length_u32_le, ?length_u64_be, ?length_u32_be; lia)
  end.
