(* ===== verification/RustStd.v ===== *)
(** * The string operations of Rust's standard library the code uses

    A Rust [String] is its bytes, a [bytes] that passes [utf8_valid] (the test
    [String::from_utf8] makes). The operations below are the ones the modelled
    code calls on [str] values, on the bytes. *)

From Stdlib Require DecimalString DecimalN DecimalPos.
From stdpp Require Import sorting.
From S2P Require Import Prelude.

(** ** UTF-8 *)

Definition in_range (lo hi n : N) : bool := (lo <=? n) && (n <=? hi).
Definition is_cont (b : byte) : bool := in_range 128 191 (N_of_byte b).

(** The second byte of a three-byte sequence: no overlong form, no surrogate. *)
Definition second_of_three (n0 : N) (b1 : byte) : bool :=
  if n0 =? 224 then in_range 160 191 (N_of_byte b1)
  else if n0 =? 237 then in_range 128 159 (N_of_byte b1)
  else is_cont b1.

(** The second byte of a four-byte sequence: no overlong form, at most U+10FFFF. *)
Definition second_of_four (n0 : N) (b1 : byte) : bool :=
  if n0 =? 240 then in_range 144 191 (N_of_byte b1)
  else if n0 =? 244 then in_range 128 143 (N_of_byte b1)
  else is_cont b1.

Fixpoint utf8_valid (l : bytes) : bool :=
  match l with
  | [] => true
  | b0 :: l1 =>
    let n0 := N_of_byte b0 in
    if n0 <? 128 then utf8_valid l1
    else match l1 with
    | [] => false
    | b1 :: l2 =>
      if in_range 194 223 n0 then is_cont b1 && utf8_valid l2
      else match l2 with
      | [] => false
      | b2 :: l3 =>
        if in_range 224 239 n0
        then second_of_three n0 b1 && is_cont b2 && utf8_valid l3
        else match l3 with
        | [] => false
        | b3 :: l4 =>
          in_range 240 244 n0 && second_of_four n0 b1 && is_cont b2 && is_cont b3
            && utf8_valid l4
        end
      end
    end
  end.

(** [String::from_utf8(..).ok()]. *)
Definition from_utf8 (l : bytes) : option bytes := if utf8_valid l then Some l else None.

Definition is_ascii (b : byte) : bool := N_of_byte b <? 128.

(** ** ASCII classes and case *)

Definition is_digit (b : byte) : bool := in_range 48 57 (N_of_byte b).
Definition is_lower (b : byte) : bool := in_range 97 122 (N_of_byte b).
Definition is_upper (b : byte) : bool := in_range 65 90 (N_of_byte b).
Definition is_ascii_alphanumeric (b : byte) : bool := is_digit b || is_lower b || is_upper b.

Definition ascii_lower (b : byte) : byte :=
  if is_upper b then byte_of_N (N_of_byte b + 32) else b.
Definition to_ascii_lowercase (s : bytes) : bytes := map ascii_lower s.

(** ** [starts_with], [ends_with], [split], [trim] *)

Fixpoint starts_with (p s : bytes) : bool :=
  match p, s with
  | [], _ => true
  | _ :: _, [] => false
  | a :: p', b :: s' => bool_decide (a = b) && starts_with p' s'
  end.
Definition ends_with (p s : bytes) : bool := starts_with (rev p) (rev s).

(** [str::split] on one ASCII character. *)
Fixpoint split_on (c : byte) (s : bytes) : list bytes :=
  match s with
  | [] => [[]]
  | b :: s' =>
    match split_on c s' with
    | [] => [[b]]
    | w :: ws => if bool_decide (b = c) then [] :: w :: ws else (b :: w) :: ws
    end
  end.

(** [[&str]::join]. *)
Fixpoint join (sep : bytes) (l : list bytes) : bytes :=
  match l with [] => [] | [x] => x | x :: l => x ++ sep ++ join sep l end.

(** [slice::chunks]: pieces of [n], the last one may be shorter. Every piece takes at
    least one byte, so [length s] rounds are enough. *)
Fixpoint chunks_fuel (fuel n : nat) (s : bytes) : list bytes :=
  match fuel, s with
  | O, _ | _, [] => []
  | S fuel, _ => take n s :: chunks_fuel fuel n (drop n s)
  end.
Definition chunks (n : nat) (s : bytes) : list bytes := chunks_fuel (length s) n s.

(** [buf.get(from..to)]. *)
Definition get_range (buf : bytes) (from to : nat) : option bytes :=
  if (from <=? to)%nat && (to <=? length buf)%nat then Some (slice from to buf) else None.

(** [u16::from_be_bytes([*buf.get(p)?, *buf.get(p + 1)?])]. *)
Definition get_u16 (buf : bytes) (p : nat) : option N :=
  hi ← buf !! p; lo ← buf !! S p; Some (be_val [hi; lo]).

(** The encodings of the characters with Unicode's [White_Space] property. *)
Definition white_space : list bytes :=
  map (map byte_of_N)
    ([[9]; [10]; [11]; [12]; [13]; [32]; [194; 133]; [194; 160]; [225; 154; 128]]
     ++ map (λ k, [226; 128; k]) [128; 129; 130; 131; 132; 133; 134; 135; 136; 137; 138]
     ++ [[226; 128; 168]; [226; 128; 169]; [226; 128; 175]; [226; 129; 159]; [227; 128; 128]]).

(** Strip any of [ws] from the front, as often as one is there; every round drops
    at least one byte, so [length s] rounds are enough. *)
Fixpoint strip_front (ws : list bytes) (fuel : nat) (s : bytes) : bytes :=
  match fuel with
  | O => s
  | S fuel' =>
    match find (λ w, starts_with w s) ws with
    | Some w => strip_front ws fuel' (drop (length w) s)
    | None => s
    end
  end.
Definition trim_start (s : bytes) : bytes := strip_front white_space (length s) s.
Definition trim_end (s : bytes) : bytes :=
  rev (strip_front (map (@rev byte) white_space) (length s) (rev s)).
Definition trim (s : bytes) : bytes := trim_end (trim_start s).

(** [str::trim_end_matches] with one ASCII character. *)
Fixpoint drop_while_byte (c : byte) (s : bytes) : bytes :=
  match s with
  | b :: s' => if bool_decide (b = c) then drop_while_byte c s' else s
  | [] => []
  end.
Definition trim_end_matches (c : byte) (s : bytes) : bytes := rev (drop_while_byte c (rev s)).

(** Byte-wise lexicographic order: [Ord] of [String] and of [[u8; n]]. *)
Fixpoint bytes_leb (a b : bytes) : bool :=
  match a, b with
  | [], _ => true
  | _ :: _, [] => false
  | x :: a', y :: b' =>
    (N_of_byte x <? N_of_byte y) || ((N_of_byte x =? N_of_byte y) && bytes_leb a' b')
  end.
Definition bytes_le (a b : bytes) : Prop := bytes_leb a b = true.

(** ** Facts *)

Lemma from_utf8_Some l s : from_utf8 l = Some s ↔ utf8_valid l = true ∧ s = l.
Proof. unfold from_utf8. destruct (utf8_valid l); naive_solver. Qed.

Lemma utf8_valid_ascii l : forallb is_ascii l = true → utf8_valid l = true.
Proof.
  induction l as [|b l IH]; [done|]. cbn [forallb]. intros [H1 H2]%andb_true_iff.
  cbn [utf8_valid]. unfold is_ascii in H1. rewrite H1. auto.
Qed.

#[global] Instance bytes_le_dec : RelDecision bytes_le.
Proof. intros a b. unfold bytes_le. apply _. Defined.

Lemma bytes_le_refl a : bytes_le a a.
Proof.
  unfold bytes_le. induction a as [|x a IH]; [done|]. cbn.
  rewrite N.eqb_refl, IH. by rewrite andb_true_r, orb_true_r.
Qed.

Lemma bytes_le_total a b : bytes_le a b ∨ bytes_le b a.
Proof.
  unfold bytes_le. revert b. induction a as [|x a IH]; intros [|y b]; cbn; auto.
  destruct (N.lt_trichotomy (N_of_byte x) (N_of_byte y)) as [H|[H|H]].
  - left. apply N.ltb_lt in H. by rewrite H.
  - rewrite H, N.eqb_refl. destruct (IH b) as [->| ->]; rewrite andb_true_r, orb_true_r; auto.
  - right. apply N.ltb_lt in H. by rewrite H.
Qed.

Lemma bytes_le_antisym a b : bytes_le a b → bytes_le b a → a = b.
Proof.
  unfold bytes_le. revert b. induction a as [|x a IH]; intros [|y b]; cbn; try done.
  intros [H1|H1]%orb_true_iff [H2|H2]%orb_true_iff; bool_facts; try lia.
  f_equal; [by apply N_of_byte_inj|by apply IH].
Qed.

Lemma bytes_le_trans a b c : bytes_le a b → bytes_le b c → bytes_le a c.
Proof.
  unfold bytes_le. revert b c. induction a as [|x a IH]; intros [|y b] [|z c]; cbn; try done.
  intros [H1|H1]%orb_true_iff [H2|H2]%orb_true_iff; bool_facts; apply orb_true_iff.
  - left. apply N.ltb_lt. lia.
  - left. apply N.ltb_lt. lia.
  - left. apply N.ltb_lt. lia.
  - right. apply andb_true_iff. split; [apply N.eqb_eq; lia|by eapply IH].
Qed.

Lemma concat_chunks n s : (0 < n)%nat → concat (chunks n s) = s.
Proof.
  intros Hn. unfold chunks. remember (length s) as f eqn:E.
  assert (length s ≤ f)%nat as H by lia. clear E. revert s H.
  induction f as [|f IH]; intros s H; [destruct s; [done|cbn in H; lia]|].
  destruct s as [|b s]; [done|]. cbn [chunks_fuel concat]. rewrite IH.
  - apply take_drop.
  - rewrite length_drop. cbn [length] in *. lia.
Qed.

(** Cutting a concatenation of pieces of [n] gives the pieces back. *)
Lemma chunks_pieces n ds :
  (0 < n)%nat → Forall (λ d, length d = n) ds → chunks n (concat ds) = ds.
Proof.
  intros Hn F. unfold chunks. assert (length (concat ds) ≤ length (concat ds))%nat as L by lia.
  revert L. generalize (length (concat ds)) at 2 3. intros f. revert ds F.
  induction f as [|f IH]; intros [|d ds] F L; try done.
  - apply Forall_cons_iff in F as [F _]. cbn in L. rewrite length_app in L. lia.
  - apply Forall_cons_iff in F as [Fd F]. cbn [concat] in *. rewrite length_app in L.
    destruct (d ++ concat ds) as [|b s] eqn:E.
    { apply (f_equal length) in E. rewrite length_app in E. cbn in E. lia. }
    cbn [chunks_fuel]. rewrite <- E, take_app_length', drop_app_length' by done.
    f_equal. apply IH; [done|lia].
Qed.

Lemma chunks_bound n s : Forall (λ c, (length c ≤ n)%nat) (chunks n s).
Proof.
  unfold chunks. generalize (length s) at 1. intros f. revert s.
  induction f as [|f IH]; intros s; [constructor|]. destruct s as [|b s]; [constructor|].
  constructor; [|apply IH]. rewrite length_take. lia.
Qed.

Lemma get_range_app pre x post from to :
  length pre = from → to = (from + length x)%nat → get_range (pre ++ x ++ post) from to = Some x.
Proof.
  intros <- ->. unfold get_range. rewrite !length_app.
  destruct (Nat.leb_spec (length pre) (length pre + length x)); [|lia].
  destruct (Nat.leb_spec (length pre + length x) (length pre + (length x + length post))); [|lia].
  cbn [andb]. f_equal. apply slice_app; [done|lia].
Qed.

Lemma get_range_Some buf from to x :
  get_range buf from to = Some x →
  ∃ pre post, buf = pre ++ x ++ post ∧ length pre = from ∧ to = (from + length x)%nat.
Proof.
  unfold get_range. destruct (Nat.leb_spec from to); [|done].
  destruct (Nat.leb_spec to (length buf)); [|done]. intros [= <-].
  exists (take from buf), (drop to buf). rewrite length_take, length_slice by done.
  split; [|lia]. unfold slice.
  replace (drop to buf) with (drop (to - from) (drop from buf)) by (rewrite drop_drop; f_equal; lia).
  by rewrite !take_drop.
Qed.

Lemma get_u16_app pre a b post : get_u16 (pre ++ a :: b :: post) (length pre) = Some (be_val [a; b]).
Proof.
  unfold get_u16. rewrite !lookup_app_r by lia.
  by replace (S (length pre) - length pre)%nat with 1%nat by lia; rewrite Nat.sub_diag.
Qed.

Lemma split_on_nonempty c s : ∃ w ws, split_on c s = w :: ws.
Proof.
  induction s as [|b s (w & ws & E)]; cbn [split_on]; [eauto|]. rewrite E.
  case_bool_decide; eauto.
Qed.

Lemma length_split_on c s : sum_list ((λ w, 1 + length w)%nat <$> split_on c s) = S (length s).
Proof.
  induction s as [|b s IH]; [done|]. cbn [split_on length].
  destruct (split_on c s) as [|w ws]; [done|]. case_bool_decide; cbn in *; lia.
Qed.

Lemma split_on_lower s :
  split_on x2e (to_ascii_lowercase s) = map to_ascii_lowercase (split_on x2e s).
Proof.
  induction s as [|b s IH]; [done|].
  change (to_ascii_lowercase (b :: s)) with (ascii_lower b :: to_ascii_lowercase s).
  cbn [split_on]. rewrite IH. destruct (split_on_nonempty x2e s) as (w & ws & ->).
  cbn [map]. destruct (decide (b = x2e)) as [->|Hb]; [done|].
  rewrite (bool_decide_false (b = x2e)) by done. rewrite bool_decide_false; [done|].
  unfold ascii_lower. destruct (is_upper b) eqn:U; [|done]. intros E.
  apply (f_equal N_of_byte) in E. rewrite N_of_byte_of_N in E.
  unfold is_upper, in_range in U. apply andb_true_iff in U as [?%N.leb_le ?%N.leb_le].
  rewrite N.mod_small in E by lia. change (N_of_byte x2e) with 46 in E. lia.
Qed.

Lemma join_split_on c s : join [c] (split_on c s) = s.
Proof.
  induction s as [|b s IH]; [done|]. cbn [split_on].
  destruct (split_on_nonempty c s) as (w & ws & E). rewrite E in *.
  case_bool_decide as Hb; [subst b; change (join [c] ([] :: w :: ws)) with (c :: join [c] (w :: ws)); by rewrite IH|].
  destruct ws as [|w' ws]; cbn [join app] in *; by rewrite IH.
Qed.

Lemma get_u16_iff pre suf v :
  get_u16 (pre ++ suf) (length pre) = Some v ↔ v < 2 ^ 16 ∧ ∃ rest, suf = u16_be v ++ rest.
Proof.
  destruct suf as [|a [|b suf]].
  - unfold get_u16. rewrite app_nil_r, (lookup_ge_None_2 pre (length pre)) by lia. cbn [mbind option_bind]. split; [done|].
    intros (_ & rest & E). apply (f_equal length) in E.
    unfold u16_be in E. rewrite length_app, length_be_bytes in E. cbn in E. lia.
  - unfold get_u16. rewrite (lookup_ge_None_2 _ (S (length pre))) by (rewrite length_app; cbn; lia).
    rewrite lookup_app_r, Nat.sub_diag by lia. cbn. split; [done|].
    intros (_ & rest & E). apply (f_equal length) in E.
    unfold u16_be in E. rewrite length_app, length_be_bytes in E. cbn in E. lia.
  - rewrite get_u16_app. pose proof (be_val_bound [a; b]) as B.
    pose proof (be_bytes_be_val [a; b]) as R. split.
    + intros [= <-]. split; [exact B|]. exists suf. unfold u16_be.
      change 2%nat with (length [a; b]). by rewrite R.
    + intros (Hv & rest & E). f_equal.
      apply (f_equal (take 2)) in E. unfold u16_be in E.
      rewrite take_app_length' in E by (by rewrite length_be_bytes).
      assert ([a; b] = be_bytes 2 v) as -> by (rewrite <- E; by destruct suf).
      by apply be_val_small.
Qed.

Lemma get_u16_Some buf p v :
  get_u16 buf p = Some v → ∃ pre rest, buf = pre ++ u16_be v ++ rest ∧ length pre = p ∧ v < 2 ^ 16.
Proof.
  intros E. destruct (decide (p ≤ length buf)%nat) as [L|L].
  - assert (length (take p buf) = p) as Lp by (rewrite length_take; lia).
    assert (get_u16 (take p buf ++ drop p buf) (length (take p buf)) = Some v) as E'
      by (by rewrite take_drop, Lp).
    apply get_u16_iff in E' as (B & rest & E'). exists (take p buf), rest.
    split; [|done]. by rewrite <- E', take_drop.
  - unfold get_u16 in E. by rewrite (lookup_ge_None_2 buf p) in E by lia.
Qed.

Lemma lookup_Some_app (buf : bytes) p b :
  buf !! p = Some b → ∃ pre rest, buf = pre ++ b :: rest ∧ length pre = p.
Proof.
  intros E. exists (take p buf), (drop (S p) buf).
  pose proof (lookup_lt_Some _ _ _ E). split; [|rewrite length_take; lia].
  by rewrite take_drop_middle.
Qed.

(** Two decompositions of one buffer, the first one shorter. *)
Lemma split_prefix {A} (a b x y : list A) :
  a ++ x = b ++ y → (length a ≤ length b)%nat → ∃ z, b = a ++ z ∧ x = z ++ y.
Proof.
  intros E L. exists (drop (length a) b).
  assert (take (length a) b = a) as T.
  { apply (f_equal (take (length a))) in E. by rewrite take_app_length, take_app_le in E by lia. }
  split; [rewrite <- (take_drop (length a) b) at 1; by rewrite T|].
  apply (f_equal (drop (length a))) in E. by rewrite drop_app_length, drop_app_le in E by lia.
Qed.

(** ** Numbers in text: [format!("{}", n)] of an unsigned integer *)

Definition decimal (n : N) : bytes :=
  String.list_byte_of_string (DecimalString.NilZero.string_of_uint (N.to_uint n)).

Lemma decimal_inj m n : decimal m = decimal n → m = n.
Proof.
  unfold decimal. intros E. apply (f_equal String.string_of_list_byte) in E.
  rewrite !String.string_of_list_byte_of_string in E.
  apply (f_equal DecimalString.NilZero.uint_of_string) in E.
  rewrite !DecimalString.NilZero.usu in E.
  - injection E as E. by apply DecimalN.Unsigned.to_uint_inj.
  - destruct n; [done|]. apply DecimalPos.Unsigned.to_uint_nonnil.
  - destruct m; [done|]. apply DecimalPos.Unsigned.to_uint_nonnil.
Qed.

(** ** [slice::sort_by]: the stable sort by a total preorder *)

Lemma StronglySorted_weaken {A} (R S : A → A → Prop) (l : list A) :
  (∀ x y, R x y → S x y) → StronglySorted R l → StronglySorted S l.
Proof.
  intros I. induction 1 as [|x l _ IH F]; [constructor|]. constructor; [done|].
  eapply Forall_impl; [|exact F]. auto.
Qed.

Lemma sorted_lookup {A} (R : A → A → Prop) (l : list A) i j x y :
  StronglySorted R l → l !! i = Some x → l !! j = Some y → (i < j)%nat → R x y.
Proof.
  intros S. revert i j. induction S as [|z l S IH F]; intros i j Hi Hj L; [done|].
  destruct j as [|j]; [lia|]. destruct i as [|i].
  - injection Hi as ->. rewrite list.Forall_forall in F. apply F. by eapply list_elem_of_lookup_2.
  - eapply IH; [exact Hi|exact Hj|lia].
Qed.

Section SortBy.
Context {A : Type} (leb : A → A → bool).

Fixpoint insert_by (x : A) (l : list A) : list A :=
  match l with
  | [] => [x]
  | y :: l' => if leb x y then x :: l else y :: insert_by x l'
  end.

Definition sort_by (l : list A) : list A := foldr insert_by [] l.

Lemma insert_by_Permutation x l : insert_by x l ≡ₚ x :: l.
Proof.
  induction l as [|y l IH]; cbn; [done|]. destruct (leb x y); [done|].
  rewrite IH. apply Permutation_swap.
Qed.

Lemma sort_by_Permutation l : sort_by l ≡ₚ l.
Proof.
  induction l as [|x l IH]; cbn; [done|]. rewrite insert_by_Permutation. by constructor.
Qed.

Lemma insert_by_sorted x l :
  (∀ x y, leb x y = true ∨ leb y x = true) →
  (∀ x y z, leb x y = true → leb y z = true → leb x z = true) →
  StronglySorted (λ x y, leb x y = true) l →
  StronglySorted (λ x y, leb x y = true) (insert_by x l).
Proof.
  intros T Tr. induction 1 as [|y l S IH F]; cbn; [repeat constructor|].
  destruct (leb x y) eqn:E.
  - constructor; [by constructor|]. constructor; [done|]. eapply Forall_impl; [|exact F]. eauto.
  - constructor; [done|]. rewrite insert_by_Permutation. constructor; [|done].
    destruct (T x y); congruence.
Qed.

Lemma sort_by_sorted l :
  (∀ x y, leb x y = true ∨ leb y x = true) →
  (∀ x y z, leb x y = true → leb y z = true → leb x z = true) →
  StronglySorted (λ x y, leb x y = true) (sort_by l).
Proof.
  intros T Tr. induction l as [|x l IH]; cbn; [constructor|]. by apply insert_by_sorted.
Qed.

End SortBy.

(** Sorting by a total order forgets the order of the input. *)
Lemma sort_by_unique {B} (leb : B → B → bool) (l k : list B) :
  (∀ a b, leb a b = true ∨ leb b a = true) →
  (∀ a b c, leb a b = true → leb b c = true → leb a c = true) →
  (∀ a b, leb a b = true → leb b a = true → a = b) →
  l ≡ₚ k → sort_by leb l = sort_by leb k.
Proof.
  intros Tot Tr As P. assert (AntiSymm eq (λ a b, leb a b = true)) by exact As.
  apply (StronglySorted_unique (λ a b, leb a b = true)).
  - by apply sort_by_sorted.
  - by apply sort_by_sorted.
  - by rewrite !sort_by_Permutation.
Qed.

Lemma sort_by_fmap {A B} (f : A → B) (leb : B → B → bool) l :
  sort_by leb (f <$> l) = f <$> sort_by (λ x y, leb (f x) (f y)) l.
Proof.
  assert (∀ x k, insert_by leb (f x) (f <$> k) =
                 f <$> insert_by (λ x y, leb (f x) (f y)) x k) as I.
  { intros x k. induction k as [|y k IH]; cbn; [done|]. destruct (leb (f x) (f y)); [done|].
    cbn. by rewrite IH. }
  induction l as [|x l IH]; cbn; [done|]. rewrite <- I. by f_equal.
Qed.

(** ** Comparisons *)

(** [Ord::cmp] of byte arrays and strings. *)
Definition bytes_cmp (a b : bytes) : comparison :=
  if bool_decide (a = b) then Eq else if bytes_leb a b then Lt else Gt.

(** [Ordering::then_with]. *)
Definition then_with (c d : comparison) : comparison := match c with Eq => d | _ => c end.

(** [Iterator::min_by]: the first of the least elements. *)
Definition min_from {A} (cmp : A → A → comparison) (x : A) (l : list A) : A :=
  foldl (λ best y, match cmp best y with Gt => y | _ => best end) x l.

Definition min_by {A} (cmp : A → A → comparison) (l : list A) : option A :=
  match l with [] => None | x :: l' => Some (min_from cmp x l') end.

(** A comparison that comes from a total preorder. *)
Class Ordering {A} (cmp : A → A → comparison) : Prop := {
  cmp_refl a : cmp a a = Eq;
  cmp_flip a b : cmp b a = CompOpp (cmp a b);
  cmp_le_trans a b c : cmp a b ≠ Gt → cmp b c ≠ Gt → cmp a c ≠ Gt;
}.

Lemma min_from_spec {A} (cmp : A → A → comparison) `{!Ordering cmp} x l :
  min_from cmp x l ∈ x :: l ∧ ∀ y, y ∈ x :: l → cmp (min_from cmp x l) y ≠ Gt.
Proof.
  revert x. induction l as [|y l IH]; intros x; cbn.
  - split; [set_solver|]. intros y ->%list_elem_of_singleton. by rewrite cmp_refl.
  - destruct (cmp x y) eqn:E; fold (min_from cmp x l) (min_from cmp y l).
    all: match goal with |- min_from _ ?z _ ∈ _ ∧ _ => destruct (IH z) as [Hin Hle] end.
    all: split; [set_solver|]; intros z [->|[->|Hz]%elem_of_cons]%elem_of_cons.
    all: try (apply Hle; set_solver).
    + apply (cmp_le_trans _ x); [apply Hle; set_solver|]. by rewrite E.
    + apply (cmp_le_trans _ x); [apply Hle; set_solver|]. by rewrite E.
    + apply (cmp_le_trans _ y); [apply Hle; set_solver|]. by rewrite (cmp_flip x y), E.
Qed.

Lemma min_by_spec {A} (cmp : A → A → comparison) `{!Ordering cmp} l x :
  min_by cmp l = Some x → x ∈ l ∧ ∀ y, y ∈ l → cmp x y ≠ Gt.
Proof. destruct l as [|z l]; [done|]. intros [= <-]. apply min_from_spec. apply _. Qed.

Lemma bytes_cmp_Gt a b : bytes_cmp a b = Gt ↔ ¬ bytes_le a b.
Proof.
  unfold bytes_cmp, bytes_le. destruct (bool_decide (a = b)) eqn:E.
  - apply bool_decide_eq_true in E as ->. pose proof (bytes_le_refl b). naive_solver.
  - destruct (bytes_leb a b); naive_solver.
Qed.

#[global] Instance bytes_cmp_ordering : Ordering bytes_cmp.
Proof.
  split.
  - intros a. unfold bytes_cmp. by rewrite bool_decide_eq_true_2.
  - intros a b. unfold bytes_cmp. destruct (decide (a = b)) as [->|N].
    { by rewrite !bool_decide_eq_true_2. }
    rewrite !bool_decide_eq_false_2 by congruence.
    destruct (bytes_le_total a b) as [L|L]; unfold bytes_le in L.
    + rewrite L. destruct (bytes_leb b a) eqn:L'; [|done].
      destruct N. by apply bytes_le_antisym.
    + rewrite L. destruct (bytes_leb a b) eqn:L'; [|done].
      destruct N. by apply bytes_le_antisym.
  - intros a b c. rewrite !bytes_cmp_Gt. intros H1 H2 H3. apply H1. intros L1. apply H2.
    intros L2. apply H3. by eapply bytes_le_trans.
Qed.

Lemma bytes_cmp_Eq a b : bytes_cmp a b = Eq ↔ a = b.
Proof.
  unfold bytes_cmp. destruct (bool_decide (a = b)) eqn:E.
  - by apply bool_decide_eq_true in E.
  - apply bool_decide_eq_false in E. destruct (bytes_leb a b); naive_solver.
Qed.

(** Keys ordered by one comparison and then another. *)
#[global] Instance then_with_ordering {A B} (f : A → N) (g : A → B) (cmp : B → B → comparison)
  `{!Ordering cmp} : Ordering (λ a b, then_with (f a ?= f b) (cmp (g a) (g b))).
Proof.
  split; cbn.
  - intros a. rewrite N.compare_refl. exact (cmp_refl (g a)).
  - intros a b. rewrite (N.compare_antisym (f a) (f b)). destruct (f a ?= f b); try done.
    exact (cmp_flip (g a) (g b)).
  - intros a b c. destruct (N.compare_spec (f a) (f b)) as [E1|E1|E1],
      (N.compare_spec (f b) (f c)) as [E2|E2|E2]; cbn; try done.
    1: rewrite E1, E2, N.compare_refl; exact (cmp_le_trans (g a) (g b) (g c)).
    all: intros _ _; assert (f a < f c) as L by lia; by rewrite (proj2 (N.compare_lt_iff _ _) L).
Qed.
