(* ===== verification/Maps.v ===== *)
(** * Maps of the code: ordered iteration and sums of balances *)

From stdpp Require Export sorting.
From S2P Require Import Prelude RustStd.
#[global] Open Scope N_scope.

(** ** Ordered maps

    A [BTreeMap] keyed by byte arrays is a [gmap]; its iteration is in ascending order
    of the keys. *)

Definition key_le {A} (p q : bytes * A) : Prop := bytes_le p.1 q.1.
#[global] Instance key_le_dec {A} : RelDecision (@key_le A).
Proof. intros p q. unfold key_le. apply _. Defined.

(** [m.iter()] of a [BTreeMap]. *)
Definition btree_iter {A} (m : gmap bytes A) : list (bytes * A) :=
  merge_sort key_le (map_to_list m).

Lemma btree_iter_perm {A} (m : gmap bytes A) : btree_iter m ≡ₚ map_to_list m.
Proof. apply merge_sort_Permutation. Qed.

Lemma elem_of_btree_iter {A} (m : gmap bytes A) k v :
  (k, v) ∈ btree_iter m ↔ m !! k = Some v.
Proof. rewrite btree_iter_perm. apply elem_of_map_to_list. Qed.

Lemma NoDup_btree_keys {A} (m : gmap bytes A) : NoDup (btree_iter m).*1.
Proof. rewrite btree_iter_perm. apply NoDup_fst_map_to_list. Qed.

(** [map.get(&k).copied().unwrap_or(0)]. *)
Definition amount_at (m : gmap bytes N) (k : bytes) : N := default 0 (m !! k).

(** The sum of a map's values. *)
Definition total (m : gmap bytes N) : N := map_fold (λ _ v acc, v + acc) 0 m.

Lemma total_insert_new m k v : m !! k = None → total (<[k := v]> m) = v + total m.
Proof.
  intros H. unfold total. rewrite (map_fold_insert_L _ 0 k v m); [done| |done]. intros. lia.
Qed.

Lemma total_delete m k : amount_at m k + total (delete k m) = total m.
Proof.
  unfold amount_at. destruct (m !! k) as [v|] eqn:E; cbn.
  - rewrite <- (insert_delete_id m k v E) at 2. rewrite total_insert_new; [done|].
    apply lookup_delete_eq.
  - by rewrite delete_id.
Qed.

Lemma total_insert m k v : total (<[k := v]> m) + amount_at m k = total m + v.
Proof.
  rewrite <- (total_delete m k), <- insert_delete_eq, total_insert_new by apply lookup_delete_eq.
  lia.
Qed.

Lemma amount_le_total m k : amount_at m k <= total m.
Proof. rewrite <- (total_delete m k). lia. Qed.

Lemma amount_at_insert m k v : amount_at (<[k := v]> m) k = v.
Proof. unfold amount_at. by rewrite lookup_insert_eq. Qed.
Lemma amount_at_insert_ne m k j v : k ≠ j → amount_at (<[k := v]> m) j = amount_at m j.
Proof. intros. unfold amount_at. by rewrite lookup_insert_ne. Qed.
