(* ===== verification/Interfaces.v ===== *)
(** * The interfaces between components

    - [WireCodec]: what a component that serialises a type promises to the components
      that carry it: decoding accepts exactly the encodings of well-formed values.
    - [Ed25519]: the operations of the [ed25519-dalek] crate the code calls, and in
      [Ed25519Laws] what its documentation promises of them. The crate is not part of
      the repository: every definition and theorem takes the instance as an argument. *)

From S2P Require Import Prelude RustStd.

(** ** Serialisation *)

Class WireCodec (A : Type) := {
  wire_ok : A → Prop;
  wire_encode : A → bytes;
  wire_decode : bytes → option A;
}.

Class WireCodecLaws (A : Type) `{WireCodec A} : Prop :=
  wire_decode_iff b a : wire_decode b = Some a ↔ wire_ok a ∧ b = wire_encode a.

Section wire_codec.
Context `{WireCodecLaws A}.

Lemma wire_decode_encode a : wire_ok a → wire_decode (wire_encode a) = Some a.
Proof. intros. by apply wire_decode_iff. Qed.

Lemma wire_encode_inj a b : wire_ok a → wire_ok b → wire_encode a = wire_encode b → a = b.
Proof.
  intros Ha Hb E. apply wire_decode_encode in Ha, Hb. rewrite E in Ha. congruence.
Qed.

End wire_codec.

(** ** Signatures *)

Class Ed25519 := {
  SigningKey : Type;
  (** [VerifyingKey::from_bytes(key).is_ok()] *)
  key_ok : bytes → bool;
  (** [key.verify(message, signature).is_ok()], arguments: key, message, signature *)
  ed_verify : bytes → bytes → bytes → bool;
  (** [key.verifying_key().to_bytes()] *)
  verifying_key : SigningKey → bytes;
  (** [key.sign(message).to_bytes()] *)
  sign : SigningKey → bytes → bytes;
}.

Class Ed25519Laws `{Ed25519} : Prop := {
  verifying_key_length k : length (verifying_key k) = 32%nat;
  signature_length k m : length (sign k m) = 64%nat;
  verifying_key_ok k : key_ok (verifying_key k) = true;
  sign_verifies k m : ed_verify (verifying_key k) m (sign k m) = true;
}.

(** The code's check of one signature: the key parses and the signature verifies. *)
Definition sig_verify `{Ed25519} (key msg sig : bytes) : bool :=
  if key_ok key then ed_verify key msg sig else false.

Lemma sig_verify_sign `{Ed25519Laws} k m : sig_verify (verifying_key k) m (sign k m) = true.
Proof. unfold sig_verify. by rewrite verifying_key_ok, sign_verifies. Qed.

(** A toy signature scheme, on which the witnesses evaluate: a key is one byte and a
    signature is the key repeated over 64 bytes. It satisfies the laws; it is of course
    forgeable, and no theorem relies on unforgeability. *)
Module Toy.

Definition ed25519 : Ed25519 := {|
  SigningKey := byte;
  key_ok _ := true;
  ed_verify key _ sig := bool_decide (take 32 sig = key);
  verifying_key k := replicate 32 k;
  sign k _ := replicate 64 k;
|}.

Lemma laws : @Ed25519Laws ed25519.
Proof.
  split; cbn; intros; rewrite ?length_replicate; try done.
  by apply bool_decide_eq_true_2.
Qed.

End Toy.

(** Reading from a cursor: [take(&mut cur, n)?] returns the head of [n] bytes and leaves
    the rest in [cur]; [None] on a short buffer. *)
Definition take_cur (cur : bytes) (n : nat) : option (bytes * bytes) :=
  if (length cur <? n)%nat then None else Some (take n cur, drop n cur).

Lemma take_cur_Some cur n h t : take_cur cur n = Some (h, t) ↔ length h = n ∧ cur = h ++ t.
Proof.
  unfold take_cur. destruct (length cur <? n)%nat eqn:E.
  - apply Nat.ltb_lt in E. split; [done|]. intros [<- ->]. rewrite length_app in E. lia.
  - apply Nat.ltb_ge in E. split.
    + intros [= <- <-]. rewrite take_drop, length_take. split; [lia|done].
    + intros [<- ->]. by rewrite take_app_length, drop_app_length.
Qed.

Lemma take_cur_app h t n : length h = n → take_cur (h ++ t) n = Some (h, t).
Proof. intros. by apply take_cur_Some. Qed.

Lemma take_cur_end h n : length h = n → take_cur h n = Some (h, []).
Proof. intros. apply take_cur_Some. by rewrite app_nil_r. Qed.

#[export] Hint Resolve take_cur_app take_cur_end : codec.

(** Decoding [h ++ ...] field by field, given the widths of the fields. *)
Ltac read_fields :=
  repeat first
    [ rewrite take_cur_app by (rewrite ?length_u64_le, ?length_u32_le; first [done|lia]); cbn [mbind option_bind]
    | rewrite take_cur_end by (rewrite ?length_u64_le, ?length_u32_le; first [done|lia]); cbn [mbind option_bind] ].

(** The fields a successful cursor decoder read, from the equation [E] that it
    succeeded. *)
Ltac fields_read E :=
  repeat match type of E with
  | (take_cur ?c ?n ≫= _) = Some _ =>
    let h := fresh "h" in let t := fresh "t" in let T := fresh "T" in
    destruct (take_cur c n) as [[h t]|] eqn:T; cbn [mbind option_bind] in E; [|discriminate E];
    apply take_cur_Some in T as [? ->]
  | (head ?k ≫= _) = Some _ =>
    destruct k as [|? [|]]; try done; cbn [head mbind option_bind] in E
  | (from_utf8 ?s ≫= _) = Some _ =>
    let U := fresh "U" in destruct (from_utf8 s) eqn:U; cbn [mbind option_bind] in E;
    [|discriminate E]; apply from_utf8_Some in U as [U ->]
  | (?o ≫= _) = Some _ =>
    let K := fresh "K" in destruct o eqn:K; cbn [mbind option_bind] in E; [|discriminate E]
  end.

Lemma le_val_u32_ok l : length l = 4%nat → u32_ok (le_val l).
Proof. intros H. pose proof (le_val_bound l) as B. by rewrite H in B. Qed.

(** A length prefix read back from the string it announced. *)
Lemma u32_le_blen l m :
  length l = 4%nat → length m = N.to_nat (le_val l) →
  u32_ok (blen m) ∧ u32_le (wrap32 (blen m)) = l.
Proof.
  intros L M. pose proof (le_val_u32_ok l L) as B.
  assert (blen m = le_val l) as -> by (unfold blen; lia). split; [done|].
  unfold wrap32. rewrite N.mod_small by done. by apply u32_le_le_val.
Qed.
