(* ===== verification/Codec.v ===== *)
(** * Hex, constant-time comparison, signing preimages

    [crates/common/src/hex.rs], [ct.rs] and [preimage.rs]: the encodings every other
    component builds on. [Hex] is the lowercase encoder and the strict decoder, [Ct]
    the comparison of secrets, [Preimage] the builder of the domain-separated byte
    strings that get signed. *)

From S2P Require Import Prelude RustStd.

Module Hex.

(** src/crates/common/src/hex.rs:9-9 [encode]: the digit table. *)
Definition DIGITS : bytes := lit "0123456789abcdef".

(** src/crates/common/src/hex.rs:12-13 [encode]: the two digits of one byte. *)
Definition encode_byte (b : byte) : bytes :=
  [nth (N.to_nat (N.shiftr (N_of_byte b) 4)) DIGITS x00;
   nth (N.to_nat (N.land (N_of_byte b) 15)) DIGITS x00].

(** src/crates/common/src/hex.rs:8-16 [encode] *)
Definition encode (bs : bytes) : bytes := flat_map encode_byte bs.

(** src/crates/common/src/hex.rs:40-47 [nibble] *)
Definition nibble (c : byte) : option N :=
  let n := N_of_byte c in
  if in_range 48 57 n then Some (n - 48)
  else if in_range 97 102 n then Some (n - 97 + 10)
  else if in_range 65 70 n then Some (n - 65 + 10)
  else None.

(** src/crates/common/src/hex.rs:24-24 [decode]: the pairs, in order; the first bad
    digit makes the whole result [None]. *)
Fixpoint decode_pairs (l : bytes) : option bytes :=
  match l with
  | a :: b :: l' =>
    h ← nibble a; lo ← nibble b; rest ← decode_pairs l';
    Some (byte_of_N (N.lor (N.shiftl h 4) lo) :: rest)
  | _ => Some []
  end.

(** src/crates/common/src/hex.rs:19-25 [decode] *)
Definition decode (s : bytes) : option bytes :=
  if negb (length s mod 2 =? 0)%nat then None else decode_pairs s.

(** src/crates/common/src/hex.rs:28-33 [decode_array] *)
Definition decode_array (n : nat) (s : bytes) : option bytes :=
  if negb (length s =? 2 * n)%nat then None
  else d ← decode s; if (length d =? n)%nat then Some d else None.

(** src/crates/common/src/hex.rs:36-38 [decode_32] *)
Definition decode_32 (s : bytes) : option bytes := decode_array 32 s.

(** A digit the decoder takes, in the form the encoder writes it. *)
Definition hex_digit (c : byte) : bool := match nibble c with Some _ => true | None => false end.

(** Facts about one byte and one digit, checked on all of them. *)
Definition all_bytes : bytes := map (λ k, byte_of_N (N.of_nat k)) (seq 0 256).

Lemma all_bytes_spec b : b ∈ all_bytes.
Proof.
  apply list_elem_of_In, in_map_iff. exists (N.to_nat (N_of_byte b)).
  rewrite N2Nat.id, byte_of_N_of_byte. split; [done|].
  apply in_seq. pose proof (N_of_byte_bound b). lia.
Qed.

Lemma byte_check (f : byte → bool) : forallb f all_bytes = true → ∀ b, f b = true.
Proof.
  intros H b. rewrite forallb_forall in H. apply H. apply list_elem_of_In, all_bytes_spec.
Qed.

Lemma encode_byte_decode b rest :
  ∀ d, decode_pairs rest = Some d → decode_pairs (encode_byte b ++ rest) = Some (b :: d).
Proof.
  intros d Hd.
  assert (match nibble (nth 0 (encode_byte b) x00), nibble (nth 1 (encode_byte b) x00) with
          | Some h, Some lo => bool_decide (byte_of_N (N.lor (N.shiftl h 4) lo) = b)
          | _, _ => false end = true) as Hb.
  { revert b. apply byte_check. by vm_compute. }
  cbn [encode_byte nth app decode_pairs] in *.
  repeat case_match; try done. bool_facts. cbn. rewrite Hd. cbn. by subst.
Qed.

Lemma encode_byte_pair a b h lo :
  nibble a = Some h → nibble b = Some lo →
  encode_byte (byte_of_N (N.lor (N.shiftl h 4) lo)) = [ascii_lower a; ascii_lower b].
Proof.
  intros Ha Hb.
  assert (∀ c k, nibble c = Some k →
            k < 16 ∧ nth (N.to_nat k) DIGITS x00 = ascii_lower c) as D.
  { intros c k Hk.
    assert (match nibble c with
            | Some k => (k <? 16) && bool_decide (nth (N.to_nat k) DIGITS x00 = ascii_lower c)
            | None => true end = true) as Hc.
    { clear Hk. revert c. apply byte_check. by vm_compute. }
    rewrite Hk in Hc. bool_facts. done. }
  destruct (D _ _ Ha) as [Lh <-], (D _ _ Hb) as [Ll <-].
  assert (forallb (λ h, forallb (λ l, bool_decide
            (encode_byte (byte_of_N (N.lor (N.shiftl h 4) l))
             = [nth (N.to_nat h) DIGITS x00; nth (N.to_nat l) DIGITS x00]))
            (map N.of_nat (seq 0 16))) (map N.of_nat (seq 0 16)) = true) as C by by vm_compute.
  assert (∀ k, k < 16 → In k (map N.of_nat (seq 0 16))) as I.
  { intros k Hk. apply in_map_iff. exists (N.to_nat k). rewrite N2Nat.id. split; [done|].
    apply in_seq. lia. }
  rewrite forallb_forall in C. specialize (C h (I _ Lh)).
  rewrite forallb_forall in C. specialize (C lo (I _ Ll)). by bool_facts.
Qed.

Lemma length_encode bs : length (encode bs) = (2 * length bs)%nat.
Proof. induction bs as [|b bs IH]; [done|]. cbn. unfold encode in IH. lia. Qed.

Lemma decode_pairs_encode bs : decode_pairs (encode bs) = Some bs.
Proof. induction bs as [|b bs IH]; [done|]. by apply (encode_byte_decode b). Qed.

(** Induction on the pairs of a string. *)
Lemma pairs_ind (P : bytes → Prop) :
  P [] → (∀ a, P [a]) → (∀ a b l, P l → P (a :: b :: l)) → ∀ l, P l.
Proof.
  intros H0 H1 H2. enough (∀ l, P l ∧ ∀ a, P (a :: l)) by naive_solver.
  intros l. induction l as [|b l [IH1 IH2]]; naive_solver.
Qed.

Lemma lower_pair a b l :
  to_ascii_lowercase (a :: b :: l) = [ascii_lower a; ascii_lower b] ++ to_ascii_lowercase l.
Proof. done. Qed.

Lemma decode_pairs_spec l bs :
  (length l mod 2 = 0)%nat →
  decode_pairs l = Some bs ↔ forallb hex_digit l = true ∧ to_ascii_lowercase l = encode bs.
Proof.
  revert bs. induction l as [|a|a b l IH] using pairs_ind; intros bs Hl.
  - cbn. split; [intros [= <-]; done|]. intros [_ H]. destruct bs; [done|]. by destruct b.
  - done.
  - assert (length l mod 2 = 0)%nat as Hl'.
    { cbn [length] in Hl. replace (S (S (length l))) with (length l + 1 * 2)%nat in Hl by lia.
      by rewrite Nat.Div0.mod_add in Hl. }
    cbn [decode_pairs forallb]. rewrite lower_pair. unfold hex_digit at 1 2.
    destruct (nibble a) as [h|] eqn:Ha; cbn [mbind option_bind andb]; [|naive_solver].
    destruct (nibble b) as [lo|] eqn:Hb; cbn [mbind option_bind andb]; [|naive_solver].
    rewrite <- (encode_byte_pair _ _ _ _ Ha Hb).
    set (x := byte_of_N _).
    destruct (decode_pairs l) as [r|] eqn:Hr.
    + destruct (proj1 (IH r Hl') eq_refl) as [Hx Hy]. rewrite Hx, Hy. split.
      * by intros [= <-].
      * intros [_ H]. change (encode (x :: r) = encode bs) in H.
        apply (f_equal decode_pairs) in H. by rewrite !decode_pairs_encode in H.
    + split; [done|]. intros [Hx Hy]. destruct bs as [|c bs]; [done|].
      change (encode_byte x ++ to_ascii_lowercase l = encode_byte c ++ encode bs) in Hy.
      apply app_inj_l in Hy as [_ Hy]; [|done]. 
      by assert (None = Some bs) by (apply IH; auto).
Qed.

Lemma decode_spec s bs :
  decode s = Some bs ↔
  (length s mod 2 = 0)%nat ∧ forallb hex_digit s = true ∧ to_ascii_lowercase s = encode bs.
Proof.
  unfold decode. destruct (length s mod 2 =? 0)%nat eqn:E; cbn [negb]; bool_facts.
  - rewrite decode_pairs_spec by done. naive_solver.
  - naive_solver.
Qed.

(** The hex decoder accepts exactly the strings of an even number of hex digits of
    either case, and on such a string it is the inverse of the encoder: [decode s] is
    [bs] iff the lowercased string is [encode bs]. In particular every encoded buffer
    decodes to itself and no other string decodes to it up to case. *)
Theorem hex_decode_iff s bs :
  decode s = Some bs ↔
  (length s mod 2 = 0)%nat ∧ forallb hex_digit s = true ∧ to_ascii_lowercase s = encode bs.
Proof. apply decode_spec. Qed.

Lemma hex_decode_encode bs : decode (encode bs) = Some bs.
Proof.
  unfold decode. rewrite length_encode, Nat.mul_comm, Nat.Div0.mod_mul. cbn.
  apply decode_pairs_encode.
Qed.

Lemma length_decode s bs : decode s = Some bs → length s = (2 * length bs)%nat.
Proof.
  intros [_ [_ H]]%decode_spec. rewrite <- length_encode, <- H.
  unfold to_ascii_lowercase. by rewrite length_map.
Qed.

Lemma decode_array_spec n s bs :
  decode_array n s = Some bs ↔ decode s = Some bs ∧ length bs = n.
Proof.
  unfold decode_array. destruct (length s =? 2 * n)%nat eqn:E; cbn [negb]; bool_facts.
  - destruct (decode s) as [d|] eqn:D; cbn; [|naive_solver].
    pose proof (length_decode _ _ D). destruct (length d =? n)%nat eqn:L; bool_facts; naive_solver lia.
  - split; [done|]. intros [D L]. pose proof (length_decode _ _ D). lia.
Qed.

End Hex.

(** [u8::from_str_radix(_, 16)]: an optional [+], then at least one digit, in range. *)
Definition hex_digits (s : bytes) : option N :=
  foldl (λ acc c, v ← acc; d ← Hex.nibble c;
                  if v * 16 + d <? 256 then Some (v * 16 + d) else None) (Some 0) s.
Definition u8_from_hex (s : bytes) : option N :=
  match s with
  | [] => None
  | b :: ds =>
    if bool_decide (ds = [] ∧ (b = x2b ∨ b = x2d)) then None
    else if bool_decide (b = x2b) then hex_digits ds else hex_digits s
  end.

(** [slice::chunks(2)]. *)
Fixpoint chunks2 (s : bytes) : list bytes :=
  match s with a :: b :: s => [a; b] :: chunks2 s | [] => [] | [a] => [[a]] end.

Module Ct.

(** src/crates/common/src/ct.rs:11-11 [eq]: the fold of the differing bits. *)
Definition diff (a b : bytes) : N :=
  foldl (λ acc p, N.lor acc (N.lxor (N_of_byte p.1) (N_of_byte p.2))) 0 (zip a b).

(** src/crates/common/src/ct.rs:7-14 [eq] *)
Definition eq (a b : bytes) : bool :=
  if negb (length a =? length b)%nat then false else diff a b =? 0.

Lemma diff_acc l acc :
  foldl (λ acc p, N.lor acc (N.lxor (N_of_byte p.1) (N_of_byte p.2))) acc l = 0 ↔
  acc = 0 ∧ Forall (λ p : byte * byte, p.1 = p.2) l.
Proof.
  revert acc. induction l as [|[x y] l IH]; intros acc; cbn [foldl].
  - split; [|tauto]. intros. by split; [|constructor].
  - rewrite IH, Forall_cons_iff, N.lor_eq_0_iff, N.lxor_eq_0_iff. cbn.
    split; [intros [[? ?%N_of_byte_inj] ?]|intros [? [? ?]]]; by subst.
Qed.

Lemma ct_eq_true a b : eq a b = true ↔ a = b.
Proof.
  unfold eq. destruct (length a =? length b)%nat eqn:E; cbn [negb]; bool_facts.
  - rewrite N.eqb_eq. unfold diff. rewrite diff_acc. split; [|intros ->; split; [done|]].
    + intros [_ H]. revert b E H. induction a as [|x a IH]; intros [|y b] E H; try done.
      apply Forall_cons_iff in H as [Hx H]. cbn in Hx. subst. f_equal. apply IH; [|done].
      cbn in E. lia.
    + clear E. induction b as [|y b IH]; constructor; done.
  - split; [done|]. intros ->. done.
Qed.

End Ct.

Module Preimage.

(** src/crates/common/src/preimage.rs:35-37 [Preimage] *)
Record Preimage := { buf : bytes }.

(** src/crates/common/src/preimage.rs:53-58 [Preimage::new] *)
Definition new (domain : bytes) : Preimage :=
  {| buf := u32_le (wrap32 (blen domain)) ++ domain |}.

(** src/crates/common/src/preimage.rs:62-65 [Preimage::fixed] *)
Definition fixed (p : Preimage) (b : bytes) : Preimage := {| buf := buf p ++ b |}.

(** src/crates/common/src/preimage.rs:68-71 [Preimage::u64] *)
Definition u64 (p : Preimage) (v : N) : Preimage := {| buf := buf p ++ u64_le v |}.

(** src/crates/common/src/preimage.rs:74-77 [Preimage::u32] *)
Definition u32 (p : Preimage) (v : N) : Preimage := {| buf := buf p ++ u32_le v |}.

(** src/crates/common/src/preimage.rs:81-84 [Preimage::tag] *)
Definition tag (p : Preimage) (t : byte) : Preimage := {| buf := buf p ++ [t] |}.

(** src/crates/common/src/preimage.rs:91-95 [Preimage::var_bytes] *)
Definition var_bytes (p : Preimage) (b : bytes) : Preimage :=
  {| buf := buf p ++ u32_le (wrap32 (blen b)) ++ b |}.

(** src/crates/common/src/preimage.rs:98-100 [Preimage::finish] *)
Definition finish (p : Preimage) : bytes := buf p.

(** A chain of builder calls as data, to state what holds of every chain. *)
Inductive field : Type :=
| FFixed (b : bytes)
| FU64 (v : N)
| FU32 (v : N)
| FTag (t : byte)
| FVar (b : bytes).

Definition push (p : Preimage) (f : field) : Preimage :=
  match f with
  | FFixed b => fixed p b
  | FU64 v => u64 p v
  | FU32 v => u32 p v
  | FTag t => tag p t
  | FVar b => var_bytes p b
  end.

(** [Preimage::new(domain).f1(..).f2(..)....finish()]. *)
Definition build (domain : bytes) (fs : list field) : bytes :=
  finish (foldl push (new domain) fs).

(** Two fields of the same schema slot: the same builder call, and for [fixed] the
    same width. *)
Definition same_slot (f g : field) : Prop :=
  match f, g with
  | FFixed a, FFixed b => length a = length b
  | FU64 _, FU64 _ | FU32 _, FU32 _ | FTag _, FTag _ | FVar _, FVar _ => True
  | _, _ => False
  end.

(** The widths the encoders can represent. *)
Definition field_ok (f : field) : Prop :=
  match f with
  | FU64 v => u64_ok v
  | FU32 v => u32_ok v
  | FVar b => u32_ok (blen b)
  | _ => True
  end.

Definition field_bytes (f : field) : bytes := buf (push {| buf := [] |} f).

Lemma push_bytes p f : buf (push p f) = buf p ++ field_bytes f.
Proof. by destruct f. Qed.

Lemma build_bytes domain fs : build domain fs = buf (new domain) ++ flat_map field_bytes fs.
Proof.
  unfold build, finish. generalize (new domain). induction fs as [|f fs IH]; intros p; cbn.
  - by rewrite app_nil_r.
  - by rewrite IH, push_bytes, app_assoc.
Qed.

(** A length-prefixed string can be cut off the front of what follows it. *)
Lemma var_cut a b x y :
  u32_ok (blen a) → u32_ok (blen b) →
  (u32_le (wrap32 (blen a)) ++ a) ++ x = (u32_le (wrap32 (blen b)) ++ b) ++ y →
  a = b ∧ x = y.
Proof.
  intros Ha Hb. rewrite <- !app_assoc. intros [El E]%app_inj_l; [|by rewrite !length_u32_le].
  apply (f_equal le_val) in El. rewrite !le_val_u32_le in El. unfold wrap32 in El.
  rewrite !N.Div0.mod_mod, !N.mod_small in El by done.
  apply app_inj_l in E; [done|]. unfold blen in El. lia.
Qed.

Lemma field_cut f g x y :
  same_slot f g → field_ok f → field_ok g →
  field_bytes f ++ x = field_bytes g ++ y → f = g ∧ x = y.
Proof.
  destruct f as [a|v|v|t|a], g as [b|w|w|t'|b]; cbn; try done; intros S Hf Hg E.
  - apply app_inj_l in E as [-> ->]; done.
  - apply app_inj_l in E as [E ->]; [|by rewrite !length_u64_le].
    by apply (le_bytes_inj 8) in E as ->.
  - apply app_inj_l in E as [E ->]; [|by rewrite !length_u32_le].
    by apply (le_bytes_inj 4) in E as ->.
  - by injection E as -> ->.
  - by apply var_cut in E as [-> ->].
Qed.

Lemma build_domain d1 d2 fs1 fs2 :
  u32_ok (blen d1) → u32_ok (blen d2) → build d1 fs1 = build d2 fs2 → d1 = d2.
Proof. rewrite !build_bytes. intros H1 H2 E. by apply var_cut in E as [-> _]. Qed.

Lemma build_injective d1 d2 fs1 fs2 :
  u32_ok (blen d1) → u32_ok (blen d2) →
  Forall2 same_slot fs1 fs2 → Forall field_ok fs1 → Forall field_ok fs2 →
  build d1 fs1 = build d2 fs2 → fs1 = fs2.
Proof.
  rewrite !build_bytes. intros H1 H2 S O1 O2 E. apply var_cut in E as [_ E]; try done.
  revert O1 O2 E. induction S as [|f g fs gs Hs S IH]; [done|].
  intros [Of O1]%Forall_cons_iff [Og O2]%Forall_cons_iff E. cbn in E.
  apply field_cut in E as [-> E]; try done. f_equal. by apply IH.
Qed.

End Preimage.
