(* ===== verification/Limits.v ===== *)
(** * Replay cache and rate limiter

    [crates/common/src/replay.rs] and [ratelimit.rs]: the two time-driven admission
    tables. Both take the time from the caller (seconds for [Replay], a window index
    for [RateLimit]); the hash maps of the code are [gmap]s. *)

From S2P Require Import Prelude RustStd.

Module Replay.

(** src/crates/common/src/replay.rs:28-28 [EVICT_INTERVAL_SECS] *)
Definition EVICT_INTERVAL_SECS : N := 5.

(** src/crates/common/src/replay.rs:34-44 [ReplayCache] *)
Record ReplayCache := { seen : gmap bytes N; last_evict_at : N }.

(** src/crates/common/src/replay.rs:47-49 [ReplayCache::new] *)
Definition new : ReplayCache := {| seen := ∅; last_evict_at := 0 |}.

(** src/crates/common/src/replay.rs:90-92 [ReplayCache::evict_expired] *)
Definition evict_expired (now : N) (m : gmap bytes N) : gmap bytes N :=
  filter (λ p, now < p.2) m.

(** src/crates/common/src/replay.rs:69-72 [ReplayCache::check_and_record]: the
    periodic sweep at the head of a call. *)
Definition sweep (c : ReplayCache) (now : N) : ReplayCache :=
  if EVICT_INTERVAL_SECS <=? now - last_evict_at c
  then {| seen := evict_expired now (seen c); last_evict_at := now |}
  else c.

(** src/crates/common/src/replay.rs:68-87 [ReplayCache::check_and_record] *)
Definition check_and_record (c : ReplayCache) (id : bytes) (expires_at now : N)
    : bool * ReplayCache :=
  let c := sweep c now in
  if expires_at <=? now then (false, c)
  else
    let record := {| seen := <[id := expires_at]> (seen c); last_evict_at := last_evict_at c |} in
    match seen c !! id with
    | Some existing_expiry => if now <? existing_expiry then (false, c) else (true, record)
    | None => (true, record)
    end.

(** src/crates/common/src/replay.rs:96-98 [ReplayCache::len] *)
Definition len (c : ReplayCache) : nat := size (seen c).

(** src/crates/common/src/replay.rs:100-102 [ReplayCache::is_empty] *)
Definition is_empty (c : ReplayCache) : bool := (len c =? 0)%nat.

(** One presentation: the identifier, its expiry and the clock reading. *)
Record call := { c_id : bytes; c_exp : N; c_now : N }.

(** A sequence of presentations to one cache, with the verdicts. *)
Fixpoint run (c : ReplayCache) (tr : list call) : list bool * ReplayCache :=
  match tr with
  | [] => ([], c)
  | x :: tr' =>
    let '(b, c1) := check_and_record c (c_id x) (c_exp x) (c_now x) in
    let '(bs, c2) := run c1 tr' in (b :: bs, c2)
  end.

(** The reference: no eviction at all, a presentation is fresh iff it has not expired
    and no accepted presentation of the same identifier is still unexpired. *)
Definition spec_fresh (accepted : list (bytes * N)) (x : call) : bool :=
  (c_now x <? c_exp x)
  && forallb (λ p, negb (bool_decide (p.1 = c_id x) && (c_now x <? p.2))) accepted.

Fixpoint spec_run (accepted : list (bytes * N)) (tr : list call) : list bool :=
  match tr with
  | [] => []
  | x :: tr' =>
    let b := spec_fresh accepted x in
    b :: spec_run (if b then (c_id x, c_exp x) :: accepted else accepted) tr'
  end.

(** Clock readings from [t] on that never go back. *)
Fixpoint clock_from (t : N) (tr : list call) : Prop :=
  match tr with [] => True | x :: tr' => t <= c_now x ∧ clock_from (c_now x) tr' end.

(** [id] is recorded with an expiry after [now]. *)
Definition live (m : gmap bytes N) (id : bytes) (now : N) : Prop :=
  ∃ e, m !! id = Some e ∧ now < e.

Lemma evict_lookup now m id e :
  evict_expired now m !! id = Some e ↔ m !! id = Some e ∧ now < e.
Proof. unfold evict_expired. by rewrite map_lookup_filter_Some. Qed.

Lemma sweep_live c now t id : now <= t → live (seen (sweep c now)) id t ↔ live (seen c) id t.
Proof.
  intros Ht. unfold sweep. destruct (_ <=? _); [|done]. cbn. unfold live.
  setoid_rewrite evict_lookup. naive_solver lia.
Qed.

(** The verdict of one call, and the identifiers it leaves live. *)
Lemma check_and_record_verdict c id e now :
  (check_and_record c id e now).1 = true ↔ now < e ∧ ¬ live (seen c) id now.
Proof.
  rewrite <- (sweep_live c now now id) by lia. unfold check_and_record, live.
  destruct (e <=? now) eqn:E; bool_facts; [cbn; naive_solver lia|].
  destruct (seen (sweep c now) !! id) as [e'|] eqn:L; [|naive_solver].
  destruct (now <? e') eqn:E'; bool_facts; cbn; [naive_solver|].
  split; [|done]. intros _. split; [done|]. intros (? & [= <-] & ?). lia.
Qed.

Lemma check_and_record_live c id e now t id' :
  now <= t →
  live (seen (check_and_record c id e now).2) id' t ↔
  live (seen c) id' t ∨ ((check_and_record c id e now).1 = true ∧ id' = id ∧ t < e).
Proof.
  intros Ht. rewrite check_and_record_verdict, <- (sweep_live c now t) by done.
  rewrite <- (sweep_live c now now id) by lia.
  unfold check_and_record. destruct (e <=? now) eqn:E; bool_facts; [cbn; naive_solver lia|].
  assert (∀ m : gmap bytes N, ¬ live m id now →
            live (<[id:=e]> m) id' t ↔ live m id' t ∨ (now < e ∧ ¬ live m id now) ∧ id' = id ∧ t < e)
    as Hins.
  { intros m Hm. unfold live in *. destruct (decide (id' = id)) as [->|Hne].
    - rewrite lookup_insert_eq. split; [naive_solver|]. intros [(e0 & L & ?)|?]; [|naive_solver].
      destruct Hm. exists e0. split; [done|lia].
    - rewrite lookup_insert_ne by done. naive_solver. }
  destruct (seen (sweep c now) !! id) as [e'|] eqn:L; [|apply Hins; unfold live; naive_solver].
  destruct (now <? e') eqn:E'; bool_facts; cbn.
  - split; [auto|]. intros [?|[[_ []] _]]; [done|]. by exists e'.
  - apply Hins. intros (? & ? & ?). simplify_eq. lia.
Qed.

Lemma spec_fresh_true acc x :
  spec_fresh acc x = true ↔
  c_now x < c_exp x ∧ ¬ ∃ e, (c_id x, e) ∈ acc ∧ c_now x < e.
Proof.
  unfold spec_fresh. rewrite andb_true_iff, N.ltb_lt, forallb_forall.
  split; intros [H1 H2]; split; try done.
  - intros (e & Hin & He). apply list_elem_of_In in Hin. specialize (H2 _ Hin). cbn in H2.
    apply N.ltb_lt in He. rewrite He, bool_decide_true in H2; done.
  - intros [id e] Hin%list_elem_of_In. cbn. apply negb_true_iff, andb_false_iff.
    destruct (decide (id = c_id x)) as [->|]; [|left; by apply bool_decide_false].
    right. apply N.ltb_ge. destruct (N.le_gt_cases e (c_now x)); [done|].
    destruct H2. by exists e.
Qed.

(** The amortised cache answers like one that never forgets: on every sequence of
    presentations whose clock does not go back, the verdicts of a new cache are those
    of the reference that keeps the whole history. The periodic sweep and the lazily
    ignored expired entries change nothing an observer can see. *)
Theorem replay_refines_history t tr :
  clock_from t tr → (run new tr).1 = spec_run [] tr.
Proof.
  intros Hc. revert Hc.
  assert (∀ id t', t <= t' → live (seen new) id t' ↔ ∃ e, (id, e) ∈ @nil (bytes * N) ∧ t' < e) as R.
  { intros id t' _. split; intros (e & H & _); [done|by apply elem_of_nil in H]. }
  revert R. generalize new as c, (@nil (bytes * N)) as acc. revert t.
  induction tr as [|x tr IH]; intros t c acc R Hc; [done|]. destruct Hc as [Ht Hc].
  cbn [run spec_run].
  assert ((check_and_record c (c_id x) (c_exp x) (c_now x)).1 = spec_fresh acc x) as Hb.
  { apply eq_bool_prop_intro. rewrite !Is_true_true, check_and_record_verdict, spec_fresh_true.
    by rewrite R. }
  pose proof (check_and_record_live c (c_id x) (c_exp x) (c_now x)) as Hl.
  destruct (check_and_record _ _ _ _) as [b c1]. cbn [fst snd] in *. subst b.
  specialize (IH (c_now x) c1 (if spec_fresh acc x then (c_id x, c_exp x) :: acc else acc)).
  destruct (run c1 tr) as [bs c2]. cbn [fst] in *. f_equal. apply IH; [|done].
  intros id t' Ht'. rewrite Hl, R by lia. destruct (spec_fresh acc x); [|naive_solver].
  setoid_rewrite elem_of_cons. naive_solver.
Qed.

(** One call keeps every entry that has not expired at its time. *)
Lemma check_and_record_keeps c id e x now0 now :
  seen c !! id = Some e → now < e → seen (check_and_record c x now0 now).2 !! id = Some e.
Proof.
  intros H0 Hx.
  assert (seen (sweep c now) !! id = Some e) as H2.
  { unfold sweep. case_match; [|done]. cbn. by rewrite evict_lookup. }
  unfold check_and_record. repeat case_match; cbn; try done; bool_facts;
    destruct (decide (x = id)) as [Heq|]; try (by rewrite lookup_insert_ne);
    rewrite Heq in *; simplify_eq; lia.
Qed.

Lemma check_and_record_accepts c id e now :
  (check_and_record c id e now).1 = true →
  seen (check_and_record c id e now).2 !! id = Some e.
Proof.
  unfold check_and_record. repeat case_match; cbn; try done; intros _; apply lookup_insert_eq.
Qed.

Lemma check_and_record_refuses c id e e' now :
  seen c !! id = Some e → now < e → (check_and_record c id e' now).1 = false.
Proof.
  intros Hc He. apply not_true_iff_false. rewrite check_and_record_verdict.
  intros [_ Hl]. apply Hl. by exists e.
Qed.

(** Single presentation: once an identifier has been accepted with expiry [e], it is
    rejected by every later call at a time before [e], whatever expiry that call
    claims and whatever other calls came in between, as long as no clock reading in
    between had reached [e]. *)
Theorem replay_rejected c id e now mid e' now' :
  (check_and_record c id e now).1 = true →
  Forall (λ x, c_now x < e) mid → now' < e →
  (check_and_record (run (check_and_record c id e now).2 mid).2 id e' now').1 = false.
Proof.
  intros Hacc%check_and_record_accepts Hmid Hn'. apply (check_and_record_refuses _ _ e); [|done].
  revert Hacc. generalize (check_and_record c id e now).2 as c0.
  induction Hmid as [|x mid Hx Hmid IH]; intros c0 H0; [done|]. cbn [run].
  pose proof (check_and_record_keeps c0 id e (c_id x) (c_exp x) (c_now x) H0 Hx) as H1.
  destruct (check_and_record c0 _ _ _) as [b c1]. cbn [snd] in *. apply IH in H1.
  by destruct (run c1 mid).
Qed.

Lemma replay_rejected_witness :
  let c1 := (check_and_record new (lit "sig") 100 7).2 in
  let mid := [{| c_id := lit "other"; c_exp := 60; c_now := 20 |}] in
  (check_and_record (run c1 mid).2 (lit "sig") 100 99).1 = false.
Proof.
  intros c1 mid.
  apply (replay_rejected new (lit "sig") 100 7 mid 100 99);
    [by vm_compute|repeat constructor|by vm_compute].
Defined.

Lemma replay_refines_history_witness :
  let tr := [ {| c_id := lit "a"; c_exp := 10; c_now := 3 |};
              {| c_id := lit "a"; c_exp := 10; c_now := 9 |};
              {| c_id := lit "a"; c_exp := 30; c_now := 12 |} ] in
  (run new tr).1 = spec_run [] tr ∧ spec_run [] tr = [true; false; true].
Proof.
  intros tr. split; [|by vm_compute].
  apply (replay_refines_history 0 tr). cbn. repeat split; lia.
Defined.

(** Memory: with a clock that does not go back, nothing is retained that expired more
    than a sweep interval ago. *)
Definition swept_ok (c : ReplayCache) (t : N) : Prop :=
  last_evict_at c <= t ∧ map_Forall (λ _ e, last_evict_at c < e) (seen c).

Lemma check_and_record_swept c id e now t :
  swept_ok c t → t <= now →
  swept_ok (check_and_record c id e now).2 now ∧
  now - last_evict_at (check_and_record c id e now).2 < EVICT_INTERVAL_SECS.
Proof.
  intros [Hl Hm] Ht.
  assert (swept_ok (sweep c now) now ∧ now - last_evict_at (sweep c now) < EVICT_INTERVAL_SECS)
    as [[Hl' Hm'] Hi].
  { unfold sweep, swept_ok. destruct (_ <=? _) eqn:E; bool_facts; cbn.
    - split; [|unfold EVICT_INTERVAL_SECS; lia]. split; [lia|].
      intros k v Hk%evict_lookup. tauto.
    - repeat split; try lia. done. }
  unfold check_and_record, swept_ok. repeat case_match; cbn; bool_facts; split; try done;
    (split; [done|]); apply map_Forall_insert_2; try done; lia.
Qed.

(** Bounded retention: after any sequence of presentations with a clock that does
    not go back, every identifier the cache still holds expires later than five
    seconds (the sweep interval) before the last clock reading. *)
Theorem replay_retention tr x :
  clock_from 0 (tr ++ [x]) →
  map_Forall (λ _ e, c_now x < e + EVICT_INTERVAL_SECS) (seen (run new (tr ++ [x])).2).
Proof.
  assert (swept_ok new 0) as H0 by (split; [done|apply map_Forall_empty]).
  revert H0. generalize new as c. generalize 0 as t.
  induction tr as [|y tr IH]; intros t c H0; cbn [app clock_from run]; intros [Ht Hc].
  - pose proof (check_and_record_swept c (c_id x) (c_exp x) (c_now x) t H0 Ht) as [[Hl Hm] Hi].
    destruct (check_and_record _ _ _ _) as [b c1]. cbn in *.
    intros k e Hk. specialize (Hm k e Hk). cbn in Hm. lia.
  - pose proof (check_and_record_swept c (c_id y) (c_exp y) (c_now y) t H0 Ht) as [H1 _].
    destruct (check_and_record _ _ _ _) as [b c1]. cbn [snd] in *.
    specialize (IH _ _ H1 Hc). by destruct (run c1 (tr ++ [x])).
Qed.

Lemma replay_retention_witness :
  let x := {| c_id := lit "b"; c_exp := 40; c_now := 9 |} in
  map_Forall (λ _ e, 9 < e + EVICT_INTERVAL_SECS)
    (seen (run new ([{| c_id := lit "a"; c_exp := 10; c_now := 3 |}] ++ [x])).2).
Proof.
  intros x. apply (replay_retention [{| c_id := lit "a"; c_exp := 10; c_now := 3 |}] x).
  cbn. repeat split; lia.
Defined.

End Replay.

Module RateLimit.
Section with_key.
Context {K : Type} `{Countable K}.

(** src/crates/common/src/ratelimit.rs:14-32 [KeyedRateLimiter] *)
Record KeyedRateLimiter := {
  max_per_window : N;
  counters : gmap K (N * N);
  last_swept_window : N;
  max_tracked_keys : option nat;
  insertion_order : list K
}.

(** src/crates/common/src/ratelimit.rs:35-43 [KeyedRateLimiter::new] *)
Definition new (max : N) : KeyedRateLimiter :=
  {| max_per_window := max; counters := ∅; last_swept_window := 0;
     max_tracked_keys := None; insertion_order := [] |}.

(** src/crates/common/src/ratelimit.rs:49-57 [KeyedRateLimiter::with_max_tracked_keys] *)
Definition with_max_tracked_keys (max : N) (cap : nat) : KeyedRateLimiter :=
  {| max_per_window := max; counters := ∅; last_swept_window := 0;
     max_tracked_keys := Some cap; insertion_order := [] |}.

(** src/crates/common/src/ratelimit.rs:67-77 [KeyedRateLimiter::allow]: the sweep on a
    window transition, and the order list kept in step with it. *)
Definition sweep (l : KeyedRateLimiter) (window : N) : KeyedRateLimiter :=
  if last_swept_window l <? window then
    let cs := filter (λ p, window <= p.2.1) (counters l) in
    {| max_per_window := max_per_window l; counters := cs; last_swept_window := window;
       max_tracked_keys := max_tracked_keys l;
       insertion_order := match max_tracked_keys l with
                          | Some _ => filter (λ k, is_Some (cs !! k)) (insertion_order l)
                          | None => insertion_order l
                          end |}
  else l.

(** src/crates/common/src/ratelimit.rs:95-100 [KeyedRateLimiter::allow]: pop the oldest
    keys until one was still tracked. *)
Fixpoint evict_oldest (order : list K) (cs : gmap K (N * N)) : list K * gmap K (N * N) :=
  match order with
  | [] => ([], cs)
  | oldest :: order' =>
    match cs !! oldest with
    | Some _ => (order', delete oldest cs)
    | None => evict_oldest order' cs
    end
  end.

(** src/crates/common/src/ratelimit.rs:92-104 [KeyedRateLimiter::allow]: the capacity
    bound, for a new key of a limiter that has one. *)
Definition admit_key (l : KeyedRateLimiter) (key : K) : KeyedRateLimiter :=
  match counters l !! key, max_tracked_keys l with
  | None, Some cap =>
    let '(order, cs) :=
      if (cap <=? size (counters l))%nat then evict_oldest (insertion_order l) (counters l)
      else (insertion_order l, counters l) in
    {| max_per_window := max_per_window l; counters := cs;
       last_swept_window := last_swept_window l; max_tracked_keys := max_tracked_keys l;
       insertion_order := order ++ [key] |}
  | _, _ => l
  end.

(** src/crates/common/src/ratelimit.rs:105-113 [KeyedRateLimiter::allow]: the entry of
    the key, reset for a new window, and counted. *)
Definition count (l : KeyedRateLimiter) (key : K) (window : N) : bool * KeyedRateLimiter :=
  let entry := default (window, 0) (counters l !! key) in
  let entry := if negb (entry.1 =? window) then (window, 0) else entry in
  let write e :=
    {| max_per_window := max_per_window l; counters := <[key := e]> (counters l);
       last_swept_window := last_swept_window l; max_tracked_keys := max_tracked_keys l;
       insertion_order := insertion_order l |} in
  if max_per_window l <=? entry.2 then (false, write entry)
  else (true, write (entry.1, entry.2 + 1)).

(** src/crates/common/src/ratelimit.rs:61-114 [KeyedRateLimiter::allow] *)
Definition allow (l : KeyedRateLimiter) (key : K) (window : N) : bool * KeyedRateLimiter :=
  count (admit_key (sweep l window) key) key window.

(** src/crates/common/src/ratelimit.rs:118-120 [KeyedRateLimiter::tracked_keys] *)
Definition tracked_keys (l : KeyedRateLimiter) : nat := size (counters l).

(** src/crates/common/src/ratelimit.rs:131-136 [KeyedRateLimiter::over_limit] *)
Definition over_limit (l : KeyedRateLimiter) (key : K) (window : N) : bool :=
  match counters l !! key with
  | Some (w, n) => (w =? window) && (max_per_window l <=? n)
  | None => false
  end.

(** A sequence of attempts, with the verdicts. *)
Fixpoint run (l : KeyedRateLimiter) (tr : list (K * N)) : list bool * KeyedRateLimiter :=
  match tr with
  | [] => ([], l)
  | (k, w) :: tr' =>
    let '(b, l1) := allow l k w in
    let '(bs, l2) := run l1 tr' in (b :: bs, l2)
  end.

(** The reference: an attempt is allowed iff fewer than [max] earlier attempts of the
    same key in the same window were. *)
Definition attempts (hist : list (K * N)) (k : K) (w : N) : N :=
  N.of_nat (length (filter (λ p, p = (k, w)) hist)).
Fixpoint spec_run (max : N) (hist : list (K * N)) (tr : list (K * N)) : list bool :=
  match tr with
  | [] => []
  | (k, w) :: tr' =>
    let b := attempts hist k w <? max in
    b :: spec_run max (if b then (k, w) :: hist else hist) tr'
  end.

(** Windows from [w0] on that never go back. *)
Fixpoint windows_from (w0 : N) (tr : list (K * N)) : Prop :=
  match tr with [] => True | (_, w) :: tr' => w0 <= w ∧ windows_from w tr' end.

(** The order list of a capped limiter holds exactly the tracked keys, each once; an
    uncapped limiter keeps no order at all. *)
Definition order_ok (l : KeyedRateLimiter) : Prop :=
  match max_tracked_keys l with
  | Some _ => NoDup (insertion_order l) ∧
              ∀ k, k ∈ insertion_order l ↔ is_Some (counters l !! k)
  | None => insertion_order l = []
  end.

End with_key.
Arguments KeyedRateLimiter K {_ _}.

Section facts.
Context {K : Type} `{Countable K}.
Implicit Types (l : KeyedRateLimiter K) (k key : K) (w window : N).

(** The count a limiter holds for a key in a window. *)
Definition held l k w : N :=
  match counters l !! k with Some (w', n) => if w' =? w then n else 0 | None => 0 end.

Lemma sweep_held l w0 k w : w0 <= w → held (sweep l w0) k w = held l k w.
Proof.
  intros Hw. unfold held, sweep. destruct (_ <? _); [|done]. cbn.
  destruct (counters l !! k) as [[w' n]|] eqn:E.
  - destruct (N.le_gt_cases w0 w').
    + by rewrite (map_lookup_filter_Some_2 _ _ k (w', n)).
    + rewrite map_lookup_filter_None_2; [|right; intros ? ?; simplify_eq; cbn; lia].
      destruct (w' =? w) eqn:E'; bool_facts; [lia|done].
  - rewrite map_lookup_filter_None_2; auto.
Qed.

Lemma sweep_max l w : max_per_window (sweep l w) = max_per_window l
                      ∧ max_tracked_keys (sweep l w) = max_tracked_keys l.
Proof. unfold sweep. by destruct (_ <? _). Qed.

(** A key that is tracked, or any key of an uncapped limiter, evicts nothing. *)
Lemma admit_key_id l k :
  is_Some (counters l !! k) ∨ max_tracked_keys l = None → admit_key l k = l.
Proof.
  unfold admit_key. intros [[e ->]|E]; [done|]. rewrite E. by destruct (counters l !! k).
Qed.

Lemma admit_key_max l k : max_per_window (admit_key l k) = max_per_window l
                          ∧ max_tracked_keys (admit_key l k) = max_tracked_keys l.
Proof. unfold admit_key. repeat case_match; done. Qed.

(** The entry [count] reads is always the held count of the current window. *)
Lemma count_entry l k w :
  (let entry := default (w, 0) (counters l !! k) in
   if negb (entry.1 =? w) then (w, 0) else entry) = (w, held l k w).
Proof.
  unfold held. destruct (counters l !! k) as [[w0 n]|]; cbn; [|by rewrite N.eqb_refl].
  destruct (w0 =? w) eqn:E; bool_facts; by subst.
Qed.

Lemma count_verdict l k w : (count l k w).1 = (held l k w <? max_per_window l).
Proof.
  unfold count. rewrite count_entry. cbn. rewrite N.ltb_antisym.
  by destruct (max_per_window l <=? held l k w).
Qed.

Lemma count_counters l k w :
  counters (count l k w).2 =
    <[k := (w, held l k w + if (count l k w).1 then 1 else 0)]> (counters l).
Proof.
  unfold count. rewrite count_entry. cbn.
  destruct (max_per_window l <=? held l k w); cbn; [by rewrite N.add_0_r|done].
Qed.

Lemma count_rest l k w :
  let l' := (count l k w).2 in
  max_per_window l' = max_per_window l ∧ last_swept_window l' = last_swept_window l ∧
  max_tracked_keys l' = max_tracked_keys l ∧ insertion_order l' = insertion_order l.
Proof. unfold count. rewrite count_entry. cbn. by destruct (_ <=? _). Qed.

Lemma count_held l k w k' w' :
  held (count l k w).2 k' w' =
    if decide (k' = k) then if w' =? w then held l k w + (if (count l k w).1 then 1 else 0) else 0
    else held l k' w'.
Proof.
  unfold held at 1. rewrite count_counters. destruct (decide (k' = k)) as [->|].
  - by rewrite lookup_insert_eq, (N.eqb_sym w').
  - by rewrite lookup_insert_ne by done.
Qed.

Lemma evict_oldest_lookup (order : list K) (cs : gmap K (N * N)) k v :
  (evict_oldest order cs).2 !! k = Some v → cs !! k = Some v.
Proof.
  induction order as [|o order IH]; cbn; [done|]. destruct (cs !! o); [|done]. cbn.
  intros [_ ?]%lookup_delete_Some. done.
Qed.

Lemma admit_key_lookup l k k' v :
  counters (admit_key l k) !! k' = Some v → counters l !! k' = Some v.
Proof.
  unfold admit_key. destruct (counters l !! k); [done|]. destruct (max_tracked_keys l); [|done].
  destruct (_ <=? _)%nat; [|done].
  pose proof (evict_oldest_lookup (insertion_order l) (counters l) k' v) as E.
  by destruct (evict_oldest _ _).
Qed.

Lemma admit_key_held l k w : held (admit_key l k) k w = held l k w.
Proof.
  unfold held. destruct (counters l !! k) as [e|] eqn:E.
  - by rewrite admit_key_id, E by eauto.
  - destruct (counters (admit_key l k) !! k) as [e|] eqn:E'; [|done].
    apply admit_key_lookup in E'. congruence.
Qed.

(** The verdict is decided by the count held before the call, sweep and eviction
    notwithstanding. *)
Lemma allow_verdict l k w : (allow l k w).1 = (held l k w <? max_per_window l).
Proof.
  unfold allow. rewrite count_verdict, admit_key_held, sweep_held by done.
  by rewrite (proj1 (admit_key_max _ _)), (proj1 (sweep_max _ _)).
Qed.

(** The read-only test of an enforcement point agrees with the counting one: an
    attempt is refused iff [over_limit] already said so (or the limit is zero), for any
    limiter state, capped or not. *)
Theorem over_limit_iff_refused l k w :
  (allow l k w).1 = false ↔ over_limit l k w = true ∨ max_per_window l = 0.
Proof.
  rewrite allow_verdict, N.ltb_ge. unfold over_limit, held.
  destruct (counters l !! k) as [[w' n]|]; [|naive_solver lia].
  destruct (w' =? w); cbn [andb]; [|naive_solver lia]. rewrite N.leb_le. naive_solver lia.
Qed.

(** No stored window lies after [w0]. *)
Definition windows_le l (w0 : N) : Prop := map_Forall (λ _ e, e.1 <= w0) (counters l).

Lemma sweep_windows l w w0 : windows_le l w0 → windows_le (sweep l w) w0.
Proof.
  unfold sweep, windows_le. destruct (_ <? _); [|done]. intros Hw k e He. cbn in He.
  apply map_lookup_filter_Some in He as [He _]. by apply Hw in He.
Qed.

Lemma windows_held l w0 k w : windows_le l w0 → w0 < w → held l k w = 0.
Proof.
  intros Hw Hlt. unfold held. destruct (counters l !! k) as [[w' n]|] eqn:E; [|done].
  apply Hw in E. cbn in E. destruct (w' =? w) eqn:E'; bool_facts; [lia|done].
Qed.

Lemma allow_uncapped l k w w0 :
  max_tracked_keys l = None → windows_le l w0 → w0 <= w →
  max_tracked_keys (allow l k w).2 = None ∧
  max_per_window (allow l k w).2 = max_per_window l ∧
  windows_le (allow l k w).2 w ∧
  ∀ k' w', w <= w' → held (allow l k w).2 k' w' =
    held l k' w' + (if decide ((k', w') = (k, w)) then if (allow l k w).1 then 1 else 0 else 0).
Proof.
  intros Hc Hw H0. destruct (sweep_max l w) as [Hm Hc']. unfold allow.
  rewrite admit_key_id by (right; by rewrite Hc').
  destruct (count_rest (sweep l w) k w) as (Hm2 & _ & Hc2 & _).
  repeat split; try congruence.
  - unfold windows_le. rewrite count_counters. apply map_Forall_insert_2; [cbn; lia|].
    intros k' e He. apply (sweep_windows _ w) in Hw. apply Hw in He. lia.
  - intros k' w' Hw'. rewrite count_held, !sweep_held by done.
    destruct (decide (k' = k)) as [->|]; [|rewrite decide_False by congruence; lia].
    destruct (w' =? w) eqn:E; bool_facts.
    + subst. by rewrite decide_True.
    + rewrite decide_False, (windows_held l w0) by (congruence || done || lia). done.
Qed.

Lemma attempts_cons hist k w k' w' :
  attempts ((k, w) :: hist) k' w' = attempts hist k' w' + (if decide ((k', w') = (k, w)) then 1 else 0).
Proof.
  unfold attempts. rewrite filter_cons. destruct (decide ((k, w) = (k', w'))).
  - rewrite decide_True by congruence. cbn. lia.
  - rewrite decide_False by congruence. lia.
Qed.

(** The limiter counts exactly: on every sequence of attempts whose window index does
    not go back, an uncapped limiter allows an attempt iff fewer than [max] attempts of
    that key were allowed in that window before it. Sweeping past windows away never
    changes a verdict. *)
Theorem rate_limit_exact max tr :
  windows_from 0 tr → (run (new (K := K) max) tr).1 = spec_run max [] tr.
Proof.
  assert (windows_le (new (K := K) max) 0) as Hw by apply map_Forall_empty.
  assert (∀ k w, 0 <= w → held (new (K := K) max) k w = attempts [] k w) as Hh by done.
  assert (max_tracked_keys (new (K := K) max) = None) as Hc by done.
  assert (max_per_window (new (K := K) max) = max) as Hm by done.
  revert Hw Hh Hc Hm. generalize (new (K := K) max) as l, (@nil (K * N)) as hist. generalize 0 as w0.
  induction tr as [|[k w] tr IH]; intros w0 l hist Hw Hh Hc Hm; cbn [windows_from run spec_run];
    [done|intros [H0 Htr]].
  destruct (allow_uncapped l k w w0 Hc Hw H0) as (Hc' & Hm' & Hw' & Hh').
  pose proof (allow_verdict l k w) as Hv. rewrite Hh, Hm in Hv by done.
  destruct (allow l k w) as [b l1]. cbn [fst snd] in *. subst b.
  specialize (IH w l1 (if attempts hist k w <? max then (k, w) :: hist else hist)).
  destruct (run l1 tr) as [bs l2]. cbn [fst] in *. f_equal.
  apply IH; try done; [|congruence].
  intros k' w' Hle. rewrite Hh', Hh by lia. destruct (attempts hist k w <? max).
  - by rewrite attempts_cons.
  - case_decide; lia.
Qed.

(** The order list after a new key was let in, before it is counted. *)
Lemma sweep_order l w : order_ok l → order_ok (sweep l w).
Proof.
  unfold order_ok. rewrite (proj2 (sweep_max l w)). unfold sweep.
  destruct (_ <? _); [|done]. cbn. destruct (max_tracked_keys l); [|done].
  intros [Hnd Ho]. split; [by apply list.NoDup_filter|].
  intros k. rewrite list_elem_of_filter, Ho. split; [tauto|]. intros Hk. split; [done|].
  destruct Hk as [e He]. apply map_lookup_filter_Some in He as [He _]. by exists e.
Qed.

Lemma admit_key_order l k :
  order_ok l →
  match max_tracked_keys l with
  | Some cap => NoDup (insertion_order (admit_key l k)) ∧
    (∀ k', k' ∈ insertion_order (admit_key l k) ↔
           is_Some (counters (admit_key l k) !! k') ∨ k' = k) ∧
    (size (counters l) ≤ Nat.max 1 cap → counters l !! k = None →
     size (counters (admit_key l k)) < Nat.max 1 cap)%nat
  | None => insertion_order (admit_key l k) = []
  end.
Proof.
  unfold order_ok. intros Ho. destruct (max_tracked_keys l) as [cap|] eqn:Hc;
    [|by rewrite admit_key_id by auto]. destruct Ho as [Hnd Ho].
  destruct (counters l !! k) as [e|] eqn:Hk.
  { rewrite admit_key_id by (rewrite Hk; eauto). split_and!; try done.
    intros k'. rewrite Ho. split; [auto|]. intros [?| ->]; [done|]. by exists e. }
  assert (k ∉ insertion_order l) as Hkn by (rewrite Ho, Hk; by intros [? ?]).
  unfold admit_key. rewrite Hk, Hc. destruct (cap <=? size (counters l))%nat eqn:Hsz.
  2:{ cbn. split_and!.
      - apply list.NoDup_app. split_and!; [done| |apply NoDup_singleton].
        intros x Hx ->%list_elem_of_singleton. done.
      - intros k'. by rewrite elem_of_app, list_elem_of_singleton, Ho.
      - apply Nat.leb_gt in Hsz. lia. }
  apply Nat.leb_le in Hsz. destruct (insertion_order l) as [|o order] eqn:Eo.
  - cbn. split_and!; [apply NoDup_singleton| |].
    + intros k'. rewrite list_elem_of_singleton. specialize (Ho k'). rewrite elem_of_nil in Ho. tauto.
    + intros _ _. assert (counters l = ∅) as ->; [|rewrite map_size_empty; lia].
      apply map_empty. intros k'. apply eq_None_not_Some. rewrite <- Ho. apply not_elem_of_nil.
  - assert (is_Some (counters l !! o)) as [e He] by (apply Ho; by left).
    cbn. rewrite He. cbn. apply list.NoDup_cons in Hnd as [Hon Hnd].
    apply not_elem_of_cons in Hkn as [Hko Hkn]. split_and!.
    + apply list.NoDup_app. split_and!; [done| |apply NoDup_singleton].
      intros x Hx ->%list_elem_of_singleton. done.
    + intros k'. rewrite elem_of_app, list_elem_of_singleton. specialize (Ho k').
      rewrite elem_of_cons in Ho. destruct (decide (k' = o)) as [->|].
      * rewrite lookup_delete_eq. split; [intros [?| ->]; [done|auto]|].
        intros [[? ?]| ->]; [done|auto].
      * rewrite lookup_delete_ne by done. rewrite <- Ho. tauto.
    + intros Hle _. rewrite map_size_delete_Some by eauto.
      assert (size (counters l) ≠ 0)%nat; [|lia].
      intros E%map_size_empty_inv. rewrite E in He. done.
Qed.

Lemma allow_order l k w :
  order_ok l → order_ok (allow l k w).2 ∧
  ∀ cap, max_tracked_keys l = Some cap →
    (size (counters l) ≤ Nat.max 1 cap → size (counters (allow l k w).2) ≤ Nat.max 1 cap)%nat.
Proof.
  intros Ho. apply (sweep_order _ w) in Ho. apply (admit_key_order _ k) in Ho.
  unfold allow. destruct (count_rest (admit_key (sweep l w) k) k w) as (_ & _ & Hc & Hi).
  pose proof (count_counters (admit_key (sweep l w) k) k w) as Hcs.
  rewrite (proj2 (admit_key_max _ _)), (proj2 (sweep_max _ _)) in Hc.
  rewrite (proj2 (sweep_max _ _)) in Ho. unfold order_ok. rewrite Hc, Hi, Hcs.
  destruct (max_tracked_keys l) as [cap|] eqn:Hcap; [|by split].
  destruct Ho as (Hnd & Hin & Hsz). split.
  - split; [done|]. intros k'. rewrite Hin. destruct (decide (k' = k)) as [->|].
    + rewrite lookup_insert_eq. split; eauto.
    + rewrite lookup_insert_ne by done. naive_solver.
  - intros cap' [= <-] Hle.
    assert (size (counters (sweep l w)) ≤ size (counters l))%nat as Hle'.
    { unfold sweep. destruct (_ <? _); [|done]. cbn. apply map_size_filter. }
    destruct (counters (sweep l w) !! k) as [e|] eqn:Hk.
    + rewrite admit_key_id in * by eauto. rewrite map_size_insert_Some by eauto. lia.
    + destruct (counters (admit_key (sweep l w) k) !! k) as [e|] eqn:Hk'.
      { apply admit_key_lookup in Hk'. congruence. }
      rewrite map_size_insert_None by done. specialize (Hsz ltac:(lia) eq_refl). lia.
Qed.

(** Bounded memory under key churn: after any sequence of attempts, with windows in
    any order, a limiter built with a capacity tracks at most that many keys (one, for
    capacity zero), and its eviction queue holds exactly the tracked keys, each once,
    so the queue cannot leak either; an uncapped limiter's queue stays empty. *)
Theorem rate_limit_bounded max cap (tr : list (K * N)) :
  (tracked_keys (run (with_max_tracked_keys max cap) tr).2 ≤ Nat.max 1 cap)%nat ∧
  order_ok (run (with_max_tracked_keys max cap) tr).2 ∧
  insertion_order (run (new max) tr).2 = [].
Proof.
  assert (∀ l, order_ok l → order_ok (run l tr).2 ∧
    max_tracked_keys (run l tr).2 = max_tracked_keys l ∧
    ∀ c, max_tracked_keys l = Some c → (size (counters l) ≤ Nat.max 1 c)%nat →
         (size (counters (run l tr).2) ≤ Nat.max 1 c)%nat) as R.
  { induction tr as [|[k w] tr IH]; intros l Ho; cbn [run]; [by split_and!|].
    destruct (allow_order l k w Ho) as [Ho' Hs].
    assert (max_tracked_keys (allow l k w).2 = max_tracked_keys l) as Hc.
    { unfold allow. destruct (count_rest (admit_key (sweep l w) k) k w) as (_ & _ & -> & _).
      by rewrite (proj2 (admit_key_max _ _)), (proj2 (sweep_max _ _)). }
    destruct (allow l k w) as [b l1]. cbn [snd] in *. specialize (IH l1 Ho').
    destruct (run l1 tr) as [bs l2]. cbn [snd] in *. destruct IH as (I1 & I2 & I3).
    split_and!; [done|congruence|]. intros c Hcap Hle. apply I3; [congruence|]. by apply Hs. }
  split_and!.
  - unfold tracked_keys. refine (proj2 (proj2 (R (with_max_tracked_keys max cap) _)) cap eq_refl _).
    + split; [apply NoDup_nil_2|]. intros k. cbn. rewrite lookup_empty, elem_of_nil. by split; [|intros [? ?]].
    + cbn. rewrite map_size_empty. lia.
  - refine (proj1 (R (with_max_tracked_keys max cap) _)).
    split; [apply NoDup_nil_2|]. intros k. cbn. rewrite lookup_empty, elem_of_nil. by split; [|intros [? ?]].
  - destruct (R (new max) eq_refl) as (I1 & I2 & _). unfold order_ok in I1. by rewrite I2 in I1.
Qed.

End facts.

Lemma rate_limit_exact_witness :
  let tr := [(lit "t", 4); (lit "t", 4); (lit "t", 4); (lit "u", 4); (lit "t", 5)] in
  (run (new 2) tr).1 = spec_run 2 [] tr ∧ spec_run 2 [] tr = [true; true; false; true; true].
Proof.
  intros tr. split; [|by vm_compute]. apply rate_limit_exact. cbn. repeat split; lia.
Defined.

End RateLimit.
