(* ===== verification/Pow.v ===== *)
(** * Proof-of-work gate

    [crates/common/src/pow.rs]: the challenge a client has to solve before the edge
    does a rendezvous for it. SHA-256 comes from the [sha2] crate and is a parameter
    of the section. *)

From S2P Require Import Prelude RustStd.

Module Pow.

(** src/crates/common/src/lib.rs:84-84 [RoutingToken] *)
Definition RoutingToken : Type := bytes.

(** src/crates/common/src/pow.rs:14-17 [Challenge] *)
Record Challenge := { nonce : bytes; difficulty : N }.

(** src/crates/common/src/pow.rs:71-71 [DifficultyTooHigh] *)
Inductive DifficultyTooHigh := Difficulty_too_high (d : N).

(** src/crates/common/src/pow.rs:104-107 [GateError] *)
Inductive GateError := Malformed | BadProofOfWork.

(** src/crates/common/src/pow.rs:66-66 [MAX_CLIENT_SOLVABLE_DIFFICULTY] *)
Definition MAX_CLIENT_SOLVABLE_DIFFICULTY : N := 32.

(** [u8::leading_zeros]. *)
Definition leading_zeros (b : byte) : N := 8 - N.size (N_of_byte b).

(** src/crates/common/src/pow.rs:19-30 [leading_zero_bits]: the loop, with its count. *)
Fixpoint leading_zero_bits (hash : bytes) : N :=
  match hash with
  | [] => 0
  | b :: hash' =>
    if N_of_byte b =? 0 then 8 + leading_zero_bits hash' else leading_zeros b
  end.

(** src/crates/common/src/pow.rs:114-119 [assemble_request] *)
Definition assemble_request (solution : N) (token : RoutingToken) : bytes :=
  u64_le solution ++ token.

Section with_hash.
Context (sha256 : bytes → bytes).

(** src/crates/common/src/pow.rs:33-39 [hash] *)
Definition hash (nonce : bytes) (token : RoutingToken) (solution : N) : bytes :=
  sha256 (nonce ++ token ++ u64_le solution).

(** src/crates/common/src/pow.rs:52-54 [verify] *)
Definition verify (c : Challenge) (token : RoutingToken) (solution : N) : bool :=
  difficulty c <=? leading_zero_bits (hash (nonce c) token solution).

(** src/crates/common/src/pow.rs:94-99 [solve]: the brute-force loop, at most [fuel]
    rounds of it; [None] is a loop that is still running. *)
Fixpoint solve_loop (c : Challenge) (token : RoutingToken) (fuel : nat) (solution : N)
    : option N :=
  match fuel with
  | O => None
  | S fuel' =>
    if verify c token solution then Some solution
    else solve_loop c token fuel' (wrap64 (solution + 1))
  end.

(** src/crates/common/src/pow.rs:89-100 [solve] *)
Definition solve (fuel : nat) (c : Challenge) (token : RoutingToken)
    : option (Result N DifficultyTooHigh) :=
  if MAX_CLIENT_SOLVABLE_DIFFICULTY <? difficulty c
  then Some (Err (Difficulty_too_high (difficulty c)))
  else Ok <$> solve_loop c token fuel 0.

(** src/crates/common/src/pow.rs:128-130 [build_request] *)
Definition build_request (fuel : nat) (c : Challenge) (token : RoutingToken)
    : option (Result bytes DifficultyTooHigh) :=
  (λ r, s <-? r; Ok (assemble_request s token)) <$> solve fuel c token.

(** src/crates/common/src/pow.rs:137-149 [check_request] *)
Definition check_request (c : Challenge) (request : bytes) : Result RoutingToken GateError :=
  if negb (length request =? 40)%nat then Err Malformed
  else
    let solution := le_val (slice 0 8 request) in
    let token := slice 8 40 request in
    if negb (verify c token solution) then Err BadProofOfWork else Ok token.

Lemma check_request_assemble c s token :
  u64_ok s → length token = 32%nat →
  check_request c (assemble_request s token) =
    if verify c token s then Ok token else Err BadProofOfWork.
Proof.
  intros Hs Ht. unfold check_request, assemble_request.
  rewrite length_app, length_u64_le, Ht. cbn [Nat.add Nat.eqb negb].
  assert (slice 0 8 (u64_le s ++ token) = u64_le s) as ->
    by (apply (slice_app []); by rewrite ?length_u64_le).
  assert (slice 8 40 (u64_le s ++ token) = token) as ->
    by (unfold slice; rewrite drop_app_length' by (by rewrite length_u64_le); apply take_ge; lia).
  rewrite le_val_u64_le by done. by destruct (verify c token s).
Qed.

(** The gate is sound and complete: [check_request] hands out a token iff the request
    is the 40-byte wire form of that token with some 64-bit solution that verifies for
    exactly that token under the challenge. *)
Theorem check_request_iff c request token :
  check_request c request = Ok token ↔
  ∃ s, u64_ok s ∧ length token = 32%nat ∧ request = assemble_request s token
       ∧ verify c token s = true.
Proof.
  split.
  - unfold check_request. destruct (length request =? 40)%nat eqn:L; cbn; [|done]. bool_facts.
    destruct (verify _ _ _) eqn:V; [|done]. intros [= <-].
    assert (length (slice 0 8 request) = 8%nat) as L8 by (apply length_slice; lia).
    assert (length (slice 8 40 request) = 32%nat) as L32 by (apply length_slice; lia).
    exists (le_val (slice 0 8 request)). split; [by apply le_val_u64_ok|]. split; [done|].
    split; [|done]. unfold assemble_request. rewrite u64_le_le_val by done. unfold slice.
    rewrite drop_0, (take_ge (drop 8 request)) by (rewrite length_drop; lia).
    symmetry. apply take_drop.
  - intros (s & Hs & Ht & -> & V). by rewrite check_request_assemble, V.
Qed.

Lemma least_solution (P : N → bool) n :
  (∀ s, s < n → P s = false) ∨ ∃ m, m < n ∧ P m = true ∧ ∀ s, s < m → P s = false.
Proof.
  induction n as [|n IH] using N.peano_ind; [left; lia|].
  destruct IH as [IH|(m & ? & ? & ?)]; [|right; exists m; split_and!; [lia|done|done]].
  destruct (P n) eqn:E; [right; exists n; split_and!; [lia|done|done]|].
  left. intros s Hs. destruct (N.eq_dec s n) as [->|]; [done|]. apply IH. lia.
Qed.

Lemma solve_loop_spec c token fuel s0 s :
  s0 + N.of_nat fuel <= U64 →
  solve_loop c token fuel s0 = Some s ↔
  s0 <= s ∧ s < s0 + N.of_nat fuel ∧ verify c token s = true ∧
  ∀ s', s0 <= s' → s' < s → verify c token s' = false.
Proof.
  revert s0. induction fuel as [|fuel IH]; intros s0 Hb; cbn [solve_loop].
  - split; [done|]. intros (? & ? & _). lia.
  - destruct (verify c token s0) eqn:V; cbv beta iota.
    + split.
      * intros [= <-]. split_and!; [lia|lia|done|lia].
      * intros (H1 & H2 & V' & Hmin). destruct (N.eq_dec s0 s) as [->|]; [done|].
        rewrite (Hmin s0) in V by lia. done.
    + destruct (N.eq_dec (s0 + 1) U64) as [E|E].
      * assert (fuel = 0)%nat as -> by lia. cbn [solve_loop]. split; [done|].
        intros (H1 & H2 & V' & _). assert (s = s0) by lia. congruence.
      * rewrite IH by (unfold wrap64; rewrite N.mod_small by lia; lia).
        unfold wrap64. rewrite N.mod_small by lia. split.
        -- intros (? & ? & V' & Hmin). split_and!; [lia|lia|done|].
           intros s' ? ?. destruct (N.eq_dec s' s0) as [->|]; [done|]. apply Hmin; lia.
        -- intros (? & ? & V' & Hmin). assert (s ≠ s0) by congruence.
           split_and!; [lia|lia|done|]. intros s' ? ?. apply Hmin; lia.
Qed.

(** C31 The solver terminates with the least solution: for a difficulty within the client
    bound, whenever some 64-bit value [s] verifies, [s + 1] rounds of the loop are
    enough and the result is the least value that verifies; a difficulty above the
    bound is refused before the first hash. *)
Theorem solve_terminates c token :
  (MAX_CLIENT_SOLVABLE_DIFFICULTY < difficulty c →
   ∀ fuel, solve fuel c token = Some (Err (Difficulty_too_high (difficulty c)))) ∧
  (difficulty c <= MAX_CLIENT_SOLVABLE_DIFFICULTY →
   ∀ s, u64_ok s → verify c token s = true →
   ∃ m, solve (N.to_nat (s + 1)) c token = Some (Ok m) ∧ m <= s ∧ verify c token m = true ∧
        ∀ s', s' < m → verify c token s' = false).
Proof.
  unfold solve. split.
  - intros H fuel. apply N.ltb_lt in H. by rewrite H.
  - intros H s Hs V. apply N.ltb_ge in H. rewrite H.
    destruct (solve_loop c token (N.to_nat (s + 1)) 0) as [m|] eqn:E.
    + exists m. apply solve_loop_spec in E as (? & ? & ? & Hmin); [|unfold u64_ok in Hs; lia].
      split_and!; [done|lia|done|]. intros s' ?. apply Hmin; lia.
    + exfalso.
      assert (∃ m, 0 <= m ∧ m <= s ∧ verify c token m = true ∧
                   ∀ s', s' < m → verify c token s' = false) as (m & _ & Hm & Vm & Hmin).
      { destruct (least_solution (verify c token) (s + 1)) as [Hno|(m & ? & ? & ?)].
        - rewrite Hno in V by lia. done.
        - exists m. split_and!; [lia|lia|done|done]. }
      assert (solve_loop c token (N.to_nat (s + 1)) 0 = Some m) as E'; [|congruence].
      apply solve_loop_spec; [unfold u64_ok in Hs; lia|]. split_and!; [lia|lia|done|].
      intros s' _ ?. by apply Hmin.
Qed.

End with_hash.

(** The leading zero bits are the bits the hash's big-endian value is short of the
    full width: a hash meets difficulty [d] iff its value is below [2^(8 n - d)], so the
    expected number of hashes is the [2^d] the gate is priced at. *)
Theorem leading_zero_bits_value h d :
  d <= 8 * N.of_nat (length h) →
  d <= leading_zero_bits h ↔ be_val h < 2 ^ (8 * N.of_nat (length h) - d).
Proof.
  intros Hd.
  assert (leading_zero_bits h + N.size (be_val h) = 8 * N.of_nat (length h)) as Hs.
  { clear Hd. induction h as [|b h IH]; [done|]. cbn [leading_zero_bits length].
    rewrite be_val_cons, Nat2N.inj_succ. pose proof (be_val_bound h) as Hb.
    destruct (N_of_byte b =? 0) eqn:E; bool_facts.
    - rewrite E, N.mul_0_l, N.add_0_l. lia.
    - pose proof (N_of_byte_bound b) as Hlt. unfold leading_zeros.
      assert (256 ^ N.of_nat (length h) = 2 ^ (8 * N.of_nat (length h))) as Hp
        by (change 256 with (2 ^ 8); by rewrite <- N.pow_mul_r).
      assert (N.size (N_of_byte b * 256 ^ N.of_nat (length h) + be_val h)
              = N.size (N_of_byte b) + 8 * N.of_nat (length h)) as ->.
      { rewrite Hp in *. set (k := 8 * N.of_nat (length h)) in *.
        rewrite !N.size_log2 by nia.
        rewrite (N.log2_unique' _ (N.log2 (N_of_byte b) + k)
                   ((N_of_byte b - 2 ^ N.log2 (N_of_byte b)) * 2 ^ k + be_val h)); [lia|lia| |].
        all: destruct (N.log2_spec (N_of_byte b)) as [L1 L2]; [lia|].
        - rewrite N.pow_add_r. rewrite N.pow_succ_r' in L2. nia.
        - rewrite N.pow_add_r. nia. }
      assert (N.size (N_of_byte b) <= 8); [|lia].
      rewrite N.size_log2 by lia. assert (N.log2 (N_of_byte b) < 8); [|lia].
      apply N.log2_lt_pow2; [lia|]. change (2 ^ 8) with 256. lia. }
  set (k := 8 * N.of_nat (length h)) in *. destruct (N.eq_dec (be_val h) 0) as [E|E].
  - rewrite E in *. cbn [N.size] in Hs. split; intros _; [|lia].
    apply N.neq_0_lt_0, N.pow_nonzero. done.
  - rewrite N.size_log2 in Hs by done. split; intros H.
    + apply N.log2_lt_pow2; lia.
    + apply N.log2_lt_pow2 in H; lia.
Qed.

Lemma leading_zero_bits_value_witness :
  let h := map byte_of_N [0; 31; 255] in
  11 <= leading_zero_bits h ↔ be_val h < 2 ^ (24 - 11).
Proof. intros h. apply (leading_zero_bits_value h 11). by vm_compute. Defined.

End Pow.
