(* ===== verification/Wire.v ===== *)
(** * Capabilities, hostnames, credentials

    [crates/common/src/lib.rs] (the shared wire types and the hostname normaliser) and
    [credential.rs] (the short-lived credential an agent presents). Ed25519 comes from
    the [ed25519-dalek] crate: which key bytes are keys and which signatures verify are
    parameters of the section that needs them. *)

From S2P Require Import Prelude RustStd Codec Limits.
Import Codec.Preimage.

Module Capability.

(** src/crates/common/src/lib.rs:94-98 [Capability] *)
Record Capability := { token : bytes; origin : bytes; edge_addr : bytes }.

(** src/crates/common/src/lib.rs:102-102 [MalformedCapability] *)
Inductive MalformedCapability := Malformed_capability.

(** src/crates/common/src/lib.rs:115-123 [Capability::encode] *)
Definition encode (c : Capability) : bytes :=
  token c ++ origin c ++ u32_le (wrap32 (blen (edge_addr c))) ++ edge_addr c.

(** src/crates/common/src/lib.rs:126-145 [Capability::decode] *)
Definition decode (b : bytes) : Result Capability MalformedCapability :=
  if (length b <? 68)%nat then Err Malformed_capability
  else
    let token := slice 0 32 b in
    let origin := slice 32 64 b in
    let addr_len := N.to_nat (le_val (slice 64 68 b)) in
    if negb (length b =? 68 + addr_len)%nat then Err Malformed_capability
    else
      edge_addr <-? ok_or (from_utf8 (slice 68 (68 + addr_len) b)) Malformed_capability;
      Ok {| token := token; origin := origin; edge_addr := edge_addr |}.

(** What the Rust types say: two 32-byte arrays and a string of at most [u32::MAX]
    bytes. *)
Definition capability_ok (c : Capability) : Prop :=
  length (token c) = 32%nat ∧ length (origin c) = 32%nat ∧
  utf8_valid (edge_addr c) = true ∧ u32_ok (blen (edge_addr c)).

(** A capability's wire form decodes to that capability and nothing else does:
    [decode] accepts exactly the encodings of well-formed capabilities, so importing is
    the inverse of exporting and every malformed or trailing byte is refused. *)
Theorem capability_decode_iff b c :
  decode b = Ok c ↔ capability_ok c ∧ b = encode c.
Proof.
  unfold decode. split.
  - destruct (length b <? 68)%nat eqn:L; [done|]. apply Nat.ltb_ge in L.
    destruct (length b =? _)%nat eqn:E; [|done]. bool_facts. cbn [negb].
    destruct (from_utf8 _) as [a|] eqn:U; cbn; [|done]. intros [= <-].
    apply from_utf8_Some in U as [U ->]. set (n := N.to_nat (le_val (slice 64 68 b))) in *.
    assert (length (slice 64 68 b) = 4%nat) as L4 by (rewrite length_slice; lia).
    assert (length (slice 68 (68 + n) b) = n) as Ln by (rewrite length_slice; lia).
    pose proof (le_val_bound (slice 64 68 b)) as Hb. rewrite L4 in Hb.
    change (256 ^ N.of_nat 4) with U32 in Hb.
    assert (blen (slice 68 (68 + n) b) = le_val (slice 64 68 b)) as Hl
      by (unfold blen; rewrite Ln; unfold n; lia).
    unfold capability_ok, encode. cbn [token origin edge_addr]. rewrite Hl. split.
    + rewrite !length_slice by lia. done.
    + unfold wrap32. rewrite N.mod_small, u32_le_le_val by done.
      rewrite !slice_glue by lia. symmetry. apply slice_all. lia.
  - intros [(Ht & Ho & U & Ha) ->]. unfold encode. unfold wrap32.
    rewrite N.mod_small by done. destruct c as [t o a]. cbn [token origin edge_addr] in *.
    assert (slice 0 32 (t ++ o ++ u32_le (blen a) ++ a) = t) as -> by by apply (slice_field []).
    assert (slice 32 64 (t ++ o ++ u32_le (blen a) ++ a) = o) as ->
      by (apply (slice_field [t]); cbn; lia).
    assert (slice 64 68 (t ++ o ++ u32_le (blen a) ++ a) = u32_le (blen a)) as ->
      by (apply (slice_field [t; o]); cbn; rewrite ?length_u32_le; lia).
    rewrite le_val_u32_le. unfold wrap32. rewrite N.mod_small by done.
    rewrite to_nat_blen.
    assert (slice 68 (68 + length a) (t ++ o ++ u32_le (blen a) ++ a) = a) as ->
      by (apply (slice_last [t; o; u32_le (blen a)]); cbn; rewrite ?length_u32_le; lia).
    rewrite !length_app, length_u32_le, Ht, Ho.
    rewrite (proj2 (Nat.ltb_ge _ _)) by lia. rewrite (proj2 (Nat.eqb_eq _ _)) by lia.
    cbn. by rewrite (proj2 (from_utf8_Some a a) (conj U eq_refl)).
Qed.

End Capability.

Module Hostname.

(** src/crates/common/src/lib.rs:173-177 [normalize_hostname]: the test one label has
    to pass ([true] is a good label). *)
Definition label_ok (label : bytes) : bool :=
  negb ((length label =? 0)%nat || (63 <? length label)%nat
        || starts_with (lit "-") label || ends_with (lit "-") label
        || negb (forallb (λ b, is_ascii_alphanumeric b || bool_decide (b = x2d)) label)).

(** src/crates/common/src/lib.rs:167-183 [normalize_hostname] *)
Definition normalize_hostname (s : bytes) : option bytes :=
  let s := to_ascii_lowercase (trim_end_matches x2e (trim s)) in
  if (length s =? 0)%nat || (253 <? length s)%nat then None
  else if forallb label_ok (split_on x2e s) then Some s else None.

(** The canonical names: what the routing tables are keyed by. *)
Definition canonical (h : bytes) : Prop :=
  h ≠ [] ∧ (length h ≤ 253)%nat ∧ Forall (λ l, label_ok l = true) (split_on x2e h) ∧
  Forall (λ b, is_upper b = false) h.

(** A byte of a canonical name. *)
Definition host_byte (b : byte) : bool :=
  (is_ascii_alphanumeric b || bool_decide (b = x2d) || bool_decide (b = x2e)) && negb (is_upper b).

Lemma split_on_last_sep c s : ∃ w ws, split_on c (s ++ [c]) = w :: ws ∧ [] ∈ ws.
Proof.
  induction s as [|b s (w & ws & E & H)]; cbn.
  - rewrite bool_decide_true by done. exists [], [[]]. split; [done|by left].
  - rewrite E. destruct (bool_decide (b = c)).
    + exists [], (w :: ws). split; [done|by right].
    + by exists (b :: w), ws.
Qed.

Lemma split_on_bytes c s b : b ∈ s → b = c ∨ ∃ w, w ∈ split_on c s ∧ b ∈ w.
Proof.
  induction s as [|x s IH]; [by intros ?%elem_of_nil|]. cbn.
  assert (∃ w ws, split_on c s = w :: ws) as (w & ws & E).
  { destruct s as [|y s]; [by eexists _, _|]. cbn. destruct (split_on c s) as [|w ws];
      [by eexists _, _|]. destruct (bool_decide (y = c)); by eexists _, _. }
  rewrite E in *. destruct (bool_decide (x = c)) eqn:D; bool_facts; intros Hb.
  - subst. apply elem_of_cons in Hb as [->|Hb]; [by left|]. destruct (IH Hb) as [?|(v & ? & ?)];
      [by left|]. right. exists v. split; [by right|done].
  - apply elem_of_cons in Hb as [->|Hb]; [right; exists (x :: w); split; by left|].
    destruct (IH Hb) as [?|(v & Hv & Hbv)]; [by left|]. right.
    apply elem_of_cons in Hv as [->|Hv]; [exists (x :: w); split; [by left|by right]|].
    exists v. split; [by right|done].
Qed.

Lemma label_bytes l b :
  label_ok l = true → b ∈ l → is_ascii_alphanumeric b || bool_decide (b = x2d) = true.
Proof.
  unfold label_ok. rewrite negb_true_iff, !orb_false_iff, negb_false_iff, forallb_forall.
  intros [_ H] Hb. by apply H, list_elem_of_In.
Qed.

Lemma canonical_bytes h : canonical h → Forall (λ b, host_byte b = true) h.
Proof.
  intros (_ & _ & Hl & Hu). apply Forall_forall. intros b Hb. apply list_elem_of_In in Hb.
  rewrite Forall_forall in Hu. specialize (Hu b ltac:(by apply list_elem_of_In)).
  unfold host_byte. rewrite Hu. cbn [negb]. rewrite andb_true_r.
  destruct (split_on_bytes x2e h b Hb) as [->|(w & Hw & Hbw)]; [done|].
  rewrite Forall_forall in Hl. rewrite (label_bytes w b); [done| |done].
  by apply Hl, list_elem_of_In.
Qed.

(** Trimming a string none of whose bytes starts (or ends) a white-space encoding. *)
Lemma strip_front_id ws fuel s :
  Forall (λ w, match w with c :: _ => host_byte c = false | [] => False end) ws →
  Forall (λ b, host_byte b = true) s → strip_front ws fuel s = s.
Proof.
  intros Hws Hs. destruct fuel as [|fuel]; [done|]. cbn.
  destruct (find _ ws) as [w|] eqn:E; [|done]. exfalso. apply find_some in E as [Hin E].
  rewrite Forall_forall in Hws. specialize (Hws w Hin). destruct w as [|c w]; [done|].
  destruct s as [|b s]; [done|]. cbn in E. bool_facts. subst.
  apply Forall_cons_iff in Hs as [Hb _]. congruence.
Qed.

Lemma trim_id s : Forall (λ b, host_byte b = true) s → trim s = s.
Proof.
  intros Hs. unfold trim, trim_end, trim_start.
  rewrite (strip_front_id white_space) by (repeat constructor || done).
  rewrite strip_front_id; [apply rev_involutive| |].
  - repeat constructor.
  - apply Forall_forall. intros b Hb%in_rev. rewrite Forall_forall in Hs. auto.
Qed.

Lemma trim_dots_id h :
  Forall (λ l, label_ok l = true) (split_on x2e h) → trim_end_matches x2e h = h.
Proof.
  intros Hl. unfold trim_end_matches. rewrite <- (rev_involutive h) at 2. f_equal.
  destruct (rev h) as [|b r] eqn:E; [done|]. cbn.
  destruct (bool_decide (b = x2e)) eqn:D; [|done]. bool_facts. subst. exfalso.
  apply (f_equal (@rev byte)) in E. rewrite rev_involutive in E. cbn in E. subst h.
  destruct (split_on_last_sep x2e (rev r)) as (w & ws & Es & Hin). rewrite Es in Hl.
  apply Forall_cons_iff in Hl as [_ Hl]. rewrite Forall_forall in Hl.
  by specialize (Hl [] ltac:(by apply list_elem_of_In)).
Qed.

Lemma lower_id s : Forall (λ b, is_upper b = false) s → to_ascii_lowercase s = s.
Proof.
  induction 1 as [|b s Hb _ IH]; [done|]. cbn. unfold to_ascii_lowercase in IH.
  rewrite IH. unfold ascii_lower. by rewrite Hb.
Qed.

Lemma lower_no_upper s : Forall (λ b, is_upper b = false) (to_ascii_lowercase s).
Proof.
  apply Forall_map, Forall_forall. intros b _. apply negb_true_iff.
  revert b. apply Hex.byte_check. by vm_compute.
Qed.

(** Hostname normalisation is a projection onto the canonical names: whatever it
    returns is canonical (at most 253 bytes, every label 1 to 63 lowercase letters,
    digits or hyphens, no hyphen at either end), and the names it leaves unchanged are
    exactly the canonical ones, so two spellings of one host cannot be distinct routing
    keys. *)
Theorem normalize_hostname_canonical s h :
  (normalize_hostname h = Some h ↔ canonical h) ∧
  (normalize_hostname s = Some h → canonical h ∧ normalize_hostname h = Some h).
Proof.
  assert (∀ s h, normalize_hostname s = Some h → canonical h) as Hc.
  { clear. intros s h. unfold normalize_hostname. set (u := to_ascii_lowercase _).
    destruct (_ || _) eqn:E1; [done|]. destruct (forallb _ _) eqn:E2; [|done].
    intros [= <-]. apply orb_false_iff in E1 as [E0 E1]. apply Nat.ltb_ge in E1. bool_facts.
    split_and!; [by destruct u|done| |apply lower_no_upper].
    apply Forall_forall. by rewrite forallb_forall in E2. }
  assert (∀ h, canonical h → normalize_hostname h = Some h) as Hn.
  { clear. intros h Hh. pose proof (canonical_bytes h Hh) as Hb. destruct Hh as (H0 & H1 & H2 & H3).
    unfold normalize_hostname. rewrite trim_id, trim_dots_id, lower_id by done.
    rewrite (proj2 (Nat.eqb_neq _ _)) by (by destruct h).
    rewrite (proj2 (Nat.ltb_ge _ _)) by done. cbn [orb].
    rewrite (proj2 (forallb_forall _ _)); [done|]. by rewrite Forall_forall in H2. }
  split; [split; eauto|]. eauto.
Qed.

Lemma normalize_hostname_canonical_witness :
  normalize_hostname (lit " Victim.COM. ") = Some (lit "victim.com") ∧
  canonical (lit "victim.com").
Proof.
  assert (normalize_hostname (lit " Victim.COM. ") = Some (lit "victim.com")) as E by by vm_compute.
  split; [exact E|].
  exact (proj1 (proj2 (normalize_hostname_canonical (lit " Victim.COM. ") (lit "victim.com")) E)).
Defined.

(** The doc comment says a single trailing dot is stripped; the code strips them all. *)
Lemma normalize_hostname_all_dots : normalize_hostname (lit "a...") = Some (lit "a").
Proof. by vm_compute. Qed.

End Hostname.

Module Credential.

(** src/crates/common/src/credential.rs:17-21 [Credential] *)
Record Credential := { tenant : bytes; agent : bytes; expires_at : N }.

(** src/crates/common/src/credential.rs:45-48 [SignedCredential] *)
Record SignedCredential := { credential : Credential; signature : bytes }.

(** src/crates/common/src/credential.rs:52-61 [CredError] *)
Inductive CredError := BadSignature | Expired | BadKey | Malformed | Replayed.

(** src/crates/common/src/credential.rs:34-40 [Credential::signing_bytes] *)
Definition signing_bytes (c : Credential) : bytes :=
  finish (u64 (var_bytes (var_bytes (new (lit "ct-cred:v1")) (tenant c)) (agent c)) (expires_at c)).

(** src/crates/common/src/credential.rs:81-93 [SignedCredential::encode] *)
Definition encode (s : SignedCredential) : bytes :=
  let c := credential s in
  signature s ++ u32_le (wrap32 (blen (tenant c))) ++ tenant c
    ++ u32_le (wrap32 (blen (agent c))) ++ agent c ++ u64_le (expires_at c).

(** src/crates/common/src/credential.rs:97-104 [take]: a head of [n] bytes, and the
    cursor moved past it. *)
Definition take_head (cur : bytes) (n : nat) : Result (bytes * bytes) CredError :=
  if (length cur <? n)%nat then Err Malformed else Ok (take n cur, drop n cur).

(** src/crates/common/src/credential.rs:96-129 [SignedCredential::decode] *)
Definition decode (b : bytes) : Result SignedCredential CredError :=
  p <-? take_head b 64; let '(signature, cur) := p in
  p <-? take_head cur 4; let '(n, cur) := p in
  p <-? take_head cur (N.to_nat (le_val n)); let '(t, cur) := p in
  tenant <-? ok_or (from_utf8 t) Malformed;
  p <-? take_head cur 4; let '(n, cur) := p in
  p <-? take_head cur (N.to_nat (le_val n)); let '(a, cur) := p in
  agent <-? ok_or (from_utf8 a) Malformed;
  p <-? take_head cur 8; let '(e, cur) := p in
  if negb (length cur =? 0)%nat then Err Malformed
  else Ok {| credential := {| tenant := tenant; agent := agent; expires_at := le_val e |};
             signature := signature |}.

Section with_ed25519.
(** [VerifyingKey::from_bytes(key).is_ok()] and [key.verify(message, signature).is_ok()]. *)
Context (key_ok : bytes → bool) (ed_verify : bytes → bytes → bytes → bool).

(** src/crates/common/src/credential.rs:144-157 [verify_stateless] *)
Definition verify_stateless (issuer : bytes) (s : SignedCredential) (now : N)
    : Result () CredError :=
  if negb (key_ok issuer) then Err BadKey
  else if negb (ed_verify issuer (signing_bytes (credential s)) (signature s))
  then Err BadSignature
  else if expires_at (credential s) <=? now then Err Expired
  else Ok ().

(** src/crates/common/src/credential.rs:176-187 [verify_fresh] *)
Definition verify_fresh (issuer : bytes) (s : SignedCredential) (now : N)
    (cache : Replay.ReplayCache) : Result () CredError * Replay.ReplayCache :=
  match verify_stateless issuer s now with
  | Err e => (Err e, cache)
  | Ok _ =>
    let '(fresh, cache) :=
      Replay.check_and_record cache (signature s) (expires_at (credential s)) now in
    (if fresh then Ok () else Err Replayed, cache)
  end.

(** A sequence of presentations at one admission point. *)
Fixpoint admit_all (issuer : bytes) (tr : list (SignedCredential * N))
    (cache : Replay.ReplayCache) : Replay.ReplayCache :=
  match tr with
  | [] => cache
  | (s, now) :: tr' => admit_all issuer tr' (verify_fresh issuer s now cache).2
  end.

End with_ed25519.

(** The widths of the Rust types: two strings shorter than 4 GiB, a [u64] and a 64-byte
    array. *)
Definition credential_ok (c : Credential) : Prop :=
  u32_ok (blen (tenant c)) ∧ u32_ok (blen (agent c)) ∧ u64_ok (expires_at c).
Definition signed_ok (s : SignedCredential) : Prop :=
  credential_ok (credential s) ∧ length (signature s) = 64%nat ∧
  utf8_valid (tenant (credential s)) = true ∧ utf8_valid (agent (credential s)) = true.

Lemma take_head_Ok cur n h t :
  take_head cur n = Ok (h, t) ↔ length h = n ∧ cur = h ++ t.
Proof.
  unfold take_head. destruct (length cur <? n)%nat eqn:E.
  - apply Nat.ltb_lt in E. split; [done|]. intros [<- ->]. rewrite length_app in E. lia.
  - apply Nat.ltb_ge in E. split.
    + intros [= <- <-]. rewrite take_drop, length_take. split; [lia|done].
    + intros [<- ->]. by rewrite take_app_length, drop_app_length.
Qed.

Lemma take_head_app h t : take_head (h ++ t) (length h) = Ok (h, t).
Proof. by apply take_head_Ok. Qed.

(** The credential wire form: [decode] accepts exactly the encodings of well-formed
    signed credentials, each as the credential it encodes; a truncated buffer, a length
    field that does not fit, invalid UTF-8 or a trailing byte is [Malformed]. *)
Theorem credential_decode_iff b s : decode b = Ok s ↔ signed_ok s ∧ b = encode s.
Proof.
  unfold decode. split.
  - destruct (take_head b 64) as [[sg c1]|] eqn:E1; cbn; [|done].
    destruct (take_head c1 4) as [[n1 c2]|] eqn:E2; cbn; [|done].
    destruct (take_head c2 _) as [[t c3]|] eqn:E3; cbn; [|done].
    destruct (from_utf8 t) as [t'|] eqn:U1; cbn; [|done].
    destruct (take_head c3 4) as [[n2 c4]|] eqn:E4; cbn; [|done].
    destruct (take_head c4 _) as [[a c5]|] eqn:E5; cbn; [|done].
    destruct (from_utf8 a) as [a'|] eqn:U2; cbn; [|done].
    destruct (take_head c5 8) as [[e c6]|] eqn:E6; cbn; [|done].
    destruct (length c6 =? 0)%nat eqn:E7; cbn; [|done]. intros [= <-]. bool_facts.
    apply nil_length_inv in E7 as ->.
    apply take_head_Ok in E1 as [L1 ->], E2 as [L2 ->], E3 as [L3 ->], E4 as [L4 ->],
      E5 as [L5 ->], E6 as [L6 ->].
    apply from_utf8_Some in U1 as [U1 ->], U2 as [U2 ->].
    pose proof (le_val_bound n1) as B1. pose proof (le_val_bound n2) as B2.
    rewrite L2 in B1. rewrite L4 in B2. change (256 ^ N.of_nat 4) with U32 in *.
    assert (blen t = le_val n1) as T by (unfold blen; lia).
    assert (blen a = le_val n2) as A by (unfold blen; lia).
    unfold signed_ok, credential_ok, encode. cbn [credential signature tenant agent expires_at].
    rewrite T, A. split.
    + split_and!; try done. by apply le_val_u64_ok.
    + unfold wrap32. rewrite !N.mod_small, !u32_le_le_val, u64_le_le_val by done.
      by rewrite app_nil_r.
  - intros [((Ht & Ha & He) & Hs & U1 & U2) ->]. destruct s as [[t a e] sg].
    unfold encode. cbn [credential signature tenant agent expires_at] in *.
    unfold wrap32. rewrite !N.mod_small by done.
    rewrite <- Hs, take_head_app. cbn [rbind].
    rewrite <- (length_u32_le (blen t)) at 1. rewrite take_head_app. cbn [rbind].
    rewrite le_val_u32_le. unfold wrap32. rewrite N.mod_small by done.
    rewrite to_nat_blen, take_head_app. cbn [rbind].
    rewrite (proj2 (from_utf8_Some t t)) by done. cbn [rbind ok_or].
    rewrite <- (length_u32_le (blen a)) at 1. rewrite take_head_app. cbn [rbind].
    rewrite le_val_u32_le. unfold wrap32. rewrite N.mod_small by done.
    rewrite to_nat_blen, take_head_app. cbn [rbind].
    rewrite (proj2 (from_utf8_Some a a)) by done. cbn [rbind ok_or].
    assert (take_head (u64_le e) 8 = Ok (u64_le e, [])) as ->
      by (apply take_head_Ok; by rewrite length_u64_le, app_nil_r).
    cbn [rbind length Nat.eqb negb]. by rewrite le_val_u64_le.
Qed.

(** A credential is admitted at most once: after [verify_fresh] accepts it, every later
    presentation of the same signature is refused until it expires, whatever other
    credentials were presented in between (at times before that expiry). *)
Theorem verify_fresh_once key_ok ed_verify issuer s now cache mid now' :
  (verify_fresh key_ok ed_verify issuer s now cache).1 = Ok () →
  Forall (λ p, p.2 < expires_at (credential s)) mid → now' < expires_at (credential s) →
  let cache' := admit_all key_ok ed_verify issuer mid
                  (verify_fresh key_ok ed_verify issuer s now cache).2 in
  (verify_fresh key_ok ed_verify issuer s now' cache').1 = Err Replayed.
Proof.
  intros H0 Hmid Hn cache'.
  assert (verify_stateless key_ok ed_verify issuer s now' = Ok ()) as Hv.
  { revert H0. unfold verify_fresh, verify_stateless. repeat case_match; cbn; try done; bool_facts. lia. }
  assert (Replay.seen cache' !! signature s = Some (expires_at (credential s))) as Hc.
  { assert (Replay.seen (verify_fresh key_ok ed_verify issuer s now cache).2 !! signature s = Some (expires_at (credential s)))
      as H1.
    { revert H0. unfold verify_fresh. destruct (verify_stateless _ _ _ s now); [|done].
      pose proof (Replay.check_and_record_accepts cache (signature s) (expires_at (credential s)) now) as HA.
      destruct (Replay.check_and_record _ _ _ _) as [[] c]; [|done]. cbn in *. auto. }
    subst cache'. revert H1. generalize (verify_fresh key_ok ed_verify issuer s now cache).2 as c.
    induction Hmid as [|[s' t] mid Ht _ IH]; intros c H1; cbn [admit_all]; [done|]. apply IH.
    unfold verify_fresh. destruct (verify_stateless _ _ _ s' t); [|done].
    pose proof (Replay.check_and_record_keeps c (signature s) _ (signature s')
                  (expires_at (credential s')) t H1 Ht) as HK.
    by destruct (Replay.check_and_record _ _ _ _). }
  unfold verify_fresh. rewrite Hv.
  pose proof (Replay.check_and_record_refuses _ _ _ (expires_at (credential s)) now' Hc Hn) as HR.
  destruct (Replay.check_and_record _ _ _ _) as [b c]. cbn in *. by subst.
Qed.

Lemma verify_fresh_once_witness :
  let s := {| credential := {| tenant := lit "t"; agent := lit "a"; expires_at := 50 |};
              signature := lit "sig" |} in
  let ok := λ _, true in let ver := λ _ _ sg, bool_decide (sg = lit "sig") in
  (verify_fresh ok ver (lit "pk") s 49 (verify_fresh ok ver (lit "pk") s 7 Replay.new).2).1
    = Err Replayed.
Proof.
  intros s ok ver. apply (verify_fresh_once ok ver (lit "pk") s 7 Replay.new [] 49);
    [by vm_compute|constructor|by vm_compute].
Defined.

End Credential.
