(* ===== verification/AccessWindow.v ===== *)
(** * Access windows

    [crates/common/src/access_window.rs]: the per-tunnel policy of an expiry and weekly
    opening hours that the edge evaluates at its front door. Unix seconds are [i64] in
    the code and [Z] here; every evaluation takes the time from the caller. *)

From S2P Require Import Prelude RustStd.
From stdpp Require Import sorting.

#[local] Open Scope Z_scope.

Module AccessWindow.

(** src/crates/common/src/access_window.rs:34-34 [MINUTES_PER_DAY] *)
Definition MINUTES_PER_DAY : Z := 1440.
(** src/crates/common/src/access_window.rs:37-37 [MIN_TZ_OFFSET_MINUTES] *)
Definition MIN_TZ_OFFSET_MINUTES : Z := -12 * 60.
(** src/crates/common/src/access_window.rs:39-39 [MAX_TZ_OFFSET_MINUTES] *)
Definition MAX_TZ_OFFSET_MINUTES : Z := 14 * 60.
(** src/crates/common/src/access_window.rs:41-41 [SECS_PER_MINUTE] *)
Definition SECS_PER_MINUTE : Z := 60.
(** src/crates/common/src/access_window.rs:42-42 [SECS_PER_DAY] *)
Definition SECS_PER_DAY : Z := 86400.
(** src/crates/common/src/access_window.rs:43-43 [SECS_PER_WEEK] *)
Definition SECS_PER_WEEK : Z := 7 * SECS_PER_DAY.
(** src/crates/common/src/access_window.rs:45-45 [EPOCH_WEEKDAY] *)
Definition EPOCH_WEEKDAY : Z := 3.

Definition I64_MIN : Z := - 2 ^ 63.
Definition I64_MAX : Z := 2 ^ 63 - 1.
(** [i64::saturating_add]. *)
Definition saturating_add_i64 (a b : Z) : Z := Z.max I64_MIN (Z.min I64_MAX (a + b)).

(** src/crates/common/src/access_window.rs:49-57 [Slot] *)
Record Slot := { day : Z; start_minute : Z; end_minute : Z }.

(** src/crates/common/src/access_window.rs:63-77 [Slot::validate] *)
Definition slot_validate (s : Slot) : Result () bytes :=
  if 6 <? day s then Err (lit "day must be 0 (Monday) .. 6 (Sunday)")
  else if MINUTES_PER_DAY <=? start_minute s then Err (lit "start must be before 24:00")
  else if (end_minute s =? 0) || (MINUTES_PER_DAY <? end_minute s)
  then Err (lit "end must be between 00:01 and 24:00")
  else if end_minute s =? start_minute s then Err (lit "end must differ from start")
  else Ok ().

(** src/crates/common/src/access_window.rs:79-81 [Slot::is_valid] *)
Definition is_valid (s : Slot) : bool := is_ok (slot_validate s).

(** src/crates/common/src/access_window.rs:83-85 [Slot::wraps_midnight] *)
Definition wraps_midnight (s : Slot) : bool := end_minute s <=? start_minute s.

(** src/crates/common/src/access_window.rs:88-98 [Slot::contains] *)
Definition contains (s : Slot) (weekday minute_of_day : Z) : bool :=
  if negb (is_valid s) then false
  else if wraps_midnight s then
    ((weekday =? day s) && (start_minute s <=? minute_of_day))
    || ((weekday =? (day s + 1) mod 7) && (minute_of_day <? end_minute s))
  else (weekday =? day s) && (start_minute s <=? minute_of_day) && (minute_of_day <? end_minute s).

(** src/crates/common/src/access_window.rs:103-108 [Slot::week_offsets] *)
Definition week_offsets (s : Slot) : Z * Z :=
  let start := (day s * MINUTES_PER_DAY + start_minute s) * SECS_PER_MINUTE in
  let end_day := if wraps_midnight s then day s + 1 else day s in
  (start, (end_day * MINUTES_PER_DAY + end_minute s) * SECS_PER_MINUTE).

(** src/crates/common/src/access_window.rs:113-118 [WeeklySchedule] *)
Record WeeklySchedule := { tz_offset_minutes : Z; slots : list Slot }.

(** [Iterator::try_for_each]: the first error, or [Ok]. *)
Fixpoint try_for_each {A E} (f : A → Result () E) (l : list A) : Result () E :=
  match l with [] => Ok () | x :: l' => _ <-? f x; try_for_each f l' end.

(** src/crates/common/src/access_window.rs:122-127 [WeeklySchedule::validate] *)
Definition schedule_validate (w : WeeklySchedule) : Result () bytes :=
  if negb ((MIN_TZ_OFFSET_MINUTES <=? tz_offset_minutes w)
           && (tz_offset_minutes w <=? MAX_TZ_OFFSET_MINUTES))
  then Err (lit "timezone offset must be between -12:00 and +14:00")
  else try_for_each slot_validate (slots w).

(** src/crates/common/src/access_window.rs:129-131 [WeeklySchedule::local_secs] *)
Definition local_secs (w : WeeklySchedule) (now_unix : Z) : Z :=
  saturating_add_i64 now_unix (tz_offset_minutes w * SECS_PER_MINUTE).

(** src/crates/common/src/access_window.rs:134-139 [WeeklySchedule::civil] *)
Definition civil (local : Z) : Z * Z :=
  let days := local / SECS_PER_DAY in
  ((days + EPOCH_WEEKDAY) mod 7, (local mod SECS_PER_DAY) / SECS_PER_MINUTE).

(** src/crates/common/src/access_window.rs:142-145 [WeeklySchedule::is_open] *)
Definition schedule_open (w : WeeklySchedule) (now_unix : Z) : bool :=
  let '(weekday, minute) := civil (local_secs w now_unix) in
  existsb (λ s, contains s weekday minute) (slots w).

(** src/crates/common/src/access_window.rs:167-173 [WeeklySchedule::next_change]: the two
    loops that move a boundary to its first occurrence after [local]. A boundary is less
    than eight days into the week of [local], so each loop runs at most twice. *)
Fixpoint up_loop (fuel : nat) (local at' : Z) : Z :=
  match fuel with
  | O => at'
  | S fuel' => if at' <=? local then up_loop fuel' local (at' + SECS_PER_WEEK) else at'
  end.
Fixpoint down_loop (fuel : nat) (local at' : Z) : Z :=
  match fuel with
  | O => at'
  | S fuel' =>
    if local <? at' - SECS_PER_WEEK then down_loop fuel' local (at' - SECS_PER_WEEK) else at'
  end.
Definition first_after (local at' : Z) : Z := down_loop 2 local (up_loop 2 local at').

(** src/crates/common/src/access_window.rs:155-176 [WeeklySchedule::next_change]: one
    candidate per boundary of every valid slot, in UTC. *)
Definition candidates (w : WeeklySchedule) (now_unix : Z) : list Z :=
  let local := local_secs w now_unix in
  let '(weekday, minute) := civil local in
  let secs_into_week :=
    (weekday * MINUTES_PER_DAY + minute) * SECS_PER_MINUTE + local mod SECS_PER_MINUTE in
  let week_start := local - secs_into_week in
  flat_map
    (λ s, let '(start, end') := week_offsets s in
          map (λ boundary, first_after local (week_start + boundary)
                           - tz_offset_minutes w * SECS_PER_MINUTE) [start; end'])
    (List.filter is_valid (slots w)).

(** src/crates/common/src/access_window.rs:150-181 [WeeklySchedule::next_change] *)
Definition schedule_next_change (w : WeeklySchedule) (now_unix : Z) : option Z :=
  if (length (List.filter is_valid (slots w)) =? 0)%nat then None
  else
    let open_now := schedule_open w now_unix in
    find (λ t, negb (eqb (schedule_open w t) open_now))
      (merge_sort Z.le (candidates w now_unix)).

(** src/crates/common/src/access_window.rs:191-198 [AccessPolicy] *)
Record AccessPolicy := { expires_at : option Z; schedule : option WeeklySchedule }.

(** src/crates/common/src/access_window.rs:202-204 [AccessPolicy::is_unrestricted] *)
Definition is_unrestricted (p : AccessPolicy) : bool :=
  match expires_at p, schedule p with None, None => true | _, _ => false end.

(** src/crates/common/src/access_window.rs:207-212 [AccessPolicy::validate] *)
Definition policy_validate (p : AccessPolicy) : Result () bytes :=
  match schedule p with Some s => schedule_validate s | None => Ok () end.

(** src/crates/common/src/access_window.rs:215-217 [AccessPolicy::is_expired] *)
Definition is_expired (p : AccessPolicy) (now_unix : Z) : bool :=
  match expires_at p with Some e => e <=? now_unix | None => false end.

(** src/crates/common/src/access_window.rs:221-229 [AccessPolicy::is_open] *)
Definition is_open (p : AccessPolicy) (now_unix : Z) : bool :=
  if is_expired p now_unix then false
  else match schedule p with Some s => schedule_open s now_unix | None => true end.

(** src/crates/common/src/access_window.rs:235-251 [AccessPolicy::next_change] *)
Definition next_change (p : AccessPolicy) (now_unix : Z) : option Z :=
  if is_expired p now_unix then None
  else
    let scheduled := s ← schedule p; schedule_next_change s now_unix in
    match is_open p now_unix, scheduled, expires_at p with
    | true, Some s, Some e => Some (Z.min s e)
    | true, Some s, None => Some s
    | true, None, e => e
    | false, Some s, Some e => if s <? e then Some s else None
    | false, Some s, None => Some s
    | false, None, _ => None
    end.

(** src/crates/common/src/access_window.rs:263-271 [format_utc_ymd_hm]: the civil date
    [(year, month, day)] of a day number. *)
Definition civil_from_days (days : Z) : Z * Z * Z :=
  let z := days + 719468 in
  let era := z / 146097 in
  let doe := z mod 146097 in
  let yoe := (doe - doe / 1460 + doe / 36524 - doe / 146096) / 365 in
  let doy := doe - (365 * yoe + yoe / 4 - yoe / 100) in
  let mp := (5 * doy + 2) / 153 in
  let day := doy - (153 * mp + 2) / 5 + 1 in
  let month := if mp <? 10 then mp + 3 else mp - 9 in
  let year := yoe + era * 400 + (if month <=? 2 then 1 else 0) in
  (year, month, day).

(** [{n:0width}] of a non-negative number; [fuel] digits are always enough for an
    [i64]. *)
Fixpoint dec_digits (fuel : nat) (n : Z) : bytes :=
  match fuel with
  | O => []
  | S fuel' =>
    (if n <? 10 then [] else dec_digits fuel' (n / 10))
      ++ [byte_of_N (Z.to_N (48 + n mod 10))]
  end.
Definition pad (width : nat) (n : Z) : bytes :=
  let d := dec_digits 20 n in replicate (width - length d) x30 ++ d.

(** src/crates/common/src/access_window.rs:258-273 [format_utc_ymd_hm] *)
Definition format_utc_ymd_hm (secs : Z) : bytes :=
  let secs := Z.max secs 0 in
  let days := secs / SECS_PER_DAY in
  let rem := secs mod SECS_PER_DAY in
  let hour := rem / 3600 in
  let minute := (rem mod 3600) / 60 in
  let '(year, month, day) := civil_from_days days in
  pad 4 year ++ lit "-" ++ pad 2 month ++ lit "-" ++ pad 2 day ++ lit " "
    ++ pad 2 hour ++ lit ":" ++ pad 2 minute.

(** src/crates/common/src/access_window.rs:280-289 [days_from_civil] *)
Definition days_from_civil (year month day : Z) : Z :=
  let y := if month <=? 2 then year - 1 else year in
  let era := y / 400 in
  let yoe := y mod 400 in
  let m := month in
  let mp := if 2 <? m then m - 3 else m + 9 in
  let doy := (153 * mp + 2) / 5 + day - 1 in
  let doe := yoe * 365 + yoe / 4 - yoe / 100 + doy in
  era * 146097 + doe - 719468.

(** ** The week as a circle of seconds *)

(** The ranges the Rust types give the fields. *)
Definition slot_typed (s : Slot) : Prop := 0 <= day s ∧ 0 <= start_minute s ∧ 0 <= end_minute s.
Definition schedule_typed (w : WeeklySchedule) : Prop := Forall slot_typed (slots w).

(** Times far enough from the ends of [i64] that no shift saturates (hundreds of
    billions of years around the epoch), for a real UTC offset. *)
Definition in_time (t : Z) : Prop := - 2 ^ 62 <= t <= 2 ^ 62.
Definition offset_ok (w : WeeklySchedule) : Prop :=
  MIN_TZ_OFFSET_MINUTES <= tz_offset_minutes w <= MAX_TZ_OFFSET_MINUTES.

Ltac consts :=
  unfold MINUTES_PER_DAY, MIN_TZ_OFFSET_MINUTES, MAX_TZ_OFFSET_MINUTES, SECS_PER_MINUTE,
    SECS_PER_WEEK, SECS_PER_DAY, EPOCH_WEEKDAY, I64_MIN, I64_MAX in *;
  change (7 * 86400) with 604800 in *.

Lemma slot_valid_iff s :
  is_valid s = true ↔
  day s <= 6 ∧ start_minute s < 1440 ∧ 0 ≠ end_minute s ∧ end_minute s <= 1440
  ∧ end_minute s ≠ start_minute s.
Proof.
  unfold is_valid, slot_validate. consts. repeat case_match; cbn; bool_facts;
    repeat match goal with H : _ || _ = true |- _ => apply orb_true_iff in H as [H|H] end;
    bool_facts; split; intros; try done; lia.
Qed.

Lemma local_secs_exact w t :
  offset_ok w → in_time t → local_secs w t = t + tz_offset_minutes w * 60.
Proof. unfold offset_ok, in_time, local_secs, saturating_add_i64. consts. lia. Qed.

(** A slot is open at local time [l] iff [l] lies in one of its weekly repetitions. *)
Lemma contains_iff s l :
  slot_typed s → is_valid s = true →
  contains s (civil l).1 (civil l).2 = true ↔
  ∃ k, (week_offsets s).1 + k * SECS_PER_WEEK <= l + 3 * SECS_PER_DAY
       < (week_offsets s).2 + k * SECS_PER_WEEK.
Proof.
  intros (T1 & T2 & T3) V. pose proof V as V'. apply slot_valid_iff in V' as (V1 & V2 & V3 & V4 & V5).
  unfold contains, week_offsets, civil, wraps_midnight. rewrite V. cbn [negb fst snd]. consts.
  set (wd := (l / 86400 + 3) mod 7). set (mi := l mod 86400 / 60).
  assert (∃ k0 sec, l + 3 * 86400 = 604800 * k0 + 86400 * wd + 60 * mi + sec ∧
            0 <= sec < 60 ∧ 0 <= mi < 1440 ∧ 0 <= wd < 7) as (k0 & sec & El & Hs & Hm & Hw).
  { exists ((l / 86400 + 3) / 7), (l mod 86400 mod 60). subst wd mi.
    pose proof (Z.div_mod l 86400 ltac:(lia)). pose proof (Z.mod_pos_bound l 86400 ltac:(lia)).
    pose proof (Z.div_mod (l mod 86400) 60 ltac:(lia)).
    pose proof (Z.mod_pos_bound (l mod 86400) 60 ltac:(lia)).
    pose proof (Z.div_mod (l / 86400 + 3) 7 ltac:(lia)).
    pose proof (Z.mod_pos_bound (l / 86400 + 3) 7 ltac:(lia)). lia. }
  clearbody wd mi. destruct (end_minute s <=? start_minute s) eqn:W; bool_facts.
  - rewrite orb_true_iff, !andb_true_iff, !Z.eqb_eq, Z.leb_le, Z.ltb_lt.
    assert ((day s + 1) mod 7 = if decide (day s = 6) then 0 else day s + 1) as ->.
    { case_decide as D; [by rewrite D|]. apply Z.mod_small. lia. }
    split.
    + intros [[? ?]|[? ?]]; [exists k0; lia|]. case_decide; [exists (k0 - 1)|exists k0]; lia.
    + intros [k Hk]. assert (k = k0 ∨ k = k0 - 1) as [->| ->] by lia; case_decide; lia.
  - rewrite !andb_true_iff, Z.eqb_eq, Z.leb_le, Z.ltb_lt. split.
    + intros [[? ?] ?]. exists k0. lia.
    + intros [k Hk]. assert (k = k0) as -> by lia. lia.
Qed.

(** [t] (local) is a repetition of week offset [b]. *)
Definition boundary_at (b t : Z) : Prop := ∃ k, t + 3 * SECS_PER_DAY = b + k * SECS_PER_WEEK.

(** Between two boundaries of a slot nothing changes. *)
Lemma contains_steady s l1 l2 :
  slot_typed s → l1 <= l2 →
  (∀ t, l1 < t <= l2 → is_valid s = true →
        ¬ boundary_at (week_offsets s).1 t ∧ ¬ boundary_at (week_offsets s).2 t) →
  contains s (civil l1).1 (civil l1).2 = contains s (civil l2).1 (civil l2).2.
Proof.
  intros Ht Hle Hb. destruct (is_valid s) eqn:V; [|unfold contains; by rewrite V].
  apply eq_bool_prop_intro. rewrite !Is_true_true, !contains_iff by done.
  destruct (week_offsets s) as [a b]. cbn [fst snd] in *. split; intros [k Hk]; exists k.
  - split; [lia|]. apply Z.nle_gt. intros Hle'.
    destruct (Hb (b + k * SECS_PER_WEEK - 3 * SECS_PER_DAY) ltac:(lia) eq_refl) as [_ []].
    exists k. lia.
  - split; [|lia]. apply Z.nlt_ge. intros Hlt.
    destruct (Hb (a + k * SECS_PER_WEEK - 3 * SECS_PER_DAY) ltac:(lia) eq_refl) as [[] _].
    exists k. lia.
Qed.

Lemma contains_weekly s l k :
  slot_typed s →
  contains s (civil (l + k * SECS_PER_WEEK)).1 (civil (l + k * SECS_PER_WEEK)).2
  = contains s (civil l).1 (civil l).2.
Proof.
  intros Ht. destruct (is_valid s) eqn:V; [|unfold contains; by rewrite V].
  apply eq_bool_prop_intro. rewrite !Is_true_true, !contains_iff by done.
  split; intros [j Hj]; [exists (j - k)|exists (j + k)]; lia.
Qed.

(** ** The candidates *)

(** The loops find the first occurrence after [local] of a boundary whose first
    repetition is less than eight days into the week of [local]. *)
Lemma first_after_spec local ws b :
  ws <= local < ws + SECS_PER_WEEK → 0 <= b < SECS_PER_WEEK + SECS_PER_DAY →
  let t := first_after local (ws + b) in
  local < t <= local + SECS_PER_WEEK ∧ ∃ k, t = ws + b + k * SECS_PER_WEEK.
Proof.
  intros Hw Hb. unfold first_after, up_loop, down_loop. consts.
  repeat case_match; bool_facts; split; try lia;
    first [exists 0; lia|exists 1; lia|exists (-1); lia].
Qed.

Lemma week_offsets_bound s :
  slot_typed s → is_valid s = true →
  0 <= (week_offsets s).1 < SECS_PER_WEEK + SECS_PER_DAY ∧
  0 <= (week_offsets s).2 < SECS_PER_WEEK + SECS_PER_DAY.
Proof.
  intros (T1 & T2 & T3) (V1 & V2 & V3 & V4 & V5)%slot_valid_iff.
  unfold week_offsets, wraps_midnight. cbn [fst snd]. consts.
  destruct (end_minute s <=? start_minute s) eqn:W; bool_facts; lia.
Qed.

Lemma typed_slot w s : schedule_typed w → s ∈ slots w → slot_typed s.
Proof. unfold schedule_typed. rewrite list.Forall_forall. auto. Qed.

(** The candidates are exactly the boundaries in the week after [now]. *)
Lemma candidates_iff w now t :
  schedule_typed w → offset_ok w → in_time now →
  t ∈ candidates w now ↔
  now < t <= now + SECS_PER_WEEK ∧
  ∃ s, s ∈ slots w ∧ is_valid s = true ∧
       (boundary_at (week_offsets s).1 (t + tz_offset_minutes w * 60) ∨
        boundary_at (week_offsets s).2 (t + tz_offset_minutes w * 60)).
Proof.
  intros Hty Ho Hn. unfold candidates. rewrite (local_secs_exact w now Ho Hn).
  set (off := tz_offset_minutes w * 60). set (l := now + off).
  replace (tz_offset_minutes w * SECS_PER_MINUTE) with off by done.
  destruct (civil l) as [wd mi] eqn:Ec.
  set (ws := l - ((wd * MINUTES_PER_DAY + mi) * SECS_PER_MINUTE + l mod SECS_PER_MINUTE)).
  assert (ws <= l < ws + SECS_PER_WEEK ∧ ∃ k, ws + 3 * SECS_PER_DAY = k * SECS_PER_WEEK)
    as [Hws [k0 Hk0]].
  { unfold civil in Ec. injection Ec as <- <-. subst ws. consts.
    pose proof (Z.div_mod l 86400 ltac:(lia)). pose proof (Z.mod_pos_bound l 86400 ltac:(lia)).
    pose proof (Z.div_mod (l mod 86400) 60 ltac:(lia)).
    pose proof (Z.mod_pos_bound (l mod 86400) 60 ltac:(lia)).
    pose proof (Z.div_mod (l / 86400 + 3) 7 ltac:(lia)).
    pose proof (Z.mod_pos_bound (l / 86400 + 3) 7 ltac:(lia)).
    assert (l mod 86400 mod 60 = l mod 60) as Hmm.
    { change 86400 with (60 * 1440). rewrite Z.rem_mul_r by lia.
      by rewrite (Z.mul_comm 60), Z.mod_add, Z.mod_mod by lia. }
    split; [lia|]. exists ((l / 86400 + 3) / 7). lia. }
  rewrite list_elem_of_In, in_flat_map. split.
  - intros (s & Hs & Ht). apply filter_In in Hs as [Hs V]. apply list_elem_of_In in Hs.
    pose proof (typed_slot w s Hty Hs) as Hsty.
    pose proof (week_offsets_bound s Hsty V) as [B1 B2].
    destruct (week_offsets s) as [a b] eqn:Ew. cbn [fst snd] in *.
    assert (∃ x, (x = a ∨ x = b) ∧ t = first_after l (ws + x) - off) as (x & Hx & ->)
      by (cbn in Ht; destruct Ht as [<-|[<-|[]]]; eauto).
    assert (0 <= x < SECS_PER_WEEK + SECS_PER_DAY) as Bx by (destruct Hx; by subst).
    destruct (first_after_spec l ws x Hws Bx) as [Hr [k Hk]].
    split; [lia|]. exists s. rewrite Ew. cbn [fst snd]. split_and!; [done|done|].
    assert (boundary_at x (first_after l (ws + x) - off + off)) as HB.
    { exists (k + k0). lia. }
    destruct Hx; subst; auto.
  - intros (Hr & s & Hs & V & HB).
    pose proof (typed_slot w s Hty Hs) as Hsty.
    pose proof (week_offsets_bound s Hsty V) as [B1 B2].
    exists s. split; [apply filter_In; split; [by apply list_elem_of_In|done]|].
    destruct (week_offsets s) as [a b] eqn:Ew. cbn [fst snd] in *.
    assert (∃ x, (x = a ∨ x = b) ∧ boundary_at x (t + off)) as (x & Hx & [k Hk])
      by (destruct HB; eauto).
    assert (0 <= x < SECS_PER_WEEK + SECS_PER_DAY) as Bx by (destruct Hx; by subst).
    destruct (first_after_spec l ws x Hws Bx) as [Hr' [k' Hk']].
    assert (t = first_after l (ws + x) - off) as -> by (consts; lia).
    cbn. destruct Hx; subst; auto.
Qed.

(** ** When the state changes *)

(** Present times: a week either way stays within [in_time]. *)
Definition present (t : Z) : Prop := - 2 ^ 61 <= t <= 2 ^ 61.

Lemma schedule_open_exact w t :
  offset_ok w → in_time t →
  schedule_open w t =
    existsb (λ s, contains s (civil (t + tz_offset_minutes w * 60)).1
                             (civil (t + tz_offset_minutes w * 60)).2) (slots w).
Proof.
  intros Ho Ht. unfold schedule_open. rewrite (local_secs_exact w t Ho Ht).
  by destruct (civil _).
Qed.

Lemma existsb_ext_in {A} (f g : A → bool) l :
  (∀ x, x ∈ l → f x = g x) → existsb f l = existsb g l.
Proof.
  induction l as [|x l IH]; intros H; [done|]. cbn. rewrite H by (by left).
  f_equal. apply IH. intros y Hy. apply H. by right.
Qed.

Lemma schedule_steady w t u :
  schedule_typed w → offset_ok w → in_time t → in_time u → t <= u →
  (∀ x s, t < x <= u → s ∈ slots w → is_valid s = true →
     ¬ (boundary_at (week_offsets s).1 (x + tz_offset_minutes w * 60) ∨
        boundary_at (week_offsets s).2 (x + tz_offset_minutes w * 60))) →
  schedule_open w t = schedule_open w u.
Proof.
  intros Hty Ho Ht Hu Hle Hb. rewrite !schedule_open_exact by done.
  apply existsb_ext_in. intros s Hs. apply contains_steady; [by eapply typed_slot|lia|].
  intros x Hx V. specialize (Hb (x - tz_offset_minutes w * 60) s ltac:(lia) Hs V).
  rewrite Z.sub_add in Hb. tauto.
Qed.

Lemma schedule_weekly w t k :
  schedule_typed w → offset_ok w → in_time t → in_time (t + k * SECS_PER_WEEK) →
  schedule_open w (t + k * SECS_PER_WEEK) = schedule_open w t.
Proof.
  intros Hty Ho Ht Hk. rewrite !schedule_open_exact by done. apply existsb_ext_in. intros s Hs.
  replace (t + k * SECS_PER_WEEK + tz_offset_minutes w * 60)
    with (t + tz_offset_minutes w * 60 + k * SECS_PER_WEEK) by lia.
  apply contains_weekly. by eapply typed_slot.
Qed.

Lemma last_at_most (l : list Z) u :
  (∀ t, t ∈ l → u < t) ∨ ∃ t, t ∈ l ∧ t <= u ∧ ∀ t', t' ∈ l → t' <= u → t' <= t.
Proof.
  induction l as [|x l IH]; [left; by intros t ?%elem_of_nil|].
  destruct (Z.le_gt_cases x u) as [Hx|Hx].
  - right. destruct IH as [IH|(t & Ht & Hle & Hmax)].
    + exists x. split_and!; [by left|done|]. intros t' [->|Ht']%elem_of_cons Hle; [lia|].
      specialize (IH t' Ht'). lia.
    + exists (Z.max x t). split_and!.
      * destruct (Z.max_spec x t) as [[_ ->]|[_ ->]]; [by right|by left].
      * lia.
      * intros t' [->|Ht']%elem_of_cons Hle'; [lia|]. specialize (Hmax t' Ht' Hle'). lia.
  - destruct IH as [IH|(t & Ht & Hle & Hmax)].
    + left. intros t [->|Ht]%elem_of_cons; [lia|auto].
    + right. exists t. split_and!; [by right|done|]. intros t' [->|Ht']%elem_of_cons ?; [lia|auto].
Qed.

(** Any later change of state is already visible at a candidate. *)
Lemma change_at_candidate w now u :
  schedule_typed w → offset_ok w → present now → in_time u → now < u →
  schedule_open w u ≠ schedule_open w now →
  ∃ t, t ∈ candidates w now ∧ t <= u ∧ schedule_open w t ≠ schedule_open w now.
Proof.
  intros Hty Ho Hn Hu Hlt Hne.
  assert (in_time now) as Hn' by (unfold present, in_time in *; lia).
  assert (∃ v, now < v <= now + SECS_PER_WEEK ∧ v <= u ∧
            schedule_open w v ≠ schedule_open w now) as (v & Hv & Hvu & Hvne).
  { set (k := (u - now - 1) / SECS_PER_WEEK).
    assert (0 <= k ∧ now < u - k * SECS_PER_WEEK <= now + SECS_PER_WEEK) as [Hk Hr].
    { subst k. consts. pose proof (Z.div_mod (u - now - 1) 604800 ltac:(lia)).
      pose proof (Z.mod_pos_bound (u - now - 1) 604800 ltac:(lia)). split; [|lia].
      apply Z.div_pos; lia. }
    clearbody k. exists (u - k * SECS_PER_WEEK). split_and!; [lia|lia|consts; lia|].
    rewrite <- (schedule_weekly w _ k); rewrite ?Z.sub_add; try done.
    unfold present, in_time in *. consts. lia. }
  assert (in_time v) as Hv' by (unfold present, in_time in *; consts; lia).
  destruct (last_at_most (candidates w now) v) as [Hno|(t & Ht & Htv & Hmax)].
  - destruct Hvne. symmetry. apply schedule_steady; try done; [lia|].
    intros x s Hx Hs V HB. specialize (Hno x). rewrite candidates_iff in Hno by done.
    assert (v < x); [|lia]. apply Hno. split; [lia|eauto].
  - exists t. split_and!; [done|lia|].
    apply candidates_iff in Ht as [Hr _]; [|done..].
    rewrite (schedule_steady w t v); try done; [unfold present, in_time in *; consts; lia|].
    intros x s Hx Hs V HB. specialize (Hmax x). rewrite candidates_iff in Hmax by done.
    assert (x <= t); [|lia]. apply Hmax; [|lia]. split; [lia|eauto].
Qed.

Lemma find_sorted (f : Z → bool) l :
  StronglySorted Z.le l →
  match find f l with
  | Some t => t ∈ l ∧ f t = true ∧ ∀ t', t' ∈ l → t' < t → f t' = false
  | None => ∀ t, t ∈ l → f t = false
  end.
Proof.
  induction 1 as [|x l Hs IH Hx]; cbn; [by intros t ?%elem_of_nil|].
  destruct (f x) eqn:E.
  - split_and!; [by left|done|]. intros t' [->|Ht']%elem_of_cons Hlt; [lia|].
    rewrite list.Forall_forall in Hx. specialize (Hx _ Ht'). lia.
  - destruct (find f l) as [t|].
    + destruct IH as (? & ? & ?). split_and!; [by right|done|].
      intros t' [->|?]%elem_of_cons ?; auto.
    + intros t [->|?]%elem_of_cons; auto.
Qed.

Lemma schedule_next_change_spec w now :
  schedule_typed w → offset_ok w → present now →
  match schedule_next_change w now with
  | Some t => now < t <= now + SECS_PER_WEEK ∧ schedule_open w t = negb (schedule_open w now) ∧
              ∀ u, now < u < t → schedule_open w u = schedule_open w now
  | None => ∀ u, now < u → in_time u → schedule_open w u = schedule_open w now
  end.
Proof.
  intros Hty Ho Hn.
  assert (in_time now) as Hn' by (unfold present, in_time in *; lia).
  set (f := λ t, negb (eqb (schedule_open w t) (schedule_open w now))).
  assert (∀ t, f t = true ↔ schedule_open w t ≠ schedule_open w now) as Hf.
  { intros t. subst f. cbv beta. by rewrite negb_true_iff, eqb_false_iff. }
  pose proof (find_sorted f (merge_sort Z.le (candidates w now))
                (StronglySorted_merge_sort _ _)) as Hfind.
  assert (∀ u, now < u → in_time u → schedule_open w u ≠ schedule_open w now →
            ∃ t, t ∈ merge_sort Z.le (candidates w now) ∧ t <= u ∧ f t = true) as Hch.
  { intros u Hu Hu' Hne. destruct (change_at_candidate w now u) as (t & Ht & Hle & Hne'); try done.
    exists t. split_and!; [by rewrite merge_sort_Permutation|done|by apply Hf]. }
  unfold schedule_next_change. fold f.
  destruct (length (List.filter is_valid (slots w)) =? 0)%nat eqn:E; bool_facts.
  { apply nil_length_inv in E. intros u Hu Hu'.
    destruct (decide (schedule_open w u = schedule_open w now)) as [|Hne]; [done|].
    destruct (Hch u Hu Hu' Hne) as (t & Ht & _). rewrite merge_sort_Permutation in Ht.
    apply candidates_iff in Ht as (_ & s & Hs & V & _); [|done..].
    assert (In s (List.filter is_valid (slots w))) as Hin
      by (apply filter_In; split; [by apply list_elem_of_In|done]).
    by rewrite E in Hin. }
  destruct (find f _) as [t|].
  - destruct Hfind as (Ht & Hft & Hmin). rewrite merge_sort_Permutation in Ht.
    apply candidates_iff in Ht as [Hr _]; [|done..]. split_and!; [lia|lia| |].
    + apply Hf in Hft. by destruct (schedule_open w t), (schedule_open w now).
    + intros u Hu. destruct (decide (schedule_open w u = schedule_open w now)) as [|Hne]; [done|].
      destruct (Hch u) as (t' & Ht' & Hle & Hft'); try done; [lia| |].
      { unfold present, in_time in *. consts. lia. }
      rewrite Hmin in Hft'; [done|done|lia].
  - intros u Hu Hu'. destruct (decide (schedule_open w u = schedule_open w now)) as [|Hne]; [done|].
    destruct (Hch u Hu Hu' Hne) as (t & Ht & _ & Hft). by rewrite Hfind in Hft.
Qed.

(** ** Expiry and schedule together *)

(** [o] is the next change after [now] of the state [f] (or there is none). *)
Definition next_flip (f : Z → bool) (now : Z) (o : option Z) : Prop :=
  match o with
  | Some t => now < t ∧ f t = negb (f now) ∧ ∀ u, now < u < t → in_time u → f u = f now
  | None => ∀ u, now < u → in_time u → f u = f now
  end.

Definition closes (e : option Z) (u : Z) : bool := match e with Some e => e <=? u | None => false end.

Lemma next_flip_expiry f now o e :
  closes e now = false → next_flip f now o →
  next_flip (λ u, if closes e u then false else f u) now
    (match f now, o, e with
     | true, Some s, Some e => Some (Z.min s e)
     | true, Some s, None => Some s
     | true, None, e => e
     | false, Some s, Some e => if s <? e then Some s else None
     | false, Some s, None => Some s
     | false, None, _ => None
     end).
Proof.
  intros He Hf. destruct e as [e|]; [|by destruct (f now), o]. cbn in He. bool_facts.
  destruct (f now) eqn:F, o as [t|]; cbn [next_flip closes] in *; rewrite ?F in *.
  - destruct Hf as (H1 & H2 & H3). split_and!; [lia| |].
    + rewrite (proj2 (Z.leb_gt e now)) by lia. destruct (e <=? Z.min t e) eqn:E; [done|]. bool_facts.
      rewrite Z.min_l by lia. by rewrite H2, ?F.
    + intros u Hu Ht. rewrite !(proj2 (Z.leb_gt e _)) by lia. apply H3; [lia|done].
  - split_and!; [lia| |].
    + by rewrite Z.leb_refl, (proj2 (Z.leb_gt e now)) by lia.
    + intros u Hu Ht. rewrite !(proj2 (Z.leb_gt e _)) by lia. apply Hf; [lia|done].
  - destruct Hf as (H1 & H2 & H3). destruct (t <? e) eqn:E; bool_facts; cbn.
    + split_and!; [lia| |].
      * rewrite !(proj2 (Z.leb_gt e _)) by lia. by rewrite H2, F.
      * intros u Hu Ht. rewrite !(proj2 (Z.leb_gt e _)) by lia. rewrite F. apply H3; [lia|done].
    + intros u Hu Ht. rewrite (proj2 (Z.leb_gt e now)), ?F by lia.
      destruct (e <=? u) eqn:E'; bool_facts; [done|]. apply H3; [lia|done].
  - intros u Hu Ht. rewrite (proj2 (Z.leb_gt e now)), ?F by lia.
    destruct (e <=? u); [done|]. by apply Hf.
Qed.

(** The countdown is exact. For a policy with a real UTC offset, [next_change] is the
    first instant after [now] at which the open/closed state differs: the state is
    constant before it and flipped at it; and when it is [None] the state never
    changes again. This is the search over sorted slot boundaries, overlapping and
    midnight-wrapping slots included, combined with the expiry. *)
Theorem next_change_exact p now :
  (∀ w, schedule p = Some w → schedule_typed w ∧ offset_ok w) → present now →
  next_flip (is_open p) now (next_change p now).
Proof.
  intros Hs Hn. unfold next_change. change (is_expired p) with (closes (expires_at p)).
  destruct (closes (expires_at p) now) eqn:Ex.
  { intros u Hu _. unfold is_open. change (is_expired p) with (closes (expires_at p)). rewrite Ex.
    destruct (expires_at p) as [e|]; [|done]. cbn in *. bool_facts.
    by rewrite (proj2 (Z.leb_le _ _)) by lia. }
  unfold is_open at 2. change (is_expired p) with (closes (expires_at p)). rewrite Ex.
  destruct (schedule p) as [w|] eqn:Es; cbn [mbind option_bind].
  - destruct (Hs w eq_refl) as [Hty Ho].
    assert (next_flip (schedule_open w) now (schedule_next_change w now)) as Hf.
    { pose proof (schedule_next_change_spec w now Hty Ho Hn) as Hc. unfold next_flip.
      destruct (schedule_next_change w now); [|done]. destruct Hc as (? & ? & Hc).
      split_and!; [lia|done|auto]. }
    apply (next_flip_expiry _ _ _ (expires_at p) Ex) in Hf.
    unfold is_open. rewrite Es. change (is_expired p) with (closes (expires_at p)).
    unfold is_open in Hf. by destruct (schedule_open w now).
  - assert (next_flip (λ _, true) now None) as Hf by done.
    apply (next_flip_expiry _ _ _ (expires_at p) Ex) in Hf.
    unfold is_open. rewrite Es. change (is_expired p) with (closes (expires_at p)). exact Hf.
Qed.

Lemma next_change_exact_witness :
  let w := {| tz_offset_minutes := 120;
              slots := [{| day := 0; start_minute := 540; end_minute := 720 |};
                        {| day := 0; start_minute := 660; end_minute := 1020 |};
                        {| day := 6; start_minute := 1320; end_minute := 120 |}] |} in
  let p := {| expires_at := Some 1789084800; schedule := Some w |} in
  next_flip (is_open p) 1788768000 (next_change p 1788768000).
Proof.
  intros w p. apply (next_change_exact p 1788768000).
  - intros w' [= <-]. split; [|by split; vm_compute].
    unfold schedule_typed.
    refine (Forall_cons_2 _ _ _ _ (Forall_cons_2 _ _ _ _ (Forall_cons_2 _ _ _ _ (Forall_nil_2 _))));
      by repeat split; vm_compute.
  - split; lia.
Defined.

(** An expired policy never reopens by itself, and one without fields is always open. *)
Lemma is_open_expired p now e :
  expires_at p = Some e → e <= now → is_open p now = false ∧ next_change p now = None.
Proof.
  intros He Hn. unfold is_open, next_change, is_expired. rewrite He.
  by rewrite (proj2 (Z.leb_le _ _)).
Qed.

(** ** Civil dates *)

(** The year of an era a day falls in, from the range check of that year's first and
    last day: the quotient is monotone in between. *)
Definition year_quot (doe : Z) : Z := doe - doe / 1460 + doe / 36524 - doe / 146096.
Definition year_start (yoe : Z) : Z := 365 * yoe + yoe / 4 - yoe / 100.

Lemma year_quot_mono a b : 0 <= a <= b → b <= 146096 → year_quot a <= year_quot b.
Proof.
  intros Hab Hb. enough (∀ n : nat, a + Z.of_nat n <= 146096 →
    year_quot a <= year_quot (a + Z.of_nat n)) as H.
  { specialize (H (Z.to_nat (b - a))). replace (a + Z.of_nat (Z.to_nat (b - a))) with b in H by lia.
    auto. }
  intros n. induction n as [|n IH]; intros Hn; [rewrite Z.add_0_r; lia|].
  etransitivity; [apply IH; lia|]. rewrite Nat2Z.inj_succ.
  set (x := a + Z.of_nat n) in *. replace (a + Z.succ (Z.of_nat n)) with (x + 1) by lia.
  assert (0 <= x ∧ x + 1 <= 146096) as Hx by lia. clearbody x. unfold year_quot.
  assert (∀ d, 0 < d → (x + 1) / d = x / d ∨ (x + 1) / d = x / d + 1 ∧ (x + 1) mod d = 0) as Hd.
  { intros d Hd. pose proof (Z.div_mod x d ltac:(lia)). pose proof (Z.mod_pos_bound x d Hd).
    destruct (Z.eq_dec (x mod d + 1) d).
    - right. assert (x + 1 = (x / d + 1) * d) as -> by lia.
      by rewrite Z.div_mul, Z.mod_mul by lia.
    - left. symmetry. apply (Z.div_unique _ _ _ (x mod d + 1)); lia. }
  destruct (Hd 1460 ltac:(lia)) as [E1|[E1 M1]], (Hd 36524 ltac:(lia)) as [E2|[E2 M2]],
    (Hd 146096 ltac:(lia)) as [E3|[E3 M3]]; try lia.
  exfalso. apply Z.mod_divide in M1 as [k1 M1]; [|lia]. apply Z.mod_divide in M3 as [k3 M3]; lia.
Qed.

Definition year_end (yoe : Z) : Z := if yoe =? 399 then 146096 else year_start (yoe + 1) - 1.

(** The first and the last day of each of the 400 years of an era. *)
Definition year_check (n : nat) : bool :=
  let y := Z.of_nat n in
  (year_quot (year_start y) / 365 =? y) && (year_quot (year_end y) / 365 =? y)
  && (year_end y <=? year_start y + 365) && (0 <=? year_start y) && (year_end y <=? 146096).

Lemma year_checked y :
  0 <= y < 400 →
  year_quot (year_start y) / 365 = y ∧ year_quot (year_end y) / 365 = y ∧
  year_end y <= year_start y + 365 ∧ 0 <= year_start y ∧ year_end y <= 146096.
Proof.
  intros Hy. assert (forallb year_check (seq 0 400) = true) as HC by by vm_compute.
  rewrite forallb_forall in HC. specialize (HC (Z.to_nat y)). unfold year_check in HC.
  rewrite Z2Nat.id in HC by lia. rewrite in_seq in HC. specialize (HC ltac:(lia)). by bool_facts.
Qed.

Lemma year_found (n : nat) doe :
  (n < 400)%nat → 0 <= doe <= year_end (Z.of_nat n) →
  ∃ y, 0 <= y < 400 ∧ year_start y <= doe <= year_end y.
Proof.
  induction n as [|n IH]; intros Hn Hd; [exists 0; split; [lia|]; split; [by apply Hd|apply Hd]|].
  destruct (Z.le_gt_cases doe (year_end (Z.of_nat n))) as [Hle|Hgt]; [apply IH; lia|].
  exists (Z.of_nat (S n)). split; [lia|]. split; [|lia].
  unfold year_end in Hgt. rewrite (proj2 (Z.eqb_neq _ _)) in Hgt by lia.
  rewrite Nat2Z.inj_succ. unfold Z.succ. lia.
Qed.

(** Every day of an era lies in the year the quotient names. *)
Lemma year_of_day doe :
  0 <= doe <= 146096 →
  let yoe := year_quot doe / 365 in
  0 <= yoe < 400 ∧ 0 <= doe - year_start yoe <= 365.
Proof.
  intros Hd. destruct (year_found 399 doe) as (y & Hy & Hs & He); [lia|exact Hd|].
  destruct (year_checked y Hy) as (Q1 & Q2 & L & S0 & E0).
  assert (year_quot doe / 365 = y) as ->; [|cbv zeta; lia].
  pose proof (year_quot_mono (year_start y) doe ltac:(lia) ltac:(lia)).
  pose proof (year_quot_mono doe (year_end y) ltac:(lia) ltac:(lia)).
  apply Z.le_antisymm; [rewrite <- Q2|rewrite <- Q1]; apply Z.div_le_mono; lia.
Qed.

(** The month and the day of the month, for each day of a March-based year. *)
Lemma month_of_day doy :
  0 <= doy <= 365 →
  let mp := (5 * doy + 2) / 153 in
  let day := doy - (153 * mp + 2) / 5 + 1 in
  0 <= mp <= 11 ∧ 1 <= day <= 31.
Proof.
  intros Hd.
  assert (forallb (λ n, let doy := Z.of_nat n in let mp := (5 * doy + 2) / 153 in
            let day := doy - (153 * mp + 2) / 5 + 1 in
            (0 <=? mp) && (mp <=? 11) && (1 <=? day) && (day <=? 31)) (seq 0 366) = true) as HC
    by by vm_compute.
  rewrite forallb_forall in HC. specialize (HC (Z.to_nat doy)). rewrite in_seq in HC.
  cbv zeta in HC. rewrite Z2Nat.id in HC by lia. specialize (HC ltac:(lia)). by bool_facts.
Qed.

(** Dates round-trip: for every day number (before the epoch too), the civil date the
    display computes is a real month and day, and the form parser's [days_from_civil]
    maps it back to that day number. *)
Theorem civil_date_roundtrip days :
  let '(year, month, day) := civil_from_days days in
  1 <= month <= 12 ∧ 1 <= day <= 31 ∧ days_from_civil year month day = days.
Proof.
  unfold civil_from_days. cbv zeta.
  pose proof (Z.div_mod (days + 719468) 146097 ltac:(lia)) as Hz.
  pose proof (Z.mod_pos_bound (days + 719468) 146097 ltac:(lia)) as Hb.
  set (era := (days + 719468) / 146097) in *. set (doe := (days + 719468) mod 146097) in *.
  clearbody era doe. change (doe - doe / 1460 + doe / 36524 - doe / 146096) with (year_quot doe).
  destruct (year_of_day doe ltac:(lia)) as [Hy Hdoy]. unfold year_start in Hdoy.
  set (yoe := year_quot doe / 365) in *. clearbody yoe.
  set (doy := doe - (365 * yoe + yoe / 4 - yoe / 100)) in *.
  assert (doe = yoe * 365 + yoe / 4 - yoe / 100 + doy) as Hdoe by (subst doy; lia). clearbody doy.
  destruct (month_of_day doy Hdoy) as [Hmp Hday]. set (mp := (5 * doy + 2) / 153) in *.
  clearbody mp. unfold days_from_civil.
  destruct (mp <? 10) eqn:Em; bool_facts.
  - rewrite (proj2 (Z.leb_gt (mp + 3) 2)), (proj2 (Z.ltb_lt 2 (mp + 3))) by lia.
    split_and!; try lia.
    replace (yoe + era * 400 + 0) with (yoe + era * 400) by lia.
    rewrite Z.div_add, Z.mod_add, Z.div_small, Z.mod_small by lia.
    replace (mp + 3 - 3) with mp by lia. lia.
  - rewrite (proj2 (Z.leb_le (mp - 9) 2)), (proj2 (Z.ltb_ge 2 (mp - 9))) by lia.
    split_and!; try lia.
    replace (yoe + era * 400 + 1 - 1) with (yoe + era * 400) by lia.
    rewrite Z.div_add, Z.mod_add, Z.div_small, Z.mod_small by lia.
    replace (mp - 9 + 9) with mp by lia. lia.
Qed.

End AccessWindow.
