(* ===== verification/Market.v ===== *)
(** * The capacity marketplace

    The marketplace half of [crates/common/src/channel.rs]: signed offers and bids, the
    matching rule, the per-offer commitment tally, the co-signed usage receipt that
    releases an escrow and the signed acceptance of a proposal. One [Module] per Rust
    type. SHA-256 and Ed25519 come from crates: [sha256] is an argument and [Ed25519]
    an instance. *)

From S2P Require Import Prelude RustStd Maps Interfaces Codec.
Import Codec.Preimage.

(** A preimage builder fed one string per element of a list. *)
Definition push_strings (p : Preimage) (l : list bytes) : Preimage := foldl var_bytes p l.

(** The builder calls on a list of strings are the fields [FVar]. *)
Lemma push_strings_push p l : push_strings p l = foldl push p (FVar <$> l).
Proof. revert p. induction l as [|x l IH]; intros p; [done|]. cbn. apply IH. Qed.

(** Two field lists of one schema, each followed by more bytes. *)
Lemma fields_cut fs gs x y :
  Forall2 same_slot fs gs → Forall field_ok fs → Forall field_ok gs →
  flat_map field_bytes fs ++ x = flat_map field_bytes gs ++ y → fs = gs ∧ x = y.
Proof.
  intros S. induction S as [|f g fs gs Hs S IH]; [done|].
  intros [Of O1]%Forall_cons_iff [Og O2]%Forall_cons_iff E. cbn in E. rewrite <- !app_assoc in E.
  apply field_cut in E as [-> E]; try done. by destruct (IH O1 O2 E) as [-> ->].
Qed.

#[global] Instance FVar_inj : Inj (=) (=) FVar.
Proof. by intros ?? [=]. Qed.

(** A counted list of strings is delimited by its count. *)
Lemma strings_cut l1 l2 x y :
  length l1 = length l2 →
  Forall (λ s, u32_ok (blen s)) l1 → Forall (λ s, u32_ok (blen s)) l2 →
  flat_map field_bytes (FVar <$> l1) ++ x = flat_map field_bytes (FVar <$> l2) ++ y →
  l1 = l2 ∧ x = y.
Proof.
  intros L H1 H2 E. apply fields_cut in E as [E ->].
  - split; [|done]. by apply (inj (fmap FVar)).
  - clear -L. revert l2 L. induction l1 as [|a l1 IH]; intros [|b l2]; cbn; intros L; try done.
    constructor; [done|]. apply IH. lia.
  - by apply Forall_fmap.
  - by apply Forall_fmap.
Qed.

Lemma count_inj {A} (l1 l2 : list A) :
  N.of_nat (length l1) < U32 → N.of_nat (length l2) < U32 →
  wrap32 (N.of_nat (length l1)) = wrap32 (N.of_nat (length l2)) → length l1 = length l2.
Proof. unfold wrap32. intros H1 H2. rewrite !N.mod_small by done. lia. Qed.

Module CapacityKind.

(** src/crates/common/src/channel.rs:1666-1669 [CapacityKind] *)
Inductive CapacityKind := CloudApiQuota | LocalHardware.

#[global] Instance kind_eq_dec : EqDecision CapacityKind.
Proof. solve_decision. Defined.

(** src/crates/common/src/channel.rs:1673-1678 [CapacityKind::tag] *)
Definition tag (k : CapacityKind) : byte :=
  match k with CloudApiQuota => x00 | LocalHardware => x01 end.

(** src/crates/common/src/channel.rs:1682-1688 [CapacityKind::from_tag] *)
Definition from_tag (tag : byte) : option CapacityKind :=
  match tag with x00 => Some CloudApiQuota | x01 => Some LocalHardware | _ => None end.

Lemma from_tag_iff b k : from_tag b = Some k ↔ b = tag k.
Proof.
  split; [|intros ->; by destruct k]. destruct b; cbn; try done; by intros [= <-].
Qed.

Lemma tag_inj a b : tag a = tag b → a = b.
Proof. by destruct a, b. Qed.

End CapacityKind.
Import CapacityKind (CapacityKind, CloudApiQuota, LocalHardware).

Module ServiceType.

(** src/crates/common/src/channel.rs:1700-1721 [ServiceType] *)
Inductive ServiceType :=
| CodeGeneration | SecurityReview | SafetyCheck | TextGeneration
| Custom (name : bytes).

#[global] Instance service_eq_dec : EqDecision ServiceType.
Proof. solve_decision. Defined.

(** src/crates/common/src/channel.rs:1730-1738 [ServiceType::tag] *)
Definition tag (s : ServiceType) : byte :=
  match s with
  | CodeGeneration => x00
  | SecurityReview => x01
  | SafetyCheck => x02
  | TextGeneration => x03
  | Custom _ => x04
  end.

(** src/crates/common/src/channel.rs:1822-1827 [CapacityOffer::signing_bytes]: one
    service of the preimage, its tag and the name of a custom one. *)
Definition push_service (p : Preimage) (s : ServiceType) : Preimage :=
  let p := Preimage.tag p (tag s) in
  match s with Custom name => var_bytes p name | _ => p end.

Definition service_ok (s : ServiceType) : Prop :=
  match s with Custom name => u32_ok (blen name) | _ => True end.

(** The same, as the fields it appends. *)
Definition service_fields (s : ServiceType) : list field :=
  FTag (tag s) :: match s with Custom name => [FVar name] | _ => [] end.

Lemma push_service_push p s : push_service p s = foldl push p (service_fields s).
Proof. by destruct s. Qed.

Lemma push_services_push p l :
  foldl push_service p l = foldl push p (flat_map service_fields l).
Proof.
  revert p. induction l as [|s l IH]; intros p; [done|]. cbn [foldl flat_map].
  by rewrite foldl_app, push_service_push, IH.
Qed.

Lemma service_cut s t x y :
  service_ok s → service_ok t →
  flat_map field_bytes (service_fields s) ++ x = flat_map field_bytes (service_fields t) ++ y →
  s = t ∧ x = y.
Proof.
  intros Hs Ht E. destruct s, t; cbn in E; try (by injection E);
    rewrite ?app_nil_r in E; cbn in E; try (by injection E as E).
  apply (f_equal tail) in E. cbn [tail] in E.
  by apply (var_cut name name0 x y Hs Ht) in E as [-> ->].
Qed.

Lemma services_cut l1 l2 x y :
  length l1 = length l2 → Forall service_ok l1 → Forall service_ok l2 →
  flat_map field_bytes (flat_map service_fields l1) ++ x
  = flat_map field_bytes (flat_map service_fields l2) ++ y →
  l1 = l2 ∧ x = y.
Proof.
  revert l2. induction l1 as [|s l1 IH]; intros [|t l2] L; try done.
  intros [Hs H1]%Forall_cons_iff [Ht H2]%Forall_cons_iff E. cbn [flat_map] in E.
  rewrite !flat_map_app, <- !app_assoc in E. apply service_cut in E as [-> E]; try done.
  destruct (IH l2 ltac:(by injection L) H1 H2 E) as [-> ->]. done.
Qed.

End ServiceType.
Import ServiceType (ServiceType, Custom, service_ok).

Module CapacityOffer.

(** src/crates/common/src/channel.rs:1754-1780 [CapacityOffer] *)
Record CapacityOffer := {
  holder_pubkey : bytes;
  kind : CapacityKind;
  models : list bytes;
  units_available : N;
  min_price : N;
  currency_id : bytes;
  issued_at : N;
  expires_at : N;
  services : list ServiceType;
  signature : bytes;
}.

(** src/crates/common/src/channel.rs:1793-1827 [CapacityOffer::signing_bytes] *)
Definition signing_bytes (holder_pubkey : bytes) (kind : CapacityKind) (models : list bytes)
    (units_available min_price : N) (currency_id : bytes) (issued_at expires_at : N)
    (services : list ServiceType) : bytes :=
  let p := u32 (tag (fixed (new (lit "ct-capacity-offer-v1")) holder_pubkey)
                    (CapacityKind.tag kind))
               (wrap32 (N.of_nat (length models))) in
  let p := push_strings p models in
  let p := u32 (u64 (u64 (var_bytes (u64 (u64 p units_available) min_price) currency_id)
                         issued_at) expires_at)
               (wrap32 (N.of_nat (length services))) in
  finish (foldl ServiceType.push_service p services).

(** The preimage of an offer's own fields. *)
Definition preimage (o : CapacityOffer) : bytes :=
  signing_bytes (holder_pubkey o) (kind o) (models o) (units_available o) (min_price o)
    (currency_id o) (issued_at o) (expires_at o) (services o).

Section with_ed25519.
Context `{Ed25519}.

(** src/crates/common/src/channel.rs:1832-1855 [CapacityOffer::is_valid] *)
Definition is_valid (o : CapacityOffer) (now : N) : bool :=
  if expires_at o <=? now then false
  else sig_verify (holder_pubkey o) (preimage o) (signature o).

(** src/crates/common/src/channel.rs:1888-1926 [CapacityOffer::sign_new_with_services] *)
Definition sign_new_with_services (signing_key : SigningKey) (kind : CapacityKind)
    (models : list bytes) (units_available min_price : N) (currency_id : bytes)
    (issued_at expires_at : N) (services : list ServiceType) : CapacityOffer :=
  let holder_pubkey := verifying_key signing_key in
  let signature := sign signing_key
    (signing_bytes holder_pubkey kind models units_available min_price currency_id issued_at
       expires_at services) in
  {| holder_pubkey := holder_pubkey; kind := kind; models := models;
     units_available := units_available; min_price := min_price; currency_id := currency_id;
     issued_at := issued_at; expires_at := expires_at; services := services;
     signature := signature |}.

(** src/crates/common/src/channel.rs:1860-1881 [CapacityOffer::sign_new] *)
Definition sign_new (signing_key : SigningKey) (kind : CapacityKind) (models : list bytes)
    (units_available min_price : N) (currency_id : bytes) (issued_at expires_at : N)
    : CapacityOffer :=
  sign_new_with_services signing_key kind models units_available min_price currency_id
    issued_at expires_at [].

End with_ed25519.

(** The widths of the Rust types. *)
Definition offer_ok (o : CapacityOffer) : Prop :=
  length (holder_pubkey o) = 32%nat ∧ N.of_nat (length (models o)) < U32 ∧
  Forall (λ s, u32_ok (blen s)) (models o) ∧ u64_ok (units_available o) ∧
  u64_ok (min_price o) ∧ u32_ok (blen (currency_id o)) ∧ u64_ok (issued_at o) ∧
  u64_ok (expires_at o) ∧ N.of_nat (length (services o)) < U32 ∧
  Forall service_ok (services o).

Definition head_fields (o : CapacityOffer) : list field :=
  [FFixed (holder_pubkey o); FTag (CapacityKind.tag (kind o));
   FU32 (wrap32 (N.of_nat (length (models o))))].

Definition term_fields (o : CapacityOffer) : list field :=
  [FU64 (units_available o); FU64 (min_price o); FVar (currency_id o); FU64 (issued_at o);
   FU64 (expires_at o); FU32 (wrap32 (N.of_nat (length (services o))))].

Lemma offer_preimage_build o :
  preimage o = build (lit "ct-capacity-offer-v1")
    (head_fields o ++ (FVar <$> models o) ++ term_fields o
     ++ flat_map ServiceType.service_fields (services o)).
Proof.
  unfold preimage, signing_bytes, build.
  by rewrite !foldl_app, ServiceType.push_services_push, push_strings_push.
Qed.

Lemma wrap32_ok n : u32_ok (wrap32 n).
Proof. by apply N.mod_lt. Qed.

(** Two offers with the same preimage differ at most in their signature. *)
Lemma offer_preimage_inj o1 o2 :
  offer_ok o1 → offer_ok o2 → preimage o1 = preimage o2 →
  o1 = {| holder_pubkey := holder_pubkey o2; kind := kind o2; models := models o2;
          units_available := units_available o2; min_price := min_price o2;
          currency_id := currency_id o2; issued_at := issued_at o2;
          expires_at := expires_at o2; services := services o2; signature := signature o1 |}.
Proof.
  intros (K1 & N1 & M1 & A1 & P1 & C1 & I1 & E1 & V1 & S1)
         (K2 & N2 & M2 & A2 & P2 & C2 & I2 & E2 & V2 & S2).
  rewrite !offer_preimage_build, !build_bytes. intros E. apply app_inv_head in E.
  rewrite !flat_map_app in E. apply fields_cut in E as [Eh E].
  - injection Eh as Ek Et El. apply CapacityKind.tag_inj in Et. apply count_inj in El; [|done..].
    apply strings_cut in E as [Em E]; [|done..]. apply fields_cut in E as [Eq E].
    + injection Eq as Ea Ep Ec Ei Ee Es. apply count_inj in Es; [|done..].
      rewrite <- (app_nil_r (flat_map field_bytes _)) in E.
      rewrite <- (app_nil_r (flat_map field_bytes (flat_map _ (services o2)))) in E.
      apply ServiceType.services_cut in E as [Es' _]; [|done..].
      destruct o1, o2; cbn in *; by subst.
    + repeat constructor.
    + repeat constructor; try done; apply wrap32_ok.
    + repeat constructor; try done; apply wrap32_ok.
  - repeat constructor. cbn. by rewrite K1, K2.
  - repeat constructor; try done; apply wrap32_ok.
  - repeat constructor; try done; apply wrap32_ok.
Qed.

End CapacityOffer.
Import CapacityOffer (CapacityOffer, offer_ok).

Module CapacityBid.

(** src/crates/common/src/channel.rs:2325-2354 [CapacityBid] *)
Record CapacityBid := {
  bidder : bytes;
  kind : CapacityKind;
  model : bytes;
  units : N;
  total_price : N;
  issued_at : N;
  expires_at : N;
  terms_ack : bytes;
  service : option ServiceType;
  signature : bytes;
}.

(** src/crates/common/src/channel.rs:2364-2396 [CapacityBid::signing_bytes] *)
Definition signing_bytes (bidder : bytes) (kind : CapacityKind) (model : bytes)
    (units total_price issued_at expires_at : N) (terms_ack : bytes)
    (service : option ServiceType) : bytes :=
  let p := fixed (u64 (u64 (u64 (u64 (var_bytes (tag (fixed
             (new (lit "ct-capacity-bid-v1")) bidder) (CapacityKind.tag kind)) model) units)
             total_price) issued_at) expires_at) terms_ack in
  match service with
  | Some s =>
    let p := tag (tag p x01) (ServiceType.tag s) in
    match s with
    | Custom name => finish (var_bytes p name)
    | _ => finish p
    end
  | None => finish (tag p x00)
  end.

(** The preimage of a bid's own fields. *)
Definition preimage (b : CapacityBid) : bytes :=
  signing_bytes (bidder b) (kind b) (model b) (units b) (total_price b) (issued_at b)
    (expires_at b) (terms_ack b) (service b).

Section with_ed25519.
Context `{Ed25519}.

(** src/crates/common/src/channel.rs:2399-2422 [CapacityBid::is_valid] *)
Definition is_valid (b : CapacityBid) (now : N) : bool :=
  if expires_at b <=? now then false
  else sig_verify (bidder b) (preimage b) (signature b).

(** src/crates/common/src/channel.rs:2459-2478 [CapacityBid::sign_new_full] *)
Definition sign_new_full (signing_key : SigningKey) (kind : CapacityKind) (model : bytes)
    (units total_price issued_at expires_at : N) (terms_ack : bytes)
    (service : option ServiceType) : CapacityBid :=
  let bidder := verifying_key signing_key in
  let signature := sign signing_key
    (signing_bytes bidder kind model units total_price issued_at expires_at terms_ack service) in
  {| bidder := bidder; kind := kind; model := model; units := units;
     total_price := total_price; issued_at := issued_at; expires_at := expires_at;
     terms_ack := terms_ack; service := service; signature := signature |}.

(** src/crates/common/src/channel.rs:2427-2437 [CapacityBid::sign_new] *)
Definition sign_new (signing_key : SigningKey) (kind : CapacityKind) (model : bytes)
    (units total_price issued_at expires_at : N) : CapacityBid :=
  sign_new_full signing_key kind model units total_price issued_at expires_at
    (replicate 32 x00) None.

(** src/crates/common/src/channel.rs:2442-2453 [CapacityBid::sign_new_with_terms] *)
Definition sign_new_with_terms (signing_key : SigningKey) (kind : CapacityKind) (model : bytes)
    (units total_price issued_at expires_at : N) (terms_ack : bytes) : CapacityBid :=
  sign_new_full signing_key kind model units total_price issued_at expires_at terms_ack None.

End with_ed25519.

(** The widths of the Rust types. *)
Definition bid_ok (b : CapacityBid) : Prop :=
  length (bidder b) = 32%nat ∧ u32_ok (blen (model b)) ∧ u64_ok (units b) ∧
  u64_ok (total_price b) ∧ u64_ok (issued_at b) ∧ u64_ok (expires_at b) ∧
  length (terms_ack b) = 32%nat ∧ match service b with Some s => service_ok s | None => True end.

Definition head_fields (b : CapacityBid) : list field :=
  [FFixed (bidder b); FTag (CapacityKind.tag (kind b)); FVar (model b); FU64 (units b);
   FU64 (total_price b); FU64 (issued_at b); FU64 (expires_at b); FFixed (terms_ack b);
   FTag (if service b is Some _ then x01 else x00)].

Definition service_part (b : CapacityBid) : list field :=
  match service b with Some s => ServiceType.service_fields s | None => [] end.

Lemma bid_preimage_build b :
  preimage b = build (lit "ct-capacity-bid-v1") (head_fields b ++ service_part b).
Proof. destruct b as [? ? ? ? ? ? ? ? [[]|] ?]; reflexivity. Qed.

Lemma bid_preimage_inj b1 b2 :
  bid_ok b1 → bid_ok b2 → preimage b1 = preimage b2 →
  b1 = {| bidder := bidder b2; kind := kind b2; model := model b2; units := units b2;
          total_price := total_price b2; issued_at := issued_at b2;
          expires_at := expires_at b2; terms_ack := terms_ack b2; service := service b2;
          signature := signature b1 |}.
Proof.
  intros (K1 & M1 & U1 & P1 & I1 & E1 & T1 & S1) (K2 & M2 & U2 & P2 & I2 & E2 & T2 & S2).
  rewrite !bid_preimage_build, !build_bytes. intros E. apply app_inv_head in E.
  rewrite !flat_map_app in E. apply fields_cut in E as [Eh E].
  - unfold service_part in E. injection Eh as Ek Et Em Eu Ep Ei Ee Ea Es.
    apply CapacityKind.tag_inj in Et.
    assert (service b1 = service b2) as Ev.
    { destruct (service b1) as [s1|], (service b2) as [s2|]; try done.
      rewrite <- (app_nil_r (flat_map field_bytes _)) in E.
      rewrite <- (app_nil_r (flat_map field_bytes (ServiceType.service_fields s2))) in E.
      by apply ServiceType.service_cut in E as [-> _]. }
    destruct b1, b2; cbn in *; by subst.
  - repeat constructor; cbn; by rewrite ?K1, ?K2, ?T1, ?T2.
  - by repeat constructor.
  - by repeat constructor.
Qed.

End CapacityBid.
Import CapacityBid (CapacityBid, bid_ok).

Module CapacityMatch.

(** src/crates/common/src/channel.rs:2488-2503 [CapacityMatch] *)
Record CapacityMatch := {
  provider : bytes;
  consumer : bytes;
  kind : CapacityKind;
  model : bytes;
  units : N;
  total_price : N;
  match_ref : bytes;
}.

Section with_crypto.
Context `{Ed25519} (sha256 : bytes → bytes).

(** src/crates/common/src/channel.rs:2516-2539 [compute_match_ref] *)
Definition compute_match_ref (provider consumer : bytes) (kind : CapacityKind) (model : bytes)
    (units total_price bid_issued_at offer_issued_at : N) : bytes :=
  sha256 (lit "ct-capacity-match-v1" ++ provider ++ consumer ++ [CapacityKind.tag kind]
          ++ u32_le (wrap32 (blen model)) ++ model ++ u64_le units ++ u64_le total_price
          ++ u64_le bid_issued_at ++ u64_le offer_issued_at).

(** src/crates/common/src/channel.rs:2547-2591 [match_offer] *)
Definition match_offer (offer : CapacityOffer) (bid : CapacityBid) (now : N)
    : option CapacityMatch :=
  if negb (CapacityOffer.is_valid offer now) || negb (CapacityBid.is_valid bid now) then None
  else if negb (bool_decide (CapacityOffer.kind offer = CapacityBid.kind bid)) then None
  else if negb (existsb (λ m, bool_decide (m = CapacityBid.model bid))
                        (CapacityOffer.models offer)) then None
  else if match CapacityBid.service bid with
          | Some service => negb (bool_decide (service ∈ CapacityOffer.services offer))
          | None => false
          end then None
  else if CapacityOffer.units_available offer <? CapacityBid.units bid then None
  else if CapacityBid.total_price bid <? CapacityOffer.min_price offer then None
  else
    let match_ref := compute_match_ref (CapacityOffer.holder_pubkey offer)
      (CapacityBid.bidder bid) (CapacityBid.kind bid) (CapacityBid.model bid)
      (CapacityBid.units bid) (CapacityBid.total_price bid) (CapacityBid.issued_at bid)
      (CapacityOffer.issued_at offer) in
    Some {| provider := CapacityOffer.holder_pubkey offer; consumer := CapacityBid.bidder bid;
            kind := CapacityBid.kind bid; model := CapacityBid.model bid;
            units := CapacityBid.units bid; total_price := CapacityBid.total_price bid;
            match_ref := match_ref |}.

(** What a cleared match promises the two parties, without the order of the tests. *)
Record clears (offer : CapacityOffer) (bid : CapacityBid) (now : N) : Prop := {
  clears_signed :
    sig_verify (CapacityOffer.holder_pubkey offer) (CapacityOffer.preimage offer)
               (CapacityOffer.signature offer) = true ∧
    sig_verify (CapacityBid.bidder bid) (CapacityBid.preimage bid)
               (CapacityBid.signature bid) = true;
  clears_current : now < CapacityOffer.expires_at offer ∧ now < CapacityBid.expires_at bid;
  clears_kind : CapacityOffer.kind offer = CapacityBid.kind bid;
  clears_model : CapacityBid.model bid ∈ CapacityOffer.models offer;
  clears_service s : CapacityBid.service bid = Some s → s ∈ CapacityOffer.services offer;
  clears_units : CapacityBid.units bid <= CapacityOffer.units_available offer;
  clears_price : CapacityOffer.min_price offer <= CapacityBid.total_price bid;
}.

(** The terms of the match are the bid's, the parties the two signers. *)
Definition match_of (offer : CapacityOffer) (bid : CapacityBid) : CapacityMatch :=
  {| provider := CapacityOffer.holder_pubkey offer; consumer := CapacityBid.bidder bid;
     kind := CapacityBid.kind bid; model := CapacityBid.model bid;
     units := CapacityBid.units bid; total_price := CapacityBid.total_price bid;
     match_ref := compute_match_ref (CapacityOffer.holder_pubkey offer)
       (CapacityBid.bidder bid) (CapacityBid.kind bid) (CapacityBid.model bid)
       (CapacityBid.units bid) (CapacityBid.total_price bid) (CapacityBid.issued_at bid)
       (CapacityOffer.issued_at offer) |}.

Lemma existsb_model (m : bytes) l : existsb (λ x, bool_decide (x = m)) l = true ↔ m ∈ l.
Proof.
  rewrite existsb_exists. setoid_rewrite list_elem_of_In. split.
  - intros (x & Hx & E). bool_facts. by subst.
  - intros Hm. exists m. by rewrite bool_decide_eq_true_2.
Qed.

Lemma offer_valid_iff (o : CapacityOffer) now :
  CapacityOffer.is_valid o now = true ↔
  now < CapacityOffer.expires_at o ∧
  sig_verify (CapacityOffer.holder_pubkey o) (CapacityOffer.preimage o)
             (CapacityOffer.signature o) = true.
Proof. unfold CapacityOffer.is_valid. destruct (_ <=? _) eqn:E; bool_facts; naive_solver lia. Qed.

Lemma bid_valid_iff b now :
  CapacityBid.is_valid b now = true ↔
  now < CapacityBid.expires_at b ∧
  sig_verify (CapacityBid.bidder b) (CapacityBid.preimage b) (CapacityBid.signature b) = true.
Proof. unfold CapacityBid.is_valid. destruct (_ <=? _) eqn:E; bool_facts; naive_solver lia. Qed.

(** The auction clears a bid against an offer exactly when both are authentic and
    unexpired, the capacity kinds agree, the offer lists the bid's model and (for a
    service-specific bid) its service, it has the units and the bid meets the price
    floor; the match then names the two signers and carries the bid's terms. *)
Theorem match_offer_iff offer bid now m :
  match_offer offer bid now = Some m ↔ clears offer bid now ∧ m = match_of offer bid.
Proof.
  unfold match_offer. fold (match_of offer bid). split.
  - destruct (negb _ || negb _) eqn:V; [done|]. bool_facts.
    destruct (negb (bool_decide _)) eqn:K; [done|].
    destruct (negb (existsb _ _)) eqn:M; [done|].
    destruct (match CapacityBid.service bid with Some _ => _ | None => _ end) eqn:S; [done|].
    destruct (_ <? _) eqn:U; [done|]. destruct (CapacityBid.total_price bid <? _) eqn:P; [done|].
    intros [= <-]. bool_facts. apply existsb_model in M.
    apply offer_valid_iff in H0 as [? ?]. apply bid_valid_iff in H1 as [? ?].
    split; [|done]. split; try done. intros s Es. rewrite Es in S. by bool_facts.
  - intros [[[S1 S2] [C1 C2] K M S U P] ->].
    rewrite (proj2 (offer_valid_iff _ _)), (proj2 (bid_valid_iff _ _)) by done. cbn [negb orb].
    rewrite bool_decide_eq_true_2 by done. cbn [negb].
    rewrite (proj2 (existsb_model _ _)) by done. cbn [negb].
    assert (match CapacityBid.service bid with
            | Some service => negb (bool_decide (service ∈ CapacityOffer.services offer))
            | None => false end = false) as ->.
    { destruct (CapacityBid.service bid) as [s|]; [|done].
      rewrite bool_decide_eq_true_2 by auto. done. }
    by rewrite (proj2 (N.ltb_ge _ _)), (proj2 (N.ltb_ge _ _)) by done.
Qed.

End with_crypto.

End CapacityMatch.

Module OfferCommitments.

(** src/crates/common/src/channel.rs:2601-2603 [OfferCommitments] *)
Record OfferCommitments := { tally : gmap bytes N }.

(** src/crates/common/src/channel.rs:2606-2608 [OfferCommitments::new] *)
Definition new : OfferCommitments := {| tally := ∅ |}.

(** src/crates/common/src/channel.rs:2611-2613 [OfferCommitments::committed] *)
Definition committed (c : OfferCommitments) (offer : CapacityOffer) : N :=
  amount_at (tally c) (CapacityOffer.signature offer).

(** src/crates/common/src/channel.rs:2616-2618 [OfferCommitments::remaining] *)
Definition remaining (c : OfferCommitments) (offer : CapacityOffer) : N :=
  CapacityOffer.units_available offer - committed c offer.

(** src/crates/common/src/channel.rs:2624-2633 [OfferCommitments::commit] *)
Definition commit (c : OfferCommitments) (offer : CapacityOffer) (units : N)
    : bool * OfferCommitments :=
  let already := committed c offer in
  match checked_add64 already units with
  | Some total =>
    if total <=? CapacityOffer.units_available offer
    then (true, {| tally := <[CapacityOffer.signature offer := total]> (tally c) |})
    else (false, c)
  | None => (false, c)
  end.

(** A run of commitments, with the reservations that were granted. *)
Fixpoint commit_all (c : OfferCommitments) (reqs : list (CapacityOffer * N))
    : list (CapacityOffer * N) * OfferCommitments :=
  match reqs with
  | [] => ([], c)
  | (o, u) :: reqs' =>
    let '(ok, c1) := commit c o u in
    let '(granted, c2) := commit_all c1 reqs' in
    (if ok then (o, u) :: granted else granted, c2)
  end.

(** The units granted to the offer with a given signature. *)
Definition granted_units (sig : bytes) (l : list (CapacityOffer * N)) : N :=
  foldr (λ p acc, (if bool_decide (CapacityOffer.signature p.1 = sig) then p.2 else 0) + acc) 0 l.

Lemma commit_tally c o u sig :
  amount_at (tally (commit c o u).2) sig
  = amount_at (tally c) sig
    + (if (commit c o u).1 && bool_decide (CapacityOffer.signature o = sig) then u else 0).
Proof.
  unfold commit, checked_add64, committed. destruct (_ <? _); [|cbn; lia].
  destruct (_ <=? _); [|cbn; lia]. cbn. case_bool_decide as D.
  - subst. rewrite amount_at_insert. lia.
  - rewrite amount_at_insert_ne by done. lia.
Qed.

Lemma commit_granted c o u :
  (commit c o u).1 = true ↔
  committed c o + u < U64 ∧ committed c o + u <= CapacityOffer.units_available o.
Proof.
  unfold commit, checked_add64. destruct (_ <? _) eqn:A; bool_facts.
  - destruct (_ <=? _) eqn:B; bool_facts; cbn; naive_solver lia.
  - cbn. naive_solver lia.
Qed.

Lemma committed_new o : committed new o = 0.
Proof. unfold committed, amount_at. cbn. by rewrite lookup_empty. Qed.

(** Along a run of commitments the tally of an offer grows by what was granted to it and
    stays within what it advertises. *)
Lemma commit_all_tally offer reqs c0 granted c :
  (∀ p, p ∈ reqs → CapacityOffer.signature p.1 = CapacityOffer.signature offer →
        CapacityOffer.units_available p.1 = CapacityOffer.units_available offer) →
  committed c0 offer <= CapacityOffer.units_available offer →
  commit_all c0 reqs = (granted, c) →
  granted_units (CapacityOffer.signature offer) granted + committed c0 offer = committed c offer
  ∧ committed c offer <= CapacityOffer.units_available offer.
Proof.
  revert c0 granted c. induction reqs as [|[o u] reqs IH]; intros c0 granted c Hsame H0 E;
    cbn [commit_all] in E.
  - injection E as <- <-. cbn. lia.
  - pose proof (commit_tally c0 o u (CapacityOffer.signature offer)) as Ht.
    pose proof (commit_granted c0 o u) as Hg.
    destruct (commit c0 o u) as [ok c1]. cbn [fst snd] in *.
    destruct (commit_all c1 reqs) as [g c2] eqn:E2. injection E as <- <-.
    unfold committed in *.
    destruct (IH c1 g c2 (λ p Hp, Hsame p (list_elem_of_further _ _ _ Hp))) as [I1 I2];
      [|done|].
    + rewrite Ht. destruct ok; cbn [andb]; [|lia]. case_bool_decide as D; [|lia].
      specialize (Hsame (o, u) ltac:(by left) D). destruct (proj1 Hg eq_refl).
      cbn [fst] in Hsame. rewrite D in *. lia.
    + split; [|lia]. rewrite <- I1, Ht. destruct ok; cbn [granted_units foldr andb fst snd].
      * fold (granted_units (CapacityOffer.signature offer) g). case_bool_decide; lia.
      * lia.
Qed.

(** No overbooking: whatever the interleaving of reservations on any number of
    offers, the units granted on one offer are exactly what the tally records for it
    and never exceed what it advertises; a reservation is granted exactly when it fits
    in what remains, and a refused one changes nothing. *)
Theorem commitments_never_overbook reqs offer units :
  (∀ p, p ∈ reqs → CapacityOffer.signature p.1 = CapacityOffer.signature offer →
        CapacityOffer.units_available p.1 = CapacityOffer.units_available offer) →
  u64_ok (CapacityOffer.units_available offer) →
  let '(granted, c) := commit_all new reqs in
  granted_units (CapacityOffer.signature offer) granted = committed c offer ∧
  committed c offer <= CapacityOffer.units_available offer ∧
  ((commit c offer units).1 = true ↔ units <= remaining c offer) ∧
  ((commit c offer units).1 = false → (commit c offer units).2 = c).
Proof.
  intros Hsame H64. destruct (commit_all new reqs) as [granted c] eqn:E.
  apply (commit_all_tally offer) in E as [H1 H2]; [|done|rewrite committed_new; lia].
  rewrite committed_new in H1. split_and!; [lia|done| |].
  - rewrite commit_granted. unfold remaining, u64_ok in *. split; lia.
  - unfold commit. destruct (checked_add64 _ _); [|done]. by destruct (_ <=? _).
Qed.

(** Three requests of 4, 8 and 5 units on an offer of 10: the second is refused. *)
Lemma commitments_never_overbook_witness :
  let o := {| CapacityOffer.holder_pubkey := lit "k"; CapacityOffer.kind := LocalHardware;
              CapacityOffer.models := []; CapacityOffer.units_available := 10;
              CapacityOffer.min_price := 1; CapacityOffer.currency_id := [];
              CapacityOffer.issued_at := 0; CapacityOffer.expires_at := 9;
              CapacityOffer.services := []; CapacityOffer.signature := lit "s" |} in
  let '(granted, c) := commit_all new [(o, 4); (o, 8); (o, 5)] in
  granted_units (lit "s") granted = 9 ∧ committed c o <= 10.
Proof.
  intros o.
  pose proof (commitments_never_overbook [(o, 4); (o, 8); (o, 5)] o 1
    ltac:(intros p Hp _; repeat (apply elem_of_cons in Hp as [->|Hp]; [reflexivity|]); by apply elem_of_nil in Hp) eq_refl)
    as (H1 & H2 & _).
  split; [vm_compute; reflexivity|exact H2].
Defined.

End OfferCommitments.

Module UsageReceipt.

(** src/crates/common/src/channel.rs:1948-1983 [UsageReceipt] *)
Record UsageReceipt := {
  provider : bytes;
  consumer : bytes;
  kind : CapacityKind;
  model : bytes;
  units_consumed : N;
  match_ref : bytes;
  issued_at : N;
  request_hash : bytes;
  response_hash : bytes;
  provider_sig : bytes;
  consumer_sig : bytes;
}.

(** src/crates/common/src/channel.rs:1992-2016 [UsageReceipt::signing_bytes] *)
Definition signing_bytes (provider consumer : bytes) (kind : CapacityKind) (model : bytes)
    (units_consumed : N) (match_ref : bytes) (issued_at : N)
    (request_hash response_hash : bytes) : bytes :=
  finish (fixed (fixed (u64 (fixed (u64 (var_bytes (tag (fixed (fixed
    (new (lit "ct-usage-receipt-v1")) provider) consumer) (CapacityKind.tag kind)) model)
    units_consumed) match_ref) issued_at) request_hash) response_hash).

(** src/crates/common/src/channel.rs:2122-2137 [UsageReceipt::encode] *)
Definition encode (r : UsageReceipt) : bytes :=
  provider r ++ consumer r ++ [CapacityKind.tag (kind r)]
    ++ u32_le (wrap32 (blen (model r))) ++ model r ++ u64_le (units_consumed r)
    ++ match_ref r ++ u64_le (issued_at r) ++ request_hash r ++ response_hash r
    ++ provider_sig r ++ consumer_sig r.

(** src/crates/common/src/channel.rs:2141-2181 [UsageReceipt::decode] *)
Definition decode (b : bytes) : option UsageReceipt :=
  '(provider, cur) ← take_cur b 32;
  '(consumer, cur) ← take_cur cur 32;
  '(k, cur) ← take_cur cur 1;
  t ← head k;
  kind ← CapacityKind.from_tag t;
  '(n, cur) ← take_cur cur 4;
  '(m, cur) ← take_cur cur (N.to_nat (le_val n));
  model ← from_utf8 m;
  '(units_consumed, cur) ← take_cur cur 8;
  '(match_ref, cur) ← take_cur cur 32;
  '(issued_at, cur) ← take_cur cur 8;
  '(request_hash, cur) ← take_cur cur 32;
  '(response_hash, cur) ← take_cur cur 32;
  '(provider_sig, cur) ← take_cur cur 64;
  '(consumer_sig, cur) ← take_cur cur 64;
  if negb (length cur =? 0)%nat then None
  else Some {| provider := provider; consumer := consumer; kind := kind; model := model;
               units_consumed := le_val units_consumed; match_ref := match_ref;
               issued_at := le_val issued_at; request_hash := request_hash;
               response_hash := response_hash; provider_sig := provider_sig;
               consumer_sig := consumer_sig |}.

Section with_ed25519.
Context `{Ed25519}.

(** src/crates/common/src/channel.rs:2022-2039 [UsageReceipt::is_valid] *)
Definition is_valid (r : UsageReceipt) : bool :=
  let bytes := signing_bytes (provider r) (consumer r) (kind r) (model r) (units_consumed r)
                 (match_ref r) (issued_at r) (request_hash r) (response_hash r) in
  sig_verify (provider r) bytes (provider_sig r)
  && sig_verify (consumer r) bytes (consumer_sig r).

(** src/crates/common/src/channel.rs:2076-2114 [UsageReceipt::co_sign_audited] *)
Definition co_sign_audited (provider_key consumer_key : SigningKey) (kind : CapacityKind)
    (model : bytes) (units_consumed : N) (match_ref : bytes) (issued_at : N)
    (request_hash response_hash : bytes) : UsageReceipt :=
  let provider := verifying_key provider_key in
  let consumer := verifying_key consumer_key in
  let bytes := signing_bytes provider consumer kind model units_consumed match_ref issued_at
                 request_hash response_hash in
  {| provider := provider; consumer := consumer; kind := kind; model := model;
     units_consumed := units_consumed; match_ref := match_ref; issued_at := issued_at;
     request_hash := request_hash; response_hash := response_hash;
     provider_sig := sign provider_key bytes; consumer_sig := sign consumer_key bytes |}.

(** src/crates/common/src/channel.rs:2045-2065 [UsageReceipt::co_sign] *)
Definition co_sign (provider_key consumer_key : SigningKey) (kind : CapacityKind)
    (model : bytes) (units_consumed : N) (match_ref : bytes) (issued_at : N) : UsageReceipt :=
  co_sign_audited provider_key consumer_key kind model units_consumed match_ref issued_at
    (replicate 32 x00) (replicate 32 x00).

Lemma co_signed_valid `{!Ed25519Laws} pk ck k m u r i q p :
  is_valid (co_sign_audited pk ck k m u r i q p) = true.
Proof. unfold is_valid. cbn. by rewrite !sig_verify_sign. Qed.

End with_ed25519.

(** The widths of the Rust types. *)
Definition receipt_ok (r : UsageReceipt) : Prop :=
  length (provider r) = 32%nat ∧ length (consumer r) = 32%nat ∧
  utf8_valid (model r) = true ∧ u32_ok (blen (model r)) ∧ u64_ok (units_consumed r) ∧
  length (match_ref r) = 32%nat ∧ u64_ok (issued_at r) ∧ length (request_hash r) = 32%nat ∧
  length (response_hash r) = 32%nat ∧ length (provider_sig r) = 64%nat ∧
  length (consumer_sig r) = 64%nat.

Lemma receipt_decode_encode r : receipt_ok r → decode (encode r) = Some r.
Proof.
  intros (H1 & H2 & H3 & H4 & H5 & H6 & H7 & H8 & H9 & H10 & H11).
  destruct r as [a b k m u mr i q p s1 s2]. unfold decode, encode.
  cbn [provider consumer kind model units_consumed match_ref issued_at request_hash
       response_hash provider_sig consumer_sig] in *.
  rewrite take_cur_app by done. cbn [mbind option_bind].
  rewrite take_cur_app by done. cbn [mbind option_bind].
  rewrite take_cur_app by done. cbn [mbind option_bind].
  cbn [head mbind option_bind].
  rewrite (proj2 (CapacityKind.from_tag_iff _ k) eq_refl). cbn [mbind option_bind].
  rewrite take_cur_app by apply length_u32_le. cbn [mbind option_bind].
  rewrite le_val_u32_le. unfold wrap32. rewrite N.Div0.mod_mod, N.mod_small by done.
  rewrite take_cur_app by (by rewrite to_nat_blen). cbn [mbind option_bind].
  rewrite (proj2 (from_utf8_Some m m)) by done. cbn [mbind option_bind].
  read_fields. by rewrite !le_val_u64_le.
Qed.

Lemma receipt_decode_shape b r : decode b = Some r → receipt_ok r ∧ b = encode r.
Proof.
  unfold decode. intros E. fields_read E. apply CapacityKind.from_tag_iff in K as ->.
  destruct (length _ =? 0)%nat eqn:Z; [|discriminate E]. bool_facts.
  apply nil_length_inv in Z as ->. injection E as <-.
  match goal with L : length ?m = N.to_nat (le_val ?n) |- _ =>
    destruct (u32_le_blen n m) as [Hm Hn]; [done..|] end.
  split.
  - unfold receipt_ok. cbn. split_and!; try done; by apply le_val_u64_ok.
  - unfold encode. cbn [provider consumer kind model units_consumed match_ref issued_at
      request_hash response_hash provider_sig consumer_sig].
    by rewrite Hn, !u64_le_le_val, app_nil_r by done.
Qed.

#[global] Instance receipt_codec : WireCodec UsageReceipt :=
  {| wire_ok := receipt_ok; wire_encode := encode; wire_decode := decode |}.
#[global] Instance receipt_codec_laws : WireCodecLaws UsageReceipt.
Proof.
  intros b r. split; [apply receipt_decode_shape|]. intros [H ->]. by apply receipt_decode_encode.
Qed.

End UsageReceipt.

Module SignedAcceptance.

(** src/crates/common/src/channel.rs:2192-2196 [ProposalDecision] *)
Inductive ProposalDecision := Accept | Reject | Counter.

(** src/crates/common/src/channel.rs:2200-2206 [ProposalDecision::tag] *)
Definition decision_tag (d : ProposalDecision) : byte :=
  match d with Accept => x00 | Reject => x01 | Counter => x02 end.

(** src/crates/common/src/channel.rs:2222-2240 [SignedAcceptance] *)
Record SignedAcceptance := {
  accepter : bytes;
  proposer : bytes;
  decision : ProposalDecision;
  proposal_hash : bytes;
  requires_response_by : N;
  accepter_sig : bytes;
}.

(** src/crates/common/src/channel.rs:2246-2260 [SignedAcceptance::signing_bytes] *)
Definition signing_bytes (accepter proposer : bytes) (decision : ProposalDecision)
    (proposal_hash : bytes) (requires_response_by : N) : bytes :=
  finish (u64 (fixed (tag (fixed (fixed (new (lit "ct-proposal-acceptance-v1")) accepter)
    proposer) (decision_tag decision)) proposal_hash) requires_response_by).

Section with_crypto.
Context `{Ed25519} (sha256 : bytes → bytes).

(** src/crates/common/src/channel.rs:2263-2268 [SignedAcceptance::hash_proposal] *)
Definition hash_proposal (proposal : bytes) : bytes := sha256 proposal.

(** src/crates/common/src/channel.rs:2271-2285 [SignedAcceptance::sign_new] *)
Definition sign_new (accepter_key : SigningKey) (proposer : bytes)
    (decision : ProposalDecision) (proposal : bytes) (requires_response_by : N)
    : SignedAcceptance :=
  let accepter := verifying_key accepter_key in
  let proposal_hash := hash_proposal proposal in
  let bytes := signing_bytes accepter proposer decision proposal_hash requires_response_by in
  {| accepter := accepter; proposer := proposer; decision := decision;
     proposal_hash := proposal_hash; requires_response_by := requires_response_by;
     accepter_sig := sign accepter_key bytes |}.

(** src/crates/common/src/channel.rs:2289-2301 [SignedAcceptance::is_valid] *)
Definition is_valid (a : SignedAcceptance) : bool :=
  sig_verify (accepter a)
    (signing_bytes (accepter a) (proposer a) (decision a) (proposal_hash a)
       (requires_response_by a)) (accepter_sig a).

(** src/crates/common/src/channel.rs:2307-2311 [SignedAcceptance::verify_for] *)
Definition verify_for (a : SignedAcceptance) (proposer' proposal : bytes) : bool :=
  is_valid a && bool_decide (proposer a = proposer')
  && bool_decide (proposal_hash a = hash_proposal proposal).

End with_crypto.

End SignedAcceptance.
