(* ===== verification/Settlement.v ===== *)
(** * The settlement chain

    [crates/common/src/settlement.rs], first half: signed transfers, blocks and the
    hash-linked append-only ledger. [Vec::last().expect(..)] and indexing make some
    operations of [Chain] partial: they return an [option], [None] being a panic. *)

From S2P Require Import Prelude RustStd Maps Interfaces Codec.
Import Codec.Preimage.

Abbreviation Account := bytes (only parsing).
Abbreviation Amount := N (only parsing).

Definition zero_hash : bytes := replicate 32 x00.

Module Transfer.

(** src/crates/common/src/settlement.rs:75-81 [Transfer] *)
Record Transfer := {
  from : Account;
  to : Account;
  amount : Amount;
  nonce : N;
  signature : bytes;
}.

#[global] Instance transfer_eq_dec : EqDecision Transfer.
Proof. solve_decision. Defined.

(** src/crates/common/src/settlement.rs:86-94 [Transfer::signing_bytes] *)
Definition signing_bytes (from to : Account) (amount : Amount) (nonce : N) : bytes :=
  finish (u64 (u64 (fixed (fixed (new (lit "ct-settlement-transfer-v1")) from) to) amount)
              nonce).

Section with_ed25519.
Context `{Ed25519}.

(** src/crates/common/src/settlement.rs:98-104 [Transfer::sign_new] *)
Definition sign_new (from_key : SigningKey) (to : Account) (amount : Amount) (nonce : N)
    : Transfer :=
  let from := verifying_key from_key in
  let signature := sign from_key (signing_bytes from to amount nonce) in
  {| from := from; to := to; amount := amount; nonce := nonce; signature := signature |}.

(** src/crates/common/src/settlement.rs:107-117 [Transfer::verify] *)
Definition verify (t : Transfer) : bool :=
  sig_verify (from t) (signing_bytes (from t) (to t) (amount t) (nonce t)) (signature t).

End with_ed25519.

(** src/crates/common/src/settlement.rs:120-120 [Transfer::WIRE_LEN] *)
Definition WIRE_LEN : nat := 144.

(** src/crates/common/src/settlement.rs:124-132 [Transfer::encode] *)
Definition encode (t : Transfer) : bytes :=
  from t ++ to t ++ u64_le (amount t) ++ u64_le (nonce t) ++ signature t.

(** src/crates/common/src/settlement.rs:135-146 [Transfer::decode] *)
Definition decode (b : bytes) : option Transfer :=
  if negb (length b =? WIRE_LEN)%nat then None
  else Some {| from := slice 0 32 b; to := slice 32 64 b; amount := le_val (slice 64 72 b);
               nonce := le_val (slice 72 80 b); signature := slice 80 144 b |}.

(** The widths of the Rust types. *)
Definition transfer_ok (t : Transfer) : Prop :=
  length (from t) = 32%nat ∧ length (to t) = 32%nat ∧ u64_ok (amount t) ∧
  u64_ok (nonce t) ∧ length (signature t) = 64%nat.

Lemma length_transfer t : transfer_ok t → length (encode t) = WIRE_LEN.
Proof.
  intros (H1 & H2 & _ & _ & H5). unfold encode, WIRE_LEN.
  rewrite !length_app, !length_u64_le. lia.
Qed.

#[global] Instance transfer_codec : WireCodec Transfer :=
  {| wire_ok := transfer_ok; wire_encode := encode; wire_decode := decode |}.

#[global] Instance transfer_codec_laws : WireCodecLaws Transfer.
Proof.
  intros b t. cbn. unfold decode. split.
  - destruct (length b =? WIRE_LEN)%nat eqn:L; [|done]. bool_facts. unfold WIRE_LEN in L.
    intros [= <-]. unfold transfer_ok, encode. cbn [from to amount nonce signature].
    assert (∀ i j, (i ≤ j)%nat → (j ≤ 144)%nat → length (slice i j b) = (j - i)%nat) as Hl
      by (intros; apply length_slice; lia).
    split.
    + rewrite !Hl by lia. split_and!; try done; apply le_val_u64_ok; by rewrite Hl by lia.
    + rewrite !u64_le_le_val by (by rewrite Hl by lia). rewrite !slice_glue by lia.
      symmetry. by apply slice_all.
  - intros [Hok ->]. pose proof (length_transfer t Hok) as L.
    rewrite (proj2 (Nat.eqb_eq _ _)) by done. cbn [negb]. unfold encode.
    destruct Hok as (H1 & H2 & H3 & H4 & H5). destruct t as [a b v n s]; cbn in *. f_equal.
    read_slice 0%nat 32%nat (@nil bytes) a. read_slice 32%nat 64%nat [a] b.
    read_slice 64%nat 72%nat [a; b] (u64_le v). read_slice 72%nat 80%nat [a; b; u64_le v] (u64_le n).
    read_slice 80%nat 144%nat [a; b; u64_le v; u64_le n] s.
    by rewrite !le_val_u64_le.
Qed.

Lemma transfer_decode_iff b t : decode b = Some t ↔ transfer_ok t ∧ b = encode t.
Proof. exact (wire_decode_iff b t). Qed.

Lemma transfer_encode_inj t u : transfer_ok t → transfer_ok u → encode t = encode u → t = u.
Proof. exact (wire_encode_inj t u). Qed.

End Transfer.
Import Transfer (Transfer, transfer_ok).

Module Block.

(** src/crates/common/src/settlement.rs:153-158 [Block] *)
Record Block := {
  height : N;
  prev_hash : bytes;
  transfers : list Transfer;
  hash : bytes;
}.

#[global] Instance block_eq_dec : EqDecision Block.
Proof. solve_decision. Defined.

(** src/crates/common/src/settlement.rs:163-174 [Block::encode] *)
Definition encode (b : Block) : bytes :=
  u64_le (height b) ++ prev_hash b ++ u32_le (wrap32 (N.of_nat (length (transfers b))))
    ++ concat (Transfer.encode <$> transfers b) ++ hash b.

(** src/crates/common/src/settlement.rs:192-196 [Block::decode]: the loop over the
    transfers, from the [i]-th on. *)
Fixpoint decode_transfers (b : bytes) (i count : nat) : option (list Transfer) :=
  match count with
  | O => Some []
  | S count' =>
    let off := (44 + i * Transfer.WIRE_LEN)%nat in
    t ← Transfer.decode (slice off (off + Transfer.WIRE_LEN) b);
    ts ← decode_transfers b (S i) count';
    Some (t :: ts)
  end.

(** src/crates/common/src/settlement.rs:179-199 [Block::decode]: [count] is a [u32], so
    the checked products and sums of 64-bit [usize]s never overflow. *)
Definition decode (b : bytes) : option Block :=
  if (length b <? 44 + 32)%nat then None
  else
    let height := le_val (slice 0 8 b) in
    let prev_hash := slice 8 40 b in
    let count := N.to_nat (le_val (slice 40 44 b)) in
    let expected := (44 + count * Transfer.WIRE_LEN + 32)%nat in
    if negb (length b =? expected)%nat then None
    else
      transfers ← decode_transfers b 0 count;
      let hash := slice (expected - 32) expected b in
      Some {| height := height; prev_hash := prev_hash; transfers := transfers; hash := hash |}.

(** The widths of the Rust types, and at most [u32::MAX] transfers. *)
Definition block_ok (b : Block) : Prop :=
  u64_ok (height b) ∧ length (prev_hash b) = 32%nat ∧
  N.of_nat (length (transfers b)) < U32 ∧ Forall transfer_ok (transfers b) ∧
  length (hash b) = 32%nat.

Lemma length_transfers ts :
  Forall transfer_ok ts →
  length (concat (Transfer.encode <$> ts)) = (length ts * Transfer.WIRE_LEN)%nat.
Proof.
  induction 1 as [|t ts Ht _ IH]; [done|]. cbn [fmap list_fmap concat length].
  rewrite length_app, IH, Transfer.length_transfer by done. lia.
Qed.

Lemma decode_transfers_Some ts b i :
  (44 + (i + length ts) * Transfer.WIRE_LEN ≤ length b)%nat →
  (decode_transfers b i (length ts) = Some ts ↔
   Forall transfer_ok ts ∧
   slice (44 + i * Transfer.WIRE_LEN) (44 + (i + length ts) * Transfer.WIRE_LEN) b
   = concat (Transfer.encode <$> ts)).
Proof.
  revert i. induction ts as [|t ts IH]; intros i Hlen; cbn [decode_transfers length].
  - rewrite Nat.add_0_r. unfold slice. rewrite Nat.sub_diag. split; [|done]. by split.
  - cbn [length] in Hlen. set (off := (44 + i * Transfer.WIRE_LEN)%nat).
    specialize (IH (S i) ltac:(cbn [length] in *; lia)).
    rewrite <- (slice_glue b off (off + Transfer.WIRE_LEN)
      (44 + (i + S (length ts)) * Transfer.WIRE_LEN)) by (unfold off; lia).
    replace (44 + (i + S (length ts)) * Transfer.WIRE_LEN)%nat
      with (44 + (S i + length ts) * Transfer.WIRE_LEN)%nat by lia.
    replace (off + Transfer.WIRE_LEN)%nat with (44 + S i * Transfer.WIRE_LEN)%nat in *
      by (unfold off; lia).
    cbn [fmap list_fmap concat]. split.
    + destruct (Transfer.decode _) as [t'|] eqn:Et; [|done]. cbn [mbind option_bind].
      destruct (decode_transfers b (S i) (length ts)) as [ts'|] eqn:Es; [|done].
      cbn [mbind option_bind]. intros [= -> ->].
      apply Transfer.transfer_decode_iff in Et as [Ht ->].
      destruct (proj1 IH eq_refl) as [Hts ->]. by split; [constructor|].
    + intros [[Ht Hts]%Forall_cons_iff E]. apply app_inj_l in E as [E1 E2].
      * rewrite E1, (proj2 (Transfer.transfer_decode_iff _ t) (conj Ht eq_refl)).
        cbn [mbind option_bind]. by rewrite (proj2 IH (conj Hts E2)).
      * rewrite Transfer.length_transfer by done. rewrite length_slice; unfold off; lia.
Qed.

Lemma length_decode_transfers b i n ts : decode_transfers b i n = Some ts → length ts = n.
Proof.
  revert i ts. induction n as [|n IH]; intros i ts; cbn [decode_transfers].
  - by intros [= <-].
  - destruct (Transfer.decode _); [|done]. cbn [mbind option_bind].
    destruct (decode_transfers b (S i) n) as [ts'|] eqn:E; [|done]. cbn. intros [= <-].
    cbn. by rewrite (IH _ _ E).
Qed.

Lemma block_decode_shape b k : decode b = Some k → block_ok k ∧ b = encode k.
Proof.
  unfold decode. destruct (_ <? _)%nat eqn:L0; [done|]. apply Nat.ltb_ge in L0.
  set (n := N.to_nat (le_val (slice 40 44 b))).
  remember (44 + n * Transfer.WIRE_LEN)%nat as m eqn:Hm.
  remember (m + 32)%nat as e eqn:He.
  destruct (length b =? e)%nat eqn:L; [|done]. bool_facts. cbn [negb].
  destruct (decode_transfers b 0 n) as [ts|] eqn:D; [|done]. cbn [mbind option_bind].
  intros [= <-]. pose proof (length_decode_transfers _ _ _ _ D) as Hn.
  rewrite <- Hn in *. apply decode_transfers_Some in D as [Hts E]; [|cbn [Nat.add]; lia].
  rewrite Nat.mul_0_l, Nat.add_0_r, Nat.add_0_l, <- Hm in E.
  assert (∀ i j, (i ≤ j)%nat → (j ≤ length b)%nat → length (slice i j b) = (j - i)%nat) as Hl
    by (intros; by apply length_slice).
  pose proof (le_val_u32_ok (slice 40 44 b) ltac:(rewrite Hl; lia)) as Hc.
  assert (N.of_nat (length ts) = le_val (slice 40 44 b)) as Ec by (rewrite Hn; unfold n; lia).
  unfold block_ok, encode. cbn [height prev_hash transfers hash]. rewrite Ec. split.
  - rewrite !Hl by lia. split_and!; try done; [apply le_val_u64_ok; rewrite Hl; lia|lia].
  - unfold wrap32. rewrite N.mod_small by done.
    rewrite u64_le_le_val, u32_le_le_val by (rewrite Hl; lia). rewrite <- E.
    replace (e - 32)%nat with m by lia.
    rewrite !slice_glue by lia. symmetry. by apply slice_all.
Qed.

Lemma block_decode_encode k : block_ok k → decode (encode k) = Some k.
Proof.
  intros (Hh & Hp & Hn & Hts & Hx). destruct k as [h p ts x]. unfold encode.
  cbn [height prev_hash transfers hash] in *. unfold wrap32. rewrite N.mod_small by done.
  set (m := concat _). pose proof (length_transfers ts Hts) as Lm. fold m in Lm.
  set (b := u64_le h ++ _).
  assert (length b = (44 + length ts * Transfer.WIRE_LEN + 32)%nat) as Lb
    by (unfold b; rewrite !length_app, length_u64_le, length_u32_le, Lm, Hx; lia).
  assert (slice 0 8 b = u64_le h) as S1 by (apply (slice_field []); cbn; rewrite ?length_u64_le; lia).
  assert (slice 8 40 b = p) as S2 by (apply (slice_field [u64_le h]); cbn; rewrite ?length_u64_le; lia).
  assert (slice 40 44 b = u32_le (N.of_nat (length ts))) as S3
    by (apply (slice_field [u64_le h; p]); cbn; rewrite ?length_u64_le, ?length_u32_le; lia).
  assert (slice 44 (44 + length ts * Transfer.WIRE_LEN) b = m) as S4
    by (apply (slice_field [u64_le h; p; u32_le (N.of_nat (length ts))]); cbn;
        rewrite ?length_u64_le, ?length_u32_le; lia).
  assert (slice (44 + length ts * Transfer.WIRE_LEN) (44 + length ts * Transfer.WIRE_LEN + 32) b = x)
    as S5 by (apply (slice_last [u64_le h; p; u32_le (N.of_nat (length ts)); m]); cbn;
              rewrite ?length_u64_le, ?length_u32_le; lia).
  clearbody b. unfold decode. rewrite S1, S2, S3, le_val_u32_le.
  unfold wrap32. rewrite N.mod_small, Nat2N.id by done.
  rewrite (proj2 (Nat.ltb_ge _ _)) by lia. rewrite (proj2 (Nat.eqb_eq _ _)) by done. cbn [negb].
  rewrite (proj2 (decode_transfers_Some ts b 0 ltac:(cbn [Nat.add]; lia))).
  - cbn [mbind option_bind]. rewrite le_val_u64_le by done. do 2 f_equal. rewrite <- S5. f_equal. lia.
  - split; [done|]. cbn [Nat.add Nat.mul]. exact S4.
Qed.

#[global] Instance block_codec : WireCodec Block :=
  {| wire_ok := block_ok; wire_encode := encode; wire_decode := decode |}.
#[global] Instance block_codec_laws : WireCodecLaws Block.
Proof. intros b k. split; [apply block_decode_shape|]. intros [H ->]. by apply block_decode_encode. Qed.

(** The block wire form: [decode] accepts exactly the encodings of well-formed blocks,
    each as that block, so a gossiped or persisted block is read back unchanged and a
    truncated, padded or miscounted one is refused. *)
Theorem block_decode_iff b k : decode b = Some k ↔ block_ok k ∧ b = encode k.
Proof. split; [apply block_decode_shape|]. intros [H ->]. by apply block_decode_encode. Qed.

End Block.
Import Block (Block, block_ok).

Module Chain.

(** src/crates/common/src/settlement.rs:36-49 [ChainError] *)
Inductive ChainError :=
| BadSignature
| Overdraft (from : Account) (balance amount : Amount)
| BadNonce (from : Account) (expected got : N)
| BalanceOverflow (to : Account) (balance amount : Amount)
| BrokenChain (height : N).

(** Balances and the next nonce of every sender. *)
Abbreviation State := (gmap bytes N * gmap bytes N)%type.

(** src/crates/common/src/settlement.rs:228-241 [Chain] *)
Record Chain := {
  genesis : gmap bytes N;
  blocks : list Block;
  cached_state : option State;
}.

(** src/crates/common/src/settlement.rs:301-305 [Chain::apply] *)
Definition apply (acc : State) (t : Transfer) : State :=
  let '(balances, nonces) := acc in
  let balances := <[Transfer.from t := amount_at balances (Transfer.from t)
                                       - Transfer.amount t]> balances in
  let balances := <[Transfer.to t := saturating_add64 (amount_at balances (Transfer.to t))
                                       (Transfer.amount t)]> balances in
  (balances, <[Transfer.from t := wrap64 (amount_at nonces (Transfer.from t) + 1)]> nonces).

(** src/crates/common/src/settlement.rs:276-287 [Chain::compute_state] *)
Definition compute_state (c : Chain) : State :=
  foldl (λ acc block, foldl apply acc (Block.transfers block)) (genesis c, ∅) (blocks c).

(** src/crates/common/src/settlement.rs:294-299 [Chain::state]: the state and the chain
    with its cache filled. *)
Definition state (c : Chain) : State * Chain :=
  match cached_state c with
  | Some st => (st, c)
  | None =>
    let st := compute_state c in
    (st, {| genesis := genesis c; blocks := blocks c; cached_state := Some st |})
  end.

(** src/crates/common/src/settlement.rs:268-270 [Chain::tip_block] *)
Definition tip_block (c : Chain) : option Block := last (blocks c).

(** src/crates/common/src/settlement.rs:257-259 [Chain::tip_hash] *)
Definition tip_hash (c : Chain) : option bytes := Block.hash <$> last (blocks c).

(** src/crates/common/src/settlement.rs:262-264 [Chain::height] *)
Definition height (c : Chain) : option N := Block.height <$> last (blocks c).

(** src/crates/common/src/settlement.rs:398-400 [Chain::balance] *)
Definition balance (c : Chain) (account : Account) : Amount * Chain :=
  let '(st, c) := state c in (amount_at st.1 account, c).

Section with_crypto.
Context `{Ed25519} (sha256 : bytes → bytes).

(** src/crates/common/src/settlement.rs:205-219 [block_hash]: the bytes hashed. *)
Definition block_preimage (height : N) (prev_hash : bytes) (transfers : list Transfer) : bytes :=
  lit "ct-settlement-block-v1" ++ u64_le height ++ prev_hash
    ++ u32_le (wrap32 (N.of_nat (length transfers)))
    ++ flat_map (λ t, Transfer.from t ++ Transfer.to t ++ u64_le (Transfer.amount t)
                      ++ u64_le (Transfer.nonce t) ++ Transfer.signature t) transfers.

(** src/crates/common/src/settlement.rs:205-219 [block_hash] *)
Definition block_hash (height : N) (prev_hash : bytes) (transfers : list Transfer) : bytes :=
  sha256 (block_preimage height prev_hash transfers).

(** src/crates/common/src/settlement.rs:246-254 [Chain::new] *)
Definition new (genesis : gmap bytes N) : Chain :=
  let genesis_block :=
    {| Block.height := 0; Block.prev_hash := zero_hash; Block.transfers := [];
       Block.hash := block_hash 0 zero_hash [] |} in
  {| genesis := genesis; blocks := [genesis_block]; cached_state := None |}.

(** src/crates/common/src/settlement.rs:309-334 [Chain::validate_and_apply] *)
Definition validate_and_apply (acc : State) (t : Transfer) : Result State ChainError :=
  let '(balances, nonces) := acc in
  if negb (Transfer.verify t) then Err BadSignature
  else
    let expected := amount_at nonces (Transfer.from t) in
    if negb (Transfer.nonce t =? expected)
    then Err (BadNonce (Transfer.from t) expected (Transfer.nonce t))
    else
      let balance := amount_at balances (Transfer.from t) in
      if balance <? Transfer.amount t
      then Err (Overdraft (Transfer.from t) balance (Transfer.amount t))
      else
        let to_balance := amount_at balances (Transfer.to t) in
        match checked_add64 to_balance (Transfer.amount t) with
        | None => Err (BalanceOverflow (Transfer.to t) to_balance (Transfer.amount t))
        | Some _ => Ok (apply (balances, nonces) t)
        end.

(** src/crates/common/src/settlement.rs:341-343 [Chain::append]: the loop [append],
    [accept_block] and [is_valid] share. *)
Fixpoint validate_all (acc : State) (ts : list Transfer) : Result State ChainError :=
  match ts with
  | [] => Ok acc
  | t :: ts' => acc <-? validate_and_apply acc t; validate_all acc ts'
  end.

(** src/crates/common/src/settlement.rs:339-353 [Chain::append] *)
Definition append (c : Chain) (transfers : list Transfer)
    : option (Result () ChainError * Chain) :=
  let '(st, c) := state c in
  match validate_all st transfers with
  | Err e => Some (Err e, c)
  | Ok st =>
    h ← height c;
    let height := wrap64 (h + 1) in
    prev_hash ← tip_hash c;
    let hash := block_hash height prev_hash transfers in
    let block := {| Block.height := height; Block.prev_hash := prev_hash;
                    Block.transfers := transfers; Block.hash := hash |} in
    Some (Ok (), {| genesis := genesis c; blocks := blocks c ++ [block];
                    cached_state := Some st |})
  end.

(** src/crates/common/src/settlement.rs:373-374 [Chain::accept_block]: the stored hash
    is the block's content hash. *)
Definition content_ok (b : Block) : bool :=
  bool_decide (Block.hash b
    = block_hash (Block.height b) (Block.prev_hash b) (Block.transfers b)).

(** src/crates/common/src/settlement.rs:362-395 [Chain::accept_block] *)
Definition accept_block (c : Chain) (block : Block) : option (Result () ChainError * Chain) :=
  tip_height ← height c;
  tip_hash ← tip_hash c;
  if Block.height block <=? tip_height then
    known ← blocks c !! N.to_nat (Block.height block);
    if content_ok block && bool_decide (Block.hash known = Block.hash block)
    then Some (Ok (), c)
    else Some (Err (BrokenChain (Block.height block)), c)
  else
    let expected_height := wrap64 (tip_height + 1) in
    if negb (Block.height block =? expected_height)
       || negb (bool_decide (Block.prev_hash block = tip_hash))
       || negb (content_ok block)
    then Some (Err (BrokenChain expected_height), c)
    else
      let '(st, c) := state c in
      match validate_all st (Block.transfers block) with
      | Err e => Some (Err e, c)
      | Ok st =>
        Some (Ok (), {| genesis := genesis c; blocks := blocks c ++ [block];
                        cached_state := Some st |})
      end.

(** src/crates/common/src/settlement.rs:408-423 [Chain::is_valid]: the loop over the
    blocks from the [i]-th on. *)
Fixpoint check_blocks (i : N) (acc : State) (prev_hash : bytes) (bs : list Block)
    : Result (State * bytes) ChainError :=
  match bs with
  | [] => Ok (acc, prev_hash)
  | block :: bs' =>
    if negb (Block.height block =? i)
       || negb (bool_decide (Block.prev_hash block = prev_hash))
       || negb (content_ok block)
    then Err (BrokenChain i)
    else
      acc <-? validate_all acc (Block.transfers block);
      check_blocks (i + 1) acc (Block.hash block) bs'
  end.

(** src/crates/common/src/settlement.rs:405-424 [Chain::is_valid] *)
Definition is_valid (c : Chain) : Result () ChainError :=
  _r <-? check_blocks 0 (genesis c, ∅) zero_hash (blocks c); Ok ().

(** A client of the ledger: the three operations that touch it. *)
Inductive Op := OpAppend (ts : list Transfer) | OpAccept (b : Block) | OpBalance (a : Account).

Definition exec (c : Chain) (o : Op) : option Chain :=
  match o with
  | OpAppend ts => snd <$> append c ts
  | OpAccept b => snd <$> accept_block c b
  | OpBalance a => Some (balance c a).2
  end.

Fixpoint exec_all (c : Chain) (os : list Op) : option Chain :=
  match os with [] => Some c | o :: os' => c' ← exec c o; exec_all c' os' end.

End with_crypto.

(** Every transfer the chain committed, in order. *)
Definition ledger (c : Chain) : list Transfer := flat_map Block.transfers (blocks c).

(** What an account sent and received in a list of transfers. *)
Definition sent (a : Account) (ts : list Transfer) : N :=
  foldr (λ t acc, (if bool_decide (Transfer.from t = a) then Transfer.amount t else 0) + acc) 0 ts.
Definition received (a : Account) (ts : list Transfer) : N :=
  foldr (λ t acc, (if bool_decide (Transfer.to t = a) then Transfer.amount t else 0) + acc) 0 ts.

(** The nonces of an account's transfers, in order. *)
Definition nonces_of (a : Account) (ts : list Transfer) : list N :=
  Transfer.nonce <$> filter (λ t, Transfer.from t = a) ts.

(** ** One transfer, then a list of them *)

Section facts.
Context `{Ed25519} (sha256 : bytes → bytes).
Implicit Types (st : State) (ts : list Transfer) (c : Chain).

(** What a transfer needs to be committed. *)
Definition authorised st (t : Transfer) : Prop :=
  Transfer.verify t = true ∧ Transfer.nonce t = amount_at st.2 (Transfer.from t) ∧
  Transfer.amount t <= amount_at st.1 (Transfer.from t) ∧
  amount_at st.1 (Transfer.to t) + Transfer.amount t < U64.

Lemma validate_and_apply_Ok st t st' :
  validate_and_apply st t = Ok st' ↔ authorised st t ∧ st' = apply st t.
Proof.
  destruct st as [b n]. unfold validate_and_apply, authorised, checked_add64. cbn [fst snd].
  split.
  - destruct (Transfer.verify t); [|done]. cbn [negb].
    destruct (_ =? _) eqn:E1; [|done]. cbn [negb]. destruct (_ <? _) eqn:E2; [done|].
    destruct (_ <? U64) eqn:E3; [|done]. intros [= <-]. bool_facts. naive_solver.
  - intros [(-> & -> & H3 & H4) ->]. rewrite N.eqb_refl. cbn [negb].
    by rewrite (proj2 (N.ltb_ge _ _)), (proj2 (N.ltb_lt _ _)) by done.
Qed.

Lemma apply_total st t : authorised st t → total (apply st t).1 = total st.1.
Proof.
  destruct st as [b n]. intros (_ & _ & H3 & H4). unfold apply. cbn [fst snd] in *.
  set (b1 := <[Transfer.from t := _]> b).
  assert (amount_at b1 (Transfer.to t) + Transfer.amount t < U64) as Hb.
  { unfold b1. destruct (decide (Transfer.from t = Transfer.to t)) as [->|Hne].
    - rewrite amount_at_insert. lia.
    - by rewrite amount_at_insert_ne. }
  pose proof (total_insert b (Transfer.from t)
                (amount_at b (Transfer.from t) - Transfer.amount t)) as T1. fold b1 in T1.
  unfold saturating_add64. rewrite N.min_l by lia.
  pose proof (total_insert b1 (Transfer.to t) (amount_at b1 (Transfer.to t) + Transfer.amount t)).
  lia.
Qed.

Lemma apply_balance st t a :
  authorised st t →
  amount_at (apply st t).1 a + (if bool_decide (Transfer.from t = a) then Transfer.amount t else 0)
  = amount_at st.1 a + (if bool_decide (Transfer.to t = a) then Transfer.amount t else 0).
Proof.
  destruct st as [b n]. intros (_ & _ & H3 & H4). unfold apply, saturating_add64.
  cbn [fst snd] in *. rewrite N.min_l.
  - case_bool_decide as F; case_bool_decide as T; subst.
    + rewrite T. rewrite !amount_at_insert. lia.
    + rewrite amount_at_insert_ne, amount_at_insert by done. lia.
    + rewrite amount_at_insert, amount_at_insert_ne by done. lia.
    + by rewrite !amount_at_insert_ne.
  - destruct (decide (Transfer.from t = Transfer.to t)) as [->|Hne].
    + rewrite amount_at_insert. lia.
    + rewrite amount_at_insert_ne by done. lia.
Qed.

Lemma apply_nonce st t a :
  amount_at (apply st t).2 a
  = if bool_decide (Transfer.from t = a) then wrap64 (amount_at st.2 a + 1) else amount_at st.2 a.
Proof.
  destruct st as [b n]. cbn. case_bool_decide; [subst; apply amount_at_insert|].
  by apply amount_at_insert_ne.
Qed.

Lemma validate_all_app st ts1 ts2 :
  validate_all st (ts1 ++ ts2) = (st <-? validate_all st ts1; validate_all st ts2).
Proof.
  revert st. induction ts1 as [|t ts1 IH]; intros st; [done|]. cbn [app validate_all].
  destruct (validate_and_apply st t); [apply IH|done].
Qed.

(** Induction over a list of transfers that validates. *)
Lemma validate_all_ind (P : State → list Transfer → State → Prop) :
  (∀ st, P st [] st) →
  (∀ st t ts st', authorised st t → validate_all (apply st t) ts = Ok st' →
     P (apply st t) ts st' → P st (t :: ts) st') →
  ∀ st ts st', validate_all st ts = Ok st' → P st ts st'.
Proof.
  intros H0 HS st ts. revert st. induction ts as [|t ts IH]; intros st st'; cbn [validate_all].
  - intros [= <-]. apply H0.
  - destruct (validate_and_apply st t) as [st1|] eqn:E; [|done]. cbn [rbind].
    apply validate_and_apply_Ok in E as [Ha ->]. intros E. apply HS; auto.
Qed.

Lemma validate_all_fold st ts st' : validate_all st ts = Ok st' → st' = foldl apply st ts.
Proof. revert st ts st'. by apply validate_all_ind. Qed.

Lemma validate_all_total st ts st' : validate_all st ts = Ok st' → total st'.1 = total st.1.
Proof.
  revert st ts st'. apply validate_all_ind; [done|]. intros st t ts st' Ha _ ->.
  by apply apply_total.
Qed.

Lemma validate_all_verify st ts st' :
  validate_all st ts = Ok st' → Forall (λ t, Transfer.verify t = true) ts.
Proof.
  revert st ts st'. apply validate_all_ind; [constructor|]. intros st t ts st' [Hv _] _ Hf.
  by constructor.
Qed.

Lemma validate_all_balance a st ts st' :
  validate_all st ts = Ok st' →
  amount_at st'.1 a + sent a ts = amount_at st.1 a + received a ts.
Proof.
  revert st ts st'. apply validate_all_ind; [done|]. intros st t ts st' Ha _ IH.
  pose proof (apply_balance st t a Ha). cbn [sent received foldr].
  fold (sent a ts) (received a ts). lia.
Qed.

(** A sender's nonces count up from its next expected one. *)
Lemma validate_all_nonces a st ts st' :
  validate_all st ts = Ok st' →
  amount_at st.2 a + N.of_nat (length ts) < U64 →
  (∀ i x, nonces_of a ts !! i = Some x → x = amount_at st.2 a + N.of_nat i) ∧
  amount_at st'.2 a = amount_at st.2 a + N.of_nat (length (nonces_of a ts)).
Proof.
  revert st ts st'. apply (validate_all_ind (λ st ts st', _ → _)).
  - intros st _. cbn. split; [intros i x; by rewrite lookup_nil|lia].
  - intros st t ts st' (_ & Hn & _) _ IH Hlen. cbn [length] in Hlen.
    rewrite apply_nonce in IH. unfold nonces_of in *. rewrite filter_cons.
    case_bool_decide as D; [rewrite decide_True by done|rewrite decide_False by done].
    + unfold wrap64 in IH. rewrite N.mod_small in IH by lia.
      destruct IH as [IH1 IH2]; [lia|]. cbn [fmap list_fmap length]. split; [|lia].
      intros [|i] x; cbn; [intros [= <-]; rewrite Hn, D; lia|]. intros Hx%IH1. lia.
    + apply IH. lia.
Qed.

(** ** The blocks of a valid chain *)

Lemma check_blocks_cons i st prev k bs r :
  check_blocks sha256 i st prev (k :: bs) = Ok r ↔
  Block.height k = i ∧ Block.prev_hash k = prev ∧ content_ok sha256 k = true ∧
  ∃ st', validate_all st (Block.transfers k) = Ok st' ∧
         check_blocks sha256 (i + 1) st' (Block.hash k) bs = Ok r.
Proof.
  cbn [check_blocks]. split.
  - destruct (negb _ || _ || _) eqn:E; [done|]. bool_facts.
    destruct (validate_all _ _) as [st'|] eqn:V; [|done]. cbn [rbind]. eauto 10.
  - intros (-> & -> & -> & st' & -> & E). rewrite N.eqb_refl, bool_decide_eq_true_2 by done.
    exact E.
Qed.

Lemma check_blocks_app i st prev bs1 bs2 r :
  check_blocks sha256 i st prev (bs1 ++ bs2) = Ok r ↔
  ∃ st' prev', check_blocks sha256 i st prev bs1 = Ok (st', prev') ∧
    check_blocks sha256 (i + N.of_nat (length bs1)) st' prev' bs2 = Ok r.
Proof.
  revert i st prev. induction bs1 as [|k bs1 IH]; intros i st prev.
  - cbn [app length check_blocks]. rewrite N.add_0_r. split; [eauto|]. by intros (? & ? & [= <- <-] & ?).
  - cbn [app length]. rewrite check_blocks_cons. setoid_rewrite check_blocks_cons.
    setoid_rewrite IH. rewrite Nat2N.inj_succ.
    replace (i + 1 + N.of_nat (length bs1)) with (i + N.succ (N.of_nat (length bs1))) by lia.
    naive_solver.
Qed.

(** A valid run of blocks validates its transfers one after the other. *)
Lemma check_blocks_ledger i st prev bs st' h :
  check_blocks sha256 i st prev bs = Ok (st', h) →
  validate_all st (flat_map Block.transfers bs) = Ok st'.
Proof.
  revert i st prev. induction bs as [|k bs IH]; intros i st prev; [by intros [= -> ->]|].
  rewrite check_blocks_cons. intros (_ & _ & _ & st1 & V & E). cbn [flat_map].
  rewrite validate_all_app, V. by eapply IH.
Qed.

Lemma check_blocks_heights i st prev bs r n k :
  check_blocks sha256 i st prev bs = Ok r → bs !! n = Some k →
  Block.height k = i + N.of_nat n ∧ content_ok sha256 k = true.
Proof.
  revert i st prev n. induction bs as [|b bs IH]; intros i st prev n; [done|].
  rewrite check_blocks_cons. intros (Hh & _ & Hc & st1 & _ & E). destruct n as [|n]; cbn.
  - intros [= <-]. split; [lia|done].
  - intros Hk. destruct (IH _ _ _ _ E Hk). split; [lia|done].
Qed.

Lemma check_blocks_tip i st prev bs st' h :
  check_blocks sha256 i st prev bs = Ok (st', h) →
  h = default prev (Block.hash <$> last bs).
Proof.
  revert i st prev. induction bs as [|b bs IH]; intros i st prev; [by intros [= _ ->]|].
  rewrite check_blocks_cons. intros (_ & _ & _ & st1 & _ & E). rewrite (IH _ _ _ E).
  rewrite last_cons. by destruct (last bs).
Qed.

Lemma compute_state_ledger c : compute_state c = foldl apply (genesis c, ∅) (ledger c).
Proof.
  unfold compute_state, ledger. generalize (genesis c, ∅ : gmap bytes N) as st.
  induction (blocks c) as [|b bs IH]; intros st; [done|]. cbn [foldl flat_map].
  by rewrite foldl_app, IH.
Qed.

Lemma is_valid_Ok c :
  is_valid sha256 c = Ok () ↔
  ∃ r, check_blocks sha256 0 (genesis c, ∅) zero_hash (blocks c) = Ok r.
Proof.
  unfold is_valid. destruct (check_blocks _ _ _ _ _) eqn:E; cbn; naive_solver.
Qed.

Lemma is_valid_ledger c :
  is_valid sha256 c = Ok () → validate_all (genesis c, ∅) (ledger c) = Ok (compute_state c).
Proof.
  rewrite is_valid_Ok. intros [[st h] E]. pose proof (check_blocks_ledger _ _ _ _ _ _ E) as V.
  rewrite compute_state_ledger. unfold ledger in *. by rewrite <- (validate_all_fold _ _ _ V).
Qed.

(** ** The invariant of the ledger *)

(** A chain the code can hold: it has its genesis block, [is_valid] accepts it and the
    cache, when filled, is what a replay computes. *)
Record wf c : Prop := {
  wf_blocks : blocks c ≠ [];
  wf_valid : is_valid sha256 c = Ok ();
  wf_cache st : cached_state c = Some st → st = compute_state c;
}.

Lemma wf_new g : wf (new sha256 g).
Proof.
  split; [done| |done]. apply is_valid_Ok. eexists. apply check_blocks_cons.
  split_and!; [done..| |]; [by apply bool_decide_eq_true_2|]. eexists. by split.
Qed.

(** Filling the cache. *)
Definition warm c : Chain :=
  {| genesis := genesis c; blocks := blocks c; cached_state := Some (compute_state c) |}.

Lemma state_wf c : wf c → state c = (compute_state c, warm c).
Proof.
  intros W. destruct c as [g bs [st|]]; [|done]. unfold state, warm.
  cbn [cached_state genesis blocks]. by rewrite <- (wf_cache _ W st eq_refl).
Qed.

Lemma wf_warm c : wf c → wf (warm c).
Proof. intros [H1 H2 H3]. split; [done|done|]. by intros st [= <-]. Qed.

(** The tip of a well-formed chain: its height is the number of blocks less one. *)
Lemma wf_tip c :
  wf c → ∃ tip, last (blocks c) = Some tip ∧ height c = Some (Block.height tip) ∧
    tip_hash c = Some (Block.hash tip) ∧ N.of_nat (length (blocks c)) = Block.height tip + 1 ∧
    check_blocks sha256 0 (genesis c, ∅) zero_hash (blocks c) = Ok (compute_state c, Block.hash tip).
Proof.
  intros [H1 H2 _]. pose proof (is_valid_ledger c H2) as V.
  apply is_valid_Ok in H2 as [[st h] E].
  destruct (last (blocks c)) as [tip|] eqn:L; [|by apply last_None in L].
  exists tip. unfold height, tip_hash. rewrite L.
  pose proof (check_blocks_tip _ _ _ _ _ _ E) as ->. rewrite L in *. cbn in *.
  pose proof L as L'. rewrite last_lookup in L'.
  destruct (check_blocks_heights _ _ _ _ _ _ _ E L') as [Hh _].
  pose proof (check_blocks_ledger _ _ _ _ _ _ E) as V'. fold (ledger c) in V'.
  rewrite V in V'. injection V' as <-. split_and!; try done.
  destruct (blocks c); [done|]. cbn [length] in *. lia.
Qed.

(** Appending a block that links to the tip and validates. *)
Definition push c (k : Block) st : Chain :=
  {| genesis := genesis c; blocks := blocks c ++ [k]; cached_state := Some st |}.

Lemma wf_push c k st tip :
  wf c → last (blocks c) = Some tip → Block.height k = Block.height tip + 1 →
  Block.prev_hash k = Block.hash tip → content_ok sha256 k = true →
  validate_all (compute_state c) (Block.transfers k) = Ok st → wf (push c k st).
Proof.
  intros W L Hh Hp Hc V. destruct (wf_tip c W) as (tip' & L' & _ & _ & Hn & E).
  rewrite L in L'. injection L' as <-. split.
  - cbn. by destruct (blocks c).
  - apply is_valid_Ok. exists (st, Block.hash k). cbn [push genesis blocks].
    apply check_blocks_app. eexists _, _. split; [exact E|]. apply check_blocks_cons.
    split_and!; [lia|done..|]. by exists st.
  - intros st' [= <-]. rewrite compute_state_ledger. unfold ledger. cbn [push genesis blocks].
    rewrite flat_map_app. cbn [flat_map]. rewrite app_nil_r, foldl_app.
    fold (ledger c). rewrite <- compute_state_ledger. by apply validate_all_fold.
Qed.

(** The block [append] produces on a tip. *)
Definition next_block (tip : Block) ts : Block :=
  {| Block.height := Block.height tip + 1; Block.prev_hash := Block.hash tip;
     Block.transfers := ts;
     Block.hash := block_hash sha256 (Block.height tip + 1) (Block.hash tip) ts |}.

(** Fewer than 2^64 blocks, so that the next height does not wrap. *)
Definition height_ok c : Prop := N.of_nat (length (blocks c)) < U64.

Lemma append_wf c ts :
  wf c → height_ok c →
  ∃ tip, last (blocks c) = Some tip ∧
    append sha256 c ts =
      Some (match validate_all (compute_state c) ts with
            | Ok st => (Ok (), push c (next_block tip ts) st)
            | Err e => (Err e, warm c)
            end).
Proof.
  intros W Hh. destruct (wf_tip c W) as (tip & L & Eh & Et & En & _). exists tip.
  split; [done|]. unfold append. rewrite state_wf by done.
  destruct (validate_all _ _) as [st|e]; [|done].
  change (height (warm c)) with (height c). change (tip_hash (warm c)) with (tip_hash c).
  rewrite Eh, Et. cbn [mbind option_bind]. unfold height_ok in Hh. unfold wrap64.
  rewrite N.mod_small by lia. reflexivity.
Qed.

(** A block that extends the tip with valid transfers. *)
Definition extends c (tip k : Block) : Prop :=
  Block.height k = Block.height tip + 1 ∧ Block.prev_hash k = Block.hash tip ∧
  content_ok sha256 k = true.

#[global] Instance extends_dec c tip k : Decision (extends c tip k).
Proof. unfold extends. apply _. Defined.

(** A block the chain already holds at that height, by content. *)
Definition redelivery c (k : Block) : Prop :=
  ∃ known, blocks c !! N.to_nat (Block.height k) = Some known ∧
           Block.hash known = Block.hash k ∧ content_ok sha256 k = true.

Lemma accept_known c k :
  wf c → Block.height k < N.of_nat (length (blocks c)) →
  (redelivery c k ∧ accept_block sha256 c k = Some (Ok (), c)) ∨
  (¬ redelivery c k ∧
   accept_block sha256 c k = Some (Err (BrokenChain (Block.height k)), c)).
Proof.
  intros W Hk. destruct (wf_tip c W) as (tip & L & Eh & Et & En & _).
  unfold accept_block, redelivery. rewrite Eh, Et. cbn [mbind option_bind].
  rewrite (proj2 (N.leb_le _ _)) by lia.
  destruct (lookup_lt_is_Some_2 (blocks c) (N.to_nat (Block.height k)) ltac:(lia)) as [known Ek].
  rewrite Ek. cbn [mbind option_bind].
  destruct (content_ok sha256 k && bool_decide _) eqn:B.
  - left. bool_facts. eauto 10.
  - right. split; [|done]. intros (k' & [= <-] & Hh & Hc). rewrite Hc, Hh in B.
    by rewrite bool_decide_eq_true_2 in B.
Qed.

Lemma accept_new c k tip :
  wf c → height_ok c → last (blocks c) = Some tip →
  N.of_nat (length (blocks c)) <= Block.height k →
  accept_block sha256 c k =
    Some (if bool_decide (extends c tip k)
          then match validate_all (compute_state c) (Block.transfers k) with
               | Ok st => (Ok (), push c k st)
               | Err e => (Err e, warm c)
               end
          else (Err (BrokenChain (N.of_nat (length (blocks c)))), c)).
Proof.
  intros W Hh Lt Hk. destruct (wf_tip c W) as (tip' & L & Eh & Et & En & _).
  rewrite Lt in L. injection L as <-. unfold accept_block, height_ok in *. rewrite Eh, Et.
  cbn [mbind option_bind]. rewrite (proj2 (N.leb_gt _ _)) by lia.
  unfold wrap64. rewrite N.mod_small by lia. rewrite <- En.
  destruct (bool_decide (extends c tip k)) eqn:X; bool_facts.
  - destruct X as (X1 & X2 & X3). rewrite X3, X2, bool_decide_eq_true_2 by done.
    rewrite (proj2 (N.eqb_eq _ _)) by lia. cbn [negb orb]. rewrite state_wf by done.
    by destruct (validate_all _ _).
  - destruct (_ || _) eqn:B; [done|]. bool_facts. destruct X. split_and!; [lia|done|done].
Qed.

(** Every operation keeps the invariant, the genesis and the committed blocks. *)
Lemma exec_wf c o :
  wf c → height_ok c →
  ∃ c', exec sha256 c o = Some c' ∧ wf c' ∧ genesis c' = genesis c ∧
        blocks c `prefix_of` blocks c' ∧ (length (blocks c') ≤ S (length (blocks c)))%nat.
Proof.
  intros W Hh. destruct (wf_tip c W) as (tip & L & _ & _ & En & _).
  assert (∀ k st, wf (push c k st) →
    ∃ c', Some (push c k st) = Some c' ∧ wf c' ∧ genesis c' = genesis c ∧
          blocks c `prefix_of` blocks c' ∧ (length (blocks c') ≤ S (length (blocks c)))%nat)
    as HP.
  { intros k st Wk. eexists. split_and!; [done|done|done|by eexists|]. cbn.
    rewrite length_app. cbn. lia. }
  assert (∀ c', c' = c ∨ c' = warm c →
    wf c' ∧ genesis c' = genesis c ∧ blocks c `prefix_of` blocks c' ∧
    (length (blocks c') ≤ S (length (blocks c)))%nat) as HK.
  { intros c' [->| ->]; split_and!; try done; try (by apply wf_warm); cbn; lia. }
  destruct o as [ts|k|a]; cbn [exec].
  - destruct (append_wf c ts W Hh) as (tip' & L' & ->). rewrite L in L'. injection L' as <-.
    destruct (validate_all _ _) as [st|e] eqn:V; cbn [fmap option_fmap option_map snd].
    + apply HP. eapply wf_push; try done. by apply bool_decide_eq_true_2.
    + eexists. split; [done|]. apply HK. auto.
  - destruct (decide (Block.height k < N.of_nat (length (blocks c)))) as [Hk|Hk].
    + destruct (accept_known c k W Hk) as [[_ ->]|[_ ->]]; eexists; (split; [done|]); apply HK; auto.
    + rewrite (accept_new c k tip) by (try done; lia).
      case_bool_decide as X; [|eexists; split; [done|]; apply HK; auto].
      destruct (validate_all _ _) as [st|e] eqn:V; cbn [fmap option_fmap option_map snd].
      * apply HP. destruct X as (X1 & X2 & X3). by eapply wf_push.
      * eexists. split; [done|]. apply HK. auto.
  - unfold balance. rewrite state_wf by done. eexists. split; [done|]. apply HK. auto.
Qed.

Lemma exec_all_wf c os :
  wf c → N.of_nat (length (blocks c) + length os) < U64 →
  ∃ c', exec_all sha256 c os = Some c' ∧ wf c' ∧ genesis c' = genesis c ∧
        blocks c `prefix_of` blocks c' ∧
        (length (blocks c') ≤ length (blocks c) + length os)%nat.
Proof.
  revert c. induction os as [|o os IH]; intros c W Hn; cbn [exec_all length] in *.
  - exists c. split_and!; try done. lia.
  - destruct (exec_wf c o W) as (c1 & -> & W1 & G1 & P1 & L1); [unfold height_ok; lia|].
    cbn [mbind option_bind]. destruct (IH c1 W1) as (c2 & -> & W2 & G2 & P2 & L2); [lia|].
    exists c2. split_and!; [done|done|congruence|by etrans|lia].
Qed.

Lemma exec_all_app c os1 os2 :
  exec_all sha256 c (os1 ++ os2) = (c1 ← exec_all sha256 c os1; exec_all sha256 c1 os2).
Proof.
  revert c. induction os1 as [|o os1 IH]; intros c; [done|]. cbn [app exec_all].
  destruct (exec sha256 c o); [apply IH|done].
Qed.

(** C1 Whatever transfers, peer blocks and balance queries a ledger is given (fewer than
    2^64 of them), it never panics and every reachable ledger is intact: [is_valid]
    accepts it, its cache is what a replay from genesis computes, only signed transfers
    are in it, committed blocks are never rewritten and the total supply is the genesis
    supply. *)
Theorem chain_reachable_valid g os :
  N.of_nat (length os) + 1 < U64 →
  ∃ c, exec_all sha256 (new sha256 g) os = Some c ∧
    is_valid sha256 c = Ok () ∧
    (∀ st, cached_state c = Some st → st = compute_state c) ∧
    Forall (λ t, Transfer.verify t = true) (ledger c) ∧
    total (compute_state c).1 = total g ∧
    ∀ os1 os2 c1, os = os1 ++ os2 → exec_all sha256 (new sha256 g) os1 = Some c1 →
      blocks c1 `prefix_of` blocks c.
Proof.
  intros Hn. destruct (exec_all_wf (new sha256 g) os (wf_new g)) as (c & E & [H1 H2 H3] & G & _);
    [cbn; lia|]. pose proof (is_valid_ledger c H2) as V. rewrite G in V.
  exists c. split_and!; try done.
  - by eapply validate_all_verify.
  - by rewrite (validate_all_total _ _ _ V).
  - intros os1 os2 c1 -> E1. rewrite length_app in Hn.
    destruct (exec_all_wf (new sha256 g) os1 (wf_new g)) as (c1' & E1' & W1 & _ & _ & L1);
      [cbn; lia|]. rewrite E1 in E1'. injection E1' as <-. cbn in L1.
    rewrite exec_all_app, E1 in E. cbn [mbind option_bind] in E.
    destruct (exec_all_wf c1 os2 W1) as (c2 & E2 & _ & _ & P2 & _); [lia|].
    rewrite E in E2. by injection E2 as <-.
Qed.

Lemma validate_all_Err st ts e :
  validate_all st ts = Err e →
  ∃ pre t post st', ts = pre ++ t :: post ∧ validate_all st pre = Ok st' ∧
    validate_and_apply st' t = Err e.
Proof.
  revert st. induction ts as [|t ts IH]; intros st; [done|]. cbn [validate_all].
  destruct (validate_and_apply st t) as [st1|e1] eqn:E; cbn [rbind].
  - intros (pre & t' & post & st' & -> & V & F)%IH. exists (t :: pre), t', post, st'.
    split_and!; [done| |done]. cbn. by rewrite E.
  - intros [= ->]. by exists [], t, ts, st.
Qed.

(** Appending is all or nothing: either every transfer validates, in order, against
    the state the previous ones left and exactly one linked block carrying them is
    added, or the chain's blocks are unchanged and the error is that of the first
    transfer that does not validate. *)
Theorem append_all_or_nothing c ts r c' :
  wf c → height_ok c → append sha256 c ts = Some (r, c') →
  (∃ tip st, r = Ok () ∧ last (blocks c) = Some tip ∧
     validate_all (compute_state c) ts = Ok st ∧ c' = push c (next_block tip ts) st ∧
     compute_state c' = st) ∨
  (∃ e pre t post st, r = Err e ∧ blocks c' = blocks c ∧ compute_state c' = compute_state c ∧
     ts = pre ++ t :: post ∧ validate_all (compute_state c) pre = Ok st ∧
     validate_and_apply st t = Err e).
Proof.
  intros W Hh E. destruct (append_wf c ts W Hh) as (tip & L & A). rewrite E in A. clear E.
  destruct (validate_all _ _) as [st|e] eqn:V; injection A as -> ->.
  - left. exists tip, st. split_and!; try done. symmetry.
    apply (wf_cache (push c (next_block tip ts) st)); [|done].
    eapply wf_push; try done. by apply bool_decide_eq_true_2.
  - right. apply validate_all_Err in V as (pre & t & post & st & -> & V & F).
    by exists e, pre, t, post, st.
Qed.

(** A peer's block is accepted exactly when it is a block already held at that height
    (same content hash, and then nothing changes) or it extends the tip (next height,
    tip's hash, correct content hash) with transfers that all validate, and then it
    becomes the tip; a fork, a gap or a forged block is refused and changes no block. *)
Theorem accept_block_iff c k :
  wf c → height_ok c →
  ∃ r c' tip, accept_block sha256 c k = Some (r, c') ∧ last (blocks c) = Some tip ∧
    (r = Ok () ↔
     (Block.height k < N.of_nat (length (blocks c)) ∧ redelivery c k ∧ c' = c) ∨
     (extends c tip k ∧ ∃ st, validate_all (compute_state c) (Block.transfers k) = Ok st ∧
                              c' = push c k st)) ∧
    (r ≠ Ok () → blocks c' = blocks c).
Proof.
  intros W Hh. destruct (wf_tip c W) as (tip & L & _ & _ & En & _).
  destruct (decide (Block.height k < N.of_nat (length (blocks c)))) as [Hk|Hk].
  - destruct (accept_known c k W Hk) as [[R A]|[R A]]; rewrite A; eexists _, c, tip;
      (split; [done|split; [done|split; [|done]]]).
    + split; [|done]. intros _. by left.
    + split; [done|]. by intros [(_ & ? & _)|[(X & _) _]]; [|lia].
  - rewrite (accept_new c k tip W Hh L) by lia. case_bool_decide as X.
    + destruct (validate_all _ _) as [st|e]; eexists _, _, tip;
        (split; [done|split; [done|split; [|done]]]).
      * split; [|done]. intros _. right. eauto.
      * split; [done|]. by intros [(? & _ & _)|(_ & st' & ? & _)]; [lia|].
    + eexists _, c, tip. split; [done|split; [done|split; [|done]]].
      split; [done|]. by intros [[? _]|[? _]]; [lia|].
Qed.

(** C3 Replication: a follower with the leader's genesis and blocks accepts the block the
    leader has just appended, ends with the leader's blocks and balances, and takes a
    second delivery of that block without error or effect. *)
Theorem replicate_block l f ts l' :
  wf l → wf f → genesis f = genesis l → blocks f = blocks l → height_ok l →
  append sha256 l ts = Some (Ok (), l') →
  ∃ k f', tip_block l' = Some k ∧ accept_block sha256 f k = Some (Ok (), f') ∧
    blocks f' = blocks l' ∧ compute_state f' = compute_state l' ∧
    accept_block sha256 f' k = Some (Ok (), f').
Proof.
  intros Wl Wf G B Hh A. destruct (append_wf l ts Wl Hh) as (tip & L & A'). rewrite A in A'.
  destruct (validate_all _ _) as [st|e] eqn:V; [|done]. injection A' as ->.
  assert (compute_state f = compute_state l) as Es by (unfold compute_state; by rewrite G, B).
  set (k := next_block tip ts) in *.
  assert (extends f tip k) as X by (split; [done|split; [done|by apply bool_decide_eq_true_2]]).
  destruct (wf_tip f Wf) as (tip' & L' & _ & _ & En & _).
  assert (tip' = tip) as -> by (rewrite B, L in L'; by injection L').
  exists k, (push f k st). split_and!.
  - unfold tip_block. cbn. apply last_snoc.
  - rewrite (accept_new f k tip) by first [done|unfold height_ok; by rewrite B|cbn; lia].
    rewrite bool_decide_eq_true_2 by done. rewrite Es. cbn [k next_block Block.transfers].
    by rewrite V.
  - cbn. by rewrite B.
  - unfold compute_state. cbn. by rewrite G, B.
  - destruct X as (X1 & X2 & X3).
    assert (wf (push f k st)) as W' by (eapply wf_push; try done; by rewrite Es).
    destruct (accept_known (push f k st) k W') as [[_ ?]|[R _]]; [|done|].
    + cbn. rewrite length_app. cbn. lia.
    + destruct R. exists k. split_and!; [|done|done]. cbn [push blocks].
      rewrite lookup_app_r by lia. replace (_ - _)%nat with 0%nat by lia. done.
Qed.

(** A balance is the account's genesis allocation plus everything it received less
    everything it sent in the committed transfers, exactly: no credit is capped and no
    debit truncated. *)
Theorem balance_exact c a :
  wf c → (balance c a).1 + sent a (ledger c) = amount_at (genesis c) a + received a (ledger c).
Proof.
  intros W. unfold balance. rewrite state_wf by done. cbn [fst].
  by apply (validate_all_balance a (genesis c, ∅)), is_valid_ledger, wf_valid.
Qed.

Lemma elem_of_nonces t ts :
  t ∈ ts → ∃ i, nonces_of (Transfer.from t) ts !! i = Some (Transfer.nonce t).
Proof.
  intros Ht. apply list_elem_of_lookup_1. unfold nonces_of. apply list_elem_of_fmap.
  exists t. split; [done|]. by apply list_elem_of_filter.
Qed.

(** C2 A signed transfer is committed at most once: in a valid chain the nonces of each
    sender's transfers are 0, 1, 2, ... in order, and no list of transfers containing
    one that is already committed validates, so a replay can never be appended. *)
Theorem transfer_single_use c :
  wf c → N.of_nat (length (ledger c)) < U64 →
  (∀ a i x, nonces_of a (ledger c) !! i = Some x → x = N.of_nat i) ∧
  (∀ t ts, t ∈ ledger c → t ∈ ts → N.of_nat (length (ledger c ++ ts)) < U64 →
     ∀ st, validate_all (compute_state c) ts ≠ Ok st).
Proof.
  intros W Hn. pose proof (is_valid_ledger c (wf_valid c W)) as V.
  assert (∀ a, amount_at (genesis c, ∅ : gmap bytes N).2 a = 0) as H0 by done. split.
  - intros a i x Hx. apply (validate_all_nonces a) in V as [V _]; [|by rewrite H0].
    apply V in Hx. by rewrite H0 in Hx.
  - intros t ts H1 H2 Hl st V2.
    assert (validate_all (genesis c, ∅) (ledger c ++ ts) = Ok st) as V3
      by (by rewrite validate_all_app, V).
    apply (validate_all_nonces (Transfer.from t)) in V3 as [V3 _]; [|by rewrite H0].
    destruct (elem_of_nonces t _ H1) as [i Hi], (elem_of_nonces t _ H2) as [j Hj].
    pose proof (lookup_lt_Some _ _ _ Hi).
    set (m := length (nonces_of (Transfer.from t) (ledger c))) in *.
    assert (nonces_of (Transfer.from t) (ledger c ++ ts)
            = nonces_of (Transfer.from t) (ledger c) ++ nonces_of (Transfer.from t) ts) as Ea
      by (unfold nonces_of; by rewrite filter_app, fmap_app).
    rewrite Ea in V3.
    pose proof (V3 i _ ltac:(rewrite lookup_app_l by done; exact Hi)) as E1.
    assert ((nonces_of (Transfer.from t) (ledger c) ++ nonces_of (Transfer.from t) ts) !! (m + j)%nat
            = Some (Transfer.nonce t)) as E2%V3.
    { rewrite lookup_app_r by (unfold m; lia). fold m. by replace (m + j - m)%nat with j by lia. }
    lia.
Qed.

(** ** Tamper evidence *)

Lemma flat_encode ts :
  flat_map (λ t, Transfer.from t ++ Transfer.to t ++ u64_le (Transfer.amount t)
                      ++ u64_le (Transfer.nonce t) ++ Transfer.signature t) ts
  = concat (Transfer.encode <$> ts).
Proof. induction ts as [|t ts IH]; [done|]. cbn [flat_map]. by rewrite IH. Qed.

Lemma transfers_inj ts1 ts2 :
  length ts1 = length ts2 → Forall transfer_ok ts1 → Forall transfer_ok ts2 →
  concat (Transfer.encode <$> ts1) = concat (Transfer.encode <$> ts2) → ts1 = ts2.
Proof.
  revert ts2. induction ts1 as [|t ts1 IH]; intros [|u ts2] L; try done.
  intros [Ht H1]%Forall_cons_iff [Hu H2]%Forall_cons_iff E. cbn [fmap list_fmap concat] in E.
  apply app_inj_l in E as [E1 E2]; [|by rewrite !Transfer.length_transfer].
  apply Transfer.transfer_encode_inj in E1 as ->; [|done..].
  f_equal. apply IH; [|done..]. by injection L.
Qed.

Lemma block_preimage_inj k1 k2 :
  block_ok k1 → block_ok k2 →
  block_preimage (Block.height k1) (Block.prev_hash k1) (Block.transfers k1)
  = block_preimage (Block.height k2) (Block.prev_hash k2) (Block.transfers k2) →
  Block.height k1 = Block.height k2 ∧ Block.prev_hash k1 = Block.prev_hash k2 ∧
  Block.transfers k1 = Block.transfers k2.
Proof.
  intros (H1 & P1 & N1 & T1 & _) (H2 & P2 & N2 & T2 & _). unfold block_preimage.
  rewrite !flat_encode. intros E. apply app_inv_head in E.
  apply app_inj_l in E as [Eh E]; [|by rewrite !length_u64_le].
  apply app_inj_l in E as [Ep E]; [|by rewrite P1, P2].
  apply app_inj_l in E as [Ec E]; [|by rewrite !length_u32_le].
  apply (f_equal le_val) in Eh, Ec. rewrite !le_val_u64_le in Eh by done.
  rewrite !le_val_u32_le in Ec. unfold wrap32 in Ec.
  rewrite !N.Div0.mod_mod, !N.mod_small in Ec by done.
  split_and!; [done|done|]. apply transfers_inj; try done. lia.
Qed.

(** Two blocks with different contents and the same hash. *)
Definition collide (k1 k2 : Block) : Prop :=
  let m k := block_preimage (Block.height k) (Block.prev_hash k) (Block.transfers k) in
  m k1 ≠ m k2 ∧ sha256 (m k1) = sha256 (m k2).

Lemma check_blocks_snoc st bs k r :
  check_blocks sha256 0 st zero_hash (bs ++ [k]) = Ok r →
  Block.height k = N.of_nat (length bs) ∧ content_ok sha256 k = true ∧
  Block.prev_hash k = default zero_hash (Block.hash <$> last bs) ∧
  ∃ r', check_blocks sha256 0 st zero_hash bs = Ok r'.
Proof.
  intros E. apply check_blocks_app in E as (st' & p & E1 & E2).
  apply check_blocks_cons in E2 as (Hh & Hp & Hc & _).
  rewrite <- (check_blocks_tip _ _ _ _ _ _ E1). split_and!; [lia|done|done|eauto].
Qed.

Lemma tamper_blocks st1 st2 bs1 bs2 r1 r2 :
  check_blocks sha256 0 st1 zero_hash bs1 = Ok r1 →
  check_blocks sha256 0 st2 zero_hash bs2 = Ok r2 →
  Forall block_ok bs1 → Forall block_ok bs2 → bs1 ≠ [] → bs2 ≠ [] →
  Block.hash <$> last bs1 = Block.hash <$> last bs2 →
  bs1 = bs2 ∨ ∃ k1 k2, k1 ∈ bs1 ∧ k2 ∈ bs2 ∧ collide k1 k2.
Proof.
  revert r1 r2 bs2. induction bs1 as [|k1 bs1 IH] using rev_ind; intros r1 r2 bs2 E1 E2 O1 O2 N1 N2 Hl;
    [done|]. destruct bs2 as [|k2 bs2 _] using rev_ind; [done|].
  rewrite !last_snoc in Hl. cbn in Hl. injection Hl as Hl.
  apply check_blocks_snoc in E1 as (Hh1 & Hc1 & Hp1 & r1' & E1).
  apply check_blocks_snoc in E2 as (Hh2 & Hc2 & Hp2 & r2' & E2).
  apply Forall_app in O1 as [O1 [K1 _]%Forall_cons_iff].
  apply Forall_app in O2 as [O2 [K2 _]%Forall_cons_iff].
  unfold content_ok in Hc1, Hc2. bool_facts.
  destruct (decide (block_preimage (Block.height k1) (Block.prev_hash k1) (Block.transfers k1)
    = block_preimage (Block.height k2) (Block.prev_hash k2) (Block.transfers k2))) as [Em|Em].
  - destruct (block_preimage_inj k1 k2 K1 K2 Em) as (Xh & Xp & Xt).
    assert (k1 = k2) as -> by (clear -Hl Xh Xp Xt; destruct k1, k2; cbn in *; congruence).
    assert (length bs1 = length bs2) as Len by lia.
    destruct (decide (bs1 = [])) as [->|B1].
    { left. symmetry in Len. by apply nil_length_inv in Len as ->. }
    assert (bs2 ≠ []) as B2 by (intros ->; by apply nil_length_inv in Len).
    destruct (IH r1' r2' bs2) as [->|(a & b & Ha & Hb & Hab)]; try done.
    + rewrite Hp1 in Hp2.
      destruct (last bs1) eqn:L1; [|by apply last_None in L1].
      destruct (last bs2) eqn:L2; [|by apply last_None in L2]. cbn in *. by rewrite Hp2.
    + by left.
    + right. exists a, b. rewrite !elem_of_app. auto.
  - right. exists k1, k2. rewrite !elem_of_app. split_and!; [right; by left|right; by left|].
    split; [exact Em|]. unfold block_hash in *. congruence.
Qed.

(** Tamper evidence: two valid ledgers with the same tip hash hold the same blocks,
    whatever their genesis balances, or they exhibit two blocks with different
    contents and equal SHA-256; so the 32-byte tip commits to the whole history. *)
Theorem tip_hash_commits c1 c2 h :
  wf c1 → wf c2 → Forall block_ok (blocks c1) → Forall block_ok (blocks c2) →
  tip_hash c1 = Some h → tip_hash c2 = Some h →
  blocks c1 = blocks c2 ∨
  ∃ k1 k2, k1 ∈ blocks c1 ∧ k2 ∈ blocks c2 ∧ collide k1 k2.
Proof.
  intros [N1 V1 _] [N2 V2 _] O1 O2 H1 H2. apply is_valid_Ok in V1 as [r1 V1], V2 as [r2 V2].
  eapply tamper_blocks; try done. unfold tip_hash in *. congruence.
Qed.

End facts.

(** ** A concrete ledger: account 1 starts with 10 and pays 4 to account 2 *)

#[local] Existing Instance Toy.ed25519.

Definition acct (b : byte) : Account := replicate 32 b.
Definition demo_genesis : gmap bytes N := {[ acct x01 := 10 ]}.
Definition demo_hash (m : bytes) : bytes := take 32 (m ++ zero_hash).
Definition demo_pay : Transfer := Transfer.sign_new (x01 : SigningKey) (acct x02) 4 0.
Definition demo_new : Chain := new demo_hash demo_genesis.
Definition demo : Chain := default demo_new (exec demo_hash demo_new (OpAppend [demo_pay])).

Lemma demo_wf : wf demo_hash demo.
Proof.
  destruct (exec_wf demo_hash demo_new (OpAppend [demo_pay])) as (c & E & W & _);
    [apply wf_new|by vm_compute|]. unfold demo. by rewrite E.
Qed.

Lemma chain_reachable_valid_witness :
  ∃ c, exec_all demo_hash demo_new [OpAppend [demo_pay]; OpAppend [demo_pay]; OpBalance (acct x02)]
       = Some c ∧ is_valid demo_hash c = Ok () ∧ total (compute_state c).1 = 10.
Proof.
  destruct (chain_reachable_valid demo_hash demo_genesis
    [OpAppend [demo_pay]; OpAppend [demo_pay]; OpBalance (acct x02)] eq_refl)
    as (c & E & V & _ & _ & T & _).
  exists c. split; [exact E|]. split; [exact V|]. rewrite T. reflexivity.
Defined.

(** The same transfer again: refused, and the ledger keeps its two blocks. *)
Lemma append_all_or_nothing_witness :
  ∃ r c', append demo_hash demo [demo_pay] = Some (r, c') ∧ is_ok r = false ∧
          blocks c' = blocks demo.
Proof.
  assert ((λ x, is_ok x.1) <$> append demo_hash demo [demo_pay] = Some false) as E1
    by (vm_compute; reflexivity).
  assert (is_ok (validate_all (compute_state demo) [demo_pay]) = false) as E2
    by (vm_compute; reflexivity).
  destruct (append demo_hash demo [demo_pay]) as [[r c']|] eqn:E; [|discriminate E1].
  exists r, c'. split; [reflexivity|].
  destruct (append_all_or_nothing demo_hash demo [demo_pay] r c' demo_wf eq_refl E)
    as [(tip & st & Hr & _ & V & _)|(e & _ & _ & _ & _ & Hr & B & _)].
  - rewrite V in E2. discriminate E2.
  - subst r. split; [reflexivity|exact B].
Defined.

Definition demo_tip : Block :=
  {| Block.height := 0; Block.prev_hash := zero_hash; Block.transfers := [];
     Block.hash := block_hash demo_hash 0 zero_hash [] |}.
Definition demo_block : Block := next_block demo_hash demo_tip [demo_pay].

Lemma accept_block_iff_witness :
  ∃ r c', accept_block demo_hash demo_new demo_block = Some (r, c') ∧ is_ok r = true.
Proof.
  assert ((λ x, is_ok x.1) <$> accept_block demo_hash demo_new demo_block = Some true) as E1
    by (vm_compute; reflexivity).
  destruct (accept_block_iff demo_hash demo_new demo_block (wf_new demo_hash demo_genesis)
    eq_refl) as (r & c' & tip & E & _).
  exists r, c'. rewrite E in E1. injection E1 as E1. split; [exact E|exact E1].
Defined.

Lemma replicate_block_witness :
  ∃ l' k f', append demo_hash demo_new [demo_pay] = Some (Ok (), l') ∧ tip_block l' = Some k ∧
    accept_block demo_hash demo_new k = Some (Ok (), f') ∧ blocks f' = blocks l'.
Proof.
  assert ((λ x, is_ok x.1) <$> append demo_hash demo_new [demo_pay] = Some true) as E1
    by (vm_compute; reflexivity).
  destruct (append demo_hash demo_new [demo_pay]) as [[[[]|e] l']|] eqn:E;
    [|discriminate E1|discriminate E1].
  destruct (replicate_block demo_hash demo_new demo_new [demo_pay] l'
    (wf_new demo_hash demo_genesis) (wf_new demo_hash demo_genesis) eq_refl eq_refl eq_refl E)
    as (k & f' & Hk & Hf & Hb & _).
  exists l', k, f'. split; [reflexivity|]. split; [exact Hk|]. split; [exact Hf|exact Hb].
Defined.

Lemma balance_exact_witness :
  (balance demo (acct x01)).1 = 6 ∧
  (balance demo (acct x01)).1 + sent (acct x01) (ledger demo)
  = amount_at (genesis demo) (acct x01) + received (acct x01) (ledger demo).
Proof.
  split; [vm_compute; reflexivity|]. exact (balance_exact demo_hash demo (acct x01) demo_wf).
Defined.

Lemma transfer_single_use_witness : is_ok (validate_all (compute_state demo) [demo_pay]) = false.
Proof.
  destruct (validate_all (compute_state demo) [demo_pay]) as [st|e] eqn:E; [exfalso|reflexivity].
  apply (proj2 (transfer_single_use demo_hash demo demo_wf eq_refl) demo_pay [demo_pay])
    with (st := st); [left|left|reflexivity|exact E].
Defined.

Lemma tip_hash_commits_witness :
  ∃ h, tip_hash demo = Some h ∧
  (blocks demo = blocks demo ∨
   ∃ k1 k2, k1 ∈ blocks demo ∧ k2 ∈ blocks demo ∧ collide demo_hash k1 k2).
Proof.
  destruct (tip_hash demo) as [h|] eqn:E; [|vm_compute in E; discriminate E].
  exists h. split; [reflexivity|].
  assert (Forall block_ok (blocks demo)) as O.
  { assert (blocks demo = [demo_tip; demo_block]) as -> by (vm_compute; reflexivity).
    repeat constructor. }
  exact (tip_hash_commits demo_hash demo demo h demo_wf demo_wf O O E E).
Defined.

End Chain.
