(* ===== verification/Escrow.v ===== *)
(** * Escrow and settlement operations

    [crates/common/src/settlement.rs], second half: the signed hold, the escrow ledger
    (lock, release on a co-signed receipt, refund after expiry, the refund sweep) and
    the tagged operation a block is meant to carry. *)

From S2P Require Import Prelude RustStd Maps Interfaces Codec Market Settlement.
Import Codec.Preimage.
Import Market.UsageReceipt (UsageReceipt).
Import Settlement.Transfer (Transfer).

Module Hold.

(** src/crates/common/src/settlement.rs:446-459 [Hold] *)
Record Hold := {
  from : Account;
  to : Account;
  amount : Amount;
  match_ref : bytes;
  nonce : N;
  expires_at : N;
  signature : bytes;
}.

(** src/crates/common/src/settlement.rs:464-481 [Hold::signing_bytes] *)
Definition signing_bytes (from to : Account) (amount : Amount) (match_ref : bytes)
    (nonce expires_at : N) : bytes :=
  finish (u64 (u64 (fixed (u64 (fixed (fixed (new (lit "ct-settlement-hold-v1")) from) to)
    amount) match_ref) nonce) expires_at).

Section with_ed25519.
Context `{Ed25519}.

(** src/crates/common/src/settlement.rs:485-498 [Hold::sign_new] *)
Definition sign_new (from_key : SigningKey) (to : Account) (amount : Amount) (match_ref : bytes)
    (nonce expires_at : N) : Hold :=
  let from := verifying_key from_key in
  let signature := sign from_key (signing_bytes from to amount match_ref nonce expires_at) in
  {| from := from; to := to; amount := amount; match_ref := match_ref; nonce := nonce;
     expires_at := expires_at; signature := signature |}.

(** src/crates/common/src/settlement.rs:501-518 [Hold::verify] *)
Definition verify (h : Hold) : bool :=
  sig_verify (from h)
    (signing_bytes (from h) (to h) (amount h) (match_ref h) (nonce h) (expires_at h))
    (signature h).

End with_ed25519.

(** src/crates/common/src/settlement.rs:522-522 [Hold::WIRE_LEN] *)
Definition WIRE_LEN : nat := 184.

(** src/crates/common/src/settlement.rs:529-539 [Hold::encode] *)
Definition encode (h : Hold) : bytes :=
  from h ++ to h ++ u64_le (amount h) ++ match_ref h ++ u64_le (nonce h)
    ++ u64_le (expires_at h) ++ signature h.

(** src/crates/common/src/settlement.rs:544-557 [Hold::decode] *)
Definition decode (b : bytes) : option Hold :=
  if negb (length b =? WIRE_LEN)%nat then None
  else Some {| from := slice 0 32 b; to := slice 32 64 b; amount := le_val (slice 64 72 b);
               match_ref := slice 72 104 b; nonce := le_val (slice 104 112 b);
               expires_at := le_val (slice 112 120 b); signature := slice 120 184 b |}.

(** The widths of the Rust types. *)
Definition hold_ok (h : Hold) : Prop :=
  length (from h) = 32%nat ∧ length (to h) = 32%nat ∧ u64_ok (amount h) ∧
  length (match_ref h) = 32%nat ∧ u64_ok (nonce h) ∧ u64_ok (expires_at h) ∧
  length (signature h) = 64%nat.

#[global] Instance hold_codec : WireCodec Hold :=
  {| wire_ok := hold_ok; wire_encode := encode; wire_decode := decode |}.

#[global] Instance hold_codec_laws : WireCodecLaws Hold.
Proof.
  intros b h. cbn. unfold decode. split.
  - destruct (length b =? WIRE_LEN)%nat eqn:L; [|done]. bool_facts. unfold WIRE_LEN in L.
    intros [= <-]. unfold hold_ok, encode.
    cbn [from to amount match_ref nonce expires_at signature].
    assert (∀ i j, (i ≤ j)%nat → (j ≤ 184)%nat → length (slice i j b) = (j - i)%nat) as Hl
      by (intros; apply length_slice; lia).
    split.
    + rewrite !Hl by lia. split_and!; try done; apply le_val_u64_ok; by rewrite Hl by lia.
    + rewrite !u64_le_le_val by (by rewrite Hl by lia). rewrite !slice_glue by lia.
      symmetry. by apply slice_all.
  - intros [(H1 & H2 & H3 & H4 & H5 & H6 & H7) ->].
    destruct h as [a b v m n e s]; unfold encode, WIRE_LEN; cbn in *.
    rewrite (proj2 (Nat.eqb_eq _ _)) by (rewrite !length_app, !length_u64_le; lia). cbn [negb].
    f_equal.
    read_slice 0%nat 32%nat (@nil bytes) a. read_slice 32%nat 64%nat [a] b.
    read_slice 64%nat 72%nat [a; b] (u64_le v). read_slice 72%nat 104%nat [a; b; u64_le v] m.
    read_slice 104%nat 112%nat [a; b; u64_le v; m] (u64_le n).
    read_slice 112%nat 120%nat [a; b; u64_le v; m; u64_le n] (u64_le e).
    read_slice 120%nat 184%nat [a; b; u64_le v; m; u64_le n; u64_le e] s.
    by rewrite !le_val_u64_le.
Qed.

End Hold.
Import Hold (Hold, hold_ok).

Module Escrow.

(** src/crates/common/src/settlement.rs:562-582 [EscrowError] *)
Inductive EscrowError :=
| BadSignature
| Overdraft (from : Account) (balance amount : Amount)
| BadNonce (from : Account) (expected got : N)
| DuplicateHold (match_ref : bytes)
| UnknownHold (match_ref : bytes)
| ReceiptMismatch
| NotYetExpired (expires_at now : N)
| BalanceOverflow (account : Account) (balance amount : Amount).

(** src/crates/common/src/settlement.rs:613-618 [HeldRecord] *)
Record HeldRecord := { from : Account; to : Account; amount : Amount; expires_at : N }.

(** src/crates/common/src/settlement.rs:628-632 [Escrow] *)
Record Escrow := {
  balances : gmap bytes N;
  nonces : gmap bytes N;
  held : gmap bytes HeldRecord;
}.

(** src/crates/common/src/settlement.rs:636-638 [Escrow::new] *)
Definition new (genesis : gmap bytes N) : Escrow :=
  {| balances := genesis; nonces := ∅; held := ∅ |}.

(** src/crates/common/src/settlement.rs:641-643 [Escrow::balance] *)
Definition balance (e : Escrow) (account : Account) : Amount := amount_at (balances e) account.

(** src/crates/common/src/settlement.rs:646-648 [Escrow::held_amount] *)
Definition held_amount (e : Escrow) (match_ref : bytes) : Amount :=
  default 0 (amount <$> held e !! match_ref).

(** src/crates/common/src/settlement.rs:738-744 [Escrow::expired_holds] *)
Definition expired_holds (e : Escrow) (now : N) : list bytes :=
  fst <$> filter (λ p, expires_at p.2 <= now) (btree_iter (held e)).

(** src/crates/common/src/settlement.rs:715-732 [Escrow::refund] *)
Definition refund (e : Escrow) (match_ref : bytes) (now : N) : Result () EscrowError * Escrow :=
  match held e !! match_ref with
  | None => (Err (UnknownHold match_ref), e)
  | Some rec =>
    if now <? expires_at rec then (Err (NotYetExpired (expires_at rec) now), e)
    else
      match checked_add64 (balance e (from rec)) (amount rec) with
      | None => (Err (BalanceOverflow (from rec) (balance e (from rec)) (amount rec)), e)
      | Some credited =>
        (Ok (), {| balances := <[from rec := credited]> (balances e); nonces := nonces e;
                   held := delete match_ref (held e) |})
      end
  end.

(** src/crates/common/src/settlement.rs:754-759 [Escrow::refund_expired]: the filter over
    the discovered holds, which refunds as it goes. *)
Fixpoint refund_each (e : Escrow) (refs : list bytes) (now : N) : list bytes * Escrow :=
  match refs with
  | [] => ([], e)
  | m :: refs' =>
    let '(r, e1) := refund e m now in
    let '(done, e2) := refund_each e1 refs' now in
    (if is_ok r then m :: done else done, e2)
  end.

(** src/crates/common/src/settlement.rs:754-759 [Escrow::refund_expired] *)
Definition refund_expired (e : Escrow) (now : N) : list bytes * Escrow :=
  refund_each e (expired_holds e now) now.

Section with_ed25519.
Context `{Ed25519}.

(** src/crates/common/src/settlement.rs:653-675 [Escrow::lock] *)
Definition lock (e : Escrow) (hold : Hold) : Result () EscrowError * Escrow :=
  if negb (Hold.verify hold) then (Err BadSignature, e)
  else
    let expected := amount_at (nonces e) (Hold.from hold) in
    if negb (Hold.nonce hold =? expected)
    then (Err (BadNonce (Hold.from hold) expected (Hold.nonce hold)), e)
    else if bool_decide (is_Some (held e !! Hold.match_ref hold))
    then (Err (DuplicateHold (Hold.match_ref hold)), e)
    else
      let balance := balance e (Hold.from hold) in
      if balance <? Hold.amount hold
      then (Err (Overdraft (Hold.from hold) balance (Hold.amount hold)), e)
      else
        (Ok (), {| balances := <[Hold.from hold := balance - Hold.amount hold]> (balances e);
                   nonces := <[Hold.from hold := wrap64 (expected + 1)]> (nonces e);
                   held := <[Hold.match_ref hold :=
                     {| from := Hold.from hold; to := Hold.to hold; amount := Hold.amount hold;
                        expires_at := Hold.expires_at hold |}]> (held e) |}).

(** src/crates/common/src/settlement.rs:692-709 [Escrow::release] *)
Definition release (e : Escrow) (receipt : UsageReceipt) : Result () EscrowError * Escrow :=
  match held e !! UsageReceipt.match_ref receipt with
  | None => (Err (UnknownHold (UsageReceipt.match_ref receipt)), e)
  | Some rec =>
    if negb (UsageReceipt.is_valid receipt)
       || negb (bool_decide (UsageReceipt.provider receipt = to rec))
       || negb (bool_decide (UsageReceipt.consumer receipt = from rec))
    then (Err ReceiptMismatch, e)
    else
      match checked_add64 (balance e (to rec)) (amount rec) with
      | None => (Err (BalanceOverflow (to rec) (balance e (to rec)) (amount rec)), e)
      | Some credited =>
        (Ok (), {| balances := <[to rec := credited]> (balances e); nonces := nonces e;
                   held := delete (UsageReceipt.match_ref receipt) (held e) |})
      end
  end.

(** A client of the escrow. *)
Inductive Op :=
| OpLock (h : Hold) | OpRelease (r : UsageReceipt) | OpRefund (m : bytes) (now : N)
| OpSweep (now : N).

Definition exec (e : Escrow) (o : Op) : Escrow :=
  match o with
  | OpLock h => (lock e h).2
  | OpRelease r => (release e r).2
  | OpRefund m now => (refund e m now).2
  | OpSweep now => (refund_expired e now).2
  end.

(** Locks of the match [m] the operation makes, and payouts of it (to either side). *)
Definition locks (e : Escrow) (o : Op) (m : bytes) : nat :=
  match o with
  | OpLock h => if is_ok (lock e h).1 && bool_decide (Hold.match_ref h = m) then 1 else 0
  | _ => 0
  end%nat.
Definition payouts (e : Escrow) (o : Op) (m : bytes) : nat :=
  match o with
  | OpLock _ => 0
  | OpRelease r =>
    if is_ok (release e r).1 && bool_decide (UsageReceipt.match_ref r = m) then 1 else 0
  | OpRefund m' now => if is_ok (refund e m' now).1 && bool_decide (m' = m) then 1 else 0
  | OpSweep now => length (filter (λ m', m' = m) (refund_expired e now).1)
  end%nat.

(** A run, with the locks and payouts of [m] counted. *)
Fixpoint run (e : Escrow) (os : list Op) (m : bytes) : nat * nat * Escrow :=
  match os with
  | [] => (0, 0, e)%nat
  | o :: os' =>
    let '(l, p, e') := run (exec e o) os' m in
    (locks e o m + l, payouts e o m + p, e')%nat
  end.

End with_ed25519.

(** ** Value *)

(** What the escrow holds in total: spendable balances and locked amounts. *)
Definition supply (e : Escrow) : N := total (balances e) + total (amount <$> held e).

Lemma amount_held e m rec : held e !! m = Some rec → amount_at (amount <$> held e) m = amount rec.
Proof. intros E. unfold amount_at. by rewrite lookup_fmap, E. Qed.

(** Paying the hold [m] out to an account conserves the supply. *)
Lemma payout_supply e m rec acct :
  held e !! m = Some rec →
  total (<[acct := balance e acct + amount rec]> (balances e))
    + total (amount <$> delete m (held e)) = supply e.
Proof.
  intros E. unfold supply, balance. rewrite fmap_delete.
  pose proof (total_delete (amount <$> held e) m) as D. rewrite (amount_held _ _ _ E) in D.
  pose proof (total_insert (balances e) acct (amount_at (balances e) acct + amount rec)). lia.
Qed.

(** A hold fits beside any balance when the supply fits in 64 bits. *)
Lemma payout_fits e m rec acct :
  supply e < U64 → held e !! m = Some rec →
  checked_add64 (balance e acct) (amount rec) = Some (balance e acct + amount rec).
Proof.
  intros Hs E. unfold checked_add64. rewrite (proj2 (N.ltb_lt _ _)); [done|].
  unfold supply, balance in *. pose proof (amount_le_total (balances e) acct).
  pose proof (amount_le_total (amount <$> held e) m) as Ha. rewrite (amount_held _ _ _ E) in Ha. lia.
Qed.

Lemma checked_add64_Some a b c : checked_add64 a b = Some c → c = a + b.
Proof. unfold checked_add64. destruct (_ <? _); [|done]. by intros [= <-]. Qed.

(** [refund], case by case. *)
Lemma refund_cases e m now :
  (∃ err, refund e m now = (Err err, e)) ∨
  (∃ rec, held e !! m = Some rec ∧ expires_at rec <= now ∧
     refund e m now =
       (Ok (), {| balances := <[from rec := balance e (from rec) + amount rec]> (balances e);
                  nonces := nonces e; held := delete m (held e) |})).
Proof.
  unfold refund. destruct (held e !! m) as [rec|]; [|left; eauto].
  destruct (now <? expires_at rec) eqn:X; [left; eauto|]. bool_facts.
  destruct (checked_add64 _ _) eqn:A; [|left; eauto]. apply checked_add64_Some in A as ->.
  right. eauto.
Qed.

Lemma refund_Ok e m now rec :
  supply e < U64 → held e !! m = Some rec → expires_at rec <= now →
  refund e m now =
    (Ok (), {| balances := <[from rec := balance e (from rec) + amount rec]> (balances e);
               nonces := nonces e; held := delete m (held e) |}).
Proof.
  intros Hs E X. unfold refund. rewrite E, (proj2 (N.ltb_ge _ _)) by done.
  by rewrite (payout_fits _ _ _ _ Hs E).
Qed.

(** ** The refund sweep *)

Lemma elem_of_expired e now m :
  m ∈ expired_holds e now ↔ ∃ rec, held e !! m = Some rec ∧ expires_at rec <= now.
Proof.
  unfold expired_holds. rewrite list_elem_of_fmap. split.
  - intros ([m' rec] & -> & [Hx Hm]%list_elem_of_filter). apply elem_of_btree_iter in Hm. eauto.
  - intros (rec & E & X). exists (m, rec). split; [done|]. apply list_elem_of_filter.
    split; [done|]. by apply elem_of_btree_iter.
Qed.

Lemma NoDup_filter_keys {A} (P : bytes * A → Prop) `{∀ p, Decision (P p)} l :
  NoDup l.*1 → NoDup (filter P l).*1.
Proof.
  induction l as [|[k v] l IH]; [done|]. cbn [fmap list_fmap fst].
  intros [Hk Hl]%list.NoDup_cons. rewrite filter_cons. case_decide; [|auto].
  cbn. apply list.NoDup_cons. split; [|auto]. intros Hin. apply Hk.
  apply list_elem_of_fmap in Hin as (p & -> & [_ Hp]%list_elem_of_filter).
  apply list_elem_of_fmap. by exists p.
Qed.

Lemma NoDup_expired e now : NoDup (expired_holds e now).
Proof. apply NoDup_filter_keys, NoDup_btree_keys. Qed.

(** What the listed holds owe an account. *)
Definition owed (e : Escrow) (a : Account) (refs : list bytes) : N :=
  foldr (λ m acc, match held e !! m with
                  | Some rec => if bool_decide (from rec = a) then amount rec else 0
                  | None => 0
                  end + acc) 0 refs.

Lemma owed_ext e1 e2 a refs :
  (∀ m, m ∈ refs → held e1 !! m = held e2 !! m) → owed e1 a refs = owed e2 a refs.
Proof.
  induction refs as [|m refs IH]; intros H; [done|]. cbn [owed foldr].
  rewrite (H m) by (by left). fold (owed e1 a refs) (owed e2 a refs).
  rewrite IH; [done|]. intros m' Hm'. apply H. by right.
Qed.

(** Refunding distinct expired holds: all succeed, exactly they go, and every account
    gets exactly what they owed it. *)
Lemma refund_each_spec e refs now :
  supply e < U64 → NoDup refs →
  (∀ m, m ∈ refs → ∃ rec, held e !! m = Some rec ∧ expires_at rec <= now) →
  ∃ e', refund_each e refs now = (refs, e') ∧ supply e' = supply e ∧
    (∀ m, held e' !! m = if bool_decide (m ∈ refs) then None else held e !! m) ∧
    (∀ a, balance e' a = balance e a + owed e a refs) ∧ nonces e' = nonces e.
Proof.
  intros Hs Hnd Hx. revert e Hs Hx. induction refs as [|m refs IH]; intros e Hs Hx.
  - exists e. split_and!; try done. intros a. cbn. lia.
  - apply list.NoDup_cons in Hnd as [Hm Hnd].
    destruct (Hx m) as (rec & E & X); [by left|]. cbn [refund_each].
    rewrite (refund_Ok e m now rec Hs E X). set (e1 := Build_Escrow _ _ _).
    assert (supply e1 = supply e) as S1 by (by apply payout_supply).
    assert (∀ m', m' ∈ refs → held e1 !! m' = held e !! m') as H1.
    { intros m' Hm'. cbn. apply lookup_delete_ne. by intros ->. }
    destruct (IH Hnd e1) as (e' & -> & S' & H' & B' & N').
    { by rewrite S1. }
    { intros m' Hm'. rewrite H1 by done. apply Hx. by right. }
    exists e'. split_and!; [done|by rewrite S'| | |by rewrite N'].
    + intros m'. rewrite H'. destruct (decide (m' ∈ refs)) as [Hin|Hin].
      * rewrite !bool_decide_eq_true_2; [done|by right|done].
      * rewrite bool_decide_eq_false_2 by done. cbn [e1 held].
        destruct (decide (m' = m)) as [->|Hne].
        -- rewrite bool_decide_eq_true_2 by (by left). apply lookup_delete_eq.
        -- rewrite bool_decide_eq_false_2 by (by intros [?|?]%elem_of_cons).
           by apply lookup_delete_ne.
    + intros a. rewrite B', (owed_ext e1 e a refs H1). cbn [owed foldr]. rewrite E.
      fold (owed e a refs). unfold balance. cbn [e1 balances]. case_bool_decide as D.
      * subst. rewrite amount_at_insert. unfold balance. lia.
      * rewrite amount_at_insert_ne by done. lia.
Qed.

(** The refund sweep is complete, exact and idempotent: with a supply that fits in 64
    bits it refunds every expired hold and only those (the ones it lists), leaves every
    live hold and every nonce as it was, credits each account exactly what its expired
    holds locked, and a second sweep at the same time refunds nothing. *)
Theorem refund_sweep_complete e now :
  supply e < U64 →
  ∃ e', refund_expired e now = (expired_holds e now, e') ∧
    (∀ m rec, held e' !! m = Some rec ↔ held e !! m = Some rec ∧ now < expires_at rec) ∧
    (∀ a, balance e' a = balance e a + owed e a (expired_holds e now)) ∧
    nonces e' = nonces e ∧ supply e' = supply e ∧
    refund_expired e' now = ([], e').
Proof.
  intros Hs. destruct (refund_each_spec e (expired_holds e now) now Hs (NoDup_expired e now))
    as (e' & E & S & H & B & Nn); [intros m; apply elem_of_expired|].
  assert (∀ m rec, held e' !! m = Some rec ↔ held e !! m = Some rec ∧ now < expires_at rec) as Hh.
  { intros m rec. rewrite H. case_bool_decide as D.
    - split; [done|]. apply elem_of_expired in D as (rec' & Er & Hx). intros [Er' ?].
      rewrite Er in Er'. simplify_eq. lia.
    - split; [|by intros [? _]]. intros Er. split; [done|]. apply N.nle_gt. intros Hx. apply D.
      apply elem_of_expired. eauto. }
  exists e'. split_and!; try done.
  unfold refund_expired. destruct (expired_holds e' now) as [|m ms] eqn:X; [done|].
  assert (m ∈ expired_holds e' now) as Hm by (rewrite X; by left).
  apply elem_of_expired in Hm as (rec & [_ Hl]%Hh & Hx). lia.
Qed.

(** ** Locks and releases *)

Section facts.
Context `{Ed25519}.

Lemma lock_cases e h :
  (∃ err, lock e h = (Err err, e)) ∨
  (Hold.verify h = true ∧ Hold.nonce h = amount_at (nonces e) (Hold.from h) ∧
   held e !! Hold.match_ref h = None ∧ Hold.amount h <= balance e (Hold.from h) ∧
   lock e h = (Ok (),
     {| balances := <[Hold.from h := balance e (Hold.from h) - Hold.amount h]> (balances e);
        nonces := <[Hold.from h := wrap64 (amount_at (nonces e) (Hold.from h) + 1)]> (nonces e);
        held := <[Hold.match_ref h :=
          {| from := Hold.from h; to := Hold.to h; amount := Hold.amount h;
             expires_at := Hold.expires_at h |}]> (held e) |})).
Proof.
  unfold lock. destruct (Hold.verify h); [|left; eauto]. cbn [negb].
  destruct (_ =? _) eqn:E1; [|left; eauto]. cbn [negb].
  case_bool_decide as E2; [left; eauto|]. destruct (_ <? _) eqn:E3; [left; eauto|].
  bool_facts. apply eq_None_not_Some in E2. right. auto.
Qed.

Lemma release_cases e r :
  (∃ err, release e r = (Err err, e)) ∨
  (∃ rec, held e !! UsageReceipt.match_ref r = Some rec ∧ UsageReceipt.is_valid r = true ∧
     UsageReceipt.provider r = to rec ∧ UsageReceipt.consumer r = from rec ∧
     release e r =
       (Ok (), {| balances := <[to rec := balance e (to rec) + amount rec]> (balances e);
                  nonces := nonces e; held := delete (UsageReceipt.match_ref r) (held e) |})).
Proof.
  unfold release. destruct (held e !! _) as [rec|]; [|left; eauto].
  destruct (negb _ || _ || _) eqn:X; [left; eauto|]. bool_facts.
  destruct (checked_add64 _ _) eqn:A; [|left; eauto]. apply checked_add64_Some in A as ->.
  right. eauto 10.
Qed.

Lemma lock_supply e h : supply (lock e h).2 = supply e.
Proof.
  destruct (lock_cases e h) as [[err ->]|(_ & _ & E & Hb & ->)]; [done|].
  unfold supply. cbn [snd balances held]. rewrite fmap_insert. cbn [amount].
  rewrite (total_insert_new (amount <$> held e)) by (by rewrite lookup_fmap, E).
  pose proof (total_insert (balances e) (Hold.from h) (balance e (Hold.from h) - Hold.amount h)).
  unfold balance in *. lia.
Qed.

Lemma refund_supply e m now : supply (refund e m now).2 = supply e.
Proof.
  destruct (refund_cases e m now) as [[err ->]|(rec & E & _ & ->)]; [done|].
  by apply payout_supply.
Qed.

Lemma release_supply e r : supply (release e r).2 = supply e.
Proof.
  destruct (release_cases e r) as [[err ->]|(rec & E & _ & _ & _ & ->)]; [done|].
  by apply payout_supply.
Qed.

Lemma refund_each_supply e refs now : supply (refund_each e refs now).2 = supply e.
Proof.
  revert e. induction refs as [|m refs IH]; intros e; [done|]. cbn [refund_each].
  pose proof (refund_supply e m now) as S. destruct (refund e m now) as [r e1].
  specialize (IH e1). destruct (refund_each e1 refs now). cbn in *. congruence.
Qed.

Lemma exec_supply e o : supply (exec e o) = supply e.
Proof.
  destruct o; [apply lock_supply|apply release_supply|apply refund_supply|apply refund_each_supply].
Qed.

(** C5 The escrow conserves value: over any sequence of locks, releases, refunds and
    sweeps, successful or not, spendable balances plus locked amounts stay equal to the
    genesis supply, and an operation that fails changes nothing at all. *)
Theorem escrow_conserves g os :
  (supply (foldl exec (new g) os) = total g) ∧
  ∀ e, (∀ h, (lock e h).1 ≠ Ok () → (lock e h).2 = e) ∧
       (∀ r, (release e r).1 ≠ Ok () → (release e r).2 = e) ∧
       (∀ m now, (refund e m now).1 ≠ Ok () → (refund e m now).2 = e).
Proof.
  split.
  - assert (∀ e, supply (foldl exec e os) = supply e) as ->.
    { induction os as [|o os IH]; intros e; [done|]. cbn. by rewrite IH, exec_supply. }
    unfold supply. cbn. rewrite fmap_empty. unfold total. rewrite map_fold_empty. lia.
  - intros e. split_and!.
    + intros h. by destruct (lock_cases e h) as [[err ->]|(_ & _ & _ & _ & ->)].
    + intros r. by destruct (release_cases e r) as [[err ->]|(? & _ & _ & _ & _ & ->)].
    + intros m now. by destruct (refund_cases e m now) as [[err ->]|(? & _ & _ & ->)].
Qed.

(** Releasing needs mutual consent and pays in full: with a supply that fits in 64
    bits, a release succeeds exactly when the match is held and the receipt carries
    valid signatures of both the held provider and the held consumer; the provider is
    then credited the whole held amount, nobody else's balance moves and the hold is
    gone. *)
Theorem release_iff e r :
  supply e < U64 →
  ((release e r).1 = Ok () ↔
   ∃ rec, held e !! UsageReceipt.match_ref r = Some rec ∧ UsageReceipt.is_valid r = true ∧
          UsageReceipt.provider r = to rec ∧ UsageReceipt.consumer r = from rec) ∧
  ((release e r).1 = Ok () →
   (∀ a, balance (release e r).2 a
         = balance e a + (if bool_decide (a = UsageReceipt.provider r)
                          then held_amount e (UsageReceipt.match_ref r) else 0)) ∧
   held (release e r).2 = delete (UsageReceipt.match_ref r) (held e)).
Proof.
  intros Hs. split; [split|].
  - destruct (release_cases e r) as [[err ->]|(rec & ? & ? & ? & ? & ->)]; [done|eauto 10].
  - intros (rec & E & V & P & C). unfold release. rewrite E, V, P, C.
    rewrite !bool_decide_eq_true_2 by done. cbn [negb orb].
    by rewrite (payout_fits _ _ _ _ Hs E).
  - destruct (release_cases e r) as [[err ->]|(rec & E & _ & P & _ & ->)]; [done|].
    intros _. cbn [snd held balances]. split; [|done]. intros a. unfold held_amount, balance.
    rewrite E, P. cbn. case_bool_decide as D.
    + subst. by rewrite amount_at_insert.
    + rewrite amount_at_insert_ne by done. lia.
Qed.

(** ** Every lock is paid out at most once *)

(** 1 while the match is held, 0 otherwise. *)
Definition holding (e : Escrow) (m : bytes) : nat := if held e !! m is Some _ then 1%nat else 0%nat.

Lemma refund_holding e m' now m :
  (holding (refund e m' now).2 m
   + (if is_ok (refund e m' now).1 && bool_decide (m' = m) then 1 else 0)
   = holding e m)%nat.
Proof.
  unfold holding. destruct (refund_cases e m' now) as [[err ->]|(rec & E & _ & ->)];
    cbn [fst snd is_ok andb held]; [lia|]. case_bool_decide as D.
  - subst. by rewrite lookup_delete_eq, E.
  - rewrite lookup_delete_ne by done. lia.
Qed.

Lemma refund_each_holding e refs now m :
  (holding (refund_each e refs now).2 m
   + length (filter (λ m', m' = m) (refund_each e refs now).1) = holding e m)%nat.
Proof.
  revert e. induction refs as [|m' refs IH]; intros e; cbn [refund_each]; [cbn; lia|].
  pose proof (refund_holding e m' now m) as R. destruct (refund e m' now) as [r e1].
  specialize (IH e1). destruct (refund_each e1 refs now) as [dn e2]. cbn [fst snd] in *.
  destruct (is_ok r); cbn [andb] in R; [|lia]. rewrite filter_cons.
  case_bool_decide; [rewrite decide_True by done; cbn [length]|rewrite decide_False by done]; lia.
Qed.

Lemma exec_holding e o m :
  (payouts e o m + holding (exec e o) m = locks e o m + holding e m)%nat.
Proof.
  destruct o as [h|r|m' now|now]; cbn [payouts locks exec].
  - unfold holding. destruct (lock_cases e h) as [[err ->]|(_ & _ & E & _ & ->)];
      cbn [fst snd is_ok andb held]; [lia|]. case_bool_decide as D.
    + subst. by rewrite lookup_insert_eq, E.
    + by rewrite lookup_insert_ne.
  - unfold holding. destruct (release_cases e r) as [[err ->]|(rec & E & _ & _ & _ & ->)];
      cbn [fst snd is_ok andb held]; [lia|]. case_bool_decide as D.
    + subst. by rewrite lookup_delete_eq, E.
    + rewrite lookup_delete_ne by done. lia.
  - pose proof (refund_holding e m' now m). lia.
  - pose proof (refund_each_holding e (expired_holds e now) now m).
    unfold refund_expired. lia.
Qed.

(** C4 No double payment: over any history of an escrow, the payouts of a match (releases,
    refunds and sweeps together) plus the hold still open, if any, are exactly its
    successful locks; a replayed receipt or refund can never pay a lock twice. *)
Theorem escrow_pays_once g os m :
  let '(l, p, e) := run (new g) os m in (p + holding e m = l)%nat.
Proof.
  assert (∀ e0, let '(l, p, e) := run e0 os m in (p + holding e m = l + holding e0 m)%nat) as H0.
  { induction os as [|o os IH]; intros e0; cbn [run]; [lia|]. specialize (IH (exec e0 o)).
    pose proof (exec_holding e0 o m). destruct (run (exec e0 o) os m) as [[l p] e]. lia. }
  specialize (H0 (new g)). destruct (run (new g) os m) as [[l p] e].
  unfold holding at 2 in H0. cbn in H0. rewrite lookup_empty in H0. lia.
Qed.

End facts.

(** ** A concrete escrow: account 1 locks 7 of its 10 for account 2 *)

#[local] Existing Instance Toy.ed25519.

Definition demo_ref : bytes := replicate 32 x09.
Definition demo_hold : Hold := Hold.sign_new (x01 : SigningKey) (Chain.acct x02) 7 demo_ref 0 50.
Definition demo_receipt : UsageReceipt :=
  UsageReceipt.co_sign (x02 : SigningKey) (x01 : SigningKey) CapacityKind.LocalHardware (lit "m")
    3 demo_ref 20.
Definition demo : Escrow := (lock (new {[ Chain.acct x01 := 10 ]}) demo_hold).2.

Lemma release_iff_witness :
  (release demo demo_receipt).1 = Ok () ∧ held (release demo demo_receipt).2 = ∅.
Proof.
  assert ((release demo demo_receipt).1 = Ok ()) as E by (vm_compute; reflexivity).
  split; [exact E|].
  rewrite (proj2 (proj2 (release_iff demo demo_receipt eq_refl) E)). vm_compute. reflexivity.
Defined.

Lemma refund_sweep_complete_witness :
  ∃ e', refund_expired demo 50 = ([demo_ref], e') ∧ refund_expired e' 50 = ([], e').
Proof.
  destruct (refund_sweep_complete demo 50 eq_refl) as (e' & E & _ & _ & _ & _ & E2).
  exists e'. split; [|exact E2]. rewrite E. f_equal; vm_compute; reflexivity.
Defined.

Lemma escrow_conserves_witness :
  supply (foldl exec (new {[ Chain.acct x01 := 10 ]}) [OpLock demo_hold; OpRelease demo_receipt])
  = total {[ Chain.acct x01 := 10 ]} ∧ (release (new ∅) demo_receipt).2 = new ∅.
Proof.
  destruct (escrow_conserves {[ Chain.acct x01 := 10 ]}
    [OpLock demo_hold; OpRelease demo_receipt]) as [S F].
  split; [exact S|]. apply (F (new ∅)). vm_compute. discriminate.
Defined.

(** A paid match can be locked again (the next nonce), and the receipt of the first lock
    then releases the second: only [match_ref]s that are never reused are paid once. *)
Lemma relock_replays_receipt :
  let relock := Hold.sign_new (x01 : SigningKey) (Chain.acct x02) 2 demo_ref 1 90 in
  let paid := (release demo demo_receipt).2 in
  (lock paid relock).1 = Ok () ∧ (release (lock paid relock).2 demo_receipt).1 = Ok ().
Proof. split; vm_compute; reflexivity. Qed.

End Escrow.

Module SettlementOp.

(** src/crates/common/src/settlement.rs:938-943 [SettlementOp] *)
Inductive SettlementOp :=
| Transfer (t : Transfer)
| Hold (h : Hold)
| Release (r : UsageReceipt)
| Refund (match_ref : bytes).

(** src/crates/common/src/settlement.rs:946-953 [SettlementOp::tag] *)
Definition tag (o : SettlementOp) : byte :=
  match o with Transfer _ => x00 | Hold _ => x01 | Release _ => x02 | Refund _ => x03 end.

(** src/crates/common/src/settlement.rs:958-967 [SettlementOp::encode] *)
Definition encode (o : SettlementOp) : bytes :=
  [tag o] ++
  match o with
  | Transfer t => wire_encode t
  | Hold h => wire_encode h
  | Release r => wire_encode r
  | Refund match_ref => match_ref
  end.

(** src/crates/common/src/settlement.rs:973-982 [SettlementOp::decode] *)
Definition decode (b : bytes) : option SettlementOp :=
  match b with
  | [] => None
  | tag :: payload =>
    match tag with
    | x00 => Transfer <$> wire_decode payload
    | x01 => Hold <$> wire_decode payload
    | x02 => Release <$> wire_decode payload
    | x03 => if (length payload =? 32)%nat then Some (Refund payload) else None
    | _ => None
    end
  end.

(** The widths of the Rust types of the payload. *)
Definition op_ok (o : SettlementOp) : Prop :=
  match o with
  | Transfer t => wire_ok t
  | Hold h => wire_ok h
  | Release r => wire_ok r
  | Refund match_ref => length match_ref = 32%nat
  end.

Lemma fmap_decode_iff {A B} `{WireCodecLaws A} (f : A → B) payload o :
  f <$> wire_decode payload = Some o ↔ ∃ a, o = f a ∧ wire_ok a ∧ payload = wire_encode a.
Proof. rewrite fmap_Some. setoid_rewrite wire_decode_iff. naive_solver. Qed.

(** The tagged operation of a block is unambiguous on the wire: [decode] accepts
    exactly the encodings of well-formed transfers, holds, releases and refunds, each
    as the operation it encodes; an unknown tag, a payload of another kind's shape or
    trailing bytes are refused. *)
Theorem op_decode_iff b o : decode b = Some o ↔ op_ok o ∧ b = encode o.
Proof.
  split.
  - unfold decode. destruct b as [|t payload]; [done|].
    destruct t; try done; rewrite ?fmap_decode_iff; try (by intros (a & -> & Ha & ->)).
    destruct (_ =? _)%nat eqn:L; [|done]. bool_facts. by intros [= <-].
  - intros [Ho ->]. unfold encode. cbn [app decode].
    destruct o as [t|h|r|m]; cbn [tag op_ok] in *; try (apply fmap_decode_iff; eauto).
    by rewrite (proj2 (Nat.eqb_eq _ _)).
Qed.

End SettlementOp.
