(* ===== verification/Election.v ===== *)
(** * Leader election and leader-authorised blocks

    [crates/common/src/settlement.rs], the election of the writer that may extend the
    chain in a term, and the attestation followers check before they accept its block. *)

From S2P Require Import Prelude RustStd Maps Interfaces Codec Settlement.
Import Codec.Preimage.

Module Vote.

(** src/crates/common/src/settlement.rs:771-778 [Vote] *)
Record Vote := { term : N; candidate : Account; voter : Account; signature : bytes }.

(** src/crates/common/src/settlement.rs:783-790 [Vote::signing_bytes] *)
Definition signing_bytes (term : N) (candidate voter : Account) : bytes :=
  finish (fixed (fixed (u64 (new (lit "ct-settlement-vote-v1")) term) candidate) voter).

Section with_ed25519.
Context `{Ed25519}.

(** src/crates/common/src/settlement.rs:794-798 [Vote::sign_new] *)
Definition sign_new (voter_key : SigningKey) (term : N) (candidate : Account) : Vote :=
  let voter := verifying_key voter_key in
  let signature := sign voter_key (signing_bytes term candidate voter) in
  {| term := term; candidate := candidate; voter := voter; signature := signature |}.

(** src/crates/common/src/settlement.rs:801-811 [Vote::verify] *)
Definition verify (v : Vote) : bool :=
  sig_verify (voter v) (signing_bytes (term v) (candidate v) (voter v)) (signature v).

End with_ed25519.

End Vote.
Import Vote (Vote, voter, candidate).

Module LeaderAttestation.

(** src/crates/common/src/settlement.rs:865-872 [LeaderAttestation] *)
Record LeaderAttestation := {
  term : N; leader : Account; block_hash : bytes; signature : bytes
}.

(** src/crates/common/src/settlement.rs:877-884 [LeaderAttestation::signing_bytes] *)
Definition signing_bytes (term : N) (leader : Account) (block_hash : bytes) : bytes :=
  finish (fixed (fixed (u64 (new (lit "ct-settlement-leader-block-v1")) term) leader) block_hash).

Section with_ed25519.
Context `{Ed25519}.

(** src/crates/common/src/settlement.rs:888-892 [LeaderAttestation::sign_new] *)
Definition sign_new (leader_key : SigningKey) (term : N) (block_hash : bytes)
    : LeaderAttestation :=
  let leader := verifying_key leader_key in
  let signature := sign leader_key (signing_bytes term leader block_hash) in
  {| term := term; leader := leader; block_hash := block_hash; signature := signature |}.

(** src/crates/common/src/settlement.rs:895-905 [LeaderAttestation::verify] *)
Definition verify (a : LeaderAttestation) : bool :=
  sig_verify (leader a) (signing_bytes (term a) (leader a) (block_hash a)) (signature a).

(** src/crates/common/src/settlement.rs:915-922 [authorize_leader_block] *)
Definition authorize_leader_block (att : LeaderAttestation) (elected_leader : Account)
    (t : N) (hash : bytes) : bool :=
  (term att =? t) && bool_decide (leader att = elected_leader)
  && bool_decide (block_hash att = hash) && verify att.

End with_ed25519.

End LeaderAttestation.

Module Election.

Section with_ed25519.
Context `{Ed25519}.
Implicit Types (votes : list Vote) (members : list Account) (term : N) (c : Account).

(** src/crates/common/src/settlement.rs:830-835 [elect_leader]: the votes the tally
    keeps. *)
Definition counts (members : list Account) (term : N) (v : Vote) : bool :=
  negb (negb (Vote.term v =? term) || negb (bool_decide (voter v ∈ members))
        || negb (bool_decide (candidate v ∈ members)) || negb (Vote.verify v)).

(** src/crates/common/src/settlement.rs:827-837 [elect_leader]: each voter's distinct
    choices. *)
Definition voter_choices (votes : list Vote) (members : list Account) (term : N)
    : gmap bytes (gset bytes) :=
  foldl (λ m (v : Vote), if counts members term v
                then <[voter v := {[candidate v]} ∪ default ∅ (m !! voter v)]> m
                else m) ∅ votes.

(** src/crates/common/src/settlement.rs:844-850 [elect_leader]: one vote per voter with
    exactly one choice. *)
Definition tally_choices (choices : list (gset bytes)) : gmap bytes nat :=
  foldl (λ t chosen, if (size chosen =? 1)%nat
                then match elements chosen with
                     | c :: _ => <[c := S (default 0%nat (t !! c))]> t
                     | [] => t
                     end
                else t) ∅ choices.

(** src/crates/common/src/settlement.rs:821-853 [elect_leader] *)
Definition elect_leader (votes : list Vote) (members : list Account) (term : N)
    : option Account :=
  let choices := (btree_iter (voter_choices votes members term)).*2 in
  let tally := tally_choices choices in
  let needed := (length members / 2 + 1)%nat in
  fst <$> find (λ p, needed <=? p.2)%nat (btree_iter tally).

(** ** The specification: who backs whom *)

(** [v] cast accepted votes in the term, all of them for [c]. *)
Definition backs votes members (term : N) (v c : Account) : Prop :=
  Exists (λ w, counts members term w = true ∧ voter w = v) votes ∧
  Forall (λ w, counts members term w = true → voter w = v → candidate w = c) votes.

#[global] Instance backs_dec votes members term v c : Decision (backs votes members term v c).
Proof. unfold backs. apply _. Defined.

(** The members that back [c]. *)
Definition backers votes members (term : N) (c : Account) : gset bytes :=
  filter (λ v, backs votes members term v c) (list_to_set members).

Lemma counts_iff members term (v : Vote) :
  counts members term v = true ↔
  Vote.term v = term ∧ voter v ∈ members ∧ candidate v ∈ members ∧ Vote.verify v = true.
Proof.
  unfold counts. rewrite negb_true_iff, !orb_false_iff, !negb_false_iff, N.eqb_eq.
  rewrite !bool_decide_eq_true. tauto.
Qed.

(** ** The choices the code groups *)

Lemma voter_choices_snoc votes (v : Vote) members term :
  voter_choices (votes ++ [v]) members term
  = if counts members term v
    then <[voter v := {[candidate v]}
             ∪ default ∅ (voter_choices votes members term !! voter v)]>
           (voter_choices votes members term)
    else voter_choices votes members term.
Proof. unfold voter_choices. by rewrite foldl_app. Qed.

Lemma elem_of_choices votes members term (v : Account) c :
  c ∈ default ∅ (voter_choices votes members term !! v) ↔
  ∃ w, w ∈ votes ∧ counts members term w = true ∧ voter w = v ∧ candidate w = c.
Proof.
  induction votes as [|w votes IH] using rev_ind.
  - cbn. rewrite lookup_empty. cbn. split; [set_solver|]. by intros (w & ?%elem_of_nil & _).
  - rewrite voter_choices_snoc. setoid_rewrite elem_of_app. setoid_rewrite list_elem_of_singleton.
    destruct (counts members term w) eqn:C.
    + destruct (decide (voter w = v)) as [<-|Hne].
      * rewrite lookup_insert_eq. cbn. rewrite elem_of_union, elem_of_singleton, IH. split.
        -- intros [->|(w' & ? & ? & ? & ?)]; [exists w|exists w']; auto.
        -- intros (w' & [?| ->] & ? & ? & ?); [right; eauto|by left].
      * rewrite lookup_insert_ne by done. rewrite IH. split.
        -- intros (w' & ? & ? & ? & ?). exists w'. auto.
        -- intros (w' & [?| ->] & ? & ? & ?); [eauto|done].
    + rewrite IH. split.
      * intros (w' & ? & ? & ? & ?). exists w'. auto.
      * intros (w' & [?| ->] & ? & ? & ?); [eauto|congruence].
Qed.

Lemma choices_nonempty votes members term (v : Account) (chosen : gset bytes) :
  voter_choices votes members term !! v = Some chosen → chosen ≠ ∅.
Proof.
  induction votes as [|w votes IH] using rev_ind; [done|]. rewrite voter_choices_snoc.
  destruct (counts members term w); [|done]. intros [[_ <-]|[_ E]]%lookup_insert_Some; [|auto].
  set_solver.
Qed.

(** A voter backs [c] exactly when its set of choices is the singleton [c]. *)
Lemma choices_backs votes members term (v : Account) c :
  voter_choices votes members term !! v = Some {[c]} ↔ backs votes members term v c.
Proof.
  unfold backs. rewrite list.Exists_exists, list.Forall_forall.
  pose proof (elem_of_choices votes members term v) as Hc. split.
  - intros E. rewrite E in Hc. cbn in Hc. split.
    + destruct (proj1 (Hc c)) as (w & ? & ? & ? & ?); [set_solver|]. eauto.
    + intros w Hw Cw Vw. specialize (Hc (candidate w)). set_solver.
  - intros [(w & Hw & Cw & <-) Hall].
    destruct (voter_choices votes members term !! voter w) as [chosen|] eqn:E.
    + f_equal. cbn in Hc. apply set_eq. intros x. rewrite Hc, elem_of_singleton. split.
      * intros (w' & ? & ? & ? & <-). auto.
      * intros ->. exists w. auto.
    + cbn in Hc. exfalso. eapply (not_elem_of_empty (C := gset bytes)), Hc. eauto.
Qed.

Lemma backs_member votes members term (v : Account) c : backs votes members term v c → v ∈ members.
Proof. intros [(w & _ & [Cw <-])%list.Exists_exists _]. by apply counts_iff in Cw as (_ & ? & _). Qed.

Lemma backs_unique votes members term (v : Account) c1 c2 :
  backs votes members term v c1 → backs votes members term v c2 → c1 = c2.
Proof.
  rewrite <- !choices_backs. intros E1 E2. rewrite E1 in E2.
  apply (inj Some) in E2. by apply (inj (singleton (B := gset bytes))) in E2.
Qed.

Lemma elem_of_backers votes members term (v : Account) c :
  v ∈ backers votes members term c ↔ backs votes members term v c.
Proof.
  unfold backers. rewrite elem_of_filter, elem_of_list_to_set.
  split; [by intros [? _]|]. intros Hb. split; [done|]. by eapply backs_member.
Qed.

(** ** The tally *)

Lemma singleton_choice (chosen : gset bytes) :
  (size chosen =? 1)%nat = true → ∃ c, chosen = {[c]} ∧ elements chosen = [c].
Proof.
  intros Hs%Nat.eqb_eq. apply size_1_elem_of in Hs as [c Hc]. apply leibniz_equiv in Hc.
  exists c. split; [done|]. rewrite Hc. by rewrite elements_singleton.
Qed.

(** A candidate's tally is the number of voters whose only choice it is. *)
Lemma tally_count choices c :
  default 0%nat (tally_choices choices !! c)
  = length (filter (λ chosen : gset bytes, chosen = {[c]}) choices).
Proof.
  induction choices as [|chosen choices IH] using rev_ind; [by cbn; rewrite lookup_empty|].
  unfold tally_choices in *. rewrite foldl_app, filter_app, length_app, filter_cons. cbn [foldl].
  destruct (size chosen =? 1)%nat eqn:Hs.
  - apply singleton_choice in Hs as (x & -> & ->).
    destruct (decide (x = c)) as [->|Hne].
    + rewrite lookup_insert_eq. cbn. rewrite IH, decide_True by done. cbn. lia.
    + rewrite lookup_insert_ne, decide_False by (done || set_solver). rewrite IH. cbn. lia.
  - rewrite decide_False; [rewrite IH; cbn; lia|]. intros ->.
    by rewrite size_singleton in Hs.
Qed.

(** ... that is the number of its backers. *)
Lemma choices_count votes members term c :
  length (filter (λ chosen : gset bytes, chosen = {[c]})
            (btree_iter (voter_choices votes members term)).*2)
  = size (backers votes members term c).
Proof.
  set (l := btree_iter _).
  assert (length (filter (λ chosen : gset bytes, chosen = {[c]}) l.*2)
          = length (filter (λ p : bytes * gset bytes, p.2 = {[c]}) l).*1) as ->.
  { rewrite length_fmap. induction l as [|[v S] l IH]; [done|]. cbn [fmap list_fmap snd].
    rewrite !filter_cons. cbn [snd]. destruct (decide _); cbn [length]; by rewrite IH. }
  assert (backers votes members term c
          = list_to_set (filter (λ p : bytes * gset bytes, p.2 = {[c]}) l).*1) as ->.
  { apply set_eq. intros v. rewrite elem_of_backers, elem_of_list_to_set, list_elem_of_fmap.
    rewrite <- choices_backs. unfold l. split.
    - intros E. exists (v, {[c]}). split; [done|]. apply list_elem_of_filter.
      split; [done|]. by apply elem_of_btree_iter.
    - intros ([v' S] & -> & [ES Hp]%list_elem_of_filter). cbn in ES. subst.
      by apply elem_of_btree_iter in Hp. }
  symmetry. apply size_list_to_set. unfold l.
  pose proof (NoDup_btree_keys (voter_choices votes members term)) as Hn.
  revert Hn. generalize (btree_iter (voter_choices votes members term)) as k.
  induction k as [|[v S] k IH]; [constructor|]. cbn [fmap list_fmap fst].
  intros [Hv Hk]%list.NoDup_cons. rewrite filter_cons. case_decide; [|auto].
  cbn. apply list.NoDup_cons. split; [|auto]. intros Hin. apply Hv.
  apply list_elem_of_fmap in Hin as (p & -> & [_ Hp]%list_elem_of_filter).
  apply list_elem_of_fmap. by exists p.
Qed.

Lemma size_members (l : list Account) : (size (list_to_set l : gset bytes) ≤ length l)%nat.
Proof.
  induction l as [|m l IH]; [rewrite list_to_set_nil, size_empty; cbn; lia|].
  rewrite list_to_set_cons. cbn [length]. destruct (decide (m ∈ (list_to_set l : gset bytes))).
  - rewrite subseteq_union_1_L by set_solver. lia.
  - rewrite size_union by set_solver. rewrite size_singleton. lia.
Qed.

(** Two majorities of the member list share a voter. *)
Lemma majorities_meet members (s1 s2 : gset bytes) :
  (∀ v, v ∈ s1 → v ∈ members) → (∀ v, v ∈ s2 → v ∈ members) →
  (length members / 2 + 1 ≤ size s1)%nat → (length members / 2 + 1 ≤ size s2)%nat →
  ∃ v, v ∈ s1 ∧ v ∈ s2.
Proof.
  intros H1 H2 M1 M2. destruct (set_choose_or_empty (s1 ∩ s2)) as [[v Hv]|He]; [set_solver|].
  exfalso. assert (size (s1 ∪ s2) ≤ length members)%nat as Hle.
  { etrans; [apply (subseteq_size _ (list_to_set members)); set_solver|].
    apply size_members. }
  rewrite size_union in Hle by set_solver.
  pose proof (Nat.div_mod_eq (length members) 2). pose proof (Nat.mod_upper_bound (length members) 2).
  lia.
Qed.

Lemma elect_leader_spec votes members term c :
  elect_leader votes members term = Some c ↔
  (length members / 2 + 1 ≤ size (backers votes members term c))%nat.
Proof.
  unfold elect_leader. set (t := tally_choices _). set (needed := (length members / 2 + 1)%nat).
  assert (∀ x n, t !! x = Some n → n = size (backers votes members term x)) as Ht.
  { intros x n E. pose proof (tally_count (btree_iter (voter_choices votes members term)).*2 x) as T.
    fold t in T. rewrite E in T. cbn in T. by rewrite T, choices_count. }
  split.
  - destruct (find _ _) as [[x n]|] eqn:F; [|done]. cbn. intros [= <-].
    apply find_some in F as [Hin%list_elem_of_In Hn]. apply elem_of_btree_iter in Hin.
    cbn in Hn. apply Nat.leb_le in Hn. by rewrite <- (Ht _ _ Hin).
  - intros Hn. pose proof (tally_count (btree_iter (voter_choices votes members term)).*2 c) as T.
    rewrite choices_count in T. fold t in T.
    destruct (t !! c) as [n|] eqn:E; cbn in T; [|lia].
    destruct (find _ _) as [[x k]|] eqn:F; cbn.
    + apply find_some in F as [Hin%list_elem_of_In Hk]. apply elem_of_btree_iter in Hin.
      cbn in Hk. apply Nat.leb_le in Hk. rewrite (Ht _ _ Hin) in Hk.
      destruct (majorities_meet members (backers votes members term x)
                  (backers votes members term c)) as (v & Hx & Hc); try done.
      * intros v Hv%elem_of_backers. by eapply backs_member.
      * intros v Hv%elem_of_backers. by eapply backs_member.
      * apply elem_of_backers in Hx, Hc. by rewrite (backs_unique _ _ _ _ _ _ Hx Hc).
    + apply elem_of_btree_iter, list_elem_of_In, (find_none _ _ F) in E.
      cbn [snd] in E. apply Nat.leb_gt in E. lia.
Qed.

(** The election is exact and depends only on the set of votes received: a candidate is
    elected iff a strict majority of the members each cast authentic votes of the term
    for it and for nobody else, so an equivocating voter counts for no one, repeated
    votes count once, and two nodes that received the same votes in any order and with
    any duplicates compute the same result. *)
Theorem elect_leader_exact votes members term :
  (∀ c, elect_leader votes members term = Some c ↔
     (length members / 2 + 1 ≤ size (backers votes members term c))%nat) ∧
  (∀ votes', (∀ v, v ∈ votes ↔ v ∈ votes') →
     elect_leader votes' members term = elect_leader votes members term).
Proof.
  split; [apply elect_leader_spec|]. intros votes' Hv. apply option_eq. intros c.
  rewrite !elect_leader_spec.
  assert (backers votes' members term c = backers votes members term c) as ->; [|done].
  apply set_eq. intros v. rewrite !elem_of_backers. unfold backs.
  rewrite !list.Exists_exists, !list.Forall_forall. by setoid_rewrite Hv.
Qed.

(** Split brain needs a provable equivocator: if two nodes, whatever votes each of them
    received, elect different leaders for one term, then some member signed votes of
    that term for both. *)
Theorem split_brain_exposes_equivocator votes1 votes2 members term c1 c2 :
  elect_leader votes1 members term = Some c1 → elect_leader votes2 members term = Some c2 →
  c1 ≠ c2 →
  ∃ v1 v2, v1 ∈ votes1 ∧ v2 ∈ votes2 ∧ voter v1 = voter v2 ∧ voter v1 ∈ members ∧
    Vote.term v1 = term ∧ Vote.term v2 = term ∧ candidate v1 = c1 ∧ candidate v2 = c2 ∧
    Vote.verify v1 = true ∧ Vote.verify v2 = true.
Proof.
  rewrite !elect_leader_spec. intros M1 M2 Hne.
  destruct (majorities_meet members (backers votes1 members term c1)
              (backers votes2 members term c2)) as (v & H1 & H2); try done.
  { intros v Hv%elem_of_backers. by eapply backs_member. }
  { intros v Hv%elem_of_backers. by eapply backs_member. }
  apply elem_of_backers in H1 as [(w1 & W1 & C1 & V1)%list.Exists_exists A1].
  apply elem_of_backers in H2 as [(w2 & W2 & C2 & V2)%list.Exists_exists A2].
  rewrite list.Forall_forall in A1, A2. exists w1, w2.
  specialize (A1 w1 W1 C1 V1). specialize (A2 w2 W2 C2 V2).
  apply counts_iff in C1 as (? & ? & _ & ?), C2 as (? & ? & _ & ?).
  split_and!; try done. congruence.
Qed.

End with_ed25519.

(** ** Three writers: 1 and 2 vote for 2, writer 3 votes for both *)

#[local] Existing Instance Toy.ed25519.

Definition demo_members : list Account := [Chain.acct x01; Chain.acct x02; Chain.acct x03].
Definition demo_vote (k c : byte) : Vote := Vote.sign_new (k : SigningKey) 5 (Chain.acct c).

Lemma elect_leader_exact_witness :
  elect_leader [demo_vote x03 x01; demo_vote x01 x02; demo_vote x03 x02; demo_vote x02 x02]
    demo_members 5 = Some (Chain.acct x02) ∧
  elect_leader [demo_vote x02 x02; demo_vote x01 x02; demo_vote x01 x02] demo_members 5
  = elect_leader [demo_vote x01 x02; demo_vote x02 x02] demo_members 5.
Proof.
  split; [vm_compute; reflexivity|].
  apply (proj2 (elect_leader_exact [demo_vote x01 x02; demo_vote x02 x02] demo_members 5)).
  intros v. rewrite !elem_of_cons, !elem_of_nil. tauto.
Defined.

(** Writer 3 tells one node it votes for 1 and another that it votes for 2. *)
Lemma split_brain_exposes_equivocator_witness :
  let votes1 := [demo_vote x01 x01; demo_vote x03 x01] in
  let votes2 := [demo_vote x02 x02; demo_vote x03 x02] in
  ∃ v1 v2, v1 ∈ votes1 ∧ v2 ∈ votes2 ∧ voter v1 = voter v2 ∧ candidate v1 ≠ candidate v2.
Proof.
  intros votes1 votes2.
  destruct (split_brain_exposes_equivocator votes1 votes2 demo_members 5
    (Chain.acct x01) (Chain.acct x02)) as (v1 & v2 & H1 & H2 & Hv & _ & _ & _ & C1 & C2 & _);
    [vm_compute; reflexivity|vm_compute; reflexivity|discriminate|].
  exists v1, v2. split; [exact H1|]. split; [exact H2|]. split; [exact Hv|].
  rewrite C1, C2. discriminate.
Defined.

End Election.
