(* ===== verification/Channels.v ===== *)
(** * The channel trust chain

    The agent-fabric half of [crates/common/src/channel.rs]: derived channel addresses,
    the operator-signed grant and invitation, the join request, refusal frames, the
    soft-state membership staples with their cache, the billing and delivery receipts a
    channel may demand, and the agent card. *)

From S2P Require Import Prelude RustStd Maps Interfaces Codec Limits Market.
Import Codec.Preimage.

(** src/crates/common/src/channel.rs:280-289 [GrantError] *)
Inductive GrantError := BadSignature | Expired | BadKey | Malformed | Replayed.

(** src/crates/common/src/channel.rs:335-342 [take] *)
Definition take_field (cur : bytes) (n : nat) : Result (bytes * bytes) GrantError :=
  ok_or (take_cur cur n) Malformed.

Module Address.

Section with_sha.
Context (sha256 : bytes → bytes).

(** src/crates/common/src/channel.rs:50-68 [channel_id_for_link]: the bytes hashed. *)
Definition link_preimage (operator_pubkey holder_a holder_b : bytes) : bytes :=
  let '(lo, hi) := if bytes_leb holder_a holder_b then (holder_a, holder_b)
                   else (holder_b, holder_a) in
  lit "ct-link-channel-v1" ++ operator_pubkey ++ lo ++ hi.

(** src/crates/common/src/channel.rs:50-68 [channel_id_for_link] *)
Definition channel_id_for_link (operator_pubkey holder_a holder_b : bytes) : bytes :=
  sha256 (link_preimage operator_pubkey holder_a holder_b).

(** src/crates/common/src/channel.rs:93-103 [channel_id_for_pipeline_role] *)
Definition channel_id_for_pipeline_role (operator_pubkey pipeline_id role : bytes) : bytes :=
  sha256 (finish (var_bytes (var_bytes (fixed (new (lit "ct-pipeline-role-channel-v1"))
    operator_pubkey) pipeline_id) role)).

(** src/crates/common/src/channel.rs:113-121 [authorized_channels] *)
Definition authorized_channels (operator_pubkey : bytes) (links : list (bytes * bytes))
    : gset bytes :=
  list_to_set ((λ l, channel_id_for_link operator_pubkey l.1 l.2) <$> links).

(** src/crates/common/src/channel.rs:137-145 [overlay_authorizes_channel] *)
Definition overlay_authorizes_channel (operator_pubkey : bytes) (links : list (bytes * bytes))
    (channel : bytes) : bool :=
  existsb (λ l, bool_decide (channel_id_for_link operator_pubkey l.1 l.2 = channel)) links.

End with_sha.

End Address.

Module Direction.

(** src/crates/common/src/channel.rs:149-156 [Direction] *)
Inductive Direction := Initiate | Accept | Both.

#[global] Instance direction_eq_dec : EqDecision Direction.
Proof. solve_decision. Defined.

(** src/crates/common/src/channel.rs:159-165 [Direction::as_byte] *)
Definition as_byte (d : Direction) : byte :=
  match d with Initiate => x01 | Accept => x02 | Both => x03 end.

(** src/crates/common/src/channel.rs:166-173 [Direction::from_byte] *)
Definition from_byte (b : byte) : option Direction :=
  match b with x01 => Some Initiate | x02 => Some Accept | x03 => Some Both | _ => None end.

(** src/crates/common/src/channel.rs:175-181 [Direction::label] *)
Definition label (d : Direction) : bytes :=
  match d with Initiate => lit "initiate" | Accept => lit "accept" | Both => lit "both" end.

(** src/crates/common/src/channel.rs:183-185 [Direction::permits] *)
Definition permits (d want : Direction) : bool :=
  bool_decide (d = Both) || bool_decide (d = want).

Lemma direction_byte_iff b d : from_byte b = Some d ↔ b = as_byte d.
Proof. split; [|intros ->; by destruct d]. destruct b; cbn; try done; by intros [= <-]. Qed.

End Direction.
Import Direction (Direction).

Module Rights.

(** src/crates/common/src/channel.rs:190-197 [Rights] *)
Inductive Rights := Read | Write | ReadWrite.

#[global] Instance rights_eq_dec : EqDecision Rights.
Proof. solve_decision. Defined.

(** src/crates/common/src/channel.rs:200-206 [Rights::as_byte] *)
Definition as_byte (r : Rights) : byte :=
  match r with Read => x01 | Write => x02 | ReadWrite => x03 end.

(** src/crates/common/src/channel.rs:207-214 [Rights::from_byte] *)
Definition from_byte (b : byte) : option Rights :=
  match b with x01 => Some Read | x02 => Some Write | x03 => Some ReadWrite | _ => None end.

(** src/crates/common/src/channel.rs:215-221 [Rights::label] *)
Definition label (r : Rights) : bytes :=
  match r with Read => lit "r" | Write => lit "w" | ReadWrite => lit "rw" end.

(** src/crates/common/src/channel.rs:223-225 [Rights::can_read] *)
Definition can_read (r : Rights) : bool := match r with Read | ReadWrite => true | _ => false end.

(** src/crates/common/src/channel.rs:227-229 [Rights::can_write] *)
Definition can_write (r : Rights) : bool := match r with Write | ReadWrite => true | _ => false end.

Lemma rights_byte_iff b r : from_byte b = Some r ↔ b = as_byte r.
Proof. split; [|intros ->; by destruct r]. destruct b; cbn; try done; by intros [= <-]. Qed.

End Rights.
Import Rights (Rights).

(** The text of a grant or an invitation: seven fields between bars. *)
Definition claims_text (domain key1 key2 : bytes) (d : Direction) (r : Rights)
    (delegable : bool) (expires_at : N) : bytes :=
  domain ++ lit "|" ++ Hex.encode key1 ++ lit "|" ++ Hex.encode key2 ++ lit "|"
    ++ Direction.label d ++ lit "|" ++ Rights.label r ++ lit "|"
    ++ (if delegable then lit "1" else lit "0") ++ lit "|" ++ decimal expires_at.

Lemma hex_encode_inj a b : Hex.encode a = Hex.encode b → a = b.
Proof.
  intros E. pose proof (Hex.hex_decode_encode a) as Ha. rewrite E, Hex.hex_decode_encode in Ha.
  by injection Ha.
Qed.

Lemma direction_label_cut d1 d2 x y :
  Direction.label d1 ++ lit "|" ++ x = Direction.label d2 ++ lit "|" ++ y → d1 = d2 ∧ x = y.
Proof. destruct d1, d2; cbn; intros E; simplify_eq; done. Qed.

Lemma rights_label_cut r1 r2 x y :
  Rights.label r1 ++ lit "|" ++ x = Rights.label r2 ++ lit "|" ++ y → r1 = r2 ∧ x = y.
Proof. destruct r1, r2; cbn; intros E; simplify_eq; done. Qed.

Lemma claims_text_inj dom a1 b1 d1 r1 g1 e1 a2 b2 d2 r2 g2 e2 :
  length a1 = 32%nat → length a2 = 32%nat → length b1 = 32%nat → length b2 = 32%nat →
  claims_text dom a1 b1 d1 r1 g1 e1 = claims_text dom a2 b2 d2 r2 g2 e2 →
  a1 = a2 ∧ b1 = b2 ∧ d1 = d2 ∧ r1 = r2 ∧ g1 = g2 ∧ e1 = e2.
Proof.
  intros A1 A2 B1 B2 E. unfold claims_text in E. apply app_inv_head, app_inv_head in E.
  apply app_inj_l in E as [->%hex_encode_inj E]; [|by rewrite !Hex.length_encode, A1, A2].
  apply app_inv_head in E.
  apply app_inj_l in E as [->%hex_encode_inj E]; [|by rewrite !Hex.length_encode, B1, B2].
  apply app_inv_head in E. apply direction_label_cut in E as [-> E].
  apply rights_label_cut in E as [-> E].
  destruct g1, g2; cbn in E; try (by injection E); injection E as ->%decimal_inj; done.
Qed.

Module ChannelGrant.

(** src/crates/common/src/channel.rs:235-251 [ChannelGrant] *)
Record ChannelGrant := {
  channel : bytes;
  holder : bytes;
  direction : Direction;
  rights : Rights;
  delegable : bool;
  expires_at : N;
}.

(** src/crates/common/src/channel.rs:257-268 [ChannelGrant::signing_bytes] *)
Definition signing_bytes (g : ChannelGrant) : bytes :=
  claims_text (lit "ct-grant:v1") (channel g) (holder g) (direction g) (rights g)
    (delegable g) (expires_at g).

End ChannelGrant.
Import ChannelGrant (ChannelGrant).

(** The body grants and invitations share on the wire, after the signature. *)
Definition claims_wire (key1 key2 : bytes) (d : Direction) (r : Rights) (delegable : bool)
    (expires_at : N) : bytes :=
  key1 ++ key2 ++ [Direction.as_byte d] ++ [Rights.as_byte r]
    ++ [if delegable then x01 else x00] ++ u64_le expires_at.

(** [match take(1)?[0] { 0 => false, 1 => true, _ => Malformed }] *)
Definition flag_of (b : byte) : option bool :=
  match b with x00 => Some false | x01 => Some true | _ => None end.

Lemma flag_of_iff b f : flag_of b = Some f ↔ b = if f then x01 else x00.
Proof. split; [|intros ->; by destruct f]. destruct b; cbn; try done; by intros [= <-]. Qed.

Module SignedChannelGrant.

(** src/crates/common/src/channel.rs:273-276 [SignedChannelGrant] *)
Record SignedChannelGrant := { grant : ChannelGrant; signature : bytes }.

(** src/crates/common/src/channel.rs:308-308 [SignedChannelGrant::WIRE_LEN] *)
Definition WIRE_LEN : nat := 139.

(** src/crates/common/src/channel.rs:312-323 [SignedChannelGrant::encode] *)
Definition encode (s : SignedChannelGrant) : bytes :=
  let g := grant s in
  signature s ++ claims_wire (ChannelGrant.channel g) (ChannelGrant.holder g)
    (ChannelGrant.direction g) (ChannelGrant.rights g) (ChannelGrant.delegable g)
    (ChannelGrant.expires_at g).

(** src/crates/common/src/channel.rs:328-331 [SignedChannelGrant::digest] *)
Definition digest (sha256 : bytes → bytes) (s : SignedChannelGrant) : bytes := sha256 (encode s).

(** src/crates/common/src/channel.rs:334-372 [SignedChannelGrant::decode] *)
Definition decode (b : bytes) : Result SignedChannelGrant GrantError :=
  p <-? take_field b 64; let '(signature, cur) := p in
  p <-? take_field cur 32; let '(channel, cur) := p in
  p <-? take_field cur 32; let '(holder, cur) := p in
  p <-? take_field cur 1; let '(d, cur) := p in
  direction <-? ok_or (head d ≫= Direction.from_byte) Malformed;
  p <-? take_field cur 1; let '(r, cur) := p in
  rights <-? ok_or (head r ≫= Rights.from_byte) Malformed;
  p <-? take_field cur 1; let '(f, cur) := p in
  delegable <-? ok_or (head f ≫= flag_of) Malformed;
  p <-? take_field cur 8; let '(e, cur) := p in
  if negb (length cur =? 0)%nat then Err Malformed
  else Ok {| grant := {| ChannelGrant.channel := channel; ChannelGrant.holder := holder;
                         ChannelGrant.direction := direction; ChannelGrant.rights := rights;
                         ChannelGrant.delegable := delegable;
                         ChannelGrant.expires_at := le_val e |};
             signature := signature |}.

(** The widths of the Rust types. *)
Definition claims_ok (g : ChannelGrant) : Prop :=
  length (ChannelGrant.channel g) = 32%nat ∧ length (ChannelGrant.holder g) = 32%nat ∧
  u64_ok (ChannelGrant.expires_at g).
Definition grant_ok (s : SignedChannelGrant) : Prop :=
  claims_ok (grant s) ∧ length (signature s) = 64%nat.

Lemma take_field_Ok cur n h t : take_field cur n = Ok (h, t) ↔ length h = n ∧ cur = h ++ t.
Proof.
  unfold take_field. rewrite <- take_cur_Some. destruct (take_cur cur n) as [[? ?]|]; cbn; naive_solver.
Qed.

Lemma take_field_app h t n : length h = n → take_field (h ++ t) n = Ok (h, t).
Proof. intros. by apply take_field_Ok. Qed.

Lemma take_field_end h n : length h = n → take_field h n = Ok (h, []).
Proof. intros. apply take_field_Ok. by rewrite app_nil_r. Qed.

Lemma ok_or_Ok {A E} (o : option A) (e : E) a : ok_or o e = Ok a ↔ o = Some a.
Proof. destruct o; cbn; naive_solver. Qed.

Lemma head_one {A} (l : bytes) (f : byte → option A) a :
  length l = 1%nat → head l ≫= f = Some a → ∃ b, l = [b] ∧ f b = Some a.
Proof. destruct l as [|b [|? ?]]; try done. intros _ E. by exists b. Qed.

(** What the shared body of a grant and of an invitation decodes to. *)
Lemma grant_decode_shape b s : decode b = Ok s → grant_ok s ∧ b = encode s.
Proof.
  unfold decode. intros E.
  repeat match type of E with
  | rbind (take_field ?c ?n) _ = Ok _ =>
    let h := fresh "h" in let t := fresh "t" in let T := fresh "T" in let L := fresh "L" in
    destruct (take_field c n) as [[h t]|] eqn:T; cbn [rbind] in E; [|discriminate E];
    apply take_field_Ok in T as [L ->]
  | rbind (ok_or (head ?l ≫= ?f) _) _ = Ok _ =>
    let K := fresh "K" in destruct (head l ≫= f) eqn:K; cbn [rbind ok_or] in E; [|discriminate E];
    apply head_one in K as (? & -> & ?); [|assumption]
  end.
  destruct (length _ =? 0)%nat eqn:Z; [|discriminate E]. bool_facts.
  apply nil_length_inv in Z as ->. injection E as <-.
  match goal with D : Direction.from_byte _ = _, R : Rights.from_byte _ = _, F : flag_of _ = _ |- _ =>
    apply Direction.direction_byte_iff in D as ->; apply Rights.rights_byte_iff in R as ->;
    apply flag_of_iff in F as -> end.
  unfold grant_ok, claims_ok, encode, claims_wire.
  cbn [grant signature ChannelGrant.channel ChannelGrant.holder ChannelGrant.direction
       ChannelGrant.rights ChannelGrant.delegable ChannelGrant.expires_at].
  rewrite u64_le_le_val, app_nil_r by done. split; [|done].
  split_and!; try done. by apply le_val_u64_ok.
Qed.

Lemma grant_decode_encode s : grant_ok s → decode (encode s) = Ok s.
Proof.
  intros [(Hc & Hh & He) Hs]. destruct s as [[c h d r f e] sg]. unfold encode, decode, claims_wire.
  cbn [grant signature ChannelGrant.channel ChannelGrant.holder ChannelGrant.direction
       ChannelGrant.rights ChannelGrant.delegable ChannelGrant.expires_at] in *.
  do 3 (rewrite take_field_app by done; cbn [rbind]).
  rewrite take_field_app by done. cbn [rbind head mbind option_bind].
  rewrite (proj2 (Direction.direction_byte_iff _ d) eq_refl). cbn [rbind ok_or].
  rewrite take_field_app by done. cbn [rbind head mbind option_bind].
  rewrite (proj2 (Rights.rights_byte_iff _ r) eq_refl). cbn [rbind ok_or].
  rewrite take_field_app by done. cbn [rbind head mbind option_bind].
  rewrite (proj2 (flag_of_iff _ f) eq_refl). cbn [rbind ok_or].
  rewrite take_field_end by apply length_u64_le. cbn [rbind length Nat.eqb negb].
  by rewrite le_val_u64_le.
Qed.

Lemma length_grant s : grant_ok s → length (encode s) = WIRE_LEN.
Proof.
  intros [(Hc & Hh & _) Hs]. unfold encode, claims_wire. rewrite !length_app, length_u64_le.
  rewrite Hc, Hh, Hs. done.
Qed.

#[global] Instance grant_codec : WireCodec SignedChannelGrant :=
  {| wire_ok := grant_ok; wire_encode := encode; wire_decode b := result_ok (decode b) |}.
#[global] Instance grant_codec_laws : WireCodecLaws SignedChannelGrant.
Proof.
  intros b s. cbn. split.
  - destruct (decode b) eqn:E; [|done]. cbn. intros [= <-]. by apply grant_decode_shape.
  - intros [H ->]. by rewrite grant_decode_encode.
Qed.

End SignedChannelGrant.
Import SignedChannelGrant (SignedChannelGrant, grant_ok).

Module Refusal.

(** src/crates/common/src/channel.rs:453-453 [CHANNEL_REFUSAL_CATEGORY_MAX_LEN] *)
Definition CHANNEL_REFUSAL_CATEGORY_MAX_LEN : nat := 24.

(** src/crates/common/src/channel.rs:435-445 [CHANNEL_REFUSAL_CATEGORIES] *)
Definition CHANNEL_REFUSAL_CATEGORIES : list bytes :=
  [lit "len-oob"; lit "malformed"; lit "endpoint"; lit "not-member"; lit "grant-verify";
   lit "possession"; lit "grant-revoked"; lit "grant-status"; lit "pairing"].

(** src/crates/common/src/channel.rs:460-464 [is_channel_refusal_token_shape] *)
Definition is_channel_refusal_token_shape (token : bytes) : bool :=
  negb (length token =? 0)%nat && (length token <=? CHANNEL_REFUSAL_CATEGORY_MAX_LEN)%nat
  && forallb (λ b, is_lower b || is_digit b || bool_decide (b = x2d)) token.

(** src/crates/common/src/channel.rs:474-487 [encode_channel_refusal]: release profile,
    without the [debug_assert]. *)
Definition encode_channel_refusal (category : bytes) : bytes :=
  lit "NO" ++ (if is_channel_refusal_token_shape category
               then byte_of_N (blen category) :: category else []).

(** src/crates/common/src/channel.rs:493-501 [decode_channel_refusal_category] *)
Definition decode_channel_refusal_category (rest : bytes) : option bytes :=
  match rest with
  | [] => None
  | len :: tail =>
    let n := N.to_nat (N_of_byte len) in
    if (length tail <? n)%nat then None
    else
      let token := take n tail in
      if negb (is_channel_refusal_token_shape token) then None else from_utf8 token
  end.

Lemma shape_ascii token : is_channel_refusal_token_shape token = true → utf8_valid token = true.
Proof.
  unfold is_channel_refusal_token_shape. intros [_ H]%andb_true_iff.
  apply utf8_valid_ascii. rewrite forallb_forall in *. intros b Hb. specialize (H b Hb).
  revert H. apply implb_true_iff. revert b Hb. intros b _. revert b.
  apply Hex.byte_check. by vm_compute.
Qed.

Lemma shape_length token :
  is_channel_refusal_token_shape token = true → (0 < length token ≤ 24)%nat.
Proof.
  unfold is_channel_refusal_token_shape, CHANNEL_REFUSAL_CATEGORY_MAX_LEN.
  intros [[H1 H2]%andb_true_iff _]%andb_true_iff. bool_facts. apply Nat.leb_le in H2. lia.
Qed.

Lemma decode_category_framed token rest :
  is_channel_refusal_token_shape token = true →
  decode_channel_refusal_category (byte_of_N (blen token) :: token ++ rest) = Some token.
Proof.
  intros Hs. pose proof (shape_length _ Hs) as Hl. cbn [decode_channel_refusal_category].
  rewrite N_of_byte_of_N, N.mod_small by (unfold blen; lia). rewrite to_nat_blen.
  rewrite (proj2 (Nat.ltb_ge _ _)) by (rewrite length_app; lia).
  rewrite take_app_length, Hs. cbn [negb]. apply from_utf8_Some. split; [|done].
  by apply shape_ascii.
Qed.

(** Refusal frames: every refusal starts with the two sentinel bytes and stays under
    the 32 bytes an older reader takes for a challenge; a reader recovers exactly the
    category of a well-shaped token, also when more bytes follow, in particular of every
    token of the vocabulary, and reads no category where the frame is truncated or was
    cut to the bare sentinel. *)
Theorem refusal_frame_readable category :
  (∃ rest, encode_channel_refusal category = lit "NO" ++ rest ∧
     (length (encode_channel_refusal category) < 32)%nat ∧
     decode_channel_refusal_category rest
       = (if is_channel_refusal_token_shape category then Some category else None) ∧
     (∀ more, is_channel_refusal_token_shape category = true →
        decode_channel_refusal_category (rest ++ more) = Some category) ∧
     (∀ n, (n < length rest)%nat → decode_channel_refusal_category (take n rest) = None)) ∧
  Forall (λ c, is_channel_refusal_token_shape c = true) CHANNEL_REFUSAL_CATEGORIES.
Proof.
  split; [|by repeat constructor]. unfold encode_channel_refusal.
  destruct (is_channel_refusal_token_shape category) eqn:Hs.
  - pose proof (shape_length _ Hs) as Hl. eexists. split; [done|]. split_and!.
    + cbn. lia.
    + rewrite <- (app_nil_r category) at 2. by apply decode_category_framed.
    + intros more _. by apply decode_category_framed.
    + intros [|n] Hn; [done|]. cbn [take length decode_channel_refusal_category] in *.
      rewrite N_of_byte_of_N, N.mod_small by (unfold blen; lia). rewrite to_nat_blen.
      by rewrite (proj2 (Nat.ltb_lt _ _)) by (rewrite length_take; lia).
  - exists []. split_and!; [done|cbn; lia|done|done|]. intros n Hn. cbn in Hn. lia.
Qed.

End Refusal.

Module ChannelJoinRequest.

(** src/crates/common/src/channel.rs:510-513 [ChannelJoinRequest] *)
Record ChannelJoinRequest := { grant : SignedChannelGrant; endpoint : bytes }.

(** src/crates/common/src/channel.rs:518-520 [ChannelJoinRequest::is_relay_only] *)
Definition is_relay_only (j : ChannelJoinRequest) : bool :=
  bool_decide (endpoint j = lit "relay-only").

(** src/crates/common/src/channel.rs:525-529 [ChannelJoinRequest::encode] *)
Definition encode (j : ChannelJoinRequest) : bytes :=
  SignedChannelGrant.encode (grant j) ++ endpoint j.

(** src/crates/common/src/channel.rs:533-546 [ChannelJoinRequest::decode] *)
Definition decode (b : bytes) : Result ChannelJoinRequest GrantError :=
  if (length b <=? SignedChannelGrant.WIRE_LEN)%nat then Err Malformed
  else
    let grant_bytes := take SignedChannelGrant.WIRE_LEN b in
    let endpoint_bytes := drop SignedChannelGrant.WIRE_LEN b in
    grant <-? SignedChannelGrant.decode grant_bytes;
    endpoint <-? ok_or (from_utf8 endpoint_bytes) Malformed;
    if (length endpoint =? 0)%nat then Err Malformed
    else Ok {| grant := grant; endpoint := endpoint |}.

(** A well-formed grant and a non-empty endpoint string. *)
Definition join_ok (j : ChannelJoinRequest) : Prop :=
  grant_ok (grant j) ∧ utf8_valid (endpoint j) = true ∧ endpoint j ≠ [].

Lemma join_decode_iff b j : decode b = Ok j ↔ join_ok j ∧ b = encode j.
Proof.
  unfold decode. split.
  - destruct (_ <=? _)%nat eqn:L; [done|]. apply Nat.leb_gt in L.
    destruct (SignedChannelGrant.decode _) as [g|] eqn:G; [|done]. cbn [rbind].
    destruct (from_utf8 _) as [e|] eqn:U; [|done]. cbn [rbind ok_or].
    destruct (length e =? 0)%nat eqn:Z; [done|]. bool_facts. intros [= <-].
    apply SignedChannelGrant.grant_decode_shape in G as [Hg G].
    apply from_utf8_Some in U as [U ->]. unfold join_ok, encode. cbn [grant endpoint].
    rewrite <- G, take_drop. split_and!; try done. intros E. by rewrite E in Z.
  - intros [(Hg & U & Hne) ->]. destruct j as [g e]. unfold encode. cbn [grant endpoint] in *.
    pose proof (SignedChannelGrant.length_grant g Hg) as L.
    rewrite (proj2 (Nat.leb_gt _ _)) by (rewrite length_app, L; destruct e; [done|cbn [length]; lia]).
    rewrite <- L, take_app_length, drop_app_length, SignedChannelGrant.grant_decode_encode by done.
    cbn [rbind]. rewrite (proj2 (from_utf8_Some e e)) by done. cbn [rbind ok_or].
    by destruct e.
Qed.

End ChannelJoinRequest.

(** ** Verification at admission *)

Module Verify.

Section with_ed25519.
Context `{Ed25519}.

(** src/crates/common/src/channel.rs:778-791 [verify_stateless] *)
Definition verify_stateless (operator_pubkey : bytes) (signed : SignedChannelGrant) (now : N)
    : Result () GrantError :=
  if negb (key_ok operator_pubkey) then Err BadKey
  else if negb (ed_verify operator_pubkey
                  (ChannelGrant.signing_bytes (SignedChannelGrant.grant signed))
                  (SignedChannelGrant.signature signed)) then Err BadSignature
  else if ChannelGrant.expires_at (SignedChannelGrant.grant signed) <=? now then Err Expired
  else Ok ().

(** src/crates/common/src/channel.rs:812-823 [verify_fresh] *)
Definition verify_fresh (operator_pubkey : bytes) (signed : SignedChannelGrant) (now : N)
    (cache : Replay.ReplayCache) : Result () GrantError * Replay.ReplayCache :=
  match verify_stateless operator_pubkey signed now with
  | Err e => (Err e, cache)
  | Ok _ =>
    let '(fresh, cache) := Replay.check_and_record cache (SignedChannelGrant.signature signed)
      (ChannelGrant.expires_at (SignedChannelGrant.grant signed)) now in
    (if fresh then Ok () else Err Replayed, cache)
  end.

(** src/crates/common/src/channel.rs:832-837 [verify_holder_possession] *)
Definition verify_holder_possession (holder challenge signature : bytes) : bool :=
  sig_verify holder challenge signature.

(** src/crates/common/src/channel.rs:848-858 [topology_operator_binding_bytes] *)
Definition topology_operator_binding_bytes (topology_id operator_pubkey : bytes) : bytes :=
  finish (fixed (fixed (u64 (new (lit "ct-topology-operator-v1")) (blen topology_id))
    topology_id) operator_pubkey).

(** src/crates/common/src/channel.rs:865-879 [verify_topology_operator_binding] *)
Definition verify_topology_operator_binding (topology_id operator_pubkey signature : bytes)
    : bool :=
  sig_verify operator_pubkey (topology_operator_binding_bytes topology_id operator_pubkey)
    signature.

(** src/crates/common/src/channel.rs:887-898 [member_noise_attest_bytes] *)
Definition member_noise_attest_bytes (channel holder noise_pubkey : bytes) : bytes :=
  finish (fixed (fixed (fixed (new (lit "ct-a2a-noise-attest-v1")) channel) holder)
    noise_pubkey).

(** src/crates/common/src/channel.rs:905-920 [verify_member_noise_attestation] *)
Definition verify_member_noise_attestation (channel holder noise_pubkey signature : bytes)
    : bool :=
  sig_verify holder (member_noise_attest_bytes channel holder noise_pubkey) signature.

End with_ed25519.

End Verify.

Module MembershipStaple.

(** src/crates/common/src/channel.rs:935-945 [MembershipStaple] *)
Record MembershipStaple := {
  channel : bytes;
  holder : bytes;
  stapled_at : N;
  expires_at : N;
  signature : bytes;
}.

(** src/crates/common/src/channel.rs:951-964 [MembershipStaple::signing_bytes] *)
Definition signing_bytes (channel holder : bytes) (stapled_at expires_at : N) : bytes :=
  finish (u64 (u64 (fixed (fixed (new (lit "ct-membership-staple-v1")) channel) holder)
    stapled_at) expires_at).

Section with_ed25519.
Context `{Ed25519}.

(** The operator's signature covers the staple's fields. *)
Definition authentic (operator_pubkey : bytes) (s : MembershipStaple) : bool :=
  sig_verify operator_pubkey
    (signing_bytes (channel s) (holder s) (stapled_at s) (expires_at s)) (signature s).

(** src/crates/common/src/channel.rs:970-988 [MembershipStaple::is_valid] *)
Definition is_valid (s : MembershipStaple) (operator_pubkey : bytes) (now : N) : bool :=
  if expires_at s <=? now then false else authentic operator_pubkey s.

End with_ed25519.

(** src/crates/common/src/channel.rs:997-1005 [MembershipStaple::encode] *)
Definition encode (s : MembershipStaple) : bytes :=
  signature s ++ channel s ++ holder s ++ u64_le (stapled_at s) ++ u64_le (expires_at s).

(** src/crates/common/src/channel.rs:1011-1039 [MembershipStaple::decode] *)
Definition decode (b : bytes) : Result MembershipStaple GrantError :=
  p <-? take_field b 64; let '(signature, cur) := p in
  p <-? take_field cur 32; let '(channel, cur) := p in
  p <-? take_field cur 32; let '(holder, cur) := p in
  p <-? take_field cur 8; let '(stapled_at, cur) := p in
  p <-? take_field cur 8; let '(expires_at, cur) := p in
  if negb (length cur =? 0)%nat then Err Malformed
  else Ok {| channel := channel; holder := holder; stapled_at := le_val stapled_at;
             expires_at := le_val expires_at; signature := signature |}.

(** The widths of the Rust types. *)
Definition staple_ok (s : MembershipStaple) : Prop :=
  length (channel s) = 32%nat ∧ length (holder s) = 32%nat ∧ u64_ok (stapled_at s) ∧
  u64_ok (expires_at s) ∧ length (signature s) = 64%nat.

Lemma staple_decode_iff b s : decode b = Ok s ↔ staple_ok s ∧ b = encode s.
Proof.
  unfold decode. split.
  - intros E.
    repeat match type of E with
    | rbind (take_field ?c ?n) _ = Ok _ =>
      let h := fresh "h" in let t := fresh "t" in let T := fresh "T" in let L := fresh "L" in
      destruct (take_field c n) as [[h t]|] eqn:T; cbn [rbind] in E; [|discriminate E];
      apply SignedChannelGrant.take_field_Ok in T as [L ->]
    end.
    destruct (length _ =? 0)%nat eqn:Z; [|discriminate E]. bool_facts.
    apply nil_length_inv in Z as ->. injection E as <-. unfold staple_ok, encode.
    cbn [channel holder stapled_at expires_at signature].
    rewrite !u64_le_le_val, app_nil_r by done. split; [|done].
    split_and!; try done; by apply le_val_u64_ok.
  - intros [(H1 & H2 & H3 & H4 & H5) ->]. destruct s as [c h a e g]. unfold encode.
    cbn [channel holder stapled_at expires_at signature] in *.
    do 3 (rewrite SignedChannelGrant.take_field_app by done; cbn [rbind]).
    rewrite SignedChannelGrant.take_field_app by apply length_u64_le. cbn [rbind].
    rewrite SignedChannelGrant.take_field_end by apply length_u64_le.
    cbn [rbind length Nat.eqb negb]. by rewrite !le_val_u64_le.
Qed.

End MembershipStaple.
Import MembershipStaple (MembershipStaple).

Module StapleCache.

(** src/crates/common/src/channel.rs:1048-1056 [ChannelAdmissionPolicy] *)
Inductive ChannelAdmissionPolicy := Open | RequireStaple.

(** src/crates/common/src/channel.rs:1065-1067 [StapleCache] *)
Record StapleCache := { fresh : gmap (bytes * bytes) MembershipStaple }.

(** src/crates/common/src/channel.rs:1070-1072 [StapleCache::new] *)
Definition new : StapleCache := {| fresh := ∅ |}.

Section with_ed25519.
Context `{Ed25519}.
Implicit Types (c : StapleCache) (s : MembershipStaple).

Definition key_of (s : MembershipStaple) : bytes * bytes :=
  (MembershipStaple.channel s, MembershipStaple.holder s).

(** src/crates/common/src/channel.rs:1079-1097 [StapleCache::refresh] *)
Definition refresh (c : StapleCache) (operator_pubkey : bytes) (staple : MembershipStaple)
    (now : N) : bool * StapleCache :=
  if negb (MembershipStaple.is_valid staple operator_pubkey now) then (false, c)
  else
    let key := key_of staple in
    let insert := (true, {| fresh := <[key := staple]> (fresh c) |}) in
    match fresh c !! key with
    | Some existing =>
      if MembershipStaple.expires_at staple <=? MembershipStaple.expires_at existing
      then (true, c) else insert
    | None => insert
    end.

(** src/crates/common/src/channel.rs:1105-1121 [StapleCache::is_member] *)
Definition is_member (c : StapleCache) (operator_pubkey channel holder : bytes) (now : N)
    : bool * StapleCache :=
  let key := (channel, holder) in
  match fresh c !! key with
  | Some s =>
    if MembershipStaple.is_valid s operator_pubkey now then (true, c)
    else (false, {| fresh := delete key (fresh c) |})
  | None => (false, c)
  end.

(** src/crates/common/src/channel.rs:1137-1151 [StapleCache::admits_under_policy] *)
Definition admits_under_policy (c : StapleCache) (policy : ChannelAdmissionPolicy)
    (operator_pubkey channel holder : bytes) (now : N) : bool * StapleCache :=
  match policy with
  | Open => (true, c)
  | RequireStaple => is_member c operator_pubkey channel holder now
  end.

(** What reaches a node's cache: gossiped staples and admission queries, in time order. *)
Inductive Event := Gossip (s : MembershipStaple) | Query (channel holder : bytes).

Definition step (pk : bytes) (c : StapleCache) (ev : Event * N) : StapleCache :=
  match ev.1 with
  | Gossip s => (refresh c pk s ev.2).2
  | Query ch h => (is_member c pk ch h ev.2).2
  end.

(** [s] was gossiped, authentic, for that member. *)
Definition vouched (pk : bytes) (evs : list (Event * N)) (key : bytes * bytes) s : Prop :=
  ∃ t, (Gossip s, t) ∈ evs ∧ MembershipStaple.authentic pk s = true ∧ key_of s = key.

(** The cache after a history: it holds only vouched staples, and while a vouched staple
    of a member has not lapsed it holds one for that member that lasts as long. *)
Definition faithful (pk : bytes) (evs : list (Event * N)) (now : N) c : Prop :=
  (∀ key s, fresh c !! key = Some s → vouched pk evs key s) ∧
  (∀ key s, vouched pk evs key s → now < MembershipStaple.expires_at s →
     ∃ s', fresh c !! key = Some s' ∧
           MembershipStaple.expires_at s <= MembershipStaple.expires_at s').

Lemma valid_iff pk s now :
  MembershipStaple.is_valid s pk now = true ↔
  now < MembershipStaple.expires_at s ∧ MembershipStaple.authentic pk s = true.
Proof. unfold MembershipStaple.is_valid. destruct (_ <=? _) eqn:E; bool_facts; naive_solver lia. Qed.

Lemma vouched_snoc pk evs ev key s :
  vouched pk (evs ++ [ev]) key s ↔
  vouched pk evs key s ∨
  (ev.1 = Gossip s ∧ MembershipStaple.authentic pk s = true ∧ key_of s = key).
Proof.
  unfold vouched. setoid_rewrite elem_of_app. setoid_rewrite list_elem_of_singleton. split.
  - intros (t & [Hin|<-] & ? & ?); [left; eauto|by right].
  - intros [(t & ? & ? & ?)|(E & ? & ?)]; [eauto|]. destruct ev as [e t]. cbn in E. subst. eauto.
Qed.

(** A later time only loses obligations. *)
Lemma faithful_mono pk evs t1 t2 c : t1 <= t2 → faithful pk evs t1 c → faithful pk evs t2 c.
Proof. intros Ht [H1 H2]. split; [done|]. intros key s Hv Hl. apply H2; [done|lia]. Qed.

Lemma refresh_faithful pk evs now c s :
  faithful pk evs now c → faithful pk (evs ++ [(Gossip s, now)]) now (refresh c pk s now).2.
Proof.
  intros [H1 H2]. unfold refresh. destruct (MembershipStaple.is_valid s pk now) eqn:V; cbn [negb].
  - apply valid_iff in V as [Vl Va].
    assert (vouched pk (evs ++ [(Gossip s, now)]) (key_of s) s) as Hs by (apply vouched_snoc; auto).
    assert (∀ c', (∃ s', fresh c' !! key_of s = Some s' ∧
                    MembershipStaple.expires_at s <= MembershipStaple.expires_at s' ∧
                    vouched pk (evs ++ [(Gossip s, now)]) (key_of s) s' ∧
                    ∀ s0, fresh c !! key_of s = Some s0 →
                      MembershipStaple.expires_at s0 <= MembershipStaple.expires_at s') →
               (∀ key, key ≠ key_of s → fresh c' !! key = fresh c !! key) →
               faithful pk (evs ++ [(Gossip s, now)]) now c') as Hk.
    { intros c' (s' & E & Le & Hv & Hd) Ho. split; intros key x; destruct (decide (key = key_of s)) as [->|Hne].
      - rewrite E. by intros [= <-].
      - rewrite Ho by done. intros Hx. apply vouched_snoc. left. by apply H1.
      - rewrite vouched_snoc. intros [Hx|([= <-] & _ & _)] Hl; [|eauto].
        destruct (H2 _ _ Hx Hl) as (x' & Ex & Lx). exists s'. split; [done|]. specialize (Hd _ Ex). lia.
      - rewrite vouched_snoc, Ho by done. intros [Hx|([= <-] & _ & Ek)] Hl; [auto|done]. }
    destruct (fresh c !! key_of s) as [old|] eqn:E; [destruct (_ <=? _) eqn:L; bool_facts|]; cbn [snd];
      apply Hk; try done; try (intros key Hne; by apply lookup_insert_ne).
    + exists old. split_and!; [done|done|apply vouched_snoc; left; by apply H1|].
      intros s0 [= <-]. lia.
    + exists s. cbn. rewrite lookup_insert_eq. split_and!; [done|lia|done|].
      intros s0 [= <-]. lia.
    + exists s. cbn. rewrite lookup_insert_eq. split_and!; [done|lia|done|done].
  - cbn [snd]. split; intros key x.
    + intros Hx. apply vouched_snoc. left. by apply H1.
    + rewrite vouched_snoc. intros [Hx|([= <-] & Va & _)] Hl; [auto|].
      rewrite (proj2 (valid_iff pk s now)) in V by done. done.
Qed.

Lemma is_member_exact pk evs now c ch h :
  faithful pk evs now c →
  ((is_member c pk ch h now).1 = true ↔
   ∃ s, vouched pk evs (ch, h) s ∧ now < MembershipStaple.expires_at s) ∧
  faithful pk (evs ++ [(Query ch h, now)]) now (is_member c pk ch h now).2.
Proof.
  intros [H1 H2].
  assert (∀ key s, vouched pk (evs ++ [(Query ch h, now)]) key s ↔ vouched pk evs key s) as Hv.
  { intros key s. rewrite vouched_snoc. split; [intros [?|[? _]]; done|by left]. }
  unfold is_member. destruct (fresh c !! (ch, h)) as [s|] eqn:E.
  - destruct (H1 _ _ E) as (t & Hin & Ha & Hk).
    destruct (MembershipStaple.is_valid s pk now) eqn:V; cbn [fst snd].
    + apply valid_iff in V as [Vl _]. split; [split; [|done]|].
      * intros _. exists s. split; [by apply H1|done].
      * split; intros key x; rewrite Hv; auto.
    + assert (MembershipStaple.expires_at s <= now) as Hx.
      { apply N.nlt_ge. intros Hl. rewrite (proj2 (valid_iff pk s now)) in V by done. done. }
      split; [split; [done|]|].
      * intros (x & Hx' & Hl). destruct (H2 _ _ Hx' Hl) as (s' & E' & L').
        rewrite E in E'. injection E' as <-. lia.
      * split; intros key x; cbn [fresh]; rewrite Hv.
        -- intros [_ Ex]%lookup_delete_Some. auto.
        -- intros Hx' Hl. destruct (H2 _ _ Hx' Hl) as (s' & E' & L'). exists s'. split; [|done].
           rewrite lookup_delete_ne; [done|]. intros <-. rewrite E in E'. injection E' as <-. lia.
  - cbn [fst snd]. split; [split; [done|]|].
    + intros (x & Hx' & Hl). destruct (H2 _ _ Hx' Hl) as (s' & E' & _). by rewrite E in E'.
    + split; intros key x; rewrite Hv; auto.
Qed.

Lemma history_faithful pk evs now :
  StronglySorted N.le (evs.*2 ++ [now]) → faithful pk evs now (foldl (step pk) new evs).
Proof.
  revert now. induction evs as [|[ev t] evs IH] using rev_ind; intros now Hs.
  - split; intros key s; cbn; [by rewrite lookup_empty|]. by intros (? & ?%elem_of_nil & _).
  - rewrite foldl_app. cbn [foldl step fst snd].
    rewrite fmap_app in Hs. cbn [fmap list_fmap snd] in Hs.
    assert (t <= now) as Ht.
    { apply StronglySorted_app_1_elem_of with (x1 := t) (x2 := now) in Hs; [done| |by left].
      apply elem_of_app. right. by left. }
    apply (faithful_mono pk _ t now _ Ht).
    assert (faithful pk evs t (foldl (step pk) new evs)) as Hf
      by (apply IH; by apply StronglySorted_app_1_l in Hs).
    unfold step at 1. destruct ev as [s|ch h]; cbn [fst snd].
    + by apply refresh_faithful.
    + by apply is_member_exact.
Qed.

(** Fail-static membership is exact: after any history of gossiped staples and
    admission queries, in time order and in any arrival order of the staples, a channel
    that requires staples admits a member at [now] exactly when some authentic staple of
    the operator for that member has been received that has not lapsed; so stale gossip
    never shortens a membership, and once the last vouched staple lapses the member is
    out. *)
Theorem staple_admission_exact pk evs now ch h :
  StronglySorted N.le (evs.*2 ++ [now]) →
  ((admits_under_policy (foldl (step pk) new evs) RequireStaple pk ch h now).1 = true ↔
   ∃ s, vouched pk evs (ch, h) s ∧ now < MembershipStaple.expires_at s).
Proof. intros Hs. by apply is_member_exact, history_faithful. Qed.

End with_ed25519.

#[local] Existing Instance Toy.ed25519.

Definition demo_staple (e : N) : MembershipStaple :=
  {| MembershipStaple.channel := lit "c"; MembershipStaple.holder := lit "h";
     MembershipStaple.stapled_at := 0; MembershipStaple.expires_at := e;
     MembershipStaple.signature := replicate 64 x07 |}.

(** The longer staple arrives first; the member is admitted until it lapses. *)
Lemma staple_admission_exact_witness :
  (admits_under_policy (foldl (step (replicate 32 x07)) new
     [(Gossip (demo_staple 90), 1); (Gossip (demo_staple 50), 2)]) RequireStaple
     (replicate 32 x07) (lit "c") (lit "h") 80).1 = true.
Proof.
  apply (proj2 (staple_admission_exact (replicate 32 x07)
    [(Gossip (demo_staple 90), 1); (Gossip (demo_staple 50), 2)] 80 (lit "c") (lit "h")
    ltac:(repeat constructor; discriminate))).
  exists (demo_staple 90). split; [|reflexivity].
  exists 1. split; [left|split; vm_compute; reflexivity].
Defined.

End StapleCache.

Module Billing.

(** src/crates/common/src/channel.rs:1168-1182 [BillingCommitment] *)
Record BillingCommitment := {
  channel : bytes;
  holder : bytes;
  payee : bytes;
  terms_hash : bytes;
  max_amount : N;
  expires_at : N;
  signature : bytes;
}.

(** src/crates/common/src/channel.rs:1189-1206 [BillingCommitment::signing_bytes] *)
Definition signing_bytes (channel holder payee terms_hash : bytes) (max_amount expires_at : N)
    : bytes :=
  finish (u64 (u64 (fixed (fixed (fixed (fixed (new (lit "ct-billing-commitment-v1")) channel)
    holder) payee) terms_hash) max_amount) expires_at).

(** src/crates/common/src/channel.rs:1257-1267 [BillingPolicy] *)
Inductive BillingPolicy :=
| PolicyNone
| Require (payee terms_hash : bytes) (min_amount : N).

Section with_ed25519.
Context `{Ed25519}.

(** src/crates/common/src/channel.rs:1211-1231 [BillingCommitment::is_valid] *)
Definition is_valid (c : BillingCommitment) (now : N) : bool :=
  if expires_at c <=? now then false
  else sig_verify (holder c)
         (signing_bytes (channel c) (holder c) (payee c) (terms_hash c) (max_amount c)
            (expires_at c)) (signature c).

(** src/crates/common/src/channel.rs:1237-1248 [BillingCommitment::satisfies] *)
Definition satisfies (c : BillingCommitment) (now : N) (required_payee required_terms_hash : bytes)
    (min_amount : N) : bool :=
  is_valid c now && bool_decide (payee c = required_payee)
  && bool_decide (terms_hash c = required_terms_hash) && (min_amount <=? max_amount c).

(** src/crates/common/src/channel.rs:1275-1282 [BillingPolicy::admits] *)
Definition admits (p : BillingPolicy) (commitment : option BillingCommitment) (now : N) : bool :=
  match p with
  | PolicyNone => true
  | Require payee terms_hash min_amount =>
    match commitment with
    | Some c => satisfies c now payee terms_hash min_amount
    | None => false
    end
  end.

End with_ed25519.

End Billing.

Module SettleReceipt.

(** src/crates/common/src/channel.rs:1295-1298 [TransferDigest]: the incremental hasher is
    the bytes it was fed, as SHA-256 documents it. *)
Record TransferDigest := { fed : bytes; byte_count : N }.

(** src/crates/common/src/channel.rs:1307-1310 [TransferDigest::new] *)
Definition digest_new : TransferDigest := {| fed := []; byte_count := 0 |}.

(** src/crates/common/src/channel.rs:1313-1317 [TransferDigest::update] *)
Definition update (d : TransferDigest) (chunk : bytes) : TransferDigest :=
  {| fed := fed d ++ chunk; byte_count := wrap64 (byte_count d + blen chunk) |}.

(** src/crates/common/src/channel.rs:1320-1322 [TransferDigest::bytes] *)
Definition digest_bytes (d : TransferDigest) : N := byte_count d.

(** src/crates/common/src/channel.rs:1325-1330 [TransferDigest::digest] *)
Definition digest (sha256 : bytes → bytes) (d : TransferDigest) : bytes := sha256 (fed d).

(** src/crates/common/src/channel.rs:1342-1356 [SettleReceipt] *)
Record SettleReceipt := {
  channel : bytes;
  receiver : bytes;
  terms_hash : bytes;
  session_nonce : bytes;
  bytes_delivered : N;
  transfer_digest : bytes;
  signature : bytes;
}.

(** src/crates/common/src/channel.rs:1363-1380 [SettleReceipt::signing_bytes] *)
Definition signing_bytes (channel receiver terms_hash session_nonce : bytes)
    (bytes_delivered : N) (transfer_digest : bytes) : bytes :=
  finish (fixed (u64 (fixed (fixed (fixed (fixed (new (lit "ct-settle-receipt-v1")) channel)
    receiver) terms_hash) session_nonce) bytes_delivered) transfer_digest).

Section with_ed25519.
Context `{Ed25519}.

(** src/crates/common/src/channel.rs:1384-1401 [SettleReceipt::is_valid] *)
Definition is_valid (r : SettleReceipt) : bool :=
  sig_verify (receiver r)
    (signing_bytes (channel r) (receiver r) (terms_hash r) (session_nonce r)
       (bytes_delivered r) (transfer_digest r)) (signature r).

(** src/crates/common/src/channel.rs:1416-1432 [SettleReceipt::confirms_delivery] *)
Definition confirms_delivery (r : SettleReceipt) (expected_channel expected_receiver
    expected_terms_hash expected_session_nonce : bytes) (min_bytes : N) (sender_digest : bytes)
    : bool :=
  is_valid r && bool_decide (receiver r = expected_receiver)
  && bool_decide (channel r = expected_channel)
  && bool_decide (terms_hash r = expected_terms_hash)
  && bool_decide (session_nonce r = expected_session_nonce)
  && (min_bytes <=? bytes_delivered r)
  && bool_decide (transfer_digest r = sender_digest).

End with_ed25519.

(** Hashing a transfer chunk by chunk: what was fed is the concatenation, and the count
    is its length. *)
Lemma digest_chunks chunks d :
  byte_count d = blen (fed d) → blen (fed d ++ concat chunks) < U64 →
  fed (foldl update d chunks) = fed d ++ concat chunks ∧
  byte_count (foldl update d chunks) = blen (fed d ++ concat chunks).
Proof.
  revert d. induction chunks as [|ch chunks IH]; intros d Hd Hb; cbn [foldl concat] in *.
  - by rewrite app_nil_r.
  - rewrite app_assoc in *. apply (IH (update d ch)); [|done].
    cbn [update byte_count fed]. rewrite Hd. unfold wrap64, blen in *.
    rewrite !length_app in *. rewrite N.mod_small; lia.
Qed.

End SettleReceipt.

Module AgentCard.

(** src/crates/common/src/channel.rs:1448-1452 [Skill] *)
Record Skill := { id : bytes; description : bytes; examples : list bytes }.

(** src/crates/common/src/channel.rs:1522-1538 [AgentCard] *)
Record AgentCard := {
  holder_pubkey : bytes;
  role_tags : list bytes;
  skills : list Skill;
  cells : list bytes;
  channels : list bytes;
  issued_at : N;
  expires_at : N;
  signature : bytes;
}.

(** [n as u32], the count before a list. *)
Definition count32 {A} (l : list A) : N := wrap32 (N.of_nat (length l)).

(** src/crates/common/src/channel.rs:1565-1573 [AgentCard::signing_bytes]: one skill. *)
Definition push_skill (p : Preimage) (s : Skill) : Preimage :=
  push_strings (u32 (var_bytes (var_bytes p (id s)) (description s)) (count32 (examples s)))
    (examples s).

(** src/crates/common/src/channel.rs:1546-1583 [AgentCard::signing_bytes] *)
Definition signing_bytes (holder_pubkey : bytes) (role_tags : list bytes) (skills : list Skill)
    (cells channels : list bytes) (issued_at expires_at : N) : bytes :=
  let p := u32 (fixed (new (lit "ct-agent-card-v1")) holder_pubkey) (count32 role_tags) in
  let p := push_strings p role_tags in
  let p := u32 p (count32 skills) in
  let p := foldl push_skill p skills in
  let p := u32 p (count32 cells) in
  let p := foldl fixed p cells in
  let p := u32 p (count32 channels) in
  let p := foldl fixed p channels in
  finish (u64 (u64 p issued_at) expires_at).

(** The preimage of a card's own fields. *)
Definition preimage (c : AgentCard) : bytes :=
  signing_bytes (holder_pubkey c) (role_tags c) (skills c) (cells c) (channels c) (issued_at c)
    (expires_at c).

Section with_ed25519.
Context `{Ed25519}.

(** src/crates/common/src/channel.rs:1589-1610 [AgentCard::is_valid] *)
Definition is_valid (c : AgentCard) (now : N) : bool :=
  if expires_at c <=? now then false
  else sig_verify (holder_pubkey c) (preimage c) (signature c).

(** src/crates/common/src/channel.rs:1622-1654 [AgentCard::sign_new] *)
Definition sign_new (signing_key : SigningKey) (role_tags : list bytes) (skills : list Skill)
    (cells channels : list bytes) (issued_at expires_at : N) : AgentCard :=
  let holder_pubkey := verifying_key signing_key in
  let signature := sign signing_key
    (signing_bytes holder_pubkey role_tags skills cells channels issued_at expires_at) in
  {| holder_pubkey := holder_pubkey; role_tags := role_tags; skills := skills; cells := cells;
     channels := channels; issued_at := issued_at; expires_at := expires_at;
     signature := signature |}.

End with_ed25519.

End AgentCard.

Module Invitation.

(** src/crates/common/src/channel.rs:2650-2664 [ChannelInvitation] *)
Record ChannelInvitation := {
  channel : bytes;
  invitee_identity : bytes;
  direction : Direction;
  rights : Rights;
  delegable : bool;
  expires_at : N;
}.

(** src/crates/common/src/channel.rs:2669-2680 [ChannelInvitation::signing_bytes] *)
Definition signing_bytes (i : ChannelInvitation) : bytes :=
  claims_text (lit "ct-chan-invite:v1") (channel i) (invitee_identity i) (direction i) (rights i)
    (delegable i) (expires_at i).

(** src/crates/common/src/channel.rs:2685-2688 [SignedChannelInvitation] *)
Record SignedChannelInvitation := { invitation : ChannelInvitation; signature : bytes }.

(** src/crates/common/src/channel.rs:2696-2707 [SignedChannelInvitation::encode] *)
Definition encode (s : SignedChannelInvitation) : bytes :=
  let i := invitation s in
  signature s ++ claims_wire (channel i) (invitee_identity i) (direction i) (rights i)
    (delegable i) (expires_at i).

(** src/crates/common/src/channel.rs:2710-2748 [SignedChannelInvitation::decode] *)
Definition decode (b : bytes) : Result SignedChannelInvitation GrantError :=
  p <-? take_field b 64; let '(signature, cur) := p in
  p <-? take_field cur 32; let '(channel, cur) := p in
  p <-? take_field cur 32; let '(invitee_identity, cur) := p in
  p <-? take_field cur 1; let '(d, cur) := p in
  direction <-? ok_or (head d ≫= Direction.from_byte) Malformed;
  p <-? take_field cur 1; let '(r, cur) := p in
  rights <-? ok_or (head r ≫= Rights.from_byte) Malformed;
  p <-? take_field cur 1; let '(f, cur) := p in
  delegable <-? ok_or (head f ≫= flag_of) Malformed;
  p <-? take_field cur 8; let '(e, cur) := p in
  if negb (length cur =? 0)%nat then Err Malformed
  else Ok {| invitation := {| channel := channel; invitee_identity := invitee_identity;
                              direction := direction; rights := rights; delegable := delegable;
                              expires_at := le_val e |};
             signature := signature |}.

(** The grant with the same claims, for a holder in place of the invitee. *)
Definition grant_for (i : ChannelInvitation) (holder : bytes) : ChannelGrant :=
  {| ChannelGrant.channel := channel i; ChannelGrant.holder := holder;
     ChannelGrant.direction := direction i; ChannelGrant.rights := rights i;
     ChannelGrant.delegable := delegable i; ChannelGrant.expires_at := expires_at i |}.

(** An invitation read as a grant: the wire forms are the same. *)
Definition as_grant (s : SignedChannelInvitation) : SignedChannelGrant :=
  {| SignedChannelGrant.grant := grant_for (invitation s) (invitee_identity (invitation s));
     SignedChannelGrant.signature := signature s |}.

Lemma decode_as_grant b s :
  decode b = Ok s ↔ SignedChannelGrant.decode b = Ok (as_grant s).
Proof.
  unfold decode, SignedChannelGrant.decode.
  repeat match goal with
  | |- context [rbind (take_field ?c ?n) _] => destruct (take_field c n) as [[? ?]|]; cbn [rbind]; [|done]
  | |- context [rbind (ok_or ?o _) _] => destruct o; cbn [rbind ok_or]; [|done]
  end.
  destruct (negb _); [done|]. split.
  - by intros [= <-].
  - intros [=]. destruct s as [[] ?]; cbn in *. congruence.
Qed.

Lemma invitation_decode_iff b s : decode b = Ok s ↔ grant_ok (as_grant s) ∧ b = encode s.
Proof.
  rewrite decode_as_grant. change (encode s) with (SignedChannelGrant.encode (as_grant s)). split.
  - apply SignedChannelGrant.grant_decode_shape.
  - intros [H ->]. by apply SignedChannelGrant.grant_decode_encode.
Qed.

Section with_ed25519.
Context `{Ed25519}.

(** src/crates/common/src/channel.rs:2756-2769 [verify_invitation] *)
Definition verify_invitation (operator_pubkey : bytes) (signed : SignedChannelInvitation)
    (now : N) : Result () GrantError :=
  if negb (key_ok operator_pubkey) then Err BadKey
  else if negb (ed_verify operator_pubkey (signing_bytes (invitation signed)) (signature signed))
  then Err BadSignature
  else if expires_at (invitation signed) <=? now then Err Expired
  else Ok ().

(** src/crates/common/src/channel.rs:2778-2789 [invitation_redeem_bytes] *)
Definition invitation_redeem_bytes (channel invitee_identity holder : bytes) : bytes :=
  lit "ct-chan-invite-redeem-v1" ++ channel ++ invitee_identity ++ holder.

(** src/crates/common/src/channel.rs:2795-2810 [verify_invitation_redemption] *)
Definition verify_invitation_redemption (channel invitee_identity holder signature : bytes)
    : bool :=
  sig_verify invitee_identity (invitation_redeem_bytes channel invitee_identity holder) signature.

(** src/crates/common/src/channel.rs:2819-2832 [invitation_redeem_challenge_bytes] *)
Definition invitation_redeem_challenge_bytes (channel invitee_identity holder challenge : bytes)
    : bytes :=
  lit "ct-chan-invite-redeem-v2-chal" ++ channel ++ invitee_identity ++ holder ++ challenge.

(** src/crates/common/src/channel.rs:2839-2855 [verify_invitation_redemption_challenge] *)
Definition verify_invitation_redemption_challenge (channel invitee_identity holder challenge
    signature : bytes) : bool :=
  sig_verify invitee_identity
    (invitation_redeem_challenge_bytes channel invitee_identity holder challenge) signature.

(** src/crates/common/src/channel.rs:2877-2897 [redeem_invitation] *)
Definition redeem_invitation (operator_pubkey : bytes) (signed : SignedChannelInvitation)
    (redeem_signature holder : bytes) (now : N) : Result ChannelGrant GrantError :=
  _u <-? verify_invitation operator_pubkey signed now;
  let inv := invitation signed in
  if negb (verify_invitation_redemption (channel inv) (invitee_identity inv) holder
             redeem_signature)
  then Err BadSignature
  else Ok {| ChannelGrant.channel := channel inv; ChannelGrant.holder := holder;
             ChannelGrant.direction := direction inv; ChannelGrant.rights := rights inv;
             ChannelGrant.delegable := delegable inv; ChannelGrant.expires_at := expires_at inv |}.

Lemma verify_invitation_iff operator signed now :
  (verify_invitation operator signed now = Ok () ↔
   sig_verify operator (signing_bytes (invitation signed)) (signature signed) = true ∧
   now < expires_at (invitation signed)) ∧
  (verify_invitation operator signed now = Err BadKey ↔ key_ok operator = false) ∧
  (verify_invitation operator signed now = Err Expired ↔
   sig_verify operator (signing_bytes (invitation signed)) (signature signed) = true ∧
   expires_at (invitation signed) <= now).
Proof.
  unfold verify_invitation, sig_verify.
  destruct (key_ok operator); cbn [negb]; [|naive_solver].
  destruct (ed_verify _ _ _); cbn [negb]; [|naive_solver].
  destruct (_ <=? now) eqn:X; bool_facts; (split; [|split]); (split; [done || lia|]);
    intros; destruct_and?; try done; lia.
Qed.

(** Redeeming an invitation needs both proofs and grants nothing more than invited: it
    yields claims exactly when the operator's signature covers the invitation, it has not
    expired, and the invited identity signed for this channel and this holder; the
    claims are then the invitation's channel, direction, rights, delegability and expiry
    for that holder. Each missing proof is reported by its own error. *)
Theorem redeem_invitation_iff operator signed sig holder now :
  let i := invitation signed in
  (∀ g, redeem_invitation operator signed sig holder now = Ok g ↔
     sig_verify operator (signing_bytes i) (signature signed) = true ∧ now < expires_at i ∧
     sig_verify (invitee_identity i)
       (invitation_redeem_bytes (channel i) (invitee_identity i) holder) sig = true ∧
     g = grant_for i holder) ∧
  (redeem_invitation operator signed sig holder now = Err BadKey ↔ key_ok operator = false) ∧
  (redeem_invitation operator signed sig holder now = Err Expired ↔
     sig_verify operator (signing_bytes i) (signature signed) = true ∧ expires_at i <= now).
Proof.
  cbv zeta. unfold redeem_invitation, verify_invitation_redemption.
  destruct (verify_invitation_iff operator signed now) as (H1 & H2 & H3).
  rewrite <- H2, <- H3. clear H2 H3.
  destruct (verify_invitation operator signed now) as [[]|e]; cbn [rbind].
  - destruct (proj1 H1 eq_refl) as [V X].
    destruct (sig_verify (invitee_identity _) _ _) eqn:R; cbn [negb];
      (split; [intros g|by split; split; intros ?; simplify_eq]).
    + split; [by intros [= <-]|by intros (_ & _ & _ & ->)].
    + split; [done|by intros (_ & _ & ? & _)].
  - split; [intros g|split; split; intros ?; by simplify_eq].
    split; [done|]. intros (? & ? & _). assert (@Err () _ e = Ok ()) by (by apply H1). done.
Qed.

End with_ed25519.

(** src/crates/common/src/channel.rs:2904-2912 [grant_revoke_signing_bytes] *)
Definition grant_revoke_signing_bytes (channel grant_digest : bytes) (expires_at : N) : bytes :=
  lit "ct-grant-revoke:v1|" ++ channel ++ lit "|" ++ grant_digest ++ lit "|"
    ++ u64_le expires_at.

(** src/crates/common/src/channel.rs:2916-2924 [channel_leave_signing_bytes] *)
Definition channel_leave_signing_bytes (channel holder : bytes) (ts : N) : bytes :=
  lit "ct-channel-leave:v1|" ++ channel ++ lit "|" ++ holder ++ lit "|" ++ u64_le ts.

(** src/crates/common/src/channel.rs:2928-2938 [grant_status_signing_bytes] *)
Definition grant_status_signing_bytes (channel peer grant_digest : bytes) (ts : N) : bytes :=
  lit "ct-grant-status:v1|" ++ channel ++ lit "|" ++ peer ++ lit "|" ++ grant_digest
    ++ lit "|" ++ u64_le ts.

End Invitation.

(** C32 The channel plane's wire forms are exact: the decoders of signed grants,
    invitations, membership staples and join requests accept exactly the encodings of
    well-formed values, each as the value it encodes, so no truncated, padded or
    mistagged buffer is ever half-trusted. *)
Theorem channel_wire_exact b :
  (∀ s, SignedChannelGrant.decode b = Ok s ↔ grant_ok s ∧ b = SignedChannelGrant.encode s) ∧
  (∀ i, Invitation.decode b = Ok i ↔ grant_ok (Invitation.as_grant i) ∧ b = Invitation.encode i) ∧
  (∀ s, MembershipStaple.decode b = Ok s ↔
     MembershipStaple.staple_ok s ∧ b = MembershipStaple.encode s) ∧
  (∀ j, ChannelJoinRequest.decode b = Ok j ↔
     ChannelJoinRequest.join_ok j ∧ b = ChannelJoinRequest.encode j).
Proof.
  repeat apply conj.
  - intros s. split; [apply SignedChannelGrant.grant_decode_shape|]. intros [H ->].
    by apply SignedChannelGrant.grant_decode_encode.
  - apply Invitation.invitation_decode_iff.
  - apply MembershipStaple.staple_decode_iff.
  - apply ChannelJoinRequest.join_decode_iff.
Qed.
