(* ===== verification/Reach.v ===== *)
(** * Reachability: address classes and superpeer election

    [crates/common/src/channel.rs], the part that decides which addresses may be dialled
    and which members serve as superpeers. Addresses are [std::net] values: four octets,
    or eight 16-bit segments, with the class tests of the standard library written out. *)

From S2P Require Import Prelude RustStd Maps Interfaces Codec Channels.

Module Address.

(** [Ipv4Addr]: its octets. [Ipv6Addr]: its segments. *)
Record Ipv4Addr := V4 { o0 : N; o1 : N; o2 : N; o3 : N }.
Record Ipv6Addr := V6 { s0 : N; s1 : N; s2 : N; s3 : N; s4 : N; s5 : N; s6 : N; s7 : N }.
Inductive IpAddr := Ip4 (a : Ipv4Addr) | Ip6 (a : Ipv6Addr).

(** [SocketAddr]; flow and scope are 0 for IPv4. *)
Record SocketAddr := { ip : IpAddr; port : N; flowinfo : N; scope_id : N }.

#[global] Instance ipv4_eq_dec : EqDecision Ipv4Addr.
Proof. solve_decision. Defined.
#[global] Instance ipv6_eq_dec : EqDecision Ipv6Addr.
Proof. solve_decision. Defined.
#[global] Instance ip_eq_dec : EqDecision IpAddr.
Proof. solve_decision. Defined.
#[global] Instance socket_eq_dec : EqDecision SocketAddr.
Proof. solve_decision. Defined.

(** The widths: octets and segments. *)
Definition ipv4_ok (a : Ipv4Addr) : Prop := o0 a < 256 ∧ o1 a < 256 ∧ o2 a < 256 ∧ o3 a < 256.

(** The class tests of [std::net::Ipv4Addr]. *)
Definition v4_is_loopback (a : Ipv4Addr) : bool := o0 a =? 127.
Definition v4_is_unspecified (a : Ipv4Addr) : bool :=
  (o0 a =? 0) && (o1 a =? 0) && (o2 a =? 0) && (o3 a =? 0).
Definition v4_is_multicast (a : Ipv4Addr) : bool := in_range 224 239 (o0 a).
Definition v4_is_private (a : Ipv4Addr) : bool :=
  (o0 a =? 10) || ((o0 a =? 172) && in_range 16 31 (o1 a)) || ((o0 a =? 192) && (o1 a =? 168)).
Definition v4_is_link_local (a : Ipv4Addr) : bool := (o0 a =? 169) && (o1 a =? 254).

(** The class tests of [std::net::Ipv6Addr]. *)
Definition head_zero (a : Ipv6Addr) : bool :=
  (s0 a =? 0) && (s1 a =? 0) && (s2 a =? 0) && (s3 a =? 0) && (s4 a =? 0).
Definition v6_is_loopback (a : Ipv6Addr) : bool :=
  head_zero a && (s5 a =? 0) && (s6 a =? 0) && (s7 a =? 1).
Definition v6_is_unspecified (a : Ipv6Addr) : bool :=
  head_zero a && (s5 a =? 0) && (s6 a =? 0) && (s7 a =? 0).
Definition v6_is_multicast (a : Ipv6Addr) : bool := N.land (s0 a) 0xff00 =? 0xff00.
Definition embedded (a : Ipv6Addr) : Ipv4Addr :=
  V4 (s6 a / 256) (s6 a mod 256) (s7 a / 256) (s7 a mod 256).
Definition to_ipv4_mapped (a : Ipv6Addr) : option Ipv4Addr :=
  if head_zero a && (s5 a =? 0xffff) then Some (embedded a) else None.
Definition to_ipv4 (a : Ipv6Addr) : option Ipv4Addr :=
  if head_zero a && ((s5 a =? 0) || (s5 a =? 0xffff)) then Some (embedded a) else None.

Definition is_loopback (i : IpAddr) : bool :=
  match i with Ip4 a => v4_is_loopback a | Ip6 a => v6_is_loopback a end.
Definition is_unspecified (i : IpAddr) : bool :=
  match i with Ip4 a => v4_is_unspecified a | Ip6 a => v6_is_unspecified a end.
Definition is_multicast (i : IpAddr) : bool :=
  match i with Ip4 a => v4_is_multicast a | Ip6 a => v6_is_multicast a end.

(** src/crates/common/src/channel.rs:595-608 [is_global_unicast_v4] *)
Definition is_global_unicast_v4 (v4 : Ipv4Addr) : bool :=
  if v4_is_loopback v4 || v4_is_unspecified v4 || v4_is_multicast v4 then false
  else if v4_is_private v4 || v4_is_link_local v4 then false
  else if (o0 v4 =? 100) && in_range 64 127 (o1 v4) then false
  else true.

(** src/crates/common/src/channel.rs:557-587 [is_global_unicast] *)
Definition is_global_unicast (addr : SocketAddr) : bool :=
  let i := ip addr in
  if is_loopback i || is_unspecified i || is_multicast i then false
  else
    match i with
    | Ip4 v4 => is_global_unicast_v4 v4
    | Ip6 v6 =>
      match (match to_ipv4_mapped v6 with Some v4 => Some v4 | None => to_ipv4 v6 end) with
      | Some v4 => is_global_unicast_v4 v4
      | None =>
        if N.land (s0 v6) 0xfe00 =? 0xfc00 then false
        else if N.land (s0 v6) 0xffc0 =? 0xfe80 then false
        else true
      end
    end.

(** src/crates/common/src/channel.rs:638-657 [same_local_subnet] *)
Definition same_local_subnet (local candidate : IpAddr) : bool :=
  match local, candidate with
  | Ip4 l, Ip4 c =>
    if negb (v4_is_private c || v4_is_link_local c) then false
    else (o0 l =? o0 c) && (o1 l =? o1 c) && (o2 l =? o2 c)
  | Ip6 l, Ip6 c =>
    let c_is_ula_or_link_local :=
      (N.land (s0 c) 0xfe00 =? 0xfc00) || (N.land (s0 c) 0xffc0 =? 0xfe80) in
    if negb c_is_ula_or_link_local then false
    else (s0 l =? s0 c) && (s1 l =? s1 c) && (s2 l =? s2 c) && (s3 l =? s3 c)
  | _, _ => false
  end.

(** ** The refused ranges, as intervals of the address space *)

Definition v4_value (a : Ipv4Addr) : N := ((o0 a * 256 + o1 a) * 256 + o2 a) * 256 + o3 a.

(** First and last address: 0.0.0.0, 10/8, 100.64/10, 127/8, 169.254/16, 172.16/12,
    192.168/16 and 224/4. *)
Definition refused_v4 : list (N * N) :=
  [(0, 0); (0x0A000000, 0x0AFFFFFF); (0x64400000, 0x647FFFFF); (0x7F000000, 0x7FFFFFFF);
   (0xA9FE0000, 0xA9FEFFFF); (0xAC100000, 0xAC1FFFFF); (0xC0A80000, 0xC0A8FFFF);
   (0xE0000000, 0xEFFFFFFF)].

Definition in_intervals (l : list (N * N)) (n : N) : Prop :=
  Exists (λ p, p.1 <= n ∧ n <= p.2) l.

Lemma refused_or l n : ¬ in_intervals l n ↔ Forall (λ p, n < p.1 ∨ p.2 < n) l.
Proof.
  unfold in_intervals. induction l as [|p l IH].
  - rewrite Exists_nil. split; [by constructor|tauto].
  - rewrite Exists_cons, Forall_cons_iff, <- IH. split; [intros H|].
    + split; [|tauto]. destruct (decide (n < p.1)); [by left|]. right. apply N.nle_gt.
      intros ?. apply H. left. lia.
    + intros [H1 H2] [?|?]; [lia|done].
Qed.

(** The tests of the code, as one proposition on the octets. *)
Lemma global_v4_octets a b c d :
  is_global_unicast_v4 (V4 a b c d) = true ↔
  a ≠ 127 ∧ (a ≠ 0 ∨ b ≠ 0 ∨ c ≠ 0 ∨ d ≠ 0) ∧ (a < 224 ∨ 239 < a) ∧ a ≠ 10 ∧
  (a ≠ 172 ∨ b < 16 ∨ 31 < b) ∧ (a ≠ 192 ∨ b ≠ 168) ∧ (a ≠ 169 ∨ b ≠ 254) ∧
  (a ≠ 100 ∨ b < 64 ∨ 127 < b).
Proof.
  unfold is_global_unicast_v4, v4_is_loopback, v4_is_unspecified, v4_is_multicast,
    v4_is_private, v4_is_link_local, in_range. cbn [o0 o1 o2 o3].
  repeat match goal with
  | |- context [if ?b then false else ?x] =>
    replace (if b then false else x) with (negb b && x) by (by destruct b)
  end.
  rewrite !andb_true_iff, !negb_true_iff, !orb_false_iff, !andb_false_iff, !N.eqb_neq, !N.leb_gt.
  tauto.
Qed.

Lemma global_v4_iff a :
  ipv4_ok a → is_global_unicast_v4 a = true ↔ ¬ in_intervals refused_v4 (v4_value a).
Proof.
  destruct a as [a b c d]. intros (H0 & H1 & H2 & H3). cbn [o0 o1 o2 o3] in *.
  rewrite global_v4_octets, refused_or. unfold refused_v4, v4_value.
  rewrite !Forall_cons_iff. cbn [fst snd o0 o1 o2 o3]. split.
  - intros (A & B & C & D & E & F & G & I). split_and!; try lia. constructor.
  - intros (A & B & C & D & E & F & G & I & _). split_and!; lia.
Qed.

(** A socket address with the given IP. *)
Definition at_ip (i : IpAddr) (a : SocketAddr) : SocketAddr :=
  {| ip := i; port := port a; flowinfo := flowinfo a; scope_id := scope_id a |}.

Lemma global_v4_socket v4 s : is_global_unicast (at_ip (Ip4 v4) s) = is_global_unicast_v4 v4.
Proof.
  unfold is_global_unicast, is_global_unicast_v4. cbn [at_ip ip is_loopback is_unspecified is_multicast].
  by destruct (_ || _ || _).
Qed.

Lemma mapped_head v6 v4 : to_ipv4_mapped v6 = Some v4 → head_zero v6 = true ∧ s5 v6 = 0xffff ∧ v4 = embedded v6.
Proof.
  unfold to_ipv4_mapped. destruct (_ && _) eqn:E; [|done]. intros [= <-]. by bool_facts.
Qed.

Lemma ula_not_mapped v6 :
  (N.land (s0 v6) 0xfe00 =? 0xfc00) || (N.land (s0 v6) 0xffc0 =? 0xfe80) = true →
  head_zero v6 = false.
Proof.
  unfold head_zero. destruct (s0 v6 =? 0) eqn:E; [|done]. bool_facts. rewrite E. done.
Qed.

(** The dial filter is exact and cannot be bypassed by address family: an IPv4 socket
    address passes iff it is outside the refused ranges (unspecified, loopback, private,
    shared, link-local, multicast); an IPv4 address wrapped as an IPv4-mapped IPv6
    address passes iff the wrapped one does; and no candidate the local fast path accepts
    is one that the global filter would pass. *)
Theorem dial_filter_exact s :
  (∀ a, ipv4_ok a →
     (is_global_unicast (at_ip (Ip4 a) s) = true ↔ ¬ in_intervals refused_v4 (v4_value a))) ∧
  (∀ v6 v4, to_ipv4_mapped v6 = Some v4 →
     is_global_unicast (at_ip (Ip6 v6) s) = is_global_unicast (at_ip (Ip4 v4) s)) ∧
  (∀ local c, same_local_subnet local c = true → is_global_unicast (at_ip c s) = false).
Proof.
  split; [|split].
  - intros a Ha. rewrite global_v4_socket. by apply global_v4_iff.
  - intros v6 v4 E. rewrite global_v4_socket. pose proof (mapped_head _ _ E) as (Hz & H5 & ->).
    unfold is_global_unicast. cbn [at_ip ip is_loopback is_unspecified is_multicast].
    unfold v6_is_loopback, v6_is_unspecified. rewrite H5, E. change (0xffff =? 0) with false. rewrite !andb_false_r.
    assert (v6_is_multicast v6 = false) as ->; [|done].
    unfold head_zero in Hz. bool_facts. unfold v6_is_multicast. by rewrite H.
  - intros [l|l] [c|c]; cbn [same_local_subnet]; try done.
    + destruct (_ || _) eqn:E; [|done]. intros _. rewrite global_v4_socket.
      unfold is_global_unicast_v4. rewrite E. by destruct (_ || _ || _).
    + destruct (_ || _) eqn:E; [|done]. intros _. pose proof (ula_not_mapped c E) as Hz.
      unfold is_global_unicast. cbn [at_ip ip is_loopback is_unspecified is_multicast].
      unfold to_ipv4_mapped, to_ipv4. rewrite Hz. cbn [andb].
      destruct (_ || _ || _); [done|]. destruct (_ =? 0xfc00); [done|].
      cbn in E. by rewrite E.
Qed.

(** The cloud metadata address is refused, also in its IPv4-mapped form. *)
Lemma dial_filter_exact_witness :
  let s := {| ip := Ip4 (V4 0 0 0 0); port := 80; flowinfo := 0; scope_id := 0 |} in
  is_global_unicast (at_ip (Ip6 (V6 0 0 0 0 0 0xffff 0xA9FE 0xA9FE)) s) = false.
Proof.
  intros s. rewrite (proj1 (proj2 (dial_filter_exact s)) (V6 0 0 0 0 0 0xffff 0xA9FE 0xA9FE)
    (V4 169 254 169 254) eq_refl).
  reflexivity.
Defined.

(** The filter's comment says that only a global-unicast address passes; the limited
    broadcast address and the reserved block 240/4 pass too. *)
Lemma broadcast_passes :
  is_global_unicast_v4 (V4 255 255 255 255) = true ∧ is_global_unicast_v4 (V4 240 0 0 1) = true.
Proof. done. Qed.

End Address.

Module Superpeers.
Import Address.

(** src/crates/common/src/channel.rs:664-675 [Reachability] *)
Inductive Reachability := Public | Nat (reflexive : SocketAddr) | RelayOnly.

#[global] Instance reachability_eq_dec : EqDecision Reachability.
Proof. solve_decision. Defined.

(** src/crates/common/src/channel.rs:714-718 [should_attempt_direct_upgrade] *)
Definition should_attempt_direct_upgrade (own peer : Reachability) : bool :=
  let punchable r := match r with RelayOnly => false | _ => true end in
  punchable own && punchable peer.

(** src/crates/common/src/channel.rs:725-728 [MemberReachability] *)
Record MemberReachability := { holder : bytes; reachability : Reachability }.

(** [Vec::dedup]: consecutive repeats go. *)
Fixpoint dedup (l : list bytes) : list bytes :=
  match l with
  | [] => []
  | x :: l' =>
    match l' with
    | y :: _ => if bool_decide (x = y) then dedup l' else x :: dedup l'
    | [] => [x]
    end
  end.

(** src/crates/common/src/channel.rs:746-761 [elect_superpeers] *)
Definition elect_superpeers (members : list MemberReachability) (veto : list bytes) (count : nat)
    : list bytes :=
  let eligible := filter (λ h, h ∉ veto)
    (holder <$> filter (λ m, reachability m = Public) members) in
  take count (dedup (merge_sort bytes_le eligible)).

(** A member that may serve: publicly reachable and not vetoed. *)
Definition eligible (members : list MemberReachability) (veto : list bytes) (h : bytes) : Prop :=
  (∃ m, m ∈ members ∧ reachability m = Public ∧ holder m = h) ∧ h ∉ veto.

#[local] Instance bytes_le_total_inst : Total bytes_le.
Proof. intros a b. apply bytes_le_total. Qed.
#[local] Instance bytes_le_trans_inst : Transitive bytes_le.
Proof. intros a b c. apply bytes_le_trans. Qed.

Definition bytes_lt (a b : bytes) : Prop := bytes_le a b ∧ a ≠ b.

Lemma elem_of_dedup x l : x ∈ dedup l ↔ x ∈ l.
Proof.
  induction l as [|a [|b l] IH]; [done|done|]. cbn [dedup] in *.
  case_bool_decide as D.
  - rewrite IH, (elem_of_cons (b :: l) x a), elem_of_cons. naive_solver.
  - rewrite elem_of_cons, IH, !elem_of_cons. done.
Qed.

Lemma dedup_sorted l : StronglySorted bytes_le l → StronglySorted bytes_lt (dedup l).
Proof.
  induction l as [|a l IH]; [constructor|]. intros [Hl Ha]%StronglySorted_inv. specialize (IH Hl).
  destruct l as [|b l]; [by repeat constructor|]. cbn [dedup] in *. case_bool_decide as D; [done|].
  constructor; [done|]. apply list.Forall_forall. intros x Hx.
  rewrite list.Forall_forall in Ha. assert (x ∈ b :: l) as Hx' by (by apply elem_of_dedup).
  split; [by apply Ha|]. intros <-.
  apply elem_of_cons in Hx' as [?|Hin]; [done|].
  apply StronglySorted_inv in Hl as [_ Hb]. rewrite list.Forall_forall in Hb.
  apply D, bytes_le_antisym; [apply Ha; by left|by apply Hb].
Qed.

Lemma sorted_unique l1 l2 :
  StronglySorted bytes_lt l1 → StronglySorted bytes_lt l2 → (∀ x, x ∈ l1 ↔ x ∈ l2) → l1 = l2.
Proof.
  revert l2. induction l1 as [|a l1 IH]; intros [|b l2] S1 S2 Hx.
  - done.
  - exfalso. eapply (not_elem_of_nil b), Hx. by left.
  - exfalso. eapply (not_elem_of_nil a), Hx. by left.
  - apply StronglySorted_inv in S1 as [S1 A1], S2 as [S2 A2].
    rewrite list.Forall_forall in A1, A2.
    assert (a = b) as ->.
    { destruct (proj1 (elem_of_cons _ _ _) (proj1 (Hx a) (list_elem_of_here _ _))) as [?|Ha]; [done|].
      destruct (proj1 (elem_of_cons _ _ _) (proj2 (Hx b) (list_elem_of_here _ _))) as [?|Hb]; [done|].
      apply bytes_le_antisym; [by apply A1|by apply A2]. }
    f_equal. apply IH; [done..|]. intros x. specialize (Hx x). rewrite !elem_of_cons in Hx.
    split; intros Hin.
    + destruct (proj1 Hx (or_intror Hin)) as [->|?]; [|done]. by destruct (A1 _ Hin).
    + destruct (proj2 Hx (or_intror Hin)) as [->|?]; [|done]. by destruct (A2 _ Hin).
Qed.

(** The whole ranking, before it is cut to [count]. *)
Definition ranking (members : list MemberReachability) (veto : list bytes) : list bytes :=
  dedup (merge_sort bytes_le
    (filter (λ h, h ∉ veto) (holder <$> filter (λ m, reachability m = Public) members))).

Lemma elem_of_ranking members veto h : h ∈ ranking members veto ↔ eligible members veto h.
Proof.
  unfold ranking, eligible. rewrite elem_of_dedup, merge_sort_Permutation, list_elem_of_filter.
  rewrite list_elem_of_fmap. setoid_rewrite list_elem_of_filter. naive_solver.
Qed.

Lemma ranking_sorted members veto : StronglySorted bytes_lt (ranking members veto).
Proof. apply dedup_sorted, (StronglySorted_merge_sort bytes_le); apply _. Qed.

Lemma sorted_split {A} (R : relation A) l1 l2 x y :
  StronglySorted R (l1 ++ l2) → x ∈ l1 → y ∈ l2 → R x y.
Proof. intros S Hx Hy. by eapply StronglySorted_app_1_elem_of. Qed.

(** Superpeer election needs no coordinator: the winners are publicly reachable and
    unvetoed, listed in strictly ascending key order without repeats; they are the [count]
    smallest such keys (all of them when there are fewer, so an empty result means nobody
    is eligible or none was asked for); and two nodes whose views name the same eligible
    members, in any order and multiplicity, elect the same list. *)
Theorem elect_superpeers_exact members veto count :
  let elected := elect_superpeers members veto count in
  StronglySorted bytes_lt elected ∧
  (∀ h, h ∈ elected → eligible members veto h) ∧
  (∀ h, eligible members veto h → h ∉ elected →
     length elected = count ∧ ∀ w, w ∈ elected → bytes_lt w h) ∧
  (∀ members' veto', (∀ h, eligible members veto h ↔ eligible members' veto' h) →
     elect_superpeers members' veto' count = elected).
Proof.
  cbv zeta. change (elect_superpeers ?m ?v count) with (take count (ranking m v)).
  pose proof (ranking_sorted members veto) as S.
  pose proof (take_drop count (ranking members veto)) as E.
  split; [|split; [|split]].
  - rewrite <- E in S. by apply StronglySorted_app_1_l in S.
  - intros h Hh. apply elem_of_ranking. rewrite <- E. apply elem_of_app. by left.
  - intros h Hh%elem_of_ranking Hn. rewrite <- E in Hh. apply elem_of_app in Hh as [?|Hd]; [done|].
    split.
    + rewrite length_take. apply Nat.min_l. destruct (decide (count ≤ length (ranking members veto))%nat); [done|].
      rewrite drop_ge in Hd by lia. by apply elem_of_nil in Hd.
    + intros w Hw. rewrite <- E in S. by eapply sorted_split.
  - intros members' veto' Hel. f_equal. apply sorted_unique; [apply ranking_sorted|done|].
    intros h. by rewrite !elem_of_ranking, Hel.
Qed.

Lemma elect_superpeers_exact_witness :
  let m k r := {| holder := replicate 32 k; reachability := r |} in
  let members := [m x03 Public; m x01 RelayOnly; m x02 Public; m x03 Public; m x04 Public] in
  elect_superpeers members [replicate 32 x02] 1 = [replicate 32 x03] ∧
  eligible members [replicate 32 x02] (replicate 32 x03).
Proof.
  intros m members.
  assert (elect_superpeers members [replicate 32 x02] 1 = [replicate 32 x03]) as E
    by (vm_compute; reflexivity).
  split; [exact E|].
  apply (proj1 (proj2 (elect_superpeers_exact members [replicate 32 x02] 1))).
  rewrite E. left.
Defined.

End Superpeers.
