(* ===== verification/Binding.v ===== *)
(** * The signed agent binding

    [crates/common/src/agent_binding.rs]: the statement of an issuer that one key may register
    for one routing token, its wire form, and the two signatures a registration is verified by.
    SHA-256, the keys' parser and [verify_strict] come from crates and are parameters. *)

From S2P Require Import Prelude RustStd Interfaces Codec.
Import Codec.Preimage.

Module Binding.

(** src/crates/common/src/agent_binding.rs:26-26 [CLOCK_SKEW_SECS] *)
Definition CLOCK_SKEW_SECS : N := 300.
(** src/crates/common/src/agent_binding.rs:32-32 [MAX_ENCODED_LEN] *)
Definition MAX_ENCODED_LEN : nat := 512.
(** src/crates/common/src/agent_binding.rs:35-35 [MAX_TUNNEL_ID_LEN] *)
Definition MAX_TUNNEL_ID_LEN : nat := 128.

(** src/crates/common/src/agent_binding.rs:39-56 [AgentBindingError] *)
Inductive AgentBindingError :=
| Malformed | TunnelIdTooLong | TokenMismatch | Expired | IssuedInFuture | UnknownIssuer
| BadSignature | BadKey.

(** src/crates/common/src/agent_binding.rs:83-89 [AgentBinding] *)
Record AgentBinding := {
  tunnel_id : bytes; token_hash : bytes; agent_pubkey : bytes; issued_at : N; expires_at : N }.

(** src/crates/common/src/agent_binding.rs:111-114 [SignedAgentBinding] *)
Record SignedAgentBinding := { binding : AgentBinding; signature : bytes }.

(** src/crates/common/src/agent_binding.rs:93-101 [AgentBinding::signing_bytes] *)
Definition signing_bytes (b : AgentBinding) : bytes :=
  finish (u64 (u64 (fixed (fixed (var_bytes (new (lit "ct-agent-binding:v1")) (tunnel_id b))
    (token_hash b)) (agent_pubkey b)) (issued_at b)) (expires_at b)).

(** src/crates/common/src/agent_binding.rs:125-136 [SignedAgentBinding::encode] *)
Definition encode (s : SignedAgentBinding) : bytes :=
  let b := binding s in
  signature s ++ u32_le (wrap32 (blen (tunnel_id b))) ++ tunnel_id b ++ token_hash b
    ++ agent_pubkey b ++ u64_le (issued_at b) ++ u64_le (expires_at b).

(** src/crates/common/src/agent_binding.rs:147-154 [take] *)
Definition take_bytes (cur : bytes) (n : nat) : Result (bytes * bytes) AgentBindingError :=
  ok_or (take_cur cur n) Malformed.

(** src/crates/common/src/agent_binding.rs:142-189 [SignedAgentBinding::decode] *)
Definition decode (bs : bytes) : Result SignedAgentBinding AgentBindingError :=
  if (MAX_ENCODED_LEN <? length bs)%nat then Err Malformed
  else
    p <-? take_bytes bs 64; let '(signature, cur) := p in
    p <-? take_bytes cur 4; let '(n, cur) := p in
    let tunnel_id_len := N.to_nat (le_val n) in
    if (MAX_TUNNEL_ID_LEN <? tunnel_id_len)%nat then Err TunnelIdTooLong
    else
      p <-? take_bytes cur tunnel_id_len; let '(id, cur) := p in
      tunnel_id <-? ok_or (from_utf8 id) Malformed;
      p <-? take_bytes cur 32; let '(token_hash, cur) := p in
      p <-? take_bytes cur 32; let '(agent_pubkey, cur) := p in
      p <-? take_bytes cur 8; let '(issued, cur) := p in
      p <-? take_bytes cur 8; let '(expires, cur) := p in
      if negb (length cur =? 0)%nat then Err Malformed
      else Ok {| binding := {| tunnel_id := tunnel_id; token_hash := token_hash;
                               agent_pubkey := agent_pubkey; issued_at := le_val issued;
                               expires_at := le_val expires |};
                 signature := signature |}.

(** src/crates/common/src/agent_binding.rs:238-243 [registration_challenge_bytes] *)
Definition registration_challenge_bytes (nonce token : bytes) : bytes :=
  finish (var_bytes (fixed (new (lit "ct-agent-reg:v1")) nonce) token).

(** The widths of the Rust types, and a tunnel identifier within its bound. *)
Definition binding_ok (b : AgentBinding) : Prop :=
  utf8_valid (tunnel_id b) = true ∧ (length (tunnel_id b) ≤ MAX_TUNNEL_ID_LEN)%nat ∧
  length (token_hash b) = 32%nat ∧ length (agent_pubkey b) = 32%nat ∧
  u64_ok (issued_at b) ∧ u64_ok (expires_at b).
Definition signed_ok (s : SignedAgentBinding) : Prop :=
  binding_ok (binding s) ∧ length (signature s) = 64%nat.

Section with_ed25519.
Context (sha256 : bytes → bytes).
(** [VerifyingKey::from_bytes(key).is_ok()] and [key.verify_strict(message, signature).is_ok()];
    [key.sign(message)]. *)
Context (key_ok : bytes → bool) (verify_strict : bytes → bytes → bytes → bool).
Context {SigningKey : Type} (sign : SigningKey → bytes → bytes).

(** src/crates/common/src/agent_binding.rs:104-106 [AgentBinding::key_fingerprint] *)
Definition key_fingerprint (b : AgentBinding) : bytes := sha256 (agent_pubkey b).

(** src/crates/common/src/agent_binding.rs:118-121 [SignedAgentBinding::mint] *)
Definition mint (signing_key : SigningKey) (b : AgentBinding) : SignedAgentBinding :=
  {| binding := b; signature := sign signing_key (signing_bytes b) |}.

(** src/crates/common/src/agent_binding.rs:225-231 [verify_binding]: one issuer. *)
Definition issued_by (message sig issuer : bytes) : bool :=
  key_ok issuer && verify_strict issuer message sig.

(** src/crates/common/src/agent_binding.rs:198-233 [verify_binding] *)
Definition verify_binding (issuers : list bytes) (signed : SignedAgentBinding) (token : bytes)
    (now : N) : Result () AgentBindingError :=
  let b := binding signed in
  if (MAX_TUNNEL_ID_LEN <? length (tunnel_id b))%nat then Err TunnelIdTooLong
  else if negb (Ct.eq (token_hash b) (sha256 token)) then Err TokenMismatch
  else if expires_at b <=? now then Err Expired
  else if saturating_add64 now CLOCK_SKEW_SECS <? issued_at b then Err IssuedInFuture
  else if existsb (issued_by (signing_bytes b) (signature signed)) issuers then Ok ()
  else Err UnknownIssuer.

(** src/crates/common/src/agent_binding.rs:246-254 [sign_registration] *)
Definition sign_registration (agent_signing_key : SigningKey) (nonce token : bytes) : bytes :=
  sign agent_signing_key (registration_challenge_bytes nonce token).

(** src/crates/common/src/agent_binding.rs:260-276 [verify_registration] *)
Definition verify_registration (issuers : list bytes) (signed : SignedAgentBinding)
    (token nonce sig : bytes) (now : N) : Result () AgentBindingError :=
  _ <-? verify_binding issuers signed token now;
  let key := agent_pubkey (binding signed) in
  if negb (key_ok key) then Err BadKey
  else if verify_strict key (registration_challenge_bytes nonce token) sig then Ok ()
  else Err BadSignature.

(** What an accepted registration says: one of the issuers signed that this key may use this
    very token, the statement is current, and the key signed this very challenge. *)
Record authorised (issuers : list bytes) (s : SignedAgentBinding) (token nonce sig : bytes)
    (now : N) : Prop := {
  au_token : token_hash (binding s) = sha256 token;
  au_current : now < expires_at (binding s);
  au_issued : issued_at (binding s) ≤ now + CLOCK_SKEW_SECS;
  au_issuer : ∃ issuer, issuer ∈ issuers ∧
    issued_by (signing_bytes (binding s)) (signature s) issuer = true;
  au_key : issued_by (registration_challenge_bytes nonce token) sig (agent_pubkey (binding s)) = true;
}.

Lemma verify_binding_Ok issuers s token now :
  signed_ok s →
  verify_binding issuers s token now = Ok () ↔
  token_hash (binding s) = sha256 token ∧ now < expires_at (binding s) ∧
  issued_at (binding s) ≤ now + CLOCK_SKEW_SECS ∧
  ∃ issuer, issuer ∈ issuers ∧ issued_by (signing_bytes (binding s)) (signature s) issuer = true.
Proof.
  intros [(_ & L & _ & _ & I & _) _]. unfold verify_binding, u64_ok, saturating_add64 in *.
  rewrite (proj2 (Nat.ltb_ge _ _)) by done.
  destruct (Ct.eq _ _) eqn:E; cbn [negb].
  2: { split; [done|]. intros (H & _). apply Ct.ct_eq_true in H. congruence. }
  apply Ct.ct_eq_true in E.
  destruct (N.leb_spec (expires_at (binding s)) now); [split; [done|lia]|].
  destruct (N.ltb_spec (N.min (now + CLOCK_SKEW_SECS) (U64 - 1)) (issued_at (binding s)));
    [split; [done|lia]|].
  destruct (existsb _ _) eqn:X.
  - apply existsb_exists in X as (i & Hi & Hv). split; [|done]. intros _.
    split_and!; [done..|lia|]. exists i. split; [by apply list_elem_of_In|done].
  - split; [done|]. intros (_ & _ & _ & i & Hi & Hv). exfalso.
    rewrite (proj2 (existsb_exists _ _)) in X; [done|].
    exists i. split; [by apply list_elem_of_In|done].
Qed.

(** A registration is accepted exactly when it is authorised. *)
Lemma verify_registration_Ok issuers s token nonce sig now :
  signed_ok s →
  verify_registration issuers s token nonce sig now = Ok () ↔
  authorised issuers s token nonce sig now.
Proof.
  intros O. unfold verify_registration.
  destruct (verify_binding issuers s token now) as [[]|e] eqn:B.
  - apply verify_binding_Ok in B as (T & E & I & S); [|done]. cbn [rbind].
    destruct (key_ok _) eqn:K; cbn [negb].
    + destruct (verify_strict _ _ _) eqn:V.
      * split; [|done]. intros _. split; try done. unfold issued_by. by rewrite K, V.
      * split; [done|]. intros [_ _ _ _ V']. unfold issued_by in V'. by rewrite K, V in V'.
    + split; [done|]. intros [_ _ _ _ V']. unfold issued_by in V'. by rewrite K in V'.
  - split; [done|]. intros [T E I S _]. cut (Err e = Ok ()); [done|].
    rewrite <- B. by apply verify_binding_Ok.
Qed.

End with_ed25519.

Lemma take_bytes_Ok cur n h t : take_bytes cur n = Ok (h, t) ↔ length h = n ∧ cur = h ++ t.
Proof.
  unfold take_bytes. rewrite <- take_cur_Some. destruct (take_cur cur n) as [[? ?]|]; cbn; naive_solver.
Qed.

Lemma length_encoded s :
  signed_ok s → length (encode s) = (148 + length (tunnel_id (binding s)))%nat.
Proof.
  intros [(_ & _ & T & K & _) S]. unfold encode.
  rewrite !length_app, length_u32_le, !length_u64_le. lia.
Qed.

Lemma short_id_fits (id : bytes) : (length id ≤ MAX_TUNNEL_ID_LEN)%nat → wrap32 (blen id) = blen id.
Proof. unfold MAX_TUNNEL_ID_LEN. intros L. apply N.mod_small. unfold blen, U32. lia. Qed.

Lemma binding_read_back s : signed_ok s → decode (encode s) = Ok s.
Proof.
  intros O. pose proof (length_encoded s O) as L. pose proof O as [(U & I & T & K & HI & HE) S].
  pose proof (short_id_fits _ I) as W. unfold MAX_TUNNEL_ID_LEN in I.
  unfold decode. rewrite L, (proj2 (Nat.ltb_ge _ _)) by (unfold MAX_ENCODED_LEN; lia).
  unfold encode. rewrite W. destruct s as [[id th pk i e] sg]; cbn [binding signature tunnel_id
    token_hash agent_pubkey issued_at expires_at] in *.
  assert (∀ h t n, length h = n → take_bytes (h ++ t) n = Ok (h, t)) as A
    by (intros; by apply take_bytes_Ok).
  rewrite A by done. cbn [rbind]. rewrite A by apply length_u32_le. cbn [rbind].
  rewrite le_val_u32_le, W, to_nat_blen.
  rewrite (proj2 (Nat.ltb_ge _ _)) by done.
  rewrite A by done. cbn [rbind]. rewrite (proj2 (from_utf8_Some id id)) by done. cbn [rbind ok_or].
  rewrite A by done. cbn [rbind]. rewrite A by done. cbn [rbind].
  rewrite A by apply length_u64_le. cbn [rbind].
  assert (take_bytes (u64_le e) 8 = Ok (u64_le e, [])) as ->
    by (apply take_bytes_Ok; by rewrite length_u64_le, app_nil_r).
  cbn [rbind length Nat.eqb negb]. by rewrite !le_val_u64_le.
Qed.

Lemma decode_Ok bs s : decode bs = Ok s → signed_ok s ∧ bs = encode s.
Proof.
  unfold decode. destruct (_ <? length bs)%nat; [done|].
  destruct (take_bytes bs 64) as [[sg c1]|] eqn:E1; cbn [rbind]; [|done].
  destruct (take_bytes c1 4) as [[n c2]|] eqn:E2; cbn [rbind]; [|done].
  destruct (_ <? N.to_nat _)%nat eqn:Ln; [done|]. apply Nat.ltb_ge in Ln.
  destruct (take_bytes c2 _) as [[id c3]|] eqn:E3; cbn [rbind]; [|done].
  destruct (from_utf8 id) as [id'|] eqn:U; cbn [rbind ok_or]; [|done].
  destruct (take_bytes c3 32) as [[th c4]|] eqn:E4; cbn [rbind]; [|done].
  destruct (take_bytes c4 32) as [[pk c5]|] eqn:E5; cbn [rbind]; [|done].
  destruct (take_bytes c5 8) as [[i c6]|] eqn:E6; cbn [rbind]; [|done].
  destruct (take_bytes c6 8) as [[e c7]|] eqn:E7; cbn [rbind]; [|done].
  destruct (length c7 =? 0)%nat eqn:E8; cbn [negb]; [|done]. intros [= <-]. bool_facts.
  apply nil_length_inv in E8 as ->.
  apply take_bytes_Ok in E1 as [L1 ->], E2 as [L2 ->], E3 as [L3 ->], E4 as [L4 ->],
    E5 as [L5 ->], E6 as [L6 ->], E7 as [L7 ->].
  apply from_utf8_Some in U as [U ->].
  assert (blen id = le_val n) as Hn by (unfold blen; lia).
  assert (length id ≤ MAX_TUNNEL_ID_LEN)%nat as Li by lia.
  unfold signed_ok, binding_ok, encode.
  cbn [binding signature tunnel_id token_hash agent_pubkey issued_at expires_at].
  rewrite short_id_fits, Hn, u32_le_le_val, !u64_le_le_val, app_nil_r by done.
  split; [|done]. split_and!; try done; by apply le_val_u64_ok.
Qed.

(** The wire form of a binding: [decode] accepts exactly the encodings of well-formed
    bindings, each as the binding it encodes; the size bound refuses none of them. *)
Theorem binding_decode_iff bs s : decode bs = Ok s ↔ signed_ok s ∧ bs = encode s.
Proof. split; [apply decode_Ok|]. intros [O ->]. by apply binding_read_back. Qed.

End Binding.
