(* ===== verification/Signing.v ===== *)
(** * Every signed message of the plane, together

    The messages that the Ed25519 signatures of the plane are made over: those of the objects of
    [credential.rs], [agent_binding.rs], [channel.rs] and [settlement.rs], and the heartbeat of
    an edge ([control-plane/src/edge_mesh.rs]). No two of them can be confused; what is signed
    besides them is a bare 32-byte value (the possession challenge of a channel join, the join
    token of an enrolment, the hash of a history receipt), under no domain of its own. *)

From S2P Require Import Prelude RustStd Maps Interfaces Codec Wire.
From S2P Require Import Market Settlement Escrow Election Channels Binding.
Import Codec.Preimage.
Import Wire.Credential (Credential, credential_ok).
Import Market.CapacityOffer (CapacityOffer, offer_ok).
Import Market.CapacityBid (CapacityBid, bid_ok).
Import Market.UsageReceipt (UsageReceipt, receipt_ok).
Import Market.SignedAcceptance (SignedAcceptance).
Import Settlement.Transfer (Transfer, transfer_ok).
Import Escrow.Hold (Hold, hold_ok).
Import Election.Vote (Vote).
Import Election.LeaderAttestation (LeaderAttestation).
Import Channels.ChannelGrant (ChannelGrant).
Import Channels.MembershipStaple (MembershipStaple, staple_ok).
Import Channels.Billing (BillingCommitment).
Import Channels.SettleReceipt (SettleReceipt).
Import Channels.AgentCard (AgentCard, Skill).
Import Channels.Invitation (ChannelInvitation).
Import Binding.Binding (AgentBinding, binding_ok, registration_challenge_bytes).

Module Heartbeat.

(** src/crates/control-plane/src/edge_mesh.rs:49-57 [edge_heartbeat_signing_bytes] *)
Definition edge_heartbeat_signing_bytes (id peer_addr : bytes) : bytes :=
  lit "ct-edge-mesh-heartbeat-v1" ++ u64_le (wrap64 (blen id)) ++ id ++ peer_addr.

(** src/crates/control-plane/src/edge_mesh.rs:62-67 [verify_heartbeat_proof] *)
Definition verify_heartbeat_proof `{Ed25519} (pubkey sig id peer_addr : bytes) : bool :=
  sig_verify pubkey (edge_heartbeat_signing_bytes id peer_addr) sig.

End Heartbeat.

Module Signed.

Inductive Message :=
| MCredential (c : Credential)
| MTransfer (t : Transfer)
| MHold (h : Hold)
| MVote (v : Vote)
| MAttestation (a : LeaderAttestation)
| MReceipt (r : UsageReceipt)
| MAcceptance (a : SignedAcceptance)
| MOffer (o : CapacityOffer)
| MBid (b : CapacityBid)
| MStaple (s : MembershipStaple)
| MBilling (b : BillingCommitment)
| MSettle (s : SettleReceipt)
| MTopology (topology_id operator_pubkey : bytes)
| MNoise (channel holder noise_pubkey : bytes)
| MCard (c : AgentCard)
| MBinding (b : AgentBinding)
| MRegistration (nonce token : bytes)
| MGrant (g : ChannelGrant)
| MInvitation (i : ChannelInvitation)
| MRedeem (channel invitee holder : bytes)
| MRedeemChallenge (channel invitee holder challenge : bytes)
| MRevoke (channel digest : bytes) (expires_at : N)
| MLeave (channel holder : bytes) (ts : N)
| MStatus (channel peer digest : bytes) (ts : N)
| MHeartbeat (id peer_addr : bytes).

(** The bytes that are signed. *)
Definition message_bytes (m : Message) : bytes :=
  match m with
  | MCredential c => Credential.signing_bytes c
  | MTransfer t => Transfer.signing_bytes (Transfer.from t) (Transfer.to t) (Transfer.amount t)
                     (Transfer.nonce t)
  | MHold h => Hold.signing_bytes (Hold.from h) (Hold.to h) (Hold.amount h) (Hold.match_ref h)
                 (Hold.nonce h) (Hold.expires_at h)
  | MVote v => Vote.signing_bytes (Vote.term v) (Vote.candidate v) (Vote.voter v)
  | MAttestation a => LeaderAttestation.signing_bytes (LeaderAttestation.term a)
                        (LeaderAttestation.leader a) (LeaderAttestation.block_hash a)
  | MReceipt r => UsageReceipt.signing_bytes (UsageReceipt.provider r) (UsageReceipt.consumer r)
      (UsageReceipt.kind r) (UsageReceipt.model r) (UsageReceipt.units_consumed r)
      (UsageReceipt.match_ref r) (UsageReceipt.issued_at r) (UsageReceipt.request_hash r)
      (UsageReceipt.response_hash r)
  | MAcceptance a => SignedAcceptance.signing_bytes (SignedAcceptance.accepter a)
      (SignedAcceptance.proposer a) (SignedAcceptance.decision a)
      (SignedAcceptance.proposal_hash a) (SignedAcceptance.requires_response_by a)
  | MOffer o => CapacityOffer.preimage o
  | MBid b => CapacityBid.preimage b
  | MStaple s => MembershipStaple.signing_bytes (MembershipStaple.channel s)
      (MembershipStaple.holder s) (MembershipStaple.stapled_at s) (MembershipStaple.expires_at s)
  | MBilling b => Billing.signing_bytes (Billing.channel b) (Billing.holder b) (Billing.payee b)
      (Billing.terms_hash b) (Billing.max_amount b) (Billing.expires_at b)
  | MSettle s => SettleReceipt.signing_bytes (SettleReceipt.channel s) (SettleReceipt.receiver s)
      (SettleReceipt.terms_hash s) (SettleReceipt.session_nonce s)
      (SettleReceipt.bytes_delivered s) (SettleReceipt.transfer_digest s)
  | MTopology id op => Verify.topology_operator_binding_bytes id op
  | MNoise c h n => Verify.member_noise_attest_bytes c h n
  | MCard c => AgentCard.preimage c
  | MBinding b => Binding.signing_bytes b
  | MRegistration n t => registration_challenge_bytes n t
  | MGrant g => ChannelGrant.signing_bytes g
  | MInvitation i => Invitation.signing_bytes i
  | MRedeem c i h => Invitation.invitation_redeem_bytes c i h
  | MRedeemChallenge c i h ch => Invitation.invitation_redeem_challenge_bytes c i h ch
  | MRevoke c d e => Invitation.grant_revoke_signing_bytes c d e
  | MLeave c h ts => Invitation.channel_leave_signing_bytes c h ts
  | MStatus c p d ts => Invitation.grant_status_signing_bytes c p d ts
  | MHeartbeat id a => Heartbeat.edge_heartbeat_signing_bytes id a
  end.

(** The widths of the Rust types a message is made of. *)
Definition card_ok (c : AgentCard) : Prop :=
  let strings l := N.of_nat (length l) < U32 ∧ Forall (λ s, u32_ok (blen s)) l in
  let keys l := N.of_nat (length l) < U32 ∧ Forall (λ k : bytes, length k = 32%nat) l in
  length (AgentCard.holder_pubkey c) = 32%nat ∧ strings (AgentCard.role_tags c) ∧
  (N.of_nat (length (AgentCard.skills c)) < U32 ∧
   Forall (λ s, u32_ok (blen (AgentCard.id s)) ∧ u32_ok (blen (AgentCard.description s)) ∧
                strings (AgentCard.examples s)) (AgentCard.skills c)) ∧
  keys (AgentCard.cells c) ∧ keys (AgentCard.channels c) ∧
  u64_ok (AgentCard.issued_at c) ∧ u64_ok (AgentCard.expires_at c).

Definition key32 (k : bytes) : Prop := length k = 32%nat.

Definition message_ok (m : Message) : Prop :=
  match m with
  | MCredential c => credential_ok c
  | MTransfer t => transfer_ok t
  | MHold h => hold_ok h
  | MVote v => u64_ok (Vote.term v) ∧ key32 (Vote.candidate v) ∧ key32 (Vote.voter v)
  | MAttestation a => u64_ok (LeaderAttestation.term a) ∧ key32 (LeaderAttestation.leader a) ∧
                      key32 (LeaderAttestation.block_hash a)
  | MReceipt r => receipt_ok r
  | MAcceptance a => key32 (SignedAcceptance.accepter a) ∧ key32 (SignedAcceptance.proposer a) ∧
      key32 (SignedAcceptance.proposal_hash a) ∧ u64_ok (SignedAcceptance.requires_response_by a)
  | MOffer o => offer_ok o
  | MBid b => bid_ok b
  | MStaple s => staple_ok s
  | MBilling b => key32 (Billing.channel b) ∧ key32 (Billing.holder b) ∧ key32 (Billing.payee b) ∧
      key32 (Billing.terms_hash b) ∧ u64_ok (Billing.max_amount b) ∧ u64_ok (Billing.expires_at b)
  | MSettle s => key32 (SettleReceipt.channel s) ∧ key32 (SettleReceipt.receiver s) ∧
      key32 (SettleReceipt.terms_hash s) ∧ key32 (SettleReceipt.session_nonce s) ∧
      u64_ok (SettleReceipt.bytes_delivered s) ∧ key32 (SettleReceipt.transfer_digest s)
  | MTopology id op => u64_ok (blen id) ∧ key32 op
  | MNoise c h n => key32 c ∧ key32 h ∧ key32 n
  | MCard c => card_ok c
  | MBinding b => binding_ok b
  | MRegistration n t => key32 n ∧ u32_ok (blen t)
  | MGrant g => key32 (ChannelGrant.channel g) ∧ key32 (ChannelGrant.holder g)
  | MInvitation i => key32 (Invitation.channel i) ∧ key32 (Invitation.invitee_identity i)
  | MRedeem c i h => key32 c ∧ key32 i ∧ key32 h
  | MRedeemChallenge c i h ch => key32 c ∧ key32 i ∧ key32 h ∧ key32 ch
  | MRevoke c d e => key32 c ∧ key32 d ∧ u64_ok e
  | MLeave c h ts => key32 c ∧ key32 h ∧ u64_ok ts
  | MStatus c p d ts => key32 c ∧ key32 p ∧ key32 d ∧ u64_ok ts
  | MHeartbeat id _ => u64_ok (blen id)
  end.

(** The message without the signature its object carries. *)
Definition unsigned (m : Message) : Message :=
  match m with
  | MTransfer (Transfer.Build_Transfer f t a n _) => MTransfer (Transfer.Build_Transfer f t a n [])
  | MHold (Hold.Build_Hold f t a r n e _) => MHold (Hold.Build_Hold f t a r n e [])
  | MVote (Vote.Build_Vote t c v _) => MVote (Vote.Build_Vote t c v [])
  | MAttestation (LeaderAttestation.Build_LeaderAttestation t l h _) =>
      MAttestation (LeaderAttestation.Build_LeaderAttestation t l h [])
  | MReceipt (UsageReceipt.Build_UsageReceipt a b c d e f g h i _ _) =>
      MReceipt (UsageReceipt.Build_UsageReceipt a b c d e f g h i [] [])
  | MAcceptance (SignedAcceptance.Build_SignedAcceptance a p d h r _) =>
      MAcceptance (SignedAcceptance.Build_SignedAcceptance a p d h r [])
  | MOffer (CapacityOffer.Build_CapacityOffer a b c d e f g h i _) =>
      MOffer (CapacityOffer.Build_CapacityOffer a b c d e f g h i [])
  | MBid (CapacityBid.Build_CapacityBid a b c d e f g h i _) =>
      MBid (CapacityBid.Build_CapacityBid a b c d e f g h i [])
  | MStaple (MembershipStaple.Build_MembershipStaple c h s e _) =>
      MStaple (MembershipStaple.Build_MembershipStaple c h s e [])
  | MBilling (Billing.Build_BillingCommitment a b c d e f _) =>
      MBilling (Billing.Build_BillingCommitment a b c d e f [])
  | MSettle (SettleReceipt.Build_SettleReceipt a b c d e f _) =>
      MSettle (SettleReceipt.Build_SettleReceipt a b c d e f [])
  | MCard (AgentCard.Build_AgentCard a b c d e f g _) =>
      MCard (AgentCard.Build_AgentCard a b c d e f g [])
  | m => m
  end.

(** ** What a message starts with *)

Definition tag (m : Message) : nat :=
  match m with
  | MCredential _ => 0 | MTransfer _ => 1 | MHold _ => 2 | MVote _ => 3 | MAttestation _ => 4
  | MReceipt _ => 5 | MAcceptance _ => 6 | MOffer _ => 7 | MBid _ => 8 | MStaple _ => 9
  | MBilling _ => 10 | MSettle _ => 11 | MTopology _ _ => 12 | MNoise _ _ _ => 13
  | MCard _ => 14 | MBinding _ => 15 | MRegistration _ _ => 16 | MGrant _ => 17
  | MInvitation _ => 18 | MRedeem _ _ _ => 19 | MRedeemChallenge _ _ _ _ => 20
  | MRevoke _ _ _ => 21 | MLeave _ _ _ => 22 | MStatus _ _ _ _ => 23 | MHeartbeat _ _ => 24
  end%nat.

Definition domains : list bytes :=
    [lit "ct-cred:v1"; lit "ct-settlement-transfer-v1"; lit "ct-settlement-hold-v1";
     lit "ct-settlement-vote-v1"; lit "ct-settlement-leader-block-v1"; lit "ct-usage-receipt-v1";
     lit "ct-proposal-acceptance-v1"; lit "ct-capacity-offer-v1"; lit "ct-capacity-bid-v1";
     lit "ct-membership-staple-v1"; lit "ct-billing-commitment-v1"; lit "ct-settle-receipt-v1";
     lit "ct-topology-operator-v1"; lit "ct-a2a-noise-attest-v1"; lit "ct-agent-card-v1";
     lit "ct-agent-binding:v1"; lit "ct-agent-reg:v1"].
Definition headers : list bytes := (λ d, buf (new d)) <$> domains.
Definition text_headers : list bytes :=
  [lit "ct-grant:v1|"; lit "ct-chan-invite:v1|"; lit "ct-chan-invite-redeem-v1";
   lit "ct-chan-invite-redeem-v2-chal"; lit "ct-grant-revoke:v1|"; lit "ct-channel-leave:v1|";
   lit "ct-grant-status:v1|"; lit "ct-edge-mesh-heartbeat-v1"].

Definition header (m : Message) : bytes := nth (tag m) (headers ++ text_headers) [].

(** Two headers that agree on their common length are the same one. *)
Definition apart (i j : nat) : bool :=
  let h k := nth k (headers ++ text_headers) [] in
  let n := Nat.min (length (h i)) (length (h j)) in
  bool_decide (i = j) || negb (bool_decide (take n (h i) = take n (h j))).

Lemma headers_apart i j : (i < 25)%nat → (j < 25)%nat → apart i j = true.
Proof.
  intros Hi Hj.
  assert (forallb (λ i, forallb (apart i) (seq 0 25)) (seq 0 25) = true) as H by by vm_compute.
  rewrite forallb_forall in H. specialize (H i ltac:(apply in_seq; lia)).
  rewrite forallb_forall in H. apply H, in_seq. lia.
Qed.

Lemma same_header i j x y :
  (i < 25)%nat → (j < 25)%nat →
  nth i (headers ++ text_headers) [] ++ x = nth j (headers ++ text_headers) [] ++ y → i = j.
Proof.
  intros Hi Hj E. pose proof (headers_apart i j Hi Hj) as A. unfold apart in A.
  apply orb_true_iff in A as [A|A]; bool_facts; [done|]. destruct A.
  set (a := nth i _ _) in *. set (b := nth j _ _) in *.
  assert (∀ (l r : bytes) n, (n ≤ length l)%nat → take n l = take n (l ++ r)) as Ht
    by (intros; by rewrite take_app_le).
  rewrite (Ht a x), (Ht b y) by lia. by rewrite E.
Qed.

(** The fields of the fixed-schema messages, in the order the builder is called. *)
Definition fields (m : Message) : list field :=
  match m with
  | MCredential c => [FVar (Credential.tenant c); FVar (Credential.agent c);
                      FU64 (Credential.expires_at c)]
  | MTransfer t => [FFixed (Transfer.from t); FFixed (Transfer.to t); FU64 (Transfer.amount t);
                    FU64 (Transfer.nonce t)]
  | MHold h => [FFixed (Hold.from h); FFixed (Hold.to h); FU64 (Hold.amount h);
                FFixed (Hold.match_ref h); FU64 (Hold.nonce h); FU64 (Hold.expires_at h)]
  | MVote v => [FU64 (Vote.term v); FFixed (Vote.candidate v); FFixed (Vote.voter v)]
  | MAttestation a => [FU64 (LeaderAttestation.term a); FFixed (LeaderAttestation.leader a);
                       FFixed (LeaderAttestation.block_hash a)]
  | MReceipt r => [FFixed (UsageReceipt.provider r); FFixed (UsageReceipt.consumer r);
      FTag (CapacityKind.tag (UsageReceipt.kind r)); FVar (UsageReceipt.model r);
      FU64 (UsageReceipt.units_consumed r); FFixed (UsageReceipt.match_ref r);
      FU64 (UsageReceipt.issued_at r); FFixed (UsageReceipt.request_hash r);
      FFixed (UsageReceipt.response_hash r)]
  | MAcceptance a => [FFixed (SignedAcceptance.accepter a); FFixed (SignedAcceptance.proposer a);
      FTag (SignedAcceptance.decision_tag (SignedAcceptance.decision a));
      FFixed (SignedAcceptance.proposal_hash a); FU64 (SignedAcceptance.requires_response_by a)]
  | MStaple s => [FFixed (MembershipStaple.channel s); FFixed (MembershipStaple.holder s);
      FU64 (MembershipStaple.stapled_at s); FU64 (MembershipStaple.expires_at s)]
  | MBilling b => [FFixed (Billing.channel b); FFixed (Billing.holder b); FFixed (Billing.payee b);
      FFixed (Billing.terms_hash b); FU64 (Billing.max_amount b); FU64 (Billing.expires_at b)]
  | MSettle s => [FFixed (SettleReceipt.channel s); FFixed (SettleReceipt.receiver s);
      FFixed (SettleReceipt.terms_hash s); FFixed (SettleReceipt.session_nonce s);
      FU64 (SettleReceipt.bytes_delivered s); FFixed (SettleReceipt.transfer_digest s)]
  | MTopology id op => [FU64 (blen id); FFixed id; FFixed op]
  | MNoise c h n => [FFixed c; FFixed h; FFixed n]
  | MBinding b => [FVar (Binding.tunnel_id b); FFixed (Binding.token_hash b);
      FFixed (Binding.agent_pubkey b); FU64 (Binding.issued_at b); FU64 (Binding.expires_at b)]
  | MRegistration n t => [FFixed n; FVar t]
  | _ => []
  end.

(** ** The agent card's nested lists *)

Definition skill_fields (s : Skill) : list field :=
  [FVar (AgentCard.id s); FVar (AgentCard.description s);
   FU32 (AgentCard.count32 (AgentCard.examples s))] ++ (FVar <$> AgentCard.examples s).

Definition card_fields (c : AgentCard) : list field :=
  [FFixed (AgentCard.holder_pubkey c); FU32 (AgentCard.count32 (AgentCard.role_tags c))]
  ++ (FVar <$> AgentCard.role_tags c)
  ++ [FU32 (AgentCard.count32 (AgentCard.skills c))]
  ++ flat_map skill_fields (AgentCard.skills c)
  ++ [FU32 (AgentCard.count32 (AgentCard.cells c))] ++ (FFixed <$> AgentCard.cells c)
  ++ [FU32 (AgentCard.count32 (AgentCard.channels c))] ++ (FFixed <$> AgentCard.channels c)
  ++ [FU64 (AgentCard.issued_at c); FU64 (AgentCard.expires_at c)].

Lemma push_skills p l : foldl AgentCard.push_skill p l = foldl push p (flat_map skill_fields l).
Proof.
  revert p. induction l as [|s l IH]; intros p; [done|]. cbn [foldl flat_map].
  rewrite foldl_app, IH. f_equal. unfold AgentCard.push_skill, skill_fields.
  by rewrite foldl_app, push_strings_push.
Qed.

Lemma push_keys p l : foldl fixed p l = foldl push p (FFixed <$> l).
Proof. revert p. induction l as [|k l IH]; intros p; [done|]. cbn. apply IH. Qed.

Lemma card_build c : AgentCard.preimage c = build (lit "ct-agent-card-v1") (card_fields c).
Proof.
  unfold AgentCard.preimage, AgentCard.signing_bytes, build, card_fields.
  by rewrite !foldl_app, <- !push_keys, <- push_skills, <- push_strings_push.
Qed.

#[local] Instance FFixed_inj : Inj (=) (=) FFixed.
Proof. by intros ?? [=]. Qed.

Lemma count_cut {A} (l1 l2 : list A) x y :
  N.of_nat (length l1) < U32 → N.of_nat (length l2) < U32 →
  flat_map field_bytes [FU32 (AgentCard.count32 l1)] ++ x
  = flat_map field_bytes [FU32 (AgentCard.count32 l2)] ++ y →
  length l1 = length l2 ∧ x = y.
Proof.
  intros H1 H2 E. apply fields_cut in E as [E ->];
    [|repeat constructor|repeat constructor; apply CapacityOffer.wrap32_ok..].
  split; [|done]. injection E as E. by apply count_inj.
Qed.

Lemma keys_cut l1 l2 x y :
  length l1 = length l2 → Forall key32 l1 → Forall key32 l2 →
  flat_map field_bytes (FFixed <$> l1) ++ x = flat_map field_bytes (FFixed <$> l2) ++ y →
  l1 = l2 ∧ x = y.
Proof.
  intros L H1 H2 E. apply fields_cut in E as [E ->].
  - split; [|done]. by apply (inj (fmap FFixed)).
  - clear E. revert l2 L H2. induction H1 as [|a l1 Ha H1 IH]; intros [|b l2] L; try done.
    intros [Hb H2]%Forall_cons_iff. constructor; [cbn; unfold key32 in *; congruence|].
    apply IH; [by injection L|done].
  - apply Forall_fmap, Forall_true. done.
  - apply Forall_fmap, Forall_true. done.
Qed.

Definition skill_ok (s : Skill) : Prop :=
  u32_ok (blen (AgentCard.id s)) ∧ u32_ok (blen (AgentCard.description s)) ∧
  N.of_nat (length (AgentCard.examples s)) < U32 ∧
  Forall (λ e, u32_ok (blen e)) (AgentCard.examples s).

Lemma skills_cut l1 l2 x y :
  length l1 = length l2 → Forall skill_ok l1 → Forall skill_ok l2 →
  flat_map field_bytes (flat_map skill_fields l1) ++ x
  = flat_map field_bytes (flat_map skill_fields l2) ++ y →
  l1 = l2 ∧ x = y.
Proof.
  revert l2. induction l1 as [|s l1 IH]; intros [|t l2] L; try done.
  intros [(I1 & D1 & C1 & E1) H1]%Forall_cons_iff [(I2 & D2 & C2 & E2) H2]%Forall_cons_iff E.
  cbn [flat_map] in E. unfold skill_fields at 1 3 in E.
  rewrite !flat_map_app, <- !app_assoc in E. apply fields_cut in E as [Eh E].
  - injection Eh as Ei Ed Ec. apply count_inj in Ec; [|done..].
    apply strings_cut in E as [Ee E]; [|done..].
    assert (s = t) as -> by (clear -Ei Ed Ee; destruct s, t; cbn in *; congruence).
    by destruct (IH l2 ltac:(by injection L) H1 H2 E) as [-> ->].
  - repeat constructor.
  - repeat constructor; try done; apply CapacityOffer.wrap32_ok.
  - repeat constructor; try done; apply CapacityOffer.wrap32_ok.
Qed.

Lemma card_inj c1 c2 :
  card_ok c1 → card_ok c2 → AgentCard.preimage c1 = AgentCard.preimage c2 →
  unsigned (MCard c1) = unsigned (MCard c2).
Proof.
  intros (K1 & (NT1 & T1) & (NS1 & S1) & (NC1 & C1) & (NH1 & H1) & I1 & E1)
         (K2 & (NT2 & T2) & (NS2 & S2) & (NC2 & C2) & (NH2 & H2) & I2 & E2).
  rewrite !card_build, !build_bytes. intros E. apply app_inv_head in E.
  unfold card_fields in E. rewrite !flat_map_app in E.
  apply fields_cut in E as [Eh E].
  2: { repeat constructor. cbn. by rewrite K1, K2. }
  2: { repeat constructor. apply CapacityOffer.wrap32_ok. }
  2: { repeat constructor. apply CapacityOffer.wrap32_ok. }
  injection Eh as Ek Et. apply count_inj in Et; [|done..].
  apply strings_cut in E as [Et' E]; [|done..].
  apply count_cut in E as [Es E]; [|done..]. apply skills_cut in E as [Es' E]; [|done..].
  apply count_cut in E as [Ec E]; [|done..]. apply keys_cut in E as [Ec' E]; [|done..].
  apply count_cut in E as [Eh E]; [|done..]. apply keys_cut in E as [Eh' E]; [|done..].
  rewrite <- (app_nil_r (flat_map _ _)) in E at 1.
  rewrite <- (app_nil_r (flat_map _ [FU64 (AgentCard.issued_at c2); _])) in E.
  apply fields_cut in E as [E _]; [|repeat constructor|by repeat constructor..].
  injection E as Ei Ee. destruct c1, c2; cbn in *. congruence.
Qed.

(** ** Headers and bodies *)

Lemma built_header m d fs :
  message_bytes m = build d fs → buf (new d) = header m →
  message_bytes m = header m ++ flat_map field_bytes fs.
Proof. intros -> <-. apply build_bytes. Qed.

Lemma message_header m : ∃ y, message_bytes m = header m ++ y.
Proof.
  destruct m;
    try (eexists; eapply (built_header _ _ (fields _)); [reflexivity|reflexivity]);
    try (eexists; reflexivity).
  - eexists. eapply built_header; [apply CapacityOffer.offer_preimage_build|reflexivity].
  - eexists. eapply built_header; [apply CapacityBid.bid_preimage_build|reflexivity].
  - eexists. eapply built_header; [apply card_build|reflexivity].
Qed.

Lemma same_tag a b : message_bytes a = message_bytes b → tag a = tag b.
Proof.
  destruct (message_header a) as [x ->], (message_header b) as [y ->].
  intros E. apply (same_header _ _ x y); [by destruct a; cbn; lia|by destruct b; cbn; lia|exact E].
Qed.

(** The messages whose preimage is a fixed schema of builder calls. *)
Definition schematic (m : Message) : Prop :=
  message_bytes m = build (nth (tag m) domains []) (fields m).

(** Two messages of one fixed schema. *)
Lemma schema_inj a b :
  schematic a → schematic b → tag a = tag b → message_bytes a = message_bytes b →
  Forall2 same_slot (fields a) (fields b) → Forall field_ok (fields a) →
  Forall field_ok (fields b) → fields a = fields b.
Proof.
  intros Sa Sb T E S Oa Ob. rewrite Sa, Sb, T in E.
  assert (u32_ok (blen (nth (tag b) domains []))) as Hd by (by destruct b).
  by apply build_injective in E.
Qed.

Lemma decision_tag_inj a b :
  SignedAcceptance.decision_tag a = SignedAcceptance.decision_tag b → a = b.
Proof. by destruct a, b. Qed.

(** The same-slot, width and contents goals of one schema. *)
Ltac by_schema Ha Hb E :=
  let F := fresh "F" in
  unfold transfer_ok, hold_ok, receipt_ok, staple_ok, credential_ok, key32 in Ha, Hb;
  destruct_and?;
  match type of E with message_bytes ?a = message_bytes ?b =>
    pose proof (schema_inj a b eq_refl eq_refl eq_refl E
      ltac:(repeat constructor; cbn; congruence) ltac:(by repeat constructor)
      ltac:(by repeat constructor)) as F end;
  clear E; cbn [fields] in F; injection F as;
  repeat match goal with
  | K : CapacityKind.tag _ = CapacityKind.tag _ |- _ => apply CapacityKind.tag_inj in K
  | K : SignedAcceptance.decision_tag _ = SignedAcceptance.decision_tag _ |- _ =>
    apply decision_tag_inj in K
  end;
  first [ congruence
        | match goal with |- unsigned (_ ?x) = unsigned (_ ?y) => destruct x, y end;
          cbn in *; congruence ].

(** Messages written as text or raw concatenations: cut field by field. *)
Ltac cut_raw E :=
  repeat first
    [ apply app_inv_head in E
    | apply app_inj_l in E as [? E]; [|unfold key32 in *; congruence] ].

Lemma u64_le_inj x y : u64_ok x → u64_ok y → u64_le x = u64_le y → x = y.
Proof. apply (le_bytes_inj 8). Qed.

(** The topology binding delimits its identifier by an explicit 64-bit length. *)
Lemma topology_inj id1 op1 id2 op2 :
  u64_ok (blen id1) → u64_ok (blen id2) →
  message_bytes (MTopology id1 op1) = message_bytes (MTopology id2 op2) →
  id1 = id2 ∧ op1 = op2.
Proof.
  intros H1 H2 E.
  change (build (lit "ct-topology-operator-v1") [FU64 (blen id1); FFixed id1; FFixed op1]
    = build (lit "ct-topology-operator-v1") [FU64 (blen id2); FFixed id2; FFixed op2]) in E.
  rewrite !build_bytes in E. apply app_inv_head in E. cbn [flat_map] in E.
  apply field_cut in E as [El E]; [|done..]. injection El as El. cbn in E.
  apply app_inj_l in E as [-> E]; [|unfold blen in El; lia]. rewrite !app_nil_r in E. done.
Qed.

(** A heartbeat delimits the edge's name the same way; the address is the rest. *)
Lemma heartbeat_inj id1 a1 id2 a2 :
  u64_ok (blen id1) → u64_ok (blen id2) →
  message_bytes (MHeartbeat id1 a1) = message_bytes (MHeartbeat id2 a2) → id1 = id2 ∧ a1 = a2.
Proof.
  intros H1 H2 E. cbn [message_bytes] in E. unfold Heartbeat.edge_heartbeat_signing_bytes, wrap64 in E.
  rewrite !N.mod_small in E by done. apply app_inv_head in E.
  apply app_inj_l in E as [El E]; [|done]. apply u64_le_inj in El; [|done..].
  apply app_inj_l in E; [done|unfold blen in El; lia].
Qed.

Lemma binding_widths b :
  binding_ok b →
  u32_ok (blen (Binding.tunnel_id b)) ∧ key32 (Binding.token_hash b) ∧
  key32 (Binding.agent_pubkey b) ∧ u64_ok (Binding.issued_at b) ∧ u64_ok (Binding.expires_at b).
Proof.
  intros (_ & L & T & K & I & E). split_and!; try done.
  unfold u32_ok, blen, U32. unfold Binding.MAX_TUNNEL_ID_LEN in L. lia.
Qed.

Lemma message_inj a b :
  message_ok a → message_ok b → message_bytes a = message_bytes b → unsigned a = unsigned b.
Proof.
  intros Ha Hb E. pose proof (same_tag a b E) as T.
  destruct a, b; try discriminate T; clear T; cbn [message_ok] in Ha, Hb.
  1-7,10-12,14: by_schema Ha Hb E.
  - apply CapacityOffer.offer_preimage_inj in E as ->; [|done..]. by destruct o0.
  - apply CapacityBid.bid_preimage_inj in E as ->; [|done..]. by destruct b.
  - destruct Ha, Hb. apply topology_inj in E as [-> ->]; done.
  - by apply card_inj.
  - apply binding_widths in Ha, Hb. by_schema Ha Hb E.
  - by_schema Ha Hb E.
  - destruct Ha, Hb. apply claims_text_inj in E; [|done..].
    destruct g, g0; cbn in *. destruct_and?. congruence.
  - destruct Ha, Hb. apply claims_text_inj in E; [|done..].
    destruct i, i0; cbn in *. destruct_and?. congruence.
  - destruct_and?. cbn [message_bytes] in E. unfold Invitation.invitation_redeem_bytes in E.
    cut_raw E. by subst.
  - destruct_and?. cbn [message_bytes] in E.
    unfold Invitation.invitation_redeem_challenge_bytes in E. cut_raw E. by subst.
  - destruct_and?. cbn [message_bytes] in E. unfold Invitation.grant_revoke_signing_bytes in E.
    cut_raw E. apply u64_le_inj in E as ->; [|done..]. by subst.
  - destruct_and?. cbn [message_bytes] in E. unfold Invitation.channel_leave_signing_bytes in E.
    cut_raw E. apply u64_le_inj in E as ->; [|done..]. by subst.
  - destruct_and?. cbn [message_bytes] in E. unfold Invitation.grant_status_signing_bytes in E.
    cut_raw E. apply u64_le_inj in E as ->; [|done..]. by subst.
  - apply heartbeat_inj in E as [-> ->]; done.
Qed.

(** ** The size of a message *)

Lemma build_long d fs k : In (FFixed k) fs → key32 k → (32 < length (build d fs))%nat.
Proof.
  intros (l & r & ->)%in_split L. unfold key32 in L.
  rewrite build_bytes, flat_map_app. cbn [flat_map field_bytes push fixed buf new].
  rewrite !length_app, length_u32_le. cbn [length app]. lia.
Qed.

Lemma schematic_long m k :
  schematic m → In (FFixed k) (fields m) → key32 k → (32 < length (message_bytes m))%nat.
Proof. intros ->. apply build_long. Qed.

(** Every message but a credential holds a key or a digest besides its header. *)
Lemma message_long m :
  message_ok m → (∃ c, m = MCredential c) ∨ (32 < length (message_bytes m))%nat.
Proof.
  intros O. destruct m; [left; by eexists|right..]; cbn [message_ok] in O.
  all: unfold transfer_ok, hold_ok, receipt_ok, staple_ok, offer_ok, bid_ok, card_ok in O.
  all: try (apply binding_widths in O).
  all: destruct_and?; unfold key32 in *.
  all: try (eapply schematic_long;
            [reflexivity|cbn; repeat first [left; reflexivity|right]|eassumption]).
  1: change (32 < length (CapacityOffer.preimage o))%nat; rewrite CapacityOffer.offer_preimage_build.
  2: change (32 < length (CapacityBid.preimage b))%nat; rewrite CapacityBid.bid_preimage_build.
  4: change (32 < length (AgentCard.preimage c))%nat; rewrite card_build.
  3: (apply (schematic_long (MTopology _ _) operator_pubkey); cbn; auto; done).
  1-3: (eapply build_long; [left; reflexivity|eassumption]).
  all: unfold message_bytes, ChannelGrant.signing_bytes, Invitation.signing_bytes, claims_text,
    Invitation.invitation_redeem_bytes, Invitation.invitation_redeem_challenge_bytes,
    Invitation.grant_revoke_signing_bytes, Invitation.channel_leave_signing_bytes,
    Invitation.grant_status_signing_bytes, Heartbeat.edge_heartbeat_signing_bytes.
  all: rewrite !length_app, ?Hex.length_encode; cbn [length lit]; rewrite ?length_u64_le; cbn; lia.
Qed.

(** C27 no signature can be moved between the 25 signed messages of the model: credentials,
    transfers, holds, votes, leader attestations, usage receipts, acceptances, offers, bids,
    staples, billing commitments, settle receipts, topology bindings, Noise key attestations,
    agent cards, agent bindings, registration challenges, grants, invitations, redemptions with
    and without a challenge, revocations, leaves, status queries and edge heartbeats. Within the
    widths of their Rust types, equal signed bytes mean the same kind of message with the same
    contents. And the bare 32-byte values that are also signed (the possession challenge of a
    channel join, the join token of an enrolment, the hash of a history receipt), which have no
    domain of their own, are none of these messages, except a credential whose tenant and agent
    names have two bytes together. *)
Theorem message_injective a :
  message_ok a →
  (∀ b, message_ok b → message_bytes a = message_bytes b → unsigned a = unsigned b) ∧
  (length (message_bytes a) = 32%nat →
   ∃ c, a = MCredential c ∧ (length (Credential.tenant c) + length (Credential.agent c) = 2)%nat).
Proof.
  intros Ha. split; [intros b; by apply message_inj|]. intros L.
  destruct (message_long a Ha) as [[c ->]|?]; [|lia]. exists c. split; [done|].
  cbn [message_bytes] in L. unfold Credential.signing_bytes in L. cbn in L.
  rewrite !length_app, !length_u32_le, length_u64_le in L. cbn in L. lia.
Qed.

(** A transfer is one message with and without its signature; its bytes are no bare value. *)
Lemma message_injective_witness :
  let t s := MTransfer {| Transfer.from := replicate 32 x01; Transfer.to := replicate 32 x02;
                          Transfer.amount := 4; Transfer.nonce := 0; Transfer.signature := s |} in
  unsigned (t (replicate 64 x00)) = unsigned (t (replicate 64 x01)) ∧
  let c := MCredential {| Credential.tenant := lit "t"; Credential.agent := lit "a";
                          Credential.expires_at := 9 |} in
  ∃ c', c = MCredential c' ∧ (length (Credential.tenant c') + length (Credential.agent c') = 2)%nat.
Proof.
  intros t. split.
  - apply message_injective; [repeat split; reflexivity|repeat split; reflexivity|reflexivity].
  - intros c. apply message_injective; [repeat split; reflexivity|reflexivity].
Defined.

(** The shortest credentials are as long as a challenge: an issuer that also answered possession
    challenges would sign one when asked to. *)
Example credential_as_challenge :
  length (message_bytes (MCredential {| Credential.tenant := lit "t"; Credential.agent := lit "a";
                                        Credential.expires_at := 9 |})) = 32%nat.
Proof. by vm_compute. Qed.

End Signed.
