(* ===== verification/Policy.v ===== *)
(** * The policy engine of the mesh controller

    [crates/common/src/policy.rs]: RBAC rules with a mandatory no-write-down constraint,
    the channels a network's policy calls for and their reconciliation with the live
    ones. Strings are their bytes; a [BTreeSet] is a [gset]. *)

From S2P Require Import Prelude RustStd Maps.

Module Policy.

(** src/crates/common/src/policy.rs:31-38 [Agent] *)
Record Agent := { id : bytes; group : bytes; label : bytes }.

(** src/crates/common/src/policy.rs:49-52 [Levels] *)
Record Levels := { order : list bytes }.

(** src/crates/common/src/policy.rs:65-67 [Levels::rank] *)
Definition rank (l : Levels) (label : bytes) : option nat :=
  fst <$> list_find (λ x, x = label) (order l).

(** src/crates/common/src/policy.rs:73-80 [Selector] *)
Record Selector := { sel_group : option bytes; sel_label : option bytes }.

(** src/crates/common/src/policy.rs:84-86 [Selector::any] *)
Definition selector_any : Selector := {| sel_group := None; sel_label := None |}.

(** src/crates/common/src/policy.rs:89-91 [Selector::group] *)
Definition selector_group (group : bytes) : Selector :=
  {| sel_group := Some group; sel_label := None |}.

(** src/crates/common/src/policy.rs:93-96 [Selector::matches] *)
Definition matches (s : Selector) (a : Agent) : bool :=
  match sel_group s with Some g => bool_decide (g = group a) | None => true end
  && match sel_label s with Some l => bool_decide (l = label a) | None => true end.

(** src/crates/common/src/policy.rs:102-105 [AllowRule] *)
Record AllowRule := { from : Selector; to : Selector }.

(** src/crates/common/src/policy.rs:110-121 [Policy] *)
Record Policy := { levels : Levels; rules : list AllowRule; mac_flow_control : bool }.

(** src/crates/common/src/policy.rs:126-138 [Decision] *)
Record Decision := { allowed : bool; reason : bytes }.

Definition deny (reason : bytes) : Decision := {| allowed := false; reason := reason |}.
Definition allow (reason : bytes) : Decision := {| allowed := true; reason := reason |}.

(** src/crates/common/src/policy.rs:144-149 [Verdict] *)
Inductive Verdict := MacWriteDown | MacUnknownLevel | RuleAllowed | DefaultDeny.

(** src/crates/common/src/policy.rs:152-154 [Verdict::allowed] *)
Definition verdict_allowed (v : Verdict) : bool :=
  match v with RuleAllowed => true | _ => false end.

(** src/crates/common/src/policy.rs:160-176 [Policy::decide] *)
Definition decide_flow (p : Policy) (a b : Agent) : Verdict :=
  let by_rules :=
    if existsb (λ r, matches (from r) a && matches (to r) b) (rules p)
    then RuleAllowed else DefaultDeny in
  if mac_flow_control p then
    match rank (levels p) (label a), rank (levels p) (label b) with
    | Some rf, Some rt => if (rt <? rf)%nat then MacWriteDown else by_rules
    | _, _ => MacUnknownLevel
    end
  else by_rules.

(** src/crates/common/src/policy.rs:189-210 [Policy::evaluate] *)
Definition evaluate (p : Policy) (f t : Agent) : Decision :=
  match decide_flow p f t with
  | MacWriteDown => deny (lit "MAC write-down blocked: " ++ id f ++ lit " (" ++ label f
      ++ lit ") may not initiate a flow to lower level " ++ id t ++ lit " (" ++ label t ++ lit ")")
  | MacUnknownLevel => deny (lit "MAC enabled but a label is not a known level (from="
      ++ label f ++ lit ", to=" ++ label t ++ lit ")")
  | RuleAllowed => allow (lit "allowed: an allow-rule permits " ++ id f ++ lit " (" ++ group f
      ++ lit "/" ++ label f ++ lit ") -> " ++ id t ++ lit " (" ++ group t ++ lit "/" ++ label t
      ++ lit ")")
  | DefaultDeny => deny (lit "default-deny: no allow-rule permits " ++ id f ++ lit " ("
      ++ group f ++ lit "/" ++ label f ++ lit ") -> " ++ id t ++ lit " (" ++ group t ++ lit "/"
      ++ label t ++ lit ")")
  end.

(** src/crates/common/src/policy.rs:218-220 [Policy::allows] *)
Definition allows (p : Policy) (f t : Agent) : bool := verdict_allowed (decide_flow p f t).

(** src/crates/common/src/policy.rs:227-237 [Policy::may_establish_channel] *)
Definition may_establish_channel (p : Policy) (a b : Agent) : Decision :=
  let ab := evaluate p a b in
  if negb (allowed ab) then ab
  else
    let ba := evaluate p b a in
    if negb (allowed ba) then ba
    else allow (lit "allowed: " ++ id a ++ lit " and " ++ id b
                ++ lit " may establish a channel (both directions permitted)").

(** src/crates/common/src/policy.rs:243-245 [Policy::may_establish_channel_allows] *)
Definition may_establish_channel_allows (p : Policy) (a b : Agent) : bool :=
  allows p a b && allows p b a.

(** src/crates/common/src/policy.rs:256-263 [Pair::new] *)
Definition pair_new (a b : bytes) : bytes * bytes := if bytes_leb a b then (a, b) else (b, a).

(** src/crates/common/src/policy.rs:270-277 [Network] *)
Record Network := { agents : list Agent; policy : Policy }.

(** src/crates/common/src/policy.rs:291-295 [Network::validate]: the scan, with the ids
    already seen. *)
Fixpoint first_duplicate (seen : gset bytes) (l : list Agent) : option bytes :=
  match l with
  | [] => None
  | a :: l' =>
    if bool_decide (id a ∈ seen) then Some (id a) else first_duplicate ({[id a]} ∪ seen) l'
  end.

(** src/crates/common/src/policy.rs:289-297 [Network::validate]: the error is the id its
    message quotes. *)
Definition validate (n : Network) : Result () bytes :=
  match first_duplicate ∅ (agents n) with Some dup => Err dup | None => Ok () end.

(** src/crates/common/src/policy.rs:304-313 [Network::explain] *)
Definition explain (n : Network) (a_id b_id : bytes) : Decision :=
  match find (λ x, bool_decide (id x = a_id)) (agents n),
        find (λ x, bool_decide (id x = b_id)) (agents n) with
  | Some a, Some b => may_establish_channel (policy n) a b
  | _, _ => deny (lit "not both members of the network: " ++ a_id ++ lit " / " ++ b_id)
  end.

(** src/crates/common/src/policy.rs:326-333 [Network::desired_channels]: the inner loop's
    body. *)
Definition visit (p : Policy) (a : Agent) (out : gset (bytes * bytes)) (b : Agent)
    : gset (bytes * bytes) :=
  if bool_decide (id a = id b) then out
  else if may_establish_channel_allows p a b then {[pair_new (id a) (id b)]} ∪ out
  else out.

(** src/crates/common/src/policy.rs:323-336 [Network::desired_channels]: the two loops, on
    what is left of the agents. *)
Fixpoint desired_from (p : Policy) (l : list Agent) (out : gset (bytes * bytes))
    : gset (bytes * bytes) :=
  match l with
  | [] => out
  | a :: l' =>
    desired_from p l' (foldl (visit p a) out l')
  end.

(** src/crates/common/src/policy.rs:323-336 [Network::desired_channels] *)
Definition desired_channels (n : Network) : gset (bytes * bytes) :=
  desired_from (policy n) (agents n) ∅.

(** src/crates/common/src/policy.rs:344-349 [Reconciliation] *)
Record Reconciliation := {
  to_establish : list (bytes * bytes); to_revoke : list (bytes * bytes)
}.

(** src/crates/common/src/policy.rs:353-355 [Reconciliation::is_empty] *)
Definition is_empty (r : Reconciliation) : bool :=
  (length (to_establish r) =? 0)%nat && (length (to_revoke r) =? 0)%nat.

(** The derived order of [Pair]: first id, then second. *)
Definition pair_le (p q : bytes * bytes) : Prop :=
  bytes_leb p.1 q.1 = true ∧ (p.1 = q.1 → bytes_leb p.2 q.2 = true).
#[global] Instance pair_le_dec : RelDecision pair_le.
Proof. intros p q. unfold pair_le. apply _. Defined.

(** The elements of a [BTreeSet<Pair>], in order. *)
Definition sorted_pairs (s : gset (bytes * bytes)) : list (bytes * bytes) :=
  merge_sort pair_le (elements s).

(** src/crates/common/src/policy.rs:361-366 [reconcile] *)
Definition reconcile (desired current : gset (bytes * bytes)) : Reconciliation :=
  {| to_establish := sorted_pairs (desired ∖ current);
     to_revoke := sorted_pairs (current ∖ desired) |}.

(** ** What a policy permits *)

(** A rule of the policy covers the flow. *)
Definition permitted (p : Policy) (a b : Agent) : Prop :=
  ∃ r, r ∈ rules p ∧ matches (from r) a = true ∧ matches (to r) b = true.

(** No write-down: both labels are known levels and the sender's is not the higher. *)
Definition no_write_down (p : Policy) (a b : Agent) : Prop :=
  ∃ rf rt, rank (levels p) (label a) = Some rf ∧ rank (levels p) (label b) = Some rt ∧
           (rf ≤ rt)%nat.

Lemma rules_iff p a b :
  existsb (λ r, matches (from r) a && matches (to r) b) (rules p) = true ↔ permitted p a b.
Proof.
  rewrite existsb_exists. unfold permitted.
  split; intros (r & H1 & H2); exists r; rewrite andb_true_iff, list_elem_of_In in *; tauto.
Qed.

Lemma allows_iff p a b :
  allows p a b = true ↔
  permitted p a b ∧ (mac_flow_control p = true → no_write_down p a b).
Proof.
  unfold allows, decide_flow, no_write_down. rewrite <- rules_iff.
  set (R := existsb _ (rules p)).
  assert (verdict_allowed (if R then RuleAllowed else DefaultDeny) = R) as HR by by destruct R.
  destruct (mac_flow_control p); [|rewrite HR; naive_solver].
  destruct (rank (levels p) (label a)) as [rf|]; [|naive_solver].
  destruct (rank (levels p) (label b)) as [rt|]; [|naive_solver].
  destruct (rt <? rf)%nat eqn:E.
  - apply Nat.ltb_lt in E. split; [done|]. intros [_ H]. destruct (H eq_refl) as (? & ? & [= <-] & [= <-] & ?). lia.
  - apply Nat.ltb_ge in E. rewrite HR. naive_solver.
Qed.

Lemma evaluate_allowed p a b : allowed (evaluate p a b) = allows p a b.
Proof. unfold evaluate, allows. by destruct (decide_flow p a b). Qed.

Lemma may_establish_allowed p a b :
  allowed (may_establish_channel p a b) = may_establish_channel_allows p a b.
Proof.
  unfold may_establish_channel, may_establish_channel_allows. rewrite <- !evaluate_allowed.
  destruct (allowed (evaluate p a b)) eqn:E1; cbn [negb andb]; [|exact E1].
  destruct (allowed (evaluate p b a)) eqn:E2; cbn [negb]; [done|exact E2].
Qed.

(** Policy decisions are default-deny with a mandatory override: a flow is allowed
    exactly when some rule covers it and, under mandatory control, both labels are known
    and the flow is not a write-down, whatever the rules say; the boolean path and the
    explained one always agree; a channel is allowed exactly when both directions are,
    in either argument order, so under mandatory control only between agents of equal
    level. *)
Theorem policy_decision_exact p a b :
  (allows p a b = true ↔
     permitted p a b ∧ (mac_flow_control p = true → no_write_down p a b)) ∧
  allowed (evaluate p a b) = allows p a b ∧
  allowed (may_establish_channel p a b) = may_establish_channel_allows p a b ∧
  may_establish_channel_allows p a b = may_establish_channel_allows p b a ∧
  (may_establish_channel_allows p a b = true ↔ allows p a b = true ∧ allows p b a = true) ∧
  (mac_flow_control p = true → may_establish_channel_allows p a b = true →
     rank (levels p) (label a) = rank (levels p) (label b)).
Proof.
  split; [apply allows_iff|]. split; [apply evaluate_allowed|].
  split; [apply may_establish_allowed|]. split; [apply andb_comm|].
  split; [apply andb_true_iff|]. intros M [H1 H2]%andb_true_iff.
  apply allows_iff in H1 as [_ H1], H2 as [_ H2].
  destruct (H1 M) as (rf & rt & Ea & Eb & ?), (H2 M) as (rf' & rt' & Eb' & Ea' & ?).
  simplify_eq. rewrite Ea, Eb. f_equal. lia.
Qed.

(** A secret agent and a public one, with a rule that lets anyone talk to anyone. *)
Lemma policy_decision_exact_witness :
  let p := {| levels := {| order := [lit "public"; lit "secret"] |};
              rules := [{| from := selector_any; to := selector_any |}];
              mac_flow_control := true |} in
  let a := {| id := lit "a"; group := lit "dev"; label := lit "secret" |} in
  let b := {| id := lit "b"; group := lit "dev"; label := lit "secret" |} in
  may_establish_channel_allows p a b = true ∧
  rank (levels p) (label a) = rank (levels p) (label b).
Proof.
  intros p a b. split; [vm_compute; reflexivity|].
  apply (proj2 (proj2 (proj2 (proj2 (proj2 (policy_decision_exact p a b))))));
    vm_compute; reflexivity.
Defined.

(** ** The channels a network calls for *)

Lemma pair_new_comm a b : pair_new a b = pair_new b a.
Proof.
  unfold pair_new. destruct (bytes_leb a b) eqn:E1, (bytes_leb b a) eqn:E2; try done.
  - by rewrite (bytes_le_antisym a b).
  - destruct (bytes_le_total a b); unfold bytes_le in *; congruence.
Qed.

Lemma pair_new_inj a b c d :
  pair_new a b = pair_new c d → (a = c ∧ b = d) ∨ (a = d ∧ b = c).
Proof. unfold pair_new. destruct (bytes_leb a b), (bytes_leb c d); intros [= -> ->]; auto. Qed.

(** The unordered pair of [a] and [b] is wanted. *)
Definition wanted (p : Policy) (a b : Agent) (q : bytes * bytes) : Prop :=
  id a ≠ id b ∧ may_establish_channel_allows p a b = true ∧ q = pair_new (id a) (id b).

Lemma wanted_sym p a b q : wanted p a b q → wanted p b a q.
Proof.
  intros (H1 & H2 & ->). split_and!; [done| |apply pair_new_comm].
  unfold may_establish_channel_allows in *. by rewrite andb_comm.
Qed.

Lemma inner_loop p a l out q :
  q ∈ foldl (visit p a) out l ↔
  q ∈ out ∨ ∃ b, b ∈ l ∧ wanted p a b q.
Proof.
  revert out. induction l as [|b l IH]; intros out; cbn [foldl].
  - split; [by left|]. by intros [?|(b & ?%elem_of_nil & _)].
  - rewrite IH. setoid_rewrite elem_of_cons. unfold wanted, visit. case_bool_decide as D.
    + split; [intros [?|(b' & ? & ?)]; eauto|]. intros [?|(b' & [->|?] & ?)]; [by left|tauto|eauto].
    + destruct (may_establish_channel_allows p a b) eqn:M.
      * rewrite elem_of_union, elem_of_singleton. split.
        -- intros [[->|?]|(b' & ? & ?)]; [right; exists b; auto|by left|right; exists b'; auto].
        -- intros [?|(b' & [->|?] & H1 & H2 & H3)]; [auto|left; left; done|right; exists b'; auto].
      * split; [intros [?|(b' & ? & ?)]; eauto|].
        intros [?|(b' & [->|?] & H1 & H2 & H3)]; [by left|congruence|right; exists b'; auto].
Qed.

Lemma desired_from_iff p l out q :
  q ∈ desired_from p l out ↔ q ∈ out ∨ ∃ a b, a ∈ l ∧ b ∈ l ∧ wanted p a b q.
Proof.
  revert out. induction l as [|x l IH]; intros out; cbn [desired_from].
  - split; [by left|]. by intros [?|(a & b & ?%elem_of_nil & _)].
  - rewrite IH, inner_loop. split.
    + intros [[?|(b & ? & ?)]|(a & b & ? & ? & ?)]; [by left| |]; right.
      * exists x, b. split_and!; [by left|by right|done].
      * exists a, b. split_and!; [by right|by right|done].
    + intros [?|(a & b & Ha & Hb & W)]; [by left; left|].
      apply elem_of_cons in Ha as [->|Ha], Hb as [->|Hb].
      * by destruct W as [W _].
      * left. right. eauto.
      * left. right. exists a. split; [done|]. by apply wanted_sym.
      * right. eauto.
Qed.

Lemma first_duplicate_None seen l :
  first_duplicate seen l = None ↔ NoDup (id <$> l) ∧ ∀ a, a ∈ l → id a ∉ seen.
Proof.
  revert seen. induction l as [|a l IH]; intros seen; cbn [first_duplicate fmap list_fmap].
  - split; [|done]. intros _. split; [constructor|]. by intros a ?%elem_of_nil.
  - case_bool_decide as D.
    + split; [done|]. intros [_ H]. destruct (H a); [by left|done].
    + rewrite IH, list.NoDup_cons, list_elem_of_fmap. split.
      * intros [H1 H2]. split_and!; [|done|].
        -- intros (x & Ex & Hx). apply (H2 x Hx). rewrite <- Ex. set_solver.
        -- intros x [->|Hx]%elem_of_cons; [done|]. specialize (H2 x Hx). set_solver.
      * intros [[H1 H2] H3]. split; [done|]. intros x Hx. apply not_elem_of_union. split.
        -- rewrite elem_of_singleton. intros Ex. apply H1. by exists x.
        -- apply H3. by right.
Qed.

Lemma validate_NoDup n : validate n = Ok () ↔ NoDup (id <$> agents n).
Proof.
  unfold validate. destruct (first_duplicate ∅ (agents n)) as [d|] eqn:E.
  - split; [done|]. intros H. rewrite (proj2 (first_duplicate_None ∅ (agents n))) in E; [done|].
    split; [done|]. intros a _. apply not_elem_of_empty.
  - split; [|done]. intros _. by apply first_duplicate_None in E as [? _].
Qed.

(** With distinct ids, looking an id up finds its agent. *)
Lemma find_id n a :
  NoDup (id <$> agents n) → a ∈ agents n →
  find (λ x, bool_decide (id x = id a)) (agents n) = Some a.
Proof.
  intros Hn Ha. destruct (find _ _) as [b|] eqn:F.
  - apply find_some in F as [Hb%list_elem_of_In E]. bool_facts. f_equal.
    apply list_elem_of_lookup in Ha as [i Ha], Hb as [j Hb].
    assert (i = j) as ->; [|congruence].
    eapply (NoDup_lookup _ i j (id a) Hn); rewrite list_lookup_fmap, ?Ha, ?Hb; cbn; congruence.
  - apply list_elem_of_In in Ha. apply (find_none _ _ F) in Ha. by rewrite bool_decide_eq_true_2 in Ha.
Qed.

Lemma find_member n i a :
  find (λ x, bool_decide (id x = i)) (agents n) = Some a → a ∈ agents n ∧ id a = i.
Proof. intros [H1%list_elem_of_In H2]%find_some. by bool_facts. Qed.

(** C28 The controller and the explanation agree: in a network that validates (exactly when
    no id repeats), the desired channels are the unordered pairs of distinct members
    that [explain] answers yes for, each once and in either argument order, and no pair
    mentions a non-member or an agent with itself. *)
Theorem desired_channels_explained n :
  (validate n = Ok () ↔ NoDup (id <$> agents n)) ∧
  (validate n = Ok () →
   ∀ a b, a ≠ b →
     (pair_new a b ∈ desired_channels n ↔ allowed (explain n a b) = true) ∧
     allowed (explain n a b) = allowed (explain n b a)) ∧
  (∀ q, q ∈ desired_channels n →
     ∃ a b, a ∈ agents n ∧ b ∈ agents n ∧ id a ≠ id b ∧ q = pair_new (id a) (id b)).
Proof.
  split; [apply validate_NoDup|]. split.
  - intros Hn%validate_NoDup a b Hne. split.
    + unfold desired_channels. rewrite desired_from_iff. split.
      * intros [?%not_elem_of_empty|(x & y & Hx & Hy & _ & M & E)]; [done|].
        unfold explain. apply pair_new_inj in E as [[-> ->]|[-> ->]]; rewrite !find_id by done;
          rewrite may_establish_allowed; [done|].
        unfold may_establish_channel_allows in *. by rewrite andb_comm.
      * unfold explain. destruct (find _ _) as [x|] eqn:Fx; [|done].
        destruct (find (λ y, bool_decide (id y = b)) _) as [y|] eqn:Fy; [|done].
        rewrite may_establish_allowed. intros M.
        apply find_member in Fx as [Hx <-], Fy as [Hy <-]. right. by exists x, y.
    + unfold explain. do 2 destruct (find _ _); try done.
      rewrite !may_establish_allowed. apply andb_comm.
  - intros q. unfold desired_channels. rewrite desired_from_iff.
    intros [?%not_elem_of_empty|(x & y & Hx & Hy & Hne & _ & E)]; [done|]. by exists x, y.
Qed.

Lemma desired_channels_explained_witness :
  let any := {| from := selector_group (lit "dev"); to := selector_group (lit "dev") |} in
  let agent i g := {| id := i; group := g; label := [] |} in
  let n := {| agents := [agent (lit "x") (lit "dev"); agent (lit "a") (lit "dev");
                         agent (lit "m") (lit "ops")];
              policy := {| levels := {| order := [] |}; rules := [any];
                           mac_flow_control := false |} |} in
  (lit "a", lit "x") ∈ desired_channels n.
Proof.
  intros any agent n.
  apply (proj1 (proj1 (proj2 (desired_channels_explained n)) eq_refl (lit "x") (lit "a")
    ltac:(discriminate))).
  vm_compute. reflexivity.
Defined.

#[local] Instance pair_le_total : Total pair_le.
Proof.
  intros [a b] [c d]. unfold pair_le. cbn.
  destruct (decide (a = c)) as [->|N].
  - destruct (bytes_le_total b d) as [H|H]; [left|right]; split; try done; apply bytes_le_refl.
  - destruct (bytes_le_total a c) as [H|H]; [left|right]; split; try done; congruence.
Qed.
#[local] Instance pair_le_trans : Transitive pair_le.
Proof.
  intros [a b] [c d] [e f] [H1 H2] [H3 H4]. unfold pair_le. cbn in *.
  split; [by eapply bytes_le_trans|]. intros ->.
  assert (e = c) as -> by by apply bytes_le_antisym.
  eapply bytes_le_trans; [by apply H2|by apply H4].
Qed.

Lemma sorted_pairs_sorted s : StronglySorted pair_le (sorted_pairs s).
Proof. apply StronglySorted_merge_sort; apply _. Qed.

Lemma elem_of_sorted q s : q ∈ sorted_pairs s ↔ q ∈ s.
Proof. unfold sorted_pairs. by rewrite merge_sort_Permutation, elem_of_elements. Qed.

(** Reconciliation closes the gap exactly: tearing down what it revokes and bringing up
    what it establishes turns the live channels into the desired ones, it never touches
    a channel that is both live and desired, lists each channel once in ascending order, and is empty
    exactly when the live set already is the desired one, so a second pass does
    nothing. *)
Theorem reconcile_converges desired current :
  let r := reconcile desired current in
  (current ∖ list_to_set (to_revoke r)) ∪ list_to_set (to_establish r) = desired ∧
  (∀ q, q ∈ desired → q ∈ current → q ∉ to_establish r ∧ q ∉ to_revoke r) ∧
  NoDup (to_establish r ++ to_revoke r) ∧
  StronglySorted pair_le (to_establish r) ∧ StronglySorted pair_le (to_revoke r) ∧
  (is_empty r = true ↔ current = desired).
Proof.
  cbv zeta. unfold reconcile. cbn [to_establish to_revoke]. split; [|split; [|split; [|split; [|split]]]].
  - apply set_eq. intros q. rewrite elem_of_union, elem_of_difference, !elem_of_list_to_set.
    rewrite !elem_of_sorted, !elem_of_difference.
    destruct (decide (q ∈ desired)), (decide (q ∈ current)); tauto.
  - intros q Hd Hc. rewrite !elem_of_sorted, !elem_of_difference. tauto.
  - apply list.NoDup_app. unfold sorted_pairs. split_and!.
    + rewrite merge_sort_Permutation. apply NoDup_elements.
    + intros q. rewrite !merge_sort_Permutation, !elem_of_elements, !elem_of_difference. tauto.
    + rewrite merge_sort_Permutation. apply NoDup_elements.
  - apply sorted_pairs_sorted.
  - apply sorted_pairs_sorted.
  - unfold is_empty, sorted_pairs. cbn [to_establish to_revoke].
    rewrite andb_true_iff, !Nat.eqb_eq, !(Permutation_length (merge_sort_Permutation _ _)).
    change (length (elements ?X)) with (size X). rewrite !size_empty_iff, !leibniz_equiv_iff. split.
    + intros [H1 H2]. apply (anti_symm (⊆)); by apply empty_difference_subseteq_L.
    + intros ->. split; apply difference_diag_L.
Qed.

Lemma reconcile_converges_witness :
  let r := reconcile {[(lit "a", lit "b"); (lit "a", lit "c")]} {[(lit "a", lit "b")]} in
  bool_decide ((lit "a", lit "b") ∈ to_revoke r) = false ∧
  to_establish r = [(lit "a", lit "c")].
Proof.
  intros r. split; [|vm_compute; reflexivity]. apply bool_decide_eq_false_2.
  apply (proj1 (proj2 (reconcile_converges {[(lit "a", lit "b"); (lit "a", lit "c")]}
    {[(lit "a", lit "b")]})) (lit "a", lit "b")); set_solver.
Defined.

End Policy.
