(* ===== verification/Graph.v ===== *)
(** * Connectivity, greedy spanning forests and the exchange argument

    The graph facts the overlay planner rests on, over any vertex type: what adding an
    edge does to connectivity, and why the greedy choice over a cost-ascending list is a
    spanning forest of least cost. *)

From stdpp Require Import relations sorting.
From S2P Require Import Prelude.

Section Connectivity.
Context {A : Type}.
Implicit Types E F : list (A * A).

(** Two vertices are joined by a path of edges, walked in either direction. *)
Definition conn E : relation A := rtsc (λ x y, (x, y) ∈ E).

Lemma conn_refl E x : conn E x x.
Proof. apply rtc_refl. Qed.

Lemma conn_sym E x y : conn E x y → conn E y x.
Proof. unfold conn. by symmetry. Qed.

Lemma conn_trans E x y z : conn E x y → conn E y z → conn E x z.
Proof. unfold conn. by intros ->. Qed.

Lemma conn_edge E x y : (x, y) ∈ E → conn E x y.
Proof. intros H. by apply rtc_once, sc_lr. Qed.

(** Paths over [F] suffice when every edge of [E] is a path over [F]. *)
Lemma conn_sub E F x y : (∀ a b, (a, b) ∈ E → conn F a b) → conn E x y → conn F x y.
Proof.
  intros S. induction 1 as [x|x z y [H|H] _ IH]; [apply conn_refl| |].
  - eapply conn_trans; [by apply S|done].
  - eapply conn_trans; [by apply conn_sym, S|done].
Qed.

Lemma conn_mono E F x y : E ⊆ F → conn E x y → conn F x y.
Proof. intros S. apply conn_sub. intros a b H. by apply conn_edge, S. Qed.

(** What one more edge [(u, v)] connects. *)
Lemma conn_cons E u v x y :
  conn ((u, v) :: E) x y ↔
  conn E x y ∨ (conn E x u ∧ conn E v y) ∨ (conn E x v ∧ conn E u y).
Proof.
  split.
  - induction 1 as [x|x z y H _ IH]; [left; apply conn_refl|].
    assert (conn E x z ∨ (x = u ∧ z = v) ∨ (x = v ∧ z = u)) as Hxz.
    { destruct H as [[[= -> ->]|H]%elem_of_cons|[[= -> ->]|H]%elem_of_cons]; auto; left;
        [|apply conn_sym]; by apply conn_edge. }
    destruct Hxz as [Hxz|[[-> ->]|[-> ->]]].
    + destruct IH as [IH|[[IH1 IH2]|[IH1 IH2]]]; eauto 6 using conn_trans.
    + destruct IH as [IH|[[IH1 IH2]|[IH1 IH2]]]; eauto 6 using conn_refl, conn_trans.
    + destruct IH as [IH|[[IH1 IH2]|[IH1 IH2]]]; eauto 6 using conn_refl, conn_trans.
  - assert (∀ a b, conn E a b → conn ((u, v) :: E) a b) as M.
    { intros a b. apply conn_mono. set_solver. }
    assert (conn ((u, v) :: E) u v) as UV by (apply conn_edge; by left).
    intros [H|[[H1 H2]|[H1 H2]]]; [by apply M| |].
    + eapply conn_trans; [by apply M|]. eapply conn_trans; [exact UV|by apply M].
    + eapply conn_trans; [by apply M|]. eapply conn_trans; [apply conn_sym, UV|by apply M].
Qed.

(** A connected new edge changes nothing. *)
Lemma conn_redundant E u v x y : conn E u v → conn ((u, v) :: E) x y → conn E x y.
Proof.
  intros C. apply conn_sub. intros a b [[= -> ->]|H]%elem_of_cons; [done|by apply conn_edge].
Qed.

Lemma conn_nil x y : conn [] x y ↔ x = y.
Proof.
  split; [|by intros ->; apply conn_refl].
  induction 1 as [|x z y [H|H] _ IH]; [done| |]; by apply elem_of_nil in H.
Qed.

#[global] Instance conn_dec `{EqDecision A} E : RelDecision (conn E).
Proof.
  induction E as [|[u v] E IH]; intros x y.
  - refine (cast_if (decide (x = y))); by rewrite conn_nil.
  - refine (cast_if (decide (conn E x y ∨ (conn E x u ∧ conn E v y) ∨ (conn E x v ∧ conn E u y))));
      by rewrite conn_cons.
Defined.

(** A vertex that is connected to another one is the end of an edge. *)
Lemma isolated E x y : conn E x y → x = y ∨ ∃ z, (x, z) ∈ E ∨ (z, x) ∈ E.
Proof. destruct 1 as [x|x z y [H|H] _]; eauto. Qed.

(** The first edge of [T] that joins [u] and [v] lies on a cycle through a new edge
    [(u, v)]: with that one, it is no longer needed. *)
Lemma exchange `{EqDecision A} E T u v :
  ¬ conn E u v → conn (E ++ T) u v →
  ∃ T1 x y T2, T = T1 ++ (x, y) :: T2 ∧ ¬ conn (E ++ T1) u v ∧
               conn ((u, v) :: E ++ T1) x y.
Proof.
  revert E. induction T as [|[x y] T IH]; intros E N C.
  - by rewrite app_nil_r in C.
  - destruct (decide (conn (E ++ [(x, y)]) u v)) as [D|D].
    + exists [], x, y, T. rewrite app_nil_r. split; [done|]. split; [done|].
      assert (conn ((x, y) :: E) u v) as D' by (eapply conn_mono; [|exact D]; set_solver).
      apply conn_cons in D'. apply conn_cons.
      destruct D' as [?|[[H1 H2]|[H1 H2]]]; [done| |]; right.
      * left. split; apply conn_sym; done.
      * right. split; [|]; apply conn_sym; done.
    + destruct (IH (E ++ [(x, y)])) as (T1 & x' & y' & T2 & -> & N' & C'); [done| |].
      { by rewrite <- app_assoc. }
      exists ((x, y) :: T1), x', y', T2. rewrite <- app_assoc in N', C'. done.
Qed.

End Connectivity.

Lemma conn_image {A B} (f : A → B) (E : list (A * A)) (F : list (B * B)) x y :
  (∀ a b, (a, b) ∈ E → (f a, f b) ∈ F) → conn E x y → conn F (f x) (f y).
Proof. intros S. apply rtsc_congruence, S. Qed.

Section Greedy.
Context {A W : Type} `{EqDecision A} `{EqDecision W} (ends : W → A * A).
Implicit Types R T : list W.

Definition edges R : list (A * A) := ends <$> R.

(** The links [R] connect the two ends of [e]. *)
Definition joins R (e : W) : Prop := conn (edges R) (ends e).1 (ends e).2.

#[global] Instance joins_dec R e : Decision (joins R e).
Proof. unfold joins. apply _. Defined.

(** Going through [es] with the links [R] in place, taking each link that connects
    something new. *)
Inductive greedy : list W → list W → list W → Prop :=
| greedy_nil R : greedy R [] []
| greedy_skip R e es out : joins R e → greedy R es out → greedy R (e :: es) out
| greedy_take R e es out :
    ¬ joins R e → greedy (R ++ [e]) es out → greedy R (e :: es) (e :: out).

Lemma elem_of_edges R a b : (a, b) ∈ edges R ↔ ∃ e, e ∈ R ∧ ends e = (a, b).
Proof. unfold edges. rewrite list_elem_of_fmap. naive_solver. Qed.

Lemma edges_app R T : edges (R ++ T) = edges R ++ edges T.
Proof. apply fmap_app. Qed.

Lemma joins_elem R e : e ∈ R → joins R e.
Proof.
  intros H. apply conn_edge, elem_of_edges. exists e. split; [done|]. by destruct (ends e).
Qed.

(** Links that [T] all joins can replace [R] by [T]. *)
Lemma conn_joins R T x y :
  (∀ e, e ∈ R → joins T e) → conn (edges R) x y → conn (edges T) x y.
Proof.
  intros S. apply conn_sub. intros a b (e & He & E)%elem_of_edges.
  specialize (S e He). unfold joins in S. by rewrite E in S.
Qed.

Lemma joins_mono R T e : R ⊆ T → joins R e → joins T e.
Proof. intros S. apply conn_joins. intros f Hf. by apply joins_elem, S. Qed.

Lemma greedy_sublist R es out : greedy R es out → out `sublist_of` es.
Proof. induction 1; [done|by apply sublist_cons|by apply sublist_skip]. Qed.

(** The links taken connect the ends of every candidate. *)
Lemma greedy_spans R es out e : greedy R es out → e ∈ es → joins (R ++ out) e.
Proof.
  intros G. revert e. induction G as [R|R e es out J G IH|R e es out J G IH]; intros f.
  - by intros ?%elem_of_nil.
  - intros [->|H]%elem_of_cons; [|auto]. eapply joins_mono; [|done]. set_solver.
  - intros [->|H]%elem_of_cons; [apply joins_elem; set_solver|].
    specialize (IH f H). by rewrite <- app_assoc in IH.
Qed.

(** Each link taken connects what the ones before it do not. *)
Lemma greedy_grows R es out l1 e l2 :
  greedy R es out → out = l1 ++ e :: l2 → ¬ joins (R ++ l1) e.
Proof.
  intros G. revert l1. induction G as [R|R e' es out J G IH|R e' es out J G IH]; intros l1 E.
  - by destruct l1.
  - by apply IH.
  - destruct l1 as [|x l1]; injection E as -> E.
    + by rewrite app_nil_r.
    + specialize (IH l1 E). by rewrite <- app_assoc in IH.
Qed.

(** So no link taken is redundant: without it its ends fall apart. *)
Lemma greedy_forest R es out l1 e l2 :
  greedy R es out → out = l1 ++ e :: l2 → ¬ joins (R ++ l1 ++ l2) e.
Proof.
  intros G E C. pose proof (greedy_grows _ _ _ _ _ _ G E) as N. unfold joins in N, C.
  rewrite app_assoc, edges_app in C.
  destruct (exchange _ _ _ _ N C) as (T1 & x & y & T2 & ET & _ & CX).
  apply fmap_app_inv in ET as (m1 & m2' & -> & EM & ->).
  destruct m2' as [|f m2]; [done|]. injection EM as Ef ->.
  apply (greedy_grows R es out (l1 ++ e :: m1) f m2 G); [by rewrite E, <- app_assoc|].
  unfold joins. rewrite <- Ef. cbn. eapply conn_mono; [|exact CX]. unfold edges.
  rewrite !fmap_app, fmap_cons. destruct (ends e). set_solver.
Qed.

Lemma spans_without R T e f t1 t2 g :
  T = t1 ++ f :: t2 → joins (R ++ [e] ++ t1) f → joins (R ++ T) g →
  joins ((R ++ [e]) ++ filter (λ x, x ≠ e) (t1 ++ t2)) g.
Proof.
  intros -> F. set (S := (R ++ [e]) ++ filter _ _).
  assert (∀ x, x ∈ R ∨ x = e ∨ x ∈ t1 ++ t2 → joins S x) as K.
  { intros x Hx. apply joins_elem. unfold S. destruct (decide (x = e)) as [->|Ne]; [set_solver|].
    rewrite !elem_of_app, list_elem_of_filter. set_solver. }
  apply conn_joins. intros x Hx. destruct (decide (x = f)) as [->|Nf].
  - eapply conn_joins; [|exact F]. intros y Hy. apply K. set_solver.
  - apply K. set_solver.
Qed.

Context (cost : W → N).

Definition weight R : N := foldr (λ e s, cost e + s) 0 R.

Lemma weight_cons e R : weight (e :: R) = cost e + weight R.
Proof. done. Qed.

Lemma weight_app R T : weight (R ++ T) = weight R + weight T.
Proof. induction R as [|e R IH]; [done|]. cbn [app]. rewrite !weight_cons, IH. lia. Qed.

Lemma weight_filter (P : W → Prop) `{!∀ e, Decision (P e)} R : weight (filter P R) <= weight R.
Proof.
  induction R as [|e R IH]; [done|]. rewrite filter_cons. case_decide; rewrite ?weight_cons; lia.
Qed.

(** On a cost-ascending list the greedy choice is the cheapest: whatever set of
    candidates connects them all costs at least as much. *)
Lemma greedy_optimal R es out T :
  StronglySorted (λ x y, cost x <= cost y) es → greedy R es out → T ⊆ es →
  (∀ e, e ∈ es → joins (R ++ T) e) → weight out <= weight T.
Proof.
  intros S G. revert T. induction G as [R|R e es out J G IH|R e es out J G IH]; intros T ST C.
  - cbn. lia.
  - apply StronglySorted_cons in S as [_ S]. etrans; [|apply (weight_filter (λ x, x ≠ e))].
    apply IH; [done| |].
    + intros x [Nx Hx]%list_elem_of_filter. apply ST in Hx. set_solver.
    + intros f Hf. eapply conn_joins; [|apply C; by right]. intros x Hx.
      destruct (decide (x = e)) as [->|Nx]; [eapply joins_mono; [|exact J]; set_solver|].
      apply joins_elem. rewrite elem_of_app, list_elem_of_filter in *. tauto.
  - apply StronglySorted_cons in S as [Fa S]. rewrite list.Forall_forall in Fa.
    pose proof (C e (list_elem_of_here _ _)) as Ce. unfold joins in J, Ce. rewrite edges_app in Ce.
    destruct (exchange _ _ _ _ J Ce) as (T1 & x & y & T2 & ET & _ & CX).
    apply fmap_app_inv in ET as (t1 & t2' & -> & EM & ->).
    destruct t2' as [|f t2]; [done|]. injection EM as Ef ->.
    assert (joins (R ++ [e] ++ t1) f) as F.
    { unfold joins. rewrite <- Ef. cbn. eapply conn_mono; [|exact CX]. unfold edges.
      rewrite fmap_app, fmap_cons. destruct (ends e). set_solver. }
    specialize (IH S (filter (λ x, x ≠ e) (t1 ++ t2))).
    pose proof (weight_filter (λ x, x ≠ e) (t1 ++ t2)) as WF.
    assert (cost e <= cost f) as L.
    { assert (f ∈ e :: es) as [->|Hf]%elem_of_cons by (apply ST; set_solver); [done|by apply Fa]. }
    assert (weight out <= weight (filter (λ x, x ≠ e) (t1 ++ t2))) as I.
    { apply IH.
      - intros z [Nz Hz]%list_elem_of_filter.
        assert (z ∈ e :: es) as Hz' by (apply ST; set_solver). set_solver.
      - intros g Hg. eapply spans_without; [done|exact F|]. apply C. by right. }
    rewrite weight_app in WF |- *. rewrite !weight_cons. lia.
Qed.

End Greedy.
