(* ===== verification/Overlay.v ===== *)
(** * The overlay planner

    [crates/common/src/overlay.rs]: the minimum-latency backbone of a network's mesh
    (Kruskal with a disjoint-set forest) and the shortcuts added to it. A [None] result is
    a panic (an index out of range). *)

From stdpp Require Import relations sorting.
From S2P Require Import Prelude RustStd Maps Graph Policy.

(** ** Disjoint sets *)

Module DisjointSet.

(** src/crates/common/src/overlay.rs:51-54 [DisjointSet] *)
Record t := { parent : list nat; size : list nat }.

(** src/crates/common/src/overlay.rs:57-59 [DisjointSet::new] *)
Definition new (n : nat) : t := {| parent := seq 0 n; size := replicate n 1%nat |}.

(** src/crates/common/src/overlay.rs:61-67 [DisjointSet::find]: the loop, given at most
    [fuel] steps. *)
Fixpoint find_loop (fuel : nat) (parent : list nat) (x : nat) : option (nat * list nat) :=
  match fuel with
  | O => None
  | S fuel' =>
    p ← parent !! x;
    if (p =? x)%nat then Some (x, parent)
    else
      gp ← parent !! p;
      let parent := <[x := gp]> parent in
      x ← parent !! x;
      find_loop fuel' parent x
  end.

(** src/crates/common/src/overlay.rs:61-67 [DisjointSet::find]: a chain of parents is
    shorter than the forest. *)
Definition find (ds : t) (x : nat) : option (nat * t) :=
  '(r, par) ← find_loop (S (length (parent ds))) (parent ds) x;
  Some (r, {| parent := par; size := size ds |}).

(** src/crates/common/src/overlay.rs:71-80 [DisjointSet::union] *)
Definition union (ds : t) (x y : nat) : option (bool * t) :=
  '(rx, ds) ← find ds x;
  '(ry, ds) ← find ds y;
  if (rx =? ry)%nat then Some (false, ds)
  else
    sx ← size ds !! rx;
    sy ← size ds !! ry;
    let '(big, small) := if (sy <=? sx)%nat then (rx, ry) else (ry, rx) in
    _ ← parent ds !! small;
    s_small ← size ds !! small;
    s_big ← size ds !! big;
    Some (true, {| parent := <[small := big]> (parent ds);
                   size := <[big := (s_big + s_small)%nat]> (size ds) |}).

(** ** The forest *)

(** [r] is the root of [i]. *)
Inductive rooted (par : list nat) : nat → nat → Prop :=
| root_here i : par !! i = Some i → rooted par i i
| root_up i p r : par !! i = Some p → p ≠ i → rooted par p r → rooted par i r.

(** Parents stay in range and a node that is not a root has a smaller set than its
    parent, so there are no cycles. *)
Record wf (n : nat) (ds : t) : Prop := {
  wf_parent : length (parent ds) = n;
  wf_size : length (size ds) = n;
  wf_pos i : (i < n)%nat → (1 ≤ size ds !!! i)%nat;
  wf_up i p : parent ds !! i = Some p →
    (p < n)%nat ∧ (p = i ∨ (size ds !!! i < size ds !!! p)%nat)
}.

Definition same (ds : t) (i j : nat) : Prop :=
  ∃ r, rooted (parent ds) i r ∧ rooted (parent ds) j r.

Definition roots (par : list nat) : list nat :=
  filter (λ i, par !! i = Some i) (seq 0 (length par)).

Lemma rooted_det par i r1 r2 : rooted par i r1 → rooted par i r2 → r1 = r2.
Proof. intros H. revert r2. induction H; inversion 1; naive_solver. Qed.

Lemma rooted_root par i r : rooted par i r → par !! r = Some r.
Proof. by induction 1. Qed.

Lemma rooted_self par i : rooted par i i ↔ par !! i = Some i.
Proof. split; [apply rooted_root|apply root_here]. Qed.

Lemma rooted_lt par i r : rooted par i r → (i < length par)%nat.
Proof. destruct 1; by eapply lookup_lt_Some. Qed.

(** How many nodes have a larger set than [x]: this shrinks on the way up. *)
Definition above (sz : list nat) (x : nat) : nat :=
  length (filter (λ j, (sz !!! x < sz !!! j)%nat) (seq 0 (length sz))).

Lemma above_le sz x : (above sz x ≤ length sz)%nat.
Proof. unfold above. etrans; [apply length_filter|]. by rewrite length_seq. Qed.

Lemma above_up sz x p :
  (p < length sz)%nat → (sz !!! x < sz !!! p)%nat → (above sz p < above sz x)%nat.
Proof.
  intros L S. unfold above.
  rewrite <- (list_filter_filter_l (λ j, (sz !!! p < sz !!! j)%nat) (λ j, (sz !!! x < sz !!! j)%nat))
    by (intros; lia).
  apply length_filter_lt with p; [|lia].
  apply list_elem_of_filter. split; [done|]. apply elem_of_seq. lia.
Qed.

Lemma forest_new n : wf n (new n).
Proof.
  split; cbn; [by rewrite length_seq|by rewrite length_replicate| |].
  - intros i L. by rewrite lookup_total_replicate_2.
  - intros i p [-> L]%lookup_seq. split; [lia|by left].
Qed.

Lemma rooted_total n ds i : wf n ds → (i < n)%nat → ∃ r, rooted (parent ds) i r.
Proof.
  intros WF. remember (above (size ds) i) as k eqn:K. revert i K.
  induction (lt_wf k) as [k _ IH]; intros i -> L.
  destruct (lookup_lt_is_Some_2 (parent ds) i) as [p Hp]; [by rewrite (wf_parent n)|].
  destruct (wf_up _ _ WF _ _ Hp) as [Lp [->|S]]; [by exists i; apply root_here|].
  destruct (decide (p = i)) as [->|Ne]; [lia|].
  edestruct (IH (above (size ds) p)) as [r Hr]; [apply above_up; [by rewrite (wf_size n)|done]|done|done|].
  exists r. by eapply root_up.
Qed.

(** Two forests with the same roots for every node: path halving does not change more. *)
Definition same_roots (par par' : list nat) : Prop := ∀ i r, rooted par' i r ↔ rooted par i r.

Lemma wf_lookup n ds i : wf n ds → (i < n)%nat → ∃ p, parent ds !! i = Some p.
Proof. intros WF L. apply lookup_lt_is_Some_2. by rewrite (wf_parent n). Qed.

(** Path halving: a node is moved below its grandparent. *)
Lemma wf_halve n par sz x p gp :
  wf n {| parent := par; size := sz |} → par !! x = Some p → p ≠ x → par !! p = Some gp →
  wf n {| parent := <[x := gp]> par; size := sz |} ∧ gp ≠ x.
Proof.
  intros WF Hx Ne Hp. destruct (wf_up _ _ WF _ _ Hx) as [Lp [?|Sx]]; [done|].
  destruct (wf_up _ _ WF _ _ Hp) as [Lg Sp]. cbn in *.
  assert (sz !!! x < sz !!! gp)%nat as S by (destruct Sp as [->|?]; lia).
  split; [|intros ->; lia]. split; cbn.
  - rewrite length_insert. apply (wf_parent _ _ WF).
  - apply (wf_size _ _ WF).
  - apply (wf_pos _ _ WF).
  - intros i q Hi. destruct (decide (i = x)) as [->|Ni].
    + rewrite list_lookup_insert_eq in Hi by (by eapply lookup_lt_Some). injection Hi as <-. auto.
    + rewrite list_lookup_insert_ne in Hi by done. by apply (wf_up _ _ WF).
Qed.

Lemma rooted_halve n par sz x p gp :
  wf n {| parent := par; size := sz |} → par !! x = Some p → p ≠ x → par !! p = Some gp →
  same_roots par (<[x := gp]> par).
Proof.
  intros WF Hx Ne Hp. destruct (wf_halve _ _ _ _ _ _ WF Hx Ne Hp) as [_ Ng].
  assert (<[x := gp]> par !! x = Some gp) as Hx'
    by (apply list_lookup_insert_eq; by eapply lookup_lt_Some).
  assert (∀ i r, rooted par i r → rooted (<[x := gp]> par) i r) as F.
  { induction 1 as [i Hi|i q r Hi Nq R IH].
    - apply root_here. rewrite list_lookup_insert_ne; [done|]. intros <-. congruence.
    - destruct (decide (i = x)) as [->|Ni].
      + simplify_eq. destruct (decide (gp = p)) as [->|Nq']; [by eapply root_up|].
        inversion IH as [? E|? q' ? E ? R']; subst;
          rewrite list_lookup_insert_ne in E by done; simplify_eq. by eapply root_up.
      + eapply root_up; [|exact Nq|exact IH]. by rewrite list_lookup_insert_ne. }
  intros i r. split; [|apply F]. intros R.
  destruct (rooted_total n _ i WF) as [r0 R0].
  { rewrite <- (wf_parent _ _ WF). cbn. rewrite <- (length_insert par x gp). by eapply rooted_lt. }
  by rewrite (rooted_det _ _ _ _ R (F _ _ R0)).
Qed.

Lemma find_loop_spec n par sz fuel x :
  wf n {| parent := par; size := sz |} → (x < n)%nat → (above sz x < fuel)%nat →
  ∃ r par', find_loop fuel par x = Some (r, par') ∧ rooted par x r ∧
            wf n {| parent := par'; size := sz |} ∧ same_roots par par'.
Proof.
  revert par x. induction fuel as [|fuel IH]; intros par x WF L A; [lia|].
  destruct (wf_lookup _ _ _ WF L) as [p Hx]. cbn in *. rewrite Hx. cbn.
  destruct (Nat.eqb_spec p x) as [->|Ne].
  { exists x, par. split; [done|]. split; [by apply root_here|]. split; [done|]. by intros ? ?. }
  destruct (wf_up _ _ WF _ _ Hx) as [Lp [?|Sx]]; [done|]. cbn in Sx.
  destruct (wf_lookup _ _ _ WF Lp) as [gp Hp]. cbn in Hp. rewrite Hp. cbn.
  rewrite list_lookup_insert_eq by (by eapply lookup_lt_Some). cbn.
  destruct (wf_halve _ _ _ _ _ _ WF Hx Ne Hp) as [WF' Ng].
  pose proof (rooted_halve _ _ _ _ _ _ WF Hx Ne Hp) as SR.
  destruct (wf_up _ _ WF _ _ Hp) as [Lg Sp]. cbn in Sp.
  destruct (IH (<[x := gp]> par) gp WF' Lg) as (r & par' & -> & R & WF'' & SR').
  { assert (above sz gp < above sz x)%nat; [|lia]. apply above_up; [by rewrite (wf_size _ _ WF : length sz = n)|].
    destruct Sp as [->|?]; lia. }
  exists r, par'. split; [done|]. apply SR in R. split; [|split; [done|]].
  - destruct (decide (gp = p)) as [->|Nq]; [by eapply root_up|].
    eapply root_up; [exact Hx|done|]. eapply root_up; [exact Hp|done|done].
  - intros i r'. split; intros Q; [by apply SR, SR'|by apply SR', SR].
Qed.

Lemma find_spec n ds x :
  wf n ds → (x < n)%nat →
  ∃ r par', find ds x = Some (r, {| parent := par'; size := size ds |}) ∧
            rooted (parent ds) x r ∧ wf n {| parent := par'; size := size ds |} ∧
            same_roots (parent ds) par'.
Proof.
  intros WF L. destruct ds as [par sz]. unfold find. cbn [parent size].
  destruct (find_loop_spec n par sz (S (length par)) x WF L) as (r & par' & E & ?).
  - pose proof (above_le sz x). rewrite (wf_parent _ _ WF : length par = n).
    rewrite (wf_size _ _ WF : length sz = n) in *. lia.
  - exists r, par'. by rewrite E.
Qed.

(** Linking the root [small] below the root [big]. *)
Lemma wf_link n par sz big small sb ss :
  wf n {| parent := par; size := sz |} → par !! big = Some big → par !! small = Some small →
  big ≠ small → sz !! big = Some sb → sz !! small = Some ss →
  wf n {| parent := <[small := big]> par; size := <[big := (sb + ss)%nat]> sz |}.
Proof.
  intros WF Hb Hs Ne Zb Zs. pose proof (wf_parent _ _ WF) as LP. pose proof (wf_size _ _ WF) as LS.
  cbn in LP, LS. assert (big < n)%nat as Lb by (rewrite <- LP; by eapply lookup_lt_Some).
  assert (small < n)%nat as Ls by (rewrite <- LP; by eapply lookup_lt_Some).
  pose proof (wf_pos _ _ WF big Lb) as P1. pose proof (wf_pos _ _ WF small Ls) as P2. cbn in P1, P2.
  rewrite (list_lookup_total_correct _ _ _ Zb) in P1. rewrite (list_lookup_total_correct _ _ _ Zs) in P2.
  assert (∀ i, sz !!! i ≤ <[big := (sb + ss)%nat]> sz !!! i)%nat as G.
  { intros i. destruct (decide (i = big)) as [->|N].
    - rewrite list_lookup_total_insert_eq by lia. rewrite (list_lookup_total_correct _ _ _ Zb). lia.
    - by rewrite list_lookup_total_insert_ne. }
  split; cbn; rewrite ?length_insert; [done|done| |].
  - intros i Li. pose proof (wf_pos _ _ WF i Li). cbn in *. specialize (G i). lia.
  - intros i p Hi. destruct (decide (i = small)) as [->|Ni].
    + rewrite list_lookup_insert_eq in Hi by lia. injection Hi as <-. split; [done|]. right.
      rewrite list_lookup_total_insert_eq, list_lookup_total_insert_ne by (lia||done).
      rewrite (list_lookup_total_correct _ _ _ Zs). lia.
    + rewrite list_lookup_insert_ne in Hi by done. destruct (wf_up _ _ WF _ _ Hi) as [Lp [->|S]].
      { split; [done|by left]. }
      cbn in S. split; [done|]. destruct (decide (i = big)) as [->|Nb]; [left; congruence|right].
      rewrite (list_lookup_total_insert_ne sz big i) by done. specialize (G p). lia.
Qed.

Definition relabel (small big r : nat) : nat := if (r =? small)%nat then big else r.

Lemma rooted_link par big small i r :
  par !! big = Some big → par !! small = Some small → big ≠ small →
  rooted par i r → rooted (<[small := big]> par) i (relabel small big r).
Proof.
  intros Hb Hs Ne. induction 1 as [i Hi|i p r Hi Np R IH].
  - unfold relabel. destruct (Nat.eqb_spec i small) as [->|Ni].
    + eapply root_up; [apply list_lookup_insert_eq; by eapply lookup_lt_Some|done|].
      apply root_here. by rewrite list_lookup_insert_ne.
    + apply root_here. by rewrite list_lookup_insert_ne.
  - eapply root_up; [|exact Np|exact IH]. rewrite list_lookup_insert_ne; [done|]. congruence.
Qed.

Lemma elem_of_roots par i : i ∈ roots par ↔ par !! i = Some i.
Proof.
  unfold roots. rewrite list_elem_of_filter, elem_of_seq. split; [tauto|].
  intros H. split; [done|]. apply lookup_lt_Some in H. lia.
Qed.

Lemma NoDup_roots par : NoDup (roots par).
Proof. apply NoDup_filter, NoDup_seq. Qed.

Lemma roots_same par par' : same_roots par par' → roots par ≡ₚ roots par'.
Proof.
  intros SR. apply NoDup_Permutation; [apply NoDup_roots..|].
  intros i. rewrite !elem_of_roots, <- !rooted_self. symmetry. apply SR.
Qed.

Lemma roots_link par big small :
  par !! small = Some small → big ≠ small →
  roots par ≡ₚ small :: roots (<[small := big]> par).
Proof.
  intros Hs Ne. pose proof (lookup_lt_Some _ _ _ Hs) as L. apply NoDup_Permutation.
  - apply NoDup_roots.
  - constructor; [|apply NoDup_roots]. rewrite elem_of_roots, list_lookup_insert_eq by done. congruence.
  - intros i. rewrite elem_of_cons, !elem_of_roots. destruct (decide (i = small)) as [->|N].
    + naive_solver.
    + rewrite list_lookup_insert_ne by done. naive_solver.
Qed.

Lemma same_iff ds i j ri rj :
  rooted (parent ds) i ri → rooted (parent ds) j rj → same ds i j ↔ ri = rj.
Proof.
  intros Ri Rj. split; [|intros <-; by exists ri].
  intros (r & R1 & R2). by rewrite (rooted_det _ _ _ _ Ri R1), (rooted_det _ _ _ _ Rj R2).
Qed.

(** What the two halves of a union bring together. *)
Definition bridged (ds : t) (x y i j : nat) : Prop :=
  same ds i j ∨ (same ds i x ∧ same ds y j) ∨ (same ds i y ∧ same ds x j).

Lemma same_link n ds ds' par2 x y rx ry big small :
  wf n ds → same_roots (parent ds) par2 →
  rooted (parent ds) x rx → rooted (parent ds) y ry → rx ≠ ry →
  (big = rx ∧ small = ry) ∨ (big = ry ∧ small = rx) →
  parent ds' = <[small := big]> par2 →
  ∀ i j, (i < n)%nat → (j < n)%nat → same ds' i j ↔ bridged ds x y i j.
Proof.
  intros WF SR Rx Ry Ne BS E i j Li Lj.
  destruct (rooted_total _ _ _ WF Li) as [ri Ri], (rooted_total _ _ _ WF Lj) as [rj Rj].
  unfold bridged. rewrite (same_iff ds _ _ _ _ Ri Rj), (same_iff ds _ _ _ _ Ri Rx),
    (same_iff ds _ _ _ _ Ry Rj), (same_iff ds _ _ _ _ Ri Ry), (same_iff ds _ _ _ _ Rx Rj).
  assert (par2 !! rx = Some rx ∧ par2 !! ry = Some ry) as [Bx By].
  { split; apply rooted_self, SR, rooted_self; by eapply rooted_root. }
  assert (∀ k r, rooted (parent ds) k r → rooted (parent ds') k (relabel small big r)) as RL.
  { intros k r R. rewrite E. apply SR in R. apply rooted_link; [..|done]; naive_solver. }
  rewrite (same_iff ds' _ _ _ _ (RL _ _ Ri) (RL _ _ Rj)). unfold relabel.
  destruct (Nat.eqb_spec ri small), (Nat.eqb_spec rj small); lia.
Qed.

(** A union reports whether the two were apart, and joins their classes and no others;
    a real one costs one root. *)
Lemma union_spec n ds x y :
  wf n ds → (x < n)%nat → (y < n)%nat →
  ∃ fresh ds', union ds x y = Some (fresh, ds') ∧ wf n ds' ∧
    (fresh = false ↔ same ds x y) ∧
    (∀ i j, (i < n)%nat → (j < n)%nat → same ds' i j ↔ bridged ds x y i j) ∧
    (length (roots (parent ds')) + (if fresh then 1 else 0) = length (roots (parent ds)))%nat.
Proof.
  intros WF Lx Ly. unfold union.
  destruct (find_spec n ds x WF Lx) as (rx & par1 & -> & Rx & WF1 & S1). cbn [mbind option_bind].
  destruct (find_spec n _ y WF1 Ly) as (ry & par2 & -> & Ry & WF2 & S2). cbn [mbind option_bind].
  cbn [parent size] in *. apply S1 in Ry.
  assert (same_roots (parent ds) par2) as SR.
  { intros i r. split; intros Q; [by apply S1, S2|by apply S2, S1]. }
  destruct (Nat.eqb_spec rx ry) as [->|Ne].
  - assert (same ds x y) as SXY by by exists ry.
    exists false. eexists. split; [done|]. split; [done|]. split; [done|]. split.
    + intros i j Li Lj.
      destruct (rooted_total _ _ _ WF Li) as [ri Ri], (rooted_total _ _ _ WF Lj) as [rj Rj].
      rewrite (same_iff _ i j ri rj) by by (apply SR). unfold bridged.
      rewrite (same_iff ds _ _ _ _ Ri Rj), (same_iff ds _ _ _ _ Ri Rx),
        (same_iff ds _ _ _ _ Ry Rj), (same_iff ds _ _ _ _ Ri Ry), (same_iff ds _ _ _ _ Rx Rj). lia.
    + cbn. rewrite Nat.add_0_r. symmetry. by apply Permutation_length, roots_same.
  - assert (par2 !! rx = Some rx ∧ par2 !! ry = Some ry) as [Bx By].
    { split; apply rooted_self, SR, rooted_self; by eapply rooted_root. }
    assert (∀ i, par2 !! i = Some i → ∃ s, size ds !! i = Some s) as Z.
    { intros i Hi. apply lookup_lt_is_Some_2. rewrite (wf_size _ _ WF).
      rewrite <- (wf_parent _ _ WF2). by eapply lookup_lt_Some. }
    destruct (Z rx Bx) as [sx Zx], (Z ry By) as [sy Zy]. rewrite Zx, Zy. cbn [mbind option_bind].
    assert (∃ big small sb ss, (if (sy <=? sx)%nat then (rx, ry) else (ry, rx)) = (big, small) ∧
      size ds !! big = Some sb ∧ size ds !! small = Some ss ∧ par2 !! big = Some big ∧
      par2 !! small = Some small ∧ big ≠ small ∧
      ((big = rx ∧ small = ry) ∨ (big = ry ∧ small = rx)))
      as (big & small & sb & ss & -> & Zb & Zs & Bb & Bs & Nbs & BS).
    { destruct (sy <=? sx)%nat; [exists rx, ry, sx, sy|exists ry, rx, sy, sx]; naive_solver. }
    rewrite Bs, Zs, Zb. cbn [mbind option_bind]. exists true. eexists. split; [done|].
    split; [by apply wf_link|]. split.
    + split; [done|]. intros SXY. by apply (same_iff ds _ _ _ _ Rx Ry) in SXY.
    + split; [by eapply same_link|]. cbn [parent].
      rewrite (roots_same _ _ SR), (roots_link par2 big small) by done. cbn. lia.
Qed.

Lemma same_new n i j : (i < n)%nat → (j < n)%nat → same (new n) i j ↔ i = j.
Proof.
  intros Li Lj. apply same_iff; apply root_here; cbn; by apply lookup_seq_lt.
Qed.

Lemma roots_new n : length (roots (parent (new n))) = n.
Proof.
  cbn. unfold roots. rewrite length_seq.
  assert (∀ l : list nat, (∀ i, i ∈ l → seq 0 n !! i = Some i) → filter (λ i, seq 0 n !! i = Some i) l = l) as K.
  { induction l as [|i l IH]; intros Hl; [done|]. rewrite filter_cons_True by (apply Hl; by left).
    f_equal. apply IH. intros j Hj. apply Hl. by right. }
  rewrite K; [by rewrite length_seq|]. intros i Hi. apply lookup_seq_lt. apply elem_of_seq in Hi. lia.
Qed.

(** With a single root all nodes are together. *)
Lemma one_root n ds i j :
  wf n ds → (length (roots (parent ds)) ≤ 1)%nat → (i < n)%nat → (j < n)%nat → same ds i j.
Proof.
  intros WF L Li Lj.
  destruct (rooted_total _ _ _ WF Li) as [ri Ri], (rooted_total _ _ _ WF Lj) as [rj Rj].
  apply (same_iff ds _ _ _ _ Ri Rj).
  assert (ri ∈ roots (parent ds)) as Mi by (apply elem_of_roots; by eapply rooted_root).
  assert (rj ∈ roots (parent ds)) as Mj by (apply elem_of_roots; by eapply rooted_root).
  destruct (roots (parent ds)) as [|r [|? ?]]; [by apply elem_of_nil in Mi| |cbn in L; lia].
  apply list_elem_of_singleton in Mi, Mj. congruence.
Qed.

(** Several roots are apart. *)
Lemma apart n ds :
  wf n ds → (1 < length (roots (parent ds)))%nat →
  ∃ i j, (i < n)%nat ∧ (j < n)%nat ∧ ¬ same ds i j.
Proof.
  intros WF L. pose proof (NoDup_roots (parent ds)) as ND.
  destruct (roots (parent ds)) as [|i [|j l]] eqn:E; cbn in L; [lia..|].
  assert (parent ds !! i = Some i) as Hi by (apply elem_of_roots; rewrite E; by left).
  assert (parent ds !! j = Some j) as Hj by (apply elem_of_roots; rewrite E; right; by left).
  exists i, j. rewrite <- (wf_parent _ _ WF). split; [by eapply lookup_lt_Some|].
  split; [by eapply lookup_lt_Some|]. rewrite same_iff by (by apply root_here).
  intros ->. apply list.NoDup_cons in ND as [N _]. apply N. by left.
Qed.

End DisjointSet.

Module Overlay.
Import DisjointSet (union).

(** src/crates/common/src/overlay.rs:23-28 [WeightedLink] *)
Record WeightedLink := { a : bytes; b : bytes; cost : N }.

#[global] Instance WeightedLink_eq_dec : EqDecision WeightedLink.
Proof. solve_decision. Defined.

(** src/crates/common/src/overlay.rs:39-48 [OverlayPlan] *)
Record OverlayPlan := { links : list (bytes * bytes); total_cost : N; connected : bool }.

(** src/crates/common/src/overlay.rs:84-90 [canon] *)
Definition canon (x y : bytes) : bytes * bytes := if bytes_leb x y then (x, y) else (y, x).

(** src/crates/common/src/overlay.rs:102-104 [min_latency_overlay]: the index of the
    nodes; a later node takes over an id. *)
Definition index_of (nodes : list bytes) : gmap bytes nat :=
  foldl (λ m p, <[p.2 := p.1]> m) ∅ (imap pair nodes).

(** A candidate as it is sorted: cost, canonical pair, indices of the two ends. *)
Record Entry := {
  e_cost : N; e_ca : bytes; e_cb : bytes; e_ia : nat; e_ib : nat
}.

(** src/crates/common/src/overlay.rs:109-116 [min_latency_overlay]: the candidate a link
    gives. *)
Definition entry (index : gmap bytes nat) (l : WeightedLink) : option Entry :=
  if bool_decide (a l = b l) then None
  else
    ia ← index !! a l;
    ib ← index !! b l;
    let '(ca, cb) := canon (a l) (b l) in
    Some {| e_cost := cost l; e_ca := ca; e_cb := cb; e_ia := ia; e_ib := ib |}.

(** src/crates/common/src/overlay.rs:118-118 [min_latency_overlay]: the order
    [(cost, ca, cb)]. *)
Definition entry_leb (x y : Entry) : bool :=
  (e_cost x <? e_cost y) ||
  ((e_cost x =? e_cost y) &&
   if bool_decide (e_ca x = e_ca y) then bytes_leb (e_cb x) (e_cb y)
   else bytes_leb (e_ca x) (e_ca y)).

(** src/crates/common/src/overlay.rs:122-130 [min_latency_overlay]: the loop, stopped when
    the tree is complete. *)
Fixpoint kruskal (n : nat) (sorted : list Entry) (ds : DisjointSet.t) (plan : OverlayPlan)
    : option OverlayPlan :=
  match sorted with
  | [] => Some plan
  | e :: sorted' =>
    '(fresh, ds) ← union ds (e_ia e) (e_ib e);
    if fresh : bool then
      let plan := {| links := links plan ++ [(e_ca e, e_cb e)];
                     total_cost := saturating_add64 (total_cost plan) (e_cost e);
                     connected := connected plan |} in
      if (length (links plan) =? n - 1)%nat then Some plan
      else kruskal n sorted' ds plan
    else kruskal n sorted' ds plan
  end.

(** src/crates/common/src/overlay.rs:101-133 [min_latency_overlay] *)
Definition min_latency_overlay (nodes : list bytes) (ls : list WeightedLink)
    : option OverlayPlan :=
  let n := length nodes in
  let index := index_of nodes in
  let sorted := sort_by entry_leb (omap (entry index) ls) in
  plan ← kruskal n sorted (DisjointSet.new n)
           {| links := []; total_cost := 0; connected := false |};
  Some {| links := links plan; total_cost := total_cost plan;
          connected := (length (links plan) =? n - 1)%nat |}.

(** ** The node index *)

Lemma index_of_snoc nodes x :
  index_of (nodes ++ [x]) = <[x := length nodes]> (index_of nodes).
Proof. unfold index_of. rewrite imap_app, foldl_app. cbn. by rewrite Nat.add_0_r. Qed.

Lemma index_of_Some nodes x i : index_of nodes !! x = Some i → nodes !! i = Some x.
Proof.
  induction nodes as [|y nodes IH] using rev_ind; [done|]. rewrite index_of_snoc.
  destruct (decide (x = y)) as [->|N].
  - rewrite lookup_insert_eq. intros [= <-]. rewrite lookup_app_r by done.
    by rewrite Nat.sub_diag.
  - rewrite lookup_insert_ne by done. intros H%IH. by apply lookup_app_l_Some.
Qed.

Lemma index_of_is_Some nodes x : is_Some (index_of nodes !! x) ↔ x ∈ nodes.
Proof.
  induction nodes as [|y nodes IH] using rev_ind.
  - split; [by intros [? ?]|by intros ?%elem_of_nil].
  - rewrite index_of_snoc, elem_of_app, list_elem_of_singleton, <- IH.
    destruct (decide (x = y)) as [->|N].
    + rewrite lookup_insert_eq. naive_solver.
    + rewrite lookup_insert_ne by done. naive_solver.
Qed.

(** Ids are distinct exactly when each node has its own index. *)
Lemma index_of_NoDup nodes :
  NoDup nodes ↔ ∀ i x, nodes !! i = Some x → index_of nodes !! x = Some i.
Proof.
  split.
  - intros ND i x Hi. destruct (proj2 (index_of_is_Some nodes x)) as [j Hj].
    { by eapply list_elem_of_lookup_2. }
    rewrite Hj. f_equal. apply index_of_Some in Hj. by eapply NoDup_lookup.
  - intros H. apply NoDup_alt. intros i j x Hi Hj. apply H in Hi, Hj. congruence.
Qed.

(** ** The candidates *)

Section Planner.
Context (nodes : list bytes).
Implicit Types R : list WeightedLink.

(** A link between two different nodes of the network. *)
Definition usable (l : WeightedLink) : Prop := a l ≠ b l ∧ a l ∈ nodes ∧ b l ∈ nodes.

Definition candidates (ls : list WeightedLink) : list WeightedLink := filter usable ls.

Definition ix (x : bytes) : nat := default 0%nat (index_of nodes !! x).

Definition entry_of (l : WeightedLink) : Entry :=
  let '(ca, cb) := canon (a l) (b l) in
  {| e_cost := cost l; e_ca := ca; e_cb := cb; e_ia := ix (a l); e_ib := ix (b l) |}.

(** The ends of a link, by id and by index. *)
Definition ends (l : WeightedLink) : bytes * bytes := (a l, b l).
Definition iends (l : WeightedLink) : nat * nat := (ix (a l), ix (b l)).

Lemma ix_spec x : x ∈ nodes → index_of nodes !! x = Some (ix x) ∧ nodes !! ix x = Some x.
Proof.
  intros [i H]%index_of_is_Some. unfold ix. rewrite H. split; [done|]. by apply index_of_Some.
Qed.

Lemma ix_lt x : x ∈ nodes → (ix x < length nodes)%nat.
Proof. intros [_ H]%ix_spec. by eapply lookup_lt_Some. Qed.

Lemma entry_usable l :
  entry (index_of nodes) l = if decide (usable l) then Some (entry_of l) else None.
Proof.
  unfold entry, entry_of. case_bool_decide as E.
  - rewrite decide_False; [done|]. by intros [? _].
  - case_decide as U.
    + destruct U as (_ & Ha & Hb). destruct (ix_spec _ Ha) as [-> _], (ix_spec _ Hb) as [-> _].
      cbn. by destruct (canon _ _).
    + destruct (index_of nodes !! a l) eqn:Ea; [|done]. cbn.
      destruct (index_of nodes !! b l) eqn:Eb; [|done]. destruct U.
      split; [done|]. split; by apply index_of_is_Some.
Qed.

Lemma entries ls : omap (entry (index_of nodes)) ls = entry_of <$> candidates ls.
Proof.
  induction ls as [|l ls IH]; [done|]. unfold candidates in *. rewrite filter_cons. cbn [omap list_omap].
  rewrite entry_usable. case_decide; cbn; by rewrite IH.
Qed.

Lemma entry_leb_cost l k :
  entry_leb (entry_of l) (entry_of k) = true → cost l <= cost k.
Proof.
  unfold entry_leb, entry_of. destruct (canon (a l) (b l)), (canon (a k) (b k)). cbn.
  intros [H|H]%orb_true_iff; bool_facts; lia.
Qed.

Lemma entry_leb_total x y : entry_leb x y = true ∨ entry_leb y x = true.
Proof.
  unfold entry_leb. destruct (N.lt_trichotomy (e_cost x) (e_cost y)) as [L|[E|L]].
  - left. by rewrite (proj2 (N.ltb_lt _ _) L).
  - rewrite !E, N.ltb_irrefl, N.eqb_refl. cbn.
    destruct (bytes_le_total (e_ca x) (e_ca y)), (bytes_le_total (e_cb x) (e_cb y));
      repeat case_bool_decide; unfold bytes_le in *; auto; congruence.
  - right. by rewrite (proj2 (N.ltb_lt _ _) L).
Qed.

Lemma entry_leb_trans x y z :
  entry_leb x y = true → entry_leb y z = true → entry_leb x z = true.
Proof.
  unfold entry_leb. rewrite !orb_true_iff, !andb_true_iff, !N.ltb_lt, !N.eqb_eq.
  intros [L1|[E1 H1]] [L2|[E2 H2]]; [left; lia..|]. right. split; [lia|].
  revert H1 H2. destruct (decide (e_ca x = e_ca y)) as [Exy|Nxy], (decide (e_ca y = e_ca z)) as [Eyz|Nyz];
    repeat first [rewrite bool_decide_eq_true_2 by congruence
                 |rewrite bool_decide_eq_false_2 by congruence].
  - intros K1 K2. by eapply bytes_le_trans.
  - by rewrite Exy.
  - by rewrite <- Eyz.
  - intros K1 K2. case_bool_decide as Exz; [|by eapply bytes_le_trans].
    destruct Nxy. apply bytes_le_antisym; [done|]. by rewrite Exz.
Qed.

(** The candidates in the order the loop sees them. *)
Definition ordered (ls : list WeightedLink) : list WeightedLink :=
  sort_by (λ x y, entry_leb (entry_of x) (entry_of y)) (candidates ls).

Lemma ordered_cost ls : StronglySorted (λ x y, cost x <= cost y) (ordered ls).
Proof.
  unfold ordered. eapply StronglySorted_weaken; [intros x y; apply entry_leb_cost|].
  apply sort_by_sorted.
  - intros x y. apply entry_leb_total.
  - intros x y z. apply entry_leb_trans.
Qed.

Lemma elem_of_ordered ls l : l ∈ ordered ls ↔ l ∈ ls ∧ usable l.
Proof.
  unfold ordered, candidates. rewrite sort_by_Permutation, list_elem_of_filter. tauto.
Qed.

(** Connectivity by id and by index agree. *)
Lemma joins_index R l :
  (∀ k, k ∈ R → usable k) → usable l → joins iends R l ↔ joins ends R l.
Proof.
  intros U (_ & La & Lb). unfold joins, ends, iends. cbn.
  assert (∀ x, x ∈ nodes → nodes !!! ix x = x) as Inv.
  { intros x [_ H]%ix_spec. by apply list_lookup_total_correct. }
  split; intros C.
  - rewrite <- (Inv (a l)), <- (Inv (b l)) by done.
    eapply (conn_image (λ i, nodes !!! i)); [|exact C].
    intros i j (k & Hk & [= <- <-])%elem_of_edges.
    destruct (U k Hk) as (_ & Ka & Kb). rewrite !Inv by done. rewrite elem_of_edges. by exists k.
  - eapply (conn_image ix); [|exact C].
    intros x y (k & Hk & [= <- <-])%elem_of_edges. rewrite elem_of_edges. by exists k.
Qed.

(** ** The loop is the greedy choice *)

Definition canonical (l : WeightedLink) : bytes * bytes := canon (a l) (b l).

(** The forest represents the connectivity of the links [R]: classes are components, and
    every link has cost one root. *)
Record represents (ds : DisjointSet.t) (R : list WeightedLink) : Prop := {
  rep_wf : DisjointSet.wf (length nodes) ds;
  rep_same i j : (i < length nodes)%nat → (j < length nodes)%nat →
    DisjointSet.same ds i j ↔ conn (edges iends R) i j;
  rep_roots : (length (DisjointSet.roots (DisjointSet.parent ds)) + length R = length nodes)%nat
}.

Lemma represents_new : represents (DisjointSet.new (length nodes)) [].
Proof.
  split.
  - apply DisjointSet.forest_new.
  - intros i j Li Lj. rewrite DisjointSet.same_new by done. symmetry. apply conn_nil.
  - by rewrite DisjointSet.roots_new, Nat.add_0_r.
Qed.

Lemma represents_union ds R l :
  represents ds R → usable l →
  ∃ fresh ds', union ds (ix (a l)) (ix (b l)) = Some (fresh, ds') ∧
    (fresh = false ↔ joins iends R l) ∧ represents ds' (if fresh then R ++ [l] else R).
Proof.
  intros [WF SC RC] (_ & Ha & Hb). apply ix_lt in Ha, Hb.
  destruct (DisjointSet.union_spec _ _ _ _ WF Ha Hb) as (fresh & ds' & E & WF' & F & S & Rt).
  exists fresh, ds'. split; [done|].
  assert (fresh = false ↔ joins iends R l) as FJ by by rewrite F, SC.
  assert (∀ i j, (i < length nodes)%nat → (j < length nodes)%nat →
    DisjointSet.same ds' i j ↔ conn ((ix (a l), ix (b l)) :: edges iends R) i j) as S'.
  { intros i j Li Lj. rewrite S, conn_cons by done. unfold DisjointSet.bridged. by rewrite !SC. }
  split; [done|]. destruct fresh; split; try done.
  - intros i j Li Lj. rewrite S' by done. rewrite edges_app. cbn.
    split; apply conn_mono; set_solver.
  - rewrite length_app. cbn. lia.
  - intros i j Li Lj. rewrite S' by done. split.
    + apply conn_redundant. by apply FJ.
    + apply conn_mono. set_solver.
  - lia.
Qed.

Lemma greedy_done R ls : (∀ l, l ∈ ls → joins iends R l) → greedy iends R ls [].
Proof.
  induction ls as [|l ls IH]; intros J; constructor; [apply J; by left|].
  apply IH. intros k Hk. apply J. by right.
Qed.

Lemma kruskal_greedy ls ds R plan :
  (∀ l, l ∈ ls → usable l) → represents ds R → length (links plan) = length R →
  ∃ out plan' ds', kruskal (length nodes) (entry_of <$> ls) ds plan = Some plan' ∧
    greedy iends R ls out ∧ represents ds' (R ++ out) ∧
    links plan' = links plan ++ (canonical <$> out) ∧
    total_cost plan' = foldl saturating_add64 (total_cost plan) (cost <$> out).
Proof.
  revert ds R plan. induction ls as [|l ls IH]; intros ds R plan U Rep L.
  - exists [], plan, ds. rewrite !app_nil_r. split; [done|]. split; [constructor|done].
  - assert (usable l) as Ul by (apply U; by left).
    assert (∀ k, k ∈ ls → usable k) as Uls by (intros k Hk; apply U; by right).
    destruct (represents_union _ _ _ Rep Ul) as (fresh & ds1 & E & FJ & Rep1).
    cbn [fmap list_fmap kruskal].
    replace (e_ia (entry_of l)) with (ix (a l)) by (unfold entry_of; by destruct (canon _ _)).
    replace (e_ib (entry_of l)) with (ix (b l)) by (unfold entry_of; by destruct (canon _ _)).
    replace (e_cost (entry_of l)) with (cost l) by (unfold entry_of; by destruct (canon _ _)).
    replace (e_ca (entry_of l), e_cb (entry_of l)) with (canonical l)
      by (unfold entry_of, canonical; by destruct (canon _ _)).
    rewrite E. cbn [mbind option_bind]. destruct fresh.
    + cbn [links]. rewrite length_app, L. cbn [length].
      destruct (Nat.eqb_spec (length R + 1) (length nodes - 1)) as [Full|_].
      * exists [l]. do 2 eexists. split; [done|]. split; [|split; [exact Rep1|done]].
        apply greedy_take; [by rewrite <- FJ|]. apply greedy_done. intros k Hk.
        apply Uls in Hk as (_ & Ka%ix_lt & Kb%ix_lt).
        apply (rep_same _ _ Rep1); [done|done|]. apply (DisjointSet.one_root _ _ _ _ (rep_wf _ _ Rep1)); [|done|done].
        pose proof (rep_roots _ _ Rep1) as RR. rewrite length_app in RR. cbn in RR. lia.
      * destruct (IH ds1 (R ++ [l]) {| links := links plan ++ [canonical l];
          total_cost := saturating_add64 (total_cost plan) (cost l);
          connected := connected plan |}) as (out & plan' & ds' & K & G & Rep' & Lk & T);
          [done|done|by cbn [links]; rewrite !length_app, L|].
        exists (l :: out), plan', ds'. split; [exact K|].
        split; [apply greedy_take; [by rewrite <- FJ|done]|].
        cbn [links] in Lk. rewrite <- app_assoc in Rep', Lk. done.
    + destruct (IH ds1 R plan Uls Rep1 L) as (out & plan' & ds' & K & G & Rep' & Lk & T).
      exists out, plan', ds'. split; [exact K|]. split; [|done].
      apply greedy_skip; [by apply FJ|done].
Qed.

(** The whole planner, as the greedy choice over the ordered candidates. *)
Lemma planner_greedy ls :
  ∃ out plan ds, min_latency_overlay nodes ls = Some plan ∧
    greedy iends [] (ordered ls) out ∧ represents ds out ∧
    links plan = canonical <$> out ∧
    total_cost plan = foldl saturating_add64 0 (cost <$> out) ∧
    connected plan = (length out =? length nodes - 1)%nat.
Proof.
  unfold min_latency_overlay. rewrite entries, sort_by_fmap. fold (ordered ls).
  destruct (kruskal_greedy (ordered ls) (DisjointSet.new (length nodes)) []
    {| links := []; total_cost := 0; connected := false |})
    as (out & plan & ds & K & G & Rep & L & T); [|apply represents_new|done|].
  { intros l Hl. by apply elem_of_ordered in Hl as [_ ?]. }
  change (sort_by _ (candidates ls)) with (ordered ls). rewrite K. cbn [mbind option_bind].
  exists out. do 2 eexists. split; [done|]. split; [done|]. split; [exact Rep|].
  cbn in L, T |- *. split; [done|]. split; [done|]. by rewrite L, length_fmap.
Qed.

(** The greedy choice by index is the greedy choice by id. *)
Lemma greedy_by_id R ls out :
  (∀ l, l ∈ R ++ ls → usable l) → greedy iends R ls out → greedy ends R ls out.
Proof.
  intros U G. induction G as [R|R l ls out J G IH|R l ls out J G IH].
  - constructor.
  - apply greedy_skip; [|apply IH; set_solver]. apply joins_index in J; [done|set_solver..].
  - apply greedy_take; [|apply IH; set_solver]. rewrite <- joins_index by set_solver. done.
Qed.

(** A forest on [n] nodes has at most [n - 1] links. *)
Lemma backbone_length ds R : represents ds R → (length R ≤ length nodes - 1)%nat.
Proof.
  intros [WF _ RC]. destruct (decide (length nodes = 0)%nat); [lia|].
  assert (0 < length (DisjointSet.roots (DisjointSet.parent ds)))%nat; [|lia].
  destruct (DisjointSet.rooted_total _ _ 0%nat WF) as [r R0]; [lia|].
  apply DisjointSet.rooted_root, DisjointSet.elem_of_roots in R0.
  destruct (DisjointSet.roots _); [by apply elem_of_nil in R0|cbn; lia].
Qed.

(** All nodes are connected exactly when the forest has one root, and ids are distinct. *)
Lemma connected_iff ds R :
  represents ds R → (∀ l, l ∈ R → usable l) →
  (length R =? length nodes - 1)%nat = true ↔
  NoDup nodes ∧ ∀ x y, x ∈ nodes → y ∈ nodes → conn (edges ends R) x y.
Proof.
  intros [WF SC RC] U. rewrite Nat.eqb_eq.
  assert (∀ x y, x ∈ nodes → y ∈ nodes →
    conn (edges ends R) x y ↔ conn (edges iends R) (ix x) (ix y)) as CI.
  { intros x y Hx Hy. destruct (decide (x = y)) as [->|N]; [split; intros _; apply conn_refl|].
    symmetry. apply (joins_index R {| a := x; b := y; cost := 0 |}); [done|by split]. }
  split.
  - intros L.
    assert (∀ i j, (i < length nodes)%nat → (j < length nodes)%nat → conn (edges iends R) i j) as All.
    { intros i j Li Lj. apply SC; [done..|]. eapply DisjointSet.one_root; [exact WF|lia|done..]. }
    split.
    + apply index_of_NoDup. intros i x Hi.
      pose proof (list_elem_of_lookup_2 _ _ _ Hi) as Hx. destruct (ix_spec _ Hx) as [E1 E2].
      rewrite E1. f_equal. destruct (isolated (edges iends R) i (ix x)) as [?|(y & [H|H])]; [|done|..].
      * apply All; by eapply lookup_lt_Some.
      * apply elem_of_edges in H as (l & Hl & [= E _]). destruct (U l Hl) as (_ & Ka & _).
        destruct (ix_spec _ Ka) as [_ Ka']. rewrite E in Ka'. simplify_eq. done.
      * apply elem_of_edges in H as (l & Hl & [= _ E]). destruct (U l Hl) as (_ & _ & Ka).
        destruct (ix_spec _ Ka) as [_ Ka']. rewrite E in Ka'. simplify_eq. done.
    + intros x y Hx Hy. apply CI; [done..|]. by apply All; apply ix_lt.
  - intros [ND C]. destruct (decide (1 < length (DisjointSet.roots (DisjointSet.parent ds))))%nat as [G|G].
    + destruct (DisjointSet.apart _ _ WF G) as (i & j & Li & Lj & NS). destruct NS.
      destruct (lookup_lt_is_Some_2 nodes i Li) as [x Hx], (lookup_lt_is_Some_2 nodes j Lj) as [y Hy].
      apply SC; [done..|]. pose proof (list_elem_of_lookup_2 _ _ _ Hx) as Mx.
      pose proof (list_elem_of_lookup_2 _ _ _ Hy) as My.
      specialize (C x y Mx My). apply CI in C; [|done..].
      destruct (ix_spec _ Mx) as [Ex _], (ix_spec _ My) as [Ey _].
      rewrite (proj1 (index_of_NoDup nodes) ND _ _ Hx) in Ex.
      rewrite (proj1 (index_of_NoDup nodes) ND _ _ Hy) in Ey. congruence.
    + pose proof (backbone_length ds R) as B. unshelve epose proof (B _); [by split|]. lia.
Qed.

End Planner.

Lemma saturating_sum t R :
  t <= U64 - 1 →
  foldl saturating_add64 t (cost <$> R) = N.min (t + weight cost R) (U64 - 1).
Proof.
  revert t. induction R as [|l R IH]; intros t L; cbn [fmap list_fmap foldl].
  - cbn. lia.
  - rewrite IH by (unfold saturating_add64; lia). rewrite weight_cons. unfold saturating_add64. lia.
Qed.

(** C29 The overlay backbone is a least-latency spanning forest. The planner always returns
    a plan (no index panics, the parent chains end). Its links are candidate links of
    the network, they connect everything the candidates can connect, no link is
    redundant, and any other set of candidates that connects as much costs at least as
    much; the reported cost is the exact sum, capped at the width. [connected] is
    reported exactly when the ids are distinct and the candidates connect all nodes. *)
Theorem min_latency_overlay_optimal nodes ls :
  let cand := candidates nodes ls in
  ∃ plan chosen,
    min_latency_overlay nodes ls = Some plan ∧
    links plan = canonical <$> chosen ∧ chosen ⊆ cand ∧
    total_cost plan = N.min (weight cost chosen) (U64 - 1) ∧
    (∀ l, l ∈ cand → joins ends chosen l) ∧
    (∀ l1 l l2, chosen = l1 ++ l :: l2 → ¬ joins ends (l1 ++ l2) l) ∧
    (∀ T, T ⊆ cand → (∀ l, l ∈ cand → joins ends T l) → weight cost chosen <= weight cost T) ∧
    (connected plan = true ↔
       NoDup nodes ∧ ∀ x y, x ∈ nodes → y ∈ nodes → conn (edges ends cand) x y).
Proof.
  intros cand. destruct (planner_greedy nodes ls) as (out & plan & ds & E & G & Rep & L & T & C).
  assert (∀ l, l ∈ ordered nodes ls ↔ l ∈ cand) as Oc.
  { intros l. unfold cand, candidates. rewrite elem_of_ordered, list_elem_of_filter. tauto. }
  assert (∀ l, l ∈ cand → usable nodes l) as U by by intros l [? _]%list_elem_of_filter.
  assert (out ⊆ cand) as Sub.
  { intros l Hl. apply Oc. by eapply elem_of_sublist; [|apply (greedy_sublist _ _ _ _ G)]. }
  apply greedy_by_id with (nodes := nodes) in G; [|intros l Hl; by apply U, Oc].
  exists plan, out. split; [done|]. split; [done|]. split; [done|]. split.
  { rewrite T, saturating_sum; [f_equal; lia|]. vm_compute. discriminate. }
  assert (∀ l, l ∈ cand → joins ends out l) as Sp.
  { intros l Hl%Oc. by apply (greedy_spans _ _ _ _ _ G). }
  split; [done|]. split; [intros l1 l l2 El; by apply (greedy_forest _ _ _ _ _ _ _ G El)|]. split.
  - intros T' ST CT. apply (greedy_optimal ends cost [] (ordered nodes ls));
      [apply ordered_cost|exact G| |].
    + intros l Hl. by apply Oc, ST.
    + intros l Hl%Oc. by apply CT.
  - rewrite C, connected_iff by (done||auto). split; intros [ND Cn]; (split; [done|]);
      intros x y Hx Hy; (eapply conn_joins; [|by apply Cn]); [|done].
    intros l Hl. by apply joins_elem, Sub.
Qed.

(** A triangle with a chord: the two cheap sides are chosen, in whatever order the links
    are given. *)
Lemma min_latency_overlay_optimal_witness :
  let x := lit "x" in let y := lit "y" in let z := lit "z" in
  let ls := [{| a := x; b := z; cost := 9 |}; {| a := z; b := y; cost := 4 |};
             {| a := y; b := x; cost := 3 |}] in
  let best := [{| a := y; b := x; cost := 3 |}; {| a := z; b := y; cost := 4 |}] in
  ∃ plan chosen,
    min_latency_overlay [x; y; z] ls = Some plan ∧ links plan = [(x, y); (y, z)] ∧
    connected plan = true ∧ chosen ⊆ candidates [x; y; z] ls ∧
    weight cost chosen <= weight cost best.
Proof.
  intros x y z ls best.
  destruct (min_latency_overlay_optimal [x; y; z] ls)
    as (plan & chosen & E & L & S & _ & _ & _ & O & _).
  exists plan, chosen. split; [exact E|].
  assert (min_latency_overlay [x; y; z] ls
          = Some {| links := [(x, y); (y, z)]; total_cost := 7; connected := true |}) as V
    by (vm_compute; reflexivity).
  rewrite V in E. injection E as <-. split; [reflexivity|]. split; [reflexivity|].
  split; [exact S|]. apply O.
  - apply (bool_decide_eq_true_1 (best ⊆ candidates [x; y; z] ls)). vm_compute. reflexivity.
  - apply list.Forall_forall, (bool_decide_eq_true_1 (Forall (joins ends best) _)).
    vm_compute. reflexivity.
Defined.

End Overlay.
