(* ===== verification/Shortcuts.v ===== *)
(** * Shortcuts of the overlay, and the planner's entry points

    [crates/common/src/overlay.rs]: all-pairs latencies (Floyd-Warshall, then one
    relaxation per added link), the greedy choice of shortcuts, the plan of a network and
    its size check, the median of the probes. A [None] result is a panic. *)

From stdpp Require Import relations sorting.
From S2P Require Import Prelude RustStd Maps Graph Policy Overlay.

(** ** Loops *)

Section Loops.
Context {S A : Type} (f : S → A → option S).

(** [for x in l { ... }] on a state, with a body that can panic. *)
Fixpoint for_each (l : list A) (s : S) : option S :=
  match l with [] => Some s | x :: l' => s' ← f s x; for_each l' s' end.

Lemma for_each_inv (P : S → Prop) l s :
  P s → (∀ s x, x ∈ l → P s → ∃ s', f s x = Some s' ∧ P s') →
  ∃ s', for_each l s = Some s' ∧ P s'.
Proof.
  revert s. induction l as [|x l IH]; intros s Ps St; cbn; [eauto|].
  destruct (St s x) as (s' & -> & Ps'); [by left|done|]. cbn.
  apply IH; [done|]. intros t y Hy. apply St. by right.
Qed.

End Loops.

(** A loop over [0..n], with an invariant that knows how far it is. *)
Lemma for_seq {S} (f : S → nat → option S) (P : nat → S → Prop) n s :
  P 0%nat s →
  (∀ i s, (i < n)%nat → P i s → ∃ s', f s i = Some s' ∧ P (Datatypes.S i) s') →
  ∃ s', for_each f (seq 0 n) s = Some s' ∧ P n s'.
Proof.
  intros P0 St. assert (∀ k i s, (i + k = n)%nat → P i s →
    ∃ s', for_each f (seq i k) s = Some s' ∧ P n s') as G; [|by apply G].
  induction k as [|k IH]; intros i t E Pt; cbn.
  - exists t. split; [done|]. by replace n with i by lia.
  - destruct (St i t) as (t' & -> & Pt'); [lia|done|]. cbn. apply IH; [lia|done].
Qed.

(** ** Shortest paths over a matrix of weights *)

Section Distances.
Context (n : nat).
Implicit Types w D : nat → nat → N.

(** A walk whose inner vertices are below [k]. *)
Inductive walk w (k : nat) : nat → nat → N → Prop :=
| walk_edge i j : walk w k i j (w i j)
| walk_step i m j c : (m < k)%nat → walk w k m j c → walk w k i j (w i m + c).

(** [D] is the cheapest walk between any two of the [n] vertices. *)
Definition shortest w D : Prop :=
  ∀ i j, (i < n)%nat → (j < n)%nat →
    (∃ c, c <= D i j ∧ walk w n i j c) ∧ ∀ c, walk w n i j c → D i j <= c.

Lemma shortest_unique w D D' i j :
  shortest w D → shortest w D' → (i < n)%nat → (j < n)%nat → D i j = D' i j.
Proof.
  intros H H' Li Lj. destruct (H i j Li Lj) as [(c & L & W) M], (H' i j Li Lj) as [(c' & L' & W') M'].
  apply M' in W. apply M in W'. lia.
Qed.

Lemma walk_app w k i m j c d :
  (m < k)%nat → walk w k i m c → walk w k m j d → walk w k i j (c + d).
Proof.
  intros L W V. induction W as [i m|i m' m c L' W IH].
  - by apply walk_step.
  - rewrite <- N.add_assoc. apply walk_step; auto.
Qed.

Lemma walk_weaken w w' k i j c :
  (∀ x y, w' x y <= w x y) → walk w k i j c → ∃ c', c' <= c ∧ walk w' k i j c'.
Proof.
  intros L. induction 1 as [i j|i m j c Lm W (c' & Lc & W')].
  - exists (w' i j). split; [apply L|constructor].
  - exists (w' i m + c'). specialize (L i m). split; [lia|by constructor].
Qed.

(** A walk that may pass through [k] splits there. *)
Lemma walk_split w k i j c :
  walk w (S k) i j c →
  (∃ c', c' <= c ∧ walk w k i j c') ∨
  ∃ c1 c2, c1 + c2 <= c ∧ walk w k i k c1 ∧ walk w k k j c2.
Proof.
  induction 1 as [i j|i m j c L W IH].
  - left. exists (w i j). split; [done|constructor].
  - destruct (decide (m = k)) as [->|N].
    + right. exists (w i k). destruct IH as [(c' & ? & ?)|(c1 & c2 & ? & ? & ?)].
      * exists c'. split; [lia|]. split; [constructor|done].
      * exists c2. split; [lia|]. split; [constructor|done].
    + destruct IH as [(c' & ? & ?)|(c1 & c2 & ? & ? & ?)].
      * left. exists (w i m + c'). split; [lia|]. constructor; [lia|done].
      * right. exists (w i m + c1), c2. split; [lia|]. split; [|done]. constructor; [lia|done].
Qed.

(** One phase of Floyd-Warshall extends the bound to walks through [k]. *)
Lemma walk_phase w D D' k :
  (k < n)%nat →
  (∀ i j c, (i < n)%nat → (j < n)%nat → walk w k i j c → D i j <= c) →
  (∀ i j, (i < n)%nat → (j < n)%nat → D' i j <= D i j ∧ D' i j <= D i k + D k j) →
  ∀ i j c, (i < n)%nat → (j < n)%nat → walk w (S k) i j c → D' i j <= c.
Proof.
  intros Lk B L i j c Li Lj W. destruct (L i j Li Lj) as [L1 L2].
  destruct (walk_split _ _ _ _ _ W) as [(c' & Lc & W')|(c1 & c2 & Lc & W1 & W2)].
  - apply B in W'; [|done..]. lia.
  - apply B in W1, W2; [|done..]. lia.
Qed.

(** Adding an edge [(a, b)] of cost [x] to an undirected graph. *)
Definition lowered w (a b : nat) (x : N) : nat → nat → N := λ i j,
  if bool_decide ((i = a ∧ j = b) ∨ (i = b ∧ j = a)) then N.min (w i j) x else w i j.

Lemma lowered_le w a b x i j : lowered w a b x i j <= w i j.
Proof. unfold lowered. case_bool_decide; lia. Qed.

Lemma shortest_le w D i j : shortest w D → (i < n)%nat → (j < n)%nat → D i j <= w i j.
Proof. intros H Li Lj. apply (H i j Li Lj). constructor. Qed.

Lemma shortest_step w D i m j :
  shortest w D → (i < n)%nat → (m < n)%nat → (j < n)%nat → D i j <= w i m + D m j.
Proof.
  intros H Li Lm Lj. destruct (H m j Lm Lj) as [(c & L & W) _].
  assert (D i j <= w i m + c); [|lia]. apply (H i j Li Lj). by constructor.
Qed.

Lemma shortest_sym w D i j :
  (∀ x y, w x y = w y x) → shortest w D → (i < n)%nat → (j < n)%nat → D i j = D j i.
Proof.
  intros Sy H. assert (∀ i j, (i < n)%nat → (j < n)%nat → D i j <= D j i) as L;
    [|intros; apply N.le_antisymm; auto].
  clear i j. intros i j Li Lj. destruct (H j i Lj Li) as [(c & L & W) _].
  assert (D i j <= c); [|lia]. clear L. revert Li Lj.
  induction W as [x y|x m y c Lm W IH]; intros Ly Lx.
  - rewrite Sy. by apply shortest_le.
  - specialize (IH Ly Lm). destruct (H y m Ly Lm) as [(d & Ld & V) _].
    assert (D y x <= d + w m x); [|rewrite (Sy x m); lia].
    apply (H y x Ly Lx). apply (walk_app _ _ y m x); [done|exact V|constructor].
Qed.

(** [D'] relaxes [D] by a new edge: no entry is above the old one or the two detours, and
    each is one of the three. *)
Definition relaxed D D' (a b : nat) (x : N) (i j : nat) : Prop :=
  D' i j <= D i j ∧ D' i j <= D i a + x + D b j ∧ D' i j <= D i b + x + D a j ∧
  (D i j <= D' i j ∨ D i a + x + D b j <= D' i j ∨ D i b + x + D a j <= D' i j).

(** The relaxation gives the shortest paths of the extended graph. *)
Lemma shortest_relax w D D' a b x :
  shortest w D → (a < n)%nat → (b < n)%nat → (∀ i, w i i = 0) →
  (∀ i j, (i < n)%nat → (j < n)%nat → relaxed D D' a b x i j) →
  shortest (lowered w a b x) D'.
Proof.
  intros H La Lb Z E.
  assert (∀ i, (i < n)%nat → D i i = 0) as Dz.
  { intros i Li. pose proof (shortest_le _ _ _ _ H Li Li). rewrite Z in *. lia. }
  assert (∀ i j, (i < n)%nat → (j < n)%nat →
    ∃ c, c <= D i j ∧ walk (lowered w a b x) n i j c) as At.
  { intros i j Li Lj. destruct (H i j Li Lj) as [(c & L & W) _].
    destruct (walk_weaken _ (lowered w a b x) _ _ _ _ (lowered_le w a b x) W) as (c' & ? & ?).
    exists c'. split; [lia|done]. }
  assert (∀ p q i j, (p = a ∧ q = b) ∨ (p = b ∧ q = a) → (i < n)%nat → (j < n)%nat →
    ∃ c, c <= D i p + x + D q j ∧ walk (lowered w a b x) n i j c) as Via.
  { intros p q i j PQ Li Lj. assert (p < n ∧ q < n)%nat as [Lp Lq] by naive_solver.
    destruct (At i p Li Lp) as (c & Lc & W), (At q j Lq Lj) as (d & Ld & V).
    exists (c + (lowered w a b x p q + d)). split.
    - assert (lowered w a b x p q <= x); [|lia]. unfold lowered.
      rewrite bool_decide_eq_true_2 by naive_solver. lia.
    - eapply walk_app; [exact Lp|exact W|]. by constructor. }
  intros i j Li Lj. split.
  - destruct (E i j Li Lj) as (_ & _ & _ & [L|[L|L]]).
    + destruct (At i j Li Lj) as (c & ? & ?). exists c. split; [lia|done].
    + destruct (Via a b i j) as (c & ? & ?); [tauto|done..|]. exists c. split; [lia|done].
    + destruct (Via b a i j) as (c & ? & ?); [tauto|done..|]. exists c. split; [lia|done].
  - intros c W. revert Li. induction W as [i j|i m j c Lm W IH]; intros Li.
    + destruct (E i j Li Lj) as (E1 & E2 & E3 & _). pose proof (shortest_le _ _ _ _ H Li Lj).
      unfold lowered. case_bool_decide as C; [|lia].
      destruct C as [[-> ->]|[-> ->]]; rewrite !Dz in * by done; lia.
    + specialize (IH Lj Lm). destruct (E m j Lm Lj) as (_ & _ & _ & Em).
      destruct (E i j Li Lj) as (E1 & E2 & E3 & _).
      pose proof (shortest_step _ _ i m j H Li Lm Lj). pose proof (shortest_step _ _ i m a H Li Lm La).
      pose proof (shortest_step _ _ i m b H Li Lm Lb).
      unfold lowered. case_bool_decide as C; [|lia].
      destruct C as [[-> ->]|[-> ->]]; rewrite !Dz in * by done; lia.
Qed.

End Distances.

Module Shortcuts.
Import Overlay.

(** ** The matrix of latencies *)

Abbreviation Matrix := (list (list N)).

(** [d[i][j]] *)
Definition get (d : Matrix) (i j : nat) : option N := row ← d !! i; row !! j.

(** [d[i][j] = v] *)
Definition set (d : Matrix) (i j : nat) (v : N) : option Matrix :=
  row ← d !! i; _ ← row !! j; Some (<[i := <[j := v]> row]> d).

(** src/crates/common/src/overlay.rs:176-176 [add_shortcuts]: no path. *)
Definition inf : N := (U64 - 1) / 4.

(** src/crates/common/src/overlay.rs:185-188 [add_shortcuts]: nothing reaches anything else. *)
Definition blank (n : nat) : Matrix :=
  imap (λ d row, <[d := 0]> row) (replicate n (replicate n inf)).

(** src/crates/common/src/overlay.rs:189-201 [add_shortcuts]: one chosen link, at its cost if it has one. *)
Definition seed (cost : gmap (nat * nat) N) (d : Matrix) (p : nat * nat) : option Matrix :=
  let '(a, b) := p in
  let c := default inf (cost !! (a, b)) in
  ab ← get d a b;
  d ← set d a b (N.min ab c);
  ba ← get d b a;
  set d b a (N.min ba c).

(** src/crates/common/src/overlay.rs:207-212 [add_shortcuts]: one cell of a phase. *)
Definition fw_cell (k i : nat) (d : Matrix) (j : nat) : option Matrix :=
  ik ← get d i k;
  kj ← get d k j;
  ij ← get d i j;
  let via := saturating_add64 ik kj in
  if via <? ij then set d i j via else Some d.

(** src/crates/common/src/overlay.rs:203-213 [add_shortcuts]: one row of a phase. *)
Definition fw_row (n k : nat) (d : Matrix) (i : nat) : option Matrix :=
  ik ← get d i k;
  if ik =? inf then Some d else for_each (fw_cell k i) (seq 0 n) d.

(** src/crates/common/src/overlay.rs:202-214 [add_shortcuts]: Floyd-Warshall, in place. *)
Definition floyd_warshall (n : nat) (d : Matrix) : option Matrix :=
  for_each (λ d k, for_each (fw_row n k) (seq 0 n) d) (seq 0 n) d.

(** src/crates/common/src/overlay.rs:264-271 [add_shortcuts]: one cell of the relaxation by a new link. *)
Definition relax_cell (row_a row_b : list N) (via_a via_b : N) (i : nat) (d : Matrix) (j : nat)
    : option Matrix :=
  bj ← row_b !! j;
  let cand1 := saturating_add64 via_a bj in
  ij ← get d i j;
  d ← (if cand1 <? ij then set d i j cand1 else Some d);
  aj ← row_a !! j;
  let cand2 := saturating_add64 via_b aj in
  ij ← get d i j;
  if cand2 <? ij then set d i j cand2 else Some d.

(** src/crates/common/src/overlay.rs:256-273 [add_shortcuts]: one row of the relaxation. *)
Definition relax_row (n : nat) (row_a row_b : list N) (w : N) (d : Matrix) (i : nat)
    : option Matrix :=
  ai ← row_a !! i;
  bi ← row_b !! i;
  if (ai =? inf) && (bi =? inf) then Some d
  else
    let via_a := saturating_add64 ai w in
    let via_b := saturating_add64 bi w in
    for_each (relax_cell row_a row_b via_a via_b i) (seq 0 n) d.

(** src/crates/common/src/overlay.rs:254-273 [add_shortcuts]: the new link [(a, b)] of cost [w], against the old rows of
    its ends. *)
Definition relax (n : nat) (d : Matrix) (a b : nat) (w : N) : option Matrix :=
  row_a ← d !! a;
  row_b ← d !! b;
  for_each (relax_row n row_a row_b w) (seq 0 n) d.

(** ** What the matrix holds *)

Definition at_ (d : Matrix) (i j : nat) : N := (d !!! i) !!! j.

Definition shape (n : nat) (d : Matrix) : Prop :=
  length d = n ∧ ∀ i row, d !! i = Some row → length row = n.

Lemma get_at n d i j :
  shape n d → (i < n)%nat → (j < n)%nat → get d i j = Some (at_ d i j).
Proof.
  intros [L R] Li Lj. unfold get, at_.
  destruct (lookup_lt_is_Some_2 d i) as [row E]; [lia|]. rewrite E. cbn.
  rewrite (list_lookup_total_correct _ _ _ E).
  destruct (lookup_lt_is_Some_2 row j) as [v V]; [by rewrite (R _ _ E)|].
  by rewrite V, (list_lookup_total_correct _ _ _ V).
Qed.

Lemma set_at n d i j v :
  shape n d → (i < n)%nat → (j < n)%nat →
  ∃ d', set d i j v = Some d' ∧ shape n d' ∧
        ∀ x y, at_ d' x y = if bool_decide (x = i ∧ y = j) then v else at_ d x y.
Proof.
  intros [L R] Li Lj. unfold set.
  destruct (lookup_lt_is_Some_2 d i) as [row E]; [lia|]. rewrite E. cbn.
  destruct (lookup_lt_is_Some_2 row j) as [u U]; [by rewrite (R _ _ E)|]. rewrite U. cbn.
  eexists. split; [done|]. pose proof (R _ _ E) as Lr. split; [split|].
  - by rewrite length_insert.
  - intros x r. destruct (decide (x = i)) as [->|N].
    + rewrite list_lookup_insert_eq by lia. intros [= <-]. by rewrite length_insert.
    + rewrite list_lookup_insert_ne by done. apply R.
  - intros x y. unfold at_. destruct (decide (x = i)) as [->|N].
    + rewrite list_lookup_total_insert_eq by lia. destruct (decide (y = j)) as [->|M].
      * rewrite list_lookup_total_insert_eq by lia. by rewrite bool_decide_eq_true_2.
      * rewrite list_lookup_total_insert_ne by done. rewrite bool_decide_eq_false_2 by naive_solver.
        by rewrite (list_lookup_total_correct _ _ _ E).
    + rewrite list_lookup_total_insert_ne by done. by rewrite bool_decide_eq_false_2 by naive_solver.
Qed.

(** Setting a cell to something smaller. *)
Lemma set_smaller n d i j v :
  shape n d → (i < n)%nat → (j < n)%nat → v <= at_ d i j →
  ∃ d', set d i j v = Some d' ∧ shape n d' ∧ at_ d' i j = v ∧
        (∀ x y, at_ d' x y <= at_ d x y) ∧
        ∀ x y, at_ d' x y = at_ d x y ∨ (x = i ∧ y = j ∧ at_ d' x y = v).
Proof.
  intros Sh Li Lj V. destruct (set_at n d i j v Sh Li Lj) as (d' & E & Sh' & A).
  exists d'. split; [done|]. split; [done|]. split; [by rewrite A, bool_decide_eq_true_2|].
  split; intros x y; rewrite A; case_bool_decide as C; auto; destruct C as [-> ->]; auto; lia.
Qed.

(** ** Floyd-Warshall computes the shortest paths *)

Section FloydWarshall.
Context (n : nat) (w : nat → nat → N).

(** Every entry is bounded by [inf] and attained by a walk. *)
Definition sound (d : Matrix) : Prop :=
  shape n d ∧ ∀ i j, (i < n)%nat → (j < n)%nat →
    at_ d i j <= inf ∧ ∃ c, c <= at_ d i j ∧ walk w n i j c.

(** The state inside phase [k], which started from [d0]: nothing has grown, and the cells
    [Done] have been relaxed through [k]. *)
Definition phase (k : nat) (d0 : Matrix) (Done : nat → nat → Prop) (d : Matrix) : Prop :=
  sound d ∧ (∀ x y, at_ d x y <= at_ d0 x y) ∧
  ∀ x y, (x < n)%nat → (y < n)%nat → Done x y → at_ d x y <= at_ d0 x k + at_ d0 k y.

Lemma inf_value : inf = 4611686018427387903.
Proof. vm_compute. reflexivity. Qed.

Lemma inf_sum x y : x <= inf → y <= inf → saturating_add64 x y = x + y.
Proof. rewrite inf_value. unfold saturating_add64, U64. intros. apply N.min_l. lia. Qed.

Lemma fw_cell_phase k d0 Done i j d :
  (k < n)%nat → (i < n)%nat → (j < n)%nat → phase k d0 Done d →
  ∃ d', fw_cell k i d j = Some d' ∧ phase k d0 (λ x y, Done x y ∨ (x = i ∧ y = j)) d'.
Proof.
  intros Lk Li Lj ([Sh So] & Le & Re). unfold fw_cell. rewrite !(get_at n) by done.
  cbn [mbind option_bind]. destruct (So i k Li Lk) as [B1 (c1 & C1 & W1)].
  destruct (So k j Lk Lj) as [B2 (c2 & C2 & W2)]. rewrite inf_sum by done.
  pose proof (Le i k). pose proof (Le k j).
  destruct (N.ltb_spec (at_ d i k + at_ d k j) (at_ d i j)) as [Lt|Ge].
  - destruct (set_smaller n d i j (at_ d i k + at_ d k j)) as (d' & -> & Sh' & A & Sm & Ch);
      [done..|lia|]. exists d'. split; [done|]. split; [split; [done|]|split].
    + intros x y Lx Ly. destruct (Ch x y) as [->|(-> & -> & ->)]; [by apply So|].
      destruct (So i j Li Lj) as [B _]. split; [lia|].
      exists (c1 + c2). split; [lia|]. by apply (walk_app w n i k j).
    + intros x y. etrans; [apply Sm|apply Le].
    + intros x y Lx Ly [Dn|[-> ->]]; [etrans; [apply Sm|by apply Re]|]. rewrite A. lia.
  - exists d. split; [done|]. split; [done|]. split; [done|].
    intros x y Lx Ly [Dn|[-> ->]]; [by apply Re|]. lia.
Qed.

Lemma fw_row_phase k d0 i d :
  (k < n)%nat → (i < n)%nat → phase k d0 (λ x _, x < i)%nat d →
  ∃ d', fw_row n k d i = Some d' ∧ phase k d0 (λ x _, x < S i)%nat d'.
Proof.
  intros Lk Li P. unfold fw_row. pose proof P as ([Sh So] & Le & Re).
  rewrite (get_at n) by done. cbn [mbind option_bind]. destruct (N.eqb_spec (at_ d i k) inf) as [E|_].
  - exists d. split; [done|]. split; [done|]. split; [done|]. intros x y Lx Ly Dx. cbn in Dx.
    destruct (decide (x = i)) as [->|N]; [|apply Re; lia].
    destruct (So i y Li Ly) as [B _]. pose proof (Le i k). lia.
  - destruct (for_seq (fw_cell k i) (λ j, phase k d0 (λ x y, (x < i) ∨ (x = i ∧ y < j))%nat) n d)
      as (d' & E & P').
    + destruct P as (P1 & P2 & P3). split; [done|]. split; [done|]. intros x y ? ? [?|?]; [auto|lia].
    + intros j s Lj Ps. destruct (fw_cell_phase _ _ _ i j s Lk Li Lj Ps) as (s' & E & P1 & P2 & P3).
      exists s'. split; [done|]. split; [done|]. split; [done|]. intros x y Lx Ly Dn.
      apply P3; [done..|]. cbn in *. lia.
    + exists d'. split; [done|]. destruct P' as (P1 & P2 & P3). split; [done|]. split; [done|].
      intros x y Lx Ly Dn. apply P3; [done..|]. cbn in *. lia.
Qed.

Lemma fw_phase k d :
  (k < n)%nat → sound d →
  ∃ d', for_each (fw_row n k) (seq 0 n) d = Some d' ∧ phase k d (λ _ _, True) d'.
Proof.
  intros Lk So. destruct (for_seq (fw_row n k) (λ i, phase k d (λ x _, x < i)%nat) n d) as (d' & E & P).
  - split; [done|]. split; [done|]. lia.
  - intros i s Li Ps. by apply fw_row_phase.
  - exists d'. split; [done|]. destruct P as (P1 & P2 & P3). split; [done|]. split; [done|]. auto.
Qed.

Lemma floyd_warshall_shortest d :
  shape n d → (∀ i j, (i < n)%nat → (j < n)%nat → at_ d i j = w i j ∧ w i j <= inf) →
  ∃ d', floyd_warshall n d = Some d' ∧ shape n d' ∧ shortest n w (at_ d') ∧
        ∀ i j, (i < n)%nat → (j < n)%nat → at_ d' i j <= inf.
Proof.
  intros Sh E. destruct (for_seq (λ d k, for_each (fw_row n k) (seq 0 n) d)
    (λ k d, sound d ∧ ∀ i j c, (i < n)%nat → (j < n)%nat → walk w k i j c → at_ d i j <= c) n d)
    as (d' & F & [Sh' So] & B).
  - split; [split; [done|]|].
    + intros i j Li Lj. destruct (E i j Li Lj) as [-> ?]. split; [done|]. exists (w i j).
      split; [done|constructor].
    + intros i j c Li Lj W. destruct (E i j Li Lj) as [-> _]. inversion W; [done|lia].
  - intros k s Lk [So B]. destruct (fw_phase k s Lk So) as (s' & F & P1 & P2 & P3).
    exists s'. split; [done|]. split; [done|]. eapply walk_phase; [exact Lk|exact B|]. auto.
  - exists d'. split; [exact F|]. split; [done|]. split.
    + intros i j Li Lj. split; [by apply So|]. intros c. by apply B.
    + intros i j Li Lj. by apply So.
Qed.

End FloydWarshall.

(** ** The relaxation by one link *)

Section Relax.
Context (n : nat) (d : Matrix) (a b : nat) (x : N).
Context (Sh : shape n d) (La : (a < n)%nat) (Lb : (b < n)%nat).
Context (Le : ∀ i j, (i < n)%nat → (j < n)%nat → at_ d i j <= inf).

(** The cell after the relaxation. *)
Definition cell (i j : nat) : N :=
  N.min (at_ d i j) (N.min (at_ d a i + x + at_ d b j) (at_ d b i + x + at_ d a j)).

(** [s] is [d] with the cells [Done] relaxed. *)
Definition relaxing (Done : nat → nat → Prop) (s : Matrix) : Prop :=
  shape n s ∧ ∀ i j, (i < n)%nat → (j < n)%nat →
    (Done i j → at_ s i j = cell i j) ∧ (¬ Done i j → at_ s i j = at_ d i j).

Lemma min_cell s i j v :
  shape n s → (i < n)%nat → (j < n)%nat →
  ∃ s', (if v <? at_ s i j then set s i j v else Some s) = Some s' ∧ shape n s' ∧
        at_ s' i j = N.min (at_ s i j) v ∧ ∀ p q, ¬ (p = i ∧ q = j) → at_ s' p q = at_ s p q.
Proof.
  intros Ss Li Lj. destruct (N.ltb_spec v (at_ s i j)) as [L|L].
  - destruct (set_at n s i j v Ss Li Lj) as (s' & E & Ss' & A). exists s'. split; [done|].
    split; [done|]. split; [rewrite A, bool_decide_eq_true_2 by done; lia|].
    intros p q N. by rewrite A, bool_decide_eq_false_2.
  - exists s. split; [done|]. split; [done|]. split; [lia|done].
Qed.

(** Saturation does not show below [inf]. *)
Lemma min_saturated u p q : u <= inf → N.min u (saturating_add64 (saturating_add64 p x) q) = N.min u (p + x + q).
Proof. rewrite inf_value. unfold saturating_add64, U64. intros. lia. Qed.

Lemma row_lookup i j : (i < n)%nat → (j < n)%nat → (d !!! i) !! j = Some (at_ d i j).
Proof.
  intros Li Lj. pose proof (get_at n d i j Sh Li Lj) as G. unfold get in G.
  destruct (d !! i) as [row|] eqn:E; [|done]. by rewrite (list_lookup_total_correct _ _ _ E).
Qed.

Lemma relax_cell_spec Done i j s :
  (i < n)%nat → (j < n)%nat → ¬ Done i j → relaxing Done s →
  ∃ s', relax_cell (d !!! a) (d !!! b) (saturating_add64 (at_ d a i) x)
          (saturating_add64 (at_ d b i) x) i s j = Some s' ∧
        relaxing (λ p q, Done p q ∨ (p = i ∧ q = j)) s'.
Proof.
  intros Li Lj ND [Ss R]. unfold relax_cell. rewrite !row_lookup by done. cbn [mbind option_bind].
  rewrite (get_at n s) by done. cbn [mbind option_bind].
  set (c1 := saturating_add64 _ (at_ d b j)). set (c2 := saturating_add64 _ (at_ d a j)).
  destruct (min_cell s i j c1 Ss Li Lj) as (s1 & -> & Ss1 & A1 & K1). cbn [mbind option_bind].
  rewrite (get_at n s1) by done. cbn [mbind option_bind].
  destruct (min_cell s1 i j c2 Ss1 Li Lj) as (s2 & -> & Ss2 & A2 & K2).
  exists s2. split; [done|]. split; [done|]. intros p q Lp Lq.
  destruct (decide (p = i ∧ q = j)) as [[-> ->]|N].
  - split; [intros _|intros Hd; by destruct Hd; right].
    rewrite A2, A1, (proj2 (R i j Li Lj) ND). unfold c1, c2, cell.
    pose proof (Le i j Li Lj). rewrite N.min_assoc, !min_saturated by lia. done.
  - rewrite K2, K1 by done. destruct (R p q Lp Lq) as [R1 R2].
    split; [intros [?|?]; [auto|done]|intros Hd; apply R2; tauto].
Qed.

Lemma relax_row_spec i s :
  (i < n)%nat → relaxing (λ p _, p < i)%nat s →
  ∃ s', relax_row n (d !!! a) (d !!! b) x s i = Some s' ∧ relaxing (λ p _, p < S i)%nat s'.
Proof.
  intros Li R. unfold relax_row. rewrite !row_lookup by done. cbn [mbind option_bind].
  destruct ((at_ d a i =? inf) && (at_ d b i =? inf)) eqn:E.
  - bool_facts. exists s. split; [done|]. destruct R as [Ss R]. split; [done|].
    intros p q Lp Lq. destruct (R p q Lp Lq) as [R1 R2]. cbn in *.
    split; [intros Hd|intros Hd; apply R2; lia]. destruct (decide (p = i)) as [->|N]; [|apply R1; lia].
    rewrite R2 by lia. unfold cell. pose proof (Le i q Li Lq). lia.
  - destruct (for_seq (relax_cell (d !!! a) (d !!! b) (saturating_add64 (at_ d a i) x)
      (saturating_add64 (at_ d b i) x) i) (λ j, relaxing (λ p q, p < i ∨ (p = i ∧ q < j))%nat) n s)
      as (s' & E' & R').
    + destruct R as [Ss R]. split; [done|]. intros p q Lp Lq. destruct (R p q Lp Lq). cbn in *.
      split; intros H1; auto with lia.
    + intros j t Lj Rt. destruct (relax_cell_spec (λ p q, p < i ∨ (p = i ∧ q < j))%nat i j t Li Lj)
        as (t' & Et & Ss & K); [cbn; lia|exact Rt|].
      exists t'. split; [done|]. split; [done|]. intros p q Lp Lq. destruct (K p q Lp Lq) as [K1 K2].
      cbn in *. split; intros Hd; [apply K1|apply K2]; lia.
    + exists s'. split; [done|]. destruct R' as [Ss R']. split; [done|].
      intros p q Lp Lq. destruct (R' p q Lp Lq) as [K1 K2]. cbn in *.
      split; intros Hd; [apply K1|apply K2]; lia.
Qed.

Lemma relax_spec :
  ∃ d', relax n d a b x = Some d' ∧ shape n d' ∧
        ∀ i j, (i < n)%nat → (j < n)%nat → at_ d' i j = cell i j.
Proof.
  destruct Sh as [L _]. unfold relax.
  rewrite (list_lookup_lookup_total_lt d a), (list_lookup_lookup_total_lt d b) by lia.
  cbn [mbind option_bind].
  destruct (for_seq (relax_row n (d !!! a) (d !!! b) x) (λ i, relaxing (λ p _, p < i)%nat) n d)
    as (d' & E & Ss & R).
  - split; [done|]. intros i j _ _. cbn. split; [lia|done].
  - intros i s Li. by apply relax_row_spec.
  - exists d'. split; [done|]. split; [done|]. intros i j Li Lj. by apply (R i j Li Lj).
Qed.

(** From the shortest paths of a graph to those of the graph with one more link. *)
Lemma relax_shortest w :
  (∀ i j, w i j = w j i) → (∀ i, w i i = 0) → shortest n w (at_ d) →
  ∃ d', relax n d a b x = Some d' ∧ shape n d' ∧ shortest n (lowered w a b x) (at_ d') ∧
        ∀ i j, (i < n)%nat → (j < n)%nat → at_ d' i j <= inf.
Proof.
  intros Sy Z H. destruct relax_spec as (d' & E & Ss & A). exists d'. split; [done|].
  split; [done|]. split.
  - apply shortest_relax with (at_ d); [done..|]. intros i j Li Lj. unfold relaxed.
    rewrite (A i j Li Lj). unfold cell.
    rewrite (shortest_sym n w (at_ d) a i), (shortest_sym n w (at_ d) b i) by done. lia.
  - intros i j Li Lj. rewrite (A i j Li Lj). unfold cell. pose proof (Le i j Li Lj). lia.
Qed.

End Relax.

(** ** The choice of the shortcuts *)

(** An unordered pair of indices as the code keys it. *)
Definition key (i j : nat) : nat * nat := (Nat.min i j, Nat.max i j).

(** src/crates/common/src/overlay.rs:158-167 [add_shortcuts]: one link in the table of the cheapest costs. *)
Definition add_cost (index : gmap bytes nat) (m : gmap (nat * nat) N) (l : WeightedLink)
    : gmap (nat * nat) N :=
  if bool_decide (a l = b l) then m
  else match index !! a l, index !! b l with
       | Some ia, Some ib =>
         let p := key ia ib in
         <[p := match m !! p with Some c => N.min c (cost l) | None => cost l end]> m
       | _, _ => m
       end.

(** src/crates/common/src/overlay.rs:156-167 [add_shortcuts]: the cheapest cost of each pair. *)
Definition cost_table (nodes : list bytes) (ls : list WeightedLink) : gmap (nat * nat) N :=
  foldl (add_cost (index_of nodes)) ∅ ls.

(** src/crates/common/src/overlay.rs:169-174 [add_shortcuts]: the pairs of the base plan. *)
Definition base_pairs (nodes : list bytes) (base : OverlayPlan) : gset (nat * nat) :=
  let index := index_of nodes in
  list_to_set (omap (λ p, ia ← index !! p.1; ib ← index !! p.2; Some (key ia ib)) (links base)).

(** The order of [(usize, usize)]. *)
Definition pair_ltb (p q : nat * nat) : bool :=
  (p.1 <? q.1)%nat || ((p.1 =? q.1)%nat && (p.2 <? q.2)%nat).

(** src/crates/common/src/overlay.rs:221-238 [add_shortcuts]: one candidate against the best so far. *)
Definition consider (dist : Matrix) (chosen : gset (nat * nat))
    (best : option ((nat * nat) * N)) (pc : (nat * nat) * N)
    : option (option ((nat * nat) * N)) :=
  let '(p, c) := pc in
  if bool_decide (p ∈ chosen) then Some best
  else
    d ← get dist p.1 p.2;
    let improvement := d - c in
    if improvement =? 0 then Some best
    else
      let better := match best with
                    | None => true
                    | Some (q, bi) =>
                      (bi <? improvement) || ((improvement =? bi) && pair_ltb p q)
                    end in
      Some (if better then Some (p, improvement) else best).

(** src/crates/common/src/overlay.rs:218-281 [add_shortcuts]: the rounds; the table is walked in some order. *)
Fixpoint shortcut_rounds (nodes : list bytes) (costs : gmap (nat * nat) N) (budget : nat)
    (dist : Matrix) (chosen : gset (nat * nat)) (plan : OverlayPlan) : option OverlayPlan :=
  match budget with
  | O => Some plan
  | S budget' =>
    best ← for_each (consider dist chosen) (map_to_list costs) None;
    match best with
    | None => Some plan
    | Some ((i, j), _) =>
      w ← costs !! (i, j);
      dist ← relax (length nodes) dist i j w;
      ni ← nodes !! i;
      nj ← nodes !! j;
      shortcut_rounds nodes costs budget' dist ({[(i, j)]} ∪ chosen)
        {| links := links plan ++ [canon ni nj];
           total_cost := saturating_add64 (total_cost plan) w;
           connected := connected plan |}
    end
  end.

(** src/crates/common/src/overlay.rs:143-283 [add_shortcuts] *)
Definition add_shortcuts (nodes : list bytes) (ls : list WeightedLink) (base : OverlayPlan)
    (budget : nat) : option OverlayPlan :=
  let n := length nodes in
  if (n <? 2)%nat || (budget =? 0)%nat then Some base
  else
    let costs := cost_table nodes ls in
    let chosen := base_pairs nodes base in
    dist ← for_each (seed costs) (elements chosen) (blank n);
    dist ← floyd_warshall n dist;
    shortcut_rounds nodes costs budget dist chosen base.

(** src/crates/common/src/overlay.rs:294-310 [plan_network_overlay]: [latency] is the caller's measurement. *)
Definition plan_network_overlay (net : Policy.Network) (latency : bytes → bytes → option N)
    (shortcut_budget : nat) : option OverlayPlan :=
  let nodes := Policy.id <$> Policy.agents net in
  let ls := omap (λ p : bytes * bytes,
                    c ← latency p.1 p.2; Some {| a := p.1; b := p.2; cost := c |})
                 (Policy.sorted_pairs (Policy.desired_channels net)) in
  base ← min_latency_overlay nodes ls;
  add_shortcuts nodes ls base shortcut_budget.

(** src/crates/common/src/overlay.rs:317-322 [TopologyTooLarge] *)
Inductive TopologyTooLarge :=
| TooManyAgents (agents max : nat)
| ShortcutBudgetTooHigh (budget max : nat).

(** src/crates/common/src/overlay.rs:347-368 [plan_network_overlay_bounded] *)
Definition plan_network_overlay_bounded (net : Policy.Network)
    (latency : bytes → bytes → option N) (shortcut_budget max_agents max_shortcut_budget : nat)
    : Result (option OverlayPlan) TopologyTooLarge :=
  let agents := length (Policy.agents net) in
  if (max_agents <? agents)%nat then Err (TooManyAgents agents max_agents)
  else if (max_shortcut_budget <? shortcut_budget)%nat
  then Err (ShortcutBudgetTooHigh shortcut_budget max_shortcut_budget)
  else Ok (plan_network_overlay net latency shortcut_budget).

(** src/crates/common/src/overlay.rs:381-397 [link_cost_from_probes] *)
Definition link_cost_from_probes (samples : list N) : option N :=
  match samples with
  | [] => None
  | _ =>
    let v := sort_by N.leb samples in
    let n := length v in
    let mid := (n / 2)%nat in
    if (n mod 2 =? 1)%nat then v !! mid
    else
      lo ← v !! (mid - 1)%nat;
      hi ← v !! mid;
      Some (lo + (hi - lo) / 2)
  end.

(** src/crates/common/src/overlay.rs:417-427 [RoutingApproach] *)
Inductive RoutingApproach := Baseline | SmartRoute | Shortcut | RandomMesh.

(** src/crates/common/src/overlay.rs:432-439 [RoutingApproach::as_str] *)
Definition as_str (r : RoutingApproach) : bytes :=
  match r with
  | Baseline => lit "baseline"
  | SmartRoute => lit "smart-route"
  | Shortcut => lit "shortcut"
  | RandomMesh => lit "random-mesh"
  end.

(** src/crates/common/src/overlay.rs:445-453 [RoutingApproach::parse]: the error is the offending token. *)
Definition parse (token : bytes) : Result RoutingApproach bytes :=
  let t := (λ c, if bool_decide (c = "_"%byte) then "-"%byte else c)
             <$> to_ascii_lowercase (trim token) in
  if bool_decide (t = lit "baseline") then Ok Baseline
  else if bool_decide (t = lit "smart-route") then Ok SmartRoute
  else if bool_decide (t = lit "shortcut") then Ok Shortcut
  else if bool_decide (t = lit "random-mesh") then Ok RandomMesh
  else Err token.

(** ** The weights of the chosen links *)

(** The latency of a single hop over the chosen links. *)
Definition weights (costs : gmap (nat * nat) N) (chosen : gset (nat * nat)) (i j : nat) : N :=
  if bool_decide (i = j) then 0
  else if bool_decide (key i j ∈ chosen) then N.min inf (default inf (costs !! key i j))
  else inf.

Lemma key_comm i j : key i j = key j i.
Proof. unfold key. f_equal; lia. Qed.

Lemma weights_sym costs chosen i j : weights costs chosen i j = weights costs chosen j i.
Proof.
  unfold weights. rewrite key_comm. by rewrite (bool_decide_ext (i = j) (j = i)).
Qed.

Lemma weights_self costs chosen i : weights costs chosen i i = 0.
Proof. unfold weights. by rewrite bool_decide_eq_true_2. Qed.

Lemma weights_le costs chosen i j : weights costs chosen i j <= inf.
Proof. rewrite inf_value. unfold weights. rewrite inf_value. repeat case_bool_decide; lia. Qed.

Lemma key_inj i j k l : key i j = key k l ↔ (i = k ∧ j = l) ∨ (i = l ∧ j = k).
Proof. unfold key. split; [intros [= H1 H2]; lia|intros [[-> ->]|[-> ->]]; f_equal; lia]. Qed.

Lemma key_ordered i j : (i ≤ j)%nat → key i j = (i, j).
Proof. intros. unfold key. f_equal; lia. Qed.

(** A chosen pair lowers the two cells of its ends. *)
Lemma weights_add costs chosen p q i j :
  (p ≤ q)%nat →
  weights costs ({[(p, q)]} ∪ chosen) i j =
  lowered (weights costs chosen) p q (default inf (costs !! (p, q))) i j.
Proof.
  intros L. unfold lowered. set (B := (i = p ∧ j = q) ∨ (i = q ∧ j = p)).
  assert (key i j = (p, q) ↔ B) as K by (rewrite <- (key_ordered p q), key_inj by lia; done).
  unfold weights. destruct (decide B) as [T|F].
  - rewrite (bool_decide_eq_true_2 B), (proj2 K T) by done.
    rewrite (bool_decide_eq_true_2 ((p, q) ∈ {[(p, q)]} ∪ chosen)) by set_solver.
    repeat case_bool_decide; lia.
  - rewrite (bool_decide_eq_false_2 B) by done.
    by rewrite (bool_decide_ext (key i j ∈ {[(p, q)]} ∪ chosen) (key i j ∈ chosen)) by set_solver.
Qed.

Lemma shortest_ext n w w' D :
  (∀ i j, w i j = w' i j) → shortest n w D → shortest n w' D.
Proof.
  intros E H i j Li Lj. destruct (H i j Li Lj) as [(c & Lc & W) M]. split.
  - destruct (walk_weaken w w' n i j c) as (c' & ? & ?); [intros; by rewrite E|done|].
    exists c'. split; [lia|done].
  - intros d V. destruct (walk_weaken w' w n i j d) as (d' & ? & V'); [intros; by rewrite E|done|].
    apply M in V'. lia.
Qed.

(** The matrix [d] is the table of weights [w]. *)
Definition tabulates (n : nat) (w : nat → nat → N) (d : Matrix) : Prop :=
  shape n d ∧ ∀ i j, (i < n)%nat → (j < n)%nat → at_ d i j = w i j.

Lemma blank_spec n costs : tabulates n (weights costs ∅) (blank n).
Proof.
  assert (∀ i, (i < n)%nat → blank n !! i = Some (<[i := 0]> (replicate n inf))) as R.
  { intros i Li. unfold blank. rewrite list_lookup_imap, lookup_replicate_2 by done. done. }
  split; [split|].
  - unfold blank. by rewrite length_imap, length_replicate.
  - intros i row. unfold blank. rewrite list_lookup_imap. intros (r & Hr & ->)%fmap_Some_1.
    apply lookup_replicate in Hr as [-> _]. by rewrite length_insert, length_replicate.
  - intros i j Li Lj. unfold at_. rewrite (list_lookup_total_correct _ _ _ (R i Li)).
    unfold weights. case_bool_decide as E.
    + subst j. apply list_lookup_total_insert_eq. by rewrite length_replicate.
    + rewrite list_lookup_total_insert_ne by done. rewrite lookup_total_replicate_2 by done.
      by rewrite bool_decide_eq_false_2 by set_solver.
Qed.

Lemma seed_spec n costs chosen d p q :
  (p ≤ q)%nat → (q < n)%nat → tabulates n (weights costs chosen) d →
  ∃ d', seed costs d (p, q) = Some d' ∧ tabulates n (weights costs ({[(p, q)]} ∪ chosen)) d'.
Proof.
  intros L Lq [Sh T]. unfold seed. set (c := default inf (costs !! (p, q))).
  rewrite (get_at n) by (done||lia). cbn [mbind option_bind].
  destruct (set_at n d p q (N.min (at_ d p q) c)) as (d1 & -> & Sh1 & A1); [done|lia|done|].
  cbn [mbind option_bind]. rewrite (get_at n) by (done||lia). cbn [mbind option_bind].
  destruct (set_at n d1 q p (N.min (at_ d1 q p) c)) as (d2 & -> & Sh2 & A2); [done|done|lia|].
  exists d2. split; [done|]. split; [done|]. intros i j Li Lj.
  rewrite weights_add by done. unfold lowered. fold c. rewrite A2, !A1.
  pose proof (T i j Li Lj). pose proof (T p q). pose proof (T q p).
  pose proof (weights_sym costs chosen p q).
  repeat case_bool_decide; destruct_and?; subst; try lia; try tauto.
Qed.

Lemma seeds_spec n costs l chosen d :
  (∀ p q, (p, q) ∈ l → (p ≤ q)%nat ∧ (q < n)%nat) → tabulates n (weights costs chosen) d →
  ∃ d', for_each (seed costs) l d = Some d' ∧
        tabulates n (weights costs (list_to_set l ∪ chosen)) d'.
Proof.
  revert chosen d. induction l as [|[p q] l IH]; intros chosen d O T; cbn [for_each].
  - exists d. split; [done|]. cbn. by rewrite union_empty_l_L.
  - destruct (O p q) as [L1 L2]; [by left|].
    destruct (seed_spec n costs chosen d p q L1 L2 T) as (d1 & -> & T1). cbn [mbind option_bind].
    destruct (IH _ _ (λ p q H, O p q (list_elem_of_further _ _ _ H)) T1) as (d2 & E & T2).
    exists d2. split; [done|]. rewrite list_to_set_cons.
    by rewrite (union_comm_L {[(p, q)]}), <- (union_assoc_L (list_to_set l)).
Qed.

(** ** The choice is the best candidate, in whatever order the table is walked *)

(** [y] is preferred over [x], or is [x]: a larger improvement, then the smaller pair. *)
Definition preferred (x y : (nat * nat) * N) : Prop :=
  x.2 < y.2 ∨ (x.2 = y.2 ∧ pair_ltb x.1 y.1 = false).

Definition best_of (S : (nat * nat) * N → Prop) (r : option ((nat * nat) * N)) : Prop :=
  match r with
  | None => ∀ x, ¬ S x
  | Some m => S m ∧ ∀ x, S x → preferred x m
  end.

(** A pair that is not chosen and whose link would shorten the path of its ends. *)
Definition gain (dist : Matrix) (chosen : gset (nat * nat)) (l : list ((nat * nat) * N))
    (x : (nat * nat) * N) : Prop :=
  ∃ c, (x.1, c) ∈ l ∧ x.1 ∉ chosen ∧ x.2 = at_ dist x.1.1 x.1.2 - c ∧ 0 < x.2.

Lemma pair_ltb_iff p q : pair_ltb p q = true ↔ (p.1 < q.1 ∨ (p.1 = q.1 ∧ p.2 < q.2))%nat.
Proof.
  unfold pair_ltb. rewrite orb_true_iff, andb_true_iff, !Nat.ltb_lt, Nat.eqb_eq. done.
Qed.

Lemma pair_ltb_false p q : pair_ltb p q = false ↔ (q.1 < p.1 ∨ (q.1 = p.1 ∧ q.2 ≤ p.2))%nat.
Proof. rewrite <- not_true_iff_false, pair_ltb_iff. lia. Qed.

Lemma preferred_refl x : preferred x x.
Proof. right. rewrite pair_ltb_false. lia. Qed.

Lemma preferred_trans x y z : preferred x y → preferred y z → preferred x z.
Proof. unfold preferred. rewrite !pair_ltb_false. lia. Qed.

Lemma preferred_antisym p u q v : preferred (p, u) (q, v) → preferred (q, v) (p, u) → p = q.
Proof.
  unfold preferred. rewrite !pair_ltb_false. destruct p, q. cbn. intros H1 H2.
  f_equal; lia.
Qed.

Lemma consider_spec n dist chosen best p c S :
  shape n dist → (p.1 < n)%nat → (p.2 < n)%nat → best_of S best →
  ∃ best', consider dist chosen best (p, c) = Some best' ∧
           best_of (λ x, S x ∨ gain dist chosen [(p, c)] x) best'.
Proof.
  intros Sh L1 L2 B.
  assert (∀ x, gain dist chosen [(p, c)] x ↔
    x = (p, at_ dist p.1 p.2 - c) ∧ p ∉ chosen ∧ 0 < at_ dist p.1 p.2 - c) as G.
  { intros [q u]. unfold gain. cbn. setoid_rewrite list_elem_of_singleton. split.
    - by intros (? & [= -> ->] & ? & -> & ?).
    - intros ([= -> ->] & ? & ?). by exists c. }
  unfold consider. case_bool_decide as C.
  { exists best. split; [done|]. destruct best; cbn in *; setoid_rewrite G; naive_solver. }
  rewrite (get_at n) by done. cbn [mbind option_bind]. set (u := at_ dist p.1 p.2 - c) in *.
  destruct (N.eqb_spec u 0) as [Z|Z].
  { exists best. split; [done|].
    destruct best; cbn in *; setoid_rewrite G; (split || intros x); try naive_solver lia. }
  assert (gain dist chosen [(p, c)] (p, u)) as Gu by (apply G; split; [done|split; [done|lia]]).
  destruct best as [[q v]|]; cbn [best_of] in B.
  - destruct ((v <? u) || ((u =? v) && pair_ltb p q)) eqn:Bt.
    + exists (Some (p, u)). split; [done|]. split; [by right|]. intros x [Sx|Gx].
      * eapply preferred_trans; [by apply B|]. unfold preferred. cbn.
        apply orb_true_iff in Bt as [Bt|Bt]; bool_facts; [by left|right; split; [done|]].
        rewrite pair_ltb_iff in *. rewrite pair_ltb_false. lia.
      * apply G in Gx as (-> & _). apply preferred_refl.
    + exists (Some (q, v)). split; [done|]. destruct B as [B1 B2]. split; [by left|].
      intros x [Sx|Gx]; [by apply B2|]. apply G in Gx as (-> & _). unfold preferred. cbn.
      apply orb_false_iff in Bt as [Bt1 Bt2]. bool_facts.
      destruct (decide (u = v)) as [->|N]; [right|left; lia].
      split; [done|]. by rewrite N.eqb_refl in Bt2.
  - exists (Some (p, u)). split; [done|]. split; [by right|]. intros x [Sx|Gx]; [by destruct (B x)|].
    apply G in Gx as (-> & _). apply preferred_refl.
Qed.

Lemma best_of_ext S T r : (∀ x, S x ↔ T x) → best_of S r → best_of T r.
Proof. intros E. destruct r as [m|]; cbn; [intros [? ?]; split|intros H x]; firstorder. Qed.

Lemma select_spec n dist chosen l best S :
  shape n dist → (∀ p c, (p, c) ∈ l → (p.1 < n ∧ p.2 < n)%nat) → best_of S best →
  ∃ best', for_each (consider dist chosen) l best = Some best' ∧
           best_of (λ x, S x ∨ gain dist chosen l x) best'.
Proof.
  intros Sh. revert best S. induction l as [|[p c] l IH]; intros best S O B; cbn [for_each].
  - exists best. split; [done|]. eapply best_of_ext; [|exact B]. intros x. split; [by left|].
    intros [?|(c & H & _)]; [done|by apply elem_of_nil in H].
  - destruct (O p c) as [L1 L2]; [by left|].
    destruct (consider_spec n dist chosen best p c S Sh L1 L2 B) as (b1 & -> & B1).
    cbn [mbind option_bind].
    destruct (IH _ _ (λ p c H, O p c (list_elem_of_further _ _ _ H)) B1) as (b2 & E & B2).
    exists b2. split; [done|]. eapply best_of_ext; [|exact B2]. intros x. unfold gain.
    setoid_rewrite elem_of_cons. setoid_rewrite elem_of_nil. naive_solver.
Qed.

(** ** The rounds as a specification *)

Section Rounds.
Context (n : nat) (costs : gmap (nat * nat) N).

(** The keys are ordered pairs of nodes. *)
Definition costs_ok : Prop := ∀ p c, costs !! p = Some c → (p.1 < p.2 ∧ p.2 < n)%nat.

(** A pair that is not chosen and whose link is shorter than the path between its ends. *)
Definition improves (D : nat → nat → N) (chosen : gset (nat * nat)) (x : (nat * nat) * N) : Prop :=
  ∃ c, costs !! x.1 = Some c ∧ x.1 ∉ chosen ∧ x.2 = D x.1.1 x.1.2 - c ∧ 0 < x.2.

(** Each round adds the link with the largest improvement over the present shortest paths,
    the smaller pair among equals, until the budget is spent or nothing improves. *)
Inductive greedy_rounds : nat → gset (nat * nat) → list (nat * nat) → Prop :=
| spent chosen : greedy_rounds 0 chosen []
| no_gain b chosen D :
    shortest n (weights costs chosen) D → best_of (improves D chosen) None →
    greedy_rounds (S b) chosen []
| gained b chosen D p u picks :
    shortest n (weights costs chosen) D → best_of (improves D chosen) (Some (p, u)) →
    greedy_rounds b ({[p]} ∪ chosen) picks → greedy_rounds (S b) chosen (p :: picks).

Lemma improves_ext D D' chosen x :
  costs_ok → shortest n (weights costs chosen) D → shortest n (weights costs chosen) D' →
  improves D chosen x → improves D' chosen x.
Proof.
  intros O H H' (c & C & N & E & P). exists c. split; [done|]. split; [done|]. split; [|done].
  rewrite E. destruct (O _ _ C). f_equal. apply (shortest_unique n _ _ _ _ _ H H'); lia.
Qed.

(** There is one outcome: the order in which the table is walked does not matter. *)
Lemma greedy_rounds_unique b chosen ps qs :
  costs_ok → greedy_rounds b chosen ps → greedy_rounds b chosen qs → ps = qs.
Proof.
  intros O G. revert qs. induction G as [chosen|b chosen D H B|b chosen D p u ps H [B1 B2] G IH];
    inversion 1 as [|? ? D' H' B'|? ? D' q v qs' H' [B1' B2'] G']; subst; try done.
  - destruct (B (q, v)). apply (improves_ext D' D); done.
  - destruct (B' (p, u)). apply (improves_ext D D'); done.
  - assert (p = q) as ->; [|f_equal; by apply IH].
    apply (preferred_antisym _ u _ v); [apply B2'|apply B2];
      [apply (improves_ext D D')|apply (improves_ext D' D)]; done.
Qed.

Lemma greedy_rounds_length b chosen ps : greedy_rounds b chosen ps → (length ps ≤ b)%nat.
Proof. induction 1; cbn; lia. Qed.

Lemma greedy_rounds_known b chosen ps p :
  greedy_rounds b chosen ps → p ∈ ps → is_Some (costs !! p).
Proof.
  induction 1 as [| |b chosen D q u ps H [(c & C & _) _] G IH]; try by intros ?%elem_of_nil.
  intros [->|?]%elem_of_cons; [by exists c|auto].
Qed.

(** No pair is chosen twice. *)
Lemma greedy_rounds_fresh b chosen ps :
  greedy_rounds b chosen ps → NoDup ps ∧ ∀ p, p ∈ ps → p ∉ chosen.
Proof.
  induction 1 as [| |b chosen D p u ps H [(c & _ & F & _) _] G [IH1 IH2]].
  - split; [constructor|]. by intros p ?%elem_of_nil.
  - split; [constructor|]. by intros p ?%elem_of_nil.
  - split.
    + constructor; [|done]. intros Hp. apply (IH2 p Hp). set_solver.
    + intros q [->|Hq]%elem_of_cons; [done|]. specialize (IH2 q Hq). set_solver.
Qed.

End Rounds.

(** The link a pair of indices stands for. *)
Definition named (nodes : list bytes) (p : nat * nat) : bytes * bytes :=
  canon (nodes !!! p.1) (nodes !!! p.2).

Lemma rounds_spec nodes costs budget dist chosen plan :
  costs_ok (length nodes) costs → shape (length nodes) dist →
  shortest (length nodes) (weights costs chosen) (at_ dist) →
  (∀ i j, (i < length nodes)%nat → (j < length nodes)%nat → at_ dist i j <= inf) →
  ∃ plan' picks, shortcut_rounds nodes costs budget dist chosen plan = Some plan' ∧
    greedy_rounds (length nodes) costs budget chosen picks ∧
    links plan' = links plan ++ (named nodes <$> picks) ∧
    total_cost plan' = foldl saturating_add64 (total_cost plan)
                         ((λ p, default 0 (costs !! p)) <$> picks) ∧
    connected plan' = connected plan.
Proof.
  intros O. revert dist chosen plan.
  induction budget as [|budget IH]; intros dist chosen plan Sh H Le; cbn [shortcut_rounds].
  { exists plan, []. rewrite app_nil_r. split; [done|]. split; [constructor|done]. }
  destruct (select_spec (length nodes) dist chosen (map_to_list costs) None (λ _, False))
    as (best & -> & B); [done| |intros x []|].
  { intros p c C%elem_of_map_to_list. apply O in C. lia. }
  cbn [mbind option_bind].
  apply best_of_ext with (T := improves costs (at_ dist) chosen) in B.
  2:{ intros x. unfold gain, improves. setoid_rewrite elem_of_map_to_list. naive_solver. }
  destruct best as [[[i j] u]|].
  - pose proof B as [(c & C & _) _]. cbn [fst] in C. rewrite C. cbn [mbind option_bind].
    pose proof (O _ _ C) as [Lij Lj]. cbn [fst snd] in Lij, Lj.
    destruct (relax_shortest (length nodes) dist i j c Sh ltac:(lia) Lj Le (weights costs chosen))
      as (dist' & -> & Sh' & H' & Le').
    { apply weights_sym. } { apply weights_self. } { done. }
    cbn [mbind option_bind].
    rewrite (list_lookup_lookup_total_lt nodes i), (list_lookup_lookup_total_lt nodes j) by lia.
    cbn [mbind option_bind].
    destruct (IH dist' ({[(i, j)]} ∪ chosen) {| links := links plan ++ [canon (nodes !!! i) (nodes !!! j)];
      total_cost := saturating_add64 (total_cost plan) c; connected := connected plan |})
      as (plan' & picks & E & G & L & T & K); [done| |done|].
    { eapply shortest_ext; [|exact H']. intros x y. rewrite weights_add by lia. by rewrite C. }
    exists plan', ((i, j) :: picks). split; [exact E|]. split; [by eapply gained|].
    cbn [links total_cost connected] in L, T, K. rewrite <- app_assoc in L. split; [exact L|].
    cbn [fmap list_fmap foldl]. rewrite C. split; [exact T|exact K].
  - exists plan, []. rewrite app_nil_r. split; [done|]. split; [by eapply no_gain|done].
Qed.

(** ** The table and the base *)

Lemma add_cost_usable nodes m l :
  add_cost (index_of nodes) m l =
  if decide (usable nodes l) then
    let p := key (ix nodes (a l)) (ix nodes (b l)) in
    <[p := match m !! p with Some c => N.min c (cost l) | None => cost l end]> m
  else m.
Proof.
  unfold add_cost. case_bool_decide as E.
  - rewrite decide_False; [done|]. by intros [? _].
  - case_decide as U.
    + destruct U as (_ & Ha & Hb).
      destruct (ix_spec _ _ Ha) as [-> _], (ix_spec _ _ Hb) as [-> _]. done.
    + destruct (index_of nodes !! a l) eqn:Ea; [|done].
      destruct (index_of nodes !! b l) eqn:Eb; [|done]. destruct U.
      split; [done|]. split; by apply index_of_is_Some.
Qed.

Definition key_of (nodes : list bytes) (l : WeightedLink) : nat * nat :=
  key (ix nodes (a l)) (ix nodes (b l)).

(** The table holds the cheapest cost of each pair that some link of the network joins. *)
Lemma cost_table_spec nodes ls p :
  match cost_table nodes ls !! p with
  | Some c => (∃ l, l ∈ candidates nodes ls ∧ key_of nodes l = p ∧ cost l = c) ∧
              ∀ l, l ∈ candidates nodes ls → key_of nodes l = p → c <= cost l
  | None => ∀ l, l ∈ candidates nodes ls → key_of nodes l ≠ p
  end.
Proof.
  unfold cost_table, candidates. induction ls as [|l ls IH] using rev_ind.
  - cbn. rewrite lookup_empty. by intros l ?%elem_of_nil.
  - rewrite foldl_app. cbn [foldl]. rewrite add_cost_usable, list.filter_app.
    set (m := foldl _ ∅ ls) in *. case_decide as U.
    + rewrite filter_cons_True, filter_nil by done. fold (key_of nodes l). cbv zeta.
      assert (∀ k, k ∈ filter (usable nodes) ls ++ [l] ↔ k ∈ filter (usable nodes) ls ∨ k = l) as M
        by (intros k; by rewrite elem_of_app, list_elem_of_singleton).
      destruct (decide (key_of nodes l = p)) as [<-|N].
      * rewrite lookup_insert_eq. destruct (m !! key_of nodes l) as [c|].
        -- destruct IH as [(k & K1 & K2 & K3) IH]. split.
           ++ destruct (N.min_spec c (cost l)) as [[_ ->]|[_ ->]]; [exists k|exists l]; rewrite M; auto.
           ++ intros k' [Hk| ->]%M E; [specialize (IH k' Hk E)|]; lia.
        -- split; [exists l; rewrite M; auto|].
           intros k [Hk| ->]%M E; [by destruct (IH k Hk)|lia].
      * rewrite lookup_insert_ne by done. destruct (m !! p) as [c|].
        -- destruct IH as [(k & K1 & K2 & K3) IH]. split; [exists k; rewrite M; auto|].
           intros k' [Hk| ->]%M E; [auto|done].
        -- intros k [Hk| ->]%M; [auto|done].
    + rewrite filter_cons_False, filter_nil, app_nil_r by done. done.
Qed.

Lemma cost_table_ok nodes ls : costs_ok (length nodes) (cost_table nodes ls).
Proof.
  intros p c E. pose proof (cost_table_spec nodes ls p) as T. rewrite E in T.
  destruct T as [(l & Hl & <- & _) _]. apply list_elem_of_filter in Hl as [(N & Ha & Hb) _].
  destruct (ix_spec _ _ Ha) as [_ Ea], (ix_spec _ _ Hb) as [_ Eb].
  apply ix_lt in Ha, Hb. unfold key_of, key. cbn.
  assert (ix nodes (a l) ≠ ix nodes (b l)) by congruence. lia.
Qed.

Lemma canon_comm x y : canon x y = canon y x.
Proof.
  unfold canon. destruct (bytes_leb x y) eqn:E1, (bytes_leb y x) eqn:E2; try done.
  - by rewrite (bytes_le_antisym x y).
  - destruct (bytes_le_total x y); unfold bytes_le in *; congruence.
Qed.

Lemma named_key nodes l : usable nodes l → named nodes (key_of nodes l) = canonical l.
Proof.
  intros (_ & Ha & Hb). destruct (ix_spec _ _ Ha) as [_ Ea], (ix_spec _ _ Hb) as [_ Eb].
  apply list_lookup_total_correct in Ea, Eb. unfold named, key_of, key, canonical. cbn.
  destruct (Nat.min_spec (ix nodes (a l)) (ix nodes (b l))) as [[? ->]|[? ->]].
  - rewrite Nat.max_r by lia. by rewrite Ea, Eb.
  - rewrite Nat.max_l by lia. rewrite Ea, Eb. apply canon_comm.
Qed.

Lemma base_pairs_ok nodes base p q :
  (p, q) ∈ base_pairs nodes base → (p ≤ q)%nat ∧ (q < length nodes)%nat.
Proof.
  unfold base_pairs. rewrite elem_of_list_to_set, list_elem_of_omap.
  intros ([x y] & _ & E). cbn in E.
  destruct (index_of nodes !! x) as [i|] eqn:Ex; [|done]. cbn in E.
  destruct (index_of nodes !! y) as [j|] eqn:Ey; [|done]. cbn in E. injection E as <- <-.
  apply index_of_Some, lookup_lt_Some in Ex, Ey. lia.
Qed.

(** Below two nodes there is nothing to shorten. *)
Lemma small_rounds nodes ls chosen b :
  (length nodes < 2)%nat → greedy_rounds (length nodes) (cost_table nodes ls) b chosen [].
Proof.
  intros L. destruct b as [|b]; [constructor|]. apply (no_gain _ _ _ _ (λ _ _, 0)).
  - intros i j Li Lj. assert (i = j) as -> by lia. split.
    + exists 0. split; [done|].
      pose proof (walk_edge (weights (cost_table nodes ls) chosen) (length nodes) j j) as W.
      by rewrite weights_self in W.
    + intros. lia.
  - intros [[i j] u] (c & C & _). apply cost_table_ok in C. cbn in C. lia.
Qed.

Lemma add_shortcuts_spec nodes ls base budget :
  ∃ plan picks,
    add_shortcuts nodes ls base budget = Some plan ∧
    greedy_rounds (length nodes) (cost_table nodes ls) budget (base_pairs nodes base) picks ∧
    links plan = links base ++ (named nodes <$> picks) ∧
    total_cost plan = foldl saturating_add64 (total_cost base)
                        ((λ p, default 0 (cost_table nodes ls !! p)) <$> picks) ∧
    connected plan = connected base.
Proof.
  unfold add_shortcuts. destruct (Nat.ltb_spec (length nodes) 2) as [S|S].
  { exists base, []. rewrite app_nil_r. split; [done|]. split; [by apply small_rounds|done]. }
  destruct (Nat.eqb_spec budget 0) as [->|B].
  { exists base, []. rewrite app_nil_r. split; [done|]. split; [constructor|done]. }
  cbn [orb]. set (chosen := base_pairs nodes base).
  destruct (seeds_spec (length nodes) (cost_table nodes ls) (elements chosen) ∅ (blank (length nodes)))
    as (d & -> & [Sh T]); [|apply blank_spec|].
  { intros p q Hp%elem_of_elements. by apply base_pairs_ok in Hp. }
  rewrite list_to_set_elements_L, union_empty_r_L in T. cbn [mbind option_bind].
  destruct (floyd_warshall_shortest (length nodes) (weights (cost_table nodes ls) chosen) d Sh)
    as (d' & -> & Sh' & H & Le).
  { intros i j Li Lj. split; [by apply T|apply weights_le]. }
  cbn [mbind option_bind]. apply rounds_spec; [apply cost_table_ok|done..].
Qed.

(** The shortcuts are the greedy ones, and the incremental latencies are the real ones.
    For any base plan and links the call returns (no index panics); what it adds to the
    base is, round by round, the link of the network whose cost undercuts the length of
    the present shortest path between its ends by the most (the smaller pair among
    equals), the lengths being those of the graph of the links chosen so far although
    they are only relaxed by one link per round, until the budget is spent or no link
    shortens anything. The outcome does not depend on the order in which the table of
    costs is walked, no pair is added twice, and every added pair is a candidate. *)
Theorem add_shortcuts_greedy nodes ls base budget :
  ∃ plan picks,
    add_shortcuts nodes ls base budget = Some plan ∧
    links plan = links base ++ (named nodes <$> picks) ∧
    connected plan = connected base ∧
    greedy_rounds (length nodes) (cost_table nodes ls) budget (base_pairs nodes base) picks ∧
    (∀ ps, greedy_rounds (length nodes) (cost_table nodes ls) budget (base_pairs nodes base) ps →
       ps = picks) ∧
    (length picks ≤ budget)%nat ∧ NoDup picks ∧
    (∀ p, p ∈ picks → p ∉ base_pairs nodes base ∧
       ∃ l, l ∈ candidates nodes ls ∧ named nodes p = canonical l ∧
            cost_table nodes ls !! p = Some (cost l)).
Proof.
  destruct (add_shortcuts_spec nodes ls base budget) as (plan & picks & E & G & L & _ & C).
  exists plan, picks. split; [done|]. split; [done|]. split; [done|]. split; [done|].
  split. { intros ps Gs. eapply greedy_rounds_unique; [apply cost_table_ok|done..]. }
  split; [by eapply greedy_rounds_length|]. destruct (greedy_rounds_fresh _ _ _ _ _ G) as [ND F].
  split; [done|]. intros p Hp. split; [by apply F|].
  destruct (greedy_rounds_known _ _ _ _ _ _ G Hp) as [c Ec].
  pose proof (cost_table_spec nodes ls p) as T. rewrite Ec in T.
  destruct T as [(l & Hl & <- & <-) _]. exists l. split; [done|]. split; [|done].
  apply named_key. by apply list_elem_of_filter in Hl as [? _].
Qed.

(** A path of three cheap links, and one long chord that pays off. *)
Lemma add_shortcuts_greedy_witness :
  let w := lit "w" in let x := lit "x" in let y := lit "y" in
  let ls := [{| a := w; b := x; cost := 5 |}; {| a := x; b := y; cost := 6 |};
             {| a := y; b := w; cost := 7 |}] in
  let base := {| links := [(w, x); (x, y)]; total_cost := 11; connected := true |} in
  ∃ plan picks, add_shortcuts [w; x; y] ls base 3 = Some plan ∧
    links plan = [(w, x); (x, y); (w, y)] ∧
    greedy_rounds 3 (cost_table [w; x; y] ls) 3 (base_pairs [w; x; y] base) picks ∧
    links plan = links base ++ (named [w; x; y] <$> picks).
Proof.
  intros w x y ls base.
  destruct (add_shortcuts_greedy [w; x; y] ls base 3) as (plan & picks & E & L & _ & G & _).
  exists plan, picks. split; [exact E|]. split; [|split; [exact G|exact L]].
  assert (add_shortcuts [w; x; y] ls base 3
          = Some {| links := [(w, x); (x, y); (w, y)]; total_cost := 18; connected := true |}) as V
    by (vm_compute; reflexivity).
  rewrite V in E. injection E as <-. reflexivity.
Defined.

(** The documentation says each round links the two agents farthest apart. Here [w] and
    [z] are 100 apart with a direct link of 90, [x] and [y] only 60 apart with one of 1:
    the code links [x] and [y]. *)
Lemma not_the_farthest :
  let w := lit "w" in let x := lit "x" in let y := lit "y" in let z := lit "z" in
  let ls := [{| a := w; b := x; cost := 20 |}; {| a := x; b := y; cost := 60 |};
             {| a := y; b := z; cost := 20 |}; {| a := w; b := z; cost := 90 |};
             {| a := x; b := z; cost := 1 |}] in
  let base := {| links := [(w, x); (x, y); (y, z)]; total_cost := 100; connected := true |} in
  links <$> add_shortcuts [w; x; y; z] ls base 1 = Some [(w, x); (x, y); (y, z); (x, z)].
Proof. vm_compute. reflexivity. Qed.

(** ** The plan of a network *)

(** The links of a network: what the policy permits and the caller has measured. *)
Lemma planned_link net latency nodes l :
  l ∈ candidates nodes
        (omap (λ p : bytes * bytes,
                 c ← latency p.1 p.2; Some {| a := p.1; b := p.2; cost := c |})
              (Policy.sorted_pairs (Policy.desired_channels net))) →
  canonical l ∈ Policy.desired_channels net ∧ latency (canonical l).1 (canonical l).2 = Some (cost l).
Proof.
  intros [_ ([x y] & M & E)%list_elem_of_omap]%list_elem_of_filter. cbn in E.
  destruct (latency x y) as [c|] eqn:Lc; [|done]. injection E as <-.
  apply Policy.elem_of_sorted in M. unfold canonical. cbn [a b cost].
  assert (canon x y = (x, y)) as ->; [|done].
  pose proof M as D. unfold Policy.desired_channels in D.
  apply Policy.desired_from_iff in D as [D|(u & v & _ & _ & _ & _ & D)]; [by apply not_elem_of_empty in D|].
  unfold Policy.pair_new in D. unfold canon.
  destruct (bytes_leb (Policy.id u) (Policy.id v)) eqn:Lb; injection D as -> ->; [by rewrite Lb|].
  destruct (bytes_le_total (Policy.id u) (Policy.id v)) as [T|T]; unfold bytes_le in T; [congruence|].
  by rewrite T.
Qed.

(** A network's plan conforms to its policy, and an oversized request is refused before
    any planning. A topology with too many agents is an error that names both numbers,
    then one with too large a budget; every other one gets a plan, each link of which is
    a channel the policy calls for and whose latency was measured, at most [n-1] of them
    backbone and [budget] shortcuts. *)
Theorem plan_network_overlay_conforms net latency budget max_agents max_budget :
  let n := length (Policy.agents net) in
  (plan_network_overlay_bounded net latency budget max_agents max_budget =
   if (max_agents <? n)%nat then Err (TooManyAgents n max_agents)
   else if (max_budget <? budget)%nat then Err (ShortcutBudgetTooHigh budget max_budget)
   else Ok (plan_network_overlay net latency budget)) ∧
  ∃ plan, plan_network_overlay net latency budget = Some plan ∧
    (∀ q, q ∈ links plan →
       q ∈ Policy.desired_channels net ∧ is_Some (latency q.1 q.2)) ∧
    (length (links plan) ≤ (n - 1) + budget)%nat.
Proof.
  intros n. split; [done|]. unfold plan_network_overlay.
  set (nodes := Policy.id <$> Policy.agents net). set (ls := omap _ _).
  destruct (planner_greedy nodes ls) as (out & base & ds & -> & G & Rep & L & _ & _).
  cbn [mbind option_bind].
  destruct (add_shortcuts_spec nodes ls base budget) as (plan & picks & -> & Gr & L' & _).
  exists plan. split; [done|]. rewrite L', L. split.
  - intros q [(l & -> & Hl)%list_elem_of_fmap|(p & -> & Hp)%list_elem_of_fmap]%elem_of_app.
    + destruct (planned_link net latency nodes l) as [? E]; [|by rewrite E].
      apply greedy_sublist, (elem_of_sublist _ _ l Hl) in G.
      apply elem_of_ordered in G as [? ?]. by apply list_elem_of_filter.
    + destruct (greedy_rounds_known _ _ _ _ _ _ Gr Hp) as [c Ec].
      pose proof (cost_table_spec nodes ls p) as T. rewrite Ec in T.
      destruct T as [(l & Hl & <- & _) _]. rewrite named_key by by apply list_elem_of_filter in Hl as [? _].
      destruct (planned_link net latency nodes l Hl) as [? E]. by rewrite E.
  - rewrite length_app, !length_fmap. apply greedy_rounds_length in Gr.
    pose proof (backbone_length nodes ds out Rep) as B. unfold nodes in B. rewrite length_fmap in B.
    fold n in B. lia.
Qed.

Lemma plan_network_overlay_conforms_witness :
  let any := {| Policy.from := Policy.selector_any; Policy.to := Policy.selector_any |} in
  let agent i := {| Policy.id := i; Policy.group := []; Policy.label := [] |} in
  let net := {| Policy.agents := [agent (lit "a"); agent (lit "b"); agent (lit "c")];
                Policy.policy := {| Policy.levels := {| Policy.order := [] |};
                                    Policy.rules := [any]; Policy.mac_flow_control := false |} |} in
  plan_network_overlay_bounded net (λ _ _, Some 7) 1 2 5 = Err (TooManyAgents 3 2) ∧
  ∃ plan, plan_network_overlay net (λ _ _, Some 7) 1 = Some plan ∧
    links plan = [(lit "a", lit "b"); (lit "a", lit "c"); (lit "b", lit "c")] ∧
    (length (links plan) ≤ 3)%nat.
Proof.
  intros any agent net.
  destruct (plan_network_overlay_conforms net (λ _ _, Some 7) 1 2 5) as [B (plan & E & _ & L)].
  split; [exact B|]. exists plan. split; [exact E|]. split; [|exact L].
  assert (links <$> plan_network_overlay net (λ _ _, Some 7) 1
          = Some [(lit "a", lit "b"); (lit "a", lit "c"); (lit "b", lit "c")]) as V
    by (vm_compute; reflexivity).
  rewrite E in V. by injection V.
Defined.

(** ** The cost of a link from its probes *)

(** The order of the samples does not matter. *)
Lemma link_cost_order s t : s ≡ₚ t → link_cost_from_probes s = link_cost_from_probes t.
Proof.
  intros P. unfold link_cost_from_probes.
  assert (sort_by N.leb s = sort_by N.leb t) as ->.
  { assert (AntiSymm (=) (λ x y, N.leb x y = true)) as A
      by (intros x y; rewrite !N.leb_le; apply N.le_antisymm).
    apply (StronglySorted_unique (λ x y, N.leb x y = true));
      try (apply sort_by_sorted; intros; rewrite ?N.leb_le in *; lia).
    rewrite !sort_by_Permutation. done. }
  destruct s as [|x s], t as [|y t]; try done; by apply Permutation_length in P.
Qed.

(** The cost lies between two of the samples, so it never exceeds their width. *)
Lemma link_cost_between s c :
  link_cost_from_probes s = Some c → ∃ lo hi, lo ∈ s ∧ hi ∈ s ∧ lo <= c <= hi.
Proof.
  unfold link_cost_from_probes. destruct s as [|x s]; [done|].
  assert (∀ i y, sort_by N.leb (x :: s) !! i = Some y → y ∈ x :: s) as M.
  { intros i y Hy%list_elem_of_lookup_2. by rewrite sort_by_Permutation in Hy. }
  assert (StronglySorted (λ x y, N.leb x y = true) (sort_by N.leb (x :: s))) as S
    by (apply sort_by_sorted; intros; rewrite ?N.leb_le in *; lia).
  revert M S. generalize (sort_by N.leb (x :: s)) as v. intros v M S.
  destruct (length v mod 2 =? 1)%nat.
  - intros E. exists c, c. split; [by eapply M|]. split; [by eapply M|lia].
  - destruct (v !! (length v / 2 - 1)%nat) as [lo|] eqn:El; [|done].
    destruct (v !! (length v / 2)%nat) as [hi|] eqn:Eh; [|done]. intros [= <-].
    exists lo, hi. split; [by eapply M|]. split; [by eapply M|].
    assert (lo <= hi) as L.
    2:{ assert ((hi - lo) / 2 <= hi - lo) as Q by (apply N.Div0.div_le_upper_bound; lia).
        revert Q. generalize ((hi - lo) / 2). lia. }
    destruct (decide (length v / 2 - 1 = length v / 2)%nat) as [D|D].
    + rewrite D in El. simplify_eq. done.
    + apply N.leb_le. eapply (sorted_lookup _ _ _ _ _ _ S El Eh). lia.
Qed.

Lemma routing_roundtrip r : parse (as_str r) = Ok r.
Proof. by destruct r; vm_compute. Qed.

End Shortcuts.
