(* ===== verification/Framing.v ===== *)
(** * The relay framing of the TLS-TCP fallback

    [crates/common/src/fallback_framing.rs]: the frame writer and reader of the relay
    phase, over any transport ([AsyncWrite], [AsyncRead] of tokio are classes), and the
    keepalive bookkeeping. *)

From stdpp Require Import sorting.
From S2P Require Import Prelude RustStd.

(** The error kinds the module produces; [Transport] is whatever the stream itself
    reports. *)
Inductive IoError := InvalidInput | InvalidData | UnexpectedEof | Transport.
#[global] Instance IoError_eq_dec : EqDecision IoError.
Proof. solve_decision. Defined.

(** A fallible operation on a state, as an [async fn (&mut self) -> io::Result<A>] is. *)
Definition IO (S A : Type) : Type := S → Result A IoError * S.

Definition io_bind {S A B} (m : IO S A) (k : A → IO S B) : IO S B :=
  λ s, match m s with (Ok a, s') => k a s' | (Err e, s') => (Err e, s') end.
Notation "x '<-io' m ';' k" := (io_bind m (λ x, k))
  (at level 100, m at next level, k at level 200, right associativity) : cads_scope.

(** ** The transport

    tokio's traits, with what the module uses of them. A failed write may have delivered
    a prefix of the buffer. A reader is its undelivered content: [read] of one byte gets
    nothing only at the end, [read_exact] fails with [UnexpectedEof] when the content is
    too short. *)

Class AsyncWrite (W : Type) := {
  write_all : bytes → W → bool * W;
  flush_stream : W → bool * W
}.

Class AsyncWriteLaws (W : Type) `{AsyncWrite W} := {
  delivered : W → bytes;
  write_all_ok b w w' : write_all b w = (true, w') → delivered w' = delivered w ++ b;
  write_all_fails b w w' :
    write_all b w = (false, w') → ∃ k, delivered w' = delivered w ++ take k b;
  flush_delivers w : delivered (flush_stream w).2 = delivered w
}.

Class AsyncRead (R : Type) := {
  read : nat → R → Result bytes IoError * R;
  read_exact : nat → R → Result bytes IoError * R
}.

Class AsyncReadLaws (R : Type) `{AsyncRead R} := {
  content : R → bytes;
  read_end r : content r = [] → ∃ r', read 1 r = (Ok [], r') ∧ content r' = [];
  read_byte r b l : content r = b :: l → ∃ r', read 1 r = (Ok [b], r') ∧ content r' = l;
  read_exact_ok n r a l :
    content r = a ++ l → length a = n → ∃ r', read_exact n r = (Ok a, r') ∧ content r' = l;
  read_exact_short n r :
    (length (content r) < n)%nat → ∃ r', read_exact n r = (Err UnexpectedEof, r')
}.

(** An in-memory duplex: the writer is the bytes written and the room left before the
    connection breaks, the reader the bytes still to come. *)
Module Duplex.

Record Sink := { written : bytes; room : nat }.

#[global] Instance sink_write : AsyncWrite Sink := {|
  write_all b w :=
    ((length b <=? room w)%nat,
     {| written := written w ++ take (room w) b; room := room w - length b |});
  flush_stream w := (true, w)
|}.

#[global] Instance sink_write_laws : AsyncWriteLaws Sink.
Proof.
  refine {| delivered := written |}.
  - intros b w w'. cbn. intros [= E%Nat.leb_le <-]. cbn. by rewrite take_ge.
  - intros b w w'. cbn. intros [= _ <-]. by exists (room w).
  - done.
Defined.

#[global] Instance bytes_read : AsyncRead bytes := {|
  read n r := (Ok (take n r), drop n r);
  read_exact n r :=
    if (n <=? length r)%nat then (Ok (take n r), drop n r) else (Err UnexpectedEof, [])
|}.

#[global] Instance bytes_read_laws : AsyncReadLaws bytes.
Proof.
  refine {| content := λ r, r |}.
  - intros r ->. by exists [].
  - intros r b l ->. by exists l.
  - intros n r a l -> <-. exists l. cbn. rewrite length_app, take_app_length, drop_app_length.
    destruct (Nat.leb_spec (length a) (length a + length l)); [done|lia].
  - intros n r H. exists []. cbn. destruct (Nat.leb_spec n (length r)); [lia|done].
Defined.

End Duplex.

Module Framing.

(** src/crates/common/src/fallback_framing.rs:100-100 [FRAME_DATA] *)
Definition FRAME_DATA : byte := xfc.

(** src/crates/common/src/fallback_framing.rs:102-102 [FRAME_KEEPALIVE] *)
Definition FRAME_KEEPALIVE : byte := xfd.

(** src/crates/common/src/fallback_framing.rs:104-104 [FRAME_KEEPALIVE_ACK] *)
Definition FRAME_KEEPALIVE_ACK : byte := xf8.

(** src/crates/common/src/fallback_framing.rs:106-106 [FRAME_FIN] *)
Definition FRAME_FIN : byte := xfe.

(** src/crates/common/src/fallback_framing.rs:111-111 [MAX_FRAME_PAYLOAD] *)
Definition MAX_FRAME_PAYLOAD : N := 256 * 1024.

(** src/crates/common/src/fallback_framing.rs:145-157 [Frame] *)
Inductive Frame :=
| Data (payload : bytes)
| Keepalive (counter : N) (should_ack : bool)
| KeepaliveAck (counter : N)
| Fin.

(** ** The writer *)

(** src/crates/common/src/fallback_framing.rs:169-172 [FrameWriter] *)
Record FrameWriter (W : Type) := { w : W; sent_fin : bool }.
Arguments w {W} _.
Arguments sent_fin {W} _.

Section Writer.
Context `{AsyncWrite W}.

(** src/crates/common/src/fallback_framing.rs:175-177 [FrameWriter::new] *)
Definition new_writer (w0 : W) : FrameWriter W := {| w := w0; sent_fin := false |}.

(** [self.w.write_all(buf).await] *)
Definition put (buf : bytes) : IO (FrameWriter W) () := λ s,
  let '(ok, w') := write_all buf (w s) in
  (if ok then Ok () else Err Transport, {| w := w'; sent_fin := sent_fin s |}).

(** src/crates/common/src/fallback_framing.rs:238-240 [FrameWriter::flush] *)
Definition flush : IO (FrameWriter W) () := λ s,
  let '(ok, w') := flush_stream (w s) in
  (if ok then Ok () else Err Transport, {| w := w'; sent_fin := sent_fin s |}).

(** src/crates/common/src/fallback_framing.rs:188-203 [FrameWriter::data] *)
Definition data (payload : bytes) : IO (FrameWriter W) () := λ s,
  if sent_fin s then (Err InvalidInput, s)
  else if MAX_FRAME_PAYLOAD <? blen payload then (Err InvalidInput, s)
  else put (FRAME_DATA :: u32_be (wrap32 (blen payload)) ++ payload) s.

(** src/crates/common/src/fallback_framing.rs:206-212 [FrameWriter::keepalive] *)
Definition keepalive (counter : N) : IO (FrameWriter W) () :=
  _ <-io put (FRAME_KEEPALIVE :: u64_be counter); flush.

(** src/crates/common/src/fallback_framing.rs:215-221 [FrameWriter::keepalive_ack] *)
Definition keepalive_ack (counter : N) : IO (FrameWriter W) () :=
  _ <-io put (FRAME_KEEPALIVE_ACK :: u64_be counter); flush.

(** src/crates/common/src/fallback_framing.rs:224-231 [FrameWriter::fin] *)
Definition fin : IO (FrameWriter W) () := λ s,
  if sent_fin s then (Err InvalidInput, s)
  else (_ <-io put [FRAME_FIN]; flush) {| w := w s; sent_fin := true |}.

End Writer.

(** ** The reader *)

(** src/crates/common/src/fallback_framing.rs:258-262 [FrameReader] *)
Record FrameReader (R : Type) := { r : R; peer_fin : bool; last_acked : option N }.
Arguments r {R} _.
Arguments peer_fin {R} _.
Arguments last_acked {R} _.

Section Reader.
Context `{AsyncRead R}.

(** src/crates/common/src/fallback_framing.rs:265-267 [FrameReader::new] *)
Definition new_reader (r0 : R) : FrameReader R :=
  {| r := r0; peer_fin := false; last_acked := None |}.

(** A read on the underlying stream. *)
Definition on_stream {A} (m : IO R A) : IO (FrameReader R) A := λ s,
  let '(res, r') := m (r s) in
  (res, {| r := r'; peer_fin := peer_fin s; last_acked := last_acked s |}).

(** src/crates/common/src/fallback_framing.rs:308-314 [FrameReader::next]: the bounded-ACK rule. *)
Definition ack_verdict (last : option N) (counter : N) : bool * option N :=
  match last with
  | Some l => if counter <=? l then (false, Some l) else (true, Some counter)
  | None => (true, Some counter)
  end.

(** src/crates/common/src/fallback_framing.rs:283-342 [FrameReader::next] *)
Definition next : IO (FrameReader R) (option Frame) :=
  disc <-io on_stream (read 1);
  match disc with
  | [] => λ s, (Ok None, s)
  | d :: _ =>
    if bool_decide (d = FRAME_FIN) then λ s,
      if peer_fin s then (Err InvalidData, s)
      else (Ok (Some Fin), {| r := r s; peer_fin := true; last_acked := last_acked s |})
    else if bool_decide (d = FRAME_KEEPALIVE) then
      c <-io on_stream (read_exact 8);
      λ s,
        let counter := be_val c in
        let '(should_ack, last) := ack_verdict (last_acked s) counter in
        (Ok (Some (Keepalive counter should_ack)),
         {| r := r s; peer_fin := peer_fin s; last_acked := last |})
    else if bool_decide (d = FRAME_KEEPALIVE_ACK) then
      c <-io on_stream (read_exact 8);
      λ s, (Ok (Some (KeepaliveAck (be_val c))), s)
    else if bool_decide (d = FRAME_DATA) then λ s,
      if peer_fin s then (Err InvalidData, s)
      else
        (len_buf <-io on_stream (read_exact 4);
         let len := be_val len_buf in
         if MAX_FRAME_PAYLOAD <? len then λ s, (Err InvalidData, s)
         else
           payload <-io on_stream (read_exact (N.to_nat len));
           λ s, (Ok (Some (Data payload)), s)) s
    else λ s, (Err InvalidData, s)
  end.

(** Frames taken off the stream one after the other. *)
Inductive reads : FrameReader R → list Frame → FrameReader R → Prop :=
| reads_nil s : reads s [] s
| reads_cons s f s' fs s'' :
    next s = (Ok (Some f), s') → reads s' fs s'' → reads s (f :: fs) s''.

End Reader.

(** ** The keepalive bookkeeping *)

(** src/crates/common/src/fallback_framing.rs:350-353 [KeepaliveTracker]: counters with the time they were sent, oldest first. *)
Record KeepaliveTracker := { outstanding : list (N * N) }.

(** src/crates/common/src/fallback_framing.rs:356-358 [KeepaliveTracker::new] *)
Definition new_tracker : KeepaliveTracker := {| outstanding := [] |}.

(** src/crates/common/src/fallback_framing.rs:365-365 [OUTSTANDING_CAP] *)
Definition OUTSTANDING_CAP : nat := 64.

(** src/crates/common/src/fallback_framing.rs:364-370 [KeepaliveTracker::sent] *)
Definition sent (t : KeepaliveTracker) (counter now_ms : N) : KeepaliveTracker :=
  let l := if (OUTSTANDING_CAP <=? length (outstanding t))%nat then tail (outstanding t)
           else outstanding t in
  {| outstanding := l ++ [(counter, now_ms)] |}.

(** src/crates/common/src/fallback_framing.rs:374-376 [KeepaliveTracker::ack] *)
Definition ack (t : KeepaliveTracker) (counter : N) : KeepaliveTracker :=
  {| outstanding := filter (λ p, counter < p.1) (outstanding t) |}.

(** src/crates/common/src/fallback_framing.rs:380-382 [KeepaliveTracker::oldest_outstanding_age_ms] *)
Definition oldest_outstanding_age_ms (t : KeepaliveTracker) (now_ms : N) : option N :=
  (λ p, now_ms - p.2) <$> head (outstanding t).

(** ** What the writer puts on the wire *)

(** A call on the writer-owner. *)
Inductive Call := CData (p : bytes) | CKeepalive (c : N) | CAck (c : N) | CFin | CFlush.

Definition run_call `{AsyncWrite W} (c : Call) : IO (FrameWriter W) () :=
  match c with
  | CData p => data p
  | CKeepalive n => keepalive n
  | CAck n => keepalive_ack n
  | CFin => fin
  | CFlush => flush
  end.

(** The calls of one direction, with the result of each. *)
Fixpoint run_calls `{AsyncWrite W} (cs : list Call) (s : FrameWriter W)
    : list (Result () IoError) * FrameWriter W :=
  match cs with
  | [] => ([], s)
  | c :: cs' =>
    let '(res, s') := run_call c s in
    let '(rs, s'') := run_calls cs' s' in (res :: rs, s'')
  end.

(** The wire form of a frame. *)
Definition wire (f : Frame) : bytes :=
  match f with
  | Data p => FRAME_DATA :: u32_be (blen p) ++ p
  | Keepalive c _ => FRAME_KEEPALIVE :: u64_be c
  | KeepaliveAck c => FRAME_KEEPALIVE_ACK :: u64_be c
  | Fin => [FRAME_FIN]
  end.

Definition wires (fs : list Frame) : bytes := concat (wire <$> fs).

(** The calls the contract refuses, given whether the FIN is out. *)
Definition refused (fin : bool) (c : Call) : bool :=
  match c with
  | CData p => fin || (MAX_FRAME_PAYLOAD <? blen p)
  | CFin => fin
  | _ => false
  end.

Definition fin_after (fin : bool) (c : Call) : bool :=
  match c with CFin => true | _ => fin end.

Fixpoint verdicts (fin : bool) (cs : list Call) : list (Result () IoError) :=
  match cs with
  | [] => []
  | c :: cs' => (if refused fin c then Err InvalidInput else Ok ()) :: verdicts (fin_after fin c) cs'
  end.

(** The frames the peer has to see, with the ACK verdicts of the bounded-ACK rule. *)
Fixpoint accepted (fin : bool) (last : option N) (cs : list Call) : list Frame :=
  match cs with
  | [] => []
  | c :: cs' =>
    if refused fin c then accepted fin last cs'
    else match c with
         | CData p => Data p :: accepted fin last cs'
         | CKeepalive n => Keepalive n (ack_verdict last n).1
                             :: accepted fin (ack_verdict last n).2 cs'
         | CAck n => KeepaliveAck n :: accepted fin last cs'
         | CFin => Fin :: accepted true last cs'
         | CFlush => accepted fin last cs'
         end
  end.

Definition call_ok (c : Call) : Prop :=
  match c with CKeepalive n | CAck n => u64_ok n | _ => True end.

(** How many frames of [fs] the first [k] bytes of their wire form contain whole. *)
Fixpoint whole (k : nat) (fs : list Frame) : nat :=
  match fs with
  | [] => 0
  | f :: fs' => if (length (wire f) <=? k)%nat then S (whole (k - length (wire f)) fs') else 0
  end.

Lemma wires_one f : wires [f] = wire f.
Proof. apply app_nil_r. Qed.

Lemma wires_cons f fs : wires (f :: fs) = wire f ++ wires fs.
Proof. done. Qed.

Section WriterFacts.
Context `{AsyncWriteLaws W}.

Lemma put_delivers buf s res s' :
  put buf s = (res, s') → res ≠ Err Transport →
  res = Ok () ∧ delivered (w s') = delivered (w s) ++ buf ∧ sent_fin s' = sent_fin s.
Proof.
  unfold put. destruct (write_all buf (w s)) as [[] w'] eqn:E; intros [= <- <-] N; [|done].
  cbn. by apply write_all_ok in E.
Qed.

Lemma flush_quiet s res s' :
  flush s = (res, s') → res ≠ Err Transport →
  res = Ok () ∧ delivered (w s') = delivered (w s) ∧ sent_fin s' = sent_fin s.
Proof.
  unfold flush. pose proof (flush_delivers (w s)) as F.
  destruct (flush_stream (w s)) as [[] w']; intros [= <- <-] N; [|done]. by cbn in *.
Qed.

Lemma put_flush buf s res s' :
  (_ <-io put buf; flush) s = (res, s') → res ≠ Err Transport →
  res = Ok () ∧ delivered (w s') = delivered (w s) ++ buf ∧ sent_fin s' = sent_fin s.
Proof.
  unfold io_bind. destruct (put buf s) as [[[]|e] s1] eqn:P.
  - intros F N. apply put_delivers in P as (_ & <- & <-); [|done]. by apply flush_quiet.
  - intros [= <- <-] N. by apply put_delivers in P as (? & _).
Qed.

(** One call: it delivers its frame, or is refused and leaves the stream alone. *)
Lemma run_call_spec c s res s' last :
  run_call c s = (res, s') → res ≠ Err Transport →
  res = (if refused (sent_fin s) c then Err InvalidInput else Ok ()) ∧
  delivered (w s') = delivered (w s) ++ wires (accepted (sent_fin s) last [c]) ∧
  sent_fin s' = fin_after (sent_fin s) c.
Proof.
  destruct c as [p|n|n| |]; cbn [run_call refused accepted fin_after]; intros C N.
  - unfold data in C. destruct (sent_fin s) eqn:F; cbn [orb].
    + injection C as <- <-. by rewrite F, app_nil_r.
    + destruct (MAX_FRAME_PAYLOAD <? blen p) eqn:M; [injection C as <- <-; by rewrite F, app_nil_r|].
      apply put_delivers in C as (-> & -> & ->); [|done]. split; [done|]. split; [|done].
      cbn [orb]. rewrite wires_one. cbn [wire]. do 4 f_equal. apply N.mod_small. apply N.ltb_ge in M.
      unfold MAX_FRAME_PAYLOAD, U32 in *. lia.
  - apply put_flush in C as (-> & -> & ->); [|done]. by rewrite wires_one.
  - apply put_flush in C as (-> & -> & ->); [|done]. by rewrite wires_one.
  - unfold fin in C. destruct (sent_fin s) eqn:F.
    + injection C as <- <-. by rewrite F, app_nil_r.
    + apply put_flush in C as (-> & -> & ->); [|done]. by rewrite wires_one.
  - apply flush_quiet in C as (-> & -> & ->); [|done]. by rewrite app_nil_r.
Qed.

Lemma wires_any_last f l1 l2 cs : wires (accepted f l1 cs) = wires (accepted f l2 cs).
Proof.
  revert f l1 l2. induction cs as [|c cs IH]; intros f l1 l2; cbn [accepted]; [done|].
  destruct (refused f c); [apply IH|].
  destruct c; rewrite ?wires_cons; first [apply IH|f_equal; apply IH].
Qed.

Lemma accepted_cons fin last c cs :
  wires (accepted fin last (c :: cs)) =
  wires (accepted fin last [c]) ++ wires (accepted (fin_after fin c) last cs).
Proof.
  cbn [accepted]. destruct (refused fin c) eqn:F.
  - destruct c; try done. cbn in F. by subst fin.
  - destruct c; rewrite ?wires_cons, <- ?app_assoc; try done. f_equal. apply wires_any_last.
Qed.

Lemma run_calls_spec cs s rs s' last :
  run_calls cs s = (rs, s') → Err Transport ∉ rs →
  rs = verdicts (sent_fin s) cs ∧
  delivered (w s') = delivered (w s) ++ wires (accepted (sent_fin s) last cs).
Proof.
  revert s rs. induction cs as [|c cs IH]; intros s rs.
  - intros [= <- <-] _. unfold wires. cbn. by rewrite app_nil_r.
  - cbn [run_calls]. destruct (run_call c s) as [res s1] eqn:C.
    destruct (run_calls cs s1) as [rs1 s2] eqn:R. intros [= <- <-].
    rewrite elem_of_cons. intros N.
    apply run_call_spec with (last := last) in C as (-> & D & E); [|naive_solver].
    apply IH in R as [-> D']; [|tauto].
    rewrite E, D in *. rewrite accepted_cons, app_assoc. by rewrite D'.
Qed.

End WriterFacts.

(** ** What the reader makes of it *)

(** A frame the contract allows next, given the peer's FIN and the last acked counter. *)
Definition step_ok (fin : bool) (last : option N) (f : Frame) : Prop :=
  match f with
  | Data p => fin = false ∧ blen p <= MAX_FRAME_PAYLOAD
  | Keepalive c b => u64_ok c ∧ b = (ack_verdict last c).1
  | KeepaliveAck c => u64_ok c
  | Fin => fin = false
  end.

Definition fin_seen (fin : bool) (f : Frame) : bool :=
  match f with Fin => true | _ => fin end.

Definition last_seen (last : option N) (f : Frame) : option N :=
  match f with Keepalive c _ => (ack_verdict last c).2 | _ => last end.

Fixpoint stream_ok (fin : bool) (last : option N) (fs : list Frame) : Prop :=
  match fs with
  | [] => True
  | f :: fs' => step_ok fin last f ∧ stream_ok (fin_seen fin f) (last_seen last f) fs'
  end.

Lemma accepted_ok fin last cs :
  Forall call_ok cs → stream_ok fin last (accepted fin last cs).
Proof.
  intros F. revert fin last. induction F as [|c cs O F IH]; intros fin last; [done|].
  cbn [accepted]. destruct (refused fin c) eqn:R; [apply IH|].
  destruct c; cbn in R; bool_facts; cbn; auto.
Qed.

Lemma wire_nonempty f : (0 < length (wire f))%nat.
Proof. destruct f; cbn; lia. Qed.

Section ReaderFacts.
Context `{AsyncReadLaws R}.

#[local] Arguments on_stream : simpl never.

Lemma on_stream_ok {A} (m : IO R A) s a r' :
  m (r s) = (Ok a, r') →
  on_stream m s = (Ok a, {| r := r'; peer_fin := peer_fin s; last_acked := last_acked s |}).
Proof. unfold on_stream. by intros ->. Qed.

Lemma on_stream_err {A} (m : IO R A) s e r' :
  m (r s) = (Err e, r') →
  on_stream m s = (Err e, {| r := r'; peer_fin := peer_fin s; last_acked := last_acked s |}).
Proof. unfold on_stream. by intros ->. Qed.

Lemma next_end s : content (r s) = [] → (next s).1 = Ok None.
Proof.
  intros (r1 & E & _)%read_end. unfold next, io_bind. by rewrite (on_stream_ok _ _ _ _ E).
Qed.

(** [read_disc]: the discriminator byte of the content, and the branch it selects. *)
Ltac read_disc :=
  match goal with
  | C : content (r ?s) = _ |- _ =>
    let E := fresh "E" in
    destruct (read_byte _ _ _ C) as (? & E & ?); unfold next, io_bind;
    rewrite (on_stream_ok _ s _ _ E); cbn;
    repeat first [rewrite (bool_decide_eq_true_2 _ eq_refl)
                 |rewrite bool_decide_eq_false_2 by discriminate]; cbn
  end.

(** [take_bytes a l]: the next read of [length a] bytes from the content [a ++ l]. *)
Ltac take_bytes a l :=
  match goal with |- context [on_stream (read_exact ?n) ?s] =>
    match goal with C : content ?r0 = _ |- _ =>
      let E := fresh "E" in
      destruct (read_exact_ok n r0 a l) as (? & E & ?);
      [rewrite C, <- ?app_assoc, ?app_nil_r; done
      |rewrite ?length_u64_be, ?length_u32_be, ?to_nat_blen; done
      |rewrite (on_stream_ok _ s _ _ E); cbn]
    end
  end.

Lemma next_wire s f rest :
  content (r s) = wire f ++ rest → step_ok (peer_fin s) (last_acked s) f →
  ∃ r', next s = (Ok (Some f), {| r := r'; peer_fin := fin_seen (peer_fin s) f;
                                  last_acked := last_seen (last_acked s) f |})
        ∧ content r' = rest.
Proof.
  intros C S. destruct f as [p|c b|c|]; cbn [wire app] in C.
  - destruct S as [S1 S2]. read_disc. rewrite S1.
    take_bytes (u32_be (blen p)) (p ++ rest).
    rewrite be_val_u32_be by (unfold MAX_FRAME_PAYLOAD, u32_ok, U32 in *; lia).
    rewrite (proj2 (N.ltb_ge _ _) S2). take_bytes p rest. by eexists.
  - destruct S as [S1 ->]. read_disc. take_bytes (u64_be c) rest.
    rewrite be_val_u64_be by done. destruct (ack_verdict _ c). by eexists.
  - read_disc. take_bytes (u64_be c) rest. rewrite be_val_u64_be by done. by eexists.
  - cbn in S. read_disc. rewrite S. by eexists.
Qed.

(** [short_read]: the next read asks for more bytes than are left. *)
Ltac short_read :=
  match goal with |- context [on_stream (read_exact ?n) ?s] =>
    match goal with C : content ?r0 = _ |- _ =>
      let E := fresh "E" in
      destruct (read_exact_short n r0) as (? & E);
      [rewrite C, ?length_take, ?to_nat_blen; lia|rewrite (on_stream_err _ s _ _ E); done]
    end
  end.

Lemma next_torn s f j :
  content (r s) = take j (wire f) → (0 < j < length (wire f))%nat →
  step_ok (peer_fin s) (last_acked s) f → (next s).1 = Err UnexpectedEof.
Proof.
  intros C [J1 J2] S. destruct j as [|j]; [lia|].
  destruct f as [p|c b|c|]; cbn [wire take length] in C, J2.
  - destruct S as [S1 S2]. read_disc. rewrite S1.
    rewrite length_app, length_u32_be in J2. destruct (decide (j < 4)%nat) as [L|L]; [short_read|].
    assert (take j (u32_be (blen p) ++ p) = u32_be (blen p) ++ take (j - 4) p) as T.
    { rewrite take_app, length_u32_be, take_ge; [done|rewrite length_u32_be; lia]. }
    rewrite T in *. take_bytes (u32_be (blen p)) (take (j - 4) p).
    rewrite be_val_u32_be by (unfold MAX_FRAME_PAYLOAD, u32_ok, U32 in *; lia).
    rewrite (proj2 (N.ltb_ge _ _) S2). short_read.
  - rewrite length_u64_be in J2. read_disc. short_read.
  - rewrite length_u64_be in J2. read_disc. short_read.
  - cbn in J2. lia.
Qed.

(** A connection cut after [k] bytes: every whole frame is read, then the end is clean
    exactly at a frame boundary. *)
Lemma reads_cut fs k s :
  content (r s) = take k (wires fs) → (k ≤ length (wires fs))%nat →
  stream_ok (peer_fin s) (last_acked s) fs →
  ∃ s', reads s (take (whole k fs) fs) s' ∧
        (next s').1 = if (k =? length (wires (take (whole k fs) fs)))%nat then Ok None
                      else Err UnexpectedEof.
Proof.
  revert k s. induction fs as [|f fs IH]; intros k s C K S; cbn [whole take].
  - exists s. split; [constructor|]. cbn in K. assert (k = 0%nat) as -> by lia. by apply next_end.
  - rewrite wires_cons in C, K. destruct S as [S1 S2]. pose proof (wire_nonempty f).
    destruct (Nat.leb_spec (length (wire f)) k) as [L|L].
    + rewrite take_app, (take_ge (wire f)) in C by done.
      destruct (next_wire s f _ C S1) as (r' & E & C').
      rewrite length_app in K.
      destruct (IH (k - length (wire f))%nat {| r := r'; peer_fin := fin_seen (peer_fin s) f;
        last_acked := last_seen (last_acked s) f |}) as (s' & R1 & R2); [done|lia|done|].
      exists s'. cbn [take]. split; [by econstructor|]. rewrite R2, wires_cons, length_app.
      destruct (Nat.eqb_spec (k - length (wire f)) (length (wires (take (whole (k - length (wire f)) fs) fs))));
        destruct (Nat.eqb_spec k (length (wire f) + length (wires (take (whole (k - length (wire f)) fs) fs))));
        done||lia.
    + exists s. split; [constructor|]. cbn. rewrite take_app_le in C by lia.
      destruct k as [|k]; [by apply next_end|].
      eapply next_torn; [exact C|lia|done].
Qed.

End ReaderFacts.

Lemma whole_all fs : whole (length (wires fs)) fs = length fs.
Proof.
  induction fs as [|f fs IH]; [done|]. rewrite wires_cons, length_app. cbn [whole length].
  destruct (Nat.leb_spec (length (wire f)) (length (wire f) + length (wires fs))); [|lia].
  rewrite Nat.add_comm, Nat.add_sub. by rewrite IH.
Qed.

(** C30 One direction of the relay, writer to reader, over any transport that obeys the
    stream contract. Whatever calls are made (as long as the transport itself does not
    fail), exactly the calls the FIN and size rules forbid are refused and leave the
    stream untouched; the bytes delivered are the wire forms of the accepted frames. If
    the connection is then cut after any [k] of these bytes, the reader yields exactly
    the frames that arrived whole, in order, each keepalive with the ACK verdict of the
    bounded-ACK rule, and then a clean end if the cut is at a frame boundary and
    [UnexpectedEof] otherwise, never a different frame. Uncut, all frames arrive. *)
Theorem framing_roundtrip `{AsyncWriteLaws W} `{AsyncReadLaws R} calls (w0 : W) rs s' :
  run_calls calls (new_writer w0) = (rs, s') → Err Transport ∉ rs → Forall call_ok calls →
  let fs := accepted false None calls in
  rs = verdicts false calls ∧
  delivered (w s') = delivered w0 ++ wires fs ∧
  (∀ (r0 : R) k, content r0 = take k (wires fs) → (k ≤ length (wires fs))%nat →
     let got := take (whole k fs) fs in
     ∃ s'', reads (new_reader r0) got s'' ∧
            (next s'').1 = if (k =? length (wires got))%nat then Ok None else Err UnexpectedEof) ∧
  whole (length (wires fs)) fs = length fs.
Proof.
  intros E N F. cbv zeta. destruct (run_calls_spec _ _ _ _ None E N) as [V D].
  split; [done|]. split; [done|]. split; [|apply whole_all].
  intros r0 k C K. apply reads_cut; [done|done|]. by apply accepted_ok.
Qed.

(** A keepalive, data, the FIN, data that is refused, a stale keepalive, read back from a
    connection that breaks inside the last keepalive. *)
Lemma framing_roundtrip_witness :
  let calls := [CKeepalive 7; CData (lit "GET /"); CFin; CData (lit "late"); CKeepalive 7;
                CKeepalive 9] in
  let fs := accepted false None calls in
  fs = [Keepalive 7 true; Data (lit "GET /"); Fin; Keepalive 7 false; Keepalive 9 true] ∧
  ∃ s'' : FrameReader bytes,
    reads (new_reader (take 33 (wires fs)))
      [Keepalive 7 true; Data (lit "GET /"); Fin; Keepalive 7 false] s'' ∧
    (next s'').1 = Err UnexpectedEof.
Proof.
  intros calls fs. split; [vm_compute; reflexivity|].
  destruct (framing_roundtrip (W := Duplex.Sink) (R := bytes) calls
    {| Duplex.written := []; Duplex.room := 1000 |}
    [Ok (); Ok (); Ok (); Err InvalidInput; Ok (); Ok ()]
    {| w := {| Duplex.written := wires fs; Duplex.room := 962 |}; sent_fin := true |})
    as (_ & _ & H & _).
  - vm_compute. reflexivity.
  - intros X. repeat (apply elem_of_cons in X as [X|X]; [discriminate|]). by apply elem_of_nil in X.
  - repeat constructor.
  - exact (H (take 33 (wires fs)) 33%nat eq_refl ltac:(vm_compute; lia)).
Defined.


(** ** What no peer can make the reader do *)

(** The counters marked for an ACK. *)
Definition acked (fs : list Frame) : list N :=
  omap (λ f, match f with Keepalive c true => Some c | _ => None end) fs.

Definition above (last : option N) (c : N) : Prop :=
  match last with Some l => l < c | None => True end.

Section Contract.
Context `{AsyncRead R}.

Lemma on_stream_keeps {A} (m : IO R A) s res s' :
  on_stream m s = (res, s') → peer_fin s' = peer_fin s ∧ last_acked s' = last_acked s.
Proof. unfold on_stream. destruct (m (r s)). by intros [= _ <-]. Qed.

(** Whatever the stream holds, a frame that is yielded obeys the rules and advances the
    reader's FIN flag and last acked counter accordingly. *)
Lemma next_yields s f s' :
  next s = (Ok (Some f), s') →
  match f with
  | Data _ | Fin => peer_fin s = false
  | Keepalive c b => b = (ack_verdict (last_acked s) c).1
  | KeepaliveAck _ => True
  end ∧
  peer_fin s' = fin_seen (peer_fin s) f ∧ last_acked s' = last_seen (last_acked s) f.
Proof.
  unfold next, io_bind. destruct (on_stream (read 1) s) as [[d|] s1] eqn:E1; [|done].
  apply on_stream_keeps in E1 as [<- <-]. destruct d as [|d _]; [done|].
  case_bool_decide; [destruct (peer_fin s1) eqn:P; [done|]; by intros [= <- <-]|].
  case_bool_decide.
  { destruct (on_stream (read_exact 8) s1) as [[c|] s2] eqn:E2; [|done].
    apply on_stream_keeps in E2 as [<- <-].
    destruct (ack_verdict (last_acked s2) (be_val c)) as [b l] eqn:V. intros [= <- <-].
    cbn. by rewrite V. }
  case_bool_decide.
  { destruct (on_stream (read_exact 8) s1) as [[c|] s2] eqn:E2; [|done].
    apply on_stream_keeps in E2 as [<- <-]. by intros [= <- <-]. }
  case_bool_decide; [|done]. destruct (peer_fin s1) eqn:P; [done|].
  destruct (on_stream (read_exact 4) s1) as [[c|] s2] eqn:E2; [|done].
  apply on_stream_keeps in E2 as [Q <-]. destruct (MAX_FRAME_PAYLOAD <? be_val c); [done|].
  destruct (on_stream (read_exact _) s2) as [[p|] s3] eqn:E3; [|done].
  apply on_stream_keeps in E3 as [E3 <-]. intros [= <- <-]. cbn. split; [done|].
  split; congruence.
Qed.

Lemma ack_true last c :
  (ack_verdict last c).1 = true → above last c ∧ (ack_verdict last c).2 = Some c.
Proof.
  unfold ack_verdict. destruct last as [l|]; [|done]. destruct (c <=? l) eqn:E; [done|].
  apply N.leb_gt in E. done.
Qed.

Lemma ack_false last c :
  (ack_verdict last c).1 = false → (∃ l, last = Some l ∧ c <= l) ∧ (ack_verdict last c).2 = last.
Proof.
  unfold ack_verdict. destruct last as [l|]; [|done]. destruct (c <=? l) eqn:E; [|done].
  apply N.leb_le in E. eauto.
Qed.

(** Marked counters grow, from the last one marked before. *)
Lemma reads_acked s fs s' :
  reads s fs s' → StronglySorted N.lt (acked fs) ∧ Forall (above (last_acked s)) (acked fs).
Proof.
  induction 1 as [s|s f s1 fs s2 E Hr [I1 I2]]; [split; constructor|].
  apply next_yields in E as (V & _ & L). rewrite L in I2.
  destruct f as [p|c b|c|]; [done| |done|done].
  destruct b; cbn in V, I2 |- *; symmetry in V.
  - apply ack_true in V as [A V]. rewrite V in I2. split; [by constructor|].
    constructor; [done|]. eapply Forall_impl; [|exact I2]. intros x Hx.
    destruct (last_acked s); [|done]. cbn in *. lia.
  - apply ack_false in V as [_ V]. by rewrite V in I2.
Qed.

(** A counter that is not marked was covered by one that was. *)
Lemma reads_covered s fs s' i c :
  reads s fs s' → fs !! i = Some (Keepalive c false) →
  (∃ l, last_acked s = Some l ∧ c <= l) ∨
  ∃ j a, (j < i)%nat ∧ fs !! j = Some (Keepalive a true) ∧ c <= a.
Proof.
  intros Hr. revert i. induction Hr as [s|s f s1 fs s2 E Hr IH]; intros i Hi; [done|].
  apply next_yields in E as (V & _ & L). destruct i as [|i].
  - injection Hi as ->. left. symmetry in V. by apply ack_false in V as [? _].
  - destruct (IH i Hi) as [(l & E & C)|(j & a & J & Hj & C)].
    + rewrite L in E. destruct f as [p|c' []|c'|]; cbn in E; eauto; symmetry in V.
      * apply ack_true in V as [_ V]. rewrite V in E. injection E as ->.
        right. exists 0%nat, l. split; [lia|done].
      * apply ack_false in V as [_ V]. rewrite V in E. eauto.
    + right. exists (S j), a. split; [lia|done].
Qed.

(** After the peer's FIN there is neither data nor another FIN. *)
Lemma reads_after_fin s fs s' :
  reads s fs s' → peer_fin s = true → ∀ f, f ∈ fs → f ≠ Fin ∧ ∀ p, f ≠ Data p.
Proof.
  induction 1 as [s|s f s1 fs s2 E Hr IH]; intros P g; [by intros ?%elem_of_nil|].
  apply next_yields in E as (V & F & _). rewrite P in *.
  intros [->|G]%elem_of_cons; [by destruct f|]. apply IH; [|done]. rewrite F. by destruct f.
Qed.

Lemma reads_fin_last s fs s' i j f :
  reads s fs s' → fs !! i = Some Fin → (i < j)%nat → fs !! j = Some f →
  f ≠ Fin ∧ ∀ p, f ≠ Data p.
Proof.
  intros Hr. revert i j. induction Hr as [s|s g s1 fs s2 E Hr IH]; intros i j Hi L Hj; [done|].
  destruct j as [|j]; [lia|]. destruct i as [|i].
  - injection Hi as ->. apply next_yields in E as (_ & F & _).
    eapply reads_after_fin; [done|done|]. apply list_elem_of_lookup. by exists j.
  - apply (IH i j); [exact Hi|lia|exact Hj].
Qed.

End Contract.

Lemma read_exact_length `{AsyncReadLaws R} n (r0 : R) a r' :
  read_exact n r0 = (Ok a, r') → length a = n.
Proof.
  intros E. destruct (decide (n ≤ length (content r0))%nat) as [L|L].
  - destruct (read_exact_ok n r0 (take n (content r0)) (drop n (content r0))) as (r1 & E1 & _).
    + by rewrite take_drop.
    + by rewrite length_take_le.
    + rewrite E1 in E. injection E as <- _. by rewrite length_take_le.
  - destruct (read_exact_short n r0) as (r1 & E1); [lia|]. congruence.
Qed.

Lemma next_bounded `{AsyncReadLaws R} (s : FrameReader R) p s' :
  next s = (Ok (Some (Data p)), s') → blen p <= MAX_FRAME_PAYLOAD.
Proof.
  unfold next, io_bind. destruct (on_stream (read 1) s) as [[d|] s1]; [|done].
  destruct d as [|d _]; [done|]. case_bool_decide; [by destruct (peer_fin s1)|].
  case_bool_decide.
  { destruct (on_stream (read_exact 8) s1) as [[c|] s2]; [|done]. by destruct (ack_verdict _ _). }
  case_bool_decide; [by destruct (on_stream (read_exact 8) s1) as [[c|] s2]|].
  case_bool_decide; [|done]. destruct (peer_fin s1); [done|].
  destruct (on_stream (read_exact 4) s1) as [[c|] s2]; [|done].
  destruct (MAX_FRAME_PAYLOAD <? be_val c) eqn:M; [done|]. apply N.ltb_ge in M.
  unfold on_stream. destruct (read_exact _ (r s2)) as [[q|] r3] eqn:E; [|done].
  intros [= <- _]. apply read_exact_length in E. unfold blen. lia.
Qed.

(** No peer can talk the reader out of the contract, whatever bytes it sends: over any
    run of frames read from a fresh reader the counters marked for an ACK strictly
    increase, so a flood of constant or regressing counters earns one ACK at most; a
    keepalive is left unmarked only if a marked one before it covers it; after the
    peer's FIN no data and no second FIN is yielded; and no data frame exceeds
    [MAX_FRAME_PAYLOAD]. *)
Theorem reader_enforces_contract `{AsyncReadLaws R} (r0 : R) fs s' :
  reads (new_reader r0) fs s' →
  StronglySorted N.lt (acked fs) ∧
  (∀ i c, fs !! i = Some (Keepalive c false) →
     ∃ j a, (j < i)%nat ∧ fs !! j = Some (Keepalive a true) ∧ c <= a) ∧
  (∀ i j f, fs !! i = Some Fin → (i < j)%nat → fs !! j = Some f →
     f ≠ Fin ∧ ∀ p, f ≠ Data p) ∧
  (∀ p, Data p ∈ fs → blen p <= MAX_FRAME_PAYLOAD).
Proof.
  intros Hr. split; [by apply reads_acked in Hr as [? _]|]. split; [|split].
  - intros i c Hi. destruct (reads_covered _ _ _ _ _ Hr Hi) as [(l & [=] & _)|?]. done.
  - intros i j f. by eapply reads_fin_last.
  - clear -Hr H0. induction Hr as [s|s f s1 fs s2 E Hr IH]; intros p; [by intros ?%elem_of_nil|].
    intros [<-|?]%elem_of_cons; [by eapply next_bounded|auto].
Qed.

(** A peer that repeats and regresses its counter. *)
Lemma reader_enforces_contract_witness :
  let flood := FRAME_KEEPALIVE :: u64_be 5 ++ FRAME_KEEPALIVE :: u64_be 5
                 ++ FRAME_KEEPALIVE :: u64_be 3 in
  ∃ s', reads (new_reader flood) [Keepalive 5 true; Keepalive 5 false; Keepalive 3 false] s' ∧
        StronglySorted N.lt (acked [Keepalive 5 true; Keepalive 5 false; Keepalive 3 false]).
Proof.
  intros flood. eexists. match goal with |- ?A ∧ _ => assert A as Hr end.
  { do 3 (eapply reads_cons; [vm_compute; reflexivity|]). apply reads_nil. }
  split; [exact Hr|]. exact (proj1 (reader_enforces_contract (R := bytes) _ _ _ Hr)).
Defined.

(** ** The tracker *)

(** What happened on the injector's side: a keepalive sent at a time, or an ACK. *)
Inductive Event := Sent (counter now_ms : N) | Acked (counter : N).

Definition track (t : KeepaliveTracker) (e : Event) : KeepaliveTracker :=
  match e with Sent c n => sent t c n | Acked c => ack t c end.

Definition run (es : list Event) : KeepaliveTracker := foldl track new_tracker es.

(** The keepalives of a history no ACK has settled, oldest first. *)
Definition unsettled (es : list Event) : list (N * N) :=
  foldl (λ l e, match e with
                | Sent c n => l ++ [(c, n)]
                | Acked a => filter (λ p, a < p.1) l
                end) [] es.

(** The counters sent, in order. *)
Definition counters (es : list Event) : list N :=
  omap (λ e, match e with Sent c _ => Some c | _ => None end) es.

Definition last_n {A} (n : nat) (l : list A) : list A := drop (length l - n) l.

Lemma last_n_app {A} (l : list A) x :
  last_n OUTSTANDING_CAP (l ++ [x]) =
  (if (OUTSTANDING_CAP <=? length (last_n OUTSTANDING_CAP l))%nat
   then tail (last_n OUTSTANDING_CAP l) else last_n OUTSTANDING_CAP l) ++ [x].
Proof.
  unfold last_n, OUTSTANDING_CAP. rewrite length_app, length_drop. cbn [length].
  destruct (Nat.leb_spec 64 (length l - (length l - 64))) as [L|L].
  - rewrite drop_app_le by lia. f_equal.
    assert (∀ k : list A, tail k = drop 1 k) as -> by by intros [].
    rewrite drop_drop. f_equal. lia.
  - replace (length l - 64)%nat with 0%nat by lia.
    by replace (length l + 1 - 64)%nat with 0%nat by lia.
Qed.

Lemma last_n_short {A} n (l : list A) : (length l ≤ n)%nat → last_n n l = l.
Proof. intros. unfold last_n. by replace (length l - n)%nat with 0%nat by lia. Qed.

Lemma last_n_suffix {A} n (k l : list A) : length l = n → last_n n (k ++ l) = l.
Proof.
  intros <-. unfold last_n. rewrite length_app, Nat.add_sub. apply drop_app_length.
Qed.

Lemma filter_keeps {A} (P : A → Prop) `{!∀ x, Decision (P x)} (l : list A) :
  (∀ x, x ∈ l → P x) → filter P l = l.
Proof.
  induction l as [|x l IH]; intros K; [done|]. rewrite filter_cons_True by (apply K; by left).
  f_equal. apply IH. intros y Hy. apply K. by right.
Qed.

Lemma sorted_sublist (k l : list N) :
  k `sublist_of` l → StronglySorted N.lt l → StronglySorted N.lt k.
Proof.
  induction 1 as [|x k l S IH|x k l S IH]; [done| |]; intros [F O]%StronglySorted_cons.
  - apply StronglySorted_cons. split; [|auto]. rewrite list.Forall_forall in *.
    intros y Hy. apply F. by eapply elem_of_sublist.
  - auto.
Qed.

(** On an ascending list, settling commutes with forgetting the oldest. *)
Lemma filter_last_n a n (l : list (N * N)) :
  StronglySorted N.lt l.*1 →
  filter (λ p, a < p.1) (last_n n l) = last_n n (filter (λ p, a < p.1) l).
Proof.
  intros S. set (m := (length l - n)%nat).
  assert (l = take m l ++ drop m l) as D by by rewrite take_drop.
  assert (length (drop m l) ≤ n)%nat as B by (rewrite length_drop; lia).
  change (last_n n l) with (drop m l). rewrite D in S at 1. rewrite D at 2.
  rewrite fmap_app in S. rewrite list.filter_app.
  destruct (filter (λ p, a < p.1) (take m l)) as [|x k] eqn:F.
  - rewrite app_nil_l, last_n_short; [done|]. etrans; [apply length_filter|done].
  - assert (x ∈ take m l ∧ a < x.1) as [Hx Ha].
    { assert (x ∈ filter (λ p, a < p.1) (take m l)) as X by (rewrite F; by left).
      apply list_elem_of_filter in X. tauto. }
    assert (filter (λ p, a < p.1) (drop m l) = drop m l) as ->.
    { apply filter_keeps. intros y Hy. etrans; [exact Ha|].
      eapply (StronglySorted_app_1_elem_of _ _ _ _ _ S); apply list_elem_of_fmap; eauto. }
    symmetry. apply last_n_suffix. rewrite length_drop.
    assert (m ≠ 0)%nat as M by (intros E; rewrite E in Hx; by apply elem_of_nil in Hx). lia.
Qed.

Lemma run_snoc es e : run (es ++ [e]) = track (run es) e.
Proof. unfold run. by rewrite foldl_app. Qed.

Lemma unsettled_snoc es e :
  unsettled (es ++ [e]) =
  match e with
  | Sent c n => unsettled es ++ [(c, n)]
  | Acked a => filter (λ p, a < p.1) (unsettled es)
  end.
Proof. unfold unsettled. by rewrite foldl_app. Qed.

Lemma unsettled_sublist es : (unsettled es).*1 `sublist_of` counters es.
Proof.
  induction es as [|e es IH] using rev_ind; [done|].
  rewrite unsettled_snoc. unfold counters in *. rewrite omap_app. destruct e as [c n|a]; cbn.
  - rewrite fmap_app. by apply sublist_app.
  - rewrite app_nil_r. etrans; [|exact IH]. apply fmap_sublist, sublist_filter.
Qed.

Lemma outstanding_exact es :
  StronglySorted N.lt (counters es) →
  outstanding (run es) = last_n OUTSTANDING_CAP (unsettled es).
Proof.
  induction es as [|e es IH] using rev_ind; [done|]. intros S.
  assert (StronglySorted N.lt (counters es)) as S'.
  { unfold counters in *. rewrite omap_app in S. by eapply StronglySorted_app_1_l. }
  rewrite run_snoc, unsettled_snoc. destruct e as [c n|a]; cbn; rewrite IH by done.
  - by rewrite last_n_app.
  - apply filter_last_n. eapply sorted_sublist; [apply unsettled_sublist|done].
Qed.

Lemma outstanding_capped es : (length (outstanding (run es)) ≤ OUTSTANDING_CAP)%nat.
Proof.
  induction es as [|e es IH] using rev_ind; [cbn; lia|]. rewrite run_snoc.
  unfold OUTSTANDING_CAP in IH |- *. destruct e as [c n|a]; cbn [track].
  - unfold sent, OUTSTANDING_CAP. cbn [outstanding]. rewrite length_app. cbn [length].
    destruct (Nat.leb_spec 64 (length (outstanding (run es)))); [|lia].
    destruct (outstanding (run es)); cbn in *; lia.
  - etrans; [apply length_filter|done].
Qed.

Lemma outstanding_unsettled es p : p ∈ outstanding (run es) → p ∈ unsettled es.
Proof.
  induction es as [|e es IH] using rev_ind; [done|]. rewrite run_snoc, unsettled_snoc.
  destruct e as [c n|a]; cbn [track].
  - unfold sent. cbn [outstanding]. rewrite !elem_of_app. intros [H|H]; [left|by right]. apply IH.
    destruct (_ <=? _)%nat; [|done]. destruct (outstanding (run es)); [done|by right].
  - unfold ack. cbn [outstanding]. rewrite !list_elem_of_filter. naive_solver.
Qed.

Definition acks (es : list Event) : list N :=
  omap (λ e, match e with Acked a => Some a | _ => None end) es.

Lemma elem_of_acks a es : a ∈ acks es ↔ Acked a ∈ es.
Proof.
  unfold acks. rewrite list_elem_of_omap. split; [|by exists (Acked a)].
  by intros ([|b] & ? & [= <-]).
Qed.

(** A keepalive is unsettled when no ACK after it covers it. *)
Lemma unsettled_iff es c n :
  (c, n) ∈ unsettled es ↔
  ∃ es1 es2, es = es1 ++ Sent c n :: es2 ∧ ∀ a, Acked a ∈ es2 → a < c.
Proof.
  induction es as [|e es IH] using rev_ind.
  - split; [by intros ?%elem_of_nil|]. by intros ([] & ? & ? & _).
  - rewrite unsettled_snoc. split.
    + assert ((c, n) ∈ unsettled es → (∀ a, e = Acked a → a < c) →
        ∃ es1 es2, es ++ [e] = es1 ++ Sent c n :: es2 ∧ ∀ a, Acked a ∈ es2 → a < c) as K.
      { intros (es1 & es2 & -> & A)%IH He. exists es1, (es2 ++ [e]). split; [by rewrite <- app_assoc|].
        intros a [? | <-%list_elem_of_singleton]%elem_of_app; auto. }
      destruct e as [c' n'|a].
      * intros [?|[= <- <-]%list_elem_of_singleton]%elem_of_app; [by apply K|].
        exists es, []. split; [done|]. by intros a ?%elem_of_nil.
      * intros [L ?]%list_elem_of_filter. apply K; [done|]. by intros ? [= <-].
    + intros (es1 & es2 & E & A). destruct es2 as [|e' es2 _] using rev_ind.
      * apply app_inj_tail in E as [<- ->]. apply elem_of_app. right. by left.
      * rewrite app_comm_cons, app_assoc in E. apply app_inj_tail in E as [-> <-].
        assert ((c, n) ∈ unsettled (es1 ++ Sent c n :: es2)) as U.
        { apply IH. exists es1, es2. split; [done|]. intros a Ha. apply A, elem_of_app. by left. }
        destruct e as [c' n'|a]; [apply elem_of_app; by left|].
        apply list_elem_of_filter. split; [|done]. apply A, elem_of_app. right. by left.
Qed.

(** The keepalive bookkeeping is exact. In any history of sends and ACKs the tracker
    holds at most 64 entries and only keepalives that were sent and that no later ACK
    covers, so the age it reports is the true age of an unanswered keepalive and crossing
    ACKs never produce a false dead verdict. When the counters sent increase, as the
    injector sends them, it holds exactly the newest 64 unanswered keepalives; with at
    most 64 of them the age is that of the oldest, and none exactly when all are
    answered. *)
Theorem keepalive_tracker_exact es now :
  (length (outstanding (run es)) ≤ OUTSTANDING_CAP)%nat ∧
  (∀ age, oldest_outstanding_age_ms (run es) now = Some age →
     ∃ c n es1 es2, age = now - n ∧ es = es1 ++ Sent c n :: es2 ∧
                    ∀ a, Acked a ∈ es2 → a < c) ∧
  (StronglySorted N.lt (counters es) →
     outstanding (run es) = last_n OUTSTANDING_CAP (unsettled es) ∧
     ((length (unsettled es) ≤ OUTSTANDING_CAP)%nat →
      oldest_outstanding_age_ms (run es) now = (λ p, now - p.2) <$> head (unsettled es) ∧
      (oldest_outstanding_age_ms (run es) now = None ↔
       ∀ es1 c n es2, es = es1 ++ Sent c n :: es2 → ∃ a, Acked a ∈ es2 ∧ c <= a))).
Proof.
  split; [apply outstanding_capped|]. split.
  - unfold oldest_outstanding_age_ms. intros age.
    destruct (outstanding (run es)) as [|[c n] l] eqn:O; [done|]. intros [= <-].
    destruct (proj1 (unsettled_iff es c n)) as (es1 & es2 & ? & ?).
    + apply outstanding_unsettled. rewrite O. by left.
    + by exists c, n, es1, es2.
  - intros S. pose proof (outstanding_exact _ S) as X. split; [done|]. intros L.
    rewrite last_n_short in X by done. unfold oldest_outstanding_age_ms. rewrite X.
    split; [done|]. split.
    + intros U%fmap_None es1 c n es2 E. destruct (unsettled es) eqn:V; [|done].
      destruct (decide (Exists (λ a, c <= a) (acks es2))) as [D|D].
      * apply list.Exists_exists in D as (a & Ha & ?). exists a. by rewrite <- elem_of_acks.
      * exfalso. assert ((c, n) ∈ unsettled es) as W; [|rewrite V in W; by apply elem_of_nil in W].
        apply unsettled_iff. exists es1, es2. split; [done|]. intros a Ha%elem_of_acks.
        apply N.lt_nge. intros Hc. apply D, list.Exists_exists. by exists a.
    + intros A. destruct (unsettled es) as [|[c n] l] eqn:V; [done|]. exfalso.
      destruct (proj1 (unsettled_iff es c n)) as (es1 & es2 & E & B); [rewrite V; by left|].
      destruct (A _ _ _ _ E) as (a & Ha & ?). specialize (B a Ha). lia.
Qed.

(** Three keepalives, an ACK for the first two: the third is 1 s old. *)
Lemma keepalive_tracker_exact_witness :
  let es := [Sent 1 1000; Sent 2 9000; Sent 3 17000; Acked 2] in
  oldest_outstanding_age_ms (run es) 18000 = Some 1000.
Proof.
  intros es. refine (proj1 (proj2 (proj2 (proj2 (keepalive_tracker_exact es 18000)) _) _)).
  - repeat constructor.
  - vm_compute. lia.
Defined.

End Framing.
