(* ===== verification/Masque.v ===== *)
(** * The MASQUE CONNECT-UDP proxy

    [crates/masque-proxy/src/varint.rs] ([Varint]), [capsule.rs] ([Capsule]) and [lib.rs]
    ([Proxy]): QUIC varints, the DATAGRAM capsules, the token gate, the admission of
    tunnels and the tunnel's pump. *)

From Stdlib Require Import HexadecimalString.
From S2P Require Import Prelude RustStd Codec Reach.

(** ** Bits *)

Lemma lor_shift a b k : b < 2 ^ k → N.lor (N.shiftl a k) b = a * 2 ^ k + b.
Proof.
  intros H. rewrite <- N.shiftl_mul_pow2, <- N.lxor_lor, <- N.add_nocarry_lxor; [done| |];
    apply N.bits_inj; intros n; rewrite N.land_spec, N.bits_0;
    (destruct (N.lt_ge_cases n k); [by rewrite N.shiftl_spec_low|]);
    apply andb_false_iff; right;
    (destruct (decide (b = 0)) as [->|]; [apply N.bits_0|]);
    apply N.bits_above_log2; enough (N.log2 b < k) by lia; apply N.log2_lt_pow2; lia.
Qed.

Module Varint.

(** src/crates/masque-proxy/src/varint.rs:12-27 [encode] [None] is the panic. *)
Definition encode (v : N) (out : bytes) : option bytes :=
  if v <? N.shiftl 1 6 then Some (out ++ [byte_of_N v])
  else if v <? N.shiftl 1 14 then Some (out ++ u16_be (N.lor (v mod 2 ^ 16) 0x4000))
  else if v <? N.shiftl 1 30 then Some (out ++ u32_be (N.lor (wrap32 v) 0x80000000))
  else if v <? N.shiftl 1 62 then Some (out ++ u64_be (N.lor v 0xC000000000000000))
  else None.

(** src/crates/masque-proxy/src/varint.rs:32-44 [decode] *)
Definition decode (buf : bytes) : option (N * nat) :=
  match buf with
  | [] => None
  | first :: _ =>
    let len := N.to_nat (N.shiftl 1 (N.shiftr (N_of_byte first) 6)) in
    if (length buf <? len)%nat then None
    else
      let mask := N.land (N_of_byte first) 0x3f in
      Some (foldl (λ v b, N.lor (wrap64 (N.shiftl v 8)) (N_of_byte b)) mask (slice 1 len buf),
            len)
  end.

(** The length class of a first byte: the length is [2 ^ class]. *)
Definition class (b : byte) : N := N_of_byte b / 64.

(** The payload bits of an encoding of class [k]. *)
Definition span (k : N) : N := 2 ^ (8 * 2 ^ k - 2).

Lemma class_cases b : class b = 0 ∨ class b = 1 ∨ class b = 2 ∨ class b = 3.
Proof.
  unfold class. pose proof (N_of_byte_bound b).
  assert (N_of_byte b / 64 < 4) as C by (apply N.Div0.div_lt_upper_bound; lia).
  revert C. generalize (N_of_byte b / 64). lia.
Qed.

Lemma pow256_pos n : 1 ≤ 256 ^ n.
Proof. pose proof (N.pow_nonzero 256 n ltac:(lia)). lia. Qed.

Lemma fold_be l acc :
  acc * 256 ^ N.of_nat (length l) + be_val l < U64 →
  foldl (λ v b, N.lor (wrap64 (N.shiftl v 8)) (N_of_byte b)) acc l
  = acc * 256 ^ N.of_nat (length l) + be_val l.
Proof.
  revert acc. induction l as [|b l IH]; intros acc H.
  - cbn [foldl length]. change (be_val []) with 0. change (256 ^ N.of_nat 0) with 1. lia.
  - cbn [foldl length] in *. rewrite be_val_cons in H |- *.
    rewrite Nat2N.inj_succ, N.pow_succ_r' in H |- *.
    pose proof (pow256_pos (N.of_nat (length l))) as P.
    assert (N.lor (wrap64 (N.shiftl acc 8)) (N_of_byte b) = acc * 256 + N_of_byte b) as ->.
    { unfold wrap64. rewrite N.mod_small; [by apply lor_shift, N_of_byte_bound|].
      rewrite N.shiftl_mul_pow2. change (2 ^ 8) with 256. nia. }
    rewrite IH; lia.
Qed.

(** The first byte carries the class and the top of the value. *)
Lemma be_val_first first r :
  N.of_nat (S (length r)) = 2 ^ class first →
  span (class first) = 64 * 256 ^ N.of_nat (length r) ∧
  span (class first) ≤ 2 ^ 62 ∧
  be_val (first :: r) = class first * span (class first)
    + (N_of_byte first mod 64 * 256 ^ N.of_nat (length r) + be_val r) ∧
  N_of_byte first mod 64 * 256 ^ N.of_nat (length r) + be_val r < span (class first).
Proof.
  intros L. assert (span (class first) = 64 * 256 ^ N.of_nat (length r) ∧
    span (class first) ≤ 2 ^ 62) as [S B].
  { replace (N.of_nat (length r)) with (2 ^ class first - 1) by lia. unfold span.
    destruct (class_cases first) as [E|[E|[E|E]]]; rewrite E; split; by vm_compute. }
  split; [done|]. split; [done|]. rewrite be_val_cons, S.
  pose proof (be_val_bound r). pose proof (N.mod_lt (N_of_byte first) 64 ltac:(lia)).
  assert (N_of_byte first = 64 * class first + N_of_byte first mod 64) as F
    by (unfold class; apply N.div_mod').
  pose proof (pow256_pos (N.of_nat (length r))). split; [|nia]. rewrite F at 1. lia.
Qed.

(** What [decode] computes: the big-endian number of the announced length, less its
    class bits. *)
Lemma varint_spec buf :
  decode buf =
  match buf with
  | [] => None
  | first :: _ =>
    let n := N.to_nat (2 ^ class first) in
    if (length buf <? n)%nat then None
    else Some (be_val (take n buf) mod span (class first), n)
  end.
Proof.
  unfold decode. destruct buf as [|first buf]; [done|].
  rewrite N.shiftl_1_l, N.shiftr_div_pow2. change (N_of_byte first / 2 ^ 6) with (class first).
  cbn zeta. destruct (Nat.ltb_spec (length (first :: buf)) (N.to_nat (2 ^ class first)))
    as [|L]; [done|]. cbn [length] in L.
  destruct (N.to_nat (2 ^ class first)) as [|m] eqn:Hm.
  { pose proof (N.pow_nonzero 2 (class first) ltac:(lia)). lia. }
  unfold slice. cbn [drop take]. rewrite drop_0. replace (S m - 1)%nat with m by lia.
  assert (length (take m buf) = m) as Lt by (rewrite length_take; lia).
  destruct (be_val_first first (take m buf)) as (E1 & E2 & E3 & E4); [lia|].
  change 0x3f with (N.ones 6). rewrite N.land_ones. change (2 ^ 6) with 64.
  rewrite fold_be by (unfold U64; lia). rewrite E3, (N.add_comm (class first * _)), N.Div0.mod_add.
  by rewrite (N.mod_small _ (span _)).
Qed.

(** The class [encode] picks for a value. *)
Definition class_of (v : N) : option N :=
  if v <? 2 ^ 6 then Some 0 else if v <? 2 ^ 14 then Some 1
  else if v <? 2 ^ 30 then Some 2 else if v <? 2 ^ 62 then Some 3 else None.

Lemma class_of_Some v k :
  class_of v = Some k → v < span k ∧ (k = 0 ∨ k = 1 ∨ k = 2 ∨ k = 3).
Proof.
  unfold class_of, span. intros H.
  repeat match type of H with (if ?b then _ else _) = _ => destruct b eqn:? end;
    simplify_eq; bool_facts; (split; [done|tauto]).
Qed.

Lemma varint_encode_spec v out :
  encode v out = (λ k, out ++ be_bytes (N.to_nat (2 ^ k)) (k * span k + v)) <$> class_of v.
Proof.
  unfold encode, class_of. rewrite !N.shiftl_1_l.
  assert (∀ a k b, b < 2 ^ k → N.lor b (N.shiftl a k) = a * 2 ^ k + b) as L
    by (intros; rewrite N.lor_comm; by apply lor_shift).
  repeat case_match; bool_facts; cbn [fmap option_fmap option_map]; repeat f_equal.
  - rewrite N.mod_small by (pose proof (N.pow_lt_mono_r 2 14 16); lia).
    exact (L 1 14 v ltac:(done)).
  - unfold wrap32. rewrite N.mod_small by (unfold U32; pose proof (N.pow_lt_mono_r 2 30 32); lia).
    exact (L 2 30 v ltac:(done)).
  - exact (L 3 62 v ltac:(done)).
Qed.

Lemma be_bytes_first n x :
  be_bytes (S n) x = byte_of_N (x / 256 ^ N.of_nat n) :: be_bytes n x.
Proof.
  unfold be_bytes. enough (le_bytes (S n) x = le_bytes n x ++ [byte_of_N (x / 256 ^ N.of_nat n)])
    as -> by by rewrite rev_app_distr.
  revert x. induction n as [|n IH]; intros x.
  - cbn. by rewrite N.div_1_r.
  - change (le_bytes (S (S n)) x) with (byte_of_N x :: le_bytes (S n) (x / 256)).
    change (le_bytes (S n) x) with (byte_of_N x :: le_bytes n (x / 256)).
    by rewrite IH, N.Div0.div_div, Nat2N.inj_succ, N.pow_succ_r'.
Qed.

Lemma encode_decode v e rest :
  encode v [] = Some e → decode (e ++ rest) = Some (v, length e).
Proof.
  rewrite varint_encode_spec. intros (k & [B K]%class_of_Some & ->)%fmap_Some.
  cbn [app]. rewrite length_be_bytes. set (n := N.to_nat (2 ^ k)).
  assert (∃ m, n = S m ∧ span k = 64 * 256 ^ N.of_nat m) as (m & En & Es).
  { unfold n. destruct K as [->|[->|[->| ->]]]; [exists 0%nat|exists 1%nat|exists 3%nat|exists 7%nat];
      done. }
  assert (class (byte_of_N ((k * span k + v) / 256 ^ N.of_nat m)) = k) as Hc.
  { unfold class. rewrite N_of_byte_of_N. pose proof (pow256_pos (N.of_nat m)).
    assert ((k * span k + v) / 256 ^ N.of_nat m < 256) by (apply N.Div0.div_lt_upper_bound; nia).
    rewrite N.mod_small by done. rewrite N.Div0.div_div, (N.mul_comm _ 64), <- Es.
    rewrite N.div_add_l by nia. rewrite N.div_small by done. lia. }
  rewrite varint_spec. destruct (be_bytes n (k * span k + v) ++ rest) as [|first tl] eqn:E.
  { apply (f_equal length) in E. rewrite length_app, length_be_bytes in E. cbn in E. lia. }
  assert (class first = k) as Ec.
  { rewrite En, be_bytes_first in E. cbn in E. injection E as <- _. exact Hc. }
  rewrite Ec, <- E. fold n. cbn zeta. rewrite length_app, length_be_bytes.
  destruct (Nat.ltb_spec (n + length rest) n); [lia|]. do 2 f_equal.
  rewrite take_app_length' by (by rewrite length_be_bytes).
  rewrite be_val_small.
  - rewrite N.add_comm, N.Div0.mod_add. by apply N.mod_small.
  - rewrite En, Nat2N.inj_succ, N.pow_succ_r'. nia.
Qed.

Lemma class_len b : (1 ≤ N.to_nat (2 ^ class b) ≤ 8)%nat.
Proof.
  destruct (class_cases b) as [E|[E|[E|E]]]; rewrite E; (split; [|vm_compute; lia]);
    vm_compute; lia.
Qed.

Lemma varint_bounds buf v n :
  decode buf = Some (v, n) → (1 ≤ n ≤ 8)%nat ∧ (n ≤ length buf)%nat ∧ v < 2 ^ 62.
Proof.
  rewrite varint_spec. destruct buf as [|first buf]; [done|]. cbn zeta.
  destruct (Nat.ltb_spec (length (first :: buf)) (N.to_nat (2 ^ class first))); [done|].
  intros [= <- <-].
  assert (span (class first) ≠ 0 ∧ span (class first) ≤ 2 ^ 62) as (S1 & S2).
  { unfold span. by destruct (class_cases first) as [E|[E|[E|E]]]; rewrite E. }
  split; [apply class_len|]. split; [done|].
  pose proof (N.mod_lt (be_val (take (N.to_nat (2 ^ class first)) (first :: buf))) _ S1) as M.
  eapply N.lt_le_trans; [exact M|exact S2].
Qed.

Lemma varint_app a b r : decode a = Some r → decode (a ++ b) = Some r.
Proof.
  rewrite !varint_spec. destruct a as [|first a]; [done|]. cbn [app]. cbn zeta.
  change (first :: a ++ b) with ((first :: a) ++ b).
  destruct (Nat.ltb_spec (length (first :: a)) (N.to_nat (2 ^ class first))); [done|].
  destruct (Nat.ltb_spec (length ((first :: a) ++ b)) (N.to_nat (2 ^ class first))) as [L|L].
  { rewrite length_app in L. lia. }
  by rewrite take_app_le.
Qed.

(** Only a truncated buffer does not decode. *)
Lemma decode_None buf : decode buf = None → (length buf < 8)%nat.
Proof.
  rewrite varint_spec. destruct buf as [|first buf]; cbn [length]; [lia|]. cbn zeta.
  destruct (Nat.ltb_spec (S (length buf)) (N.to_nat (2 ^ class first))) as [L|]; [|done].
  intros _. pose proof (class_len first). lia.
Qed.

Lemma encode_app v out : encode v out = (λ e, out ++ e) <$> encode v [].
Proof. rewrite !varint_encode_spec. by destruct (class_of v). Qed.

Lemma encode_total v : v < 2 ^ 62 → ∃ e, encode v [] = Some e.
Proof.
  intros H. rewrite varint_encode_spec. unfold class_of. apply N.ltb_lt in H. rewrite H.
  repeat case_match; eauto.
Qed.

End Varint.

Module Capsule.

(** src/crates/masque-proxy/src/capsule.rs:22 [DATAGRAM_CAPSULE_TYPE] *)
Definition DATAGRAM_CAPSULE_TYPE : N := 0x00.

(** src/crates/masque-proxy/src/capsule.rs:24-30 [MAX_CAPSULE_VALUE_LEN] *)
Definition MAX_CAPSULE_VALUE_LEN : N := 65527 + 8.

(** The one error of the module, a text in the code. *)
Inductive CapsuleError := LengthTooLarge.

(** src/crates/masque-proxy/src/capsule.rs:32-38 [encode_datagram] [None] is a panic of
    the varint encoder. *)
Definition encode_datagram (payload : bytes) : option bytes :=
  out ← Varint.encode DATAGRAM_CAPSULE_TYPE [];
  out ← Varint.encode (blen payload) out;
  Some (out ++ payload).

(** src/crates/masque-proxy/src/capsule.rs:45-61 [decode] *)
Definition decode (buf : bytes) : Result (option (N * bytes * nat)) CapsuleError :=
  match Varint.decode buf with
  | None => Ok None
  | Some (cap_type, type_len) =>
    match Varint.decode (drop type_len buf) with
    | None => Ok None
    | Some (len, len_len) =>
      if MAX_CAPSULE_VALUE_LEN <? len then Err LengthTooLarge
      else
        let header_len := (type_len + len_len)%nat in
        let total := (header_len + N.to_nat len)%nat in
        if (length buf <? total)%nat then Ok None
        else Ok (Some (cap_type, slice header_len total buf, total))
    end
  end.

(** src/crates/masque-proxy/src/capsule.rs:74 [CONTEXT_ID_RAW_UDP] *)
Definition CONTEXT_ID_RAW_UDP : N := 0.

(** src/crates/masque-proxy/src/capsule.rs:73-78 [udp_datagram_payload::encode] *)
Definition udp_encode (udp_payload : bytes) : option bytes :=
  out ← Varint.encode CONTEXT_ID_RAW_UDP [];
  Some (out ++ udp_payload).

(** src/crates/masque-proxy/src/capsule.rs:82-88 [udp_datagram_payload::decode] *)
Definition udp_decode (buf : bytes) : option bytes :=
  '(context_id, consumed) ← Varint.decode buf;
  if negb (context_id =? CONTEXT_ID_RAW_UDP) then None else Some (drop consumed buf).

(** The length of a header is at most two varints of 8 bytes. *)
Lemma capsule_bounds buf t v n :
  decode buf = Ok (Some (t, v, n)) → (2 ≤ n)%nat ∧ (n ≤ length buf)%nat.
Proof.
  unfold decode. destruct (Varint.decode buf) as [[ty tl]|] eqn:E1; [|done].
  destruct (Varint.decode (drop tl buf)) as [[len ll]|] eqn:E2; [|done].
  apply Varint.varint_bounds in E1, E2.
  destruct (_ <? len); [done|]. destruct (Nat.ltb_spec (length buf) (tl + ll + N.to_nat len));
    [done|]. intros [= _ _ <-]. lia.
Qed.

(** What is already decided stays decided when more bytes arrive. *)
Lemma capsule_app a b r : decode a = r → r ≠ Ok None → decode (a ++ b) = r.
Proof.
  unfold decode. intros <-.
  destruct (Varint.decode a) as [[ty tl]|] eqn:E1; [|done].
  rewrite (Varint.varint_app _ b _ E1). apply Varint.varint_bounds in E1 as (? & ? & _).
  rewrite drop_app_le by lia.
  destruct (Varint.decode (drop tl a)) as [[len ll]|] eqn:E2; [|done].
  rewrite (Varint.varint_app _ b _ E2). destruct (_ <? len); [done|].
  destruct (Nat.ltb_spec (length a) (tl + ll + N.to_nat len)); [done|]. intros _.
  destruct (Nat.ltb_spec (length (a ++ b)) (tl + ll + N.to_nat len)) as [L|L].
  { rewrite length_app in L. lia. }
  do 4 f_equal. unfold slice. rewrite drop_app_le by lia. rewrite take_app_le; [done|].
  rewrite length_drop. lia.
Qed.

(** A buffer that waits for more is short. *)
Lemma decode_waits buf : decode buf = Ok None → blen buf < 16 + 65535.
Proof.
  unfold decode, blen. destruct (Varint.decode buf) as [[ty tl]|] eqn:E1;
    [|intros _; apply Varint.decode_None in E1; lia].
  apply Varint.varint_bounds in E1 as (? & ? & _).
  destruct (Varint.decode (drop tl buf)) as [[len ll]|] eqn:E2.
  2: { intros _. apply Varint.decode_None in E2. rewrite length_drop in E2. lia. }
  apply Varint.varint_bounds in E2 as (? & _ & _).
  destruct (N.ltb_spec MAX_CAPSULE_VALUE_LEN len) as [|B]; [done|].
  change MAX_CAPSULE_VALUE_LEN with 65535 in B.
  destruct (Nat.ltb_spec (length buf) (tl + ll + N.to_nat len)); [|done]. intros _. lia.
Qed.

Lemma encode_datagram_spec payload f :
  encode_datagram payload = Some f ↔
  ∃ e, Varint.encode (blen payload) [] = Some e ∧ f = x00 :: e ++ payload.
Proof.
  unfold encode_datagram. change (Varint.encode DATAGRAM_CAPSULE_TYPE []) with (Some [x00]).
  cbn. rewrite Varint.encode_app. destruct (Varint.encode (blen payload) []); cbn; naive_solver.
Qed.

Lemma decode_encode payload f rest :
  encode_datagram payload = Some f → blen payload ≤ MAX_CAPSULE_VALUE_LEN →
  decode (f ++ rest) = Ok (Some (DATAGRAM_CAPSULE_TYPE, payload, length f)).
Proof.
  intros (e & E & ->)%encode_datagram_spec B. unfold decode.
  change (Varint.decode ((x00 :: e ++ payload) ++ rest)) with (Some (0, 1%nat)).
  cbn [app drop]. rewrite drop_0, <- app_assoc.
  rewrite (Varint.encode_decode _ _ (payload ++ rest) E).
  destruct (N.ltb_spec MAX_CAPSULE_VALUE_LEN (blen payload)); [lia|]. rewrite to_nat_blen.
  cbn [length]. rewrite !length_app.
  destruct (Nat.ltb_spec (S (length e + (length payload + length rest)))
    (1 + length e + length payload)); [lia|].
  assert (slice (1 + length e) (1 + length e + length payload)
    (x00 :: e ++ payload ++ rest) = payload) as ->; [|done].
  unfold slice. cbn [drop Nat.add]. rewrite drop_app_length.
  by rewrite take_app_length' by lia.
Qed.

Lemma udp_decode_encode p d : udp_encode p = Some d → udp_decode d = Some p.
Proof.
  unfold udp_encode. change (Varint.encode CONTEXT_ID_RAW_UDP []) with (Some [x00]).
  cbn. by intros [= <-].
Qed.

End Capsule.

Module Proxy.

(** src/crates/masque-proxy/src/lib.rs:48 [CONNECT_UDP_PATH_PREFIX] *)
Definition CONNECT_UDP_PATH_PREFIX : bytes := lit "/.well-known/masque/udp".

(** ** The gate: path and token *)

(** [Display] of the standard library's addresses: the first longest run of at least
    two zero segments becomes [::], an IPv4-mapped address ends in dotted form. *)
Definition v4_display (a : Address.Ipv4Addr) : bytes :=
  join (lit ".") (decimal <$> [Address.o0 a; Address.o1 a; Address.o2 a; Address.o3 a]).
Definition lower_hex (n : N) : bytes :=
  String.list_byte_of_string (HexadecimalString.NilZero.string_of_uint (N.to_hex_uint n)).
Definition segments (a : Address.Ipv6Addr) : list N :=
  [Address.s0 a; Address.s1 a; Address.s2 a; Address.s3 a;
   Address.s4 a; Address.s5 a; Address.s6 a; Address.s7 a].
Fixpoint zero_run (l : list N) : nat :=
  match l with x :: l => if x =? 0 then S (zero_run l) else O | [] => O end.
Definition longest_zeros (l : list N) : nat * nat :=
  foldl (λ best i, let n := zero_run (drop i l) in if (best.2 <? n)%nat then (i, n) else best)
    (0%nat, 0%nat) (seq 0 (length l)).
Definition v6_display (a : Address.Ipv6Addr) : bytes :=
  match Address.to_ipv4_mapped a with
  | Some v4 => lit "::ffff:" ++ v4_display v4
  | None =>
    let segs := lower_hex <$> segments a in
    let '(start, len) := longest_zeros (segments a) in
    if (1 <? len)%nat
    then join (lit ":") (take start segs) ++ lit "::" ++ join (lit ":") (drop (start + len) segs)
    else join (lit ":") segs
  end.

(** [str::replace] of one byte. *)
Definition replace_byte (c : byte) (by_ s : bytes) : bytes :=
  flat_map (λ b, if bool_decide (b = c) then by_ else [b]) s.

(** src/crates/masque-proxy/src/lib.rs:56-61 [encode_target_host] *)
Definition encode_target_host (addr : Address.SocketAddr) : bytes :=
  match Address.ip addr with
  | Address.Ip4 v4 => v4_display v4
  | Address.Ip6 v6 => replace_byte x3a (lit "%3A") (v6_display v6)
  end.

(** src/crates/masque-proxy/src/lib.rs:69-71 [expected_connect_udp_path] *)
Definition expected_connect_udp_path (target : Address.SocketAddr) : bytes :=
  CONNECT_UDP_PATH_PREFIX ++ lit "/" ++ encode_target_host target ++ lit "/"
    ++ decimal (Address.port target) ++ lit "/".

(** src/crates/masque-proxy/src/lib.rs:78-88 [parse_token_hex] *)
Definition parse_token_hex (s : bytes) : option bytes :=
  let s := trim s in
  if negb (length s =? 64)%nat then None
  else mapM (λ chunk, c ← from_utf8 chunk; byte_of_N <$> u8_from_hex c) (chunks2 s).

(** src/crates/masque-proxy/src/lib.rs:93-95 [ct_token_eq] *)
Definition ct_token_eq (a b : bytes) : bool :=
  foldl (λ acc p, N.lor acc (N.lxor (N_of_byte p.1) (N_of_byte p.2))) 0 (zip a b) =? 0.

(** A request as the HTTP library hands it over: its method, the [:protocol] extension,
    the path, and the text of the first [x-ct-masque-token] header when it has one that
    is visible ASCII. *)
Record Request := {
  method : bytes;
  protocol : option bytes;
  path : bytes;
  token_header : option bytes
}.

(** src/crates/masque-proxy/src/lib.rs:100-106 [masque_authed] *)
Definition masque_authed (token_header : option bytes) (expected_token : bytes) : bool :=
  match token_header ≫= parse_token_hex with
  | Some got => ct_token_eq got expected_token
  | None => false
  end.

(** src/crates/masque-proxy/src/lib.rs:252-264 [handle_request] The one refusal test. *)
Definition acceptable (req : Request) (expected_path shared_token : bytes) : bool :=
  let is_connect_udp :=
    bool_decide (method req = lit "CONNECT")
    && bool_decide (protocol req = Some (lit "connect-udp")) in
  negb (negb is_connect_udp || negb (bool_decide (path req = expected_path))
        || negb (masque_authed (token_header req) shared_token)).

(** ** A tunnel *)

(** What one round of the tunnel's [select!] can see. The flags say whether the call
    the arm makes on the stream succeeded. *)
Inductive Event :=
| Chunk (b : bytes) (capacity_released : bool)
| RecvEnd
| RecvError
| Datagram (b : bytes) (data_sent : bool)
| UdpError
| Idle.

(** What a tunnel does to the outside. *)
Inductive Effect :=
| UdpSend (p : bytes)
| SendData (b : bytes) (end_stream : bool).

(** A tunnel in its loop, with its [inbound_buf], or after it returned. *)
Inductive Status := Running (inbound_buf : bytes) | Ended.

(** src/crates/masque-proxy/src/lib.rs:303-313 [handle_request] The payload a capsule
    carries to the target, if it is one the proxy forwards. *)
Definition forwarded (cap_type : N) (value : bytes) : list bytes :=
  if cap_type =? 0x00 then
    match Capsule.udp_decode value with Some udp_payload => [udp_payload] | None => [] end
  else [].

(** src/crates/masque-proxy/src/lib.rs:301-319 [handle_request] The inner loop over the
    buffered capsules, to the bytes that are left or the protocol violation. *)
Fixpoint drain (fuel : nat) (buf : bytes)
    : option (list bytes * Result bytes Capsule.CapsuleError) :=
  match fuel with
  | O => None
  | S fuel =>
    match Capsule.decode buf with
    | Ok (Some (cap_type, value, consumed)) =>
      '(ps, r) ← drain fuel (drop consumed buf);
      Some (forwarded cap_type value ++ ps, r)
    | Ok None => Some ([], Ok buf)
    | Err e => Some ([], Err e)
    end
  end.

Definition drain_all (buf : bytes) : option (list bytes * Result bytes Capsule.CapsuleError) :=
  drain (S (length buf)) buf.
#[global] Arguments drain_all : simpl never.

(** src/crates/masque-proxy/src/lib.rs:292-336 [handle_request] One round of the pump. *)
Definition tunnel_step (s : Status) (e : Event) : option (list Effect * Status) :=
  match s with
  | Ended => Some ([], Ended)
  | Running inbound_buf =>
    match e with
    | Chunk chunk ok =>
      if ok then
        '(ps, r) ← drain_all (inbound_buf ++ chunk);
        Some (map UdpSend ps, match r with Ok buf => Running buf | Err _ => Ended end)
      else Some ([], Ended)
    | RecvEnd => Some ([SendData [] true], Ended)
    | RecvError => Some ([], Ended)
    | Datagram b ok =>
      datagram_payload ← Capsule.udp_encode b;
      framed ← Capsule.encode_datagram datagram_payload;
      Some (if ok then ([SendData framed false], Running inbound_buf) else ([], Ended))
    | UdpError => Some ([], Ended)
    | Idle => Some ([SendData [] true], Ended)
    end
  end.

(** The loop over a sequence of rounds. *)
Fixpoint tunnel_run (s : Status) (es : list Event) : option (list Effect * Status) :=
  match es with
  | [] => Some ([], s)
  | e :: es => '(f, s) ← tunnel_step s e; '(fs, s) ← tunnel_run s es; Some (f ++ fs, s)
  end.

(** ** The proxy: admission of tunnels

    Every accepted stream runs [handle_request] in a task of its own; the tasks share the
    admission semaphore. A tunnel is known here by the order of its admission. *)

(** src/crates/masque-proxy/src/lib.rs:112-135 [Config] *)
Record Config := {
  listen : Address.SocketAddr;
  target : Address.SocketAddr;
  max_concurrent_tunnels : nat;
  idle_timeout : N;
  shared_token : bytes
}.

(** The permits left, and the tunnels that hold one. *)
Record Server := { permits : nat; next : nat; tunnels : gmap nat Status }.

(** src/crates/masque-proxy/src/lib.rs:142-151 [run] *)
Definition start (config : Config) : Server :=
  {| permits := max_concurrent_tunnels config; next := 0; tunnels := ∅ |}.

(** What the peers of the proxy see. *)
Inductive Reply :=
| Refused                          (** [RST_STREAM(REFUSED_STREAM)] *)
| Accepted (tunnel : nat)          (** status 200 *)
| SetupFailed                      (** the response or the UDP socket failed *)
| Pumped (tunnel : nat) (effects : list Effect).

(** src/crates/masque-proxy/src/lib.rs:243-286 [handle_request] up to the loop. [setup]
    tells whether the response could be sent and the socket opened. The permit is
    returned when the handler returns. *)
Definition open_tunnel (config : Config) (s : Server) (req : Request) (setup : bool)
    : Reply * Server :=
  if negb (acceptable req (expected_connect_udp_path (target config)) (shared_token config))
  then (Refused, s)
  else
    match permits s with
    | O => (Refused, s)
    | S remaining =>
      if setup
      then (Accepted (next s),
            {| permits := remaining; next := S (next s);
               tunnels := <[next s := Running []]> (tunnels s) |})
      else (SetupFailed, s)
    end.

(** src/crates/masque-proxy/src/lib.rs:292-336 [handle_request] the loop of one tunnel,
    and the drop of its permit when it ends. *)
Definition pump (s : Server) (id : nat) (e : Event) : option (Reply * Server) :=
  match tunnels s !! id with
  | None => Some (Pumped id [], s)
  | Some st =>
    '(fs, st') ← tunnel_step st e;
    Some (Pumped id fs,
          match st' with
          | Running _ =>
            {| permits := permits s; next := next s; tunnels := <[id := st']> (tunnels s) |}
          | Ended =>
            {| permits := S (permits s); next := next s; tunnels := delete id (tunnels s) |}
          end)
  end.

Inductive Input := Incoming (req : Request) (setup : bool) | Round (id : nat) (e : Event).

(** src/crates/masque-proxy/src/lib.rs:228-239 [serve_connection] The interleaving of the
    handlers, as the sequence of what happens to them. *)
Definition server_step (config : Config) (s : Server) (i : Input) : option (Reply * Server) :=
  match i with
  | Incoming req setup => Some (open_tunnel config s req setup)
  | Round id e => pump s id e
  end.

Fixpoint server_run (config : Config) (s : Server) (ins : list Input)
    : option (list Reply * Server) :=
  match ins with
  | [] => Some ([], s)
  | i :: ins =>
    '(r, s) ← server_step config s i; '(rs, s) ← server_run config s ins; Some (r :: rs, s)
  end.

(** ** The pump *)

Lemma drain_fuel f buf :
  (length buf < f)%nat → drain f buf = drain_all buf.
Proof.
  unfold drain_all. remember (length buf) as n eqn:En. revert f buf En.
  induction (lt_wf n) as [n _ IH]. intros [|f] buf -> H; [lia|]. cbn [drain].
  destruct (Capsule.decode buf) as [[[[t v] c]|]|] eqn:E; [|done..].
  apply Capsule.capsule_bounds in E.
  assert (length (drop c buf) < length buf)%nat as L by (rewrite length_drop; lia).
  rewrite (IH _ L f _ eq_refl), (IH _ L (length buf) _ eq_refl) by lia. done.
Qed.

Lemma drain_all_eq buf :
  drain_all buf =
  match Capsule.decode buf with
  | Ok (Some (t, v, c)) =>
    '(ps, r) ← drain_all (drop c buf); Some (forwarded t v ++ ps, r)
  | Ok None => Some ([], Ok buf)
  | Err e => Some ([], Err e)
  end.
Proof.
  unfold drain_all at 1. cbn [drain].
  destruct (Capsule.decode buf) as [[[[t v] c]|]|] eqn:E; [|done..].
  apply Capsule.capsule_bounds in E. rewrite drain_fuel; [done|]. rewrite length_drop. lia.
Qed.

(** Induction along the capsules of a buffer. *)
Lemma drain_ind (P : bytes → Prop) :
  (∀ buf, (∀ t v c, Capsule.decode buf = Ok (Some (t, v, c)) → P (drop c buf)) → P buf) →
  ∀ buf, P buf.
Proof.
  intros H buf. remember (length buf) as n eqn:En. revert buf En.
  induction (lt_wf n) as [n _ IH]. intros buf ->. apply H.
  intros t v c E%Capsule.capsule_bounds. eapply IH; [|done]. rewrite length_drop. lia.
Qed.

Lemma drain_total buf : ∃ ps r, drain_all buf = Some (ps, r) ∧
  ∀ rest, r = Ok rest → Capsule.decode rest = Ok None.
Proof.
  induction buf as [buf IH] using drain_ind. rewrite drain_all_eq.
  destruct (Capsule.decode buf) as [[[[t v] c]|]|] eqn:E.
  - destruct (IH t v c eq_refl) as (ps & r & -> & ?). cbn. eauto.
  - eexists _, _. split; [done|]. by intros ? [= ->].
  - eexists _, _. by split.
Qed.

(** Draining what arrives in two parts is draining it at once. *)
Lemma drain_app a b :
  drain_all (a ++ b) =
  '(ps, r) ← drain_all a;
  match r with
  | Ok rest => '(qs, r) ← drain_all (rest ++ b); Some (ps ++ qs, r)
  | Err e => Some (ps, Err e)
  end.
Proof.
  induction a as [a IH] using drain_ind. rewrite (drain_all_eq a).
  destruct (Capsule.decode a) as [[[[t v] c]|]|] eqn:E.
  - rewrite drain_all_eq, (Capsule.capsule_app a b _ E ltac:(done)).
    pose proof (Capsule.capsule_bounds _ _ _ _ E). rewrite drop_app_le by lia.
    rewrite (IH t v c eq_refl). destruct (drain_all (drop c a)) as [[ps [rest|e]]|]; cbn.
    + destruct (drain_all (rest ++ b)) as [[qs r]|]; cbn; [|done]. by rewrite app_assoc.
    + done.
    + done.
  - cbn. by destruct (drain_all (a ++ b)) as [[? ?]|].
  - by rewrite drain_all_eq, (Capsule.capsule_app a b _ E ltac:(done)).
Qed.

(** *** What goes through a tunnel *)

Definition live (e : Event) : bool :=
  match e with Chunk _ ok | Datagram _ ok => ok | _ => false end.
Definition uplink (es : list Event) : bytes :=
  flat_map (λ e, match e with Chunk b _ => b | _ => [] end) es.
Definition downlink (es : list Event) : list bytes :=
  omap (λ e, match e with Datagram b _ => Some b | _ => None end) es.
Definition udp_sent (fs : list Effect) : list bytes :=
  omap (λ f, match f with UdpSend p => Some p | _ => None end) fs.
Definition data_sent (fs : list Effect) : list bytes :=
  omap (λ f, match f with SendData b _ => Some b | _ => None end) fs.

(** A datagram in its two layers of framing. *)
Definition frame (p : bytes) : option bytes := d ← Capsule.udp_encode p; Capsule.encode_datagram d.

Lemma frame_total p : blen p < 2 ^ 61 → ∃ f, frame p = Some f.
Proof.
  intros H. unfold frame, Capsule.udp_encode.
  change (Varint.encode Capsule.CONTEXT_ID_RAW_UDP []) with (Some [x00]). cbn.
  destruct (Varint.encode_total (blen (x00 :: p))) as [e E].
  { unfold blen in *. cbn [length]. pose proof (N.pow_lt_mono_r 2 61 62). lia. }
  exists (x00 :: e ++ x00 :: p). apply Capsule.encode_datagram_spec. eauto.
Qed.

Lemma frame_drains p f rest :
  frame p = Some f → blen p ≤ 65534 →
  Capsule.decode (f ++ rest) = Ok (Some (0, x00 :: p, length f)) ∧
  forwarded 0 (x00 :: p) = [p].
Proof.
  unfold frame, Capsule.udp_encode.
  change (Varint.encode Capsule.CONTEXT_ID_RAW_UDP []) with (Some [x00]). cbn.
  intros E B. split; [|done]. apply Capsule.decode_encode; [done|].
  unfold blen in *. cbn [length]. change Capsule.MAX_CAPSULE_VALUE_LEN with 65535. lia.
Qed.

Lemma udp_sent_map ps : udp_sent (map UdpSend ps) = ps.
Proof. induction ps as [|p ps IH]; [done|]. cbn. by f_equal. Qed.

Lemma data_sent_map ps : data_sent (map UdpSend ps) = [].
Proof. by induction ps. Qed.

Lemma tunnel_run_ended es : tunnel_run Ended es = Some ([], Ended).
Proof. induction es as [|e es IH]; [done|]. cbn. by rewrite IH. Qed.

Lemma datagram_step buf b :
  blen b < 2 ^ 61 → ∃ f, frame b = Some f ∧
    tunnel_step (Running buf) (Datagram b true) = Some ([SendData f false], Running buf).
Proof.
  intros H. destruct (frame_total b H) as [f F]. exists f. split; [done|].
  unfold frame in F. cbn. destruct (Capsule.udp_encode b); [|done]. cbn in *. by rewrite F.
Qed.

Lemma tunnel_run_live es buf :
  forallb live es = true → Forall (λ b, blen b < 2 ^ 61) (downlink es) →
  Capsule.decode buf = Ok None →
  ∃ fs st r, tunnel_run (Running buf) es = Some (fs, st) ∧
    drain_all (buf ++ uplink es) = Some (udp_sent fs, r) ∧
    match r with
    | Ok rest => st = Running rest ∧ mapM frame (downlink es) = Some (data_sent fs)
    | Err _ => st = Ended
    end.
Proof.
  revert buf. induction es as [|e es IH]; intros buf L D W.
  { eexists [], _, (Ok buf). split; [done|]. cbn. by rewrite app_nil_r, drain_all_eq, W. }
  apply andb_true_iff in L as [Le L]. destruct e as [b ok| | |b ok| |]; try done;
    cbn in Le; subst ok.
  - change (uplink (Chunk b true :: es)) with (b ++ uplink es).
    rewrite app_assoc, drain_app. cbn [tunnel_run tunnel_step].
    destruct (drain_total (buf ++ b)) as (ps & [rest|err] & E & Wr); rewrite E; cbn [mbind option_bind].
    + destruct (IH rest L D (Wr rest eq_refl)) as (fs & st & r & -> & -> & Hr).
      eexists _, _, r. split; [done|]. cbn [mbind option_bind]. unfold udp_sent, data_sent in *.
      rewrite !omap_app. fold (udp_sent (map UdpSend ps)) (data_sent (map UdpSend ps)).
      by rewrite udp_sent_map, data_sent_map.
    + rewrite tunnel_run_ended. eexists _, _, (Err err). split; [done|].
      cbn [mbind option_bind]. by rewrite app_nil_r, udp_sent_map.
  - cbn [downlink omap list_omap] in D. apply list.Forall_cons in D as [Db D].
    destruct (datagram_step buf b Db) as (f & F & S). cbn [tunnel_run]. rewrite S.
    destruct (IH buf L D W) as (fs & st & r & E & Er & Hr). cbn [mbind option_bind].
    rewrite E. eexists _, _, r. split; [done|]. split; [exact Er|].
    destruct r; [|done]. destruct Hr as [-> Hm]. split; [done|].
    change (mapM frame (b :: downlink es) = Some (f :: data_sent fs)).
    revert Hm. generalize (downlink es). intros ds Hm. cbn. by rewrite F, Hm.
Qed.

(** C33 Whatever way the stream of capsules is cut into chunks and interleaved with datagrams
    from the target, the tunnel sends the target exactly what one pass over the whole
    stream forwards, in order; it frames every datagram of the target, in order, and goes
    on with an unfinished capsule of less than 65551 bytes in its buffer, unless the
    stream announces an over-long capsule: then the tunnel ends. No round panics. *)
Theorem tunnel_exact es :
  forallb live es = true → Forall (λ b, blen b < 2 ^ 61) (downlink es) →
  ∃ fs st r, tunnel_run (Running []) es = Some (fs, st) ∧
    drain_all (uplink es) = Some (udp_sent fs, r) ∧
    match r with
    | Ok rest => st = Running rest ∧ blen rest < 65551 ∧
                 mapM frame (downlink es) = Some (data_sent fs)
    | Err _ => st = Ended
    end.
Proof.
  intros L D. destruct (tunnel_run_live es [] L D eq_refl) as (fs & st & r & E & Er & Hr).
  exists fs, st, r. split; [done|]. split; [done|]. destruct r as [rest|]; [|done].
  destruct Hr as [-> Hm]. split; [done|]. split; [|done].
  destruct (drain_total (uplink es)) as (ps & r & E' & Wr).
  cbn in Er. rewrite E' in Er. injection Er as -> ->.
  exact (Capsule.decode_waits rest (Wr rest eq_refl)).
Qed.

(** A frame that is not complete waits for more. *)
Lemma partial_waits p f a b :
  frame p = Some f → blen p ≤ 65534 → f = a ++ b → b ≠ [] → Capsule.decode a = Ok None.
Proof.
  intros F B -> Hb. destruct (frame_drains p _ [] F B) as [D _]. rewrite app_nil_r in D.
  destruct (Capsule.decode a) as [[[[t v] c]|]|err] eqn:E; [|done|].
  - rewrite (Capsule.capsule_app a b _ E ltac:(done)) in D. injection D as -> -> ->.
    apply Capsule.capsule_bounds in E. rewrite length_app in E. destruct b; [done|cbn in E; lia].
  - by rewrite (Capsule.capsule_app a b _ E ltac:(done)) in D.
Qed.

(** Framing and draining are inverse: a stream that is the frames of some datagrams and
    the beginning of one more frame forwards exactly these datagrams, in order, and keeps
    the beginning buffered (65534 bytes is the largest payload a legal frame carries). *)
Theorem datagrams_roundtrip ps fs p f partial missing :
  Forall (λ p, blen p ≤ 65534) ps → mapM frame ps = Some fs →
  blen p ≤ 65534 → frame p = Some f → f = partial ++ missing → missing ≠ [] →
  drain_all (concat fs ++ partial) = Some (ps, Ok partial).
Proof.
  intros B E Bp F Ef Hm. revert fs E. induction B as [|q ps Bq B IH]; intros fs E.
  - injection E as <-. cbn [concat app]. rewrite drain_all_eq.
    by rewrite (partial_waits p f partial missing).
  - cbn in E. destruct (frame q) as [g|] eqn:G; [|done]. cbn in E.
    destruct (mapM frame ps) as [gs|]; [|done]. injection E as <-. cbn [concat].
    destruct (frame_drains q g (concat gs ++ partial) G Bq) as [D Fw].
    rewrite <- app_assoc, drain_all_eq, D, drop_app_length, (IH gs eq_refl), Fw. done.
Qed.

(** ** The gate *)

(** How a pair of characters spells a byte of the token. *)
Definition spells (p : bytes) (b : byte) : Prop :=
  (∃ h l x y, p = [h; l] ∧ Hex.nibble h = Some x ∧ Hex.nibble l = Some y
              ∧ N_of_byte b = 16 * x + y) ∨
  (∃ l, p = [x2b; l] ∧ Hex.nibble l = Some (N_of_byte b)).

Lemma nibble_facts h x : Hex.nibble h = Some x → x < 16 ∧ is_ascii h = true ∧ h ≠ x2b.
Proof.
  intros E. pose proof (Hex.byte_check (λ h, match Hex.nibble h with
    | Some x => (x <? 16) && is_ascii h && negb (bool_decide (h = x2b)) | None => true end)
    ltac:(by vm_compute) h) as C. cbn beta in C. rewrite E in C. bool_facts.
  repeat match goal with H : _ && _ = true |- _ => apply andb_true_iff in H as [? ?] end.
  bool_facts. done.
Qed.

Lemma hex_digits_one l : hex_digits [l] = Hex.nibble l.
Proof.
  unfold hex_digits. cbn [foldl]. cbn. destruct (Hex.nibble l) as [x|] eqn:E; cbn; [|done].
  apply nibble_facts in E as [? _]. rewrite N.mul_0_l, N.add_0_l.
  destruct (N.ltb_spec x 256); [done|lia].
Qed.

Lemma hex_digits_two h l :
  hex_digits [h; l] = x ← Hex.nibble h; y ← Hex.nibble l; Some (16 * x + y).
Proof.
  change (hex_digits [h; l]) with (v ← hex_digits [h]; d ← Hex.nibble l;
    if v * 16 + d <? 256 then Some (v * 16 + d) else None).
  rewrite hex_digits_one. destruct (Hex.nibble h) as [x|] eqn:Eh; [|done]. cbn.
  destruct (Hex.nibble l) as [y|] eqn:El; [|done]. cbn.
  apply nibble_facts in Eh as [? _], El as [? _]. rewrite (N.mul_comm x).
  destruct (N.ltb_spec (16 * x + y) 256); [done|lia].
Qed.

Lemma chunk_spells h l b :
  (c ← from_utf8 [h; l]; byte_of_N <$> u8_from_hex c) = Some b ↔ spells [h; l] b.
Proof.
  assert (u8_from_hex [h; l] = if bool_decide (h = x2b) then Hex.nibble l
    else x ← Hex.nibble h; y ← Hex.nibble l; Some (16 * x + y)) as U.
  { unfold u8_from_hex. rewrite bool_decide_false by naive_solver.
    by rewrite hex_digits_one, hex_digits_two. }
  split.
  - intros (c & [_ ->]%from_utf8_Some & E)%bind_Some. rewrite U in E.
    apply fmap_Some in E as (n & E & ->). case_bool_decide as Hh.
    + right. exists l. subst h. split; [done|]. rewrite E. f_equal. rewrite N_of_byte_of_N.
      apply nibble_facts in E as [? _]. symmetry. apply N.mod_small. lia.
    + left. apply bind_Some in E as (x & Ex & (y & Ey & [= <-])%bind_Some).
      exists h, l, x, y. repeat (split; [done|]). rewrite N_of_byte_of_N.
      apply nibble_facts in Ex as [? _], Ey as [? _]. apply N.mod_small. lia.
  - intros H. assert (from_utf8 [h; l] = Some [h; l]) as ->.
    { apply from_utf8_Some. split; [|done]. apply utf8_valid_ascii. cbn.
      destruct H as [(?&?&?&?& [= <- <-] & E1 & E2 & _)|(? & [= -> <-] & E2)].
      - apply nibble_facts in E1 as (_ & -> & _), E2 as (_ & -> & _). done.
      - apply nibble_facts in E2 as (_ & -> & _). done. }
    cbn [mbind option_bind]. rewrite U.
    destruct H as [(?&?& x & y & [= <- <-] & E1 & E2 & E)|(? & [= -> <-] & E2)].
    + rewrite bool_decide_false by (by apply nibble_facts in E1 as (_ & _ & ?)).
      rewrite E1, E2. cbn [mbind option_bind fmap option_fmap option_map].
      rewrite <- E. by rewrite byte_of_N_of_byte.
    + rewrite bool_decide_true, E2 by done. cbn [fmap option_fmap option_map]. by rewrite byte_of_N_of_byte.
Qed.

Lemma parse_token_spec s t :
  parse_token_hex s = Some t ↔ length (trim s) = 64%nat ∧ Forall2 spells (chunks2 (trim s)) t.
Proof.
  unfold parse_token_hex. cbn zeta. destruct (Nat.eqb_spec (length (trim s)) 64) as [E|E];
    cbn [negb]; [|split; [done|tauto]].
  rewrite mapM_Some. transitivity (Forall2 spells (chunks2 (trim s)) t); [|tauto].
  assert (∃ k, length (trim s) = 2 * k)%nat as [k Ek] by (exists 32%nat; lia).
  clear E. revert Ek t. generalize (trim s). clear s. induction k as [|k IH]; intros s Ek t.
  - destruct s; [|done]. cbn [chunks2]. split; intros ->%Forall2_nil_inv_l; constructor.
  - destruct s as [|a [|b s]]; cbn [length] in Ek; [lia..|]. cbn [chunks2].
    split; intros H; apply Forall2_cons_inv_l in H as (x & t' & Hx & Ht & ->);
      (constructor; [by apply chunk_spells|apply IH; [lia|done]]).
Qed.

Lemma length_chunks2 k s : length s = (2 * k)%nat → length (chunks2 s) = k.
Proof.
  revert s. induction k as [|k IH]; intros [|a [|b s]] E; cbn [length chunks2] in *; try lia.
  rewrite IH; lia.
Qed.

Lemma ct_token_eq_true a b : length a = length b → ct_token_eq a b = true ↔ a = b.
Proof.
  intros L. rewrite <- Ct.ct_eq_true. unfold Ct.eq.
  by destruct (Nat.eqb_spec (length a) (length b)).
Qed.

(** A request the proxy may serve: CONNECT-UDP, to the one target, with the token. *)
Definition authorized (config : Config) (req : Request) : Prop :=
  method req = lit "CONNECT" ∧ protocol req = Some (lit "connect-udp") ∧
  path req = expected_connect_udp_path (target config) ∧
  ∃ s, token_header req = Some s ∧ length (trim s) = 64%nat ∧
    Forall2 spells (chunks2 (trim s)) (shared_token config).

Lemma acceptable_iff config req :
  length (shared_token config) = 32%nat →
  acceptable req (expected_connect_udp_path (target config)) (shared_token config) = true
  ↔ authorized config req.
Proof.
  intros L. unfold acceptable, authorized. cbn zeta.
  rewrite negb_true_iff, !orb_false_iff, !negb_false_iff, andb_true_iff, !bool_decide_eq_true.
  enough (masque_authed (token_header req) (shared_token config) = true ↔
    ∃ s, token_header req = Some s ∧ length (trim s) = 64%nat ∧
      Forall2 spells (chunks2 (trim s)) (shared_token config)) by tauto.
  unfold masque_authed. destruct (token_header req) as [s|]; cbn; [|naive_solver].
  destruct (parse_token_hex s) as [t|] eqn:E.
  - apply parse_token_spec in E as [Ls F]. pose proof (Forall2_length F) as Lt.
    rewrite (length_chunks2 32) in Lt by done. rewrite ct_token_eq_true by lia.
    split; [intros ->; eauto|]. intros (? & [= <-] & _ & F').
    assert (parse_token_hex s = Some t) as E1 by (by apply parse_token_spec).
    assert (parse_token_hex s = Some (shared_token config)) as E2 by (by apply parse_token_spec).
    congruence.
  - split; [done|]. intros (? & [= <-] & F). apply parse_token_spec in F. congruence.
Qed.

(** ** Admission *)

Definition input_ok (i : Input) : Prop :=
  match i with Round _ (Datagram b _) => blen b ≤ 65527 | _ => True end.

Lemma server_run_snoc config s ins i :
  server_run config s (ins ++ [i]) =
  '(rs, s) ← server_run config s ins; '(r, s) ← server_step config s i; Some (rs ++ [r], s).
Proof.
  revert s. induction ins as [|j ins IH]; intros s; cbn [app server_run].
  - cbn. destruct (server_step config s i) as [[? ?]|]; done.
  - destruct (server_step config s j) as [[? s']|]; cbn [mbind option_bind]; [|done].
    rewrite IH. destruct (server_run config s' ins) as [[? s'']|]; cbn [mbind option_bind]; [|done].
    by destruct (server_step config s'' i) as [[? ?]|].
Qed.

Lemma server_run_length config s ins rs s' :
  server_run config s ins = Some (rs, s') → length rs = length ins.
Proof.
  revert s rs. induction ins as [|i ins IH]; intros s rs; cbn [server_run]; [by intros [= <- _]|].
  destruct (server_step config s i) as [[? s1]|]; cbn [mbind option_bind]; [|done].
  destruct (server_run config s1 ins) as [[rs1 s2]|] eqn:E; cbn [mbind option_bind]; [|done].
  intros [= <- <-]. cbn. by rewrite (IH s1 rs1).
Qed.

(** A round of an open tunnel does not panic, and keeps the buffer waiting. *)
Lemma tunnel_step_total buf e :
  match e with Datagram b _ => blen b ≤ 65527 | _ => True end → Capsule.decode buf = Ok None →
  ∃ fs st, tunnel_step (Running buf) e = Some (fs, st) ∧
    ∀ buf', st = Running buf' → Capsule.decode buf' = Ok None.
Proof.
  intros D W. destruct e as [b ok| | |b ok| |]; cbn [tunnel_step]; try by eexists _, _.
  - destruct ok; [|by eexists _, _].
    destruct (drain_total (buf ++ b)) as (ps & [rest|err] & -> & Wr); cbn [mbind option_bind];
      eexists _, _; (split; [done|]); [|done]. intros ? [= <-]. by apply Wr.
  - destruct (datagram_step buf b) as (f & F & S).
    { pose proof (N.pow_lt_mono_r 2 16 61). change (2 ^ 16) with 65536 in *. lia. }
    cbn [tunnel_step] in S. destruct (Capsule.udp_encode b) as [d|]; [|done].
    cbn [mbind option_bind] in *. destruct (Capsule.encode_datagram d); [|done].
    cbn [mbind option_bind] in *. destruct ok; eexists _, _; (split; [done|]); [|done].
    by intros ? [= <-].
Qed.

(** The invariant of the server. *)
Record server_inv (config : Config) (ins : list Input) (rs : list Reply) (s : Server) : Prop := {
  inv_permits : (permits s + size (tunnels s) = max_concurrent_tunnels config)%nat;
  inv_fresh id : (next s ≤ id)%nat → tunnels s !! id = None;
  inv_running id st : tunnels s !! id = Some st →
    ∃ buf, st = Running buf ∧ Capsule.decode buf = Ok None;
  inv_opened id st : tunnels s !! id = Some st →
    ∃ k req, ins !! k = Some (Incoming req true) ∧ rs !! k = Some (Accepted id) ∧
             authorized config req;
  inv_refused k req setup : ins !! k = Some (Incoming req setup) → ¬ authorized config req →
    rs !! k = Some Refused
}.

Section Admission.
Context (config : Config) (token_length : length (shared_token config) = 32%nat).

Lemma open_tunnel_cases s req setup :
  (open_tunnel config s req setup = (Refused, s) ∧ (¬ authorized config req ∨ permits s = 0%nat)) ∨
  (open_tunnel config s req setup = (SetupFailed, s) ∧ authorized config req ∧ setup = false) ∨
  (∃ remaining, open_tunnel config s req setup =
     (Accepted (next s), {| permits := remaining; next := S (next s);
                            tunnels := <[next s := Running []]> (tunnels s) |}) ∧
     permits s = S remaining ∧ authorized config req ∧ setup = true).
Proof.
  pose proof (acceptable_iff config req token_length) as A. unfold open_tunnel.
  destruct (acceptable _ _ _); cbn [negb].
  - destruct (permits s) as [|remaining]; [by left; auto|]. destruct setup.
    + right. right. exists remaining. naive_solver.
    + right. left. naive_solver.
  - left. split; [done|]. left. intros H. by apply A in H.
Qed.

Lemma lookup_snoc_old {A} (l : list A) x k y :
  l !! k = Some y → (l ++ [x]) !! k = Some y.
Proof. intros H. by apply lookup_app_l_Some. Qed.

Lemma server_inv_step ins rs s i :
  input_ok i → length rs = length ins → server_inv config ins rs s →
  ∃ r s', server_step config s i = Some (r, s') ∧ server_inv config (ins ++ [i]) (rs ++ [r]) s'.
Proof.
  intros Hi L [P F R O X].
  assert (∀ r k req setup, (¬ authorized config req → i = Incoming req setup → r = Refused) →
    (ins ++ [i]) !! k = Some (Incoming req setup) → ¬ authorized config req →
    (rs ++ [r]) !! k = Some Refused) as X'.
  { intros r k req setup Hr [E|[Hk E]]%lookup_app_Some N.
    - by eapply lookup_snoc_old, X.
    - apply list_lookup_singleton_Some in E as [E ->]. rewrite (Hr N eq_refl).
      rewrite lookup_app_r, L by lia. by rewrite E. }
  assert (∀ r id, (∃ k req, ins !! k = Some (Incoming req true) ∧ rs !! k = Some (Accepted id) ∧
      authorized config req) →
    ∃ k req, (ins ++ [i]) !! k = Some (Incoming req true) ∧
      (rs ++ [r]) !! k = Some (Accepted id) ∧ authorized config req) as O'.
  { intros r id (k & req & ? & ? & ?). exists k, req. by eauto using lookup_snoc_old. }
  destruct i as [req setup|id e]; cbn [server_step].
  - destruct (open_tunnel_cases s req setup)
      as [[E A]|[(E & A & B)|(remaining & E & Hp & A & ->)]]; rewrite E;
      eexists _, _; (split; [done|]).
    + constructor; [done..| |]; [by eauto|]. intros k q b. apply X'. done.
    + constructor; [done..| |]; [by eauto|]. intros k q b. apply X'. intros N [= -> _]. done.
    + constructor; cbn [permits next tunnels].
      * rewrite map_size_insert_None by (apply F; lia). lia.
      * intros id ?. rewrite lookup_insert_ne by lia. apply F. lia.
      * intros id st. destruct (decide (id = next s)) as [->|];
          [rewrite lookup_insert_eq; intros [= <-]; eauto|rewrite lookup_insert_ne by done; eauto].
      * intros id st. destruct (decide (id = next s)) as [->|].
        -- intros _. exists (length ins), req. rewrite lookup_app_r by lia.
           rewrite (lookup_app_r rs) by lia. by rewrite L, Nat.sub_diag.
        -- rewrite lookup_insert_ne by done. eauto.
      * intros k q b. apply X'. intros N [= -> _]. done.
  - unfold pump. destruct (tunnels s !! id) as [st|] eqn:Et.
    2: { eexists _, _. split; [done|]. constructor; [done..| |]; [by eauto|].
         intros k q b. by apply X'. }
    destruct (R id st Et) as (buf & -> & W).
    destruct (tunnel_step_total buf e) as (fs & st & -> & W'); [|done|].
    { by destruct e. }
    cbn [mbind option_bind]. eexists _, _. split; [done|].
    destruct st as [buf'|]; constructor; cbn [permits next tunnels].
    + rewrite map_size_insert_Some by eauto. done.
    + intros j ?. rewrite lookup_insert_ne by (intros ->; rewrite F in Et; done). by apply F.
    + intros j st'. destruct (decide (j = id)) as [->|];
        [rewrite lookup_insert_eq; intros [= <-]; eauto|rewrite lookup_insert_ne by done; eauto].
    + intros j st'. destruct (decide (j = id)) as [->|];
        [eauto|rewrite lookup_insert_ne by done; eauto].
    + intros k q b. by apply X'.
    + rewrite map_size_delete_Some by eauto.
      pose proof (map_size_ne_0_lookup_2 (tunnels s) id ltac:(eauto)). lia.
    + intros j ?. destruct (decide (j = id)) as [->|]; [apply lookup_delete_eq|].
      rewrite lookup_delete_ne by done. by apply F.
    + intros j st' [_ E]%lookup_delete_Some. eauto.
    + intros j st' [_ E]%lookup_delete_Some. eauto.
    + intros k q b. by apply X'.
Qed.

Lemma server_reachable ins :
  Forall input_ok ins →
  ∃ rs s, server_run config (start config) ins = Some (rs, s) ∧ server_inv config ins rs s.
Proof.
  induction ins as [|i ins IH] using rev_ind; intros H.
  - eexists _, _. split; [done|]. constructor; cbn; [by rewrite map_size_empty|done..].
  - apply list.Forall_app in H as [H [Hi _]%list.Forall_cons].
    destruct (IH H) as (rs & s & E & I).
    destruct (server_inv_step ins rs s i Hi (server_run_length _ _ _ _ _ E) I) as (r & s' & Es & I').
    exists (rs ++ [r]), s'. split; [|done].
    rewrite server_run_snoc, E. cbn [mbind option_bind]. by rewrite Es.
Qed.

End Admission.

(** The proxy, whatever its clients and its target do: it never panics, never holds more
    tunnels open than configured (every other permit is free), never buffers 65551 bytes
    for a tunnel, and every open tunnel was opened by a CONNECT-UDP request for the one
    configured target with the shared token. Every other request is answered by the one
    refusal; a request is refused exactly when it is not such a request or the proxy is
    full. *)
Theorem proxy_admission config ins :
  length (shared_token config) = 32%nat → Forall input_ok ins →
  ∃ rs s, server_run config (start config) ins = Some (rs, s) ∧
    (permits s + size (tunnels s) = max_concurrent_tunnels config)%nat ∧
    (∀ id st, tunnels s !! id = Some st →
      (∃ buf, st = Running buf ∧ blen buf < 65551) ∧
      ∃ k req, ins !! k = Some (Incoming req true) ∧ rs !! k = Some (Accepted id) ∧
        authorized config req) ∧
    (∀ k req setup, ins !! k = Some (Incoming req setup) → ¬ authorized config req →
      rs !! k = Some Refused) ∧
    (∀ req setup, (open_tunnel config s req setup).1 = Refused ↔
      ¬ authorized config req ∨ size (tunnels s) = max_concurrent_tunnels config).
Proof.
  intros T H. destruct (server_reachable config T ins H) as (rs & s & E & [P F R O X]).
  exists rs, s. split; [done|]. split; [done|]. split; [|split; [done|]].
  - intros id st Et. split; [|by eapply O]. destruct (R id st Et) as (buf & -> & W).
    exists buf. split; [done|]. exact (Capsule.decode_waits buf W).
  - intros req setup.
    destruct (open_tunnel_cases config T s req setup)
      as [[-> A]|[(Eo & A & B)|(remaining & -> & Hp & A & ->)]]; cbn [fst].
    + split; [intros _|done]. destruct A as [A|A]; [by left|right; lia].
    + split; [by rewrite Eo|]. intros [N|N]; [done|]. exfalso. revert Eo. unfold open_tunnel.
      destruct (negb _); [done|]. by replace (permits s) with 0%nat by lia.
    + split; [done|]. intros [N|N]; [done|lia].
Qed.

(** ** Concrete runs *)

Definition cut_stream : list Event :=
  [Chunk [x00; x03; x00] true; Datagram (lit "pong") true; Chunk [x68; x69; x00] true].

Lemma tunnel_exact_witness :
  forallb live cut_stream = true ∧
  (∃ fs st r, tunnel_run (Running []) cut_stream = Some (fs, st) ∧
     drain_all (uplink cut_stream) = Some (udp_sent fs, r) ∧
     match r with
     | Ok rest => st = Running rest ∧ blen rest < 65551 ∧
                  mapM frame (downlink cut_stream) = Some (data_sent fs)
     | Err _ => st = Ended
     end) ∧
  tunnel_run (Running []) cut_stream =
    Some ([SendData (x00 :: x05 :: x00 :: lit "pong") false; UdpSend (lit "hi")], Running [x00]).
Proof.
  split; [reflexivity|]. split; [|vm_compute; reflexivity].
  apply (tunnel_exact cut_stream); [reflexivity|]. repeat constructor.
Defined.

Lemma datagrams_roundtrip_witness :
  drain_all (concat [[x00; x03; x00; x68; x69]; [x00; x01; x00]] ++ [x00; x02])
  = Some ([lit "hi"; []], Ok [x00; x02]).
Proof.
  apply (datagrams_roundtrip [lit "hi"; []] [[x00; x03; x00; x68; x69]; [x00; x01; x00]]
    (lit "a") [x00; x02; x00; x61] [x00; x02] [x00; x61]); try reflexivity; try discriminate.
  repeat constructor; discriminate.
Defined.

(** The edge's QUIC listener as the one target. *)
Definition local_config : Config := {|
  listen := {| Address.ip := Address.Ip4 (Address.V4 127 0 0 1); Address.port := 8443;
               Address.flowinfo := 0; Address.scope_id := 0 |};
  target := {| Address.ip := Address.Ip4 (Address.V4 127 0 0 1); Address.port := 4433;
               Address.flowinfo := 0; Address.scope_id := 0 |};
  max_concurrent_tunnels := 1; idle_timeout := 60; shared_token := repeat x2a 32
|}.

Definition good_request : Request := {|
  method := lit "CONNECT"; protocol := Some (lit "connect-udp");
  path := lit "/.well-known/masque/udp/127.0.0.1/4433/";
  token_header := Some (lit " 2a2A2a2a2a2a2a2a2a2a2a2a2a2a2a2a2a2a2a2a2a2a2a2a2a2a2a2a2a2a2a2a ")
|}.

(** A second tunnel does not fit; when the first ends, there is room again. *)
Definition one_at_a_time : list Input :=
  [Incoming good_request true; Incoming good_request true; Round 0 (Datagram (lit "x") true);
   Round 0 Idle; Incoming good_request true].

Lemma proxy_admission_witness :
  (∃ rs s, server_run local_config (start local_config) one_at_a_time = Some (rs, s) ∧
    (permits s + size (tunnels s) = 1)%nat ∧
    (∀ id st, tunnels s !! id = Some st →
      (∃ buf, st = Running buf ∧ blen buf < 65551) ∧
      ∃ k req, one_at_a_time !! k = Some (Incoming req true) ∧ rs !! k = Some (Accepted id) ∧
        authorized local_config req) ∧
    (∀ k req setup, one_at_a_time !! k = Some (Incoming req setup) →
      ¬ authorized local_config req → rs !! k = Some Refused) ∧
    (∀ req setup, (open_tunnel local_config s req setup).1 = Refused ↔
      ¬ authorized local_config req ∨ size (tunnels s) = 1%nat)) ∧
  fst <$> server_run local_config (start local_config) one_at_a_time =
    Some [Accepted 0; Refused; Pumped 0 [SendData [x00; x02; x00; x78] false];
          Pumped 0 [SendData [] true]; Accepted 1].
Proof.
  split; [|vm_compute; reflexivity].
  apply (proxy_admission local_config one_at_a_time); [reflexivity|].
  repeat constructor; discriminate.
Defined.

(** The token parser also takes pairs like [+7], which are no hexadecimal pairs. *)
Lemma plus_pairs_are_tokens :
  parse_token_hex (concat (repeat (lit "+7") 32)) = Some (repeat x07 32).
Proof. by vm_compute. Qed.

(** An IPv6 target in the path. *)
Lemma v6_path :
  expected_connect_udp_path
    {| Address.ip := Address.Ip6 (Address.V6 0x2001 0xdb8 0 0 1 0 0 0x4f); Address.port := 443;
       Address.flowinfo := 0; Address.scope_id := 0 |}
  = lit "/.well-known/masque/udp/2001%3Adb8%3A%3A1%3A0%3A0%3A4f/443/".
Proof. by vm_compute. Qed.

End Proxy.
