(* ===== verification/Dns.v ===== *)
(** * The ACME DNS-01 responder

    [crates/dns/src/message.rs] ([Message]): the DNS message codec; [store.rs] ([Store]):
    the challenge records and their file; [server.rs] ([Server]): the answer to one
    datagram and to one TCP connection. *)

From S2P Require Import Prelude RustStd Codec.

Module Message.

(** src/crates/dns/src/message.rs:9-9 [TYPE_TXT] *)
Definition TYPE_TXT : N := 16.

(** src/crates/dns/src/message.rs:11-11 [CLASS_IN] *)
Definition CLASS_IN : N := 1.

(** src/crates/dns/src/message.rs:15-24 [Query] *)
Record Query := { id : N; name : bytes; qtype : N; qclass : N }.

(** src/crates/dns/src/message.rs:45-61 [parse_query] The loop over the labels of the
    question. [p] grows in every round, so [length buf] rounds are enough. *)
Fixpoint parse_labels (fuel : nat) (buf : bytes) (p : nat) (name : bytes)
    : option (bytes * nat) :=
  match fuel with
  | O => None
  | S fuel =>
    b ← buf !! p;
    let len := N.to_nat (N_of_byte b) in
    if N_of_byte b =? 0 then Some (name, (p + 1)%nat)
    else if negb (N.land (N_of_byte b) 0xC0 =? 0) then None
    else
      label ← get_range buf (p + 1) (p + 1 + len);
      label ← from_utf8 label;
      let name := if bool_decide (name = []) then name else name ++ lit "." in
      let name := name ++ to_ascii_lowercase label in
      parse_labels fuel buf (p + 1 + len) name
  end.

(** src/crates/dns/src/message.rs:29-65 [parse_query] *)
Definition parse_query (buf : bytes) : option Query :=
  if (length buf <? 12)%nat then None
  else
    id ← get_u16 buf 0;
    qdcount ← get_u16 buf 4;
    if qdcount <? 1 then None
    else
      '(name, p) ← parse_labels (S (length buf)) buf 12 [];
      qtype ← get_u16 buf p;
      qclass ← get_u16 buf (p + 2);
      Some {| id := id; name := name; qtype := qtype; qclass := qclass |}.

(** src/crates/dns/src/message.rs:72-72 [MAX_UDP_RESPONSE_BYTES] *)
Definition MAX_UDP_RESPONSE_BYTES : nat := 512.

(** src/crates/dns/src/message.rs:221-229 [encode_name] *)
Definition encode_name (out name : bytes) : bytes :=
  (if bool_decide (name = []) then out
   else foldl (λ out label, out ++ [byte_of_N (blen label)] ++ label) out (split_on x2e name))
  ++ [x00].

(** src/crates/dns/src/message.rs:147-152 [name_wire_len] *)
Definition name_wire_len (name : bytes) : nat :=
  if bool_decide (name = []) then 1
  else (sum_list ((λ label, 1 + length label)%nat <$> split_on x2e name) + 1)%nat.

(** src/crates/dns/src/message.rs:98-101 [build_response] The rdata of a TXT answer. *)
Definition rdata (txt : bytes) : bytes :=
  flat_map (λ chunk, byte_of_N (blen chunk) :: chunk) (chunks 255 txt).

(** src/crates/dns/src/message.rs:88-104 [build_response] One answer. *)
Definition answer_rr (txt : bytes) : bytes :=
  [xc0; x0c] ++ u16_be TYPE_TXT ++ u16_be CLASS_IN ++ u32_be 60
    ++ u16_be (blen (rdata txt) mod 2 ^ 16) ++ rdata txt.

(** src/crates/dns/src/message.rs:112-120 [build_response] How many whole answers fit. *)
Fixpoint included (budget : nat) (rrs : list bytes) : nat :=
  match rrs with
  | [] => 0
  | rr :: rrs =>
    if (budget <? length rr)%nat then 0 else S (included (budget - length rr) rrs)
  end.

(** src/crates/dns/src/message.rs:85-109 [build_response] *)
Definition answer_rrs (query : Query) (txts : list bytes) : list bytes :=
  if qtype query =? TYPE_TXT then map answer_rr txts else [].

(** src/crates/dns/src/message.rs:82-142 [build_response] *)
Definition build_response (query : Query) (txts : list bytes) : bytes :=
  let rrs := answer_rrs query txts in
  let header_and_question_len := (12 + name_wire_len (name query) + 4)%nat in
  let n := included (MAX_UDP_RESPONSE_BYTES - header_and_question_len) rrs in
  let truncated := (n <? length rrs)%nat in
  let out := u16_be (id query) ++ u16_be (if truncated then 0x8600 else 0x8400)
             ++ u16_be 1 ++ u16_be (N.of_nat n mod 2 ^ 16) ++ u16_be 0 ++ u16_be 0 in
  let out := encode_name out (name query) in
  let out := out ++ u16_be (qtype query) ++ u16_be (qclass query) in
  foldl app out (take n rrs).

(** src/crates/dns/src/message.rs:155-165 [build_query] *)
Definition build_query (id : N) (name : bytes) (qtype : N) : bytes :=
  let b := u16_be id ++ u16_be 0x0100 ++ u16_be 1 ++ [x00; x00; x00; x00; x00; x00] in
  encode_name b name ++ u16_be qtype ++ u16_be CLASS_IN.

(** src/crates/dns/src/message.rs:207-218 [skip_name] [p] grows in every round. *)
Fixpoint skip_name (fuel : nat) (buf : bytes) (p : nat) : option nat :=
  match fuel with
  | O => None
  | S fuel =>
    b ← buf !! p;
    if N_of_byte b =? 0 then Some (p + 1)%nat
    else if N.land (N_of_byte b) 0xC0 =? 0xC0 then Some (p + 2)%nat
    else skip_name fuel buf (p + (1 + N.to_nat (N_of_byte b)))
  end.

(** src/crates/dns/src/message.rs:178-181 [parse_txt_answers] *)
Fixpoint skip_questions (qd : nat) (buf : bytes) (p : nat) : option nat :=
  match qd with
  | O => Some p
  | S qd => p ← skip_name (S (length buf)) buf p; skip_questions qd buf (p + 4)
  end.

(** src/crates/dns/src/message.rs:189-195 [parse_txt_answers] The character-strings of
    one record; [i] grows in every round. *)
Fixpoint char_strings (fuel : nat) (rdata : bytes) (i : nat) (s : bytes) : option bytes :=
  match fuel with
  | O => None
  | S fuel =>
    if (i <? length rdata)%nat then
      b ← rdata !! i;
      let l := N.to_nat (N_of_byte b) in
      part ← get_range rdata (i + 1) (i + 1 + l);
      part ← from_utf8 part;
      char_strings fuel rdata (i + (1 + l)) (s ++ part)
    else Some s
  end.

(** src/crates/dns/src/message.rs:183-199 [parse_txt_answers] *)
Fixpoint read_answers (an : nat) (buf : bytes) (p : nat) (out : list bytes)
    : option (list bytes) :=
  match an with
  | O => Some out
  | S an =>
    p ← skip_name (S (length buf)) buf p;
    rtype ← get_u16 buf p;
    rdlen ← get_u16 buf (p + 8);
    let rdlen := N.to_nat rdlen in
    rdata ← get_range buf (p + 10) (p + 10 + rdlen);
    out ← (if rtype =? TYPE_TXT
           then s ← char_strings (S (length rdata)) rdata 0 []; Some (out ++ [s])
           else Some out);
    read_answers an buf (p + (10 + rdlen)) out
  end.

(** src/crates/dns/src/message.rs:170-203 [parse_txt_answers] *)
Definition parse_txt_answers (buf : bytes) : list bytes :=
  default []
    (if (length buf <? 12)%nat then None
     else
       qd ← get_u16 buf 4;
       an ← get_u16 buf 6;
       p ← skip_questions (N.to_nat qd) buf 12;
       read_answers (N.to_nat an) buf p []).

(** ** The grammar of a question *)

Definition label_ok (l : bytes) : Prop :=
  (1 ≤ length l ≤ 63)%nat ∧ utf8_valid l = true.
#[global] Instance label_ok_dec l : Decision (label_ok l).
Proof. unfold label_ok. apply _. Defined.
Definition wire (labels : list bytes) : bytes :=
  flat_map (λ l, byte_of_N (blen l) :: l) labels.
Lemma length_wire_cons l ls : length (wire (l :: ls)) = S (length l + length (wire ls)).
Proof. cbn. by rewrite length_app. Qed.

Definition add_label (name label : bytes) : bytes :=
  (if bool_decide (name = []) then name else name ++ lit ".") ++ to_ascii_lowercase label.

Lemma label_len l : (length l ≤ 63)%nat → N_of_byte (byte_of_N (blen l)) = blen l.
Proof. intros H. rewrite N_of_byte_of_N. apply N.mod_small. unfold blen. lia. Qed.

Lemma top_bits b : (N.land (N_of_byte b) 0xC0 =? 0) = (N_of_byte b <? 64).
Proof.
  apply eqb_prop. exact (Hex.byte_check (λ b, Bool.eqb (N.land (N_of_byte b) 0xC0 =? 0)
    (N_of_byte b <? 64)) ltac:(by vm_compute) b).
Qed.

Lemma zero_byte b : N_of_byte b = 0 → b = x00.
Proof. intros H. by apply N_of_byte_inj. Qed.

Lemma parse_labels_iff fuel pre suf nm n q :
  (length suf < fuel)%nat →
  parse_labels fuel (pre ++ suf) (length pre) nm = Some (n, q) ↔
  ∃ labels rest, suf = wire labels ++ x00 :: rest ∧ Forall label_ok labels ∧
    n = foldl add_label nm labels ∧ q = (length pre + length (wire labels) + 1)%nat.
Proof.
  revert pre suf nm. induction fuel as [|fuel IH]; intros pre suf nm Hf; [lia|].
  cbn [parse_labels]. destruct suf as [|b suf].
  { rewrite app_nil_r, lookup_ge_None_2 by lia. split; [done|].
    intros (labels & rest & E & _). by destruct labels. }
  rewrite lookup_app_r, Nat.sub_diag by lia. cbn [lookup list_lookup mbind option_bind].
  rewrite top_bits. destruct (N.eqb_spec (N_of_byte b) 0) as [Z|Z].
  { apply zero_byte in Z as ->. split.
    - intros [= <- <-]. exists [], suf. cbn. split_and!; [done|constructor|done|lia].
    - intros ([|l labels] & rest & E & L & -> & ->); [cbn; repeat f_equal; lia|].
      apply list.Forall_cons in L as [[B _] _]. injection E as E _.
      apply (f_equal N_of_byte) in E. rewrite label_len in E by lia. unfold blen in E.
      cbn in E. lia. }
  assert (∀ labels rest, b :: suf = wire labels ++ x00 :: rest → Forall label_ok labels →
    ∃ l labels', labels = l :: labels' ∧ N_of_byte b = blen l ∧ label_ok l ∧
      Forall label_ok labels' ∧ suf = l ++ wire labels' ++ x00 :: rest) as Cut.
  { intros [|l labels] rest E L; [by injection E as -> _|].
    apply list.Forall_cons in L as [Bl L]. injection E as -> ->. exists l, labels.
    rewrite label_len by (unfold label_ok in Bl; lia). by rewrite <- app_assoc. }
  destruct (N.ltb_spec (N_of_byte b) 64) as [Hb|Hb]; cbn [negb].
  2: { split; [done|]. intros (labels & rest & E & L & _).
       apply Cut in E as (l & ? & _ & E & [? _] & _); [|done]. unfold blen in E. lia. }
  set (len := N.to_nat (N_of_byte b)).
  destruct (decide (len ≤ length suf)%nat) as [Hl|Hl].
  2: { split.
       - intros E. destruct (get_range _ _ _) as [x|] eqn:G; [|done].
         apply get_range_Some in G as (p1 & p2 & E' & ? & ?). exfalso.
         apply (f_equal length) in E'. rewrite !length_app in E'. cbn [length] in E'. lia.
       - intros (labels & rest & E & L & _). exfalso. apply Cut in E as (l & ls & _ & E & _ & _ & ->); [|done].
         rewrite length_app in Hl. unfold len in Hl. rewrite E, to_nat_blen in Hl. lia. }
  assert (pre ++ b :: suf = (pre ++ [b]) ++ take len suf ++ drop len suf) as Eb
    by (by rewrite <- app_assoc, take_drop).
  assert (length (take len suf) = len) as Lt by (rewrite length_take; lia).
  rewrite Eb, get_range_app by (rewrite ?length_app, ?Lt; cbn; lia).
  cbn [mbind option_bind]. unfold from_utf8. destruct (utf8_valid (take len suf)) eqn:U.
  2: { split; [done|]. intros (labels & rest & E & L & _). exfalso.
       apply Cut in E as (l & ls & _ & E & [_ Ul] & _ & ->); [|done].
       unfold len in U. rewrite E, to_nat_blen, take_app_length in U. congruence. }
  cbn [mbind option_bind]. rewrite app_assoc.
  replace (length pre + 1 + len)%nat with (length ((pre ++ [b]) ++ take len suf))
    by (rewrite !length_app, Lt; cbn; lia).
  rewrite IH by (rewrite length_drop; cbn [length] in Hf; lia).
  rewrite !length_app, Lt. cbn [length]. split.
  - intros (labels & rest & E & L & -> & ->). exists (take len suf :: labels), rest.
    assert (byte_of_N (blen (take len suf)) = b) as Eh.
    { unfold blen. rewrite Lt. unfold len. rewrite N2Nat.id. apply byte_of_N_of_byte. }
    split.
    { cbn [wire flat_map]. fold (wire labels). rewrite Eh. cbn [app].
      by rewrite <- app_assoc, <- E, take_drop. }
    split; [|split; [done|]].
    + constructor; [|done]. split; [|done]. rewrite Lt. unfold len. lia.
    + rewrite length_wire_cons, Lt. lia.
  - intros (labels & rest & E & L & -> & ->).
    apply Cut in E as (l & ls & -> & E & _ & Ls & ->); [|done].
    assert (len = length l) as -> by (unfold len; by rewrite E, to_nat_blen).
    exists ls, rest. rewrite drop_app_length, take_app_length. split; [done|]. split; [done|].
    split; [done|]. rewrite length_wire_cons. lia.
Qed.

Lemma join_cons sep x ls : join sep (x :: ls) = x ++ flat_map (λ l, sep ++ l) ls.
Proof.
  revert x. induction ls as [|y ls IH]; intros x; [by rewrite app_nil_r|].
  change (join sep (x :: y :: ls)) with (x ++ sep ++ join sep (y :: ls)).
  rewrite IH. cbn [flat_map]. by rewrite <- app_assoc.
Qed.

Lemma add_labels_more name ls :
  name ≠ [] → foldl add_label name ls = name ++ to_ascii_lowercase (flat_map (λ l, lit "." ++ l) ls).
Proof.
  revert name. induction ls as [|l ls IH]; intros name H; cbn [foldl]; [by rewrite app_nil_r|].
  assert (add_label name l = name ++ lit "." ++ to_ascii_lowercase l) as ->.
  { unfold add_label. by rewrite bool_decide_false, <- app_assoc by done. }
  rewrite IH.
  - unfold to_ascii_lowercase. cbn [flat_map]. by rewrite !map_app, <- !app_assoc.
  - by destruct name.
Qed.

Lemma add_labels ls :
  Forall label_ok ls → foldl add_label [] ls = to_ascii_lowercase (join (lit ".") ls).
Proof.
  intros H. destruct ls as [|l ls]; [done|]. cbn [foldl].
  apply list.Forall_cons in H as [[B _] _].
  change (add_label [] l) with (to_ascii_lowercase l). rewrite add_labels_more.
  - rewrite join_cons. unfold to_ascii_lowercase. by rewrite map_app.
  - destruct l; [cbn in B; lia|done].
Qed.

(** Twelve bytes of header. *)
Lemma header_cut (h : bytes) :
  length h = 12%nat → ∃ a b c d e f g i j k l m, h = [a; b; c; d; e; f; g; i; j; k; l; m].
Proof.
  intros H. do 12 (destruct h as [|? h]; [discriminate H|]). destruct h; [|discriminate H].
  eauto 20.
Qed.

(** [parse_query] accepts exactly the datagrams that are a 12-byte header announcing a
    question, labels of 1 to 63 UTF-8 bytes ending in the root label, a type and a class,
    whatever follows; it returns the header's id, the labels joined by dots in lower case,
    the type and the class. *)
Theorem parse_query_iff buf q :
  parse_query buf = Some q ↔
  ∃ h labels rest,
    buf = h ++ wire labels ++ [x00] ++ u16_be (qtype q) ++ u16_be (qclass q) ++ rest ∧
    length h = 12%nat ∧ 1 ≤ be_val (slice 4 6 h) ∧ Forall label_ok labels ∧
    id q = be_val (take 2 h) ∧ name q = to_ascii_lowercase (join (lit ".") labels) ∧
    qtype q < 2 ^ 16 ∧ qclass q < 2 ^ 16.
Proof.
  unfold parse_query. destruct (Nat.ltb_spec (length buf) 12) as [L|L].
  { split; [done|]. intros (h & ls & rest & -> & Hh & _). rewrite length_app in L. lia. }
  assert (∃ h suf, buf = h ++ suf ∧ length h = 12%nat) as (h & suf & -> & Hh).
  { exists (take 12 buf), (drop 12 buf). rewrite take_drop, length_take. split; [done|lia]. }
  assert (get_u16 (h ++ suf) 0 = Some (be_val (take 2 h)) ∧
          get_u16 (h ++ suf) 4 = Some (be_val (slice 4 6 h))) as [-> ->].
  { by apply header_cut in Hh as (?&?&?&?&?&?&?&?&?&?&?&?& ->). }
  cbn [mbind option_bind].
  assert (∀ h' labels rest, h ++ suf = h' ++ wire labels ++ rest → length h' = 12%nat →
    h' = h ∧ suf = wire labels ++ rest) as Cut.
  { intros h' labels rest E Lh. apply app_inj_l in E as [-> ->]; [done|lia]. }
  destruct (N.ltb_spec (be_val (slice 4 6 h)) 1) as [Q|Q].
  { split; [done|]. intros (h' & ls & rest & E & Lh & Q' & _).
    apply Cut in E as [-> _]; [lia|done]. }
  rewrite <- Hh. split.
  - destruct (parse_labels _ _ _ _) as [[nm p]|] eqn:E; [|done]. cbn [mbind option_bind].
    apply parse_labels_iff in E as (labels & rest & -> & F & -> & ->);
      [|rewrite length_app; lia].
    intros (qt & Et & (qc & Ec & [= <-])%bind_Some)%bind_Some. cbn.
    replace (h ++ wire labels ++ x00 :: rest) with ((h ++ wire labels ++ [x00]) ++ rest) in Et, Ec
      by (by rewrite <- !app_assoc).
    replace (length h + length (wire labels) + 1)%nat with (length (h ++ wire labels ++ [x00]))
      in Et, Ec by (rewrite !length_app; cbn; lia).
    apply get_u16_iff in Et as (Bt & rest' & ->).
    rewrite app_assoc in Ec.
    replace (length (h ++ wire labels ++ [x00]) + 2)%nat
      with (length ((h ++ wire labels ++ [x00]) ++ u16_be qt)) in Ec
      by (unfold u16_be; by rewrite (length_app _ (be_bytes _ _)), length_be_bytes).
    apply get_u16_iff in Ec as (Bc & rest & ->).
    exists h, labels, rest. split; [done|]. rewrite Hh. split; [done|]. split; [done|].
    split; [done|]. split; [done|]. by rewrite add_labels.
  - intros (h' & labels & rest & E & Lh & _ & F & Ei & En & Bt & Bc).
    apply Cut in E as [-> ->]; [|lia].
    set (suf := wire labels ++ [x00] ++ u16_be (qtype q) ++ u16_be (qclass q) ++ rest).
    assert (parse_labels (S (length (h ++ suf))) (h ++ suf) (length h) []
      = Some (foldl add_label [] labels, (length h + length (wire labels) + 1)%nat)) as ->.
    { apply parse_labels_iff; [rewrite length_app; lia|]. by eexists labels, _. }
    unfold suf.
    cbn [mbind option_bind].
    set (pre := h ++ wire labels ++ [x00]).
    replace (h ++ wire labels ++ [x00] ++ u16_be (qtype q) ++ u16_be (qclass q) ++ rest)
      with (pre ++ u16_be (qtype q) ++ u16_be (qclass q) ++ rest)
      by (unfold pre; by rewrite <- !app_assoc).
    replace (length h + length (wire labels) + 1)%nat with (length pre)
      by (unfold pre; rewrite !length_app; cbn; lia).
    rewrite (proj2 (get_u16_iff pre _ (qtype q))) by eauto. cbn [mbind option_bind].
    rewrite (app_assoc pre).
    replace (length pre + 2)%nat with (length (pre ++ u16_be (qtype q)))
      by (unfold u16_be; by rewrite (length_app _ (be_bytes _ _)), length_be_bytes).
    rewrite (proj2 (get_u16_iff (pre ++ u16_be (qtype q)) _ (qclass q))) by eauto.
    cbn [mbind option_bind]. rewrite add_labels, <- Ei, <- En by done. by destruct q.
Qed.

(** ** Responses *)

(** The wire form of a dotted name, as [encode_name] appends it. *)
Definition qname (name : bytes) : bytes :=
  (if bool_decide (name = []) then [] else wire (split_on x2e name)) ++ [x00].

Definition question (q : Query) : bytes :=
  qname (name q) ++ u16_be (qtype q) ++ u16_be (qclass q).

Lemma encode_name_spec out nm : encode_name out nm = out ++ qname nm.
Proof.
  unfold encode_name, qname. rewrite app_assoc. f_equal. case_bool_decide as H; [by rewrite app_nil_r|].
  clear H. generalize (split_on x2e nm). intros ls. revert out.
  induction ls as [|l ls IH]; intros out; cbn; [by rewrite app_nil_r|].
  rewrite IH. by rewrite <- !app_assoc.
Qed.

Lemma length_wire labels : length (wire labels) = sum_list ((λ l, 1 + length l)%nat <$> labels).
Proof. induction labels as [|l ls IH]; [done|]. rewrite length_wire_cons, IH. cbn. lia. Qed.

Lemma length_qname nm : length (qname nm) = name_wire_len nm.
Proof.
  unfold qname, name_wire_len. rewrite length_app. case_bool_decide; [done|].
  rewrite length_wire. cbn. lia.
Qed.

Lemma length_question q : length (question q) = (name_wire_len (name q) + 4)%nat.
Proof.
  unfold question, u16_be. rewrite !length_app, !length_be_bytes, length_qname. lia.
Qed.

Lemma included_spec budget rrs :
  let n := included budget rrs in
  (n ≤ length rrs)%nat ∧ (length (concat (take n rrs)) ≤ budget)%nat ∧
  ((n < length rrs)%nat → (budget < length (concat (take (S n) rrs)))%nat).
Proof.
  cbn zeta. revert budget. induction rrs as [|rr rrs IH]; intros budget; cbn [included].
  { cbn. lia. }
  destruct (Nat.ltb_spec budget (length rr)) as [H|H].
  - cbn [take concat length]. rewrite app_nil_r. cbn. lia.
  - destruct (IH (budget - length rr)%nat) as (A & B & C). cbn [take concat length] in *.
    rewrite !length_app. split; [lia|]. split; [lia|]. intros L.
    specialize (C ltac:(lia)). cbn [take concat] in C. lia.
Qed.

(** Every answer has at least 12 bytes, so the count fits its field. *)
Lemma included_count (rrs : list bytes) :
  Forall (λ rr, (12 ≤ length rr)%nat) rrs → (12 * length rrs ≤ length (concat rrs))%nat.
Proof.
  induction 1; cbn [concat length]; [lia|]. rewrite length_app. lia.
Qed.

Lemma length_answer_rr txt : (length (answer_rr txt) = 12 + length (rdata txt))%nat.
Proof.
  unfold answer_rr, u16_be, u32_be. rewrite !length_app, !length_be_bytes. cbn. lia.
Qed.

Lemma answer_rrs_long q txts : Forall (λ rr, (12 ≤ length rr)%nat) (answer_rrs q txts).
Proof.
  unfold answer_rrs. destruct (_ =? _); [|constructor]. apply Forall_map, list.Forall_true.
  intros t. cbn beta. rewrite length_answer_rr. lia.
Qed.

Lemma foldl_app_concat (out : bytes) ls : foldl app out ls = out ++ concat ls.
Proof.
  revert out. induction ls as [|l ls IH]; intros out; cbn [foldl concat]; [by rewrite app_nil_r|].
  by rewrite IH, app_assoc.
Qed.

(** The header of a response carrying [k] of [n] answers. *)
Definition header (id : N) (k n : nat) : bytes :=
  u16_be id ++ u16_be (if (k <? n)%nat then 0x8600 else 0x8400) ++ u16_be 1
    ++ u16_be (N.of_nat k) ++ u16_be 0 ++ u16_be 0.

Lemma length_header id k n : length (header id k n) = 12%nat.
Proof. unfold header, u16_be. by rewrite !length_app, !length_be_bytes. Qed.

Lemma build_response_shape q txts :
  let rrs := answer_rrs q txts in
  let k := included (512 - (16 + name_wire_len (name q))) rrs in
  build_response q txts = header (id q) k (length rrs) ++ question q ++ concat (take k rrs).
Proof.
  cbn zeta. unfold build_response. change MAX_UDP_RESPONSE_BYTES with 512%nat. cbn zeta.
  replace (12 + name_wire_len (name q) + 4)%nat with (16 + name_wire_len (name q))%nat by lia.
  set (rrs := answer_rrs q txts). set (k := included _ rrs).
  assert (N.of_nat k mod 2 ^ 16 = N.of_nat k) as ->.
  { apply N.mod_small. change (2 ^ 16) with 65536.
    destruct (included_spec (512 - (16 + name_wire_len (name q))) rrs) as (A & B & _). fold k in A, B.
    pose proof (included_count (take k rrs) ltac:(apply Forall_take, answer_rrs_long)) as C.
    rewrite length_take in C. lia. }
  rewrite foldl_app_concat, encode_name_spec. unfold header, question. by rewrite <- !app_assoc.
Qed.

(** ** Reading a response back *)

(** A name that is a sequence of proper labels. *)
Definition name_ok (nm : bytes) : Prop :=
  nm = [] ∨ Forall (λ l, (1 ≤ length l ≤ 63)%nat) (split_on x2e nm).
(** A value whose character-strings are UTF-8 each, and fit a record. *)
Definition text_ok (t : bytes) : Prop :=
  Forall (λ c, utf8_valid c = true) (chunks 255 t) ∧ blen (rdata t) < 2 ^ 16.
#[global] Instance text_ok_dec t : Decision (text_ok t).
Proof. unfold text_ok. apply _. Defined.

Lemma skip_name_wire labels fuel pre rest :
  Forall (λ l, (1 ≤ length l ≤ 63)%nat) labels → (length (wire labels) < fuel)%nat →
  skip_name fuel (pre ++ wire labels ++ x00 :: rest) (length pre)
  = Some (length pre + length (wire labels) + 1)%nat.
Proof.
  intros F. revert fuel pre. induction F as [|l ls Hl F IH]; intros fuel pre Hf;
    (destruct fuel as [|fuel]; [lia|]); cbn [skip_name].
  - rewrite lookup_app_r, Nat.sub_diag by lia. cbn. f_equal. lia.
  - rewrite length_wire_cons in *.
    change (wire (l :: ls)) with ((byte_of_N (blen l) :: l) ++ wire ls).
    rewrite lookup_app_r, Nat.sub_diag by lia. cbn [app lookup list_lookup mbind option_bind].
    pose proof (top_bits (byte_of_N (blen l))) as T. rewrite label_len in T by lia.
    rewrite label_len by lia.
    destruct (N.eqb_spec (blen l) 0) as [E|_]; [unfold blen in E; lia|].
    assert (N.land (blen l) 0xC0 = 0) as ->.
    { apply N.eqb_eq. rewrite T. apply N.ltb_lt. unfold blen. lia. }
    cbn [N.eqb]. rewrite to_nat_blen. specialize (IH fuel (pre ++ byte_of_N (blen l) :: l) ltac:(lia)).
    rewrite <- !app_assoc in IH. cbn [app] in IH. rewrite length_app in IH. cbn [length] in IH.
    rewrite <- app_assoc. cbn [app].
    replace (length pre + (1 + length l))%nat with (length pre + S (length l))%nat by lia.
    rewrite IH. f_equal. lia.
Qed.

Lemma skip_qname nm fuel pre rest :
  name_ok nm → (length (qname nm) < fuel)%nat →
  skip_name fuel (pre ++ qname nm ++ rest) (length pre) = Some (length pre + length (qname nm))%nat.
Proof.
  intros Hn Hf. unfold qname in *. rewrite length_app in *. cbn [length] in *.
  rewrite <- app_assoc. cbn [app]. case_bool_decide as E.
  - pose proof (skip_name_wire [] fuel pre rest ltac:(constructor) ltac:(cbn in *; lia)) as S.
    cbn in S |- *. rewrite S. f_equal. lia.
  - destruct Hn as [->|Hn]; [done|]. rewrite skip_name_wire by (done || lia). f_equal. lia.
Qed.

Lemma skip_pointer fuel pre rest :
  skip_name (S fuel) (pre ++ xc0 :: rest) (length pre) = Some (length pre + 2)%nat.
Proof. cbn [skip_name]. by rewrite lookup_app_r, Nat.sub_diag by lia. Qed.

Lemma char_strings_spec cs fuel pre s :
  Forall (λ c, (length c ≤ 255)%nat ∧ utf8_valid c = true) cs →
  (length (flat_map (λ c, byte_of_N (blen c) :: c) cs) < fuel)%nat →
  char_strings fuel (pre ++ flat_map (λ c, byte_of_N (blen c) :: c) cs) (length pre) s
  = Some (s ++ concat cs).
Proof.
  intros F. revert fuel pre s. induction F as [|c cs [Hc Hu] F IH]; intros fuel pre s Hf;
    (destruct fuel as [|fuel]; [lia|]); cbn [char_strings flat_map concat].
  - rewrite !app_nil_r. by destruct (Nat.ltb_spec (length pre) (length pre)); [lia|].
  - cbn [flat_map app length] in Hf. rewrite !length_app in Hf |- *. cbn [app length].
    destruct (Nat.ltb_spec (length pre) (length pre + S (length (c ++
      flat_map (λ c, byte_of_N (blen c) :: c) cs)))); [|lia].
    rewrite lookup_app_r, Nat.sub_diag by lia. cbn [lookup list_lookup mbind option_bind].
    assert (N_of_byte (byte_of_N (blen c)) = blen c) as ->.
    { rewrite N_of_byte_of_N. apply N.mod_small. unfold blen. lia. }
    rewrite to_nat_blen.
    change (byte_of_N (blen c) :: c ++ ?x) with ([byte_of_N (blen c)] ++ c ++ x).
    rewrite app_assoc, get_range_app by (rewrite ?length_app; cbn; lia).
    cbn [mbind option_bind]. unfold from_utf8. rewrite Hu. cbn [mbind option_bind].
    rewrite app_assoc.
    replace (length pre + (1 + length c))%nat
      with (length ((pre ++ [byte_of_N (blen c)]) ++ c)) by (rewrite !length_app; cbn; lia).
    rewrite IH by lia. by rewrite app_assoc.
Qed.

Lemma char_strings_rdata t :
  text_ok t → char_strings (S (length (rdata t))) (rdata t) 0 [] = Some t.
Proof.
  intros [U _]. unfold rdata. rewrite <- (concat_chunks 255 t) at 3 by lia.
  apply (char_strings_spec (chunks 255 t) _ [] []); [|lia].
  apply list.Forall_and. split; [apply chunks_bound|done].
Qed.

Lemma get_u16_at pre v rest p :
  length pre = p → v < 2 ^ 16 → get_u16 (pre ++ u16_be v ++ rest) p = Some v.
Proof. intros <- Hv. apply get_u16_iff. eauto. Qed.

Lemma read_one t pre rest an out :
  text_ok t →
  read_answers (S an) (pre ++ answer_rr t ++ rest) (length pre) out
  = read_answers an ((pre ++ answer_rr t) ++ rest) (length (pre ++ answer_rr t)) (out ++ [t]).
Proof.
  intros T. destruct T as [U B]. cbn [read_answers].
  assert (answer_rr t ++ rest = xc0 :: x0c :: u16_be TYPE_TXT ++ (u16_be CLASS_IN ++ u32_be 60)
    ++ u16_be (blen (rdata t)) ++ rdata t ++ rest) as E.
  { unfold answer_rr. rewrite N.mod_small by done. by rewrite <- !app_assoc. }
  rewrite E. rewrite skip_pointer. cbn [mbind option_bind]. set (buf := pre ++ _ :: _).
  assert (buf = (pre ++ [xc0; x0c]) ++ u16_be TYPE_TXT ++ (u16_be CLASS_IN ++ u32_be 60)
    ++ u16_be (blen (rdata t)) ++ rdata t ++ rest) as E1 by (unfold buf; by rewrite <- (app_assoc pre)).
  assert (length (u16_be TYPE_TXT) = 2%nat ∧ length (u16_be CLASS_IN ++ u32_be 60) = 6%nat ∧
    length (u16_be (blen (rdata t))) = 2%nat) as (L1 & L2 & L3)
    by (unfold u16_be, u32_be; by rewrite !length_app, !length_be_bytes).
  assert (buf = ((pre ++ [xc0; x0c]) ++ u16_be TYPE_TXT ++ u16_be CLASS_IN ++ u32_be 60)
    ++ u16_be (blen (rdata t)) ++ rdata t ++ rest) as E2 by (by rewrite E1, <- !app_assoc).
  assert (buf = ((pre ++ [xc0; x0c]) ++ u16_be TYPE_TXT ++ (u16_be CLASS_IN ++ u32_be 60)
    ++ u16_be (blen (rdata t))) ++ rdata t ++ rest) as E3 by (by rewrite E1, <- !app_assoc).
  assert (get_u16 buf (length pre + 2) = Some TYPE_TXT) as ->.
  { rewrite E1. apply get_u16_at; [by rewrite length_app|done]. }
  cbn [mbind option_bind].
  assert (get_u16 buf (length pre + 2 + 8) = Some (blen (rdata t))) as ->.
  { rewrite E2. apply get_u16_at; [|done]. rewrite !length_app in *. cbn [length]. lia. }
  cbn [mbind option_bind]. rewrite to_nat_blen.
  assert (get_range buf (length pre + 2 + 10) (length pre + 2 + 10 + length (rdata t))
    = Some (rdata t)) as ->.
  { rewrite E3. apply get_range_app; [|done]. rewrite !length_app in *. cbn [length]. lia. }
  cbn [mbind option_bind]. change (TYPE_TXT =? TYPE_TXT) with true. cbv iota.
  rewrite char_strings_rdata by done. cbn [mbind option_bind].
  rewrite <- app_assoc, E. fold buf. f_equal. rewrite length_app, length_answer_rr. lia.
Qed.

Lemma read_answers_spec txts pre out :
  Forall text_ok txts →
  read_answers (length txts) (pre ++ concat (map answer_rr txts)) (length pre) out
  = Some (out ++ txts).
Proof.
  intros F. revert pre out. induction F as [|t txts T F IH]; intros pre out.
  - cbn. by rewrite !app_nil_r.
  - cbn [map concat length]. rewrite read_one by done. rewrite IH. by rewrite <- app_assoc.
Qed.

(** C34 What the responder answers. When the question fits a datagram, the response is never
    longer than 512 bytes: the header, the question, and the longest prefix of the
    answers that fits, whole; the truncation bit is set exactly when an answer was left
    out, and the count is the number of answers present. For a well-formed name and
    texts, [parse_txt_answers] reads exactly these texts back. *)
Theorem response_exact q txts :
  (16 + name_wire_len (name q) ≤ 512)%nat →
  ∃ k, let rrs := answer_rrs q txts in let r := build_response q txts in
    (k ≤ length rrs)%nat ∧
    r = u16_be (id q) ++ u16_be (if (k <? length rrs)%nat then 0x8600 else 0x8400) ++ u16_be 1
        ++ u16_be (N.of_nat k) ++ u16_be 0 ++ u16_be 0 ++ question q ++ concat (take k rrs) ∧
    (length r ≤ 512)%nat ∧
    ((k < length rrs)%nat →
      (512 < 16 + name_wire_len (name q) + length (concat (take (S k) rrs)))%nat) ∧
    (name_ok (name q) → Forall text_ok txts →
      parse_txt_answers r = if qtype q =? TYPE_TXT then take k txts else []).
Proof.
  intros Q. pose proof (build_response_shape q txts) as Shape. cbn zeta in *.
  set (rrs := answer_rrs q txts) in *. set (budget := (512 - _)%nat) in Shape.
  destruct (included_spec budget rrs) as (A & B & C).
  set (k := included budget rrs) in *. exists k. split; [done|]. split.
  { rewrite Shape. unfold header. by rewrite <- !app_assoc. }
  assert (length (build_response q txts) = 16 + name_wire_len (name q)
    + length (concat (take k rrs)))%nat as L.
  { rewrite Shape, !length_app, length_header, length_question. lia. }
  split; [rewrite L; unfold budget in B; lia|]. split.
  { intros H. specialize (C H). unfold budget in C. lia. }
  intros Hn Ht. unfold parse_txt_answers.
  destruct (Nat.ltb_spec (length (build_response q txts)) 12) as [?|_]; [lia|].
  rewrite Shape. assert (N.of_nat k < 2 ^ 16) as Bk.
  { change (2 ^ 16) with 65536.
    pose proof (included_count (take k rrs) ltac:(apply Forall_take, answer_rrs_long)) as Cc.
    rewrite length_take in Cc. unfold budget in B. lia. }
  set (rest := question q ++ concat (take k rrs)).
  assert (get_u16 (header (id q) k (length rrs) ++ rest) 4 = Some 1) as ->.
  { unfold header. rewrite (app_assoc (u16_be (id q))), <- !app_assoc, (app_assoc (u16_be (id q))).
    apply get_u16_at; [|done]. unfold u16_be. by rewrite !length_app, !length_be_bytes. }
  assert (get_u16 (header (id q) k (length rrs) ++ rest) 6 = Some (N.of_nat k)) as ->.
  { unfold header. rewrite <- !app_assoc, (app_assoc (u16_be (id q))), app_assoc.
    apply get_u16_at; [|done]. unfold u16_be. by rewrite !length_app, !length_be_bytes. }
  cbn [mbind option_bind]. change (N.to_nat 1) with 1%nat. rewrite Nat2N.id.
  unfold rest, question. rewrite <- (length_header (id q) k (length rrs)).
  cbn [skip_questions]. rewrite <- !app_assoc, skip_qname;
    [|done|rewrite !length_app; lia]. cbn [mbind option_bind].
  set (pre := header (id q) k (length rrs) ++ qname (name q) ++ u16_be (qtype q) ++ u16_be (qclass q)).
  replace (header (id q) k (length rrs) ++ qname (name q) ++ u16_be (qtype q) ++
    u16_be (qclass q) ++ concat (take k rrs)) with (pre ++ concat (take k rrs))
    by (unfold pre; by rewrite <- !app_assoc).
  replace (length (header (id q) k (length rrs)) + length (qname (name q)) + 4)%nat with (length pre)
    by (unfold pre, u16_be; rewrite !length_app, !length_be_bytes; lia).
  clearbody k pre. revert A. unfold rrs, answer_rrs. destruct (qtype q =? TYPE_TXT); intros A.
  - rewrite length_map in A. pose proof (read_answers_spec (take k txts) pre [] ltac:(by apply Forall_take)) as R.
    rewrite length_take, Nat.min_l in R by done.
    assert (take k (map answer_rr txts) = map answer_rr (take k txts)) as -> by apply firstn_map.
    by rewrite R.
  - cbn in A. by assert (k = 0%nat) as -> by lia.
Qed.

(** The question of a parsed query, re-encoded, has the length it had. *)
Lemma question_fits buf q : parse_query buf = Some q → (16 + name_wire_len (name q) ≤ length buf)%nat.
Proof.
  intros (h & labels & rest & -> & Lh & _ & F & _ & -> & _)%parse_query_iff.
  unfold u16_be. rewrite !length_app, !length_be_bytes, Lh. cbn [length].
  enough (name_wire_len (to_ascii_lowercase (join (lit ".") labels)) = length (wire labels) + 1)%nat
    by lia.
  destruct labels as [|l ls]; [done|]. apply list.Forall_cons in F as [[Bl _] F].
  unfold name_wire_len. rewrite bool_decide_false.
  - change x2e with x2e. rewrite length_split_on. unfold to_ascii_lowercase. rewrite length_map.
    enough (S (length (join (lit ".") (l :: ls))) = length (wire (l :: ls)))%nat by lia.
    rewrite join_cons, length_app, length_wire_cons. do 2 f_equal.
    clear. induction ls as [|m ls IH]; [done|]. cbn [flat_map]. rewrite length_wire_cons, length_app, IH.
    done.
  - rewrite join_cons. unfold to_ascii_lowercase. rewrite map_app. destruct l; [cbn in Bl; lia|done].
Qed.

(** A query the crate's own client builds, parsed. *)
Lemma parse_build_query i nm qt :
  i < 2 ^ 16 → qt < 2 ^ 16 → Forall label_ok (split_on x2e nm) →
  parse_query (build_query i nm qt)
  = Some {| id := i; name := to_ascii_lowercase nm; qtype := qt; qclass := CLASS_IN |}.
Proof.
  intros Hi Hq F. unfold build_query. rewrite encode_name_spec. apply parse_query_iff.
  exists (u16_be i ++ u16_be 0x0100 ++ u16_be 1 ++ [x00; x00; x00; x00; x00; x00]),
    (split_on x2e nm), [].
  assert (nm ≠ []) as Hn.
  { intros ->. apply list.Forall_cons in F as [[B _] _]. cbn in B. lia. }
  split.
  { unfold qname. rewrite bool_decide_false by done. cbn [qtype qclass].
    by rewrite <- !app_assoc, app_nil_r. }
  unfold u16_be at 1. rewrite !length_app, length_be_bytes. split; [done|].
  split; [|split; [done|]].
  { unfold slice. rewrite (app_assoc (u16_be i)), drop_app_length'
      by (unfold u16_be; by rewrite length_app, !length_be_bytes). by vm_compute. }
  cbn [id name qtype qclass]. split; [|by change (lit ".") with [x2e]; rewrite join_split_on].
  unfold u16_be at 1. rewrite take_app_length' by (by rewrite length_be_bytes).
  symmetry. by apply (be_val_small 2).
Qed.

(** ** Concrete messages *)

Definition host_query : Query :=
  {| id := 7; name := lit "_acme-challenge.host.test"; qtype := TYPE_TXT; qclass := CLASS_IN |}.

(** Three values of 200 characters: two fit a response. *)
Definition long_texts : list bytes := repeat (repeat x61 200) 3.

Lemma response_exact_witness :
  (∃ k, let rrs := answer_rrs host_query long_texts in
    let r := build_response host_query long_texts in
    (k ≤ length rrs)%nat ∧
    r = u16_be 7 ++ u16_be (if (k <? length rrs)%nat then 0x8600 else 0x8400) ++ u16_be 1
        ++ u16_be (N.of_nat k) ++ u16_be 0 ++ u16_be 0 ++ question host_query
        ++ concat (take k rrs) ∧
    (length r ≤ 512)%nat ∧
    ((k < length rrs)%nat → (512 < 43 + length (concat (take (S k) rrs)))%nat) ∧
    (name_ok (name host_query) → Forall text_ok long_texts →
      parse_txt_answers r = take k long_texts)) ∧
  parse_txt_answers (build_response host_query long_texts) = repeat (repeat x61 200) 2.
Proof.
  split; [|vm_compute; reflexivity].
  apply (response_exact host_query long_texts). apply Nat.leb_le. vm_compute. reflexivity.
Defined.

(** The question is echoed in lower case, not as it came. *)
Lemma question_lowercased :
  ∃ q r, parse_query (build_query 1 (lit "Host") TYPE_TXT) = Some q ∧ build_response q [] = r ∧
    drop 12 r = [x04] ++ lit "host" ++ [x00] ++ u16_be 16 ++ u16_be 1 ∧
    drop 12 (build_query 1 (lit "Host") TYPE_TXT)
      = [x04] ++ lit "Host" ++ [x00] ++ u16_be 16 ++ u16_be 1.
Proof. eexists _, _. split; [by vm_compute|]. by vm_compute. Qed.

(** A label that holds a dot comes back as two labels. *)
Lemma dotted_label_splits :
  ∃ q, parse_query (u16_be 1 ++ u16_be 0 ++ u16_be 1 ++ u16_be 0 ++ u16_be 0 ++ u16_be 0
                    ++ [x03; x61; x2e; x62; x00] ++ u16_be 16 ++ u16_be 1) = Some q ∧
    question q = [x01; x61; x01; x62; x00] ++ u16_be 16 ++ u16_be 1.
Proof. eexists _. split; by vm_compute. Qed.

End Message.

Module Store.

(** src/crates/dns/src/store.rs:32-35 [AcmeDnsStore] Every method holds the lock for its
    whole body, so a call is one step. [disk] is the content of the file at
    [persist_path], [None] when there is no path or no file. *)
Record AcmeDnsStore := {
  records : gmap bytes (list bytes);
  persist_path : bool;
  disk : option (gmap bytes (list bytes))
}.

(** src/crates/dns/src/store.rs:41-43 [AcmeDnsStore::new] *)
Definition new : AcmeDnsStore := {| records := ∅; persist_path := false; disk := None |}.

(** src/crates/dns/src/store.rs:100-123 [AcmeDnsStore::persist_locked] The file is replaced
    by a rename, so it holds the old or the new records. [io] tells whether the file
    operations succeeded up to the rename and whether the rest did. *)
Definition persist_locked (io : bool * bool) (s : AcmeDnsStore) : bool * AcmeDnsStore :=
  if negb (persist_path s) then (true, s)
  else if fst io then
    (snd io, {| records := records s; persist_path := true; disk := Some (records s) |})
  else (false, s).

(** src/crates/dns/src/store.rs:52-66 [AcmeDnsStore::open] on a readable file. *)
Definition open (io : bool * bool) (file : option (gmap bytes (list bytes)))
    : option AcmeDnsStore :=
  let s := {| records := default ∅ file; persist_path := true; disk := file |} in
  match persist_locked io s with (true, s) => Some s | (false, _) => None end.

(** src/crates/dns/src/store.rs:142-155 [AcmeDnsStore::add_txt] *)
Definition add_txt (io : bool * bool) (name value : bytes) (s : AcmeDnsStore) : AcmeDnsStore :=
  let key := to_ascii_lowercase name in
  snd (persist_locked io
    {| records := <[key := default [] (records s !! key) ++ [value]]> (records s);
       persist_path := persist_path s; disk := disk s |}).

(** src/crates/dns/src/store.rs:159-168 [AcmeDnsStore::set_txt] *)
Definition set_txt (io : bool * bool) (name value : bytes) (s : AcmeDnsStore) : AcmeDnsStore :=
  snd (persist_locked io
    {| records := <[to_ascii_lowercase name := [value]]> (records s);
       persist_path := persist_path s; disk := disk s |}).

(** src/crates/dns/src/store.rs:172-181 [AcmeDnsStore::clear] *)
Definition clear (io : bool * bool) (name : bytes) (s : AcmeDnsStore) : AcmeDnsStore :=
  snd (persist_locked io
    {| records := delete (to_ascii_lowercase name) (records s);
       persist_path := persist_path s; disk := disk s |}).

(** src/crates/dns/src/store.rs:198-205 [AcmeDnsStore::txt] *)
Definition txt (s : AcmeDnsStore) (name : bytes) : list bytes :=
  if existsb is_upper name
  then default [] (records s !! to_ascii_lowercase name)
  else default [] (records s !! name).

(** ** The records against the history of calls *)

(** A call, with how its file operations went. *)
Inductive Op :=
| Add (name value : bytes)
| Put (name value : bytes)
| Remove (name : bytes).

Definition apply (s : AcmeDnsStore) (c : Op * (bool * bool)) : AcmeDnsStore :=
  match c.1 with
  | Add n v => add_txt c.2 n v s
  | Put n v => set_txt c.2 n v s
  | Remove n => clear c.2 n s
  end.

Definition same_name (n m : bytes) : bool :=
  bool_decide (to_ascii_lowercase n = to_ascii_lowercase m).

(** The values of a name after a history: names are the same up to case. *)
Definition published (init : list bytes) (cs : list (Op * (bool * bool))) (nm : bytes)
    : list bytes :=
  foldl (λ vs c, match c.1 with
    | Add n v => if same_name n nm then vs ++ [v] else vs
    | Put n v => if same_name n nm then [v] else vs
    | Remove n => if same_name n nm then [] else vs
    end) init cs.

Lemma lower_of_lower s : existsb is_upper s = false → to_ascii_lowercase s = s.
Proof.
  unfold to_ascii_lowercase. induction s as [|b s IH]; [done|]. cbn [existsb map].
  intros [U H]%orb_false_iff. rewrite (IH H). unfold ascii_lower. by rewrite U.
Qed.

Lemma not_upper b : is_upper (ascii_lower b) = false.
Proof.
  apply negb_true_iff. exact (Hex.byte_check (λ b, negb (is_upper (ascii_lower b)))
    ltac:(by vm_compute) b).
Qed.

Lemma none_upper s : existsb is_upper (to_ascii_lowercase s) = false.
Proof.
  unfold to_ascii_lowercase. induction s as [|b s IH]; [done|].
  cbn [map existsb]. by rewrite not_upper, IH.
Qed.

Lemma txt_key s nm : txt s nm = default [] (records s !! to_ascii_lowercase nm).
Proof.
  unfold txt. destruct (existsb is_upper nm) eqn:E; [done|]. by rewrite (lower_of_lower nm).
Qed.

Lemma txt_lower s nm : txt s (to_ascii_lowercase nm) = txt s nm.
Proof. rewrite !txt_key. by rewrite (lower_of_lower (to_ascii_lowercase nm)) by apply none_upper. Qed.

Lemma persist_facts io s :
  let s' := snd (persist_locked io s) in
  records s' = records s ∧ persist_path s' = persist_path s ∧
  disk s' = if persist_path s && fst io then Some (records s) else disk s.
Proof.
  unfold persist_locked. destruct (persist_path s) eqn:P; cbn; [|done].
  by destruct (fst io); cbn.
Qed.

Lemma apply_facts s c :
  persist_path (apply s c) = persist_path s ∧
  disk (apply s c) = (if persist_path s && fst c.2 then Some (records (apply s c)) else disk s) ∧
  ∀ nm, default [] (records (apply s c) !! to_ascii_lowercase nm)
        = published (default [] (records s !! to_ascii_lowercase nm)) [c] nm.
Proof.
  destruct c as [[n v|n v|n] io]; cbn [apply fst snd];
    unfold add_txt, set_txt, clear, published, same_name; cbn [foldl fst];
    match goal with |- context [persist_locked io ?t] =>
      destruct (persist_facts io t) as (-> & -> & ->) end; cbn [records persist_path disk];
    (split; [done|]); (split; [done|]); intros nm; case_bool_decide as E;
    first [rewrite E, lookup_insert_eq|rewrite lookup_insert_ne by done
          |rewrite E, lookup_delete_eq|rewrite lookup_delete_ne by done]; done.
Qed.

(** A store answers a name with the values its history of calls published for it, names
    compared without case; its file holds a whole state of the past, the one after the last
    call whose file was renamed in place, so reopening the file gives the answers of that
    state, and of the present one when the last call's write succeeded. *)
Theorem store_history io0 file cs s0 :
  open io0 file = Some s0 →
  let s := foldl apply s0 cs in
  (∀ nm, txt s nm = published (default [] (default ∅ file !! to_ascii_lowercase nm)) cs nm) ∧
  (∃ past lost, cs = past ++ lost ∧ Forall (λ c, fst c.2 = false) lost ∧
     disk s = Some (records (foldl apply s0 past)) ∧
     ∀ s', open (true, true) (disk s) = Some s' →
       ∀ nm, txt s' nm = txt (foldl apply s0 past) nm).
Proof.
  intros O. unfold open, persist_locked in O. cbn [persist_path negb] in O.
  destruct io0 as [[] []]; cbn in O; try done. injection O as <-.
  set (s0 := {| records := _; persist_path := _; disk := _ |}). cbn zeta.
  assert (persist_path (foldl apply s0 cs) = true ∧
    (∀ nm, default [] (records (foldl apply s0 cs) !! to_ascii_lowercase nm)
           = published (default [] (default ∅ file !! to_ascii_lowercase nm)) cs nm) ∧
    ∃ past lost, cs = past ++ lost ∧ Forall (λ c, fst c.2 = false) lost ∧
      disk (foldl apply s0 cs) = Some (records (foldl apply s0 past))) as (_ & A & B).
  { induction cs as [|c cs (P & A & past & lost & -> & F & D)] using rev_ind.
    - split; [done|]. split; [done|]. by exists [], [].
    - rewrite foldl_snoc. destruct (apply_facts (foldl apply s0 (past ++ lost)) c) as (P' & D' & R').
      rewrite P', P in *. split; [done|]. split.
      + intros nm. rewrite R', A. unfold published. symmetry. apply foldl_app.
      + rewrite D'. cbn [andb]. destruct (fst c.2) eqn:Ec.
        * exists ((past ++ lost) ++ [c]), []. rewrite app_nil_r, foldl_snoc. by split_and!.
        * exists past, (lost ++ [c]). rewrite app_assoc. split; [done|]. split; [|done].
          apply Forall_app. split; [done|]. by constructor. }
  split; [intros nm; by rewrite txt_key|]. destruct B as (past & lost & E & F & D).
  exists past, lost. split; [done|]. split; [done|]. split; [done|]. intros s'. rewrite D.
  intros [= <-] nm. by rewrite !txt_key.
Qed.

Definition calls : list (Op * (bool * bool)) :=
  [(Add (lit "_acme-challenge.Host") (lit "a"), (true, true));
   (Add (lit "_acme-challenge.host") (lit "b"), (true, false));
   (Put (lit "_acme-challenge.x") (lit "c"), (false, false))].

Lemma store_history_witness :
  let s0 := {| records := ∅; persist_path := true; disk := Some ∅ |} in
  let s := foldl apply s0 calls in
  (∀ nm, txt s nm = published (default [] ((∅ : gmap bytes (list bytes)) !! to_ascii_lowercase nm)) calls nm) ∧
  (∃ past lost, calls = past ++ lost ∧ Forall (λ c, fst c.2 = false) lost ∧
     disk s = Some (records (foldl apply s0 past)) ∧
     ∀ s', open (true, true) (disk s) = Some s' →
       ∀ nm, txt s' nm = txt (foldl apply s0 past) nm).
Proof. apply (store_history (true, true) None calls). reflexivity. Defined.

End Store.

Module Server.

(** src/crates/dns/src/server.rs:38-42 [respond] *)
Definition respond (store : Store.AcmeDnsStore) (query : bytes) : option bytes :=
  q ← Message.parse_query query;
  let txts := Store.txt store (Message.name q) in
  Some (Message.build_response q txts).

(** src/crates/dns/src/server.rs:65-67 [udp_loop] The datagram sent back for the first
    512 bytes of a received one. *)
Definition udp_round (store : Store.AcmeDnsStore) (datagram : bytes) : list bytes :=
  match respond store (take 512 datagram) with Some resp => [resp] | None => [] end.

(** src/crates/dns/src/server.rs:34-34 [MAX_TCP_MESSAGE_BYTES] *)
Definition MAX_TCP_MESSAGE_BYTES : N := 512.

(** How one TCP connection ends. *)
Inductive TcpEnd := Closed | TooLong | ReadFailed.

(** src/crates/dns/src/server.rs:106-123 [handle_tcp] on what the client sends before it
    stalls or closes: what is written back, and how the handler ends. *)
Definition handle_tcp (store : Store.AcmeDnsStore) (stream : bytes) : bytes * TcpEnd :=
  match get_range stream 0 2 with
  | None => ([], ReadFailed)
  | Some lenb =>
    let len := be_val lenb in
    if MAX_TCP_MESSAGE_BYTES <? len then ([], TooLong)
    else
      match get_range stream 2 (2 + N.to_nat len) with
      | None => ([], ReadFailed)
      | Some msg =>
        match respond store msg with
        | Some resp => (u16_be (blen resp mod 2 ^ 16) ++ resp, Closed)
        | None => ([], Closed)
        end
      end
  end.

(** From the client's question to the client's answer. A TXT query the crate's client
    builds for a published name, in any case, sent to the TCP responder gets one framed
    response of at most 512 bytes, whatever the connection carries after it; parsing it
    gives the store's values for the name, in order: all of them, unless the next one
    would not fit the 512 bytes. *)
Theorem challenge_resolves s i nm rest :
  i < 2 ^ 16 → Forall Message.label_ok (split_on x2e nm) → (length nm ≤ 400)%nat →
  Forall Message.text_ok (Store.txt s nm) →
  let query := Message.build_query i nm Message.TYPE_TXT in
  ∃ r k, respond s query = Some r ∧ (length r ≤ 512)%nat ∧
    handle_tcp s (u16_be (blen query) ++ query ++ rest) = (u16_be (blen r) ++ r, Closed) ∧
    Message.parse_txt_answers r = take k (Store.txt s nm) ∧
    (k ≤ length (Store.txt s nm))%nat ∧
    ((k < length (Store.txt s nm))%nat → (512 < 16 + Message.name_wire_len nm
       + length (concat (map Message.answer_rr (take (S k) (Store.txt s nm)))))%nat).
Proof.
  intros Hi F L T query. pose proof (Message.parse_build_query i nm Message.TYPE_TXT Hi
    ltac:(done) F) as P. fold query in P.
  set (q := {| Message.id := i; Message.name := to_ascii_lowercase nm;
               Message.qtype := Message.TYPE_TXT; Message.qclass := Message.CLASS_IN |}) in P.
  assert (Message.name_wire_len (to_ascii_lowercase nm) = Message.name_wire_len nm ∧
    Message.name_wire_len nm = length nm + 2)%nat as [W1 W2].
  { unfold Message.name_wire_len. destruct nm as [|b nm].
    { apply list.Forall_cons in F as [[B _] _]. cbn in B. lia. }
    rewrite !bool_decide_false by done. rewrite !length_split_on. unfold to_ascii_lowercase.
    rewrite length_map. lia. }
  destruct (Message.response_exact q (Store.txt s nm)) as (k & K & Shape & B & M & R).
  { cbn [Message.name q]. rewrite W1, W2. lia. }
  exists (Message.build_response q (Store.txt s nm)), k.
  assert (respond s query = Some (Message.build_response q (Store.txt s nm))) as Resp.
  { unfold respond. rewrite P. cbn [mbind option_bind]. cbn [Message.name q]. by rewrite Store.txt_lower. }
  split; [done|]. split; [done|].
  assert (length query ≤ 500)%nat as Lq.
  { unfold query, Message.build_query, u16_be. rewrite Message.encode_name_spec.
    rewrite !length_app, !length_be_bytes, Message.length_qname, W2. cbn. lia. }
  assert (blen query < 2 ^ 16 ∧ blen query ≤ 512) as [Bq Bq']
    by (unfold blen; change (2 ^ 16) with 65536; lia).
  split.
  { unfold handle_tcp.
    assert (get_range (u16_be (blen query) ++ query ++ rest) 0 2 = Some (u16_be (blen query))) as ->.
    { apply (get_range_app []); [done|]. unfold u16_be. by rewrite length_be_bytes. }
    cbn zeta. assert (be_val (u16_be (blen query)) = blen query) as ->
      by (by apply (be_val_small 2)).
    change MAX_TCP_MESSAGE_BYTES with 512. destruct (N.ltb_spec 512 (blen query)); [lia|].
    rewrite to_nat_blen, get_range_app by (unfold u16_be; by rewrite ?length_be_bytes).
    rewrite Resp. rewrite N.mod_small; [done|]. unfold blen. change (2 ^ 16) with 65536. lia. }
  unfold Message.answer_rrs in K, M. change (Message.qtype q =? Message.TYPE_TXT) with true in *.
  cbv iota in K, M, R. rewrite length_map in K, M. cbn [Message.name q] in M. rewrite W1 in M.
  split; [|split; [done|]].
  - apply R; [|done]. right. cbn [Message.name q]. rewrite split_on_lower.
    apply Forall_map. eapply list.Forall_impl; [exact F|]. intros l [Hl _]. cbn beta.
    unfold to_ascii_lowercase. by rewrite length_map.
  - intros H. specialize (M H). rewrite <- firstn_map. exact M.
Qed.

Definition two_tokens : Store.AcmeDnsStore :=
  foldl Store.apply Store.new
    [(Store.Add (lit "_acme-challenge.host.test") (lit "tok-1"), (true, true));
     (Store.Add (lit "_acme-challenge.HOST.test") (lit "tok-2"), (true, true))].

Lemma challenge_resolves_witness :
  let nm := lit "_ACME-challenge.host.test" in
  let query := Message.build_query 0x1234 nm Message.TYPE_TXT in
  (∃ r k, respond two_tokens query = Some r ∧ (length r ≤ 512)%nat ∧
    handle_tcp two_tokens (u16_be (blen query) ++ query ++ []) = (u16_be (blen r) ++ r, Closed) ∧
    Message.parse_txt_answers r = take k (Store.txt two_tokens nm) ∧
    (k ≤ length (Store.txt two_tokens nm))%nat ∧
    ((k < length (Store.txt two_tokens nm))%nat → (512 < 16 + Message.name_wire_len nm
       + length (concat (map Message.answer_rr (take (S k) (Store.txt two_tokens nm)))))%nat)) ∧
  Store.txt two_tokens nm = [lit "tok-1"; lit "tok-2"].
Proof.
  split; [|vm_compute; reflexivity].
  apply (challenge_resolves two_tokens 0x1234 (lit "_ACME-challenge.host.test") []).
  - reflexivity.
  - apply (bool_decide_unpack _). vm_compute. exact I.
  - apply Nat.leb_le. vm_compute. reflexivity.
  - apply (bool_decide_unpack _). vm_compute. exact I.
Defined.

End Server.
