(* ===== verification/FrontDoor.v ===== *)
(** * The edge's TLS front door

    [crates/edge/src/sni.rs] ([Sni]): the ClientHello parser and the classification of
    connections on port 443; [crates/edge/src/ja4.rs] ([Ja4]): the passive fingerprint of
    the same bytes; [crates/edge/src/log_throttle.rs] ([LogThrottle]): the bounded log of
    repeating events. *)

From Stdlib Require Import HexadecimalString.
From S2P Require Import Prelude RustStd Codec.

(** [u16::from_be_bytes([b[i], b[i + 1]])] where the code has checked the bound. *)
Definition index_u16 (b : bytes) (i : nat) : N := be_val (slice i (i + 2) b).

Module Sni.

(** src/crates/edge/src/sni.rs:15-15 [CT_EDGE_ALPN] *)
Definition CT_EDGE_ALPN : bytes := lit "ct-edge".

(** src/crates/edge/src/sni.rs:22-22 [CT_EDGE_CHANNEL_ALPN] *)
Definition CT_EDGE_CHANNEL_ALPN : bytes := lit "ct-edge-channel".

(** src/crates/edge/src/sni.rs:32-32 [CT_EDGE_CHANNEL_KA_ALPN] *)
Definition CT_EDGE_CHANNEL_KA_ALPN : bytes := lit "ct-edge-channel-ka".

(** src/crates/edge/src/sni.rs:40-40 [CT_EDGE_RELAY_ALPN] *)
Definition CT_EDGE_RELAY_ALPN : bytes := lit "ct-edge-relay".

(** src/crates/edge/src/sni.rs:68-68 [CT_EDGE_CHANNEL_FALLBACK_SNI] *)
Definition CT_EDGE_CHANNEL_FALLBACK_SNI : bytes := lit "edge-cdn.invalid".

(** src/crates/edge/src/sni.rs:81-93 [client_hello_body] *)
Definition client_hello_body (buf : bytes) : option bytes :=
  if (length buf <? 5)%nat || negb (bool_decide (head buf = Some x16)) then None
  else
    let rec_len := N.to_nat (index_u16 buf 3) in
    hs ← get_range buf 5 (5 + rec_len);
    if (length hs <? 4)%nat || negb (bool_decide (head hs = Some x01)) then None
    else Some (drop 4 hs).

(** src/crates/edge/src/sni.rs:97-114 [client_hello_extensions] *)
Definition client_hello_extensions (buf : bytes) : option bytes :=
  body ← client_hello_body buf;
  let p := 34%nat in
  sid ← body !! p;
  let p := (p + (1 + N.to_nat (N_of_byte sid)))%nat in
  cs ← get_u16 body p;
  let p := (p + (2 + N.to_nat cs))%nat in
  cm ← body !! p;
  let p := (p + (1 + N.to_nat (N_of_byte cm)))%nat in
  ext_total ← get_u16 body p;
  let p := (p + 2)%nat in
  get_range body p (p + N.to_nat ext_total).

(** src/crates/edge/src/sni.rs:123-139 [client_hello_ja4_fields] *)
Definition client_hello_ja4_fields (buf : bytes) : option (N * bytes * bytes) :=
  body ← client_hello_body buf;
  version ← get_u16 body 0;
  let p := 34%nat in
  sid ← body !! p;
  let p := (p + (1 + N.to_nat (N_of_byte sid)))%nat in
  cs_len ← get_u16 body p;
  let p := (p + 2)%nat in
  cipher_suites ← get_range body p (p + N.to_nat cs_len);
  let p := (p + N.to_nat cs_len)%nat in
  cm ← body !! p;
  let p := (p + (1 + N.to_nat (N_of_byte cm)))%nat in
  ext_total ← get_u16 body p;
  let p := (p + 2)%nat in
  extensions ← get_range body p (p + N.to_nat ext_total);
  Some (version, cipher_suites, extensions).

(** src/crates/edge/src/sni.rs:147-159 [find_extension] The loop; [q] grows by at least 4
    in every round. *)
Fixpoint find_loop {T} (fuel : nat) (exts : bytes) (want : N) (f : bytes → option T) (q : nat)
    : option T :=
  match fuel with
  | O => None
  | S fuel =>
    if (q + 4 <=? length exts)%nat then
      let etype := index_u16 exts q in
      let elen := N.to_nat (index_u16 exts (q + 2)) in
      edata ← get_range exts (q + 4) (q + 4 + elen);
      if etype =? want then f edata
      else find_loop fuel exts want f (q + (4 + elen))
    else None
  end.

(** src/crates/edge/src/sni.rs:147-159 [find_extension] *)
Definition find_extension {T} (exts : bytes) (want : N) (f : bytes → option T) : option T :=
  find_loop (S (length exts)) exts want f 0.

(** src/crates/edge/src/sni.rs:170-180 [each_extension] The loop. The closure's calls are
    the list of what it is called with. *)
Fixpoint each_loop (fuel : nat) (exts : bytes) (q : nat) : list (N * bytes) * option () :=
  match fuel with
  | O => ([], None)
  | S fuel =>
    if (q + 4 <=? length exts)%nat then
      let etype := index_u16 exts q in
      let elen := N.to_nat (index_u16 exts (q + 2)) in
      match get_range exts (q + 4) (q + 4 + elen) with
      | None => ([], None)
      | Some edata =>
        let '(calls, r) := each_loop fuel exts (q + (4 + elen)) in
        ((etype, edata) :: calls, r)
      end
    else ([], Some ())
  end.

(** src/crates/edge/src/sni.rs:170-180 [each_extension] *)
Definition each_extension (exts : bytes) : list (N * bytes) * option () :=
  each_loop (S (length exts)) exts 0.

(** A list with its own 16-bit length, as the extensions hold it; what follows it in the
    extension is ignored. *)
(** src/crates/edge/src/sni.rs:192-196 [sni_from_extensions] *)
Definition prefixed_list (edata : bytes) : option bytes :=
  if (length edata <? 2)%nat then None
  else
    let list_len := N.to_nat (index_u16 edata 0) in
    get_range edata 2 (2 + list_len).

(** src/crates/edge/src/sni.rs:188-204 [sni_from_extensions] *)
Definition sni_from_extensions (exts : bytes) : option bytes :=
  find_extension exts 0x0000 (λ edata,
    list ← prefixed_list edata;
    if (length list <? 3)%nat || negb (bool_decide (head list = Some x00)) then None
    else
      let name_len := N.to_nat (index_u16 list 1) in
      name ← get_range list 3 (3 + name_len);
      from_utf8 name).

(** src/crates/edge/src/sni.rs:213-216 [peek_sni] *)
Definition peek_sni (buf : bytes) : option bytes :=
  exts ← client_hello_extensions buf;
  to_ascii_lowercase <$> sni_from_extensions exts.

(** src/crates/edge/src/sni.rs:233-242 [alpn_extension_has] The loop. *)
Fixpoint has_loop (fuel : nat) (protocols want : bytes) (i : nat) : option bool :=
  match fuel with
  | O => None
  | S fuel =>
    if (i <? length protocols)%nat then
      l ← protocols !! i;
      let l := N.to_nat (N_of_byte l) in
      name ← get_range protocols (i + 1) (i + 1 + l);
      if bool_decide (name = want) then Some true
      else has_loop fuel protocols want (i + (1 + l))
    else Some false
  end.

(** src/crates/edge/src/sni.rs:225-245 [alpn_extension_has] *)
Definition alpn_extension_has (exts want : bytes) : bool :=
  default false (find_extension exts 0x0010 (λ edata,
    list ← prefixed_list edata;
    has_loop (S (length list)) list want 0)).

(** src/crates/edge/src/sni.rs:265-275 [peek_alpn] The loop. *)
Fixpoint names_loop (fuel : nat) (protocols : bytes) (i : nat) (out : list bytes)
    : option (list bytes) :=
  match fuel with
  | O => None
  | S fuel =>
    if (i <? length protocols)%nat then
      l ← protocols !! i;
      let l := N.to_nat (N_of_byte l) in
      name ← get_range protocols (i + 1) (i + 1 + l);
      let out := match from_utf8 name with Some s => out ++ [s] | None => out end in
      names_loop fuel protocols (i + (1 + l)) out
    else Some out
  end.

(** src/crates/edge/src/sni.rs:253-278 [peek_alpn] *)
Definition peek_alpn (buf : bytes) : list bytes :=
  match client_hello_extensions buf with
  | None => []
  | Some exts =>
    default [] (find_extension exts 0x0010 (λ edata,
      list ← prefixed_list edata;
      names_loop (S (length list)) list 0 []))
  end.

(** src/crates/edge/src/sni.rs:286-299 [alpn_first_value] *)
Definition alpn_first_value (exts : bytes) : option bytes :=
  find_extension exts 0x0010 (λ edata,
    list ← prefixed_list edata;
    l ← head list;
    get_range list 1 (1 + N.to_nat (N_of_byte l))).

(** src/crates/edge/src/sni.rs:303-330 [FrontDoorRoute] *)
Inductive FrontDoorRoute :=
| EdgeRelay
| ChannelBroker
| RelayGate
| Proxy (host : bytes)
| BrowserTunnel (host : bytes)
| Reject.

Definition eq_ignore_ascii_case (a b : bytes) : bool :=
  bool_decide (to_ascii_lowercase a = to_ascii_lowercase b).

(** src/crates/edge/src/sni.rs:361-404 [classify_front_door] *)
Definition classify_front_door (hello : bytes) (is_terminate_host : bytes → bool)
    (default_host : option bytes) : FrontDoorRoute :=
  let exts := client_hello_extensions hello in
  let alpn_has want := default false ((λ e, alpn_extension_has e want) <$> exts) in
  if alpn_has CT_EDGE_ALPN then EdgeRelay
  else if alpn_has CT_EDGE_CHANNEL_ALPN || alpn_has CT_EDGE_CHANNEL_KA_ALPN then ChannelBroker
  else if alpn_has CT_EDGE_RELAY_ALPN then RelayGate
  else
    match exts ≫= sni_from_extensions with
    | Some sni =>
      if eq_ignore_ascii_case sni CT_EDGE_CHANNEL_FALLBACK_SNI then ChannelBroker
      else if is_terminate_host sni then Proxy (to_ascii_lowercase sni)
      else BrowserTunnel (to_ascii_lowercase sni)
    | None =>
      if alpn_has (lit "http/1.1") || alpn_has (lit "h2") then
        match default_host with
        | Some d => Proxy (to_ascii_lowercase d)
        | None => Reject
        end
      else Reject
    end.

(** src/crates/edge/src/sni.rs:421-435 [read_client_hello_bytes] on the bytes the peer sends
    before it stops: what is buffered, and what stays on the stream. *)
Definition read_client_hello_bytes (stream : bytes) : option (bytes * bytes) :=
  buf ← get_range stream 0 5;
  if negb (bool_decide (head buf = Some x16)) then None
  else
    let rec_len := N.to_nat (index_u16 buf 3) in
    if (rec_len =? 0)%nat || (N.to_nat 16384 <? rec_len)%nat then None
    else
      record ← get_range stream 5 (5 + rec_len);
      Some (buf ++ record, drop (5 + rec_len) stream).

(** src/crates/edge/src/sni.rs:410-414 [read_client_hello] *)
Definition read_client_hello (stream : bytes) : option (bytes * bytes) :=
  '(buf, _) ← read_client_hello_bytes stream;
  sni ← peek_sni buf;
  Some (buf, sni).

(** ** The grammar of a ClientHello *)

Record Hello := {
  version : bytes; random : bytes; session : bytes; ciphers : bytes; compression : bytes;
  extensions : bytes
}.

Definition hello_ok (h : Hello) : Prop :=
  length (version h) = 2%nat ∧ length (random h) = 32%nat ∧ blen (session h) < 256 ∧
  blen (ciphers h) < 2 ^ 16 ∧ blen (compression h) < 256 ∧ blen (extensions h) < 2 ^ 16.

Definition body_of (h : Hello) : bytes :=
  version h ++ random h ++ byte_of_N (blen (session h)) :: session h
    ++ u16_be (blen (ciphers h)) ++ ciphers h
    ++ byte_of_N (blen (compression h)) :: compression h
    ++ u16_be (blen (extensions h)) ++ extensions h.

(** The record around a handshake body: the record version, the lengths, and bytes after
    the record are free. *)
Definition record_of (version handshake_len body rest : bytes) : bytes :=
  x16 :: version ++ u16_be (4 + blen body) ++ x01 :: handshake_len ++ body ++ rest.

Lemma index_u16_app pre v rest i :
  length pre = i → v < 2 ^ 16 → index_u16 (pre ++ u16_be v ++ rest) i = v.
Proof.
  intros <- B. unfold index_u16.
  rewrite slice_app by (unfold u16_be; rewrite ?length_be_bytes; lia). by apply (be_val_small 2).
Qed.

Lemma two_bytes b : length b = 2%nat → b = u16_be (be_val b) ∧ be_val b < 2 ^ 16.
Proof.
  intros L. pose proof (be_val_bound b) as B. rewrite L in B. split; [|exact B].
  unfold u16_be. rewrite <- L. symmetry. apply be_bytes_be_val.
Qed.

Lemma client_hello_body_iff buf body :
  client_hello_body buf = Some body ↔
  ∃ v hl rest, length v = 2%nat ∧ length hl = 3%nat ∧ 4 + blen body < 2 ^ 16 ∧
    buf = record_of v hl body rest.
Proof.
  unfold client_hello_body. split.
  - destruct (Nat.ltb_spec (length buf) 5) as [|L]; cbn [orb]; [done|].
    destruct buf as [|b0 [|b1 [|b2 [|b3 [|b4 buf]]]]]; cbn [length] in L; try lia.
    destruct (decide (b0 = x16)) as [->|]; [|by rewrite bool_decide_false by naive_solver].
    rewrite bool_decide_true by done. cbn [negb].
    destruct (two_bytes [b3; b4] eq_refl) as [E16 B16].
    change (index_u16 _ 3) with (be_val [b3; b4]).
    intros (hs & G & E)%bind_Some. apply get_range_Some in G as (pre & rest & Eb & Lp & Lh).
    change (x16 :: b1 :: b2 :: b3 :: b4 :: buf) with ([x16; b1; b2; b3; b4] ++ buf) in Eb.
    apply app_inj_l in Eb as [<- ->]; [|by rewrite Lp].
    destruct (Nat.ltb_spec (length hs) 4) as [|L4]; cbn [orb] in E; [done|].
    destruct hs as [|h0 [|h1 [|h2 [|h3 body']]]]; cbn [length] in L4; try lia.
    destruct (decide (h0 = x01)) as [->|]; [|by rewrite bool_decide_false in E by naive_solver].
    rewrite bool_decide_true in E by done. cbn [negb drop] in E. rewrite drop_0 in E. injection E as <-.
    assert (be_val [b3; b4] = 4 + blen body') as Ev by (unfold blen; cbn [length] in Lh; lia).
    exists [b1; b2], [h1; h2; h3], rest. split; [done|]. split; [done|]. unfold record_of.
        rewrite <- Ev. split; [done|]. rewrite <- E16. done.
  - intros (v & hl & rest & Lv & Lh & B & ->). unfold record_of.
    destruct v as [|v1 [|v2 [|]]]; try done. destruct hl as [|h1 [|h2 [|h3 [|]]]]; try done.
    assert (length (u16_be (4 + blen body)) = 2%nat) as L2 by (unfold u16_be; by rewrite length_be_bytes).
    destruct (Nat.ltb_spec (length (x16 :: [v1; v2] ++ u16_be (4 + blen body) ++ x01 :: [h1; h2; h3]
      ++ body ++ rest)) 5) as [L|_].
    { cbn [length app] in L. rewrite length_app in L. lia. }
    cbn [orb]. rewrite bool_decide_true by done. cbn [negb].
    change (x16 :: [v1; v2] ++ ?x) with ([x16; v1; v2] ++ x).
    rewrite index_u16_app by done. rewrite (app_assoc [x16; v1; v2]).
    replace (x01 :: [h1; h2; h3] ++ body ++ rest) with ((x01 :: h1 :: h2 :: h3 :: body) ++ rest) by done.
    rewrite get_range_app; [|rewrite length_app; cbn; lia|unfold blen; cbn [length]; lia].
    cbn [mbind option_bind length]. rewrite bool_decide_true by done. by cbn.
Qed.

(** The two walks over the handshake body agree. *)
Lemma client_hello_extensions_fields buf :
  client_hello_extensions buf = snd <$> client_hello_ja4_fields buf.
Proof.
  unfold client_hello_extensions, client_hello_ja4_fields.
  destruct (client_hello_body buf) as [body|]; cbn [mbind option_bind]; [|done].
  destruct (get_u16 body 0) as [v|] eqn:E0; cbn [mbind option_bind].
  2: { destruct (body !! 34%nat) as [sid|] eqn:E; [|done]. exfalso.
       apply lookup_lt_Some in E. unfold get_u16 in E0.
       destruct (lookup_lt_is_Some_2 body 0 ltac:(lia)) as [a Ea].
       destruct (lookup_lt_is_Some_2 body 1 ltac:(lia)) as [b Eb].
       rewrite Ea in E0. cbn in E0. by rewrite Eb in E0. }
  destruct (body !! 34%nat) as [sid|]; cbn [mbind option_bind]; [|done].
  set (p := (34 + (1 + N.to_nat (N_of_byte sid)))%nat).
  destruct (get_u16 body p) as [cs|]; cbn [mbind option_bind]; [|done].
  rewrite Nat.add_assoc. destruct (get_range body (p + 2) _) as [c|] eqn:Ec; cbn [mbind option_bind].
  2: { destruct (body !! (p + 2 + N.to_nat cs)%nat) as [cm|] eqn:E; [|done]. exfalso.
       apply lookup_lt_Some in E. revert Ec. unfold get_range.
       destruct (Nat.leb_spec (p + 2) (p + 2 + N.to_nat cs)); [|lia].
       destruct (Nat.leb_spec (p + 2 + N.to_nat cs) (length body)); [done|lia]. }
  destruct (body !! (p + 2 + N.to_nat cs)%nat) as [cm|]; cbn [mbind option_bind]; [|done].
  clear E0. destruct (get_u16 body _) as [x|]; cbn [mbind option_bind]; [|done].
  clear Ec. by destruct (get_range body _ _).
Qed.

(** From one read of a buffer to the next, [n] bytes after it. *)
Lemma step_over (b p1 x r1 p2 y : bytes) n :
  b = p1 ++ x ++ r1 → b = p2 ++ y → length p2 = (length p1 + length x + n)%nat →
  ∃ z, p2 = p1 ++ x ++ z ∧ length z = n.
Proof.
  intros -> E L. rewrite app_assoc in E.
  destruct (split_prefix _ _ _ _ E) as (z & -> & _); [rewrite length_app; lia|].
  exists z. rewrite !length_app in L. rewrite <- app_assoc. split; [done|lia].
Qed.

(** The reads of the walk, from the handshake body on. *)
Definition body_fields (body : bytes) : option (N * bytes * bytes) :=
  version ← get_u16 body 0;
  sid ← body !! 34%nat;
  let p := (34 + (1 + N.to_nat (N_of_byte sid)))%nat in
  cs_len ← get_u16 body p;
  cipher_suites ← get_range body (p + 2) (p + 2 + N.to_nat cs_len);
  let p := (p + 2 + N.to_nat cs_len)%nat in
  cm ← body !! p;
  let p := (p + (1 + N.to_nat (N_of_byte cm)))%nat in
  ext_total ← get_u16 body p;
  extensions ← get_range body (p + 2) (p + 2 + N.to_nat ext_total);
  Some (version, cipher_suites, extensions).

Lemma length_u16 v : length (u16_be v) = 2%nat.
Proof. apply length_be_bytes. Qed.

Lemma body_fields_sound body v cs exts :
  body_fields body = Some (v, cs, exts) →
  ∃ h tail, hello_ok h ∧ body = body_of h ++ tail ∧
    v = be_val (version h) ∧ cs = ciphers h ∧ exts = extensions h.
Proof.
  intros (ver & E0 & H)%bind_Some. apply bind_Some in H as (sid & E1 & H).
  apply bind_Some in H as (csl & E2 & H). apply bind_Some in H as (c & E3 & H).
  apply bind_Some in H as (cm & E4 & H). apply bind_Some in H as (el & E5 & H).
  apply bind_Some in H as (e & E6 & [= <- <- <-]).
  apply get_u16_Some in E0 as (p0 & r0 & Q0 & L0 & B0).
  apply lookup_Some_app in E1 as (p1 & r1 & Q1 & L1). change (sid :: r1) with ([sid] ++ r1) in Q1.
  apply get_u16_Some in E2 as (p2 & r2 & Q2 & L2 & B2).
  apply get_range_Some in E3 as (p3 & r3 & Q3 & L3 & L3').
  apply lookup_Some_app in E4 as (p4 & r4 & Q4 & L4). change (cm :: r4) with ([cm] ++ r4) in Q4.
  apply get_u16_Some in E5 as (p5 & r5 & Q5 & L5 & B5).
  apply get_range_Some in E6 as (p6 & r6 & Q6 & L6 & L6').
  destruct (step_over _ _ _ _ _ _ 32 Q0 Q1) as (rnd & -> & Lr); [rewrite length_u16; lia|].
  destruct (step_over _ _ _ _ _ _ (N.to_nat (N_of_byte sid)) Q1 Q2) as (ses & -> & Ls);
    [cbn [length]; lia|].
  destruct (step_over _ _ _ _ _ _ 0 Q2 Q3) as (z3 & -> & Z3); [rewrite length_u16; lia|].
  destruct (step_over _ _ _ _ _ _ 0 Q3 Q4) as (z4 & -> & Z4); [lia|].
  destruct (step_over _ _ _ _ _ _ (N.to_nat (N_of_byte cm)) Q4 Q5) as (cmp & -> & Lc);
    [cbn [length]; lia|].
  destruct (step_over _ _ _ _ _ _ 0 Q5 Q6) as (z6 & -> & Z6); [rewrite length_u16; lia|].
  destruct p0, z3, z4, z6; try discriminate.
  assert (blen ses = N_of_byte sid ∧ blen c = csl ∧ blen cmp = N_of_byte cm ∧ blen e = el)
    as (Es & Ec & Em & Ee) by (unfold blen; lia).
  exists {| version := u16_be ver; random := rnd; session := ses; ciphers := c;
            compression := cmp; extensions := e |}, r6.
  unfold hello_ok, body_of. cbn [version random session ciphers compression extensions].
  rewrite Es, Ec, Em, Ee, !byte_of_N_of_byte, length_u16. split; [|split].
  - repeat split; try done; apply N_of_byte_bound.
  - rewrite Q6. repeat (rewrite <- app_assoc; cbn [app]). done.
  - split; [|done]. symmetry. by apply (be_val_small 2).
Qed.

Lemma body_fields_complete h tail :
  hello_ok h → body_fields (body_of h ++ tail) = Some (be_val (version h), ciphers h, extensions h).
Proof.
  intros (Hv & Hr & Hs & Hc & Hm & He). unfold body_fields.
  unfold body_of.
  destruct (two_bytes (version h) Hv) as [Ev Bv].
  assert (length (u16_be (blen (ciphers h))) = 2%nat ∧ length (u16_be (blen (extensions h))) = 2%nat)
    as [U1 U2] by (unfold u16_be; by rewrite !length_be_bytes).
  assert (N_of_byte (byte_of_N (blen (session h))) = blen (session h) ∧
    N_of_byte (byte_of_N (blen (compression h))) = blen (compression h)) as [Ns Nm].
  { rewrite !N_of_byte_of_N, !N.mod_small; done. }
  set (V := version h) in *. set (R := random h) in *. set (S := session h) in *.
  set (C := ciphers h) in *. set (M := compression h) in *. set (X := extensions h) in *.
  set (body := (V ++ _) ++ tail).
  assert (get_u16 body 0 = Some (be_val V)) as ->.
  { change 0%nat with (length (@nil byte)).
    replace body with ([] ++ body) by done. apply get_u16_iff. split; [done|].
    unfold body. rewrite <- Ev. rewrite <- app_assoc. eauto. }
  cbn [mbind option_bind].
  assert (body = (V ++ R) ++ byte_of_N (blen S) :: S ++ u16_be (blen C) ++ C ++
    byte_of_N (blen M) :: M ++ u16_be (blen X) ++ X ++ tail) as B1.
  { unfold body. repeat (rewrite <- app_assoc; cbn [app]). done. }
  assert (length (V ++ R) = 34%nat) as L34 by (rewrite length_app; lia).
  assert (body !! 34%nat = Some (byte_of_N (blen S))) as ->.
  { rewrite B1. rewrite <- L34. apply list_lookup_middle. done. }
  cbn [mbind option_bind]. rewrite Ns, to_nat_blen.
  assert (body = ((V ++ R) ++ byte_of_N (blen S) :: S) ++ u16_be (blen C) ++ C ++
    byte_of_N (blen M) :: M ++ u16_be (blen X) ++ X ++ tail) as B2.
  { rewrite B1. repeat (rewrite <- app_assoc; cbn [app]). done. }
  assert (get_u16 body (34 + (1 + length S)) = Some (blen C)) as ->.
  { rewrite B2. replace (34 + (1 + length S))%nat
      with (length ((V ++ R) ++ byte_of_N (blen S) :: S)) by (rewrite length_app; cbn; lia).
    apply get_u16_iff. eauto. }
  cbn [mbind option_bind]. rewrite to_nat_blen.
  rewrite app_assoc in B2.
  assert (get_range body (34 + (1 + length S) + 2) (34 + (1 + length S) + 2 + length C) = Some C) as ->.
  { rewrite B2. apply get_range_app; [|done]. rewrite !length_app. cbn [length]. rewrite length_app in L34. lia. }
  cbn [mbind option_bind]. rewrite app_assoc in B2.
  assert (body !! (34 + (1 + length S) + 2 + length C)%nat = Some (byte_of_N (blen M))) as ->.
  { rewrite B2. apply list_lookup_middle. rewrite !length_app. cbn [length]. rewrite length_app in L34. lia. }
  cbn [mbind option_bind]. rewrite Nm, to_nat_blen.
  change (byte_of_N (blen M) :: M ++ ?x) with ([byte_of_N (blen M)] ++ M ++ x) in B2.
  rewrite !(app_assoc _ _ (u16_be (blen X) ++ _)) in B2.
  assert (get_u16 body (34 + (1 + length S) + 2 + length C + (1 + length M)) = Some (blen X)) as ->.
  { rewrite B2. match goal with |- get_u16 (?l ++ _) ?n = _ => replace n with (length l) end.
    - apply get_u16_iff. eauto.
    - rewrite !length_app. cbn [length]. rewrite length_app in L34. lia. }
  cbn [mbind option_bind]. rewrite to_nat_blen. rewrite (app_assoc _ (u16_be (blen X))) in B2.
  assert (get_range body (34 + (1 + length S) + 2 + length C + (1 + length M) + 2)
    (34 + (1 + length S) + 2 + length C + (1 + length M) + 2 + length X) = Some X) as ->; [|done].
  rewrite B2. apply get_range_app; [|done]. rewrite !length_app. cbn [length].
  rewrite length_app in L34. lia.
Qed.

(** [client_hello_ja4_fields] accepts exactly the buffers that start with one whole TLS
    handshake record holding a whole ClientHello (bytes after the extensions, and after the
    record, are ignored), and returns its version, cipher suites and extensions;
    [client_hello_extensions], the walk routing uses, finds the same extensions for the
    same buffers. *)
Theorem client_hello_iff buf v cs exts :
  (client_hello_ja4_fields buf = Some (v, cs, exts) ↔
   ∃ rv hl h tail rest, length rv = 2%nat ∧ length hl = 3%nat ∧ hello_ok h ∧
     4 + blen (body_of h ++ tail) < 2 ^ 16 ∧
     buf = record_of rv hl (body_of h ++ tail) rest ∧
     v = be_val (version h) ∧ cs = ciphers h ∧ exts = extensions h) ∧
  client_hello_extensions buf = snd <$> client_hello_ja4_fields buf.
Proof.
  split; [|apply client_hello_extensions_fields].
  change (client_hello_ja4_fields buf) with (body ← client_hello_body buf; body_fields body). split.
  - intros (body & Hb & H)%bind_Some. apply client_hello_body_iff in Hb
      as (rv & hl & rest & Lv & Lh & B & ->).
    apply body_fields_sound in H as (h & tail & Hh & -> & Ev). by exists rv, hl, h, tail, rest.
  - intros (rv & hl & h & tail & rest & Lv & Lh & Hh & B & -> & -> & -> & ->).
    rewrite (proj2 (client_hello_body_iff _ (body_of h ++ tail))) by eauto 8.
    by apply body_fields_complete.
Qed.

(** ** Extensions *)

Definition ext_ok (e : N * bytes) : Prop := e.1 < 2 ^ 16 ∧ blen e.2 < 2 ^ 16.
Definition ext_wire (es : list (N * bytes)) : bytes :=
  flat_map (λ e, u16_be e.1 ++ u16_be (blen e.2) ++ e.2) es.

(** What stops the walk: fewer than four bytes, or a length that runs past the end. *)
Definition ext_stop (tail : bytes) (r : option ()) : Prop :=
  match r with
  | Some _ => (length tail < 4)%nat
  | None => (4 ≤ length tail)%nat ∧ (length tail < 4 + N.to_nat (index_u16 tail 2))%nat
  end.

Lemma index_u16_bound b i : index_u16 b i < 2 ^ 16.
Proof.
  unfold index_u16. pose proof (be_val_bound (slice i (i + 2) b)) as B.
  assert (length (slice i (i + 2) b) ≤ 2)%nat as L by (unfold slice; rewrite length_take; lia).
  eapply N.lt_le_trans; [exact B|]. change (2 ^ 16) with (256 ^ 2). apply N.pow_le_mono_r; lia.
Qed.

Lemma index_u16_shift pre b i : index_u16 (pre ++ b) (length pre + i) = index_u16 b i.
Proof.
  unfold index_u16, slice. f_equal. rewrite drop_app_ge by lia.
  f_equal; [lia|]. f_equal. lia.
Qed.

(** Four bytes, as the type and the length they are. *)
Lemma ext_head tail :
  (4 ≤ length tail)%nat →
  tail = u16_be (index_u16 tail 0) ++ u16_be (index_u16 tail 2) ++ drop 4 tail.
Proof.
  intros L. destruct tail as [|a [|b [|c [|d tail]]]]; cbn [length] in L; try lia.
  change (index_u16 _ 0) with (be_val [a; b]). change (index_u16 _ 2) with (be_val [c; d]).
  destruct (two_bytes [a; b] eq_refl) as [<- _], (two_bytes [c; d] eq_refl) as [<- _].
  cbn [drop app]. by rewrite drop_0.
Qed.

Lemma each_loop_iff fuel pre suf es r :
  (length suf < fuel)%nat →
  each_loop fuel (pre ++ suf) (length pre) = (es, r) ↔
  ∃ tail, suf = ext_wire es ++ tail ∧ Forall ext_ok es ∧ ext_stop tail r.
Proof.
  revert pre suf es r. induction fuel as [|fuel IH]; intros pre suf es r Hf; [lia|].
  cbn [each_loop]. rewrite length_app.
  rewrite index_u16_shift. assert (index_u16 (pre ++ suf) (length pre) = index_u16 suf 0) as ->
    by (rewrite <- (Nat.add_0_r (length pre)); apply index_u16_shift).
  destruct (Nat.leb_spec (length pre + 4) (length pre + length suf)) as [L|L].
  2: { split.
       - intros [= <- <-]. exists suf. split; [done|]. split; [constructor|]. cbn. lia.
       - intros (tail & -> & F & St). destruct es as [|[t d] es].
         + destruct r as [[]|]; [done|]. cbn in St, L. lia.
         + cbn in L. rewrite !length_app, !length_u16 in L. lia. }
  pose proof (ext_head suf ltac:(lia)) as Eh. set (t := index_u16 suf 0) in *.
  set (n := index_u16 suf 2) in *.
  pose proof (index_u16_bound suf 0) as Bt. pose proof (index_u16_bound suf 2) as Bn.
  fold t in Bt. fold n in Bn.
  assert (∀ es tail, suf = ext_wire es ++ tail → Forall ext_ok es →
    (es = [] ∧ tail = suf) ∨ ∃ d es', es = (t, d) :: es' ∧ blen d = n ∧ drop 4 suf = d ++ ext_wire es' ++ tail)
    as Cut.
  { intros [|[t' d] es'] tail E F; [left; done|right].
    apply list.Forall_cons in F as [[Bt' Bd] _]. cbn [fst snd] in Bt', Bd.
    cbn [ext_wire flat_map fst snd] in E. rewrite <- !app_assoc in E.
    assert (t = t') as ->.
    { unfold t. rewrite E. by apply (index_u16_app []). }
    assert (n = blen d) as En.
    { unfold n. rewrite E. apply index_u16_app; [apply length_u16|done]. }
    exists d, es'. split; [done|]. split; [done|]. rewrite E.
    rewrite (app_assoc (u16_be t')), drop_app_length'; [done|]. by rewrite length_app, !length_u16. }
  destruct (decide (N.to_nat n ≤ length (drop 4 suf))%nat) as [Hl|Hl].
  - set (d := take (N.to_nat n) (drop 4 suf)).
    assert (length d = N.to_nat n) as Ld by (unfold d; rewrite length_take; lia).
    assert (suf = (u16_be t ++ u16_be n) ++ d ++ drop (N.to_nat n) (drop 4 suf)) as Es.
    { unfold d. by rewrite take_drop, <- app_assoc. }
    assert (get_range (pre ++ suf) (length pre + 4) (length pre + 4 + N.to_nat n) = Some d) as ->.
    { rewrite Es, app_assoc. apply get_range_app; [|lia]. rewrite !length_app, !length_u16. lia. }
    set (rest := drop (N.to_nat n) (drop 4 suf)) in *.
    assert (pre ++ suf = (pre ++ u16_be t ++ u16_be n ++ d) ++ rest) as Ep
      by (rewrite Es at 1; by rewrite <- !app_assoc).
    assert (length pre + (4 + N.to_nat n) = length (pre ++ u16_be t ++ u16_be n ++ d))%nat as Lp
      by (rewrite !length_app, !length_u16; lia).
    rewrite Ep, Lp. pose proof (IH (pre ++ u16_be t ++ u16_be n ++ d) rest) as IH'.
    destruct (each_loop fuel _ _) as [calls r'].
    assert (length rest < fuel)%nat as Hr by (unfold rest; rewrite !length_drop; lia).
    assert (blen d = n) as Bd by (unfold blen; lia). split.
    + intros [= <- <-]. destruct (proj1 (IH' calls r' Hr) eq_refl) as (tail & E & F & St).
      exists tail. split; [|split; [|done]].
      * cbn [ext_wire flat_map fst snd]. fold (ext_wire calls). rewrite Bd, <- !app_assoc, <- E.
        by rewrite <- app_assoc in Es.
      * constructor; [|done]. split; cbn; [done|by rewrite Bd].
    + intros (tail & E & F & St). destruct (Cut es tail E F) as [[-> ->]|(d' & es' & -> & Ed & E')].
      * destruct r as [[]|]; cbn in St; [lia|]. fold n in St. rewrite length_drop in Hl. lia.
      * assert (d = d' ∧ rest = ext_wire es' ++ tail) as [<- Er].
        { unfold d, rest. rewrite E'. rewrite <- Ed, to_nat_blen.
          by rewrite take_app_length, drop_app_length. }
        apply list.Forall_cons in F as [_ F].
        assert ((calls, r') = (es', r)) as [= -> ->]; [|done]. apply IH'; [done|]. by exists tail.
  - assert (get_range (pre ++ suf) (length pre + 4) (length pre + 4 + N.to_nat n) = None) as ->.
    { unfold get_range. rewrite length_app. rewrite length_drop in Hl.
      destruct (Nat.leb_spec (length pre + 4) (length pre + 4 + N.to_nat n)); [|lia].
      destruct (Nat.leb_spec (length pre + 4 + N.to_nat n) (length pre + length suf)); [lia|done]. }
    split.
    + intros [= <- <-]. exists suf. split; [done|]. split; [constructor|]. cbn. fold n.
      rewrite length_drop in Hl. lia.
    + intros (tail & E & F & St). destruct (Cut es tail E F) as [[-> ->]|(d' & es' & -> & Ed & E')].
      * destruct r as [[]|]; cbn in St; [lia|done].
      * exfalso. apply Hl. rewrite E', length_app, <- Ed, to_nat_blen. lia.
Qed.

(** The extensions of a block, up to the first malformed one. *)
Definition visited (exts : bytes) : list (N * bytes) := fst (each_extension exts).

(** The data of the first extension of a type. *)
Definition first_of (t : N) (es : list (N * bytes)) : option bytes :=
  snd <$> List.find (λ e, e.1 =? t) es.

Lemma find_loop_each {T} fuel exts want (f : bytes → option T) q :
  find_loop fuel exts want f q = first_of want (fst (each_loop fuel exts q)) ≫= f.
Proof.
  revert q. induction fuel as [|fuel IH]; intros q; [done|]. cbn [find_loop each_loop].
  destruct (_ <=? _)%nat; [|done]. destruct (get_range _ _ _) as [d|]; cbn [mbind option_bind]; [|done].
  rewrite IH. destruct (each_loop fuel exts _) as [calls r]. unfold first_of. cbn [fst List.find].
  by destruct (_ =? want).
Qed.

Lemma find_extension_first {T} exts want (f : bytes → option T) :
  find_extension exts want f = first_of want (visited exts) ≫= f.
Proof. apply find_loop_each. Qed.

(** [each_extension] visits exactly the extensions of the block, in order, up to the
    first one whose length runs past the end, and tells whether there is one; and
    [find_extension] hands its function the data of the first visited extension of the type
    it looks for. *)
Theorem extensions_exact {T} exts es r (want : N) (f : bytes → option T) :
  (each_extension exts = (es, r) ↔
   ∃ tail, exts = ext_wire es ++ tail ∧ Forall ext_ok es ∧ ext_stop tail r) ∧
  find_extension exts want f = first_of want (fst (each_extension exts)) ≫= f.
Proof.
  split; [|apply find_extension_first]. apply (each_loop_iff _ [] exts). lia.
Qed.

(** ** Server name and protocols *)

Lemma prefixed_list_iff d lst :
  prefixed_list d = Some lst ↔
  ∃ rest, d = u16_be (blen lst) ++ lst ++ rest ∧ blen lst < 2 ^ 16.
Proof.
  unfold prefixed_list. split.
  - destruct (Nat.ltb_spec (length d) 2) as [|L]; [done|]. intros G.
    apply get_range_Some in G as (pre & rest & -> & Lp & El). exists rest.
    destruct (two_bytes pre Lp) as [Ep Bp].
    assert (index_u16 (pre ++ lst ++ rest) 0 = be_val pre) as Ei.
    { rewrite Ep at 1. by apply (index_u16_app []). }
    rewrite Ei in El. assert (blen lst = be_val pre) as -> by (unfold blen; lia).
    by rewrite <- Ep.
  - intros (rest & -> & B).
    assert (index_u16 (u16_be (blen lst) ++ lst ++ rest) 0 = blen lst) as ->
      by (by apply (index_u16_app [])).
    destruct (Nat.ltb_spec (length (u16_be (blen lst) ++ lst ++ rest)) 2) as [L|_].
    { rewrite length_app, length_u16 in L. lia. }
    rewrite to_nat_blen. apply get_range_app; [apply length_u16|done].
Qed.

(** The block's first [server_name] extension carries the host name [s]. *)
Definition server_name (exts s : bytes) : Prop :=
  ∃ d lst rest rest', first_of 0 (visited exts) = Some d ∧
    d = u16_be (blen lst) ++ lst ++ rest ∧ blen lst < 2 ^ 16 ∧
    lst = x00 :: u16_be (blen s) ++ s ++ rest' ∧ blen s < 2 ^ 16 ∧ utf8_valid s = true.

Lemma sni_from_extensions_iff exts s : sni_from_extensions exts = Some s ↔ server_name exts s.
Proof.
  unfold sni_from_extensions, server_name. rewrite find_extension_first.
  destruct (first_of 0 (visited exts)) as [d|] eqn:F; cbn [mbind option_bind];
    [|split; [done|intros (?&?&?&?&?&_); done]].
  split.
  - intros (lst & P & E)%bind_Some. apply prefixed_list_iff in P as (rest & Ed & B).
    destruct (Nat.ltb_spec (length lst) 3) as [|L]; cbn [orb] in E; [done|].
    destruct lst as [|a [|b [|c lst]]]; cbn [length] in L; try lia.
    destruct (decide (a = x00)) as [->|]; [|by rewrite bool_decide_false in E by naive_solver].
    rewrite bool_decide_true in E by done. cbn [negb] in E.
    apply bind_Some in E as (nm & G & [U ->]%from_utf8_Some).
    change (index_u16 _ 1) with (be_val [b; c]) in G.
    apply get_range_Some in G as (pre & rest' & Eb & Lp & El).
    change (x00 :: b :: c :: lst) with ([x00; b; c] ++ lst) in Eb.
    apply app_inj_l in Eb as [<- ->]; [|by rewrite Lp].
    destruct (two_bytes [b; c] eq_refl) as [E2 B2].
    assert (be_val [b; c] = blen nm) as En by (unfold blen; lia).
    exists d, (x00 :: b :: c :: nm ++ rest'), rest, rest'. rewrite <- En, <- E2. done.
  - intros (d' & lst & rest & rest' & [= <-] & Ed & B & El & Bs & U).
    rewrite (proj2 (prefixed_list_iff d lst)) by eauto. cbn [mbind option_bind].
    rewrite El. destruct (Nat.ltb_spec (length (x00 :: u16_be (blen s) ++ s ++ rest')) 3) as [L|_].
    { cbn [length] in L. rewrite length_app, length_u16 in L. lia. }
    cbn [orb]. rewrite bool_decide_true by done. cbn [negb].
    change (x00 :: u16_be (blen s) ++ s ++ rest') with ([x00] ++ u16_be (blen s) ++ s ++ rest').
    rewrite index_u16_app by done. rewrite to_nat_blen, app_assoc, get_range_app.
    + cbn [mbind option_bind]. unfold from_utf8. by rewrite U.
    + by rewrite length_app, length_u16.
    + done.
Qed.

Definition wire8 (names : list bytes) : bytes := flat_map (λ n, byte_of_N (blen n) :: n) names.

(** The block's first ALPN extension lists the protocol [w], no entry before it running past
    the end of the list. *)
Definition offers (exts w : bytes) : Prop :=
  ∃ d lst rest before after, first_of 16 (visited exts) = Some d ∧
    d = u16_be (blen lst) ++ lst ++ rest ∧ blen lst < 2 ^ 16 ∧
    lst = wire8 before ++ byte_of_N (blen w) :: w ++ after ∧
    Forall (λ n, blen n < 256) before ∧ blen w < 256.

Lemma small_byte n : n < 256 → N_of_byte (byte_of_N n) = n.
Proof. intros H. rewrite N_of_byte_of_N. by apply N.mod_small. Qed.

(** One entry at the front of a protocol list. *)
Lemma entry_at pre b rest n :
  n = N.to_nat (N_of_byte b) →
  get_range (pre ++ b :: rest) (length pre + 1) (length pre + 1 + n)
  = if (n <=? length rest)%nat then Some (take n rest) else None.
Proof.
  intros ->. set (n := N.to_nat (N_of_byte b)). destruct (Nat.leb_spec n (length rest)) as [L|L].
  - change (b :: rest) with ([b] ++ rest). rewrite app_assoc.
    rewrite <- (take_drop n rest) at 1. apply get_range_app; rewrite ?length_app, ?length_take; cbn; lia.
  - unfold get_range. rewrite length_app. cbn [length].
    destruct (Nat.leb_spec (length pre + 1) (length pre + 1 + n)); [|lia].
    destruct (Nat.leb_spec (length pre + 1 + n) (length pre + S (length rest))); [lia|done].
Qed.

Lemma has_loop_iff fuel pre suf w :
  (length suf < fuel)%nat →
  has_loop fuel (pre ++ suf) w (length pre) = Some true ↔
  ∃ before after, suf = wire8 before ++ byte_of_N (blen w) :: w ++ after ∧
    Forall (λ n, blen n < 256) before ∧ blen w < 256.
Proof.
  revert pre suf. induction fuel as [|fuel IH]; intros pre suf Hf; [lia|]. cbn [has_loop].
  rewrite length_app. destruct suf as [|b rest].
  { destruct (Nat.ltb_spec (length pre) (length pre + length (@nil byte))) as [L|_]; [cbn in L; lia|].
    split; [done|]. intros (before & after & E & _). by destruct before. }
  destruct (Nat.ltb_spec (length pre) (length pre + length (b :: rest))) as [_|L]; [|cbn in L; lia].
  rewrite list_lookup_middle by done. cbn [mbind option_bind]. rewrite (entry_at pre b rest _ eq_refl).
  set (n := N.to_nat (N_of_byte b)).
  assert (∀ x y, b :: rest = byte_of_N (blen x) :: x ++ y → blen x < 256 →
    (n <= length rest)%nat ∧ take n rest = x ∧ drop n rest = y) as Head.
  { intros x y [= -> ->] Bx. unfold n. rewrite small_byte, to_nat_blen by done.
    rewrite length_app, take_app_length, drop_app_length. split; [lia|done]. }
  destruct (Nat.leb_spec n (length rest)) as [L|L]; cbn [mbind option_bind].
  2: { split; [done|]. intros ([|x before] & after & E & F & B).
       - apply Head in E as [? _]; [lia|done].
       - apply list.Forall_cons in F as [Bx _]. cbn [wire8 flat_map app] in E.
         rewrite <- app_assoc in E. apply Head in E as [? _]; [lia|done]. }
  assert (byte_of_N (blen (take n rest)) = b) as Eb.
  { unfold blen. rewrite length_take, Nat.min_l by done. unfold n. rewrite N2Nat.id.
    apply byte_of_N_of_byte. }
  assert (blen (take n rest) < 256) as Bn.
  { unfold blen. rewrite length_take, Nat.min_l by done. unfold n.
    pose proof (N_of_byte_bound b). lia. }
  case_bool_decide as Hw.
  - split; [intros _|done]. exists [], (drop n rest). rewrite Hw in Eb, Bn. cbn [wire8 flat_map app].
    rewrite Eb, <- Hw, take_drop. by rewrite Hw.
  - specialize (IH (pre ++ b :: take n rest) (drop n rest)).
    rewrite length_drop in IH. cbn [length] in Hf. specialize (IH ltac:(lia)).
    rewrite <- app_assoc in IH. cbn [app] in IH. rewrite take_drop, length_app in IH.
    cbn [length] in IH. rewrite length_take, Nat.min_l in IH by done.
    replace (length pre + (1 + n))%nat with (length pre + S n)%nat by lia. rewrite IH. split.
    + intros (before & after & E & F & B). exists (take n rest :: before), after.
      split; [|split; [by constructor|done]]. cbn [wire8 flat_map app]. rewrite Eb. fold (wire8 before).
      by rewrite <- app_assoc, <- E, take_drop.
    + intros ([|x before] & after & E & F & B).
      * apply Head in E as (_ & E & _); done.
      * apply list.Forall_cons in F as [Bx F]. cbn [wire8 flat_map app] in E. rewrite <- app_assoc in E.
        apply Head in E as (_ & _ & E); [|done]. by exists before, after.
Qed.

Lemma alpn_extension_has_iff exts w : alpn_extension_has exts w = true ↔ offers exts w.
Proof.
  unfold alpn_extension_has, offers. rewrite find_extension_first.
  destruct (first_of 16 (visited exts)) as [d|]; cbn [mbind option_bind];
    [|split; [done|intros (?&?&?&?&?&?&_); done]].
  split.
  - destruct (prefixed_list d) as [lst|] eqn:P; [|done]. cbn [mbind option_bind].
    destruct (has_loop _ _ _ _) as [[]|] eqn:E; [|done..]. intros _.
    apply prefixed_list_iff in P as (rest & Ed & B).
    apply (has_loop_iff _ [] lst) in E as (before & after & El & F & Bw); [|lia].
    by exists d, lst, rest, before, after.
  - intros (d' & lst & rest & before & after & [= <-] & Ed & B & El & F & Bw).
    rewrite (proj2 (prefixed_list_iff d lst)) by eauto. cbn [mbind option_bind].
    assert (has_loop (S (length lst)) lst w 0 = Some true) as ->; [|done].
    apply (has_loop_iff _ [] lst); [lia|]. eauto.
Qed.

Lemma names_loop_iff fuel pre suf out res :
  (length suf < fuel)%nat →
  names_loop fuel (pre ++ suf) (length pre) out = Some res ↔
  ∃ names, suf = wire8 names ∧ Forall (λ n, blen n < 256) names ∧
    res = out ++ omap from_utf8 names.
Proof.
  revert pre suf out. induction fuel as [|fuel IH]; intros pre suf out Hf; [lia|]. cbn [names_loop].
  rewrite length_app. destruct suf as [|b rest].
  { destruct (Nat.ltb_spec (length pre) (length pre + length (@nil byte))) as [L|_]; [cbn in L; lia|].
    split.
    - intros [= <-]. exists []. cbn. by rewrite app_nil_r.
    - intros ([|n names] & E & _ & ->); [cbn; by rewrite app_nil_r|done]. }
  destruct (Nat.ltb_spec (length pre) (length pre + length (b :: rest))) as [_|L]; [|cbn in L; lia].
  rewrite list_lookup_middle by done. cbn [mbind option_bind]. rewrite (entry_at pre b rest _ eq_refl).
  set (n := N.to_nat (N_of_byte b)).
  assert (∀ x y, b :: rest = byte_of_N (blen x) :: x ++ y → blen x < 256 →
    (n <= length rest)%nat ∧ take n rest = x ∧ drop n rest = y) as Head.
  { intros x y [= -> ->] Bx. unfold n. rewrite small_byte, to_nat_blen by done.
    rewrite length_app, take_app_length, drop_app_length. split; [lia|done]. }
  destruct (Nat.leb_spec n (length rest)) as [L|L]; cbn [mbind option_bind].
  2: { split; [done|]. intros ([|x names] & E & F & _); [done|].
       apply list.Forall_cons in F as [Bx _]. cbn [wire8 flat_map app] in E.
       apply Head in E as [? _]; [lia|done]. }
  assert (byte_of_N (blen (take n rest)) = b ∧ blen (take n rest) < 256) as [Eb Bn].
  { unfold blen. rewrite length_take, Nat.min_l by done. unfold n. rewrite N2Nat.id.
    split; [apply byte_of_N_of_byte|apply N_of_byte_bound]. }
  set (out' := match from_utf8 (take n rest) with Some s => out ++ [s] | None => out end).
  assert (∀ names, out' ++ omap from_utf8 names = out ++ omap from_utf8 (take n rest :: names)) as Out.
  { intros names. unfold out'. cbn [omap list_omap]. destruct (from_utf8 (take n rest)); [|done].
    by rewrite <- app_assoc. }
  specialize (IH (pre ++ b :: take n rest) (drop n rest) out').
  rewrite length_drop in IH. cbn [length] in Hf. specialize (IH ltac:(lia)).
  rewrite <- app_assoc in IH. cbn [app] in IH. rewrite take_drop, length_app in IH.
  cbn [length] in IH. rewrite length_take, Nat.min_l in IH by done.
  replace (length pre + (1 + n))%nat with (length pre + S n)%nat by lia. rewrite IH. split.
  - intros (names & E & F & ->). exists (take n rest :: names).
    split; [|split; [by constructor|by rewrite Out]].
    cbn [wire8 flat_map app]. rewrite Eb. fold (wire8 names). by rewrite <- E, take_drop.
  - intros ([|x names] & E & F & ->); [done|]. apply list.Forall_cons in F as [Bx F].
    cbn [wire8 flat_map app] in E. apply Head in E as (_ & <- & E); [|done].
    exists names. by rewrite Out.
Qed.

Lemma server_name_unique exts s s' : server_name exts s → server_name exts s' → s = s'.
Proof. rewrite <- !sni_from_extensions_iff. congruence. Qed.

Lemma ex_some {A} (a : A) (P : A → Prop) : (∃ x, Some a = Some x ∧ P x) ↔ P a.
Proof. naive_solver. Qed.
Lemma ex_none {A} (P : A → Prop) : (∃ x, None = Some x ∧ P x) ↔ False.
Proof. naive_solver. Qed.
Lemma no_some {A} (a : A) : (∀ x, ¬ Some a = Some x) ↔ False.
Proof. naive_solver. Qed.
Lemma all_none {A} : (∀ x : A, ¬ None = Some x) ↔ True.
Proof. naive_solver. Qed.

Lemma true_true : true = true ↔ True.
Proof. done. Qed.
Lemma false_true : false = true ↔ False.
Proof. done. Qed.
Lemma true_false : true = false ↔ False.
Proof. done. Qed.
Lemma false_false : false = false ↔ True.
Proof. done. Qed.

(** Close a decided routing table: the tests are constants, the route is one value. *)
Ltac route_cases :=
  cbn beta iota;
  repeat setoid_rewrite true_true; repeat setoid_rewrite false_true;
  repeat setoid_rewrite true_false; repeat setoid_rewrite false_false;
  intuition (subst; congruence).

(** No protocol of the tunnel's own services is offered. *)
Definition no_service (exts : bytes) : Prop :=
  ¬ offers exts CT_EDGE_ALPN ∧ ¬ offers exts CT_EDGE_CHANNEL_ALPN ∧
  ¬ offers exts CT_EDGE_CHANNEL_KA_ALPN ∧ ¬ offers exts CT_EDGE_RELAY_ALPN.

(** The reserved name of the channel fallback, in any case. *)
Definition reserved (s : bytes) : Prop := to_ascii_lowercase s = CT_EDGE_CHANNEL_FALLBACK_SNI.

Lemma reserved_iff s : eq_ignore_ascii_case s CT_EDGE_CHANNEL_FALLBACK_SNI = true ↔ reserved s.
Proof. unfold eq_ignore_ascii_case. by rewrite bool_decide_eq_true. Qed.

(** Where the front door routes a ClientHello, in terms of what it offers and names: the
    relay protocol first, then the channel protocols or (below the relay gate) the reserved
    name, then a terminated host, then a browser tunnel to any other name; a web protocol
    without a name goes to the default host; anything else, and anything that is no
    ClientHello, is refused. Hosts are handed on in lower case. *)
Theorem front_door_routes hello is_terminate_host default_host :
  let route := classify_front_door hello is_terminate_host default_host in
  (client_hello_extensions hello = None → route = Reject) ∧
  ∀ exts, client_hello_extensions hello = Some exts →
    (route = EdgeRelay ↔ offers exts CT_EDGE_ALPN) ∧
    (route = ChannelBroker ↔ ¬ offers exts CT_EDGE_ALPN ∧
      (offers exts CT_EDGE_CHANNEL_ALPN ∨ offers exts CT_EDGE_CHANNEL_KA_ALPN ∨
       (¬ offers exts CT_EDGE_RELAY_ALPN ∧ ∃ s, server_name exts s ∧ reserved s))) ∧
    (route = RelayGate ↔ offers exts CT_EDGE_RELAY_ALPN ∧ ¬ offers exts CT_EDGE_ALPN ∧
      ¬ offers exts CT_EDGE_CHANNEL_ALPN ∧ ¬ offers exts CT_EDGE_CHANNEL_KA_ALPN) ∧
    (∀ host, route = Proxy host ↔ no_service exts ∧
      ((∃ s, server_name exts s ∧ ¬ reserved s ∧ is_terminate_host s = true ∧
             host = to_ascii_lowercase s) ∨
       ((∀ s, ¬ server_name exts s) ∧ (offers exts (lit "http/1.1") ∨ offers exts (lit "h2")) ∧
        ∃ d, default_host = Some d ∧ host = to_ascii_lowercase d))) ∧
    (∀ host, route = BrowserTunnel host ↔ no_service exts ∧
      ∃ s, server_name exts s ∧ ¬ reserved s ∧ is_terminate_host s = false ∧
           host = to_ascii_lowercase s).
Proof.
  cbn zeta. unfold classify_front_door, no_service. split.
  { intros ->. cbn. done. }
  intros exts ->. cbn [fmap option_fmap option_map default mbind option_bind]. unfold id.
  setoid_rewrite <- alpn_extension_has_iff. setoid_rewrite <- sni_from_extensions_iff.
  setoid_rewrite <- reserved_iff.
  destruct (alpn_extension_has exts CT_EDGE_ALPN); [by route_cases|].
  destruct (alpn_extension_has exts CT_EDGE_CHANNEL_ALPN); cbn [orb]; [by route_cases|].
  destruct (alpn_extension_has exts CT_EDGE_CHANNEL_KA_ALPN); [by route_cases|].
  destruct (alpn_extension_has exts CT_EDGE_RELAY_ALPN); [by route_cases|].
  destruct (sni_from_extensions exts) as [s|].
  - setoid_rewrite ex_some. setoid_rewrite no_some.
    destruct (eq_ignore_ascii_case s CT_EDGE_CHANNEL_FALLBACK_SNI); [by route_cases|].
    destruct (is_terminate_host s); route_cases.
  - setoid_rewrite ex_none. setoid_rewrite all_none.
    destruct (alpn_extension_has exts (lit "http/1.1")), (alpn_extension_has exts (lit "h2"));
      cbn [orb]; (destruct default_host as [d|]; [setoid_rewrite ex_some|setoid_rewrite ex_none]);
      route_cases.
Qed.

(** [peek_sni] and [peek_alpn] against the same grammar: the name in lower case; and the
    protocols of the first ALPN extension when its list is well formed (those that are
    UTF-8), none otherwise. *)
Theorem peek_exact buf s names :
  (peek_sni buf = Some s ↔ ∃ exts s', client_hello_extensions buf = Some exts ∧
     server_name exts s' ∧ s = to_ascii_lowercase s') ∧
  (names ≠ [] → peek_alpn buf = names ↔
     ∃ exts d all rest, client_hello_extensions buf = Some exts ∧
       first_of 16 (visited exts) = Some d ∧
       d = u16_be (blen (wire8 all)) ++ wire8 all ++ rest ∧ blen (wire8 all) < 2 ^ 16 ∧
       Forall (λ n, blen n < 256) all ∧ names = omap from_utf8 all).
Proof.
  split.
  - unfold peek_sni. destruct (client_hello_extensions buf) as [exts|]; cbn [mbind option_bind];
      [|naive_solver].
    setoid_rewrite <- sni_from_extensions_iff. rewrite fmap_Some. naive_solver.
  - intros Hne. unfold peek_alpn.
    destruct (client_hello_extensions buf) as [exts|]; [|naive_solver].
    rewrite find_extension_first. split.
    + destruct (first_of 16 (visited exts)) as [d|] eqn:Fd; [|done]. cbn [mbind option_bind].
      destruct (prefixed_list d) as [lst|] eqn:P; [|done]. cbn [mbind option_bind].
      destruct (names_loop _ _ _ _) as [res|] eqn:E; [|done]. cbn [default]. intros <-.
      apply prefixed_list_iff in P as (rest & -> & B).
      apply (names_loop_iff _ [] lst) in E as (all & -> & F & ->); [|lia].
      exists exts. eauto 10.
    + intros (? & d & all & rest & [= <-] & -> & -> & B & F & ->). cbn [mbind option_bind].
      rewrite (proj2 (prefixed_list_iff _ (wire8 all))) by eauto. cbn [mbind option_bind].
      assert (names_loop (S (length (wire8 all))) (wire8 all) 0 [] = Some (omap from_utf8 all)) as ->;
        [|done].
      apply (names_loop_iff _ [] (wire8 all)); [lia|]. by exists all.
Qed.

(** ** Concrete ClientHellos *)

Definition sni_ext (s : bytes) : N * bytes :=
  (0, u16_be (3 + blen s) ++ x00 :: u16_be (blen s) ++ s).
Definition alpn_ext (names : list bytes) : N * bytes :=
  (16, u16_be (blen (wire8 names)) ++ wire8 names).
Definition hello_with (suites : bytes) (es : list (N * bytes)) : bytes :=
  record_of [x03; x01] [x00; x00; x00]
    (body_of {| version := [x03; x03]; random := repeat x00 32; session := [];
                ciphers := suites; compression := [x00]; extensions := ext_wire es |}) [].

Lemma front_door_examples :
  let route es := classify_front_door (hello_with [x13; x01] es)
    (λ h, eq_ignore_ascii_case h (lit "portal.test")) (Some (lit "Portal.test")) in
  route [alpn_ext [lit "h2"; lit "ct-edge-channel-ka"]; sni_ext (lit "x.test")] = ChannelBroker ∧
  route [sni_ext (lit "Edge-CDN.invalid"); alpn_ext [lit "h2"]] = ChannelBroker ∧
  route [sni_ext (lit "Portal.TEST")] = Proxy (lit "portal.test") ∧
  route [sni_ext (lit "App.test")] = BrowserTunnel (lit "app.test") ∧
  route [alpn_ext [lit "h2"]] = Proxy (lit "portal.test") ∧
  route [] = Reject.
Proof. by vm_compute. Qed.

End Sni.

Module Ja4.
Import Sni.

Section Ja4.
Context (sha256 : bytes → bytes).

(** src/crates/edge/src/ja4.rs:62-64 [GREASE] *)
Definition GREASE : list N :=
  [0x0a0a; 0x1a1a; 0x2a2a; 0x3a3a; 0x4a4a; 0x5a5a; 0x6a6a; 0x7a7a;
   0x8a8a; 0x9a9a; 0xaaaa; 0xbaba; 0xcaca; 0xdada; 0xeaea; 0xfafa].

(** src/crates/edge/src/ja4.rs:66-68 [is_grease] *)
Definition is_grease (v : N) : bool := existsb (N.eqb v) GREASE.

(** src/crates/edge/src/ja4.rs:75-85 [version_code] *)
Definition version_code (v : N) : bytes :=
  if v =? 0x0002 then lit "s2" else if v =? 0x0300 then lit "s3"
  else if v =? 0x0301 then lit "10" else if v =? 0x0302 then lit "11"
  else if v =? 0x0303 then lit "12" else if v =? 0x0304 then lit "13"
  else lit "00".

(** src/crates/edge/src/ja4.rs:90-93 [sha256_hex12] *)
Definition sha256_hex12 (input : bytes) : bytes := take 12 (Hex.encode (sha256 input)).

(** src/crates/edge/src/ja4.rs:112-120 [negotiated_version] The loops that read a list of
    16-bit values ([while i + 2 <= list.len()]); an odd byte at the end is ignored. *)
Fixpoint u16_list (l : bytes) : list N :=
  match l with a :: b :: l => be_val [a; b] :: u16_list l | _ => [] end.

(** src/crates/edge/src/ja4.rs:107-124 [negotiated_version] *)
Definition negotiated_version (legacy_version : N) (exts : bytes) : N :=
  default legacy_version (find_extension exts 0x002b (λ edata,
    list_len ← head edata;
    list ← get_range edata 1 (1 + N.to_nat (N_of_byte list_len));
    foldl (λ best v,
      if is_grease v then best
      else Some (match best with Some b => N.max b v | None => v end))
      None (u16_list list))).

(** src/crates/edge/src/ja4.rs:131-146 [signature_algorithm_ids] *)
Definition signature_algorithm_ids (exts : bytes) : option (list N) :=
  find_extension exts 0x000d (λ edata, u16_list <$> prefixed_list edata).

(** [format!("{:02}", n)] and [format!("{:04x}", v)]. *)
Definition pad (width : nat) (s : bytes) : bytes := repeat x30 (width - length s) ++ s.
Definition two_digits (n : nat) : bytes := pad 2 (decimal (N.of_nat n)).
Definition hex4 (v : N) : bytes :=
  pad 4 (String.list_byte_of_string (NilZero.string_of_uint (N.to_hex_uint v))).

(** src/crates/edge/src/ja4.rs:171-174 [cipher_fields] The values without GREASE, in
    order. *)
Definition non_grease (ids : list N) : list N := List.filter (λ v, negb (is_grease v)) ids.
Definition hex_list (ids : list N) : bytes := join (lit ",") (map hex4 ids).

(** src/crates/edge/src/ja4.rs:161-176 [cipher_fields] *)
Definition cipher_fields (cipher_suites : bytes) : bytes * bytes :=
  if bool_decide (cipher_suites = []) then (lit "00", lit "000000000000")
  else
    let filtered := non_grease (u16_list cipher_suites) in
    (two_digits (Nat.min (length filtered) 99),
     sha256_hex12 (hex_list (sort_by N.leb filtered))).

(** src/crates/edge/src/ja4.rs:189-219 [extension_fields] *)
Definition extension_fields (exts : bytes) : bytes * bytes :=
  let types := non_grease (fst <$> fst (each_extension exts)) in
  let for_hash := List.filter (λ t, negb (t =? 0x0000) && negb (t =? 0x0010)) types in
  let ext_joined := hex_list (sort_by N.leb for_hash) in
  let combined :=
    match signature_algorithm_ids exts with
    | Some ids => ext_joined ++ lit "_" ++ hex_list (non_grease ids)
    | None => ext_joined
    end in
  (two_digits (Nat.min (length types) 99),
   if bool_decide (combined = []) then lit "000000000000" else sha256_hex12 combined).

(** The characters of a UTF-8 text. *)
Fixpoint chars_fuel (fuel : nat) (s : bytes) : list bytes :=
  match fuel, s with
  | O, _ | _, [] => []
  | S fuel, b :: _ =>
    let n := if N_of_byte b <? 128 then 1%nat else if N_of_byte b <? 224 then 2%nat
             else if N_of_byte b <? 240 then 3%nat else 4%nat in
    take n s :: chars_fuel fuel (drop n s)
  end.
Definition chars (s : bytes) : list bytes := chars_fuel (length s) s.

(** src/crates/edge/src/ja4.rs:231-254 [alpn_code] *)
Definition alpn_code (exts : bytes) : bytes :=
  match alpn_first_value exts with
  | None => lit "00"
  | Some b =>
    if bool_decide (b = []) then lit "00"
    else
      match from_utf8 b with
      | None => lit "99"
      | Some s =>
        match chars s with
        | [] => lit "00"
        | first :: _ =>
          if negb (forallb is_ascii first) then lit "99"
          else if (2 <? length (chars s))%nat then first ++ default first (head (rev (chars s)))
          else s
        end
      end
  end.

(** src/crates/edge/src/ja4.rs:272-280 [compute_ja4] *)
Definition compute_ja4 (buf : bytes) : option bytes :=
  '(legacy_version, cipher_suites, exts) ← client_hello_ja4_fields buf;
  let version := version_code (negotiated_version legacy_version exts) in
  let sni := if sni_from_extensions exts then lit "d" else lit "i" in
  let '(cipher_count, cipher_hash) := cipher_fields cipher_suites in
  let '(ext_count, ext_hash) := extension_fields exts in
  let alpn := alpn_code exts in
  Some (lit "t" ++ version ++ sni ++ cipher_count ++ ext_count ++ alpn
          ++ lit "_" ++ cipher_hash ++ lit "_" ++ ext_hash).

Lemma layout_version v : length (version_code v) = 2%nat.
Proof. unfold version_code. by repeat case_match. Qed.

Lemma two_digits_length n : (n ≤ 99)%nat → length (two_digits n) = 2%nat.
Proof.
  intros H. assert (forallb (λ n, length (two_digits n) =? 2)%nat (seq 0 100) = true) as C
    by (by vm_compute).
  rewrite forallb_forall in C. apply Nat.eqb_eq, (C n), in_seq. lia.
Qed.

Section Layout.
Context (sha256_length : ∀ x, length (sha256 x) = 32%nat).

Lemma layout_hash x : length (sha256_hex12 x) = 12%nat.
Proof. unfold sha256_hex12. rewrite length_take, Hex.length_encode, sha256_length. lia. Qed.

Lemma layout_ciphers cs :
  length (fst (cipher_fields cs)) = 2%nat ∧ length (snd (cipher_fields cs)) = 12%nat.
Proof.
  unfold cipher_fields. case_bool_decide; [done|]. cbn [fst snd].
  split; [apply two_digits_length; lia|apply layout_hash].
Qed.

Lemma layout_extensions x :
  length (fst (extension_fields x)) = 2%nat ∧ length (snd (extension_fields x)) = 12%nat.
Proof.
  unfold extension_fields. cbn [fst snd]. split; [apply two_digits_length; lia|].
  case_bool_decide; [done|apply layout_hash].
Qed.
End Layout.

Lemma N_leb_total a b : (a <=? b) = true ∨ (b <=? a) = true.
Proof. rewrite !N.leb_le. lia. Qed.

Lemma sorted_hex_list ids ids' : ids ≡ₚ ids' → hex_list (sort_by N.leb ids) = hex_list (sort_by N.leb ids').
Proof.
  intros P. f_equal. apply sort_by_unique; [apply N_leb_total| | |done];
    intros ?; intros; rewrite ?N.leb_le in *; lia.
Qed.

Lemma cipher_fields_perm cs cs' :
  (cs = [] ↔ cs' = []) → non_grease (u16_list cs) ≡ₚ non_grease (u16_list cs') →
  cipher_fields cs = cipher_fields cs'.
Proof.
  intros E P. unfold cipher_fields. rewrite (bool_decide_ext _ _ E).
  case_bool_decide; [done|]. by rewrite (sorted_hex_list _ _ P), (Permutation_length P).
Qed.

Lemma filter_perm {A} (f : A → bool) l l' : l ≡ₚ l' → List.filter f l ≡ₚ List.filter f l'.
Proof.
  induction 1 as [|x l l' _ IH|x y l|l1 l2 l3 _ IH1 _ IH2]; cbn [List.filter]; [done| | |by etrans].
  - destruct (f x); [by constructor|done].
  - destruct (f x), (f y); by constructor || done.
Qed.

Lemma extension_fields_perm exts exts' :
  non_grease (fst <$> visited exts) ≡ₚ non_grease (fst <$> visited exts') →
  first_of 0x000d (visited exts) = first_of 0x000d (visited exts') →
  extension_fields exts = extension_fields exts'.
Proof.
  intros P D. unfold extension_fields. fold (visited exts) (visited exts').
  assert (signature_algorithm_ids exts = signature_algorithm_ids exts') as ->.
  { unfold signature_algorithm_ids. by rewrite !find_extension_first, D. }
  rewrite (Permutation_length P), (sorted_hex_list _ _ (filter_perm _ _ _ P)). done.
Qed.

(** The same fields of the ClientHello, up to the order of cipher suites and extensions, and
    up to GREASE values anywhere. *)
Record same_stack (h h' : N * bytes * bytes) : Prop := {
  same_version : h.1.1 = h'.1.1;
  same_emptiness : h.1.2 = [] ↔ h'.1.2 = [];
  same_ciphers : non_grease (u16_list h.1.2) ≡ₚ non_grease (u16_list h'.1.2);
  same_types : non_grease (fst <$> visited h.2) ≡ₚ non_grease (fst <$> visited h'.2);
  same_data t : t ∈ [0x0000; 0x000d; 0x0010; 0x002b] →
    first_of t (visited h.2) = first_of t (visited h'.2)
}.

(** The fingerprint is one of the TLS stack: a ClientHello that lists its cipher suites
    or its extensions in another order, or with other GREASE values among them, has the
    same one; every fingerprint has the fixed JA4 layout, and there is one exactly for the
    buffers the routing parser accepts. *)
Theorem ja4_stable buf buf' h h' :
  (∀ x, length (sha256 x) = 32%nat) →
  client_hello_ja4_fields buf = Some h → client_hello_ja4_fields buf' = Some h' →
  same_stack h h' →
  ∃ version sni cipher_count ext_count alpn cipher_hash ext_hash,
    compute_ja4 buf = Some (lit "t" ++ version ++ sni ++ cipher_count ++ ext_count ++ alpn
                              ++ lit "_" ++ cipher_hash ++ lit "_" ++ ext_hash) ∧
    compute_ja4 buf' = compute_ja4 buf ∧
    length version = 2%nat ∧ (sni = lit "d" ∨ sni = lit "i") ∧
    length cipher_count = 2%nat ∧ length ext_count = 2%nat ∧
    length cipher_hash = 12%nat ∧ length ext_hash = 12%nat.
Proof.
  intros L E E' [V M C T D]. unfold compute_ja4. rewrite E, E'.
  destruct h as [[v cs] x], h' as [[v' cs'] x']. cbn [fst snd] in *. subst v'.
  cbn [mbind option_bind].
  assert (negotiated_version v x = negotiated_version v x') as <-.
  { unfold negotiated_version. rewrite !find_extension_first, (D 0x002b); [done|set_solver]. }
  assert (sni_from_extensions x = sni_from_extensions x') as <-.
  { unfold sni_from_extensions. rewrite !find_extension_first, (D 0x0000); [done|set_solver]. }
  assert (alpn_code x = alpn_code x') as <-.
  { unfold alpn_code, alpn_first_value. rewrite !find_extension_first, (D 0x0010); [done|set_solver]. }
  rewrite <- (cipher_fields_perm cs cs'), <- (extension_fields_perm x x') by (done || apply D; set_solver).
  pose proof (layout_ciphers L cs) as [Lc Lh]. pose proof (layout_extensions L x) as [Le Lx].
  destruct (cipher_fields cs) as [cc ch], (extension_fields x) as [ec eh]. cbn [fst snd] in *.
  eexists _, _, cc, ec, _, ch, eh. split; [done|]. split; [done|]. split; [apply layout_version|].
  split; [|done]. destruct (sni_from_extensions x); auto.
Qed.

End Ja4.

(** The same client, its suites and extensions shuffled, with GREASE. *)
Definition one_order : bytes :=
  hello_with [x13; x01; x13; x02] [sni_ext (lit "a.test"); alpn_ext [lit "h2"]; (23, [])].
Definition other_order : bytes :=
  hello_with [x2a; x2a; x13; x02; x13; x01]
    [(0x3a3a, [x00]); (23, []); alpn_ext [lit "h2"]; sni_ext (lit "a.test")].
Definition toy_hash (x : bytes) : bytes := take 32 (x ++ repeat x00 32).

Lemma ja4_stable_witness :
  (∃ version sni cipher_count ext_count alpn cipher_hash ext_hash,
    compute_ja4 toy_hash one_order = Some (lit "t" ++ version ++ sni ++ cipher_count ++ ext_count
      ++ alpn ++ lit "_" ++ cipher_hash ++ lit "_" ++ ext_hash) ∧
    compute_ja4 toy_hash other_order = compute_ja4 toy_hash one_order ∧
    length version = 2%nat ∧ (sni = lit "d" ∨ sni = lit "i") ∧
    length cipher_count = 2%nat ∧ length ext_count = 2%nat ∧
    length cipher_hash = 12%nat ∧ length ext_hash = 12%nat) ∧
  take 10 <$> compute_ja4 toy_hash one_order = Some (lit "t12d0203h2").
Proof.
  split; [|vm_compute; reflexivity].
  apply (ja4_stable toy_hash one_order other_order
    (771, [x13; x01; x13; x02], ext_wire [sni_ext (lit "a.test"); alpn_ext [lit "h2"]; (23, [])])
    (771, [x2a; x2a; x13; x02; x13; x01],
     ext_wire [(0x3a3a, [x00]); (23, []); alpn_ext [lit "h2"]; sni_ext (lit "a.test")])).
  - intros x. unfold toy_hash. rewrite length_take, length_app, repeat_length. lia.
  - vm_compute. reflexivity.
  - vm_compute. reflexivity.
  - constructor.
    + reflexivity.
    + cbn [fst snd]. split; intros E; discriminate E.
    + vm_compute. apply perm_swap.
    + vm_compute. apply (Permutation_rev [0; 16; 23]).
    + intros t Ht. apply list_elem_of_In in Ht. cbn [In] in Ht.
      destruct Ht as [<-|[<-|[<-|[<-|[]]]]]; vm_compute; reflexivity.
Defined.

End Ja4.

Module LogThrottle.

(** src/crates/edge/src/log_throttle.rs:29-36 [LogDecision] *)
Inductive LogDecision := LogFull | Suppress.
#[global] Instance decision_eq_dec : EqDecision LogDecision.
Proof. solve_decision. Defined.

Section Throttle.
Context {K : Type} `{Countable K} (key_leb : K → K → bool).

(** src/crates/edge/src/log_throttle.rs:41-51 [WindowSummary] *)
Record WindowSummary := {
  s_total : N; distinct_keys : N; s_untracked : N; top : list (K * N)
}.

(** src/crates/edge/src/log_throttle.rs:66-78 [WindowLogThrottle] *)
Record WindowLogThrottle := {
  window_secs : N; max_tracked : nat; top_n : nat;
  window_start : N; keys : gmap K N; total : N; suppressed : N; untracked : N
}.

(** src/crates/edge/src/log_throttle.rs:81-92 [WindowLogThrottle::new] *)
Definition new (window_secs_ : N) (max_tracked_ top_n_ : nat) : WindowLogThrottle := {|
  window_secs := window_secs_; max_tracked := max_tracked_; top_n := top_n_;
  window_start := 0; keys := ∅; total := 0; suppressed := 0; untracked := 0
|}.

(** src/crates/edge/src/log_throttle.rs:95-112 [WindowLogThrottle::note] *)
Definition note (t : WindowLogThrottle) (now : N) (key : K) : LogDecision * WindowLogThrottle :=
  let start := if window_start t =? 0 then now else window_start t in
  let total := saturating_add64 (total t) 1 in
  match keys t !! key with
  | Some count =>
    (Suppress, {| window_secs := window_secs t; max_tracked := max_tracked t; top_n := top_n t;
                  window_start := start; keys := <[key := saturating_add64 count 1]> (keys t);
                  total := total; suppressed := saturating_add64 (suppressed t) 1;
                  untracked := untracked t |})
  | None =>
    if (max_tracked t <=? size (keys t))%nat then
      (Suppress, {| window_secs := window_secs t; max_tracked := max_tracked t; top_n := top_n t;
                    window_start := start; keys := keys t; total := total;
                    suppressed := saturating_add64 (suppressed t) 1;
                    untracked := saturating_add64 (untracked t) 1 |})
    else
      (LogFull, {| window_secs := window_secs t; max_tracked := max_tracked t; top_n := top_n t;
                   window_start := start; keys := <[key := 1]> (keys t); total := total;
                   suppressed := suppressed t; untracked := untracked t |})
  end.

(** The order of the summary: the count descending, then the key. *)
Definition top_leb (a b : K * N) : bool :=
  (snd b <? snd a) || ((snd a =? snd b) && key_leb (fst a) (fst b)).

(** src/crates/edge/src/log_throttle.rs:120-144 [WindowLogThrottle::window_summary]
    [iterated] is the map's entries in the order the hash map yields them. *)
Definition window_summary (t : WindowLogThrottle) (now : N) (iterated : list (K * N))
    : option WindowSummary * WindowLogThrottle :=
  if (window_start t =? 0) || (now - window_start t <? window_secs t) then (None, t)
  else
    ((if 0 <? suppressed t then
        Some {| s_total := total t; distinct_keys := N.of_nat (size (keys t));
                s_untracked := untracked t;
                top := take (top_n t) (sort_by top_leb iterated) |}
      else None),
     new (window_secs t) (max_tracked t) (top_n t)).

(** ** The throttle against the occurrences of the window *)

(** The distinct keys in the order of their first occurrence. *)
Definition first_seen (ks : list K) : list K :=
  foldl (λ acc k, if decide (k ∈ acc) then acc else acc ++ [k]) [] ks.
Definition tracked (m : nat) (ks : list K) : list K := take m (first_seen ks).
Definition occurrences (k : K) (ks : list K) : N :=
  N.of_nat (length (filter (λ x, x = k) ks)).
Definition untracked_in (m : nat) (ks : list K) : N :=
  N.of_nat (length (filter (λ x, x ∉ tracked m ks) ks)).
(** The window opens at the first occurrence whose time is not 0. *)
Definition opened (ns : list (N * K)) : N :=
  default 0 (head (List.filter (λ t, negb (t =? 0)) ns.*1)).

Definition notes (t : WindowLogThrottle) (ns : list (N * K)) : WindowLogThrottle :=
  foldl (λ t n, snd (note t n.1 n.2)) t ns.

Lemma first_seen_snoc ks k :
  first_seen (ks ++ [k])
  = if decide (k ∈ first_seen ks) then first_seen ks else first_seen ks ++ [k].
Proof. unfold first_seen. by rewrite foldl_snoc. Qed.

Lemma elem_of_first_seen k ks : k ∈ first_seen ks ↔ k ∈ ks.
Proof.
  induction ks as [|x ks IH] using rev_ind; [done|]. rewrite first_seen_snoc.
  destruct (decide _) as [E|E]; set_solver.
Qed.

Lemma NoDup_first_seen ks : NoDup (first_seen ks).
Proof.
  induction ks as [|x ks IH] using rev_ind; [constructor|]. rewrite first_seen_snoc.
  destruct (decide _) as [E|E]; [done|]. apply list.NoDup_app. split; [done|].
  split; [set_solver|apply NoDup_singleton].
Qed.

Lemma NoDup_tracked m ks : NoDup (tracked m ks).
Proof. unfold tracked. eapply sublist_NoDup; [apply NoDup_first_seen|apply sublist_take]. Qed.

(** A new occurrence: of a tracked key, of a key beyond the cap, or of a new key. *)
Lemma tracked_snoc m ks k :
  tracked m (ks ++ [k]) =
  if decide (k ∈ tracked m ks) then tracked m ks
  else if (m <=? length (tracked m ks))%nat then tracked m ks else tracked m ks ++ [k].
Proof.
  unfold tracked. rewrite first_seen_snoc, length_take.
  destruct (Nat.leb_spec m (Nat.min m (length (first_seen ks)))) as [L|L].
  - assert (take m (if decide (k ∈ first_seen ks) then first_seen ks else first_seen ks ++ [k])
      = take m (first_seen ks)) as ->.
    { destruct (decide _); [done|]. by rewrite take_app_le by lia. }
    by destruct (decide _).
  - rewrite (take_ge (first_seen ks)) by lia. destruct (decide _); [by rewrite take_ge by lia|].
    rewrite take_ge; [done|]. rewrite length_app. cbn. lia.
Qed.

Lemma occurrences_snoc k ks x :
  occurrences k (ks ++ [x]) = if decide (x = k) then occurrences k ks + 1 else occurrences k ks.
Proof.
  unfold occurrences. rewrite list.filter_app, length_app. unfold filter at 2. cbn.
  destruct (decide (x = k)); cbn; lia.
Qed.

Lemma occurrences_le k ks : occurrences k ks ≤ N.of_nat (length ks).
Proof. unfold occurrences. pose proof (length_filter (λ x, x = k) ks). lia. Qed.

Lemma occurrences_none k ks : k ∉ ks → occurrences k ks = 0.
Proof.
  intros Hn. unfold occurrences. destruct (filter (λ x, x = k) ks) as [|y l] eqn:E; [done|].
  exfalso. apply Hn. assert (y ∈ filter (λ x, x = k) ks) as Y by (rewrite E; left).
  apply list_elem_of_filter in Y as [-> ?]. done.
Qed.

Lemma filter_agree (P Q : K → Prop) `{∀ x, Decision (P x), ∀ x, Decision (Q x)} l :
  (∀ x, x ∈ l → P x ↔ Q x) → length (filter P l) = length (filter Q l).
Proof.
  induction l as [|x l IH]; intros H'; [done|]. rewrite !filter_cons.
  specialize (IH ltac:(set_solver)). pose proof (H' x ltac:(set_solver)).
  destruct (decide (P x)), (decide (Q x)); cbn; tauto || lia.
Qed.

(** Dropping an untracked key's occurrence into the window changes nothing else. *)
Lemma untracked_snoc m ks k :
  untracked_in m (ks ++ [k]) =
  if decide (k ∈ tracked m ks) then untracked_in m ks
  else if (m <=? length (tracked m ks))%nat then untracked_in m ks + 1 else untracked_in m ks.
Proof.
  unfold untracked_in. rewrite (tracked_snoc m ks k).
  assert (∀ T : list K, length (filter (λ x, x ∉ T) (ks ++ [k])) =
    length (filter (λ x, x ∉ T) ks) + if decide (k ∈ T) then 0 else 1)%nat as Snoc.
  { intros T. rewrite list.filter_app, length_app. f_equal. unfold filter at 1. cbn.
    destruct (decide (k ∉ T)), (decide (k ∈ T)); done. }
  destruct (decide (k ∈ tracked m ks)) as [Hk|Hk].
  { rewrite Snoc, decide_True by done. lia. }
  destruct (Nat.leb_spec m (length (tracked m ks))) as [L|L].
  { rewrite Snoc, decide_False by done. lia. }
  rewrite Snoc, decide_True by set_solver. rewrite Nat.add_0_r.
  apply (f_equal N.of_nat), filter_agree. intros x Hx. enough (x ≠ k) by set_solver. intros ->. apply Hk.
  unfold tracked in *. rewrite length_take in L.
  rewrite take_ge by lia. by apply elem_of_first_seen.
Qed.

Lemma opened_snoc ns now k :
  opened (ns ++ [(now, k)]) = if opened ns =? 0 then now else opened ns.
Proof.
  unfold opened. rewrite fmap_app. induction (ns.*1) as [|t ts IH]; cbn.
  - destruct (N.eqb_spec now 0) as [->|]; done.
  - destruct (N.eqb_spec t 0) as [->|E]; cbn; [apply IH|]. by destruct (N.eqb_spec t 0).
Qed.

(** What a throttle holds after the occurrences of its window. *)
Record window_inv (w : N) (m n : nat) (ns : list (N * K)) (t : WindowLogThrottle) : Prop := {
  inv_config : window_secs t = w ∧ max_tracked t = m ∧ top_n t = n;
  inv_start : window_start t = opened ns;
  inv_keys k : keys t !! k
    = if decide (k ∈ tracked m ns.*2) then Some (occurrences k ns.*2) else None;
  inv_size : size (keys t) = length (tracked m ns.*2);
  inv_total : total t = N.of_nat (length ns);
  inv_suppressed : suppressed t = N.of_nat (length ns) - N.of_nat (length (tracked m ns.*2));
  inv_untracked : untracked t = untracked_in m ns.*2
}.

Lemma tracked_le m (ks : list K) : (length (tracked m ks) ≤ length ks)%nat.
Proof.
  unfold tracked. rewrite length_take. enough (length (first_seen ks) ≤ length ks)%nat by lia.
  induction ks as [|k ks IH] using rev_ind; [done|]. rewrite first_seen_snoc, length_app. cbn.
  destruct (decide _); rewrite ?length_app; cbn; lia.
Qed.

Lemma untracked_le m (ks : list K) : untracked_in m ks ≤ N.of_nat (length ks).
Proof. unfold untracked_in. pose proof (length_filter (λ x, x ∉ tracked m ks) ks). lia. Qed.

Lemma saturating_small a : a + 1 < U64 → saturating_add64 a 1 = a + 1.
Proof. unfold saturating_add64. lia. Qed.

Lemma window_inv_note w m n ns t now k :
  N.of_nat (S (length ns)) < U64 → window_inv w m n ns t →
  window_inv w m n (ns ++ [(now, k)]) (snd (note t now k)) ∧
  fst (note t now k) = if decide (k ∈ tracked m ns.*2) then Suppress
    else if (m <=? length (tracked m ns.*2))%nat then Suppress else LogFull.
Proof.
  intros B [(Cw & Cm & Cn) St Ky Sz To Su Un]. unfold note.
  pose proof (tracked_le m ns.*2) as Tl. pose proof (untracked_le m ns.*2) as Ul.
  rewrite length_fmap in Tl, Ul.
  assert ((ns ++ [(now, k)]).*2 = ns.*2 ++ [k]) as Ek by (by rewrite fmap_app).
  assert (window_start t =? 0 = (opened ns =? 0)) as Es by (by rewrite St).
  assert (∀ j, occurrences j (ns.*2 ++ [k])
    = if decide (k = j) then occurrences j ns.*2 + 1 else occurrences j ns.*2) as Oc
    by (intros; apply occurrences_snoc).
  pose proof (tracked_snoc m ns.*2 k) as Tk. pose proof (untracked_snoc m ns.*2 k) as Uk.
  assert (N.of_nat (length (ns ++ [(now, k)])) = N.of_nat (length ns) + 1) as Ln
    by (rewrite length_app; cbn; lia).
  rewrite (Ky k), Cm, Sz. destruct (decide (k ∈ tracked m ns.*2)) as [Hk|Hk];
    [|destruct (Nat.leb_spec m (length (tracked m ns.*2))) as [L|L]]; (split; [|done]); cbn [snd];
    constructor; cbn [window_secs max_tracked top_n window_start keys total suppressed untracked];
    rewrite ?Ek, ?Tk, ?Uk, ?Ln, ?To, ?Su, ?Un, ?opened_snoc, ?Es, ?St, ?saturating_small by lia;
    try done; try lia.
  - intros j. rewrite Oc. destruct (decide (k = j)) as [<-|Hj].
    + rewrite lookup_insert_eq, decide_True by done. f_equal. apply saturating_small.
      pose proof (occurrences_le k ns.*2) as Ol. rewrite length_fmap in Ol. lia.
    + rewrite lookup_insert_ne by done. apply Ky.
  - rewrite map_size_insert_Some; [done|]. rewrite Ky, decide_True by done. eauto.
  - intros j. rewrite Oc, Ky. destruct (decide (k = j)) as [<-|]; [|done].
    by rewrite !decide_False by done.
  - intros j. rewrite Oc. destruct (decide (k = j)) as [<-|Hj].
    + rewrite lookup_insert_eq, decide_True by set_solver. f_equal.
      rewrite occurrences_none; [done|]. rewrite <- elem_of_first_seen.
      unfold tracked in *. rewrite length_take in L. by rewrite take_ge in Hk by lia.
    + rewrite lookup_insert_ne, Ky by done.
      destruct (decide (j ∈ tracked m ns.*2)); [by rewrite decide_True by set_solver|].
      by rewrite decide_False by set_solver.
  - rewrite map_size_insert_None by (by rewrite Ky, decide_False by done).
    rewrite length_app, Sz. cbn. lia.
  - rewrite length_app. cbn. lia.
Qed.

Lemma notes_inv w m n ns :
  N.of_nat (length ns) < U64 → window_inv w m n ns (notes (new w m n) ns).
Proof.
  induction ns as [|[now k] ns IH] using rev_ind; intros B.
  - assert (tracked m [] = []) as T by apply take_nil.
    constructor; change ((@nil (N * K)).*2) with (@nil K); rewrite ?T; try done.
  - unfold notes in *. rewrite foldl_snoc. rewrite length_app in B. cbn in B.
    apply window_inv_note; [lia|]. apply IH. lia.
Qed.

Section Summary.
Context (leb_total : ∀ a b, key_leb a b = true ∨ key_leb b a = true)
        (leb_trans : ∀ a b c, key_leb a b = true → key_leb b c = true → key_leb a c = true)
        (leb_antisym : ∀ a b, key_leb a b = true → key_leb b a = true → a = b).

(** The ranking does not depend on the order the hash map yields its entries in. *)
Lemma top_unique l l' : l ≡ₚ l' → sort_by top_leb l = sort_by top_leb l'.
Proof.
  assert (∀ a b, top_leb a b = true ↔ snd b < snd a ∨ (snd a = snd b ∧ key_leb (fst a) (fst b) = true))
    as T by (intros; unfold top_leb; by rewrite orb_true_iff, andb_true_iff, N.ltb_lt, N.eqb_eq).
  intros P. apply sort_by_unique; [| | |done].
  - intros a b. rewrite !T. destruct (N.lt_trichotomy (snd a) (snd b)) as [?|[?|?]]; [tauto| |tauto].
    destruct (leb_total a.1 b.1); [left|right]; right; split; (done || lia).
  - intros a b c. rewrite !T. intros [?|[? ?]] [?|[? ?]]; [left; lia..|right]. split; [lia|eauto].
  - intros [a x] [b y]. rewrite !T. cbn. intros [?|[-> ?]] [?|[? ?]]; [lia..|]. f_equal. eauto.
Qed.

(** A throttle against the occurrences of its window, whatever they are: a line is logged
    in full exactly for the first occurrence of each of the first [max_tracked] distinct
    keys, so neither the lines nor the keys held grow beyond the cap; when the window is
    over, the summary (there is one when something was suppressed) counts every occurrence,
    the tracked keys and the occurrences of all others, and ranks the busiest tracked keys
    independently of the hash map's order; then everything is reset. *)
Theorem throttle_exact w m n ns now k iterated :
  N.of_nat (S (length ns)) < U64 →
  let t := notes (new w m n) ns in
  let ks := ns.*2 in
  iterated ≡ₚ map_to_list (keys t) →
  (size (keys t) ≤ m)%nat ∧
  (fst (note t now k) = LogFull ↔ k ∉ ks ∧ (length (first_seen ks) < m)%nat) ∧
  window_summary t now iterated =
    (if (opened ns =? 0) || (now - opened ns <? w) then (None, t)
     else
       ((if (length (tracked m ks) <? length ks)%nat then
           Some {| s_total := N.of_nat (length ks);
                   distinct_keys := N.of_nat (length (tracked m ks));
                   s_untracked := untracked_in m ks;
                   top := take n (sort_by top_leb ((λ k, (k, occurrences k ks)) <$> tracked m ks)) |}
         else None),
        new w m n)).
Proof.
  intros B t ks P. pose proof (notes_inv w m n ns ltac:(lia)) as I. fold t in I.
  pose proof (window_inv_note w m n ns t now k B I) as [_ D]. fold ks in D.
  destruct I as [(Cw & Cm & Cn) St Ky Sz To Su Un]. fold ks in Ky, Sz, Su, Un.
  assert (length (tracked m ks) ≤ m)%nat as Lm by (unfold tracked; rewrite length_take; lia).
  split; [lia|]. split.
  - assert (k ∉ ks ↔ k ∉ first_seen ks) as -> by (by rewrite elem_of_first_seen).
    rewrite D. unfold tracked in *. rewrite length_take in *.
    destruct (decide (k ∈ take m (first_seen ks))) as [Hk|Hk].
    + split; [done|]. intros [N _]. exfalso. apply N.
      apply list_elem_of_lookup in Hk as (i & [Hi _]%lookup_take_Some).
      by eapply list_elem_of_lookup_2.
    + destruct (Nat.leb_spec m (Nat.min m (length (first_seen ks)))); [split; [done|lia]|].
      rewrite take_ge in Hk by lia. split; [intros _; split; [done|lia]|done].
  - unfold window_summary. rewrite St, Cw, Cm, Cn, Sz, To, Su, Un.
    assert (length ks = length ns) as -> by (unfold ks; by rewrite length_fmap).
    destruct (_ || _); [done|]. f_equal.
    assert ((0 <? N.of_nat (length ns) - N.of_nat (length (tracked m ks)))
      = (length (tracked m ks) <? length ns)%nat) as ->.
    { destruct (N.ltb_spec 0 (N.of_nat (length ns) - N.of_nat (length (tracked m ks)))),
        (Nat.ltb_spec (length (tracked m ks)) (length ns)); (done || lia). }
    destruct (_ <? _)%nat; [|done]. do 3 f_equal. apply top_unique. etrans; [exact P|].
    apply NoDup_Permutation; [apply NoDup_map_to_list| |].
    + apply NoDup_fmap_2; [by intros ? ? [= ? _]|apply NoDup_tracked].
    + intros [j c]. rewrite elem_of_map_to_list, Ky, list_elem_of_fmap.
      destruct (decide (j ∈ tracked m ks)); split; [|naive_solver..].
      intros [= <-]. eauto.
Qed.

End Summary.
End Throttle.

(** Two keys tracked; the third one only counts. *)
Definition aborts : list (N * N) := [(100, 7); (101, 8); (102, 7); (103, 9); (104, 8); (105, 7)].

Lemma throttle_exact_witness :
  let t := notes (new 60 2 1) aborts in
  let ks := aborts.*2 in
  ((size (keys t) ≤ 2)%nat ∧
   (fst (note t 160 9) = LogFull ↔ 9 ∉ ks ∧ (length (first_seen ks) < 2)%nat) ∧
   window_summary N.leb t 160 [(8, 2); (7, 3)] =
     (if (opened aborts =? 0) || (160 - opened aborts <? 60) then (None, t)
      else
        ((if (length (tracked 2 ks) <? length ks)%nat then
            Some {| s_total := N.of_nat (length ks);
                    distinct_keys := N.of_nat (length (tracked 2 ks));
                    s_untracked := untracked_in 2 ks;
                    top := take 1 (sort_by (top_leb N.leb) ((λ k, (k, occurrences k ks)) <$> tracked 2 ks)) |}
          else None),
         new 60 2 1))) ∧
  fst (window_summary N.leb t 160 [(8, 2); (7, 3)]) =
    Some {| s_total := 6; distinct_keys := 2; s_untracked := 1; top := [(7, 3)] |}.
Proof.
  split; [|vm_compute; reflexivity].
  apply (throttle_exact N.leb); [| | |reflexivity|].
  - intros a b. rewrite !N.leb_le. lia.
  - intros a b c. rewrite !N.leb_le. lia.
  - intros a b. rewrite !N.leb_le. lia.
  - apply NoDup_Permutation.
    + apply (bool_decide_unpack _). vm_compute. exact I.
    + apply NoDup_map_to_list.
    + intros [k c]. vm_compute. tauto.
Defined.

End LogThrottle.
