(* ===== verification/Pipeline.v ===== *)
(** * Workflow pipelines

    [crates/common/src/pipeline.rs]: a pipeline's roles, the auction that fills each of
    them from the signed offers that are online, the selection policies and the state they
    carry from one auction to the next, the auction as the browser shows it, the two other
    ways agents and pipelines find each other (invitations by card, an agent's own scan),
    and the escrow holds that pay for a convened pipeline.

    The [BTreeMap]s of [SelectionState] are maps; Ed25519 is an instance and SHA-256 an
    argument. *)

From S2P Require Import Prelude RustStd Maps Interfaces Codec Market Settlement Escrow Channels.
Import Codec.Preimage.
Import Market.ServiceType (ServiceType, CodeGeneration, TextGeneration).
Import Market.CapacityKind (LocalHardware).
Import Market.CapacityOffer (CapacityOffer).
Import Escrow.Hold (Hold).
Import Channels.AgentCard (AgentCard).

Module Pipeline.

(** src/crates/common/src/pipeline.rs:167-184 [SelectionPolicy] *)
Inductive SelectionPolicy := LowestFloor | RoundRobin | LeastCalls.

(** src/crates/common/src/pipeline.rs:35-46 [RequiredRole] *)
Record RequiredRole := {
  service : ServiceType;
  units : N;
  tag : bytes;
  role_policy : option SelectionPolicy;
}.

(** src/crates/common/src/pipeline.rs:51-76 [PipelineSpec] *)
Record PipelineSpec := {
  id : bytes;
  roles : list RequiredRole;
  operator_pubkey_hex : option bytes;
  selection_policy : SelectionPolicy;
}.

(** src/crates/common/src/pipeline.rs:97-103 [PipelineError] *)
Inductive PipelineError := UnfilledRole (service : ServiceType) | Empty.

(** src/crates/common/src/pipeline.rs:119-127 [RoleAssignment] *)
Record RoleAssignment := Assignment {
  assigned_service : ServiceType;
  provider : bytes;
  assigned_units : N;
  price : N;
}.

(** src/crates/common/src/pipeline.rs:133-142 [RoleBidView] *)
Record RoleBidView := { who : bytes; bid_units : N; bid_price : N; win : bool }.

(** src/crates/common/src/pipeline.rs:147-151 [RoleAuctionView] *)
Record RoleAuctionView := { role : bytes; bids : list RoleBidView }.

(** src/crates/common/src/pipeline.rs:195-200 [SelectionState] *)
Record SelectionState := {
  round_robin_cursor : gmap bytes bytes;
  served_counts : gmap bytes N;
}.

(** src/crates/common/src/pipeline.rs:193-193 [SelectionState::default] *)
Definition default_state : SelectionState := {| round_robin_cursor := ∅; served_counts := ∅ |}.

(** src/crates/common/src/pipeline.rs:217-217 [SelectionPolicy::pick]: the order of
    [LowestFloor]. *)
Definition floor_cmp (a b : CapacityOffer) : comparison :=
  then_with (CapacityOffer.min_price a ?= CapacityOffer.min_price b)
    (bytes_cmp (CapacityOffer.holder_pubkey a) (CapacityOffer.holder_pubkey b)).

(** src/crates/common/src/pipeline.rs:237-243 [SelectionPolicy::pick]: the order of
    [LeastCalls] in a state. *)
Definition calls_cmp (st : SelectionState) (a b : CapacityOffer) : comparison :=
  then_with (amount_at (served_counts st) (CapacityOffer.holder_pubkey a)
             ?= amount_at (served_counts st) (CapacityOffer.holder_pubkey b))
    (floor_cmp a b).

(** src/crates/common/src/pipeline.rs:221-222 [SelectionPolicy::pick]: the ring of
    [RoundRobin]. *)
Definition ring (qualifying : list CapacityOffer) : list CapacityOffer :=
  sort_by (λ a b, bytes_leb (CapacityOffer.holder_pubkey a) (CapacityOffer.holder_pubkey b))
    qualifying.

(** src/crates/common/src/pipeline.rs:226-229 [SelectionPolicy::pick]: where the ring
    resumes. *)
Definition ring_start (cursor : option bytes) (ring : list CapacityOffer) : nat :=
  match cursor with
  | Some last =>
    default 0%nat
      (fst <$> list_find (λ o, bytes_leb (CapacityOffer.holder_pubkey o) last = false) ring)
  | None => 0%nat
  end.

(** src/crates/common/src/pipeline.rs:206-249 [SelectionPolicy::pick]: [None] is the panic
    on an empty slice. *)
Definition pick (policy : SelectionPolicy) (role_tag : bytes) (qualifying : list CapacityOffer)
    (st : SelectionState) : option (CapacityOffer * SelectionState) :=
  match policy with
  | LowestFloor => o ← min_by floor_cmp qualifying; Some (o, st)
  | RoundRobin =>
    let ring := ring qualifying in
    chosen ← ring !! ring_start (round_robin_cursor st !! role_tag) ring;
    Some (chosen,
      {| round_robin_cursor :=
           <[role_tag := CapacityOffer.holder_pubkey chosen]> (round_robin_cursor st);
         served_counts := served_counts st |})
  | LeastCalls =>
    chosen ← min_by (calls_cmp st) qualifying;
    let holder := CapacityOffer.holder_pubkey chosen in
    Some (chosen,
      {| round_robin_cursor := round_robin_cursor st;
         served_counts :=
           <[holder := wrap64 (amount_at (served_counts st) holder + 1)]> (served_counts st) |})
  end.

(** src/crates/common/src/pipeline.rs:386-389 [PipelineSpec::convene_valid]: what a role asks
    of a valid offer, the exclusivity aside (and lines 447-447 of [auction_view]). *)
Definition fills (r : RequiredRole) (o : CapacityOffer) : bool :=
  bool_decide (service r ∈ CapacityOffer.services o)
  && (units r <=? CapacityOffer.units_available o).

(** src/crates/common/src/pipeline.rs:382-392 [PipelineSpec::convene_valid] *)
Definition qualifying (valid : list CapacityOffer) (r : RequiredRole) (assigned : list bytes)
    : list CapacityOffer :=
  filter (λ o, (fills r o && negb (bool_decide (CapacityOffer.holder_pubkey o ∈ assigned))) = true)
    valid.

(** src/crates/common/src/pipeline.rs:398-403 [PipelineSpec::convene_valid]: the assignment
    pushed for a role. *)
Definition assignment_of (r : RequiredRole) (o : CapacityOffer) : RoleAssignment :=
  {| assigned_service := service r; provider := CapacityOffer.holder_pubkey o;
     assigned_units := units r; price := CapacityOffer.min_price o |}.

(** src/crates/common/src/pipeline.rs:379-405 [PipelineSpec::convene_valid]: the loop over
    the roles; [None] is a panic of [pick]. *)
Fixpoint convene_each (valid : list CapacityOffer) (policy_for : RequiredRole → SelectionPolicy)
    (rs : list RequiredRole) (assigned : list bytes) (st : SelectionState)
    : option (Result (list RoleAssignment) PipelineError * SelectionState) :=
  match rs with
  | [] => Some (Ok [], st)
  | r :: rs' =>
    let q := qualifying valid r assigned in
    if bool_decide (q = []) then Some (Err (UnfilledRole (service r)), st)
    else
      '(o, st1) ← pick (policy_for r) (tag r) q st;
      '(res, st2) ← convene_each valid policy_for rs'
                      (assigned ++ [CapacityOffer.holder_pubkey o]) st1;
      Some (match res with Ok l => Ok (assignment_of r o :: l) | Err e => Err e end, st2)
  end.

(** src/crates/common/src/pipeline.rs:366-408 [PipelineSpec::convene_valid] *)
Definition convene_valid (spec : PipelineSpec) (valid : list CapacityOffer)
    (policy_for : RequiredRole → SelectionPolicy) (st : SelectionState)
    : option (Result (list RoleAssignment) PipelineError * SelectionState) :=
  if bool_decide (roles spec = []) then Some (Err Empty, st)
  else convene_each valid policy_for (roles spec) [] st.

(** src/crates/common/src/pipeline.rs:333-333 [PipelineSpec::convene_with_policy]: a role's
    own policy over the pipeline's. *)
Definition effective (policy : SelectionPolicy) (r : RequiredRole) : SelectionPolicy :=
  default policy (role_policy r).

Section with_ed25519.
Context `{Ed25519}.

(** src/crates/common/src/pipeline.rs:342-346 [PipelineSpec::valid_offers] *)
Definition valid_offers (offers : list CapacityOffer) (now : N) : list CapacityOffer :=
  filter (λ o, CapacityOffer.is_valid o now = true) offers.

(** src/crates/common/src/pipeline.rs:352-361 [PipelineSpec::convene_roles] *)
Definition convene_roles (spec : PipelineSpec) (offers : list CapacityOffer) (now : N)
    (policy_for : RequiredRole → SelectionPolicy) (st : SelectionState)
    : option (Result (list RoleAssignment) PipelineError * SelectionState) :=
  convene_valid spec (valid_offers offers now) policy_for st.

(** src/crates/common/src/pipeline.rs:297-303 [PipelineSpec::convene] *)
Definition convene (spec : PipelineSpec) (offers : list CapacityOffer) (now : N)
    : option (Result (list RoleAssignment) PipelineError) :=
  fst <$> convene_roles spec offers now (λ _, LowestFloor) default_state.

(** src/crates/common/src/pipeline.rs:326-334 [PipelineSpec::convene_with_policy] *)
Definition convene_with_policy (spec : PipelineSpec) (offers : list CapacityOffer) (now : N)
    (policy : SelectionPolicy) (st : SelectionState)
    : option (Result (list RoleAssignment) PipelineError * SelectionState) :=
  convene_roles spec offers now (effective policy) st.

(** src/crates/common/src/pipeline.rs:448-453 [PipelineSpec::auction_view]: one bid. *)
Definition bid_view (label : bytes → bytes) (a : RoleAssignment) (o : CapacityOffer)
    : RoleBidView :=
  {| who := label (CapacityOffer.holder_pubkey o);
     bid_units := CapacityOffer.units_available o;
     bid_price := CapacityOffer.min_price o;
     win := bool_decide (CapacityOffer.holder_pubkey o = provider a) |}.

(** [Ord] of [bool]. *)
Definition bool_cmp (a b : bool) : comparison :=
  match a, b with false, true => Lt | true, false => Gt | _, _ => Eq end.

(** src/crates/common/src/pipeline.rs:456-458 [PipelineSpec::auction_view]: the display
    order. *)
Definition bid_leb (a b : RoleBidView) : bool :=
  match then_with (bool_cmp (win b) (win a))
          (then_with (bid_price a ?= bid_price b) (bytes_cmp (who a) (who b))) with
  | Gt => false
  | _ => true
  end.

(** src/crates/common/src/pipeline.rs:442-460 [PipelineSpec::auction_view]: the view of one
    role. *)
Definition view_role (valid : list CapacityOffer) (label : bytes → bytes) (r : RequiredRole)
    (a : RoleAssignment) : RoleAuctionView :=
  {| role := tag r;
     bids := sort_by bid_leb (bid_view label a <$> filter (λ o, fills r o = true) valid) |}.

(** src/crates/common/src/pipeline.rs:424-465 [PipelineSpec::auction_view] *)
Definition auction_view (spec : PipelineSpec) (offers : list CapacityOffer) (now : N)
    (policy : SelectionPolicy) (st : SelectionState) (label : bytes → bytes)
    : option (Result (list RoleAuctionView) PipelineError * SelectionState) :=
  let valid := valid_offers offers now in
  '(res, st') ← convene_valid spec valid (effective policy) st;
  Some (match res with
        | Ok l => Ok (zip_with (view_role valid label) (roles spec) l)
        | Err e => Err e
        end, st').

(** src/crates/common/src/pipeline.rs:255-258 [InviteCandidate] *)
Record InviteCandidate := { holder : bytes; channels : list bytes }.

(** src/crates/common/src/pipeline.rs:262-266 [RoleInvitation] *)
Record RoleInvitation := {
  invited_service : ServiceType;
  invited_tag : bytes;
  candidates : list InviteCandidate;
}.

(** src/crates/common/src/pipeline.rs:277-289 [PipelineSpec::invitations] *)
Definition invitations (spec : PipelineSpec) (cards : list AgentCard) (now : N)
    : list RoleInvitation :=
  (λ r,
    {| invited_service := service r; invited_tag := tag r;
       candidates :=
         (λ c, {| holder := AgentCard.holder_pubkey c; channels := AgentCard.channels c |})
         <$> filter (λ c, (AgentCard.is_valid c now
                           && bool_decide (tag r ∈ AgentCard.role_tags c)) = true) cards |})
  <$> roles spec.

End with_ed25519.

(** src/crates/common/src/pipeline.rs:471-476 [SupportedPipeline] *)
Record SupportedPipeline := { pipeline_id : bytes; supportable_roles : list bytes }.

(** src/crates/common/src/pipeline.rs:491-504 [pipelines_supported_by_services] *)
Definition pipelines_supported_by_services (specs : list PipelineSpec)
    (my_services : list ServiceType) : list SupportedPipeline :=
  omap (λ spec,
    let supportable := tag <$> filter (λ r, service r ∈ my_services) (roles spec) in
    if bool_decide (supportable = []) then None
    else Some {| pipeline_id := id spec; supportable_roles := supportable |}) specs.

Section with_crypto.
Context `{Ed25519} (sha256 : bytes → bytes).

(** src/crates/common/src/pipeline.rs:83-90 [PipelineSpec::role_channel_id] *)
Definition role_channel_id (spec : PipelineSpec) (role_tag : bytes) : option bytes :=
  if negb (existsb (λ r, bool_decide (tag r = role_tag)) (roles spec)) then None
  else
    hex ← operator_pubkey_hex spec;
    operator ← Hex.decode_32 hex;
    Some (Address.channel_id_for_pipeline_role sha256 operator (id spec) role_tag).

(** src/crates/common/src/pipeline.rs:523-532 [role_match_ref]: what is hashed. *)
Definition match_preimage (pipeline_id : bytes) (a : RoleAssignment) : bytes :=
  finish (u64 (u64 (fixed (var_bytes (new (lit "ct-pipeline-escrow-match-v1")) pipeline_id)
    (provider a)) (assigned_units a)) (price a)).

(** src/crates/common/src/pipeline.rs:523-532 [role_match_ref] *)
Definition role_match_ref (pipeline_id : bytes) (a : RoleAssignment) : bytes :=
  sha256 (match_preimage pipeline_id a).

(** src/crates/common/src/pipeline.rs:546-567 [holds_for_convened] *)
Definition holds_for_convened (pipeline_id : bytes) (assignments : list RoleAssignment)
    (buyer_key : SigningKey) (first_nonce expires_at : N) : list Hold :=
  imap (λ i a, Hold.sign_new buyer_key (provider a) (price a) (role_match_ref pipeline_id a)
                 (wrap64 (first_nonce + N.of_nat i)) expires_at) assignments.

End with_crypto.

(** ** One auction *)

#[global] Instance floor_ordering : Ordering floor_cmp.
Proof.
  exact (then_with_ordering CapacityOffer.min_price CapacityOffer.holder_pubkey bytes_cmp).
Qed.

#[global] Instance calls_ordering st : Ordering (calls_cmp st).
Proof.
  exact (then_with_ordering
           (λ o, amount_at (served_counts st) (CapacityOffer.holder_pubkey o)) (λ o, o) floor_cmp).
Qed.

Lemma min_by_nonempty {A} (cmp : A → A → comparison) l : l ≠ [] → is_Some (min_by cmp l).
Proof. destruct l; [done|]. intros _. by eexists. Qed.

Lemma ring_Permutation q : ring q ≡ₚ q.
Proof. apply sort_by_Permutation. Qed.

Lemma ring_start_bound cursor q :
  q ≠ [] → (ring_start cursor (ring q) < length (ring q))%nat.
Proof.
  intros Hq. assert (0 < length (ring q))%nat as H.
  { rewrite (Permutation_length (ring_Permutation q)). destruct q; [done|]. cbn. lia. }
  unfold ring_start. destruct cursor as [last|]; [|done].
  destruct (list_find _ _) as [[i o]|] eqn:F; cbn; [|done].
  apply list_find_Some in F as (F & _). by apply lookup_lt_Some in F.
Qed.

(** A clearing never panics on qualifying offers, and picks one of them. *)
Lemma pick_total policy t q st :
  q ≠ [] → ∃ o st', pick policy t q st = Some (o, st') ∧ o ∈ q.
Proof.
  intros Hq. destruct policy; cbn [pick].
  - destruct (min_by_nonempty floor_cmp q Hq) as [o E]. rewrite E. exists o, st.
    split; [done|]. by apply min_by_spec in E as [? _]; [|apply _].
  - destruct (lookup_lt_is_Some_2 _ _ (ring_start_bound (round_robin_cursor st !! t) q Hq))
      as [o E].
    rewrite E. eexists _, _. split; [reflexivity|].
    rewrite <- (ring_Permutation q). by eapply list_elem_of_lookup_2.
  - destruct (min_by_nonempty (calls_cmp st) q Hq) as [o E]. rewrite E. eexists _, _.
    split; [reflexivity|]. by apply min_by_spec in E as [? _]; [|apply _].
Qed.

Lemma pick_lowest t q st o st' :
  pick LowestFloor t q st = Some (o, st') → ∀ o', o' ∈ q → floor_cmp o o' ≠ Gt.
Proof.
  cbn. intros (o1 & E & [= -> ->])%bind_Some. eapply min_by_spec; [apply _|done].
Qed.

(** ** The clearing of a pipeline *)

(** What it means that an offer wins a role: it is valid, serves the role, its holder has
    no role yet, and under [LowestFloor] no such offer is cheaper (the lower key first). *)
Definition wins (valid : list CapacityOffer) (taken : list bytes) (policy : SelectionPolicy)
    (r : RequiredRole) (a : RoleAssignment) : Prop :=
  ∃ o, a = assignment_of r o ∧ o ∈ qualifying valid r taken ∧
    (policy = LowestFloor → ∀ o', o' ∈ qualifying valid r taken → floor_cmp o o' ≠ Gt).

(** The roles [rs] are filled one after the other by [l], given the holders taken before. *)
Definition filled (valid : list CapacityOffer) (policy_for : RequiredRole → SelectionPolicy)
    (taken : list bytes) (rs : list RequiredRole) (l : list RoleAssignment) : Prop :=
  length l = length rs ∧
  ∀ i r a, rs !! i = Some r → l !! i = Some a →
    wins valid (taken ++ take i (provider <$> l)) (policy_for r) r a.

Lemma filled_nil valid pf taken : filled valid pf taken [] [].
Proof. by split. Qed.

Lemma filled_cons valid pf taken r rs a l :
  wins valid taken (pf r) r a → filled valid pf (taken ++ [provider a]) rs l →
  filled valid pf taken (r :: rs) (a :: l).
Proof.
  intros W [L F]. split; [cbn; by rewrite L|]. intros [|i] r' a'; cbn.
  - intros [= <-] [= <-]. by rewrite app_nil_r.
  - intros Hr Ha. specialize (F i r' a' Hr Ha). by rewrite <- app_assoc in F.
Qed.

Lemma elem_of_qualifying valid r taken o :
  o ∈ qualifying valid r taken ↔
  o ∈ valid ∧ fills r o = true ∧ CapacityOffer.holder_pubkey o ∉ taken.
Proof.
  unfold qualifying. rewrite list_elem_of_filter, andb_true_iff, negb_true_iff,
    bool_decide_eq_false. naive_solver.
Qed.

Lemma wins_fresh valid taken policy r a : wins valid taken policy r a → provider a ∉ taken.
Proof. by intros (o & -> & (_ & _ & Hn)%elem_of_qualifying & _). Qed.

Lemma filled_distinct valid pf taken rs l :
  filled valid pf taken rs l → NoDup (provider <$> l) ∧ ∀ p, p ∈ provider <$> l → p ∉ taken.
Proof.
  revert taken l. induction rs as [|r rs IH]; intros taken [|a l] [L F]; try done.
  { split; [constructor|]. intros p. by rewrite elem_of_nil. }
  pose proof (F 0%nat r a eq_refl eq_refl) as W. cbn [take fmap list_fmap] in W.
  rewrite app_nil_r in W. apply wins_fresh in W.
  destruct (IH (taken ++ [provider a]) l) as [N D].
  - split; [by injection L|]. intros i r' a' Hr Ha. specialize (F (S i) r' a' Hr Ha).
    by rewrite <- app_assoc.
  - split.
    + cbn. apply list.NoDup_cons. split; [|done]. intros H. apply (D _ H). set_solver.
    + intros p [->|Hp]%elem_of_cons; [done|]. specialize (D _ Hp). set_solver.
Qed.

(** The loop: it never panics, and either fills every role or stops at the first one whose
    offers all belong to holders that already won. *)
Definition outcome (valid : list CapacityOffer) (pf : RequiredRole → SelectionPolicy)
    (taken : list bytes) (rs : list RequiredRole)
    (res : Result (list RoleAssignment) PipelineError) : Prop :=
  match res with
  | Ok l => filled valid pf taken rs l
  | Err e =>
    ∃ before r after l, rs = before ++ r :: after ∧ e = UnfilledRole (service r) ∧
      filled valid pf taken before l ∧
      ∀ o, o ∈ valid → fills r o = true →
        CapacityOffer.holder_pubkey o ∈ taken ++ (provider <$> l)
  end.

Lemma convene_each_outcome valid pf rs taken st :
  ∃ res st', convene_each valid pf rs taken st = Some (res, st') ∧ outcome valid pf taken rs res.
Proof.
  revert taken st. induction rs as [|r rs IH]; intros taken st; cbn [convene_each].
  { eexists _, _. split; [done|]. apply filled_nil. }
  case_bool_decide as Hq.
  { eexists _, _. split; [done|]. exists [], r, rs, []. do 3 (split; [done|]).
    intros o Ho Hf. rewrite app_nil_r. 
    destruct (decide (CapacityOffer.holder_pubkey o ∈ taken)); [done|]. exfalso.
    assert (o ∈ qualifying valid r taken) as H by by apply elem_of_qualifying.
    rewrite Hq in H. by apply elem_of_nil in H. }
  destruct (pick_total (pf r) (tag r) _ st Hq) as (o & st1 & E & Hin). rewrite E. cbn.
  assert (wins valid taken (pf r) r (assignment_of r o)) as W.
  { exists o. split_and!; [done|done|]. intros Hp. rewrite Hp in E. by eapply pick_lowest. }
  destruct (IH (taken ++ [CapacityOffer.holder_pubkey o]) st1) as (res & st2 & -> & O). cbn.
  eexists _, _. split; [done|]. destruct res as [l|e]; cbn in *.
  - by apply filled_cons.
  - destruct O as (before & r' & after & l & -> & -> & F & U).
    exists (r :: before), r', after, (assignment_of r o :: l). do 2 (split; [done|]).
    split; [by apply filled_cons|]. intros o' Ho Hf. specialize (U o' Ho Hf).
    by rewrite <- app_assoc in U.
Qed.

(** ** The auction view *)

Definition bid_cmp (a b : RoleBidView) : comparison :=
  then_with ((if win a then 0 else 1) ?= (if win b then 0 else 1))
    (then_with (bid_price a ?= bid_price b) (bytes_cmp (who a) (who b))).

#[global] Instance bid_ordering : Ordering bid_cmp.
Proof.
  pose proof (then_with_ordering bid_price who bytes_cmp).
  exact (then_with_ordering (λ b, if win b then 0 else 1) (λ b, b)
    (λ a b, then_with (bid_price a ?= bid_price b) (bytes_cmp (who a) (who b)))).
Qed.

Lemma bid_leb_cmp a b : bid_leb a b = true ↔ bid_cmp a b ≠ Gt.
Proof.
  unfold bid_leb, bid_cmp. destruct (win a), (win b); cbn; try naive_solver.
  all: destruct (then_with _ _); naive_solver.
Qed.

Lemma bids_sorted l : StronglySorted (λ x y, bid_leb x y = true) (sort_by bid_leb l).
Proof.
  apply sort_by_sorted; intros a b; rewrite ?bid_leb_cmp.
  - rewrite (cmp_flip (cmp:=bid_cmp) a b). destruct (bid_cmp a b); naive_solver.
  - intros c. rewrite !bid_leb_cmp. apply cmp_le_trans.
Qed.

(** A winning bid sorts before the others. *)
Lemma winner_first l b :
  b ∈ l → win b = true → ∃ b' rest, sort_by bid_leb l = b' :: rest ∧ win b' = true.
Proof.
  intros Hb W. pose proof (bids_sorted l) as S.
  rewrite <- (sort_by_Permutation bid_leb l) in Hb.
  destruct (sort_by bid_leb l) as [|b' rest]; [by apply elem_of_nil in Hb|].
  exists b', rest. split; [done|]. apply elem_of_cons in Hb as [->|Hb]; [done|].
  inversion S as [|?? _ F]; subst. rewrite list.Forall_forall in F. specialize (F b Hb).
  apply bid_leb_cmp in F. unfold bid_cmp in F. rewrite W in F. by destruct (win b').
Qed.

Lemma view_role_spec valid label taken policy r a :
  wins valid taken policy r a →
  role (view_role valid label r a) = tag r ∧
  bids (view_role valid label r a) ≡ₚ bid_view label a <$> filter (λ o, fills r o = true) valid ∧
  StronglySorted (λ x y, bid_leb x y = true) (bids (view_role valid label r a)) ∧
  ∃ b rest, bids (view_role valid label r a) = b :: rest ∧ win b = true.
Proof.
  intros (o & -> & (Ho & Hf & _)%elem_of_qualifying & _). cbn.
  split_and!; [done|apply sort_by_Permutation|apply bids_sorted|].
  apply (winner_first _ (bid_view label (assignment_of r o) o)).
  - apply list_elem_of_fmap. exists o. split; [done|]. by apply list_elem_of_filter.
  - by apply bool_decide_eq_true_2.
Qed.

Section clearing.
Context `{Ed25519}.

Lemma convene_valid_outcome spec valid pf st :
  ∃ res st', convene_valid spec valid pf st = Some (res, st') ∧
    (roles spec = [] → res = Err Empty) ∧
    (roles spec ≠ [] → outcome valid pf [] (roles spec) res).
Proof.
  unfold convene_valid. case_bool_decide as Hr; [by eexists _, _|].
  destruct (convene_each_outcome valid pf (roles spec) [] st) as (res & st' & E & O).
  by exists res, st'.
Qed.

(** convening decides exactly which roles can be filled. [convene_with_policy] and
    [convene] never panic; a pipeline without roles is [Empty]; otherwise either every role
    gets a provider, whose offer is valid now, serves the role with enough units and, under
    [LowestFloor], is the cheapest of the offers left (lower key first), with no provider
    twice; or the error names the first role for which every offer that fills it belongs to a
    provider that already won an earlier role. [convene] ignores the published policies. *)
Theorem convene_exact spec offers now policy st :
  ∃ res st' res0,
    convene_with_policy spec offers now policy st = Some (res, st') ∧
    convene spec offers now = Some res0 ∧
    (roles spec = [] → res = Err Empty ∧ res0 = Err Empty) ∧
    (roles spec ≠ [] →
       outcome (valid_offers offers now) (effective policy) [] (roles spec) res ∧
       outcome (valid_offers offers now) (λ _, LowestFloor) [] (roles spec) res0) ∧
    (∀ l, res = Ok l → length l = length (roles spec) ∧ NoDup (provider <$> l)).
Proof.
  destruct (convene_valid_outcome spec (valid_offers offers now) (effective policy) st)
    as (res & st' & E & O1 & O2).
  destruct (convene_valid_outcome spec (valid_offers offers now) (λ _, LowestFloor) default_state)
    as (res0 & st0 & E0 & O3 & O4).
  exists res, st', res0. unfold convene, convene_with_policy, convene_roles. rewrite E, E0.
  split_and!; [done|done|naive_solver|naive_solver|]. intros l ->.
  assert (roles spec ≠ []) as Hr by (intros Hr; by specialize (O1 Hr)).
  specialize (O2 Hr). split; [by apply O2|]. by eapply filled_distinct.
Qed.

(** enough providers are enough. When each role has more providers with a valid offer that
    fills it than there are roles before it, convening succeeds whatever the policies and
    the state they carry. *)
Theorem convene_succeeds spec offers now policy st :
  roles spec ≠ [] →
  (∀ i r, roles spec !! i = Some r →
     (i < length (remove_dups (CapacityOffer.holder_pubkey
                    <$> filter (λ o, fills r o = true) (valid_offers offers now))))%nat) →
  ∃ l st', convene_with_policy spec offers now policy st = Some (Ok l, st').
Proof.
  intros Hr Hn.
  destruct (convene_valid_outcome spec (valid_offers offers now) (effective policy) st)
    as (res & st' & E & _ & O). specialize (O Hr).
  destruct res as [l|e]; [by exists l, st'|]. exfalso.
  destruct O as (before & r & after & l & Hrs & -> & [L _] & U). cbn [app] in U.
  specialize (Hn (length before) r). rewrite Hrs in Hn.
  specialize (Hn (list_lookup_middle _ _ _ _ eq_refl)).
  assert (remove_dups (CapacityOffer.holder_pubkey
            <$> filter (λ o, fills r o = true) (valid_offers offers now))
          ⊆+ provider <$> l) as S%submseteq_length.
  { apply NoDup_submseteq; [apply NoDup_remove_dups|]. intros p. rewrite elem_of_remove_dups.
    intros (o & -> & [Hf Ho]%list_elem_of_filter)%list_elem_of_fmap. by apply U. }
  rewrite length_fmap in S. lia.
Qed.

(** the auction a browser is shown is the auction that was held: [auction_view] fails with
    the error of [convene_with_policy] and leaves its state; when it succeeds, each role's
    bids are the valid offers that fill it, with their own terms, in display order, the ones
    of the assigned provider flagged, and the first bid is such a one. *)
Theorem auction_view_exact spec offers now policy st label :
  ∃ res st' shown,
    convene_with_policy spec offers now policy st = Some (res, st') ∧
    auction_view spec offers now policy st label = Some (shown, st') ∧
    match res, shown with
    | Err e, Err e' => e = e'
    | Ok l, Ok views =>
      length views = length (roles spec) ∧
      ∀ i r a, roles spec !! i = Some r → l !! i = Some a →
        ∃ v, views !! i = Some v ∧ role v = tag r ∧
          bids v ≡ₚ bid_view label a <$> filter (λ o, fills r o = true) (valid_offers offers now) ∧
          StronglySorted (λ x y, bid_leb x y = true) (bids v) ∧
          ∃ b rest, bids v = b :: rest ∧ win b = true
    | _, _ => False
    end.
Proof.
  destruct (convene_valid_outcome spec (valid_offers offers now) (effective policy) st)
    as (res & st' & E & O1 & O2).
  unfold convene_with_policy, convene_roles, auction_view. rewrite E. cbn.
  eexists res, st', _. do 2 (split; [done|]). destruct res as [l|e]; [|done].
  assert (roles spec ≠ []) as Hr by (intros Hr; by specialize (O1 Hr)).
  destruct (O2 Hr) as [L F]. split; [rewrite length_zip_with; lia|].
  intros i r a Hi Ha. exists (view_role (valid_offers offers now) label r a).
  split; [by rewrite lookup_zip_with, Hi; cbn; rewrite Ha|]. eapply view_role_spec, F; done.
Qed.

End clearing.

(** ** Fairness of the stateful policies *)

(** Successive clearings of one role over an unchanged set of qualifying offers. *)
Fixpoint picks (policy : SelectionPolicy) (t : bytes) (q : list CapacityOffer) (n : nat)
    (st : SelectionState) : option (list CapacityOffer * SelectionState) :=
  match n with
  | 0%nat => Some ([], st)
  | S n =>
    '(o, st1) ← pick policy t q st;
    '(l, st2) ← picks policy t q n st1;
    Some (o :: l, st2)
  end.

Lemma ring_sorted q :
  StronglySorted (λ a b, bytes_leb (CapacityOffer.holder_pubkey a)
                           (CapacityOffer.holder_pubkey b) = true) (ring q).
Proof.
  apply sort_by_sorted; intros a b; [apply bytes_le_total|]. intros c. apply bytes_le_trans.
Qed.

(** On the ring, an offer is above the cursor exactly when it comes later. *)
Lemma ring_order q i j x y :
  NoDup (CapacityOffer.holder_pubkey <$> q) → ring q !! i = Some x → ring q !! j = Some y →
  bytes_leb (CapacityOffer.holder_pubkey x) (CapacityOffer.holder_pubkey y) = false ↔ (j < i)%nat.
Proof.
  intros N Hi Hj. split.
  - intros L. destruct (Nat.lt_trichotomy i j) as [H|[->|H]]; [| |done].
    + pose proof (sorted_lookup _ _ _ _ _ _ (ring_sorted q) Hi Hj H). cbn in *. congruence.
    + rewrite Hi in Hj. injection Hj as ->. by rewrite (bytes_le_refl _) in L.
  - intros H. pose proof (sorted_lookup _ _ _ _ _ _ (ring_sorted q) Hj Hi H) as L. cbn in L.
    apply not_true_iff_false. intros L'. pose proof (bytes_le_antisym _ _ L L') as E.
    rewrite <- (ring_Permutation q) in N.
    assert (j = i); [|lia]. eapply (NoDup_lookup _ _ _ _ N); rewrite list_lookup_fmap.
    + by rewrite Hj.
    + rewrite Hi. cbn. by rewrite E.
Qed.

(** After the offer at [j] the ring resumes at the next, around the end. *)
Lemma ring_next q j x :
  NoDup (CapacityOffer.holder_pubkey <$> q) → ring q !! j = Some x →
  ring_start (Some (CapacityOffer.holder_pubkey x)) (ring q) = (S j mod length q)%nat.
Proof.
  intros N Hj. rewrite <- (Permutation_length (ring_Permutation q)).
  pose proof (lookup_lt_Some _ _ _ Hj) as B. unfold ring_start.
  destruct (decide (S j < length (ring q))%nat) as [L|L].
  - rewrite Nat.mod_small by done. destruct (lookup_lt_is_Some_2 _ _ L) as [y Hy].
    rewrite (proj2 (list_find_Some _ _ (S j) y)); [done|]. split_and!; [done| |].
    + apply (ring_order q (S j) j); eauto with lia.
    + intros k z Hz Hk. rewrite (ring_order q k j z x N Hz Hj). lia.
  - replace (S j) with (length (ring q)) by lia. rewrite Nat.Div0.mod_same.
    rewrite (proj2 (list_find_None _ _)); [done|]. apply list.Forall_forall. intros z Hz.
    apply list_elem_of_lookup in Hz as [k Hk]. pose proof (lookup_lt_Some _ _ _ Hk).
    rewrite (ring_order q k j z x N Hk Hj). lia.
Qed.

Lemma picks_ring q t n st :
  NoDup (CapacityOffer.holder_pubkey <$> q) → q ≠ [] →
  ∃ l st', picks RoundRobin t q n st = Some (l, st') ∧ length l = n ∧
    ∀ i, (i < n)%nat →
      l !! i = ring q !! ((ring_start (round_robin_cursor st !! t) (ring q) + i) mod length q)%nat.
Proof.
  intros N Hq. assert (0 < length q)%nat as Hl by (destruct q; [done|cbn; lia]).
  revert st. induction n as [|n IH]; intros st; cbn [picks].
  { exists [], st. split_and!; [done..|]. lia. }
  pose proof (ring_start_bound (round_robin_cursor st !! t) q Hq) as B.
  set (j := ring_start _ _) in *. cbn [pick]. fold j.
  destruct (lookup_lt_is_Some_2 _ _ B) as [x Hx]. rewrite Hx. cbn.
  destruct (IH {| round_robin_cursor := <[t:=CapacityOffer.holder_pubkey x]> (round_robin_cursor st);
                  served_counts := served_counts st |}) as (l & st' & -> & L & E).
  cbn in E. rewrite lookup_insert_eq, (ring_next q j x N Hx) in E.
  exists (x :: l), st'. split_and!; [done|cbn; by rewrite L|]. intros [|i] Hi; cbn.
  - rewrite Nat.add_0_r, Nat.mod_small; [done|].
    by rewrite <- (Permutation_length (ring_Permutation q)).
  - rewrite E by lia. f_equal. rewrite Nat.Div0.add_mod_idemp_l. f_equal. lia.
Qed.

(** A window of one turn of a cyclic list is the list rotated. *)
Lemma cyclic_window {A} (r l : list A) j n i :
  (0 < length r)%nat → length l = n →
  (∀ i, (i < n)%nat → l !! i = r !! ((j + i) mod length r)%nat) →
  (i + length r ≤ n)%nat → take (length r) (drop i l) ≡ₚ r.
Proof.
  intros Hr L E Hi. set (m := ((j + i) mod length r)%nat).
  assert (m < length r)%nat as Hm by (apply Nat.mod_upper_bound; lia).
  assert (take (length r) (drop i l) = drop m r ++ take m r) as ->.
  { apply list_eq. intros k. destruct (decide (k < length r)%nat) as [Hk|Hk].
    - rewrite lookup_take_lt, lookup_drop, E by lia.
      replace (j + (i + k))%nat with (j + i + k)%nat by lia.
      rewrite <- Nat.Div0.add_mod_idemp_l. fold m.
      destruct (decide (m + k < length r)%nat) as [H|H].
      + rewrite Nat.mod_small, lookup_app_l, lookup_drop by (rewrite ?length_drop; lia). done.
      + rewrite lookup_app_r, length_drop by (rewrite length_drop; lia).
        rewrite lookup_take_lt by lia. f_equal.
        replace (m + k)%nat with (m + k - length r + 1 * length r)%nat by lia.
        rewrite Nat.Div0.mod_add, Nat.mod_small; lia.
    - rewrite !lookup_ge_None_2; [done| |].
      + rewrite length_app, length_drop, length_take. lia.
      + rewrite length_take. lia. }
  rewrite Permutation_app_comm. by rewrite take_drop.
Qed.

(** round robin is fair: from any state, over an unchanged set of qualifying offers with one
    offer per provider, every stretch of as many clearings as there are offers gives the role
    to each of them exactly once. *)
Theorem round_robin_fair q t n st :
  NoDup (CapacityOffer.holder_pubkey <$> q) → q ≠ [] →
  ∃ l st', picks RoundRobin t q n st = Some (l, st') ∧ length l = n ∧
    ∀ i, (i + length q ≤ n)%nat → take (length q) (drop i l) ≡ₚ q.
Proof.
  intros N Hq. destruct (picks_ring q t n st N Hq) as (l & st' & E & L & C).
  exists l, st'. split_and!; [done..|]. intros i Hi.
  rewrite <- (Permutation_length (ring_Permutation q)) in *.
  set (j := ring_start (round_robin_cursor st !! t) (ring q)) in *.
  rewrite (cyclic_window (ring q) l j n i); [apply ring_Permutation| |done|exact C|done].
  rewrite (Permutation_length (ring_Permutation q)). destruct q; [done|]. cbn. lia.
Qed.

(** The jobs a state records for an offer's provider. *)
Definition served (st : SelectionState) (o : CapacityOffer) : N :=
  amount_at (served_counts st) (CapacityOffer.holder_pubkey o).

Definition jobs (st : SelectionState) (q : list CapacityOffer) : N :=
  foldr (λ o acc, served st o + acc) 0 q.

Lemma jobs_cons st o q : jobs st (o :: q) = served st o + jobs st q.
Proof. done. Qed.

(** How often the provider of [o] won. *)
Definition won (o : CapacityOffer) (l : list CapacityOffer) : N :=
  N.of_nat (length (filter
    (λ x, CapacityOffer.holder_pubkey x = CapacityOffer.holder_pubkey o) l)).

Lemma won_cons o x l :
  won o (x :: l)
  = (if bool_decide (CapacityOffer.holder_pubkey x = CapacityOffer.holder_pubkey o) then 1 else 0)
    + won o l.
Proof.
  unfold won. rewrite filter_cons. case_decide; case_bool_decide; try done. cbn [length]. lia.
Qed.

(** [LeastCalls]: the winner had the fewest jobs and now has one more. *)
Lemma pick_least t q st o st1 :
  pick LeastCalls t q st = Some (o, st1) → served st o + 1 < U64 →
  o ∈ q ∧ (∀ x, x ∈ q → served st o <= served st x) ∧
  ∀ x, served st1 x = served st x
         + if bool_decide (CapacityOffer.holder_pubkey o = CapacityOffer.holder_pubkey x)
           then 1 else 0.
Proof.
  cbn. intros (o1 & E & [= -> <-])%bind_Some B.
  apply min_by_spec in E as [Ho M]; [|apply _]. split_and!; [done| |].
  - intros x Hx. specialize (M x Hx). unfold calls_cmp in M. unfold served.
    destruct (N.compare_spec (amount_at (served_counts st) (CapacityOffer.holder_pubkey o))
                (amount_at (served_counts st) (CapacityOffer.holder_pubkey x))); try lia.
    by destruct M.
  - intros x. unfold served, amount_at in *. cbn. case_bool_decide as Hx.
    + rewrite <- Hx, lookup_insert_eq. unfold wrap64. cbn. by rewrite N.mod_small.
    + rewrite lookup_insert_ne by done. lia.
Qed.

Lemma jobs_bump st st1 o q :
  (∀ x, served st1 x = served st x
     + if bool_decide (CapacityOffer.holder_pubkey o = CapacityOffer.holder_pubkey x)
       then 1 else 0) →
  NoDup (CapacityOffer.holder_pubkey <$> q) → o ∈ q → jobs st1 q = jobs st q + 1.
Proof.
  intros S. assert (∀ k, CapacityOffer.holder_pubkey o ∉ CapacityOffer.holder_pubkey <$> k →
    jobs st1 k = jobs st k) as Same.
  { induction k as [|x k IH]; [done|]. intros H. rewrite !jobs_cons, S, IH by set_solver.
    rewrite bool_decide_eq_false_2 by set_solver. lia. }
  induction q as [|x q IH]; [by intros _ ?%elem_of_nil|]. rewrite !jobs_cons.
  intros [Hx N]%list.NoDup_cons [<-|Ho]%elem_of_cons.
  - rewrite S, Same, bool_decide_eq_true_2 by done. lia.
  - rewrite S, IH, bool_decide_eq_false_2; try done; [lia|]. intros E. apply Hx. rewrite <- E.
    by apply list_elem_of_fmap_2.
Qed.

Lemma picks_least q t n st c :
  NoDup (CapacityOffer.holder_pubkey <$> q) → q ≠ [] →
  (∀ o, o ∈ q → c <= served st o <= c + 1) → c + 1 + N.of_nat n < U64 →
  ∃ l st' c', picks LeastCalls t q n st = Some (l, st') ∧ length l = n ∧
    (∀ o, o ∈ q → c' <= served st' o <= c' + 1) ∧ jobs st' q = jobs st q + N.of_nat n ∧
    ∀ o, served st' o = served st o + won o l.
Proof.
  intros N Hq. revert st c. induction n as [|n IH]; intros st c B O; cbn [picks].
  { exists [], st, c. split_and!; [done|done|done|lia|]. intros o. unfold won. cbn. lia. }
  destruct (pick_total LeastCalls t q st Hq) as (o & st1 & E & Ho). rewrite E. cbn.
  pose proof (B o Ho) as Bo.
  destruct (pick_least _ _ _ _ _ E) as (_ & M & S); [lia|].
  assert (∃ c1, c1 <= c + 1 ∧ c1 + 1 + N.of_nat n < U64 ∧
            ∀ x, x ∈ q → c1 <= served st1 x <= c1 + 1) as (c1 & L1 & O1 & B1).
  { exists (served st o). split_and!; [lia|lia|]. intros x Hx. specialize (B x Hx).
    specialize (M x Hx). rewrite S. case_bool_decide as Hk; [|lia].
    assert (served st o = served st x) by (unfold served; by rewrite Hk). lia. }
  destruct (IH st1 c1 B1 O1) as (l & st' & c' & -> & L & B' & J & W). cbn.
  exists (o :: l), st', c'. split_and!; [done|cbn; by rewrite L|done| |].
  - rewrite J, (jobs_bump st st1 o q S N Ho). lia.
  - intros x. rewrite W, S, won_cons. lia.
Qed.

(** The sum of counts that differ by at most one, seen from one of them. *)
Lemma jobs_bounds st q o c :
  o ∈ q → (∀ x, x ∈ q → c <= served st x <= c + 1) →
  served st o + (N.of_nat (length q) - 1) * c <= jobs st q ∧
  jobs st q <= served st o + (N.of_nat (length q) - 1) * (c + 1).
Proof.
  assert (∀ k, (∀ x, x ∈ k → c <= served st x <= c + 1) →
    N.of_nat (length k) * c <= jobs st k ∧ jobs st k <= N.of_nat (length k) * (c + 1)) as A.
  { induction k as [|x k IH]; [cbn; lia|]. intros B. rewrite jobs_cons. cbn [length].
    destruct IH as [I1 I2]; [intros y Hy; apply B; set_solver|].
    pose proof (B x ltac:(set_solver)). lia. }
  induction q as [|x q IH]; [by intros ?%elem_of_nil|].
  intros [->|Ho]%elem_of_cons B; rewrite jobs_cons; cbn [length];
    pose proof (A q ltac:(intros y Hy; apply B; set_solver)).
  - replace (N.of_nat (S (length q)) - 1) with (N.of_nat (length q)) by lia. lia.
  - destruct (IH Ho) as [I1 I2]; [intros y Hy; apply B; set_solver|].
    pose proof (B x ltac:(set_solver)).
    assert (0 < length q)%nat by (destruct q; [by apply elem_of_nil in Ho|cbn; lia]).
    replace (N.of_nat (S (length q)) - 1) with (N.of_nat (length q) - 1 + 1) by lia. lia.
Qed.

(** least-calls is fair: from a state in which the providers have served nothing, [n]
    clearings over an unchanged set of qualifying offers, one per provider, give each of the
    [k] providers [n / k] or [n / k + 1] jobs, and the counts recorded are the jobs won. *)
Theorem least_calls_fair q t n st :
  NoDup (CapacityOffer.holder_pubkey <$> q) → q ≠ [] →
  (∀ o, o ∈ q → served st o = 0) → N.of_nat n + 1 < U64 →
  ∃ l st', picks LeastCalls t q n st = Some (l, st') ∧ length l = n ∧
    ∀ o, o ∈ q → served st' o = won o l ∧
      N.of_nat n / N.of_nat (length q) <= won o l <= N.of_nat n / N.of_nat (length q) + 1.
Proof.
  intros N Hq Z O. destruct (picks_least q t n st 0 N Hq) as (l & st' & c & E & L & B & J & W).
  { intros o Ho. rewrite Z by done. lia. }
  { lia. }
  exists l, st'. do 2 (split; [done|]). intros o Ho.
  assert (served st' o = won o l) as Wo by (rewrite W, Z by done; lia).
  split; [done|]. rewrite <- Wo.
  assert (jobs st q = 0) as J0.
  { clear -Z. induction q as [|x q IH]; [done|]. rewrite jobs_cons, Z, IH by set_solver. done. }
  destruct (jobs_bounds st' q o c Ho B) as [B1 B2]. rewrite J, J0 in *. specialize (B o Ho).
  assert (0 < N.of_nat (length q)) by (destruct q; [done|cbn; lia]).
  split.
  - apply N.lt_succ_r. apply N.Div0.div_lt_upper_bound. nia.
  - apply N.le_sub_le_add_r. apply N.div_le_lower_bound; nia.
Qed.

(** ** Paying for a convened pipeline *)

Section settling.
Context `{Ed25519Laws} (sha256 : bytes → bytes).

(** Feeding holds to the escrow one after the other. *)
Fixpoint lock_all (e : Escrow.Escrow) (hs : list Hold)
    : list (Result () Escrow.EscrowError) * Escrow.Escrow :=
  match hs with
  | [] => ([], e)
  | h :: hs' =>
    let '(r, e1) := Escrow.lock e h in
    let '(rs, e2) := lock_all e1 hs' in
    (r :: rs, e2)
  end.

Definition prices (l : list RoleAssignment) : N := foldr (λ a acc, price a + acc) 0 l.

Definition match_fields (pid : bytes) (a : RoleAssignment) : list field :=
  [FVar pid; FFixed (provider a); FU64 (assigned_units a); FU64 (price a)].

(** The widths of the Rust types. *)
Definition assignment_ok (a : RoleAssignment) : Prop :=
  length (provider a) = 32%nat ∧ u64_ok (assigned_units a) ∧ u64_ok (price a).

(** The match reference commits to the assignment. *)
Lemma match_preimage_inj pid a b :
  u32_ok (blen pid) → assignment_ok a → assignment_ok b →
  match_preimage pid a = match_preimage pid b → provider a = provider b.
Proof.
  intros Hp (La & Ua & Pa) (Lb & Ub & Pb) E.
  assert (match_fields pid a = match_fields pid b) as [= F _ _]; [|done].
  eapply (build_injective (lit "ct-pipeline-escrow-match-v1") (lit "ct-pipeline-escrow-match-v1"));
    [done|done| | | |exact E]; repeat constructor; cbn; by rewrite ?La, ?Lb.
Qed.

(** Locking a freshly signed hold with the account's next nonce. *)
Lemma lock_signed e key to amount ref expires :
  let from := verifying_key key in
  Escrow.held e !! ref = None → amount <= Escrow.balance e from →
  Escrow.lock e
    (Hold.sign_new key to amount ref (amount_at (Escrow.nonces e) from) expires) =
    (Ok (), {| Escrow.balances := <[from := Escrow.balance e from - amount]> (Escrow.balances e);
               Escrow.nonces :=
                 <[from := wrap64 (amount_at (Escrow.nonces e) from + 1)]> (Escrow.nonces e);
               Escrow.held :=
                 <[ref := {| Escrow.from := from; Escrow.to := to; Escrow.amount := amount;
                             Escrow.expires_at := expires |}]> (Escrow.held e) |}).
Proof.
  intros from Hm Hb. unfold Escrow.lock, Hold.verify. cbn. rewrite sig_verify_sign. cbn.
  rewrite N.eqb_refl, Hm. cbn. by rewrite (proj2 (N.ltb_ge _ _)).
Qed.

(** The record an assignment leaves in the escrow. *)
Definition held_for (key : SigningKey) (expires : N) (a : RoleAssignment) : Escrow.HeldRecord :=
  {| Escrow.from := verifying_key key; Escrow.to := provider a; Escrow.amount := price a;
     Escrow.expires_at := expires |}.

Lemma lock_convened pid key expires l e :
  let buyer := verifying_key key in
  let ref := role_match_ref sha256 pid in
  NoDup (ref <$> l) → (∀ a, a ∈ l → Escrow.held e !! ref a = None) →
  amount_at (Escrow.nonces e) buyer + N.of_nat (length l) < U64 →
  prices l <= Escrow.balance e buyer →
  ∃ e',
    lock_all e (holds_for_convened sha256 pid l key (amount_at (Escrow.nonces e) buyer) expires)
      = (replicate (length l) (Ok ()), e') ∧
    Escrow.balance e' buyer = Escrow.balance e buyer - prices l ∧
    (∀ acct, acct ≠ buyer → Escrow.balance e' acct = Escrow.balance e acct) ∧
    amount_at (Escrow.nonces e') buyer
      = amount_at (Escrow.nonces e) buyer + N.of_nat (length l) ∧
    (∀ a, a ∈ l → Escrow.held e' !! ref a = Some (held_for key expires a)) ∧
    (∀ m, m ∉ ref <$> l → Escrow.held e' !! m = Escrow.held e !! m).
Proof.
  cbv zeta. set (buyer := verifying_key key). set (ref := role_match_ref sha256 pid).
  revert e. induction l as [|a l IH]; intros e N Fr Nn P.
  { exists e. cbn. split_and!; [done|lia|done|lia|by intros ? ?%elem_of_nil|done]. }
  apply list.NoDup_cons in N as [Na N]. cbn [prices foldr] in P. fold (prices l) in P.
  cbn [length] in Nn. unfold holds_for_convened. rewrite imap_cons. cbn [lock_all].
  assert (wrap64 (amount_at (Escrow.nonces e) buyer + N.of_nat 0)
          = amount_at (Escrow.nonces e) buyer) as ->
    by (unfold wrap64; rewrite N.mod_small; lia).
  pose proof (lock_signed e key (provider a) (price a) (ref a) expires (Fr a ltac:(by left)))
    as E0. specialize (E0 ltac:(unfold buyer in P; lia)). cbv zeta in E0.
  fold buyer in E0. change (role_match_ref sha256 pid a) with (ref a). rewrite E0.
  clear E0.
  set (e1 := {| Escrow.balances := _ |}).
  assert (amount_at (Escrow.nonces e1) buyer = amount_at (Escrow.nonces e) buyer + 1) as N1.
  { unfold amount_at at 1, e1. cbn. rewrite lookup_insert_eq. cbn. unfold wrap64.
    rewrite N.mod_small; lia. }
  assert (Escrow.balance e1 buyer = Escrow.balance e buyer - price a) as B1.
  { unfold Escrow.balance at 1, amount_at, e1. cbn. by rewrite lookup_insert_eq. }
  destruct (IH e1 N) as (e' & E & B' & O' & N' & H' & M').
  { intros b Hb. unfold e1. cbn. rewrite lookup_insert_ne; [apply Fr; by right|].
    intros Heq. apply Na. rewrite Heq. by apply list_elem_of_fmap_2. }
  { lia. }
  { rewrite B1. lia. }
  exists e'. rewrite N1 in E. unfold holds_for_convened in E.
  rewrite (imap_ext _ (λ i a, Hold.sign_new key (provider a) (price a)
    (role_match_ref sha256 pid a) (wrap64 (amount_at (Escrow.nonces e) buyer + 1 + N.of_nat i))
    expires)).
  2: { intros k x _. unfold compose. do 2 f_equal. lia. }
  rewrite E. split_and!.
  - done.
  - rewrite B', B1. cbn [prices foldr]. fold (prices l). lia.
  - intros acct Hn. rewrite O' by done. unfold Escrow.balance, amount_at, e1. cbn.
    by rewrite lookup_insert_ne.
  - rewrite N', N1. cbn [length]. lia.
  - intros b [->|Hb]%elem_of_cons; [|by apply H'].
    rewrite M' by done. unfold e1. cbn. by rewrite lookup_insert_eq.
  - intros m Hm. rewrite M' by set_solver. unfold e1. cbn.
    apply lookup_insert_ne. set_solver.
Qed.

(** What a clearing assigns has the widths of the offers and the roles. *)
Lemma filled_ok offers now pf rs l a :
  filled (valid_offers offers now) pf [] rs l → Forall (λ r, u64_ok (units r)) rs →
  Forall CapacityOffer.offer_ok offers → a ∈ l → assignment_ok a.
Proof.
  intros [L F] Hr Ho [i Hi]%list_elem_of_lookup.
  destruct (lookup_lt_is_Some_2 rs i) as [r Hri]; [rewrite <- L; by eapply lookup_lt_Some|].
  destruct (F i r a Hri Hi) as (o & -> & (Hv & _)%elem_of_qualifying & _).
  apply list_elem_of_filter in Hv as [_ Hv].
  rewrite list.Forall_forall in Hr. rewrite list.Forall_forall in Ho.
  destruct (Ho o Hv) as (H1 & _ & _ & _ & H2 & _).
  split_and!; [done| |done]. apply Hr. by eapply list_elem_of_lookup_2.
Qed.

(** Keys are distinct when each determines a field that is. *)
Lemma NoDup_fmap_by {A B D} (g : A → D) (f : A → B) (l : list A) :
  NoDup (g <$> l) → (∀ a b, a ∈ l → b ∈ l → f a = f b → g a = g b) → NoDup (f <$> l).
Proof.
  intros N I. induction l as [|x l IH]; [constructor|]. cbn in *.
  apply list.NoDup_cons in N as [Nx N]. apply list.NoDup_cons. split.
  - intros (y & E & Hy)%list_elem_of_fmap. apply Nx. rewrite (I x y); [|set_solver..].
    by apply list_elem_of_fmap_2.
  - apply IH; [done|]. intros a b Ha Hb. apply I; set_solver.
Qed.

(** a convened pipeline can be paid for. Let a clearing assign [l], let the buyer's next
    nonce be the first nonce, its balance cover the prices, no match of the pipeline be held,
    and SHA-256 not collide on the pipeline's own match preimages. Then every hold of
    [holds_for_convened] locks, in order; the buyer pays exactly the sum of the cleared prices,
    nobody else's balance moves, and each role's price is held for its provider until
    [expires_at], next to whatever was held before. *)
Theorem convened_pipeline_locks spec offers now policy st l st' e key expires :
  let buyer := verifying_key key in
  let ref := role_match_ref sha256 (id spec) in
  convene_with_policy spec offers now policy st = Some (Ok l, st') →
  u32_ok (blen (id spec)) → Forall (λ r, u64_ok (units r)) (roles spec) →
  Forall CapacityOffer.offer_ok offers →
  (∀ a b, a ∈ l → b ∈ l → ref a = ref b →
     match_preimage (id spec) a = match_preimage (id spec) b) →
  (∀ a, a ∈ l → Escrow.held e !! ref a = None) →
  amount_at (Escrow.nonces e) buyer + N.of_nat (length l) < U64 →
  prices l <= Escrow.balance e buyer →
  ∃ e',
    lock_all e (holds_for_convened sha256 (id spec) l key
                  (amount_at (Escrow.nonces e) buyer) expires)
      = (replicate (length l) (Ok ()), e') ∧
    Escrow.balance e' buyer = Escrow.balance e buyer - prices l ∧
    (∀ acct, acct ≠ buyer → Escrow.balance e' acct = Escrow.balance e acct) ∧
    (∀ a, a ∈ l → Escrow.held e' !! ref a = Some (held_for key expires a)) ∧
    (∀ m, m ∉ ref <$> l → Escrow.held e' !! m = Escrow.held e !! m).
Proof.
  intros buyer ref E Hp Hr Ho C Fr Nn P.
  assert (filled (valid_offers offers now) (effective policy) [] (roles spec) l) as F.
  { destruct (convene_valid_outcome spec (valid_offers offers now) (effective policy) st)
      as (res & st0 & E0 & O1 & O2).
    unfold convene_with_policy, convene_roles in E. rewrite E0 in E. injection E as -> ->.
    apply O2. intros Hn. by specialize (O1 Hn). }
  assert (∀ a, a ∈ l → assignment_ok a) as A by (intros a; by eapply filled_ok).
  destruct (filled_distinct _ _ _ _ _ F) as [N _].
  destruct (lock_convened (id spec) key expires l e) as (e' & L & B & O & _ & Hd & M);
    [|done..|by exists e'].
  apply (NoDup_fmap_by provider); [done|]. intros a b Ha Hb Hab.
  apply (match_preimage_inj (id spec)); auto.
Qed.

End settling.

(** ** A concrete pipeline: two roles, three providers *)

#[local] Existing Instance Toy.ed25519.

Definition demo_offer (key : byte) (price : N) (services : list ServiceType) : CapacityOffer :=
  CapacityOffer.sign_new_with_services (key : SigningKey) LocalHardware [lit "m"] 10 price
    (lit "ct") 0 100 services.

Definition demo_role (s : ServiceType) (t : bytes) : RequiredRole :=
  {| service := s; units := 2; tag := t; role_policy := None |}.

Definition demo_spec (rs : list RequiredRole) : PipelineSpec :=
  {| id := lit "flappy"; roles := rs; operator_pubkey_hex := None;
     selection_policy := LowestFloor |}.

Definition demo_pipeline : PipelineSpec :=
  demo_spec [demo_role TextGeneration (lit "physics"); demo_role TextGeneration (lit "art")].

Definition demo_offers : list CapacityOffer :=
  [demo_offer x03 5 [TextGeneration]; demo_offer x02 3 [TextGeneration; CodeGeneration];
   demo_offer x04 9 [TextGeneration]].

Definition demo_assigned : list RoleAssignment :=
  [Assignment TextGeneration (replicate 32 x02) 2 3;
   Assignment TextGeneration (replicate 32 x03) 2 5].

Example demo_convene : convene demo_pipeline demo_offers 50 = Some (Ok demo_assigned).
Proof. vm_compute. reflexivity. Qed.

Example demo_expired :
  convene demo_pipeline demo_offers 100 = Some (Err (UnfilledRole TextGeneration)).
Proof. vm_compute. reflexivity. Qed.

(** The clearing is greedy: the cheaper provider of the first role is the only one of the
    second, so the second stays unfilled although the other assignment fills both. *)
Example greedy_strands_a_role :
  let rs := [demo_role TextGeneration (lit "physics"); demo_role CodeGeneration (lit "code")] in
  convene (demo_spec rs) demo_offers 50 = Some (Err (UnfilledRole CodeGeneration)) ∧
  is_Some (convene (demo_spec (rev rs)) demo_offers 50 ≫= result_ok).
Proof. split; [vm_compute; reflexivity|]. eexists. vm_compute. reflexivity. Qed.

(** A provider with two live offers has both bids flagged as the winner. *)
Example both_offers_flagged :
  let offers := [demo_offer x02 3 [TextGeneration]; demo_offer x02 7 [TextGeneration]] in
  (fst <$> auction_view (demo_spec [demo_role TextGeneration (lit "art")]) offers 50 LowestFloor
     default_state (λ k, k))
  = Some (Ok [{| role := lit "art"; bids :=
      [{| who := replicate 32 x02; bid_units := 10; bid_price := 3; win := true |};
       {| who := replicate 32 x02; bid_units := 10; bid_price := 7; win := true |}] |}]).
Proof. vm_compute. reflexivity. Qed.

Lemma convene_succeeds_witness :
  ∃ l st', convene_with_policy demo_pipeline demo_offers 50 RoundRobin default_state
           = Some (Ok l, st').
Proof.
  apply (convene_succeeds demo_pipeline demo_offers 50 RoundRobin default_state).
  - vm_compute. discriminate.
  - intros i r Hi. assert (i = 0 ∨ i = 1)%nat as [-> | ->].
    { apply lookup_lt_Some in Hi. cbn in Hi. lia. }
    + injection Hi as <-. vm_compute. lia.
    + injection Hi as <-. vm_compute. lia.
Defined.

Lemma round_robin_fair_witness :
  ∃ l st', picks RoundRobin (lit "art") demo_offers 7 default_state = Some (l, st') ∧
    take 3 (drop 2 l) ≡ₚ demo_offers.
Proof.
  destruct (round_robin_fair demo_offers (lit "art") 7 default_state) as (l & st' & E & _ & F).
  - refine (bool_decide_unpack _ _). vm_compute. exact I.
  - discriminate.
  - exists l, st'. split; [exact E|]. apply (F 2%nat). cbn. lia.
Defined.

Lemma least_calls_fair_witness :
  ∃ l st', picks LeastCalls (lit "art") demo_offers 7 default_state = Some (l, st') ∧
    ∀ o, o ∈ demo_offers → 2 <= won o l <= 3.
Proof.
  destruct (least_calls_fair demo_offers (lit "art") 7 default_state) as (l & st' & E & _ & F).
  - refine (bool_decide_unpack _ _). vm_compute. exact I.
  - discriminate.
  - intros o _. reflexivity.
  - reflexivity.
  - exists l, st'. split; [exact E|]. intros o Ho. exact (proj2 (F o Ho)).
Defined.

#[local] Existing Instance Toy.laws.

Lemma convened_pipeline_locks_witness :
  ∃ e', (lock_all (Escrow.new {[ replicate 32 x01 := 9 ]})
           (holds_for_convened (λ b, b) (lit "flappy") demo_assigned (x01 : @SigningKey Toy.ed25519) 0 70)
        = ([Ok (); Ok ()], e')) ∧ Escrow.balance e' (replicate 32 x01) = 1.
Proof.
  destruct (convened_pipeline_locks (λ b, b) demo_pipeline demo_offers 50 LowestFloor
    default_state demo_assigned default_state (Escrow.new {[ replicate 32 x01 := 9 ]})
    (x01 : @SigningKey Toy.ed25519) 70) as (e' & L & B & _).
  - vm_compute. reflexivity.
  - vm_compute. reflexivity.
  - repeat constructor.
  - repeat constructor.
  - intros a b _ _ E. exact E.
  - intros a _. reflexivity.
  - vm_compute. reflexivity.
  - vm_compute. discriminate.
  - exists e'. split; [exact L|]. etransitivity; [exact B|].
    vm_compute. reflexivity.
Defined.

End Pipeline.
