(* ===== verification/Sqlite.v ===== *)
(** * What the durable stores use of SQLite

    The control plane keeps its state in tables of one SQLite file
    ([crates/control-plane/src/storage.rs]). A table is modelled as a map from the primary
    key to the row; an operation of a store runs under the store's lock and in one
    transaction, so it is a function of the tables: what it commits is the new state, and an
    early return without [commit] leaves the old one. Statements are assumed to reach the
    database (an I/O error of SQLite aborts the transaction and is not modelled), except the
    one failure the stores decide on, the violation of a primary key.

    [INTEGER] columns hold 64-bit signed integers: they are [Z], with Rust's casts written
    out. *)

From S2P Require Import Prelude RustStd Maps.

Definition I64_MAX : Z := (2 ^ 63 - 1)%Z.

(** [n as i64] of a [u64]. *)
Definition as_i64 (n : N) : Z := if n <? 2 ^ 63 then Z.of_N n else (Z.of_N n - 2 ^ 64)%Z.

(** [z as u64] and [z as u32] of an [i64]. *)
Definition as_u64 (z : Z) : N := Z.to_N (z mod 2 ^ 64).
Definition as_u32 (z : Z) : N := Z.to_N (z mod 2 ^ 32).

(** [i64::saturating_add]. *)
Definition saturating_add_i64 (a b : Z) : Z := Z.max (- 2 ^ 63) (Z.min (a + b) I64_MAX).

Definition i64_ok (z : Z) : Prop := (- 2 ^ 63 <= z <= I64_MAX)%Z.

Section tables.
Context {K R : Type} `{Countable K}.

(** [INSERT INTO]: fails on a key that is present. *)
Definition sql_insert (k : K) (r : R) (t : gmap K R) : option (gmap K R) :=
  match t !! k with Some _ => None | None => Some (<[k := r]> t) end.

(** [UPDATE ... WHERE key = k]: nothing happens without such a row. *)
Definition sql_update (f : R → R) (k : K) (t : gmap K R) : gmap K R := alter f k t.

(** [DELETE ... WHERE p], and how many rows it removed. *)
Definition sql_delete (p : K → R → bool) (t : gmap K R) : gmap K R :=
  filter (λ kr, p kr.1 kr.2 = false) t.
Definition sql_count (p : K → R → bool) (t : gmap K R) : nat :=
  size (filter (λ kr, p kr.1 kr.2 = true) t).

Lemma sql_insert_Some k r t t' : sql_insert k r t = Some t' ↔ t !! k = None ∧ t' = <[k := r]> t.
Proof. unfold sql_insert. destruct (t !! k); naive_solver. Qed.

Lemma lookup_sql_update f k t k' :
  sql_update f k t !! k' = if decide (k = k') then f <$> t !! k' else t !! k'.
Proof.
  unfold sql_update. destruct (decide (k = k')) as [->|N];
    [apply lookup_alter_eq|by apply lookup_alter_ne].
Qed.

Lemma lookup_sql_delete p t k r :
  sql_delete p t !! k = Some r ↔ t !! k = Some r ∧ p k r = false.
Proof. unfold sql_delete. by rewrite map_lookup_filter_Some. Qed.

Lemma lookup_sql_delete_keep p t k :
  (∀ r, t !! k = Some r → p k r = false) → sql_delete p t !! k = t !! k.
Proof.
  intros Hp. unfold sql_delete. destruct (t !! k) as [r|] eqn:E.
  - apply map_lookup_filter_Some. auto.
  - apply map_lookup_filter_None. by left.
Qed.

Lemma lookup_sql_delete_drop p t k r :
  t !! k = Some r → p k r = true → sql_delete p t !! k = None.
Proof.
  intros E Hp. apply map_lookup_filter_None. right. intros r' E'. cbn. congruence.
Qed.

Lemma sql_delete_count p t : (sql_count p t + size (sql_delete p t) = size t)%nat.
Proof.
  unfold sql_count, sql_delete.
  rewrite <- (map_filter_union_complement (λ kr : K * R, p kr.1 kr.2 = true) t) at 3.
  rewrite map_size_disj_union by apply map_disjoint_filter_complement. f_equal.
  f_equal. apply map_filter_ext. intros k r _. cbn. by rewrite not_true_iff_false.
Qed.

End tables.

Lemma as_i64_small n : n < 2 ^ 63 → as_i64 n = Z.of_N n.
Proof. intros H. unfold as_i64. by rewrite (proj2 (N.ltb_lt _ _)). Qed.

Lemma as_u64_nonneg z : (0 <= z <= I64_MAX)%Z → as_u64 z = Z.to_N z.
Proof. intros H. unfold as_u64, I64_MAX in *. rewrite Z.mod_small; [done|lia]. Qed.

Lemma as_u32_small z : (0 <= z < 2 ^ 32)%Z → as_u32 z = Z.to_N z.
Proof. intros H. unfold as_u32. by rewrite Z.mod_small. Qed.

Lemma as_u64_as_i64 n : u64_ok n → as_u64 (as_i64 n) = n.
Proof.
  unfold u64_ok, U64, as_u64, as_i64. intros H. destruct (n <? 2 ^ 63) eqn:E.
  - rewrite Z.mod_small; lia.
  - rewrite Z.mod_eq by done. replace ((Z.of_N n - 2 ^ 64) / 2 ^ 64)%Z with (-1)%Z; [lia|].
    apply Z.div_unique with (r := Z.of_N n); lia.
Qed.

Lemma saturating_add_i64_small a b :
  (0 <= a)%Z → (0 <= b)%Z → (a + b <= I64_MAX)%Z → saturating_add_i64 a b = (a + b)%Z.
Proof. unfold saturating_add_i64, I64_MAX. lia. Qed.

Lemma saturating_add_i64_ok a b :
  (0 <= a <= I64_MAX)%Z → (0 <= b)%Z →
  (a <= saturating_add_i64 a b <= I64_MAX)%Z ∧ (saturating_add_i64 a b <= a + b)%Z.
Proof. unfold saturating_add_i64, I64_MAX. lia. Qed.

(** Rust's wrapping result of an [i64] operation. *)
Definition wrap_i64 (z : Z) : Z := ((z + 2 ^ 63) mod 2 ^ 64 - 2 ^ 63)%Z.

Lemma wrap_i64_small z : i64_ok z → wrap_i64 z = z.
Proof. unfold i64_ok, I64_MAX, wrap_i64. intros H. rewrite Z.mod_small; lia. Qed.

(** [SELECT SUM(f)]. *)
Definition sum_of {R} (f : R → N) (t : gmap bytes R) : N := total (f <$> t).

Section sums.
Context {R : Type} (f : R → N).
Implicit Type t : gmap bytes R.

Lemma sum_insert_new k r t : t !! k = None → sum_of f (<[k := r]> t) = f r + sum_of f t.
Proof.
  intros H. unfold sum_of. rewrite fmap_insert. apply total_insert_new.
  by rewrite lookup_fmap, H.
Qed.

Lemma sum_delete k r t : t !! k = Some r → f r + sum_of f (delete k t) = sum_of f t.
Proof.
  intros H. unfold sum_of. rewrite fmap_delete, <- (total_delete (f <$> t) k).
  unfold amount_at. by rewrite lookup_fmap, H.
Qed.

Lemma sql_update_some (g : R → R) k r t : t !! k = Some r → sql_update g k t = <[k := g r]> t.
Proof.
  intros H. apply map_eq. intros j. rewrite lookup_sql_update. destruct (decide (k = j)) as [<-|N].
  - by rewrite H, lookup_insert_eq.
  - by rewrite lookup_insert_ne.
Qed.

Lemma sql_update_none (g : R → R) k t : t !! k = None → sql_update g k t = t.
Proof.
  intros H. apply map_eq. intros j. rewrite lookup_sql_update.
  destruct (decide (k = j)) as [<-|]; [by rewrite H|done].
Qed.

Lemma sum_update g k r t :
  t !! k = Some r → sum_of f (sql_update g k t) + f r = sum_of f t + f (g r).
Proof.
  intros H. rewrite (sql_update_some _ _ _ _ H). unfold sum_of. rewrite fmap_insert.
  pose proof (total_insert (f <$> t) k (f (g r))) as T. unfold amount_at in T.
  rewrite lookup_fmap, H in T. cbn in T. lia.
Qed.

Lemma sum_update_same g k t : (∀ r, f (g r) = f r) → sum_of f (sql_update g k t) = sum_of f t.
Proof.
  intros Hf. destruct (t !! k) as [r|] eqn:E.
  - pose proof (sum_update g k r t E) as S. rewrite Hf in S. lia.
  - by rewrite sql_update_none.
Qed.

Lemma sum_insert k r t t' : sql_insert k r t = Some t' → sum_of f t' = f r + sum_of f t.
Proof. intros [N ->]%sql_insert_Some. by apply sum_insert_new. Qed.

End sums.

(** [SELECT COUNT] as a sum. *)
Lemma count_sum {R} (p : R → bool) (t : gmap bytes R) :
  N.of_nat (sql_count (λ _, p) t) = sum_of (λ r, if p r then 1 else 0) t.
Proof.
  induction t as [|k r t Hk IH] using map_ind; [done|]. rewrite sum_insert_new by done.
  unfold sql_count in *. rewrite <- IH. clear IH. destruct (p r) eqn:E.
  - rewrite map_filter_insert_True, map_size_insert_None by (done || by apply map_lookup_filter_None; left).
    lia.
  - rewrite map_filter_insert_False, delete_id; [done|done|]. cbn. by rewrite E.
Qed.
