(* ===== verification/Enroll.v ===== *)
(** * Enrollment

    How an agent gets its identity: single-use join tokens and the binding of a proven key to
    a tenant ([control-plane/src/enrollment.rs], and its durable form [SqliteEnrollment] of
    [storage.rs]), short-lived bootstrap tokens ([SqliteBootstrap]), and the credentials
    minted for enrolled agents ([credential.rs], [issuance.rs]).

    The random bytes an operation draws are arguments of its definition; Ed25519 is an
    instance. *)

From S2P Require Import Prelude RustStd Maps Interfaces Wire Sqlite.
Import Wire.Credential (Credential, SignedCredential, CredError).

(** ** The in-memory service *)

Module Enrollment.

(** src/crates/control-plane/src/enrollment.rs:23-37 [EnrollError] *)
Inductive EnrollError := UnknownToken | TokenAlreadyUsed | BadProof | Expired.

#[global] Instance enroll_error_eq_dec : EqDecision EnrollError.
Proof. solve_decision. Defined.

(** src/crates/control-plane/src/enrollment.rs:80-85 [Enrollment] *)
Record Enrollment := {
  tokens : gmap bytes (bytes * bool);
  bindings : gmap bytes (bytes * bytes);
}.

(** src/crates/control-plane/src/enrollment.rs:88-90 [Enrollment::new] *)
Definition new : Enrollment := {| tokens := ∅; bindings := ∅ |}.

(** src/crates/control-plane/src/enrollment.rs:93-98 [Enrollment::issue_join_token]: [drawn]
    are the random bytes. *)
Definition issue_join_token (e : Enrollment) (tenant drawn : bytes) : bytes * Enrollment :=
  (drawn, {| tokens := <[drawn := (tenant, false)]> (tokens e); bindings := bindings e |}).

(** src/crates/control-plane/src/enrollment.rs:102-119 [Enrollment::redeem] *)
Definition redeem (e : Enrollment) (token agent pubkey : bytes)
    : Result bytes EnrollError * Enrollment :=
  match tokens e !! token with
  | None => (Err UnknownToken, e)
  | Some (tenant, true) => (Err TokenAlreadyUsed, e)
  | Some (tenant, false) =>
    (Ok tenant, {| tokens := <[token := (tenant, true)]> (tokens e);
                   bindings := <[agent := (tenant, pubkey)]> (bindings e) |})
  end.

(** src/crates/control-plane/src/enrollment.rs:122-124 [Enrollment::binding] *)
Definition binding (e : Enrollment) (agent : bytes) : option (bytes * bytes) :=
  bindings e !! agent.

(** src/crates/control-plane/src/enrollment.rs:60-65 [verify_join_proof] *)
Definition verify_join_proof `{Ed25519} (token pubkey proof : bytes) : bool :=
  sig_verify pubkey token proof.

End Enrollment.
Import Enrollment (EnrollError, UnknownToken, TokenAlreadyUsed, BadProof, Expired).

(** ** The durable store *)

Module EnrollStore.

(** src/crates/control-plane/src/storage.rs:190-195 [RedeemError] *)
Inductive RedeemError := Enroll (e : EnrollError) | RedeemDb.

(** src/crates/control-plane/src/storage.rs:216-226 [IssueBatchError] *)
Inductive IssueBatchError := Conflict | BatchDb.

(** src/crates/control-plane/src/storage.rs:266-270 [SqliteEnrollment::from_connection]: a row
    of [join_tokens] (and line 301). *)
Record JoinRow := { tenant : bytes; redeemed : Z; expires_at : Z }.

(** src/crates/control-plane/src/storage.rs:276-280 [SqliteEnrollment::from_connection]: a row
    of [batch_issuance] (and line 291). *)
Record BatchRow := { batch_tenant : bytes; tokens : bytes; created_at : Z }.

(** src/crates/control-plane/src/storage.rs:266-281 [SqliteEnrollment::from_connection] *)
Record EnrollStore := {
  join_tokens : gmap bytes JoinRow;
  agent_bindings : gmap bytes (bytes * bytes);
  batch_issuance : gmap bytes BatchRow;
}.

Definition set_tokens (t : gmap bytes JoinRow) (s : EnrollStore) : EnrollStore :=
  {| join_tokens := t; agent_bindings := agent_bindings s; batch_issuance := batch_issuance s |}.

(** src/crates/control-plane/src/storage.rs:264-301 [SqliteEnrollment::from_connection]: a
    fresh file. *)
Definition empty : EnrollStore :=
  {| join_tokens := ∅; agent_bindings := ∅; batch_issuance := ∅ |}.

(** src/crates/control-plane/src/storage.rs:261-261 [JOIN_TOKEN_TTL_SECS] *)
Definition JOIN_TOKEN_TTL_SECS : N := 7 * 24 * 3600.

(** src/crates/control-plane/src/storage.rs:309-309 [SqliteEnrollment::issue_join_token] (and
    lines 336 and 407). *)
Definition expiry (now : N) : Z := as_i64 (saturating_add64 now JOIN_TOKEN_TTL_SECS).

(** src/crates/control-plane/src/storage.rs:306-315 [SqliteEnrollment::issue_join_token] *)
Definition issue_join_token (s : EnrollStore) (tenant : bytes) (now : N) (drawn : bytes)
    : option bytes * EnrollStore :=
  match sql_insert drawn {| tenant := tenant; redeemed := 0; expires_at := expiry now |}
          (join_tokens s) with
  | None => (None, s)
  | Some t => (Some drawn, set_tokens t s)
  end.

(** src/crates/control-plane/src/storage.rs:340-348 [SqliteEnrollment::issue_join_tokens]: the
    minting loop (and lines 410-419), over the bytes drawn by its rounds. *)
Fixpoint mint_each (tenant : bytes) (expires : Z) (drawn : list bytes) (t : gmap bytes JoinRow)
    : option (gmap bytes JoinRow) :=
  match drawn with
  | [] => Some t
  | d :: drawn' =>
    t' ← sql_insert d {| tenant := tenant; redeemed := 0; expires_at := expires |} t;
    mint_each tenant expires drawn' t'
  end.

(** src/crates/control-plane/src/storage.rs:330-351 [SqliteEnrollment::issue_join_tokens]:
    [count] is the number of draws. *)
Definition issue_join_tokens (s : EnrollStore) (tenant : bytes) (now : N) (drawn : list bytes)
    : option (list bytes) * EnrollStore :=
  match mint_each tenant (expiry now) drawn (join_tokens s) with
  | None => (None, s)
  | Some t => (Some drawn, set_tokens t s)
  end.

(** src/crates/control-plane/src/storage.rs:372-422
    [SqliteEnrollment::issue_join_tokens_idempotent]: [draw] gives the bytes of each round. *)
Definition issue_join_tokens_idempotent (s : EnrollStore) (tenant : bytes) (count : nat)
    (idempotency_key : bytes) (now : N) (draw : nat → bytes)
    : Result (list bytes) IssueBatchError * EnrollStore :=
  match batch_issuance s !! idempotency_key with
  | Some row =>
    if negb (bool_decide (batch_tenant row = tenant))
       || negb (length (tokens row) =? count * 32)%nat
    then (Err Conflict, s)
    else (Ok (filter (λ c, length c = 32%nat) (chunks 32 (tokens row))), s)
  | None =>
    let drawn := draw <$> seq 0 count in
    match mint_each tenant (expiry now) drawn (join_tokens s) with
    | None => (Err BatchDb, s)
    | Some t =>
      (Ok drawn,
       {| join_tokens := t; agent_bindings := agent_bindings s;
          batch_issuance := <[idempotency_key :=
            {| batch_tenant := tenant; tokens := concat drawn; created_at := as_i64 now |}]>
            (batch_issuance s) |})
    end
  end.

(** src/crates/control-plane/src/storage.rs:440-474 [SqliteEnrollment::redeem] *)
Definition redeem (s : EnrollStore) (token agent pubkey : bytes) (now : N)
    : Result bytes RedeemError * EnrollStore :=
  match join_tokens s !! token with
  | None => (Err (Enroll UnknownToken), s)
  | Some row =>
    if negb (redeemed row =? 0)%Z then (Err (Enroll TokenAlreadyUsed), s)
    else
      let t := sql_update (λ r, {| tenant := tenant r; redeemed := 1; expires_at := expires_at r |})
                 token (join_tokens s) in
      if negb (expires_at row =? 0)%Z && (expires_at row <? as_i64 now)%Z
      then (Err (Enroll Expired), set_tokens t s)
      else
        (Ok (tenant row),
         {| join_tokens := t;
            agent_bindings := <[agent := (tenant row, pubkey)]> (agent_bindings s);
            batch_issuance := batch_issuance s |})
  end.

(** src/crates/control-plane/src/storage.rs:483-495 [SqliteEnrollment::redeem_with_proof] *)
Definition redeem_with_proof `{Ed25519} (s : EnrollStore) (token agent pubkey proof : bytes)
    (now : N) : Result bytes RedeemError * EnrollStore :=
  if negb (Enrollment.verify_join_proof token pubkey proof) then (Err (Enroll BadProof), s)
  else redeem s token agent pubkey now.

(** src/crates/control-plane/src/storage.rs:498-527 [SqliteEnrollment::binding] *)
Definition binding (s : EnrollStore) (agent : bytes) : Result (option (bytes * bytes)) () :=
  match agent_bindings s !! agent with
  | None => Ok None
  | Some (tenant, pk) => if (length pk =? 32)%nat then Ok (Some (tenant, pk)) else Err ()
  end.

(** src/crates/control-plane/src/storage.rs:530-534 [SqliteEnrollment::agent_count] *)
Definition agent_count (s : EnrollStore) : nat := size (agent_bindings s).

(** src/crates/control-plane/src/storage.rs:547-547
    [SqliteEnrollment::prune_redeemed_join_tokens]: the [WHERE] clause. *)
Definition prunable (now : N) (_ : bytes) (r : JoinRow) : bool :=
  negb (redeemed r =? 0)%Z || (negb (expires_at r =? 0)%Z && (expires_at r <? as_i64 now)%Z).

(** src/crates/control-plane/src/storage.rs:545-550
    [SqliteEnrollment::prune_redeemed_join_tokens] *)
Definition prune_redeemed_join_tokens (s : EnrollStore) (now : N) : nat * EnrollStore :=
  (sql_count (prunable now) (join_tokens s),
   set_tokens (sql_delete (prunable now) (join_tokens s)) s).

(** src/crates/control-plane/src/storage.rs:559-564 [SqliteEnrollment::prune_batch_issuance] *)
Definition prune_batch_issuance (s : EnrollStore) (now max_age_secs : N) : nat * EnrollStore :=
  let cutoff := as_i64 (now - max_age_secs) in
  let old := λ (_ : bytes) r, negb (created_at r =? 0)%Z && (created_at r <? cutoff)%Z in
  (sql_count old (batch_issuance s),
   {| join_tokens := join_tokens s; agent_bindings := agent_bindings s;
      batch_issuance := sql_delete old (batch_issuance s) |}).

(** ** Redemption, branch by branch *)

(** A join token that [redeem] accepts at [now]. *)
Definition redeemable (now : N) (r : JoinRow) : Prop :=
  redeemed r = 0%Z ∧ (expires_at r = 0%Z ∨ (as_i64 now <= expires_at r)%Z).

Definition consumed (r : JoinRow) : JoinRow :=
  {| tenant := tenant r; redeemed := 1; expires_at := expires_at r |}.

Lemma redeem_cases s token agent pubkey now :
  (join_tokens s !! token = None ∧
     redeem s token agent pubkey now = (Err (Enroll UnknownToken), s)) ∨
  (∃ r, join_tokens s !! token = Some r ∧ redeemed r ≠ 0%Z ∧
     redeem s token agent pubkey now = (Err (Enroll TokenAlreadyUsed), s)) ∨
  (∃ r, join_tokens s !! token = Some r ∧ redeemed r = 0%Z ∧ ¬ redeemable now r ∧
     redeem s token agent pubkey now =
       (Err (Enroll Expired), set_tokens (<[token := consumed r]> (join_tokens s)) s)) ∨
  (∃ r, join_tokens s !! token = Some r ∧ redeemable now r ∧
     redeem s token agent pubkey now =
       (Ok (tenant r), {| join_tokens := <[token := consumed r]> (join_tokens s);
                          agent_bindings := <[agent := (tenant r, pubkey)]> (agent_bindings s);
                          batch_issuance := batch_issuance s |})).
Proof.
  unfold redeem. destruct (join_tokens s !! token) as [r|] eqn:E; [|by left].
  assert (sql_update (λ r0, {| tenant := tenant r0; redeemed := 1; expires_at := expires_at r0 |})
            token (join_tokens s) = <[token := consumed r]> (join_tokens s)) as ->.
  { apply map_eq. intros k. rewrite lookup_sql_update. destruct (decide (token = k)) as [<-|N].
    - by rewrite E, lookup_insert_eq.
    - by rewrite lookup_insert_ne. }
  destruct (redeemed r =? 0)%Z eqn:R; cbn [negb]; bool_facts.
  2: { right; left. exists r. auto. }
  destruct (negb (expires_at r =? 0)%Z && (expires_at r <? as_i64 now)%Z) eqn:X.
  - right; right; left. exists r. split_and!; [done|done| |done]. unfold redeemable.
    bool_facts. lia.
  - right; right; right. exists r. split_and!; [done| |done]. unfold redeemable. split; [done|].
    apply andb_false_iff in X as [X|X]; bool_facts; lia.
Qed.

(** ** Single use *)

Section single_use.
Context `{Ed25519}.

Inductive Op :=
| OpIssue (tenant : bytes) (now : N) (drawn : bytes)
| OpIssueMany (tenant : bytes) (now : N) (drawn : list bytes)
| OpIssueIdempotent (tenant : bytes) (count : nat) (key : bytes) (now : N) (draw : nat → bytes)
| OpRedeem (token agent pubkey proof : bytes) (now : N)
| OpPruneTokens (now : N)
| OpPruneBatches (now max_age_secs : N).

Definition exec (s : EnrollStore) (o : Op) : EnrollStore :=
  match o with
  | OpIssue tn now d => (issue_join_token s tn now d).2
  | OpIssueMany tn now d => (issue_join_tokens s tn now d).2
  | OpIssueIdempotent tn n k now d => (issue_join_tokens_idempotent s tn n k now d).2
  | OpRedeem t a pk pr now => (redeem_with_proof s t a pk pr now).2
  | OpPruneTokens now => (prune_redeemed_join_tokens s now).2
  | OpPruneBatches now age => (prune_batch_issuance s now age).2
  end.

(** Successful redemptions of [t], and creations of its row. *)
Definition redeems (s : EnrollStore) (o : Op) (t : bytes) : nat :=
  match o with
  | OpRedeem t' a pk pr now =>
    if is_ok (redeem_with_proof s t' a pk pr now).1 && bool_decide (t' = t) then 1 else 0
  | _ => 0
  end%nat.
Definition mints (s : EnrollStore) (o : Op) (t : bytes) : nat :=
  if bool_decide (join_tokens s !! t = None)
     && negb (bool_decide (join_tokens (exec s o) !! t = None)) then 1%nat else 0%nat.

(** A run, with the redemptions and creations of [t] counted. *)
Fixpoint run (s : EnrollStore) (os : list Op) (t : bytes) : nat * nat :=
  match os with
  | [] => (0, 0)%nat
  | o :: os' =>
    let '(r, m) := run (exec s o) os' t in (redeems s o t + r, mints s o t + m)%nat
  end.

Definition live (s : EnrollStore) (t : bytes) : nat :=
  match join_tokens s !! t with
  | Some r => if (redeemed r =? 0)%Z then 1%nat else 0%nat
  | None => 0%nat
  end.

Lemma live_le s t : (live s t ≤ 1)%nat.
Proof. unfold live. destruct (_ !! t) as [r|]; [destruct (_ =? _)%Z|]; lia. Qed.

Lemma mint_each_keeps tn x ds t t' k r :
  mint_each tn x ds t = Some t' → t !! k = Some r → t' !! k = Some r.
Proof.
  revert t. induction ds as [|d ds IH]; intros t; cbn; [by intros [= ->]|].
  intros (t1 & [Hn ->]%sql_insert_Some & E)%bind_Some Hk. apply (IH _ E).
  rewrite lookup_insert_ne; [done|]. intros ->. congruence.
Qed.

(** Operations that only add rows. *)
Lemma live_added s o t :
  (∀ k r, join_tokens s !! k = Some r → join_tokens (exec s o) !! k = Some r) →
  (live (exec s o) t ≤ live s t + mints s o t)%nat.
Proof.
  intros K. unfold mints, live. destruct (join_tokens s !! t) as [r|] eqn:E.
  - rewrite (K _ _ E). lia.
  - rewrite bool_decide_eq_true_2 by done. cbn [andb].
    destruct (join_tokens (exec s o) !! t) as [r|]; [|lia].
    rewrite bool_decide_eq_false_2 by done. cbn. destruct (_ =? _)%Z; lia.
Qed.

Lemma issue_keeps s tn now d k r :
  join_tokens s !! k = Some r → join_tokens (issue_join_token s tn now d).2 !! k = Some r.
Proof.
  intros Hk. unfold issue_join_token. destruct (sql_insert _ _ _) as [t|] eqn:E; [|done].
  apply sql_insert_Some in E as [Hn ->]. cbn. rewrite lookup_insert_ne; [done|].
  intros ->. congruence.
Qed.

Lemma redeem_live s t' a pk pr now t :
  (live (exec s (OpRedeem t' a pk pr now)) t + redeems s (OpRedeem t' a pk pr now) t
   ≤ live s t)%nat.
Proof.
  cbn [exec redeems]. unfold redeem_with_proof.
  destruct (negb _); [cbn; unfold live; cbn; lia|].
  destruct (redeem_cases s t' a pk now)
    as [(E & ->)|[(r & E & R & ->)|[(r & E & R & _ & ->)|(r & E & [R _] & ->)]]];
    cbn [fst snd is_ok andb]; try lia; unfold live; cbn [set_tokens join_tokens].
  - destruct (decide (t' = t)) as [->|N].
    + rewrite lookup_insert_eq. cbn. lia.
    + rewrite lookup_insert_ne by done. lia.
  - destruct (decide (t' = t)) as [->|N].
    + rewrite lookup_insert_eq, E, R, bool_decide_eq_true_2 by done. cbn. lia.
    + rewrite lookup_insert_ne, bool_decide_eq_false_2 by done. lia.
Qed.

Lemma exec_live s o t :
  (live (exec s o) t + redeems s o t ≤ live s t + mints s o t)%nat.
Proof.
  destruct o as [tn now d|tn now ds|tn n k now d|t' a pk pr now|now|now age].
  4: { pose proof (redeem_live s t' a pk pr now t). lia. }
  1-3: cbn [redeems]; rewrite Nat.add_0_r; apply live_added; intros k' r Hk.
  - by apply issue_keeps.
  - cbn. unfold issue_join_tokens. destruct (mint_each _ _ _ _) eqn:E; [|done]. cbn.
    by eapply mint_each_keeps.
  - cbn. unfold issue_join_tokens_idempotent. destruct (batch_issuance s !! k) as [row|].
    { by destruct (_ || _). }
    destruct (mint_each _ _ _ _) eqn:E; [|done]. cbn. by eapply mint_each_keeps.
  - cbn [exec redeems]. unfold live. change (join_tokens (prune_redeemed_join_tokens s now).2)
      with (sql_delete (prunable now) (join_tokens s)).
    destruct (sql_delete (prunable now) (join_tokens s) !! t) as [r|] eqn:E; [|cbn; lia].
    apply lookup_sql_delete in E as [E _]. rewrite E. lia.
  - cbn. unfold live. cbn. lia.
Qed.

(** What a redemption does to the bindings: the proven key under the token's tenant, or nothing. *)
Lemma redeem_binds s tk agent pk pr now :
  let '(r, s') := redeem_with_proof s tk agent pk pr now in
  match r with
  | Ok tn => sig_verify pk tk pr = true ∧
             (∃ row, join_tokens s !! tk = Some row ∧ redeemable now row ∧ tenant row = tn) ∧
             agent_bindings s' = <[agent := (tn, pk)]> (agent_bindings s)
  | Err _ => agent_bindings s' = agent_bindings s
  end.
Proof.
  unfold redeem_with_proof, Enrollment.verify_join_proof.
  destruct (sig_verify _ _ _) eqn:V; cbn [negb]; [|done].
  destruct (redeem_cases s tk agent pk now)
    as [(E & ->)|[(r & E & R & ->)|[(r & E & R & _ & ->)|(r & E & R & ->)]]]; try done.
  split_and!; [done| |done]. by exists r.
Qed.

(** Only redemptions touch the bindings. *)
Lemma exec_binds s o :
  agent_bindings (exec s o) = agent_bindings s ∨
  ∃ tk agent pk pr now tn, o = OpRedeem tk agent pk pr now ∧
    (redeem_with_proof s tk agent pk pr now).1 = Ok tn.
Proof.
  destruct o as [tn now d|tn now ds|tn n k now d|tk a pk pr now|now|now age]; cbn [exec]; try by left.
  - left. unfold issue_join_token. by destruct (sql_insert _ _ _).
  - left. unfold issue_join_tokens. by destruct (mint_each _ _ _ _).
  - left. unfold issue_join_tokens_idempotent. destruct (batch_issuance s !! k);
      [by destruct (_ || _)|by destruct (mint_each _ _ _ _)].
  - pose proof (redeem_binds s tk a pk pr now) as B.
    destruct (redeem_with_proof s tk a pk pr now) as [[tn|e] s'] eqn:E; [right|by left].
    exists tk, a, pk, pr, now, tn. by rewrite E.
Qed.

(** Where the binding of an agent comes from: the redemption of this run that made it. *)
Definition earned (s : EnrollStore) (os : list Op) (agent tn pk : bytes) : Prop :=
  ∃ before tk proof now after row,
    os = before ++ OpRedeem tk agent pk proof now :: after ∧
    (redeem_with_proof (foldl exec s before) tk agent pk proof now).1 = Ok tn ∧
    join_tokens (foldl exec s before) !! tk = Some row ∧ redeemable now row ∧ tenant row = tn ∧
    sig_verify pk tk proof = true.

Lemma run_earned s os agent tn pk :
  agent_bindings (foldl exec s os) !! agent = Some (tn, pk) →
  agent_bindings s !! agent = Some (tn, pk) ∨ earned s os agent tn pk.
Proof.
  induction os as [|o os IH] using rev_ind; [by left|]. rewrite foldl_app. cbn [foldl].
  set (s1 := foldl exec s os) in *. intros E.
  assert (agent_bindings s1 !! agent = Some (tn, pk) →
          agent_bindings s !! agent = Some (tn, pk) ∨ earned s (os ++ [o]) agent tn pk) as Old.
  { intros [K|(b & tk & pr & now & a & row & -> & K)]%IH; [by left|]. right.
    exists b, tk, pr, now, (a ++ [o]), row. by rewrite <- app_assoc. }
  destruct (exec_binds s1 o) as [K|(tk & ag & pk' & pr & now & tn' & -> & K)];
    [rewrite K in E; by apply Old|].
  pose proof (redeem_binds s1 tk ag pk' pr now) as B. cbn [exec] in E.
  destruct (redeem_with_proof s1 tk ag pk' pr now) as [r s'] eqn:R. cbn in K, E. subst r.
  destruct B as (V & (row & Er & Rd & Et) & B). rewrite B in E.
  apply lookup_insert_Some in E as [[-> [= -> ->]]|[_ E]]; [|by apply Old].
  right. exists os, tk, pr, now, [], row. split_and!; try done. fold s1. by rewrite R.
Qed.

(** C38 a join token is redeemed at most once per time it was issued, and only for a proven key:
    in any sequence of issues (single, bulk, idempotent), redemptions and prunings from any
    store, the successful redemptions of a token are at most the times its row was created, plus
    one if it was live at the start; and every binding in the store at the end was there at the
    start or was made by a redemption of this run, of a live and unexpired token, under the
    tenant of that token and for the very key whose signature over the token was verified. *)
Theorem join_token_single_use s os t :
  (let '(r, m) := run s os t in (r ≤ m + live s t)%nat) ∧
  ∀ agent tn pk, agent_bindings (foldl exec s os) !! agent = Some (tn, pk) →
    agent_bindings s !! agent = Some (tn, pk) ∨ earned s os agent tn pk.
Proof.
  split; [|intros agent tn pk; apply run_earned].
  revert s. induction os as [|o os IH]; intros s; cbn; [lia|]. specialize (IH (exec s o)).
  destruct (run (exec s o) os t) as [r m]. pose proof (exec_live s o t). lia.
Qed.

End single_use.

(** ** Pruning *)

(** pruning join tokens changes nothing anybody can redeem: at the time of the pruning or
    later, a redemption succeeds on the pruned store exactly when it succeeds on the
    unpruned one, with the same tenant and the same bindings; and the pruning removes
    exactly the rows that are redeemed or past their expiry. *)
Theorem prune_harmless s now now' t agent pubkey :
  let '(removed, s') := prune_redeemed_join_tokens s now in
  now <= now' → now' < 2 ^ 63 →
  (removed + size (join_tokens s') = size (join_tokens s))%nat ∧
  (∀ k r, join_tokens s' !! k = Some r ↔
     join_tokens s !! k = Some r ∧ (redeemed r = 0%Z ∧
       (expires_at r = 0%Z ∨ (as_i64 now <= expires_at r)%Z))) ∧
  ∀ tn, (redeem s' t agent pubkey now').1 = Ok tn ↔ (redeem s t agent pubkey now').1 = Ok tn.
Proof.
  cbn. intros L B. pose proof (as_i64_small now' B). pose proof (as_i64_small now ltac:(lia)).
  assert (∀ k r, sql_delete (prunable now) (join_tokens s) !! k = Some r ↔
            join_tokens s !! k = Some r ∧ redeemable now r) as K.
  { intros k r. rewrite lookup_sql_delete. unfold prunable, redeemable.
    rewrite orb_false_iff, andb_false_iff, !negb_false_iff, !Z.eqb_eq, Z.ltb_ge. tauto. }
  split_and!; [apply sql_delete_count|exact K|]. intros tn.
  assert (∀ s0, (redeem s0 t agent pubkey now').1 = Ok tn ↔
            ∃ r, join_tokens s0 !! t = Some r ∧ redeemable now' r ∧ tenant r = tn) as R.
  { intros s0. destruct (redeem_cases s0 t agent pubkey now')
      as [(E & ->)|[(r & E & R & ->)|[(r & E & R & N & ->)|(r & E & R & ->)]]];
      cbn; rewrite E; unfold redeemable in *; naive_solver. }
  rewrite !R. cbn. split.
  - intros (r & [E _]%K & R' & T). eauto.
  - intros (r & E & R' & T). exists r. split_and!; [|done|done]. apply K. split; [done|].
    unfold redeemable in *. lia.
Qed.

(** ** Idempotent bulk issue *)

Lemma mint_each_fresh tn x ds t t' :
  mint_each tn x ds t = Some t' →
  NoDup ds ∧ ∀ d, d ∈ ds → t !! d = None ∧
    t' !! d = Some {| tenant := tn; redeemed := 0; expires_at := x |}.
Proof.
  revert t. induction ds as [|d ds IH]; intros t; cbn.
  { intros _. split; [constructor|]. intros d ?%elem_of_nil. done. }
  intros (t1 & [Hn ->]%sql_insert_Some & E)%bind_Some. destruct (IH _ E) as [N F]. split.
  - apply list.NoDup_cons. split; [|done]. intros H. apply F in H as [H _].
    by rewrite lookup_insert_eq in H.
  - intros d' [->|Hd]%elem_of_cons.
    + split; [done|]. eapply mint_each_keeps; [exact E|]. apply lookup_insert_eq.
    + destruct (F d' Hd) as [H1 H2]. split; [|done].
      destruct (decide (d = d')) as [<-|]; [done|]. by rewrite lookup_insert_ne in H1.
Qed.

Lemma length_concat_equal {A} n (ls : list (list A)) :
  Forall (λ l, length l = n) ls → length (concat ls) = (length ls * n)%nat.
Proof. induction 1 as [|l ls L _ IH]; [done|]. cbn. rewrite length_app, IH. lia. Qed.

Lemma filter_all {A} (P : A → Prop) `{∀ x, Decision (P x)} l : Forall P l → filter P l = l.
Proof.
  induction 1 as [|x l Hx _ IH]; [done|]. by rewrite filter_cons, decide_True, IH by done.
Qed.

(** Operations other than the pruning of batches keep the records of batches. *)
Lemma batch_kept `{Ed25519} s o k row :
  (∀ now age, o ≠ OpPruneBatches now age) → batch_issuance s !! k = Some row →
  batch_issuance (exec s o) !! k = Some row.
Proof.
  intros N E. destruct o as [tn now d|tn now ds|tn n k' now d|t' a pk pr now|now|now age]; cbn.
  - unfold issue_join_token. by destruct (sql_insert _ _ _).
  - unfold issue_join_tokens. by destruct (mint_each _ _ _ _).
  - unfold issue_join_tokens_idempotent. destruct (batch_issuance s !! k') as [row'|] eqn:E'.
    { by destruct (_ || _). }
    destruct (mint_each _ _ _ _); [|done]. cbn. rewrite lookup_insert_ne; [done|].
    intros ->. congruence.
  - unfold redeem_with_proof. destruct (negb _); [done|].
    by destruct (redeem_cases s t' a pk now)
      as [(_ & ->)|[(r & _ & _ & ->)|[(r & _ & _ & _ & ->)|(r & _ & _ & ->)]]].
  - done.
  - by destruct (N now age).
Qed.

(** a retried bulk issue mints nothing twice. The first call under a key mints [count] distinct
    live tokens, none of which existed; after any further operations but the pruning of the
    key's record, a retry for the same tenant and count returns the same tokens and changes
    nothing, whatever bytes it would have drawn, and a retry for another tenant or count is a
    [Conflict] that changes nothing. *)
Theorem bulk_issue_idempotent `{Ed25519} s tn count key now draw toks s1 os :
  issue_join_tokens_idempotent s tn count key now draw = (Ok toks, s1) →
  batch_issuance s !! key = None → (∀ i, length (draw i) = 32%nat) →
  Forall (λ o, ∀ now age, o ≠ OpPruneBatches now age) os →
  length toks = count ∧ NoDup toks ∧
  (∀ t, t ∈ toks → join_tokens s !! t = None ∧ live s1 t = 1%nat) ∧
  ∀ now' draw', let s2 := foldl exec s1 os in
    issue_join_tokens_idempotent s2 tn count key now' draw' = (Ok toks, s2) ∧
    ∀ tn' count', tn' ≠ tn ∨ count' ≠ count →
      issue_join_tokens_idempotent s2 tn' count' key now' draw' = (Err Conflict, s2).
Proof.
  intros E Hk D No. unfold issue_join_tokens_idempotent in E. rewrite Hk in E.
  destruct (mint_each tn (expiry now) (draw <$> seq 0 count) (join_tokens s)) as [t|] eqn:M;
    [|done].
  injection E as <- <-. apply mint_each_fresh in M as [N F].
  assert (Forall (λ d, length d = 32%nat) (draw <$> seq 0 count)) as W.
  { apply Forall_fmap, list.Forall_forall. intros i _. apply D. }
  split_and!; [by rewrite length_fmap, length_seq|done| |].
  - intros d Hd. destruct (F d Hd) as [H1 H2]. split; [done|]. unfold live. cbn. by rewrite H2.
  - intros now' draw' s2.
    assert (batch_issuance s2 !! key = Some {| batch_tenant := tn;
      tokens := concat (draw <$> seq 0 count); created_at := as_i64 now |}) as B.
    { unfold s2. clear s2. set (s1 := {| join_tokens := _ |}).
      assert (batch_issuance s1 !! key = Some {| batch_tenant := tn;
        tokens := concat (draw <$> seq 0 count); created_at := as_i64 now |}) as B
        by apply lookup_insert_eq.
      clearbody s1. revert s1 B. induction No as [|o os Ho _ IH]; intros s1 B; [done|].
      cbn. apply IH. by apply batch_kept. }
    assert (length (concat (draw <$> seq 0 count)) = (count * 32)%nat) as Lc.
    { rewrite (length_concat_equal 32) by done. by rewrite length_fmap, length_seq. }
    unfold issue_join_tokens_idempotent. rewrite B. cbn [batch_tenant tokens]. split.
    + rewrite bool_decide_eq_true_2, Lc, Nat.eqb_refl by done. cbn.
      rewrite chunks_pieces, filter_all by (done || lia). done.
    + intros tn' count' Hd. destruct (decide (tn = tn')) as [<-|Nt].
      * rewrite bool_decide_eq_true_2, Lc by done. destruct Hd as [Hd|Hd]; [done|].
        by rewrite (proj2 (Nat.eqb_neq _ _)) by lia.
      * by rewrite bool_decide_eq_false_2.
Qed.


(** ** The store against the in-memory service *)

(** What the store holds, as the in-memory service would hold it. *)
Definition abs (s : EnrollStore) : Enrollment.Enrollment :=
  {| Enrollment.tokens := (λ r, (tenant r, negb (redeemed r =? 0)%Z)) <$> join_tokens s;
     Enrollment.bindings := agent_bindings s |}.

(** An answer of the service as the store gives it: never an error of the database. *)
Definition by_service (r : Result bytes EnrollError) : Result bytes RedeemError :=
  match r with Ok t => Ok t | Err e => Err (Enroll e) end.

(** the durable store refines the in-memory service: issuing a token whose bytes are new,
    redeeming a token that is not expired (whatever its state), and looking a binding of 32
    bytes up do what the service does, on the same abstract state; only expiry and pruning
    are the store's own. *)
Theorem enroll_store_refines s tn now d t agent pubkey :
  (join_tokens s !! d = None →
     let '(r, s') := issue_join_token s tn now d in
     r = Some d ∧ (d, abs s') = Enrollment.issue_join_token (abs s) tn d) ∧
  ((∀ r, join_tokens s !! t = Some r → redeemed r = 0%Z → redeemable now r) →
     let '(r, s') := redeem s t agent pubkey now in
     let '(want, e) := Enrollment.redeem (abs s) t agent pubkey in r = by_service want ∧ abs s' = e) ∧
  ((∀ tn' pk, agent_bindings s !! agent = Some (tn', pk) → length pk = 32%nat) →
     binding s agent = Ok (Enrollment.binding (abs s) agent)).
Proof.
  split_and!.
  - intros Hd. unfold issue_join_token, sql_insert. rewrite Hd. split; [done|].
    unfold Enrollment.issue_join_token, abs. cbn. by rewrite fmap_insert.
  - intros Hx. unfold Enrollment.redeem. cbn [abs Enrollment.tokens]. rewrite lookup_fmap.
    destruct (redeem_cases s t agent pubkey now)
      as [(E & ->)|[(r & E & R & ->)|[(r & E & R & N & ->)|(r & E & R & ->)]]]; rewrite E; cbn.
    + done.
    + by rewrite (proj2 (Z.eqb_neq _ _) R).
    + destruct N. by apply Hx.
    + destruct R as [-> _]. cbn. unfold abs. cbn. by rewrite fmap_insert.
  - intros Hb. unfold binding, Enrollment.binding. cbn.
    destruct (agent_bindings s !! agent) as [[tn' pk]|] eqn:E; [|done].
    by rewrite (Hb _ _ eq_refl).
Qed.

End EnrollStore.

(** ** Bootstrap tokens *)

Module Bootstrap.

(** src/crates/control-plane/src/storage.rs:767-776 [BootstrapError] *)
Inductive BootstrapError := BootUnknown | AlreadyUsed | BootExpired.

(** src/crates/control-plane/src/storage.rs:824-829 [SqliteBootstrap::from_connection]: a row
    of [bootstrap_tokens]. *)
Record BootRow := { secret : bytes; boot_expires : Z; boot_redeemed : Z }.

(** src/crates/control-plane/src/storage.rs:838-847 [SqliteBootstrap::mint] *)
Definition mint (t : gmap bytes BootRow) (secret : bytes) (ttl_secs now : N) (drawn : bytes)
    : option bytes * gmap bytes BootRow :=
  match sql_insert drawn {| secret := secret; boot_redeemed := 0;
                            boot_expires := as_i64 (saturating_add64 now ttl_secs) |} t with
  | None => (None, t)
  | Some t' => (Some drawn, t')
  end.

(** src/crates/control-plane/src/storage.rs:854-877 [SqliteBootstrap::redeem] *)
Definition redeem (t : gmap bytes BootRow) (token : bytes) (now : N)
    : Result bytes BootstrapError * gmap bytes BootRow :=
  match t !! token with
  | None => (Err BootUnknown, t)
  | Some row =>
    if negb (boot_redeemed row =? 0)%Z then (Err AlreadyUsed, t)
    else
      let t' := sql_update (λ r, {| secret := secret r; boot_expires := boot_expires r;
                                    boot_redeemed := 1 |}) token t in
      if (boot_expires row <? as_i64 now)%Z then (Err BootExpired, t')
      else (Ok (secret row), t')
  end.

(** src/crates/control-plane/src/storage.rs:881-886 [SqliteBootstrap::prune] *)
Definition prune (t : gmap bytes BootRow) (now : N) : nat * gmap bytes BootRow :=
  let gone := λ (_ : bytes) r, negb (boot_redeemed r =? 0)%Z || (boot_expires r <? as_i64 now)%Z in
  (sql_count gone t, sql_delete gone t).

Definition used (r : BootRow) : BootRow :=
  {| secret := secret r; boot_expires := boot_expires r; boot_redeemed := 1 |}.

(** a bootstrap token hands its secret out at most once and only in time. [redeem] answers the
    secret exactly when the row is unredeemed and [now] is not past its expiry; whenever the
    row was unredeemed it is consumed, expired or not, so that every later redemption is
    [AlreadyUsed]; the other errors change nothing; and pruning at [now] removes no row that
    could be redeemed then. *)
Theorem bootstrap_exact t token now :
  let '(res, t') := redeem t token now in
  (∀ sec, res = Ok sec ↔ ∃ r, t !! token = Some r ∧ boot_redeemed r = 0%Z ∧
     (as_i64 now <= boot_expires r)%Z ∧ secret r = sec) ∧
  (∀ r, t !! token = Some r → boot_redeemed r = 0%Z →
     t' = <[token := used r]> t ∧
     ∀ now', redeem t' token now' = (Err AlreadyUsed, t')) ∧
  (res = Err BootUnknown ∨ res = Err AlreadyUsed → t' = t) ∧
  ∀ k r, (prune t now).2 !! k = Some r ↔
    t !! k = Some r ∧ boot_redeemed r = 0%Z ∧ (as_i64 now <= boot_expires r)%Z.
Proof.
  assert (∀ k r, (prune t now).2 !! k = Some r ↔
    t !! k = Some r ∧ boot_redeemed r = 0%Z ∧ (as_i64 now <= boot_expires r)%Z) as P.
  { intros k r. cbn. rewrite lookup_sql_delete, orb_false_iff, negb_false_iff, Z.eqb_eq, Z.ltb_ge.
    tauto. }
  unfold redeem. destruct (t !! token) as [r|] eqn:E; [|naive_solver].
  destruct (boot_redeemed r =? 0)%Z eqn:R; cbn [negb]; bool_facts; [|naive_solver].
  assert (sql_update (λ r0, {| secret := secret r0; boot_expires := boot_expires r0;
            boot_redeemed := 1 |}) token t = <[token := used r]> t) as ->.
  { apply map_eq. intros k. rewrite lookup_sql_update. destruct (decide (token = k)) as [<-|N].
    - by rewrite E, lookup_insert_eq.
    - by rewrite lookup_insert_ne. }
  assert (∀ now', redeem (<[token := used r]> t) token now'
                  = (Err AlreadyUsed, <[token := used r]> t)) as U.
  { intros now'. unfold redeem. by rewrite lookup_insert_eq. }
  unfold redeem in U. destruct (boot_expires r <? as_i64 now)%Z eqn:X; bool_facts.
  - split_and!; [|naive_solver|naive_solver|exact P]. intros sec. split; [done|].
    intros (r' & [= <-] & _ & H & _). lia.
  - split_and!; [|naive_solver|naive_solver|exact P]. intros sec. split.
    + intros [= <-]. exists r. auto.
    + intros (r' & [= <-] & _ & _ & <-). done.
Qed.

End Bootstrap.

(** ** Credentials for enrolled agents *)

Module Issuance.

Section with_ed25519.
Context `{Ed25519}.

(** src/crates/control-plane/src/credential.rs:16-18 [CredentialIssuer] *)
Record CredentialIssuer := { signing : SigningKey }.

(** src/crates/control-plane/src/credential.rs:28-30 [CredentialIssuer::public_key_bytes] *)
Definition public_key_bytes (i : CredentialIssuer) : bytes := verifying_key (signing i).

(** src/crates/control-plane/src/credential.rs:33-39 [CredentialIssuer::mint] *)
Definition mint (i : CredentialIssuer) (c : Credential) : SignedCredential :=
  {| Credential.credential := c;
     Credential.signature := sign (signing i) (Credential.signing_bytes c) |}.

(** src/crates/control-plane/src/issuance.rs:31-44 [mint_for_enrolled]: [None] is
    [NotEnrolled]. *)
Definition mint_for_enrolled (i : CredentialIssuer) (e : Enrollment.Enrollment) (agent : bytes)
    (expires_at : N) : option SignedCredential :=
  '(tenant, _) ← Enrollment.binding e agent;
  Some (mint i {| Credential.tenant := tenant; Credential.agent := agent;
                  Credential.expires_at := expires_at |}).

End with_ed25519.

Section laws.
Context `{Ed25519Laws}.

(** enrollment leads to a credential that admits: after a redemption of a join token for a
    tenant, the credential minted for the agent names that tenant and the agent, and verifies
    under the issuer's published key until it expires and not from then on; an agent that
    never enrolled gets none. *)
Theorem enrolled_credential_verifies i e token agent pubkey tn e' expires now :
  Enrollment.redeem e token agent pubkey = (Ok tn, e') →
  ∃ c, mint_for_enrolled i e' agent expires = Some c ∧
    Credential.tenant (Credential.credential c) = tn ∧
    Credential.agent (Credential.credential c) = agent ∧
    Credential.verify_stateless key_ok ed_verify (public_key_bytes i) c now
      = (if expires <=? now then Err Credential.Expired else Ok ()) ∧
    ∀ other, Enrollment.binding e' other = None → mint_for_enrolled i e' other expires = None.
Proof.
  unfold Enrollment.redeem. destruct (Enrollment.tokens e !! token) as [[tn' []]|]; try done.
  intros [= -> <-]. eexists. split_and!.
  - unfold mint_for_enrolled, Enrollment.binding. cbn. by rewrite lookup_insert_eq.
  - done.
  - done.
  - unfold Credential.verify_stateless, public_key_bytes. cbn.
    rewrite verifying_key_ok, sign_verifies. cbn. done.
  - intros other Ho. unfold mint_for_enrolled. by rewrite Ho.
Qed.

End laws.

End Issuance.

(** ** A concrete run *)

#[local] Existing Instance Toy.ed25519.
#[local] Existing Instance Toy.laws.

Definition demo_draw (i : nat) : bytes := replicate 32 (byte_of_N (N.of_nat i)).

Definition demo_store : EnrollStore.EnrollStore :=
  (EnrollStore.issue_join_token EnrollStore.empty (lit "acme") 100 (replicate 32 xaa)).2.

(** The agent whose key is the byte [x07] redeems the token, once. *)
Example demo_redeems :
  let redeem s now := EnrollStore.redeem_with_proof s (replicate 32 xaa) (lit "agent")
                        (replicate 32 x07) (replicate 64 x07) now in
  (redeem demo_store 200).1 = Ok (lit "acme") ∧
  (redeem (redeem demo_store 200).2 201).1 = Err (EnrollStore.Enroll TokenAlreadyUsed) ∧
  (redeem demo_store 604901).1 = Err (EnrollStore.Enroll Expired) ∧
  (EnrollStore.redeem_with_proof demo_store (replicate 32 xaa) (lit "agent")
     (replicate 32 x07) (replicate 64 x08) 200).1 = Err (EnrollStore.Enroll BadProof).
Proof. repeat split; vm_compute; reflexivity. Qed.

Lemma prune_harmless_witness :
  (EnrollStore.redeem (EnrollStore.prune_redeemed_join_tokens demo_store 300).2
     (replicate 32 xaa) (lit "agent") (replicate 32 x07) 400).1 = Ok (lit "acme").
Proof.
  apply (EnrollStore.prune_harmless demo_store 300 400 (replicate 32 xaa) (lit "agent")
           (replicate 32 x07)).
  - lia.
  - reflexivity.
  - vm_compute. reflexivity.
Defined.

Lemma bulk_issue_idempotent_witness :
  let call s := EnrollStore.issue_join_tokens_idempotent s (lit "acme") 3 (lit "k") 5 demo_draw in
  (call (call demo_store).2).1 = Ok [demo_draw 0; demo_draw 1; demo_draw 2].
Proof.
  destruct (EnrollStore.bulk_issue_idempotent demo_store (lit "acme") 3 (lit "k") 5 demo_draw
    [demo_draw 0; demo_draw 1; demo_draw 2]
    (EnrollStore.issue_join_tokens_idempotent demo_store (lit "acme") 3 (lit "k") 5 demo_draw).2 [])
    as (_ & _ & _ & R).
  - vm_compute. reflexivity.
  - reflexivity.
  - intros i. unfold demo_draw. apply length_replicate.
  - constructor.
  - destruct (R 5 demo_draw) as [R' _]. exact (f_equal fst R').
Defined.

Lemma enrolled_credential_verifies_witness :
  let e := (Enrollment.issue_join_token Enrollment.new (lit "acme") (replicate 32 xaa)).2 in
  let e' := (Enrollment.redeem e (replicate 32 xaa) (lit "agent") (replicate 32 x07)).2 in
  ∃ c, Issuance.mint_for_enrolled {| Issuance.signing := x01 : @SigningKey Toy.ed25519 |} e'
         (lit "agent") 50 = Some c ∧
    Credential.tenant (Credential.credential c) = lit "acme".
Proof.
  intros e e'.
  destruct (Issuance.enrolled_credential_verifies
    {| Issuance.signing := x01 : @SigningKey Toy.ed25519 |} e (replicate 32 xaa) (lit "agent")
    (replicate 32 x07) (lit "acme") e' 50 10) as (c & E & T & _).
  - reflexivity.
  - exists c. split; [exact E|exact T].
Defined.
