(* ===== verification/Accounts.v ===== *)
(** * Accounts, credits and payments

    The prepaid ledger of the control plane: the in-memory [Ledger], token issuance and
    payment intake ([control-plane/src/accounts.rs], [billing.rs], [payment.rs]), and the
    durable [SqliteLedger] of [storage.rs], with the purchase of a routing token as
    [service.rs] handles it.

    Random ids and tokens are arguments; a clock reading is an argument. *)

From S2P Require Import Prelude RustStd Maps Codec Sqlite.

(** ** The in-memory ledger *)

Module Ledger.

(** src/crates/control-plane/src/accounts.rs:24-60 [LedgerError] *)
Inductive LedgerError :=
| UnknownAccount
| InsufficientCredit (balance requested : N)
| IdempotencyKeyReused
| CreditAmountTooLarge (amount : N)
| AccountBlocked
| DeviceLimitExceeded
| FreeAiCapExceeded.

(** src/crates/control-plane/src/accounts.rs:91-93 [Ledger] *)
Definition Ledger : Type := gmap bytes N.

(** src/crates/control-plane/src/accounts.rs:96-98 [Ledger::new] *)
Definition new : Ledger := ∅.

(** src/crates/control-plane/src/accounts.rs:101-107 [Ledger::open_account]: [drawn] are the
    random bytes. *)
Definition open_account (l : Ledger) (drawn : bytes) : bytes * Ledger := (drawn, <[drawn := 0]> l).

(** src/crates/control-plane/src/accounts.rs:110-115 [Ledger::balance] *)
Definition balance (l : Ledger) (id : bytes) : Result N LedgerError :=
  ok_or (l !! id) UnknownAccount.

(** src/crates/control-plane/src/accounts.rs:119-123 [Ledger::credit] *)
Definition credit (l : Ledger) (id : bytes) (amount : N) : Result N LedgerError * Ledger :=
  match l !! id with
  | None => (Err UnknownAccount, l)
  | Some bal => let bal := saturating_add64 bal amount in (Ok bal, <[id := bal]> l)
  end.

(** src/crates/control-plane/src/accounts.rs:128-138 [Ledger::debit] *)
Definition debit (l : Ledger) (id : bytes) (amount : N) : Result N LedgerError * Ledger :=
  match l !! id with
  | None => (Err UnknownAccount, l)
  | Some bal =>
    if bal <? amount then (Err (InsufficientCredit bal amount), l)
    else (Ok (bal - amount), <[id := bal - amount]> l)
  end.

End Ledger.
Import Ledger (LedgerError, UnknownAccount, InsufficientCredit, IdempotencyKeyReused,
  CreditAmountTooLarge, AccountBlocked, DeviceLimitExceeded, FreeAiCapExceeded).

Module Billing.

(** src/crates/control-plane/src/billing.rs:17-17 [TOKEN_PRICE] *)
Definition TOKEN_PRICE : N := 1.

(** src/crates/control-plane/src/billing.rs:24-26 [issuance_price_ok] *)
Definition issuance_price_ok (price : N) : bool := TOKEN_PRICE <=? price.

(** src/crates/control-plane/src/billing.rs:34-43 [issue_token_for_payment] *)
Definition issue_token_for_payment (l : Ledger.Ledger) (account : bytes) (price : N)
    (drawn : bytes) : Result bytes LedgerError * Ledger.Ledger :=
  match Ledger.debit l account price with
  | (Err e, l) => (Err e, l)
  | (Ok _, l) => (Ok drawn, l)
  end.

End Billing.

Module Payment.

(** src/crates/control-plane/src/payment.rs:26-34 [PaymentError] *)
Inductive PaymentError := UnknownPayment | AlreadyConfirmed | LedgerFailed (e : LedgerError).

(** src/crates/control-plane/src/payment.rs:54-58 [PendingPayment] *)
Record PendingPayment := { account : bytes; credits : N; confirmed : bool }.

(** src/crates/control-plane/src/payment.rs:62-64 [PaymentIntake] *)
Definition PaymentIntake : Type := gmap bytes PendingPayment.

(** src/crates/control-plane/src/payment.rs:74-87 [PaymentIntake::create_intent] *)
Definition create_intent (p : PaymentIntake) (account : bytes) (credits : N) (drawn : bytes)
    : bytes * PaymentIntake :=
  (drawn, <[drawn := {| account := account; credits := credits; confirmed := false |}]> p).

(** src/crates/control-plane/src/payment.rs:93-107 [PaymentIntake::confirm_payment] *)
Definition confirm_payment (p : PaymentIntake) (l : Ledger.Ledger) (id : bytes)
    : Result N PaymentError * (PaymentIntake * Ledger.Ledger) :=
  match p !! id with
  | None => (Err UnknownPayment, (p, l))
  | Some payment =>
    if confirmed payment then (Err AlreadyConfirmed, (p, l))
    else
      match Ledger.credit l (account payment) (credits payment) with
      | (Err e, l) => (Err (LedgerFailed e), (p, l))
      | (Ok new_balance, l) =>
        (Ok new_balance,
         (<[id := {| account := account payment; credits := credits payment;
                     confirmed := true |}]> p, l))
      end
  end.

End Payment.
Import Payment (PaymentError, UnknownPayment, AlreadyConfirmed, LedgerFailed).

(** ** The durable ledger *)

Module LedgerStore.

(** src/crates/control-plane/src/storage.rs:1332-1335 [LedgerOpError] *)
Inductive LedgerOpError := Rule (e : LedgerError) | LedgerDb.

(** src/crates/control-plane/src/storage.rs:1354-1357 [PaymentOpError] *)
Inductive PaymentOpError := PaymentRule (e : PaymentError) | PaymentDb.

(** src/crates/control-plane/src/storage.rs:1421-1485 [SqliteLedger::from_connection]: a row of
    [accounts], with the columns of its migrations. *)
Record AccountRow := {
  balance : Z;
  max_tunnels : Z;
  max_channels : Z;
  blocked : Z;
  device_fingerprint : option bytes;
  plan : option bytes;
  free_requests : Z;
  free_seconds : Z;
}.

(** src/crates/control-plane/src/storage.rs:1425-1430 [SqliteLedger::from_connection]: a row of
    [payments]. *)
Record PaymentRow := { payer : bytes; credits : Z; confirmed : Z }.

(** src/crates/control-plane/src/storage.rs:1435-1441 [SqliteLedger::from_connection]: a row of
    [token_issuances]. *)
Record IssuanceRow := { issued_to : bytes; token : bytes; paid : Z; issued_at : Z }.

(** src/crates/control-plane/src/storage.rs:1420-1442 [SqliteLedger::from_connection] *)
Record LedgerStore := {
  accounts : gmap bytes AccountRow;
  payments : gmap bytes PaymentRow;
  account_subjects : gmap bytes bytes;
  token_issuances : gmap bytes IssuanceRow;
}.

(** src/crates/control-plane/src/storage.rs:1419-1486 [SqliteLedger::from_connection]: a fresh
    file. *)
Definition empty : LedgerStore :=
  {| accounts := ∅; payments := ∅; account_subjects := ∅; token_issuances := ∅ |}.

(** src/crates/control-plane/src/storage.rs:1452-1484 [SqliteLedger::from_connection]: the
    defaults of a new account. *)
Definition fresh_account (fingerprint : option bytes) : AccountRow :=
  {| balance := 0; max_tunnels := 1; max_channels := 100; blocked := 0;
     device_fingerprint := fingerprint; plan := None; free_requests := 0; free_seconds := 0 |}.

Definition set_accounts (t : gmap bytes AccountRow) (s : LedgerStore) : LedgerStore :=
  {| accounts := t; payments := payments s; account_subjects := account_subjects s;
     token_issuances := token_issuances s |}.

Definition set_balance (z : Z) (r : AccountRow) : AccountRow :=
  {| balance := z; max_tunnels := max_tunnels r; max_channels := max_channels r;
     blocked := blocked r; device_fingerprint := device_fingerprint r; plan := plan r;
     free_requests := free_requests r; free_seconds := free_seconds r |}.

Definition update_account (f : AccountRow → AccountRow) (id : bytes) (s : LedgerStore)
    : LedgerStore := set_accounts (sql_update f id (accounts s)) s.

(** src/crates/control-plane/src/storage.rs:1491-1501 [SqliteLedger::max_tunnels] *)
Definition max_tunnels_of (s : LedgerStore) (account : bytes) : N :=
  as_u32 (Z.max 0 (default 1%Z (max_tunnels <$> accounts s !! account))).

(** src/crates/control-plane/src/storage.rs:1508-1514 [SqliteLedger::set_max_tunnels] *)
Definition set_max_tunnels (s : LedgerStore) (account : bytes) (max : N) : LedgerStore :=
  update_account (λ r,
    {| balance := balance r; max_tunnels := Z.of_N max; max_channels := max_channels r;
       blocked := blocked r; device_fingerprint := device_fingerprint r; plan := plan r;
       free_requests := free_requests r; free_seconds := free_seconds r |}) account s.

(** src/crates/control-plane/src/storage.rs:1519-1529 [SqliteLedger::max_channels] *)
Definition max_channels_of (s : LedgerStore) (account : bytes) : N :=
  as_u32 (Z.max 0 (default 100%Z (max_channels <$> accounts s !! account))).

(** src/crates/control-plane/src/storage.rs:1535-1541 [SqliteLedger::set_max_channels] *)
Definition set_max_channels (s : LedgerStore) (account : bytes) (max : N) : LedgerStore :=
  update_account (λ r,
    {| balance := balance r; max_tunnels := max_tunnels r; max_channels := Z.of_N max;
       blocked := blocked r; device_fingerprint := device_fingerprint r; plan := plan r;
       free_requests := free_requests r; free_seconds := free_seconds r |}) account s.

(** src/crates/control-plane/src/storage.rs:1572-1582 [SqliteLedger::is_blocked] *)
Definition is_blocked (s : LedgerStore) (account : bytes) : bool :=
  negb (default 0%Z (blocked <$> accounts s !! account) =? 0)%Z.

(** src/crates/control-plane/src/storage.rs:1587-1593 [SqliteLedger::set_blocked] *)
Definition set_blocked (s : LedgerStore) (account : bytes) (on : bool) : LedgerStore :=
  update_account (λ r,
    {| balance := balance r; max_tunnels := max_tunnels r; max_channels := max_channels r;
       blocked := if on then 1 else 0; device_fingerprint := device_fingerprint r;
       plan := plan r; free_requests := free_requests r; free_seconds := free_seconds r |})
    account s.

(** src/crates/control-plane/src/storage.rs:1603-1624
    [SqliteLedger::delete_account_for_subject] *)
Definition delete_account_for_subject (s : LedgerStore) (subject : bytes) : LedgerStore :=
  match account_subjects s !! subject with
  | None => s
  | Some account =>
    let doomed := λ k r, bool_decide (k = account) && (blocked r =? 0)%Z in
    let removed := sql_count doomed (accounts s) in
    {| accounts := sql_delete doomed (accounts s); payments := payments s;
       account_subjects := if (0 <? removed)%nat then delete subject (account_subjects s)
                           else account_subjects s;
       token_issuances := token_issuances s |}
  end.

(** src/crates/control-plane/src/storage.rs:1399-1414 [AccountSummaryRow] *)
Record AccountSummaryRow := Summary {
  subject : bytes;
  account_hex : bytes;
  shown_balance : N;
  shown_blocked : bool;
  shown_max_tunnels : N;
  shown_max_channels : N;
  shown_fingerprint : option bytes;
  shown_plan : option bytes;
}.

(** src/crates/control-plane/src/storage.rs:1633-1656 [SqliteLedger::list_accounts] *)
Definition list_accounts (s : LedgerStore) : list AccountSummaryRow :=
  omap (λ sa : bytes * bytes,
    r ← accounts s !! sa.2;
    Some (Summary sa.1 (Hex.encode sa.2) (as_u64 (Z.max 0 (balance r)))
            (negb (blocked r =? 0)%Z) (as_u32 (Z.max 0 (max_tunnels r)))
            (as_u32 (Z.max 0 (max_channels r))) (device_fingerprint r) (plan r)))
    (btree_iter (account_subjects s)).

(** src/crates/control-plane/src/storage.rs:1659-1667 [SqliteLedger::open_account] *)
Definition open_account (s : LedgerStore) (drawn : bytes) : option bytes * LedgerStore :=
  match sql_insert drawn (fresh_account None) (accounts s) with
  | None => (None, s)
  | Some t => (Some drawn, set_accounts t s)
  end.

(** src/crates/control-plane/src/storage.rs:1678-1686 [SqliteLedger::account_if_exists]: the
    blob as an id (and lines 1708-1715). *)
Definition as_account_id (b : bytes) : Result bytes LedgerOpError :=
  if (length b =? 32)%nat then Ok b else Err LedgerDb.

(** src/crates/control-plane/src/storage.rs:1670-1687 [SqliteLedger::account_if_exists] *)
Definition account_if_exists (s : LedgerStore) (subject : bytes)
    : Result (option bytes) LedgerOpError :=
  match account_subjects s !! subject with
  | None => Ok None
  | Some b => id <-? as_account_id b; Ok (Some id)
  end.

(** src/crates/control-plane/src/storage.rs:1718-1728 [SqliteLedger::account_for_subject]: a
    new account and its subject (and lines 1778-1789). *)
Definition create_for (s : LedgerStore) (subject : bytes) (fingerprint : option bytes)
    (drawn : bytes) : Result bytes LedgerOpError * LedgerStore :=
  match sql_insert drawn (fresh_account fingerprint) (accounts s),
        sql_insert subject drawn (account_subjects s) with
  | Some a, Some m =>
    (Ok drawn, {| accounts := a; payments := payments s; account_subjects := m;
                  token_issuances := token_issuances s |})
  | _, _ => (Err LedgerDb, s)
  end.

(** src/crates/control-plane/src/storage.rs:1694-1730 [SqliteLedger::account_for_subject] *)
Definition account_for_subject (s : LedgerStore) (subject drawn : bytes)
    : Result bytes LedgerOpError * LedgerStore :=
  match account_subjects s !! subject with
  | Some b => (as_account_id b, s)
  | None => create_for s subject None drawn
  end.

(** src/crates/control-plane/src/storage.rs:1769-1773
    [SqliteLedger::account_for_subject_with_device_cap]: the accounts of a fingerprint. *)
Definition accounts_of_device (s : LedgerStore) (fp : bytes) : nat :=
  sql_count (λ _ r, bool_decide (device_fingerprint r = Some fp)) (accounts s).

(** src/crates/control-plane/src/storage.rs:1743-1792
    [SqliteLedger::account_for_subject_with_device_cap] *)
Definition account_for_subject_with_device_cap (s : LedgerStore) (subject : bytes)
    (fingerprint : option bytes) (cap : N) (drawn : bytes)
    : Result bytes LedgerOpError * LedgerStore :=
  match account_subjects s !! subject with
  | Some b => (as_account_id b, s)
  | None =>
    let over := match fingerprint with
                | Some fp => (0 <? cap)
                             && (cap <=? as_u32 (Z.of_nat (accounts_of_device s fp)))
                | None => false
                end in
    if over then (Err (Rule DeviceLimitExceeded), s)
    else create_for s subject fingerprint drawn
  end.

(** src/crates/control-plane/src/storage.rs:1797-1803
    [SqliteLedger::clear_device_fingerprint] *)
Definition clear_device_fingerprint (s : LedgerStore) (account : bytes) : LedgerStore :=
  update_account (λ r,
    {| balance := balance r; max_tunnels := max_tunnels r; max_channels := max_channels r;
       blocked := blocked r; device_fingerprint := None; plan := plan r;
       free_requests := free_requests r; free_seconds := free_seconds r |}) account s.

(** src/crates/control-plane/src/storage.rs:1808-1814 [SqliteLedger::plan_for] (and the same
    lookup at lines 1831-1837, [SqliteLedger::plan]). *)
Definition plan_for (s : LedgerStore) (account : bytes) : option bytes :=
  accounts s !! account ≫= plan.

(** src/crates/control-plane/src/storage.rs:1820-1823 [SqliteLedger::set_plan] *)
Definition set_plan (s : LedgerStore) (account : bytes) (p : option bytes) : LedgerStore :=
  update_account (λ r,
    {| balance := balance r; max_tunnels := max_tunnels r; max_channels := max_channels r;
       blocked := blocked r; device_fingerprint := device_fingerprint r; plan := p;
       free_requests := free_requests r; free_seconds := free_seconds r |}) account s.

(** src/crates/control-plane/src/storage.rs:1390-1395 [AiUsageSnapshot] *)
Record AiUsageSnapshot := Snapshot {
  snap_balance : N; snap_plan : option bytes; requests_used : N; seconds_used : N }.

(** src/crates/control-plane/src/storage.rs:1841-1857 [SqliteLedger::ai_usage_for] *)
Definition ai_usage_for (s : LedgerStore) (account : bytes) : option AiUsageSnapshot :=
  (λ r, Snapshot (as_u64 (Z.max 0 (balance r))) (plan r) (as_u32 (Z.max 0 (free_requests r)))
          (as_u32 (Z.max 0 (free_seconds r)))) <$> accounts s !! account.

(** src/crates/control-plane/src/storage.rs:1947-1954 [SqliteLedger::check_balance]: the error,
    if the balance does not cover the cost. *)
Definition check_balance (bal : Z) (credits_cost : N) : option LedgerOpError :=
  if (2 ^ 63 <=? credits_cost) || (bal <? Z.of_N credits_cost)%Z
  then Some (Rule (InsufficientCredit (as_u64 (Z.max 0 bal)) credits_cost))
  else None.

(** src/crates/control-plane/src/storage.rs:1877-1881 [SqliteLedger::debit_ai_chat]: the cap of
    a free account (and lines 1915-1919). *)
Definition over_cap (free : bool) (used : N) (cap : option N) : bool :=
  free && match cap with Some c => c <=? used | None => false end.

(** src/crates/control-plane/src/storage.rs:1886-1893 [SqliteLedger::debit_ai_chat]: the
    update. *)
Definition spend_chat (cost : N) (r : AccountRow) : AccountRow :=
  {| balance := balance r - as_i64 cost; max_tunnels := max_tunnels r;
     max_channels := max_channels r; blocked := blocked r;
     device_fingerprint := device_fingerprint r; plan := plan r;
     free_requests := free_requests r + (if plan r is None then 1 else 0);
     free_seconds := free_seconds r |}.

(** src/crates/control-plane/src/storage.rs:1867-1893 [SqliteLedger::debit_ai_chat] (the row
    read of lines 1937-1945, [ai_row]) *)
Definition debit_ai_chat (s : LedgerStore) (account : bytes) (credits_cost : N)
    (free_cap_requests : option N) : Result () LedgerOpError * LedgerStore :=
  match accounts s !! account with
  | None => (Err (Rule UnknownAccount), s)
  | Some r =>
    if negb (blocked r =? 0)%Z then (Err (Rule AccountBlocked), s)
    else if over_cap (bool_decide (plan r = None)) (as_u32 (Z.max 0 (free_requests r)))
              free_cap_requests
    then (Err (Rule FreeAiCapExceeded), s)
    else
      match check_balance (balance r) credits_cost with
      | Some e => (Err e, s)
      | None => (Ok (), update_account (spend_chat credits_cost) account s)
      end
  end.

(** src/crates/control-plane/src/storage.rs:1925-1932 [SqliteLedger::debit_ai_transcribe]: the
    update. *)
Definition spend_transcribe (cost duration : N) (r : AccountRow) : AccountRow :=
  {| balance := balance r - as_i64 cost; max_tunnels := max_tunnels r;
     max_channels := max_channels r; blocked := blocked r;
     device_fingerprint := device_fingerprint r; plan := plan r;
     free_requests := free_requests r;
     free_seconds := free_seconds r + (if plan r is None then Z.of_N duration else 0) |}.

(** src/crates/control-plane/src/storage.rs:1899-1934 [SqliteLedger::debit_ai_transcribe] *)
Definition debit_ai_transcribe (s : LedgerStore) (account : bytes)
    (credits_cost duration_seconds : N) (free_cap_seconds : option N)
    : Result () LedgerOpError * LedgerStore :=
  match accounts s !! account with
  | None => (Err (Rule UnknownAccount), s)
  | Some r =>
    if negb (blocked r =? 0)%Z then (Err (Rule AccountBlocked), s)
    else if over_cap (bool_decide (plan r = None)) (as_u32 (Z.max 0 (free_seconds r)))
              free_cap_seconds
    then (Err (Rule FreeAiCapExceeded), s)
    else
      match check_balance (balance r) credits_cost with
      | Some e => (Err e, s)
      | None => (Ok (), update_account (spend_transcribe credits_cost duration_seconds) account s)
      end
  end.

(** src/crates/control-plane/src/storage.rs:1989-1993 [SqliteLedger::account_count] *)
Definition account_count (s : LedgerStore) : nat := size (accounts s).

(** src/crates/control-plane/src/storage.rs:1998-2004 [SqliteLedger::has_paid_accounts] *)
Definition has_paid_accounts (s : LedgerStore) : bool :=
  bool_decide (0 < sql_count (λ _ r, bool_decide (plan r ≠ None)) (accounts s))%nat.

(** src/crates/control-plane/src/storage.rs:2007-2013 [SqliteLedger::confirmed_payment_count] *)
Definition confirmed_payment_count (s : LedgerStore) : nat :=
  sql_count (λ _ r, (confirmed r =? 1)%Z) (payments s).

(** src/crates/control-plane/src/storage.rs:2016-2021 [SqliteLedger::balance] *)
Definition balance_of (s : LedgerStore) (id : bytes) : Result N LedgerOpError :=
  match accounts s !! id with
  | Some r => Ok (as_u64 (balance r))
  | None => Err (Rule UnknownAccount)
  end.

(** src/crates/control-plane/src/storage.rs:2032-2046 [SqliteLedger::credit] *)
Definition credit (s : LedgerStore) (id : bytes) (amount : N)
    : Result N LedgerOpError * LedgerStore :=
  if Z.to_N I64_MAX <? amount then (Err (Rule (CreditAmountTooLarge amount)), s)
  else
    match accounts s !! id with
    | None => (Err (Rule UnknownAccount), s)
    | Some r =>
      let new := saturating_add_i64 (balance r) (as_i64 amount) in
      (Ok (as_u64 new), update_account (set_balance new) id s)
    end.

(** src/crates/control-plane/src/storage.rs:2054-2073 [SqliteLedger::debit]: the checks and the
    new balance (and lines 2128-2144 of [debit_and_record_issuance]). *)
Definition debited (s : LedgerStore) (id : bytes) (amount : N) : Result Z LedgerOpError :=
  match accounts s !! id with
  | None => Err (Rule UnknownAccount)
  | Some r =>
    if negb (blocked r =? 0)%Z then Err (Rule AccountBlocked)
    else if as_u64 (balance r) <? amount
    then Err (Rule (InsufficientCredit (as_u64 (balance r)) amount))
    else Ok (wrap_i64 (balance r - as_i64 amount))
  end.

(** src/crates/control-plane/src/storage.rs:2051-2074 [SqliteLedger::debit] *)
Definition debit (s : LedgerStore) (id : bytes) (amount : N)
    : Result N LedgerOpError * LedgerStore :=
  match debited s id amount with
  | Err e => (Err e, s)
  | Ok new => (Ok (as_u64 new), update_account (set_balance new) id s)
  end.

(** src/crates/control-plane/src/storage.rs:2088-2111 [SqliteLedger::issuance_for_key] *)
Definition issuance_for_key (s : LedgerStore) (id key : bytes) : Result (option bytes) () :=
  match token_issuances s !! key with
  | Some row =>
    if bool_decide (issued_to row = id)
    then if (length (token row) =? 32)%nat then Ok (Some (token row)) else Err ()
    else Ok None
  | None => Ok None
  end.

(** src/crates/control-plane/src/storage.rs:2118-2166
    [SqliteLedger::debit_and_record_issuance] *)
Definition debit_and_record_issuance (s : LedgerStore) (id : bytes) (amount : N)
    (key tok : bytes) (now : N) : Result N LedgerOpError * LedgerStore :=
  match debited s id amount with
  | Err e => (Err e, s)
  | Ok new =>
    match sql_insert key {| issued_to := id; token := tok; paid := as_i64 amount;
                            issued_at := as_i64 now |} (token_issuances s) with
    | None => (Err (Rule IdempotencyKeyReused), s)
    | Some t =>
      (Ok (as_u64 new),
       {| accounts := sql_update (set_balance new) id (accounts s); payments := payments s;
          account_subjects := account_subjects s; token_issuances := t |})
    end
  end.

(** src/crates/control-plane/src/storage.rs:2170-2188 [SqliteLedger::create_intent] *)
Definition create_intent (s : LedgerStore) (account : bytes) (amount : N) (drawn : bytes)
    : option bytes * LedgerStore :=
  if Z.to_N I64_MAX <? amount then (None, s)
  else
    match sql_insert drawn {| payer := account; credits := as_i64 amount; confirmed := 0 |}
            (payments s) with
    | None => (None, s)
    | Some t => (Some drawn, {| accounts := accounts s; payments := t;
                                account_subjects := account_subjects s;
                                token_issuances := token_issuances s |})
    end.

(** src/crates/control-plane/src/storage.rs:2191-2207 [SqliteLedger::payment_intent] *)
Definition payment_intent (s : LedgerStore) (payment : bytes)
    : Result (option (bytes * N)) () :=
  match payments s !! payment with
  | None => Ok None
  | Some row =>
    if (length (payer row) =? 32)%nat then Ok (Some (payer row, as_u64 (Z.max 0 (credits row))))
    else Err ()
  end.

(** src/crates/control-plane/src/storage.rs:2212-2255 [SqliteLedger::confirm_payment] *)
Definition confirm_payment (s : LedgerStore) (payment : bytes)
    : Result N PaymentOpError * LedgerStore :=
  match payments s !! payment with
  | None => (Err (PaymentRule UnknownPayment), s)
  | Some row =>
    if negb (confirmed row =? 0)%Z then (Err (PaymentRule AlreadyConfirmed), s)
    else if (credits row <? 0)%Z then (Err PaymentDb, s)
    else
      match accounts s !! payer row with
      | None => (Err (PaymentRule (LedgerFailed UnknownAccount)), s)
      | Some r =>
        let new_balance := saturating_add_i64 (balance r) (credits row) in
        (Ok (as_u64 new_balance),
         {| accounts := sql_update (set_balance new_balance) (payer row) (accounts s);
            payments := sql_update (λ p, {| payer := payer p; credits := credits p;
                                            confirmed := 1 |}) payment (payments s);
            account_subjects := account_subjects s; token_issuances := token_issuances s |})
      end
  end.

(** ** Well-formed tables *)

Definition row_ok (r : AccountRow) : Prop :=
  (0 <= balance r <= I64_MAX)%Z ∧ (0 <= free_requests r)%Z ∧ (0 <= free_seconds r)%Z.

Definition payment_ok (p : PaymentRow) : Prop := (0 <= credits p <= I64_MAX)%Z.

Record wf (s : LedgerStore) : Prop := {
  wf_accounts a r : accounts s !! a = Some r → row_ok r;
  wf_payments k p : payments s !! k = Some p → payment_ok p;
  wf_bound sub a : account_subjects s !! sub = Some a → is_Some (accounts s !! a);
  wf_inj sub1 sub2 a : account_subjects s !! sub1 = Some a → account_subjects s !! sub2 = Some a →
    sub1 = sub2;
}.

(** The operations of the store, with what they draw. *)
Inductive Op :=
| OpOpen (drawn : bytes)
| OpSubject (sub drawn : bytes)
| OpSignup (sub : bytes) (fingerprint : option bytes) (cap : N) (drawn : bytes)
| OpDelete (sub : bytes)
| OpBlock (account : bytes) (on : bool)
| OpMaxTunnels (account : bytes) (max : N)
| OpMaxChannels (account : bytes) (max : N)
| OpPlan (account : bytes) (p : option bytes)
| OpClearDevice (account : bytes)
| OpCredit (account : bytes) (amount : N)
| OpDebit (account : bytes) (amount : N)
| OpIssue (account : bytes) (amount : N) (key tok : bytes) (now : N)
| OpIntent (account : bytes) (amount : N) (drawn : bytes)
| OpConfirm (payment : bytes)
| OpChat (account : bytes) (cost : N) (cap : option N)
| OpTranscribe (account : bytes) (cost duration : N) (cap : option N).

Definition exec (s : LedgerStore) (o : Op) : LedgerStore :=
  match o with
  | OpOpen d => (open_account s d).2
  | OpSubject sub d => (account_for_subject s sub d).2
  | OpSignup sub fp cap d => (account_for_subject_with_device_cap s sub fp cap d).2
  | OpDelete sub => delete_account_for_subject s sub
  | OpBlock a on => set_blocked s a on
  | OpMaxTunnels a n => set_max_tunnels s a n
  | OpMaxChannels a n => set_max_channels s a n
  | OpPlan a p => set_plan s a p
  | OpClearDevice a => clear_device_fingerprint s a
  | OpCredit a n => (credit s a n).2
  | OpDebit a n => (debit s a n).2
  | OpIssue a n key tok now => (debit_and_record_issuance s a n key tok now).2
  | OpIntent a n d => (create_intent s a n d).2
  | OpConfirm p => (confirm_payment s p).2
  | OpChat a c cap => (debit_ai_chat s a c cap).2
  | OpTranscribe a c d cap => (debit_ai_transcribe s a c d cap).2
  end.

Lemma wf_empty : wf empty.
Proof. split; cbn; intros *; by rewrite lookup_empty. Qed.

Lemma as_i64_nonneg n : (Z.of_N n <= I64_MAX)%Z → as_i64 n = Z.of_N n.
Proof. intros H. apply as_i64_small. unfold I64_MAX in H. lia. Qed.

(** ** The operations, case by case *)

Lemma debited_Ok s id amount new :
  wf s → debited s id amount = Ok new ↔
  ∃ r, accounts s !! id = Some r ∧ blocked r = 0%Z ∧ (Z.of_N amount <= balance r)%Z ∧
    new = (balance r - Z.of_N amount)%Z.
Proof.
  intros W. unfold debited. destruct (accounts s !! id) as [r|] eqn:E; [|naive_solver].
  destruct (wf_accounts _ W _ _ E) as [B _]. rewrite as_u64_nonneg by done.
  destruct (blocked r =? 0)%Z eqn:K; cbn [negb]; bool_facts; [|naive_solver].
  destruct (Z.to_N (balance r) <? amount) eqn:L; bool_facts.
  - split; [done|]. intros (r' & [= <-] & _ & H & _). lia.
  - assert (Z.of_N amount <= I64_MAX)%Z as A by lia.
    rewrite (as_i64_nonneg _ A), wrap_i64_small by (unfold i64_ok, I64_MAX in *; lia).
    split; [intros [= <-]; exists r; split_and!; [done|done|lia|done]|].
    by intros (r' & [= <-] & _ & _ & ->).
Qed.

Lemma check_balance_None b c :
  check_balance b c = None ↔ (Z.of_N c <= I64_MAX)%Z ∧ (Z.of_N c <= b)%Z.
Proof.
  unfold check_balance, I64_MAX.
  destruct ((2 ^ 63 <=? c) || (b <? Z.of_N c)%Z) eqn:E.
  - split; [done|]. intros [H1 H2]. exfalso. apply orb_true_iff in E as [E|E]; bool_facts; lia.
  - apply orb_false_iff in E as [E1 E2]. bool_facts. split; [|done]. intros _. lia.
Qed.

Lemma update_account_lookup f id s a :
  accounts (update_account f id s) !! a =
  if decide (id = a) then f <$> accounts s !! a else accounts s !! a.
Proof. apply lookup_sql_update. Qed.

(** An update of one row that keeps rows well-formed keeps the store well-formed. *)
Lemma wf_update f id s :
  wf s → (∀ r, accounts s !! id = Some r → row_ok r → row_ok (f r)) → wf (update_account f id s).
Proof.
  intros W Hf. split.
  - intros a r. rewrite update_account_lookup. destruct (decide (id = a)) as [<-|].
    + destruct (accounts s !! id) as [r0|] eqn:E; [|done]. intros [= <-].
      apply Hf; [done|]. by apply (wf_accounts _ W id).
    + apply (wf_accounts _ W).
  - apply (wf_payments _ W).
  - intros sub a Hs. rewrite update_account_lookup. apply (wf_bound _ W) in Hs.
    destruct (decide (id = a)); [|done]. by rewrite fmap_is_Some.
  - apply (wf_inj _ W).
Qed.

Lemma wf_create s sub fp d : wf s → wf (create_for s sub fp d).2.
Proof.
  intros W. unfold create_for.
  destruct (sql_insert d _ (accounts s)) as [a|] eqn:Ea; [|done].
  destruct (sql_insert sub d _) as [m|] eqn:Em; [|done].
  apply sql_insert_Some in Ea as [Na ->]. apply sql_insert_Some in Em as [Nm ->]. cbn.
  assert (∀ sub', account_subjects s !! sub' ≠ Some d) as Nd.
  { intros sub' H. apply (wf_bound _ W) in H. rewrite Na in H. by destruct H. }
  split; cbn.
  - intros a r [[<- <-]|[_ H]]%lookup_insert_Some; [|by apply (wf_accounts _ W) in H].
    unfold row_ok, I64_MAX. cbn. lia.
  - apply (wf_payments _ W).
  - intros sub' a [[<- <-]|[_ H]]%lookup_insert_Some; [rewrite lookup_insert_eq; eauto|].
    destruct (decide (d = a)) as [<-|]; [rewrite lookup_insert_eq; eauto|].
    rewrite lookup_insert_ne by done. by apply (wf_bound _ W) in H.
  - intros s1 s2 a [[<- <-]|[_ H1]]%lookup_insert_Some [[<- E]|[_ H2]]%lookup_insert_Some; try done.
    + by apply Nd in H2.
    + subst. by apply Nd in H1.
    + by eapply (wf_inj _ W).
Qed.

(** Deleting a subject's account: an unblocked account goes, with its subject; anything else
    stays. *)
Lemma delete_cases s sub :
  (delete_account_for_subject s sub = s ∧
     ∀ a r, account_subjects s !! sub = Some a → accounts s !! a = Some r → blocked r ≠ 0%Z) ∨
  (∃ a r, account_subjects s !! sub = Some a ∧ accounts s !! a = Some r ∧ blocked r = 0%Z ∧
     delete_account_for_subject s sub =
       {| accounts := delete a (accounts s); payments := payments s;
          account_subjects := delete sub (account_subjects s);
          token_issuances := token_issuances s |}).
Proof.
  unfold delete_account_for_subject.
  destruct (account_subjects s !! sub) as [a|] eqn:E; [|left; split; [done|]; naive_solver].
  set (doomed := λ k r, bool_decide (k = a) && (blocked r =? 0)%Z).
  assert ((∃ r, accounts s !! a = Some r ∧ blocked r = 0%Z) ∨
          ¬ ∃ r, accounts s !! a = Some r ∧ blocked r = 0%Z) as [(r & Er & B)|N].
  { destruct (accounts s !! a) as [r|]; [destruct (decide (blocked r = 0%Z))|]; naive_solver. }
  - right. exists a, r. split_and!; [done..|].
    assert (sql_delete doomed (accounts s) = delete a (accounts s)) as ->.
    { apply map_eq. intros k. destruct (decide (k = a)) as [->|Nk].
      - rewrite lookup_delete_eq. eapply lookup_sql_delete_drop; [done|]. unfold doomed.
        by rewrite bool_decide_eq_true_2, B.
      - rewrite lookup_delete_ne by done. apply lookup_sql_delete_keep. intros r' _.
        unfold doomed. by rewrite bool_decide_eq_false_2. }
    rewrite (proj2 (Nat.ltb_lt _ _)); [done|]. unfold sql_count.
    destruct (size (filter (λ kr, doomed kr.1 kr.2 = true) (accounts s))) eqn:C; [|lia].
    apply map_size_empty_inv in C. apply (map_filter_empty_not_lookup _ _ a r) in C; [done|].
    cbn. unfold doomed. by rewrite bool_decide_eq_true_2, B.
  - left. assert (∀ k r, accounts s !! k = Some r → doomed k r = false) as D.
    { intros k r Hk. unfold doomed. destruct (decide (k = a)) as [->|Nk].
      - rewrite bool_decide_eq_true_2 by done. cbn. apply Z.eqb_neq. intros B. apply N. eauto.
      - by rewrite bool_decide_eq_false_2. }
    split; [|intros a' r [= <-] Hr B; apply N; eauto].
    assert (sql_delete doomed (accounts s) = accounts s) as ->.
    { apply map_eq. intros k. apply lookup_sql_delete_keep. apply D. }
    assert (sql_count doomed (accounts s) = 0%nat) as ->.
    { unfold sql_count. apply map_size_empty_iff, map_empty. intros k.
      apply map_lookup_filter_None. right. intros r Hr. cbn. by rewrite (D k r Hr). }
    by destruct s.
Qed.

Lemma wf_delete s sub : wf s → wf (delete_account_for_subject s sub).
Proof.
  intros W. destruct (delete_cases s sub) as [[-> _]|(a & r & E & Er & _ & ->)]; [done|].
  split; cbn.
  - intros k r' [_ H]%lookup_delete_Some. by apply (wf_accounts _ W) in H.
  - apply (wf_payments _ W).
  - intros sub' a' [N H]%lookup_delete_Some. rewrite lookup_delete_ne.
    + by apply (wf_bound _ W) in H.
    + intros <-. by destruct (N (wf_inj _ W _ _ _ E H)).
  - intros s1 s2 a' [_ H1]%lookup_delete_Some [_ H2]%lookup_delete_Some.
    by apply (wf_inj _ W _ _ a').
Qed.

(** ** The tables stay well-formed *)

Lemma wf_set_balance id z s :
  wf s → (0 <= z <= I64_MAX)%Z → wf (update_account (set_balance z) id s).
Proof. intros W Hz. apply wf_update; [done|]. intros r _ (_ & H). by split. Qed.

Lemma wf_confirm s p : wf s → wf (confirm_payment s p).2.
Proof.
  intros W. unfold confirm_payment. destruct (payments s !! p) as [row|] eqn:E; [|done].
  destruct (negb _); [done|]. destruct (credits row <? 0)%Z eqn:N; [done|]. bool_facts.
  destruct (accounts s !! payer row) as [r|] eqn:Er; [|done]. cbn [snd].
  destruct (wf_accounts _ W _ _ Er) as [B _].
  pose proof (saturating_add_i64_ok _ _ B N) as [S _].
  destruct (wf_set_balance (payer row) (saturating_add_i64 (balance r) (credits row)) s W)
    as [W1 W2 W3 W4]; [lia|].
  split; [exact W1| |exact W3|exact W4]. cbn. intros k q. rewrite lookup_sql_update.
  destruct (decide (p = k)) as [<-|]; [|apply (wf_payments _ W)].
  rewrite E. intros [= <-]. apply (wf_payments _ W _ _ E).
Qed.

Lemma wf_exec s o : wf s → wf (exec s o).
Proof.
  intros W. destruct o; cbn [exec].
  - unfold open_account. destruct (sql_insert _ _ _) as [t|] eqn:E; [|done].
    apply sql_insert_Some in E as [N ->]. split; cbn; [|apply W| |apply W].
    + intros a r [[<- <-]|[_ H]]%lookup_insert_Some; [|by apply (wf_accounts _ W) in H].
      unfold row_ok, I64_MAX. cbn. lia.
    + intros sub a H. destruct (decide (drawn = a)) as [<-|]; [rewrite lookup_insert_eq; eauto|].
      rewrite lookup_insert_ne by done. by apply (wf_bound _ W) in H.
  - unfold account_for_subject. destruct (_ !! _); [done|]. by apply wf_create.
  - unfold account_for_subject_with_device_cap. destruct (account_subjects s !! _); [done|].
    cbv zeta. destruct (match fingerprint with Some _ => _ | None => _ end); [done|].
    by apply wf_create.
  - by apply wf_delete.
  - by apply wf_update.
  - by apply wf_update.
  - by apply wf_update.
  - by apply wf_update.
  - by apply wf_update.
  - unfold credit. destruct (_ <? _) eqn:A; [done|]. bool_facts.
    destruct (accounts s !! account) as [r|] eqn:E; [|done]. cbn.
    apply wf_set_balance; [done|]. destruct (wf_accounts _ W _ _ E) as [B _].
    rewrite as_i64_nonneg by (unfold I64_MAX in *; lia).
    pose proof (saturating_add_i64_ok (balance r) (Z.of_N amount) B). lia.
  - unfold debit. destruct (debited _ _ _) as [new|] eqn:E; [|done]. cbn.
    apply debited_Ok in E as (r & Er & _ & L & ->); [|done].
    apply wf_set_balance; [done|]. destruct (wf_accounts _ W _ _ Er) as [B _]. lia.
  - unfold debit_and_record_issuance. destruct (debited _ _ _) as [new|] eqn:E; [|done].
    destruct (sql_insert _ _ _); [|done]. cbn.
    apply debited_Ok in E as (r & Er & _ & L & ->); [|done].
    destruct (wf_accounts _ W _ _ Er) as [B _].
    by destruct (wf_set_balance account (balance r - Z.of_N amount) s W ltac:(lia)).
  - unfold create_intent. destruct (_ <? _) eqn:A; [done|]. bool_facts.
    destruct (sql_insert _ _ _) as [t|] eqn:E; [|done]. apply sql_insert_Some in E as [_ ->].
    split; cbn; [apply W| |apply W|apply W].
    intros k q [[<- <-]|[_ H]]%lookup_insert_Some; [|by apply (wf_payments _ W) in H].
    unfold payment_ok. cbn. rewrite as_i64_nonneg by (unfold I64_MAX in *; lia).
    unfold I64_MAX in *. lia.
  - by apply wf_confirm.
  - unfold debit_ai_chat. destruct (accounts s !! account) as [r|] eqn:E; [|done].
    destruct (negb _); [done|]. destruct (over_cap _ _ _); [done|].
    destruct (check_balance _ _) eqn:C; [done|]. apply check_balance_None in C as [C1 C2].
    apply wf_update; [done|]. intros r'. rewrite E. intros [= <-] (B & F & G).
    unfold row_ok, spend_chat. cbn. rewrite as_i64_nonneg by done.
    destruct (plan r); lia.
  - unfold debit_ai_transcribe. destruct (accounts s !! account) as [r|] eqn:E; [|done].
    destruct (negb _); [done|]. destruct (over_cap _ _ _); [done|].
    destruct (check_balance _ _) eqn:C; [done|]. apply check_balance_None in C as [C1 C2].
    apply wf_update; [done|]. intros r'. rewrite E. intros [= <-] (B & F & G).
    unfold row_ok, spend_transcribe. cbn. rewrite as_i64_nonneg by done.
    destruct (plan r); lia.
Qed.

(** The recorded prices are the ones debited. *)
Definition prices_ok (s : LedgerStore) : Prop :=
  ∀ k i, token_issuances s !! k = Some i → (0 <= paid i <= I64_MAX)%Z.

Lemma prices_create s sub fp d : token_issuances (create_for s sub fp d).2 = token_issuances s.
Proof.
  unfold create_for. destruct (sql_insert d _ (accounts s)); [|done].
  by destruct (sql_insert sub _ _).
Qed.

Lemma prices_same s s' : token_issuances s' = token_issuances s → prices_ok s → prices_ok s'.
Proof. unfold prices_ok. by intros ->. Qed.

Lemma prices_exec s o : wf s → prices_ok s → prices_ok (exec s o).
Proof.
  intros W. destruct o; cbn [exec]; try (by apply prices_same).
  - apply prices_same. unfold open_account. by destruct (sql_insert _ _ _).
  - apply prices_same. unfold account_for_subject. destruct (_ !! _); [done|]. apply prices_create.
  - apply prices_same. unfold account_for_subject_with_device_cap.
    destruct (account_subjects s !! _); [done|]. cbv zeta.
    destruct (match fingerprint with Some _ => _ | None => _ end); [done|]. apply prices_create.
  - apply prices_same. by destruct (delete_cases s sub) as [[-> _]|(a & r & _ & _ & _ & ->)].
  - apply prices_same. unfold credit. destruct (_ <? _); [done|]. by destruct (accounts s !! account).
  - apply prices_same. unfold debit. by destruct (debited _ _ _).
  - unfold debit_and_record_issuance. destruct (debited _ _ _) as [new|] eqn:E; [|done].
    destruct (sql_insert _ _ _) as [t|] eqn:It; [|done]. apply sql_insert_Some in It as [_ ->].
    apply debited_Ok in E as (r & Er & _ & L & _); [|done].
    destruct (wf_accounts _ W _ _ Er) as [B _].
    intros P k i. cbn [snd token_issuances].
    intros [[<- <-]|[_ H]]%lookup_insert_Some; [|by apply (P k)]. cbn. rewrite as_i64_nonneg by lia. lia.
  - apply prices_same. unfold create_intent. destruct (_ <? _); [done|]. by destruct (sql_insert _ _ _).
  - apply prices_same. unfold confirm_payment. destruct (payments s !! payment); [|done].
    destruct (negb _); [done|]. destruct (_ <? 0)%Z; [done|]. by destruct (accounts s !! _).
  - apply prices_same. unfold debit_ai_chat. destruct (accounts s !! account); [|done].
    destruct (negb _); [done|]. destruct (over_cap _ _ _); [done|]. by destruct (check_balance _ _).
  - apply prices_same. unfold debit_ai_transcribe. destruct (accounts s !! account); [|done].
    destruct (negb _); [done|]. destruct (over_cap _ _ _); [done|]. by destruct (check_balance _ _).
Qed.

(** C36 the ledger's tables stay well-formed: after any operations on a fresh store every balance,
    every payment's credits and every price recorded with a token is a non-negative 64-bit signed
    integer, so that the cast to [u64] with which a balance or a payment's credits are read
    returns the very number stored; both free-tier counters of every account are non-negative (nothing bounds them above);
    every subject's account exists, and no account has two subjects. (The time of issue recorded
    with a token is stored without such a bound and never read back.) *)
Theorem ledger_store_wf os :
  let s := foldl exec empty os in
  (∀ a r, accounts s !! a = Some r →
     (0 <= balance r <= I64_MAX)%Z ∧ as_u64 (balance r) = Z.to_N (balance r) ∧
     (0 <= free_requests r)%Z ∧ (0 <= free_seconds r)%Z) ∧
  (∀ k p, payments s !! k = Some p →
     (0 <= credits p <= I64_MAX)%Z ∧ as_u64 (credits p) = Z.to_N (credits p)) ∧
  (∀ k i, token_issuances s !! k = Some i → (0 <= paid i <= I64_MAX)%Z) ∧
  (∀ sub a, account_subjects s !! sub = Some a → is_Some (accounts s !! a)) ∧
  (∀ sub1 sub2 a, account_subjects s !! sub1 = Some a → account_subjects s !! sub2 = Some a →
     sub1 = sub2).
Proof.
  intros s. assert (wf s ∧ prices_ok s) as [[W1 W2 W3 W4] P].
  { unfold s. clear s. assert (wf empty ∧ prices_ok empty) as W
      by (split; [apply wf_empty|]; intros k i; cbn; by rewrite lookup_empty).
    revert W. generalize empty. induction os as [|o os IH]; intros s [W P]; [done|]. cbn.
    apply IH. split; [by apply wf_exec|by apply prices_exec]. }
  split_and!; [| |exact P|exact W3|exact W4].
  - intros a r H. destruct (W1 a r H) as (B & F & G).
    split; [done|]. split; [by apply as_u64_nonneg|done].
  - intros k p H. pose proof (W2 k p H) as C. unfold payment_ok in C.
    split; [done|]. apply as_u64_nonneg. lia.
Qed.

(** ** No credit out of nothing *)

Definition funds (r : AccountRow) : N := Z.to_N (balance r).

(** What the accounts hold, and what the confirmed payments brought in. *)
Definition worth (s : LedgerStore) : N := sum_of funds (accounts s).
Definition paid_in (s : LedgerStore) : N :=
  sum_of (λ p, if (confirmed p =? 0)%Z then 0 else Z.to_N (credits p)) (payments s).

(** What one operation tops up by hand, and what it sells. *)
Definition topped (s : LedgerStore) (o : Op) : N :=
  match o with OpCredit a n => if is_ok (credit s a n).1 then n else 0 | _ => 0 end.
Definition sold (s : LedgerStore) (o : Op) : N :=
  match o with
  | OpDebit a n => if is_ok (debit s a n).1 then n else 0
  | OpIssue a n key tok now => if is_ok (debit_and_record_issuance s a n key tok now).1 then n else 0
  | OpChat a c cap => if is_ok (debit_ai_chat s a c cap).1 then c else 0
  | OpTranscribe a c d cap => if is_ok (debit_ai_transcribe s a c d cap).1 then c else 0
  | _ => 0
  end.

(** A run, with the top-ups and the sales added up. *)
Fixpoint flow (s : LedgerStore) (os : list Op) : N * N :=
  match os with
  | [] => (0, 0)
  | o :: os' => let '(t, v) := flow (exec s o) os' in (topped s o + t, sold s o + v)
  end.

Lemma worth_update f id r s :
  accounts s !! id = Some r →
  worth (update_account f id s) + funds r = worth s + funds (f r).
Proof. intros E. unfold worth. cbn. by apply sum_update. Qed.

Lemma worth_same f id s : (∀ r, balance (f r) = balance r) → worth (update_account f id s) = worth s.
Proof. intros Hf. apply sum_update_same. intros r. unfold funds. by rewrite Hf. Qed.

Lemma paid_update f id s : paid_in (update_account f id s) = paid_in s.
Proof. done. Qed.

Lemma worth_create s sub fp d : worth (create_for s sub fp d).2 = worth s.
Proof.
  unfold create_for. destruct (sql_insert d _ (accounts s)) eqn:E; [|done].
  destruct (sql_insert sub _ _); [|done]. unfold worth. cbn. by rewrite (sum_insert _ _ _ _ _ E).
Qed.

(** Selling for [amount]: the account's funds cover it and go down by it. *)
Lemma worth_sold f id r s amount :
  accounts s !! id = Some r → row_ok r → (Z.of_N amount <= balance r)%Z →
  balance (f r) = (balance r - Z.of_N amount)%Z →
  worth (update_account f id s) + amount = worth s.
Proof.
  intros E [B _] L F. pose proof (worth_update f id r s E) as W. unfold funds in W.
  rewrite F in W. lia.
Qed.

Lemma money_create s sub fp d :
  worth (create_for s sub fp d).2 = worth s ∧ paid_in (create_for s sub fp d).2 = paid_in s.
Proof.
  split; [apply worth_create|]. unfold create_for.
  destruct (sql_insert d _ (accounts s)); [|done]. by destruct (sql_insert sub _ _).
Qed.

Lemma money_confirm s p :
  wf s → worth (confirm_payment s p).2 + paid_in s <= worth s + paid_in (confirm_payment s p).2.
Proof.
  intros W. unfold confirm_payment. destruct (payments s !! p) as [row|] eqn:E; [|cbn; lia].
  destruct (confirmed row =? 0)%Z eqn:C; cbn [negb]; [|cbn; lia].
  destruct (credits row <? 0)%Z eqn:N; [cbn; lia|]. bool_facts.
  destruct (accounts s !! payer row) as [r|] eqn:Er; [|cbn; lia].
  destruct (wf_accounts _ W _ _ Er) as [B _].
  pose proof (saturating_add_i64_ok _ _ B N) as [S1 S2].
  pose proof (worth_update (set_balance (saturating_add_i64 (balance r) (credits row)))
    (payer row) r s Er) as Wu. unfold worth, paid_in, funds in *. cbn in *.
  pose proof (sum_update (λ p, if (confirmed p =? 0)%Z then 0 else Z.to_N (credits p))
    (λ p0, {| payer := payer p0; credits := credits p0; confirmed := 1 |}) p row (payments s) E)
    as Pu. cbn in Pu. rewrite C in Pu. cbn in Pu. lia.
Qed.

(** One operation. *)
Lemma money_step s o :
  wf s → worth (exec s o) + sold s o + paid_in s <= worth s + topped s o + paid_in (exec s o).
Proof.
  intros W. destruct o; cbn [exec topped sold].
  - unfold open_account. destruct (sql_insert _ _ _) as [t|] eqn:E; [|cbn; lia].
    unfold worth, paid_in. cbn. rewrite (sum_insert _ _ _ _ _ E). cbn. lia.
  - unfold account_for_subject. destruct (_ !! _); [cbn; lia|].
    destruct (money_create s sub None drawn) as [-> ->]. lia.
  - unfold account_for_subject_with_device_cap. destruct (account_subjects s !! _); [cbn; lia|].
    cbv zeta. destruct (match fingerprint with Some _ => _ | None => _ end); [cbn; lia|].
    destruct (money_create s sub fingerprint drawn) as [-> ->]. lia.
  - destruct (delete_cases s sub) as [[-> _]|(a & r & _ & Er & _ & ->)]; [lia|].
    unfold worth, paid_in. cbn. pose proof (sum_delete funds a r _ Er). lia.
  - unfold set_blocked. rewrite worth_same, paid_update by done. lia.
  - unfold set_max_tunnels. rewrite worth_same, paid_update by done. lia.
  - unfold set_max_channels. rewrite worth_same, paid_update by done. lia.
  - unfold set_plan. rewrite worth_same, paid_update by done. lia.
  - unfold clear_device_fingerprint. rewrite worth_same, paid_update by done. lia.
  - unfold credit. destruct (_ <? _) eqn:A; [cbn; lia|]. bool_facts.
    destruct (accounts s !! account) as [r|] eqn:E; [|cbn; lia].
    destruct (wf_accounts _ W _ _ E) as [B _].
    pose proof (worth_update (set_balance (saturating_add_i64 (balance r) (as_i64 amount)))
      account r s E) as Wu.
    rewrite as_i64_nonneg in * by (unfold I64_MAX in *; lia).
    pose proof (saturating_add_i64_ok (balance r) (Z.of_N amount) B ltac:(lia)) as [S1 S2].
    unfold funds in Wu. cbn in *. rewrite paid_update. lia.
  - unfold debit. destruct (debited _ _ _) as [new|] eqn:E; [|cbn; lia].
    apply debited_Ok in E as (r & Er & _ & L & ->); [|done]. cbn.
    pose proof (worth_sold (set_balance (balance r - Z.of_N amount)) account r s amount Er
      (wf_accounts _ W _ _ Er) L eq_refl). rewrite paid_update. lia.
  - unfold debit_and_record_issuance. destruct (debited _ _ _) as [new|] eqn:E; [|cbn; lia].
    destruct (sql_insert _ _ _); [|cbn; lia].
    apply debited_Ok in E as (r & Er & _ & L & ->); [|done]. cbn.
    pose proof (worth_sold (set_balance (balance r - Z.of_N amount)) account r s amount Er
      (wf_accounts _ W _ _ Er) L eq_refl) as Ws. unfold worth, paid_in in *. cbn in *. lia.
  - unfold create_intent. destruct (_ <? _); [cbn; lia|].
    destruct (sql_insert _ _ _) as [t|] eqn:E; [|cbn; lia].
    unfold worth, paid_in. cbn. rewrite (sum_insert _ _ _ _ _ E). cbn. lia.
  - pose proof (money_confirm s payment W). lia.
  - unfold debit_ai_chat. destruct (accounts s !! account) as [r|] eqn:E; [|cbn; lia].
    destruct (negb _); [cbn; lia|]. destruct (over_cap _ _ _); [cbn; lia|].
    destruct (check_balance _ _) eqn:C; [cbn; lia|]. apply check_balance_None in C as [C1 C2].
    cbn [is_ok fst snd]. pose proof (worth_sold (spend_chat cost) account r s cost E
      (wf_accounts _ W _ _ E) C2 ltac:(cbn; by rewrite as_i64_nonneg)).
    rewrite paid_update. lia.
  - unfold debit_ai_transcribe. destruct (accounts s !! account) as [r|] eqn:E; [|cbn; lia].
    destruct (negb _); [cbn; lia|]. destruct (over_cap _ _ _); [cbn; lia|].
    destruct (check_balance _ _) eqn:C; [cbn; lia|]. apply check_balance_None in C as [C1 C2].
    cbn [is_ok fst snd]. pose proof (worth_sold (spend_transcribe cost duration) account r s cost
      E (wf_accounts _ W _ _ E) C2 ltac:(cbn; by rewrite as_i64_nonneg)).
    rewrite paid_update. lia.
Qed.

(** C37 credit is never created: in any run on a fresh store, what the accounts hold plus what was
    sold (debits, token purchases, AI usage) is at most what was topped up by hand plus the
    credits of the confirmed payments, each payment counted once however often its
    confirmation was delivered. *)
Theorem no_credit_from_nothing os :
  let '(topped_up, sold_for) := flow empty os in
  worth (foldl exec empty os) + sold_for <= topped_up + paid_in (foldl exec empty os).
Proof.
  assert (∀ s, wf s → let '(t, v) := flow s os in
    worth (foldl exec s os) + v + paid_in s <= worth s + t + paid_in (foldl exec s os)) as G.
  { induction os as [|o os IH]; intros s W; cbn; [lia|].
    specialize (IH (exec s o) (wf_exec s o W)). destruct (flow (exec s o) os) as [t v].
    pose proof (money_step s o W). lia. }
  specialize (G empty wf_empty). destruct (flow empty os) as [t v].
  change (worth empty) with 0 in G. change (paid_in empty) with 0 in G. lia.
Qed.

(** ** The store against the in-memory ledger *)

Definition abs_ledger (s : LedgerStore) : Ledger.Ledger :=
  (λ r, as_u64 (balance r)) <$> accounts s.

Definition abs_payments (s : LedgerStore) : Payment.PaymentIntake :=
  (λ p, {| Payment.account := payer p; Payment.credits := as_u64 (credits p);
           Payment.confirmed := negb (confirmed p =? 0)%Z |}) <$> payments s.

(** An answer of the in-memory ledger as the store gives it: never an error of the database. *)
Definition by_rule {A} (r : Result A LedgerError) : Result A LedgerOpError :=
  match r with Ok v => Ok v | Err e => Err (Rule e) end.

Definition by_payment_rule {A} (r : Result A PaymentError) : Result A PaymentOpError :=
  match r with Ok v => Ok v | Err e => Err (PaymentRule e) end.

Lemma abs_update z id s :
  abs_ledger (update_account (set_balance z) id s)
  = if decide (is_Some (accounts s !! id)) then <[id := as_u64 z]> (abs_ledger s)
    else abs_ledger s.
Proof.
  unfold abs_ledger, update_account. cbn. destruct (accounts s !! id) as [r|] eqn:E.
  - rewrite decide_True by eauto. rewrite (sql_update_some _ _ _ _ E). by rewrite fmap_insert.
  - rewrite decide_False by (intros [? [=]]). by rewrite sql_update_none.
Qed.

Lemma abs_lookup s id : abs_ledger s !! id = (λ r, as_u64 (balance r)) <$> accounts s !! id.
Proof. apply lookup_fmap. Qed.

Lemma abs_payments_lookup s k :
  abs_payments s !! k =
  (λ p, {| Payment.account := payer p; Payment.credits := as_u64 (credits p);
           Payment.confirmed := negb (confirmed p =? 0)%Z |}) <$> payments s !! k.
Proof. apply lookup_fmap. Qed.

Lemma credit_fits r n :
  row_ok r → Z.to_N (balance r) + n <= Z.to_N I64_MAX →
  as_u64 (saturating_add_i64 (balance r) (Z.of_N n)) = saturating_add64 (as_u64 (balance r)) n.
Proof.
  intros [B _] L. rewrite (as_u64_nonneg (balance r)) by done.
  rewrite saturating_add_i64_small by (unfold I64_MAX in *; lia).
  rewrite as_u64_nonneg by (unfold I64_MAX in *; lia).
  unfold saturating_add64, U64, I64_MAX in *. lia.
Qed.

(** C35 on accounts that are not blocked and below the 64-bit signed limit, the durable ledger is
    the in-memory one: reading, crediting and debiting an account, and confirming a payment,
    give the same answers and leave the same balances, payments and confirmations; an account or
    a payment that is not there is the same refusal as in memory, and never an error of the
    database. *)
Theorem ledger_store_refines s id amount payment :
  wf s →
  balance_of s id = by_rule (Ledger.balance (abs_ledger s) id) ∧
  ((∀ r, accounts s !! id = Some r → Z.to_N (balance r) + amount <= Z.to_N I64_MAX) →
   amount <= Z.to_N I64_MAX →
     let '(res, s') := credit s id amount in
     let '(want, l) := Ledger.credit (abs_ledger s) id amount in
     res = by_rule want ∧ abs_ledger s' = l ∧ abs_payments s' = abs_payments s) ∧
  ((∀ r, accounts s !! id = Some r → blocked r = 0%Z) →
     let '(res, s') := debit s id amount in
     let '(want, l) := Ledger.debit (abs_ledger s) id amount in
     res = by_rule want ∧ abs_ledger s' = l ∧ abs_payments s' = abs_payments s) ∧
  ((∀ p r, payments s !! payment = Some p → accounts s !! payer p = Some r →
      Z.to_N (balance r) + Z.to_N (credits p) <= Z.to_N I64_MAX) →
     let '(res, s') := confirm_payment s payment in
     let '(want, (ps, l)) := Payment.confirm_payment (abs_payments s) (abs_ledger s) payment in
     res = by_payment_rule want ∧ abs_payments s' = ps ∧ abs_ledger s' = l).
Proof.
  intros W. split_and!.
  - unfold balance_of, Ledger.balance. rewrite abs_lookup.
    by destruct (accounts s !! id).
  - intros F A. unfold credit, Ledger.credit. rewrite (proj2 (N.ltb_ge _ _) A).
    rewrite abs_lookup.
    destruct (accounts s !! id) as [r|] eqn:E; cbn -[update_account abs_ledger]; [|done]. rewrite abs_update, decide_True by eauto.
    rewrite as_i64_nonneg by (unfold I64_MAX in *; lia).
    by rewrite (credit_fits r amount (wf_accounts _ W _ _ E) (F r eq_refl)).
  - intros K. unfold debit, debited, Ledger.debit. rewrite abs_lookup.
    destruct (accounts s !! id) as [r|] eqn:E; cbn -[update_account abs_ledger]; [|done].
    rewrite (K r eq_refl). cbn -[update_account abs_ledger].
    destruct (as_u64 (balance r) <? amount) eqn:L; [done|]. bool_facts.
    destruct (wf_accounts _ W _ _ E) as [B _]. rewrite (as_u64_nonneg (balance r)) in * by done.
    cbn [by_rule]. rewrite abs_update, decide_True by eauto.
    rewrite as_i64_nonneg, wrap_i64_small by (unfold i64_ok, I64_MAX in *; lia).
    rewrite as_u64_nonneg by (unfold I64_MAX in *; lia).
    replace (Z.to_N (balance r - Z.of_N amount)) with (Z.to_N (balance r) - amount) by lia. done.
  - intros F. unfold confirm_payment, Payment.confirm_payment.
    rewrite abs_payments_lookup. destruct (payments s !! payment) as [p|] eqn:E; cbn; [|done].
    destruct (confirmed p =? 0)%Z eqn:C; cbn; [|done].
    pose proof (wf_payments _ W _ _ E) as P. unfold payment_ok in P.
    rewrite (proj2 (Z.ltb_ge _ _)) by lia. unfold Ledger.credit.
    rewrite abs_lookup. destruct (accounts s !! payer p) as [r|] eqn:Er; cbn; [|done].
    pose proof (credit_fits r (Z.to_N (credits p)) (wf_accounts _ W _ _ Er) (F p r eq_refl Er)) as Cf.
    rewrite Z2N.id in Cf by lia. rewrite (as_u64_nonneg (credits p)) by lia. rewrite <- Cf.
    pose proof (abs_update (saturating_add_i64 (balance r) (credits p)) (payer p) s) as Ab.
    rewrite decide_True in Ab by eauto. unfold abs_ledger, update_account in *. cbn in Ab. rewrite Ab.
    do 2 f_equal. unfold abs_payments. cbn. rewrite (sql_update_some _ _ _ _ E), fmap_insert. cbn.
    by rewrite (as_u64_nonneg (credits p)) by lia.
Qed.

(** ** What an operation can do to who an account is *)

(** An update of what an account has, not of who it is. *)
Definition keeps_identity (f : AccountRow → AccountRow) : Prop :=
  ∀ r, blocked (f r) = blocked r ∧ device_fingerprint (f r) = device_fingerprint r ∧
    plan (f r) = plan r.

(** The operations on money and limits. *)
Definition is_money (o : Op) : bool :=
  match o with
  | OpMaxTunnels _ _ | OpMaxChannels _ _ | OpCredit _ _ | OpDebit _ _ | OpIssue _ _ _ _ _
  | OpIntent _ _ _ | OpConfirm _ | OpChat _ _ _ | OpTranscribe _ _ _ _ => true
  | _ => false
  end.

Definition is_chat (o : Op) : bool := match o with OpChat _ _ _ => true | _ => false end.

Lemma money_shape s o :
  is_money o = true →
  account_subjects (exec s o) = account_subjects s ∧
  (accounts (exec s o) = accounts s ∨
   ∃ f id, keeps_identity f ∧ (is_chat o = false → ∀ r, free_requests (f r) = free_requests r) ∧
     accounts (exec s o) = sql_update f id (accounts s)).
Proof.
  assert (∀ z, keeps_identity (set_balance z)) as Kb by done.
  assert (∀ c, keeps_identity (spend_chat c)) as Kc by done.
  assert (∀ c d, keeps_identity (spend_transcribe c d)) as Kt by done.
  destruct o; try done; intros _; cbn [exec].
  1-2: split; [done|]; right; eexists _, _; split_and!; [| |reflexivity]; done.
  - unfold credit. destruct (_ <? _); [by split; [|left]|].
    destruct (accounts s !! account); [|by split; [|left]]. split; [done|]. right. eexists _, _; split_and!; [| |reflexivity]; done.
  - unfold debit. destruct (debited _ _ _); [|by split; [|left]]. split; [done|]. right. eexists _, _; split_and!; [| |reflexivity]; done.
  - unfold debit_and_record_issuance. destruct (debited _ _ _); [|by split; [|left]].
    destruct (sql_insert _ _ _); [|by split; [|left]]. split; [done|]. right. eexists _, _; split_and!; [| |reflexivity]; done.
  - unfold create_intent. destruct (_ <? _); [by split; [|left]|].
    destruct (sql_insert _ _ _); by split; [|left].
  - unfold confirm_payment. destruct (payments s !! payment) as [row|]; [|by split; [|left]].
    destruct (negb (confirmed row =? 0)%Z); [by split; [|left]|].
    destruct (credits row <? 0)%Z; [by split; [|left]|].
    destruct (accounts s !! payer row); [|by split; [|left]]. split; [done|]. right. eexists _, _; split_and!; [| |reflexivity]; done.
  - unfold debit_ai_chat. destruct (accounts s !! account); [|by split; [|left]].
    destruct (negb _); [by split; [|left]|]. destruct (over_cap _ _ _); [by split; [|left]|].
    destruct (check_balance _ _); [by split; [|left]|]. split; [done|]. right. eexists _, _; split_and!; [| |reflexivity]; done.
  - unfold debit_ai_transcribe. destruct (accounts s !! account); [|by split; [|left]].
    destruct (negb _); [by split; [|left]|]. destruct (over_cap _ _ _); [by split; [|left]|].
    destruct (check_balance _ _); [by split; [|left]|]. split; [done|]. right. eexists _, _; split_and!; [| |reflexivity]; done.
Qed.

(** Opening accounts: nothing changes, or a new row appears and at most a new subject. *)
Lemma opening_shape s o :
  is_money o = false → (∀ sub, o ≠ OpDelete sub) → (∀ a on, o ≠ OpBlock a on) →
  (∀ a p, o ≠ OpPlan a p) → (∀ a, o ≠ OpClearDevice a) →
  exec s o = s ∨
  ∃ d fp, accounts s !! d = None ∧ accounts (exec s o) = <[d := fresh_account fp]> (accounts s) ∧
    (∀ sub a, account_subjects s !! sub = Some a → account_subjects (exec s o) !! sub = Some a) ∧
    ∀ fp', fp = Some fp' → ∃ sub c, o = OpSignup sub fp c d ∧
      (0 < c → as_u32 (Z.of_nat (accounts_of_device s fp')) < c).
Proof.
  intros M ND NB NP NC.
  assert (∀ sub fp d, create_for s sub fp d = (Ok d, (create_for s sub fp d).2) ∧
    accounts s !! d = None ∧ accounts (create_for s sub fp d).2 = <[d := fresh_account fp]> (accounts s) ∧
    (∀ sub' a, account_subjects s !! sub' = Some a →
       account_subjects (create_for s sub fp d).2 !! sub' = Some a)
    ∨ (create_for s sub fp d).2 = s) as C.
  { intros sub fp d. unfold create_for.
    destruct (sql_insert d _ (accounts s)) as [t|] eqn:Ed; [|by right].
    destruct (sql_insert sub d _) as [m|] eqn:Em; [|by right]. left.
    apply sql_insert_Some in Ed as [Nd ->]. apply sql_insert_Some in Em as [Nm ->]. cbn.
    split_and!; [done..|]. intros sub' a H. rewrite lookup_insert_ne; [done|].
    intros ->. congruence. }
  destruct o; try discriminate M; cbn [exec];
    try (exfalso; first [by eapply ND|by eapply NB|by eapply NP|by eapply NC]).
  - unfold open_account. destruct (sql_insert _ _ _) as [t|] eqn:E; [|by left].
    apply sql_insert_Some in E as [N ->]. right. exists drawn, None. by split_and!.
  - unfold account_for_subject. destruct (account_subjects s !! sub); [by left|].
    destruct (C sub None drawn) as [(_ & N & A & S)|A]; [|by left]. right. exists drawn, None.
    by split_and!.
  - unfold account_for_subject_with_device_cap.
    destruct (account_subjects s !! sub); [by left|]. cbv zeta.
    destruct (match fingerprint with Some _ => _ | None => _ end) eqn:V; [by left|].
    destruct (C sub fingerprint drawn) as [(_ & N & A & S)|A]; [|by left]. right.
    exists drawn, fingerprint. split_and!; [done..|]. intros fp' ->. exists sub, cap.
    split; [done|]. intros C0. rewrite (proj2 (N.ltb_lt _ _) C0) in V. cbn in V. by bool_facts.
Qed.

(** ** A blocked account *)

Lemma blocked_row s a : is_blocked s a = true ↔ ∃ r, accounts s !! a = Some r ∧ blocked r ≠ 0%Z.
Proof.
  unfold is_blocked. destruct (accounts s !! a) as [r|]; cbn; [|naive_solver].
  rewrite negb_true_iff, Z.eqb_neq. naive_solver.
Qed.

Lemma blocked_update f id s a t :
  accounts t = sql_update f id (accounts s) → is_blocked s a = true →
  (∀ r, id = a → blocked r ≠ 0%Z → blocked (f r) ≠ 0%Z) → is_blocked t a = true.
Proof.
  intros T (r & E & B)%blocked_row Hf. apply blocked_row. rewrite T, lookup_sql_update, E.
  destruct (decide (id = a)) as [->|]; [|by exists r]. exists (f r). auto.
Qed.

Lemma block_opening s o a :
  is_money o = false → (∀ sub, o ≠ OpDelete sub) → (∀ a on, o ≠ OpBlock a on) →
  (∀ a p, o ≠ OpPlan a p) → (∀ a, o ≠ OpClearDevice a) → is_blocked s a = true →
  is_blocked (exec s o) a = true ∧
  ∀ sub, account_subjects s !! sub = Some a → account_subjects (exec s o) !! sub = Some a.
Proof.
  intros M N1 N2 N3 N4 B.
  destruct (opening_shape s o M N1 N2 N3 N4) as [->|(d & fp & Nd & A & S & _)]; [done|].
  split; [|intros sub; apply S]. apply blocked_row in B as (r & Ea & Bn). apply blocked_row.
  exists r. rewrite A, lookup_insert_ne; [done|]. intros ->. congruence.
Qed.

(** Operations keep a blocked account, its subjects and its block, but for the unblocking. *)
Lemma block_step s o a :
  o ≠ OpBlock a false → is_blocked s a = true →
  is_blocked (exec s o) a = true ∧
  ∀ sub, account_subjects s !! sub = Some a → account_subjects (exec s o) !! sub = Some a.
Proof.
  intros No B. destruct (is_money o) eqn:M.
  { destruct (money_shape s o M) as [-> [A|(f & id & K & _ & A)]]; (split; [|done]).
    - unfold is_blocked in *. by rewrite A.
    - eapply blocked_update; [exact A|done|]. intros r _. by destruct (K r) as [-> _]. }
  assert (∀ f id, (∀ r, id = a → blocked r ≠ 0%Z → blocked (f r) ≠ 0%Z) →
    is_blocked (update_account f id s) a = true ∧ ∀ sub, account_subjects s !! sub = Some a →
      account_subjects (update_account f id s) !! sub = Some a) as U.
  { intros f id Hf. split; [|done]. by eapply blocked_update. }
  destruct o; try discriminate M; try by apply block_opening.
  - destruct (delete_cases s sub) as [[E _]|(a' & r' & Es & Er & K & E)]; cbn [exec]; rewrite E;
      [done|]. apply blocked_row in B as (r & Ea & Bn).
    assert (a' ≠ a) as N by (intros ->; congruence). split.
    + apply blocked_row. exists r. cbn. by rewrite lookup_delete_ne.
    + intros sub' H. cbn. rewrite lookup_delete_ne; [done|]. intros ->. congruence.
  - apply U. intros r -> _. destruct on; [done|]. by destruct No.
  - by apply U.
  - by apply U.
Qed.

(** a block holds. Once an account is blocked, it stays blocked through any operations but its
    own unblocking, deletion and re-login of its subject included (the subject still maps to
    the blocked account), and as long as it is blocked every way to spend is refused with
    [AccountBlocked] and changes nothing, whatever the balance. *)
Theorem block_is_enforced s a os :
  is_blocked s a = true → Forall (λ o, o ≠ OpBlock a false) os →
  let s' := foldl exec s os in
  is_blocked s' a = true ∧
  (∀ sub, account_subjects s !! sub = Some a → account_subjects s' !! sub = Some a) ∧
  ∀ amount key tok now duration cap,
    debit s' a amount = (Err (Rule AccountBlocked), s') ∧
    debit_and_record_issuance s' a amount key tok now = (Err (Rule AccountBlocked), s') ∧
    debit_ai_chat s' a amount cap = (Err (Rule AccountBlocked), s') ∧
    debit_ai_transcribe s' a amount duration cap = (Err (Rule AccountBlocked), s').
Proof.
  intros B F.
  assert (is_blocked (foldl exec s os) a = true ∧
    ∀ sub, account_subjects s !! sub = Some a →
      account_subjects (foldl exec s os) !! sub = Some a) as [B' M].
  { revert s B. induction F as [|o os No _ IH]; intros s B; [done|]. cbn.
    destruct (block_step s o a No B) as [B1 M1]. destruct (IH _ B1) as [B2 M2]. split; [done|].
    intros sub H. by apply M2, M1. }
  split_and!; [done|done|]. intros *. apply blocked_row in B' as (r & E & Bn).
  apply Z.eqb_neq in Bn.
  unfold debit, debit_and_record_issuance, debited, debit_ai_chat, debit_ai_transcribe.
  by rewrite E, Bn.
Qed.

(** ** The device cap *)

Definition on_device (fp : bytes) (r : AccountRow) : N :=
  if bool_decide (device_fingerprint r = Some fp) then 1 else 0.

Lemma devices_sum s fp : N.of_nat (accounts_of_device s fp) = sum_of (on_device fp) (accounts s).
Proof. apply count_sum. Qed.

Lemma sum_update_le {R} (f : R → N) (g : R → R) (k : bytes) (t : gmap bytes R) :
  (∀ r, f (g r) <= f r) → sum_of f (sql_update g k t) <= sum_of f t.
Proof.
  intros H. destruct (t !! k) as [r|] eqn:E; [|by rewrite sql_update_none].
  pose proof (sum_update f g k r t E). specialize (H r). lia.
Qed.

Lemma devices_opening s o fp cap :
  is_money o = false → (∀ sub, o ≠ OpDelete sub) → (∀ a on, o ≠ OpBlock a on) →
  (∀ a p, o ≠ OpPlan a p) → (∀ a, o ≠ OpClearDevice a) →
  cap < 2 ^ 32 → 0 < cap → sum_of (on_device fp) (accounts s) <= cap →
  (∀ sub fp' c d, o = OpSignup sub fp' c d → c = cap) →
  sum_of (on_device fp) (accounts (exec s o)) <= cap.
Proof.
  intros M N1 N2 N3 N4 C1 C0 L Ho.
  destruct (opening_shape s o M N1 N2 N3 N4) as [->|(d & fp' & Nd & -> & _ & S)]; [done|].
  rewrite sum_insert_new by done. unfold on_device at 1. cbn. case_bool_decide as E; [|lia].
  destruct (S fp E) as (sub & c & Eo & Lc). rewrite (Ho _ _ _ _ Eo) in Lc. specialize (Lc C0).
  rewrite <- devices_sum in *. rewrite as_u32_small in Lc by lia. lia.
Qed.

(** What an operation may add to a device's accounts: only a signup below the cap. *)
Lemma devices_step s o fp cap :
  cap < 2 ^ 32 → 0 < cap → sum_of (on_device fp) (accounts s) <= cap →
  (∀ sub fp' c d, o = OpSignup sub fp' c d → c = cap) →
  sum_of (on_device fp) (accounts (exec s o)) <= cap.
Proof.
  intros C1 C0 L Ho.
  assert (∀ f id, (∀ r, on_device fp (f r) <= on_device fp r) →
    sum_of (on_device fp) (sql_update f id (accounts s)) <= cap) as U
    by (intros f id Hf; pose proof (sum_update_le (on_device fp) f id (accounts s) Hf); lia).
  destruct (is_money o) eqn:M.
  { destruct (money_shape s o M) as [_ [->|(f & id & K & _ & ->)]]; [done|]. apply U. intros r.
    unfold on_device. by destruct (K r) as (_ & -> & _). }
  destruct o; try discriminate M; try by apply devices_opening.
  - destruct (delete_cases s sub) as [[E _]|(a & r & _ & Er & _ & E)]; cbn [exec]; rewrite E;
      [done|]. cbn. pose proof (sum_delete (on_device fp) a r (accounts s) Er). lia.
  - by apply U.
  - by apply U.
  - apply U. intros r. unfold on_device. cbn. rewrite bool_decide_eq_false_2 by done. lia.
Qed.

(** the device cap holds: with a non-zero cap that every signup uses, no sequence of operations
    on a fresh store leaves more accounts with one device fingerprint than the cap. *)
Theorem device_cap_holds os cap fp :
  0 < cap → cap < 2 ^ 32 →
  Forall (λ o, ∀ sub fp' c d, o = OpSignup sub fp' c d → c = cap) os →
  N.of_nat (accounts_of_device (foldl exec empty os) fp) <= cap.
Proof.
  intros C0 C1 F. rewrite devices_sum. assert (sum_of (on_device fp) (accounts empty) <= cap) as L
    by (change (0 <= cap); lia).
  revert L. generalize empty. induction F as [|o os Ho _ IH]; intros s L; [done|]. cbn.
  apply IH. by apply devices_step.
Qed.

(** ** The free tier *)

Definition requests_within (cap : N) (s : LedgerStore) : Prop :=
  ∀ a r, accounts s !! a = Some r → (free_requests r <= Z.of_N cap)%Z.

Lemma within_update cap f id s t :
  requests_within cap s → accounts t = sql_update f id (accounts s) →
  (∀ r, accounts s !! id = Some r → (free_requests (f r) <= Z.of_N cap)%Z) →
  requests_within cap t.
Proof.
  intros W E Hf a r. rewrite E, lookup_sql_update. destruct (decide (id = a)) as [<-|]; [|apply W].
  destruct (accounts s !! id) as [r0|] eqn:Er; [|done]. intros [= <-]. by apply Hf.
Qed.

Lemma within_opening cap s o :
  is_money o = false → (∀ sub, o ≠ OpDelete sub) → (∀ a on, o ≠ OpBlock a on) →
  (∀ a p, o ≠ OpPlan a p) → (∀ a, o ≠ OpClearDevice a) →
  requests_within cap s → requests_within cap (exec s o).
Proof.
  intros M N1 N2 N3 N4 W.
  destruct (opening_shape s o M N1 N2 N3 N4) as [->|(d & fp & _ & A & _)]; [done|].
  intros a r. rewrite A. intros [[<- <-]|[_ H]]%lookup_insert_Some; [cbn; lia|by eapply W].
Qed.

Lemma within_step cap s o :
  cap < 2 ^ 32 → wf s → requests_within cap s → (∀ a c k, o = OpChat a c k → k = Some cap) →
  requests_within cap (exec s o).
Proof.
  intros C Wf W Ho. destruct (is_chat o) eqn:Ch.
  { destruct o; try discriminate Ch. rewrite (Ho _ _ _ eq_refl). cbn [exec].
    unfold debit_ai_chat. destruct (accounts s !! account) as [r|] eqn:E; [|done].
    destruct (negb _); [done|]. destruct (over_cap _ _ _) eqn:O; [done|].
    destruct (check_balance _ _); [done|]. eapply within_update; [exact W|reflexivity|].
    intros r' Er. rewrite E in Er. injection Er as <-. unfold spend_chat. cbn.
    pose proof (W _ _ E). destruct (wf_accounts _ Wf _ _ E) as (_ & F & _).
    destruct (plan r) as [p|]; [lia|]. unfold over_cap in O. cbn in O. bool_facts.
    rewrite as_u32_small in O by lia. lia. }
  destruct (is_money o) eqn:M.
  { destruct (money_shape s o M) as [_ [A|(f & id & _ & K & A)]].
    - intros a r. rewrite A. apply W.
    - eapply within_update; [exact W|exact A|]. intros r Er. rewrite K by done. by eapply W. }
  assert (∀ f id, (∀ r, free_requests (f r) = free_requests r) →
    requests_within cap (update_account f id s)) as U.
  { intros f id K. eapply within_update; [exact W|reflexivity|]. intros r Er. rewrite K.
    by eapply W. }
  destruct o; try discriminate M; try by apply within_opening.
  - destruct (delete_cases s sub) as [[E _]|(a & r & _ & _ & _ & E)]; cbn [exec]; rewrite E;
      [done|]. intros a' r'. cbn. intros [_ H]%lookup_delete_Some. by eapply W.
  - by apply U.
  - by apply U.
  - by apply U.
Qed.

(** the free-tier request cap is a hard one: when every chat on a fresh store is metered with
    it, no account ever uses more free requests than the cap; a chat on a free account at the
    cap is refused whatever its balance; and an account on a paid plan neither is refused by
    the cap nor has its counter raised. *)
Theorem free_request_cap_hard os cap :
  cap < 2 ^ 32 →
  Forall (λ o, ∀ a c k, o = OpChat a c k → k = Some cap) os →
  let s := foldl exec empty os in
  ∀ a r, accounts s !! a = Some r → blocked r = 0%Z →
    (free_requests r <= Z.of_N cap)%Z ∧
    (plan r = None → free_requests r = Z.of_N cap → ∀ cost,
       debit_ai_chat s a cost (Some cap) = (Err (Rule FreeAiCapExceeded), s)) ∧
    (plan r ≠ None → ∀ cost, (Z.of_N cost <= balance r)%Z →
       ∃ s', debit_ai_chat s a cost (Some cap) = (Ok (), s') ∧
         accounts s' !! a = Some (set_balance (balance r - Z.of_N cost) r)).
Proof.
  intros C F s. assert (wf s ∧ requests_within cap s) as [Wf W].
  { unfold s. assert (wf empty ∧ requests_within cap empty) as H.
    { split; [apply wf_empty|]. intros a r. cbn. by rewrite lookup_empty. }
    clear s. revert H. generalize empty. induction F as [|o os Ho _ IH]; intros s [H1 H2]; [done|].
    cbn. apply IH. split; [by apply wf_exec|by apply within_step]. }
  clearbody s. intros a r E B. pose proof (W _ _ E) as L.
  destruct (wf_accounts _ Wf _ _ E) as (Bal & Fr & _).
  split_and!; [done| |].
  - intros P Ec cost. unfold debit_ai_chat, over_cap. rewrite E, B, P. cbn -[as_u32].
    rewrite as_u32_small by lia. by rewrite (proj2 (N.leb_le _ _)) by lia.
  - intros P cost Lc. unfold debit_ai_chat, over_cap. rewrite E, B. cbn -[as_u32].
    rewrite bool_decide_eq_false_2 by done. cbn.
    rewrite (proj2 (check_balance_None _ _)) by lia. eexists. split; [done|].
    rewrite update_account_lookup, decide_True, E by done. cbn. unfold spend_chat, set_balance.
    destruct (plan r) as [p|] eqn:Ep; [|done]. rewrite as_i64_nonneg by lia. by rewrite Z.add_0_r.
Qed.

End LedgerStore.

(** ** Buying a routing token *)

Module Purchase.
Import LedgerStore.

(** src/crates/control-plane/src/service.rs:622-631 [BuyReq] *)
Record BuyReq := { buyer : bytes; price : N; idempotency_key : option bytes }.

(** src/crates/control-plane/src/service.rs:680-716 [buy_token]: the status of a failed keyed
    purchase. *)
Definition keyed_status (e : LedgerOpError) : N :=
  match e with
  | Rule (InsufficientCredit _ _) => 402
  | Rule UnknownAccount => 404
  | Rule IdempotencyKeyReused => 409
  | Rule (CreditAmountTooLarge _) => 500
  | Rule AccountBlocked => 403
  | Rule DeviceLimitExceeded => 500
  | Rule FreeAiCapExceeded => 500
  | LedgerDb => 500
  end.

(** src/crates/control-plane/src/service.rs:720-748 [buy_token]: the status of a failed
    purchase without a key. *)
Definition plain_status (e : LedgerOpError) : N :=
  match e with Rule IdempotencyKeyReused => 500 | _ => keyed_status e end.

(** src/crates/control-plane/src/service.rs:637-755 [buy_token]: the response body's token, in
    hex, or the status; [drawn] are the random bytes and [now] the clock. *)
Definition buy_token (s : LedgerStore) (req : BuyReq) (drawn : bytes) (now : N)
    : Result bytes N * LedgerStore :=
  match Hex.decode_32 (buyer req) with
  | None => (Err 400, s)
  | Some account =>
    if negb (Billing.issuance_price_ok (price req)) then (Err 402, s)
    else
      match idempotency_key req with
      | Some k =>
        match Hex.decode_32 k with
        | None => (Err 400, s)
        | Some key =>
          match issuance_for_key s account key with
          | Err _ => (Err 500, s)
          | Ok (Some existing) => (Ok (Hex.encode existing), s)
          | Ok None =>
            match debit_and_record_issuance s account (price req) key drawn now with
            | (Err e, s) => (Err (keyed_status e), s)
            | (Ok _, s) => (Ok (Hex.encode drawn), s)
            end
          end
        end
      | None =>
        match debit s account (price req) with
        | (Err e, s) => (Err (plain_status e), s)
        | (Ok _, s) => (Ok (Hex.encode drawn), s)
        end
      end
  end.

(** No operation of the store forgets or rewrites an issuance. *)
Lemma issuance_kept s o k row :
  token_issuances s !! k = Some row → token_issuances (exec s o) !! k = Some row.
Proof.
  intros E. destruct o; cbn [exec]; try done.
  - unfold open_account. by destruct (sql_insert _ _ _).
  - unfold account_for_subject, create_for. destruct (account_subjects s !! sub); [done|].
    destruct (sql_insert drawn _ _); [|done]. by destruct (sql_insert sub _ _).
  - unfold account_for_subject_with_device_cap, create_for.
    destruct (account_subjects s !! sub); [done|]. cbv zeta.
    destruct (match fingerprint with Some _ => _ | None => _ end); [done|].
    destruct (sql_insert drawn _ _); [|done]. by destruct (sql_insert sub _ _).
  - by destruct (delete_cases s sub) as [[-> _]|(a & r & _ & _ & _ & ->)].
  - unfold credit. destruct (_ <? _); [done|]. by destruct (accounts s !! account).
  - unfold debit. by destruct (debited _ _ _).
  - unfold debit_and_record_issuance. destruct (debited _ _ _); [|done].
    destruct (sql_insert _ _ _) as [t|] eqn:I; [|done]. apply sql_insert_Some in I as [N ->]. cbn.
    rewrite lookup_insert_ne; [done|]. intros ->. congruence.
  - unfold create_intent. destruct (_ <? _); [done|]. by destruct (sql_insert _ _ _).
  - unfold confirm_payment. destruct (payments s !! payment) as [row'|]; [|done].
    destruct (negb _); [done|]. destruct (_ <? _)%Z; [done|]. by destruct (accounts s !! payer row').
  - unfold debit_ai_chat. destruct (accounts s !! account); [|done].
    destruct (negb _); [done|]. destruct (over_cap _ _ _); [done|].
    by destruct (check_balance _ _).
  - unfold debit_ai_transcribe. destruct (accounts s !! account); [|done].
    destruct (negb _); [done|]. destruct (over_cap _ _ _); [done|].
    by destruct (check_balance _ _).
Qed.

Lemma issuances_kept s os k a tok :
  (∃ p t, token_issuances s !! k = Some {| issued_to := a; token := tok; paid := p; issued_at := t |}) →
  ∃ p t, token_issuances (foldl exec s os) !! k =
    Some {| issued_to := a; token := tok; paid := p; issued_at := t |}.
Proof.
  intros (p & t & H). exists p, t. revert s H. induction os as [|o os IH]; intros s H; [done|].
  cbn. by apply IH, issuance_kept.
Qed.

(** A retry finds the issuance. *)
Lemma keyed_retry s b k account key tok price' drawn' now' :
  Hex.decode_32 b = Some account → Hex.decode_32 k = Some key → length tok = 32%nat →
  1 <= price' →
  (∃ p t, token_issuances s !! key =
     Some {| issued_to := account; token := tok; paid := p; issued_at := t |}) →
  buy_token s {| buyer := b; price := price'; idempotency_key := Some k |} drawn' now'
  = (Ok (Hex.encode tok), s).
Proof.
  intros Eb Ek L P (p & t & E). unfold buy_token. cbn. rewrite Eb.
  unfold Billing.issuance_price_ok, Billing.TOKEN_PRICE. rewrite (proj2 (N.leb_le _ _) P). cbn.
  rewrite Ek. unfold issuance_for_key. rewrite E. cbn. by rewrite bool_decide_eq_true_2, L by done.
Qed.

(** a purchase with an idempotency key is charged once. A refused purchase changes nothing; the
    first successful one under a key debits exactly the price, at least the token price, from
    the buyer alone; and from then on, through any other operations of the ledger, the same
    account buying with the same key gets the same token back, without a debit, whatever price
    it names and whatever token would have been drawn. *)
Theorem keyed_purchase_once s req k account key drawn now res s1 :
  wf s → Hex.decode_32 (buyer req) = Some account → idempotency_key req = Some k →
  Hex.decode_32 k = Some key → length drawn = 32%nat → token_issuances s !! key = None →
  buy_token s req drawn now = (res, s1) →
  (∀ code, res = Err code → s1 = s) ∧
  ∀ answer, res = Ok answer →
    answer = Hex.encode drawn ∧ 1 <= price req ∧ worth s1 + price req = worth s ∧
    (∀ a, a ≠ account → accounts s1 !! a = accounts s !! a) ∧
    ∀ os price' drawn' now', 1 <= price' → let s2 := foldl exec s1 os in
      buy_token s2 {| buyer := buyer req; price := price'; idempotency_key := Some k |} drawn' now'
      = (Ok answer, s2).
Proof.
  intros W Eb Ek Ekd Ld Nk E. unfold buy_token in E. rewrite Eb, Ek, Ekd in E.
  destruct (Billing.issuance_price_ok (price req)) eqn:P; cbn [negb] in E.
  2: { injection E as <- <-. split; [done|]. by intros ?. }
  unfold issuance_for_key in E. rewrite Nk in E.
  unfold debit_and_record_issuance, sql_insert in E. rewrite Nk in E.
  destruct (debited s account (price req)) as [new|e] eqn:D; injection E as <- <-.
  2: { split; [done|]. by intros ?. }
  split; [done|]. intros answer [= <-].
  apply debited_Ok in D as (r & Er & _ & L & ->); [|done].
  unfold Billing.issuance_price_ok, Billing.TOKEN_PRICE in P. bool_facts.
  pose proof (worth_sold (set_balance (balance r - Z.of_N (price req))) account r s (price req) Er
    (wf_accounts _ W _ _ Er) L eq_refl) as Ws.
  split_and!; [done|done|exact Ws| |].
  - intros a Na. cbn. rewrite lookup_sql_update. by destruct (decide (account = a)).
  - intros os price' drawn' now' P'. apply (keyed_retry _ _ _ account key drawn); try done.
    apply issuances_kept. eexists _, _. apply lookup_insert_eq.
Qed.

End Purchase.

(** ** A concrete ledger *)

Import LedgerStore.

Definition demo_id : bytes := replicate 32 x0a.

Definition demo_ops : list Op :=
  [OpSignup (lit "ana") (Some (lit "laptop")) 1 demo_id; OpCredit demo_id 5].

Definition demo_ledger : LedgerStore := foldl exec empty demo_ops.

Lemma demo_store_wf : wf demo_ledger.
Proof. unfold demo_ledger. repeat apply wf_exec. apply wf_empty. Qed.

Definition demo_req : Purchase.BuyReq :=
  {| Purchase.buyer := Hex.encode demo_id; Purchase.price := 2;
     Purchase.idempotency_key := Some (Hex.encode (replicate 32 x0b)) |}.

Example demo_purchase :
  let '(r1, s1) := Purchase.buy_token demo_ledger demo_req (replicate 32 x0c) 7 in
  let '(r2, s2) := Purchase.buy_token s1 demo_req (replicate 32 x0d) 9 in
  r1 = Ok (Hex.encode (replicate 32 x0c)) ∧ r2 = r1 ∧ balance_of s2 demo_id = Ok 3.
Proof. vm_compute. split_and!; reflexivity. Qed.

(** The seconds counter is 64 bits wide and read as 32: a free account one second below the
    cap may report a duration that carries the counter over 2^32, and reads as unused again. *)
Example free_seconds_cap_wraps :
  let s := foldl exec demo_ledger [OpTranscribe demo_id 0 3599 (Some 3600)] in
  let '(r1, s1) := debit_ai_transcribe s demo_id 0 (2 ^ 32 - 3599) (Some 3600) in
  let '(r2, s2) := debit_ai_transcribe s1 demo_id 0 3600 (Some 3600) in
  r1 = Ok () ∧ r2 = Ok () ∧
  (snd <$> ((λ u, (u, seconds_used u)) <$> ai_usage_for s1 demo_id)) = Some 0.
Proof. vm_compute. split_and!; reflexivity. Qed.

Lemma ledger_store_refines_witness :
  let '(res, s') := debit demo_ledger demo_id 2 in
  let '(want, l) := Ledger.debit (abs_ledger demo_ledger) demo_id 2 in
  res = by_rule want ∧ abs_ledger s' = l ∧ abs_payments s' = abs_payments demo_ledger.
Proof.
  apply (ledger_store_refines demo_ledger demo_id 2 demo_id demo_store_wf). intros r E.
  vm_compute in E. injection E as <-. reflexivity.
Defined.

Lemma block_is_enforced_witness :
  let s := foldl exec (set_blocked demo_ledger demo_id true)
             [OpDelete (lit "ana"); OpCredit demo_id 9] in
  debit s demo_id 1 = (Err (Rule AccountBlocked), s).
Proof.
  apply (block_is_enforced (set_blocked demo_ledger demo_id true) demo_id
           [OpDelete (lit "ana"); OpCredit demo_id 9]) with (key := []) (tok := []) (now := 0)
    (duration := 0) (cap := None).
  - vm_compute. reflexivity.
  - repeat constructor; discriminate.
Defined.

Lemma device_cap_holds_witness :
  N.of_nat (accounts_of_device (foldl exec empty
    (demo_ops ++ [OpSignup (lit "bob") (Some (lit "laptop")) 1 (replicate 32 x0e)])) (lit "laptop"))
  <= 1.
Proof.
  apply (device_cap_holds (demo_ops ++
    [OpSignup (lit "bob") (Some (lit "laptop")) 1 (replicate 32 x0e)]) 1 (lit "laptop")).
  - reflexivity.
  - reflexivity.
  - apply List.Forall_forall. intros o Ho sub fp' c d ->.
    destruct Ho as [E|[E|[E|[]]]]; try discriminate E; by injection E as _ _ <- _.
Defined.

Lemma free_request_cap_hard_witness :
  let s := foldl exec empty (demo_ops ++ [OpChat demo_id 1 (Some 1)]) in
  debit_ai_chat s demo_id 1 (Some 1) = (Err (Rule FreeAiCapExceeded), s).
Proof.
  assert (∃ r, accounts (foldl exec empty (demo_ops ++ [OpChat demo_id 1 (Some 1)])) !! demo_id
    = Some r ∧ blocked r = 0%Z ∧ plan r = None ∧ free_requests r = 1%Z) as (r & E & B & P & F).
  { eexists. split; [vm_compute; reflexivity|]. done. }
  apply (free_request_cap_hard (demo_ops ++ [OpChat demo_id 1 (Some 1)]) 1) with (r := r);
    [reflexivity| |exact E|exact B|exact P|exact F].
  apply List.Forall_forall. intros o Ho a c k ->.
  destruct Ho as [X|[X|[X|[]]]]; try discriminate X. by injection X as _ _ <-.
Defined.

Lemma keyed_purchase_once_witness :
  let s1 := (Purchase.buy_token demo_ledger demo_req (replicate 32 x0c) 7).2 in
  let s2 := foldl exec s1 [OpDelete (lit "ana")] in
  (Purchase.buy_token s2 demo_req (replicate 32 x0d) 9).1 = Ok (Hex.encode (replicate 32 x0c)).
Proof.
  intros s1 s2.
  destruct (Purchase.keyed_purchase_once demo_ledger demo_req (Hex.encode (replicate 32 x0b))
    demo_id (replicate 32 x0b) (replicate 32 x0c) 7 (Ok (Hex.encode (replicate 32 x0c))) s1 demo_store_wf)
    as [_ K]; [vm_compute; reflexivity..|].
  destruct (K _ eq_refl) as (_ & _ & _ & _ & R).
  exact (f_equal fst (R [OpDelete (lit "ana")] 2 (replicate 32 x0d) 9 ltac:(lia))).
Defined.
