(* ===== verification/ChannelStore.v ===== *)
(** * The channel registry of the control plane

    [SqliteChannelStore] ([crates/control-plane/src/storage.rs]) is the durable state behind
    admission to channels: which channels are registered and by whom, their members with the
    Noise keys they pin, the self-service allow-list, pending claim invitations, deposited
    grants, revoked grants and the single-use records of invitations and challenges.
    [ChannelStore] holds its tables and operations; the HTTP handlers that compose them are
    in [ChannelGate]. *)

From S2P Require Import Prelude RustStd Maps Codec Sqlite.

Module ChannelStore.

(** A [rusqlite::Error]. *)
Inductive StoreError := StoreDb.

(** src/crates/control-plane/src/storage.rs:5823-5827 [SqliteChannelStore::from_connection]: a
    row of [channels]. *)
Record ChannelRow := { operator : bytes; owner : bytes }.

(** src/crates/control-plane/src/storage.rs:5828-5832 [SqliteChannelStore::from_connection]: a
    row of [channel_members] (and lines 5857-5860). *)
Record MemberRow := { noise_pubkey : option bytes; noise_attestation : option bytes }.

(** src/crates/control-plane/src/storage.rs:5864-5870 [SqliteChannelStore::from_connection]: a
    row of [channel_allowlist] (and line 5883). *)
Record AllowRow := { added_by : bytes; added_at : Z; claimed_at : option Z }.

(** src/crates/control-plane/src/storage.rs:5896-5902 [SqliteChannelStore::from_connection]: a
    row of [channel_grant_revocations]. *)
Record RevocationRow := { revoked_at : Z; revocation_expires : Z }.

(** src/crates/control-plane/src/storage.rs:5903-5909 [SqliteChannelStore::from_connection]: a
    row of [channel_grant_deposits]. *)
Record DepositRow := { grant_hex : bytes; deposited_at : Z }.

(** src/crates/control-plane/src/storage.rs:5914-5920 [SqliteChannelStore::from_connection]: a
    row of [channel_member_subjects]. *)
Record SubjectRow := { subject : bytes; subject_claimed_at : Z }.

(** src/crates/control-plane/src/storage.rs:5933-5944 [SqliteChannelStore::from_connection]: a
    row of [channel_claim_invites]. *)
Record InviteRow := {
  invite_channel : bytes;
  invite_holder : bytes;
  invite_noise_pubkey : bytes;
  invite_noise_attestation : bytes;
  label : option bytes;
  minted_by : bytes;
  created_at : Z;
  invite_expires : Z;
  consumed_at : option Z;
}.

(** src/crates/control-plane/src/storage.rs:5821-5952 [SqliteChannelStore::from_connection] *)
Record ChannelStore := {
  channels : gmap bytes ChannelRow;
  members : gmap (bytes * bytes) MemberRow;
  consumed_invitations : gmap bytes Z;
  challenges : gmap bytes Z;
  allowlist : gmap (bytes * bytes) AllowRow;
  revocations : gmap (bytes * bytes) RevocationRow;
  deposits : gmap (bytes * bytes) DepositRow;
  subjects : gmap (bytes * bytes) SubjectRow;
  invites : gmap bytes InviteRow;
}.

(** src/crates/control-plane/src/storage.rs:5821-5952 [SqliteChannelStore::from_connection]: a
    fresh file. *)
Definition empty : ChannelStore :=
  {| channels := ∅; members := ∅; consumed_invitations := ∅; challenges := ∅; allowlist := ∅;
     revocations := ∅; deposits := ∅; subjects := ∅; invites := ∅ |}.

(** One table replaced. *)
Definition set_channels t s := {| channels := t; members := members s;
  consumed_invitations := consumed_invitations s; challenges := challenges s;
  allowlist := allowlist s; revocations := revocations s; deposits := deposits s;
  subjects := subjects s; invites := invites s |}.
Definition set_members t s := {| channels := channels s; members := t;
  consumed_invitations := consumed_invitations s; challenges := challenges s;
  allowlist := allowlist s; revocations := revocations s; deposits := deposits s;
  subjects := subjects s; invites := invites s |}.
Definition set_consumed t s := {| channels := channels s; members := members s;
  consumed_invitations := t; challenges := challenges s;
  allowlist := allowlist s; revocations := revocations s; deposits := deposits s;
  subjects := subjects s; invites := invites s |}.
Definition set_challenges t s := {| channels := channels s; members := members s;
  consumed_invitations := consumed_invitations s; challenges := t;
  allowlist := allowlist s; revocations := revocations s; deposits := deposits s;
  subjects := subjects s; invites := invites s |}.
Definition set_allowlist t s := {| channels := channels s; members := members s;
  consumed_invitations := consumed_invitations s; challenges := challenges s;
  allowlist := t; revocations := revocations s; deposits := deposits s;
  subjects := subjects s; invites := invites s |}.
Definition set_revocations t s := {| channels := channels s; members := members s;
  consumed_invitations := consumed_invitations s; challenges := challenges s;
  allowlist := allowlist s; revocations := t; deposits := deposits s;
  subjects := subjects s; invites := invites s |}.
Definition set_deposits t s := {| channels := channels s; members := members s;
  consumed_invitations := consumed_invitations s; challenges := challenges s;
  allowlist := allowlist s; revocations := revocations s; deposits := t;
  subjects := subjects s; invites := invites s |}.
Definition set_subjects t s := {| channels := channels s; members := members s;
  consumed_invitations := consumed_invitations s; challenges := challenges s;
  allowlist := allowlist s; revocations := revocations s; deposits := deposits s;
  subjects := t; invites := invites s |}.
Definition set_invites t s := {| channels := channels s; members := members s;
  consumed_invitations := consumed_invitations s; challenges := challenges s;
  allowlist := allowlist s; revocations := revocations s; deposits := deposits s;
  subjects := subjects s; invites := t |}.

(** ** Channels and their owners *)

(** src/crates/control-plane/src/storage.rs:2327-2343 [RegisterChannelOutcome] *)
Inductive RegisterChannelOutcome :=
| Registered | Unchanged | Rekeyed (previous : bytes) | OperatorMismatch | OwnedByAnother
| OverLimit.

(** src/crates/control-plane/src/storage.rs:2317-2323 [ChannelTransferReport] *)
Record ChannelTransferReport := Report { member_count : N; target_owned_after : N }.

(** src/crates/control-plane/src/storage.rs:2300-2313 [TransferChannelOutcome] *)
Inductive TransferChannelOutcome :=
| Transferred (report : ChannelTransferReport) | AlreadyOwnedByTarget | NotFound
| OwnerMismatch | TargetMissing.

(** [SELECT COUNT] of the channels an owner has: storage.rs 6030 and 6197. *)
Definition owned_count (s : ChannelStore) (who : bytes) : N :=
  N.of_nat (sql_count (λ _ r, bool_decide (owner r = who)) (channels s)).

(** src/crates/control-plane/src/storage.rs:5993-6041
    [SqliteChannelStore::register_channel_if_under_owned_limit] *)
Definition register_channel_if_under_owned_limit (s : ChannelStore)
    (channel operator_pubkey who : bytes) (max : N) (allow_rekey : bool)
    : RegisterChannelOutcome * ChannelStore :=
  match channels s !! channel with
  | Some row =>
    if negb (bool_decide (owner row = who)) then (OwnedByAnother, s)
    else if bool_decide (operator row = operator_pubkey) then (Unchanged, s)
    else if negb allow_rekey then (OperatorMismatch, s)
    else
      let previous := if (length (operator row) =? 32)%nat then operator row
                      else replicate 32 x00 in
      (Rekeyed previous,
       set_channels (sql_update (λ r, {| operator := operator_pubkey; owner := owner r |})
                       channel (channels s)) s)
  | None =>
    if max <=? owned_count s who then (OverLimit, s)
    else (Registered,
          set_channels (<[channel := {| operator := operator_pubkey; owner := who |}]>
                          (channels s)) s)
  end.

(** src/crates/control-plane/src/storage.rs:5962-5972 [SqliteChannelStore::register_channel] *)
Definition register_channel (s : ChannelStore) (channel operator_pubkey who : bytes)
    : bool * ChannelStore :=
  let '(outcome, s') :=
    register_channel_if_under_owned_limit s channel operator_pubkey who (U32 - 1) false in
  (match outcome with Registered | Unchanged => true | _ => false end, s').

(** A blob read back as an array: [<[u8; N]>::try_from(..).ok()]. *)
Definition as_array (n : nat) (b : bytes) : option bytes :=
  if (length b =? n)%nat then Some b else None.

(** src/crates/control-plane/src/storage.rs:6044-6054 [SqliteChannelStore::operator_pubkey] *)
Definition operator_pubkey (s : ChannelStore) (channel : bytes) : option bytes :=
  r ← channels s !! channel; as_array 32 (operator r).

(** src/crates/control-plane/src/storage.rs:6063-6079 [SqliteChannelStore::authorize_holder] *)
Definition authorize_holder (s : ChannelStore) (channel holder : bytes) : option bytes :=
  r ← channels s !! channel; _m ← members s !! (channel, holder); as_array 32 (operator r).

(** src/crates/control-plane/src/storage.rs:6083-6093 [SqliteChannelStore::channels_owned_by] *)
Definition channels_owned_by (s : ChannelStore) (who : bytes) : list bytes :=
  omap (λ cr : bytes * ChannelRow,
          if bool_decide (owner cr.2 = who) then as_array 32 cr.1 else None)
    (btree_iter (channels s)).

(** [WHERE channel = c] on a table keyed by a channel and something else. *)
Definition of_channel {R} (c : bytes) (k : bytes * bytes) (_ : R) : bool :=
  bool_decide (k.1 = c).

(** src/crates/control-plane/src/storage.rs:5789-5796 [CHANNEL_DEPENDENT_TABLES]: the deletions
    of lines 6110-6112. *)
Definition delete_dependents (c : bytes) (s : ChannelStore) : ChannelStore :=
  {| channels := channels s;
     members := sql_delete (of_channel c) (members s);
     consumed_invitations := consumed_invitations s;
     challenges := challenges s;
     allowlist := sql_delete (of_channel c) (allowlist s);
     revocations := sql_delete (of_channel c) (revocations s);
     deposits := sql_delete (of_channel c) (deposits s);
     subjects := sql_delete (of_channel c) (subjects s);
     invites := sql_delete (λ _ r, bool_decide (invite_channel r = c)) (invites s) |}.

(** [SELECT 1 FROM channels WHERE channel = ?1 AND owner = ?2]: the ownership check of the
    owner-scoped operations. *)
Definition is_owner (s : ChannelStore) (channel who : bytes) : bool :=
  match channels s !! channel with
  | Some r => bool_decide (owner r = who)
  | None => false
  end.

(** src/crates/control-plane/src/storage.rs:6098-6115 [SqliteChannelStore::delete_channel] *)
Definition delete_channel (s : ChannelStore) (who channel : bytes) : bool * ChannelStore :=
  if is_owner s channel who
  then (true, delete_dependents channel (set_channels (delete channel (channels s)) s))
  else (false, s).

(** src/crates/control-plane/src/storage.rs:6120-6125
    [SqliteChannelStore::remove_allowlist_entries_for_email] *)
Definition remove_allowlist_entries_for_email (s : ChannelStore) (email : bytes)
    : nat * ChannelStore :=
  let gone := λ (k : bytes * bytes) (_ : AllowRow),
    bool_decide (k.2 = to_ascii_lowercase email) in
  (sql_count gone (allowlist s), set_allowlist (sql_delete gone (allowlist s)) s).

(** src/crates/control-plane/src/storage.rs:6128-6136 [SqliteChannelStore::channel_owner] *)
Definition channel_owner (s : ChannelStore) (channel : bytes) : option bytes :=
  owner <$> channels s !! channel.

(** src/crates/control-plane/src/storage.rs:6164-6201 [SqliteChannelStore::transfer_channel]:
    [target_exists] is the answer of the caller's check. *)
Definition transfer_channel (s : ChannelStore) (channel from_subject to_subject : bytes)
    (target_exists : Result bool StoreError)
    : Result TransferChannelOutcome StoreError * ChannelStore :=
  match channels s !! channel with
  | None => (Ok NotFound, s)
  | Some row =>
    if bool_decide (owner row = to_subject) then (Ok AlreadyOwnedByTarget, s)
    else if negb (bool_decide (owner row = from_subject)) then (Ok OwnerMismatch, s)
    else match target_exists with
    | Err e => (Err e, s)
    | Ok false => (Ok TargetMissing, s)
    | Ok true =>
      let s' := set_channels (sql_update (λ r, {| operator := operator r; owner := to_subject |})
                                channel (channels s)) s in
      (Ok (Transferred (Report (N.of_nat (sql_count (of_channel channel) (members s')))
                               (owned_count s' to_subject))), s')
    end
  end.

(** ** Members *)

(** src/crates/control-plane/src/storage.rs:6207-6233 [SqliteChannelStore::add_member] *)
Definition add_member (s : ChannelStore) (channel who holder pubkey attestation : bytes)
    : bool * ChannelStore :=
  if negb (is_owner s channel who) then (false, s)
  else
    (true,
     set_members (<[(channel, holder) :=
       {| noise_pubkey := Some pubkey; noise_attestation := Some attestation |}]> (members s)) s).

(** The rows of a channel, [WHERE channel = ?1], and their second key. *)
Definition rows_of {R} (c : bytes) (t : gmap (bytes * bytes) R) : list (bytes * R) :=
  omap (λ kr : bytes * bytes * R, if of_channel c kr.1 kr.2 then Some (kr.1.2, kr.2) else None)
    (map_to_list t).

(** src/crates/control-plane/src/storage.rs:6242-6279 [SqliteChannelStore::members_of] *)
Definition members_of (s : ChannelStore) (channel who : bytes)
    : option (list (bytes * option bytes)) :=
  if negb (is_owner s channel who) then None
  else Some (omap (λ hm : bytes * MemberRow,
                     h ← as_array 32 hm.1; Some (h, noise_pubkey hm.2 ≫= as_array 32))
               (sort_by (λ a b : bytes * MemberRow, bytes_leb a.1 b.1)
                  (rows_of channel (members s)))).

(** src/crates/control-plane/src/storage.rs:6294-6329 [SqliteChannelStore::member_subjects_of] *)
Definition member_subjects_of (s : ChannelStore) (channel who : bytes)
    : option (gmap bytes bytes) :=
  if negb (is_owner s channel who) then None
  else Some (list_to_map (omap (λ hr : bytes * SubjectRow,
                                  h ← as_array 32 hr.1; Some (h, subject hr.2))
                            (rows_of channel (subjects s)))).

(** src/crates/control-plane/src/storage.rs:6404-6418
    [SqliteChannelStore::member_noise_attestation] *)
Definition member_noise_attestation (s : ChannelStore) (channel holder : bytes) : option bytes :=
  m ← members s !! (channel, holder); a ← noise_attestation m; as_array 64 a.

(** src/crates/control-plane/src/storage.rs:6425-6439 [SqliteChannelStore::member_noise_key] *)
Definition member_noise_key (s : ChannelStore) (channel holder : bytes) : option bytes :=
  m ← members s !! (channel, holder); k ← noise_pubkey m; as_array 32 k.

(** src/crates/control-plane/src/storage.rs:6442-6452 [SqliteChannelStore::is_member] *)
Definition is_member (s : ChannelStore) (channel holder : bytes) : bool :=
  bool_decide (is_Some (members s !! (channel, holder))).

(** src/crates/control-plane/src/storage.rs:6550-6592 [SqliteChannelStore::remove_member] *)
Definition remove_member (s : ChannelStore) (channel who holder : bytes) : bool * ChannelStore :=
  if negb (is_owner s channel who) then (false, s)
  else
    (true,
     set_subjects (delete (channel, holder) (subjects s))
       (set_deposits (delete (channel, holder) (deposits s))
          (set_members (delete (channel, holder) (members s)) s))).

(** ** Invitations and challenges, used once *)

(** [DELETE ... WHERE expires_at <= ?1]. *)
Definition prune_expired (now : N) (t : gmap bytes Z) : gmap bytes Z :=
  sql_delete (λ _ e, (e <=? as_i64 now)%Z) t.

(** src/crates/control-plane/src/storage.rs:6341-6360 [SqliteChannelStore::consume_invitation] *)
Definition consume_invitation (s : ChannelStore) (signature : bytes) (expires_at now : N)
    : bool * ChannelStore :=
  let t := prune_expired now (consumed_invitations s) in
  if expires_at <=? now then (false, set_consumed t s)
  else match sql_insert signature (as_i64 expires_at) t with
  | None => (false, set_consumed t s)
  | Some t' => (true, set_consumed t' s)
  end.

(** src/crates/control-plane/src/storage.rs:6366-6382 [SqliteChannelStore::issue_challenge]:
    [drawn] is what the generator gives. The pruning is a statement of its own. *)
Definition issue_challenge (s : ChannelStore) (now ttl_secs : N) (drawn : bytes)
    : Result bytes StoreError * ChannelStore :=
  let t := prune_expired now (challenges s) in
  match sql_insert drawn (as_i64 (saturating_add64 now ttl_secs)) t with
  | None => (Err StoreDb, set_challenges t s)
  | Some t' => (Ok drawn, set_challenges t' s)
  end.

(** src/crates/control-plane/src/storage.rs:6387-6398 [SqliteChannelStore::consume_challenge] *)
Definition consume_challenge (s : ChannelStore) (nonce : bytes) (now : N)
    : bool * ChannelStore :=
  let t := prune_expired now (challenges s) in
  (bool_decide (is_Some (t !! nonce)), set_challenges (delete nonce t) s).

(** ** Revoked grants *)

(** [i64::try_from(n).unwrap_or(i64::MAX)]. *)
Definition saturated_i64 (n : N) : Z := Z.min (Z.of_N n) I64_MAX.

(** src/crates/control-plane/src/storage.rs:6496-6533 [SqliteChannelStore::revoke_grant] *)
Definition revoke_grant (s : ChannelStore) (channel grant_digest : bytes) (expires_at now : N)
    : option bool * ChannelStore :=
  match channels s !! channel with
  | None => (None, s)
  | Some _ =>
    let t := sql_delete (λ _ r, (revocation_expires r <=? saturated_i64 now)%Z) (revocations s) in
    if expires_at <=? now then (Some true, set_revocations t s)
    else
      let row := {| revoked_at := saturated_i64 now;
                    revocation_expires := saturated_i64 expires_at |} in
      match sql_insert (channel, grant_digest) row t with
      | None => (Some false, set_revocations t s)
      | Some t' => (Some true, set_revocations t' s)
      end
  end.

(** src/crates/control-plane/src/storage.rs:6536-6546 [SqliteChannelStore::is_grant_revoked] *)
Definition is_grant_revoked (s : ChannelStore) (channel grant_digest : bytes) : bool :=
  bool_decide (is_Some (revocations s !! (channel, grant_digest))).

(** ** The allow-list and claims *)

(** src/crates/control-plane/src/storage.rs:6600-6625 [SqliteChannelStore::allowlist_add] *)
Definition allowlist_add (s : ChannelStore) (channel who email : bytes) (now : N)
    : bool * ChannelStore :=
  if negb (is_owner s channel who) then (false, s)
  else
    (true,
     set_allowlist (<[(channel, to_ascii_lowercase email) :=
       {| added_by := who; added_at := as_i64 now; claimed_at := None |}]> (allowlist s)) s).

(** src/crates/control-plane/src/storage.rs:6631-6649 [SqliteChannelStore::allowlist_remove] *)
Definition allowlist_remove (s : ChannelStore) (channel who email : bytes)
    : bool * ChannelStore :=
  if negb (is_owner s channel who) then (false, s)
  else (true, set_allowlist (delete (channel, to_ascii_lowercase email) (allowlist s)) s).

(** src/crates/control-plane/src/storage.rs:6679-6689 [SqliteChannelStore::allowlist_contains] *)
Definition allowlist_contains (s : ChannelStore) (channel email : bytes) : bool :=
  bool_decide (is_Some (allowlist s !! (channel, to_ascii_lowercase email))).

(** src/crates/control-plane/src/storage.rs:5770-5777 [ClaimOutcome] *)
Inductive ClaimOutcome := Claimed | NotAllowlisted | HolderClaimedByAnother.

(** src/crates/control-plane/src/storage.rs:6741-6754 [SqliteChannelStore::claim_via_allowlist]:
    the holder is another subject's. *)
Definition owned_by_other (s : ChannelStore) (channel holder : bytes) (by_subject : option bytes)
    : bool :=
  match by_subject, subjects s !! (channel, holder) with
  | Some who, Some row => negb (bool_decide (subject row = who))
  | _, _ => false
  end.

(** src/crates/control-plane/src/storage.rs:6704-6776 [SqliteChannelStore::claim_via_allowlist] *)
Definition claim_via_allowlist (s : ChannelStore) (channel email holder pubkey attestation : bytes)
    (now : N) (by_subject : option bytes) : ClaimOutcome * ChannelStore :=
  let key := (channel, to_ascii_lowercase email) in
  if negb (bool_decide (is_Some (allowlist s !! key))) then (NotAllowlisted, s)
  else if owned_by_other s channel holder by_subject then (HolderClaimedByAnother, s)
  else
    let s1 := set_members (<[(channel, holder) :=
      {| noise_pubkey := Some pubkey; noise_attestation := Some attestation |}]> (members s)) s in
    let s2 := set_allowlist (sql_update (λ r,
      {| added_by := added_by r; added_at := added_at r; claimed_at := Some (as_i64 now) |})
      key (allowlist s1)) s1 in
    (Claimed,
     match by_subject with
     | None => s2
     | Some who => set_subjects (<[(channel, holder) :=
         {| subject := who; subject_claimed_at := as_i64 now |}]> (subjects s2)) s2
     end).

(** ** Deposited grants *)

(** src/crates/control-plane/src/storage.rs:5648-5652 [GrantDepositOutcome] *)
Inductive GrantDepositOutcome := Deposited | NotOwner | NotAMember.

(** src/crates/control-plane/src/storage.rs:6953-6990 [SqliteChannelStore::deposit_grant] *)
Definition deposit_grant (s : ChannelStore) (channel who holder grant : bytes) (now : N)
    : GrantDepositOutcome * ChannelStore :=
  if negb (is_owner s channel who) then (NotOwner, s)
  else if negb (is_member s channel holder) then (NotAMember, s)
  else
    (Deposited,
     set_deposits (<[(channel, holder) := {| grant_hex := grant; deposited_at := as_i64 now |}]>
                     (deposits s)) s).

(** ** Claim invitations *)

(** src/crates/control-plane/src/storage.rs:5656-5656 [CLAIM_INVITE_TTL_SECS] *)
Definition CLAIM_INVITE_TTL_SECS : N := 15 * 60.

(** src/crates/control-plane/src/storage.rs:5664-5673 [ClaimInvite] *)
Record ClaimInvite := {
  for_channel : bytes;
  for_holder : bytes;
  for_noise_pubkey : bytes;
  for_noise_attestation : bytes;
  for_label : option bytes;
  made_by : bytes;
  made_at : N;
  valid_until : N;
}.

(** src/crates/control-plane/src/storage.rs:5680-5685 [ClaimInviteLookup] *)
Inductive ClaimInviteLookup :=
| Valid (invite : ClaimInvite) | Consumed | InviteExpired | Unknown.

Section tokens.
(** SHA-256 (sha2 crate) and the unpadded URL-safe alphabet of base64 (base64 crate). *)
Context (sha256 base64url : bytes → bytes).

(** src/crates/control-plane/src/storage.rs:5688-5692 [claim_invite_token_hash] *)
Definition claim_invite_token_hash (token : bytes) : bytes := Hex.encode (sha256 token).

(** src/crates/control-plane/src/storage.rs:6786-6830 [SqliteChannelStore::mint_claim_invite]:
    [drawn] is what the generator gives. *)
Definition mint_claim_invite (s : ChannelStore)
    (channel who holder pubkey attestation : bytes) (lbl : option bytes) (now : N)
    (drawn : bytes) : Result (option (bytes * N)) StoreError * ChannelStore :=
  if negb (is_owner s channel who) then (Ok None, s)
  else
    let token := base64url drawn in
    let expires_at := saturating_add64 now CLAIM_INVITE_TTL_SECS in
    match sql_insert (claim_invite_token_hash token)
            {| invite_channel := channel; invite_holder := holder; invite_noise_pubkey := pubkey;
               invite_noise_attestation := attestation; label := lbl; minted_by := who;
               created_at := as_i64 now; invite_expires := as_i64 expires_at;
               consumed_at := None |} (invites s) with
    | None => (Err StoreDb, s)
    | Some t => (Ok (Some (token, expires_at)), set_invites t s)
    end.

(** src/crates/control-plane/src/storage.rs:6835-6889 [SqliteChannelStore::claim_invite] *)
Definition claim_invite (s : ChannelStore) (token : bytes) (now : N) : ClaimInviteLookup :=
  match invites s !! claim_invite_token_hash token with
  | None => Unknown
  | Some r =>
    if bool_decide (is_Some (consumed_at r)) then Consumed
    else if as_u64 (invite_expires r) <=? now then InviteExpired
    else match as_array 32 (invite_channel r), as_array 32 (invite_holder r),
               as_array 32 (invite_noise_pubkey r), as_array 64 (invite_noise_attestation r) with
    | Some c, Some h, Some k, Some a =>
      Valid {| for_channel := c; for_holder := h; for_noise_pubkey := k;
               for_noise_attestation := a; for_label := label r; made_by := minted_by r;
               made_at := as_u64 (created_at r); valid_until := as_u64 (invite_expires r) |}
    | _, _, _, _ => Unknown
    end
  end.

(** src/crates/control-plane/src/storage.rs:6895-6902
    [SqliteChannelStore::consume_claim_invite] *)
Definition consume_claim_invite (s : ChannelStore) (token : bytes) (now : N)
    : bool * ChannelStore :=
  match invites s !! claim_invite_token_hash token with
  | None => (false, s)
  | Some r =>
    if bool_decide (consumed_at r = None) && (as_i64 now <? invite_expires r)%Z
    then (true, set_invites (<[claim_invite_token_hash token :=
           {| invite_channel := invite_channel r; invite_holder := invite_holder r;
              invite_noise_pubkey := invite_noise_pubkey r;
              invite_noise_attestation := invite_noise_attestation r; label := label r;
              minted_by := minted_by r; created_at := created_at r;
              invite_expires := invite_expires r; consumed_at := Some (as_i64 now) |}]>
           (invites s)) s)
    else (false, s)
  end.

End tokens.

(** src/crates/control-plane/src/storage.rs:6929-6935 [SqliteChannelStore::prune_claim_invites] *)
Definition prune_claim_invites (s : ChannelStore) (cutoff : N) : nat * ChannelStore :=
  let gone := λ (_ : bytes) r,
    (invite_expires r <? as_i64 cutoff)%Z
    || match consumed_at r with Some c => (c <? as_i64 cutoff)%Z | None => false end in
  (sql_count gone (invites s), set_invites (sql_delete gone (invites s)) s).

(** ** Queries whose order of equal times SQLite does not fix

    [scan] is the order in which the table's rows are delivered. *)

Section queries.
Context (scan : ∀ R, gmap (bytes * bytes) R → list (bytes * bytes * R)).

(** src/crates/control-plane/src/storage.rs:6654-6674 [SqliteChannelStore::allowlist_list] *)
Definition allowlist_list (s : ChannelStore) (channel who : bytes) : option (list bytes) :=
  if negb (is_owner s channel who) then None
  else Some ((λ kr : bytes * bytes * AllowRow, kr.1.2) <$>
    sort_by (λ a b : bytes * bytes * AllowRow, (added_at a.2 <=? added_at b.2)%Z)
      (filter (λ kr, kr.1.1 = channel) (scan _ (allowlist s)))).

(** src/crates/control-plane/src/storage.rs:6996-7022
    [SqliteChannelStore::deposited_grants_for_subject] *)
Definition deposited_grants_for_subject (s : ChannelStore) (channel who : bytes)
    : list (bytes * option bytes) :=
  omap (λ kr : bytes * bytes * SubjectRow,
          h ← as_array 32 kr.1.2;
          Some (h, grant_hex <$> deposits s !! (channel, kr.1.2)))
    (sort_by (λ a b : bytes * bytes * SubjectRow,
                (subject_claimed_at a.2 <=? subject_claimed_at b.2)%Z)
       (filter (λ kr, kr.1.1 = channel ∧ subject kr.2 = who) (scan _ (subjects s)))).

(** src/crates/control-plane/src/storage.rs:7024-7043 [SqliteChannelStore::channels_for_email] *)
Definition channels_for_email (s : ChannelStore) (email : bytes) : list (bytes * option N) :=
  omap (λ kr : bytes * bytes * AllowRow,
          c ← as_array 32 kr.1.1; Some (c, as_u64 <$> claimed_at kr.2))
    (sort_by (λ a b : bytes * bytes * AllowRow, (added_at b.2 <=? added_at a.2)%Z)
       (filter (λ kr, kr.1.2 = to_ascii_lowercase email) (scan _ (allowlist s)))).

(** src/crates/control-plane/src/storage.rs:6466-6485 [SqliteChannelStore::holder_visible_to] *)
Definition holder_visible_to (s : ChannelStore) (who : bytes) (email : option bytes)
    (holder : bytes) : bool :=
  existsb (λ c, is_member s c holder) (channels_owned_by s who)
  || match email with
     | Some e => existsb (λ c : bytes * option N, is_member s c.1 holder) (channels_for_email s e)
     | None => false
     end.

End queries.

(** ** Runs of the store *)

Section runs.
Context (sha256 base64url : bytes → bytes).

Inductive Op :=
| OpRegister (channel key who : bytes) (max : N) (allow_rekey : bool)
| OpDelete (who channel : bytes)
| OpForget (email : bytes)
| OpTransfer (channel from_subject to_subject : bytes) (target_exists : Result bool StoreError)
| OpAdd (channel who holder pubkey attestation : bytes)
| OpRemove (channel who holder : bytes)
| OpInvitation (signature : bytes) (expires_at now : N)
| OpIssueChallenge (now ttl_secs : N) (drawn : bytes)
| OpChallenge (nonce : bytes) (now : N)
| OpRevoke (channel grant_digest : bytes) (expires_at now : N)
| OpAllow (channel who email : bytes) (now : N)
| OpDisallow (channel who email : bytes)
| OpClaim (channel email holder pubkey attestation : bytes) (now : N) (by_subject : option bytes)
| OpDeposit (channel who holder grant : bytes) (now : N)
| OpMint (channel who holder pubkey attestation : bytes) (lbl : option bytes) (now : N)
    (drawn : bytes)
| OpConsumeInvite (token : bytes) (now : N)
| OpPrune (cutoff : N).

Definition exec (s : ChannelStore) (o : Op) : ChannelStore :=
  match o with
  | OpRegister c k who m r => (register_channel_if_under_owned_limit s c k who m r).2
  | OpDelete who c => (delete_channel s who c).2
  | OpForget e => (remove_allowlist_entries_for_email s e).2
  | OpTransfer c f t x => (transfer_channel s c f t x).2
  | OpAdd c who h k a => (add_member s c who h k a).2
  | OpRemove c who h => (remove_member s c who h).2
  | OpInvitation sig e now => (consume_invitation s sig e now).2
  | OpIssueChallenge now ttl d => (issue_challenge s now ttl d).2
  | OpChallenge n now => (consume_challenge s n now).2
  | OpRevoke c g e now => (revoke_grant s c g e now).2
  | OpAllow c who e now => (allowlist_add s c who e now).2
  | OpDisallow c who e => (allowlist_remove s c who e).2
  | OpClaim c e h k a now sub => (claim_via_allowlist s c e h k a now sub).2
  | OpDeposit c who h g now => (deposit_grant s c who h g now).2
  | OpMint c who h k a l now d => (mint_claim_invite sha256 base64url s c who h k a l now d).2
  | OpConsumeInvite t now => (consume_claim_invite sha256 s t now).2
  | OpPrune cutoff => (prune_claim_invites s cutoff).2
  end.

(** ** No row outlives its channel *)

Definition live (s : ChannelStore) (c : bytes) : Prop := is_Some (channels s !! c).

Record wf (s : ChannelStore) : Prop := {
  wf_members : map_Forall (λ k _, live s k.1) (members s);
  wf_allowlist : map_Forall (λ k _, live s k.1) (allowlist s);
  wf_revocations : map_Forall (λ k _, live s k.1) (revocations s);
  wf_deposits : map_Forall (λ k _, is_Some (members s !! k)) (deposits s);
  wf_subjects : map_Forall (λ k _, is_Some (members s !! k)) (subjects s);
  wf_invites : map_Forall (λ _ r, live s (invite_channel r)) (invites s);
}.

Lemma registry_wf_empty : wf empty.
Proof. split; apply map_Forall_empty. Qed.

Lemma map_Forall_sql_delete {K R} `{Countable K} (P : K → R → Prop) p (t : gmap K R) :
  map_Forall P t → map_Forall P (sql_delete p t).
Proof. intros F k r [H1 _]%lookup_sql_delete. by apply F. Qed.

Lemma is_owner_live s c who : is_owner s c who = true → live s c.
Proof. unfold is_owner, live. by destruct (channels s !! c). Qed.

Lemma live_update s c f d : live (set_channels (sql_update f c (channels s)) s) d ↔ live s d.
Proof.
  unfold live. cbn. rewrite lookup_sql_update.
  case_decide as E; [rewrite fmap_is_Some|]; done.
Qed.

Lemma wf_same_channels s s' :
  (∀ c, live s c → live s' c) → members s' = members s → allowlist s' = allowlist s →
  revocations s' = revocations s → deposits s' = deposits s → subjects s' = subjects s →
  invites s' = invites s → wf s → wf s'.
Proof.
  intros L E1 E2 E3 E4 E5 E6 [W1 W2 W3 W4 W5 W6].
  split; rewrite ?E1, ?E2, ?E3, ?E4, ?E5, ?E6; try done;
    (eapply map_Forall_impl; [eassumption|]; cbn; eauto).
Qed.

Lemma wf_register s c k who m r : wf s → wf (exec s (OpRegister c k who m r)).
Proof.
  intros W. cbn. unfold register_channel_if_under_owned_limit.
  destruct (channels s !! c) as [row|] eqn:E.
  - repeat case_match; cbn; try done; apply (wf_same_channels s); try done;
      intros d; by rewrite live_update.
  - case_match; [done|]. cbn. apply (wf_same_channels s); try done.
    intros d [x Hx]. unfold live. cbn. destruct (decide (c = d)) as [<-|N].
    + by rewrite lookup_insert_eq.
    + by rewrite lookup_insert_ne, Hx.
Qed.

Lemma live_delete s c d : live s d → d ≠ c → live (set_channels (delete c (channels s)) s) d.
Proof. unfold live. cbn. intros L N. by rewrite lookup_delete_ne by done. Qed.

Lemma wf_delete_channel s who c : wf s → wf (exec s (OpDelete who c)).
Proof.
  intros [W1 W2 W3 W4 W5 W6]. cbn. unfold delete_channel. case_match; [|done]. cbn.
  assert (∀ R (t : gmap (bytes * bytes) R), map_Forall (λ k _, live s k.1) t →
    map_Forall (λ k _, is_Some (delete c (channels s) !! k.1)) (sql_delete (of_channel c) t)) as G1.
  { intros R t F k r [Hk Ho]%lookup_sql_delete. unfold of_channel in Ho. bool_facts.
    rewrite lookup_delete_ne by done. by apply (F k r). }
  assert (∀ R (t : gmap (bytes * bytes) R), map_Forall (λ k _, is_Some (members s !! k)) t →
    map_Forall (λ k _, is_Some (sql_delete (of_channel c) (members s) !! k))
      (sql_delete (of_channel c) t)) as G2.
  { intros R t F k r [Hk Ho]%lookup_sql_delete. destruct (F k r Hk) as [m Hm].
    exists m. by apply lookup_sql_delete. }
  split; cbn; eauto.
  intros k r [Hk Ho]%lookup_sql_delete. bool_facts. unfold live. cbn.
  rewrite lookup_delete_ne by done. by apply (W6 k r).
Qed.

Lemma wf_set_members s k m : wf s → live s k.1 → wf (set_members (<[k := m]> (members s)) s).
Proof.
  intros [W1 W2 W3 W4 W5 W6] L.
  assert (∀ R (t : gmap (bytes * bytes) R), map_Forall (λ j _, is_Some (members s !! j)) t →
    map_Forall (λ j _, is_Some (<[k := m]> (members s) !! j)) t) as G.
  { intros R t F j r Hj. destruct (F j r Hj) as [x Hx]. destruct (decide (k = j)) as [<-|N].
    - by rewrite lookup_insert_eq.
    - by rewrite lookup_insert_ne, Hx. }
  split; cbn; eauto. by apply map_Forall_insert_2.
Qed.

Lemma wf_set_allowlist s t :
  wf s → map_Forall (λ k _, live s k.1) t → wf (set_allowlist t s).
Proof. by intros [W1 W2 W3 W4 W5 W6] L; split. Qed.

Lemma wf_set_revocations s t :
  wf s → map_Forall (λ k _, live s k.1) t → wf (set_revocations t s).
Proof. by intros [W1 W2 W3 W4 W5 W6] L; split. Qed.

Lemma wf_set_deposits s t :
  wf s → map_Forall (λ k _, is_Some (members s !! k)) t → wf (set_deposits t s).
Proof. by intros [W1 W2 W3 W4 W5 W6] L; split. Qed.

Lemma wf_set_subjects s t :
  wf s → map_Forall (λ k _, is_Some (members s !! k)) t → wf (set_subjects t s).
Proof. by intros [W1 W2 W3 W4 W5 W6] L; split. Qed.

Lemma wf_set_invites s t :
  wf s → map_Forall (λ _ r, live s (invite_channel r)) t → wf (set_invites t s).
Proof. by intros [W1 W2 W3 W4 W5 W6] L; split. Qed.

Lemma wf_remove s c who h : wf s → wf (exec s (OpRemove c who h)).
Proof.
  intros [W1 W2 W3 W4 W5 W6]. cbn. unfold remove_member. case_match; [done|]. cbn.
  assert (∀ R (t : gmap (bytes * bytes) R), map_Forall (λ k _, is_Some (members s !! k)) t →
    map_Forall (λ k _, is_Some (delete (c, h) (members s) !! k)) (delete (c, h) t)) as G.
  { intros R t F k r [N Hk]%lookup_delete_Some. rewrite lookup_delete_ne by done. eauto. }
  split; cbn; eauto. by apply map_Forall_delete.
Qed.

Lemma wf_claim s c e h k a now sub : wf s → wf (exec s (OpClaim c e h k a now sub)).
Proof.
  intros W. cbn. unfold claim_via_allowlist. case_match eqn:A; [done|].
  case_match; [done|]. cbn [snd]. bool_facts. destruct A as [al Hal].
  assert (live s c) as L by exact (wf_allowlist _ W _ _ Hal).
  set (m := {| noise_pubkey := Some k; noise_attestation := Some a |}).
  pose proof (wf_set_members s (c, h) m W L) as W1. cbn zeta.
  set (s1 := set_members _ s) in *.
  set (f := λ r, {| added_by := added_by r; added_at := added_at r; claimed_at := _ |}).
  assert (wf (set_allowlist (sql_update f (c, to_ascii_lowercase e) (allowlist s1)) s1)) as W2.
  { apply wf_set_allowlist; [done|]. intros j r. rewrite lookup_sql_update. case_decide as E.
    - subst j. intros _. exact L.
    - intros Hj. exact (wf_allowlist _ W1 _ _ Hj). }
  destruct sub as [who|]; [|done]. apply wf_set_subjects; [done|].
  apply map_Forall_insert_2; [|exact (wf_subjects _ W2)].
  cbn. by rewrite lookup_insert_eq.
Qed.

#[local] Hint Resolve map_Forall_sql_delete : core.
#[local] Hint Resolve wf_members wf_allowlist wf_revocations wf_deposits wf_subjects wf_invites
  : core.

Lemma registry_wf_exec s o : wf s → wf (exec s o).
Proof.
  intros W. destruct o; eauto using wf_register, wf_delete_channel, wf_remove, wf_claim; cbn.
  - apply wf_set_allowlist; eauto.
  - unfold transfer_channel. repeat case_match; try done; cbn;
      apply (wf_same_channels s); try done; intros d; by rewrite live_update.
  - unfold add_member. case_match eqn:E; [done|]. bool_facts.
    apply wf_set_members; [done|]. by eapply is_owner_live.
  - unfold consume_invitation. repeat case_match; by apply (wf_same_channels s).
  - unfold issue_challenge. repeat case_match; by apply (wf_same_channels s).
  - by apply (wf_same_channels s).
  - unfold revoke_grant. destruct (channels s !! channel) eqn:E; [|done].
    repeat case_match; cbn; apply wf_set_revocations; eauto.
    match goal with H : sql_insert _ _ _ = Some _ |- _ => apply sql_insert_Some in H as [_ ->] end.
    apply map_Forall_insert_2; eauto. cbn. unfold live. by rewrite E.
  - unfold allowlist_add. case_match eqn:E; [done|]. bool_facts. apply wf_set_allowlist; [done|].
    apply map_Forall_insert_2; eauto. by eapply is_owner_live.
  - unfold allowlist_remove. case_match; [done|]. apply wf_set_allowlist; [done|].
    apply map_Forall_delete; eauto.
  - unfold deposit_grant. case_match; [done|]. case_match eqn:E; [done|].
    unfold is_member in E. bool_facts. apply wf_set_deposits; [done|].
    apply map_Forall_insert_2; eauto.
  - unfold mint_claim_invite. case_match eqn:E; [done|]. bool_facts. case_match eqn:I; [|done].
    apply sql_insert_Some in I as [_ ->]. apply wf_set_invites; [done|].
    apply map_Forall_insert_2; eauto. cbn. by eapply is_owner_live.
  - unfold consume_claim_invite. case_match eqn:I; [|done]. case_match; [|done]. cbn.
    apply wf_set_invites; [done|]. apply map_Forall_insert_2; eauto.
    exact (wf_invites _ W _ _ I).
  - apply wf_set_invites; eauto.
Qed.

Lemma registry_wf_run os s : wf s → wf (foldl exec s os).
Proof. revert s. induction os as [|o os IH]; intros s W; [done|]. by apply IH, registry_wf_exec. Qed.

(** ** Who changes a member's row, and how *)

Definition pinned (k a : bytes) : MemberRow :=
  {| noise_pubkey := Some k; noise_attestation := Some a |}.

(** An operation that takes [holder] off [channel]. *)
Definition evicts (c h : bytes) (o : Op) : Prop :=
  ∃ who, o = OpRemove c who h ∨ o = OpDelete who c.

Lemma lookup_of_channel {R} (c h d : bytes) (t : gmap (bytes * bytes) R) :
  sql_delete (of_channel c) t !! (d, h) = if decide (d = c) then None else t !! (d, h).
Proof.
  destruct (decide (d = c)) as [->|N].
  - apply map_lookup_filter_None. right. intros r _. unfold of_channel. cbn.
    by rewrite bool_decide_true.
  - apply lookup_sql_delete_keep. intros r _. unfold of_channel. cbn. by apply bool_decide_false.
Qed.

Ltac open_op :=
  unfold register_channel_if_under_owned_limit, transfer_channel, consume_invitation,
    issue_challenge, consume_challenge, revoke_grant, allowlist_add, allowlist_remove,
    deposit_grant, mint_claim_invite, consume_claim_invite, add_member, remove_member,
    delete_channel.

Lemma member_step s o c h :
  members (exec s o) !! (c, h) = members s !! (c, h) ∨
  (∃ who k a, o = OpAdd c who h k a ∧ members (exec s o) !! (c, h) = Some (pinned k a)) ∨
  (∃ e k a now sub, o = OpClaim c e h k a now sub ∧ owned_by_other s c h sub = false ∧
     members (exec s o) !! (c, h) = Some (pinned k a)) ∨
  (evicts c h o ∧ members (exec s o) !! (c, h) = None).
Proof.
  destruct o; cbn; open_op;
    try (left; repeat (case_match; try done); done).
  - case_match; [|by left]. cbn. rewrite lookup_of_channel. case_decide as E; [|by left].
    right; right; right. split; [|done]. exists who. subst. by right.
  - case_match; [by left|]. cbn. destruct (decide ((channel, holder) = (c, h))) as [[= -> ->]|N].
    + right; left. exists who, pubkey, attestation. by rewrite lookup_insert_eq.
    + left. by rewrite lookup_insert_ne.
  - case_match; [by left|]. cbn. destruct (decide ((channel, holder) = (c, h))) as [[= -> ->]|N].
    + right; right; right. split; [|by rewrite lookup_delete_eq]. exists who. by left.
    + left. by rewrite lookup_delete_ne.
  - unfold claim_via_allowlist. case_match; [by left|]. case_match eqn:B; [by left|]. cbn [snd].
    destruct (decide ((channel, holder) = (c, h))) as [[= -> ->]|N].
    + right; right; left. exists email, pubkey, attestation, now, by_subject.
      destruct by_subject; cbn; by rewrite lookup_insert_eq.
    + left. destruct by_subject; cbn; by rewrite lookup_insert_ne.
Qed.

Lemma subject_step s o c h :
  subjects (exec s o) !! (c, h) = subjects s !! (c, h) ∨
  (∃ e k a now who, o = OpClaim c e h k a now (Some who) ∧
     owned_by_other s c h (Some who) = false ∧
     subjects (exec s o) !! (c, h) = Some {| subject := who; subject_claimed_at := as_i64 now |}) ∨
  (evicts c h o ∧ subjects (exec s o) !! (c, h) = None).
Proof.
  destruct o; cbn; open_op;
    try (left; repeat (case_match; try done); done).
  - case_match; [|by left]. cbn. rewrite lookup_of_channel. case_decide as E; [|by left].
    right; right. split; [|done]. exists who. subst. by right.
  - case_match; [by left|]. cbn. destruct (decide ((channel, holder) = (c, h))) as [[= -> ->]|N].
    + right; right. split; [|by rewrite lookup_delete_eq]. exists who. by left.
    + left. by rewrite lookup_delete_ne.
  - unfold claim_via_allowlist. case_match; [by left|]. case_match eqn:B; [by left|]. cbn.
    destruct by_subject as [who|]; [|by left]. cbn.
    destruct (decide ((channel, holder) = (c, h))) as [[= -> ->]|N].
    + right; left. exists email, pubkey, attestation, now, who. by rewrite lookup_insert_eq.
    + left. by rewrite lookup_insert_ne.
Qed.

Lemma is_member_false s c h : is_member s c h = false ↔ members s !! (c, h) = None.
Proof. unfold is_member. rewrite bool_decide_eq_false, <- eq_None_not_Some. done. Qed.

(** An operation that could admit [holder] to [channel]. *)
Definition admits (c h : bytes) (o : Op) : Prop :=
  (∃ who k a, o = OpAdd c who h k a) ∨ (∃ e k a now sub, o = OpClaim c e h k a now sub).

Lemma stays_out c h os s :
  members s !! (c, h) = None → Forall (λ o, ¬ admits c h o) os →
  members (foldl exec s os) !! (c, h) = None.
Proof.
  intros N F. revert s N. induction F as [|o os Ho _ IH]; intros s N; [done|]. cbn. apply IH.
  destruct (member_step s o c h) as [E|[(who & k & a & -> & _)|
    [(e & k & a & now & sub & -> & _)|[_ E]]]]; [congruence| | |done].
  - destruct Ho. left. eauto.
  - destruct Ho. right. eauto 6.
Qed.

Lemma as_array_Some n b x : as_array n b = Some x → x = b ∧ length b = n.
Proof. unfold as_array. case_match; [|done]. intros [= ->]. bool_facts. done. Qed.

(** C7 the registry is consistent. After any operations on a fresh store a holder is authorized
    exactly when it is a member, with the key of its channel; members, deposits and claims never
    outlive what they belong to; and whoever registers a free channel id gets an empty channel:
    no member, allow-list entry, revocation or open claim invitation that an earlier owner of
    the id left behind. *)
Theorem channel_registry_consistent os c :
  let s := foldl exec empty os in
  (∀ h, authorize_holder s c h = (if is_member s c h then operator_pubkey s c else None) ∧
        (is_member s c h = true → is_Some (channel_owner s c)) ∧
        (is_Some (deposits s !! (c, h)) ∨ is_Some (subjects s !! (c, h)) →
           is_member s c h = true)) ∧
  ∀ key who max allow s',
    register_channel_if_under_owned_limit s c key who max allow = (Registered, s') →
    operator_pubkey s' c = as_array 32 key ∧ channel_owner s' c = Some who ∧
    (∀ h, is_member s' c h = false ∧ authorize_holder s' c h = None) ∧
    (∀ e, allowlist_contains s' c e = false) ∧ (∀ g, is_grant_revoked s' c g = false) ∧
    (∀ token now i, claim_invite sha256 s' token now = Valid i → for_channel i ≠ c).
Proof.
  intros s. assert (wf s) as W by apply registry_wf_run, registry_wf_empty. clearbody s. split.
  - intros h. split_and!.
    + unfold authorize_holder, operator_pubkey, is_member.
      destruct (channels s !! c), (members s !! (c, h)); done.
    + unfold is_member, channel_owner. rewrite bool_decide_eq_true, fmap_is_Some.
      intros [m Hm]. exact (wf_members _ W _ _ Hm).
    + unfold is_member. rewrite bool_decide_eq_true. intros [[d Hd]|[d Hd]].
      * exact (wf_deposits _ W _ _ Hd).
      * exact (wf_subjects _ W _ _ Hd).
  - intros key who max allow s'. unfold register_channel_if_under_owned_limit.
    destruct (channels s !! c) eqn:E; [by repeat case_match|]. case_match; [done|].
    intros [= <-]. assert (¬ live s c) as N by (unfold live; rewrite E; by intros [? ?]).
    assert (∀ R (t : gmap (bytes * bytes) R) x, map_Forall (λ k _, live s k.1) t →
              t !! (c, x) = None) as G.
    { intros R t x F. apply eq_None_not_Some. intros [r Hr]. exact (N (F _ _ Hr)). }
    pose proof (wf_members _ W) as W1. pose proof (wf_allowlist _ W) as W2.
    pose proof (wf_revocations _ W) as W3.
    unfold operator_pubkey, channel_owner, is_member, authorize_holder, allowlist_contains,
      is_grant_revoked, claim_invite. cbn. rewrite lookup_insert_eq. cbn. split_and!; try done.
    + intros h. by rewrite (G _ _ _ W1).
    + intros e. by rewrite (G _ _ _ W2).
    + intros g. by rewrite (G _ _ _ W3).
    + intros token now i. destruct (invites s !! _) as [r|] eqn:I; [|done].
      do 2 (case_match; [done|]). destruct (as_array 32 (invite_channel r)) as [c'|] eqn:A; [|done].
      do 3 (case_match; [|done]). intros [= <-]. cbn. intros ->. destruct N.
      apply as_array_Some in A as [-> _]. exact (wf_invites _ W _ _ I).
Qed.

(** C8 a removal is complete. When the owner removes a member, the holder loses its membership
    (so its authorization and its Noise key), its deposited grant and its claim in one step, and
    no subject's list of grants shows it. Nothing else in the store changes: the three tables are
    the old ones without the row of this holder in this channel, and the other six, the consumed
    invitations and the challenges among them, are the old ones. The holder then stays out
    through any operations that do not add or claim it again. *)
Theorem removal_complete scan s c who h s1 os :
  (∀ R (t : gmap (bytes * bytes) R), scan R t ≡ₚ map_to_list t) →
  remove_member s c who h = (true, s1) → Forall (λ o, ¬ admits c h o) os →
  is_owner s c who = true ∧
  (∀ sub g, (h, g) ∉ deposited_grants_for_subject scan s1 c sub) ∧
  members s1 = delete (c, h) (members s) ∧ deposits s1 = delete (c, h) (deposits s) ∧
  subjects s1 = delete (c, h) (subjects s) ∧
  channels s1 = channels s ∧ allowlist s1 = allowlist s ∧ revocations s1 = revocations s ∧
  invites s1 = invites s ∧ consumed_invitations s1 = consumed_invitations s ∧
  challenges s1 = challenges s ∧
  let s2 := foldl exec s1 os in
  is_member s2 c h = false ∧ authorize_holder s2 c h = None ∧ member_noise_key s2 c h = None.
Proof.
  intros Hscan E F. unfold remove_member in E. destruct (is_owner s c who) eqn:O; [|done].
  cbn in E. injection E as <-. assert (members (foldl exec
    (set_subjects (delete (c, h) (subjects s))
       (set_deposits (delete (c, h) (deposits s)) (set_members (delete (c, h) (members s)) s))) os)
       !! (c, h) = None) as M.
  { apply stays_out; [|done]. cbn. apply lookup_delete_eq. }
  cbn zeta. split_and!; try done.
  - intros sub g (x & Hin & Hx)%list_elem_of_omap.
    rewrite sort_by_Permutation in Hin. apply list_elem_of_filter in Hin as [[E1 _] Hin].
    rewrite Hscan in Hin. destruct x as [[c' h'] r]. apply elem_of_map_to_list in Hin.
    cbn in *. destruct (as_array 32 h') eqn:A; [|done]. apply as_array_Some in A as [-> _].
    cbn in Hx. injection Hx as -> _. subst c'. by rewrite lookup_delete_eq in Hin.
  - by apply is_member_false.
  - unfold authorize_holder. rewrite M. by destruct (channels _ !! _).
  - unfold member_noise_key. by rewrite M.
Qed.

(** a claimed holder cannot be taken over. While a subject has claimed a holder, another
    subject's claim of it is refused and changes nothing, and through any operations other than
    the owner's (adding or removing that holder, deleting the channel) the claim, the pinned
    Noise key and its attestation stay those of the subject, whatever the others claim. *)
Theorem holder_not_taken_over s c h r os :
  subjects s !! (c, h) = Some r →
  Forall (λ o, ¬ evicts c h o ∧ (∀ who k a, o ≠ OpAdd c who h k a) ∧
    ∀ e k a now sub, o = OpClaim c e h k a now sub →
      sub ≠ None ∧ sub ≠ Some (subject r)) os →
  let s' := foldl exec s os in
  subjects s' !! (c, h) = Some r ∧ members s' !! (c, h) = members s !! (c, h) ∧
  ∀ e k a now other, other ≠ subject r →
    ∃ refusal, refusal ≠ Claimed ∧
      claim_via_allowlist s' c e h k a now (Some other) = (refusal, s').
Proof.
  intros E F s'. assert (subjects s' !! (c, h) = Some r ∧
    members s' !! (c, h) = members s !! (c, h)) as [E' M'].
  { subst s'. revert s E. induction F as [|o os (Ne & Na & Nc) _ IH]; intros s E; [done|]. cbn.
    assert (∀ sub, sub ≠ None → sub ≠ Some (subject r) → owned_by_other s c h sub = true) as B.
    { intros [sub|] ? ?; [|done]. unfold owned_by_other. rewrite E. apply negb_true_iff.
      apply bool_decide_false. congruence. }
    destruct (IH (exec s o)) as [I1 I2].
    - destruct (subject_step s o c h) as [->|[(e & k & a & now & who & Eo & B' & _)|[V _]]];
        [done| |done]. destruct (Nc _ _ _ _ _ Eo) as [N1 N2]. by rewrite B in B'.
    - split; [done|]. rewrite I2.
      destruct (member_step s o c h) as [->|[(who & k & a & Eo & _)|
        [(e & k & a & now & sub & Eo & B' & _)|[V _]]]]; [done| | |done].
      + by destruct (Na _ _ _ Eo).
      + destruct (Nc _ _ _ _ _ Eo) as [N1 N2]. by rewrite B in B'. }
  split_and!; [done..|]. intros e k a now other N. unfold claim_via_allowlist.
  case_match; [by exists NotAllowlisted|]. unfold owned_by_other. rewrite E'.
  rewrite bool_decide_false by congruence. by exists HolderClaimedByAnother.
Qed.

(** ** Single use *)

Lemma consume_invitation_iff s sig exp now :
  (consume_invitation s sig exp now).1 = true ↔
  now < exp ∧ ∀ e, consumed_invitations s !! sig = Some e → (e <= as_i64 now)%Z.
Proof.
  unfold consume_invitation. case_match eqn:X; bool_facts; [naive_solver lia|].
  unfold sql_insert, prune_expired. destruct (consumed_invitations s !! sig) as [e|] eqn:E.
  - destruct (e <=? as_i64 now)%Z eqn:L.
    + rewrite (lookup_sql_delete_drop _ _ _ _ E L). bool_facts. naive_solver.
    + rewrite lookup_sql_delete_keep by naive_solver. rewrite E. bool_facts. cbn.
      split; [done|]. intros [_ H]. specialize (H e eq_refl). lia.
  - rewrite lookup_sql_delete_keep by naive_solver. rewrite E. naive_solver.
Qed.

(** When an operation that prunes the invitation records runs. *)
Definition invitation_clock (o : Op) : option N :=
  match o with OpInvitation _ _ now => Some now | _ => None end.

(** No redemption among [os] prunes the records at a clock that has reached [exp]. *)
Definition prunes_before (exp : N) (os : list Op) : Prop :=
  Forall (λ n, n < exp) (omap invitation_clock os).

Lemma record_kept s sig exp sig' exp' n :
  exp < 2 ^ 63 → n < exp → consumed_invitations s !! sig = Some (as_i64 exp) →
  consumed_invitations (consume_invitation s sig' exp' n).2 !! sig = Some (as_i64 exp).
Proof.
  intros X L H.
  assert (prune_expired n (consumed_invitations s) !! sig = Some (as_i64 exp)) as P.
  { unfold prune_expired. rewrite lookup_sql_delete_keep; [done|]. intros e. rewrite H.
    intros [= <-]. rewrite !as_i64_small by lia. lia. }
  unfold consume_invitation. case_match; [done|]. case_match eqn:I; [|done].
  apply sql_insert_Some in I as [N ->]. cbn. rewrite lookup_insert_ne; [done|]. congruence.
Qed.

Lemma consumed_other s o :
  invitation_clock o = None → consumed_invitations (exec s o) = consumed_invitations s.
Proof.
  destruct o; cbn; try done; intros _; open_op; unfold claim_via_allowlist;
    repeat (case_match; try done).
Qed.

Lemma record_kept_run sig exp os s :
  exp < 2 ^ 63 → prunes_before exp os → consumed_invitations s !! sig = Some (as_i64 exp) →
  consumed_invitations (foldl exec s os) !! sig = Some (as_i64 exp).
Proof.
  intros X. unfold prunes_before. revert s. induction os as [|o os IH]; intros s P H; [done|].
  cbn. cbn [omap list_omap] in P. destruct (invitation_clock o) as [n|] eqn:C.
  - apply list.Forall_cons in P as [L P]. destruct o; try done. injection C as ->.
    apply IH; [done|]. by apply (record_kept s sig exp).
  - apply IH; [done|]. by rewrite consumed_other.
Qed.

(** A redeemed invitation is refused ever after: when it has expired, and before that while no
    other redemption has pruned the records at a clock past its expiry. *)
Lemma invitation_spent s sig exp now s1 os later :
  exp < 2 ^ 63 → consume_invitation s sig exp now = (true, s1) →
  exp <= later ∨ prunes_before exp os →
  (consume_invitation (foldl exec s1 os) sig exp later).1 = false.
Proof.
  intros X E [L|P]; apply not_true_iff_false; rewrite consume_invitation_iff; intros [L1 H1]; [lia|].
  assert (consumed_invitations s1 !! sig = Some (as_i64 exp)) as Sp.
  { pose proof (consume_invitation_iff s sig exp now) as I. rewrite E in I.
    destruct (proj1 I eq_refl) as [I1 _]. unfold consume_invitation in E.
    rewrite (proj2 (N.leb_gt _ _) I1) in E. case_match eqn:In; [|done].
    apply sql_insert_Some in In as [_ ->]. injection E as <-. cbn. by rewrite lookup_insert_eq. }
  specialize (H1 _ (record_kept_run sig exp os s1 X P Sp)). rewrite !as_i64_small in H1 by lia. lia.
Qed.

(** An invitation that expires after the year 292 billion is stored with a negative expiry:
    the record is pruned by the next redemption, and the invitation is fresh again. *)
Example far_invitation_replays sig now :
  now < 2 ^ 63 →
  let far := 2 ^ 63 in
  let '(first, s1) := consume_invitation empty sig far now in
  first = true ∧ (consume_invitation s1 sig far now).1 = true.
Proof.
  intros L. cbn zeta. destruct (consume_invitation empty sig (2 ^ 63) now) as [b s1] eqn:E.
  assert (b = true) as ->.
  { change b with (b, s1).1. rewrite <- E. apply consume_invitation_iff. cbn.
    split; [lia|]. intros e. by rewrite lookup_empty. }
  split; [done|]. apply consume_invitation_iff. split; [lia|]. intros e.
  unfold consume_invitation in E. rewrite (proj2 (N.leb_gt _ _)) in E by lia.
  case_match eqn:I; [|done]. injection E as <-. apply sql_insert_Some in I as [_ ->]. cbn.
  rewrite lookup_insert_eq. intros [= <-]. rewrite (as_i64_small now) by done.
  change (as_i64 (2 ^ 63)) with (- 2 ^ 63)%Z. lia.
Qed.

(** A redemption whose clock was read before the expiry, and which takes the store's lock after
    one whose clock has passed it, finds the record pruned: the invitation admits again. *)
Example late_redemption_replays sig other :
  sig ≠ other →
  let '(first, s1) := consume_invitation empty sig 100 90 in
  let '(between, s2) := consume_invitation s1 other 200 100 in
  first = true ∧ between = true ∧ (consume_invitation s2 sig 100 99).1 = true.
Proof.
  intros N. destruct (consume_invitation empty sig 100 90) as [a s1] eqn:E1.
  destruct (consume_invitation s1 other 200 100) as [b s2] eqn:E2.
  assert (a = true ∧ consumed_invitations s1 = {[sig := 100%Z]}) as [-> H1].
  { unfold consume_invitation, sql_insert in E1. cbn in E1. unfold prune_expired in E1.
    rewrite lookup_sql_delete_keep in E1 by done. by injection E1 as <- <-. }
  assert (prune_expired 100 {[sig := 100%Z]} = (∅ : gmap bytes Z)) as P.
  { apply map_eq. intros k. rewrite lookup_empty. apply eq_None_not_Some. intros [x Hx].
    apply lookup_sql_delete in Hx as [[<- <-]%lookup_singleton_Some D]. done. }
  assert (b = true ∧ consumed_invitations s2 = {[other := 200%Z]}) as [-> H2].
  { unfold consume_invitation, sql_insert in E2. cbn in E2. rewrite H1, P, lookup_empty in E2.
    by injection E2 as <- <-. }
  split_and!; [done..|]. apply consume_invitation_iff. split; [lia|]. intros e. rewrite H2.
  intros [<- _]%lookup_singleton_Some. done.
Qed.

(** A challenge that was consumed stays consumed until its bytes are drawn again. *)
Lemma challenge_spent nonce os s now :
  challenges s !! nonce = None → Forall (λ o, ∀ n ttl, o ≠ OpIssueChallenge n ttl nonce) os →
  (consume_challenge (foldl exec s os) nonce now).1 = false.
Proof.
  intros N F. assert (challenges (foldl exec s os) !! nonce = None) as E.
  { revert s N. induction F as [|o os Ho _ IH]; intros s N; [done|]. cbn. apply IH.
    assert (∀ n, prune_expired n (challenges s) !! nonce = None) as P.
    { intros n. apply eq_None_not_Some. intros [x [Hx _]%lookup_sql_delete]. congruence. }
    destruct o; cbn; open_op; unfold claim_via_allowlist; try (repeat (case_match; try done); done).
    - case_match eqn:I; cbn; [|done]. apply sql_insert_Some in I as [_ ->].
      rewrite lookup_insert_ne; [done|]. intros ->. by eapply Ho.
    - apply lookup_delete_None. by right. }
  unfold consume_challenge. cbn. apply bool_decide_eq_false, eq_None_not_Some. unfold prune_expired.
  rewrite lookup_sql_delete_keep; [done|]. by rewrite E.
Qed.

Lemma challenge_consumed s nonce now s1 :
  consume_challenge s nonce now = (true, s1) → challenges s1 !! nonce = None.
Proof. intros [= _ <-]. apply lookup_delete_eq. Qed.

(** A claim invitation that was consumed, or never was, is not consumed (again). *)
Definition closed (hash : bytes) (s : ChannelStore) : Prop :=
  ∀ r, invites s !! hash = Some r → consumed_at r ≠ None.

Lemma closed_refused token s now :
  closed (claim_invite_token_hash sha256 token) s →
  consume_claim_invite sha256 s token now = (false, s) ∧
  ∀ i, claim_invite sha256 s token now ≠ Valid i.
Proof.
  intros C. unfold consume_claim_invite, claim_invite, closed in *.
  destruct (invites s !! _) as [r|]; [|done]. specialize (C r eq_refl).
  rewrite bool_decide_false by done. split; [done|]. intros i.
  rewrite bool_decide_true; [done|]. by apply not_eq_None_Some.
Qed.

Lemma closed_run hash os s :
  closed hash s →
  Forall (λ o, ∀ c who h k a l now d,
    o = OpMint c who h k a l now d → claim_invite_token_hash sha256 (base64url d) ≠ hash) os →
  closed hash (foldl exec s os).
Proof.
  intros C F. revert s C. induction F as [|o os Ho _ IH]; intros s C; [done|]. cbn. apply IH.
  assert (∀ p, closed hash (set_invites (sql_delete p (invites s)) s)) as P.
  { intros p r [Hr _]%lookup_sql_delete. by apply C. }
  destruct o; cbn; open_op; unfold claim_via_allowlist; try (repeat (case_match; try done); done).
  - case_match; [|done]. intros r. cbn. intros [Hr _]%lookup_sql_delete. by apply C.
  - case_match; [done|]. case_match eqn:I; [|done]. apply sql_insert_Some in I as [_ ->].
    intros r. cbn. rewrite lookup_insert_ne; [apply C|]. by eapply Ho.
  - case_match; [|done]. case_match; [|done]. intros x. cbn.
    destruct (decide (claim_invite_token_hash sha256 token = hash)) as [->|N].
    + rewrite lookup_insert_eq. by intros [= <-].
    + rewrite lookup_insert_ne by done. apply C.
Qed.

Lemma consumed_closed token s now s1 :
  consume_claim_invite sha256 s token now = (true, s1) →
  closed (claim_invite_token_hash sha256 token) s1.
Proof.
  unfold consume_claim_invite. case_match; [|done]. case_match; [|done]. intros [= <-] x. cbn.
  rewrite lookup_insert_eq. by intros [= <-].
Qed.

(** ** Ownership, keys and the quota *)

Lemma channel_step s o c :
  channels (exec s o) !! c = channels s !! c ∨
  (∃ key who m r, o = OpRegister c key who m r ∧ channels s !! c = None ∧
     channels (exec s o) !! c = Some {| operator := key; owner := who |}) ∨
  (∃ key row m, o = OpRegister c key (owner row) m true ∧ channels s !! c = Some row ∧
     channels (exec s o) !! c = Some {| operator := key; owner := owner row |}) ∨
  (∃ row to, o = OpTransfer c (owner row) to (Ok true) ∧ channels s !! c = Some row ∧
     channels (exec s o) !! c = Some {| operator := operator row; owner := to |}) ∨
  (∃ row, o = OpDelete (owner row) c ∧ channels s !! c = Some row ∧
     channels (exec s o) !! c = None).
Proof.
  destruct o; cbn; open_op; unfold claim_via_allowlist;
    try (left; repeat (case_match; try done); done).
  - destruct (channels s !! channel) as [row|] eqn:E.
    + case_match eqn:O; [by left|]. case_match; [by left|]. case_match eqn:R; [by left|].
      cbn. rewrite lookup_sql_update. destruct (decide (channel = c)) as [->|N]; [|by left]. bool_facts.
      right; right; left. exists key, row, max. rewrite E. destruct allow_rekey; [|done]. by subst.
    + case_match; [by left|]. cbn. destruct (decide (channel = c)) as [->|N].
      * right; left. exists key, who, max, allow_rekey. by rewrite lookup_insert_eq.
      * left. by rewrite lookup_insert_ne.
  - unfold is_owner. destruct (channels s !! channel) as [row|] eqn:E; [|by left].
    case_match; [|by left]. bool_facts. cbn. destruct (decide (channel = c)) as [->|N].
    + do 4 right. exists row. rewrite lookup_delete_eq. by subst.
    + left. by rewrite lookup_delete_ne.
  - destruct (channels s !! channel) as [row|] eqn:E; [|by left]. case_match; [by left|].
    case_match; [by left|]. destruct target_exists as [[|]|]; [|by left..]. bool_facts.
    cbn. rewrite lookup_sql_update. destruct (decide (channel = c)) as [->|N]; [|by left].
    right; right; right; left. exists row, to_subject. rewrite E. by subst.
Qed.

Definition owns (who : bytes) (r : ChannelRow) : N := if bool_decide (owner r = who) then 1 else 0.

Lemma owned_count_sum s who : owned_count s who = sum_of (owns who) (channels s).
Proof. apply count_sum. Qed.

Lemma sum_replace {R} (f : R → N) (k : bytes) (r : R) (t : gmap bytes R) :
  sum_of f (<[k := r]> t) = f r + sum_of f (delete k t).
Proof. rewrite <- insert_delete_eq. apply sum_insert_new, lookup_delete_eq. Qed.

Lemma sum_of_split {R} (f : R → N) (k : bytes) (t : gmap bytes R) :
  sum_of f t = match t !! k with Some r => f r | None => 0 end + sum_of f (delete k t).
Proof.
  destruct (t !! k) as [r|] eqn:E; [by rewrite (sum_delete f k r t)|].
  by rewrite delete_id.
Qed.

(** Only a registration of his own and a transfer to him give an owner a channel. *)
Lemma owned_step s o who :
  owned_count (exec s o) who <= owned_count s who ∨
  (∃ c k m r, o = OpRegister c k who m r ∧ owned_count s who < m ∧
     owned_count (exec s o) who = owned_count s who + 1) ∨
  (∃ c f x, o = OpTransfer c f who x).
Proof.
  rewrite !owned_count_sum.
  destruct o; cbn; open_op; unfold claim_via_allowlist;
    try (left; repeat (case_match; try done); done).
  - destruct (channels s !! channel) as [row|] eqn:E.
    + left. repeat (case_match; try done); cbn; rewrite sum_update_same; done.
    + case_match eqn:L; [by left|]. bool_facts. cbn. rewrite sum_insert_new by done.
      destruct (decide (who0 = who)) as [->|D].
      * right; left. exists channel, key, max, allow_rekey. rewrite owned_count_sum in L.
        unfold owns at 2. cbn. rewrite bool_decide_true by done. split_and!; [done|lia|lia].
      * left. unfold owns at 1. cbn. by rewrite bool_decide_false.
  - case_match; [|by left]. left. cbn. rewrite (sum_of_split _ channel (channels s)). lia.
  - destruct (channels s !! channel) as [row|] eqn:E; [|by left]. case_match; [by left|].
    case_match; [by left|]. destruct target_exists as [[|]|]; [|by left..]. cbn.
    destruct (decide (to_subject = who)) as [->|N]; [right; right; eauto|]. left.
    rewrite (sql_update_some _ _ _ _ E), sum_replace, (sum_of_split _ channel (channels s)), E.
    unfold owns at 1. cbn. rewrite bool_decide_false by done. lia.
Qed.

(** ownership and keys change hands only by the owner's doing. After any operations a
    registered channel has the operator key and the owner of its registration, unless the owner
    re-keyed it with the explicit option, an operator transferred it away from the owner, or the
    owner deleted it; and an owner whose registrations all carry the cap [cap] and to whom
    nothing is transferred never has more than [cap] channels. *)
Theorem ownership_and_quota s c row os who cap :
  channels s !! c = Some row →
  Forall (λ o, (∀ key m, o ≠ OpRegister c key (owner row) m true) ∧
               (∀ to, o ≠ OpTransfer c (owner row) to (Ok true)) ∧
               o ≠ OpDelete (owner row) c) os →
  owned_count s who <= cap →
  Forall (λ o, (∀ c k m r, o = OpRegister c k who m r → m = cap) ∧
               (∀ c f x, o ≠ OpTransfer c f who x)) os →
  channels (foldl exec s os) !! c = Some row ∧ owned_count (foldl exec s os) who <= cap.
Proof.
  intros E F1 L F2. split.
  - clear F2 L. revert s E. induction F1 as [|o os (N1 & N2 & N3) _ IH]; intros s E; [done|].
    cbn. apply IH.
    destruct (channel_step s o c) as [->|[(k & w & m & r & _ & N & _)|
      [(k & r & m & Eo & E' & _)|[(r & t & Eo & E' & _)|(r & Eo & E' & _)]]]]; [done|congruence|..].
    + destruct (N1 k m). congruence.
    + destruct (N2 t). congruence.
    + destruct N3. congruence.
  - clear F1 E. revert s L. induction F2 as [|o os (N1 & N2) _ IH]; intros s L; [done|]. cbn.
    apply IH. destruct (owned_step s o who) as [H|[(c' & k & m & r & Eo & Lm & ->)|
      (c' & f & x & Eo)]]; [lia| |by destruct (N2 _ _ _ Eo)].
    rewrite (N1 _ _ _ _ Eo) in Lm. lia.
Qed.

(** a revocation lasts as long as the grant. Once a grant is on the revocation list, it stays
    on it through any operations at times before its expiry, on the signed 64-bit clock the
    table keeps, unless the owner deletes the channel; a second revocation reports that it was
    there. *)
Theorem revocation_lasts s c g exp now s1 os :
  revoke_grant s c g exp now = (Some true, s1) → now < exp →
  Forall (λ o, (∀ who, o ≠ OpDelete who c) ∧
    ∀ c' g' e n, o = OpRevoke c' g' e n → n < exp ∧ (Z.of_N n < I64_MAX)%Z) os →
  let s2 := foldl exec s1 os in
  is_grant_revoked s2 c g = true ∧
  ∀ e n, now < e → n < exp → n < e → (Z.of_N n < I64_MAX)%Z → is_Some (channels s2 !! c) →
    (revoke_grant s2 c g e n).1 = Some false.
Proof.
  intros E X F s2.
  assert (revocations s1 !! (c, g) =
    Some {| revoked_at := saturated_i64 now; revocation_expires := saturated_i64 exp |}) as R.
  { unfold revoke_grant in E. destruct (channels s !! c); [|done].
    rewrite (proj2 (N.leb_gt _ _) X) in E. case_match eqn:I; [|done].
    apply sql_insert_Some in I as [_ ->]. injection E as <-. cbn. apply lookup_insert_eq. }
  assert (∀ n (t : gmap (bytes * bytes) RevocationRow),
    let r := {| revoked_at := saturated_i64 now; revocation_expires := saturated_i64 exp |} in
    n < exp → (Z.of_N n < I64_MAX)%Z → t !! (c, g) = Some r →
    sql_delete (λ _ x, (revocation_expires x <=? saturated_i64 n)%Z) t !! (c, g) = Some r) as K.
  { intros n t r L M Ht. rewrite lookup_sql_delete_keep; [done|]. intros r'. rewrite Ht.
    intros [= <-]. cbn. unfold saturated_i64, I64_MAX in *. lia. }
  assert (revocations s2 !! (c, g) =
    Some {| revoked_at := saturated_i64 now; revocation_expires := saturated_i64 exp |}) as R2.
  { subst s2. clear E. revert s1 R. induction F as [|o os [Nd Nr] _ IH]; intros s1 R; [done|].
    cbn. apply IH. destruct o; cbn; open_op; unfold claim_via_allowlist;
      try (repeat (case_match; try done); done).
    - case_match; [|done]. cbn. rewrite lookup_of_channel. case_decide as D; [|done].
      subst. by destruct (Nd who).
    - destruct (Nr _ _ _ _ eq_refl) as [L M]. destruct (channels s1 !! channel); [|done].
      case_match; [by apply K|]. case_match eqn:I; [|by apply K].
      apply sql_insert_Some in I as [N ->]. cbn.
      rewrite lookup_insert_ne; [by apply K|]. intros E. rewrite E in N.
      by rewrite (K _ _ L M R) in N. }
  split.
  - unfold is_grant_revoked. rewrite R2. by apply bool_decide_true.
  - intros e n _ L Le M [row C]. unfold revoke_grant. rewrite C, (proj2 (N.leb_gt _ _) Le).
    unfold sql_insert. by rewrite (K _ _ L M R2).
Qed.

End runs.

(** ** Concrete runs *)

Definition map_order (R : Type) (t : gmap (bytes * bytes) R) : list (bytes * bytes * R) :=
  map_to_list t.

(** A channel of [alice], a member and an allow-listed subject. *)
Definition demo_id (b : byte) : bytes := replicate 32 b.
Definition demo_sha (b : bytes) : bytes := take 32 (b ++ replicate 32 x00).
Definition demo_run : list Op :=
  [OpRegister (demo_id x01) (demo_id xaa) (lit "alice") 5 false;
   OpAdd (demo_id x01) (lit "alice") (demo_id x02) (demo_id x03) (replicate 64 x04);
   OpAllow (demo_id x01) (lit "alice") (lit "Bob@example.org") 10;
   OpClaim (demo_id x01) (lit "bob@example.org") (demo_id x05) (demo_id x06) (replicate 64 x07)
     11 (Some (lit "bob"));
   OpDeposit (demo_id x01) (lit "alice") (demo_id x05) (lit "ab") 12].
Definition demo : ChannelStore := foldl (exec demo_sha Hex.encode) empty demo_run.

Example demo_authorized :
  authorize_holder demo (demo_id x01) (demo_id x05) = Some (demo_id xaa) ∧
  authorize_holder demo (demo_id x01) (demo_id x06) = None ∧
  deposited_grants_for_subject map_order demo (demo_id x01) (lit "bob")
    = [(demo_id x05, Some (lit "ab"))].
Proof. vm_compute. done. Qed.

(** Adding an e-mail again forgets that it was claimed. *)
Example readding_forgets_the_claim :
  let s := (allowlist_add demo (demo_id x01) (lit "alice") (lit "bob@example.org") 20).2 in
  channels_for_email map_order demo (lit "bob@example.org")
    = [(demo_id x01, Some 11)] ∧
  channels_for_email map_order s (lit "bob@example.org") = [(demo_id x01, None)] ∧
  is_member s (demo_id x01) (demo_id x05) = true.
Proof. vm_compute. done. Qed.

Lemma removal_complete_witness :
  ∃ s1, remove_member demo (demo_id x01) (lit "alice") (demo_id x05) = (true, s1) ∧
  let s2 := foldl (exec demo_sha Hex.encode) s1 [OpPrune 99] in
  is_member s2 (demo_id x01) (demo_id x05) = false.
Proof.
  exists (remove_member demo (demo_id x01) (lit "alice") (demo_id x05)).2.
  split; [vm_compute; reflexivity|].
  apply (removal_complete demo_sha Hex.encode map_order demo (demo_id x01)
           (lit "alice") (demo_id x05) _ [OpPrune 99]).
  - done.
  - vm_compute. reflexivity.
  - constructor; [|constructor]. intros [(? & ? & ? & ?)|(? & ? & ? & ? & ? & ?)]; discriminate.
Defined.

Lemma holder_not_taken_over_witness :
  let os := [OpAllow (demo_id x01) (lit "alice") (lit "eve@example.org") 13;
             OpClaim (demo_id x01) (lit "eve@example.org") (demo_id x05) (demo_id x08)
               (replicate 64 x09) 14 (Some (lit "eve"))] in
  member_noise_key (foldl (exec demo_sha Hex.encode) demo os) (demo_id x01) (demo_id x05)
    = Some (demo_id x06).
Proof.
  intros os. unfold member_noise_key.
  destruct (holder_not_taken_over demo_sha Hex.encode demo (demo_id x01) (demo_id x05)
    {| subject := lit "bob"; subject_claimed_at := 11 |} os) as (_ & -> & _).
  - vm_compute. reflexivity.
  - constructor; [|constructor; [|constructor]]; (split; [|split]);
      try (intros (? & [?|?]); discriminate); try (intros; discriminate).
    intros ? ? ? ? ? [= <- <- <- <- <-]. split; discriminate.
  - vm_compute. reflexivity.
Defined.

Lemma ownership_and_quota_witness :
  let s := foldl (exec demo_sha Hex.encode) demo
    [OpRegister (demo_id x01) (demo_id xbb) (lit "eve") 5 true;
     OpDelete (lit "eve") (demo_id x01)] in
  channels s !! demo_id x01 = Some {| operator := demo_id xaa; owner := lit "alice" |} ∧
  owned_count s (lit "eve") <= 5.
Proof.
  intros s. apply (ownership_and_quota demo_sha Hex.encode demo (demo_id x01)).
  - vm_compute. reflexivity.
  - constructor; [|constructor; [|constructor]]; (split; [|split]); intros; discriminate.
  - vm_compute. discriminate.
  - apply list.Forall_cons; split; [|apply list.Forall_cons; split; [|apply list.Forall_nil; done]];
      (split; [|intros; discriminate]); intros ? ? ? ? E; [by injection E|discriminate].
Defined.

Lemma revocation_lasts_witness :
  let s1 := (revoke_grant demo (demo_id x01) (demo_id x0c) 100 20).2 in
  is_grant_revoked (foldl (exec demo_sha Hex.encode) s1
    [OpRevoke (demo_id x01) (demo_id x0d) 200 99]) (demo_id x01) (demo_id x0c) = true.
Proof.
  cbn zeta. apply (revocation_lasts demo_sha Hex.encode demo (demo_id x01) (demo_id x0c) 100 20).
  - vm_compute. reflexivity.
  - reflexivity.
  - constructor; [|constructor]. split; [discriminate|].
    intros ? ? ? ? [= <- <- <- <-]. split; reflexivity.
Defined.

End ChannelStore.
