(* ===== verification/ChannelGate.v ===== *)
(** * The HTTP handlers of the channel plane

    The control plane's routes that admit to a channel, remove from it or revoke a grant
    ([crates/control-plane/src/service.rs], [portal_api.rs]) over the store of [ChannelStore]:
    [Redeem] is the redemption of an operator-signed invitation, [Claim] the self-service claim
    and the single-use claim invitation, [Grants] the owner's and the proof-gated routes for
    members and grants.

    A handler calls the store several times and takes its lock for each call alone; between two
    calls the other requests run. A handler takes the operations that run before each of its
    calls as an argument, and the theorems hold for any. *)

From S2P Require Import Prelude RustStd Maps Interfaces Codec Channels Sqlite Accounts ChannelStore.

Import ChannelStore.

(** src/crates/control-plane/src/service.rs:7603-7613 [hex_decode_64] *)
Definition hex_decode_64 (s : bytes) : option bytes :=
  if negb (length s =? 128)%nat || negb (forallb is_ascii s) then None
  else mapM (λ p, byte_of_N <$> u8_from_hex p) (chunks2 s).

Lemma hex_decode_64_encode bs : length bs = 64%nat → hex_decode_64 (Hex.encode bs) = Some bs.
Proof.
  intros L. unfold hex_decode_64. rewrite Hex.length_encode, L. cbn [Nat.mul Nat.add Nat.eqb negb].
  assert (∀ b, forallb is_ascii (Hex.encode_byte b)
    && bool_decide (u8_from_hex (Hex.encode_byte b) = Some (N_of_byte b)) = true) as B.
  { apply Hex.byte_check. by vm_compute. }
  clear L. assert (forallb is_ascii (Hex.encode bs) = true ∧
    mapM (λ p, byte_of_N <$> u8_from_hex p) (chunks2 (Hex.encode bs)) = Some bs) as [-> ->]; [|done].
  induction bs as [|b bs [IH1 IH2]]; [done|].
  specialize (B b). apply andb_true_iff in B as [B1 B]. apply bool_decide_eq_true in B.
  change (Hex.encode (b :: bs)) with (Hex.encode_byte b ++ Hex.encode bs).
  rewrite forallb_app, IH1, B1. split; [done|].
  change (chunks2 (Hex.encode_byte b ++ Hex.encode bs))
    with (Hex.encode_byte b :: chunks2 (Hex.encode bs)).
  cbn [mapM]. rewrite B. cbn [fmap option_fmap option_map]. rewrite byte_of_N_of_byte.
  cbn [mbind option_bind]. by rewrite IH2.
Qed.

Lemma decode_32_encode bs : length bs = 32%nat → Hex.decode_32 (Hex.encode bs) = Some bs.
Proof. intros L. apply Hex.decode_array_spec. split; [apply Hex.hex_decode_encode|done]. Qed.

(** The work of a request on the store: a value, or the status code it fails with. *)
Definition Handler (A : Type) : Type := ChannelStore → Result A N * ChannelStore.

Definition ret {A} (a : A) : Handler A := λ s, (Ok a, s).
Definition fail {A} (code : N) : Handler A := λ s, (Err code, s).
Definition hbind {A B} (m : Handler A) (k : A → Handler B) : Handler B := λ s,
  match m s with (Ok a, s') => k a s' | (Err e, s') => (Err e, s') end.
Definition or_fail {A} (o : option A) (code : N) : Handler A :=
  match o with Some a => ret a | None => fail code end.
Definition guard (b : bool) (code : N) : Handler () := if b then ret () else fail code.

Declare Scope handler_scope.
Notation "x '<--' m ';' k" := (hbind m (λ x, k))
  (at level 100, m at next level, k at level 200, right associativity) : handler_scope.
Open Scope handler_scope.

(** [A] succeeded: its value, the state, and how a sequence got there. *)
Lemma hbind_Ok {A B} (m : Handler A) (k : A → Handler B) s b s' :
  hbind m k s = (Ok b, s') ↔ ∃ a s1, m s = (Ok a, s1) ∧ k a s1 = (Ok b, s').
Proof. unfold hbind. destruct (m s) as [[a|e] s1]; naive_solver. Qed.

Lemma or_fail_Ok {A} (o : option A) code s a s' :
  or_fail o code s = (Ok a, s') ↔ o = Some a ∧ s' = s.
Proof. destruct o; cbn; unfold ret, fail; naive_solver. Qed.

Lemma guard_Ok b code s a s' : guard b code s = (Ok a, s') ↔ b = true ∧ s' = s.
Proof. destruct b, a; cbn; unfold ret, fail; naive_solver. Qed.

Section gate.
Context `{Ed25519} (sha256 base64url : bytes → bytes).

(** One call of the store, after the operations [others] of other requests. *)
Definition call {A} (others : list Op) (f : ChannelStore → A * ChannelStore) : Handler A := λ s,
  let '(a, s') := f (foldl (exec sha256 base64url) s others) in (Ok a, s').

Definition look {A} (others : list Op) (f : ChannelStore → A) : Handler A :=
  call others (λ s, (f s, s)).

Lemma call_Ok {A} others (f : ChannelStore → A * ChannelStore) s a s' :
  call others f s = (Ok a, s') → f (foldl (exec sha256 base64url) s others) = (a, s').
Proof. unfold call. destruct (f _). naive_solver. Qed.

Lemma look_Ok {A} others (f : ChannelStore → A) s a s' :
  look others f s = (Ok a, s') →
  s' = foldl (exec sha256 base64url) s others ∧ a = f s'.
Proof. unfold look. intros E%call_Ok. naive_solver. Qed.

(** ** Redeeming an invitation *)

(** src/crates/control-plane/src/service.rs:4432-4451 [InviteRedeemReq] *)
Record InviteRedeemReq := {
  invitation : bytes;
  redeem_sig : bytes;
  holder : bytes;
  noise_pubkey : bytes;
  noise_attestation : bytes;
  challenge : option bytes;
}.

(** src/crates/control-plane/src/service.rs:4409-4409 [INVITE_CHALLENGE_TTL_SECS] *)
Definition INVITE_CHALLENGE_TTL_SECS : N := 120.

(** src/crates/control-plane/src/service.rs:4422-4429 [channel_invite_challenge] *)
Definition channel_invite_challenge (now : N) (drawn : bytes) : Handler bytes := λ s,
  match issue_challenge s now INVITE_CHALLENGE_TTL_SECS drawn with
  | (Ok nonce, s') => (Ok (Hex.encode nonce), s')
  | (Err _, s') => (Err 500, s')
  end.

(** src/crates/control-plane/src/service.rs:4499-4505 [channel_invite_redeem]: the status of an
    invitation that does not verify. *)
Definition invitation_status (e : GrantError) : N :=
  match e with Expired => 410 | _ => 403 end.

(** src/crates/control-plane/src/service.rs:4511-4527 [channel_invite_redeem]: proof 2. *)
Definition redemption_proof (others : list Op) (req : InviteRedeemReq)
    (channel invitee holder sig : bytes) (now : N) : Handler bool :=
  match challenge req with
  | Some ch =>
    nonce <-- or_fail (Hex.decode_32 ch) 400;
    live <-- call others (λ s, consume_challenge s nonce now);
    _u <-- guard live 403;
    ret (Invitation.verify_invitation_redemption_challenge channel invitee holder nonce sig)
  | None => ret (Invitation.verify_invitation_redemption channel invitee holder sig)
  end.

(** src/crates/control-plane/src/service.rs:4453-4577 [channel_invite_redeem]: [others i] runs
    before the [i]-th call of the store. *)
Definition channel_invite_redeem (others : nat → list Op) (req : InviteRedeemReq) (now : N)
    : Handler () :=
  inv_bytes <-- or_fail (Hex.decode (invitation req)) 400;
  signed <-- or_fail (result_ok (Invitation.decode inv_bytes)) 400;
  sig <-- or_fail (hex_decode_64 (redeem_sig req)) 400;
  holder <-- or_fail (Hex.decode_32 (holder req)) 400;
  key <-- or_fail (Hex.decode_32 (noise_pubkey req)) 400;
  attestation <-- or_fail (hex_decode_64 (noise_attestation req)) 400;
  let inv := Invitation.invitation signed in
  let channel := Invitation.channel inv in
  found <-- look (others 0%nat) (λ s, operator_pubkey s channel);
  operator <-- or_fail found 404;
  _u <-- match Invitation.verify_invitation operator signed now with
         | Ok _ => ret ()
         | Err e => fail (invitation_status e)
         end;
  redemption_ok <-- redemption_proof (others 1%nat) req channel
                      (Invitation.invitee_identity inv) holder sig now;
  _u <-- guard redemption_ok 403;
  _u <-- guard (Verify.verify_member_noise_attestation channel holder key attestation) 403;
  fresh <-- call (others 2%nat)
    (λ s, consume_invitation s (Invitation.signature signed) (Invitation.expires_at inv) now);
  _u <-- guard fresh 409;
  found <-- look (others 3%nat) (λ s, channel_owner s channel);
  owner <-- or_fail found 404;
  ok <-- call (others 4%nat) (λ s, add_member s channel owner holder key attestation);
  guard ok 404.

(** What a successful handler did, call by call. *)
Ltac handler_inv H :=
  repeat match type of H with
  | hbind _ _ _ = (Ok _, _) =>
      let a := fresh "a" in let s := fresh "s" in let H1 := fresh "H" in
      apply hbind_Ok in H as (a & s & H1 & H); cbn beta in H, H1; handler_inv H1
  | or_fail _ _ _ = (Ok _, _) => apply or_fail_Ok in H as [H ->]
  | guard _ _ _ = (Ok _, _) => apply guard_Ok in H as [H ->]
  | call _ _ _ = (Ok _, _) => apply call_Ok in H; cbn beta in H
  | look _ _ _ = (Ok _, _) => apply look_Ok in H as [-> ->]; cbn beta
  | ret _ _ = (Ok _, _) => injection H as ? ?; subst
  end.

(** The operations of others up to the single-use record, and after it. *)
Definition before (others : nat → list Op) (req : InviteRedeemReq) : list Op :=
  others 0%nat ++ (if challenge req then others 1%nat else []) ++ others 2%nat.
Definition after (others : nat → list Op) : list Op := others 3%nat ++ others 4%nat.

(** The invitation a request carries. *)
Definition carried (req : InviteRedeemReq) : option Invitation.SignedChannelInvitation :=
  b ← Hex.decode (invitation req); result_ok (Invitation.decode b).

Lemma result_ok_Some {A E} (r : Result A E) a : result_ok r = Some a ↔ r = Ok a.
Proof. destruct r; naive_solver. Qed.

(** The invitee's proof, in either form. *)
Definition invitee_agrees (req : InviteRedeemReq) (channel invitee h : bytes) : Prop :=
  ∃ sig, hex_decode_64 (redeem_sig req) = Some sig ∧
    match challenge req with
    | None => Invitation.verify_invitation_redemption channel invitee h sig = true
    | Some ch => ∃ nonce, Hex.decode_32 ch = Some nonce ∧
        Invitation.verify_invitation_redemption_challenge channel invitee h nonce sig = true
    end.

Lemma foldl_clock_app (l k : list Op) :
  omap invitation_clock (l ++ k) = omap invitation_clock l ++ omap invitation_clock k.
Proof. apply omap_app. Qed.

Lemma proof_Ok others req c i h sig now s r s' :
  redemption_proof others req c i h sig now s = (Ok r, s') → r = true →
  hex_decode_64 (redeem_sig req) = Some sig →
  invitee_agrees req c i h ∧
  ∃ mid, omap invitation_clock mid =
           omap invitation_clock (if challenge req then others else []) ∧
         s' = foldl (exec sha256 base64url) s mid.
Proof.
  intros E -> Hs. unfold redemption_proof in E. unfold invitee_agrees.
  destruct (challenge req) as [ch|].
  - handler_inv E. subst. split; [by eauto 6|]. exists (others ++ [OpChallenge a now]).
    rewrite foldl_clock_app, foldl_app. cbn. rewrite app_nil_r. split; [done|].
    match goal with H : consume_challenge _ _ _ = _ |- _ => by injection H as _ <- end.
  - handler_inv E. subst. split; [by eauto|]. by exists [].
Qed.

Lemma redeem_Ok others req now s s1 :
  channel_invite_redeem others req now s = (Ok (), s1) →
  ∃ signed h key att operator who s3 pre,
    let inv := Invitation.invitation signed in let c := Invitation.channel inv in
    carried req = Some signed ∧ Hex.decode_32 (holder req) = Some h ∧
    Hex.decode_32 (noise_pubkey req) = Some key ∧
    hex_decode_64 (noise_attestation req) = Some att ∧
    operator_pubkey (foldl (exec sha256 base64url) s (others 0%nat)) c = Some operator ∧
    Invitation.verify_invitation operator signed now = Ok () ∧
    invitee_agrees req c (Invitation.invitee_identity inv) h ∧
    Verify.verify_member_noise_attestation c h key att = true ∧
    omap invitation_clock pre = omap invitation_clock (before others req) ∧
    consume_invitation (foldl (exec sha256 base64url) s pre) (Invitation.signature signed)
      (Invitation.expires_at inv) now = (true, s3) ∧
    add_member (foldl (exec sha256 base64url) s3 (after others)) c who h key att = (true, s1).
Proof.
  intros E. unfold channel_invite_redeem in E.
  do 6 (apply hbind_Ok in E as (? & ? & E1 & E); apply or_fail_Ok in E1 as [? ->]).
  apply hbind_Ok in E as (found & ? & E1 & E). apply look_Ok in E1 as [-> ->].
  apply hbind_Ok in E as (operator & ? & E1 & E). apply or_fail_Ok in E1 as [Ho ->].
  apply hbind_Ok in E as ([] & ? & E1 & E).
  destruct (Invitation.verify_invitation operator x0 now) as [[]|] eqn:V; [|done].
  injection E1 as <-.
  apply hbind_Ok in E as (ok & ? & E1 & E). apply hbind_Ok in E as ([] & ? & G & E).
  apply guard_Ok in G as [-> ->]. eapply proof_Ok in E1 as (Agree & mid & Hmid & ->); [|done..].
  apply hbind_Ok in E as ([] & ? & G & E). apply guard_Ok in G as [Att ->].
  apply hbind_Ok in E as (fresh & s3 & C & E). apply call_Ok in C. cbn beta in C.
  apply hbind_Ok in E as ([] & ? & G & E). apply guard_Ok in G as [-> ->].
  apply hbind_Ok in E as (who & ? & G & E). apply look_Ok in G as [-> ->].
  apply hbind_Ok in E as (owner & ? & G & E). apply or_fail_Ok in G as [_ ->].
  apply hbind_Ok in E as (ok & ? & Add & E). apply call_Ok in Add. cbn beta in Add.
  apply guard_Ok in E as [-> ->].
  rewrite <- !foldl_app in C. rewrite <- foldl_app in Add.
  exists x0, x2, x3, x4, operator, owner, s3, (others 0%nat ++ mid ++ others 2%nat).
  cbn zeta. split_and!; try done.
  - unfold carried. match goal with H : Hex.decode _ = Some _ |- _ => by rewrite H end.
  - unfold before. by rewrite !foldl_clock_app, Hmid.
Qed.

(** C6 an invitation admits once. When a redemption succeeds, the invitation carried the operator's
    signature and was current, the invitee signed for this holder, the holder attested the Noise
    key, and the holder is now a member with exactly this key. From then on, whatever other
    requests run in between and inside, every request with the same invitation fails: a member
    that was removed cannot come back by sending it again, with a new challenge or for another
    holder. Two things are assumed, and the code needs both. The invitation's expiry is below
    2^63 seconds, since the store keeps it as an i64 ([ChannelStore.far_invitation_replays] is
    the replay otherwise). And the replay's clock has reached the expiry, or no redemption in
    between has pruned the store's records at a clock that has: each redemption reads its clock
    before it takes the store's lock, so one with an earlier clock can run after a prune with
    a later one, and [ChannelStore.late_redemption_replays] is the replay then. *)
Theorem invitation_admits_once others req now s s1 :
  channel_invite_redeem others req now s = (Ok (), s1) →
  ∃ signed h key att operator,
    let inv := Invitation.invitation signed in let c := Invitation.channel inv in
    (carried req = Some signed ∧ Hex.decode_32 (holder req) = Some h ∧
     operator_pubkey (foldl (exec sha256 base64url) s (others 0%nat)) c = Some operator ∧
     sig_verify operator (Invitation.signing_bytes inv) (Invitation.signature signed) = true ∧
     now < Invitation.expires_at inv ∧
     invitee_agrees req c (Invitation.invitee_identity inv) h ∧
     Verify.verify_member_noise_attestation c h key att = true ∧
     members s1 !! (c, h) = Some (pinned key att)) ∧
    ∀ os others' req' later,
      carried req' = Some signed → Invitation.expires_at inv < 2 ^ 63 →
      Invitation.expires_at inv <= later ∨
        prunes_before (Invitation.expires_at inv) (after others ++ os ++ before others' req') →
      (channel_invite_redeem others' req' later (foldl (exec sha256 base64url) s1 os)).1 ≠ Ok ().
Proof.
  intros E. apply redeem_Ok in E as (signed & h & key & att & operator & who & s3 & pre &
    Hc & Hh & _ & _ & Ho & V & Ag & At & _ & C & Add). cbn zeta in *.
  exists signed, h, key, att, operator. split.
  - apply (proj1 (Invitation.verify_invitation_iff _ _ _)) in V as [V L].
    split_and!; try done. unfold add_member in Add. case_match; [done|]. injection Add as <-.
    cbn. apply lookup_insert_eq.
  - intros os others' req' later Hc' X S E.
    destruct (channel_invite_redeem _ _ _ _) as [r s'] eqn:E'. cbn in E. subst r.
    apply redeem_Ok in E' as (signed' & h' & key' & att' & operator' & who' & s3' & pre' & Hc2 & _ & _ & _ & _ & _ &
      _ & _ & Clk & C' & _). rewrite Hc' in Hc2. injection Hc2 as <-.
    set (run := foldl (exec sha256 base64url)) in *.
    set (add := OpAdd (Invitation.channel (Invitation.invitation signed)) who h key att).
    assert (run (run s1 os) pre' = run s3 (after others ++ [add] ++ os ++ pre')) as R.
    { unfold run in Add |- *. rewrite !foldl_app. cbn. by rewrite Add. }
    rewrite R in C'. apply (f_equal fst) in C'. cbn [fst] in C'.
    assert (true = false); [|done]. rewrite <- C'.
    apply (invitation_spent sha256 base64url _ _ _ now _ _ later X C).
    destruct S as [S|S]; [by left|right]. unfold prunes_before in *.
    rewrite !foldl_clock_app in S. rewrite !foldl_clock_app, Clk. exact S.
Qed.

(** ** Leaving *)

(** src/crates/control-plane/src/service.rs:3848-3848 [GRANT_STATUS_SKEW_SECS] *)
Definition GRANT_STATUS_SKEW_SECS : N := 120.

(** [u64::abs_diff]. *)
Definition abs_diff (a b : N) : N := (a - b) + (b - a).

(** src/crates/control-plane/src/service.rs:3975-3981 [ChannelLeaveReq] *)
Record ChannelLeaveReq := { leaver : bytes; leave_ts : N; leave_sig : bytes }.

(** src/crates/control-plane/src/service.rs:3991-4024 [channel_leave_signed] *)
Definition channel_leave_signed (others : nat → list Op) (channel_hex : bytes)
    (req : ChannelLeaveReq) (now : N) : Handler () :=
  channel <-- or_fail (Hex.decode_32 channel_hex) 400;
  h <-- or_fail (Hex.decode_32 (leaver req)) 400;
  sig <-- or_fail (hex_decode_64 (leave_sig req)) 400;
  _u <-- guard (negb (GRANT_STATUS_SKEW_SECS <? abs_diff now (leave_ts req))) 403;
  _u <-- guard (Verify.verify_holder_possession h
                  (Invitation.channel_leave_signing_bytes channel h (leave_ts req)) sig) 403;
  key <-- look (others 0%nat) (λ s, authorize_holder s channel h);
  _u <-- or_fail key 403;
  owner <-- look (others 1%nat) (λ s, channel_owner s channel);
  who <-- or_fail owner 403;
  left <-- call (others 2%nat) (λ s, remove_member s channel who h);
  guard left 403.

(** ** Grants *)

(** src/crates/control-plane/src/service.rs:3759-3768 [GrantRevokeReq] *)
Record GrantRevokeReq := {
  revoke_digest : bytes; revoke_expires_at : N; operator_sig : option bytes }.

(** src/crates/control-plane/src/service.rs:3771-3778 [GrantRevokeResp] *)
Record GrantRevokeResp := Revocation { revoked : bool; already : bool; expired : bool }.

(** src/crates/control-plane/src/service.rs:3818-3837 [record_grant_revocation] *)
Definition record_grant_revocation (others : list Op) (channel digest : bytes)
    (expires_at now : N) : Handler GrantRevokeResp :=
  stored <-- call others (λ s, revoke_grant s channel digest expires_at now);
  match stored with
  | None => fail 404
  | Some new =>
    if expires_at <=? now then ret (Revocation true false true)
    else ret (Revocation true (negb new) false)
  end.

(** src/crates/control-plane/src/service.rs:3783-3816 [channel_revoke_grant_owner]: [owner] is
    the authenticated subject; the audit record is left out. *)
Definition channel_revoke_grant_owner (others : nat → list Op) (who channel_hex : bytes)
    (req : GrantRevokeReq) (now : N) : Handler GrantRevokeResp :=
  channel <-- or_fail (Hex.decode_32 channel_hex) 400;
  digest <-- or_fail (Hex.decode_32 (revoke_digest req)) 400;
  owner <-- look (others 0%nat) (λ s, channel_owner s channel);
  _u <-- guard (bool_decide (owner = Some who)) 403;
  record_grant_revocation (others 1%nat) channel digest (revoke_expires_at req) now.

(** src/crates/control-plane/src/service.rs:3946-3972 [channel_grant_revoke_signed] *)
Definition channel_grant_revoke_signed (others : nat → list Op) (channel_hex : bytes)
    (req : GrantRevokeReq) (now : N) : Handler GrantRevokeResp :=
  channel <-- or_fail (Hex.decode_32 channel_hex) 400;
  digest <-- or_fail (Hex.decode_32 (revoke_digest req)) 400;
  sig <-- or_fail (operator_sig req ≫= hex_decode_64) 400;
  found <-- look (others 0%nat) (λ s, operator_pubkey s channel);
  operator <-- or_fail found 404;
  _u <-- guard (Verify.verify_holder_possession operator
    (Invitation.grant_revoke_signing_bytes channel digest (revoke_expires_at req)) sig) 403;
  record_grant_revocation (others 1%nat) channel digest (revoke_expires_at req) now.

(** src/crates/control-plane/src/service.rs:3859-3869 [GrantStatusReq] *)
Record GrantStatusReq := {
  status_channel : bytes; asker : bytes; peer : bytes; status_digest : bytes; status_ts : N;
  status_sig : bytes }.

(** src/crates/control-plane/src/service.rs:3872-3876 [GrantStatusResp]: the answers. *)
Inductive GrantState :=
| UnknownChannel | AskerNotMember | PeerNotMember | GrantRevoked | GrantValid.

(** src/crates/control-plane/src/service.rs:3878-3888 [holder_authorized]:
    [topology_authorizes] is the answer of the topology store. *)
Definition holder_authorized (s : ChannelStore) (topology_authorizes : bytes → bytes → bool)
    (channel h : bytes) : bool :=
  match authorize_holder s channel h with
  | Some _ => true
  | None => topology_authorizes channel h
  end.

(** src/crates/control-plane/src/service.rs:3893-3940 [channel_grant_status]: the answer, or the
    status; an unknown channel goes with 404 and an asker that is no member with 403. *)
Definition channel_grant_status (others : nat → list Op)
    (topology_authorizes : bytes → bytes → bool) (req : GrantStatusReq) (now : N)
    : Handler GrantState :=
  channel <-- or_fail (Hex.decode_32 (status_channel req)) 400;
  ask <-- or_fail (Hex.decode_32 (asker req)) 400;
  pr <-- or_fail (Hex.decode_32 (peer req)) 400;
  digest <-- or_fail (Hex.decode_32 (status_digest req)) 400;
  sig <-- or_fail (hex_decode_64 (status_sig req)) 400;
  _u <-- guard (negb (GRANT_STATUS_SKEW_SECS <? abs_diff now (status_ts req))) 401;
  _u <-- guard (Verify.verify_holder_possession ask
    (Invitation.grant_status_signing_bytes channel pr digest (status_ts req)) sig) 401;
  owner <-- look (others 0%nat) (λ s, channel_owner s channel);
  match owner with
  | None => ret UnknownChannel
  | Some _ =>
    ok <-- look (others 1%nat) (λ s, holder_authorized s topology_authorizes channel ask);
    if negb ok then ret AskerNotMember
    else
      ok <-- look (others 2%nat) (λ s, holder_authorized s topology_authorizes channel pr);
      if negb ok then ret PeerNotMember
      else
        gone <-- look (others 3%nat) (λ s, is_grant_revoked s channel digest);
        ret (if gone : bool then GrantRevoked else GrantValid)
  end.

(** src/crates/control-plane/src/service.rs:4039-4070 [channel_grant_revoked]: the digests of
    the list that are revoked; [admin] is the outcome of the token check. *)
Definition channel_grant_revoked (others : nat → list Op) (admin : bool) (channel_hex : bytes)
    (digests : list bytes) : Handler (list bytes) :=
  _u <-- guard admin 401;
  _u <-- guard (length digests <=? 1024)%nat 400;
  channel <-- or_fail (Hex.decode_32 channel_hex) 400;
  ds <-- or_fail (mapM Hex.decode_32 digests) 400;
  (fix each (i : nat) (ds : list bytes) : Handler (list bytes) :=
     match ds with
     | [] => ret []
     | d :: ds =>
       gone <-- look (others i) (λ s, is_grant_revoked s channel d);
       out <-- each (S i) ds;
       ret (if gone : bool then Hex.encode d :: out else out)
     end) 0%nat ds.

(** ** Members, by the owner *)

(** src/crates/control-plane/src/service.rs:3476-3485 [MemberReq] *)
Record MemberReq := { member : bytes; member_key : bytes; member_attestation : bytes }.

(** src/crates/control-plane/src/service.rs:3487-3537 [channel_add_member]: [who] is the
    authenticated subject. *)
Definition channel_add_member (others : list Op) (who channel_hex : bytes) (req : MemberReq)
    : Handler () :=
  channel <-- or_fail (Hex.decode_32 channel_hex) 400;
  h <-- or_fail (Hex.decode_32 (member req)) 400;
  key <-- or_fail (Hex.decode_32 (member_key req)) 400;
  att <-- or_fail (hex_decode_64 (member_attestation req)) 400;
  _u <-- guard (Verify.verify_member_noise_attestation channel h key att) 400;
  ok <-- call others (λ s, add_member s channel who h key att);
  guard ok 403.

(** src/crates/control-plane/src/service.rs:3728-3756 [channel_remove_member] *)
Definition channel_remove_member (others : list Op) (who channel_hex holder_hex : bytes)
    : Handler () :=
  channel <-- or_fail (Hex.decode_32 channel_hex) 400;
  h <-- or_fail (Hex.decode_32 holder_hex) 400;
  ok <-- call others (λ s, remove_member s channel who h);
  guard ok 403.

(** src/crates/control-plane/src/service.rs:3549-3597 [channel_deposit_grant] *)
Definition channel_deposit_grant (others : list Op) (who channel_hex holder_hex grant : bytes)
    (now : N) : Handler () :=
  channel <-- or_fail (Hex.decode_32 channel_hex) 400;
  h <-- or_fail (Hex.decode_32 holder_hex) 400;
  let grant := to_ascii_lowercase (trim grant) in
  _u <-- guard ((length grant =? 278)%nat && forallb Hex.hex_digit grant) 400;
  _u <-- guard (bool_decide (slice 128 192 grant = to_ascii_lowercase channel_hex)) 400;
  _u <-- guard (bool_decide (slice 192 256 grant = to_ascii_lowercase holder_hex)) 400;
  outcome <-- call others (λ s, deposit_grant s channel who h grant now);
  match outcome with
  | Deposited => ret ()
  | NotOwner => fail 403
  | NotAMember => fail 404
  end.

(** src/crates/control-plane/src/service.rs:3327-3405 [channel_register]: the ledger and the
    channel store, for the authenticated subject; [drawn] are the bytes of a new account's id. *)
Definition channel_register (others : list Op) (l : LedgerStore.LedgerStore)
    (who channel_hex key_hex : bytes) (confirm_rekey : bool) (drawn : bytes) (s : ChannelStore)
    : Result () N * (LedgerStore.LedgerStore * ChannelStore) :=
  match Hex.decode_32 channel_hex, Hex.decode_32 key_hex with
  | Some channel, Some key =>
    match LedgerStore.account_for_subject l who drawn with
    | (Err _, l) => (Err 500, (l, s))
    | (Ok account, l) =>
      let max := LedgerStore.max_channels_of l account in
      let '(outcome, s) := register_channel_if_under_owned_limit
        (foldl (exec sha256 base64url) s others) channel key who max confirm_rekey in
      (match outcome with
       | Registered | Unchanged | Rekeyed _ => Ok ()
       | OperatorMismatch => Err 409
       | OwnedByAnother => Err 403
       | OverLimit => Err 403
       end, (l, s))
    end
  | _, _ => (Err 400, (l, s))
  end.

(** ** Claims *)

(** The session of a portal request: its subject and its verified e-mail. *)
Record Session := { session_subject : bytes; session_email : option bytes }.

(** src/crates/control-plane/src/portal_api.rs:8509-8558 [do_claim]: of a request with the
    three values in hex. *)
Definition do_claim (others : list Op) (claims : option Session)
    (channel_hex : bytes) (req : MemberReq) (now : N) : Handler () :=
  claims <-- or_fail claims 401;
  email <-- or_fail (session_email claims) 403;
  channel <-- or_fail (Hex.decode_32 channel_hex) 400;
  h <-- or_fail (Hex.decode_32 (member req)) 400;
  key <-- or_fail (Hex.decode_32 (member_key req)) 400;
  att <-- or_fail (hex_decode_64 (member_attestation req)) 400;
  _u <-- guard (Verify.verify_member_noise_attestation channel h key att) 400;
  claimed <-- call others
    (λ s, claim_via_allowlist s channel email h key att now (Some (session_subject claims)));
  match claimed with
  | Claimed => ret ()
  | NotAllowlisted => fail 403
  | HolderClaimedByAnother => fail 409
  end.

(** src/crates/control-plane/src/portal_api.rs:8707-8709 [claim_invite_token_is_well_formed] *)
Definition claim_invite_token_is_well_formed (token : bytes) : bool :=
  (length token =? 43)%nat
  && forallb (λ b, is_ascii_alphanumeric b || bool_decide (b = x2d) || bool_decide (b = x5f)) token.

(** src/crates/control-plane/src/portal_api.rs:8751-8776 [resolve_claim_invite] *)
Definition resolve_claim_invite (others : list Op) (token : bytes) (now : N)
    : Handler ClaimInvite :=
  _u <-- guard (claim_invite_token_is_well_formed token) 404;
  found <-- look others (λ s, claim_invite sha256 s token now);
  match found with
  | Valid invite => ret invite
  | Consumed => fail 410
  | InviteExpired => fail 410
  | Unknown => fail 404
  end.

(** What the confirmation answers: to the login page, or to the channel that was joined. *)
Inductive ConfirmResp := ToLogin | JoinedChannel (channel_hex : bytes).

(** src/crates/control-plane/src/portal_api.rs:8856-8910 [claim_invite_confirm]: [now] is the
    clock of the confirmation, [now_claim] that of the claim it runs. *)
Definition claim_invite_confirm (others : nat → list Op) (claims : option Session)
    (token : bytes) (now now_claim : N) : Handler ConfirmResp :=
  match claims with
  | None => ret ToLogin
  | Some session =>
    invite <-- resolve_claim_invite (others 0%nat) token now;
    email <-- or_fail (session_email session) 403;
    first <-- call (others 1%nat) (λ s, consume_claim_invite sha256 s token now);
    _u <-- guard first 410;
    listed <-- call (others 2%nat)
      (λ s, allowlist_add s (for_channel invite) (made_by invite) email now);
    _u <-- guard listed 404;
    let channel_hex := Hex.encode (for_channel invite) in
    _u <-- do_claim (others 3%nat) (Some session) channel_hex
      {| member := Hex.encode (for_holder invite);
         member_key := Hex.encode (for_noise_pubkey invite);
         member_attestation := Hex.encode (for_noise_attestation invite) |} now_claim;
    ret (JoinedChannel channel_hex)
  end.

(** No later mint draws a token with this hash. *)
Definition not_minted_again (hash : bytes) (os : list Op) : Prop :=
  Forall (λ o, ∀ c who h k a l now d,
    o = OpMint c who h k a l now d →
    claim_invite_token_hash sha256 (base64url d) ≠ hash) os.

Lemma claimed_rows s c email h key att now who s1 :
  claim_via_allowlist s c email h key att now (Some who) = (Claimed, s1) →
  allowlist_contains s c email = true ∧
  members s1 !! (c, h) = Some (pinned key att) ∧
  subjects s1 !! (c, h) = Some {| subject := who; subject_claimed_at := as_i64 now |} ∧
  invites s1 = invites s.
Proof.
  unfold claim_via_allowlist. case_match eqn:A; [done|]. case_match; [done|]. intros [= <-].
  bool_facts. cbn. rewrite !lookup_insert_eq. split_and!; try done.
  unfold allowlist_contains. by apply bool_decide_true.
Qed.

Lemma claim_invite_Valid s token now i :
  claim_invite sha256 s token now = Valid i →
  length (for_channel i) = 32%nat ∧ length (for_holder i) = 32%nat ∧
  length (for_noise_pubkey i) = 32%nat ∧ length (for_noise_attestation i) = 64%nat.
Proof.
  unfold claim_invite. destruct (invites s !! _) as [r|]; [|done]. do 2 (case_match; [done|]).
  destruct (as_array 32 (invite_channel r)) as [c|] eqn:A1; [|done].
  destruct (as_array 32 (invite_holder r)) as [h|] eqn:A2; [|done].
  destruct (as_array 32 (invite_noise_pubkey r)) as [k|] eqn:A3; [|done].
  destruct (as_array 64 (invite_noise_attestation r)) as [t|] eqn:A4; [|done].
  intros [= <-]. cbn. apply as_array_Some in A1 as [-> ?], A2 as [-> ?], A3 as [-> ?], A4 as [-> ?].
  done.
Qed.

Lemma do_claim_Ok others claims channel_hex req now s s1 :
  do_claim others claims channel_hex req now s = (Ok (), s1) →
  ∃ session email c h key att, claims = Some session ∧ session_email session = Some email ∧
    Hex.decode_32 channel_hex = Some c ∧ Hex.decode_32 (member req) = Some h ∧
    Hex.decode_32 (member_key req) = Some key ∧
    hex_decode_64 (member_attestation req) = Some att ∧
    Verify.verify_member_noise_attestation c h key att = true ∧
    claim_via_allowlist (foldl (exec sha256 base64url) s others) c email h key att now
      (Some (session_subject session)) = (Claimed, s1).
Proof.
  intros E. unfold do_claim in E.
  do 6 (apply hbind_Ok in E as (? & ? & E1 & E); apply or_fail_Ok in E1 as [? ->]).
  apply hbind_Ok in E as ([] & ? & E1 & E). apply guard_Ok in E1 as [V ->].
  apply hbind_Ok in E as (o & ? & C & E). apply call_Ok in C. cbn beta in C.
  destruct o; try done. injection E as <-. by eauto 15.
Qed.

Lemma confirm_Ok others claims token now now_claim s ch s1 :
  claim_invite_confirm others claims token now now_claim s = (Ok (JoinedChannel ch), s1) →
  ∃ session email i s2 s3, claims = Some session ∧ session_email session = Some email ∧
    claim_invite sha256 (foldl (exec sha256 base64url) s (others 0%nat)) token now = Valid i ∧
    consume_claim_invite sha256 (foldl (exec sha256 base64url) s (others 0%nat ++ others 1%nat))
      token now = (true, s2) ∧
    allowlist_add (foldl (exec sha256 base64url) s2 (others 2%nat)) (for_channel i) (made_by i)
      email now = (true, s3) ∧
    ch = Hex.encode (for_channel i) ∧
    do_claim (others 3%nat) claims ch
      {| member := Hex.encode (for_holder i); member_key := Hex.encode (for_noise_pubkey i);
         member_attestation := Hex.encode (for_noise_attestation i) |} now_claim s3 = (Ok (), s1).
Proof.
  intros E. unfold claim_invite_confirm in E. destruct claims as [session|]; [|done].
  apply hbind_Ok in E as (i & ? & R & E).
  unfold resolve_claim_invite in R. apply hbind_Ok in R as ([] & ? & G & R).
  apply guard_Ok in G as [_ ->]. apply hbind_Ok in R as (found & ? & L & R).
  apply look_Ok in L as [-> Hf]. destruct found as [i'| | |]; try done. injection R as -> <-.
  apply hbind_Ok in E as (email & ? & E1 & E). apply or_fail_Ok in E1 as [He ->].
  apply hbind_Ok in E as (first & s2 & C & E). apply call_Ok in C. cbn beta in C.
  apply hbind_Ok in E as ([] & ? & G & E). apply guard_Ok in G as [-> ->].
  apply hbind_Ok in E as (listed & s3 & A & E). apply call_Ok in A. cbn beta in A.
  apply hbind_Ok in E as ([] & ? & G & E). apply guard_Ok in G as [-> ->].
  apply hbind_Ok in E as ([] & ? & D & E). injection E as <- <-.
  exists session, email, i, s2, s3. rewrite foldl_app. by split_and!.
Qed.

(** a claim invitation is used once, by the account that confirms it. When a confirmation joins
    a channel, the token was open and unexpired, its Noise key is attested by its holder, and
    the session's subject now has the claim of exactly the invitation's holder and key. No
    later confirmation of the token joins anything, whoever sends it and whatever other
    requests run, unless the same token is minted again. *)
Theorem claim_invite_confirmed_once others claims token now now_claim s ch s1 :
  claim_invite_confirm others claims token now now_claim s = (Ok (JoinedChannel ch), s1) →
  (∃ session email i key att,
     let c := for_channel i in let h := for_holder i in
     claims = Some session ∧ session_email session = Some email ∧
     claim_invite sha256 (foldl (exec sha256 base64url) s (others 0%nat)) token now = Valid i ∧
     Hex.decode_32 ch = Some c ∧ Verify.verify_member_noise_attestation c h key att = true ∧
     key = for_noise_pubkey i ∧ members s1 !! (c, h) = Some (pinned key att) ∧
     subject <$> subjects s1 !! (c, h) = Some (session_subject session)) ∧
  ∀ os others' claims' t t' ch',
    not_minted_again (claim_invite_token_hash sha256 token)
      (others 2%nat ++ others 3%nat ++ os ++ others' 0%nat) →
    (claim_invite_confirm others' claims' token t t' (foldl (exec sha256 base64url) s1 os)).1
      ≠ Ok (JoinedChannel ch').
Proof.
  intros E. apply confirm_Ok in E as (session & email & i & s2 & s3 & -> & He & V & C & A & -> & D).
  destruct (claim_invite_Valid _ _ _ _ V) as (L1 & L2 & L3 & L4).
  apply do_claim_Ok in D as (session' & email' & c & h & key & att & [= <-] & He' & Dc & Dh & Dk &
    Da & At & Cl). cbn [member member_key member_attestation] in *.
  rewrite decode_32_encode in Dc, Dh, Dk by done. rewrite hex_decode_64_encode in Da by done.
  injection Dc as <-. injection Dh as <-. injection Dk as <-. injection Da as <-.
  apply claimed_rows in Cl as (_ & M & S & I). split.
  - exists session, email, i, (for_noise_pubkey i), (for_noise_attestation i). cbn zeta.
    split_and!; try done; [by apply decode_32_encode|]. by rewrite S.
  - intros os others' claims' t t' ch' N E.
    destruct (claim_invite_confirm _ _ _ _ _ _) as [r s'] eqn:E'. cbn in E. subst r.
    apply confirm_Ok in E' as (_ & _ & i' & _ & _ & _ & _ & V' & _).
    assert (closed (claim_invite_token_hash sha256 token)
      (foldl (exec sha256 base64url) (foldl (exec sha256 base64url) s1 os) (others' 0%nat))) as K.
    2: { by apply (proj2 (closed_refused sha256 _ _ t K) i'). }
    unfold not_minted_again in N. rewrite !Forall_app in N. destruct N as (N2 & N3 & N4 & N5).
    rewrite <- foldl_app. apply closed_run; [|by apply Forall_app].
    unfold closed. rewrite I. apply closed_run; [|done].
    assert (invites s3 = invites (foldl (exec sha256 base64url) s2 (others 2%nat))) as E3.
    { unfold allowlist_add in A. case_match; [done|]. by injection A as <-. }
    unfold closed. rewrite E3. apply closed_run; [|done]. by eapply consumed_closed.
Qed.

(** What a member that leaves does: exactly the owner's removal of itself. *)
Theorem leave_only_oneself others channel_hex req now s s1 :
  channel_leave_signed others channel_hex req now s = (Ok (), s1) →
  ∃ c h sig who,
    let s0 := foldl (exec sha256 base64url) s (others 0%nat ++ others 1%nat ++ others 2%nat) in
    Hex.decode_32 channel_hex = Some c ∧ Hex.decode_32 (leaver req) = Some h ∧
    hex_decode_64 (leave_sig req) = Some sig ∧
    abs_diff now (leave_ts req) <= GRANT_STATUS_SKEW_SECS ∧
    sig_verify h (Invitation.channel_leave_signing_bytes c h (leave_ts req)) sig = true ∧
    is_owner s0 c who = true ∧ remove_member s0 c who h = (true, s1).
Proof.
  intros E. unfold channel_leave_signed in E.
  apply hbind_Ok in E as (c & ? & E1 & E). apply or_fail_Ok in E1 as [Dc ->].
  apply hbind_Ok in E as (h & ? & E1 & E). apply or_fail_Ok in E1 as [Dh ->].
  apply hbind_Ok in E as (sig & ? & E1 & E). apply or_fail_Ok in E1 as [Ds ->].
  apply hbind_Ok in E as ([] & ? & G & E). apply guard_Ok in G as [Sk ->].
  apply hbind_Ok in E as ([] & ? & G & E). apply guard_Ok in G as [V ->].
  apply hbind_Ok in E as (k & ? & L & E). apply look_Ok in L as [-> ->].
  apply hbind_Ok in E as (k & ? & L & E). apply or_fail_Ok in L as [_ ->].
  apply hbind_Ok in E as (o & ? & L & E). apply look_Ok in L as [-> ->].
  apply hbind_Ok in E as (who & ? & L & E). apply or_fail_Ok in L as [_ ->].
  apply hbind_Ok in E as (left & ? & R & E). apply call_Ok in R. cbn beta in R.
  apply guard_Ok in E as [-> ->]. rewrite <- !foldl_app in R.
  exists c, h, sig, who. cbn zeta. bool_facts. split_and!; try done.
  unfold remove_member in R. by destruct (is_owner _ _ _).
Qed.

(** The answer to a status request, as a table. *)
Definition status_of (s : ChannelStore) (topology : bytes → bytes → bool) (c ask pr digest : bytes)
    : GrantState :=
  if bool_decide (channel_owner s c = None) then UnknownChannel
  else if negb (is_member s c ask && bool_decide (is_Some (operator_pubkey s c)) || topology c ask)
  then AskerNotMember
  else if negb (is_member s c pr && bool_decide (is_Some (operator_pubkey s c)) || topology c pr)
  then PeerNotMember
  else if is_grant_revoked s c digest then GrantRevoked else GrantValid.

Lemma holder_authorized_eq s topology c h :
  holder_authorized s topology c h
  = is_member s c h && bool_decide (is_Some (operator_pubkey s c)) || topology c h.
Proof.
  unfold holder_authorized, authorize_holder, is_member, operator_pubkey.
  destruct (channels s !! c) as [r|]; cbn.
  - destruct (members s !! (c, h)); cbn; [|done]. by destruct (as_array 32 (operator r)).
  - by rewrite andb_false_r.
Qed.

(** A status request that nobody interferes with changes nothing, and is answered from the table
    when the asker proves possession of its key in time. *)
Theorem grant_status_exact topology req now s c ask pr digest sig :
  Hex.decode_32 (status_channel req) = Some c → Hex.decode_32 (asker req) = Some ask →
  Hex.decode_32 (peer req) = Some pr → Hex.decode_32 (status_digest req) = Some digest →
  hex_decode_64 (status_sig req) = Some sig →
  channel_grant_status (λ _, []) topology req now s =
    (if negb (GRANT_STATUS_SKEW_SECS <? abs_diff now (status_ts req))
        && sig_verify ask (Invitation.grant_status_signing_bytes c pr digest (status_ts req)) sig
     then Ok (status_of s topology c ask pr digest) else Err 401, s).
Proof.
  intros E1 E2 E3 E4 E5. unfold channel_grant_status, hbind, or_fail.
  rewrite E1, E2, E3, E4, E5. cbn [ret]. unfold guard, Verify.verify_holder_possession.
  unfold status_of. rewrite <- !holder_authorized_eq. cbn.
  destruct (negb (_ <? _)); cbn; [|done]. destruct (sig_verify _ _ _); cbn; [|done].
  destruct (channel_owner s c); cbn; [|done].
  destruct (holder_authorized s topology c ask); cbn; [|done].
  destruct (holder_authorized s topology c pr); cbn; [|done].
  by destruct (is_grant_revoked s c digest).
Qed.

(** The edge's query lists exactly the revoked ones of the digests it asks about. *)
Theorem grant_revoked_exact channel_hex digests s c ds :
  Hex.decode_32 channel_hex = Some c → mapM Hex.decode_32 digests = Some ds →
  (length digests <= 1024)%nat →
  channel_grant_revoked (λ _, []) true channel_hex digests s =
    (Ok (Hex.encode <$> filter (λ d, is_grant_revoked s c d = true) ds), s).
Proof.
  intros E1 E2 L. unfold channel_grant_revoked, hbind, guard, or_fail.
  rewrite (proj2 (Nat.leb_le _ _) L), E1, E2. cbn. clear E2. generalize 0%nat.
  induction ds as [|d ds IH]; intros i; [done|]. cbn. rewrite IH.
  destruct (is_grant_revoked s c d) eqn:G; cbn.
  - by rewrite decide_True.
  - by rewrite decide_False.
Qed.

(** the quota of an account binds its registrations. A registration that succeeds gives the
    owner at most one channel more, and only below the account's own channel limit; every
    refusal, re-registration and re-keying leaves the owner's number of channels as it was. *)
Theorem register_respects_quota others l who channel_hex key_hex rekey drawn s res l' s' :
  channel_register others l who channel_hex key_hex rekey drawn s = (res, (l', s')) →
  let s0 := foldl (exec sha256 base64url) s others in
  s' = s ∨
  owned_count s' who = owned_count s0 who ∨
  (res = Ok () ∧ owned_count s' who = owned_count s0 who + 1 ∧
   ∃ account, LedgerStore.account_for_subject l who drawn = (Ok account, l') ∧
     owned_count s' who <= LedgerStore.max_channels_of l' account).
Proof.
  intros E s0. unfold channel_register in E.
  destruct (Hex.decode_32 channel_hex) as [c|]; [|injection E; auto].
  destruct (Hex.decode_32 key_hex) as [k|]; [|injection E; auto].
  destruct (LedgerStore.account_for_subject l who drawn) as [[a|e] l1] eqn:A; [|injection E; auto].
  destruct (register_channel_if_under_owned_limit _ _ _ _ _ _) as [o s1] eqn:R.
  injection E as <- <- <-. right.
  pose proof R as R'. unfold register_channel_if_under_owned_limit in R'.
  destruct (channels s0 !! c) as [row|] eqn:Ec; fold s0 in R'; rewrite Ec in R'.
  - left. repeat case_match; injection R' as <- <-; try done;
      rewrite !owned_count_sum; cbn; by apply sum_update_same.
  - case_match eqn:L; injection R' as <- <-; [by left|]. bool_facts. right.
    assert (owned_count (set_channels (<[c := {| operator := k; owner := who |}]> (channels s0)) s0)
              who = owned_count s0 who + 1) as ->.
    { rewrite !owned_count_sum. cbn. rewrite sum_insert_new by done. unfold owns at 1. cbn.
      rewrite bool_decide_true by done. lia. }
    split_and!; [done|done|]. exists a. split; [done|lia].
Qed.

End gate.

(** ** Concrete runs *)

Definition quiet : nat → list Op := λ _, [].

(** The operator of [demo]'s channel invites identity 20; it asks for holder [h]. *)
Definition demo_inv : Invitation.SignedChannelInvitation :=
  {| Invitation.invitation :=
       {| Invitation.channel := demo_id x01; Invitation.invitee_identity := demo_id x20;
          Invitation.direction := Direction.Both; Invitation.rights := Rights.ReadWrite;
          Invitation.delegable := false; Invitation.expires_at := 1000 |};
     Invitation.signature := replicate 64 xaa |}.
Definition demo_req (h : byte) : InviteRedeemReq :=
  {| invitation := Hex.encode (Invitation.encode demo_inv);
     redeem_sig := Hex.encode (replicate 64 x20); holder := Hex.encode (demo_id h);
     noise_pubkey := Hex.encode (demo_id x31); noise_attestation := Hex.encode (replicate 64 h);
     challenge := None |}.

Definition demo_redeem (others : nat → list Op) (h : byte) (now : N) (s : ChannelStore)
    : Result () N * ChannelStore :=
  @channel_invite_redeem Toy.ed25519 demo_sha Hex.encode others (demo_req h) now s.

Lemma demo_carried h : carried (demo_req h) = Some demo_inv.
Proof. vm_compute. reflexivity. Qed.

Example demo_redemption :
  let '(r, s1) := demo_redeem quiet x30 50 demo in
  r = Ok () ∧ is_member s1 (demo_id x01) (demo_id x30) = true.
Proof. vm_compute. done. Qed.

(** Between the check of the invitation and the write, the channel can change hands: an
    invitation of the old operator then admits to the channel of the new one. *)
Definition change_of_hands : nat → list Op := λ i,
  if (i =? 3)%nat
  then [OpDelete (lit "alice") (demo_id x01);
        OpRegister (demo_id x01) (demo_id xcc) (lit "carol") 5 false]
  else [].

Example redemption_crosses_owners :
  let '(r, s1) := demo_redeem change_of_hands x30 50 demo in
  r = Ok () ∧ channel_owner s1 (demo_id x01) = Some (lit "carol") ∧
  authorize_holder s1 (demo_id x01) (demo_id x30) = Some (demo_id xcc).
Proof. vm_compute. done. Qed.

Lemma invitation_admits_once_witness :
  let s1 := (demo_redeem quiet x30 50 demo).2 in
  let s2 := (remove_member s1 (demo_id x01) (lit "alice") (demo_id x30)).2 in
  (demo_redeem quiet x30 60 s2).1 ≠ Ok ().
Proof.
  intros s1 s2.
  destruct (@invitation_admits_once Toy.ed25519 demo_sha Hex.encode quiet (demo_req x30) 50 demo s1)
    as (signed & h & key & att & op & [C _] & K); [vm_compute; reflexivity|].
  assert (signed = demo_inv) as -> by (rewrite demo_carried in C; by injection C).
  apply (K [OpRemove (demo_id x01) (lit "alice") (demo_id x30)] quiet (demo_req x30) 60).
  - apply demo_carried.
  - reflexivity.
  - right. vm_compute. repeat constructor; discriminate.
Defined.

(** A token of 43 characters, minted for holder 30, and the session that confirms it. *)
Definition demo_token : bytes := replicate 43 x41.
Definition demo_minted : ChannelStore :=
  (mint_claim_invite demo_sha (λ _, demo_token) demo (demo_id x01) (lit "alice") (demo_id x30)
     (demo_id x31) (replicate 64 x30) None 40 (demo_id x77)).2.
Definition demo_session (who : bytes) : Session :=
  {| session_subject := who; session_email := Some (who ++ lit "@example.org") |}.
Definition demo_confirm (who : bytes) (s : ChannelStore) : Result ConfirmResp N * ChannelStore :=
  @claim_invite_confirm Toy.ed25519 demo_sha Hex.encode quiet (Some (demo_session who))
    demo_token 50 50 s.

Lemma claim_invite_confirmed_once_witness :
  let '(r, s1) := demo_confirm (lit "dora") demo_minted in
  r = Ok (JoinedChannel (Hex.encode (demo_id x01))) ∧
  subject <$> subjects s1 !! (demo_id x01, demo_id x30) = Some (lit "dora") ∧
  (demo_confirm (lit "eve") s1).1 ≠ Ok (JoinedChannel (Hex.encode (demo_id x01))).
Proof.
  destruct (demo_confirm (lit "dora") demo_minted) as [r s1] eqn:E.
  assert (r = Ok (JoinedChannel (Hex.encode (demo_id x01)))) as ->.
  { change r with (r, s1).1. rewrite <- E. vm_compute. reflexivity. }
  split; [done|]. split.
  - change s1 with (Ok (JoinedChannel (Hex.encode (demo_id x01))) : Result ConfirmResp N, s1).2.
    rewrite <- E. vm_compute. reflexivity.
  - apply (proj2 (@claim_invite_confirmed_once Toy.ed25519 demo_sha Hex.encode quiet _ _ _ _ _ _ _ E)
             [] quiet). constructor.
Defined.

Lemma register_respects_quota_witness :
  let '(r, (l, s)) := channel_register demo_sha Hex.encode [] LedgerStore.empty (lit "alice")
    (Hex.encode (demo_id x40)) (Hex.encode (demo_id xaa)) false (demo_id x50) demo in
  r = Ok () ∧ ∃ account, owned_count s (lit "alice") <= LedgerStore.max_channels_of l account.
Proof.
  destruct (channel_register _ _ _ _ _ _ _ _ _ _) as [r [l s]] eqn:E.
  assert (r = Ok () ∧ owned_count s (lit "alice") = 2) as [-> O].
  { assert ((r, (l, s)).1 = Ok () ∧ owned_count (r, (l, s)).2.2 (lit "alice") = 2) as H; [|exact H].
    rewrite <- E. vm_compute. split; reflexivity. }
  split; [reflexivity|].
  destruct (register_respects_quota _ _ _ _ _ _ _ _ _ _ _ _ _ E) as [->|[H|(_ & _ & a & _ & H)]].
  - vm_compute in O. discriminate O.
  - rewrite O in H. vm_compute in H. discriminate H.
  - exists a. exact H.
Defined.
