(* ===== verification/SockAddr.v ===== *)
(** * Socket addresses in text, and reachability classes

    [SockAddr] is what the code uses of the standard library's [SocketAddr]: [parse] (the
    recursive-descent parser of [core::net]) and [to_string]. [Classify] is the part of
    [crates/common/src/channel.rs] and [crates/edge/src/channel_broker.rs] that judges an
    advertised address: the reachability class, the admission filter and its attestation by
    the address the edge observed. *)

From S2P Require Import Prelude RustStd Maps Interfaces Codec Channels Reach.

Module SockAddr.
Import Address.

(** A reader of [core::net::Parser]: [None] is a failure that consumes nothing. *)
Definition Reader (A : Type) : Type := bytes → option (A * bytes).

(** [read_given_char] *)
Definition given (c : byte) : Reader () := λ s,
  match s with
  | b :: r => if bool_decide (b = c) then Some ((), r) else None
  | [] => None
  end.

(** [read_separator]: the separator before every item but the first. *)
Definition separated {A} (sep : byte) (index : nat) (inner : Reader A) : Reader A := λ s,
  match index with
  | O => inner s
  | S _ => match given sep s with Some (_, r) => inner r | None => None end
  end.

(** [char::to_digit] for radix 10 and 16. *)
Definition to_digit (radix : N) (b : byte) : option N :=
  let n := N_of_byte b in
  let v := if is_digit b then Some (n - 48)
           else if is_lower b then Some (n - 87)
           else if is_upper b then Some (n - 55) else None in
  match v with Some d => if d <? radix then Some d else None | None => None end.

Fixpoint span_digits (radix : N) (s : bytes) : list N * bytes :=
  match s with
  | [] => ([], [])
  | b :: r =>
    match to_digit radix b with
    | Some d => let '(ds, rest) := span_digits radix r in (d :: ds, rest)
    | None => ([], s)
    end
  end.

Definition value (radix : N) (ds : list N) : N := foldl (λ a d, a * radix + d) 0 ds.

(** [read_number]: the digits in front, at most [max_digits] of them, without a superfluous
    zero unless allowed, with a value below [bound]. *)
Definition number (radix : N) (max_digits : option nat) (allow_zero_prefix : bool) (bound : N)
    : Reader N := λ s,
  let '(ds, rest) := span_digits radix s in
  let too_long := match max_digits with Some m => (m <? length ds)%nat | None => false end in
  let zero_prefix := match ds with 0 :: _ :: _ => negb allow_zero_prefix | _ => false end in
  if (length ds =? 0)%nat || too_long || zero_prefix then None
  else if value radix ds <? bound then Some (value radix ds, rest) else None.

Definition octet : Reader N := number 10 (Some 3%nat) false 256.

(** [read_ipv4_addr] *)
Definition ipv4 : Reader Ipv4Addr := λ s,
  match octet s with
  | Some (a, s) =>
    match separated "."%byte 1 octet s with
    | Some (b, s) =>
      match separated "."%byte 2 octet s with
      | Some (c, s) =>
        match separated "."%byte 3 octet s with
        | Some (d, s) => Some (V4 a b c d, s)
        | None => None
        end
      | None => None
      end
    | None => None
    end
  | None => None
  end.

(** [read_groups]: up to [left] groups, the last two of which may be written as an IPv4
    address; the flag says that they were. *)
Fixpoint groups (left index : nat) (s : bytes) : list N * bool * bytes :=
  match left with
  | O => ([], false, s)
  | S left' =>
    match (if (left' =? 0)%nat then None else separated ":"%byte index ipv4 s) with
    | Some (V4 a b c d, r) => ([a * 256 + b; c * 256 + d], true, r)
    | None =>
      match separated ":"%byte index (number 16 (Some 4%nat) true 65536) s with
      | Some (g, r) => let '(gs, v4, rest) := groups left' (S index) r in (g :: gs, v4, rest)
      | None => ([], false, s)
      end
    end
  end.

Definition v6_of (l : list N) : Ipv6Addr :=
  V6 (nth 0 l 0) (nth 1 l 0) (nth 2 l 0) (nth 3 l 0) (nth 4 l 0) (nth 5 l 0) (nth 6 l 0)
     (nth 7 l 0).

(** [read_ipv6_addr] *)
Definition ipv6 : Reader Ipv6Addr := λ s,
  let '(head, head_ipv4, r) := groups 8 0 s in
  if (length head =? 8)%nat then Some (v6_of head, r)
  else if head_ipv4 then None
  else match given ":"%byte r with
       | Some (_, r) =>
         match given ":"%byte r with
         | Some (_, r) =>
           let '(tail, _, r) := groups (8 - (length head + 1)) 0 r in
           Some (v6_of (head ++ repeat 0 (8 - length head - length tail) ++ tail), r)
         | None => None
         end
       | None => None
       end.

(** [read_port], [read_scope_id] *)
Definition read_port : Reader N := λ s,
  match given ":"%byte s with Some (_, r) => number 10 None true 65536 r | None => None end.
Definition read_scope : Reader N := λ s,
  match given "%"%byte s with Some (_, r) => number 10 None true U32 r | None => None end.

Definition socket_v4 : Reader SocketAddr := λ s,
  match ipv4 s with
  | Some (a, r) =>
    match read_port r with
    | Some (p, r) => Some ({| ip := Ip4 a; port := p; flowinfo := 0; scope_id := 0 |}, r)
    | None => None
    end
  | None => None
  end.

Definition socket_v6 : Reader SocketAddr := λ s,
  match given "["%byte s with
  | Some (_, r) =>
    match ipv6 r with
    | Some (a, r) =>
      let '(scope, r) := match read_scope r with Some x => x | None => (0, r) end in
      match given "]"%byte r with
      | Some (_, r) =>
        match read_port r with
        | Some (p, r) => Some ({| ip := Ip6 a; port := p; flowinfo := 0; scope_id := scope |}, r)
        | None => None
        end
      | None => None
      end
    | None => None
    end
  | None => None
  end.

(** [str::parse::<SocketAddr>]: everything must be consumed. *)
Definition parse (s : bytes) : option SocketAddr :=
  match (match socket_v4 s with Some x => Some x | None => socket_v6 s end) with
  | Some (a, []) => Some a
  | _ => None
  end.

(** ** [to_string] *)

Definition show_v4 (a : Ipv4Addr) : bytes :=
  decimal (o0 a) ++ lit "." ++ decimal (o1 a) ++ lit "." ++ decimal (o2 a) ++ lit "." ++
  decimal (o3 a).

Definition hex_digit (n : N) : byte := byte_of_N (if n <? 10 then 48 + n else 87 + n).

(** [{:x}] of a 16-bit group. *)
Definition show_group (g : N) : bytes :=
  if g <? 16 then [hex_digit g]
  else if g <? 256 then [hex_digit (g / 16); hex_digit (g mod 16)]
  else if g <? 4096 then [hex_digit (g / 256); hex_digit (g / 16 mod 16); hex_digit (g mod 16)]
  else [hex_digit (g / 4096); hex_digit (g / 256 mod 16); hex_digit (g / 16 mod 16);
        hex_digit (g mod 16)].

Definition segments (a : Ipv6Addr) : list N :=
  [s0 a; s1 a; s2 a; s3 a; s4 a; s5 a; s6 a; s7 a].

(** The first longest run of zero groups: its start and length. *)
Fixpoint zero_run (l : list N) (i : nat) (current longest : nat * nat) : nat * nat :=
  match l with
  | [] => longest
  | g :: r =>
    if g =? 0 then
      let current := ((if (current.2 =? 0)%nat then i else current.1), S current.2) in
      zero_run r (S i) current (if (longest.2 <? current.2)%nat then current else longest)
    else zero_run r (S i) (O, O) longest
  end.

Definition show_groups (l : list N) : bytes := RustStd.join (lit ":") (map show_group l).

Definition show_v6 (a : Ipv6Addr) : bytes :=
  match to_ipv4_mapped a with
  | Some v4 => lit "::ffff:" ++ show_v4 v4
  | None =>
    let l := segments a in
    let '(start, len) := zero_run l 0 (O, O) (O, O) in
    if (1 <? len)%nat
    then show_groups (take start l) ++ lit "::" ++ show_groups (drop (start + len) l)
    else show_groups l
  end.

Definition show_ip (i : IpAddr) : bytes :=
  match i with Ip4 a => show_v4 a | Ip6 a => show_v6 a end.

Definition show (a : SocketAddr) : bytes :=
  match ip a with
  | Ip4 v4 => show_v4 v4 ++ lit ":" ++ decimal (port a)
  | Ip6 v6 =>
    lit "[" ++ show_v6 v6 ++
    (if scope_id a =? 0 then [] else lit "%" ++ decimal (scope_id a)) ++ lit "]:" ++
    decimal (port a)
  end.

(** ** The parser reads what is shown *)

(** The digits of a decimal number. *)
Fixpoint digits (d : Decimal.uint) : list N :=
  match d with
  | Decimal.Nil => []
  | Decimal.D0 l => 0 :: digits l | Decimal.D1 l => 1 :: digits l | Decimal.D2 l => 2 :: digits l
  | Decimal.D3 l => 3 :: digits l | Decimal.D4 l => 4 :: digits l | Decimal.D5 l => 5 :: digits l
  | Decimal.D6 l => 6 :: digits l | Decimal.D7 l => 7 :: digits l | Decimal.D8 l => 8 :: digits l
  | Decimal.D9 l => 9 :: digits l
  end.

Definition digit_byte (k : N) : byte := byte_of_N (48 + k).

Lemma text_of_digits d :
  String.list_byte_of_string (DecimalString.NilEmpty.string_of_uint d) = map digit_byte (digits d).
Proof.
  induction d as [|d IH|d IH|d IH|d IH|d IH|d IH|d IH|d IH|d IH|d IH]; [reflexivity|..];
    (apply (f_equal2 cons); [reflexivity|exact IH]).
Qed.

Lemma span_digit_bytes d : span_digits 10 (map digit_byte (digits d)) = (digits d, []).
Proof.
  induction d as [|d IH|d IH|d IH|d IH|d IH|d IH|d IH|d IH|d IH|d IH];
    cbn [digits map span_digits]; [done|..]; rewrite IH; reflexivity.
Qed.

Lemma of_uint_acc_digits d acc :
  N.pos (Pos.of_uint_acc d acc) = foldl (λ a d, a * 10 + d) (N.pos acc) (digits d).
Proof.
  revert acc. induction d as [|d IH|d IH|d IH|d IH|d IH|d IH|d IH|d IH|d IH|d IH]; intros acc;
    cbn [Pos.of_uint_acc digits foldl]; [done|..]; rewrite IH; f_equal; lia.
Qed.

Lemma of_uint_digits d : Pos.of_uint d = value 10 (digits d).
Proof.
  unfold value. induction d as [|d IH|d IH|d IH|d IH|d IH|d IH|d IH|d IH|d IH|d IH];
    cbn [Pos.of_uint digits foldl]; [done|exact IH|..]; rewrite of_uint_acc_digits; reflexivity.
Qed.

Lemma to_uint_no_zero_prefix n :
  match digits (N.to_uint n) with [] => False | 0 :: _ :: _ => False | _ => True end.
Proof.
  pose proof (DecimalN.Unsigned.to_of (N.to_uint n)) as E. rewrite DecimalN.Unsigned.of_to in E.
  rewrite E. clear E. unfold Decimal.unorm.
  induction (N.to_uint n) as [|d IH|d IH|d IH|d IH|d IH|d IH|d IH|d IH|d IH|d IH];
    cbn [Decimal.nzhead]; [exact Logic.I|exact IH|..]; cbn; by destruct (digits d).
Qed.

(** [decimal n] as the parser sees it. *)
Lemma span_decimal n :
  ∃ ds, span_digits 10 (decimal n) = (ds, []) ∧ value 10 ds = n ∧
    match ds with [] => False | 0 :: _ :: _ => False | _ => True end.
Proof.
  exists (digits (N.to_uint n)). pose proof (to_uint_no_zero_prefix n) as Z. split_and!; [| |done].
  - unfold decimal, DecimalString.NilZero.string_of_uint.
    destruct (N.to_uint n) eqn:E; [done|..]; rewrite <- E, text_of_digits; apply span_digit_bytes.
  - rewrite <- of_uint_digits. apply DecimalN.Unsigned.of_to.
Qed.

Lemma octets_short :
  forallb (λ n, (length (span_digits 10 (decimal n)).1 <=? 3)%nat) (map N.of_nat (seq 0 256)) = true.
Proof. vm_compute. reflexivity. Qed.

Lemma forallb_below (P : N → bool) (m n : N) :
  forallb P (map N.of_nat (seq 0 (N.to_nat m))) = true → n < m → P n = true.
Proof.
  intros F L. rewrite forallb_forall in F. apply F. apply in_map_iff.
  exists (N.to_nat n). split; [lia|]. apply in_seq. lia.
Qed.

Lemma span_digits_app radix s ds r :
  span_digits radix s = (ds, []) →
  match r with b :: _ => to_digit radix b = None | [] => True end →
  span_digits radix (s ++ r) = (ds, r).
Proof.
  revert ds. induction s as [|b s IH]; intros ds; cbn [span_digits app].
  - intros [= <-] Hr. destruct r as [|b r]; [done|]. cbn [span_digits]. by rewrite Hr.
  - destruct (to_digit radix b) as [d|] eqn:D; [|done].
    destruct (span_digits radix s) as [ds' r'] eqn:S. intros [= <- ->] Hr.
    by rewrite (IH ds').
Qed.

(** A decimal number below [bound], followed by no digit, is read whole. *)
Lemma number_decimal max zero bound n r :
  n < bound →
  match max with Some m => (3 <= m)%nat ∧ bound <= 256 | None => True end →
  match r with b :: _ => to_digit 10 b = None | [] => True end →
  number 10 max zero bound (decimal n ++ r) = Some (n, r).
Proof.
  intros Hn Hm Hr.
  assert (L : bound <= 256 → (length (span_digits 10 (decimal n)).1 <= 3)%nat).
  { intros. apply Nat.leb_le. apply (forallb_below _ 256 n octets_short). lia. }
  destruct (span_decimal n) as (ds & S & V & Z). unfold number. rewrite S in L. cbn [fst] in L.
  rewrite (span_digits_app 10 (decimal n) ds r) by done. rewrite V.
  assert (T : match max with Some m => (m <? length ds)%nat | None => false end = false).
  { destruct max as [m|]; [|done]. apply Nat.ltb_ge. destruct Hm. specialize (L ltac:(done)). lia. }
  rewrite T, (proj2 (N.ltb_lt n bound)) by done.
  destruct ds as [|[|d] [|d' ds]]; done.
Qed.

Lemma octet_decimal n r :
  n < 256 → match r with b :: _ => to_digit 10 b = None | [] => True end →
  octet (decimal n ++ r) = Some (n, r).
Proof. intros. apply number_decimal; (done || lia). Qed.

Lemma separated_octet n i r :
  n < 256 → match r with b :: _ => to_digit 10 b = None | [] => True end →
  separated "."%byte (S i) octet (lit "." ++ decimal n ++ r) = Some (n, r).
Proof. intros. cbn. by apply octet_decimal. Qed.

Lemma ipv4_show a r :
  ipv4_ok a → match r with b :: _ => to_digit 10 b = None | [] => True end →
  ipv4 (show_v4 a ++ r) = Some (a, r).
Proof.
  intros (H0 & H1 & H2 & H3) Hr. unfold ipv4, show_v4. rewrite <- !app_assoc.
  rewrite octet_decimal, !separated_octet by done. by destruct a.
Qed.

Lemma given_self c r : given c (c :: r) = Some ((), r).
Proof. cbn. by rewrite bool_decide_true. Qed.

(** An IPv4 socket address survives being written and parsed. *)
Lemma parse_show_v4 a p :
  ipv4_ok a → p < 65536 →
  parse (show {| ip := Ip4 a; port := p; flowinfo := 0; scope_id := 0 |}) =
  Some {| ip := Ip4 a; port := p; flowinfo := 0; scope_id := 0 |}.
Proof.
  intros Ha Hp. unfold parse, socket_v4, show. cbn [ip port].
  rewrite ipv4_show by done. unfold read_port.
  change (lit ":" ++ decimal p) with (":"%byte :: decimal p). rewrite given_self.
  rewrite <- (app_nil_r (decimal p)). by rewrite number_decimal.
Qed.

(** *** IPv6 *)

Definition not_digit (radix : N) (r : bytes) : Prop :=
  match r with b :: _ => to_digit radix b = None | [] => True end.

Lemma to_digit_10_16 b : to_digit 16 b = None → to_digit 10 b = None.
Proof.
  unfold to_digit. destruct (if is_digit b then _ else _) as [d|]; [|done].
  destruct (N.ltb_spec d 16); [done|]. intros _. destruct (N.ltb_spec d 10); [lia|done].
Qed.

Lemma to_digit_hex n : n < 16 → to_digit 16 (hex_digit n) = Some n.
Proof.
  intros H. assert (F : forallb (λ n, bool_decide (to_digit 16 (hex_digit n) = Some n))
                          (map N.of_nat (seq 0 16)) = true) by (vm_compute; reflexivity).
  pose proof (forallb_below _ 16 n F H) as E. by apply bool_decide_eq_true in E.
Qed.

(** The digits of a group. *)
Definition nibbles (g : N) : list N :=
  if g <? 16 then [g]
  else if g <? 256 then [g / 16; g mod 16]
  else if g <? 4096 then [g / 256; g / 16 mod 16; g mod 16]
  else [g / 4096; g / 256 mod 16; g / 16 mod 16; g mod 16].

Lemma show_group_nibbles g : show_group g = map hex_digit (nibbles g).
Proof. unfold show_group, nibbles. by repeat destruct (_ <? _). Qed.

Lemma nibbles_ok g :
  g < 65536 → Forall (λ n, n < 16) (nibbles g) ∧ value 16 (nibbles g) = g ∧
  (0 < length (nibbles g) <= 4)%nat.
Proof.
  intros H. unfold nibbles, value.
  repeat match goal with |- context [?a <? ?b] => destruct (N.ltb_spec a b) end;
    cbn [foldl length]; split_and!; try (repeat first [apply Forall_nil_2|apply Forall_cons_2]);
    zify; Z.to_euclidean_division_equations; lia.
Qed.

Lemma span_nibbles l : Forall (λ n, n < 16) l → span_digits 16 (map hex_digit l) = (l, []).
Proof.
  induction 1 as [|n l H _ IH]; [done|]. cbn [map span_digits]. by rewrite to_digit_hex, IH.
Qed.

Lemma number_group g r :
  g < 65536 → not_digit 16 r → number 16 (Some 4%nat) true 65536 (show_group g ++ r) = Some (g, r).
Proof.
  intros Hg Hr. destruct (nibbles_ok g Hg) as (F & V & L0 & L4). unfold number.
  rewrite show_group_nibbles, (span_digits_app 16 _ (nibbles g) r) by (by apply span_nibbles || done).
  rewrite V, (proj2 (N.ltb_lt g 65536)), (proj2 (Nat.ltb_ge 4 _)) by done.
  rewrite (proj2 (Nat.eqb_neq _ 0)) by lia. by destruct (nibbles g) as [|[|d] [|d' ds]].
Qed.

Lemma group_chars g : g < 65536 → Forall (λ b, to_digit 16 b ≠ None) (show_group g).
Proof.
  intros Hg. destruct (nibbles_ok g Hg) as (F & _). rewrite show_group_nibbles.
  apply Forall_map. eapply Forall_impl; [exact F|]. intros n H. cbn. by rewrite to_digit_hex.
Qed.

(** A number stops inside hexadecimal text or at its end. *)
Lemma span_digits_stop p r ds rest :
  not_digit 10 r → span_digits 10 (p ++ r) = (ds, rest) →
  ∃ p', rest = p' ++ r ∧ ∀ b, b ∈ p' → b ∈ p.
Proof.
  intros Hr. revert ds rest. induction p as [|b p IH]; intros ds rest; cbn [app span_digits].
  - destruct r as [|c r]; cbn [span_digits]; [intros [= <- <-]; by exists []|].
    unfold not_digit in Hr. rewrite Hr. intros [= <- <-]. by exists [].
  - destruct (to_digit 10 b); [|intros [= <- <-]; exists (b :: p); by split].
    destruct (span_digits 10 (p ++ r)) as [ds' r'] eqn:S. intros [= <- <-].
    destruct (IH _ _ eq_refl) as (p' & -> & I). exists p'. split; [done|].
    intros c Hc. right. by apply I.
Qed.

(** A group is not the start of an IPv4 address, unless a dot follows. *)
Lemma ipv4_group g r :
  g < 65536 → not_digit 16 r → match r with b :: _ => b ≠ "."%byte | [] => True end →
  ipv4 (show_group g ++ r) = None.
Proof.
  intros Hg Hr Hd. unfold ipv4. destruct (octet _) as [[x rest]|] eqn:O; [|done].
  assert (separated "."%byte 1 octet rest = None) as ->; [|done].
  unfold octet, number in O. destruct (span_digits 10 _) as [ds r'] eqn:S.
  assert (r' = rest) as ->
    by (destruct (_ || _); [done|]; destruct (_ <? _); [|done]; by injection O).
  assert (not_digit 10 r) as Hr10 by (destruct r; [done|]; by apply to_digit_10_16).
  destruct (span_digits_stop _ _ _ _ Hr10 S) as (p' & -> & I).
  pose proof (group_chars g Hg) as C. rewrite list.Forall_forall in C.
  unfold separated, given. destruct p' as [|b p']; cbn [app].
  - destruct r as [|b r]; [done|]. by rewrite bool_decide_false.
  - rewrite bool_decide_false; [done|]. intros ->. by apply (C "."%byte); [apply I; left|].
Qed.

(** Groups after the first, each with its colon. *)
Definition more_groups (gs : list N) : bytes := flat_map (λ g, ":"%byte :: show_group g) gs.

Lemma show_groups_cons g gs : show_groups (g :: gs) = show_group g ++ more_groups gs.
Proof.
  unfold show_groups. revert g. induction gs as [|h gs IH]; intros g.
  - cbn. by rewrite app_nil_r.
  - change (map show_group (g :: h :: gs)) with (show_group g :: show_group h :: map show_group gs).
    change (RustStd.join (lit ":") (show_group g :: show_group h :: map show_group gs))
      with (show_group g ++ lit ":" ++ RustStd.join (lit ":") (map show_group (h :: gs))).
    by rewrite IH.
Qed.

(** What may follow the groups: the double colon, or something that is no part of them. *)
Definition ends_groups (r : bytes) : Prop :=
  not_digit 16 r ∧ match r with b :: _ => b ≠ "."%byte | [] => True end ∧
  match r with
  | ":"%byte :: r' => not_digit 16 r' ∧ match r' with b :: _ => b ≠ "."%byte | [] => True end
  | _ => True
  end.

Lemma number_none radix max zero bound r : not_digit radix r → number radix max zero bound r = None.
Proof. unfold number. destruct r as [|b r]; [done|]. cbn [span_digits not_digit]. by intros ->. Qed.

Lemma ipv4_none r : not_digit 16 r → ipv4 r = None.
Proof.
  intros H. unfold ipv4, octet. rewrite number_none; [done|]. destruct r; [done|].
  by apply to_digit_10_16.
Qed.

Lemma groups_end left index r : ends_groups r → groups left index r = ([], false, r).
Proof.
  intros (H & _ & H2). destruct left as [|left]; [done|]. cbn [groups].
  assert (∀ (A : Type) (inner : Reader A), (∀ r, not_digit 16 r → inner r = None) →
            separated ":"%byte index inner r = None) as S.
  { intros A inner Hi. unfold separated. destruct index; [by apply Hi|]. unfold given.
    destruct r as [|b r]; [done|]. case_bool_decide as E; [|done]. subst b. apply Hi. by destruct H2. }
  rewrite (S _ _ ipv4_none), (S _ _ (number_none 16 _ _ _)). by destruct (left =? 0)%nat.
Qed.

Lemma separated_colon {A} index (inner : Reader A) r :
  separated ":"%byte (S index) inner (":"%byte :: r) = inner r.
Proof. unfold separated. by rewrite given_self. Qed.

Lemma ends_more gs r : ends_groups r → not_digit 16 (more_groups gs ++ r) ∧
  match more_groups gs ++ r with b :: _ => b ≠ "."%byte | [] => True end.
Proof. intros (H & D & _). by destruct gs. Qed.

Lemma groups_more gs left index r :
  (length gs <= left)%nat → Forall (λ g, g < 65536) gs → ends_groups r →
  groups left (S index) (more_groups gs ++ r) = (gs, false, r).
Proof.
  intros L F E. revert left index L. induction F as [|g gs Hg F IH]; intros left index L.
  - by apply groups_end.
  - destruct left as [|left]; [cbn in L; lia|].
    change (more_groups (g :: gs) ++ r) with (":"%byte :: (show_group g ++ more_groups gs) ++ r).
    rewrite <- app_assoc. cbn [groups]. rewrite !separated_colon.
    destruct (ends_more gs r E) as [N D]. rewrite ipv4_group, number_group by done.
    rewrite IH by (cbn in L; lia). by destruct (left =? 0)%nat.
Qed.

Lemma groups_show gs left r :
  (length gs <= left)%nat → Forall (λ g, g < 65536) gs → ends_groups r →
  groups left 0 (show_groups gs ++ r) = (gs, false, r).
Proof.
  intros L F E. destruct F as [|g gs Hg F]; [by apply groups_end|].
  destruct left as [|left]; [cbn in L; lia|]. rewrite show_groups_cons, <- app_assoc.
  cbn [groups separated]. destruct (ends_more gs r E) as [N D].
  rewrite ipv4_group, number_group by done. rewrite groups_more by (done || cbn in L; lia).
  by destruct (left =? 0)%nat.
Qed.

(** The run found is a run of zeros. *)
Definition zeros (l : list N) (run : nat * nat) : Prop :=
  (run.1 + run.2 <= length l)%nat ∧ ∀ i, (run.1 <= i < run.1 + run.2)%nat → nth i l 0 = 0.

Lemma zero_run_zeros p l current longest :
  (current.2 = 0%nat ∨ (current.1 + current.2 = length p)%nat ∧ zeros (p ++ l) current) →
  zeros (p ++ l) longest → zeros (p ++ l) (zero_run l (length p) current longest).
Proof.
  revert p current longest. induction l as [|g l IH]; intros p current longest C L; [done|].
  cbn [zero_run]. assert (E : p ++ g :: l = (p ++ [g]) ++ l) by (by rewrite <- app_assoc).
  assert (Lp : S (length p) = length (p ++ [g])) by (rewrite length_app; cbn; lia).
  rewrite Lp. destruct (N.eqb_spec g 0) as [->|].
  2:{ rewrite E. apply IH; [by left|by rewrite <- E]. }
  set (cur := (if (current.2 =? 0)%nat then length p else current.1, S current.2)).
  assert (Z : (cur.1 + cur.2 = length (p ++ [0%N]))%nat ∧ zeros (p ++ 0 :: l) cur).
  { subst cur. cbn [fst snd]. rewrite <- Lp. destruct C as [C|[C Zc]].
    - rewrite C. cbn. split; [lia|]. split; cbn; [rewrite length_app; cbn; lia|].
      intros i Hi. replace i with (length p) by lia. by rewrite nth_middle.
    - destruct (Nat.eqb_spec current.2 0) as [Z0|Z0].
      + rewrite Z0. split; [lia|]. split; cbn; [rewrite length_app; cbn; lia|].
        intros i Hi. replace i with (length p) by lia. by rewrite nth_middle.
      + split; [lia|]. destruct Zc as [Zl Zi]. split; cbn; [rewrite length_app; cbn; lia|].
        intros i Hi. destruct (decide (i = length p)) as [->|]; [by rewrite nth_middle|].
        apply Zi. lia. }
  rewrite E. apply IH; rewrite <- E; [by right|]. destruct Z as [_ Z]. by destruct (_ <? _)%nat.
Qed.

Lemma zeros_split l run :
  zeros l run → l = take run.1 l ++ repeat 0 run.2 ++ drop (run.1 + run.2) l.
Proof.
  destruct run as [st len]. intros [L Z]. cbn in *.
  rewrite <- (take_drop st l) at 1. f_equal. rewrite <- (take_drop len (drop st l)) at 1.
  rewrite drop_drop. f_equal.
  assert (Q : ∀ n k, (k <= len)%nat → (st + k = n)%nat →
            take (len - k) (drop n l) = repeat 0 (len - k)).
  { intros n k Hk <-. remember (len - k)%nat as m eqn:Em. revert k Hk Em.
    induction m as [|m IH]; intros k Hk Em; [done|].
    destruct (drop (st + k) l) as [|x r] eqn:D.
    - apply (f_equal length) in D. rewrite length_drop in D. cbn in D. lia.
    - cbn [take repeat]. f_equal.
      + specialize (Z (st + k)%nat ltac:(lia)).
        rewrite <- (take_drop (st + k) l), D, app_nth2 in Z by (rewrite length_take; lia).
        rewrite length_take, Nat.min_l in Z by lia. by rewrite Nat.sub_diag in Z.
      + specialize (IH (S k) ltac:(lia) ltac:(lia)).
        replace (st + S k)%nat with (st + k + 1)%nat in IH by lia.
        by rewrite <- drop_drop, D in IH. }
  specialize (Q st 0%nat ltac:(lia) ltac:(lia)). by rewrite Nat.sub_0_r in Q.
Qed.

Definition ipv6_ok (a : Ipv6Addr) : Prop := Forall (λ g, g < 65536) (segments a).

Lemma v6_of_segments a : v6_of (segments a) = a.
Proof. by destruct a. Qed.

(** What follows an address inside the brackets. *)
Definition closes (r : bytes) : Prop :=
  match r with b :: _ => b = "]"%byte ∨ b = "%"%byte | [] => False end.

Lemma closes_ends r : closes r → ends_groups r.
Proof. by destruct r as [|b r]; [|intros [-> | ->]]. Qed.

Lemma closes_no_digit r : closes r → not_digit 10 r.
Proof. by destruct r as [|b r]; [|intros [-> | ->]]. Qed.

Lemma double_ends r : ends_groups (lit "::" ++ r).
Proof. by split_and!. Qed.

Lemma given_double r :
  given ":"%byte (lit "::" ++ r) = Some ((), lit ":" ++ r) ∧ given ":"%byte (lit ":" ++ r) = Some ((), r).
Proof. split; apply given_self. Qed.

(** The rest of [ipv6] once the groups before the double colon are read. *)
Lemma ipv6_double head r tail v4 r' :
  groups 8 0 (show_groups head ++ lit "::" ++ r) = (head, false, lit "::" ++ r) →
  (length head < 8)%nat → groups (8 - (length head + 1)) 0 r = (tail, v4, r') →
  ipv6 (show_groups head ++ lit "::" ++ r) =
  Some (v6_of (head ++ repeat 0 (8 - length head - length tail) ++ tail), r').
Proof.
  intros H L T. unfold ipv6. rewrite H, (proj2 (Nat.eqb_neq _ _)) by lia.
  destruct (given_double r) as [-> ->]. by rewrite T.
Qed.

Lemma groups_step left index s :
  groups (S left) index s =
    match (if (left =? 0)%nat then None else separated ":"%byte index ipv4 s) with
    | Some (V4 a b c d, r) => ([a * 256 + b; c * 256 + d], true, r)
    | None =>
      match separated ":"%byte index (number 16 (Some 4%nat) true 65536) s with
      | Some (g, r) => let '(gs, v4, rest) := groups left (S index) r in (g :: gs, v4, rest)
      | None => ([], false, s)
      end
    end.
Proof. done. Qed.

Lemma separated_first {A} sep (inner : Reader A) s : separated sep 0 inner s = inner s.
Proof. done. Qed.

Lemma groups_mapped v4 r :
  ipv4_ok v4 → closes r →
  groups 7 0 (lit "ffff:" ++ show_v4 v4 ++ r) =
  ([0xffff; o0 v4 * 256 + o1 v4; o2 v4 * 256 + o3 v4], true, r).
Proof.
  intros H C. change (lit "ffff:" ++ ?x) with (show_group 0xffff ++ ":"%byte :: x).
  rewrite (groups_step 6 0), !separated_first. cbn [Nat.eqb].
  rewrite ipv4_group, number_group by (done || lia).
  rewrite (groups_step 5 1), !separated_colon. cbn [Nat.eqb].
  rewrite ipv4_show by (done || by apply closes_no_digit). by destruct v4.
Qed.

Lemma ipv6_show_mapped a v4 r :
  ipv6_ok a → to_ipv4_mapped a = Some v4 → closes r →
  ipv6 (lit "::ffff:" ++ show_v4 v4 ++ r) = Some (a, r).
Proof.
  intros Ha M C. destruct a as [g0 g1 g2 g3 g4 g5 g6 g7]. unfold to_ipv4_mapped, head_zero in M.
  cbn [s0 s1 s2 s3 s4 s5 s6 s7 embedded] in M.
  destruct (_ && _) eqn:Z in M; [|done]. injection M as <-.
  apply andb_true_iff in Z as [Z Hf]. repeat (apply andb_true_iff in Z as [Z ?]).
  repeat match goal with H : (_ =? _) = true |- _ => apply N.eqb_eq in H; try subst end.
  unfold ipv6_ok, segments in Ha. cbn in Ha.
  repeat match goal with H : Forall _ (_ :: _) |- _ => apply Forall_cons in H as [? H] end.
  assert (V : ipv4_ok (V4 (g6 / 256) (g6 mod 256) (g7 / 256) (g7 mod 256)))
    by (split_and!; cbn; zify; Z.to_euclidean_division_equations; lia).
  unfold embedded. cbn [s6 s7].
  change (lit "::ffff:" ++ ?x) with (show_groups [] ++ lit "::" ++ lit "ffff:" ++ x).
  rewrite (ipv6_double [] _ _ true r (groups_end 8 0 _ (double_ends _)) ltac:(cbn; lia)
             (groups_mapped _ r V C)).
  do 2 f_equal. unfold v6_of. cbn [length app repeat Nat.sub nth o0 o1 o2 o3].
  f_equal; zify; Z.to_euclidean_division_equations; lia.
Qed.

Lemma show_v6_parts a :
  to_ipv4_mapped a = None →
  ∃ head tail, show_v6 a = show_groups head ++ lit "::" ++ show_groups tail ∧
      (length head + length tail <= 6)%nat ∧
      segments a = head ++ repeat 0 (8 - length head - length tail) ++ tail
  ∨ show_v6 a = show_groups (segments a).
Proof.
  intros M. unfold show_v6. rewrite M.
  pose proof (zero_run_zeros [] (segments a) (O, O) (O, O) (or_introl eq_refl)
                ltac:(split; cbn; lia)) as Z. cbn [app length] in Z.
  destruct (zero_run (segments a) 0 (O, O) (O, O)) as [start len].
  destruct (Nat.ltb_spec 1 len) as [L|L]; [|exists [], []; by right].
  exists (take start (segments a)), (drop (start + len) (segments a)). left.
  pose proof (zeros_split _ _ Z) as E. destruct Z as [Zl _]. cbn [fst snd] in *.
  change (length (segments a)) with 8%nat in Zl.
  rewrite !length_take, !length_drop. change (length (segments a)) with 8%nat.
  split_and!; [done|lia|]. rewrite E at 1. do 3 f_equal. lia.
Qed.

Lemma ipv6_show a r : ipv6_ok a → closes r → ipv6 (show_v6 a ++ r) = Some (a, r).
Proof.
  intros Ha C. destruct (to_ipv4_mapped a) as [v4|] eqn:M.
  { unfold show_v6. rewrite M, <- app_assoc. by apply ipv6_show_mapped. }
  destruct (show_v6_parts a M) as (head & tail & [(-> & L & E)| ->]).
  - assert (F : Forall (λ g, g < 65536) head ∧ Forall (λ g, g < 65536) tail).
    { unfold ipv6_ok in Ha. rewrite E in Ha. apply Forall_app in Ha as [? Ha].
      by apply Forall_app in Ha as [_ ?]. }
    destruct F as [Fh Ft]. rewrite <- !app_assoc.
    rewrite (ipv6_double head (show_groups tail ++ r) tail false r).
    + by rewrite <- E, v6_of_segments.
    + apply groups_show; [lia|done|apply double_ends].
    + lia.
    + apply groups_show; [lia|done|by apply closes_ends].
  - unfold ipv6. rewrite groups_show by (done || by apply closes_ends).
    by rewrite v6_of_segments.
Qed.

Definition socket_ok (a : SocketAddr) : Prop :=
  match ip a with
  | Ip4 v4 => ipv4_ok v4 ∧ scope_id a = 0
  | Ip6 v6 => ipv6_ok v6 ∧ scope_id a < U32
  end ∧ port a < 65536 ∧ flowinfo a = 0.

(** A socket address survives being written and parsed (its flow label is not written). *)
Lemma parse_show a : socket_ok a → parse (show a) = Some a.
Proof.
  intros (H & Hp & Hf). destruct a as [[v4|v6] p f sc]; cbn in H, Hp, Hf; subst f;
    destruct H as [H Hs]; [subst sc; by apply parse_show_v4|].
  unfold parse, show. cbn [ip scope_id port].
  assert (socket_v4 (lit "[" ++ show_v6 v6 ++ (if sc =? 0 then [] else lit "%" ++ decimal sc) ++
            lit "]:" ++ decimal p) = None) as -> by done.
  unfold socket_v6. change (lit "[" ++ ?x) with ("["%byte :: x). rewrite given_self.
  assert (R : ∀ s : bytes, match read_scope (lit "]:" ++ s) with Some x => x | None => (0, lit "]:" ++ s) end =
                   (0, lit "]:" ++ s)) by done.
  assert (P : read_port (lit ":" ++ decimal p) = Some (p, [])).
  { unfold read_port. change (lit ":" ++ decimal p) with (":"%byte :: decimal p).
    rewrite given_self, <- (app_nil_r (decimal p)). by apply number_decimal. }
  destruct (N.eqb_spec sc 0) as [->|N].
  - cbn [app]. rewrite ipv6_show by (done || by left). rewrite R.
    change (lit "]:" ++ decimal p) with ("]"%byte :: lit ":" ++ decimal p).
    by rewrite given_self, P.
  - rewrite <- app_assoc, ipv6_show by (done || by right).
    assert (read_scope (lit "%" ++ decimal sc ++ lit "]:" ++ decimal p) =
            Some (sc, lit "]:" ++ decimal p)) as ->.
    { unfold read_scope. change (lit "%" ++ ?x) with ("%"%byte :: x). rewrite given_self.
      by apply number_decimal. }
    change (lit "]:" ++ decimal p) with ("]"%byte :: lit ":" ++ decimal p).
    by rewrite given_self, P.
Qed.

(** *** What an address is written with *)

(** The bytes of address texts. *)
Definition addr_byte (b : byte) : bool :=
  match to_digit 16 b with Some _ => true | None => false end ||
  bool_decide (b ∈ lit ".:[]%").

(** A reader takes address bytes from the front. *)
Definition eats {A} (inner : Reader A) : Prop :=
  ∀ s a r, inner s = Some (a, r) → ∃ p, s = p ++ r ∧ forallb addr_byte p = true.

Lemma eats_seq s p r q t :
  s = p ++ r → r = q ++ t → forallb addr_byte p = true → forallb addr_byte q = true →
  ∃ u, s = u ++ t ∧ forallb addr_byte u = true.
Proof. intros -> -> P Q. exists (p ++ q). by rewrite forallb_app, P, Q, app_assoc. Qed.

Lemma given_eats c : addr_byte c = true → eats (given c).
Proof.
  intros H s [] r. unfold given. destruct s as [|b s]; [done|]. case_bool_decide as E; [|done].
  subst b. intros [= <-]. exists [c]. cbn. by rewrite H.
Qed.

Lemma to_digit_16 radix b d : radix <= 16 → to_digit radix b = Some d → to_digit 16 b = Some d.
Proof.
  unfold to_digit. intros L. destruct (if is_digit b then _ else _) as [v|]; [|done].
  destruct (N.ltb_spec v radix); [|done]. intros [= <-].
  by rewrite (proj2 (N.ltb_lt v 16)) by lia.
Qed.

Lemma span_digits_eats radix s ds r :
  radix <= 16 → span_digits radix s = (ds, r) → ∃ p, s = p ++ r ∧ forallb addr_byte p = true.
Proof.
  intros L. revert ds. induction s as [|b s IH]; intros ds; cbn [span_digits].
  { intros [= <- <-]. by exists []. }
  destruct (to_digit radix b) as [d|] eqn:D; [|intros [= <- <-]; by exists []].
  destruct (span_digits radix s) as [ds' r'] eqn:S. intros [= <- <-].
  destruct (IH _ eq_refl) as (p & -> & F). exists (b :: p). split; [done|]. cbn. rewrite F.
  unfold addr_byte. by rewrite (to_digit_16 _ _ _ L D).
Qed.

Lemma number_eats radix max zero bound : radix <= 16 → eats (number radix max zero bound).
Proof.
  intros L s a r. unfold number. destruct (span_digits radix s) as [ds rest] eqn:S.
  destruct (_ || _); [done|]. destruct (_ <? _); [|done]. intros [= _ <-].
  by eapply span_digits_eats.
Qed.

Lemma separated_eats {A} sep index (inner : Reader A) :
  addr_byte sep = true → eats inner → eats (separated sep index inner).
Proof.
  intros H E s a r. unfold separated. destruct index; [apply E|].
  destruct (given sep s) as [[u q]|] eqn:G; [|done]. intros I.
  destruct (given_eats sep H _ _ _ G) as (p & P & Fp). destruct (E _ _ _ I) as (p' & P' & Fp').
  by eapply eats_seq.
Qed.

Lemma octet_eats index : eats (separated "."%byte index octet).
Proof. apply separated_eats; [done|]. by apply number_eats. Qed.

Lemma eats_app s p r : s = p ++ r → forallb addr_byte p = true →
  ∀ t, (∃ q, r = q ++ t ∧ forallb addr_byte q = true) → ∃ u, s = u ++ t ∧ forallb addr_byte u = true.
Proof. intros E P t (q & E' & Q). by eapply eats_seq. Qed.

Lemma eats_nothing t : ∃ u, t = u ++ t ∧ forallb addr_byte u = true.
Proof. by exists []. Qed.

Lemma port_eats : eats read_port.
Proof.
  intros s a r. unfold read_port. destruct (given _ s) as [[[] q]|] eqn:G; [|done]. intros H.
  apply given_eats in G as (? & ? & ?); [|done]. apply number_eats in H as (? & ? & ?); [|lia].
  by eapply eats_seq.
Qed.

Lemma ipv4_eats : eats ipv4.
Proof.
  intros s a r. unfold ipv4. change (octet s) with (separated "."%byte 0 octet s).
  destruct (separated _ 0 octet s) as [[? ?]|] eqn:?; [|done].
  destruct (separated _ 1 octet _) as [[? ?]|] eqn:?; [|done].
  destruct (separated _ 2 octet _) as [[? ?]|] eqn:?; [|done].
  destruct (separated _ 3 octet _) as [[? ?]|] eqn:?; [|done].
  intros [= _ <-].
  repeat match goal with H : separated _ _ octet _ = Some _ |- _ =>
    apply octet_eats in H as (? & ? & ?) end.
  repeat (eapply eats_app; [eassumption|eassumption|]). apply eats_nothing.
Qed.

Lemma groups_eats left index s gs v4 r :
  groups left index s = (gs, v4, r) → ∃ p, s = p ++ r ∧ forallb addr_byte p = true.
Proof.
  revert index s gs v4. induction left as [|left IH]; intros index s gs v4.
  { intros [= _ _ <-]. by exists []. }
  rewrite groups_step.
  destruct (if (left =? 0)%nat then None else _) as [[[a b c d] q]|] eqn:V.
  - intros [= _ _ <-]. destruct (left =? 0)%nat; [done|].
    by apply (separated_eats ":"%byte _ _ eq_refl ipv4_eats) in V.
  - destruct (separated _ index (number _ _ _ _) s) as [[g q]|] eqn:G; [|intros [= _ _ <-]; by exists []].
    destruct (groups left (S index) q) as [[gs' v4'] r'] eqn:E. intros [= _ _ <-].
    apply (separated_eats ":"%byte _ _ eq_refl (number_eats 16 (Some 4%nat) true 65536 ltac:(lia)))
      in G as (p & -> & Fp).
    destruct (IH _ _ _ _ E) as (p' & -> & Fp'). exists (p ++ p').
    by rewrite forallb_app, Fp, Fp', app_assoc.
Qed.

Lemma ipv6_eats : eats ipv6.
Proof.
  intros s a r. unfold ipv6. destruct (groups 8 0 s) as [[head hv] q] eqn:G.
  apply groups_eats in G as (? & ? & ?).
  destruct (_ =? _)%nat; [intros [= _ <-]; eauto|]. destruct hv; [done|].
  destruct (given _ q) as [[? q1]|] eqn:?; [|done]. destruct (given _ q1) as [[? q2]|] eqn:?; [|done].
  destruct (groups _ 0 q2) as [[tail tv] q3] eqn:G. intros [= _ <-].
  apply groups_eats in G as (? & ? & ?).
  repeat match goal with H : given _ _ = Some _ |- _ =>
    apply given_eats in H as (? & ? & ?); [|done] end.
  repeat (eapply eats_app; [eassumption|eassumption|]). apply eats_nothing.
Qed.

(** Chains the readers of the hypotheses. *)
Ltac eat :=
  repeat match goal with
  | H : separated _ _ octet _ = Some _ |- _ => apply octet_eats in H as (? & ? & ?)
  | H : read_port _ = Some _ |- _ => apply port_eats in H as (? & ? & ?)
  | H : ipv4 _ = Some _ |- _ => apply ipv4_eats in H as (? & ? & ?)
  | H : ipv6 _ = Some _ |- _ => apply ipv6_eats in H as (? & ? & ?)
  | H : given _ _ = Some _ |- _ => apply given_eats in H as (? & ? & ?); [|done]
  end;
  repeat (eapply eats_app; [eassumption|eassumption|]); apply eats_nothing.

(** A text that parses holds address bytes only. *)
Lemma parse_addr_bytes s a : parse s = Some a → forallb addr_byte s = true.
Proof.
  unfold parse. intros P.
  assert (E : ∃ u, s = u ++ [] ∧ forallb addr_byte u = true);
    [|destruct E as (u & -> & F); by rewrite app_nil_r].
  destruct (match socket_v4 s with Some x => Some x | None => socket_v6 s end) as [[b r]|] eqn:S;
    [|done]. destruct r; [|done]. clear P. destruct (socket_v4 s) as [[c q]|] eqn:V.
  - injection S as -> ->. unfold socket_v4 in V. destruct (ipv4 s) as [[? ?]|] eqn:?; [|done].
    destruct (read_port _) as [[? ?]|] eqn:?; [|done]. injection V as _ ->. eat.
  - clear V. unfold socket_v6 in S. destruct (given _ s) as [[? s1]|] eqn:?; [|done].
    destruct (ipv6 s1) as [[? s2]|] eqn:?; [|done].
    assert (X : ∃ p, s2 = p ++ (match read_scope s2 with Some x => x | None => (0, s2) end).2 ∧
                     forallb addr_byte p = true).
    { destruct (read_scope s2) as [[sc s3]|] eqn:R; [|by exists []]. cbn.
      unfold read_scope in R. destruct (given _ s2) as [[? ?]|] eqn:G; [|done].
      apply given_eats in G as (? & ? & ?); [|done]. apply number_eats in R as (? & ? & ?); [|lia].
      by eapply eats_seq. }
    destruct (match read_scope s2 with Some x => x | None => (0, s2) end) as [sc s3].
    destruct X as (? & ? & ?). cbn [snd] in *. destruct (given _ s3) as [[? s4]|] eqn:?; [|done].
    destruct (read_port s4) as [[? ?]|] eqn:?; [|done]. injection S as _ ->. eat.
Qed.

Definition sock (i : IpAddr) (p : N) : SocketAddr :=
  {| ip := i; port := p; flowinfo := 0; scope_id := 0 |}.

(** The forms the parser takes and refuses. *)
Example parse_forms :
  parse (lit "203.0.113.7:4435") = Some (sock (Ip4 (V4 203 0 113 7)) 4435) ∧
  parse (lit "203.0.113.07:4435") = None ∧ parse (lit "203.0.113.7:65536") = None ∧
  parse (lit "203.0.113.7:0443") = Some (sock (Ip4 (V4 203 0 113 7)) 443) ∧
  parse (lit "[2001:db8::1]:443") = Some (sock (Ip6 (V6 0x2001 0xdb8 0 0 0 0 0 1)) 443) ∧
  parse (lit "[::ffff:10.0.0.5]:22") = Some (sock (Ip6 (V6 0 0 0 0 0 0xffff 0xa00 5)) 22) ∧
  parse (lit "[::]:1") = Some (sock (Ip6 (V6 0 0 0 0 0 0 0 0)) 1) ∧
  parse (lit "[1::2::3]:1") = None ∧ parse (lit "host:22") = None ∧
  parse (lit "10.0.0.5") = None ∧ parse (lit "") = None.
Proof. by vm_compute. Qed.

Example show_forms :
  show (sock (Ip6 (V6 0x2001 0xdb8 0 0 0 0 0 1)) 443) = lit "[2001:db8::1]:443" ∧
  show (sock (Ip6 (V6 0 0 0 0 0 0xffff 0xa00 5)) 22) = lit "[::ffff:10.0.0.5]:22" ∧
  show (sock (Ip6 (V6 1 0 0 2 0 0 0 3)) 22) = lit "[1:0:0:2::3]:22" ∧
  parse (show (sock (Ip6 (V6 1 0 0 2 0 0 0 3)) 22)) = Some (sock (Ip6 (V6 1 0 0 2 0 0 0 3)) 22).
Proof. by vm_compute. Qed.

End SockAddr.

(** ** The judgement of an advertised address *)

Module Classify.
Import Address Superpeers.

(** src/crates/common/src/channel.rs:685-704 [reachability_class] *)
Definition reachability_class (advertised : bytes) (reflexive : SocketAddr) : Reachability :=
  if negb (is_global_unicast reflexive) then RelayOnly
  else if bool_decide
            (match SockAddr.parse advertised with
             | Some a => if is_global_unicast a then Some a else None
             | None => None
             end = Some reflexive) then Public
  else Nat reflexive.

(** src/crates/edge/src/channel_broker.rs:608-615 [safe_endpoint] *)
Definition safe_endpoint (ep : bytes) : option SocketAddr :=
  match SockAddr.parse ep with
  | Some addr => if is_global_unicast addr then Some addr else None
  | None => None
  end.

(** src/crates/edge/src/channel_broker.rs:625-627 [admissible_endpoint] *)
Definition admissible_endpoint (req : ChannelJoinRequest.ChannelJoinRequest) : bool :=
  ChannelJoinRequest.is_relay_only req ||
  match safe_endpoint (ChannelJoinRequest.endpoint req) with Some _ => true | None => false end.

(** src/crates/edge/src/channel_broker.rs:1230-1250 [EndpointAttestation] *)
Inductive EndpointAttestation := Matches | CrossFamily | Mismatch | Unobservable | NoAddress.

#[global] Instance attestation_eq_dec : EqDecision EndpointAttestation.
Proof. solve_decision. Defined.

Definition is_ipv4 (i : IpAddr) : bool := match i with Ip4 _ => true | Ip6 _ => false end.

(** src/crates/edge/src/channel_broker.rs:1254-1268 [classify_endpoint] *)
Definition classify_endpoint (advertised : bytes) (observed : IpAddr) : EndpointAttestation :=
  match SockAddr.parse advertised with
  | None => NoAddress
  | Some addr =>
    let adv := ip addr in
    if bool_decide (adv = observed) then Matches
    else if negb (Bool.eqb (is_ipv4 adv) (is_ipv4 observed)) then CrossFamily
    else if is_global_unicast {| ip := observed; port := 0; flowinfo := 0; scope_id := 0 |}
    then Mismatch
    else Unobservable
  end.

(** src/crates/edge/src/channel_broker.rs:1167-1173 [endpoint_is_attested] *)
Definition endpoint_is_attested (advertised : bytes) (observed : IpAddr) : bool :=
  negb (bool_decide (classify_endpoint advertised observed = Mismatch)).


Lemma safe_endpoint_Some ep a :
  safe_endpoint ep = Some a ↔ SockAddr.parse ep = Some a ∧ is_global_unicast a = true.
Proof.
  unfold safe_endpoint. destruct (SockAddr.parse ep) as [b|]; [|by split; [|intros []]].
  destruct (is_global_unicast b) eqn:G; split; [intros [= <-]|intros [[= <-] _]|done|intros [[= <-] ?]];
    (done || congruence).
Qed.

(** What the edge lets a member advertise, and what enforcement adds: the advertised
    text passes exactly when it is the relay-only sentinel or a socket address in the public
    range; and a passing address that is also attested, seen from a public address, names
    the machine the edge sees or an address of the other family. *)
Theorem endpoint_admission_exact req observed :
  admissible_endpoint req = true ∧
  (ChannelJoinRequest.is_relay_only req = true ∨
   endpoint_is_attested (ChannelJoinRequest.endpoint req) observed = true) ↔
  ChannelJoinRequest.endpoint req = lit "relay-only" ∨
  ∃ a, SockAddr.parse (ChannelJoinRequest.endpoint req) = Some a ∧ is_global_unicast a = true ∧
    (ip a = observed ∨ is_ipv4 (ip a) ≠ is_ipv4 observed ∨
     is_global_unicast {| ip := observed; port := 0; flowinfo := 0; scope_id := 0 |} = false).
Proof.
  unfold admissible_endpoint, ChannelJoinRequest.is_relay_only.
  destruct (decide (ChannelJoinRequest.endpoint req = lit "relay-only")) as [R|R].
  { rewrite bool_decide_true by done. naive_solver. }
  rewrite bool_decide_false by done. cbn [orb]. unfold endpoint_is_attested, classify_endpoint.
  destruct (safe_endpoint _) as [a|] eqn:S.
  - apply safe_endpoint_Some in S as [-> G]. split.
    + intros [_ [|T]]; [done|]. right. exists a. split_and!; try done.
      destruct (decide (ip a = observed)) as [|N]; [by left|]. rewrite (bool_decide_false _ N) in T.
      destruct (Bool.eqb _ _) eqn:Q; cbn [negb] in T.
      * by destruct (is_global_unicast {| ip := observed; port := 0; flowinfo := 0; scope_id := 0 |});
          [|right; right].
      * right; left. intros E. by rewrite E, Bool.eqb_reflx in Q.
    + intros [|(b & [= <-] & _ & H)]; [done|]. split; [done|]. right.
      destruct (decide (ip a = observed)) as [E|N]; [by rewrite (bool_decide_true _ E)|].
      rewrite (bool_decide_false _ N). destruct (Bool.eqb _ _) eqn:Q; [|done].
      apply Bool.eqb_prop in Q. destruct H as [|[|H]]; [done|done|]. cbn [negb]. by rewrite H.
  - split; [intros [[=] _]|]. intros [|(a & P & G & _)]; [done|].
    assert (safe_endpoint (ChannelJoinRequest.endpoint req) = Some a) as E
      by (by apply safe_endpoint_Some). congruence.
Qed.

(** A member's reachability class: relay-only exactly when the edge sees it on a
    non-public address; public exactly when it advertises, as a socket address, the public
    address the edge sees; punchable otherwise, at that address. *)
Theorem reachability_class_exact advertised reflexive :
  (reachability_class advertised reflexive = RelayOnly ↔ is_global_unicast reflexive = false) ∧
  (reachability_class advertised reflexive = Public ↔
   is_global_unicast reflexive = true ∧ SockAddr.parse advertised = Some reflexive) ∧
  (∀ r, reachability_class advertised reflexive = Nat r ↔
   r = reflexive ∧ is_global_unicast reflexive = true ∧
   SockAddr.parse advertised ≠ Some reflexive).
Proof.
  assert (E : match SockAddr.parse advertised with
              | Some a => if is_global_unicast a then Some a else None
              | None => None
              end = Some reflexive ↔
              SockAddr.parse advertised = Some reflexive ∧ is_global_unicast reflexive = true)
    by apply safe_endpoint_Some.
  unfold reachability_class. destruct (is_global_unicast reflexive) eqn:G; cbn [negb].
  - case_bool_decide as D; rewrite E in D; naive_solver.
  - naive_solver.
Qed.

(** Port mapping: a member that advertises its own public address on another port is classed
    as behind a NAT, while the attestation accepts it. *)
Example other_port_is_nat :
  reachability_class (lit "203.0.113.7:4435") (SockAddr.sock (Ip4 (V4 203 0 113 7)) 50000) =
  Nat (SockAddr.sock (Ip4 (V4 203 0 113 7)) 50000) ∧
  classify_endpoint (lit "203.0.113.7:4435") (Ip4 (V4 203 0 113 7)) = Matches.
Proof. by vm_compute. Qed.

End Classify.
