(* ===== verification/Broker.v ===== *)
(** * The channel broker of the edge: who is paired with whom

    [crates/edge/src/channel_broker.rs], the part that decides. [Pairing] judges two grants;
    [Pairer] is the channel-keyed correlator that parks admitted members until a partner
    arrives, with the sweep of expired parks and the memory behind its diagnostic;
    [Presence] is the table of recent admissions. *)

From S2P Require Import Prelude RustStd Maps Interfaces Codec Channels Reach SockAddr.

Module Pairing.
Import Direction.

(** src/crates/edge/src/channel_broker.rs:45-49 [ChannelPairing] *)
Record ChannelPairing := { channel : bytes; initiator_holder : bytes; acceptor_holder : bytes }.

(** src/crates/edge/src/channel_broker.rs:53-62 [BrokerError] *)
Inductive BrokerError :=
| GrantInvalid (e : GrantError) | ChannelMismatch | IncompatibleDirections | SameHolder.

Section with_ed25519.
Context `{Ed25519}.

Definition grant_of (s : SignedChannelGrant.SignedChannelGrant) : ChannelGrant.ChannelGrant :=
  SignedChannelGrant.grant s.

(** [Result::map_err(BrokerError::GrantInvalid)] *)
Definition grant_invalid {A} (r : Result A GrantError) : Result A BrokerError :=
  match r with Ok a => Ok a | Err e => Err (GrantInvalid e) end.

(** src/crates/edge/src/channel_broker.rs:90-127 [authorize_channel_pair] *)
Definition authorize_channel_pair (operator_pubkey : bytes)
    (a b : SignedChannelGrant.SignedChannelGrant) (now : N) : Result ChannelPairing BrokerError :=
  _ <-? grant_invalid (Verify.verify_stateless operator_pubkey a now);
  _ <-? grant_invalid (Verify.verify_stateless operator_pubkey b now);
  let ga := grant_of a in
  let gb := grant_of b in
  if negb (bool_decide (ChannelGrant.channel ga = ChannelGrant.channel gb)) then Err ChannelMismatch
  else if bool_decide (ChannelGrant.holder ga = ChannelGrant.holder gb) then Err SameHolder
  else if permits (ChannelGrant.direction ga) Initiate && permits (ChannelGrant.direction gb) Accept
  then Ok {| channel := ChannelGrant.channel ga; initiator_holder := ChannelGrant.holder ga;
             acceptor_holder := ChannelGrant.holder gb |}
  else if permits (ChannelGrant.direction gb) Initiate && permits (ChannelGrant.direction ga) Accept
  then Ok {| channel := ChannelGrant.channel ga; initiator_holder := ChannelGrant.holder gb;
             acceptor_holder := ChannelGrant.holder ga |}
  else Err IncompatibleDirections.

(** One side may dial the other. *)
Definition may_dial (from to : SignedChannelGrant.SignedChannelGrant) : bool :=
  permits (ChannelGrant.direction (grant_of from)) Initiate &&
  permits (ChannelGrant.direction (grant_of to)) Accept.

(** Two directions leave nobody to dial or nobody to accept exactly when they are the same
    one-way direction. *)
Lemma no_dialer a b :
  may_dial a b = false ∧ may_dial b a = false ↔
  ChannelGrant.direction (grant_of a) = ChannelGrant.direction (grant_of b) ∧
  ChannelGrant.direction (grant_of a) ≠ Both.
Proof.
  unfold may_dial. destruct (ChannelGrant.direction (grant_of a)), (ChannelGrant.direction (grant_of b));
    cbn; naive_solver.
Qed.

Lemma grant_invalid_Ok {A} (r : Result A GrantError) a : grant_invalid r = Ok a ↔ r = Ok a.
Proof. destruct r; cbn; naive_solver. Qed.

(** Two grants are brokered exactly when both verify under the operator's key, are for
    one channel, bind two holders and are not the same one-way direction; then the two
    holders get the two roles, each grant permits its role, and the first presented grant
    initiates whenever it may. The other outcomes name the first check that fails. *)
Theorem authorize_channel_pair_exact pk a b now :
  (∀ p, authorize_channel_pair pk a b now = Ok p ↔
    Verify.verify_stateless pk a now = Ok () ∧ Verify.verify_stateless pk b now = Ok () ∧
    ChannelGrant.channel (grant_of a) = ChannelGrant.channel (grant_of b) ∧
    ChannelGrant.holder (grant_of a) ≠ ChannelGrant.holder (grant_of b) ∧
    channel p = ChannelGrant.channel (grant_of a) ∧
    ((may_dial a b = true ∧ initiator_holder p = ChannelGrant.holder (grant_of a) ∧
      acceptor_holder p = ChannelGrant.holder (grant_of b)) ∨
     (may_dial a b = false ∧ may_dial b a = true ∧
      initiator_holder p = ChannelGrant.holder (grant_of b) ∧
      acceptor_holder p = ChannelGrant.holder (grant_of a)))) ∧
  (authorize_channel_pair pk a b now = Err IncompatibleDirections ↔
    Verify.verify_stateless pk a now = Ok () ∧ Verify.verify_stateless pk b now = Ok () ∧
    ChannelGrant.channel (grant_of a) = ChannelGrant.channel (grant_of b) ∧
    ChannelGrant.holder (grant_of a) ≠ ChannelGrant.holder (grant_of b) ∧
    ChannelGrant.direction (grant_of a) = ChannelGrant.direction (grant_of b) ∧
    ChannelGrant.direction (grant_of a) ≠ Both).
Proof.
  rewrite <- no_dialer. unfold authorize_channel_pair, may_dial.
  destruct (Verify.verify_stateless pk a now) as [[]|] eqn:Va; cbn [grant_invalid rbind];
    [|split; [intros; split|split]; naive_solver].
  destruct (Verify.verify_stateless pk b now) as [[]|] eqn:Vb; cbn [grant_invalid rbind];
    [|split; [intros; split|split]; naive_solver].
  destruct (decide (ChannelGrant.channel (grant_of a) = ChannelGrant.channel (grant_of b))) as [E|E];
    [rewrite (bool_decide_true _ E)|rewrite (bool_decide_false _ E)]; cbn [negb];
    [|split; [intros; split|split]; naive_solver].
  destruct (decide (ChannelGrant.holder (grant_of a) = ChannelGrant.holder (grant_of b))) as [F|F];
    [rewrite (bool_decide_true _ F)|rewrite (bool_decide_false _ F)];
    [split; [intros; split|split]; naive_solver|].
  destruct (_ && _) eqn:D1.
  { split; [|split; [done|naive_solver]]. intros [c i j]. cbn. split; [intros [= <- <- <-]|]; naive_solver. }
  destruct (permits (ChannelGrant.direction (grant_of b)) Initiate && _) eqn:D2.
  { split; [|split; [done|naive_solver]]. intros [c i j]. cbn. split; [intros [= <- <- <-]|]; naive_solver. }
  split; [|naive_solver]. intros [c i j]. cbn. naive_solver.
Qed.

(** Presenting the two grants in the other order brokers the same two holders. *)
Lemma authorize_channel_pair_sym pk a b now p :
  authorize_channel_pair pk a b now = Ok p →
  ∃ p', authorize_channel_pair pk b a now = Ok p' ∧ channel p' = channel p ∧
    (may_dial a b = true ∧ may_dial b a = true ∨ p' = p).
Proof.
  intros E. destruct (authorize_channel_pair_exact pk a b now) as [X _].
  apply X in E as (Va & Vb & C & Hh & Ec & D). clear X.
  unfold authorize_channel_pair. rewrite Va, Vb. cbn [grant_invalid rbind].
  rewrite (bool_decide_true _ (eq_sym C)), (bool_decide_false _ (not_eq_sym Hh)). cbn [negb].
  change (permits (ChannelGrant.direction (grant_of b)) Initiate &&
          permits (ChannelGrant.direction (grant_of a)) Accept) with (may_dial b a).
  change (permits (ChannelGrant.direction (grant_of a)) Initiate &&
          permits (ChannelGrant.direction (grant_of b)) Accept) with (may_dial a b).
  destruct p as [c i j]. cbn in *. subst c. rewrite C.
  destruct D as [(D & -> & ->)|(D & D' & -> & ->)]; destruct (may_dial b a) eqn:D2; try done.
  - eexists. split; [done|]. split; [done|]. by left.
  - rewrite D. eexists. split; [done|]. split; [done|]. by right.
  - eexists. split; [done|]. split; [done|]. by right.
Qed.

End with_ed25519.

End Pairing.

Module Pairer.
Import Address.

(** An address as a tuple, which makes it a key of finite maps. *)
Definition ip_code (i : IpAddr) : N * N * N * N + N * N * N * N * N * N * N * N :=
  match i with
  | Ip4 a => inl (o0 a, o1 a, o2 a, o3 a)
  | Ip6 a => inr (s0 a, s1 a, s2 a, s3 a, s4 a, s5 a, s6 a, s7 a)
  end.
Definition ip_of_code (c : N * N * N * N + N * N * N * N * N * N * N * N) : IpAddr :=
  match c with
  | inl (a, b, c, d) => Ip4 (V4 a b c d)
  | inr (a, b, c, d, e, f, g, h) => Ip6 (V6 a b c d e f g h)
  end.
#[global] Instance ip_countable : Countable IpAddr.
Proof. by refine (inj_countable' ip_code ip_of_code _); intros [[]|[]]. Defined.

(** src/crates/edge/src/channel_broker.rs:162-162 [ParkLiveness]: the identity of the shared
    flag, if the park is monitored; its value is read from the environment. *)
Definition ParkLiveness : Type := option N.

(** src/crates/edge/src/channel_broker.rs:187-189 [ParkLiveness::is_dead] *)
Definition is_dead (flags : N → bool) (l : ParkLiveness) : bool :=
  match l with Some f => flags f | None => false end.

(** src/crates/edge/src/channel_broker.rs:222-226 [ParkPhase] *)
Inductive ParkPhase := Rendezvous | Relay | Unmarked.

#[global] Instance phase_eq_dec : EqDecision ParkPhase.
Proof. solve_decision. Defined.

(** src/crates/edge/src/channel_broker.rs:230-232 [ParkPhase::compatible] *)
Definition compatible (a b : ParkPhase) : bool :=
  bool_decide (a = b) || bool_decide (a = Unmarked) || bool_decide (b = Unmarked).

(** src/crates/edge/src/channel_broker.rs:371-371 [PARKS_PER_MEMBER] *)
Definition PARKS_PER_MEMBER : nat := 4.
(** src/crates/edge/src/channel_broker.rs:410-410 [SIBLING_PERSISTENCE_SECS] *)
Definition SIBLING_PERSISTENCE_SECS : N := 900.
(** src/crates/edge/src/channel_broker.rs:413-413 [SIBLING_MIN_SIGHTINGS] *)
Definition SIBLING_MIN_SIGHTINGS : N := 10.
(** src/crates/edge/src/channel_broker.rs:415-415 [SIBLING_PRUNE_SECS] *)
Definition SIBLING_PRUNE_SECS : N := 600.

(** src/crates/edge/src/channel_broker.rs:401-405 [SiblingSighting] *)
Record SiblingSighting := { first : N; last : N; count : N }.

(** An expired park's channel, a channel still waited on, and the address they share. *)
Definition Triple : Type := bytes * bytes * IpAddr.

(** ** The memory of sibling sightings *)

(** One round of the loop of [note_sibling_sightings]. *)
Definition sight (now : N) (acc : gmap Triple SiblingSighting * list Triple) (t : Triple)
    : gmap Triple SiblingSighting * list Triple :=
  let '(seen, confirmed) := acc in
  let s := default {| first := now; last := now; count := 0 |} (seen !! t) in
  let s := {| first := first s; last := now; count := N.min (count s + 1) (U32 - 1) |} in
  (<[t := s]> seen,
   if (SIBLING_MIN_SIGHTINGS <=? count s) && (SIBLING_PERSISTENCE_SECS <=? now - first s)
   then confirmed ++ [t] else confirmed).

(** src/crates/edge/src/channel_broker.rs:545-564 [ChannelPairer::note_sibling_sightings] *)
Definition note_sibling_sightings (seen : gmap Triple SiblingSighting) (triples : list Triple)
    (now : N) : list Triple * gmap Triple SiblingSighting :=
  let seen := filter (λ kv, now - last kv.2 <= SIBLING_PRUNE_SECS) seen in
  let '(seen, confirmed) := foldl (sight now) (seen, []) triples in
  (confirmed, seen).

Section pairer.
Context {T : Type}.

(** src/crates/edge/src/channel_broker.rs:135-156 [WaitingMember] *)
Record WaitingMember := {
  channel : bytes;
  holder : bytes;
  observed : option IpAddr;
  deadline : N;
  liveness : ParkLiveness;
  phase : ParkPhase;
  payload : T;
}.

(** src/crates/edge/src/channel_broker.rs:342-351 [PairOutcome] *)
Inductive PairOutcome :=
| Parked | Paired (a b : WaitingMember) | Superseded (stale : WaitingMember).

(** src/crates/edge/src/channel_broker.rs:374-397 [ChannelPairer] *)
Record ChannelPairer := {
  waiting : gmap bytes (list WaitingMember);
  dead_dropped : N;
  sibling_sightings : gmap Triple SiblingSighting;
}.

(** src/crates/edge/src/channel_broker.rs:418-424 [ChannelPairer::new] *)
Definition new : ChannelPairer :=
  {| waiting := ∅; dead_dropped := 0; sibling_sightings := ∅ |}.

(** src/crates/edge/src/channel_broker.rs:428-430 [ChannelPairer::take_dead_dropped] *)
Definition take_dead_dropped (p : ChannelPairer) : N * ChannelPairer :=
  (dead_dropped p,
   {| waiting := waiting p; dead_dropped := 0; sibling_sightings := sibling_sightings p |}).

Definition queue_of (p : ChannelPairer) (c : bytes) : list WaitingMember := default [] (waiting p !! c).

(** The two sides of a pairing fit: other holder, compatible phase. *)
Definition fits (m w : WaitingMember) : bool :=
  negb (bool_decide (holder w = holder m)) && compatible (phase w) (phase m).

(** src/crates/edge/src/channel_broker.rs:444-459 [ChannelPairer::offer]: the search loop: the candidate
    found, the queue without it and without the corpses met on the way, and their number. *)
Fixpoint search (flags : N → bool) (m : WaitingMember) (q : list WaitingMember)
    : option WaitingMember * list WaitingMember * N :=
  match q with
  | [] => (None, [], 0)
  | w :: q =>
    if is_dead flags (liveness w)
    then let '(found, rest, n) := search flags m q in (found, rest, n + 1)
    else if fits m w then (Some w, q, 0)
    else let '(found, rest, n) := search flags m q in (found, w :: rest, n)
  end.

(** [position] and [remove]: the first element that satisfies [P], and the others. *)
Fixpoint remove_first (P : WaitingMember → bool) (q : list WaitingMember)
    : option (WaitingMember * list WaitingMember) :=
  match q with
  | [] => None
  | w :: q =>
    if P w then Some (w, q)
    else match remove_first P q with Some (x, rest) => Some (x, w :: rest) | None => None end
  end.

Definition held_by (h : bytes) (w : WaitingMember) : bool := bool_decide (holder w = h).

Definition own_corpse (flags : N → bool) (h : bytes) (w : WaitingMember) : bool :=
  held_by h w && is_dead flags (liveness w).

(** src/crates/edge/src/channel_broker.rs:437-481 [ChannelPairer::offer]: [searched] and
    [purged] are the flags as the search and the purge read them, since a client can die
    between the two. [None] is a failed [expect]. *)
Definition offer (searched purged : N → bool) (member : WaitingMember) (p : ChannelPairer)
    : option (PairOutcome * ChannelPairer) :=
  let '(found, queue, n) := search searched member (queue_of p (channel member)) in
  let dead := wrap64 (dead_dropped p + n) in
  match found with
  | Some candidate =>
    Some (Paired candidate member,
      {| waiting := match queue with
                    | [] => delete (channel member) (waiting p)
                    | _ => <[channel member := queue]> (waiting p)
                    end;
         dead_dropped := dead; sibling_sightings := sibling_sightings p |})
  | None =>
    let kept := filter (λ w, own_corpse purged (holder member) w = false) queue in
    let dead := wrap64 (dead + N.of_nat (length queue - length kept)) in
    let queue := kept ++ [member] in
    let own_count := length (filter (λ w, held_by (holder member) w = true) queue) in
    let with_queue queue := {| waiting := <[channel member := queue]> (waiting p);
      dead_dropped := dead; sibling_sightings := sibling_sightings p |} in
    if (PARKS_PER_MEMBER <? own_count)%nat then
      match remove_first (held_by (holder member)) queue with
      | Some (stale, queue) => Some (Superseded stale, with_queue queue)
      | None => None
      end
    else Some (Parked, with_queue queue)
  end.

(** ** The sweep *)

Definition expired (flags : N → bool) (now : N) (m : WaitingMember) : bool :=
  negb (is_dead flags (liveness m)) && (deadline m <=? now).
Definition fresh (flags : N → bool) (now : N) (m : WaitingMember) : bool :=
  negb (is_dead flags (liveness m)) && negb (deadline m <=? now).

(** src/crates/edge/src/channel_broker.rs:570-588
    [ChannelPairer::sibling_channel_mismatches]: [order] is the hash map's iteration order. *)
Definition sibling_channel_mismatches (order : list bytes) (p : ChannelPairer)
    (drained : list WaitingMember) : list Triple :=
  flat_map (λ e,
    match observed e with
    | None => []
    | Some addr =>
      match list_find (λ chan, chan ≠ channel e ∧
               existsb (λ w, bool_decide (observed w = Some addr)) (queue_of p chan) = true) order with
      | Some (_, chan) => [(channel e, chan, addr)]
      | None => []
      end
    end) drained.

(** src/crates/edge/src/channel_broker.rs:489-538 [ChannelPairer::drain_expired]: the expired
    members, the triples worth a line in the log (which is rate-limited outside the pairer),
    and the state. [order] and [order'] are the hash map's iteration orders before and after
    the sweep. *)
Definition drain_expired (order order' : list bytes) (flags : N → bool) (now : N)
    (p : ChannelPairer) : list WaitingMember * list Triple * ChannelPairer :=
  let drained := flat_map (λ c, filter (λ m, expired flags now m = true) (queue_of p c)) order in
  let dead := length (flat_map (λ c, filter (λ m, is_dead flags (liveness m) = true)
                                       (queue_of p c)) order) in
  let waiting' := omap (λ queue, match filter (λ m, fresh flags now m = true) queue with
                                 | [] => None
                                 | kept => Some kept
                                 end) (waiting p) in
  let p' := {| waiting := waiting'; dead_dropped := wrap64 (dead_dropped p + N.of_nat dead);
               sibling_sightings := sibling_sightings p |} in
  match drained with
  | [] => ([], [], p')
  | _ =>
    let triples := sibling_channel_mismatches order' p' drained in
    let '(confirmed, seen) := note_sibling_sightings (sibling_sightings p') triples now in
    (drained, confirmed,
     {| waiting := waiting p'; dead_dropped := dead_dropped p'; sibling_sightings := seen |})
  end.

(** Everybody parked, over all channels. *)
Definition all (ws : gmap bytes (list WaitingMember)) : list WaitingMember :=
  concat (map_to_list ws).*2.
Definition parked (p : ChannelPairer) : list WaitingMember := all (waiting p).

(** src/crates/edge/src/channel_broker.rs:591-593 [ChannelPairer::len] *)
Definition len (p : ChannelPairer) : nat := sum_list (length <$> (map_to_list (waiting p)).*2).

(** src/crates/edge/src/channel_broker.rs:595-597 [ChannelPairer::is_empty] *)
Definition is_empty (p : ChannelPairer) : bool := bool_decide (waiting p = ∅).

(** An iteration order of the hash map: each key once. *)
Definition iterates (order : list bytes) (p : ChannelPairer) : Prop :=
  order ≡ₚ (map_to_list (waiting p)).*1.

End pairer.

Arguments WaitingMember : clear implicits.
Arguments PairOutcome : clear implicits.
Arguments ChannelPairer : clear implicits.

Section facts.
Context {T : Type}.
Implicit Types (p : ChannelPairer T) (m w : WaitingMember T) (q : list (WaitingMember T)).

(** ** One offer *)

(** A park this arrival may be paired with: live, of another holder, of a fitting phase. *)
Definition partner (flags : N → bool) m w : Prop :=
  is_dead flags (liveness w) = false ∧ fits m w = true.

#[global] Instance partner_dec flags m w : Decision (partner flags m w).
Proof. unfold partner. apply _. Defined.

Definition alive (flags : N → bool) w : bool := negb (is_dead flags (liveness w)).

Definition live (flags : N → bool) q : list (WaitingMember T) :=
  filter (λ w, alive flags w = true) q.

#[local] Arguments live : simpl never.

Lemma live_cons flags w q :
  live flags (w :: q) = if alive flags w then w :: live flags q else live flags q.
Proof.
  unfold live. destruct (alive flags w) eqn:A;
    [by rewrite filter_cons_True|rewrite filter_cons_False; congruence].
Qed.

Lemma length_live flags q : (length (live flags q) <= length q)%nat.
Proof. apply length_filter. Qed.

(** What the search loop finds, without the loop: the first partner of the queue. *)
Lemma search_exact flags m q :
  search flags m q =
  match list_find (partner flags m) q with
  | Some (i, w) => (Some w, live flags (take i q) ++ drop (S i) q,
                    N.of_nat (i - length (live flags (take i q))))
  | None => (None, live flags q, N.of_nat (length q - length (live flags q)))
  end.
Proof.
  induction q as [|w q IH]; [done|]. cbn [search list_find]. rewrite IH.
  pose proof (length_live flags q) as L.
  destruct (decide (partner flags m w)) as [[D Fm]|N].
  { rewrite D, Fm. done. }
  assert (∀ i, (length (live flags (take i q)) <= i)%nat) as Li.
  { intros i. pose proof (length_live flags (take i q)). pose proof (length_take q i). lia. }
  destruct (is_dead flags (liveness w)) eqn:D.
  - destruct (list_find (partner flags m) q) as [[i x]|] eqn:F; cbn;
      rewrite live_cons; unfold alive; rewrite D; cbn; f_equal; [specialize (Li i)|]; lia.
  - destruct (fits m w) eqn:Fm; [by destruct N|].
    destruct (list_find (partner flags m) q) as [[i x]|] eqn:F; cbn;
      rewrite live_cons; unfold alive; rewrite D; done.
Qed.

Lemma search_partition flags m q found rest n :
  search flags m q = (found, rest, n) →
  ∃ corpses, q ≡ₚ option_list found ++ rest ++ corpses ∧ n = N.of_nat (length corpses) ∧
    Forall (λ w, is_dead flags (liveness w) = true) corpses ∧
    (∀ w, found = Some w → partner flags m w) ∧
    (found = None → Forall (λ w, alive flags w = true ∧ fits m w = false) rest).
Proof.
  revert found rest n. induction q as [|w q IH]; intros found rest n; cbn [search].
  { intros [= <- <- <-]. exists []. naive_solver. }
  destruct (is_dead flags (liveness w)) eqn:D.
  - destruct (search flags m q) as [[f r] k]. intros [= <- <- <-].
    destruct (IH _ _ _ eq_refl) as (cs & P & -> & F & G & Z). exists (w :: cs).
    split_and!; [|cbn [length]; lia|by constructor|done|done]. rewrite P. solve_Permutation.
  - destruct (fits m w) eqn:Fm.
    + intros [= <- <- <-]. exists []. cbn. rewrite app_nil_r.
      split_and!; [done|done|constructor| |done]. by intros ? [= <-].
    + destruct (search flags m q) as [[f r] k]. intros [= <- <- <-].
      destruct (IH _ _ _ eq_refl) as (cs & P & -> & F & G & Z). exists cs.
      split_and!; try done; [rewrite P; solve_Permutation|].
      intros N. constructor; [|by apply Z]. unfold alive. by rewrite D.
Qed.

Lemma remove_first_exact (P : WaitingMember T → bool) q :
  match remove_first P q with
  | Some (x, rest) => ∃ a b, q = a ++ x :: b ∧ rest = a ++ b ∧ P x = true ∧
                        Forall (λ w, P w = false) a
  | None => Forall (λ w, P w = false) q
  end.
Proof.
  induction q as [|w q IH]; [constructor|]. cbn [remove_first]. destruct (P w) eqn:E.
  - exists [], q. naive_solver.
  - destruct (remove_first P q) as [[x r]|].
    + destruct IH as (a & b & -> & -> & Px & F). exists (w :: a), b. naive_solver.
    + by constructor.
Qed.

(** How many parks of a queue a holder has. *)
Definition own (h : bytes) q : nat := length (filter (λ w, held_by h w = true) q).

Lemma own_app h q q' : own h (q ++ q') = (own h q + own h q')%nat.
Proof. unfold own. by rewrite filter_app, length_app. Qed.

Lemma own_sublist h q q' : sublist q q' → (own h q <= own h q')%nat.
Proof.
  induction 1 as [|w a b S IH|w a b S IH]; [done|change (own h ([w] ++ a) <= own h ([w] ++ b))%nat|
    change (own h a <= own h ([w] ++ b))%nat]; rewrite !own_app; lia.
Qed.

Lemma own_remove h q x rest :
  remove_first (held_by h) q = Some (x, rest) → own h q = S (own h rest) ∧
  (∀ h', (own h' rest <= own h' q)%nat).
Proof.
  intros E. pose proof (remove_first_exact (held_by h) q) as R. rewrite E in R.
  destruct R as (a & b & -> & -> & Px & F). split.
  - change (x :: b) with ([x] ++ b). rewrite !own_app. unfold own at 2.
    rewrite filter_cons_True by done. cbn. lia.
  - intros h'. apply own_sublist. by apply sublist_app, sublist_cons.
Qed.

Lemma remove_first_perm (P : WaitingMember T → bool) q x rest :
  remove_first P q = Some (x, rest) → q ≡ₚ x :: rest.
Proof.
  intros E. pose proof (remove_first_exact P q) as R. rewrite E in R.
  destruct R as (a & b & -> & -> & _). solve_Permutation.
Qed.

(** The queue an unmatched arrival joins: without the corpses, as the search and then the
    purge of its own parks see them. *)
Definition kept (searched purged : N → bool) m q : list (WaitingMember T) :=
  filter (λ w, own_corpse purged (holder m) w = false) (live searched q).

Lemma remove_first_app (P : WaitingMember T → bool) q q' x rest :
  remove_first P q = Some (x, rest) → remove_first P (q ++ q') = Some (x, rest ++ q').
Proof.
  revert x rest. induction q as [|w q IH]; intros x rest; [done|]. cbn [remove_first app].
  destruct (P w); [by intros [= <- <-]|].
  destruct (remove_first P q) as [[y r]|]; [|done]. intros [= <- <-]. by rewrite (IH y r).
Qed.

Lemma remove_first_own h q :
  (0 < own h q)%nat → ∃ x rest, remove_first (held_by h) q = Some (x, rest).
Proof.
  intros L. destruct (remove_first (held_by h) q) as [[x r]|] eqn:E; [by eauto|].
  pose proof (remove_first_exact (held_by h) q) as F. rewrite E in F. exfalso.
  assert (Z : own h q = 0%nat); [|lia]. clear L E. unfold own.
  induction F as [|w q Hw F IH]; [done|]. rewrite filter_cons_False; congruence.
Qed.

(** The result of an offer that finds a partner, and of one that does not. *)
Lemma offer_paired searched purged m p i w :
  let q := queue_of p (channel m) in
  list_find (partner searched m) q = Some (i, w) →
  ∃ p', offer searched purged m p = Some (Paired w m, p') ∧
    queue_of p' (channel m) = live searched (take i q) ++ drop (S i) q.
Proof.
  intros q F. unfold offer. rewrite search_exact. fold q. rewrite F. eexists. split; [done|].
  unfold queue_of. cbn [waiting].
  destruct (live searched (take i q) ++ drop (S i) q); [by rewrite lookup_delete_eq|].
  by rewrite lookup_insert_eq.
Qed.

Lemma offer_unpaired searched purged m p :
  let q := queue_of p (channel m) in
  let k := kept searched purged m q in
  list_find (partner searched m) q = None →
  ((own (holder m) k < PARKS_PER_MEMBER)%nat →
   ∃ p', offer searched purged m p = Some (Parked, p') ∧
     waiting p' = <[channel m := k ++ [m]]> (waiting p)) ∧
  ((PARKS_PER_MEMBER <= own (holder m) k)%nat →
   ∃ p' stale rest, offer searched purged m p = Some (Superseded stale, p') ∧
     remove_first (held_by (holder m)) k = Some (stale, rest) ∧
     waiting p' = <[channel m := rest ++ [m]]> (waiting p)).
Proof.
  intros q k F. unfold offer. rewrite search_exact. fold q. rewrite F.
  change (filter _ (live searched q)) with k.
  change (length (filter _ (k ++ [m]))) with (own (holder m) (k ++ [m])).
  assert (E : own (holder m) (k ++ [m]) = S (own (holder m) k)).
  { rewrite own_app. unfold own at 2. rewrite filter_cons_True by (by apply bool_decide_eq_true).
    cbn. lia. }
  rewrite E. split; intros L.
  - rewrite (proj2 (Nat.ltb_ge _ _)) by lia. eexists. split; [done|]. done.
  - rewrite (proj2 (Nat.ltb_lt _ _)) by lia.
    destruct (remove_first_own (holder m) k) as (x & r & R); [unfold PARKS_PER_MEMBER in L; lia|].
    rewrite (remove_first_app _ _ _ _ _ R). eexists _, x, r. done.
Qed.

Lemma offer_elsewhere searched purged m p o p' c :
  offer searched purged m p = Some (o, p') → c ≠ channel m → waiting p' !! c = waiting p !! c.
Proof.
  unfold offer. destruct (search _ _ _) as [[[w|] rest] n]; intros E N.
  - injection E as <- <-. cbn. destruct rest; [by rewrite lookup_delete_ne|].
    by rewrite lookup_insert_ne.
  - destruct (_ <? _)%nat; [destruct (remove_first _ _) as [[x r]|]; [|done]|];
      injection E as <- <-; cbn; by rewrite lookup_insert_ne.
Qed.

(** An offer always succeeds and touches its own channel only. It pairs the arrival with
    the oldest live park of another holder in a compatible phase; the queue loses that park
    and the corpses in front of it. Without one, the queue loses its corpses and the arrival
    joins at the end; when its holder had four parks left, the oldest of them is superseded. *)
Theorem offer_exact searched purged m p :
  let q := queue_of p (channel m) in
  let k := kept searched purged m q in
  ∃ outcome p', offer searched purged m p = Some (outcome, p') ∧
    (∀ c, c ≠ channel m → queue_of p' c = queue_of p c) ∧
    match list_find (partner searched m) q with
    | Some (i, w) => outcome = Paired w m ∧
        queue_of p' (channel m) = live searched (take i q) ++ drop (S i) q
    | None =>
      if (own (holder m) k <? PARKS_PER_MEMBER)%nat
      then outcome = Parked ∧ queue_of p' (channel m) = k ++ [m]
      else ∃ older stale newer, k = older ++ stale :: newer ∧
        Forall (λ w, holder w ≠ holder m) older ∧ holder stale = holder m ∧
        outcome = Superseded stale ∧ queue_of p' (channel m) = older ++ newer ++ [m]
    end.
Proof.
  intros q k. assert (X : ∀ o p', offer searched purged m p = Some (o, p') →
    ∀ c, c ≠ channel m → queue_of p' c = queue_of p c).
  { intros o p' E c N. unfold queue_of. by rewrite (offer_elsewhere _ _ _ _ _ _ _ E N). }
  destruct (list_find (partner searched m) q) as [[i w]|] eqn:F.
  - destruct (offer_paired searched purged m p i w F) as (p' & E & Q). eauto 10.
  - destruct (offer_unpaired searched purged m p F) as [U V]. fold q k in U, V.
    destruct (_ <? _)%nat eqn:L.
    + apply Nat.ltb_lt in L. destruct (U L) as (p' & E & W). eexists _, p'.
      split_and!; [done|by eauto|done|]. unfold queue_of. by rewrite W, lookup_insert_eq.
    + apply Nat.ltb_ge in L. destruct (V L) as (p' & stale & rest & E & R & W).
      eexists _, p'. split_and!; [done|by eauto|].
      pose proof (remove_first_exact (held_by (holder m)) k) as Z. rewrite R in Z.
      destruct Z as (a & b & Ek & -> & Hs & Ha). exists a, stale, b. unfold queue_of.
      rewrite W, lookup_insert_eq. cbn. rewrite app_assoc. split_and!; try done.
      * eapply Forall_impl; [exact Ha|]. intros x Hx. by apply bool_decide_eq_false in Hx.
      * by apply bool_decide_eq_true in Hs.
Qed.

(** ** The queues of a reachable pairer *)

(** A queue holds its channel's members, at most four of a holder, and nobody who could have
    been paired with anybody else in it. *)
Definition queue_ok (c : bytes) q : Prop :=
  (∀ w, w ∈ q → channel w = c) ∧ (∀ h, (own h q <= PARKS_PER_MEMBER)%nat) ∧
  (∀ w w', w ∈ q → w' ∈ q → fits w w' = false).

Definition wf p : Prop := map_Forall (λ c q, q ≠ [] ∧ queue_ok c q) (waiting p).

Lemma queue_ok_sublist c q q' : sublist q' q → queue_ok c q → queue_ok c q'.
Proof.
  intros S (K & C & F). pose proof (sublist_submseteq _ _ S) as I.
  split_and!; [|intros h; specialize (C h); pose proof (own_sublist h _ _ S); lia|];
    intros; [apply K|apply F]; by eapply elem_of_submseteq.
Qed.

Lemma wf_queue p c : wf p → queue_ok c (queue_of p c).
Proof.
  intros W. unfold queue_of. destruct (waiting p !! c) as [q|] eqn:E; [by destruct (W c q E)|].
  split_and!; [by intros w ?%not_elem_of_nil|intros; cbn; lia|by intros w w' ?%not_elem_of_nil].
Qed.

Lemma wf_insert p c q :
  wf p → q ≠ [] → queue_ok c q → map_Forall (λ c q, q ≠ [] ∧ queue_ok c q) (<[c := q]> (waiting p)).
Proof. intros W N Q. by apply map_Forall_insert_2. Qed.

Lemma compatible_sym a b : compatible a b = compatible b a.
Proof. by destruct a, b. Qed.

Lemma fits_sym m w : fits m w = fits w m.
Proof.
  unfold fits. rewrite compatible_sym. do 2 f_equal.
  apply bool_decide_ext. split; congruence.
Qed.

Lemma fits_self m : fits m m = false.
Proof. unfold fits. by rewrite bool_decide_true. Qed.

Lemma live_sublist flags q : sublist (live flags q) q.
Proof. apply sublist_filter. Qed.

Lemma kept_sublist searched purged m q : sublist (kept searched purged m q) q.
Proof. etrans; [apply sublist_filter|apply live_sublist]. Qed.

Lemma kept_no_partner searched purged m q w :
  list_find (partner searched m) q = None → w ∈ kept searched purged m q → fits m w = false.
Proof.
  intros F I. apply list_elem_of_filter in I as [_ I]. apply list_elem_of_filter in I as [A I].
  apply list_find_None in F. rewrite list.Forall_forall in F. specialize (F w I).
  unfold partner, alive in *. apply negb_true_iff in A. destruct (fits m w); [|done]. by destruct F.
Qed.

Lemma queue_ok_snoc c m q :
  queue_ok c q → channel m = c → (own (holder m) q < PARKS_PER_MEMBER)%nat →
  (∀ w, w ∈ q → fits m w = false) → queue_ok c (q ++ [m]).
Proof.
  intros (K & C & F) E L N. split_and!.
  - intros w [?| ->%list_elem_of_singleton]%elem_of_app; auto.
  - intros h. rewrite own_app. specialize (C h). unfold own at 2.
    destruct (decide (holder m = h)) as [<-|D].
    + rewrite filter_cons_True by (by apply bool_decide_eq_true). cbn. lia.
    + rewrite filter_cons_False by (unfold held_by; by rewrite bool_decide_false). cbn. lia.
  - intros w w' [?| ->%list_elem_of_singleton]%elem_of_app
      [?| ->%list_elem_of_singleton]%elem_of_app; auto using fits_self.
    rewrite fits_sym. auto.
Qed.

Lemma offer_wf searched purged m p o p' :
  wf p → offer searched purged m p = Some (o, p') → wf p'.
Proof.
  intros W E. pose proof (wf_queue p (channel m) W) as Q.
  set (q := queue_of p (channel m)) in *. set (k := kept searched purged m q) in *.
  destruct (list_find (partner searched m) q) as [[i w]|] eqn:F.
  - unfold offer in E. rewrite search_exact in E. fold q in E. rewrite F in E.
    injection E as <- <-. unfold wf. cbn [waiting].
    assert (S : sublist (live searched (take i q) ++ drop (S i) q) q).
    { rewrite <- (take_drop i q) at 3. apply sublist_app; [apply live_sublist|].
      replace (S i) with (i + 1)%nat by lia. rewrite <- drop_drop. apply sublist_drop. }
    destruct (live _ _ ++ _) as [|x r] eqn:R; [by apply map_Forall_delete|].
    apply wf_insert; [done|done|]. by eapply queue_ok_sublist.
  - destruct (offer_unpaired searched purged m p F) as [U V]. fold q k in U, V.
    assert (Qk : queue_ok (channel m) k)
      by (eapply queue_ok_sublist; [apply kept_sublist|done]).
    assert (N : ∀ w, w ∈ k → fits m w = false) by (intros; by eapply kept_no_partner).
    destruct (Nat.lt_ge_cases (own (holder m) k) PARKS_PER_MEMBER) as [L|L].
    + destruct (U L) as (p1 & E1 & W1). rewrite E in E1. injection E1 as -> <-. unfold wf.
      rewrite W1. apply wf_insert; [done|by destruct k|]. by apply queue_ok_snoc.
    + destruct (V L) as (p1 & st & rest & E1 & R & W1). rewrite E in E1. injection E1 as -> <-.
      unfold wf. rewrite W1. apply wf_insert; [done|by destruct rest|].
      destruct (own_remove _ _ _ _ R) as [Own _].
      assert (S : sublist rest k).
      { pose proof (remove_first_exact (held_by (holder m)) k) as Z. rewrite R in Z.
        destruct Z as (a & b & -> & -> & _). by apply sublist_app, sublist_cons. }
      apply queue_ok_snoc; [by eapply queue_ok_sublist|done| |].
      * destruct Qk as (_ & C & _). specialize (C (holder m)). lia.
      * intros w I. apply N. eapply elem_of_submseteq; [exact I|]. by apply sublist_submseteq.
Qed.

Lemma drain_waiting order order' flags now p ds c p' :
  drain_expired order order' flags now p = (ds, c, p') →
  waiting p' = omap (λ q, match filter (λ m, fresh flags now m = true) q with
                          | [] => None | k => Some k end) (waiting p) ∧
  ds = flat_map (λ c, filter (λ m, expired flags now m = true) (queue_of p c)) order ∧
  dead_dropped p' = wrap64 (dead_dropped p + N.of_nat (length (flat_map (λ c,
    filter (λ m, is_dead flags (liveness m) = true) (queue_of p c)) order))).
Proof.
  unfold drain_expired. destruct (flat_map _ order) as [|d ds'] eqn:E.
  - intros [= <- <- <-]. done.
  - destruct (note_sibling_sightings _ _ _) as [cf seen]. intros [= <- <- <-]. done.
Qed.

Lemma drain_queue order order' flags now p ds c p' ch :
  drain_expired order order' flags now p = (ds, c, p') →
  queue_of p' ch = filter (λ m, fresh flags now m = true) (queue_of p ch).
Proof.
  intros (E & _)%drain_waiting. unfold queue_of. rewrite E, lookup_omap.
  destruct (waiting p !! ch) as [q|]; [|done]. cbn. by destruct (filter _ q).
Qed.

Lemma drain_wf order order' flags now p ds c p' :
  wf p → drain_expired order order' flags now p = (ds, c, p') → wf p'.
Proof.
  intros W E ch q Hq. pose proof (drain_queue _ _ _ _ _ _ _ _ ch E) as Q.
  apply drain_waiting in E as (E & _). rewrite E, lookup_omap in Hq.
  unfold queue_of in Q. rewrite E, lookup_omap in Q.
  destruct (waiting p !! ch) as [q0|] eqn:L; [|done]. destruct (W ch q0 L) as [_ K]. cbn in *.
  destruct (filter _ q0) as [|x r] eqn:R; [done|]. injection Hq as <-. split; [done|].
  eapply queue_ok_sublist; [|exact K]. rewrite <- R. apply sublist_filter.
Qed.

(** ** What becomes of every park *)

Implicit Types (ws : gmap bytes (list (WaitingMember T))).

Lemma all_delete ws c : all ws ≡ₚ default [] (ws !! c) ++ all (delete c ws).
Proof.
  unfold all. destruct (ws !! c) as [q|] eqn:E; [|by rewrite delete_id].
  rewrite <- (map_to_list_delete ws c q E). done.
Qed.

Lemma all_insert ws c q : all (<[c := q]> ws) ≡ₚ q ++ all (delete c ws).
Proof.
  rewrite (all_delete _ c), lookup_insert_eq, delete_insert_eq. done.
Qed.

Lemma all_omap (g : list (WaitingMember T) → option (list (WaitingMember T))) ws :
  all (omap g ws) ≡ₚ concat ((λ q, default [] (g q)) <$> (map_to_list ws).*2).
Proof.
  induction ws as [|c q ws E IH] using map_ind; [done|].
  rewrite map_to_list_insert by done. cbn. rewrite <- IH. destruct (g q) as [q'|] eqn:G; cbn.
  - rewrite (omap_insert_Some _ _ _ _ q') by done. rewrite all_insert.
    by rewrite delete_id by (by rewrite lookup_omap, E).
  - rewrite omap_insert_None by done. by rewrite delete_id by (by rewrite lookup_omap, E).
Qed.

Lemma queues_in_order (f : list (WaitingMember T) → list (WaitingMember T)) p :
  map (λ c, f (queue_of p c)) (map_to_list (waiting p)).*1 = f <$> (map_to_list (waiting p)).*2.
Proof.
  rewrite <- list_fmap_compose. unfold fmap at 1. rewrite map_map. apply map_ext_in.
  intros [c q] H. apply list_elem_of_In, elem_of_map_to_list in H. unfold queue_of. cbn in *.
  by rewrite H.
Qed.

Lemma over_order (f : list (WaitingMember T) → list (WaitingMember T)) p order :
  iterates order p →
  flat_map (λ c, f (queue_of p c)) order ≡ₚ concat (f <$> (map_to_list (waiting p)).*2).
Proof.
  intros I. rewrite flat_map_concat_map, <- queues_in_order. unfold iterates in I. by rewrite I.
Qed.

(** A sweep splits a queue in three. *)
Lemma sweep_split flags now q :
  q ≡ₚ filter (λ m, fresh flags now m = true) q ++
       filter (λ m, expired flags now m = true) q ++
       filter (λ m, is_dead flags (liveness m) = true) q.
Proof.
  induction q as [|w q IH]; [done|].
  destruct (is_dead flags (liveness w)) eqn:D, (deadline w <=? now) eqn:L.
  all: repeat first
    [rewrite filter_cons_True by (unfold fresh, expired; rewrite ?D, ?L; done)
    |rewrite filter_cons_False by (unfold fresh, expired; rewrite ?D, ?L; done)].
  all: rewrite IH at 1; solve_Permutation.
Qed.

(** The parks an outcome hands out. *)
Definition fate (o : PairOutcome T) : list (WaitingMember T) :=
  match o with Parked => [] | Paired a b => [a; b] | Superseded s => [s] end.

(** Corpses are monitored parks. *)
Definition monitored w : Prop := liveness w ≠ None.

Lemma dead_monitored flags w : is_dead flags (liveness w) = true → monitored w.
Proof. unfold monitored. by destruct (liveness w). Qed.

Lemma wrap64_add a b : wrap64 (wrap64 a + b) = wrap64 (a + b).
Proof. unfold wrap64. apply N.Div0.add_mod_idemp_l. Qed.

Lemma count_more r d n c :
  wrap64 (r + d) = wrap64 c → wrap64 (r + wrap64 (d + n)) = wrap64 (n + c).
Proof.
  intros E. rewrite (N.add_comm r), wrap64_add, (N.add_comm n c), <- (wrap64_add c), <- E, wrap64_add.
  f_equal. lia.
Qed.

Lemma filter_split (P : WaitingMember T → bool) q :
  q ≡ₚ filter (λ w, P w = false) q ++ filter (λ w, P w = true) q.
Proof.
  induction q as [|w q IH]; [done|]. destruct (P w) eqn:E.
  - rewrite filter_cons_False, filter_cons_True by congruence. rewrite IH at 1. solve_Permutation.
  - rewrite filter_cons_True, filter_cons_False by congruence. rewrite IH at 1. solve_Permutation.
Qed.

Lemma offer_conserves searched purged m p o p' :
  offer searched purged m p = Some (o, p') →
  ∃ corpses, m :: parked p ≡ₚ parked p' ++ fate o ++ corpses ∧ Forall monitored corpses ∧
    dead_dropped p' = wrap64 (dead_dropped p + N.of_nat (length corpses)).
Proof.
  intros E. unfold offer in E.
  destruct (search searched m (queue_of p (channel m))) as [[found rest] n] eqn:S.
  destruct (search_partition _ _ _ _ _ _ S) as (cs & P & -> & D & _).
  assert (A : parked p ≡ₚ queue_of p (channel m) ++ all (delete (channel m) (waiting p)))
    by apply all_delete.
  rewrite P in A.
  assert (M : Forall monitored cs) by (eapply Forall_impl; [exact D|]; intros w Hw; exact (dead_monitored _ w Hw)).
  destruct found as [w|].
  - injection E as <- <-. exists cs. split; [|done]. cbn [fate option_list] in *.
    assert (Q : parked {| waiting := match rest with [] => delete (channel m) (waiting p)
                  | _ => <[channel m := rest]> (waiting p) end;
                dead_dropped := wrap64 (dead_dropped p + N.of_nat (length cs));
                sibling_sightings := sibling_sightings p |} ≡ₚ
                rest ++ all (delete (channel m) (waiting p)))
      by (destruct rest; [done|]; apply all_insert).
    rewrite Q, A. solve_Permutation.
  - set (gone := filter (λ w, own_corpse purged (holder m) w = true) rest).
    pose proof (filter_split (own_corpse purged (holder m)) rest) as K. fold gone in K.
    set (k := filter (λ w, own_corpse purged (holder m) w = false) rest) in *.
    assert (G : Forall monitored gone).
    { apply list.Forall_forall. intros w [H _]%list_elem_of_filter.
      apply andb_true_iff in H as [_ H]. by eapply dead_monitored. }
    assert (L : (length rest - length k)%nat = length gone)
      by (apply Permutation_length in K; rewrite length_app in K; lia).
    exists (cs ++ gone). rewrite L, length_app, Nat2N.inj_add, N.add_assoc, wrap64_add in *.
    cbn [option_list app] in A. destruct (_ <? _)%nat.
    + destruct (remove_first _ _) as [[x r]|] eqn:R; [|done]. injection E as <- <-.
      apply remove_first_perm in R. split_and!; [|by apply Forall_app|done].
      unfold parked. cbn [waiting fate]. rewrite all_insert, A, K.
      transitivity ((k ++ [m]) ++ gone ++ cs ++ all (delete (channel m) (waiting p)));
        [|rewrite R]; solve_Permutation.
    + injection E as <- <-. split_and!; [|by apply Forall_app|done].
      unfold parked. cbn [waiting fate]. rewrite all_insert, A, K. solve_Permutation.
Qed.

Lemma concat_perm (f g h : list (WaitingMember T) → list (WaitingMember T)) ql :
  (∀ q, q ≡ₚ f q ++ g q ++ h q) → concat ql ≡ₚ concat (f <$> ql) ++ concat (g <$> ql) ++ concat (h <$> ql).
Proof.
  intros S. induction ql as [|q ql IH]; [done|]. cbn. rewrite IH, (S q) at 1. solve_Permutation.
Qed.

Lemma drain_conserves order order' flags now p ds c p' :
  iterates order p → drain_expired order order' flags now p = (ds, c, p') →
  ∃ corpses, parked p ≡ₚ parked p' ++ ds ++ corpses ∧ Forall monitored corpses ∧
    dead_dropped p' = wrap64 (dead_dropped p + N.of_nat (length corpses)).
Proof.
  intros I (W & -> & D)%drain_waiting.
  exists (flat_map (λ c, filter (λ m, is_dead flags (liveness m) = true) (queue_of p c)) order).
  split_and!; [|apply list.Forall_forall|done].
  - unfold parked at 2. rewrite W, all_omap.
    rewrite (over_order (filter (λ m, expired flags now m = true)) p order I).
    rewrite (over_order (filter (λ m, is_dead flags (liveness m) = true)) p order I).
    unfold parked, all. rewrite (concat_perm (filter (λ m, fresh flags now m = true))
      (filter (λ m, expired flags now m = true)) (filter (λ m, is_dead flags (liveness m) = true)))
      by apply sweep_split.
    apply Permutation_app_tail. apply reflexive_eq. f_equal. apply list_fmap_ext.
    intros _ q _. by destruct (filter _ q).
  - intros w H. rewrite list_elem_of_In, in_flat_map in H. destruct H as (ch & _ & H).
    apply list_elem_of_In, list_elem_of_filter in H as [H _]. by eapply dead_monitored.
Qed.

(** What a pairer has been asked and has answered: the members offered, the pairs, the
    superseded and the expired parks it returned, and the corpses it reported. *)
Record Ledger := {
  offered : list (WaitingMember T);
  pairs : list (WaitingMember T * WaitingMember T);
  superseded : list (WaitingMember T);
  ended : list (WaitingMember T);
  reported : N;
}.

Definition record_offer m (o : PairOutcome T) (l : Ledger) : Ledger :=
  {| offered := m :: offered l;
     pairs := match o with Paired a b => (a, b) :: pairs l | _ => pairs l end;
     superseded := match o with Superseded s => s :: superseded l | _ => superseded l end;
     ended := ended l; reported := reported l |}.

(** The runs of a pairer: offers, sweeps and reports in any order. *)
Inductive history : ChannelPairer T → Ledger → Prop :=
| h_new : history new {| offered := []; pairs := []; superseded := []; ended := []; reported := 0 |}
| h_offer p l searched purged m o p' :
    history p l → offer searched purged m p = Some (o, p') → history p' (record_offer m o l)
| h_drain p l order order' flags now ds c p' :
    history p l → iterates order p → drain_expired order order' flags now p = (ds, c, p') →
    history p' {| offered := offered l; pairs := pairs l; superseded := superseded l;
                  ended := ds ++ ended l; reported := reported l |}
| h_report p l n p' :
    history p l → take_dead_dropped p = (n, p') →
    history p' {| offered := offered l; pairs := pairs l; superseded := superseded l;
                  ended := ended l; reported := reported l + n |}.

Definition members (l : list (WaitingMember T * WaitingMember T)) : list (WaitingMember T) :=
  flat_map (λ ab, [ab.1; ab.2]) l.

(** Two members that may be brokered with each other. *)
Definition well_paired (ab : WaitingMember T * WaitingMember T) : Prop :=
  channel ab.1 = channel ab.2 ∧ holder ab.1 ≠ holder ab.2 ∧ compatible (phase ab.1) (phase ab.2) = true.

Lemma history_wf p l : history p l → wf p.
Proof.
  induction 1 as [|p l d1 d2 m o p' _ W E|p l order order' flags now ds c p' _ W _ E|p l n p' _ W E].
  - intros c q H. unfold new in H. cbn [waiting] in H. by rewrite lookup_empty in H.
  - by eapply offer_wf.
  - by eapply drain_wf.
  - by injection E as <- <-.
Qed.

Lemma offer_well_paired d1 d2 m p a b p' :
  wf p → offer d1 d2 m p = Some (Paired a b, p') → well_paired (a, b).
Proof.
  intros W E. pose proof (wf_queue p (channel m) W) as (K & _). unfold offer in E.
  destruct (search _ _ _) as [[[w|] rest] n] eqn:S.
  - injection E as <- <- <-. destruct (search_partition _ _ _ _ _ _ S) as (cs & P & _ & _ & F & _).
    destruct (F w eq_refl) as [_ Fit]. unfold fits in Fit. apply andb_true_iff in Fit as [H C].
    apply negb_true_iff, bool_decide_eq_false in H. unfold well_paired. cbn.
    split_and!; [|done|done]. apply K. rewrite P. cbn. by left.
  - destruct (_ <? _)%nat; [destruct (remove_first _ _) as [[x r]|]|]; done.
Qed.

Lemma history_paired p l : history p l → Forall well_paired (pairs l).
Proof.
  induction 1 as [|p l d1 d2 m o p' H F E|p l order order' flags now ds c p' _ F _ E|p l n p' _ F E];
    [constructor| |done|done].
  destruct o; cbn; try done. constructor; [|done].
  by eapply offer_well_paired; [eapply history_wf|].
Qed.

Lemma history_accounts p l :
  history p l →
  ∃ corpses, offered l ≡ₚ parked p ++ members (pairs l) ++ superseded l ++ ended l ++ corpses ∧
    Forall monitored corpses ∧
    wrap64 (reported l + dead_dropped p) = wrap64 (N.of_nat (length corpses)).
Proof.
  induction 1 as [|p l d1 d2 m o p' _ (cs & P & M & D) E|
    p l order order' flags now ds c p' _ (cs & P & M & D) I E|p l n p' _ (cs & P & M & D) E].
  - exists []. done.
  - destruct (offer_conserves _ _ _ _ _ _ E) as (new & P' & M' & D'). exists (new ++ cs).
    split_and!; [|by apply Forall_app|].
    + cbn. rewrite P. transitivity ((m :: parked p) ++ members (pairs l) ++ superseded l ++ ended l ++ cs);
        [done|]. rewrite P'. destruct o; cbn; solve_Permutation.
    + cbn. rewrite D', length_app, Nat2N.inj_add. by apply count_more.
  - destruct (drain_conserves _ _ _ _ _ _ _ _ I E) as (new & P' & M' & D'). exists (new ++ cs).
    split_and!; [|by apply Forall_app|].
    + cbn. rewrite P, P'. solve_Permutation.
    + cbn. rewrite D', length_app, Nat2N.inj_add. by apply count_more.
  - injection E as <- <-. exists cs. split_and!; [done|done|]. cbn. by rewrite N.add_0_r.
Qed.

(** C13 In every run of a pairer, whatever dies when and in whatever order members come:
    every member offered is parked, paired, returned as superseded, returned as expired or
    counted as a corpse, exactly once (the count modulo 2^64), and only monitored parks are
    counted as corpses; pairs hold two holders of one channel with compatible phases; no two
    members that could be paired are left waiting; and no holder has more than four parks on
    a channel. *)
Theorem every_park_accounted p l :
  history p l →
  (∃ corpses, offered l ≡ₚ parked p ++ members (pairs l) ++ superseded l ++ ended l ++ corpses ∧
    Forall monitored corpses ∧
    wrap64 (reported l + dead_dropped p) = wrap64 (N.of_nat (length corpses))) ∧
  Forall well_paired (pairs l) ∧
  (∀ c a b, a ∈ queue_of p c → b ∈ queue_of p c → ¬ well_paired (a, b)) ∧
  (∀ c h, (own h (queue_of p c) <= PARKS_PER_MEMBER)%nat).
Proof.
  intros H. pose proof (history_wf _ _ H) as W.
  split_and!; [by apply history_accounts|by eapply history_paired| |].
  - intros c a b Ia Ib (C & Hh & Ph). pose proof (wf_queue p c W) as (_ & _ & F).
    specialize (F a b Ia Ib). cbn in Hh, Ph. unfold fits in F.
    rewrite bool_decide_false in F by congruence. cbn [negb andb] in F. rewrite compatible_sym in F. congruence.
  - intros c h. by destruct (wf_queue p c W) as (_ & C & _).
Qed.

(** A sweep returns exactly the live parks whose deadline has come, leaves exactly the
    live ones whose deadline has not, in their order, keeps no empty queue, and counts the
    corpses; the order in which the hash map is walked only permutes what is returned. *)
Theorem drain_exact order order' flags now p ds c p' :
  wf p → iterates order p → drain_expired order order' flags now p = (ds, c, p') →
  ds ≡ₚ filter (λ m, expired flags now m = true) (parked p) ∧
  (∀ ch, queue_of p' ch = filter (λ m, fresh flags now m = true) (queue_of p ch)) ∧
  dead_dropped p' = wrap64 (dead_dropped p +
    N.of_nat (length (filter (λ m, is_dead flags (liveness m) = true) (parked p)))) ∧
  (is_empty p' = true ↔ parked p' = []) ∧ len p' = length (parked p').
Proof.
  intros W I E. pose proof (drain_wf _ _ _ _ _ _ _ _ W E) as W'.
  assert (Fc : ∀ (P : WaitingMember T → bool) ql, filter (λ m, P m = true) (concat ql) =
    concat (filter (λ m, P m = true) <$> ql)).
  { intros P ql. induction ql as [|q ql IH]; [done|]. cbn. by rewrite filter_app, IH. }
  split_and!.
  - apply drain_waiting in E as (_ & -> & _). rewrite over_order by done.
    unfold parked, all. by rewrite Fc.
  - intros. by eapply drain_queue.
  - apply drain_waiting in E as (_ & _ & ->). do 3 f_equal. apply Permutation_length.
    rewrite over_order by done. unfold parked, all. by rewrite Fc.
  - unfold is_empty. rewrite bool_decide_eq_true. unfold parked, all. split; [by intros ->|].
    intros Z. apply map_empty. intros ch. destruct (waiting p' !! ch) as [q|] eqn:L; [|done].
    destruct (W' ch q L) as [N _]. exfalso. apply N. destruct q as [|w q]; [done|].
    assert (In : w ∈ concat (map_to_list (waiting p')).*2); [|by rewrite Z in In; apply not_elem_of_nil in In].
    apply list_elem_of_In, in_concat. exists (w :: q). split; [|by left].
    apply list_elem_of_In, list_elem_of_fmap. exists (ch, w :: q). by rewrite elem_of_map_to_list.
  - unfold len, parked, all. induction (map_to_list (waiting p')).*2 as [|q l IH]; [done|].
    cbn. by rewrite length_app, IH.
Qed.

End facts.

(** ** The diagnostic's memory, triple by triple *)

(** The occurrences of a triple in one sweep. *)
Definition occurrences (t : Triple) (ts : list Triple) : nat :=
  length (filter (λ t', t' = t) ts).

(** What is still remembered at [now]. *)
Definition remembered (now : N) (s : option SiblingSighting) : option SiblingSighting :=
  match s with
  | Some s => if now - last s <=? SIBLING_PRUNE_SECS then Some s else None
  | None => None
  end.

(** A triple seen [n] more times at [now]. *)
Definition seen_again (now : N) (n : nat) (s : option SiblingSighting) : option SiblingSighting :=
  match n with
  | O => s
  | _ => Some {| first := from_option first now s; last := now;
                 count := N.min (from_option count 0 s + N.of_nat n) (U32 - 1) |}
  end.

(** Worth a line in the log. *)
Definition persistent (now : N) (s : option SiblingSighting) : Prop :=
  match s with
  | Some s => SIBLING_MIN_SIGHTINGS <= count s ∧ SIBLING_PERSISTENCE_SECS <= now - first s
  | None => False
  end.

Lemma sight_all now ts seen confirmed seen' confirmed' t :
  (∀ s, seen !! t = Some s → count s < U32) →
  foldl (sight now) (seen, confirmed) ts = (seen', confirmed') →
  seen' !! t = seen_again now (occurrences t ts) (seen !! t) ∧
  (t ∈ confirmed' ↔ t ∈ confirmed ∨ occurrences t ts ≠ 0%nat ∧ persistent now (seen' !! t)).
Proof.
  revert seen confirmed. induction ts as [|x ts IH]; intros seen confirmed B; cbn [foldl].
  { intros [= <- <-]. cbn. naive_solver. }
  destruct (sight now (seen, confirmed) x) as [seen1 conf1] eqn:E. intros F.
  unfold sight in E. injection E as E1 E2. unfold occurrences.
  set (s0 := default {| first := now; last := now; count := 0 |} (seen !! x)) in *.
  destruct (decide (x = t)) as [->|N].
  - assert (L : seen1 !! t = Some {| first := first s0; last := now;
                                     count := N.min (count s0 + 1) (U32 - 1) |})
      by (rewrite <- E1; apply lookup_insert_eq).
    assert (B0 : count s0 < U32)
      by (subst s0; destruct (seen !! t) as [s|]; cbn; [by apply B|unfold U32; lia]).
    destruct (IH seen1 conf1) as [H1 H2]; [intros s; rewrite L; intros [= <-]; cbn; lia|done|].
    rewrite filter_cons_True by done. cbn [length]. rewrite H1, L in H2. rewrite H1, L.
    change (length (filter _ ts)) with (occurrences t ts) in *.
    assert (Eq : seen_again now (occurrences t ts) (Some {| first := first s0; last := now;
                   count := N.min (count s0 + 1) (U32 - 1) |}) =
                 seen_again now (S (occurrences t ts)) (seen !! t)).
    { subst s0. destruct (occurrences t ts) as [|n], (seen !! t) as [s|]; cbn; do 2 f_equal; lia. }
    split; [exact Eq|]. rewrite H2, Eq, <- E2. clear H1 H2 E1 E2 F IH L B.
    set (P := persistent now (seen_again now (S (occurrences t ts)) (seen !! t))) in *.
    destruct (_ && _) eqn:C.
    + apply andb_true_iff in C as [C1 C2]. apply N.leb_le in C1, C2.
      rewrite elem_of_app, list_elem_of_singleton.
      assert P as HP; [|split; intros _; [right; by split|left; by right]]. subst P. rewrite <- Eq.
      destruct (occurrences t ts); cbn in *; split; (done || lia).
    + assert (occurrences t ts = 0%nat → ¬ P) as Z.
      { intros O HP. subst P. rewrite <- Eq, O in HP. cbn in HP. destruct HP as [C1 C2].
        apply N.leb_le in C1, C2. by rewrite C1, C2 in C. }
      destruct (occurrences t ts) as [|n];
        [split; (intros [?|[? ?]]; [by left|by destruct Z])|].
      split; (intros [?|[_ ?]]; [by left|right; by split]).
  - assert (L : seen1 !! t = seen !! t) by (rewrite <- E1; by apply lookup_insert_ne).
    destruct (IH seen1 conf1) as [H1 H2]; [by rewrite L|done|].
    rewrite filter_cons_False by done. rewrite H1, L in *. split; [done|]. rewrite H2, <- E2.
    destruct (_ && _); [|done]. rewrite elem_of_app, list_elem_of_singleton.
    assert (Z : t = x ↔ False) by (split; [congruence|done]). rewrite Z. tauto.
Qed.

(** The diagnostic judges every triple on its own: after a sweep the memory of a triple
    is what was remembered, unless it is older than ten minutes, with the new sightings
    counted from the first one; the triple is reported by this sweep exactly when it was
    sighted in it and has ten sightings over at least fifteen minutes. *)
Theorem sibling_sightings_exact seen triples now confirmed seen' t :
  (∀ s, seen !! t = Some s → count s < U32) →
  note_sibling_sightings seen triples now = (confirmed, seen') →
  seen' !! t = seen_again now (occurrences t triples) (remembered now (seen !! t)) ∧
  (t ∈ confirmed ↔ occurrences t triples ≠ 0%nat ∧ persistent now (seen' !! t)).
Proof.
  intros B. unfold note_sibling_sightings.
  set (kept := filter _ seen).
  assert (K : kept !! t = remembered now (seen !! t)).
  { subst kept. rewrite map_lookup_filter. destruct (seen !! t) as [s|]; [|done]. cbn.
    destruct (N.leb_spec (now - last s) SIBLING_PRUNE_SECS).
    - by rewrite option_guard_True.
    - rewrite option_guard_False; [done|cbn; lia]. }
  destruct (foldl (sight now) (kept, []) triples) as [s1 c1] eqn:F. intros [= <- <-].
  destruct (sight_all now triples kept [] s1 c1 t) as [H1 H2]; [|done|].
  - intros s. rewrite K. unfold remembered. destruct (seen !! t); [|done].
    destruct (_ <=? _); [|done]. intros [= <-]. by apply B.
  - rewrite H1, K in *. split; [done|]. rewrite H2.
    split; [by intros [?%not_elem_of_nil|?]|by right].
Qed.

(** ** Concrete runs *)

Section demo.

Definition chan (n : N) : bytes := [byte_of_N n].

Definition demo_park (c h : N) (f : ParkLiveness) (ph : ParkPhase) (d : N) : WaitingMember N :=
  {| channel := chan c; holder := chan h; observed := Some (Ip4 (V4 203 0 113 7)); deadline := d;
     liveness := f; phase := ph; payload := d |}.

Definition none_dead : N → bool := λ _, false.

Definition offer_all (l : list (WaitingMember N)) (p : ChannelPairer N) : option (ChannelPairer N) :=
  foldl (λ o m, match o with
                | Some p => match offer none_dead none_dead m p with
                            | Some (_, p') => Some p' | None => None end
                | None => None end) (Some p) l.

(** A queue in front of a partner: a corpse, a park of another phase, then a fit. *)
Definition demo_pairer : option (ChannelPairer N) :=
  offer_all [demo_park 1 1 (Some 7) Relay 30; demo_park 1 1 None Rendezvous 31;
             demo_park 1 1 None Relay 32; demo_park 2 9 None Relay 33] new.

Definition dead_7 : N → bool := λ f, f =? 7.

Example offer_skips_the_corpse :
  ∃ p, demo_pairer = Some p ∧
    match offer dead_7 dead_7 (demo_park 1 2 None Relay 40) p with
    | Some (Paired a b, p') => payload a = 32 ∧ payload b = 40 ∧ dead_dropped p' = 1 ∧
        payload <$> queue_of p' (chan 1) = [31] ∧ payload <$> queue_of p' (chan 2) = [33]
    | _ => False
    end.
Proof. eexists. split; [reflexivity|]. vm_compute. repeat split. Qed.

Example fifth_park_supersedes :
  ∃ p, offer_all [demo_park 1 1 None Relay 1; demo_park 1 1 None Relay 2;
                  demo_park 1 1 None Relay 3; demo_park 1 1 None Relay 4] new = Some p ∧
    match offer none_dead none_dead (demo_park 1 1 None Relay 5) p with
    | Some (Superseded s, p') => payload s = 1 ∧ payload <$> queue_of p' (chan 1) = [2; 3; 4; 5]
    | _ => False
    end.
Proof. eexists. split; [reflexivity|]. vm_compute. split; reflexivity. Qed.

(** The diagnostic is documented to need ten sweeps; four parks of one member that expire
    together are four sightings, so the third sweep speaks. *)
Definition sibling : Triple := (chan 1, chan 2, Ip4 (V4 203 0 113 7)).

Example three_sweeps_confirm :
  (∃ p, offer_all [demo_park 1 1 None Relay 5; demo_park 1 1 None Relay 5;
                   demo_park 1 1 None Relay 5; demo_park 1 1 None Relay 5;
                   demo_park 2 1 None Relay 90] new = Some p ∧
     (drain_expired [chan 1; chan 2] [chan 2] none_dead 10 p).2.(sibling_sightings) !! sibling =
     Some {| first := 10; last := 10; count := 4 |}) ∧
  let four := [sibling; sibling; sibling; sibling] in
  let s1 := (note_sibling_sightings ∅ four 0).2 in
  let s2 := (note_sibling_sightings s1 four 450).2 in
  (note_sibling_sightings s1 four 450).1 = [] ∧
  sibling ∈ (note_sibling_sightings s2 four 900).1.
Proof.
  split; [eexists; split; [reflexivity|]; vm_compute; reflexivity|].
  split; [vm_compute; reflexivity|]. apply list_elem_of_In. vm_compute. by left.
Qed.

(** Two offers that meet. *)
Definition first_park : WaitingMember N := demo_park 1 1 None Relay 30.
Definition second_park : WaitingMember N := demo_park 1 2 None Unmarked 40.
Definition after_first : ChannelPairer N :=
  {| waiting := {[ chan 1 := [first_park] ]}; dead_dropped := 0; sibling_sightings := ∅ |}.
Definition met : Ledger (T := N) :=
  {| offered := [second_park; first_park]; pairs := [(first_park, second_park)];
     superseded := []; ended := []; reported := 0 |}.

Lemma met_history : history new met.
Proof.
  apply (h_offer after_first {| offered := [first_park]; pairs := []; superseded := [];
    ended := []; reported := 0 |} none_dead none_dead second_park (Paired first_park second_park) new).
  - exact (h_offer new _ none_dead none_dead first_park Parked after_first h_new eq_refl).
  - vm_compute. reflexivity.
Qed.

Lemma every_park_accounted_witness :
  history new met ∧ Forall well_paired (pairs met) ∧
  ∃ corpses, offered met ≡ₚ parked new ++ members (pairs met) ++ [] ++ [] ++ corpses.
Proof.
  destruct (every_park_accounted new met met_history) as ((cs & P & _) & W & _).
  split; [exact met_history|]. split; [exact W|]. exists cs. exact P.
Defined.

Definition two_parks : ChannelPairer N :=
  {| waiting := {[ chan 1 := [first_park; demo_park 1 1 None Relay 50] ]};
     dead_dropped := 0; sibling_sightings := ∅ |}.

Lemma two_parks_wf : wf two_parks.
Proof.
  intros c q H. cbn in H. apply lookup_singleton_Some in H as [<- <-]. split; [done|].
  split_and!.
  - intros w [->|[->|[]%not_elem_of_nil]%elem_of_cons]%elem_of_cons; done.
  - intros h. unfold own. etrans; [apply length_filter|]. cbn. unfold PARKS_PER_MEMBER. lia.
  - intros w w' [->|[->|[]%not_elem_of_nil]%elem_of_cons]%elem_of_cons
      [->|[->|[]%not_elem_of_nil]%elem_of_cons]%elem_of_cons; vm_compute; done.
Qed.

Lemma drain_exact_witness :
  wf two_parks ∧
  filter (λ m, expired none_dead 45 m = true) (parked two_parks) ≡ₚ [first_park] ∧
  ∃ p', queue_of p' (chan 1) = [demo_park 1 1 None Relay 50] ∧ len p' = length (parked p').
Proof.
  split; [exact two_parks_wf|].
  destruct (drain_expired [chan 1] [chan 1] none_dead 45 two_parks) as [[ds c] p'] eqn:E.
  destruct (drain_exact [chan 1] [chan 1] none_dead 45 two_parks ds c p' two_parks_wf
              ltac:(vm_compute; reflexivity) E) as (_ & Q & _ & _ & L).
  split; [vm_compute; reflexivity|]. exists p'. rewrite (Q (chan 1)). split; [|exact L].
  vm_compute. reflexivity.
Defined.

Lemma sibling_sightings_exact_witness :
  ∃ seen confirmed, note_sibling_sightings ∅ [sibling] 5 = (confirmed, seen) ∧
    seen !! sibling = Some {| first := 5; last := 5; count := 1 |}.
Proof.
  destruct (note_sibling_sightings ∅ [sibling] 5) as [confirmed seen] eqn:E.
  exists seen, confirmed. split; [reflexivity|].
  destruct (sibling_sightings_exact ∅ [sibling] 5 confirmed seen sibling
              ltac:(intros s H; by rewrite lookup_empty in H) E) as [H _].
  rewrite H. vm_compute. reflexivity.
Defined.

End demo.

End Pairer.

(** ** Who was here lately *)

Module Presence.

(** src/crates/edge/src/channel_broker.rs:2248-2248 [PRESENCE_MAX_AGE_SECS] *)
Definition PRESENCE_MAX_AGE_SECS : N := 300.
(** src/crates/edge/src/channel_broker.rs:2252-2252 [PRESENCE_MAX_ENTRIES] *)
Definition PRESENCE_MAX_ENTRIES : nat := 4096.
(** src/crates/edge/src/channel_broker.rs:2255-2255 [PRESENCE_SERVING_WINDOW_SECS] *)
Definition PRESENCE_SERVING_WINDOW_SECS : N := 60.

(** A channel and a holder. *)
#[local] Notation Key := (bytes * bytes)%type.

(** src/crates/edge/src/channel_broker.rs:2240-2242 [ChannelPresence] *)
Record ChannelPresence := { seen : gmap Key N }.

(** src/crates/edge/src/channel_broker.rs:2258-2260 [ChannelPresence::new] *)
Definition new : ChannelPresence := {| seen := ∅ |}.

(** The comparison of [min_by_key(|(_, at)| at)]. *)
Definition by_time (a b : Key * N) : comparison := N.compare a.2 b.2.

(** The cap loop of [note]; [iter] lists a hash map's entries in its iteration order. Each
    round removes an entry, so [size] rounds are enough. *)
Fixpoint evict (iter : gmap Key N → list (Key * N)) (cap fuel : nat) (s : gmap Key N) : gmap Key N :=
  match fuel with
  | O => s
  | S fuel =>
    if (cap <? size s)%nat then
      match min_by by_time (iter s) with
      | None => s
      | Some (oldest, _) => evict iter cap fuel (delete oldest s)
      end
    else s
  end.

(** src/crates/edge/src/channel_broker.rs:2265-2274 [ChannelPresence::note] *)
Definition note (iter : gmap Key N → list (Key * N)) (channel holder : bytes) (now : N)
    (p : ChannelPresence) : ChannelPresence :=
  let s := filter (λ kv, now - kv.2 <= PRESENCE_MAX_AGE_SECS) (seen p) in
  let s := <[(channel, holder) := now]> s in
  {| seen := evict iter PRESENCE_MAX_ENTRIES (size s) s |}.

(** src/crates/edge/src/channel_broker.rs:2278-2282 [ChannelPresence::last_seen_secs_ago] *)
Definition last_seen_secs_ago (p : ChannelPresence) (channel holder : bytes) (now : N) : option N :=
  match seen p !! (channel, holder) with
  | None => None
  | Some at_ => let ago := now - at_ in if ago <=? PRESENCE_MAX_AGE_SECS then Some ago else None
  end.

(** src/crates/edge/src/channel_broker.rs:2289-2301 [ChannelPresence::holders_of]: [entries]
    are the map's entries in its iteration order. *)
Definition holders_of (entries : list (Key * N)) (channel : bytes) (now : N) : list (bytes * N) :=
  sort_by (λ a b, a.2 <=? b.2)
    (omap (λ kv : Key * N, if now - kv.2 <=? PRESENCE_MAX_AGE_SECS then Some (kv.1.2, now - kv.2)
                           else None)
       (filter (λ kv : Key * N, kv.1.1 = channel) entries)).

(** src/crates/edge/src/channel_broker.rs:2303-2305 [ChannelPresence::len] *)
Definition len (p : ChannelPresence) : nat := size (seen p).

(** src/crates/edge/src/channel_broker.rs:2315-2317 [presence_is_serving] *)
Definition presence_is_serving (last_seen_secs_ago : N) : bool :=
  last_seen_secs_ago <=? PRESENCE_SERVING_WINDOW_SECS.

(** ** The table against the whole log of admissions *)

(** The admissions, newest first, and the last one of a key. *)
Fixpoint last_admission (log : list (Key * N)) (k : Key) : option N :=
  match log with
  | [] => None
  | (k', t) :: log => if bool_decide (k' = k) then Some t else last_admission log k
  end.

(** [n] members were admitted at [t] or later. *)
Definition crowded (n : nat) (log : list (Key * N)) (t : N) : Prop :=
  ∃ ks, NoDup ks ∧ length ks = n ∧
    ∀ k, k ∈ ks → ∃ t', last_admission log k = Some t' ∧ t <= t'.

(** Runs of the table by a clock that does not go back; the hash map may iterate differently
    every time. *)
Inductive run : ChannelPresence → list (Key * N) → N → Prop :=
| run_new t : run new [] t
| run_note p log t iter c h now :
    run p log t → t <= now → (∀ m, iter m ≡ₚ map_to_list m) →
    run (note iter c h now p) (((c, h), now) :: log) now.

#[local] Instance by_time_ordering : Ordering by_time.
Proof.
  unfold by_time. split.
  - intros a. apply N.compare_refl.
  - intros a b. apply N.compare_antisym.
  - intros a b c. unfold not. rewrite !N.compare_gt_iff. lia.
Qed.

(** The cap loop keeps the newest entries: what goes is older than everything that stays. *)
Lemma evict_spec iter cap fuel s :
  (∀ m, iter m ≡ₚ map_to_list m) → (size s <= fuel)%nat →
  let s' := evict iter cap fuel s in
  s' ⊆ s ∧ (size s' <= cap)%nat ∧
  ∀ k t, s !! k = Some t → s' !! k = None →
    size s' = cap ∧ ∀ k' t', s' !! k' = Some t' → t <= t'.
Proof.
  intros I. revert s. induction fuel as [|fuel IH]; intros s L; cbn [evict].
  { split_and!; [done|lia|]. intros k t H N. congruence. }
  destruct (cap <? size s)%nat eqn:C; [apply Nat.ltb_lt in C|apply Nat.ltb_ge in C].
  2:{ split_and!; [done|lia|]. intros k t H N. congruence. }
  destruct (min_by by_time (iter s)) as [[oldest o]|] eqn:M.
  - apply min_by_spec in M as [In Le]; [|apply _]. rewrite I in In. apply elem_of_map_to_list in In.
    assert (Le' : ∀ k t, s !! k = Some t → o <= t).
    { intros k t H. specialize (Le (k, t)). rewrite I in Le. unfold by_time in Le. cbn in Le.
      apply N.compare_le_iff, Le. by apply elem_of_map_to_list. }
    assert (Sz : size s = S (size (delete oldest s))).
    { rewrite map_size_delete_Some by done. destruct (size s); lia. }
    destruct (IH (delete oldest s)) as (Sub & Cap & Out); [lia|]. split_and!.
    + etrans; [exact Sub|]. apply delete_subseteq.
    + exact Cap.
    + intros k t H N. destruct (decide (k = oldest)) as [->|Nk].
      * assert (t = o) as -> by congruence.
        assert (Q : ∀ k' t', evict iter cap fuel (delete oldest s) !! k' = Some t' → o <= t').
        { intros k' t' H'. apply (lookup_weaken _ _ _ _ H') in Sub.
          apply lookup_delete_Some in Sub as [_ Sub]. by eapply Le'. }
        split; [|exact Q]. destruct (Nat.lt_ge_cases cap (size (delete oldest s))) as [L'|L'].
        -- destruct (decide (evict iter cap fuel (delete oldest s) = delete oldest s)) as [E|E].
           { rewrite E in Cap. lia. }
           assert (∃ k2 t2, delete oldest s !! k2 = Some t2 ∧
                     evict iter cap fuel (delete oldest s) !! k2 = None) as (k2 & t2 & H2 & N2).
           { apply dec_stable. intros X. apply E, map_eq. intros k2.
             destruct (evict _ _ _ _ !! k2) as [t2|] eqn:E2; [symmetry; by eapply lookup_weaken|].
             destruct (delete oldest s !! k2) eqn:D2; [|done]. exfalso. eauto. }
           by destruct (Out k2 t2 H2 N2).
        -- assert (E : evict iter cap fuel (delete oldest s) = delete oldest s).
           { destruct fuel; [done|]. cbn [evict]. by rewrite (proj2 (Nat.ltb_ge _ _)) by lia. }
           rewrite E. lia.
      * apply (Out k t); [by rewrite lookup_delete_ne|done].
  - exfalso. assert (Z : iter s = []) by (destruct (iter s); done).
    pose proof (I s) as P. rewrite Z in P. apply Permutation_nil in P.
    apply map_to_list_empty_iff in P. rewrite P, map_size_empty in C. lia.
Qed.

Lemma last_admission_cons k t log k' :
  last_admission ((k, t) :: log) k' = if bool_decide (k = k') then Some t else last_admission log k'.
Proof. done. Qed.

Lemma crowded_cons n log t k now :
  crowded n log t → t <= now → crowded n ((k, now) :: log) t.
Proof.
  intros (ks & D & L & A) Le. exists ks. split_and!; [done|done|]. intros k' In.
  rewrite last_admission_cons. case_bool_decide; [by eauto|]. by apply A.
Qed.

(** What a table knows: only last admissions, and all of them but the aged ones and those a
    crowd of newer ones has pushed out. *)
Definition faithful (p : ChannelPresence) (log : list (Key * N)) (now : N) : Prop :=
  (∀ k t, seen p !! k = Some t → last_admission log k = Some t) ∧
  (∀ k t, last_admission log k = Some t →
     t <= now ∧
     (seen p !! k = Some t ∨ PRESENCE_MAX_AGE_SECS < now - t ∨ crowded PRESENCE_MAX_ENTRIES log t)) ∧
  (size (seen p) <= PRESENCE_MAX_ENTRIES)%nat.

Lemma run_faithful p log now : run p log now → faithful p log now.
Proof.
  induction 1 as [now|p log t iter c h now R (K & A & _) Le I].
  { split_and!; [by intros k t|done|]. unfold new. cbn [seen]. rewrite map_size_empty. apply Nat.le_0_l. }
  unfold note. set (s0 := filter _ (seen p)). set (s := <[(c, h) := now]> s0).
  destruct (evict_spec iter PRESENCE_MAX_ENTRIES (size s) s I (le_n _)) as (Sub & Cap & Out).
  set (s' := evict _ _ _ s) in *.
  assert (S0 : ∀ k t0, s0 !! k = Some t0 ↔ seen p !! k = Some t0 ∧ now - t0 <= PRESENCE_MAX_AGE_SECS).
  { intros k t0. subst s0. by rewrite map_lookup_filter_Some. }
  assert (Sk : ∀ k t0, s !! k = Some t0 → last_admission (((c, h), now) :: log) k = Some t0).
  { intros k t0 H. rewrite last_admission_cons. subst s.
    apply lookup_insert_Some in H as [[-> ->]|[N H]]; [by rewrite bool_decide_true|].
    rewrite bool_decide_false by done. apply S0 in H as [H _]. by apply K. }
  assert (S'k : ∀ k t0, s' !! k = Some t0 → last_admission (((c, h), now) :: log) k = Some t0).
  { intros k t0 H. apply Sk. by eapply lookup_weaken. }
  split_and!; [exact S'k| |exact Cap]. cbn [seen].
  intros k t0 H.
  assert (Dec : s !! k = Some t0 ∨ PRESENCE_MAX_AGE_SECS < now - t0 ∨
                crowded PRESENCE_MAX_ENTRIES (((c, h), now) :: log) t0).
  { rewrite last_admission_cons in H. subst s. case_bool_decide as E.
    - injection H as <-. left. subst k. apply lookup_insert_eq.
    - destruct (A k t0 H) as [Lt [S|[Old|Cr]]].
      + destruct (N.le_gt_cases (now - t0) PRESENCE_MAX_AGE_SECS); [|by right; left].
        left. rewrite lookup_insert_ne by done. by apply S0.
      + right; left. lia.
      + right; right. apply crowded_cons; [done|lia]. }
  assert (Le0 : t0 <= now).
  { rewrite last_admission_cons in H. case_bool_decide; [by injection H as <-|].
    destruct (A k t0 H). lia. }
  split; [done|]. destruct Dec as [D|D]; [|by right].
  destruct (s' !! k) as [t1|] eqn:E.
  - left. apply S'k in E. congruence.
  - right; right. destruct (Out k t0 D E) as [Sz Newer].
    exists (map_to_list s').*1. split_and!.
    + apply NoDup_fst_map_to_list.
    + by rewrite length_fmap, length_map_to_list.
    + intros k' (kv & -> & In)%list_elem_of_fmap. destruct kv as [k' t']. cbn.
      apply elem_of_map_to_list in In. exists t'. split; [by apply S'k|by eapply Newer].
Qed.

(** What presence reports after any run of admissions by a clock that does not go back:
    an age is always that of the member's last admission and at most five minutes; a member
    admitted at most five minutes ago is missing only when 4096 members were admitted at the
    same time or later; the list of a channel's holders is exactly those with an age, the
    most recent first; and the table never holds more than 4096 entries. *)
Theorem presence_exact p log t now c h :
  run p log t → t <= now →
  (∀ ago, last_seen_secs_ago p c h now = Some ago →
     ∃ at_, last_admission log (c, h) = Some at_ ∧ ago = now - at_ ∧ ago <= PRESENCE_MAX_AGE_SECS) ∧
  (∀ at_, last_admission log (c, h) = Some at_ → now - at_ <= PRESENCE_MAX_AGE_SECS →
     last_seen_secs_ago p c h now = Some (now - at_) ∨ crowded PRESENCE_MAX_ENTRIES log at_) ∧
  (∀ entries, entries ≡ₚ map_to_list (seen p) →
     (∀ ago, (h, ago) ∈ holders_of entries c now ↔ last_seen_secs_ago p c h now = Some ago) ∧
     StronglySorted (λ a b, a.2 <=? b.2 = true) (holders_of entries c now)) ∧
  (len p <= PRESENCE_MAX_ENTRIES)%nat.
Proof.
  intros R L. destruct (run_faithful _ _ _ R) as (K & A & Cap). unfold last_seen_secs_ago.
  split_and!; [| | |done].
  - intros ago. destruct (seen p !! (c, h)) as [s|] eqn:S; [|done].
    destruct (N.leb_spec (now - s) PRESENCE_MAX_AGE_SECS); [|done]. intros [= <-].
    exists s. split_and!; auto.
  - intros s H Le. destruct (A _ _ H) as [Lt [-> |[Old|Cr]]]; [left|lia|by right].
    by rewrite (proj2 (N.leb_le _ _)).
  - intros entries P. split.
    + intros ago. unfold holders_of. rewrite sort_by_Permutation, list_elem_of_omap. split.
      * intros ([[c' h'] s] & In & E). apply list_elem_of_filter in In as [Ec In]. cbn in *.
        subst c'. rewrite P, elem_of_map_to_list in In.
        destruct (_ <=? _) eqn:Q; [|done]. injection E as -> <-. by rewrite In, Q.
      * destruct (seen p !! (c, h)) as [s|] eqn:S; [|done]. destruct (_ <=? _) eqn:Q; [|done].
        intros [= <-]. exists ((c, h), s). cbn. rewrite Q. split; [|done].
        apply list_elem_of_filter. split; [done|]. by rewrite P, elem_of_map_to_list.
    + apply sort_by_sorted; intros; rewrite ?N.leb_le in *; lia.
Qed.

Definition demo_iter (m : gmap Key N) : list (Key * N) := map_to_list m.

Lemma presence_exact_witness :
  ∃ p, run p [((lit "c", lit "h"), 100); ((lit "c", lit "g"), 90)] 100 ∧
    last_seen_secs_ago p (lit "c") (lit "h") 130 = Some 30 ∧
    (len p <= PRESENCE_MAX_ENTRIES)%nat.
Proof.
  exists (note demo_iter (lit "c") (lit "h") 100 (note demo_iter (lit "c") (lit "g") 90 new)).
  assert (R : run (note demo_iter (lit "c") (lit "h") 100 (note demo_iter (lit "c") (lit "g") 90 new))
                [((lit "c", lit "h"), 100); ((lit "c", lit "g"), 90)] 100)
    by (apply (run_note _ _ 90 demo_iter); [apply (run_note new [] 0 demo_iter)| |]; (constructor || lia || done)).
  split; [exact R|].
  destruct (presence_exact _ _ 100 130 (lit "c") (lit "h") R ltac:(lia)) as (_ & F & _ & Cap).
  split; [|exact Cap].
  destruct (F 100 ltac:(reflexivity) ltac:(vm_compute; discriminate)) as [E|(ks & D & Lk & H)].
  - exact E.
  - vm_compute. reflexivity.
Defined.

End Presence.
