(* ===== verification/Membership.v ===== *)
(** * Membership at the edge: the authorizer, the revocation list, the live splices

    The control plane decides who is a member of a channel; the edge asks it at admission
    and keeps asking while a session runs. [Authorizer] is the client of
    [crates/edge/src/channel_authorize.rs] with its two caches, [GrantRevocation] the lookup
    of revoked grants of [grant_revocation.rs], and [Splices] the registry of running
    sessions of [channel_broker.rs] with the sweep that ends those of removed members. *)

From S2P Require Import Prelude RustStd Maps Interfaces Codec Channels.

(** A [Duration] and an [Instant] are counted in nanoseconds. *)
Definition secs (n : N) : N := n * 1000000000.

(** [Instant::elapsed]: a clock that does not go back makes the subtraction exact. *)
Definition elapsed (now at_ : N) : N := now - at_.

Module Authorizer.

(** src/crates/edge/src/channel_authorize.rs:76-80 [MemberResolution] *)
Record MemberResolution := {
  operator_pubkey : bytes;
  noise_pubkey : option bytes;
  noise_attestation : option bytes;
}.

(** src/crates/edge/src/channel_authorize.rs:86-86 [CACHE_TTL] *)
Definition CACHE_TTL : N := secs 30.
(** src/crates/edge/src/channel_authorize.rs:100-100 [NEGATIVE_CACHE_TTL] *)
Definition NEGATIVE_CACHE_TTL : N := secs 5.
(** src/crates/edge/src/channel_authorize.rs:105-105 [SWEEP_INTERVAL] *)
Definition SWEEP_INTERVAL : N := secs 30.

(** src/crates/edge/src/channel_authorize.rs:107-107 [CacheKey]: channel and holder. *)
#[local] Notation CacheKey := (bytes * bytes)%type.

(** src/crates/edge/src/channel_authorize.rs:111-128 [ChannelAuthorizer]: the caches and
    their bounds; the HTTP client is a parameter of the calls. *)
Record ChannelAuthorizer := {
  cache : gmap CacheKey (MemberResolution * N);
  cache_ttl : N;
  negative_cache : gmap CacheKey N;
  negative_cache_ttl : N;
  last_swept : N;
  sweep_interval : N;
}.

(** src/crates/edge/src/channel_authorize.rs:135-139 [Outcome] *)
Inductive Outcome := Authorized (m : MemberResolution) | Refused | Unresolved.

(** src/crates/edge/src/channel_authorize.rs:185-223
    [ChannelAuthorizer::with_ttls_and_sweep_interval], created at [now]. *)
Definition with_ttls_and_sweep_interval (cache_ttl negative_cache_ttl sweep_interval now : N)
    : ChannelAuthorizer :=
  {| cache := ∅; cache_ttl := cache_ttl; negative_cache := ∅;
     negative_cache_ttl := negative_cache_ttl; last_swept := now - sweep_interval;
     sweep_interval := sweep_interval |}.

(** src/crates/edge/src/channel_authorize.rs:146-148 [ChannelAuthorizer::new] *)
Definition new (now : N) : ChannelAuthorizer :=
  with_ttls_and_sweep_interval CACHE_TTL NEGATIVE_CACHE_TTL SWEEP_INTERVAL now.

(** *** The critical sections

    The fields sit behind a lock each; a method is a sequence of these steps, and steps of
    other tasks may come in between. *)

Definition set_cache c a := {| cache := c; cache_ttl := cache_ttl a;
  negative_cache := negative_cache a; negative_cache_ttl := negative_cache_ttl a;
  last_swept := last_swept a; sweep_interval := sweep_interval a |}.
Definition set_negative n a := {| cache := cache a; cache_ttl := cache_ttl a;
  negative_cache := n; negative_cache_ttl := negative_cache_ttl a;
  last_swept := last_swept a; sweep_interval := sweep_interval a |}.
Definition set_swept t a := {| cache := cache a; cache_ttl := cache_ttl a;
  negative_cache := negative_cache a; negative_cache_ttl := negative_cache_ttl a;
  last_swept := t; sweep_interval := sweep_interval a |}.

Inductive Action :=
| Swept (t : N) | PruneCache (t : N) | PruneNegative (t : N)
| Learn (k : CacheKey) (m : MemberResolution) (t : N) | Forgive (k : CacheKey)
| Evict (k : CacheKey) | Refuse (k : CacheKey) (t : N).

Definition act (x : Action) (a : ChannelAuthorizer) : ChannelAuthorizer :=
  match x with
  | Swept t => set_swept t a
  | PruneCache t => set_cache (filter (λ kv, elapsed t kv.2.2 < cache_ttl a) (cache a)) a
  | PruneNegative t =>
    set_negative (filter (λ kv, elapsed t kv.2 < negative_cache_ttl a) (negative_cache a)) a
  | Learn k m t => set_cache (<[k := (m, t)]> (cache a)) a
  | Forgive k => set_negative (delete k (negative_cache a)) a
  | Evict k => set_cache (delete k (cache a)) a
  | Refuse k t => set_negative (<[k := t]> (negative_cache a)) a
  end.

Definition acts (xs : list Action) (a : ChannelAuthorizer) : ChannelAuthorizer :=
  foldl (λ a x, act x a) a xs.

(** src/crates/edge/src/channel_authorize.rs:232-247 [ChannelAuthorizer::maybe_sweep_expired] *)
Definition maybe_sweep_expired (now : N) (a : ChannelAuthorizer) : list Action :=
  if elapsed now (last_swept a) <? sweep_interval a then []
  else [Swept now; PruneCache now; PruneNegative now].

(** src/crates/edge/src/channel_authorize.rs:401-404 [ChannelAuthorizer::resolve]: a refusal
    still fresh. *)
Definition recently_refused (k : CacheKey) (now : N) (a : ChannelAuthorizer) : bool :=
  match negative_cache a !! k with
  | Some at_ => elapsed now at_ <? negative_cache_ttl a
  | None => false
  end.

(** src/crates/edge/src/channel_authorize.rs:407-426 [ChannelAuthorizer::resolve]: the writes
    an answer causes. *)
Definition on_outcome (k : CacheKey) (o : Outcome) (now : N) : list Action :=
  match o with
  | Authorized m => [Learn k m now; Forgive k]
  | Refused => [Evict k; Refuse k now]
  | Unresolved => []
  end.

(** src/crates/edge/src/channel_authorize.rs:426-432 [ChannelAuthorizer::resolve]: the last
    resolution, while it is usable. *)
Definition fallback (k : CacheKey) (now : N) (a : ChannelAuthorizer) : option MemberResolution :=
  match cache a !! k with
  | Some (m, at_) => if elapsed now at_ <? cache_ttl a then Some m else None
  | None => None
  end.

(** src/crates/edge/src/channel_authorize.rs:390-433 [ChannelAuthorizer::resolve]: [asked] is
    the control plane's answer, given when [now] is over and processed at [later]; [meanwhile]
    are the steps of other tasks during the call. *)
Definition resolve (k : CacheKey) (asked : Outcome) (meanwhile : list Action) (now later : N)
    (a : ChannelAuthorizer) : option MemberResolution * ChannelAuthorizer :=
  let a := acts (maybe_sweep_expired now a) a in
  if recently_refused k now a then (None, a)
  else
    let a := acts (on_outcome k asked later) (acts meanwhile a) in
    (match asked with
     | Authorized m => Some m
     | Refused => None
     | Unresolved => fallback k later a
     end, a).

(** src/crates/edge/src/channel_authorize.rs:254-256 [ChannelAuthorizer::authorize] *)
Definition authorize (k : CacheKey) (asked : Outcome) (meanwhile : list Action) (now later : N)
    (a : ChannelAuthorizer) : option bytes * ChannelAuthorizer :=
  let '(r, a) := resolve k asked meanwhile now later a in (operator_pubkey <$> r, a).

(** src/crates/edge/src/channel_authorize.rs:364-388
    [ChannelAuthorizer::definitively_not_a_member] *)
Definition definitively_not_a_member (k : CacheKey) (asked : Outcome) (meanwhile : list Action)
    (now later : N) (a : ChannelAuthorizer) : bool * ChannelAuthorizer :=
  if recently_refused k now a then (true, a)
  else
    let a := acts meanwhile a in
    match asked with
    | Refused => (true, acts [Evict k; Refuse k later] a)
    | _ => (false, a)
    end.

(** *** The control plane's answer *)

(** src/crates/edge/src/channel_authorize.rs:45-54 [hex_decode_64] *)
Definition hex_decode_64 (s : bytes) : option bytes :=
  if negb (length s =? 128)%nat then None
  else mapM (λ p, _ ← from_utf8 p; byte_of_N <$> u8_from_hex p) (chunks2 s).

(** src/crates/edge/src/channel_authorize.rs:63-69 [AuthorizeResp] *)
Record AuthorizeResp := {
  resp_operator_pubkey : bytes;
  resp_noise_pubkey : option bytes;
  resp_noise_attestation : option bytes;
}.

(** What comes back over HTTP: nothing, or a status with the body as far as it parses. *)
Inductive Reply := NoReply | Replied (status : N) (body : option AuthorizeResp).

(** src/crates/edge/src/channel_authorize.rs:258-340 [ChannelAuthorizer::query] *)
Definition query (r : Reply) : Outcome :=
  match r with
  | NoReply => Unresolved
  | Replied status body =>
    if (status =? 404) || (status =? 401) then Refused
    else if negb (in_range 200 299 status) then Unresolved
    else match body with
         | None => Unresolved
         | Some b =>
           match Hex.decode_32 (resp_operator_pubkey b) with
           | None => Unresolved
           | Some key =>
             Authorized {| operator_pubkey := key;
               noise_pubkey := n ← resp_noise_pubkey b; Hex.decode_32 n;
               noise_attestation := n ← resp_noise_attestation b; hex_decode_64 n |}
           end
         end
  end.

(** ** What the caches stand for *)

(** An answer of the control plane, and when it was processed. *)
Definition Log : Type := list (CacheKey * Outcome * N).

(** A step is backed by the answers received so far. *)
Definition backed (log : Log) (x : Action) : Prop :=
  match x with
  | Learn k m t => (k, Authorized m, t) ∈ log
  | Refuse k t => (k, Refused, t) ∈ log
  | _ => True
  end.

(** Every remembered membership was granted, every remembered refusal given. *)
Definition sound (log : Log) (a : ChannelAuthorizer) : Prop :=
  (∀ k m t, cache a !! k = Some (m, t) → (k, Authorized m, t) ∈ log) ∧
  (∀ k t, negative_cache a !! k = Some t → (k, Refused, t) ∈ log).

Lemma act_sound log x a : backed log x → sound log a → sound log (act x a).
Proof.
  intros B [C N]. unfold sound. destruct x; cbn in *; try by split.
  - split; [|done]. intros k m t' H. apply map_lookup_filter_Some in H as [H _]. by apply C.
  - split; [done|]. intros k t' H. apply map_lookup_filter_Some in H as [H _]. by apply N.
  - split; [|done]. intros k' m' t' [[<- [= <- <-]]|[_ H]]%lookup_insert_Some; [done|by apply C].
  - split; [done|]. intros k' t' [_ H]%lookup_delete_Some. by apply N.
  - split; [|done]. intros k' m' t' [_ H]%lookup_delete_Some. by apply C.
  - split; [done|]. intros k' t' [[<- <-]|[_ H]]%lookup_insert_Some; [done|by apply N].
Qed.

Lemma acts_sound log xs a : Forall (backed log) xs → sound log a → sound log (acts xs a).
Proof.
  intros F. revert a. induction F as [|x xs B _ IH]; intros a S; [done|].
  apply IH. by apply act_sound.
Qed.

Lemma acts_ttls xs a :
  cache_ttl (acts xs a) = cache_ttl a ∧ negative_cache_ttl (acts xs a) = negative_cache_ttl a.
Proof.
  revert a. induction xs as [|x xs IH]; intros a; [done|].
  change (acts (x :: xs) a) with (acts xs (act x a)). destruct (IH (act x a)) as [-> ->].
  by destruct x.
Qed.

Lemma sweep_backed log now a : Forall (backed log) (maybe_sweep_expired now a).
Proof. unfold maybe_sweep_expired. destruct (_ <? _); repeat constructor. Qed.

Lemma sound_more log log' a : log ⊆ log' → sound log a → sound log' a.
Proof. intros S [C N]. split; eauto. Qed.

(** Whatever other tasks do in between: a membership is reported only when the control
    plane answered it to this very question, or, when this question got no answer, within
    [cache_ttl] of its last such answer to anyone; a member is called definitively removed
    only on an explicit refusal, given now or within [negative_cache_ttl]; and both methods
    keep the caches backed by answers. *)
Theorem membership_needs_an_answer log k asked meanwhile now later a :
  sound log a → Forall (backed ((k, asked, later) :: log)) meanwhile →
  let log' := (k, asked, later) :: log in
  (let '(r, a') := resolve k asked meanwhile now later a in
   sound log' a' ∧
   ∀ m, r = Some m → asked = Authorized m ∨
     asked = Unresolved ∧ ∃ t, (k, Authorized m, t) ∈ log' ∧ later - t < cache_ttl a) ∧
  (let '(gone, a') := definitively_not_a_member k asked meanwhile now later a in
   sound log' a' ∧
   (gone = true → asked = Refused ∨ ∃ t, (k, Refused, t) ∈ log ∧ now - t < negative_cache_ttl a)).
Proof.
  intros S M log'. assert (L : log ⊆ log') by (intros x ?; by right). split.
  - unfold resolve. pose proof (acts_ttls (maybe_sweep_expired now a) a) as [T1 T2].
    pose proof (acts_sound log _ a (sweep_backed log now a) S) as S1.
    set (a1 := acts (maybe_sweep_expired now a) a) in *.
    destruct (recently_refused k now a1); [split; [by eapply sound_more|done]|].
    pose proof (acts_sound log' meanwhile a1 M (sound_more _ _ _ L S1)) as S2.
    destruct (acts_ttls meanwhile a1) as [T3 _]. set (a2 := acts meanwhile a1) in *.
    assert (S3 : sound log' (acts (on_outcome k asked later) a2)).
    { apply acts_sound; [|done]. destruct asked; repeat constructor. }
    split; [exact S3|]. intros m. destruct asked as [m'| |]; [|done|].
    + intros [= ->]. by left.
    + unfold fallback. cbn. destruct (cache a2 !! k) as [[m' t]|] eqn:E; [|done].
      destruct (elapsed later t <? cache_ttl a2) eqn:Q; [|done]. intros [= ->]. right.
      split; [done|]. exists t. destruct S2 as [C _]. split; [by apply C|].
      apply N.ltb_lt in Q. unfold elapsed in Q. congruence.
  - unfold definitively_not_a_member. destruct (recently_refused k now a) eqn:R.
    + split; [by eapply sound_more|]. intros _. right. unfold recently_refused in R.
      destruct (negative_cache a !! k) as [t|] eqn:E; [|done]. apply N.ltb_lt in R.
      exists t. destruct S as [_ N]. split; [by apply N|done].
    + pose proof (acts_sound log' meanwhile a M (sound_more _ _ _ L S)) as S2.
      destruct asked; (split; [|try done; by left]); try done.
      apply acts_sound; [|done]. repeat constructor.
Qed.

(** Without other tasks in between, a refusal sticks: once the control plane refuses a
    member, however the edge learnt it, the edge admits it again only after a later grant:
    while the refusal is fresh it does not even ask, and afterwards silence does not help. *)
Theorem refusal_sticks k now later t1 t2 asked a :
  (resolve k Refused [] now later a).1 = None ∧
  ∀ a', (a' = (resolve k Refused [] now later a).2 ∧ recently_refused k now (acts (maybe_sweep_expired now a) a) = false) ∨
        (a' = (definitively_not_a_member k Refused [] now later a).2 ∧ recently_refused k now a = false) →
  (later <= t1 → t1 - later < negative_cache_ttl a → (resolve k asked [] t1 t2 a').1 = None) ∧
  ((resolve k Unresolved [] t1 t2 a').1 = None).
Proof.
  split; [unfold resolve; by destruct (recently_refused _ _ _)|]. intros a' H.
  assert (cache a' !! k = None ∧ negative_cache a' !! k = Some later ∧
              negative_cache_ttl a' = negative_cache_ttl a) as (C & N & T).
  { destruct H as [[-> R]|[-> R]].
    - unfold resolve. rewrite R. cbn. rewrite lookup_delete_eq, lookup_insert_eq.
      split_and!; try done. apply acts_ttls.
    - unfold definitively_not_a_member. rewrite R. cbn.
      by rewrite lookup_delete_eq, lookup_insert_eq. }
  clear H. assert (Cs : cache (acts (maybe_sweep_expired t1 a') a') !! k = None).
  { unfold maybe_sweep_expired. destruct (_ <? _); [done|]. cbn.
    apply map_lookup_filter_None. by left. }
  split.
  - intros Le Q. unfold resolve.
    assert (R : recently_refused k t1 (acts (maybe_sweep_expired t1 a') a') = true); [|by rewrite R].
    unfold recently_refused. destruct (acts_ttls (maybe_sweep_expired t1 a') a') as [_ ->].
    rewrite T. unfold maybe_sweep_expired. destruct (_ <? _); cbn.
    + rewrite N. apply N.ltb_lt. unfold elapsed. lia.
    + rewrite (proj2 (map_lookup_filter_Some _ _ k later)).
      * apply N.ltb_lt. unfold elapsed. lia.
      * split; [done|]. cbn. rewrite T. unfold elapsed. lia.
  - unfold resolve. destruct (recently_refused _ _ _); [done|].
    change (fallback k t2 (acts (maybe_sweep_expired t1 a') a') = None).
    unfold fallback. by rewrite Cs.
Qed.

(** With another task in between, an authorization asked for before the refusal and answered
    after it takes the refusal back. *)
Definition someone : CacheKey := (lit "channel", lit "holder").
Definition granted : MemberResolution :=
  {| operator_pubkey := lit "op"; noise_pubkey := None; noise_attestation := None |}.

Example late_answer_forgives :
  let a := (resolve someone Refused [] 0 (secs 1) (new 0)).2 in
  let a' := acts (on_outcome someone (Authorized granted) (secs 2)) a in
  (resolve someone Unresolved [] (secs 3) (secs 3) a).1 = None ∧
  (resolve someone Unresolved [] (secs 3) (secs 3) a').1 = Some granted.
Proof. vm_compute. split; reflexivity. Qed.

Lemma membership_needs_an_answer_witness :
  let log := [(someone, Authorized granted, secs 1)] in
  let a := (resolve someone (Authorized granted) [] 0 (secs 1) (new 0)).2 in
  sound log a ∧ (resolve someone Unresolved [] (secs 30) (secs 30) a).1 = Some granted ∧
  ∃ t, (someone, Authorized granted, t) ∈ (someone, Unresolved, secs 30) :: log ∧ secs 30 - t < CACHE_TTL.
Proof.
  intros log a.
  assert (S0 : sound [] (new 0))
    by (split; [intros k m t H|intros k t H]; cbn in H; by rewrite lookup_empty in H).
  pose proof (membership_needs_an_answer [] someone (Authorized granted) [] 0 (secs 1) (new 0) S0
                ltac:(constructor)) as [[S _] _].
  split; [exact S|]. split; [vm_compute; reflexivity|].
  pose proof (membership_needs_an_answer log someone Unresolved [] (secs 30) (secs 30) a S
                ltac:(constructor)) as [H _].
  destruct (resolve someone Unresolved [] (secs 30) (secs 30) a) as [r a'] eqn:E.
  destruct H as [_ H]. destruct (H granted) as [[=]|[_ X]].
  - change r with (r, a').1. rewrite <- E. vm_compute. reflexivity.
  - exact X.
Defined.

End Authorizer.

(** ** Revoked grants *)

Module GrantRevocation.

(** src/crates/edge/src/grant_revocation.rs:26-31 [RevocationLookupError] *)
Inductive RevocationLookupError := Unsupported | Unreadable.

(** src/crates/edge/src/grant_revocation.rs:65-70 [AdmissionVerdict] *)
Inductive AdmissionVerdict := Allowed | Revoked | VerdictUnreadable.

(** src/crates/edge/src/grant_revocation.rs:103-103 [NOT_REVOKED_TTL] *)
Definition NOT_REVOKED_TTL : N := secs 5.
(** src/crates/edge/src/grant_revocation.rs:104-104 [UNSUPPORTED_TTL] *)
Definition UNSUPPORTED_TTL : N := secs 300.
(** src/crates/edge/src/grant_revocation.rs:105-105 [MAX_CACHED] *)
Definition MAX_CACHED : nat := 4096.

(** A channel and a grant's digest. *)
#[local] Notation GrantKey := (bytes * bytes)%type.

(** src/crates/edge/src/grant_revocation.rs:108-114 [CpRevocationSource]: the cache of
    answers and the mark of a control plane without the endpoint. *)
Record CpRevocationSource := {
  cache : gmap GrantKey (bool * N);
  unsupported_until : option N;
}.

(** src/crates/edge/src/grant_revocation.rs:117-129 [CpRevocationSource::new] *)
Definition new : CpRevocationSource := {| cache := ∅; unsupported_until := None |}.

(** An answer still usable at [now]. *)
Definition usable (now : N) (kv : GrantKey * (bool * N)) : Prop :=
  kv.2.1 = true ∨ elapsed now kv.2.2 < NOT_REVOKED_TTL.

#[global] Instance usable_dec now kv : Decision (usable now kv).
Proof. unfold usable. apply _. Defined.

(** src/crates/edge/src/grant_revocation.rs:131-135 [CpRevocationSource::cached] *)
Definition cached (channel d : bytes) (now : N) (s : CpRevocationSource) : option bool :=
  match cache s !! (channel, d) with
  | Some (revoked, at_) =>
    if revoked || (elapsed now at_ <? NOT_REVOKED_TTL) then Some revoked else None
  | None => None
  end.

(** src/crates/edge/src/grant_revocation.rs:147-155 [CpRevocationSource::ask]: the digests
    known to be revoked, and those to ask about. *)
Definition triage (channel : bytes) (digests : list bytes) (now : N) (s : CpRevocationSource)
    : list bytes * list bytes :=
  (filter (λ d, cached channel d now s = Some true) digests,
   filter (λ d, cached channel d now s = None) digests).

(** What comes back over HTTP. *)
Inductive Reply := NoReply | Replied (status : N) (body : option (list bytes)).

(** A critical section: the mark, or the answers to a question. *)
Inductive Action :=
| MarkUnsupported (t : N)
| Remember (channel : bytes) (unknown got : list bytes) (t : N).

(** src/crates/edge/src/grant_revocation.rs:174-197 [CpRevocationSource::ask]: the two
    writes. *)
Definition act (x : Action) (s : CpRevocationSource) : CpRevocationSource :=
  match x with
  | MarkUnsupported t => {| cache := cache s; unsupported_until := Some (t + UNSUPPORTED_TTL) |}
  | Remember channel unknown got t =>
    let c := cache s in
    let c := if (MAX_CACHED <=? size c)%nat then
               let c := filter (usable t) c in
               if (MAX_CACHED <=? size c)%nat then ∅ else c
             else c in
    {| cache := foldl (λ c d, <[(channel, d) := (bool_decide (d ∈ got), t)]> c) c unknown;
       unsupported_until := unsupported_until s |}
  end.

Definition acts (xs : list Action) (s : CpRevocationSource) : CpRevocationSource :=
  foldl (λ s x, act x s) s xs.

(** The digests a reply names, for those that are hex. *)
Definition decoded (body : list bytes) : list bytes := omap Hex.decode_32 body.

(** src/crates/edge/src/grant_revocation.rs:137-199 [CpRevocationSource::ask]: the question is
    put at [now], the reply processed at [later], other tasks' steps in between. *)
Definition ask (channel : bytes) (digests : list bytes) (reply : Reply) (meanwhile : list Action)
    (now later : N) (s : CpRevocationSource)
    : Result (list bytes) RevocationLookupError * CpRevocationSource :=
  if (match unsupported_until s with Some t => now <? t | None => false end)
  then (Err Unsupported, s)
  else
    let '(revoked, unknown) := triage channel digests now s in
    match unknown with
    | [] => (Ok revoked, s)
    | _ =>
      let s := acts meanwhile s in
      match reply with
      | NoReply => (Err Unreadable, s)
      | Replied status body =>
        if (status =? 404) || (status =? 405)
        then (Err Unsupported, act (MarkUnsupported later) s)
        else if negb (in_range 200 299 status) then (Err Unreadable, s)
        else match body with
             | None => (Err Unreadable, s)
             | Some l =>
               let got := decoded l in
               (Ok (revoked ++ filter (λ d, d ∈ unknown) got),
                act (Remember channel unknown got later) s)
             end
      end
    end.

(** src/crates/edge/src/grant_revocation.rs:73-80 [admission_verdict]: [looked] is the answer
    of the installed source to a question about this digest alone, if one is installed. *)
Definition admission_verdict (digest : bytes)
    (looked : option (Result (list bytes) RevocationLookupError)) : AdmissionVerdict :=
  match looked with
  | None => Allowed
  | Some (Ok v) => if bool_decide (digest ∈ v) then Revoked else Allowed
  | Some (Err Unsupported) => Allowed
  | Some (Err Unreadable) => VerdictUnreadable
  end.

(** src/crates/edge/src/grant_revocation.rs:84-87 [revoked_for_sweep] *)
Definition revoked_for_sweep (looked : option (Result (list bytes) RevocationLookupError))
    : list bytes :=
  match looked with Some (Ok v) => v | _ => [] end.

(** ** Answers and what is made of them *)

(** The control plane's answers: to a question about digests of a channel, the revoked ones,
    or that there is no list. *)
Inductive Answer :=
| Answered (channel : bytes) (unknown got : list bytes) (t : N) | NoList (t : N).

Definition backed (log : list Answer) (x : Action) : Prop :=
  match x with
  | MarkUnsupported t => NoList t ∈ log
  | Remember channel unknown got t => Answered channel unknown got t ∈ log
  end.

(** [d] was answered, at [t]. *)
Definition told (log : list Answer) (channel d : bytes) (revoked : bool) (t : N) : Prop :=
  ∃ unknown got, Answered channel unknown got t ∈ log ∧ d ∈ unknown ∧
    revoked = bool_decide (d ∈ got).

Definition sound (log : list Answer) (s : CpRevocationSource) : Prop :=
  (∀ c d r t, cache s !! (c, d) = Some (r, t) → told log c d r t) ∧
  (∀ u, unsupported_until s = Some u → ∃ t, NoList t ∈ log ∧ u = t + UNSUPPORTED_TTL).

Lemma lookup_remember (c0 : gmap GrantKey (bool * N)) channel (got : list bytes) t unknown c d r t' :
  foldl (λ c d, <[(channel, d) := (bool_decide (d ∈ got), t)]> c) c0 unknown !! (c, d) = Some (r, t') →
  c0 !! (c, d) = Some (r, t') ∨
  c = channel ∧ d ∈ unknown ∧ r = bool_decide (d ∈ got) ∧ t' = t.
Proof.
  revert c0. induction unknown as [|x l IH]; intros c0; cbn; [by left|].
  intros [H|(-> & H & -> & ->)]%IH; [|right; split_and!; [done|by right|done|done]].
  apply lookup_insert_Some in H as [[[= <- <-] [= <- <-]]|[_ H]]; [right|by left].
  split_and!; [done|by left|done|done].
Qed.

Lemma step_keeps_sound log x s : backed log x → sound log s → sound log (act x s).
Proof.
  intros B [C U]. unfold sound. destruct x as [t|ch unknown got t];
    cbn [backed act cache unsupported_until] in *.
  - split; [done|]. intros u [= <-]. eauto.
  - split; [|done]. intros c d r t' H. apply lookup_remember in H as [H|(-> & In & -> & ->)].
    + apply C. destruct (_ <=? _)%nat; [|done]. destruct (_ <=? _)%nat; [done|].
      by apply map_lookup_filter_Some in H as [H _].
    + exists unknown, got. done.
Qed.

Lemma steps_keep_sound log xs s : Forall (backed log) xs → sound log s → sound log (acts xs s).
Proof.
  intros F. revert s. induction F as [|x xs B _ IH]; intros s S; [done|].
  apply IH. by apply step_keeps_sound.
Qed.

Lemma told_more log log' c d r t : log ⊆ log' → told log c d r t → told log' c d r t.
Proof. intros S (u & g & H & ? & ?). exists u, g. split; [by apply S|done]. Qed.

Lemma sound_weaken log log' s : log ⊆ log' → sound log s → sound log' s.
Proof.
  intros S [C U]. split; [intros; eapply told_more; eauto|].
  intros u H. destruct (U u H) as (t & ? & ?). eauto.
Qed.

Lemma cached_told log channel d now s r :
  sound log s → cached channel d now s = Some r →
  ∃ t, told log channel d r t ∧ (r = true ∨ now - t < NOT_REVOKED_TTL).
Proof.
  intros [C _]. unfold cached. destruct (cache s !! (channel, d)) as [[r' t]|] eqn:E; [|done].
  destruct (_ || _) eqn:Q; [|done]. intros [= <-]. exists t. split; [by apply C|].
  apply orb_true_iff in Q as [->|Q]; [by left|]. right. by apply N.ltb_lt.
Qed.

(** What a call may add to the answers. *)
Definition new_answers (channel : bytes) (unknown : list bytes) (reply : Reply) (later : N)
    : list Answer :=
  match reply with
  | Replied status body =>
    if (status =? 404) || (status =? 405) then [NoList later]
    else if negb (in_range 200 299 status) then []
    else match body with Some l => [Answered channel unknown (decoded l) later] | None => [] end
  | NoReply => []
  end.

(** Whatever other tasks do in between, a lookup stays backed by answers: a digest it
    reports was asked for and reported revoked by the control plane; a digest it does not
    report was answered as not revoked, now or less than five seconds before; and it calls
    the list unsupported only after the control plane has said so within five minutes. *)
Theorem revocation_answer_backed log channel digests reply meanwhile now later s :
  sound log s →
  let log' := new_answers channel (triage channel digests now s).2 reply later ++ log in
  Forall (backed log') meanwhile →
  let '(r, s') := ask channel digests reply meanwhile now later s in
  sound log' s' ∧
  match r with
  | Ok l =>
    (∀ d, d ∈ l → d ∈ digests ∧ ∃ t, told log' channel d true t) ∧
    (∀ d, d ∈ digests → d ∉ l →
       ∃ t, told log' channel d false t ∧ (t = later ∨ now - t < NOT_REVOKED_TTL))
  | Err Unsupported => ∃ t, NoList t ∈ log' ∧ (t = later ∨ now < t + UNSUPPORTED_TTL)
  | Err Unreadable => True
  end.
Proof.
  intros S log' M. assert (L : log ⊆ log') by (intros x ?; apply elem_of_app; by right).
  pose proof (steps_keep_sound log' meanwhile s M (sound_weaken _ _ _ L S)) as S'.
  unfold ask. destruct (match unsupported_until s with Some t => now <? t | None => false end) eqn:U.
  { split; [by eapply sound_weaken|]. destruct (unsupported_until s) as [u|] eqn:E; [|done].
    destruct S as [_ S]. destruct (S u E) as (t & H & ->). apply N.ltb_lt in U. eauto. }
  clear U. subst log'. unfold triage in *. cbn [snd] in *.
  set (unknown := filter (λ d, cached channel d now s = None) digests) in *.
  assert (R : ∀ d, d ∈ filter (λ d, cached channel d now s = Some true) digests →
              d ∈ digests ∧ ∃ t, told log channel d true t).
  { intros d [H In]%list_elem_of_filter. split; [done|].
    destruct (cached_told _ _ _ _ _ _ S H) as (t & T & _). eauto. }
  assert (K : ∀ d, d ∈ digests → d ∉ filter (λ d, cached channel d now s = Some true) digests →
              d ∉ unknown → ∃ t, told log channel d false t ∧ now - t < NOT_REVOKED_TTL).
  { intros d In H1 H2. destruct (cached channel d now s) as [[]|] eqn:E.
    - destruct H1. by apply list_elem_of_filter.
    - destruct (cached_told _ _ _ _ _ _ S E) as (t & T & [|]); [done|]. eauto.
    - destruct H2. by apply list_elem_of_filter. }
  destruct unknown as [|u us] eqn:Eu; [|rewrite <- Eu in *; clear Eu u us].
  { split; [by eapply sound_weaken|]. split.
    - intros d In. destruct (R d In) as (? & t & T). split; [done|]. exists t. by eapply told_more.
    - intros d In N. destruct (K d In N) as (t & T & Q); [apply not_elem_of_nil|].
      exists t. split; [by eapply told_more|by right]. }
  unfold new_answers in *.
  destruct reply as [|status body]; [done|].
  destruct (_ || _); [|destruct (negb _); [done|destruct body as [l|]; [|done]]].
  - split; [by apply step_keeps_sound; [left|]|]. exists later. split; [by left|by left].
  - split; [by apply step_keeps_sound; [left|]|]. split.
    + intros d [In|In]%elem_of_app.
      * destruct (R d In) as (? & t & T). split; [done|]. exists t. by eapply told_more.
      * apply list_elem_of_filter in In as [In Hg].
        split; [by apply list_elem_of_filter in In as [_ ?]|]. exists later, unknown, (decoded l).
        split_and!; [by left|done|by rewrite bool_decide_true].
    + intros d In [N1 N2]%not_elem_of_app. destruct (decide (d ∈ unknown)) as [Hu|Hu].
      * exists later. split; [|by left]. exists unknown, (decoded l). split_and!; [by left|done|].
        rewrite bool_decide_false; [done|]. intros Hg. apply N2. by apply list_elem_of_filter.
      * destruct (K d In N1 Hu) as (t & T & Q). exists t. split; [by eapply told_more|by right].
Qed.

Definition d1 : bytes := repeat x41 32.
Definition d2 : bytes := repeat x42 32.

Lemma revocation_answer_backed_witness :
  let reply := Replied 200 (Some [Hex.encode d1]) in
  (ask (lit "c") [d1; d2] reply [] 0 (secs 1) new).1 = Ok [d1] ∧
  ∃ t, told [Answered (lit "c") [d1; d2] [d1] (secs 1)] (lit "c") d2 false t.
Proof.
  intros reply. split; [vm_compute; reflexivity|].
  assert (S : sound [] new)
    by (split; [intros c d r t H; cbn in H; by rewrite lookup_empty in H|done]).
  pose proof (revocation_answer_backed [] (lit "c") [d1; d2] reply [] 0 (secs 1) new S
                ltac:(constructor)) as H.
  destruct (ask (lit "c") [d1; d2] reply [] 0 (secs 1) new) as [r s'] eqn:E.
  assert (Er : r = Ok [d1]) by (change r with (r, s').1; rewrite <- E; vm_compute; reflexivity).
  subst r. destruct H as (_ & _ & H). destruct (H d2) as (t & T & _).
  - right. by left.
  - intros X%list_elem_of_singleton. vm_compute in X. discriminate X.
  - exists t. exact T.
Defined.

End GrantRevocation.

(** ** The sessions that are running *)

Module Splices.

(** A channel and a holder. *)
#[local] Notation SpliceKey := (bytes * bytes)%type.

(** One member's leg: the grant it was admitted with, and whether it has been told to stop. *)
Record Leg := { leg_id : N; digest : option bytes; cut : bool }.

(** src/crates/edge/src/channel_broker.rs:1367-1370 [LiveSplices] *)
Record LiveSplices := { next_id : N; entries : gmap SpliceKey (list Leg) }.

(** src/crates/edge/src/channel_broker.rs:1367-1370 [LiveSplices] *)
Definition new : LiveSplices := {| next_id := 0; entries := ∅ |}.

Definition legs_of (k : SpliceKey) (s : LiveSplices) : list Leg := default [] (entries s !! k).

(** src/crates/edge/src/channel_broker.rs:1425-1434 [register_live_splice_inner]: the handle is
    the key and the id. *)
Definition register_live_splice_inner (channel holder : bytes) (d : option bytes) (s : LiveSplices)
    : (SpliceKey * N) * LiveSplices :=
  let id := wrap64 (next_id s + 1) in
  let key := (channel, holder) in
  ((key, id),
   {| next_id := id;
      entries := <[key := legs_of key s ++ [{| leg_id := id; digest := d; cut := false |}]]> (entries s) |}).

(** src/crates/edge/src/channel_broker.rs:1396-1406 [SpliceGuard::drop] *)
Definition drop_guard (guard : SpliceKey * N) (s : LiveSplices) : LiveSplices :=
  match entries s !! guard.1 with
  | None => s
  | Some v =>
    let v := filter (λ l, leg_id l ≠ guard.2) v in
    {| next_id := next_id s;
       entries := match v with [] => delete guard.1 (entries s)
                  | _ => <[guard.1 := v]> (entries s) end |}
  end.

(** [tx.send(true)] *)
Definition stop (l : Leg) : Leg := {| leg_id := leg_id l; digest := digest l; cut := true |}.

(** src/crates/edge/src/channel_broker.rs:1445-1456 [cut_live_splices] *)
Definition cut_live_splices (channel holder : bytes) (s : LiveSplices) : nat * LiveSplices :=
  match entries s !! (channel, holder) with
  | Some v => (length v, {| next_id := next_id s;
                            entries := <[(channel, holder) := stop <$> v]> (entries s) |})
  | None => (0%nat, s)
  end.

(** One round of the inner loop of [live_splice_digests]. *)
Definition list_digest (channel : bytes) (out : gmap bytes (list bytes)) (l : Leg)
    : gmap bytes (list bytes) :=
  match digest l with
  | None => out
  | Some d =>
    let v := default [] (out !! channel) in
    <[channel := if bool_decide (d ∈ v) then v else v ++ [d]]> out
  end.

(** src/crates/edge/src/channel_broker.rs:1460-1476 [live_splice_digests]: [order] is the hash
    map's iteration order. *)
Definition live_splice_digests (order : list SpliceKey) (s : LiveSplices) : gmap bytes (list bytes) :=
  foldl (λ out k, foldl (list_digest k.1) out (legs_of k s)) ∅ order.

(** Stop a leg admitted with the grant [d]. *)
Definition stop_digest (d : bytes) (l : Leg) : Leg :=
  if bool_decide (digest l = Some d) then stop l else l.

Definition stop_digests (d : bytes) (v : list Leg) : list Leg := stop_digest d <$> v.

(** src/crates/edge/src/channel_broker.rs:1479-1496 [cut_live_splices_by_digest] *)
Definition cut_live_splices_by_digest (channel d : bytes) (s : LiveSplices) : nat * LiveSplices :=
  (length (filter (λ l, digest l = Some d)
     (concat (filter (λ kv, kv.1.1 = channel) (map_to_list (entries s))).*2)),
   {| next_id := next_id s;
      entries := map_imap (λ k v, Some (if bool_decide (k.1 = channel) then stop_digests d v else v))
                   (entries s) |}).

(** What other tasks do to the registry: sessions start and end. *)
Inductive Event := Start (channel holder : bytes) (d : option bytes) | End (guard : SpliceKey * N).

Definition happen (e : Event) (s : LiveSplices) : LiveSplices :=
  match e with
  | Start c h d => (register_live_splice_inner c h d s).2
  | End g => drop_guard g s
  end.

Definition happen_all (es : list Event) (s : LiveSplices) : LiveSplices :=
  foldl (λ s e, happen e s) s es.

(** The first loop of the sweep: each member with what happens while the resolver is asked
    about it. *)
Fixpoint sweep_members (removed : bytes → bytes → bool) (keys : list (SpliceKey * list Event))
    (s : LiveSplices) : nat * LiveSplices :=
  match keys with
  | [] => (0%nat, s)
  | ((c, h), es) :: keys =>
    let s := happen_all es s in
    let '(n, s) := if removed c h then cut_live_splices c h s else (0%nat, s) in
    let '(m, s) := sweep_members removed keys s in ((n + m)%nat, s)
  end.

Definition cut_digests (channel : bytes) (ds : list bytes) (s : LiveSplices) : LiveSplices :=
  foldl (λ s d, (cut_live_splices_by_digest channel d s).2) s ds.

(** The second loop: each channel with its digests, and what happens while the list of
    revoked grants is asked for. *)
Fixpoint sweep_grants (revoked : bytes → list bytes → list bytes)
    (chans : list (bytes * list bytes * list Event)) (s : LiveSplices) : LiveSplices :=
  match chans with
  | [] => s
  | (c, ds, es) :: chans =>
    let s := happen_all es s in
    sweep_grants revoked chans (cut_digests c (revoked c ds) s)
  end.

(** src/crates/edge/src/channel_broker.rs:1511-1548 [sweep_live_splice_memberships]: [keys] and
    [orders] are the orders in which the hash maps yield their entries, [removed] and
    [revoked] what the resolver and the revocation list answer. The result is [None] when
    the orders are not orders of those maps. *)
Definition sweep_live_splice_memberships (removed : bytes → bytes → bool)
    (revoked : bytes → list bytes → list bytes) (keys : list (SpliceKey * list Event))
    (order : list SpliceKey) (chans : list (bytes * list bytes * list Event)) (s : LiveSplices)
    : option (nat * LiveSplices) :=
  if bool_decide (keys.*1 ≡ₚ (map_to_list (entries s)).*1) then
    let '(cut, s) := sweep_members removed keys s in
    if bool_decide (order ≡ₚ (map_to_list (entries s)).*1) &&
       bool_decide (chans.*1 ≡ₚ map_to_list (live_splice_digests order s))
    then Some (cut, sweep_grants revoked chans s)
    else None
  else None.

(** *** The legs of a key after each operation *)

Lemma legs_register c h d k s :
  legs_of k (register_live_splice_inner c h d s).2 =
  legs_of k s ++ (if bool_decide (k = (c, h))
                  then [{| leg_id := wrap64 (next_id s + 1); digest := d; cut := false |}] else []).
Proof.
  unfold register_live_splice_inner, legs_of. cbn. case_bool_decide as E.
  - subst k. by rewrite lookup_insert_eq.
  - by rewrite lookup_insert_ne, app_nil_r.
Qed.

Lemma legs_drop g k s :
  legs_of k (drop_guard g s) =
  if bool_decide (k = g.1) then filter (λ l, leg_id l ≠ g.2) (legs_of k s) else legs_of k s.
Proof.
  unfold drop_guard, legs_of. destruct (entries s !! g.1) as [v|] eqn:E.
  - cbn [entries]. case_bool_decide as N.
    + subst k. rewrite E. cbn. destruct (filter _ v); [by rewrite lookup_delete_eq|].
      by rewrite lookup_insert_eq.
    + destruct (filter _ v); [by rewrite lookup_delete_ne|by rewrite lookup_insert_ne].
  - case_bool_decide as N; [|done]. subst k. by rewrite E.
Qed.

Lemma legs_cut c h k s :
  legs_of k (cut_live_splices c h s).2 =
  if bool_decide (k = (c, h)) then stop <$> legs_of k s else legs_of k s.
Proof.
  unfold cut_live_splices, legs_of. destruct (entries s !! (c, h)) as [v|] eqn:E; cbn.
  - case_bool_decide as N; [subst k; by rewrite lookup_insert_eq, E|by rewrite lookup_insert_ne].
  - case_bool_decide as N; [|done]. subst k. by rewrite E.
Qed.

Lemma legs_cut_digest c d k s :
  legs_of k (cut_live_splices_by_digest c d s).2 =
  if bool_decide (k.1 = c) then stop_digests d (legs_of k s) else legs_of k s.
Proof.
  unfold cut_live_splices_by_digest, legs_of. cbn [snd entries]. rewrite map_lookup_imap.
  destruct (entries s !! k) as [v|]; cbn; by case_bool_decide.
Qed.

(** *** How a registry may change *)

(** The same leg, possibly stopped since. *)
Definition later_leg (l l' : Leg) : Prop :=
  leg_id l = leg_id l' ∧ digest l = digest l' ∧ (cut l = true → cut l' = true).

(** Legs only start, with new ids, end and stop; and a stopped leg was stopped before or for a
    reason [J]. *)
Definition evolves (J : SpliceKey → option bytes → Prop) (s s' : LiveSplices) : Prop :=
  next_id s <= next_id s' ∧
  ∀ k l', l' ∈ legs_of k s' →
    (next_id s < leg_id l' ∨ ∃ l, l ∈ legs_of k s ∧ later_leg l l') ∧
    (cut l' = true → J k (digest l') ∨ ∃ l, l ∈ legs_of k s ∧ cut l = true ∧ later_leg l l').

Lemma later_leg_refl l : later_leg l l.
Proof. done. Qed.

Lemma later_leg_trans l1 l2 l3 : later_leg l1 l2 → later_leg l2 l3 → later_leg l1 l3.
Proof. unfold later_leg. naive_solver congruence. Qed.

Lemma evolves_refl J s : evolves J s s.
Proof. split; [done|]. intros k l H. split; [right|intros C; right]; exists l; by split_and!. Qed.

Lemma evolves_trans J s1 s2 s3 : evolves J s1 s2 → evolves J s2 s3 → evolves J s1 s3.
Proof.
  intros [N1 H1] [N2 H2]. split; [lia|]. intros k l3 I3. destruct (H2 k l3 I3) as [A B]. split.
  - destruct A as [A|(l2 & I2 & L2)]; [left; lia|].
    destruct (H1 k l2 I2) as [[A|(l1 & I1 & L1)] _]; [left; destruct L2; lia|].
    right. exists l1. split; [done|]. by eapply later_leg_trans.
  - intros C. destruct (B C) as [?|(l2 & I2 & C2 & L2)]; [by left|].
    destruct (H1 k l2 I2) as [_ D]. destruct L2 as (E & F & G).
    destruct (D C2) as [?|(l1 & I1 & C1 & L1)]; [left; by rewrite <- F|].
    right. exists l1. split_and!; [done|done|]. by eapply later_leg_trans.
Qed.

(** The sessions that start among some events. *)
Definition starts (es : list Event) : N :=
  N.of_nat (length (filter (λ e, match e with Start _ _ _ => true | End _ => false end = true) es)).

Lemma starts_cons e es :
  starts (e :: es) = (match e with Start _ _ _ => 1 | End _ => 0 end) + starts es.
Proof.
  unfold starts. destruct e; [rewrite filter_cons_True by done|rewrite filter_cons_False by done];
    cbn [length]; lia.
Qed.

Lemma happen_evolves J e s :
  next_id s + starts [e] < U64 →
  evolves J s (happen e s) ∧ next_id (happen e s) <= next_id s + starts [e].
Proof.
  rewrite starts_cons. change (starts []) with 0. destruct e as [c h d|g]; intros L; unfold happen.
  - unfold evolves.
    assert (N : next_id (register_live_splice_inner c h d s).2 = next_id s + 1)
      by (cbn; unfold wrap64; apply N.mod_small; lia).
    rewrite N. split; [|lia]. split; [lia|]. intros k l'. rewrite legs_register.
    intros [H|H]%elem_of_app.
    + split; [right|intros C; right]; exists l'; by split_and!.
    + case_bool_decide; [|by apply not_elem_of_nil in H]. apply list_elem_of_singleton in H as ->.
      cbn in *. rewrite N. split; [left; lia|done].
  - assert (N : next_id (drop_guard g s) = next_id s)
      by (unfold drop_guard; by destruct (entries s !! g.1)).
    rewrite N. split; [|lia]. split; [lia|]. intros k l'. rewrite legs_drop. intros H.
    assert (I : l' ∈ legs_of k s)
      by (case_bool_decide; [by apply list_elem_of_filter in H as [_ ?]|done]).
    split; [right|intros C; right]; exists l'; by split_and!.
Qed.

Lemma happen_all_evolves J es s :
  next_id s + starts es < U64 →
  evolves J s (happen_all es s) ∧ next_id (happen_all es s) <= next_id s + starts es.
Proof.
  revert s. induction es as [|e es IH]; intros s L.
  { split; [apply evolves_refl|cbn; lia]. }
  rewrite starts_cons in *. change (happen_all (e :: es) s) with (happen_all es (happen e s)).
  destruct (happen_evolves J e s) as [E1 N1]; [rewrite starts_cons; change (starts []) with 0; lia|].
  rewrite starts_cons in N1. change (starts []) with 0 in N1.
  destruct (IH (happen e s)) as [E2 N2]; [lia|]. split; [by eapply evolves_trans|lia].
Qed.

Lemma stopping_evolves (J : SpliceKey → option bytes → Prop) s s' (P : SpliceKey → Leg → bool) :
  next_id s' = next_id s →
  (∀ k, legs_of k s' = (λ l, if P k l then stop l else l) <$> legs_of k s) →
  (∀ k l, P k l = true → J k (digest l)) → evolves J s s'.
Proof.
  intros N E H. split; [lia|]. intros k l'. rewrite E. intros (l & -> & I)%list_elem_of_fmap.
  destruct (P k l) eqn:Q.
  - split; [right; exists l; by split_and!|]. intros _. left. cbn. by apply H.
  - split; [right|intros C; right]; exists l; by split_and!.
Qed.

Lemma cut_evolves (J : SpliceKey → option bytes → Prop) c h s :
  (∀ d, J (c, h) d) → evolves J s (cut_live_splices c h s).2.
Proof.
  intros H. apply (stopping_evolves _ _ _ (λ k _, bool_decide (k = (c, h)))).
  - unfold cut_live_splices. by destruct (entries s !! _).
  - intros k. rewrite legs_cut. case_bool_decide; [done|]. symmetry. apply list_fmap_id.
  - intros k l ->%bool_decide_eq_true. apply H.
Qed.

Lemma cut_digest_evolves (J : SpliceKey → option bytes → Prop) c d s :
  (∀ h, J (c, h) (Some d)) → evolves J s (cut_live_splices_by_digest c d s).2.
Proof.
  intros H.
  apply (stopping_evolves _ _ _ (λ k l, bool_decide (k.1 = c) && bool_decide (digest l = Some d))).
  - done.
  - intros k. rewrite legs_cut_digest. case_bool_decide; cbn [andb]; [done|].
    symmetry. apply list_fmap_id.
  - intros [c' h] l [E1%bool_decide_eq_true E2%bool_decide_eq_true]%andb_true_iff. cbn in E1.
    subst c'. rewrite E2. apply H.
Qed.

(** *** The sweep *)

Definition events_of {A} (l : list (A * list Event)) : list Event := concat l.*2.

Lemma starts_app a b : starts (a ++ b) = starts a + starts b.
Proof. unfold starts. rewrite filter_app, length_app. lia. Qed.

Lemma starts_events {A} (x : A) es (l : list (A * list Event)) :
  starts (events_of ((x, es) :: l)) = starts es + starts (events_of l).
Proof. unfold events_of. cbn. apply starts_app. Qed.

(** What has happened and been stopped by a state, seen from a later one. *)
Lemma evolves_stopped J s s' k n (Q : option bytes → Prop) :
  evolves J s s' → n <= next_id s →
  (∀ l, l ∈ legs_of k s → leg_id l <= n → Q (digest l) → cut l = true) →
  ∀ l', l' ∈ legs_of k s' → leg_id l' <= n → Q (digest l') → cut l' = true.
Proof.
  intros [N H] Ln A l' I Le Hq. destruct (H k l' I) as [[?|(l & Il & E & D & C)] _]; [lia|].
  apply C, A; [done|by rewrite E|by rewrite D].
Qed.

Lemma sweep_members_spec (J : SpliceKey → option bytes → Prop) removed keys s :
  (∀ c h d, removed c h = true → J (c, h) d) →
  next_id s + starts (events_of keys) < U64 →
  let s' := (sweep_members removed keys s).2 in
  evolves J s s' ∧ next_id s' <= next_id s + starts (events_of keys) ∧
  ∀ k, k ∈ keys.*1 → removed k.1 k.2 = true →
    ∀ l', l' ∈ legs_of k s' → leg_id l' <= next_id s → cut l' = true.
Proof.
  intros HJ. revert s. induction keys as [|[[c h] es] keys IH]; intros s L.
  { split_and!; [apply evolves_refl|cbn; lia|]. by intros k ?%not_elem_of_nil. }
  rewrite starts_events in *. cbn [sweep_members].
  destruct (happen_all_evolves J es s) as [E1 N1]; [lia|]. set (s1 := happen_all es s) in *.
  set (r2 := if removed c h then cut_live_splices c h s1 else (0%nat, s1)).
  assert (E2 : evolves J s1 r2.2 ∧ next_id r2.2 = next_id s1).
  { subst r2. destruct (removed c h) eqn:R; [|split; [apply evolves_refl|done]]. split.
    - apply cut_evolves. intros d. by apply HJ.
    - unfold cut_live_splices. by destruct (entries s1 !! _). }
  destruct E2 as [E2 N2].
  assert (C2 : removed c h = true → ∀ l, l ∈ legs_of (c, h) r2.2 → cut l = true).
  { intros R l. subst r2. rewrite R, legs_cut, bool_decide_true by done.
    by intros (l0 & -> & _)%list_elem_of_fmap. }
  destruct r2 as [n s2]. cbn [snd] in *. destruct (IH s2) as (E3 & N3 & C3); [lia|].
  destruct (sweep_members removed keys s2) as [m s3]. cbn [snd] in *.
  assert (N0 : next_id s <= next_id s2) by (destruct E1; lia).
  split_and!; [do 2 (eapply evolves_trans; [done|]); done|lia|].
  intros k [-> |I]%elem_of_cons R l' Il Le.
  - cbn [fst snd] in *. apply (evolves_stopped J s2 s3 (c, h) (next_id s) (λ _, True)); auto.
  - apply (C3 k I R l' Il). lia.
Qed.

(** A leg admitted with one of the grants [ds]. *)
Definition admitted_with (ds : list bytes) (l : Leg) : bool :=
  match digest l with Some d => bool_decide (d ∈ ds) | None => false end.

Lemma legs_cut_digests c ds k s :
  legs_of k (cut_digests c ds s) =
  (λ l, if bool_decide (k.1 = c) && admitted_with ds l then stop l else l) <$> legs_of k s.
Proof.
  revert s. induction ds as [|d ds IH]; intros s.
  - symmetry. etrans; [|apply list_fmap_id]. apply list_fmap_ext. intros _ l _.
    unfold admitted_with. by destruct (digest l), (bool_decide _).
  - change (cut_digests c (d :: ds) s) with (cut_digests c ds (cut_live_splices_by_digest c d s).2).
    rewrite IH, legs_cut_digest. case_bool_decide as E; [|done]. unfold stop_digests.
    rewrite <- list_fmap_compose. apply list_fmap_ext. intros _ l _. cbn [compose andb].
    unfold stop_digest, admitted_with. destruct (digest l) as [x|] eqn:D.
    + destruct (decide (x = d)) as [->|N].
      * rewrite (bool_decide_true (Some d = Some d)), (bool_decide_true (d ∈ d :: ds)) by (done || by left).
        cbn. rewrite D. by case_bool_decide.
      * rewrite (bool_decide_false (Some x = Some d)) by congruence. rewrite D.
        rewrite (bool_decide_ext (x ∈ d :: ds) (x ∈ ds)); [done|]. set_solver.
    + rewrite (bool_decide_false (None = Some d)) by done. by rewrite D.
Qed.

Lemma cut_digests_next c ds s : next_id (cut_digests c ds s) = next_id s.
Proof. revert s. induction ds as [|d ds IH]; intros s; [done|].
  change (cut_digests c (d :: ds) s) with (cut_digests c ds (cut_live_splices_by_digest c d s).2).
  by rewrite IH.
Qed.

Lemma cut_digests_evolves (J : SpliceKey → option bytes → Prop) c ds s :
  (∀ h d, d ∈ ds → J (c, h) (Some d)) → evolves J s (cut_digests c ds s).
Proof.
  intros HJ. apply (stopping_evolves _ _ _ (λ k l, bool_decide (k.1 = c) && admitted_with ds l)).
  - apply cut_digests_next.
  - intros k. apply legs_cut_digests.
  - intros [c' h] l [E A]%andb_true_iff. apply bool_decide_eq_true in E. cbn in E. subst c'.
    unfold admitted_with in A. destruct (digest l) as [d|]; [|done].
    apply bool_decide_eq_true in A. by apply HJ.
Qed.

Lemma sweep_grants_spec (J : SpliceKey → option bytes → Prop) revoked chans s :
  (∀ c h ds d, d ∈ revoked c ds → J (c, h) (Some d)) →
  next_id s + starts (events_of chans) < U64 →
  let s' := sweep_grants revoked chans s in
  evolves J s s' ∧
  ∀ c h ds d, (c, ds) ∈ chans.*1 → d ∈ revoked c ds →
    ∀ l', l' ∈ legs_of (c, h) s' → leg_id l' <= next_id s → digest l' = Some d → cut l' = true.
Proof.
  intros HJ. revert s. induction chans as [|[[c ds] es] chans IH]; intros s L.
  { split; [apply evolves_refl|]. by intros c h ds d ?%not_elem_of_nil. }
  rewrite starts_events in *. cbn [sweep_grants].
  destruct (happen_all_evolves J es s) as [E1 N1]; [lia|]. set (s1 := happen_all es s) in *.
  set (s2 := cut_digests c (revoked c ds) s1).
  assert (E2 : evolves J s1 s2) by (apply cut_digests_evolves; intros; by eapply HJ).
  assert (N2 : next_id s2 = next_id s1) by apply cut_digests_next.
  destruct (IH s2) as (E3 & C3); [lia|].
  split; [do 2 (eapply evolves_trans; [done|]); done|].
  assert (N0 : next_id s <= next_id s2) by (destruct E1; lia).
  intros c' h ds' d [[= -> ->] |I]%elem_of_cons Hd l' Il Le Hl.
  - refine (evolves_stopped J s2 _ (c, h) (next_id s) (λ x, x = Some d) E3 N0 _ l' Il Le Hl).
    intros l Il2 _ Dl. subst s2. rewrite legs_cut_digests, bool_decide_true in Il2 by done.
    apply list_elem_of_fmap in Il2 as (l1 & -> & _). cbn [andb] in *.
    destruct (admitted_with _ l1) eqn:A; [done|]. unfold admitted_with in A.
    rewrite Dl in A. by rewrite bool_decide_true in A.
  - apply (C3 c' h ds' d I Hd l' Il); [lia|done].
Qed.

(** The digests of the registry are those of its legs. *)
Definition listed (out : gmap bytes (list bytes)) (c d : bytes) : Prop :=
  ∃ ds, out !! c = Some ds ∧ d ∈ ds.

Lemma list_digest_listed c out l c' d :
  listed (list_digest c out l) c' d ↔ listed out c' d ∨ c' = c ∧ digest l = Some d.
Proof.
  unfold list_digest, listed. destruct (digest l) as [x|]; [|naive_solver].
  destruct (decide (c' = c)) as [->|N].
  - rewrite lookup_insert_eq. set (v := default [] (out !! c)).
    assert (V : (∃ ds, out !! c = Some ds ∧ d ∈ ds) ↔ d ∈ v).
    { subst v. destruct (out !! c) as [ds|]; cbn; [naive_solver|].
      split; [naive_solver|by intros ?%not_elem_of_nil]. }
    rewrite V. transitivity (d ∈ (if bool_decide (x ∈ v) then v else v ++ [x])); [naive_solver|].
    case_bool_decide; [|rewrite elem_of_app, list_elem_of_singleton]; naive_solver.
  - rewrite lookup_insert_ne by done. naive_solver.
Qed.

Lemma digests_listed order s c d :
  listed (live_splice_digests order s) c d ↔
  ∃ h l, (c, h) ∈ order ∧ l ∈ legs_of (c, h) s ∧ digest l = Some d.
Proof.
  unfold live_splice_digests.
  assert (Inner : ∀ c0 ls out, listed (foldl (list_digest c0) out ls) c d ↔
            listed out c d ∨ c = c0 ∧ ∃ l, l ∈ ls ∧ digest l = Some d).
  { intros c0 ls. induction ls as [|l ls IH]; intros out; cbn [foldl]; [set_solver|].
    rewrite IH, list_digest_listed. set_solver. }
  assert (Outer : ∀ out, listed (foldl (λ out k, foldl (list_digest k.1) out (legs_of k s)) out order) c d ↔
            listed out c d ∨ ∃ h l, (c, h) ∈ order ∧ l ∈ legs_of (c, h) s ∧ digest l = Some d).
  { induction order as [|[c0 h0] order IH]; intros out; cbn [foldl]; [set_solver|].
    rewrite IH, Inner. cbn. set_solver. }
  rewrite Outer. split; [intros [(ds & H & _)|H]; [by rewrite lookup_empty in H|done]|by right].
Qed.

Lemma legs_key k l s : l ∈ legs_of k s → k ∈ (map_to_list (entries s)).*1.
Proof.
  unfold legs_of. destruct (entries s !! k) as [v|] eqn:E; [|by intros ?%not_elem_of_nil].
  intros _. apply list_elem_of_fmap. exists (k, v). by rewrite elem_of_map_to_list.
Qed.

Section sweep.
Context (removed : bytes → bytes → bool) (revoked : bytes → list bytes → list bytes).

(** The reasons of a sweep. *)
Definition reason (k : SpliceKey) (d : option bytes) : Prop :=
  removed k.1 k.2 = true ∨ ∃ ds x, d = Some x ∧ x ∈ revoked k.1 ds.

(** C23 A sweep, while sessions start and end during its questions: every leg that ran when
    it began and is still there at the end has been told to stop if its member was reported
    removed, or if its grant was reported revoked; and it tells nobody else to stop, among
    the old legs and the new ones, so a resolver or a list that cannot answer ends no
    session. *)
Theorem sweep_exact keys order chans s n s' :
  sweep_live_splice_memberships removed revoked keys order chans s = Some (n, s') →
  next_id s + starts (events_of keys) + starts (events_of chans) < U64 →
  (∀ k l, l ∈ legs_of k s' → leg_id l <= next_id s → removed k.1 k.2 = true → cut l = true) ∧
  (∀ c h l d, l ∈ legs_of (c, h) s' → leg_id l <= next_id s → digest l = Some d →
     (∀ ds, d ∈ ds → d ∈ revoked c ds) → cut l = true) ∧
  (∀ k l, l ∈ legs_of k s' → cut l = true →
     reason k (digest l) ∨ ∃ l0, l0 ∈ legs_of k s ∧ cut l0 = true ∧ later_leg l0 l).
Proof.
  unfold sweep_live_splice_memberships. intros E L.
  case_bool_decide as K; [|done].
  destruct (sweep_members_spec reason removed keys s) as (E1 & N1 & C1); [by left|lia|].
  destruct (sweep_members removed keys s) as [m s1]. cbn [snd] in *.
  destruct (_ && _) eqn:O; [|done]. injection E as <- <-.
  apply andb_true_iff in O as [O Q]. apply bool_decide_eq_true in O, Q.
  destruct (sweep_grants_spec reason revoked chans s1) as (E2 & C2);
    [intros c h ds d Hd; right; by exists ds, d|lia|].
  pose proof (evolves_trans _ _ _ _ E1 E2) as E12. set (s2 := sweep_grants _ _ _) in *.
  split_and!.
  - intros k l I Le R.
    assert (Kk : k ∈ keys.*1).
    { rewrite K. destruct E12 as [_ H]. destruct (H k l I) as [[?|(l0 & I0 & _)] _]; [lia|].
      by eapply legs_key. }
    assert (Ln : next_id s <= next_id s1) by (destruct E1; lia).
    refine (evolves_stopped reason s1 s2 k (next_id s) (λ _, True) E2 Ln _ l I Le Logic.I).
    intros l1 I1 L1 _. by apply (C1 k).
  - intros c h l d I Le Dg All.
    destruct E2 as [_ H]. destruct (H (c, h) l I) as [[?|(l1 & I1 & Ei & Ed & _)] _];
      [destruct E1; lia|].
    assert (Ld : listed (live_splice_digests order s1) c d).
    { apply digests_listed. exists h, l1. split_and!; [|done|congruence].
      rewrite O. by eapply legs_key. }
    destruct Ld as (ds & Hds & In).
    apply (C2 c h ds d) with (l' := l); [|by apply All|done| |done].
    + rewrite Q. by apply elem_of_map_to_list.
    + destruct E1. lia.
  - intros k l I C. destruct E12 as [_ H]. destruct (H k l I) as [_ H']. by apply H'.
Qed.

End sweep.

(** Three legs on a channel: the first member has been removed, the second one's grant has been
    revoked, the third stays; a fourth starts while the resolver is asked. *)
Definition h1 : bytes := lit "h1".
Definition h2 : bytes := lit "h2".
Definition h3 : bytes := lit "h3".
Definition running : LiveSplices :=
  happen_all [Start (lit "c") h1 (Some (lit "g1")); Start (lit "c") h2 (Some (lit "g2"));
              Start (lit "c") h3 (Some (lit "g3"))] new.
Definition demo_removed (c h : bytes) : bool := bool_decide (h = h1).
Definition demo_revoked (c : bytes) (ds : list bytes) : list bytes :=
  filter (λ d, d = lit "g2") ds.
Definition demo_keys : list (SpliceKey * list Event) :=
  map (λ k, (k, [Start (lit "c") h1 (Some (lit "g4"))])) (map_to_list (entries running)).*1.
Definition demo_mid : LiveSplices := (sweep_members demo_removed demo_keys running).2.
Definition demo_order : list SpliceKey := (map_to_list (entries demo_mid)).*1.
Definition demo_chans : list (bytes * list bytes * list Event) :=
  map (λ cd, (cd, [])) (map_to_list (live_splice_digests demo_order demo_mid)).

Definition demo_swept : option (nat * LiveSplices) :=
  sweep_live_splice_memberships demo_removed demo_revoked demo_keys demo_order demo_chans running.

Lemma sweep_exact_witness :
  ∃ n s', demo_swept = Some (n, s') ∧
    (∀ l, l ∈ legs_of (lit "c", h1) s' → leg_id l <= 3 → cut l = true) ∧
    cut <$> legs_of (lit "c", h2) s' = [true] ∧ cut <$> legs_of (lit "c", h3) s' = [false].
Proof.
  assert (C : match demo_swept with
              | Some (_, s) => cut <$> legs_of (lit "c", h2) s = [true] ∧
                               cut <$> legs_of (lit "c", h3) s = [false]
              | None => False end) by (vm_compute; split; reflexivity).
  destruct demo_swept as [[n s']|] eqn:E; [|destruct C]. exists n, s'.
  split; [reflexivity|]. split; [|exact C]. intros l I Le.
  refine (proj1 (sweep_exact demo_removed demo_revoked demo_keys demo_order demo_chans running n s'
            E ltac:(vm_compute; reflexivity)) (lit "c", h1) l I _ ltac:(vm_compute; reflexivity)).
  exact Le.
Defined.

End Splices.
