(* ===== verification/Join.v ===== *)
(** * The channel-join exchange, both ends

    The member's side is [common/src/channel_wire.rs] and [channel_wire/io.rs], the edge's the
    admission and the completion of a pair in [edge/src/channel_broker.rs]. A stream is what it
    will deliver and how it ends, what was written to it, and how much it still takes. *)

From S2P Require Import Prelude RustStd Maps Interfaces Codec Channels Reach SockAddr Broker Membership.

(** ** The text functions of the standard library the readers use *)

Module Text.

(** [str::split_whitespace]: [word] is the word being read. *)
Fixpoint words_from (fuel : nat) (word s : bytes) : list bytes :=
  let flush := match word with [] => [] | _ => [word] end in
  match fuel, s with
  | S fuel', b :: s' =>
    match find (λ w, starts_with w s) white_space with
    | Some w => flush ++ words_from fuel' [] (drop (length w) s)
    | None => words_from fuel' (word ++ [b]) s'
    end
  | _, _ => flush
  end.
Definition split_whitespace (s : bytes) : list bytes := words_from (length s) [] s.

(** The replacement character. *)
Definition REPLACEMENT : bytes := map byte_of_N [239; 191; 189].

(** One round of [String::from_utf8_lossy]: how many bytes the next character, or the next
    ill-formed piece, takes, and which of the two it is. *)
Definition next_char (b0 : byte) (s : bytes) : bool * nat :=
  let n0 := N_of_byte b0 in
  let at_ i := nth i s x00 in
  if n0 <? 128 then (true, 1%nat)
  else if in_range 194 223 n0 then
    if is_cont (at_ 0%nat) then (true, 2%nat) else (false, 1%nat)
  else if in_range 224 239 n0 then
    if negb (second_of_three n0 (at_ 0%nat)) then (false, 1%nat)
    else if is_cont (at_ 1%nat) then (true, 3%nat) else (false, 2%nat)
  else if in_range 240 244 n0 then
    if negb (second_of_four n0 (at_ 0%nat)) then (false, 1%nat)
    else if negb (is_cont (at_ 1%nat)) then (false, 2%nat)
    else if is_cont (at_ 2%nat) then (true, 4%nat) else (false, 3%nat)
  else (false, 1%nat).

Fixpoint lossy_from (fuel : nat) (s : bytes) : bytes :=
  match fuel, s with
  | S fuel', b :: s' =>
    let '(valid, n) := next_char b s' in
    (if valid then take n s else REPLACEMENT) ++ lossy_from fuel' (drop n s)
  | _, _ => []
  end.
Definition from_utf8_lossy (s : bytes) : bytes := lossy_from (length s) s.

(** [str::strip_prefix] *)
Definition strip_prefix (p s : bytes) : option bytes :=
  if starts_with p s then Some (drop (length p) s) else None.

(** A printable ASCII character other than the space. *)
Definition plain (b : byte) : bool := in_range 33 126 (N_of_byte b).

Lemma plain_no_space b s : plain b = true → find (λ w, starts_with w (b :: s)) white_space = None.
Proof.
  intros P. assert (H : ∀ w, w ∈ white_space → starts_with w (b :: s) = false).
  { intros w Hw.
    assert (Q : forallb (λ b, implb (plain b)
              (forallb (λ w, match w with c :: _ => negb (bool_decide (b = c)) | [] => false end) white_space))
              Hex.all_bytes = true) by by vm_compute.
    pose proof (Hex.byte_check _ Q b) as Qb. cbv beta in Qb. rewrite P in Qb. cbn [implb] in Qb.
    rewrite forallb_forall in Qb. specialize (Qb w (proj1 (list_elem_of_In _ _) Hw)).
    destruct w as [|c w]; [done|]. cbn [starts_with]. apply negb_true_iff, bool_decide_eq_false in Qb.
    rewrite bool_decide_false by congruence. done. }
  induction white_space as [|w l IH]; [done|]. cbn [find]. rewrite (H w) by by left.
  apply IH. intros w' Hw. apply H. by right.
Qed.

Lemma words_plain fuel word t s :
  forallb plain t = true →
  words_from (length t + fuel) word (t ++ s) = words_from fuel (word ++ t) s.
Proof.
  revert word. induction t as [|b t IH]; intros word; cbn [forallb length app Nat.add].
  { intros _. by rewrite app_nil_r. }
  intros [Hb Ht]%andb_true_iff. cbn [words_from]. rewrite plain_no_space by done.
  rewrite IH by done. by rewrite <- app_assoc.
Qed.

(** Words separated by single spaces are read back. *)
Lemma split_words (l : list bytes) :
  Forall (λ t, t ≠ [] ∧ forallb plain t = true) l →
  split_whitespace (concat (map (λ t, " "%byte :: t) l)) = l.
Proof.
  unfold split_whitespace.
  assert (G : ∀ l word, Forall (λ t, t ≠ [] ∧ forallb plain t = true) l →
            words_from (length (concat (map (λ t, " "%byte :: t) l))) word
              (concat (map (λ t, " "%byte :: t) l)) =
            match word with [] => [] | _ => [word] end ++ l).
  { clear l. induction l as [|t l IH]; intros word F; cbn [map concat length app].
    { cbn. by rewrite app_nil_r. }
    apply Forall_cons in F as [[Ht P] F]. cbn [words_from].
    replace (find _ _) with (Some [" "%byte]) by (cbn; done). cbn [length drop]. f_equal.
    rewrite drop_0, length_app, words_plain, app_nil_l, IH by done. by destruct t. }
  intros F. by rewrite G.
Qed.

Lemma lossy_ascii s : forallb is_ascii s = true → from_utf8_lossy s = s.
Proof.
  unfold from_utf8_lossy. induction s as [|b s IH]; [done|]. cbn [forallb length lossy_from].
  intros [Hb Hs]%andb_true_iff. unfold is_ascii in Hb. unfold next_char. rewrite Hb.
  cbn [take drop app]. by rewrite drop_0, IH.
Qed.

Lemma plain_ascii s : forallb plain s = true → forallb is_ascii s = true.
Proof.
  rewrite !forallb_forall. intros H b Hb. specialize (H b Hb). unfold plain, in_range in H.
  apply andb_true_iff in H as [_ H]. apply N.leb_le in H. apply N.ltb_lt. lia.
Qed.

(** A two-byte character cut short, inside other text. *)
Example lossy_cut : from_utf8_lossy (map byte_of_N [97; 195; 98; 226; 130; 99]) =
  lit "a" ++ REPLACEMENT ++ lit "b" ++ REPLACEMENT ++ lit "c".
Proof. by vm_compute. Qed.

End Text.

(** ** Streams *)

Module Stream.

(** What happens once the delivered bytes are read: the peer has closed, the transport fails
    with an error whose chain of messages is given, or nothing comes within the bound of the
    read. *)
Inductive Ending := Eof | Failed (chain : list bytes) | Silent.

#[global] Instance ending_eq_dec : EqDecision Ending.
Proof. solve_decision. Defined.

(** [room]: how many bytes the transport takes before writes fail; [None] if they never do. *)
Record Duplex := {
  incoming : bytes; ending : Ending; sent : bytes; room : option nat; shut : bool;
}.

Definition set_incoming (b : bytes) (d : Duplex) : Duplex :=
  {| incoming := b; ending := ending d; sent := sent d; room := room d; shut := shut d |}.

(** A stream that delivers [b], then ends as [e]; writes succeed. *)
Definition open_stream (b : bytes) (e : Ending) : Duplex :=
  {| incoming := b; ending := e; sent := []; room := None; shut := false |}.

(** A computation on a stream that can fail. *)
Definition Io (E A : Type) : Type := Duplex → Result A E * Duplex.

Section io.
Context {E : Type}.

Definition ret {A} (a : A) : Io E A := λ d, (Ok a, d).
Definition fail {A} (e : E) : Io E A := λ d, (Err e, d).
Definition bind {A B} (m : Io E A) (k : A → Io E B) : Io E B := λ d,
  match m d with (Ok a, d) => k a d | (Err e, d) => (Err e, d) end.

(** [let _ = m.await;] *)
Definition attempt {A} (m : Io E A) : Io E () := λ d, (Ok (), (m d).2).

(** [write_all(..).await]: [e] is the error of a failing transport. *)
Definition write_all (e : E) (b : bytes) : Io E () := λ d,
  let put n room := {| incoming := incoming d; ending := ending d; sent := sent d ++ take n b;
                       room := room; shut := shut d |} in
  match room d with
  | None => (Ok (), put (length b) None)
  | Some n => if (length b <=? n)%nat then (Ok (), put (length b) (Some (n - length b)%nat))
              else (Err e, put n (Some 0%nat))
  end.

(** [shutdown().await]: the writing half is closed. *)
Definition shutdown (e : E) : Io E () := λ d,
  (if bool_decide (room d = Some 0%nat) then Err e else Ok (),
   {| incoming := incoming d; ending := ending d; sent := sent d; room := room d; shut := true |}).

(** [read_exact(..).await] of [n] bytes: [e] when the stream ends first, [w] when no byte comes. *)
Definition read_exact (e w : E) (n : nat) : Io E bytes := λ d,
  if (n <=? length (incoming d))%nat
  then (Ok (take n (incoming d)), set_incoming (drop n (incoming d)) d)
  else (Err match ending d with Silent => w | _ => e end, set_incoming [] d).

(** [take(n).read_to_end(..).await], whose error is ignored: what there is, at most [n] bytes. *)
Definition read_up_to (w : E) (n : nat) : Io E bytes := λ d,
  if (n <=? length (incoming d))%nat
  then (Ok (take n (incoming d)), set_incoming (drop n (incoming d)) d)
  else (match ending d with Silent => Err w | _ => Ok (incoming d) end, set_incoming [] d).

End io.

Declare Scope io_scope.
Delimit Scope io_scope with io.
Notation "x '<~' c ';' k" := (bind c (λ x, k))
  (at level 100, c at next level, k at level 200, right associativity) : io_scope.
Notation "c ';;' k" := (bind c (λ _, k))
  (at level 100, k at level 200, right associativity) : io_scope.

End Stream.
Import Stream.
Open Scope io_scope.

(** ** The member *)

Module Member.
Import ChannelJoinRequest.

(** src/crates/common/src/channel_wire.rs:91-130 [ChannelJoinOutcome]: [Paired] is the variant
    [Admitted]. *)
Inductive ChannelJoinOutcome :=
| Paired (peer_endpoint : bytes) (peer_noise_pubkey peer_holder peer_attestation : option bytes)
    (observed_reflexive : option Address.SocketAddr)
| Refused (category : option bytes)
| ParkExpired.

(** The errors of the two readers; [Waiting] is a call that has not returned. *)
Inductive JoinError :=
| RequestTooLarge | Transport | MalformedResponse (n : nat) | Stalled | ParkSilent | AckTooLong
| DroppedLegBeforeAck (relay : bool) | Waiting.

(** src/crates/common/src/channel_wire.rs:137-137 [CHANNEL_ACK_MAX_BYTES] *)
Definition CHANNEL_ACK_MAX_BYTES : nat := 512.
(** src/crates/common/src/channel_wire.rs:184-184 [PHASE_PREAMBLE_MAGIC] *)
Definition PHASE_PREAMBLE_MAGIC : byte := xff.
(** src/crates/common/src/channel_wire.rs:186-186 [PHASE_MARKER_RENDEZVOUS] *)
Definition PHASE_MARKER_RENDEZVOUS : byte := x01.
(** src/crates/common/src/channel_wire.rs:188-188 [PHASE_MARKER_RELAY] *)
Definition PHASE_MARKER_RELAY : byte := x02.
(** src/crates/common/src/channel_wire.rs:198-198 [POSSESSION_CHALLENGE_LEN] *)
Definition POSSESSION_CHALLENGE_LEN : nat := 32.
(** src/crates/common/src/channel.rs:421-421 [PARK_EXPIRED_REASON_PREFIX] *)
Definition PARK_EXPIRED_REASON_PREFIX : bytes := lit "park-expired:".
(** src/crates/common/src/channel.rs:412-412 [PARK_EXPIRED_TOKEN] *)
Definition PARK_EXPIRED_TOKEN : bytes := lit "EX".
(** src/crates/common/src/channel_wire.rs:255-255 [REFUSAL_CATEGORY_MAX_LEN] *)
Definition REFUSAL_CATEGORY_MAX_LEN : nat := Refusal.CHANNEL_REFUSAL_CATEGORY_MAX_LEN.

(** src/crates/common/src/channel_wire.rs:213-216 [quic_park_expired_marker] *)
Definition quic_park_expired_marker : bytes :=
  if ends_with (lit ":") PARK_EXPIRED_REASON_PREFIX
  then take (length PARK_EXPIRED_REASON_PREFIX - 1) PARK_EXPIRED_REASON_PREFIX
  else PARK_EXPIRED_REASON_PREFIX.

(** [str::contains] *)
Fixpoint contains (p s : bytes) : bool :=
  starts_with p s || match s with [] => false | _ :: s' => contains p s' end.

(** src/crates/common/src/channel_wire.rs:224-233 [error_names_park_expiry]: the messages of
    the error and of its sources. *)
Definition error_names_park_expiry (chain : list bytes) : bool :=
  existsb (contains quic_park_expired_marker) chain.

(** src/crates/common/src/channel_wire.rs:263-267 [is_refusal_token_shape] *)
Definition is_refusal_token_shape (token : bytes) : bool :=
  negb (length token =? 0)%nat && (length token <=? REFUSAL_CATEGORY_MAX_LEN)%nat
  && forallb (λ b, is_lower b || is_digit b || bool_decide (b = x2d)) token.

(** src/crates/common/src/channel_wire.rs:274-281 [decode_refusal_category] *)
Definition decode_refusal_category (rest : bytes) : option bytes :=
  match rest with
  | [] => None
  | len :: tail =>
    token ← get_range tail 0 (N.to_nat (N_of_byte len));
    if negb (is_refusal_token_shape token) then None else Some token
  end.

(** src/crates/common/src/channel_wire.rs:296-315 [parse_channel_ack]: the tagged address, the
    last one if there are several, and the positional fields. *)
Definition ack_fields (rest : bytes) : option Address.SocketAddr * list bytes :=
  foldl (λ acc tok,
    match Text.strip_prefix (lit "r=") tok with
    | Some addr => (SockAddr.parse addr, acc.2)
    | None => if bool_decide ("="%byte ∈ tok) then acc else (acc.1, acc.2 ++ [tok])
    end) (None, []) (Text.split_whitespace rest).

(** src/crates/common/src/channel_wire.rs:284-334 [parse_channel_ack] *)
Definition parse_channel_ack (ack : bytes) : ChannelJoinOutcome :=
  if bool_decide (trim ack = PARK_EXPIRED_TOKEN) then ParkExpired
  else match Text.strip_prefix (lit "OK") ack with
  | Some rest =>
    let '(observed, fields) := ack_fields rest in
    Paired (default [] (fields !! 0%nat)) (fields !! 1%nat ≫= Hex.decode_32)
      (fields !! 2%nat ≫= Hex.decode_32) (fields !! 3%nat ≫= Hex.decode_array 64) observed
  | None => Refused None
  end.

(** src/crates/common/src/channel_wire/io.rs:287-295 [read_refusal_tail_token] *)
Definition read_refusal_tail_token : Io JoinError (option bytes) := λ d,
  let '(r, d') := read_up_to Waiting (REFUSAL_CATEGORY_MAX_LEN + 1) d in
  let arrived := (REFUSAL_CATEGORY_MAX_LEN + 1 <=? length (incoming d))%nat ||
                 bool_decide (ending d = Eof) in
  (Ok match r with
      | Ok tail => if arrived && (length tail =? 10)%nat && is_refusal_token_shape tail
                   then Some tail else None
      | Err _ => None
      end, d').

(** How the reading of an ack line stops. *)
Inductive Stop := Newline | Ended | TooLong.

(** src/crates/common/src/channel_wire/io.rs:190-250 [present_channel_join_on_stream]: the
    reading of the ack line, byte by byte; leading NULs are the park's keepalive. *)
Fixpoint read_ack (s line : bytes) : Stop * bytes * bytes :=
  match s with
  | [] => (Ended, line, [])
  | b :: s' =>
    if bool_decide (b = x0a) then (Newline, line, s')
    else if bool_decide (b = x00) && (length line =? 0)%nat then read_ack s' line
    else
      let line := line ++ [b] in
      if (CHANNEL_ACK_MAX_BYTES <=? length line)%nat then (TooLong, line, s')
      else read_ack s' line
  end.

(** src/crates/common/src/channel_wire/io.rs:253-269 [present_channel_join_on_stream]: what the
    line means. *)
Definition classify_ack (relay by_newline : bool) (line : bytes) : Io JoinError ChannelJoinOutcome :=
  if (length line =? 0)%nat then fail (DroppedLegBeforeAck relay)
  else match Text.strip_prefix (lit "NO") line with
  | Some rest =>
    category <~ (if negb (length rest =? 0)%nat then ret (decode_refusal_category rest)
                 else if by_newline then read_refusal_tail_token else ret None);
    ret (Refused category)
  | None => ret (parse_channel_ack (Text.from_utf8_lossy line))
  end.

Section with_ed25519.
Context `{Ed25519}.

(** src/crates/common/src/channel_wire/io.rs:100-119 [present_channel_join_on_stream]: the
    optional preamble and the framed request. *)
Definition send_request (request : ChannelJoinRequest) (phase_marker : option byte)
    : Io JoinError () :=
  let bytes := encode request in
  if 65536 <=? blen bytes then fail RequestTooLarge
  else
    match phase_marker with
    | Some phase => write_all Transport [PHASE_PREAMBLE_MAGIC; phase]
    | None => ret ()
    end;;
    write_all Transport (u16_be (blen bytes));;
    write_all Transport bytes.

(** src/crates/common/src/channel_wire/io.rs:130-174 [present_channel_join_on_stream]: the
    answer to the request; [Some] outcome ends the exchange early. *)
Definition answer_challenge (holder : SigningKey) (finish_send_after_sig : bool)
    : Io JoinError (option ChannelJoinOutcome) :=
  resp <~ read_up_to Stalled POSSESSION_CHALLENGE_LEN;
  if negb (length resp =? POSSESSION_CHALLENGE_LEN)%nat then
    if (length resp =? 0)%nat || starts_with (lit "NO") (Text.from_utf8_lossy resp)
    then ret (Some (Refused (rest ← get_range resp 2 (length resp); decode_refusal_category rest)))
    else fail (MalformedResponse (length resp))
  else
    write_all Transport (sign holder resp);;
    (if finish_send_after_sig then attempt (shutdown Transport) else ret ());;
    ret None.

(** src/crates/common/src/channel_wire/io.rs:190-269 [present_channel_join_on_stream]: the wait
    for the ack, and its meaning. *)
Definition await_ack (ka_tick_wait : bool) : Io JoinError ChannelJoinOutcome := λ d,
  let '(stop, line, rest) := read_ack (incoming d) [] in
  let d := set_incoming rest d in
  match stop with
  | TooLong => (Err AckTooLong, d)
  | Newline => classify_ack false true line d
  | Ended =>
    match ending d with
    | Silent => (Err (if ka_tick_wait then ParkSilent else Stalled), d)
    | Failed chain => if error_names_park_expiry chain then (Ok ParkExpired, d)
                      else classify_ack false false line d
    | Eof => classify_ack false false line d
    end
  end.

(** src/crates/common/src/channel_wire/io.rs:76-270 [present_channel_join_on_stream] *)
Definition present_channel_join_on_stream (request : ChannelJoinRequest) (holder : SigningKey)
    (finish_send_after_sig : bool) (phase_marker : option byte) (ka_tick_wait : bool)
    : Io JoinError ChannelJoinOutcome :=
  send_request request phase_marker;;
  early <~ answer_challenge holder finish_send_after_sig;
  match early with
  | Some outcome => ret outcome
  | None => await_ack ka_tick_wait
  end.

(** src/crates/common/src/channel_wire/io.rs:354-406 [present_channel_relay_join_on_stream]: the
    ack of the relay leg, read no further than its delimiter. *)
Definition await_relay_ack : Io JoinError ChannelJoinOutcome := λ d,
  let '(stop, line, rest) := read_ack (incoming d) [] in
  let d := set_incoming rest d in
  match stop with
  | TooLong => (Err AckTooLong, d)
  | Newline => classify_ack true true line d
  | Ended => if bool_decide (ending d = Silent) then (Err Waiting, d)
             else classify_ack true false line d
  end.

(** src/crates/common/src/channel_wire/io.rs:321-407 [present_channel_relay_join_on_stream] *)
Definition present_channel_relay_join_on_stream (request : ChannelJoinRequest)
    (holder : SigningKey) (phase_marker : option byte) : Io JoinError ChannelJoinOutcome :=
  send_request request phase_marker;;
  challenge <~ read_exact Transport Waiting 32;
  write_all Transport (sign holder challenge);;
  await_relay_ack.

End with_ed25519.

End Member.

(** ** The edge *)

Module Edge.
Import ChannelJoinRequest Pairer.
Import Member (PHASE_PREAMBLE_MAGIC, PARK_EXPIRED_TOKEN, PARK_EXPIRED_REASON_PREFIX).
Import GrantRevocation (AdmissionVerdict, Allowed, Revoked, VerdictUnreadable).

(** How an admission fails. [Refused] was written to the member, with its category;
    [StillWaiting] is a call that has not returned. *)
Inductive EdgeError :=
| Refused (tag : bytes) (definitive : bool) | UnknownMarker | PreambleFailed
| IoLen | IoBody | IoChallenge | JoinTimeout | StillWaiting.

(** src/crates/edge/src/channel_broker.rs:1729-1731 [is_definitive_join_refusal] *)
Definition is_definitive_join_refusal (e : EdgeError) : bool :=
  match e with Refused _ d => d | UnknownMarker => true | _ => false end.

(** src/crates/edge/src/channel_broker.rs:260-284 [peek_optional_phase_marker]: [w] is what a
    silent stream comes to. The two bytes read are put back when they are no preamble. *)
Definition peek_optional_phase_marker (w : EdgeError) : Io EdgeError ParkPhase :=
  first <~ read_exact PreambleFailed w 2;
  if negb (bool_decide (first !! 0%nat = Some PHASE_PREAMBLE_MAGIC))
  then λ d, (Ok Unmarked, set_incoming (first ++ incoming d) d)
  else match first !! 1%nat with
  | Some x01 => ret Rendezvous
  | Some x02 => ret Relay
  | _ => fail UnknownMarker
  end.

(** src/crates/edge/src/channel_broker.rs:773-797 [read_channel_join_on_stream]: the function
    [refuse] inside it. *)
Definition refuse {A} (tag : bytes) (definitive : bool) : Io EdgeError A :=
  attempt (write_all IoChallenge (Refusal.encode_channel_refusal tag));;
  attempt (shutdown IoChallenge);;
  fail (Refused tag definitive).

(** What an admission yields. *)
Record Joined := {
  req : ChannelJoinRequest;
  operator : bytes;
  member_noise : option bytes;
  member_attest : option bytes;
}.

Section with_ed25519.
Context `{Ed25519} (sha256 : bytes → bytes).

(** [authorize]: the operator's key, the member's Noise key and its attestation. *)
Context (authorize : bytes → bytes → option (bytes * option bytes * option bytes)).
(** What the revocation list says of a grant of a channel. *)
Context (admission_verdict : bytes → bytes → AdmissionVerdict).
(** The operator's switch of [require_attested_endpoint]. *)
Context (require_attested : bool).

(** src/crates/edge/src/channel_broker.rs:802-822 [read_channel_join_on_stream]: the framed
    request. *)
Definition read_request : Io EdgeError ChannelJoinRequest :=
  len_buf <~ read_exact IoLen JoinTimeout 2;
  let len := be_val len_buf in
  if (len =? 0) || (1024 <? len) then refuse (lit "len-oob") false
  else
    bytes <~ read_exact IoBody JoinTimeout (N.to_nat len);
    match decode bytes with
    | Ok r => ret r
    | Err _ => refuse (lit "malformed") false
    end.

(** src/crates/edge/src/channel_broker.rs:832-893 [read_channel_join_on_stream]: the checks
    before the challenge. *)
Definition check_request (req : ChannelJoinRequest) (observed : Address.SocketAddr) (now : N)
    : Io EdgeError Joined :=
  let g := SignedChannelGrant.grant (grant req) in
  if negb (Classify.admissible_endpoint req) then refuse (lit "endpoint") false
  else if require_attested && negb (is_relay_only req)
          && negb (Classify.endpoint_is_attested (endpoint req) (Address.ip observed))
  then refuse (lit "endpoint") false
  else match authorize (ChannelGrant.channel g) (ChannelGrant.holder g) with
  | None => refuse (lit "not-member") true
  | Some (operator, member_noise, member_attest) =>
    match Verify.verify_stateless operator (grant req) now with
    | Err _ => refuse (lit "grant-verify") false
    | Ok _ =>
      match admission_verdict (ChannelGrant.channel g) (SignedChannelGrant.digest sha256 (grant req)) with
      | Allowed => ret {| req := req; operator := operator; member_noise := member_noise;
                          member_attest := member_attest |}
      | Revoked => refuse (lit "grant-revoked") true
      | VerdictUnreadable => refuse (lit "grant-status") false
      end
    end
  end.

(** src/crates/edge/src/channel_broker.rs:905-918 [read_channel_join_on_stream]: the possession
    proof over a fresh challenge. *)
Definition prove_possession (holder challenge : bytes) : Io EdgeError () :=
  write_all IoChallenge challenge;;
  λ d, match read_exact IoLen JoinTimeout 64 d with
       | (Err JoinTimeout, d) => (Err JoinTimeout, d)
       | (Err _, d) => refuse (lit "possession") true d
       | (Ok sig, d) => if Verify.verify_holder_possession holder challenge sig then (Ok (), d)
                        else refuse (lit "possession") true d
       end.

(** src/crates/edge/src/channel_broker.rs:742-929 [read_channel_join_on_stream]: [challenge] is
    what the system's generator gives. *)
Definition read_channel_join_on_stream (observed : Address.SocketAddr) (now : N)
    (challenge : bytes) : Io EdgeError Joined :=
  r <~ read_request;
  j <~ check_request r observed now;
  prove_possession (ChannelGrant.holder (SignedChannelGrant.grant (grant r))) challenge;;
  ret j.

(** src/crates/edge/src/channel_broker.rs:717-720 [read_join_on_connection]: the QUIC leg; the
    preamble is read without a bound. *)
Definition read_join_on_quic (observed : Address.SocketAddr) (now : N) (challenge : bytes)
    : Io EdgeError Joined :=
  peek_optional_phase_marker StillWaiting;;
  read_channel_join_on_stream observed now challenge.

(** src/crates/edge/src/channel_broker.rs:3299-3345 [admit_and_pair_on_boxed_stream]: the
    front-door leg, whose preamble is read only if keepalives were negotiated. *)
Definition read_join_on_front_door (keepalive : bool) (observed : Address.SocketAddr) (now : N)
    (challenge : bytes) : Io EdgeError (Joined * ParkPhase) :=
  phase <~ (if keepalive then peek_optional_phase_marker JoinTimeout else ret Unmarked);
  j <~ read_channel_join_on_stream observed now challenge;
  ret (j, phase).

(** src/crates/edge/src/channel_broker.rs:1733-1739 [hex_of] *)
Definition hex_of (b : bytes) : bytes :=
  flat_map (λ b, [SockAddr.hex_digit (N_of_byte b / 16); SockAddr.hex_digit (N_of_byte b mod 16)]) b.

(** src/crates/edge/src/channel_broker.rs:1749-1754 [member_ack_suffix] *)
Definition member_ack_suffix (noise : option bytes) (holder : bytes) (attest : option bytes) : bytes :=
  match noise, attest with
  | Some n, Some a => lit " " ++ hex_of n ++ lit " " ++ hex_of holder ++ lit " " ++ hex_of a
  | _, _ => []
  end.

(** src/crates/edge/src/channel_broker.rs:1762-1764 [same_public_ip] *)
Definition same_public_ip (a b : Address.SocketAddr) : bool :=
  bool_decide (Address.ip a = Address.ip b).

(** src/crates/edge/src/channel_broker.rs:2414-2423 [SessionSource] *)
Inductive SessionSource := SameStream | EndpointSwap | QuicNextBiStream.

(** src/crates/edge/src/channel_broker.rs:2638-2643 [StreamPairCompletion] *)
Inductive StreamPairCompletion := Splice | RendezvousClose.

(** src/crates/edge/src/channel_broker.rs:2502-2505 [PairSide] *)
Inductive PairSide := A | B.

#[global] Instance session_eq_dec : EqDecision SessionSource.
Proof. solve_decision. Defined.

(** src/crates/edge/src/channel_broker.rs:2425-2458 [AdmittedStreamMember] *)
Record AdmittedStreamMember := {
  stream : Duplex;
  joined : Joined;
  observed : Address.SocketAddr;
  session : SessionSource;
}.

Definition grant_of (m : AdmittedStreamMember) : SignedChannelGrant.SignedChannelGrant := grant (req (joined m)).
Definition channel_of (m : AdmittedStreamMember) : bytes :=
  ChannelGrant.channel (SignedChannelGrant.grant (grant_of m)).
Definition holder_of (m : AdmittedStreamMember) : bytes :=
  ChannelGrant.holder (SignedChannelGrant.grant (grant_of m)).
Definition on_stream (d : Duplex) (m : AdmittedStreamMember) : AdmittedStreamMember :=
  {| stream := d; joined := joined m; observed := observed m; session := session m |}.

(** src/crates/edge/src/channel_broker.rs:2652-2658 [completion_for] *)
Definition completion_for (a b : ParkPhase) : StreamPairCompletion :=
  if bool_decide (a = Rendezvous) && bool_decide (b = Rendezvous) then RendezvousClose else Splice.

(** src/crates/edge/src/channel_broker.rs:2683-2689 [ack_member_for_session]: the text. *)
Definition ack_text (peer_endpoint : bytes) (peer_noise : option bytes) (peer_holder : bytes)
    (peer_attest : option bytes) (own_observed : Address.SocketAddr) (sp : bool) : bytes :=
  lit "OK " ++ peer_endpoint ++ member_ack_suffix peer_noise peer_holder peer_attest
  ++ lit " r=" ++ SockAddr.show own_observed ++ lit " sp=" ++ (if sp then lit "1" else lit "0").

(** src/crates/edge/src/channel_broker.rs:2668-2699 [ack_member_for_session]: with
    [write_member_ack] for the members whose session goes on in the same stream. *)
Definition ack_member_for_session (to peer : AdmittedStreamMember) (sp : bool) (side : PairSide)
    : Io PairSide () :=
  let ack := ack_text (endpoint (req (joined peer))) (member_noise (joined peer)) (holder_of peer)
               (member_attest (joined peer)) (observed to) sp in
  if negb (bool_decide (session to = QuicNextBiStream)) then write_all side (ack ++ [x0a])
  else write_all side ack;; shutdown side.

(** src/crates/edge/src/channel_broker.rs:2888-2900 [graceful_close]: what arrives within the
    bound of the drain is dropped. *)
Definition graceful_close (d : Duplex) : Duplex :=
  set_incoming [] (attempt (shutdown ()) d).2.

(** How a pair can fail: the hand-off of one side, or the authorization. *)
Inductive FinishError := HandoffFailed (side : PairSide) | PairRefused (e : Pairing.BrokerError).

(** What becomes of a pair: the streams are closed, or spliced under two handles of the live
    splices. *)
Inductive Completed :=
| Closed | Spliced (a b : (bytes * bytes) * N).

(** src/crates/edge/src/channel_broker.rs:2739-2749 [finish_stream_pair_inner]: a side without
    a session leg closes. *)
Definition completion_of (a b : AdmittedStreamMember) (c : StreamPairCompletion) : StreamPairCompletion :=
  if bool_decide (session a = EndpointSwap) || bool_decide (session b = EndpointSwap)
  then RendezvousClose else c.

(** src/crates/edge/src/channel_broker.rs:2860-2864 [finish_stream_pair_inner]: one stream of a
    refused pair. *)
Definition refuse_pair (d : Duplex) : Duplex :=
  (attempt (shutdown ()) (attempt (write_all () (Refusal.encode_channel_refusal (lit "pairing"))) d).2).2.

(** src/crates/edge/src/channel_broker.rs:2729-2878 [finish_stream_pair_inner]: until the
    splice runs; the pumping of its bytes is not modelled. *)
Definition finish_stream_pair_inner (a b : AdmittedStreamMember) (now : N)
    (completion : StreamPairCompletion) (live : Splices.LiveSplices)
    : Result (Pairing.ChannelPairing * Completed) FinishError * (Duplex * Duplex) * Splices.LiveSplices :=
  match Pairing.authorize_channel_pair (operator (joined a)) (grant_of a) (grant_of b) now with
  | Err e => (Err (PairRefused e), (refuse_pair (stream a), refuse_pair (stream b)), live)
  | Ok pairing =>
    let sp := same_public_ip (observed a) (observed b) in
    match ack_member_for_session a b sp A (stream a) with
    | (Err side, da) => (Err (HandoffFailed side), (da, stream b), live)
    | (Ok _, da) =>
      match ack_member_for_session b a sp B (stream b) with
      | (Err side, db) => (Err (HandoffFailed side), (da, db), live)
      | (Ok _, db) =>
        match completion_of a b completion with
        | Splice =>
          let '(ga, live) := Splices.register_live_splice_inner (channel_of a) (holder_of a)
                               (Some (SignedChannelGrant.digest sha256 (grant_of a))) live in
          let '(gb, live) := Splices.register_live_splice_inner (channel_of b) (holder_of b)
                               (Some (SignedChannelGrant.digest sha256 (grant_of b))) live in
          (Ok (pairing, Spliced ga gb), (da, db), live)
        | RendezvousClose => (Ok (pairing, Closed), (graceful_close da, graceful_close db), live)
        end
      end
    end
  end.

(** src/crates/edge/src/channel_broker.rs:2369-2371 [quic_park_expired_reason] *)
Definition quic_park_expired_reason (why : bytes) : bytes :=
  PARK_EXPIRED_REASON_PREFIX ++ lit " " ++ why.

(** How the edge ends a park: on a stream the token, on QUIC the reason of the close. *)
Inductive ParkEnd := OnStream (d : Duplex) | OnConnection (reason : bytes).

(** src/crates/edge/src/channel_broker.rs:2476-2493 [AdmittedStreamMember::end_park]: a QUIC
    member is the only one with a connection of its own. *)
Definition end_park (m : AdmittedStreamMember) (why : bytes) : ParkEnd :=
  if bool_decide (session m = QuicNextBiStream) then OnConnection (quic_park_expired_reason why)
  else OnStream (graceful_close (attempt (write_all () PARK_EXPIRED_TOKEN) (stream m)).2).

End with_ed25519.

End Edge.

(** ** The member reads what the edge writes *)

Import Member Edge.

(** A byte of an ack line: neither the terminator nor the keepalive. *)
Definition line_byte (b : byte) : bool := negb (bool_decide (b = x0a)) && negb (bool_decide (b = x00)).

Lemma read_ack_text t s line :
  forallb line_byte t = true → (length line + length t < CHANNEL_ACK_MAX_BYTES)%nat →
  read_ack (t ++ s) line = read_ack s (line ++ t).
Proof.
  revert line. induction t as [|b t IH]; intros line; cbn [forallb length app].
  { intros. by rewrite app_nil_r. }
  intros [[H1 H2]%andb_true_iff Ht]%andb_true_iff L. bool_facts. cbn [read_ack].
  rewrite !bool_decide_false by done. cbn [andb].
  assert (L' : (length (line ++ [b]) = S (length line))%nat) by (rewrite length_app; cbn; lia).
  rewrite L', (proj2 (Nat.leb_gt _ _)) by lia. rewrite IH by (done || lia). by rewrite <- app_assoc.
Qed.

(** A line that reaches the cap is given up on. *)
Lemma read_ack_long t s line :
  forallb line_byte t = true → (length line < CHANNEL_ACK_MAX_BYTES)%nat →
  (CHANNEL_ACK_MAX_BYTES <= length line + length t)%nat →
  ∃ l rest, read_ack (t ++ s) line = (TooLong, l, rest).
Proof.
  revert line. induction t as [|b t IH]; intros line; cbn [forallb length app]; [lia|].
  intros [[H1 H2]%andb_true_iff Ht]%andb_true_iff L1 L2. bool_facts. cbn [read_ack].
  rewrite !bool_decide_false by done. cbn [andb].
  assert (L' : (length (line ++ [b]) = S (length line))%nat) by (rewrite length_app; cbn; lia).
  rewrite L'. destruct (Nat.leb_spec CHANNEL_ACK_MAX_BYTES (S (length line))); [by do 2 eexists|].
  apply IH; [done|lia|lia].
Qed.

(** The keepalive of a park is skipped. *)
Lemma read_ack_nuls n s : read_ack (replicate n x00 ++ s) [] = read_ack s [].
Proof. induction n as [|n IH]; [done|]. cbn [replicate app read_ack]. by rewrite bool_decide_false. Qed.

Lemma token_shape_same t : is_refusal_token_shape t = Refusal.is_channel_refusal_token_shape t.
Proof. done. Qed.

(** The member's decoder of a category is the edge's. *)
Lemma decode_refusal_same rest : decode_refusal_category rest = Refusal.decode_channel_refusal_category rest.
Proof.
  destruct rest as [|len tail]; [done|].
  cbn [decode_refusal_category Refusal.decode_channel_refusal_category]. unfold get_range, slice.
  rewrite Nat.sub_0_r, drop_0. cbn [Nat.leb andb].
  destruct (Nat.leb_spec (N.to_nat (N_of_byte len)) (length tail)) as [L|L].
  - rewrite (proj2 (Nat.ltb_ge _ _)) by done. cbn [mbind option_bind]. rewrite token_shape_same.
    destruct (Refusal.is_channel_refusal_token_shape _) eqn:S; [|done]. cbn [negb]. symmetry.
    apply from_utf8_Some.
    split; [|done]. by apply Refusal.shape_ascii.
  - by rewrite (proj2 (Nat.ltb_lt _ _)).
Qed.

Lemma token_line_bytes t : is_refusal_token_shape t = true → forallb line_byte t = true.
Proof.
  unfold is_refusal_token_shape. intros [_ H]%andb_true_iff. rewrite forallb_forall in *.
  intros b Hb. specialize (H b Hb). revert H. apply implb_true_iff.
  revert b Hb. intros b _. revert b. apply Hex.byte_check. by vm_compute.
Qed.

(** The tail read of a ten-byte token before the end of the stream. *)
Lemma tail_token tag d :
  is_refusal_token_shape tag = true → length tag = 10%nat → ending d = Eof → incoming d = tag →
  read_refusal_tail_token d = (Ok (Some tag), set_incoming [] d).
Proof.
  intros S L E I. unfold read_refusal_tail_token, read_up_to. rewrite I, L, E. cbn [Nat.leb].
  unfold REFUSAL_CATEGORY_MAX_LEN, Refusal.CHANNEL_REFUSAL_CATEGORY_MAX_LEN. cbn [Nat.add Nat.leb orb].
  rewrite bool_decide_true by done. by rewrite L, S.
Qed.

(** Reading a refusal, on either leg, with the collision of the ten-byte tokens whose length
    byte is the line's terminator. *)
Lemma classify_refusal relay tag n d :
  is_refusal_token_shape tag = true → ending d = Eof →
  incoming d = replicate n x00 ++ Refusal.encode_channel_refusal tag →
  let '(stop, line, rest) := read_ack (incoming d) [] in
  stop ≠ TooLong ∧
  (classify_ack relay (match stop with Newline => true | _ => false end) line
     (set_incoming rest d)).1 = Ok (Member.Refused (Some tag)).
Proof.
  intros S E I. pose proof S as S'. rewrite token_shape_same in S'.
  pose proof (Refusal.shape_length _ S') as L. pose proof (token_line_bytes _ S) as T.
  rewrite I, read_ack_nuls. unfold Refusal.encode_channel_refusal. rewrite S'.
  assert (L2 : (2 < CHANNEL_ACK_MAX_BYTES)%nat) by (unfold CHANNEL_ACK_MAX_BYTES; lia).
  rewrite read_ack_text by (done || (cbn [length lit]; exact L2)). cbn [app].
  set (c := byte_of_N (blen tag)).
  assert (Nc : N_of_byte c = blen tag)
    by (unfold c; rewrite N_of_byte_of_N; apply N.mod_small; unfold blen; lia).
  cbn [read_ack]. destruct (decide (c = x0a)) as [C|C].
  - rewrite bool_decide_true by done. split; [done|]. unfold classify_ack. cbn [length Nat.eqb].
    assert (T10 : length tag = 10%nat) by (rewrite C in Nc; unfold blen in Nc; cbn in Nc; lia).
    change (Text.strip_prefix (lit "NO") (lit "NO")) with (Some ([] : bytes)).
    change (length (lit "NO") =? 0)%nat with false. cbn [length Nat.eqb negb]. unfold bind.
    cbv beta iota. by rewrite (tail_token tag).
  - rewrite bool_decide_false by done.
    assert (C0 : c ≠ x00) by (intros Z; rewrite Z in Nc; unfold blen in Nc; cbn in Nc; lia).
    rewrite (bool_decide_false (c = x00)) by done. cbn [andb].
    rewrite (proj2 (Nat.leb_gt _ _)) by (cbn [length app lit]; unfold CHANNEL_ACK_MAX_BYTES; cbn; lia).
    pose proof (read_ack_text tag [] (lit "NO" ++ [c]) T) as R. rewrite app_nil_r in R.
    rewrite R by (unfold CHANNEL_ACK_MAX_BYTES; cbn; lia).
    cbn [read_ack]. split; [done|]. unfold classify_ack.
    change (lit "NO" ++ [c]) with ("N"%byte :: "O"%byte :: [c]). cbn [app length Nat.eqb].
    change (Text.strip_prefix (lit "NO") (_ :: _ :: c :: tag)) with (Some (c :: tag)).
    cbn [length Nat.eqb negb]. unfold bind, ret. cbv beta iota. rewrite decode_refusal_same.
    pose proof (Refusal.decode_category_framed tag [] S') as D. rewrite app_nil_r in D.
    fold c in D. by rewrite D.
Qed.

(** ** What the edge admits *)

Section admission.
Context `{Ed25519} (sha256 : bytes → bytes).
Context (authorize : bytes → bytes → option (bytes * option bytes * option bytes)).
Context (verdict : bytes → bytes → GrantRevocation.AdmissionVerdict) (require_attested : bool).
Import ChannelJoinRequest.
#[local] Notation check := (check_request sha256 authorize verdict require_attested).
#[local] Notation admit_stream := (read_channel_join_on_stream sha256 authorize verdict require_attested).

(** A stream after [b] was written to it. *)
Definition wrote (b : bytes) (d : Duplex) : Duplex :=
  {| incoming := incoming d; ending := ending d; sent := sent d ++ b; room := room d; shut := shut d |}.
Definition closed (d : Duplex) : Duplex :=
  {| incoming := incoming d; ending := ending d; sent := sent d; room := room d; shut := true |}.

Lemma write_all_run {E} (e : E) b d : room d = None → write_all e b d = (Ok (), wrote b d).
Proof. intros R. unfold write_all, wrote. by rewrite R, firstn_all. Qed.

Lemma shutdown_run {E} (e : E) d : room d = None → shutdown e d = (Ok (), closed d).
Proof. intros R. unfold shutdown, closed. rewrite R. by rewrite bool_decide_false. Qed.

Lemma refuse_run {A} tag definitive d :
  room d = None →
  refuse tag definitive d =
  (Err (Edge.Refused tag definitive) : Result A EdgeError,
   closed (wrote (Refusal.encode_channel_refusal tag) d)).
Proof.
  intros R. unfold refuse, bind, attempt. cbn [fst snd].
  by rewrite write_all_run.
Qed.

Lemma u16_be_val b : length b = 2%nat → u16_be (be_val b) = b.
Proof. intros L. unfold u16_be. rewrite <- L. apply be_bytes_be_val. Qed.

Lemma length_u16_be v : length (u16_be v) = 2%nat.
Proof. apply length_be_bytes. Qed.

Lemma read_exact_Ok {E} (e w : E) n d b d' :
  read_exact e w n d = (Ok b, d') ↔
  ∃ rest, incoming d = b ++ rest ∧ length b = n ∧ d' = set_incoming rest d.
Proof.
  unfold read_exact. destruct (Nat.leb_spec n (length (incoming d))) as [L|L].
  - split.
    + intros [= <- <-]. exists (drop n (incoming d)).
      split_and!; [by rewrite take_drop|rewrite length_take; lia|done].
    + intros (rest & E' & <- & ->). by rewrite E', take_app_length, drop_app_length.
  - split; [destruct (ending d); done|]. intros (rest & E' & <- & _).
    rewrite E', length_app in L. lia.
Qed.

(** The request that opens the stream. *)
Lemma read_request_Ok r d d1 :
  room d = None →
  read_request d = (Ok r, d1) ↔
  ∃ rest, incoming d = u16_be (blen (encode r)) ++ encode r ++ rest ∧ blen (encode r) <= 1024 ∧
    join_ok r ∧ d1 = set_incoming rest d.
Proof.
  intros R. unfold read_request, bind. split.
  - destruct (read_exact IoLen JoinTimeout 2 d) as [[lb|] d0] eqn:E1; [|done].
    apply read_exact_Ok in E1 as (r0 & I & L & ->).
    destruct (_ || _) eqn:Z; [by rewrite refuse_run|]. apply orb_false_iff in Z as [Z1 Z2].
    destruct (read_exact IoBody _ _ _) as [[b|] d0] eqn:E2; [|done].
    apply read_exact_Ok in E2 as (r1 & I2 & L2 & ->). cbn [incoming set_incoming] in I2. subst r0.
    destruct (decode b) as [r'|] eqn:D; [|by rewrite refuse_run].
    apply join_decode_iff in D as [J ->]. intros [= -> <-]. exists r1.
    assert (be_val lb = blen (encode r)) as V by (unfold blen; rewrite L2; lia).
    apply N.ltb_ge in Z2. split_and!; [|by rewrite <- V|done|done].
    rewrite I, <- V, u16_be_val by done. done.
  - intros (rest & I & B & J & ->).
    assert (read_exact IoLen JoinTimeout 2 d = (Ok (u16_be (blen (encode r))), set_incoming (encode r ++ rest) d)) as ->
      by (apply read_exact_Ok; exists (encode r ++ rest); rewrite length_u16_be; done).
    assert (V : be_val (u16_be (blen (encode r))) = blen (encode r)) by (apply (be_val_small 2); lia).
    rewrite V. assert (P : blen (encode r) ≠ 0).
    { unfold blen. destruct J as (_ & _ & J). unfold encode. rewrite length_app.
      destruct (endpoint r); [done|]. cbn [length]. lia. }
    rewrite (proj2 (N.eqb_neq _ _) P), (proj2 (N.ltb_ge _ _) B). cbn [orb].
    assert (read_exact IoBody JoinTimeout (N.to_nat (blen (encode r))) (set_incoming (encode r ++ rest) d)
            = (Ok (encode r), set_incoming rest d)) as ->
      by (apply read_exact_Ok; exists rest; rewrite to_nat_blen; done).
    by rewrite (proj2 (join_decode_iff _ _) (conj J eq_refl)).
Qed.

(** The refusals no retry can turn into a success. *)
Definition DEFINITIVE : list bytes := [lit "not-member"; lit "grant-revoked"; lit "possession"].

(** A refusal of the vocabulary was written, after [pre]. *)
Definition refused_with (tags : list bytes) (pre : bytes) (d d1 : Duplex) (tag : bytes)
    (definitive : bool) : Prop :=
  tag ∈ tags ∧ definitive = bool_decide (tag ∈ DEFINITIVE) ∧ sent d1 = sent d ++ pre ++ Refusal.encode_channel_refusal tag ∧ shut d1 = true.

Lemma refuse_refused {A} tag0 def0 tags pre d d2 d1 tag definitive :
  room d2 = None → sent d2 = sent d ++ pre → tag0 ∈ tags →
  def0 = bool_decide (tag0 ∈ DEFINITIVE) →
  refuse tag0 def0 d2 = (Err (Edge.Refused tag definitive) : Result A EdgeError, d1) →
  refused_with tags pre d d1 tag definitive.
Proof.
  intros R S In D. rewrite refuse_run by done. intros [= <- <- <-]. unfold refused_with.
  cbn [sent wrote closed shut]. by rewrite S, <- app_assoc.
Qed.

Lemma read_request_refused d d1 tag definitive :
  room d = None → read_request d = (Err (Edge.Refused tag definitive), d1) →
  refused_with [lit "len-oob"; lit "malformed"] [] d d1 tag definitive.
Proof.
  intros R. unfold read_request, bind.
  destruct (read_exact IoLen JoinTimeout 2 d) as [[lb|e] d0] eqn:E1.
  - apply read_exact_Ok in E1 as (r0 & I & L & ->).
    destruct (_ || _); [apply (refuse_refused (lit "len-oob") false); [done|by rewrite app_nil_r|by left|done]|].
    destruct (read_exact IoBody _ _ _) as [[b|e] d0] eqn:E2.
    + apply read_exact_Ok in E2 as (r1 & I2 & L2 & ->). destruct (decode b); [done|].
      apply (refuse_refused (lit "malformed") false); [done|by rewrite app_nil_r|right; by left|done].
    + unfold read_exact in E2. destruct (_ <=? _)%nat; [done|]. injection E2 as <- <-.
      by destruct (ending _).
  - unfold read_exact in E1. destruct (_ <=? _)%nat; [done|]. injection E1 as <- <-.
    by destruct (ending _).
Qed.

(** The categories of the checks before the challenge. *)
Definition CHECKS : list bytes :=
  [lit "endpoint"; lit "not-member"; lit "grant-verify"; lit "grant-revoked"; lit "grant-status"].

Lemma check_refused r obs now d d1 tag definitive :
  room d = None → check r obs now d = (Err (Edge.Refused tag definitive), d1) →
  refused_with CHECKS [] d d1 tag definitive.
Proof.
  intros R. unfold check_request.
  destruct (negb _); [apply (refuse_refused (lit "endpoint") false); [done|by rewrite app_nil_r|by left|done]|].
  destruct (_ && _); [apply (refuse_refused (lit "endpoint") false); [done|by rewrite app_nil_r|by left|done]|].
  destruct (authorize _ _) as [[[op n] at_]|];
    [|apply (refuse_refused (lit "not-member") true); [done|by rewrite app_nil_r|right; by left|done]].
  destruct (Verify.verify_stateless _ _ _);
    [|apply (refuse_refused (lit "grant-verify") false); [done|by rewrite app_nil_r|do 2 right; by left|done]].
  destruct (verdict _ _); [done| |].
  - apply (refuse_refused (lit "grant-revoked") true); [done|by rewrite app_nil_r|do 3 right; by left|done].
  - apply (refuse_refused (lit "grant-status") false); [done|by rewrite app_nil_r|do 4 right; by left|done].
Qed.

(** What passes the checks. *)
Definition allowed (r : ChannelJoinRequest) (obs : Address.SocketAddr) (now : N) (j : Joined) : Prop :=
  Edge.req j = r ∧
  Classify.admissible_endpoint r = true ∧
  (require_attested = true → is_relay_only r = false →
   Classify.endpoint_is_attested (endpoint r) (Address.ip obs) = true) ∧
  let g := SignedChannelGrant.grant (grant r) in
  authorize (ChannelGrant.channel g) (ChannelGrant.holder g) =
    Some (operator j, member_noise j, member_attest j) ∧
  Verify.verify_stateless (operator j) (grant r) now = Ok () ∧
  verdict (ChannelGrant.channel g) (SignedChannelGrant.digest sha256 (grant r)) = GrantRevocation.Allowed.

Lemma check_Ok r obs now d j d1 :
  room d = None → check r obs now d = (Ok j, d1) ↔ allowed r obs now j ∧ d1 = d.
Proof.
  intros R. unfold check_request, allowed.
  destruct (Classify.admissible_endpoint r) eqn:A; cbn [negb];
    [|rewrite refuse_run by done; split; [done|naive_solver]].
  destruct (_ && _) eqn:Q.
  { rewrite refuse_run by done. split; [done|]. intros [(_ & _ & T & _) _].
    apply andb_true_iff in Q as [[-> Q1]%andb_true_iff Q2]. apply negb_true_iff in Q1, Q2.
    by rewrite T in Q2. }
  assert (T : require_attested = true → is_relay_only r = false →
              Classify.endpoint_is_attested (endpoint r) (Address.ip obs) = true).
  { intros E1 E2. rewrite E1, E2 in Q. by apply negb_false_iff in Q. }
  destruct (authorize _ _) as [[[op n] at_]|] eqn:Au;
    [|rewrite refuse_run by done; split; [done|naive_solver]].
  destruct (Verify.verify_stateless op (grant r) now) as [[]|] eqn:V;
    [|rewrite refuse_run by done; split; [done|intros [(_ & _ & _ & [= <- _ _] & E & _) _]; congruence]].
  destruct (verdict _ _) eqn:G; [|rewrite refuse_run by done; split; [done|naive_solver]..].
  unfold ret. split; [intros [= <- <-]; done|].
  intros [(E1 & _ & _ & E2 & _) ->]. destruct j. cbn in E1, E2. by simplify_eq.
Qed.

Lemma prove_possession_Ok holder challenge d d1 :
  room d = None →
  prove_possession holder challenge d = (Ok (), d1) ↔
  ∃ sig rest, incoming d = sig ++ rest ∧ length sig = 64%nat ∧
    Verify.verify_holder_possession holder challenge sig = true ∧
    d1 = set_incoming rest (wrote challenge d).
Proof.
  intros R. unfold prove_possession, bind. rewrite write_all_run by done.
  destruct (read_exact IoLen JoinTimeout 64 (wrote challenge d)) as [[sig|e] d2] eqn:E.
  - apply read_exact_Ok in E as (rest & I & L & ->). cbn [incoming wrote] in I.
    destruct (Verify.verify_holder_possession _ _ _) eqn:V.
    + split; [intros [= <-]; eauto 6|]. intros (sig' & rest' & I' & L' & _ & ->).
      rewrite I in I'. apply app_inj_1 in I' as [_ <-]; [done|lia].
    + rewrite refuse_run by done. split; [done|]. intros (sig' & rest' & I' & L' & V' & _).
      rewrite I in I'. apply app_inj_1 in I' as [<- _]; [congruence|lia].
  - split.
    + unfold read_exact in E. destruct (_ <=? _)%nat; [done|]. injection E as <- <-.
      by destruct (ending _); rewrite ?refuse_run.
    + intros (sig & rest & I & L & _). 
      assert (read_exact IoLen JoinTimeout 64 (wrote challenge d) = (Ok sig, set_incoming rest (wrote challenge d)))
        as E' by (apply read_exact_Ok; by exists rest). congruence.
Qed.

Lemma prove_possession_refused holder challenge d d1 tag definitive :
  room d = None → prove_possession holder challenge d = (Err (Edge.Refused tag definitive), d1) →
  refused_with [lit "possession"] challenge d d1 tag definitive.
Proof.
  intros R. unfold prove_possession, bind. rewrite write_all_run by done.
  assert (F : ∀ d2, room d2 = None → sent d2 = sent d ++ challenge →
            refuse (lit "possession") true d2 = (Err (Edge.Refused tag definitive) : Result () EdgeError, d1) →
            refused_with [lit "possession"] challenge d d1 tag definitive)
    by (intros d2 R2 S2; apply (refuse_refused (lit "possession") true); [done|done|by left|done]).
  unfold read_exact. destruct (_ <=? _)%nat; [|by destruct (ending _); [apply F|apply F|]].
  destruct (Verify.verify_holder_possession _ _ _); [done|]. by apply F.
Qed.

Lemma admit_refused obs now challenge d d1 tag definitive :
  room d = None →
  admit_stream obs now challenge d = (Err (Edge.Refused tag definitive), d1) →
  refused_with ([lit "len-oob"; lit "malformed"] ++ CHECKS) [] d d1 tag definitive ∨
  refused_with [lit "possession"] challenge d d1 tag definitive.
Proof.
  intros R. unfold read_channel_join_on_stream, bind at 1.
  destruct (read_request d) as [[r|e] d0] eqn:E1; [|intros [= -> ->]].
  - apply read_request_Ok in E1 as (rest & _ & _ & _ & ->); [|done]. unfold bind at 1.
    destruct (check r obs now _) as [[j|e] d0] eqn:E2; [|intros [= -> ->]].
    + apply check_Ok in E2 as [_ ->]; [|done]. unfold bind at 1.
      destruct (prove_possession _ _ _) as [[[]|e] d0] eqn:E3; [done|intros [= -> ->]].
      right. apply prove_possession_refused in E3; [|done]. exact E3.
    + left. apply check_refused in E2 as (T & D & S & Sh); [|done].
      split_and!; [|done|done|done]. apply elem_of_app. by right.
  - left. apply read_request_refused in E1 as (T & D & S & Sh); [|done].
    split_and!; [|done|done|done]. apply elem_of_app. by left.
Qed.

(** Exactly what the edge admits: a framed, well-formed request of at most 1024 bytes
    that passes every check (the advertised endpoint, the membership, the operator's
    signature and expiry, the revocation list), followed by 64 bytes that verify under the
    grant's holder over the edge's own challenge; the edge has written the challenge and
    nothing else, and what follows on the stream is left to the session. *)
Theorem edge_admission_exact obs now challenge d j d' :
  room d = None →
  admit_stream obs now challenge d = (Ok j, d') ↔
  ∃ r sig rest,
    incoming d = u16_be (blen (encode r)) ++ encode r ++ sig ++ rest ∧
    blen (encode r) <= 1024 ∧ join_ok r ∧ allowed r obs now j ∧ length sig = 64%nat ∧
    Verify.verify_holder_possession (ChannelGrant.holder (SignedChannelGrant.grant (grant r)))
      challenge sig = true ∧
    d' = set_incoming rest (wrote challenge d).
Proof.
  intros R. unfold read_channel_join_on_stream, bind at 1. split.
  - destruct (read_request d) as [[r|e] d0] eqn:E1; [|done].
    apply read_request_Ok in E1 as (rest & I & B & J & ->); [|done]. unfold bind at 1.
    destruct (check r obs now _) as [[j'|e] d0] eqn:E2; [|done].
    apply check_Ok in E2 as [A ->]; [|done]. unfold bind at 1.
    destruct (prove_possession _ _ _) as [[[]|e] d0] eqn:E3; [|done].
    apply prove_possession_Ok in E3 as (sig & rest' & I' & L & V & ->); [|done].
    cbn [incoming set_incoming] in I'. intros [= <- <-]. exists r, sig, rest'.
    by rewrite I, I'.
  - intros (r & sig & rest & I & B & J & A & L & V & ->).
    assert (read_request d = (Ok r, set_incoming (sig ++ rest) d)) as ->
      by (apply read_request_Ok; eauto 6).
    unfold bind at 1.
    assert (check r obs now (set_incoming (sig ++ rest) d) = (Ok j, set_incoming (sig ++ rest) d)) as ->
      by (by apply check_Ok).
    unfold bind at 1. assert (prove_possession
      (ChannelGrant.holder (SignedChannelGrant.grant (grant r))) challenge (set_incoming (sig ++ rest) d) =
      (Ok (), set_incoming rest (wrote challenge d))) as -> by (apply prove_possession_Ok; eauto 6).
    done.
Qed.

(** ** What reaches the member *)

(** What the member sends before it is answered. *)
Definition hello (r : ChannelJoinRequest) (marker : option byte) : bytes :=
  match marker with Some p => [PHASE_PREAMBLE_MAGIC; p] | None => [] end
  ++ u16_be (blen (encode r)) ++ encode r.

Lemma wrote_wrote a b d : wrote b (wrote a d) = wrote (a ++ b) d.
Proof. unfold wrote. cbn. by rewrite app_assoc. Qed.

Lemma send_request_run r marker c :
  room c = None → blen (encode r) < 65536 →
  send_request r marker c = (Ok (), wrote (hello r marker) c).
Proof.
  intros R L. unfold send_request, hello. rewrite (proj2 (N.leb_gt _ _) L). unfold bind.
  destruct marker as [p|]; cbn [ret]; [rewrite write_all_run by done|];
    rewrite !write_all_run by done; by rewrite !wrote_wrote.
Qed.

Lemma refusal_is_short tag :
  is_refusal_token_shape tag = true →
  ∃ c, Refusal.encode_channel_refusal tag = lit "NO" ++ c :: tag ∧ is_ascii c = true ∧
    c = byte_of_N (blen tag) ∧ (length tag <= 24)%nat.
Proof.
  intros S. rewrite token_shape_same in S. pose proof (Refusal.shape_length _ S) as L.
  exists (byte_of_N (blen tag)). unfold Refusal.encode_channel_refusal. rewrite S.
  split_and!; [done| |done|lia]. unfold is_ascii. rewrite N_of_byte_of_N, N.mod_small by (unfold blen; lia).
  apply N.ltb_lt. unfold blen. lia.
Qed.

Lemma token_ascii t : is_refusal_token_shape t = true → forallb is_ascii t = true.
Proof.
  intros S. pose proof S as S'. unfold is_refusal_token_shape in S'.
  apply andb_true_iff in S' as [_ A]. rewrite forallb_forall in *.
  intros b Hb. specialize (A b Hb). revert A. apply implb_true_iff.
  revert b Hb. intros b _. revert b. apply Hex.byte_check. by vm_compute.
Qed.

(** A refusal before the challenge ends the member's wait for it. *)
Lemma answer_refusal tag holder finish c :
  is_refusal_token_shape tag = true → incoming c = Refusal.encode_channel_refusal tag →
  ending c = Eof →
  answer_challenge holder finish c =
  (Ok (Some (Member.Refused (Some tag))), set_incoming [] c).
Proof.
  intros S I E. destruct (refusal_is_short _ S) as (l & F & La & Ll & L24).
  assert (L : (length (incoming c) < POSSESSION_CHALLENGE_LEN)%nat)
    by (rewrite I, F; unfold POSSESSION_CHALLENGE_LEN; cbn; lia).
  unfold answer_challenge, bind, read_up_to. rewrite (proj2 (Nat.leb_gt _ _) L), E.
  rewrite (proj2 (Nat.eqb_neq _ _)) by lia. cbn [negb].
  assert (Text.from_utf8_lossy (incoming c) = incoming c) as ->.
  { apply Text.lossy_ascii. rewrite I, F. cbn. by rewrite La, token_ascii. }
  assert (starts_with (lit "NO") (incoming c) = true) as -> by (rewrite I, F; done).
  rewrite orb_true_r. unfold ret. do 4 f_equal.
  assert (get_range (incoming c) 2 (length (incoming c)) = Some (l :: tag)) as ->.
  { rewrite I, F. unfold get_range, slice. cbn. rewrite Nat.leb_refl.
    by rewrite firstn_all. }
  cbn [mbind option_bind]. rewrite decode_refusal_same, Ll, token_shape_same in *.
  pose proof (Refusal.decode_category_framed tag [] S) as D. by rewrite app_nil_r in D.
Qed.

Lemma answer_challenge_run holder finish challenge rest c :
  room c = None → length challenge = 32%nat → incoming c = challenge ++ rest →
  answer_challenge holder finish c =
  (Ok None, (if finish then closed else id) (wrote (sign holder challenge) (set_incoming rest c))).
Proof.
  intros R L I. unfold answer_challenge, bind, read_up_to, POSSESSION_CHALLENGE_LEN.
  rewrite I, length_app, L. rewrite (proj2 (Nat.leb_le _ _)) by lia.
  rewrite <- L, take_app_length, drop_app_length, Nat.eqb_refl. cbn [negb].
  rewrite write_all_run by done. destruct finish; [|done]. cbn [attempt fst snd ret]. done.
Qed.

Lemma vocabulary_shape tag :
  tag ∈ Refusal.CHANNEL_REFUSAL_CATEGORIES → is_refusal_token_shape tag = true.
Proof.
  intros In. rewrite token_shape_same.
  destruct (Refusal.refusal_frame_readable []) as [_ F]. by eapply list.Forall_forall in F.
Qed.

Lemma refused_tag obs now challenge d d1 tag definitive :
  room d = None → sent d = [] →
  admit_stream obs now challenge d = (Err (Edge.Refused tag definitive), d1) →
  tag ∈ Refusal.CHANNEL_REFUSAL_CATEGORIES ∧ definitive = bool_decide (tag ∈ DEFINITIVE) ∧
  sent d1 = (if bool_decide (tag = lit "possession") then challenge else [])
            ++ Refusal.encode_channel_refusal tag.
Proof.
  intros R S A. destruct (admit_refused _ _ _ _ _ _ _ R A) as [(T & D & E & _)|(T & D & E & _)];
    rewrite S in E; cbn [app] in E.
  - assert (Q : tag ∈ Refusal.CHANNEL_REFUSAL_CATEGORIES ∧ tag ≠ lit "possession").
    { apply list_elem_of_In in T. cbn [CHECKS In app] in T.
      unfold Refusal.CHANNEL_REFUSAL_CATEGORIES. rewrite list_elem_of_In. cbn [In].
      split; [naive_solver|]. by intros ->; repeat (destruct T as [T|T]; [done|]). }
    split_and!; [apply Q|done|]. by rewrite bool_decide_false by apply Q.
  - apply list_elem_of_singleton in T as ->. split_and!; [|done|by rewrite bool_decide_true].
    apply list_elem_of_In. cbn. tauto.
Qed.

(** C22 Whatever the edge refuses, the member learns what kind of check refused it: reading
    what the edge has written, up to the end of the stream, the broker leg returns exactly the
    edge's category, at whichever check it fell; the relay leg returns it for the possession
    proof and reports a broken transport for the earlier checks. The refusals the edge counts
    as definitive are those of membership, revocation and possession. *)
Theorem refusal_reaches_member obs now challenge d d1 tag definitive request holder finish marker
    ka c :
  room d = None → sent d = [] → length challenge = 32%nat →
  admit_stream obs now challenge d = (Err (Edge.Refused tag definitive), d1) →
  incoming c = sent d1 → ending c = Eof → room c = None → blen (encode request) < 65536 →
  (present_channel_join_on_stream request holder finish marker ka c).1 =
    Ok (Member.Refused (Some tag)) ∧
  (present_channel_relay_join_on_stream request holder marker c).1 =
    (if bool_decide (tag = lit "possession") then Ok (Member.Refused (Some tag)) else Err Transport) ∧
  definitive = bool_decide (tag ∈ DEFINITIVE).
Proof.
  intros R S L A I E Rc Lr. destruct (refused_tag _ _ _ _ _ _ _ R S A) as (T & D & W).
  apply vocabulary_shape in T. rewrite W in I.
  unfold present_channel_join_on_stream, present_channel_relay_join_on_stream, bind at 1 3.
  rewrite send_request_run by done. set (c1 := wrote _ c).
  destruct (decide (tag = lit "possession")) as [P|P];
    rewrite ?(bool_decide_true _ P), ?(bool_decide_false _ P) in *.
  - clear P. unfold bind at 1. rewrite (answer_challenge_run _ _ challenge (Refusal.encode_channel_refusal tag)) by done.
    unfold bind at 1.
    assert (read_exact Transport Waiting 32 c1 = (Ok challenge, set_incoming (Refusal.encode_channel_refusal tag) c1)) as ->
      by (apply read_exact_Ok; by exists (Refusal.encode_channel_refusal tag)).
    unfold bind at 1. rewrite write_all_run by done.
    unfold await_ack, await_relay_ack. split_and!; [| |done].
    + set (c2 := (if finish then _ else _) _).
      assert (ending c2 = Eof ∧ incoming c2 = replicate 0 x00 ++ Refusal.encode_channel_refusal tag) as [E2 I2]
        by (by destruct finish).
      pose proof (classify_refusal false tag 0 c2 T E2 I2) as C.
      destruct (read_ack (incoming c2) []) as [[stop line] rest]. destruct C as [N C].
      destruct stop; [exact C| |done]. cbn [ending set_incoming]. by rewrite E2.
    + set (c2 := wrote _ _).
      pose proof (classify_refusal true tag 0 c2 T E eq_refl) as C.
      destruct (read_ack (incoming c2) []) as [[stop line] rest]. destruct C as [N C].
      destruct stop; [exact C| |done]. cbn [ending set_incoming].
      rewrite bool_decide_false; [exact C|]. change (ending c2) with (ending c). by rewrite E.
  - cbn [app] in I. unfold bind at 1. rewrite (answer_refusal tag) by done. split_and!; [done| |done].
    unfold bind, read_exact. destruct (refusal_is_short _ T) as (l & F & _ & _ & L24).
    change (incoming c1) with (incoming c). rewrite I, F.
    rewrite (proj2 (Nat.leb_gt _ _)) by (cbn; lia). change (ending c1) with (ending c). by rewrite E.
Qed.

End admission.

(** ** The ack *)

Section ack.
Import ChannelJoinRequest.

(** A byte of a token of the ack that is not a tag. *)
Definition field_byte (b : byte) : bool := Text.plain b && negb (bool_decide (b = "="%byte)).

Lemma field_plain t : forallb field_byte t = true → forallb Text.plain t = true.
Proof.
  rewrite !forallb_forall. intros H b Hb. specialize (H b Hb). unfold field_byte in H.
  by apply andb_true_iff in H as [H _].
Qed.

Lemma implied_bytes (P Q : byte → bool) t :
  forallb (λ b, implb (P b) (Q b)) Hex.all_bytes = true → forallb P t = true → forallb Q t = true.
Proof.
  intros C. rewrite !forallb_forall. intros H b Hb. specialize (H b Hb).
  pose proof (Hex.byte_check _ C b) as I. cbv beta in I. rewrite H in I. by destruct (Q b).
Qed.

Lemma addr_field t : forallb SockAddr.addr_byte t = true → forallb field_byte t = true.
Proof. apply implied_bytes. by vm_compute. Qed.

Lemma hex_of_encode b : hex_of b = Hex.encode b.
Proof.
  unfold hex_of, Hex.encode. induction b as [|x l IH]; [done|]. cbn [flat_map]. rewrite IH. f_equal.
  apply (bool_decide_eq_true _). revert x. apply Hex.byte_check. by vm_compute.
Qed.

Lemma hex_field b : forallb field_byte (hex_of b) = true.
Proof.
  unfold hex_of. induction b as [|x l IH]; [done|]. cbn [flat_map]. rewrite forallb_app, IH, andb_true_r.
  revert x. apply Hex.byte_check. by vm_compute.
Qed.

Lemma decode_hex_of n b : length b = n → Hex.decode_array n (hex_of b) = Some b.
Proof. intros L. rewrite hex_of_encode. apply Hex.decode_array_spec. by rewrite Hex.hex_decode_encode. Qed.

Lemma strip_front_drop ws fuel s : ∃ k, strip_front ws fuel s = drop k s.
Proof.
  revert s. induction fuel as [|fuel IH]; intros s; cbn [strip_front]; [by exists 0%nat|].
  destruct (find _ ws) as [w|]; [|by exists 0%nat]. destruct (IH (drop (length w) s)) as [k ->].
  exists (length w + k)%nat. by rewrite drop_drop.
Qed.

(** A text that starts with another letter is not the expiry token. *)
Lemma ack_not_expiry s : bool_decide (trim (lit "OK" ++ s) = PARK_EXPIRED_TOKEN) = false.
Proof.
  apply bool_decide_eq_false. unfold trim, trim_start.
  assert (strip_front white_space (length (lit "OK" ++ s)) (lit "OK" ++ s) = lit "OK" ++ s) as ->.
  { change (lit "OK" ++ s) with ("O"%byte :: "K"%byte :: s). cbn [length strip_front].
    by rewrite Text.plain_no_space. }
  unfold trim_end. destruct (strip_front_drop (map (@rev byte) white_space) (length (lit "OK" ++ s))
                               (rev (lit "OK" ++ s))) as [k ->].
  intros Q. apply (f_equal (@rev byte)) in Q. rewrite rev_involutive in Q.
  assert (P : rev (lit "OK" ++ s) = take k (rev (lit "OK" ++ s)) ++ rev (lit "EX"))
    by (rewrite <- (take_drop k (rev (lit "OK" ++ s))) at 1; by rewrite Q).
  apply (f_equal (@rev byte)) in P. rewrite rev_involutive, rev_app_distr, rev_involutive in P.
  cbn in P. congruence.
Qed.

(** The words of an ack. *)
Definition words (endpoint : bytes) (noise : option bytes) (holder : bytes) (attest : option bytes)
    (own : Address.SocketAddr) (sp : bool) : list bytes :=
  ([endpoint] ++ match noise, attest with
                 | Some n, Some a => [hex_of n; hex_of holder; hex_of a] | _, _ => [] end)
  ++ [lit "r=" ++ SockAddr.show own; lit "sp=" ++ if sp then lit "1" else lit "0"].

Lemma ack_words ep noise holder attest own sp :
  ack_text ep noise holder attest own sp =
  lit "OK" ++ concat (map (λ t, " "%byte :: t) (words ep noise holder attest own sp)).
Proof.
  unfold ack_text, words, member_ack_suffix.
  destruct noise as [n|], attest as [a|]; cbn [map concat app lit String.list_byte_of_string];
    rewrite ?app_nil_r, <- ?app_assoc; cbn [app]; rewrite <- ?app_assoc; done.
Qed.

Lemma untagged t : forallb field_byte t = true →
  Text.strip_prefix (lit "r=") t = None ∧ bool_decide ("="%byte ∈ t) = false.
Proof.
  intros F. assert (N : "="%byte ∉ t).
  { rewrite forallb_forall in F. intros In. apply list_elem_of_In, F in In. by vm_compute in In. }
  split; [|by apply bool_decide_eq_false]. unfold Text.strip_prefix.
  destruct (starts_with (lit "r=") t) eqn:S; [|done]. destruct N.
  destruct t as [|x [|y t]]; cbn [lit String.list_byte_of_string starts_with] in S; [done|..];
    apply andb_true_iff in S as [_ S]; [done|]. apply andb_true_iff in S as [S _].
  bool_facts. subst y. right. left.
Qed.

Lemma fields_fold (l : list bytes) acc rest :
  Forall (λ t, forallb field_byte t = true) l →
  foldl (λ acc tok,
    match Text.strip_prefix (lit "r=") tok with
    | Some addr => (SockAddr.parse addr, acc.2)
    | None => if bool_decide ("="%byte ∈ tok) then acc else (acc.1, acc.2 ++ [tok])
    end) acc (l ++ rest) =
  foldl (λ acc tok,
    match Text.strip_prefix (lit "r=") tok with
    | Some addr => (SockAddr.parse addr, acc.2)
    | None => if bool_decide ("="%byte ∈ tok) then acc else (acc.1, acc.2 ++ [tok])
    end) (acc.1, acc.2 ++ l) rest.
Proof.
  intros F. revert acc. induction F as [|t l Ht F IH]; intros acc; cbn [app foldl].
  { rewrite app_nil_r. by destruct acc. }
  destruct (untagged t Ht) as [-> ->]. rewrite IH. cbn [fst snd]. by rewrite <- app_assoc.
Qed.

(** The key material a member announces: all of it or none. *)
Definition announced (noise : option bytes) (holder : bytes) (attest : option bytes)
    : option (bytes * bytes * bytes) :=
  match noise, attest with Some n, Some a => Some (n, holder, a) | _, _ => None end.

Definition keys_ok (noise : option bytes) (holder : bytes) (attest : option bytes) : Prop :=
  length holder = 32%nat ∧ (∀ n, noise = Some n → length n = 32%nat) ∧
  (∀ a, attest = Some a → length a = 64%nat).

Lemma words_ok ep noise holder attest own sp :
  ep ≠ [] → forallb field_byte ep = true → SockAddr.socket_ok own → keys_ok noise holder attest →
  Forall (λ t, t ≠ [] ∧ forallb Text.plain t = true) (words ep noise holder attest own sp).
Proof.
  intros Ne F O (Kh & Kn & Ka). unfold words. apply Forall_app. split.
  - apply Forall_cons. split; [split; [done|by apply field_plain]|].
    assert (X : ∀ b n, length b = S n → hex_of b ≠ [] ∧ forallb Text.plain (hex_of b) = true)
      by (intros [|x b] n L; [done|]; split; [done|]; apply field_plain, hex_field).
    destruct noise as [n|], attest as [a|]; try constructor; [by eapply X; rewrite Kn|].
    constructor; [by eapply X; rewrite Kh|]. constructor; [by eapply X; rewrite Ka|done].
  - apply Forall_cons. split; [split; [done|]|].
    + rewrite forallb_app. apply andb_true_iff. split; [done|].
      apply field_plain, addr_field. eapply SockAddr.parse_addr_bytes. by apply SockAddr.parse_show.
    + constructor; [|done]. destruct sp; by split.
Qed.

Lemma parse_ack ep noise holder attest own sp :
  ep ≠ [] → forallb field_byte ep = true → SockAddr.socket_ok own → keys_ok noise holder attest →
  parse_channel_ack (ack_text ep noise holder attest own sp) =
  let k := announced noise holder attest in
  Paired ep ((λ k, k.1.1) <$> k) ((λ k, k.1.2) <$> k) (snd <$> k) (Some own).
Proof.
  intros Ne F O K. pose proof (words_ok ep noise holder attest own sp Ne F O K) as W.
  rewrite ack_words. unfold parse_channel_ack. rewrite ack_not_expiry.
  change (Text.strip_prefix (lit "OK") (lit "OK" ++ ?s)) with (Some s).
  cbv beta iota. unfold ack_fields. rewrite Text.split_words by done. unfold words.
  rewrite fields_fold.
  2:{ apply Forall_cons. split; [done|]. destruct noise, attest; repeat constructor; apply hex_field. }
  cbn [foldl fst snd app].
  change (Text.strip_prefix (lit "r=") (lit "r=" ++ ?s)) with (Some s).
  destruct K as (Kh & Kn & Ka).
  assert (E : ∀ s : bytes, Text.strip_prefix (lit "r=") (lit "sp=" ++ s) = None) by done.
  assert (E' : ∀ s : bytes, bool_decide ("="%byte ∈ lit "sp=" ++ s) = true)
    by (intros s; apply bool_decide_eq_true_2; do 2 right; left).
  cbn [lit String.list_byte_of_string app] in *. rewrite !E, !E', SockAddr.parse_show by done.
  unfold announced, Hex.decode_32.
  destruct noise as [n|], attest as [a|]; cbn; try done.
  by rewrite !decode_hex_of by auto.
Qed.

Lemma endpoint_field r :
  Classify.admissible_endpoint r = true → endpoint r ≠ [] ∧ forallb field_byte (endpoint r) = true.
Proof.
  unfold Classify.admissible_endpoint, is_relay_only. intros [R|S]%orb_true_iff.
  - bool_facts. by rewrite R.
  - destruct (Classify.safe_endpoint _) as [a|] eqn:E; [|done].
    apply Classify.safe_endpoint_Some in E as [E _]. split; [by intros Z; rewrite Z in E|].
    by eapply addr_field, SockAddr.parse_addr_bytes.
Qed.

Lemma words_line ep noise holder attest own sp :
  ep ≠ [] → forallb field_byte ep = true → SockAddr.socket_ok own → keys_ok noise holder attest →
  forallb line_byte (ack_text ep noise holder attest own sp) = true ∧
  forallb is_ascii (ack_text ep noise holder attest own sp) = true.
Proof.
  intros Ne F O K. pose proof (words_ok ep noise holder attest own sp Ne F O K) as W.
  rewrite ack_words, !forallb_app. cbn [andb forallb lit].
  assert (G : ∀ l, Forall (λ t, t ≠ [] ∧ forallb Text.plain t = true) l →
            forallb line_byte (concat (map (λ t, " "%byte :: t) l)) = true ∧
            forallb is_ascii (concat (map (λ t, " "%byte :: t) l)) = true).
  { induction l as [|t l IH]; [done|]. intros [[_ P] Q]%Forall_cons. destruct (IH Q) as [I1 I2].
    cbn [map concat]. rewrite !forallb_app, I1, I2, !andb_true_r. cbn [forallb]. split.
    - apply andb_true_iff. split; [done|]. revert P. apply implied_bytes. by vm_compute.
    - by apply Text.plain_ascii. }
  destruct (G _ W) as [-> ->]. done.
Qed.

(** What a reader of [d] gets: [o], with the bytes after the line left on the stream. *)
Definition delivers (quic : bool) (wire : bytes) (o : ChannelJoinOutcome) : Prop :=
  ∀ n later ka c,
    incoming c = replicate n x00 ++ wire ++ later →
    if quic then later = [] → ending c = Eof → await_ack ka c = (Ok o, set_incoming [] c)
    else await_ack ka c = (Ok o, set_incoming later c) ∧ await_relay_ack c = (Ok o, set_incoming later c).

(** What a reader of an ack at or above the cap gets: an error. *)
Definition overlong (wire : bytes) : Prop :=
  ∀ n later ka c, incoming c = replicate n x00 ++ wire ++ later →
    (await_ack ka c).1 = Err AckTooLong ∧ (await_relay_ack c).1 = Err AckTooLong.

Lemma classify_ok relay nl ep noise holder attest own sp d :
  forallb is_ascii (ack_text ep noise holder attest own sp) = true →
  classify_ack relay nl (ack_text ep noise holder attest own sp) d =
  (Ok (parse_channel_ack (ack_text ep noise holder attest own sp)), d).
Proof.
  intros A. unfold classify_ack. rewrite Text.lossy_ascii by done.
  unfold ack_text at 1 2. change (lit "OK " ++ ?s) with ("O"%byte :: "K"%byte :: " "%byte :: s).
  done.
Qed.

Lemma ack_delivered quic ep noise holder attest own sp :
  ep ≠ [] → forallb field_byte ep = true → SockAddr.socket_ok own → keys_ok noise holder attest →
  (length (ack_text ep noise holder attest own sp) < CHANNEL_ACK_MAX_BYTES)%nat →
  delivers quic (ack_text ep noise holder attest own sp ++ if quic then [] else [x0a])
    (let k := announced noise holder attest in
     Paired ep ((λ k, k.1.1) <$> k) ((λ k, k.1.2) <$> k) (snd <$> k) (Some own)).
Proof.
  intros Ne F O K L n later ka c I. rewrite <- (parse_ack ep noise holder attest own sp) by done.
  destruct (words_line ep noise holder attest own sp Ne F O K) as [T A].
  unfold await_ack, await_relay_ack. rewrite I, read_ack_nuls, <- app_assoc.
  rewrite read_ack_text by done. cbn [app]. destruct quic.
  - intros -> E. cbn [app read_ack]. cbn [ending set_incoming]. rewrite E. by rewrite classify_ok.
  - cbn [app read_ack]. rewrite bool_decide_true by done. by rewrite !classify_ok.
Qed.

Lemma ack_overlong (quic : bool) ep noise holder attest own sp :
  ep ≠ [] → forallb field_byte ep = true → SockAddr.socket_ok own → keys_ok noise holder attest →
  (CHANNEL_ACK_MAX_BYTES <= length (ack_text ep noise holder attest own sp))%nat →
  overlong (ack_text ep noise holder attest own sp ++ if quic then [] else [x0a]).
Proof.
  intros Ne F O K L n later ka c I.
  destruct (words_line ep noise holder attest own sp Ne F O K) as [T _].
  unfold await_ack, await_relay_ack. rewrite I, read_ack_nuls, <- app_assoc.
  destruct (read_ack_long (ack_text ep noise holder attest own sp)
    ((if quic then [] else [x0a]) ++ later) []) as (l & rest & ->);
    [done|by apply Nat.ltb_lt; vm_compute|done|done].
Qed.

End ack.

(** ** A completed pair *)

Section pair.
Context `{Ed25519} (sha256 : bytes → bytes).

(** What admission guarantees of a member. *)
Definition member_ok (m : AdmittedStreamMember) : Prop :=
  Classify.admissible_endpoint (req (joined m)) = true ∧
  keys_ok (member_noise (joined m)) (holder_of m) (member_attest (joined m)) ∧
  SockAddr.socket_ok (observed m) ∧ room (stream m) = None ∧ sent (stream m) = [].

Definition is_quic (m : AdmittedStreamMember) : bool := bool_decide (session m = QuicNextBiStream).

(** What [m] should learn of [p]: endpoint and keys, and its own address. *)
Definition learned (m p : AdmittedStreamMember) : ChannelJoinOutcome :=
  let k := announced (member_noise (joined p)) (holder_of p) (member_attest (joined p)) in
  Paired (ChannelJoinRequest.endpoint (req (joined p))) ((λ k, k.1.1) <$> k) ((λ k, k.1.2) <$> k) (snd <$> k)
    (Some (observed m)).

Definition ack_of (m p : AdmittedStreamMember) : bytes :=
  ack_text (ChannelJoinRequest.endpoint (req (joined p))) (member_noise (joined p)) (holder_of p)
    (member_attest (joined p)) (observed m) (same_public_ip (observed m) (observed p)).

Lemma same_ip_sym a b : same_public_ip a b = same_public_ip b a.
Proof. unfold same_public_ip. apply bool_decide_ext. split; congruence. Qed.

(** The ack of one side. *)
Lemma acked m p sp side :
  member_ok m → sp = same_public_ip (observed m) (observed p) →
  ∃ d, ack_member_for_session m p sp side (stream m) = (Ok (), d) ∧ room d = None ∧
    sent d = ack_of m p ++ (if is_quic m then [] else [x0a]).
Proof.
  intros (_ & _ & _ & R & S) ->. unfold ack_member_for_session. fold (ack_of m p). fold (is_quic m).
  destruct (is_quic m) eqn:Q; cbn [negb].
  - unfold bind. rewrite write_all_run by done. rewrite shutdown_run by done. eexists.
    split; [done|]. cbn. by rewrite S, app_nil_r.
  - rewrite write_all_run by done. eexists. split; [done|]. cbn. by rewrite R, S.
Qed.

(** What [m] makes of the ack [wire] it was sent about [p]. *)
Definition told (m p : AdmittedStreamMember) (wire : bytes) : Prop :=
  if (length (ack_of m p) <? CHANNEL_ACK_MAX_BYTES)%nat
  then delivers (is_quic m) wire (learned m p) else overlong wire.

Lemma pair_ack_told m p :
  member_ok m → member_ok p → told m p (ack_of m p ++ (if is_quic m then [] else [x0a])).
Proof.
  intros (_ & _ & O & _) (E & K & _). destruct (endpoint_field _ E) as [Ne F]. unfold told.
  destruct (Nat.ltb_spec (length (ack_of m p)) CHANNEL_ACK_MAX_BYTES);
    [by apply ack_delivered|by apply ack_overlong].
Qed.

(** A leg of a member is live under its handle. *)
Definition live_leg (m : AdmittedStreamMember) (live : Splices.LiveSplices) (id : N) : Prop :=
  {| Splices.leg_id := id; Splices.digest := Some (SignedChannelGrant.digest sha256 (grant_of m));
     Splices.cut := false |} ∈ Splices.legs_of (channel_of m, holder_of m) live.

(** C14 A pair the edge completes: both members were admitted for one channel under two
    holders, and each of them, reading its ack behind any number of keepalives, learns exactly
    the other's endpoint and announced keys and its own observed address, when that ack is
    shorter than the reader's cap of 512 bytes; on a stream the bytes after the ack are left to
    the session. An ack of 512 bytes or more, which an admitted endpoint with a padded port can
    cause ([Join.Demo.oversized_ack]), gives its reader an error instead, and nothing else. The
    pair is then either closed, and nothing is registered, or spliced, with a live leg for each
    member that a removal can cut. *)
Theorem completed_pair_agrees a b now completion live pairing fin da db live' :
  member_ok a → member_ok b →
  finish_stream_pair_inner sha256 a b now completion live = (Ok (pairing, fin), (da, db), live') →
  channel_of a = channel_of b ∧ holder_of a ≠ holder_of b ∧
  told a b (sent da) ∧ told b a (sent db) ∧
  match fin with
  | Closed => completion_of a b completion = RendezvousClose ∧ live' = live ∧
              shut da = true ∧ shut db = true
  | Spliced ga gb => completion_of a b completion = Splice ∧
                     live_leg a live' ga.2 ∧ live_leg b live' gb.2
  end.
Proof.
  intros Ha Hb. unfold finish_stream_pair_inner.
  destruct (Pairing.authorize_channel_pair _ _ _ _) as [p|] eqn:P; [|done].
  apply (Pairing.authorize_channel_pair_exact (operator (joined a)) (grant_of a) (grant_of b) now)
    in P as (_ & _ & C & N & _).
  destruct (acked a b _ A Ha eq_refl) as (da0 & -> & Ra & Sa).
  destruct (acked b a _ B Hb (same_ip_sym _ _)) as (db0 & -> & Rb & Sb).
  pose proof (pair_ack_told a b Ha Hb) as Da. pose proof (pair_ack_told b a Hb Ha) as Db.
  rewrite <- Sa in Da. rewrite <- Sb in Db.
  destruct (completion_of a b completion) eqn:Q.
  - destruct (Splices.register_live_splice_inner (channel_of a) (holder_of a) _ live) as [ga l1] eqn:G1.
    destruct (Splices.register_live_splice_inner (channel_of b) (holder_of b) _ l1) as [gb l2] eqn:G2.
    intros [= <- <- <- <- <-]. split_and!; [done|done|done|done|done| |].
    + injection G1 as <- <-. injection G2 as <- <-. unfold live_leg, Splices.legs_of.
      cbn [Splices.entries snd Splices.next_id].
      rewrite lookup_insert_ne by (intros [= _ ?]; by destruct N). rewrite lookup_insert.
      rewrite decide_True by done. cbn [default]. apply elem_of_app. right. by left.
    + injection G2 as <- <-. unfold live_leg, Splices.legs_of. cbn [Splices.entries snd].
      rewrite lookup_insert, decide_True by done. cbn [default]. apply elem_of_app. right. by left.
  - intros [= <- <- <- <- <-]. done.
Qed.

End pair.

(** ** An honest member and the edge *)

Section honest.
Context `{Ed25519Laws} (sha256 : bytes → bytes).
Context (authorize : bytes → bytes → option (bytes * option bytes * option bytes)).
Context (verdict : bytes → bytes → GrantRevocation.AdmissionVerdict) (require_attested : bool).
Import ChannelJoinRequest Pairer.

Lemma classify_sent relay nl line d : sent (classify_ack relay nl line d).2 = sent d.
Proof.
  unfold classify_ack. destruct (_ =? _)%nat; [done|]. destruct (Text.strip_prefix _ _); [|done].
  unfold bind. destruct (negb _); [done|]. destruct nl; [|done].
  unfold read_refusal_tail_token, read_up_to. by destruct (_ <=? _)%nat.
Qed.

Lemma await_sent ka d : sent (await_ack ka d).2 = sent d ∧ sent (await_relay_ack d).2 = sent d.
Proof.
  unfold await_ack, await_relay_ack. destruct (read_ack _ _) as [[[] line] rest]; [| |done].
  - by rewrite !classify_sent.
  - cbn [ending set_incoming]. split.
    + destruct (ending d) as [|chain|]; [by rewrite classify_sent| |done].
      destruct (error_names_park_expiry chain); [done|by rewrite classify_sent].
    + destruct (bool_decide _); [done|by rewrite classify_sent].
Qed.

(** What the member sends when it is challenged. *)
Lemma member_sends sk r marker finish ka challenge tail c :
  room c = None → sent c = [] → blen (encode r) < 65536 → length challenge = 32%nat →
  incoming c = challenge ++ tail →
  sent (present_channel_join_on_stream r sk finish marker ka c).2 = hello r marker ++ sign sk challenge ∧
  sent (present_channel_relay_join_on_stream r sk marker c).2 = hello r marker ++ sign sk challenge.
Proof.
  intros R S L Lc I. unfold present_channel_join_on_stream, present_channel_relay_join_on_stream, bind at 1 3.
  rewrite send_request_run by done. set (c1 := wrote _ c). unfold bind at 1.
  rewrite (answer_challenge_run _ _ challenge tail) by done. unfold bind at 1.
  assert (read_exact Transport Waiting 32 c1 = (Ok challenge, set_incoming tail c1)) as ->
    by (apply read_exact_Ok; by exists tail).
  unfold bind at 1. rewrite write_all_run by done.
  split; [rewrite (proj1 (await_sent ka _))|rewrite (proj2 (await_sent ka _))].
  - destruct finish; cbn; by rewrite S.
  - cbn. by rewrite S.
Qed.

Definition marked (marker : option byte) : ParkPhase :=
  match marker with Some x01 => Rendezvous | Some x02 => Relay | _ => Unmarked end.

(** The preamble is recognised, and a request without one is left as it was. *)
Lemma peek_hello w r marker rest d :
  room d = None → blen (encode r) <= 1024 →
  marker ∈ [None; Some PHASE_MARKER_RENDEZVOUS; Some PHASE_MARKER_RELAY] →
  incoming d = hello r marker ++ rest →
  peek_optional_phase_marker w d =
  (Ok (marked marker), set_incoming (u16_be (blen (encode r)) ++ encode r ++ rest) d).
Proof.
  intros R B M I. unfold peek_optional_phase_marker, bind.
  assert (Q : ∃ x y, u16_be (blen (encode r)) = [x; y] ∧ x ≠ PHASE_PREAMBLE_MAGIC).
  { assert (V : be_val (u16_be (blen (encode r))) = blen (encode r)) by (apply (be_val_small 2); lia).
    pose proof (length_u16_be (blen (encode r))) as L.
    destruct (u16_be _) as [|x [|y [|]]]; try done. exists x, y. split; [done|].
    intros ->. rewrite be_val_cons in V. cbn in V. lia. }
  destruct Q as (x & y & Q & X). unfold read_exact. rewrite I. unfold hello. rewrite Q.
  apply list_elem_of_In in M. cbn [In] in M.
  destruct M as [<-|[<-|[<-|[]]]]; cbn [app length Nat.leb take drop].
  - rewrite bool_decide_false by (cbn; congruence). cbn [negb]. done.
  - rewrite bool_decide_true by done. done.
  - rewrite bool_decide_true by done. done.
Qed.

(** C15 An honest member is admitted: if the request is well formed and allowed, and the
    member holds the key the grant binds, then what it sends upon the edge's challenge makes
    the edge admit it, on the QUIC leg and on the front door, marked with its phase or not
    at all, and leaves the bytes of its session on the stream. *)
Theorem honest_member_admitted sk r marker finish ka challenge tail c obs now j d session :
  room c = None → sent c = [] → incoming c = challenge ++ tail → length challenge = 32%nat →
  join_ok r → blen (encode r) <= 1024 →
  ChannelGrant.holder (SignedChannelGrant.grant (grant r)) = verifying_key sk →
  allowed sha256 authorize verdict require_attested r obs now j →
  marker ∈ [None; Some PHASE_MARKER_RENDEZVOUS; Some PHASE_MARKER_RELAY] →
  room d = None → ending d = Eof →
  (incoming d = sent (present_channel_join_on_stream r sk finish marker ka c).2 ++ session ∨
   incoming d = sent (present_channel_relay_join_on_stream r sk marker c).2 ++ session) →
  let d' := set_incoming session (wrote challenge d) in
  read_join_on_quic sha256 authorize verdict require_attested obs now challenge d = (Ok j, d') ∧
  read_join_on_front_door sha256 authorize verdict require_attested true obs now challenge d =
    (Ok (j, marked marker), d') ∧
  (marker = None →
   read_join_on_front_door sha256 authorize verdict require_attested false obs now challenge d =
     (Ok (j, Unmarked), d')).
Proof.
  intros Rc Sc Ic Lc J B Hk A M Rd Ed I d'.
  assert (L : blen (encode r) < 65536) by lia.
  destruct (member_sends sk r marker finish ka challenge tail c Rc Sc L Lc Ic) as [E1 E2].
  assert (I' : incoming d = hello r marker ++ sign sk challenge ++ session)
    by (destruct I as [->| ->]; rewrite ?E1, ?E2; by rewrite <- app_assoc).
  assert (G : ∀ d0, room d0 = None → sent d0 = sent d → shut d0 = shut d → ending d0 = ending d →
            incoming d0 = u16_be (blen (encode r)) ++ encode r ++ sign sk challenge ++ session →
            read_channel_join_on_stream sha256 authorize verdict require_attested obs now challenge d0 = (Ok j, d')).
  { intros d0 R0 S0 Sh0 E0 I0. apply edge_admission_exact; [done|].
    exists r, (sign sk challenge), session. split_and!; try done.
    - apply signature_length.
    - rewrite Hk. apply sig_verify_sign.
    - unfold d', set_incoming, wrote. cbn. by rewrite R0, S0, Sh0, E0, Rd. }
  assert (P : ∀ w, peek_optional_phase_marker w d = (Ok (marked marker), set_incoming
            (u16_be (blen (encode r)) ++ encode r ++ sign sk challenge ++ session) d))
    by (intros; by apply peek_hello).
  split_and!; [|unfold read_join_on_front_door, bind|intros ->; unfold read_join_on_front_door, bind, ret].
  - unfold read_join_on_quic, bind. rewrite P. by apply G.
  - rewrite P. by rewrite G.
  - by rewrite G.
Qed.

End honest.

(** ** Parks, and admissions that end *)

Section ending.
Context `{Ed25519} (sha256 : bytes → bytes).
Context (authorize : bytes → bytes → option (bytes * option bytes * option bytes)).
Context (verdict : bytes → bytes → GrantRevocation.AdmissionVerdict) (require_attested : bool).

Lemma starts_with_app p s : starts_with p (p ++ s) = true.
Proof. induction p as [|b p IH]; [done|]. cbn [app starts_with]. by rewrite bool_decide_true, IH. Qed.

Lemma contains_at p a s : starts_with p s = true → contains p (a ++ s) = true.
Proof.
  intros S. induction a as [|b a IH]; cbn [app].
  - destruct s; cbn [contains]; by rewrite S.
  - cbn [contains]. rewrite IH. by apply orb_true_r.
Qed.

(** The end of a park is never read as a refusal: the token on a stream makes both
    readers return [ParkExpired], behind any number of keepalives; the reason of a closed QUIC
    connection, wherever it stands in the chain of errors, makes the broker leg return it, and
    the relay leg report a dropped leg. *)
Theorem park_end_recognised m why n ka c :
  room (stream m) = None → sent (stream m) = [] →
  match end_park m why with
  | OnStream d =>
    incoming c = replicate n x00 ++ sent d → ending c = Eof →
    (await_ack ka c).1 = Ok ParkExpired ∧ (await_relay_ack c).1 = Ok ParkExpired
  | OnConnection reason =>
    ∀ chain before after, ending c = Failed chain → before ++ reason ++ after ∈ chain →
    incoming c = replicate n x00 →
    (await_ack ka c).1 = Ok ParkExpired ∧ (await_relay_ack c).1 = Err (DroppedLegBeforeAck true)
  end.
Proof.
  intros R S. unfold end_park. destruct (bool_decide _).
  - intros chain before after E In I. unfold await_ack, await_relay_ack.
    assert (read_ack (incoming c) [] = (Ended, [], [])) as ->
      by (rewrite I, <- (app_nil_r (replicate n x00)); apply read_ack_nuls).
    cbn [ending set_incoming]. rewrite E, bool_decide_false by done. split; [|done].
    assert (error_names_park_expiry chain = true) as ->; [|done].
    apply existsb_exists. eexists. split; [by apply list_elem_of_In|]. apply contains_at. done.
  - intros I E. unfold await_ack, await_relay_ack.
    assert (read_ack (incoming c) [] = (Ended, lit "EX", [])) as ->.
    { rewrite I, read_ack_nuls. unfold graceful_close, attempt. cbn [snd].
      rewrite write_all_run by done. cbn [snd sent set_incoming].
      rewrite shutdown_run by done. cbn [snd sent closed wrote]. by rewrite S. }
    cbn [ending set_incoming]. rewrite E. rewrite bool_decide_false by done. by split.
Qed.

Lemma refuse_ends {A} tag definitive d :
  (refuse tag definitive d : Result A EdgeError * Duplex).1 ≠ Err StillWaiting.
Proof. unfold refuse, bind, attempt. cbn. congruence. Qed.

Lemma admission_ends obs now challenge d :
  (read_channel_join_on_stream sha256 authorize verdict require_attested obs now challenge d).1
  ≠ Err StillWaiting.
Proof.
  assert (X : ∀ e n d, e ≠ StillWaiting → (read_exact e JoinTimeout n d).1 ≠ Err StillWaiting).
  { intros e n d0 E. unfold read_exact. destruct (_ <=? _)%nat; [done|].
    destruct (ending d0); cbn; congruence. }
  unfold read_channel_join_on_stream, read_request, bind.
  pose proof (X IoLen 2%nat d) as X1.
  destruct (read_exact IoLen JoinTimeout 2 d) as [[lb|e] d0]; [|intros [= ->]; by apply X1].
  destruct (_ || _); [done|].
  pose proof (X IoBody (N.to_nat (be_val lb)) d0) as X2.
  destruct (read_exact IoBody JoinTimeout _ d0) as [[b|e] d1]; [|intros [= ->]; by apply X2].
  destruct (ChannelJoinRequest.decode b) as [r|]; [|done].
  assert (C : match check_request sha256 authorize verdict require_attested r obs now d1 with
              | (Ok j, d2) => True | (Err e, _) => e ≠ StillWaiting end).
  { unfold check_request. destruct (negb (Classify.admissible_endpoint r)); [done|].
    destruct (_ && _ && _); [done|]. destruct (authorize _ _) as [[[op no] at_]|]; [|done].
    destruct (Verify.verify_stateless _ _ _); [|done]. by destruct (verdict _ _). }
  cbn [ret]. destruct (check_request _ _ _ _ r obs now d1) as [[j|e] d2]; [clear C|intros [= ->]; by destruct C].
  assert (P : ∀ h, (prove_possession h challenge d2).1 ≠ Err StillWaiting).
  { intros h. unfold prove_possession, bind. destruct (write_all IoChallenge challenge d2) as [[u|e] d3] eqn:W.
    - unfold read_exact. destruct (_ <=? _)%nat.
      + destruct (Verify.verify_holder_possession _ _ _); [done|apply refuse_ends].
      + destruct (ending d3); [apply refuse_ends..|done].
    - unfold write_all in W. destruct (room d2); [destruct (_ <=? _)%nat|]; [done| |done].
      injection W as <- _. cbn. congruence. }
  specialize (P (ChannelGrant.holder (SignedChannelGrant.grant (ChannelJoinRequest.grant r)))).
  destruct (prove_possession _ challenge d2) as [[[]|e] d3]; [done|]. intros [= ->]. by destruct P.
Qed.

(** The front door gives every admission an end, whatever the peer does; the QUIC leg
    waits for ever exactly on a peer that stays silent before its second byte, because the
    preamble is read outside the bound of the admission. *)
Theorem admission_bounded obs now challenge d :
  (∀ keepalive,
   (read_join_on_front_door sha256 authorize verdict require_attested keepalive obs now challenge d).1
   ≠ Err StillWaiting) ∧
  ((read_join_on_quic sha256 authorize verdict require_attested obs now challenge d).1
   = Err StillWaiting ↔ ending d = Silent ∧ (length (incoming d) < 2)%nat).
Proof.
  assert (K : ∀ w, match peek_optional_phase_marker w d with
            | (Ok _, _) => (2 <= length (incoming d))%nat
            | (Err e, _) => (ending d = Silent ∧ (length (incoming d) < 2)%nat ∧ e = w) ∨
                            (e = UnknownMarker ∧ (2 <= length (incoming d))%nat) ∨ (e = PreambleFailed ∧ ending d ≠ Silent)
            end).
  { intros w. unfold peek_optional_phase_marker, bind, read_exact.
    destruct (Nat.leb_spec 2 (length (incoming d))) as [L|L].
    - destruct (negb _); [done|].
      destruct (take 2 (incoming d) !! 1%nat) as [[]|]; cbn; auto.
    - destruct (ending d); eauto. }
  split.
  - intros keepalive. unfold read_join_on_front_door, bind. destruct keepalive; cbn [ret].
    + specialize (K JoinTimeout). destruct (peek_optional_phase_marker JoinTimeout d) as [[ph|e] d0].
      * pose proof (admission_ends obs now challenge d0) as A.
        destruct (read_channel_join_on_stream _ _ _ _ _ _ _ d0) as [[j|e] d1]; [done|].
        intros [= ->]. by destruct A.
      * intros [= ->]. naive_solver.
    + pose proof (admission_ends obs now challenge d) as A.
      destruct (read_channel_join_on_stream _ _ _ _ _ _ _ d) as [[j|e] d1]; [done|].
      intros [= ->]. by destruct A.
  - unfold read_join_on_quic, bind. specialize (K StillWaiting).
    destruct (peek_optional_phase_marker StillWaiting d) as [[ph|e] d0].
    + split; [intros E; by apply admission_ends in E|lia].
    + split; [intros [= ->]; naive_solver|]. intros [E L].
      destruct K as [(_ & _ & ->)|[[_ ?]|[_ N]]]; [done|lia|done].
Qed.

End ending.

(** ** Concrete runs *)

Module Demo.
Import ChannelJoinRequest Direction Rights.
#[local] Existing Instance Toy.ed25519.

Definition key (b : byte) : @SigningKey Toy.ed25519 := b.
Definition sha (b : bytes) : bytes := take 32 b.
Definition operator : bytes := replicate 32 x6f.

Definition grant_to (h : byte) (d : Direction) : SignedChannelGrant.SignedChannelGrant :=
  {| SignedChannelGrant.grant :=
       {| ChannelGrant.channel := replicate 32 x63; ChannelGrant.holder := replicate 32 h;
          ChannelGrant.direction := d; ChannelGrant.rights := ReadWrite;
          ChannelGrant.delegable := false; ChannelGrant.expires_at := 1000 |};
     SignedChannelGrant.signature := replicate 64 x6f |}.

Definition request (h : byte) (d : Direction) (ep : bytes) : ChannelJoinRequest :=
  {| grant := grant_to h d; endpoint := ep |}.

(** Every holder is a member, without keys. *)
Definition authorize (c h : bytes) : option (bytes * option bytes * option bytes) :=
  Some (operator, None, None).
Definition none_revoked (c d : bytes) : GrantRevocation.AdmissionVerdict := GrantRevocation.Allowed.
Definition all_revoked (c d : bytes) : GrantRevocation.AdmissionVerdict := GrantRevocation.Revoked.

Definition challenge : bytes := replicate 32 x11.
Definition here : Address.SocketAddr := SockAddr.sock (Address.Ip4 (Address.V4 203 0 113 7)) 4000.

Definition alice : ChannelJoinRequest := request x61 Initiate (lit "203.0.113.7:4000").
Definition alice_sends : bytes := hello alice None ++ replicate 64 x61.
Definition alice_joined : Joined :=
  {| req := alice; Edge.operator := operator; member_noise := None; member_attest := None |}.

Lemma alice_ok : join_ok alice.
Proof. split_and!; try done. Qed.

Lemma alice_allowed : allowed sha authorize none_revoked true alice here 10 alice_joined.
Proof. split_and!; try done; by vm_compute. Qed.

Lemma edge_admission_exact_witness :
  read_channel_join_on_stream sha authorize none_revoked true here 10 challenge
    (open_stream (alice_sends ++ lit "noise") Silent) =
  (Ok alice_joined, wrote challenge (open_stream (lit "noise") Silent)).
Proof.
  apply (edge_admission_exact sha authorize none_revoked true here 10 challenge
    (open_stream (alice_sends ++ lit "noise") Silent) alice_joined); [done|].
  exists alice, (replicate 64 x61), (lit "noise").
  split_and!; try done; by vm_compute.
Defined.

(** A revoked grant, as the member learns it. *)
Lemma refusal_reaches_member_witness :
  (present_channel_join_on_stream alice (key x61) false None false
     (open_stream (Refusal.encode_channel_refusal (lit "grant-revoked")) Eof)).1 =
  Ok (Member.Refused (Some (lit "grant-revoked"))) ∧
  (present_channel_relay_join_on_stream alice (key x62) None
     (open_stream (challenge ++ Refusal.encode_channel_refusal (lit "possession")) Eof)).1 =
  Ok (Member.Refused (Some (lit "possession"))).
Proof.
  split.
  - apply (refusal_reaches_member sha authorize all_revoked true here 10 challenge
      (open_stream alice_sends Eof)
      (closed (wrote (Refusal.encode_channel_refusal (lit "grant-revoked"))
         (open_stream (replicate 64 x61) Eof)))
      (lit "grant-revoked") true alice (key x61) false None false); try done; by vm_compute.
  - apply (refusal_reaches_member sha authorize none_revoked true here 10 challenge
      (open_stream (hello alice None ++ replicate 64 x62) Eof)
      (closed (wrote (challenge ++ Refusal.encode_channel_refusal (lit "possession"))
         (open_stream [] Eof)))
      (lit "possession") true alice (key x62) false None false); try done; by vm_compute.
Defined.

Definition member (h : byte) (d : Direction) (ep : bytes) (s : SessionSource) : AdmittedStreamMember :=
  {| stream := open_stream [] Silent;
     joined := {| req := request h d ep; Edge.operator := operator;
                  member_noise := Some (replicate 32 h); member_attest := Some (replicate 64 h) |};
     observed := here; session := s |}.

Definition a_member : AdmittedStreamMember := member x61 Initiate (lit "203.0.113.7:4000") SameStream.
Definition b_member : AdmittedStreamMember := member x62 Accept (lit "relay-only") QuicNextBiStream.

Lemma member_is_ok h d ep s :
  Classify.admissible_endpoint (request h d ep) = true → member_ok (member h d ep s).
Proof.
  intros E. repeat apply conj; try (intros ? [= <-]); (exact E || by vm_compute).
Qed.

Lemma completed_pair_agrees_witness :
  channel_of a_member = channel_of b_member ∧
  await_ack false (open_stream (lit "OK 203.0.113.7:4000" ++
     member_ack_suffix (Some (replicate 32 x61)) (replicate 32 x61) (Some (replicate 64 x61)) ++
     lit " r=203.0.113.7:4000 sp=1") Eof) =
  (Ok (learned b_member a_member), open_stream [] Eof).
Proof.
  destruct (finish_stream_pair_inner sha a_member b_member 10 Splice Splices.new)
    as [[[[p fin]|e] [da db]] live] eqn:F; [|by vm_compute in F].
  pose proof (completed_pair_agrees sha a_member b_member 10 Splice Splices.new p fin da db live
    ltac:(by apply member_is_ok; vm_compute) ltac:(by apply member_is_ok; vm_compute) F) as (C & _ & _ & D & _).
  assert (L : (length (ack_of b_member a_member) <? CHANNEL_ACK_MAX_BYTES)%nat = true) by (vm_compute; reflexivity).
  unfold told in D. rewrite L in D. split; [exact C|].
  assert (E : sent db = lit "OK 203.0.113.7:4000" ++
     member_ack_suffix (Some (replicate 32 x61)) (replicate 32 x61) (Some (replicate 64 x61)) ++
     lit " r=203.0.113.7:4000 sp=1").
  { assert (S : sent (finish_stream_pair_inner sha a_member b_member 10 Splice Splices.new).1.2.2 = sent db)
      by (by rewrite F). rewrite <- S. vm_compute. reflexivity. }
  rewrite <- E.
  apply (D 0%nat [] false (open_stream (sent db) Eof)); [by rewrite app_nil_r|done|done].
Defined.

(** *** The size of an ack

    The reader's cap is meant to be far above any ack of the edge. An endpoint whose port is
    padded with zeros is admitted, and the ack that carries it to the peer is longer than the
    cap: the peer ends with an error. *)
Definition padded : bytes := lit "203.0.113.7:" ++ replicate 520 x30 ++ lit "4000".

Lemma oversized_ack :
  Classify.admissible_endpoint (request x61 Initiate padded) = true ∧
  blen (encode (request x61 Initiate padded)) <= 1024 ∧
  (await_relay_ack (open_stream (ack_text padded None (replicate 32 x61) None here true ++ [x0a]) Silent)).1 =
  Err AckTooLong.
Proof. split_and!; [by vm_compute|by vm_compute|by vm_compute]. Qed.

Lemma honest_member_admitted_witness :
  let c := open_stream (challenge ++ lit "EX") Eof in
  let d := open_stream (sent (present_channel_join_on_stream alice (key x61) false (Some PHASE_MARKER_RELAY) true c).2) Eof in
  read_join_on_front_door sha authorize none_revoked true true here 10 challenge d =
  (Ok (alice_joined, Pairer.Relay), wrote challenge (open_stream [] Eof)).
Proof.
  intros c d.
  apply (honest_member_admitted (H0 := Toy.laws) sha authorize none_revoked true (key x61) alice
    (Some PHASE_MARKER_RELAY) false true challenge (lit "EX") c here 10 alice_joined d []);
    first [exact alice_ok | exact alice_allowed | done | (do 2 right; by left)
          | (left; by rewrite app_nil_r) | by vm_compute].
Defined.

Lemma park_end_recognised_witness :
  (await_ack true (open_stream (replicate 3 x00 ++ lit "EX") Eof)).1 = Ok ParkExpired ∧
  (await_ack true (open_stream [] (Failed [lit "read failed";
     lit "closed by peer: park-expired: superseded"]))).1 = Ok ParkExpired.
Proof.
  split.
  - apply (park_end_recognised a_member (lit "superseded") 3 true
      (open_stream (replicate 3 x00 ++ lit "EX") Eof)); done.
  - apply (park_end_recognised b_member (lit "superseded") 0 true
      (open_stream [] (Failed [lit "read failed"; lit "closed by peer: park-expired: superseded"]))
      eq_refl eq_refl [lit "read failed"; lit "closed by peer: park-expired: superseded"]
      (lit "closed by peer: ") []); [done|right; left|done].
Defined.

End Demo.
