(* ===== verification/EdgeParts.v ===== *)
(** * Guards and observations of the edge

    The small stateful parts of [edge/src/state.rs] that the listeners share: the connection
    cap, the heartbeats, the penalty for refused joins and the table of fingerprints. *)

From S2P Require Import Prelude RustStd Maps Limits Reach Broker.

(** ** The connection cap *)

Module ConnectionCap.

(** src/crates/edge/src/state.rs:34-38 [ConnectionCap]: [permits] are the semaphore's. *)
Record ConnectionCap := { permits : N; shed : N; max : N }.

(** src/crates/edge/src/state.rs:42-48 [ConnectionCap::new] *)
Definition new (max : N) : ConnectionCap := {| permits := max; shed := 0; max := max |}.

(** src/crates/edge/src/state.rs:75-77 [ConnectionCap::available] *)
Definition available (c : ConnectionCap) : N := permits c.

(** src/crates/edge/src/state.rs:57-59 [ConnectionCap::in_use] *)
Definition in_use (c : ConnectionCap) : N := max c - available c.

(** src/crates/edge/src/state.rs:70-72 [ConnectionCap::try_admit]: whether a permit was had. *)
Definition try_admit (c : ConnectionCap) : bool * ConnectionCap :=
  if permits c =? 0 then (false, c)
  else (true, {| permits := permits c - 1; shed := shed c; max := max c |}).

(** A permit is dropped. *)
Definition release (c : ConnectionCap) : ConnectionCap :=
  {| permits := permits c + 1; shed := shed c; max := max c |}.

(** src/crates/edge/src/state.rs:88-90 [ConnectionCap::note_shed] *)
Definition note_shed (c : ConnectionCap) : N * ConnectionCap :=
  let n := wrap64 (shed c + 1) in (n, {| permits := permits c; shed := n; max := max c |}).

(** Connections arriving and ending; [live] counts the admitted ones. *)
Inductive Event := Arrives | Ends.

Definition step (st : ConnectionCap * N) (e : Event) : ConnectionCap * N :=
  let '(c, live) := st in
  match e with
  | Arrives => let '(ok, c') := try_admit c in
               if ok then (c', live + 1) else ((note_shed c').2, live)
  | Ends => if live =? 0 then (c, live) else (release c, live - 1)
  end.

(** the cap holds whatever the order of arrivals and ends: the permits in use are exactly the
    live connections, never more than the cap, and a connection is refused exactly when the
    cap is reached. *)
Theorem cap_exact m es :
  let '(c, live) := foldl step (new m, 0) es in
  in_use c = live ∧ live <= m ∧ max c = m ∧ ((try_admit c).1 = false ↔ live = m).
Proof.
  assert (G : ∀ es c live, permits c + live = m → max c = m →
            let '(c', live') := foldl step (c, live) es in permits c' + live' = m ∧ max c' = m).
  { clear es. induction es as [|e es IH]; intros c live P M; [done|]. cbn [foldl].
    destruct e; cbn [step].
    - unfold try_admit. destruct (N.eqb_spec (permits c) 0) as [Z|Z]; [by apply IH|].
      apply IH; cbn; lia.
    - destruct (N.eqb_spec live 0) as [Z|Z]; [by apply IH|]. apply IH; cbn; lia. }
  specialize (G es (new m) 0). cbn in G. destruct (foldl step (new m, 0) es) as [c live].
  destruct G as [P M]; [lia|done|]. unfold in_use, available, try_admit.
  split_and!; [lia|lia|done|]. destruct (N.eqb_spec (permits c) 0); cbn; split; (lia || done).
Qed.

End ConnectionCap.

(** ** Heartbeats *)

Module BrokerHeartbeat.

(** src/crates/edge/src/state.rs:220-229 [BrokerHeartbeat] *)
Record BrokerHeartbeat := { last_seen : N; expected_since : N }.

(** src/crates/edge/src/state.rs:232-237 [BrokerHeartbeat::new] *)
Definition new : BrokerHeartbeat := {| last_seen := 0; expected_since := 0 |}.

(** src/crates/edge/src/state.rs:239-241 [BrokerHeartbeat::beat] *)
Definition beat (now : N) (b : BrokerHeartbeat) : BrokerHeartbeat :=
  {| last_seen := now; expected_since := expected_since b |}.

(** src/crates/edge/src/state.rs:250-257 [BrokerHeartbeat::expect_start] *)
Definition expect_start (now : N) (b : BrokerHeartbeat) : BrokerHeartbeat :=
  {| last_seen := last_seen b;
     expected_since := if expected_since b =? 0 then now else expected_since b |}.

(** The listeners of [EdgeState], and those whose silence does not count against health. *)
Record Listeners := { heartbeats : gmap bytes BrokerHeartbeat; advisory : gset bytes }.

(** src/crates/edge/src/state.rs:1465-1473 [EdgeState::expect_listener] *)
Definition expect_listener (label : bytes) (now : N) (l : Listeners) : Listeners :=
  {| heartbeats := <[label := expect_start now (default new (heartbeats l !! label))]> (heartbeats l);
     advisory := advisory l |}.

(** src/crates/edge/src/state.rs:1480-1487 [EdgeState::expect_listener_advisory] *)
Definition expect_listener_advisory (label : bytes) (now : N) (l : Listeners) : Listeners :=
  expect_listener label now {| heartbeats := heartbeats l; advisory := {[label]} ∪ advisory l |}.

(** src/crates/edge/src/state.rs:1500-1502 [EdgeState::listener_is_health_gating] *)
Definition listener_is_health_gating (label : bytes) (l : Listeners) : bool :=
  negb (bool_decide (label ∈ advisory l)).

(** src/crates/edge/src/state.rs:1505-1515 [EdgeState::gating_listener_heartbeats] *)
Definition gating_listener_heartbeats (l : Listeners) : list (bytes * BrokerHeartbeat) :=
  filter (λ kv, kv.1 ∉ advisory l) (map_to_list (heartbeats l)).

(** A listener is reported for health exactly when it is expected and was never expected as
    advisory. *)
Lemma gating_exact label b l :
  (label, b) ∈ gating_listener_heartbeats l ↔
  heartbeats l !! label = Some b ∧ listener_is_health_gating label l = true.
Proof.
  unfold gating_listener_heartbeats, listener_is_health_gating.
  rewrite list_elem_of_filter, elem_of_map_to_list, negb_true_iff, bool_decide_eq_false. naive_solver.
Qed.

End BrokerHeartbeat.

(** ** The penalty for refused joins *)

Module JoinRefusalPenalty.
Import RateLimit Address.

(** src/crates/edge/src/state.rs:195-195 [JOIN_REFUSALS_PER_MINUTE] *)
Definition JOIN_REFUSALS_PER_MINUTE : N := 30.
(** src/crates/edge/src/state.rs:200-200 [JOIN_REFUSAL_WINDOW_SECS] *)
Definition JOIN_REFUSAL_WINDOW_SECS : N := 60.
(** src/crates/edge/src/state.rs:204-204 [JOIN_REFUSAL_MAX_TRACKED_IPS] *)
Definition JOIN_REFUSAL_MAX_TRACKED_IPS : nat := 4096.

(** src/crates/edge/src/state.rs:277-284 [JoinRefusalPenalty] *)
Record JoinRefusalPenalty := { limiter : KeyedRateLimiter IpAddr; sheds : N }.

(** src/crates/edge/src/state.rs:287-295 [JoinRefusalPenalty::new] *)
Definition new : JoinRefusalPenalty :=
  {| limiter := with_max_tracked_keys JOIN_REFUSALS_PER_MINUTE JOIN_REFUSAL_MAX_TRACKED_IPS;
     sheds := 0 |}.

(** src/crates/edge/src/state.rs:306-317 [JoinRefusalPenalty::note_definitive_refusal]: whether
    this refusal used the budget up. *)
Definition note_definitive_refusal (ip : IpAddr) (now_secs : N) (p : JoinRefusalPenalty)
    : bool * JoinRefusalPenalty :=
  let window := now_secs / JOIN_REFUSAL_WINDOW_SECS in
  let was_over := over_limit (limiter p) ip window in
  let l := (allow (limiter p) ip window).2 in
  (over_limit l ip window && negb was_over, {| limiter := l; sheds := sheds p |}).

(** src/crates/edge/src/state.rs:323-326 [JoinRefusalPenalty::penalized] *)
Definition penalized (ip : IpAddr) (now_secs : N) (p : JoinRefusalPenalty) : bool :=
  over_limit (limiter p) ip (now_secs / JOIN_REFUSAL_WINDOW_SECS).

(** src/crates/edge/src/state.rs:331-333 [JoinRefusalPenalty::note_shed] *)
Definition note_shed (p : JoinRefusalPenalty) : N * JoinRefusalPenalty :=
  let n := wrap64 (sheds p + 1) in (n, {| limiter := limiter p; sheds := n |}).

(** src/crates/edge/src/state.rs:354-356 [JoinRefusalPenalty::tracked_ips] *)
Definition tracked_ips (p : JoinRefusalPenalty) : nat := tracked_keys (limiter p).

Lemma over_limit_held (l : KeyedRateLimiter IpAddr) ip w :
  max_per_window l <> 0 → over_limit l ip w = (max_per_window l <=? held l ip w).
Proof.
  intros Z. unfold over_limit, held. destruct (counters l !! ip) as [[w' n]|].
  - destruct (w' =? w); cbn [andb]; [done|]. symmetry. apply N.leb_gt. lia.
  - symmetry. apply N.leb_gt. lia.
Qed.

Lemma allow_held (l : KeyedRateLimiter IpAddr) ip w :
  held (allow l ip w).2 ip w = held l ip w + (if (allow l ip w).1 then 1 else 0) ∧
  max_per_window (allow l ip w).2 = max_per_window l.
Proof.
  unfold allow. set (l1 := admit_key (sweep l w) ip). split.
  - rewrite count_held, decide_True, N.eqb_refl by done. subst l1.
    by rewrite admit_key_held, sweep_held.
  - destruct (count_rest l1 ip w) as [-> _]. subst l1.
    by rewrite (proj1 (admit_key_max _ _)), (proj1 (sweep_max _ _)).
Qed.

(** the budget of refused joins. Let [n] refusals of an address be remembered in this minute;
    after one more the address is penalized exactly if that makes thirty or more, and the
    escalation is reported exactly for the thirtieth, whatever other addresses do and whatever
    the capacity evicts. *)
Theorem penalty_exact ip now p :
  max_per_window (limiter p) = JOIN_REFUSALS_PER_MINUTE →
  let n := held (limiter p) ip (now / JOIN_REFUSAL_WINDOW_SECS) in
  let '(escalated, p') := note_definitive_refusal ip now p in
  (penalized ip now p = true ↔ 30 <= n) ∧ (penalized ip now p' = true ↔ 30 <= n + 1) ∧
  (escalated = true ↔ n + 1 = 30) ∧
  max_per_window (limiter p') = JOIN_REFUSALS_PER_MINUTE.
Proof.
  intros M n. unfold note_definitive_refusal, penalized.
  destruct (allow_held (limiter p) ip (now / JOIN_REFUSAL_WINDOW_SECS)) as [A B].
  rewrite allow_verdict in A. fold n in A. cbn [limiter].
  rewrite !over_limit_held by (rewrite ?B, M; done). rewrite B, M, A in *.
  unfold JOIN_REFUSALS_PER_MINUTE in *. fold n.
  destruct (N.ltb_spec n 30), (N.leb_spec 30 n); try lia;
    destruct (N.leb_spec 30 (n + 1)), (N.leb_spec 30 (n + 0)); try lia; cbn [andb negb];
    split_and!; try done; split; (done || lia).
Qed.

Definition refused_n (n : nat) : JoinRefusalPenalty :=
  Nat.iter n (λ p, (note_definitive_refusal (Ip4 (V4 1 2 3 4)) 100 p).2) new.

Lemma penalty_exact_witness :
  (note_definitive_refusal (Ip4 (V4 1 2 3 4)) 100 (refused_n 29)).1 = true ∧
  penalized (Ip4 (V4 1 2 3 4)) 100 (refused_n 29) = false.
Proof.
  pose proof (penalty_exact (Ip4 (V4 1 2 3 4)) 100 (refused_n 29) ltac:(by vm_compute)) as P.
  assert (E : held (limiter (refused_n 29)) (Ip4 (V4 1 2 3 4)) (100 / JOIN_REFUSAL_WINDOW_SECS) = 29)
    by by vm_compute.
  cbv zeta in P. rewrite E in P.
  destruct (note_definitive_refusal (Ip4 (V4 1 2 3 4)) 100 (refused_n 29)) as [e p'].
  destruct P as (P0 & _ & P1 & _). split; [by apply P1|].
  apply not_true_iff_false. intros X. apply P0 in X. lia.
Defined.

End JoinRefusalPenalty.

(** ** Fingerprints seen at the front door *)

Module Ja4Observations.

(** src/crates/edge/src/state.rs:387-387 [JA4_MAX_TRACKED_FINGERPRINTS] *)
Definition JA4_MAX_TRACKED_FINGERPRINTS : nat := 256.

(** src/crates/edge/src/state.rs:403-419 [Ja4Observations]: with its table. *)
Record Ja4Observations := {
  counts : gmap bytes N;
  order : list bytes;
  total : N;
  evictions : N;
}.

(** src/crates/edge/src/state.rs:422-430 [Ja4Observations::new] *)
Definition new : Ja4Observations := {| counts := ∅; order := []; total := 0; evictions := 0 |}.

(** src/crates/edge/src/state.rs:442-449 [Ja4Observations::note]: pop the oldest until one was
    still counted. *)
Fixpoint evict (order : list bytes) (counts : gmap bytes N) : bool * list bytes * gmap bytes N :=
  match order with
  | [] => (false, [], counts)
  | oldest :: order' =>
    match counts !! oldest with
    | Some _ => (true, order', delete oldest counts)
    | None => evict order' counts
    end
  end.

(** src/crates/edge/src/state.rs:435-454 [Ja4Observations::note] *)
Definition note (f : bytes) (t : Ja4Observations) : Ja4Observations :=
  let total := wrap64 (total t + 1) in
  match counts t !! f with
  | Some c => {| counts := <[f := wrap64 (c + 1)]> (counts t); order := order t; total := total;
                 evictions := evictions t |}
  | None =>
    let '(evicted, order, cs) :=
      if (JA4_MAX_TRACKED_FINGERPRINTS <=? size (counts t))%nat then evict (order t) (counts t)
      else (false, order t, counts t) in
    {| counts := <[f := 1]> cs; order := order ++ [f]; total := total;
       evictions := if (evicted : bool) then wrap64 (evictions t + 1) else evictions t |}
  end.

(** src/crates/edge/src/state.rs:472-474 [Ja4Observations::tracked_fingerprints] *)
Definition tracked_fingerprints (t : Ja4Observations) : nat := size (counts t).

(** How often [f] was noted. *)
Definition noted (f : bytes) (l : list bytes) : nat := length (filter (λ g, g = f) l).

(** The table after the notes [l]: the queue holds the counted fingerprints, each once; a count
    is at most the number of notes, and exact while nothing was evicted. *)
Definition table_ok (l : list bytes) (t : Ja4Observations) : Prop :=
  NoDup (order t) ∧ (∀ f, f ∈ order t ↔ is_Some (counts t !! f)) ∧
  (size (counts t) <= JA4_MAX_TRACKED_FINGERPRINTS)%nat ∧
  (∀ f c, counts t !! f = Some c → 0 < c <= N.of_nat (noted f l)) ∧
  total t = N.of_nat (length l) ∧
  N.of_nat (size (counts t)) + evictions t <= N.of_nat (length l) ∧
  (evictions t = 0 → ∀ f, default 0 (counts t !! f) = N.of_nat (noted f l)).

Lemma noted_snoc f g l : noted f (l ++ [g]) = (noted f l + if decide (g = f) then 1 else 0)%nat.
Proof.
  unfold noted. rewrite filter_app, length_app. f_equal.
  destruct (decide (g = f)); [by rewrite filter_cons_True|by rewrite filter_cons_False].
Qed.

Lemma noted_length f l : (noted f l <= length l)%nat.
Proof. apply length_filter. Qed.

Lemma note_ok f l t :
  N.of_nat (length l) + 1 < U64 → table_ok l t → table_ok (l ++ [f]) (note f t).
Proof.
  intros L (Nd & Dom & Sz & Le & Tot & Ev & Ex). unfold note.
  assert (Lt : N.of_nat (length (l ++ [f])) = N.of_nat (length l) + 1) by (rewrite length_app; cbn; lia).
  assert (W : wrap64 (total t + 1) = N.of_nat (length (l ++ [f])))
    by (rewrite Tot, Lt; apply N.mod_small; done).
  assert (G : ∀ g, (noted g l <= noted g (l ++ [f]))%nat) by (intros g; rewrite noted_snoc; lia).
  destruct (counts t !! f) as [c|] eqn:C.
  - assert (Wc : wrap64 (c + 1) = c + 1).
    { apply N.mod_small. pose proof (Le _ _ C). pose proof (noted_length f l). unfold U64 in *. lia. }
    rewrite Wc, W. split_and!; cbn [counts order total evictions]; [done| | | |done| |].
    + intros g. rewrite Dom. destruct (decide (g = f)) as [->|N]; [rewrite lookup_insert_eq, C; by split; eauto|].
      by rewrite lookup_insert_ne.
    + by rewrite map_size_insert_Some by eauto.
    + intros g d. destruct (decide (g = f)) as [->|N].
      * rewrite lookup_insert_eq. intros [= <-]. pose proof (Le _ _ C). rewrite noted_snoc, decide_True by done. lia.
      * rewrite lookup_insert_ne by done. intros D. pose proof (Le _ _ D). pose proof (G g). lia.
    + rewrite map_size_insert_Some by eauto. lia.
    + intros E g. specialize (Ex E g). rewrite noted_snoc. destruct (decide (f = g)) as [<-|N].
      * rewrite lookup_insert_eq. rewrite C in Ex. cbn in *. lia.
      * rewrite lookup_insert_ne by done. lia.
  - rewrite W. assert (Nf : f ∉ order t) by (rewrite Dom, C; by intros []).
    destruct (Nat.leb_spec JA4_MAX_TRACKED_FINGERPRINTS (size (counts t))) as [Full|Room].
    + destruct (order t) as [|o ord] eqn:O.
      { exfalso. unfold JA4_MAX_TRACKED_FINGERPRINTS in Full. assert (counts t = ∅) as Z.
        { apply map_empty. intros g. destruct (counts t !! g) eqn:Q; [|done].
          assert (g ∈ ([] : list bytes)) as X by (apply Dom; eauto). by apply elem_of_nil in X. }
        rewrite Z, map_size_empty in Full. lia. }
      destruct (proj1 (Dom o) ltac:(by left)) as [co Co]. cbn [evict]. rewrite Co.
      apply NoDup_cons in Nd as [No Nd]. apply not_elem_of_cons in Nf as [Nfo Nf].
      assert (Dc : delete o (counts t) !! f = None) by (rewrite lookup_delete_ne by done; done).
      assert (Sd : size (delete o (counts t)) = pred (size (counts t)))
        by (rewrite map_size_delete, Co; done).
      assert (We : wrap64 (evictions t + 1) = evictions t + 1) by (apply N.mod_small; lia).
      split_and!; cbn [counts order total evictions].
      * apply NoDup_app. split_and!; [done| |apply NoDup_singleton].
        intros x X ->%list_elem_of_singleton. done.
      * intros g. rewrite elem_of_app, list_elem_of_singleton.
        destruct (decide (g = f)) as [->|Ng]; [rewrite lookup_insert_eq; naive_solver|].
        rewrite lookup_insert_ne by done. destruct (decide (g = o)) as [->|Nog].
        { rewrite lookup_delete_eq. split; [naive_solver|by intros []]. }
        rewrite lookup_delete_ne by done. rewrite <- Dom, elem_of_cons. naive_solver.
      * rewrite map_size_insert_None by done. rewrite Sd. unfold JA4_MAX_TRACKED_FINGERPRINTS in *. lia.
      * intros g d. destruct (decide (g = f)) as [->|Ng].
        { rewrite lookup_insert_eq. intros [= <-]. rewrite noted_snoc, decide_True by done. lia. }
        rewrite lookup_insert_ne by done. intros [_ D]%lookup_delete_Some.
        pose proof (Le _ _ D). pose proof (G g). lia.
      * done.
      * rewrite map_size_insert_None, Sd, We by done. unfold JA4_MAX_TRACKED_FINGERPRINTS in *. lia.
      * rewrite We. lia.
    + split_and!; cbn [counts order total evictions].
      * apply NoDup_app. split_and!; [done| |apply NoDup_singleton].
        intros x X ->%list_elem_of_singleton. done.
      * intros g. rewrite elem_of_app, list_elem_of_singleton, Dom.
        destruct (decide (g = f)) as [->|Ng]; [rewrite lookup_insert_eq; naive_solver|].
        rewrite lookup_insert_ne by done. naive_solver.
      * rewrite map_size_insert_None by done. lia.
      * intros g d. destruct (decide (g = f)) as [->|Ng].
        { rewrite lookup_insert_eq. intros [= <-]. rewrite noted_snoc, decide_True by done. lia. }
        rewrite lookup_insert_ne by done. intros D. pose proof (Le _ _ D). pose proof (G g). lia.
      * done.
      * rewrite map_size_insert_None by done. lia.
      * intros E g. specialize (Ex E g). rewrite noted_snoc. destruct (decide (f = g)) as [<-|N].
        { rewrite lookup_insert_eq. rewrite C in Ex. cbn in *. lia. }
        rewrite lookup_insert_ne by done. lia.
Qed.

(** the table of fingerprints is bounded and honest: after any notes it holds at most 256
    fingerprints, its queue lists exactly those, no count exceeds the number of notes, and
    the counts are exact as long as nothing was evicted. *)
Theorem ja4_exact l :
  N.of_nat (length l) < U64 → table_ok l (foldl (λ t f, note f t) new l).
Proof.
  intros L. induction l as [|f l IH] using rev_ind.
  - unfold table_ok. cbn [foldl new counts order total evictions]. rewrite map_size_empty.
    split_and!; [by apply NoDup_nil_2| |unfold JA4_MAX_TRACKED_FINGERPRINTS; lia| |done|done|].
    + intros f. rewrite lookup_empty, elem_of_nil. by split; [|intros []].
    + intros f c. by rewrite lookup_empty.
    + intros _ f. by rewrite lookup_empty.
  - rewrite foldl_snoc. rewrite length_app in L. cbn in L. apply note_ok; [lia|]. apply IH. lia.
Qed.

Lemma ja4_exact_witness :
  table_ok [lit "a"; lit "b"; lit "a"] (foldl (λ t f, note f t) new [lit "a"; lit "b"; lit "a"]) ∧
  counts (foldl (λ t f, note f t) new [lit "a"; lit "b"; lit "a"]) !! lit "a" = Some 2.
Proof. split; [apply ja4_exact; by vm_compute|by vm_compute]. Defined.

End Ja4Observations.
