(* ===== verification/EdgeState.v ===== *)
(** * The routing state of the edge

    [EdgeState] of [edge/src/state.rs]: which agents are registered for a tunnel, the parked
    fallback connections, hostname routes, advertised endpoints, the revocation list and the
    key pins. A method that holds [registration_lock], or a single map's lock, is one step; a
    handle of an agent connection is an abstract value, a parked connection the number of its
    channel. The tunnel history is the one of a state without one installed. *)

From S2P Require Import Prelude RustStd Maps Codec Limits Wire AccessWindow Reach FrontDoor.

Module EdgeState.
Import Address.

(** ** Keys of agents *)

(** src/crates/edge/src/state.rs:498-507 [AgentKeyMode] *)
Inductive AgentKeyMode := Log | Enforce.

(** src/crates/edge/src/state.rs:523-557 [AgentKeyReason] *)
Inductive AgentKeyReason :=
| Unproven | UnprovenBesideProven | SecondUnproven | UnprovenTcp | ForeignKey | StaleBinding
| BindingToken | BadBinding | BadProof | Expired | Timeout | Oversize | EvictedOnEnforce
| ReasonRevoked.

#[global] Instance mode_eq_dec : EqDecision AgentKeyMode.
Proof. solve_decision. Defined.
#[global] Instance reason_eq_dec : EqDecision AgentKeyReason.
Proof. solve_decision. Defined.

(** The reasons, numbered. *)
Definition reasons : list AgentKeyReason :=
  [Unproven; UnprovenBesideProven; SecondUnproven; UnprovenTcp; ForeignKey; StaleBinding;
   BindingToken; BadBinding; BadProof; Expired; Timeout; Oversize; EvictedOnEnforce; ReasonRevoked].
Definition reason_code (r : AgentKeyReason) : nat :=
  match r with
  | Unproven => 0 | UnprovenBesideProven => 1 | SecondUnproven => 2 | UnprovenTcp => 3
  | ForeignKey => 4 | StaleBinding => 5 | BindingToken => 6 | BadBinding => 7 | BadProof => 8
  | Expired => 9 | Timeout => 10 | Oversize => 11 | EvictedOnEnforce => 12 | ReasonRevoked => 13
  end%nat.

#[global] Instance reason_countable : Countable AgentKeyReason.
Proof. refine (inj_countable reason_code (λ n, reasons !! n) _). by intros []. Defined.

(** src/crates/edge/src/state.rs:690-695 [ProvenKey] *)
Record ProvenKey := { key : bytes; issued_at : N }.

(** src/crates/edge/src/state.rs:703-706 [AgentKeyPin] *)
Record AgentKeyPin := { pin : option ProvenKey; proven_ids : gset N }.

Definition no_pin : AgentKeyPin := {| pin := None; proven_ids := ∅ |}.

(** src/crates/edge/src/state.rs:710-719 [PinOutcome] *)
Inductive PinOutcome := Accepted | Repinned | Rejected (reason : AgentKeyReason).

(** src/crates/edge/src/state.rs:675-680 [AgentKeyTunnelCounts] *)
Record AgentKeyTunnelCounts := { by_reason : gmap AgentKeyReason N; proofs_admitted : N }.

Definition no_counts : AgentKeyTunnelCounts := {| by_reason := ∅; proofs_admitted := 0 |}.

(** src/crates/edge/src/state.rs:761-766 [AgentKeyPolicy] *)
Record AgentKeyPolicy := {
  default_mode : AgentKeyMode;
  enforce_set : gset bytes;
  enforce_file : option bytes;
  issuers : list bytes;
}.

(** src/crates/edge/src/state.rs:769-776 [AgentKeyPolicy::default] *)
Definition log_policy : AgentKeyPolicy :=
  {| default_mode := Log; enforce_set := ∅; enforce_file := None; issuers := [] |}.

(** src/crates/edge/src/state.rs:781-787 [AgentKeyPolicy::mode_for] *)
Definition mode_for (p : AgentKeyPolicy) (token_hash : bytes) : AgentKeyMode :=
  if bool_decide (default_mode p = Enforce) || bool_decide (token_hash ∈ enforce_set p)
  then Enforce else Log.

(** src/crates/edge/src/state.rs:642-647 [agent_key_only_tolerated] *)
Definition agent_key_only_tolerated (c : AgentKeyTunnelCounts) : bool :=
  forallb (λ rc, (rc.2 =? 0) || bool_decide (rc.1 = SecondUnproven)) (map_to_list (by_reason c)).

(** src/crates/edge/src/state.rs:651-651 [AGENT_KEY_MAX_TRACKED] *)
Definition AGENT_KEY_MAX_TRACKED : nat := 1024.
(** src/crates/edge/src/state.rs:654-654 [AGENT_KEY_LOG_WINDOW_SECS] *)
Definition AGENT_KEY_LOG_WINDOW_SECS : N := 300.
(** src/crates/edge/src/state.rs:657-657 [AGENT_KEY_LOG_TOP_N] *)
Definition AGENT_KEY_LOG_TOP_N : nat := 5.
(** src/crates/edge/src/state.rs:208-208 [DIRECT_ENDPOINTS_MAX] *)
Definition DIRECT_ENDPOINTS_MAX : nat := 4096.
(** src/crates/edge/src/state.rs:209-209 [DIRECT_CERT_MAX_LEN] *)
Definition DIRECT_CERT_MAX_LEN : N := 8 * 1024.
(** src/crates/edge/src/state.rs:210-210 [DIRECT_EVICTION_SAMPLE] *)
Definition DIRECT_EVICTION_SAMPLE : nat := 64.
(** src/crates/edge/src/state.rs:3129-3129 [TCP_FALLBACK_RESOLVABLE_GRACE_SECS] *)
Definition TCP_FALLBACK_RESOLVABLE_GRACE_SECS : N := 2.

(** src/crates/edge/src/state.rs:176-183 [HostBindRefusal] *)
Inductive HostBindRefusal := MalformedHostname | Revoked | BoundToDifferentToken.

(** src/crates/edge/src/state.rs:112-124 [RelayKind] *)
Inductive RelayKind := Browser | DataPlane | TcpFallback.

(** src/crates/edge/src/state.rs:131-141 [TcpDeliverWaitOutcome] *)
Inductive TcpDeliverWaitOutcome := Delivered | TimedOut | Raced.

(** src/crates/edge/src/state.rs:3166-3179 [saturating_dec] *)
Definition saturating_dec (gauge : N) : N := gauge - 1.

(** [gauge.fetch_sub(n)]. *)
Definition fetch_sub (gauge n : N) : N := wrap64 (gauge + U64 - wrap64 n).

(** The number of items in a map of lists. *)
Definition count_all {A} (q : gmap bytes (list A)) : nat :=
  map_fold (λ _ v n, length v + n)%nat 0%nat q.

(** The keys of a map or a set, iterated in an order of which [order] is a prefix: every order of
    them is one of these. *)
Definition in_order (order : list bytes) (ks : gset bytes) : list bytes :=
  let l := filter (λ k, k ∈ ks) (remove_dups order) in
  l ++ filter (λ k, k ∉ l) (elements ks).

(** ** The state *)

Section state.
Context {H : Type}.

(** src/crates/edge/src/state.rs:793-1153 [EdgeState]: the agents of each tunnel with the ids of
    their registrations, the next id, and the counters kept in step. *)
Record Registry := {
  agents : gmap bytes (list (N * H));
  next_reg : N;
  active_tunnels_gauge : N;
  total_registrations_gauge : N;
  registrations : N;
}.

(** src/crates/edge/src/state.rs:793-1153 [EdgeState]: the hostname routes. *)
Record Routing := {
  hosts : gmap bytes bytes;
  hosts_by_token : gmap bytes (gset bytes);
  gelb_hosts : gset bytes;
  host_auth : option (gmap bytes bytes);
}.

(** src/crates/edge/src/state.rs:793-1153 [EdgeState]: the parked fallback connections; a slot
    is the channel to the one that waits. *)
Record Fallback := {
  tcp_agents : gmap bytes (list N);
  next_slot : N;
  tcp_parked_gauge : N;
  tcp_parks : N;
  tcp_deliveries : N;
  tcp_reaped : N;
}.

(** src/crates/edge/src/state.rs:793-1153 [EdgeState]: the key pins, the policy and the counts
    of violations. *)
Record Keys := {
  agent_pins : gmap bytes AgentKeyPin;
  agent_key_policy : AgentKeyPolicy;
  agent_key_counts : gmap bytes AgentKeyTunnelCounts;
  agent_key_untracked : N;
  agent_key_log_throttle : LogThrottle.WindowLogThrottle (K := bytes * AgentKeyReason);
  agent_key_log_lines : N;
}.

(** src/crates/edge/src/state.rs:793-1153 [EdgeState]: what was relayed and when a tunnel was
    seen. *)
Record Traffic := {
  tunnel_bytes : gmap bytes (N * N);
  connected_since : gmap bytes N;
  last_seen : gmap bytes N;
  relays : N;
  relay_bytes : N;
  relay_by_kind : N * N * N;
}.

(** src/crates/edge/src/state.rs:793-1153 [EdgeState]: observed and advertised endpoints. *)
Record Endpoints := {
  candidates : gmap bytes SocketAddr;
  direct : gmap bytes (SocketAddr * bytes);
  direct_eviction_cursor : N;
}.

(** src/crates/edge/src/state.rs:793-1153 [EdgeState]: revocations, policies and limits. *)
Record Gate := {
  revoked : gset bytes;
  access_policies : gmap bytes AccessWindow.AccessPolicy;
  access_window_refused : N;
  rendezvous_limiter : option (RateLimit.KeyedRateLimiter bytes);
  revocation_tick : N;
  admin_token : option bytes;
}.

(** src/crates/edge/src/state.rs:793-1153 [EdgeState] *)
Record EdgeState := {
  registry : Registry; routing : Routing; fallback : Fallback; keys : Keys;
  traffic : Traffic; endpoints : Endpoints; gate : Gate;
}.

Definition with_registry (r : Registry) (s : EdgeState) : EdgeState :=
  {| registry := r; routing := routing s; fallback := fallback s; keys := keys s;
     traffic := traffic s; endpoints := endpoints s; gate := gate s |}.
Definition with_routing (r : Routing) (s : EdgeState) : EdgeState :=
  {| registry := registry s; routing := r; fallback := fallback s; keys := keys s;
     traffic := traffic s; endpoints := endpoints s; gate := gate s |}.
Definition with_fallback (f : Fallback) (s : EdgeState) : EdgeState :=
  {| registry := registry s; routing := routing s; fallback := f; keys := keys s;
     traffic := traffic s; endpoints := endpoints s; gate := gate s |}.
Definition with_keys (k : Keys) (s : EdgeState) : EdgeState :=
  {| registry := registry s; routing := routing s; fallback := fallback s; keys := k;
     traffic := traffic s; endpoints := endpoints s; gate := gate s |}.
Definition with_traffic (t : Traffic) (s : EdgeState) : EdgeState :=
  {| registry := registry s; routing := routing s; fallback := fallback s; keys := keys s;
     traffic := t; endpoints := endpoints s; gate := gate s |}.
Definition with_endpoints (e : Endpoints) (s : EdgeState) : EdgeState :=
  {| registry := registry s; routing := routing s; fallback := fallback s; keys := keys s;
     traffic := traffic s; endpoints := e; gate := gate s |}.
Definition with_gate (g : Gate) (s : EdgeState) : EdgeState :=
  {| registry := registry s; routing := routing s; fallback := fallback s; keys := keys s;
     traffic := traffic s; endpoints := endpoints s; gate := g |}.

(** src/crates/edge/src/state.rs:1156-1221 [EdgeState::new] *)
Definition new : EdgeState := {|
  registry := {| agents := ∅; next_reg := 1; active_tunnels_gauge := 0;
                 total_registrations_gauge := 0; registrations := 0 |};
  routing := {| hosts := ∅; hosts_by_token := ∅; gelb_hosts := ∅; host_auth := None |};
  fallback := {| tcp_agents := ∅; next_slot := 0; tcp_parked_gauge := 0; tcp_parks := 0;
                 tcp_deliveries := 0; tcp_reaped := 0 |};
  keys := {| agent_pins := ∅; agent_key_policy := log_policy; agent_key_counts := ∅;
             agent_key_untracked := 0;
             agent_key_log_throttle := LogThrottle.new AGENT_KEY_LOG_WINDOW_SECS
               AGENT_KEY_MAX_TRACKED AGENT_KEY_LOG_TOP_N;
             agent_key_log_lines := 0 |};
  traffic := {| tunnel_bytes := ∅; connected_since := ∅; last_seen := ∅; relays := 0;
                relay_bytes := 0; relay_by_kind := (0, 0, 0) |};
  endpoints := {| candidates := ∅; direct := ∅; direct_eviction_cursor := 0 |};
  gate := {| revoked := ∅; access_policies := ∅; access_window_refused := 0;
             rendezvous_limiter := None; revocation_tick := 0; admin_token := None |};
|}.

(** ** Questions *)

(** The registrations of a tunnel. *)
Definition agents_of (t : bytes) (s : EdgeState) : list (N * H) := default [] (agents (registry s) !! t).
(** The parked slots of a tunnel. *)
Definition slots_of (t : bytes) (s : EdgeState) : list N := default [] (tcp_agents (fallback s) !! t).

(** src/crates/edge/src/state.rs:2622-2624 [EdgeState::is_revoked] *)
Definition is_revoked (t : bytes) (s : EdgeState) : bool := bool_decide (t ∈ revoked (gate s)).

(** src/crates/edge/src/state.rs:3109-3114 [EdgeState::is_known] *)
Definition is_known (t : bytes) (s : EdgeState) : bool :=
  match agents (registry s) !! t with Some (_ :: _) => true | _ => false end.

(** src/crates/edge/src/state.rs:1993-1995 [EdgeState::has_tcp_agent] *)
Definition has_tcp_agent (t : bytes) (s : EdgeState) : bool :=
  match tcp_agents (fallback s) !! t with Some (_ :: _) => true | _ => false end.

(** src/crates/edge/src/state.rs:2444-2446 [EdgeState::registration_count] *)
Definition registration_count (t : bytes) (s : EdgeState) : nat :=
  match agents (registry s) !! t with Some v => length v | None => 0%nat end.

(** src/crates/edge/src/state.rs:2455-2457 [EdgeState::tunnel_status] *)
Definition tunnel_status (t : bytes) (s : EdgeState) : bool := (0 <? registration_count t s)%nat.

(** src/crates/edge/src/state.rs:2427-2432 [EdgeState::route] *)
Definition route (t : bytes) (s : EdgeState) : option H :=
  v ← agents (registry s) !! t; snd <$> last v.

(** src/crates/edge/src/state.rs:2437-2441 [EdgeState::routes] *)
Definition routes (t : bytes) (s : EdgeState) : list H :=
  match agents (registry s) !! t with Some v => (rev v).*2 | None => [] end.

(** src/crates/edge/src/state.rs:2467-2469 [EdgeState::active_tunnels] *)
Definition active_tunnels (s : EdgeState) : N := active_tunnels_gauge (registry s).

(** src/crates/edge/src/state.rs:2476-2478 [EdgeState::total_registrations] *)
Definition total_registrations (s : EdgeState) : N := total_registrations_gauge (registry s).

(** src/crates/edge/src/state.rs:2419-2421 [EdgeState::candidate] *)
Definition candidate (t : bytes) (s : EdgeState) : option SocketAddr := candidates (endpoints s) !! t.

(** src/crates/edge/src/state.rs:2181-2186 [EdgeState::direct_endpoint] *)
Definition direct_endpoint (t : bytes) (s : EdgeState) : option (SocketAddr * bytes) :=
  if is_revoked t s then None else direct (endpoints s) !! t.

(** src/crates/edge/src/state.rs:1887-1889 [EdgeState::tcp_parked] *)
Definition tcp_parked (s : EdgeState) : N := tcp_parked_gauge (fallback s).

(** src/crates/edge/src/state.rs:1897-1899 [EdgeState::tcp_parked_for] *)
Definition tcp_parked_for (t : bytes) (s : EdgeState) : nat := length (slots_of t s).

(** src/crates/edge/src/state.rs:3148-3154 [EdgeState::is_resolvable] *)
Definition is_resolvable (t : bytes) (wall_now : N) (s : EdgeState) : bool :=
  is_known t s || has_tcp_agent t s ||
  match last_seen (traffic s) !! t with
  | Some seen => wall_now - seen <=? TCP_FALLBACK_RESOLVABLE_GRACE_SECS
  | None => false
  end.

(** ** Hostname routes *)

(** src/crates/edge/src/state.rs:1532-1535 [EdgeState::route_host] *)
Definition route_host (host : bytes) (s : EdgeState) : option bytes :=
  k ← Hostname.normalize_hostname host; hosts (routing s) !! k.

(** src/crates/edge/src/state.rs:1231-1260 [EdgeState::register_host] *)
Definition register_host (host token : bytes) (s : EdgeState) : Result () HostBindRefusal * EdgeState :=
  match Hostname.normalize_hostname host with
  | None => (Err MalformedHostname, s)
  | Some k =>
    if is_revoked token s then (Err Revoked, s)
    else
      let r := routing s in
      let bind := {| hosts := <[k := token]> (hosts r);
                     hosts_by_token := <[token := {[k]} ∪ default ∅ (hosts_by_token r !! token)]>
                                         (hosts_by_token r);
                     gelb_hosts := gelb_hosts r; host_auth := host_auth r |} in
      match hosts r !! k with
      | Some existing => if negb (bool_decide (existing = token)) then (Err BoundToDifferentToken, s)
                         else (Ok (), with_routing bind s)
      | None => (Ok (), with_routing bind s)
      end
  end.

(** src/crates/edge/src/state.rs:1272-1287 [EdgeState::clear_hosts_for] *)
Definition clear_hosts_for (token : bytes) (s : EdgeState) : EdgeState :=
  let r := routing s in
  match hosts_by_token r !! token with
  | None => s
  | Some owned =>
    with_routing {| hosts := filter (λ kv, kv.1 ∉ owned) (hosts r);
                    hosts_by_token := delete token (hosts_by_token r);
                    gelb_hosts := gelb_hosts r ∖ owned; host_auth := host_auth r |} s
  end.

Definition set_host_auth (a : option (gmap bytes bytes)) (s : EdgeState) : EdgeState :=
  let r := routing s in
  with_routing {| hosts := hosts r; hosts_by_token := hosts_by_token r; gelb_hosts := gelb_hosts r;
                  host_auth := a |} s.

(** src/crates/edge/src/state.rs:1306-1311 [EdgeState::require_host_auth] *)
Definition require_host_auth (s : EdgeState) : EdgeState :=
  match host_auth (routing s) with None => set_host_auth (Some ∅) s | Some _ => s end.

(** src/crates/edge/src/state.rs:1316-1323 [EdgeState::authorize_host] *)
Definition authorize_host (host token : bytes) (s : EdgeState) : EdgeState :=
  match Hostname.normalize_hostname host with
  | Some k => set_host_auth (Some (<[k := token]> (default ∅ (host_auth (routing s))))) s
  | None => s
  end.

(** src/crates/edge/src/state.rs:1331-1337 [EdgeState::unauthorize_host] *)
Definition unauthorize_host (host : bytes) (s : EdgeState) : EdgeState :=
  match Hostname.normalize_hostname host with
  | Some k => set_host_auth (delete k <$> host_auth (routing s)) s
  | None => s
  end.

(** src/crates/edge/src/state.rs:1348-1352 [EdgeState::clear_host_auth_for] *)
Definition clear_host_auth_for (token : bytes) (s : EdgeState) : EdgeState :=
  set_host_auth (filter (λ kv, kv.2 ≠ token) <$> host_auth (routing s)) s.

(** src/crates/edge/src/state.rs:1357-1365 [EdgeState::host_bind_allowed] *)
Definition host_bind_allowed (host token : bytes) (s : EdgeState) : bool :=
  match Hostname.normalize_hostname host with
  | None => false
  | Some k =>
    match host_auth (routing s) with
    | None => true
    | Some m => bool_decide (m !! k = Some token)
    end
  end.

(** src/crates/edge/src/state.rs:1374-1377 [EdgeState::authorized_token_for] *)
Definition authorized_token_for (host : bytes) (s : EdgeState) : option bytes :=
  k ← Hostname.normalize_hostname host; m ← host_auth (routing s); m !! k.

(** src/crates/edge/src/state.rs:1544-1554 [EdgeState::set_cert_tier] *)
Definition set_cert_tier (host : bytes) (gelb : bool) (s : EdgeState) : EdgeState :=
  match Hostname.normalize_hostname host with
  | None => s
  | Some k =>
    let r := routing s in
    with_routing {| hosts := hosts r; hosts_by_token := hosts_by_token r;
                    gelb_hosts := if gelb then {[k]} ∪ gelb_hosts r else gelb_hosts r ∖ {[k]};
                    host_auth := host_auth r |} s
  end.

(** src/crates/edge/src/state.rs:1561-1566 [EdgeState::is_gelb] *)
Definition is_gelb (host : bytes) (s : EdgeState) : bool :=
  match Hostname.normalize_hostname host with
  | Some k => bool_decide (k ∈ gelb_hosts (routing s))
  | None => false
  end.

(** ** Access policies and limits *)

Definition set_policies (p : gmap bytes AccessWindow.AccessPolicy) (s : EdgeState) : EdgeState :=
  let g := gate s in
  with_gate {| revoked := revoked g; access_policies := p;
               access_window_refused := access_window_refused g;
               rendezvous_limiter := rendezvous_limiter g; revocation_tick := revocation_tick g;
               admin_token := admin_token g |} s.

(** src/crates/edge/src/state.rs:1572-1582 [EdgeState::set_access_policy] *)
Definition set_access_policy (token : bytes) (policy : option AccessWindow.AccessPolicy)
    (s : EdgeState) : EdgeState :=
  match policy with
  | Some p => if AccessWindow.is_unrestricted p
              then set_policies (delete token (access_policies (gate s))) s
              else set_policies (<[token := p]> (access_policies (gate s))) s
  | None => set_policies (delete token (access_policies (gate s))) s
  end.

(** src/crates/edge/src/state.rs:1593-1598 [EdgeState::access_window_open] *)
Definition access_window_open (token : bytes) (now_unix : Z) (s : EdgeState) : bool :=
  match access_policies (gate s) !! token with
  | Some p => AccessWindow.is_open p now_unix
  | None => true
  end.

Definition set_limiter (l : option (RateLimit.KeyedRateLimiter bytes)) (s : EdgeState) : EdgeState :=
  let g := gate s in
  with_gate {| revoked := revoked g; access_policies := access_policies g;
               access_window_refused := access_window_refused g; rendezvous_limiter := l;
               revocation_tick := revocation_tick g; admin_token := admin_token g |} s.

(** src/crates/edge/src/state.rs:1381-1383 [EdgeState::set_rendezvous_limit] *)
Definition set_rendezvous_limit (max_per_window : N) (s : EdgeState) : EdgeState :=
  set_limiter (Some (RateLimit.new max_per_window)) s.

(** src/crates/edge/src/state.rs:1401-1406 [EdgeState::rendezvous_allowed] *)
Definition rendezvous_allowed (token : bytes) (window : N) (s : EdgeState) : bool * EdgeState :=
  match rendezvous_limiter (gate s) with
  | None => (true, s)
  | Some l => let '(ok, l) := RateLimit.allow l token window in (ok, set_limiter (Some l) s)
  end.

(** src/crates/edge/src/state.rs:2656-2661 [EdgeState::admin_revoke_ok] *)
Definition admin_revoke_ok (auth : bytes) (s : EdgeState) : bool :=
  match admin_token (gate s) with Some expected => Ct.eq auth expected | None => false end.

(** ** Counting key violations *)

Context (sha256 : bytes → bytes).

(** src/crates/edge/src/state.rs:609-612 [agent_key_token_hash] *)
Definition agent_key_token_hash (token : bytes) : bytes := sha256 token.

Definition set_counts (c : gmap bytes AgentKeyTunnelCounts) (untracked : N) (s : EdgeState) : EdgeState :=
  let k := keys s in
  with_keys {| agent_pins := agent_pins k; agent_key_policy := agent_key_policy k;
               agent_key_counts := c; agent_key_untracked := untracked;
               agent_key_log_throttle := agent_key_log_throttle k;
               agent_key_log_lines := agent_key_log_lines k |} s.

(** The counters are full and the tunnel is not in them. *)
Definition untracked_tunnel (hash : bytes) (s : EdgeState) : bool :=
  (AGENT_KEY_MAX_TRACKED <=? size (agent_key_counts (keys s)))%nat &&
  bool_decide (agent_key_counts (keys s) !! hash = None).

(** src/crates/edge/src/state.rs:1680-1713 [EdgeState::note_agent_key_violation]: the text of the
    log line is left out. *)
Definition note_agent_key_violation (token : bytes) (reason : AgentKeyReason) (wall_now : N)
    (s : EdgeState) : EdgeState :=
  let hash := agent_key_token_hash token in
  let cs := agent_key_counts (keys s) in
  let s :=
    if untracked_tunnel hash s then set_counts cs (wrap64 (agent_key_untracked (keys s) + 1)) s
    else
      let entry := default no_counts (cs !! hash) in
      set_counts (<[hash := {| by_reason := <[reason := saturating_add64
                                  (default 0 (by_reason entry !! reason)) 1]> (by_reason entry);
                               proofs_admitted := proofs_admitted entry |}]> cs)
                 (agent_key_untracked (keys s)) s in
  let k := keys s in
  let '(decision, throttle) := LogThrottle.note (agent_key_log_throttle k) wall_now (hash, reason) in
  with_keys {| agent_pins := agent_pins k; agent_key_policy := agent_key_policy k;
               agent_key_counts := agent_key_counts k; agent_key_untracked := agent_key_untracked k;
               agent_key_log_throttle := throttle;
               agent_key_log_lines := match decision with
                                      | LogThrottle.LogFull => wrap64 (agent_key_log_lines k + 1)
                                      | LogThrottle.Suppress => agent_key_log_lines k
                                      end |} s.

(** src/crates/edge/src/state.rs:1718-1727 [EdgeState::note_agent_key_proven] *)
Definition note_agent_key_proven (token : bytes) (s : EdgeState) : EdgeState :=
  let hash := agent_key_token_hash token in
  let cs := agent_key_counts (keys s) in
  if untracked_tunnel hash s then set_counts cs (wrap64 (agent_key_untracked (keys s) + 1)) s
  else
    let entry := default no_counts (cs !! hash) in
    set_counts (<[hash := {| by_reason := by_reason entry;
                             proofs_admitted := saturating_add64 (proofs_admitted entry) 1 |}]> cs)
               (agent_key_untracked (keys s)) s.

(** src/crates/edge/src/state.rs:1730-1736 [EdgeState::agent_key_violations_for] *)
Definition agent_key_violations_for (hash : bytes) (reason : AgentKeyReason) (s : EdgeState) : N :=
  match agent_key_counts (keys s) !! hash with
  | Some c => default 0 (by_reason c !! reason)
  | None => 0
  end.

(** src/crates/edge/src/state.rs:1794-1800 [EdgeState::agent_key_ready_for_enforce] *)
Definition agent_key_ready_for_enforce (hash : bytes) (s : EdgeState) : bool :=
  match agent_key_counts (keys s) !! hash with
  | None => false
  | Some c => (0 <? proofs_admitted c) && agent_key_only_tolerated c
  end.

(** ** Traffic *)

Definition set_traffic_times (connected seen : gmap bytes N) (s : EdgeState) : EdgeState :=
  let t := traffic s in
  with_traffic {| tunnel_bytes := tunnel_bytes t; connected_since := connected; last_seen := seen;
                  relays := relays t; relay_bytes := relay_bytes t;
                  relay_by_kind := relay_by_kind t |} s.

(** src/crates/edge/src/state.rs:2236-2245 [EdgeState::note_connected] *)
Definition note_connected (token : bytes) (now : N) (s : EdgeState) : EdgeState :=
  let t := traffic s in
  set_traffic_times (<[token := default now (connected_since t !! token)]> (connected_since t))
    (<[token := now]> (last_seen t)) s.

(** [connected_since.remove(token)] *)
Definition disconnected (token : bytes) (s : EdgeState) : EdgeState :=
  set_traffic_times (delete token (connected_since (traffic s))) (last_seen (traffic s)) s.

(** src/crates/edge/src/state.rs:1616-1634 [EdgeState::note_relay] *)
Definition note_relay (token : bytes) (client_to_agent agent_to_client : N) (kind : RelayKind)
    (wall_now : N) (s : EdgeState) : EdgeState :=
  let t := traffic s in
  let total := saturating_add64 client_to_agent agent_to_client in
  let '(br, dp, tcp) := relay_by_kind t in
  let '(to_agent, to_client) := default (0, 0) (tunnel_bytes t !! token) in
  with_traffic {|
    tunnel_bytes := <[token := (wrap64 (to_agent + client_to_agent), wrap64 (to_client + agent_to_client))]>
                      (tunnel_bytes t);
    connected_since := connected_since t;
    last_seen := <[token := wall_now]> (last_seen t);
    relays := wrap64 (relays t + 1);
    relay_bytes := wrap64 (relay_bytes t + wrap64 (client_to_agent + agent_to_client));
    relay_by_kind := match kind with
                     | Browser => (wrap64 (br + total), dp, tcp)
                     | DataPlane => (br, wrap64 (dp + total), tcp)
                     | TcpFallback => (br, dp, wrap64 (tcp + total))
                     end |} s.

(** src/crates/edge/src/state.rs:2044-2061 [EdgeState::age_out_stale_history] *)
Definition age_out_stale_history (now max_age_secs : N) (s : EdgeState) : N * EdgeState :=
  let t := traffic s in
  let stale tok seen := (max_age_secs <? now - seen) && negb (is_known tok s) && negb (has_tcp_agent tok s) in
  let gone := filter (λ kv, stale kv.1 kv.2 = true) (last_seen t) in
  (N.of_nat (size gone),
   with_traffic {| tunnel_bytes := tunnel_bytes t ∖ (fst <$> ((λ x, (0, 0, x)) <$> gone));
                   connected_since := connected_since t;
                   last_seen := last_seen t ∖ gone;
                   relays := relays t; relay_bytes := relay_bytes t;
                   relay_by_kind := relay_by_kind t |} s).

(** ** Parked fallback connections *)

Definition set_slots (q : gmap bytes (list N)) (gauge deliveries reaped : N) (s : EdgeState) : EdgeState :=
  let f := fallback s in
  with_fallback {| tcp_agents := q; next_slot := next_slot f; tcp_parked_gauge := gauge;
                   tcp_parks := tcp_parks f; tcp_deliveries := deliveries; tcp_reaped := reaped |} s.

(** src/crates/edge/src/state.rs:1906-1922 [EdgeState::park_tcp_agent]: the slot's channel. *)
Definition park_tcp_agent (token : bytes) (wall_now : N) (s : EdgeState) : N * EdgeState :=
  let f := fallback s in
  let slot := next_slot f in
  let s := with_fallback {| tcp_agents := <[token := slots_of token s ++ [slot]]> (tcp_agents f);
                            next_slot := slot + 1; tcp_parked_gauge := wrap64 (tcp_parked_gauge f + 1);
                            tcp_parks := wrap64 (tcp_parks f + 1);
                            tcp_deliveries := tcp_deliveries f; tcp_reaped := tcp_reaped f |} s in
  (slot, note_connected token wall_now s).

(** src/crates/edge/src/state.rs:1943-1969 [EdgeState::deliver_to_tcp_agent]: the slot that took
    the stream; [closed] says whose receiver is gone. *)
Definition deliver_to_tcp_agent (token : bytes) (closed : N → bool) (s : EdgeState)
    : option N * EdgeState :=
  let f := fallback s in
  match tcp_agents f !! token with
  | None => (None, s)
  | Some [] => (None, s)
  | Some (tx :: queue) =>
    let q := match queue with [] => delete token (tcp_agents f) | _ => <[token := queue]> (tcp_agents f) end in
    let gauge := saturating_dec (tcp_parked_gauge f) in
    if closed tx then (None, set_slots q gauge (tcp_deliveries f) (tcp_reaped f) s)
    else (Some tx, set_slots q gauge (wrap64 (tcp_deliveries f + 1)) (tcp_reaped f) s)
  end.

(** src/crates/edge/src/state.rs:1978-1990 [EdgeState::deliver_to_tcp_agent_draining]: every round
    takes one slot, so as many rounds as there are slots, and one to see the end, are enough. *)
Fixpoint drain_slots (fuel : nat) (token : bytes) (closed : N → bool) (s : EdgeState)
    : option N * EdgeState :=
  match fuel with
  | O => (None, s)
  | S fuel' =>
    if has_tcp_agent token s then
      match deliver_to_tcp_agent token closed s with
      | (Some tx, s) => (Some tx, s)
      | (None, s) => drain_slots fuel' token closed s
      end
    else (None, s)
  end.

(** src/crates/edge/src/state.rs:1978-1990 [EdgeState::deliver_to_tcp_agent_draining] *)
Definition deliver_to_tcp_agent_draining (token : bytes) (closed : N → bool) (s : EdgeState)
    : option N * EdgeState :=
  drain_slots (S (length (slots_of token s))) token closed s.

(** src/crates/edge/src/state.rs:2009-2026 [EdgeState::reap_dead_tcp_parks] *)
Definition reap_dead_tcp_parks (closed : N → bool) (s : EdgeState) : N * EdgeState :=
  let f := fallback s in
  let live : gmap bytes (list N) := filter (λ tx, closed tx = false) <$> tcp_agents f in
  let reaped := N.of_nat (count_all (tcp_agents f) - count_all live) in
  (reaped, set_slots (filter (λ kv, kv.2 ≠ []) live) (tcp_parked_gauge f - reaped)
             (tcp_deliveries f) (wrap64 (tcp_reaped f + reaped)) s).

(** ** Advertised endpoints *)

Definition set_endpoints (cs : gmap bytes SocketAddr) (d : gmap bytes (SocketAddr * bytes)) (cursor : N)
    (s : EdgeState) : EdgeState :=
  with_endpoints {| candidates := cs; direct := d; direct_eviction_cursor := cursor |} s.

(** [keys().cycle().skip(start).take(n)] of a map iterated in the given order. *)
Definition sample (order : list bytes) (start n : nat) : list bytes :=
  omap (λ i, order !! ((start + i) mod length order)%nat) (seq 0 n).

(** src/crates/edge/src/state.rs:2135-2171 [EdgeState::advertise_direct]: the map of endpoints is
    iterated in [order]. *)
Definition advertise_direct (token : bytes) (addr : SocketAddr) (cert : bytes) (order : list bytes)
    (s : EdgeState) : bool * EdgeState :=
  let e := endpoints s in
  if is_revoked token s || (DIRECT_CERT_MAX_LEN <? blen cert) then (false, s)
  else if (size (direct e) <? DIRECT_ENDPOINTS_MAX)%nat || bool_decide (is_Some (direct e !! token))
  then (true, set_endpoints (candidates e) (<[token := (addr, cert)]> (direct e)) (direct_eviction_cursor e) s)
  else
    let cursor := wrap64 (direct_eviction_cursor e + N.of_nat DIRECT_EVICTION_SAMPLE) in
    let start := (N.to_nat (direct_eviction_cursor e mod N.of_nat (size (direct e)))) in
    match find (λ t, (registration_count t s =? 0)%nat && negb (has_tcp_agent t s))
            (sample (in_order order (dom (direct e))) start DIRECT_EVICTION_SAMPLE) with
    | None => (false, set_endpoints (candidates e) (direct e) cursor s)
    | Some victim =>
      (true, set_endpoints (candidates e) (<[token := (addr, cert)]> (delete victim (direct e))) cursor s)
    end.

(** ** Registrations *)

(** The registrations of a tunnel become [v]; an empty list leaves no entry. *)
Definition put_agents (t : bytes) (v : list (N * H)) (m : gmap bytes (list (N * H)))
    : gmap bytes (list (N * H)) :=
  match v with [] => delete t m | _ => <[t := v]> m end.

(** The gauges follow a removal of [removed] registrations that leaves [v]. *)
Definition shrink (t : bytes) (v : list (N * H)) (removed : nat) (s : EdgeState) : EdgeState :=
  let r := registry s in
  with_registry {|
    agents := put_agents t v (agents r);
    next_reg := next_reg r;
    active_tunnels_gauge :=
      match v with
      | [] => if (0 <? removed)%nat then fetch_sub (active_tunnels_gauge r) 1 else active_tunnels_gauge r
      | _ => active_tunnels_gauge r
      end;
    total_registrations_gauge := fetch_sub (total_registrations_gauge r) (N.of_nat removed);
    registrations := registrations r |} s.

(** src/crates/edge/src/state.rs:2202-2217 [EdgeState::register_locked] *)
Definition register_locked (token : bytes) (handle : H) (wall_now : N) (s : EdgeState) : N * EdgeState :=
  let r := registry s in
  let id := next_reg r in
  let entry := agents_of token s in
  let active := match entry with
                | [] => wrap64 (active_tunnels_gauge r + 1)
                | _ => active_tunnels_gauge r
                end in
  let s := with_registry {| agents := <[token := entry ++ [(id, handle)]]> (agents r);
                            next_reg := wrap64 (id + 1); active_tunnels_gauge := active;
                            total_registrations_gauge := wrap64 (total_registrations_gauge r + 1);
                            registrations := wrap64 (registrations r + 1) |} s in
  (id, note_connected token wall_now s).

(** src/crates/edge/src/state.rs:2193-2196 [EdgeState::register] *)
Definition register (token : bytes) (handle : H) (wall_now : N) (s : EdgeState) : N * EdgeState :=
  register_locked token handle wall_now s.

(** [candidates.insert(token, candidate)]. *)
Definition set_candidate (token : bytes) (c : SocketAddr) (s : EdgeState) : EdgeState :=
  let e := endpoints s in
  set_endpoints (<[token := c]> (candidates e)) (direct e) (direct_eviction_cursor e) s.

(** src/crates/edge/src/state.rs:2406-2416 [EdgeState::register_with_candidate] *)
Definition register_with_candidate (token : bytes) (handle : H) (c : SocketAddr) (wall_now : N)
    (s : EdgeState) : N * EdgeState :=
  let '(id, s) := register_locked token handle wall_now s in (id, set_candidate token c s).

(** src/crates/edge/src/state.rs:2672-2678 [EdgeState::register_unless_revoked] *)
Definition register_unless_revoked (token : bytes) (handle : H) (wall_now : N) (s : EdgeState)
    : option N * EdgeState :=
  if is_revoked token s then (None, s)
  else let '(id, s) := register_locked token handle wall_now s in (Some id, s).

(** src/crates/edge/src/state.rs:2691-2704 [EdgeState::register_with_candidate_unless_revoked] *)
Definition register_with_candidate_unless_revoked (token : bytes) (handle : H) (c : SocketAddr)
    (wall_now : N) (s : EdgeState) : option N * EdgeState :=
  if is_revoked token s then (None, s)
  else let '(id, s) := register_locked token handle wall_now s in (Some id, set_candidate token c s).

(** ** Proven registrations *)

Definition set_pins (p : gmap bytes AgentKeyPin) (s : EdgeState) : EdgeState :=
  let k := keys s in
  with_keys {| agent_pins := p; agent_key_policy := agent_key_policy k;
               agent_key_counts := agent_key_counts k; agent_key_untracked := agent_key_untracked k;
               agent_key_log_throttle := agent_key_log_throttle k;
               agent_key_log_lines := agent_key_log_lines k |} s.

Definition set_policy (p : AgentKeyPolicy) (s : EdgeState) : EdgeState :=
  let k := keys s in
  with_keys {| agent_pins := agent_pins k; agent_key_policy := p;
               agent_key_counts := agent_key_counts k; agent_key_untracked := agent_key_untracked k;
               agent_key_log_throttle := agent_key_log_throttle k;
               agent_key_log_lines := agent_key_log_lines k |} s.

(** The pin of a tunnel, and the ids of its proven registrations. *)
Definition pin_of (t : bytes) (s : EdgeState) : AgentKeyPin := default no_pin (agent_pins (keys s) !! t).
Definition proven_of (t : bytes) (s : EdgeState) : gset N := proven_ids (pin_of t s).

(** src/crates/edge/src/state.rs:2960-2963 [EdgeState::agent_key_mode_for] *)
Definition agent_key_mode_for (token : bytes) (s : EdgeState) : AgentKeyMode :=
  mode_for (agent_key_policy (keys s)) (agent_key_token_hash token).

(** src/crates/edge/src/state.rs:2945-2955 [EdgeState::agent_key_mode_locked] *)
Definition agent_key_mode_locked (token : bytes) (read_by_caller : AgentKeyMode) (s : EdgeState)
    : AgentKeyMode :=
  if bool_decide (agent_key_mode_for token s = Enforce) then Enforce else read_by_caller.

(** src/crates/edge/src/state.rs:2805-2830 [EdgeState::pin_proven_locked] *)
Definition pin_proven_locked (token : bytes) (proof : ProvenKey) (s : EdgeState)
    : PinOutcome * EdgeState :=
  let pins := agent_pins (keys s) in
  let entry := pin_of token s in
  let put e := set_pins (<[token := e]> pins) s in
  match pin entry with
  | None => (Accepted, put {| pin := Some proof; proven_ids := proven_ids entry |})
  | Some current =>
    if bool_decide (key current = key proof) then
      (Accepted, put {| pin := if issued_at current <? issued_at proof then Some proof else Some current;
                        proven_ids := proven_ids entry |})
    else if issued_at current <? issued_at proof then
      (Repinned, put {| pin := Some proof; proven_ids := ∅ |})
    else (Rejected (if issued_at proof <? issued_at current then StaleBinding else ForeignKey), put entry)
  end.

(** src/crates/edge/src/state.rs:2836-2855 [EdgeState::unproven_reason_locked] *)
Definition unproven_reason_locked (token : bytes) (s : EdgeState) : AgentKeyReason :=
  match agents_of token s with
  | [] => Unproven
  | live => if existsb (λ a, bool_decide (a.1 ∈ proven_of token s)) live
            then UnprovenBesideProven else SecondUnproven
  end.

(** src/crates/edge/src/state.rs:2864-2875 [EdgeState::take_registrations_locked] *)
Definition take_registrations_locked (token : bytes) (s : EdgeState) : list H * EdgeState :=
  let v := agents_of token s in (v.*2, shrink token [] (length v) s).

(** [agent_pins.entry(token).or_default().proven_ids.insert(id)]. *)
Definition insert_proven (token : bytes) (id : N) (s : EdgeState) : EdgeState :=
  let e := pin_of token s in
  set_pins (<[token := {| pin := pin e; proven_ids := {[id]} ∪ proven_ids e |}]> (agent_pins (keys s))) s.

(** src/crates/edge/src/state.rs:2743-2782 [EdgeState::register_with_candidate_checked]: the
    check; whether the registration is proven, and the handles a new pin removed. *)
Definition check_agent_key (token : bytes) (mode : AgentKeyMode) (proof : option ProvenKey)
    (wall_now : N) (s : EdgeState) : Result (bool * list H) AgentKeyReason * EdgeState :=
  let mode := agent_key_mode_locked token mode s in
  if is_revoked token s then (Err ReasonRevoked, s)
  else
    let refusing := bool_decide (mode = Enforce) in
    match proof with
    | Some p =>
      let '(out, s) := pin_proven_locked token p s in
      match out with
      | Accepted => (Ok (true, []), s)
      | Repinned =>
        let '(removed, s) := take_registrations_locked token s in
        (Ok (true, removed), note_agent_key_violation token ForeignKey wall_now s)
      | Rejected reason =>
        let s := note_agent_key_violation token reason wall_now s in
        (if refusing then Err reason else Ok (false, []), s)
      end
    | None =>
      let reason := unproven_reason_locked token s in
      let s := note_agent_key_violation token reason wall_now s in
      (if refusing then Err reason else Ok (false, []), s)
    end.

(** src/crates/edge/src/state.rs:2734-2800 [EdgeState::register_with_candidate_checked] *)
Definition register_with_candidate_checked (token : bytes) (handle : H) (c : SocketAddr)
    (mode : AgentKeyMode) (proof : option ProvenKey) (wall_now : N) (s : EdgeState)
    : Result (N * list H) AgentKeyReason * EdgeState :=
  let '(res, s) := check_agent_key token mode proof wall_now s in
  match res with
  | Err reason => (Err reason, s)
  | Ok (proves_pin, removed) =>
    let '(id, s) := register_locked token handle wall_now s in
    let s := set_candidate token c s in
    (Ok (id, removed), if proves_pin then note_agent_key_proven token (insert_proven token id s) else s)
  end.

(** ** Teardown *)

(** Candidates and direct endpoints of the token are dropped. *)
Definition drop_endpoints (token : bytes) (s : EdgeState) : EdgeState :=
  let e := endpoints s in
  set_endpoints (delete token (candidates e)) (delete token (direct e)) (direct_eviction_cursor e) s.

(** src/crates/edge/src/state.rs:2492-2546 [EdgeState::remove_registration] *)
Definition remove_registration (token : bytes) (id : N) (s : EdgeState) : EdgeState :=
  let pins := agent_pins (keys s) in
  let s := match pins !! token with
           | Some e => set_pins (<[token := {| pin := pin e; proven_ids := proven_ids e ∖ {[id]} |}]> pins) s
           | None => s
           end in
  match agents (registry s) !! token with
  | None => s
  | Some v =>
    let v' := filter (λ a, a.1 ≠ id) v in
    let s := shrink token v' (length v - length v') s in
    match v' with
    | _ :: _ => s
    | [] =>
      let s := drop_endpoints token s in
      if has_tcp_agent token s then s else disconnected token (clear_hosts_for token s)
    end
  end.

Definition drop_slots (token : bytes) (s : EdgeState) : EdgeState :=
  let f := fallback s in
  set_slots (delete token (tcp_agents f)) (tcp_parked_gauge f) (tcp_deliveries f) (tcp_reaped f) s.

(** src/crates/edge/src/state.rs:2561-2587 [EdgeState::remove_locked] *)
Definition remove_locked (token : bytes) (s : EdgeState) : EdgeState :=
  let s := shrink token [] (length (agents_of token s)) s in
  let s := drop_slots token (drop_endpoints token s) in
  let s := set_pins (delete token (agent_pins (keys s))) s in
  disconnected token (clear_hosts_for token s).

(** src/crates/edge/src/state.rs:2552-2555 [EdgeState::remove] *)
Definition remove (token : bytes) (s : EdgeState) : EdgeState := remove_locked token s.

Definition set_revoked (r : gset bytes) (tick : N) (s : EdgeState) : EdgeState :=
  let g := gate s in
  with_gate {| revoked := r; access_policies := access_policies g;
               access_window_refused := access_window_refused g;
               rendezvous_limiter := rendezvous_limiter g; revocation_tick := tick;
               admin_token := admin_token g |} s.

(** src/crates/edge/src/state.rs:2593-2619 [EdgeState::revoke_token] *)
Definition revoke_token (token : bytes) (s : EdgeState) : EdgeState :=
  let s := set_revoked ({[token]} ∪ revoked (gate s)) (revocation_tick (gate s)) s in
  let s := remove_locked token s in
  let s := set_revoked (revoked (gate s)) (wrap64 (revocation_tick (gate s) + 1)) s in
  let s := clear_host_auth_for token s in
  set_policies (delete token (access_policies (gate s))) s.

(** src/crates/edge/src/state.rs:2631-2634 [EdgeState::seed_revoked_tokens] *)
Definition seed_revoked_tokens (tokens : list bytes) (s : EdgeState) : EdgeState :=
  set_revoked (list_to_set tokens ∪ revoked (gate s)) (revocation_tick (gate s)) s.

(** src/crates/edge/src/state.rs:2638-2640 [EdgeState::set_admin_token] *)
Definition set_admin_token (token : bytes) (s : EdgeState) : EdgeState :=
  let g := gate s in
  with_gate {| revoked := revoked g; access_policies := access_policies g;
               access_window_refused := access_window_refused g;
               rendezvous_limiter := rendezvous_limiter g; revocation_tick := revocation_tick g;
               admin_token := Some token |} s.

(** src/crates/edge/src/state.rs:1602-1605 [EdgeState::note_access_window_refused] *)
Definition note_access_window_refused (s : EdgeState) : N * EdgeState :=
  let g := gate s in
  let n := wrap64 (access_window_refused g + 1) in
  (n, with_gate {| revoked := revoked g; access_policies := access_policies g;
                   access_window_refused := n; rendezvous_limiter := rendezvous_limiter g;
                   revocation_tick := revocation_tick g; admin_token := admin_token g |} s).

(** ** Checked parks *)

(** src/crates/edge/src/state.rs:2882-2895 [EdgeState::park_tcp_agent_unless_revoked] *)
Definition park_tcp_agent_unless_revoked (token : bytes) (wall_now : N) (s : EdgeState)
    : option N * EdgeState :=
  if is_revoked token s then (None, s)
  else let '(slot, s) := park_tcp_agent token wall_now s in (Some slot, s).

(** src/crates/edge/src/state.rs:2909-2936 [EdgeState::park_tcp_agent_checked] *)
Definition park_tcp_agent_checked (token : bytes) (mode : AgentKeyMode) (wall_now : N) (s : EdgeState)
    : option N * EdgeState :=
  let mode := agent_key_mode_locked token mode s in
  if is_revoked token s then (None, s)
  else
    let s := note_agent_key_violation token UnprovenTcp wall_now s in
    if bool_decide (mode = Enforce) then (None, s)
    else let '(slot, s) := park_tcp_agent token wall_now s in (Some slot, s).

(** ** Switching the policy *)

(** src/crates/edge/src/state.rs:3033-3079 [EdgeState::enforce_tunnel_locked] *)
Definition enforce_tunnel_locked (wall_now : N) (token : bytes) (s : EdgeState) : list H * EdgeState :=
  let v := agents_of token s in
  let kept := filter (λ a, a.1 ∈ proven_of token s) v in
  let removed := (filter (λ a, a.1 ∉ proven_of token s) v).*2 in
  let s := drop_slots token (shrink token kept (length v - length kept) s) in
  (removed, Nat.iter (length removed) (note_agent_key_violation token EvictedOnEnforce wall_now) s).

(** src/crates/edge/src/state.rs:3006-3024 [EdgeState::swap_agent_key_policy_locked]: the maps are
    iterated in [order]. *)
Definition swap_agent_key_policy_locked (next : AgentKeyPolicy) (order : list bytes) (s : EdgeState)
    : list bytes * EdgeState :=
  let here := dom (agents (registry s)) in
  let tokens := in_order order here ++ filter (λ t, t ∉ here) (in_order order (dom (tcp_agents (fallback s)))) in
  (filter (λ t, mode_for next (agent_key_token_hash t) = Enforce ∧ agent_key_mode_for t s = Log) tokens,
   set_policy next s).

(** [for token in &newly { removed.extend(self.enforce_tunnel_locked(token)) }]. *)
Fixpoint enforce_all (wall_now : N) (tokens : list bytes) (s : EdgeState) : list H * EdgeState :=
  match tokens with
  | [] => ([], s)
  | t :: ts =>
    let '(removed, s) := enforce_tunnel_locked wall_now t s in
    let '(more, s) := enforce_all wall_now ts s in (removed ++ more, s)
  end.

(** src/crates/edge/src/state.rs:2981-3001 [EdgeState::set_agent_key_policy] *)
Definition set_agent_key_policy (next : AgentKeyPolicy) (order : list bytes) (wall_now : N) (s : EdgeState)
    : list H * EdgeState :=
  let '(newly, s) := swap_agent_key_policy_locked next order s in enforce_all wall_now newly s.

(** src/crates/edge/src/state.rs:727-732 [ReloadError]: the text of an error is left out. *)
Inductive ReloadError := Unreadable | Invalid (line : N).

(** [str::lines]. *)
Definition lines (text : bytes) : list bytes :=
  let ws := split_on x0a text in
  ((λ w, match last w with Some x0d => removelast w | _ => w end) <$> removelast ws) ++
  match last ws with Some [] | None => [] | Some w => [w] end.

(** src/crates/edge/src/state.rs:739-752 [parse_enforce_list]: the lines from the [idx]th on. *)
Fixpoint parse_enforce_lines (idx : N) (ls : list bytes) : Result (gset bytes) ReloadError :=
  match ls with
  | [] => Ok ∅
  | l :: ls =>
    match trim l with
    | [] => parse_enforce_lines (idx + 1) ls
    | trimmed =>
      hash <-? ok_or (Hex.decode_32 trimmed) (Invalid (idx + 1));
      rest <-? parse_enforce_lines (idx + 1) ls; Ok ({[hash]} ∪ rest)
    end
  end.

(** src/crates/edge/src/state.rs:739-752 [parse_enforce_list] *)
Definition parse_enforce_list (text : bytes) : Result (gset bytes) ReloadError :=
  parse_enforce_lines 0 (lines text).

(** src/crates/edge/src/state.rs:3088-3106 [EdgeState::reload_agent_key_policy_from_file]:
    [read path] is the text of the file. *)
Definition reload_agent_key_policy_from_file (read : bytes → option bytes) (order : list bytes)
    (wall_now : N) (s : EdgeState) : Result (list H) ReloadError * EdgeState :=
  let p := agent_key_policy (keys s) in
  match enforce_file p with
  | None => (Err Unreadable, s)
  | Some path =>
    match read path with
    | None => (Err Unreadable, s)
    | Some text =>
      match parse_enforce_list text with
      | Err e => (Err e, s)
      | Ok set =>
        let '(removed, s) := set_agent_key_policy
          {| default_mode := default_mode p; enforce_set := set; enforce_file := Some path;
             issuers := issuers p |} order wall_now s in
        (Ok removed, s)
      end
    end
  end.

End state.
End EdgeState.
