(* ===== verification/EdgeTunnels.v ===== *)
(** * Theorems on the routing state of the edge

    The operations of [EdgeState] as the steps of a run: the invariant of the state, what a
    revocation and an enforced key policy leave, and delivery to a parked connection. *)

From S2P Require Import Prelude RustStd Maps Codec Limits Wire AccessWindow Reach FrontDoor EdgeState.

Module Tunnels.
Import EdgeState Address.

(** ** Counting *)

Lemma count_insert_new {A} (q : gmap bytes (list A)) k v :
  q !! k = None → count_all (<[k := v]> q) = (length v + count_all q)%nat.
Proof.
  intros E. unfold count_all. rewrite (map_fold_insert_L _ 0%nat k v q); [done| |done]. intros. lia.
Qed.

Lemma count_delete {A} (q : gmap bytes (list A)) k :
  (length (default [] (q !! k)) + count_all (delete k q) = count_all q)%nat.
Proof.
  destruct (q !! k) as [v|] eqn:E; cbn.
  - rewrite <- (insert_delete_id q k v E) at 2. by rewrite count_insert_new by apply lookup_delete_eq.
  - by rewrite delete_id.
Qed.

Lemma count_insert {A} (q : gmap bytes (list A)) k v :
  (count_all (<[k := v]> q) + length (default [] (q !! k)) = count_all q + length v)%nat.
Proof.
  rewrite <- (count_delete q k), <- insert_delete_eq, count_insert_new by apply lookup_delete_eq. lia.
Qed.

Lemma count_filter {A} (P : A → Prop) `{!∀ x, Decision (P x)} (q : gmap bytes (list A)) :
  (count_all (filter P <$> q) ≤ count_all q)%nat.
Proof.
  induction q as [|k v q E IH] using map_ind; [by rewrite fmap_empty|].
  rewrite fmap_insert, !count_insert_new by (rewrite ?lookup_fmap, ?E; done).
  pose proof (length_filter P v). lia.
Qed.

Lemma count_nonempty {A} (q : gmap bytes (list A)) :
  count_all (filter (λ kv, kv.2 ≠ []) q) = count_all q.
Proof.
  induction q as [|k v q E IH] using map_ind; [by rewrite map_filter_empty|].
  destruct v as [|a v].
  - rewrite map_filter_insert_False by (cbn; tauto).
    rewrite count_insert_new, delete_id by done. done.
  - rewrite map_filter_insert_True by done.
    rewrite !count_insert_new by (try apply map_lookup_filter_None; auto). lia.
Qed.

Lemma fetch_sub_wrap a b : fetch_sub (wrap64 (a + b)) b = wrap64 a.
Proof.
  unfold fetch_sub, wrap64. assert (U64 ≠ 0) as HU by done. generalize dependent U64. intros u HU.
  assert (b mod u <= (a + b) mod u + u) as Hle.
  { pose proof (N.mod_lt b u HU) as Hb. revert Hb. generalize (b mod u), ((a + b) mod u). intros. lia. }
  apply N2Z.inj. rewrite !N2Z.inj_mod, N2Z.inj_sub, N2Z.inj_add, !N2Z.inj_mod, N2Z.inj_add by done.
  rewrite Zminus_mod_idemp_r, <- Z.add_sub_assoc, Zplus_mod_idemp_l.
  replace (Z.of_N a + Z.of_N b + (Z.of_N u - Z.of_N b))%Z with (Z.of_N a + 1 * Z.of_N u)%Z by ring.
  apply Z_mod_plus_full.
Qed.

Lemma wrap64_succ n : wrap64 (wrap64 n + 1) = wrap64 (n + 1).
Proof. unfold wrap64. apply N.Div0.add_mod_idemp_l. Qed.

Lemma in_order_spec order ks k : k ∈ in_order order ks ↔ k ∈ ks.
Proof.
  unfold in_order. rewrite elem_of_app, !list_elem_of_filter, elem_of_elements.
  destruct (decide (k ∈ order)); rewrite !elem_of_remove_dups; naive_solver.
Qed.

Section tunnels.
Context {H : Type} (sha256 : bytes → bytes).
Implicit Types (s : EdgeState (H := H)) (t token : bytes) (v : list (N * H)).

(** ** Steps *)

Inductive Op :=
| ORegister (t : bytes) (h : H) (now : N)
| ORegisterCandidate (t : bytes) (h : H) (c : SocketAddr) (now : N)
| ORegisterUnlessRevoked (t : bytes) (h : H) (now : N)
| ORegisterCandidateUnlessRevoked (t : bytes) (h : H) (c : SocketAddr) (now : N)
| ORegisterChecked (t : bytes) (h : H) (c : SocketAddr) (mode : AgentKeyMode)
    (proof : option ProvenKey) (now : N)
| ORemoveRegistration (t : bytes) (id : N)
| ORemove (t : bytes)
| ORevoke (t : bytes)
| OSeed (ts : list bytes)
| ORegisterHost (host t : bytes)
| OClearHosts (t : bytes)
| ORequireHostAuth
| OAuthorizeHost (host t : bytes)
| OUnauthorizeHost (host : bytes)
| OSetCertTier (host : bytes) (gelb : bool)
| OSetAccessPolicy (t : bytes) (p : option AccessWindow.AccessPolicy)
| OSetRendezvousLimit (n : N)
| ORendezvous (t : bytes) (window : N)
| OPark (t : bytes) (now : N)
| OParkUnlessRevoked (t : bytes) (now : N)
| OParkChecked (t : bytes) (mode : AgentKeyMode) (now : N)
| ODeliver (t : bytes) (closed : N → bool)
| OReap (closed : N → bool)
| OAdvertise (t : bytes) (a : SocketAddr) (cert : bytes) (order : list bytes)
| ORelay (t : bytes) (up down : N) (kind : RelayKind) (now : N)
| OAgeOut (now max_age : N)
| OPolicy (next : AgentKeyPolicy) (order : list bytes) (now : N)
| OReload (read : bytes → option bytes) (order : list bytes) (now : N)
| OAdminToken (t : bytes)
| OWindowRefused.

Definition step (s : EdgeState (H := H)) (op : Op) : EdgeState (H := H) :=
  match op with
  | ORegister t h now => (register t h now s).2
  | ORegisterCandidate t h c now => (register_with_candidate t h c now s).2
  | ORegisterUnlessRevoked t h now => (register_unless_revoked t h now s).2
  | ORegisterCandidateUnlessRevoked t h c now =>
    (register_with_candidate_unless_revoked t h c now s).2
  | ORegisterChecked t h c mode proof now =>
    (register_with_candidate_checked sha256 t h c mode proof now s).2
  | ORemoveRegistration t id => remove_registration t id s
  | ORemove t => remove t s
  | ORevoke t => revoke_token t s
  | OSeed ts => seed_revoked_tokens ts s
  | ORegisterHost host t => (register_host host t s).2
  | OClearHosts t => clear_hosts_for t s
  | ORequireHostAuth => require_host_auth s
  | OAuthorizeHost host t => authorize_host host t s
  | OUnauthorizeHost host => unauthorize_host host s
  | OSetCertTier host gelb => set_cert_tier host gelb s
  | OSetAccessPolicy t p => set_access_policy t p s
  | OSetRendezvousLimit n => set_rendezvous_limit n s
  | ORendezvous t window => (rendezvous_allowed t window s).2
  | OPark t now => (park_tcp_agent t now s).2
  | OParkUnlessRevoked t now => (park_tcp_agent_unless_revoked t now s).2
  | OParkChecked t mode now => (park_tcp_agent_checked sha256 t mode now s).2
  | ODeliver t closed => (deliver_to_tcp_agent_draining t closed s).2
  | OReap closed => (reap_dead_tcp_parks closed s).2
  | OAdvertise t a cert order => (advertise_direct t a cert order s).2
  | ORelay t up down kind now => note_relay t up down kind now s
  | OAgeOut now max_age => (age_out_stale_history now max_age s).2
  | OPolicy next order now => (set_agent_key_policy sha256 next order now s).2
  | OReload read order now => (reload_agent_key_policy_from_file sha256 read order now s).2
  | OAdminToken t => set_admin_token t s
  | OWindowRefused => (note_access_window_refused s).2
  end.

Definition run (s : EdgeState (H := H)) (ops : list Op) : EdgeState (H := H) := foldl step s ops.

(** The operations of the serve loops: none registers or parks without its check. *)
Definition guarded (op : Op) : bool :=
  match op with ORegister _ _ _ | ORegisterCandidate _ _ _ _ | OPark _ _ => false | _ => true end.

(** The operations of the serve loops when agents prove their keys. *)
Definition checked (op : Op) : bool :=
  match op with
  | ORegister _ _ _ | ORegisterCandidate _ _ _ _ | OPark _ _
  | ORegisterUnlessRevoked _ _ _ | ORegisterCandidateUnlessRevoked _ _ _ _
  | OParkUnlessRevoked _ _ => false
  | _ => true
  end.

(** ** The invariant *)

Record registry_ok (r : Registry (H := H)) : Prop := {
  ok_active : active_tunnels_gauge r = wrap64 (N.of_nat (size (agents r)));
  ok_total : total_registrations_gauge r = wrap64 (N.of_nat (count_all (agents r)));
  ok_nonempty : ∀ t, agents r !! t ≠ Some [];
  ok_fresh : ∀ t v id h, agents r !! t = Some v → (id, h) ∈ v → id < next_reg r;
  ok_distinct : ∀ t v, agents r !! t = Some v → NoDup v.*1;
  ok_apart : ∀ t t' v v' id, agents r !! t = Some v → agents r !! t' = Some v' →
    id ∈ v.*1 → id ∈ v'.*1 → t = t';
}.

Definition routing_ok (r : Routing) : Prop :=
  ∀ k t, hosts r !! k = Some t ↔ k ∈ default ∅ (hosts_by_token r !! t).

Definition fallback_ok (f : Fallback) : Prop :=
  (∀ t, tcp_agents f !! t ≠ Some []) ∧ N.of_nat (count_all (tcp_agents f)) <= tcp_parked_gauge f.

Record endpoints_ok (e : Endpoints) : Prop := {
  ok_direct : (size (direct e) <= DIRECT_ENDPOINTS_MAX)%nat;
  ok_certs : ∀ t a cert, direct e !! t = Some (a, cert) → blen cert <= DIRECT_CERT_MAX_LEN;
}.

(** What is proven is registered. *)
Definition proven_ok (s : EdgeState (H := H)) : Prop :=
  ∀ t id, id ∈ proven_of t s → id ∈ (agents_of t s).*1.

Record wf (s : EdgeState (H := H)) : Prop := {
  wf_registry : registry_ok (registry s);
  wf_routing : routing_ok (routing s);
  wf_fallback : fallback_ok (fallback s);
  wf_endpoints : endpoints_ok (endpoints s);
  wf_proven : proven_ok s;
  wf_counts : (size (agent_key_counts (keys s)) <= AGENT_KEY_MAX_TRACKED)%nat;
}.

(** ** Frames of the primitives *)

Lemma agents_of_lookup t s v : agents_of t s = v → v ≠ [] → agents (registry s) !! t = Some v.
Proof. unfold agents_of. destruct (agents (registry s) !! t); naive_solver. Qed.

Lemma lookup_put t v (m : gmap bytes (list (N * H))) t' :
  put_agents t v m !! t' = if decide (t' = t) then match v with [] => None | _ => Some v end else m !! t'.
Proof. destruct v; cbn; case_decide; by simplify_map_eq. Qed.

Lemma agents_of_shrink t v n s t' :
  agents_of t' (shrink t v n s) = if decide (t' = t) then v else agents_of t' s.
Proof. unfold agents_of, shrink; cbn. rewrite lookup_put. case_decide; [by destruct v|done]. Qed.

Lemma count_put t v (m : gmap bytes (list (N * H))) :
  (count_all (put_agents t v m) + length (default [] (m !! t)) = count_all m + length v)%nat.
Proof. destruct v; cbn [put_agents]; [rewrite <- (count_delete m t); cbn; lia|apply count_insert]. Qed.

Lemma sublist_In {A} (l w : list A) x : l `sublist_of` w → x ∈ l → x ∈ w.
Proof. intros E Hx. by eapply elem_of_submseteq, sublist_submseteq. Qed.

Lemma ok_ids s t id h : registry_ok (registry s) → (id, h) ∈ agents_of t s → id < next_reg (registry s).
Proof.
  intros O. unfold agents_of. destruct (_ !! t) as [v|] eqn:E; cbn; [by apply (ok_fresh _ O t)|].
  by intros ?%elem_of_nil.
Qed.

Lemma registry_ok_shrink t v n s :
  v `sublist_of` agents_of t s → n = (length (agents_of t s) - length v)%nat →
  registry_ok (registry s) → registry_ok (registry (shrink t v n s)).
Proof.
  intros Sub -> O. pose proof (sublist_length _ _ Sub) as L.
  assert (∀ t' w, put_agents t v (agents (registry s)) !! t' = Some w →
            ∃ w', agents (registry s) !! t' = Some w' ∧ w `sublist_of` w' ∧ w ≠ []) as Hsub.
  { intros t' w. rewrite lookup_put. case_decide as Ht; [subst t'|].
    - destruct v as [|a v]; [done|]. intros [= <-]. exists (agents_of t s).
      split_and!; [|done|done]. apply (agents_of_lookup t s _ eq_refl). intros E. rewrite E in L. cbn in L. lia.
    - intros E. exists w. split_and!; [done..|]. intros ->. by apply (ok_nonempty _ O t'). }
  assert (∀ (w w' : list (N * H)), w `sublist_of` w' → w.*1 `sublist_of` w'.*1) as Hfst.
  { intros w w' E. by apply fmap_sublist. }
  constructor; cbn.
  - rewrite (ok_active _ O). unfold agents_of in L |- *. destruct v as [|a v]; cbn [put_agents length].
    + destruct (agents (registry s) !! t) as [w|] eqn:E; cbn.
      * destruct w as [|b w]; [by apply ok_nonempty in E|]. cbn.
        rewrite <- (insert_delete_id _ _ _ E) at 1. rewrite map_size_insert_None by apply lookup_delete_eq.
        rewrite Nat2N.inj_succ, <- N.add_1_r. apply fetch_sub_wrap.
      * by rewrite delete_id.
    + destruct (agents (registry s) !! t) eqn:E; cbn in L; [|lia].
      by rewrite map_size_insert_Some by eauto.
  - rewrite (ok_total _ O). pose proof (count_put t v (agents (registry s))) as C. fold (agents_of t s) in C.
    rewrite <- (fetch_sub_wrap (N.of_nat (count_all (put_agents t v (agents (registry s)))))
                  (N.of_nat (length (agents_of t s) - length v))).
    f_equal. f_equal. lia.
  - intros t' (w' & _ & _ & ?)%Hsub. done.
  - intros t' w id h (w' & E & Sw & _)%Hsub Hw. eapply (ok_fresh _ O); [exact E|]. by eapply sublist_In.
  - intros t' w (w' & E & Sw & _)%Hsub. eapply sublist_NoDup; [by eapply (ok_distinct _ O)|apply Hfst, Sw].
  - intros t1 t2 w1 w2 id (w1' & E1 & S1 & _)%Hsub (w2' & E2 & S2 & _)%Hsub H1 H2.
    eapply (ok_apart _ O); [exact E1|exact E2|..]; (eapply sublist_In; [apply Hfst|]); eassumption.
Qed.

Lemma agents_of_register t h now s t' :
  agents_of t' (register_locked t h now s).2 =
  if decide (t' = t) then agents_of t s ++ [(next_reg (registry s), h)] else agents_of t' s.
Proof. unfold agents_of; cbn. case_decide; by simplify_map_eq. Qed.

Lemma registry_ok_register t h now s :
  next_reg (registry s) + 1 < U64 → registry_ok (registry s) →
  registry_ok (registry (register_locked t h now s).2).
Proof.
  intros B O. remember (next_reg (registry s)) as id eqn:Eid.
  assert (∀ t' w, <[t := agents_of t s ++ [(id, h)]]> (agents (registry s)) !! t' = Some w →
            w ≠ [] ∧ NoDup w.*1 ∧
            (∀ i, i ∈ w.*1 → i ∈ (agents_of t' s).*1 ∨ t' = t ∧ i = id)) as Hw.
  { intros t' w. destruct (decide (t' = t)) as [->|Ht].
    - rewrite lookup_insert_eq. intros [= <-]. split_and!; [by destruct (agents_of t s)| |].
      + rewrite fmap_app. apply NoDup_app. split_and!.
        * unfold agents_of. destruct (agents (registry s) !! t) eqn:E; cbn; [by eapply ok_distinct|constructor].
        * intros i ((i', h') & -> & Hi)%list_elem_of_fmap. pose proof (ok_ids _ _ _ _ O Hi).
          cbn in *. rewrite list_elem_of_singleton. lia.
        * apply NoDup_singleton.
      + intros i. rewrite fmap_app, elem_of_app. cbn. rewrite list_elem_of_singleton. tauto.
    - rewrite lookup_insert_ne by done. intros E. unfold agents_of. rewrite E. cbn.
      split_and!; [intros ->; by apply (ok_nonempty _ O t')|by eapply ok_distinct|tauto]. }
  assert (∀ t' i, i ∈ (agents_of t' s).*1 → i < id ∧ ∃ v, agents (registry s) !! t' = Some v ∧ i ∈ v.*1) as Hold.
  { intros t' i Hi. split.
    - apply list_elem_of_fmap in Hi as ((i', h') & -> & Hi). subst id. by eapply ok_ids.
    - exists (agents_of t' s). split; [|done]. apply agents_of_lookup; [done|]. intros E. rewrite E in Hi.
      by apply elem_of_nil in Hi. }
  constructor; cbn; rewrite <- ?Eid.
  - rewrite (ok_active _ O). unfold agents_of. destruct (agents (registry s) !! t) as [w|] eqn:E; cbn.
    + rewrite map_size_insert_Some by eauto. destruct w; [by apply ok_nonempty in E|done].
    + rewrite map_size_insert_None, wrap64_succ, Nat2N.inj_succ, N.add_1_r by done. done.
  - rewrite (ok_total _ O), wrap64_succ. f_equal.
    pose proof (count_insert (agents (registry s)) t (agents_of t s ++ [(id, h)])) as C.
    change (default [] (agents (registry s) !! t)) with (agents_of t s) in C.
    rewrite length_app in C. cbn in C. lia.
  - intros t' [? _]%Hw. done.
  - intros t' w i h' E Hi. apply Hw in E as (_ & _ & Hi').
    unfold wrap64. rewrite N.mod_small by done.
    apply (list_elem_of_fmap_2 fst), Hi' in Hi as [[? _]%Hold|[_ ?]]; cbn in *; lia.
  - intros t' w (_ & ? & _)%Hw. done.
  - intros t1 t2 w1 w2 i (_ & _ & H1)%Hw (_ & _ & H2)%Hw [[L1 (v1 & E1 & V1)]%Hold|[? ?]]%H1
      [[L2 (v2 & E2 & V2)]%Hold|[? ?]]%H2; [by eapply (ok_apart _ O)|lia|lia|congruence].
Qed.

(** Counting violations and proofs leaves everything but the counters. *)
Record counted (s s' : EdgeState (H := H)) : Prop := {
  cd_registry : registry s' = registry s; cd_routing : routing s' = routing s;
  cd_fallback : fallback s' = fallback s; cd_traffic : traffic s' = traffic s;
  cd_endpoints : endpoints s' = endpoints s; cd_gate : gate s' = gate s;
  cd_pins : agent_pins (keys s') = agent_pins (keys s);
  cd_policy : agent_key_policy (keys s') = agent_key_policy (keys s);
  cd_size : (size (agent_key_counts (keys s)) <= AGENT_KEY_MAX_TRACKED)%nat →
            (size (agent_key_counts (keys s')) <= AGENT_KEY_MAX_TRACKED)%nat;
}.

#[export] Instance counted_preorder : PreOrder counted.
Proof.
  split; [by intros s|]. intros s1 s2 s3 [] [].
  constructor; first [congruence|auto].
Qed.

Lemma counts_insert_size hash c s :
  untracked_tunnel hash s = false →
  (size (agent_key_counts (keys s)) <= AGENT_KEY_MAX_TRACKED)%nat →
  (size (<[hash := c]> (agent_key_counts (keys s))) <= AGENT_KEY_MAX_TRACKED)%nat.
Proof.
  unfold untracked_tunnel. rewrite andb_false_iff, Nat.leb_gt, bool_decide_eq_false, map_size_insert.
  intros U L. destruct (agent_key_counts (keys s) !! hash); cbn; [done|].
  destruct U; [lia|done].
Qed.

Lemma counted_violation token r now s : counted s (note_agent_key_violation sha256 token r now s).
Proof.
  unfold note_agent_key_violation. destruct (untracked_tunnel _ s) eqn:E; destruct (LogThrottle.note _ _ _);
    constructor; cbn; try done. by apply counts_insert_size.
Qed.

Lemma counted_proven token s : counted s (note_agent_key_proven sha256 token s).
Proof.
  unfold note_agent_key_proven. destruct (untracked_tunnel _ s) eqn:E; constructor; cbn; try done.
  by apply counts_insert_size.
Qed.

Lemma counted_evicted n token r now s : counted s (Nat.iter n (note_agent_key_violation sha256 token r now) s).
Proof. induction n; cbn; [done|]. etrans; [exact IHn|apply counted_violation]. Qed.

(** ** The operations preserve the invariant *)

Lemma wf_counted s s' : counted s s' → wf s → wf s'.
Proof.
  intros C []. constructor; rewrite ?(cd_registry _ _ C), ?(cd_routing _ _ C), ?(cd_fallback _ _ C),
    ?(cd_endpoints _ _ C); try done; [|by apply C].
  intros t id. unfold proven_of, pin_of, agents_of in *. rewrite (cd_pins _ _ C), (cd_registry _ _ C).
  apply wf_proven0.
Qed.

Lemma wf_keys k s :
  wf s → (∀ t, default no_pin (agent_pins k !! t) = pin_of t s ∨ proven_ids (default no_pin (agent_pins k !! t)) ⊆ proven_of t s) →
  (size (agent_key_counts k) <= AGENT_KEY_MAX_TRACKED)%nat → wf (with_keys k s).
Proof.
  intros W Hp Hc. destruct W. constructor; try done.
  intros t id Hid. apply wf_proven0. unfold proven_of in *.
  destruct (Hp t) as [E|E]; cbn in *; [|by apply E]. unfold pin_of in Hid at 1. cbn in Hid. by rewrite E in Hid.
Qed.

Lemma wf_set_pins t e s :
  wf s → proven_ids e ⊆ proven_of t s → wf (set_pins (<[t := e]> (agent_pins (keys s))) s).
Proof.
  intros W Hp. apply wf_keys; [done| |apply W]. intros t'. cbn.
  destruct (decide (t' = t)) as [->|]; simplify_map_eq; auto.
Qed.

Lemma wf_shrink t v n s :
  wf s → v `sublist_of` agents_of t s → n = (length (agents_of t s) - length v)%nat →
  (∀ id, id ∈ proven_of t s → id ∈ v.*1) → wf (shrink t v n s).
Proof.
  intros W Sub En Hp. pose proof W as []. constructor; try done; [by apply registry_ok_shrink|].
  intros t' id Hid. rewrite agents_of_shrink. case_decide as E; [subst t'; by apply Hp|by apply wf_proven0].
Qed.

Lemma wf_register_locked t h now s :
  next_reg (registry s) + 1 < U64 → wf s → wf (register_locked t h now s).2.
Proof.
  intros B W. pose proof W as []. constructor; try done; [by apply registry_ok_register|].
  intros t' id Hid. rewrite agents_of_register. case_decide as E; [subst t'|by apply wf_proven0].
  rewrite fmap_app, elem_of_app. left. by apply wf_proven0.
Qed.

Lemma wf_endpoints_same e s :
  wf s → direct e = direct (endpoints s) → wf (with_endpoints e s).
Proof.
  intros [] E. constructor; try done. destruct wf_endpoints0 as [O1 O2].
  constructor; cbn; rewrite E; [exact O1|exact O2].
Qed.

Lemma wf_drop_endpoints t s : wf s → wf (drop_endpoints t s).
Proof.
  intros W. pose proof W as []. destruct wf_endpoints0. constructor; try done. constructor; cbn.
  - rewrite map_size_delete. destruct (direct _ !! t); cbn; lia.
  - intros t' a c [_ E]%lookup_delete_Some. by eapply ok_certs0.
Qed.

Lemma pin_proven_keys t p s :
  wf s → wf (pin_proven_locked t p s).2 ∧ registry (pin_proven_locked t p s).2 = registry s ∧
  fallback (pin_proven_locked t p s).2 = fallback s.
Proof.
  intros W. unfold pin_proven_locked. destruct (pin (pin_of t s)); [|split; [by apply wf_set_pins|done]].
  repeat case_match; (split; [apply wf_set_pins; [done|set_solver]|done]).
Qed.

Lemma repinned_clears t p s : (pin_proven_locked t p s).1 = Repinned → proven_of t (pin_proven_locked t p s).2 = ∅.
Proof.
  unfold pin_proven_locked. repeat case_match; cbn; try done.
  intros _. unfold proven_of, pin_of; cbn. by simplify_map_eq.
Qed.

Lemma wf_take t s : wf s → proven_of t s = ∅ → wf (take_registrations_locked t s).2.
Proof.
  intros W E. cbn. apply wf_shrink; [done|apply sublist_nil_l|cbn; lia|]. rewrite E. set_solver.
Qed.

Lemma check_agent_key_wf t mode proof now s :
  let s' := (check_agent_key sha256 t mode proof now s).2 in
  wf s → wf s' ∧ next_reg (registry s') = next_reg (registry s) ∧ fallback s' = fallback s.
Proof.
  cbn. intros W. unfold check_agent_key. destruct (is_revoked t s); [done|].
  assert (∀ x r, wf x → next_reg (registry x) = next_reg (registry s) → fallback x = fallback s →
    let x' := note_agent_key_violation sha256 t r now x in
    wf x' ∧ next_reg (registry x') = next_reg (registry s) ∧ fallback x' = fallback s) as Hv.
  { intros x r Wx En Ef; cbn zeta. pose proof (counted_violation t r now x) as C.
    split_and!; [by eapply wf_counted|by rewrite (cd_registry _ _ C)|by rewrite (cd_fallback _ _ C)]. }
  destruct proof as [p|]; cbn; [|by apply Hv].
  pose proof (pin_proven_keys t p s W) as (W' & Er & Ef). pose proof (repinned_clears t p s) as Hr.
  destruct (pin_proven_locked t p s) as [[| |r] s1]; cbn in *; [by rewrite Er| |apply Hv; [done|by rewrite Er|done]].
  apply (Hv (shrink t [] _ s1)); [by apply wf_take; [|apply Hr]|cbn; by rewrite Er|done].
Qed.

Lemma wf_insert_proven t id s : id ∈ (agents_of t s).*1 → wf s → wf (insert_proven t id s).
Proof.
  intros Hid []. constructor; try done. intros t' i. unfold proven_of, pin_of; cbn.
  destruct (decide (t' = t)) as [->|]; simplify_map_eq; [|apply wf_proven0].
  rewrite elem_of_union, elem_of_singleton. intros [->|Hi]; [done|by apply wf_proven0].
Qed.

Lemma wf_checked t h c mode proof now s :
  next_reg (registry s) + 1 < U64 → wf s →
  wf (register_with_candidate_checked sha256 t h c mode proof now s).2.
Proof.
  intros B W. unfold register_with_candidate_checked.
  pose proof (check_agent_key_wf t mode proof now s W) as (W' & En & _).
  destruct (check_agent_key _ _ _ _ _ s) as [[[proves removed]|] s']; [|done]. cbn in *.
  assert (wf (set_candidate t c (register_locked t h now s').2)) as W2.
  { by apply wf_endpoints_same; [apply wf_register_locked; [rewrite En|]|]. }
  destruct proves; [|done]. eapply wf_counted; [apply counted_proven|].
  apply wf_insert_proven; [|done]. change (agents_of t (set_candidate t c ?x)) with (agents_of t x).
  pose proof (agents_of_register t h now s' t) as E. rewrite decide_True in E by done. cbn in E |- *.
  rewrite E, fmap_app, elem_of_app. right. by apply list_elem_of_singleton.
Qed.

Lemma clear_hosts_frame t s :
  ∃ r, clear_hosts_for t s = with_routing r s ∧ host_auth r = host_auth (routing s) ∧
    (∀ t', t' ≠ t → hosts_by_token r !! t' = hosts_by_token (routing s) !! t') ∧
    (∀ k t', hosts r !! k = Some t' → hosts (routing s) !! k = Some t') ∧
    (routing_ok (routing s) → routing_ok r ∧ ∀ k, hosts r !! k ≠ Some t).
Proof.
  unfold clear_hosts_for. destruct (hosts_by_token (routing s) !! t) as [owned|] eqn:E.
  - eexists. split; [done|]. cbn. split_and!; [done| | |].
    + intros t' Ht. by rewrite lookup_delete_ne.
    + by intros k t' [? _]%map_lookup_filter_Some.
    + intros O. assert (∀ k, hosts (routing s) !! k = Some t ↔ k ∈ owned) as Ho.
      { intros k. by rewrite (O k t), E. }
      split; [|by intros k [?%Ho ?]%map_lookup_filter_Some].
      intros k t'; cbn. rewrite map_lookup_filter_Some; cbn. destruct (decide (t' = t)) as [->|Ht].
      * rewrite lookup_delete_eq, Ho. set_solver.
      * rewrite lookup_delete_ne, <- (O k t') by done. split; [by intros [? _]|]. intros Hk. split; [done|].
        intros ?%Ho. congruence.
  - exists (routing s). split_and!; [by destruct s|done..|]. intros O. split; [done|].
    intros k. rewrite (O k t), E. set_solver.
Qed.

Lemma wf_with_routing r s : wf s → routing_ok r → wf (with_routing r s).
Proof. intros [] ?. by constructor. Qed.

Lemma wf_clear_hosts t s : wf s → wf (clear_hosts_for t s).
Proof.
  intros W. destruct (clear_hosts_frame t s) as (r & -> & _ & _ & _ & O). apply wf_with_routing; [done|].
  apply O, W.
Qed.

Lemma wf_register_host host t s : wf s → wf (register_host host t s).2.
Proof.
  intros W. unfold register_host. destruct (Hostname.normalize_hostname host) as [k|]; [|done].
  destruct (is_revoked t s); [done|]. pose proof (wf_routing _ W) as O.
  assert (hosts (routing s) !! k = None ∨ hosts (routing s) !! k = Some t →
    routing_ok {| hosts := <[k := t]> (hosts (routing s));
      hosts_by_token := <[t := {[k]} ∪ default ∅ (hosts_by_token (routing s) !! t)]> (hosts_by_token (routing s));
      gelb_hosts := gelb_hosts (routing s); host_auth := host_auth (routing s) |}) as Hb.
  { intros Hk k' t'; cbn. destruct (decide (t' = t)) as [->|Ht].
    - rewrite lookup_insert_eq; cbn. rewrite elem_of_union, elem_of_singleton, <- (O k' t).
      destruct (decide (k' = k)) as [->|]; simplify_map_eq; [by split; auto|naive_solver].
    - rewrite (lookup_insert_ne _ t t') by done. rewrite <- (O k' t').
      destruct (decide (k' = k)) as [->|]; simplify_map_eq; [|done]. split; [congruence|].
      intros E. destruct Hk; congruence. }
  destruct (hosts (routing s) !! k) as [t'|] eqn:E; [|apply wf_with_routing; auto].
  destruct (bool_decide_reflect (t' = t)) as [->|]; cbn; [apply wf_with_routing; auto|done].
Qed.

Lemma wf_with_fallback f s : wf s → fallback_ok f → wf (with_fallback f s).
Proof. intros [] ?. by constructor. Qed.

Lemma wf_with_traffic x s : wf s → wf (with_traffic x s).
Proof. by intros []. Qed.

Lemma fallback_drop t (f : Fallback) d r :
  fallback_ok f →
  fallback_ok {| tcp_agents := delete t (tcp_agents f); next_slot := next_slot f;
                 tcp_parked_gauge := tcp_parked_gauge f; tcp_parks := tcp_parks f;
                 tcp_deliveries := d; tcp_reaped := r |}.
Proof.
  intros [O1 O2]. split; cbn.
  - intros t' [_ E]%lookup_delete_Some. by apply (O1 t').
  - pose proof (count_delete (tcp_agents f) t). lia.
Qed.

Lemma wf_drop_slots t s : wf s → wf (drop_slots t s).
Proof. intros W. apply wf_with_fallback; [done|]. apply fallback_drop, W. Qed.

Lemma wf_park t now s :
  tcp_parked_gauge (fallback s) + 1 < U64 → wf s → wf (park_tcp_agent t now s).2.
Proof.
  intros B W. unfold park_tcp_agent; cbn [snd]. apply wf_with_traffic, wf_with_fallback; [done|].
  destruct (wf_fallback _ W) as [O1 O2]. split; cbn.
  - intros t'. destruct (decide (t' = t)) as [->|]; simplify_map_eq; [|done]. by destruct (slots_of t s).
  - pose proof (count_insert (tcp_agents (fallback s)) t (slots_of t s ++ [next_slot (fallback s)])) as C.
    change (default [] (tcp_agents (fallback s) !! t)) with (slots_of t s) in C.
    rewrite length_app in C. cbn in C. unfold wrap64. rewrite N.mod_small by done. lia.
Qed.

(** One delivery takes the first slot. *)
Lemma deliver_frame t closed s :
  ∃ f, (deliver_to_tcp_agent t closed s).2 = with_fallback f s ∧
    tcp_parked_gauge f <= tcp_parked_gauge (fallback s) ∧
    (fallback_ok (fallback s) → fallback_ok f) ∧
    (∀ t', t' ≠ t → tcp_agents f !! t' = tcp_agents (fallback s) !! t').
Proof.
  unfold deliver_to_tcp_agent. destruct (tcp_agents (fallback s) !! t) as [[|x q]|] eqn:E;
    [exists (fallback s); by destruct s| |exists (fallback s); by destruct s].
  assert (∀ g d, tcp_parked_gauge (fallback s) <= g + 1 → fallback_ok (fallback s) →
    fallback_ok {| tcp_agents := match q with [] => delete t (tcp_agents (fallback s))
                                 | _ => <[t := q]> (tcp_agents (fallback s)) end;
                   next_slot := next_slot (fallback s); tcp_parked_gauge := g;
                   tcp_parks := tcp_parks (fallback s); tcp_deliveries := d;
                   tcp_reaped := tcp_reaped (fallback s) |}) as Hok.
  { intros g d Hg [O1 O2]. split; cbn; destruct q as [|y q].
    - intros t' [_ Et]%lookup_delete_Some. by apply (O1 t').
    - intros t'. destruct (decide (t' = t)) as [->|]; by simplify_map_eq.
    - pose proof (count_delete (tcp_agents (fallback s)) t) as C. rewrite E in C. cbn in C. lia.
    - pose proof (count_insert (tcp_agents (fallback s)) t (y :: q)) as C. rewrite E in C. cbn in C. lia. }
  assert (∀ t', t' ≠ t → (match q with [] => delete t (tcp_agents (fallback s))
      | _ => <[t := q]> (tcp_agents (fallback s)) end) !! t' = tcp_agents (fallback s) !! t') as Hne.
  { intros. destruct q; by simplify_map_eq. }
  destruct (closed x); cbn; eexists; (split; [done|]); cbn; unfold saturating_dec;
    (split_and!; [lia|apply Hok; lia|exact Hne]).
Qed.

Lemma drain_frame fuel t closed s :
  ∃ f, (drain_slots fuel t closed s).2 = with_fallback f s ∧
    tcp_parked_gauge f <= tcp_parked_gauge (fallback s) ∧
    (fallback_ok (fallback s) → fallback_ok f) ∧
    (∀ t', t' ≠ t → tcp_agents f !! t' = tcp_agents (fallback s) !! t').
Proof.
  revert s. induction fuel as [|fuel IH]; intros s; cbn; [exists (fallback s); by destruct s|].
  destruct (has_tcp_agent t s); [|exists (fallback s); by destruct s].
  destruct (deliver_frame t closed s) as (f & E & G & O & N).
  destruct (deliver_to_tcp_agent t closed s) as [[x|] s1]; cbn in E; subst s1; [by exists f|].
  destruct (IH (with_fallback f s)) as (f' & E' & G' & O' & N'). exists f'. rewrite E'. cbn in *.
  split_and!; [done|lia|auto|]. intros t' Ht. by rewrite N', N.
Qed.

Lemma reap_ok closed s : fallback_ok (fallback s) → fallback_ok (fallback (reap_dead_tcp_parks closed s).2).
Proof.
  intros [O1 O2]. split; cbn.
  - intros t [_ E]%map_lookup_filter_Some. done.
  - rewrite count_nonempty. pose proof (count_filter (λ tx, closed tx = false) (tcp_agents (fallback s))). lia.
Qed.

(** What a step may do to the two counters that must not overflow. *)
Definition quiet (s s' : EdgeState (H := H)) : Prop :=
  next_reg (registry s') = next_reg (registry s) ∧
  tcp_parked_gauge (fallback s') <= tcp_parked_gauge (fallback s).

Lemma quiet_frame s s' : registry s' = registry s → fallback s' = fallback s → quiet s s'.
Proof. by intros E1 E2; split; rewrite ?E1, ?E2. Qed.

Lemma clear_hosts_quiet t s :
  registry (clear_hosts_for t s) = registry s ∧ fallback (clear_hosts_for t s) = fallback s.
Proof. by destruct (clear_hosts_frame t s) as (r & -> & _). Qed.

Lemma filter_fst_elem (P : N → Prop) `{!∀ a : N * H, Decision (P a.1)} v id :
  id ∈ (filter (λ a, P a.1) v).*1 ↔ P id ∧ id ∈ v.*1.
Proof.
  rewrite !list_elem_of_fmap. setoid_rewrite list_elem_of_filter. split.
  - by intros (a & -> & ? & ?); split; [|exists a].
  - intros (? & a & -> & ?). by exists a.
Qed.

Lemma wf_remove_registration t id s : wf s → wf (remove_registration t id s).
Proof.
  intros W. unfold remove_registration.
  set (s1 := match agent_pins (keys s) !! t with Some e => _ | None => s end).
  assert (wf s1 ∧ id ∉ proven_of t s1) as [W1 Hid].
  { unfold s1. destruct (agent_pins (keys s) !! t) as [e|] eqn:E.
    - split.
      + apply wf_set_pins; [done|]. unfold proven_of, pin_of. rewrite E; cbn. set_solver.
      + unfold proven_of, pin_of; cbn. simplify_map_eq. cbn. set_solver.
    - split; [done|]. unfold proven_of, pin_of. by rewrite E. }
  destruct (agents (registry s1) !! t) as [v|] eqn:E; [|done].
  assert (agents_of t s1 = v) as Ev by (unfold agents_of; by rewrite E).
  assert (wf (shrink t (filter (λ a, a.1 ≠ id) v) (length v - length (filter (λ a, a.1 ≠ id) v)) s1)) as W2.
  { apply wf_shrink; [done|rewrite Ev; apply sublist_filter|by rewrite Ev|].
    intros i Hi. apply (proj2 (filter_fst_elem (λ i, i ≠ id) v i)). rewrite <- Ev.
    split; [congruence|by apply W1]. }
  destruct (filter (λ a, a.1 ≠ id) v) as [|a v'] eqn:Ef; [|done].
  case_match; [by apply wf_drop_endpoints|].
  by apply wf_with_traffic, wf_clear_hosts, wf_drop_endpoints.
Qed.

Lemma wf_remove_locked t s : wf s → wf (remove_locked t s).
Proof.
  intros W. unfold remove_locked. apply wf_with_traffic, wf_clear_hosts.
  pose proof W as []. constructor; try done.
  - exact (registry_ok_shrink t [] _ s (sublist_nil_l _) (eq_sym (Nat.sub_0_r _)) wf_registry0).
  - by apply fallback_drop.
  - by apply (wf_endpoints (drop_endpoints t s)), wf_drop_endpoints.
  - intros t' id. unfold proven_of, pin_of, agents_of; cbn. destruct (decide (t' = t)) as [->|Ht].
    + rewrite lookup_delete_eq. cbn. set_solver.
    + rewrite !lookup_delete_ne by done. apply wf_proven0.
Qed.

Lemma wf_with_gate g s : wf s → wf (with_gate g s).
Proof. by intros []. Qed.

Lemma wf_revoke t s : wf s → wf (revoke_token t s).
Proof.
  intros W. unfold revoke_token. apply wf_with_gate. unfold clear_host_auth_for, set_host_auth.
  apply wf_with_routing; [apply wf_with_gate|]; [by apply wf_remove_locked, wf_with_gate|].
  apply (wf_routing (remove_locked t (set_revoked ({[t]} ∪ revoked (gate s)) (revocation_tick (gate s)) s))).
  by apply wf_remove_locked, wf_with_gate.
Qed.

Lemma wf_enforce_tunnel now t s : wf s → wf (enforce_tunnel_locked sha256 now t s).2.
Proof.
  intros W. cbn. eapply wf_counted; [apply counted_evicted|]. apply wf_drop_slots.
  apply wf_shrink; [done|apply sublist_filter|done|].
  intros id Hid. apply (filter_fst_elem (λ i, i ∈ proven_of t s)). split; [done|by apply W].
Qed.

Lemma enforce_tunnel_quiet now t s : quiet s (enforce_tunnel_locked sha256 now t s).2.
Proof.
  cbn. pose proof (λ n x, counted_evicted n t EvictedOnEnforce now x) as C.
  split; [by rewrite (cd_registry _ _ (C _ _))|by rewrite (cd_fallback _ _ (C _ _))].
Qed.

Lemma enforce_all_sound now ts s :
  wf s → wf (enforce_all sha256 now ts s).2 ∧ quiet s (enforce_all sha256 now ts s).2.
Proof.
  revert s. induction ts as [|t ts IH]; intros s W; cbn [enforce_all]; [by split|].
  pose proof (wf_enforce_tunnel now t s W) as W1. pose proof (enforce_tunnel_quiet now t s) as [Q1 Q2].
  destruct (enforce_tunnel_locked sha256 now t s) as [r s1]; cbn in *.
  destruct (IH s1 W1) as [W2 [Q3 Q4]]. destruct (enforce_all sha256 now ts s1) as [r' s2]; cbn in *.
  split; [done|split; [congruence|lia]].
Qed.

Lemma set_policy_sound next order now s :
  wf s → wf (set_agent_key_policy sha256 next order now s).2 ∧
         quiet s (set_agent_key_policy sha256 next order now s).2.
Proof.
  intros W. unfold set_agent_key_policy; cbn. apply (enforce_all_sound _ _ (set_policy next s)).
  apply wf_keys; [done| |apply W]. auto.
Qed.

Lemma sample_in order start n t : t ∈ sample order start n → t ∈ order.
Proof.
  unfold sample. rewrite list_elem_of_omap. intros (i & _ & E). by apply list_elem_of_lookup_2 in E.
Qed.

Lemma wf_advertise t a cert order s : wf s → wf (advertise_direct t a cert order s).2.
Proof.
  intros W. unfold advertise_direct. set (e := endpoints s).
  destruct (is_revoked t s || _) eqn:Er; [done|]. apply orb_false_iff in Er as [_ Hc%N.ltb_ge].
  pose proof (wf_endpoints _ W) as [Od Oc]. fold e in Od, Oc.
  assert (∀ d cursor, (size (<[t := (a, cert)]> d) <= DIRECT_ENDPOINTS_MAX)%nat → d ⊆ direct e →
    wf (set_endpoints (candidates e) (<[t := (a, cert)]> d) cursor s)) as Hw.
  { intros d cursor Hs Hd. destruct W. constructor; try done. constructor; cbn; [done|].
    intros t' a' c'. destruct (decide (t' = t)) as [->|]; simplify_map_eq; [by intros [= <- <-]|].
    intros E. eapply Oc, lookup_weaken; eassumption. }
  destruct (_ || _) eqn:Eroom; cbn [snd].
  - apply Hw; [|done]. rewrite map_size_insert. apply orb_true_iff in Eroom as [E%Nat.ltb_lt|[x E]%bool_decide_eq_true].
    + destruct (direct e !! t); cbn; lia.
    + by rewrite E.
  - destruct (find _ _) as [victim|] eqn:Ef; cbn [snd]; [|by apply wf_endpoints_same].
    apply find_some in Ef as [Ev%list_elem_of_In _]. apply sample_in, in_order_spec, elem_of_dom in Ev as [x Ev].
    apply Hw; [|apply delete_subseteq]. rewrite map_size_insert.
    pose proof (map_size_delete_Some _ _ (mk_is_Some _ _ Ev)).
    pose proof (map_size_ne_0_lookup_2 (direct e) _ (mk_is_Some _ _ Ev)).
    destruct (delete _ _ !! t); cbn [id]; lia.
Qed.

(** The state after [n] steps, as long as the counters have not run full. *)
Definition sound (n : N) (s : EdgeState (H := H)) : Prop :=
  wf s ∧ next_reg (registry s) <= n ∧ tcp_parked_gauge (fallback s) <= n.

Lemma sound_quiet n s s' : sound n s → wf s' → quiet s s' → sound (n + 1) s'.
Proof. intros (_ & L1 & L2) W [Q1 Q2]. split_and!; [done|lia|lia]. Qed.

Lemma sound_register n t h now s :
  n + 1 < U64 → sound n s → sound (n + 1) (register_locked t h now s).2.
Proof.
  intros B (W & L1 & L2). split_and!; [apply wf_register_locked; [lia|done]|cbn..].
  - unfold wrap64. rewrite N.mod_small; lia.
  - lia.
Qed.

Lemma sound_register_candidate n t h c now s :
  n + 1 < U64 → sound n s → sound (n + 1) (set_candidate t c (register_locked t h now s).2).
Proof.
  intros B S. destruct (sound_register n t h now s B S) as (W & L1 & L2).
  split_and!; [by apply wf_endpoints_same|done..].
Qed.

Lemma sound_park n t now s : n + 1 < U64 → sound n s → sound (n + 1) (park_tcp_agent t now s).2.
Proof.
  intros B (W & L1 & L2). split_and!; [apply wf_park; [lia|done]|cbn; lia|cbn].
  unfold wrap64. rewrite N.mod_small; lia.
Qed.

Lemma sound_checked n t h c mode proof now s :
  n + 1 < U64 → sound n s →
  sound (n + 1) (register_with_candidate_checked sha256 t h c mode proof now s).2.
Proof.
  intros B S. pose proof S as (W & L1 & L2). split; [apply wf_checked; [lia|done]|].
  unfold register_with_candidate_checked.
  pose proof (check_agent_key_wf t mode proof now s W) as (W' & En & Ef).
  destruct (check_agent_key _ _ _ _ _ s) as [[[proves removed]|] s']; cbn in *; [|rewrite En, Ef; lia].
  assert (wrap64 (next_reg (registry s') + 1) <= n + 1) as Hn by (unfold wrap64; rewrite En, N.mod_small; lia).
  destruct proves; cbn; [|rewrite Ef; split; [exact Hn|lia]].
  pose proof (λ x, counted_proven t x) as C. rewrite (cd_registry _ _ (C _)), (cd_fallback _ _ (C _)). cbn.
  rewrite Ef. split; [exact Hn|lia].
Qed.

Lemma reload_cases read order now s :
  (reload_agent_key_policy_from_file sha256 read order now s).2 = s ∨
  ∃ next, (reload_agent_key_policy_from_file sha256 read order now s).2 =
          (set_agent_key_policy sha256 next order now s).2.
Proof.
  unfold reload_agent_key_policy_from_file. destruct (enforce_file _) as [path|]; [|by left].
  destruct (read path) as [text|]; [|by left]. destruct (parse_enforce_list text) as [set|]; [|by left].
  right. destruct (set_agent_key_policy _ _ _ _ s) as [removed s'] eqn:E. eexists. by rewrite E.
Qed.

Lemma quiet_clear t x s : quiet s x → quiet s (disconnected t (clear_hosts_for t x)).
Proof. unfold quiet; cbn. by destruct (clear_hosts_quiet t x) as [-> ->]. Qed.

Lemma quiet_remove t s : quiet s (remove_locked t s).
Proof. by apply quiet_clear. Qed.

Lemma quiet_advertise t a cert order s : quiet s (advertise_direct t a cert order s).2.
Proof.
  unfold advertise_direct. destruct (is_revoked t s || _); [done|]. destruct (_ || _); [done|].
  by destruct (find _ _).
Qed.

Lemma quiet_relay t up down kind now s : quiet s (note_relay t up down kind now s).
Proof.
  unfold note_relay. destruct (relay_by_kind (traffic s)) as [[] ?], (default _ (tunnel_bytes (traffic s) !! t)).
  done.
Qed.

Lemma quiet_revoke t s : quiet s (revoke_token t s).
Proof.
  unfold revoke_token. pose proof (quiet_remove t (set_revoked ({[t]} ∪ revoked (gate s)) (revocation_tick (gate s)) s)) as Q.
  revert Q. generalize (remove_locked t (set_revoked ({[t]} ∪ revoked (gate s)) (revocation_tick (gate s)) s)).
  intros x Q. exact Q.
Qed.

Lemma sound_park_checked n t mode now s :
  n + 1 < U64 → sound n s → sound (n + 1) (park_tcp_agent_checked sha256 t mode now s).2.
Proof.
  intros B S. unfold park_tcp_agent_checked.
  destruct (is_revoked t s); [by eapply sound_quiet; [|apply S|]|].
  pose proof (counted_violation t UnprovenTcp now s) as C. revert C.
  generalize (note_agent_key_violation sha256 t UnprovenTcp now s). intros x C.
  assert (sound n x) as Sx.
  { destruct S as (W & L1 & L2). split; [by eapply wf_counted|].
    by rewrite (cd_registry _ _ C), (cd_fallback _ _ C). }
  case_bool_decide; [|by apply sound_park]. by eapply sound_quiet; [|apply Sx|].
Qed.

Lemma step_sound n op s : n + 1 < U64 → sound n s → sound (n + 1) (step s op).
Proof.
  intros B S. pose proof S as (W & L1 & L2).
  assert (quiet s s) as Q by (split; done).
  destruct op; cbn [step].
  - by apply sound_register.
  - by apply sound_register_candidate.
  - unfold register_unless_revoked. destruct (is_revoked t s); [by eapply sound_quiet|by apply sound_register].
  - unfold register_with_candidate_unless_revoked.
    destruct (is_revoked t s); [by eapply sound_quiet|by apply sound_register_candidate].
  - by apply sound_checked.
  - eapply sound_quiet; [exact S|by apply wf_remove_registration|]. unfold remove_registration.
    repeat case_match; try (apply quiet_clear); by split.
  - eapply sound_quiet; [exact S|by apply wf_remove_locked|apply quiet_remove].
  - eapply sound_quiet; [exact S|by apply wf_revoke|apply quiet_revoke].
  - by eapply sound_quiet; [|apply wf_with_gate|].
  - eapply sound_quiet; [exact S|by apply wf_register_host|].
    unfold register_host. by repeat case_match.
  - eapply sound_quiet; [exact S|by apply wf_clear_hosts|]. destruct (clear_hosts_quiet t s). by apply quiet_frame.
  - unfold require_host_auth. by destruct (host_auth (routing s)); eapply sound_quiet; try done; apply wf_with_routing, W.
  - unfold authorize_host. by case_match; eapply sound_quiet; try done; apply wf_with_routing, W.
  - unfold unauthorize_host. by case_match; eapply sound_quiet; try done; apply wf_with_routing, W.
  - unfold set_cert_tier. by case_match; eapply sound_quiet; try done; apply wf_with_routing, W.
  - unfold set_access_policy. by repeat case_match; eapply sound_quiet; try done; apply wf_with_gate.
  - by eapply sound_quiet; [|apply wf_with_gate|].
  - unfold rendezvous_allowed. case_match; [|by eapply sound_quiet].
    case_match; cbn. by eapply sound_quiet; [|apply wf_with_gate|].
  - by apply sound_park.
  - unfold park_tcp_agent_unless_revoked. destruct (is_revoked t s); [by eapply sound_quiet|by apply sound_park].
  - by apply sound_park_checked.
  - unfold deliver_to_tcp_agent_draining. destruct (drain_frame (Datatypes.S (length (slots_of t s))) t closed s)
      as (f & -> & G & O & _). by eapply sound_quiet; [exact S|apply wf_with_fallback; [|apply O, W]|].
  - eapply sound_quiet; [exact S|apply wf_with_fallback; [done|by apply (reap_ok closed), W]|].
    split; [done|]. cbn. lia.
  - eapply sound_quiet; [exact S|by apply wf_advertise|apply quiet_advertise].
  - eapply sound_quiet; [exact S| |apply quiet_relay]. unfold note_relay.
    repeat case_match; by apply wf_with_traffic.
  - by eapply sound_quiet; [exact S|apply wf_with_traffic|].
  - destruct (set_policy_sound next order now s W). by eapply sound_quiet.
  - destruct (reload_cases read order now s) as [->|[next ->]]; [by eapply sound_quiet|].
    destruct (set_policy_sound next order now s W). by eapply sound_quiet.
  - by eapply sound_quiet; [|apply wf_with_gate|].
  - by eapply sound_quiet; [|apply wf_with_gate|].
Qed.

Lemma new_wf : wf (new (H := H)).
Proof.
  constructor; try done.
  - constructor; [cbn [endpoints new direct]; rewrite map_size_empty; lia|done].
  - cbn [keys new agent_key_counts]. rewrite map_size_empty. lia.
Qed.

Lemma run_sound ops n s :
  n + N.of_nat (length ops) < U64 → sound n s → sound (n + N.of_nat (length ops)) (run s ops).
Proof.
  revert n s. induction ops as [|op ops IH]; intros n s B S; cbn [run foldl length] in *;
    [by rewrite N.add_0_r|].
  replace (n + N.of_nat (Datatypes.S (length ops))) with (n + 1 + N.of_nat (length ops)) in * by lia.
  apply IH; [done|]. apply step_sound; [lia|done].
Qed.

(** C9 whatever the operations, fewer than 2^64 of them, the state of the edge stays consistent:
    the two gauges count the tunnels and the registrations, no tunnel has an empty entry, a
    registration id belongs to one registration of one tunnel and is never the next one, the
    index of hostnames by tunnel is the inverse of the routes, only live registrations are
    proven, the gauge of parked connections never under-reports, and the endpoint map and the
    violation counters keep their bounds. *)
Theorem edge_state_wf ops : 1 + N.of_nat (length ops) < U64 → wf (run new ops).
Proof.
  intros B. apply (run_sound ops 1 new); [exact B|]. split; [apply new_wf|done].
Qed.

(** ** Delivery to a parked connection *)

Lemma deliver_cons t closed s x q :
  tcp_agents (fallback s) !! t = Some (x :: q) →
  let '(res, s') := deliver_to_tcp_agent t closed s in
  res = (if closed x then None else Some x) ∧ slots_of t s' = q ∧
  tcp_parked_gauge (fallback s') = tcp_parked_gauge (fallback s) - 1 ∧
  tcp_deliveries (fallback s') =
    (if closed x then tcp_deliveries (fallback s) else wrap64 (tcp_deliveries (fallback s) + 1)).
Proof.
  intros E. unfold deliver_to_tcp_agent. rewrite E.
  destruct (closed x), q; unfold slots_of; cbn; by simplify_map_eq.
Qed.

Lemma has_tcp_agent_slots t s : has_tcp_agent t s = match slots_of t s with [] => false | _ => true end.
Proof. unfold has_tcp_agent, slots_of. by destruct (tcp_agents (fallback s) !! t) as [[]|]. Qed.

Lemma slots_of_cons t s x q : slots_of t s = x :: q → tcp_agents (fallback s) !! t = Some (x :: q).
Proof. unfold slots_of. destruct (tcp_agents (fallback s) !! t); cbn; congruence. Qed.

Lemma drain_slots_exact fuel t closed s :
  (length (slots_of t s) < fuel)%nat →
  let '(res, s') := drain_slots fuel t closed s in
  ∃ dead, Forall (λ x, closed x = true) dead ∧
    slots_of t s = dead ++ option_list res ++ slots_of t s' ∧
    match res with Some x => closed x = false | None => slots_of t s' = [] end ∧
    tcp_parked_gauge (fallback s') =
      tcp_parked_gauge (fallback s) - N.of_nat (length dead + length (option_list res)) ∧
    tcp_deliveries (fallback s') =
      match res with Some _ => wrap64 (tcp_deliveries (fallback s) + 1)
                   | None => tcp_deliveries (fallback s) end.
Proof.
  revert s. induction fuel as [|fuel IH]; intros s L; [lia|]. cbn [drain_slots].
  rewrite has_tcp_agent_slots. destruct (slots_of t s) as [|x q] eqn:E.
  { exists []. cbn. rewrite E. split_and!; try done. lia. }
  pose proof (deliver_cons t closed s x q (slots_of_cons _ _ _ _ E)) as D.
  destruct (deliver_to_tcp_agent t closed s) as [res s1]. destruct D as (Er & Es & Eg & Ed).
  destruct (closed x) eqn:Ex; subst res; cbn in L.
  - specialize (IH s1). rewrite Es in IH. specialize (IH ltac:(lia)).
    destruct (drain_slots fuel t closed s1) as [res s2]. destruct IH as (dead & F & -> & R & G & D).
    exists (x :: dead). rewrite G, D, Eg, Ed. split_and!; [by constructor|done|done|cbn; lia|done].
  - exists []. cbn. rewrite Es. by split_and!.
Qed.

(** handing a stream to a tunnel that has parked connections takes the first one that still
    listens, in the order they parked: the ones before it are gone and are dropped, the ones
    after it stay, other tunnels keep theirs, the gauge goes down by what was taken, and nothing
    is delivered only when none of them listens any more. *)
Theorem delivery_exact t closed s :
  let '(res, s') := deliver_to_tcp_agent_draining t closed s in
  (∃ dead, Forall (λ x, closed x = true) dead ∧
    slots_of t s = dead ++ option_list res ++ slots_of t s' ∧
    match res with Some x => closed x = false | None => slots_of t s' = [] end ∧
    tcp_parked_gauge (fallback s') =
      tcp_parked_gauge (fallback s) - N.of_nat (length dead + length (option_list res)) ∧
    tcp_deliveries (fallback s') =
      match res with Some _ => wrap64 (tcp_deliveries (fallback s) + 1)
                   | None => tcp_deliveries (fallback s) end) ∧
  (∀ t', t' ≠ t → slots_of t' s' = slots_of t' s) ∧
  s' = with_fallback (fallback s') s.
Proof.
  unfold deliver_to_tcp_agent_draining.
  pose proof (drain_slots_exact (S (length (slots_of t s))) t closed s (Nat.lt_succ_diag_r _)) as D.
  destruct (drain_frame (S (length (slots_of t s))) t closed s) as (f & E & _ & _ & N).
  destruct (drain_slots _ t closed s) as [res s']; cbn in E; subst s'. split_and!; [exact D| |done].
  intros t' Ht. unfold slots_of; cbn. by rewrite N.
Qed.

(** ** The pin of a tunnel *)

Definition newer (p p' : ProvenKey) : Prop := p' = p ∨ issued_at p < issued_at p'.

#[export] Instance newer_preorder : PreOrder newer.
Proof.
  split; [by left|]. intros p q r [->|] [->|]; [by left|by right|by right|right; lia].
Qed.

(** No step but a teardown of the tunnel takes its pin away, or back. *)
Definition keeps_pin (t : bytes) (s s' : EdgeState (H := H)) : Prop :=
  ∀ p, pin (pin_of t s) = Some p → ∃ p', pin (pin_of t s') = Some p' ∧ newer p p'.

#[export] Instance keeps_pin_preorder t : PreOrder (keeps_pin t).
Proof.
  split; [intros s p E; by exists p|]. intros s1 s2 s3 K1 K2 p (q & (r & E & ?)%K2 & ?)%K1.
  exists r. split; [done|by etrans].
Qed.

Lemma keeps_pin_same t s s' : agent_pins (keys s') = agent_pins (keys s) → keeps_pin t s s'.
Proof. intros E p. unfold pin_of. rewrite E. by exists p. Qed.

Lemma keeps_pin_counted t s s' : counted s s' → keeps_pin t s s'.
Proof. intros C. apply keeps_pin_same, C. Qed.

Lemma keeps_pin_set t t' e s :
  (t' = t → ∀ p, pin (pin_of t s) = Some p → ∃ p', pin e = Some p' ∧ newer p p') →
  keeps_pin t s (set_pins (<[t' := e]> (agent_pins (keys s))) s).
Proof.
  intros K p E. unfold pin_of; cbn. destruct (decide (t' = t)) as [->|]; simplify_map_eq; [by apply K|].
  by exists p.
Qed.

Lemma keeps_pin_proven t t' proof s : keeps_pin t s (pin_proven_locked t' proof s).2.
Proof.
  unfold pin_proven_locked.
  destruct (pin (pin_of t' s)) as [current|] eqn:E; cbn; [|apply keeps_pin_set; intros <-; by rewrite E].
  destruct (bool_decide _); cbn; [|destruct (N.ltb_spec (issued_at current) (issued_at proof)); cbn];
    apply keeps_pin_set; intros <- p; rewrite E; intros [= <-]; rewrite ?E; cbn.
  - destruct (N.ltb_spec (issued_at current) (issued_at proof)); eexists; (split; [done|]); [by right|by left].
  - exists proof. split; [done|by right].
  - by exists current.
Qed.

Lemma check_keeps_pin t t' mode proof now s :
  keeps_pin t s (check_agent_key sha256 t' mode proof now s).2.
Proof.
  unfold check_agent_key. destruct (is_revoked t' s); [done|]. destruct proof as [p|]; cbn.
  - pose proof (keeps_pin_proven t t' p s) as K.
    destruct (pin_proven_locked t' p s) as [[| |r] s1]; cbn in *; [done|..];
      (etrans; [exact K|etrans; [|apply keeps_pin_counted, counted_violation]]; by apply keeps_pin_same).
  - apply keeps_pin_counted, counted_violation.
Qed.

Lemma checked_keeps_pin t t' h c mode proof now s :
  keeps_pin t s (register_with_candidate_checked sha256 t' h c mode proof now s).2.
Proof.
  unfold register_with_candidate_checked. pose proof (check_keeps_pin t t' mode proof now s) as K.
  destruct (check_agent_key _ _ _ _ _ s) as [[[proves removed]|] s1]; [|exact K].
  cbn [fst snd] in *. etrans; [exact K|]. cbn [register_locked].
  destruct proves; cbn [snd]; [|by apply keeps_pin_same].
  etrans; [|apply keeps_pin_counted, counted_proven].
  match goal with |- keeps_pin _ _ (insert_proven _ _ ?x) => trans x; [by apply keeps_pin_same|] end.
  apply keeps_pin_set. intros <- p E. by exists p.
Qed.

Lemma remove_registration_keeps_pin t t' id s : keeps_pin t s (remove_registration t' id s).
Proof.
  unfold remove_registration.
  set (s1 := match agent_pins (keys s) !! t' with Some e => _ | None => s end).
  assert (keeps_pin t s s1) as K.
  { unfold s1. destruct (agent_pins (keys s) !! t') as [e|] eqn:E; [|done].
    apply keeps_pin_set. intros <- p. unfold pin_of. rewrite E; cbn. by exists p. }
  etrans; [exact K|]. clear K. generalize s1. clear s1. intros x. repeat case_match; apply keeps_pin_same; try done.
  by destruct (clear_hosts_frame t' (drop_endpoints t' (shrink t' [] (length l - length (@nil (N * H))) x))) as (r & -> & _).
Qed.

Lemma remove_pins t s : agent_pins (keys (remove_locked t s)) = delete t (agent_pins (keys s)).
Proof.
  unfold remove_locked. cbn.
  match goal with |- context [clear_hosts_for t ?x] => by destruct (clear_hosts_frame t x) as (r & -> & _) end.
Qed.

Lemma remove_keeps_pin t t' s : t' ≠ t → keeps_pin t s (remove_locked t' s).
Proof. intros Ht p. unfold pin_of. rewrite remove_pins, lookup_delete_ne by done. by exists p. Qed.

Lemma enforce_all_counted_pins now ts s :
  agent_pins (keys (enforce_all sha256 now ts s).2) = agent_pins (keys s) ∧
  agent_key_policy (keys (enforce_all sha256 now ts s).2) = agent_key_policy (keys s).
Proof.
  revert s. induction ts as [|t ts IH]; intros s; cbn [enforce_all]; [done|].
  destruct (enforce_tunnel_locked sha256 now t s) as [r s1] eqn:E. specialize (IH s1).
  destruct (enforce_all sha256 now ts s1) as [r' s2]. cbn in *. destruct IH as [-> ->].
  unfold enforce_tunnel_locked in E. injection E as _ <-.
  match goal with |- context [Nat.iter ?n ?f ?x] => pose proof (counted_evicted n t EvictedOnEnforce now x) as C end.
  by rewrite (cd_pins _ _ C), (cd_policy _ _ C).
Qed.

Lemma policy_pins next order now s :
  agent_pins (keys (set_agent_key_policy sha256 next order now s).2) = agent_pins (keys s) ∧
  agent_key_policy (keys (set_agent_key_policy sha256 next order now s).2) = next.
Proof.
  unfold set_agent_key_policy, swap_agent_key_policy_locked. cbn zeta.
  match goal with |- context [enforce_all _ _ ?l _] => exact (enforce_all_counted_pins now l (set_policy next s)) end.
Qed.

(** The tunnels an operation tears down. *)
Definition tears (op : Op) (t : bytes) : bool :=
  match op with ORemove t' | ORevoke t' => bool_decide (t' = t) | _ => false end.

Lemma step_keeps_pin op t s : tears op t = false → keeps_pin t s (step s op).
Proof.
  destruct op; cbn [tears step]; intros Ht; try (by apply keeps_pin_same).
  - apply keeps_pin_same. unfold register_unless_revoked. by destruct (is_revoked _ s).
  - apply keeps_pin_same. unfold register_with_candidate_unless_revoked. by destruct (is_revoked _ s).
  - apply checked_keeps_pin.
  - apply remove_registration_keeps_pin.
  - apply bool_decide_eq_false in Ht. by apply remove_keeps_pin.
  - apply bool_decide_eq_false in Ht.
    exact (remove_keeps_pin t t0 (set_revoked ({[t0]} ∪ revoked (gate s)) (revocation_tick (gate s)) s) Ht).
  - apply keeps_pin_same. unfold register_host. by repeat case_match.
  - apply keeps_pin_same. by destruct (clear_hosts_frame t0 s) as (r & -> & _).
  - apply keeps_pin_same. unfold require_host_auth. by case_match.
  - apply keeps_pin_same. unfold authorize_host. by case_match.
  - apply keeps_pin_same. unfold unauthorize_host. by case_match.
  - apply keeps_pin_same. unfold set_cert_tier. by case_match.
  - apply keeps_pin_same. unfold set_access_policy. by repeat case_match.
  - apply keeps_pin_same. unfold rendezvous_allowed. by repeat case_match.
  - apply keeps_pin_same. unfold park_tcp_agent_unless_revoked. by destruct (is_revoked _ s).
  - unfold park_tcp_agent_checked. destruct (is_revoked _ s); [done|].
    pose proof (counted_violation t0 UnprovenTcp now s) as C. revert C.
    generalize (note_agent_key_violation sha256 t0 UnprovenTcp now s). intros x C.
    etrans; [by apply keeps_pin_counted|]. by case_bool_decide; apply keeps_pin_same.
  - apply keeps_pin_same. unfold deliver_to_tcp_agent_draining.
    by destruct (drain_frame (S (length (slots_of t0 s))) t0 closed s) as (f & -> & _).
  - apply keeps_pin_same. unfold advertise_direct. destruct (is_revoked t0 s || _); [done|].
    destruct (_ || _); [done|]. by destruct (find _ _).
  - apply keeps_pin_same. unfold note_relay. by repeat case_match.
  - apply keeps_pin_same, policy_pins.
  - destruct (reload_cases read order now s) as [->|[next ->]]; [done|]. apply keeps_pin_same, policy_pins.
Qed.

(** C12 the key a tunnel is pinned to never goes back: as long as the tunnel is not torn down, it
    stays pinned through every operation, and the pin changes only to one issued strictly later. *)
Theorem pin_never_goes_back t ops s p :
  forallb (λ op, negb (tears op t)) ops = true → pin (pin_of t s) = Some p →
  ∃ p', pin (pin_of t (run s ops)) = Some p' ∧ newer p p'.
Proof.
  intros T. revert p. change (keeps_pin t s (run s ops)). revert s T.
  induction ops as [|op ops IH]; intros s T; cbn; [done|]. apply andb_true_iff in T as [T Ts].
  etrans; [|by apply IH]. apply step_keeps_pin. by apply negb_true_iff.
Qed.

(** ** Revocation *)

(** Nothing is registered, parked, advertised, observed, pinned or routed for the tunnel. *)
Record torn_down (t : bytes) (s : EdgeState (H := H)) : Prop := {
  td_agents : agents (registry s) !! t = None;
  td_slots : tcp_agents (fallback s) !! t = None;
  td_pin : agent_pins (keys s) !! t = None;
  td_direct : direct (endpoints s) !! t = None;
  td_candidate : candidates (endpoints s) !! t = None;
  td_since : connected_since (traffic s) !! t = None;
  td_hosts : ∀ k, hosts (routing s) !! k ≠ Some t;
}.

Definition gone (t : bytes) (s : EdgeState (H := H)) : Prop := is_revoked t s = true ∧ torn_down t s.

(** What an operation on another tunnel, or one that takes away, leaves. *)
Record away (t : bytes) (s s' : EdgeState (H := H)) : Prop := {
  aw_revoked : revoked (gate s) ⊆ revoked (gate s');
  aw_torn : torn_down t s → torn_down t s';
}.

#[export] Instance away_preorder t : PreOrder (away t).
Proof.
  split; [by constructor|]. intros s1 s2 s3 [] []. constructor; [by etrans|auto].
Qed.

Lemma away_gone t s s' : away t s s' → gone t s → gone t s'.
Proof.
  intros [A1 A2] [R T]. unfold is_revoked in *. split; [|by apply A2].
  apply bool_decide_eq_true in R. apply bool_decide_eq_true. by apply A1.
Qed.

Lemma away_counted t s s' : counted s s' → away t s s'.
Proof.
  intros C. split; [by rewrite (cd_gate _ _ C)|]. intros [].
  by constructor; rewrite ?(cd_registry _ _ C), ?(cd_fallback _ _ C), ?(cd_endpoints _ _ C),
    ?(cd_traffic _ _ C), ?(cd_routing _ _ C), ?(cd_pins _ _ C).
Qed.

Lemma away_register t t' h now s : t' ≠ t → away t s (register_locked t' h now s).2.
Proof. intros Ht. split; [done|]. intros []. constructor; cbn; by simplify_map_eq. Qed.

Lemma away_set_candidate t t' c s : t' ≠ t → away t s (set_candidate t' c s).
Proof. intros Ht. split; [done|]. intros []. constructor; cbn; by simplify_map_eq. Qed.

Lemma away_shrink t t' v n s : v `sublist_of` agents_of t' s → away t s (shrink t' v n s).
Proof.
  intros Sub. split; [done|]. intros []. constructor; try done. cbn. rewrite lookup_put.
  case_decide as Ht; [subst t'|done]. unfold agents_of in Sub. rewrite td_agents0 in Sub. cbn in Sub.
  by apply sublist_nil_r in Sub as ->.
Qed.

Lemma away_set_pins t t' e s :
  t' ≠ t ∨ is_Some (agent_pins (keys s) !! t') → away t s (set_pins (<[t' := e]> (agent_pins (keys s))) s).
Proof.
  intros Ht. split; [done|]. intros []. constructor; try done. cbn.
  destruct (decide (t' = t)) as [->|]; simplify_map_eq; [|done]. destruct Ht as [?|[x Hx]]; congruence.
Qed.

Lemma away_delete_pin t t' s : away t s (set_pins (delete t' (agent_pins (keys s))) s).
Proof. split; [done|]. intros []. constructor; try done. cbn. by rewrite lookup_delete_None; auto. Qed.

Lemma away_drop_endpoints t t' s : away t s (drop_endpoints t' s).
Proof. split; [done|]. intros []. by constructor; cbn; rewrite ?lookup_delete_None; auto. Qed.

Lemma away_drop_slots t t' s : away t s (drop_slots t' s).
Proof. split; [done|]. intros []. by constructor; cbn; rewrite ?lookup_delete_None; auto. Qed.

Lemma away_disconnected t t' s : away t s (disconnected t' s).
Proof. split; [done|]. intros []. by constructor; cbn; rewrite ?lookup_delete_None; auto. Qed.

Lemma away_clear_hosts t t' s : away t s (clear_hosts_for t' s).
Proof.
  destruct (clear_hosts_frame t' s) as (r & -> & _ & _ & S & _). split; [done|]. intros [].
  constructor; try done. cbn. intros k E%S. by apply (td_hosts0 k).
Qed.

Lemma away_remove t t' s : away t s (remove_locked t' s).
Proof.
  unfold remove_locked. etrans; [|apply away_disconnected]. etrans; [|apply away_clear_hosts].
  etrans; [apply (away_shrink t t' []), sublist_nil_l|]. etrans; [apply away_drop_endpoints|].
  etrans; [apply away_drop_slots|]. apply away_delete_pin.
Qed.

Lemma remove_torn_down t s : routing_ok (routing s) → torn_down t (remove_locked t s).
Proof.
  intros O. pose proof (remove_pins t s) as Ep. unfold remove_locked in *.
  match goal with |- context [clear_hosts_for t ?x] =>
    destruct (clear_hosts_frame t x) as (r & E & _ & _ & _ & Hr); rewrite E in * end.
  constructor; cbn in *; rewrite ?Ep; try by apply lookup_delete_eq.
  intros k. by apply Hr.
Qed.

Lemma away_remove_registration t t' id s : away t s (remove_registration t' id s).
Proof.
  unfold remove_registration. set (s1 := match agent_pins (keys s) !! t' with Some e => _ | None => s end).
  assert (away t s s1) as A.
  { unfold s1. destruct (agent_pins (keys s) !! t') eqn:E; [|done]. apply away_set_pins. eauto. }
  etrans; [exact A|]. clearbody s1. destruct (agents (registry s1) !! t') as [v|] eqn:E; [|done].
  assert (filter (λ a, a.1 ≠ id) v `sublist_of` agents_of t' s1) as Sub.
  { unfold agents_of. rewrite E. apply sublist_filter. }
  etrans; [apply (away_shrink t t' (filter (λ a, a.1 ≠ id) v) (length v - length (filter (λ a, a.1 ≠ id) v))), Sub|].
  destruct (filter (λ a, a.1 ≠ id) v) as [|a v']; [|done].
  etrans; [apply away_drop_endpoints|]. case_match; [done|].
  etrans; [apply away_clear_hosts|apply away_disconnected].
Qed.

Lemma away_enforce_all t now ts s : away t s (enforce_all sha256 now ts s).2.
Proof.
  revert s. induction ts as [|t' ts IH]; intros s; cbn [enforce_all]; [done|].
  unfold enforce_tunnel_locked.
  match goal with |- context [Nat.iter ?n ?f ?x] => pose proof (counted_evicted n t' EvictedOnEnforce now x) as C end.
  match goal with |- context [enforce_all _ _ _ ?x] => specialize (IH x); destruct (enforce_all sha256 now ts x) end.
  cbn in *. etrans; [|exact IH]. etrans; [|by apply away_counted].
  etrans; [|apply away_drop_slots]. apply away_shrink, sublist_filter.
Qed.

Lemma away_policy t next order now s : away t s (set_agent_key_policy sha256 next order now s).2.
Proof.
  unfold set_agent_key_policy, swap_agent_key_policy_locked. cbn zeta.
  match goal with |- context [enforce_all _ _ ?l _] => etrans; [|apply (away_enforce_all t now l (set_policy next s))] end.
  split; [done|]. intros []. by constructor.
Qed.

Lemma away_same t s s' :
  registry s' = registry s → fallback s' = fallback s → agent_pins (keys s') = agent_pins (keys s) →
  endpoints s' = endpoints s → connected_since (traffic s') = connected_since (traffic s) →
  hosts (routing s') = hosts (routing s) → revoked (gate s) ⊆ revoked (gate s') → away t s s'.
Proof.
  intros E1 E2 E3 E4 E5 E6 E7. split; [done|]. intros []. by constructor; rewrite ?E1, ?E2, ?E3, ?E4, ?E5, ?E6.
Qed.

Lemma away_fallback t t' f s :
  t' ≠ t → (∀ t'', t'' ≠ t' → tcp_agents f !! t'' = tcp_agents (fallback s) !! t'') →
  away t s (with_fallback f s).
Proof. intros Ht Hf. split; [done|]. intros []. constructor; try done. cbn. by rewrite Hf. Qed.

Lemma away_park t t' now s : t' ≠ t → away t s (park_tcp_agent t' now s).2.
Proof. intros Ht. split; [done|]. intros []. constructor; cbn; by simplify_map_eq. Qed.

Lemma away_register_host t host t' s : t' ≠ t → away t s (register_host host t' s).2.
Proof.
  intros Ht. unfold register_host. destruct (Hostname.normalize_hostname host) as [k|]; [|done].
  destruct (is_revoked t' s); [done|].
  repeat case_match; cbn; try done; (split; [done|]; intros []; constructor; try done);
    cbn; intros k'; destruct (decide (k' = k)) as [->|]; simplify_map_eq; congruence || done.
Qed.

Lemma check_away t t' mode proof now s :
  t' ≠ t → away t s (check_agent_key sha256 t' mode proof now s).2.
Proof.
  intros Ht. unfold check_agent_key. destruct (is_revoked t' s); [done|]. destruct proof as [p|]; cbn.
  - assert (away t s (pin_proven_locked t' p s).2) as A.
    { unfold pin_proven_locked. repeat case_match; apply away_set_pins; by left. }
    destruct (pin_proven_locked t' p s) as [[| |r] s1]; cbn in *; [done|..];
      (etrans; [exact A|etrans; [|apply away_counted, counted_violation]]); [|done].
    apply away_shrink, sublist_nil_l.
  - apply away_counted, counted_violation.
Qed.

Lemma checked_away t t' h c mode proof now s :
  t' ≠ t → away t s (register_with_candidate_checked sha256 t' h c mode proof now s).2.
Proof.
  intros Ht. unfold register_with_candidate_checked. pose proof (check_away t t' mode proof now s Ht) as A.
  destruct (check_agent_key _ _ _ _ _ s) as [[[proves removed]|] s1]; [|exact A]. cbn [fst snd] in *.
  destruct (register_locked t' h now s1) as [id s2] eqn:E.
  pose proof (away_register t t' h now s1 Ht) as A2. rewrite E in A2.
  etrans; [exact A|]. etrans; [exact A2|]. etrans; [by apply (away_set_candidate t t' c)|].
  destruct proves; cbn [snd]; [|done]. etrans; [|apply away_counted, counted_proven].
  apply away_set_pins. by left.
Qed.

Lemma away_advertise t t' a cert order s : t' ≠ t → away t s (advertise_direct t' a cert order s).2.
Proof.
  intros Ht. unfold advertise_direct. destruct (is_revoked t' s || _); [done|].
  destruct (_ || _); [|destruct (find _ _)]; cbn [snd]; (split; [done|]; intros []; constructor; try done).
  - cbn. by simplify_map_eq.
  - cbn. rewrite lookup_insert_ne, lookup_delete_None by done. by right.
Qed.

(** An operation of the serve loops does not bring a revoked tunnel back. *)
Lemma step_gone op t s : guarded op = true → gone t s → gone t (step s op).
Proof.
  intros G Hg. pose proof Hg as [R T].
  assert (∀ s', away t s s' → gone t s') as A by (intros; by eapply away_gone).
  destruct op as [t' h now|t' h c now|t' h now|t' h c now|t' h c mode proof now|t' id|t'|t'|ts|host t'|t'| |host t'
    |host|host gelb|t' p|n|t' w|t' now|t' now|t' mode now|t' closed|closed|t' a cert order|t' up down kind now
    |now age|next order now|read order now|t'|]; cbn [step guarded] in *; try done.
  - unfold register_unless_revoked. destruct (is_revoked t' s) eqn:E; [done|].
    apply A, away_register. congruence.
  - unfold register_with_candidate_unless_revoked. destruct (is_revoked t' s) eqn:E; [done|].
    apply A. etrans; [apply (away_register t t' h now)|apply away_set_candidate]; congruence.
  - destruct (decide (t' = t)) as [->|]; [|by apply A, checked_away].
    unfold register_with_candidate_checked, check_agent_key. by rewrite R.
  - apply A, away_remove_registration.
  - apply A, away_remove.
  - apply A. unfold revoke_token. etrans; [|by apply away_same].
    etrans; [apply (away_same t s (set_revoked ({[t']} ∪ revoked (gate s)) (revocation_tick (gate s)) s)); try done;
      apply union_subseteq_r|]. etrans; [apply away_remove|by apply away_same].
  - apply A, away_same; try done. apply union_subseteq_r.
  - destruct (decide (t' = t)) as [->|]; [|by apply A, away_register_host].
    unfold register_host. rewrite R. by destruct (Hostname.normalize_hostname host).
  - apply A, away_clear_hosts.
  - unfold require_host_auth. case_match; [done|]. by apply A, away_same.
  - unfold authorize_host. case_match; [|done]. by apply A, away_same.
  - unfold unauthorize_host. case_match; [|done]. by apply A, away_same.
  - unfold set_cert_tier. case_match; [|done]. by apply A, away_same.
  - unfold set_access_policy. repeat case_match; by apply A, away_same.
  - by apply A, away_same.
  - unfold rendezvous_allowed. repeat case_match; [|done]. by apply A, away_same.
  - unfold park_tcp_agent_unless_revoked. destruct (is_revoked t' s) eqn:E; [done|].
    apply A, away_park. congruence.
  - unfold park_tcp_agent_checked. destruct (is_revoked t' s) eqn:E; [done|].
    apply A. etrans; [apply away_counted, (counted_violation t' UnprovenTcp now)|].
    generalize (note_agent_key_violation sha256 t' UnprovenTcp now s). intros x.
    case_bool_decide; [done|]. apply away_park. congruence.
  - unfold deliver_to_tcp_agent_draining. destruct (decide (t' = t)) as [->|Ht].
    + cbn. rewrite has_tcp_agent_slots. unfold slots_of. by rewrite (td_slots _ _ T).
    + destruct (drain_frame (S (length (slots_of t' s))) t' closed s) as (f & -> & _ & _ & N).
      apply A. by apply (away_fallback t t').
  - apply A. split; [done|]. intros []. constructor; try done. cbn. rewrite map_lookup_filter_None.
    left. by rewrite lookup_fmap, td_slots0.
  - destruct (decide (t' = t)) as [->|]; [|by apply A, away_advertise].
    unfold advertise_direct. by rewrite R.
  - unfold note_relay. repeat case_match; by apply A, away_same.
  - by apply A, away_same.
  - apply A, away_policy.
  - destruct (reload_cases read order now s) as [->|[next ->]]; [done|]. apply A, away_policy.
  - by apply A, away_same.
  - by apply A, away_same.
Qed.


Lemma revoke_gone t s : routing_ok (routing s) → gone t (revoke_token t s).
Proof.
  intros O. unfold revoke_token.
  set (s0 := set_revoked ({[t]} ∪ revoked (gate s)) (revocation_tick (gate s)) s).
  assert (gone t (remove_locked t s0)) as Hg.
  { split; [|by apply remove_torn_down]. unfold is_revoked. apply bool_decide_eq_true.
    apply (aw_revoked t s0 _ (away_remove t t s0)). cbn. set_solver. }
  eapply away_gone; [|exact Hg]. by apply away_same.
Qed.

Lemma run_gone ops t s : forallb guarded ops = true → gone t s → gone t (run s ops).
Proof.
  revert s. induction ops as [|op ops IH]; intros s G Hg; cbn; [done|].
  apply andb_true_iff in G as [G Gs]. by apply IH, step_gone.
Qed.

(** C10 a revoked tunnel stays down: once its token is revoked, whatever the serve loops do
    afterwards, nothing is registered, parked, advertised, observed, pinned or routed for it, and
    no agent that reconnects, parks, binds a hostname or advertises an endpoint gets it back. *)
Theorem revoked_stays_down t ops ops' :
  1 + N.of_nat (length ops) < U64 → forallb guarded ops' = true →
  gone t (run new (ops ++ ORevoke t :: ops')).
Proof.
  intros B G. unfold run. rewrite foldl_app. cbn [foldl step].
  apply (run_gone ops' t _ G), revoke_gone.
  destruct (run_sound ops 1 new B) as (W & _); [split; [apply new_wf|done]|]. apply W.
Qed.

(** ** Enforced tunnels *)

(** Every registration of the tunnel is proven and nothing is parked. *)
Definition clean (t : bytes) (s : EdgeState (H := H)) : Prop :=
  (∀ id h, (id, h) ∈ agents_of t s → id ∈ proven_of t s) ∧ slots_of t s = [].

Definition enforced_ok (s : EdgeState (H := H)) : Prop :=
  ∀ t, agent_key_mode_for sha256 t s = Enforce → clean t s.

(** What the operations other than a checked registration do to a clean tunnel. *)
Record tidy (t : bytes) (s s' : EdgeState (H := H)) : Prop := {
  ti_policy : agent_key_policy (keys s') = agent_key_policy (keys s);
  ti_clean : clean t s → clean t s';
}.

#[export] Instance tidy_preorder t : PreOrder (tidy t).
Proof. split; [by constructor|]. intros s1 s2 s3 [] []. constructor; [congruence|auto]. Qed.

Lemma clean_same t s s' :
  registry s' = registry s → tcp_agents (fallback s') = tcp_agents (fallback s) →
  agent_pins (keys s') = agent_pins (keys s) → clean t s → clean t s'.
Proof.
  intros E1 E2 E3. unfold clean, agents_of, slots_of, proven_of, pin_of. by rewrite E1, E2, E3.
Qed.

Lemma tidy_same t s s' :
  registry s' = registry s → tcp_agents (fallback s') = tcp_agents (fallback s) →
  agent_pins (keys s') = agent_pins (keys s) → agent_key_policy (keys s') = agent_key_policy (keys s) →
  tidy t s s'.
Proof. intros. split; [done|]. by apply clean_same. Qed.

Lemma tidy_counted t s s' : counted s s' → tidy t s s'.
Proof. intros C. apply tidy_same; [apply C|by rewrite (cd_fallback _ _ C)|apply C|apply C]. Qed.

Lemma tidy_shrink t t' v n s :
  v `sublist_of` agents_of t' s → tidy t s (shrink t' v n s).
Proof.
  intros Sub. split; [done|]. intros [C1 C2]. split; [|exact C2]. intros id h.
  rewrite agents_of_shrink. case_decide as Ht; [subst t'|apply C1].
  intros Hi. eapply (C1 id h), sublist_In; eassumption.
Qed.

Lemma tidy_slots t f s :
  (∀ t', t' ∈ dom (tcp_agents f) → slots_of t' s = [] → tcp_agents f !! t' = Some []) →
  tidy t s (with_fallback f s).
Proof.
  intros Hf. split; [done|]. intros [C1 C2]. split; [exact C1|]. unfold slots_of; cbn.
  destruct (tcp_agents f !! t) eqn:E; [|done]. rewrite Hf in E; [by injection E as <-| |done].
  by apply elem_of_dom.
Qed.

Lemma clear_hosts_tidy t t' s : tidy t s (clear_hosts_for t' s).
Proof. destruct (clear_hosts_frame t' s) as (r & -> & _). by apply tidy_same. Qed.

Lemma tidy_drop_slots t t' s : tidy t s (drop_slots t' s).
Proof.
  split; [done|]. intros [C1 C2]. split; [exact C1|]. unfold slots_of in *; cbn.
  destruct (decide (t' = t)) as [->|]; by simplify_map_eq.
Qed.

Lemma tidy_set_pins t t' e s :
  (t' = t → ∀ id h, (id, h) ∈ agents_of t s → id ∈ proven_of t s → id ∈ proven_ids e) →
  tidy t s (set_pins (<[t' := e]> (agent_pins (keys s))) s).
Proof.
  intros He. split; [done|]. intros [C1 C2]. split; [|exact C2]. intros id h Hi. unfold proven_of, pin_of; cbn.
  destruct (decide (t' = t)) as [->|]; simplify_map_eq; [|by eapply C1]. by eapply He, C1.
Qed.

Lemma tidy_delete_pin t t' s :
  agents_of t' s = [] → tidy t s (set_pins (delete t' (agent_pins (keys s))) s).
Proof.
  intros E. split; [done|]. intros [C1 C2]. split; [|exact C2]. intros id h Hi.
  change (agents_of t (set_pins (delete t' (agent_pins (keys s))) s)) with (agents_of t s) in Hi.
  unfold proven_of, pin_of; cbn. destruct (decide (t' = t)) as [->|Ht].
  - rewrite E in Hi. by apply elem_of_nil in Hi.
  - rewrite lookup_delete_ne by done. by eapply C1.
Qed.

Lemma tidy_remove t t' s : tidy t s (remove_locked t' s).
Proof.
  unfold remove_locked. set (x := drop_slots t' (drop_endpoints t' (shrink t' [] (length (agents_of t' s)) s))).
  assert (tidy t s x) as Tx.
  { unfold x. etrans; [|apply tidy_drop_slots]. etrans; [apply (tidy_shrink t t' []), sublist_nil_l|].
    by apply tidy_same. }
  assert (agents_of t' x = []) as Ex.
  { change (agents_of t' (shrink t' [] (length (agents_of t' s)) s) = []). rewrite agents_of_shrink.
    by rewrite decide_True. }
  clearbody x. etrans; [exact Tx|]. etrans; [by apply (tidy_delete_pin t t')|].
  etrans; [apply clear_hosts_tidy|by apply tidy_same].
Qed.

Lemma tidy_remove_registration t t' id s : tidy t s (remove_registration t' id s).
Proof.
  unfold remove_registration.
  destruct (agents (registry s) !! t') as [v|] eqn:E.
  - assert (∀ P n, tidy t s (shrink t' (filter (λ a, a.1 ≠ id) v) n
      (set_pins (<[t' := {| pin := P; proven_ids := proven_of t' s ∖ {[id]} |}]> (agent_pins (keys s))) s))) as T1.
    { intros P n. change (shrink t' ?v n (set_pins ?p s)) with (set_pins p (shrink t' v n s)).
      etrans; [apply (tidy_shrink t t' (filter (λ a, a.1 ≠ id) v) n)
              |apply (tidy_set_pins t t' {| pin := P; proven_ids := proven_of t' s ∖ {[id]} |}
                        (shrink t' (filter (λ a, a.1 ≠ id) v) n s))].
      - unfold agents_of. rewrite E. apply sublist_filter.
      - intros <- i h. rewrite agents_of_shrink, decide_True by done. intros [Hi _]%list_elem_of_filter Hp.
        cbn in *. change (proven_of t' (shrink t' _ n s)) with (proven_of t' s) in Hp. set_solver. }
    assert (∀ n, tidy t s (shrink t' (filter (λ a, a.1 ≠ id) v) n s)) as T2.
    { intros n. apply tidy_shrink. unfold agents_of. rewrite E. apply sublist_filter. }
    set (s1 := match agent_pins (keys s) !! t' with Some e => _ | None => s end).
    assert (∀ n, tidy t s (shrink t' (filter (λ a, a.1 ≠ id) v) n s1)) as T3.
    { intros n. unfold s1. destruct (agent_pins (keys s) !! t') as [e|] eqn:Ep; [|apply T2].
      specialize (T1 (pin e) n). unfold proven_of, pin_of in T1. by rewrite Ep in T1. }
    assert (agents (registry s1) = agents (registry s)) as -> by (unfold s1; by case_match). rewrite E.
    specialize (T3 (length v - length (filter (λ a, a.1 ≠ id) v))%nat). clearbody s1. revert T3.
    destruct (filter (λ a, a.1 ≠ id) v) as [|a v']; [|by generalize (length (a :: v'))].
    generalize (shrink t' [] (length v - length (@nil (N * H))) s1). intros x Tx. etrans; [exact Tx|].
    etrans; [by apply (tidy_same t x (drop_endpoints t' x))|]. case_match; [done|].
    etrans; [apply (clear_hosts_tidy t t')|by apply tidy_same].
  - destruct (agent_pins (keys s) !! t') as [e|]; cbn; rewrite E; [|done].
    apply tidy_set_pins. intros <- i h. unfold agents_of. rewrite E. by intros ?%elem_of_nil.
Qed.

Lemma register_other t t' h now s : t' ≠ t → tidy t s (register_locked t' h now s).2.
Proof.
  intros Ht. split; [done|]. intros [C1 C2]. split; [|exact C2]. intros id h'.
  rewrite agents_of_register, decide_False by done. apply C1.
Qed.

Lemma pin_proven_tidy t t' p s :
  (pin_proven_locked t' p s).1 ≠ Repinned ∨ t' ≠ t → tidy t s (pin_proven_locked t' p s).2.
Proof.
  unfold pin_proven_locked. intros Hr.
  repeat case_match; cbn in *; apply tidy_set_pins; try by intros <- i h _. naive_solver.
Qed.

Lemma check_tidy t t' mode proof now s :
  t' ≠ t → tidy t s (check_agent_key sha256 t' mode proof now s).2.
Proof.
  intros Ht. unfold check_agent_key. destruct (is_revoked t' s); [done|]. destruct proof as [p|]; cbn.
  - pose proof (pin_proven_tidy t t' p s (or_intror Ht)) as A.
    destruct (pin_proven_locked t' p s) as [[| |r] s1]; cbn in *; [done|..];
      (etrans; [exact A|etrans; [|apply tidy_counted, counted_violation]]); [|done].
    apply tidy_shrink, sublist_nil_l.
  - apply tidy_counted, counted_violation.
Qed.

Lemma check_policy t mode proof now s :
  agent_key_policy (keys (check_agent_key sha256 t mode proof now s).2) = agent_key_policy (keys s).
Proof.
  unfold check_agent_key. destruct (is_revoked t s); [done|]. destruct proof as [p|]; cbn;
    [|apply (cd_policy _ _ (counted_violation _ _ _ _))].
  assert (agent_key_policy (keys (pin_proven_locked t p s).2) = agent_key_policy (keys s)) as Ep.
  { unfold pin_proven_locked. by repeat case_match. }
  destruct (pin_proven_locked t p s) as [[| |r] s1]; cbn in *; [done|..];
    (etrans; [apply (cd_policy _ _ (counted_violation _ _ _ _))|exact Ep]).
Qed.

Lemma register_proven_clean t h c now s :
  clean t s → clean t (insert_proven t (next_reg (registry s)) (set_candidate t c (register_locked t h now s).2)).
Proof.
  intros [C1 C2]. split; [|exact C2]. intros id h'.
  change (agents_of t (insert_proven t _ (set_candidate t c ?x))) with (agents_of t x).
  rewrite agents_of_register, decide_True, elem_of_app, list_elem_of_singleton by done.
  unfold proven_of, pin_of at 1; cbn. simplify_map_eq. cbn. rewrite elem_of_union, elem_of_singleton.
  intros [Hi|[= -> _]]; [right; by eapply C1|by left].
Qed.

(** An enforced tunnel lets in what proves itself, and nothing else. *)
Lemma check_enforced t mode proof now s :
  agent_key_mode_for sha256 t s = Enforce → clean t s →
  let '(res, s') := check_agent_key sha256 t mode proof now s in
  clean t s' ∧ ∀ b removed, res = Ok (b, removed) → b = true.
Proof.
  intros M C. unfold check_agent_key, agent_key_mode_locked. rewrite M. rewrite !bool_decide_true by done.
  destruct (is_revoked t s); [done|]. destruct proof as [p|]; cbn.
  - pose proof (pin_proven_tidy t t p s) as A.
    assert (slots_of t (pin_proven_locked t p s).2 = slots_of t s) as Es.
    { unfold pin_proven_locked. by repeat case_match. }
    destruct (pin_proven_locked t p s) as [[| |r] s1]; cbn [fst snd] in *.
    + split; [apply A; [by left|done]|naive_solver].
    + cbn. split; [|naive_solver]. eapply ti_clean; [apply tidy_counted, counted_violation|].
      split; [|destruct C as [_ C2]; by rewrite <- Es in C2]. intros id h. rewrite agents_of_shrink, decide_True by done.
      by intros ?%elem_of_nil.
    + split; [|done]. eapply ti_clean; [apply tidy_counted, counted_violation|]. apply A; [by left|done].
  - split; [|done]. eapply ti_clean; [apply tidy_counted, counted_violation|done].
Qed.

Lemma checked_enforced t h c mode proof now s :
  enforced_ok s → enforced_ok (register_with_candidate_checked sha256 t h c mode proof now s).2.
Proof.
  intros E t0 M0. unfold register_with_candidate_checked in *.
  pose proof (check_policy t mode proof now s) as Ep.
  pose proof (check_enforced t mode proof now s) as Ce. pose proof (check_tidy t0 t mode proof now s) as Ct.
  destruct (check_agent_key sha256 t mode proof now s) as [[[b removed]|reason] s1]; cbn [snd] in *.
  2: { unfold agent_key_mode_for in *. rewrite Ep in M0. destruct (decide (t = t0)) as [->|Ht].
       - apply Ce; [done|]. by apply E.
       - apply Ct; [done|]. by apply E. }
  assert (agent_key_mode_for sha256 t0 s = Enforce) as M.
  { unfold agent_key_mode_for in *. rewrite <- Ep. destruct b; [|exact M0].
    cbn [register_locked snd] in M0. by rewrite (cd_policy _ _ (counted_proven t _)) in M0. }
  destruct (decide (t = t0)) as [->|Ht].
  - destruct (Ce M (E t0 M)) as [C1 Hb]. rewrite (Hb b removed eq_refl).
    eapply ti_clean; [apply tidy_counted, counted_proven|]. by apply register_proven_clean.
  - assert (tidy t0 s (set_candidate t c (register_locked t h now s1).2)) as T.
    { etrans; [by apply Ct|]. etrans; [by apply (register_other t0 t h now)|by apply tidy_same]. }
    destruct b; [|by apply T, E]. eapply ti_clean; [apply tidy_counted, counted_proven|].
    apply (tidy_set_pins t0 t); [done|]. by apply T, E.
Qed.

Lemma tidy_enforce t t' now s : tidy t s (enforce_tunnel_locked sha256 now t' s).2.
Proof.
  unfold enforce_tunnel_locked; cbn.
  etrans; [|apply tidy_counted, counted_evicted]. etrans; [|apply tidy_drop_slots].
  apply tidy_shrink, sublist_filter.
Qed.

Lemma enforce_cleans t now s : clean t (enforce_tunnel_locked sha256 now t s).2.
Proof.
  unfold enforce_tunnel_locked; cbn. eapply ti_clean; [apply tidy_counted, counted_evicted|]. split.
  - intros id h. change (agents_of t (drop_slots t ?x)) with (agents_of t x).
    rewrite agents_of_shrink, decide_True by done. by intros [Hi _]%list_elem_of_filter.
  - unfold slots_of; cbn. by rewrite lookup_delete_eq.
Qed.

Lemma enforce_all_cleans t now ts s :
  t ∈ ts ∨ clean t s → clean t (enforce_all sha256 now ts s).2.
Proof.
  revert s. induction ts as [|t' ts IH]; intros s; cbn [enforce_all].
  { intros [[]%elem_of_nil|C]; exact C. }
  intros Ht. pose proof (tidy_enforce t t' now s) as T. pose proof (enforce_cleans t' now s) as C.
  destruct (enforce_tunnel_locked sha256 now t' s) as [r s1]. specialize (IH s1).
  destruct (enforce_all sha256 now ts s1) as [r' s2]. cbn in *. apply IH.
  rewrite elem_of_cons in Ht. destruct Ht as [[->|?]|?]; [by right|by left|right; by apply T].
Qed.

Lemma policy_enforced next order now s :
  enforced_ok s → enforced_ok (set_agent_key_policy sha256 next order now s).2.
Proof.
  intros E t M. pose proof (policy_pins next order now s) as [_ Ep].
  unfold agent_key_mode_for in M. rewrite Ep in M. clear Ep.
  unfold set_agent_key_policy, swap_agent_key_policy_locked. apply enforce_all_cleans.
  destruct (decide (agent_key_mode_for sha256 t s = Enforce)) as [M1|M1].
  { right. by apply (clean_same t s), E. }
  assert (agent_key_mode_for sha256 t s = Log) as M2 by (by destruct (agent_key_mode_for sha256 t s)).
  rewrite list_elem_of_filter, elem_of_app, list_elem_of_filter, !in_order_spec.
  destruct (decide (t ∈ dom (agents (registry s)))) as [Ha|Ha]; [left; by auto|].
  destruct (decide (t ∈ dom (tcp_agents (fallback s)))) as [Hs|Hs]; [left; by auto|].
  right. apply not_elem_of_dom in Ha, Hs. split.
  - intros id h. unfold agents_of; cbn. rewrite Ha. by intros ?%elem_of_nil.
  - unfold slots_of; cbn. by rewrite Hs.
Qed.

Lemma enforced_tidy s s' : (∀ t, tidy t s s') → enforced_ok s → enforced_ok s'.
Proof.
  intros T E t M. apply T, E. unfold agent_key_mode_for in *. by rewrite (ti_policy _ _ _ (T t)) in M.
Qed.

Lemma drain_slots_shrink fuel closed t s t' :
  slots_of t' s = [] → slots_of t' (drain_slots fuel t closed s).2 = [].
Proof.
  intros Es. destruct (decide (t' = t)) as [->|Ht].
  - destruct fuel; cbn; [done|]. by rewrite has_tcp_agent_slots, Es.
  - destruct (drain_frame fuel t closed s) as (f & -> & _ & _ & N). unfold slots_of in *; cbn. by rewrite N.
Qed.

Lemma step_enforced op s : checked op = true → enforced_ok s → enforced_ok (step s op).
Proof.
  intros K E.
  destruct op as [t' h now|t' h c now|t' h now|t' h c now|t' h c mode proof now|t' id|t'|t'|ts|host t'|t'| |host t'
    |host|host gelb|t' p|n|t' w|t' now|t' now|t' mode now|t' closed|closed|t' a cert order|t' up down kind now
    |now age|next order now|read order now|t'|]; cbn [step checked] in *; try done.
  - by apply checked_enforced.
  - eapply enforced_tidy; [|exact E]. intros t. apply tidy_remove_registration.
  - eapply enforced_tidy; [|exact E]. intros t. apply tidy_remove.
  - eapply enforced_tidy; [|exact E]. intros t. unfold revoke_token.
    set (s0 := set_revoked _ _ s). etrans; [by apply (tidy_same t s s0)|].
    etrans; [apply (tidy_remove t t' s0)|by apply tidy_same].
  - eapply enforced_tidy; [|exact E]. intros t. unfold register_host. repeat case_match; by apply tidy_same.
  - eapply enforced_tidy; [|exact E]. intros t. apply clear_hosts_tidy.
  - eapply enforced_tidy; [|exact E]. intros t. unfold require_host_auth. case_match; by apply tidy_same.
  - eapply enforced_tidy; [|exact E]. intros t. unfold authorize_host. case_match; by apply tidy_same.
  - eapply enforced_tidy; [|exact E]. intros t. unfold unauthorize_host. case_match; by apply tidy_same.
  - eapply enforced_tidy; [|exact E]. intros t. unfold set_cert_tier. case_match; by apply tidy_same.
  - eapply enforced_tidy; [|exact E]. intros t. unfold set_access_policy. repeat case_match; by apply tidy_same.
  - eapply enforced_tidy; [|exact E]. intros t. unfold rendezvous_allowed. repeat case_match; by apply tidy_same.
  - intros t. unfold park_tcp_agent_checked. destruct (is_revoked t' s); [apply E|].
    pose proof (tidy_counted t _ _ (counted_violation t' UnprovenTcp now s)) as T. revert T.
    generalize (note_agent_key_violation sha256 t' UnprovenTcp now s). intros x T M.
    unfold agent_key_mode_locked in *.
    assert (agent_key_mode_for sha256 t s = Enforce) as Ms.
    { unfold agent_key_mode_for in *. rewrite <- (ti_policy _ _ _ T). by case_bool_decide. }
    case_bool_decide as Hm; [by apply T, E|]. destruct (decide (t = t')) as [->|Ht].
    + by rewrite Ms, bool_decide_true in Hm.
    + destruct (ti_clean _ _ _ T (E t Ms)) as [C1 C2]. split; [exact C1|].
      unfold slots_of in *; cbn. by rewrite lookup_insert_ne.
  - intros t. unfold deliver_to_tcp_agent_draining.
    pose proof (drain_slots_shrink (S (length (slots_of t' s))) closed t' s t) as D.
    destruct (drain_frame (S (length (slots_of t' s))) t' closed s) as (f & Ef & _). rewrite Ef in *.
    intros M. destruct (E t M) as [C1 C2]. split; [exact C1|by apply D].
  - intros t M. destruct (E t M) as [C1 C2]. split; [exact C1|]. unfold slots_of; cbn.
    unfold slots_of in C2. match goal with |- default [] ?x = [] => destruct x as [l|] eqn:El; [|done] end.
    apply map_lookup_filter_Some in El as [El _]. rewrite lookup_fmap in El.
    destruct (tcp_agents (fallback s) !! t); cbn in *; simplify_eq/=. done.
  - eapply enforced_tidy; [|exact E]. intros t. unfold advertise_direct.
    destruct (is_revoked t' s || _); [done|]. destruct (_ || _); [|destruct (find _ _)]; by apply tidy_same.
  - eapply enforced_tidy; [|exact E]. intros t. unfold note_relay. repeat case_match; by apply tidy_same.
  - by apply policy_enforced.
  - destruct (reload_cases read order now s) as [->|[next ->]]; [done|]. by apply policy_enforced.
Qed.

(** ** What is proven was proven *)

(** The later pin is for the same key, and no older. *)
Definition renews (p q : ProvenKey) : Prop := key q = key p ∧ issued_at p <= issued_at q.

#[export] Instance renews_preorder : PreOrder renews.
Proof. split; [by intros p|]. intros p q r [K1 L1] [K2 L2]. split; [congruence|lia]. Qed.

(** Whoever counts as proven afterwards counted as proven before, and the pin it was proven for
    has at most been renewed. *)
Definition steady (t : bytes) (s s' : EdgeState (H := H)) : Prop :=
  ∀ id h, (id, h) ∈ agents_of t s' → id ∈ proven_of t s' →
    (id, h) ∈ agents_of t s ∧ id ∈ proven_of t s ∧
    ∀ p, pin (pin_of t s) = Some p → ∃ q, pin (pin_of t s') = Some q ∧ renews p q.

#[export] Instance steady_preorder t : PreOrder (steady t).
Proof.
  split; [intros s id h Ha Hp; split_and!; [done..|]; intros p Ep; by exists p|].
  intros s1 s2 s3 S1 S2 id h Ha Hp. destruct (S2 id h Ha Hp) as (Ha2 & Hp2 & K2).
  destruct (S1 id h Ha2 Hp2) as (Ha1 & Hp1 & K1). split_and!; [done..|].
  intros p (q & (r & Er & R2)%K2 & R1)%K1. exists r. split; [done|by etrans].
Qed.

Lemma steady_same t s s' :
  agents (registry s') = agents (registry s) → agent_pins (keys s') = agent_pins (keys s) →
  steady t s s'.
Proof.
  intros E1 E2 id h. unfold agents_of, proven_of, pin_of. rewrite E1, E2. intros Ha Hp.
  split_and!; [done..|]. intros p Ep. by exists p.
Qed.

Lemma steady_counted t s s' : counted s s' → steady t s s'.
Proof. intros C. apply steady_same; [by rewrite (cd_registry _ _ C)|apply C]. Qed.

Lemma steady_shrink t t' v n s : v `sublist_of` agents_of t' s → steady t s (shrink t' v n s).
Proof.
  intros Sub id h. rewrite agents_of_shrink. intros Ha Hp. split_and!; [|done|].
  - case_decide as Ht; [subst t'; by eapply sublist_In|done].
  - intros p Ep. by exists p.
Qed.

Lemma steady_set_pins t t' e s :
  (t' = t → proven_ids e ⊆ proven_of t s ∧ (proven_ids e = ∅ ∨
     ∀ p, pin (pin_of t s) = Some p → ∃ q, pin e = Some q ∧ renews p q)) →
  steady t s (set_pins (<[t' := e]> (agent_pins (keys s))) s).
Proof.
  intros He id h Ha Hp. split; [done|]. unfold proven_of, pin_of in Hp |- *; cbn in *.
  destruct (decide (t' = t)) as [->|Ht]; simplify_map_eq.
  - destruct (He eq_refl) as [Sub [E|K]]; [rewrite E in Hp; set_solver|]. cbn in Hp.
    split; [by apply Sub|exact K].
  - split; [done|]. intros p Ep. by exists p.
Qed.

Lemma steady_delete_pin t t' s : steady t s (set_pins (delete t' (agent_pins (keys s))) s).
Proof.
  intros id h Ha Hp. split; [done|]. unfold proven_of, pin_of in Hp |- *; cbn in *.
  destruct (decide (t' = t)) as [->|Ht].
  - rewrite lookup_delete_eq in Hp. cbn in Hp. set_solver.
  - rewrite lookup_delete_ne in * by done. split; [done|]. intros p Ep. by exists p.
Qed.

(** A registration id is new, so an unproven registration does not become proven. *)
Lemma steady_register t t' h now s : wf s → steady t s (register_locked t' h now s).2.
Proof.
  intros W id h'. rewrite agents_of_register.
  change (proven_of t (register_locked t' h now s).2) with (proven_of t s).
  change (pin_of t (register_locked t' h now s).2) with (pin_of t s). intros Ha Hp. split_and!; [|done|].
  - case_decide as Ht; [subst t'|done]. apply elem_of_app in Ha as [Ha|Ha]; [done|].
    apply list_elem_of_singleton in Ha as [= -> _]. apply (wf_proven _ W) in Hp.
    apply list_elem_of_fmap in Hp as ([id' h''] & E & Hp). cbn in E. subst id'.
    pose proof (ok_ids _ _ _ _ (wf_registry _ W) Hp). lia.
  - intros p Ep. by exists p.
Qed.

Lemma clear_hosts_steady t t' s : steady t s (clear_hosts_for t' s).
Proof. destruct (clear_hosts_frame t' s) as (r & -> & _). by apply steady_same. Qed.

Lemma steady_remove t t' s : steady t s (remove_locked t' s).
Proof.
  unfold remove_locked. etrans; [|by apply steady_same]. etrans; [|apply clear_hosts_steady].
  etrans; [apply (steady_shrink t t' []), sublist_nil_l|]. etrans; [|apply steady_delete_pin].
  by apply steady_same.
Qed.

Lemma steady_remove_registration t t' id s : steady t s (remove_registration t' id s).
Proof.
  unfold remove_registration. set (s1 := match agent_pins (keys s) !! t' with Some e => _ | None => s end).
  assert (steady t s s1) as A.
  { unfold s1. destruct (agent_pins (keys s) !! t') as [e|] eqn:E; [|done]. apply steady_set_pins.
    intros <-. unfold proven_of, pin_of. rewrite E; cbn. split; [set_solver|right].
    intros p Ep. by exists p. }
  etrans; [exact A|]. clearbody s1. destruct (agents (registry s1) !! t') as [v|] eqn:E; [|done].
  assert (filter (λ a, a.1 ≠ id) v `sublist_of` agents_of t' s1) as Sub.
  { unfold agents_of. rewrite E. apply sublist_filter. }
  etrans; [apply (steady_shrink t t' (filter (λ a, a.1 ≠ id) v) (length v - length (filter (λ a, a.1 ≠ id) v))), Sub|].
  destruct (filter (λ a, a.1 ≠ id) v) as [|a v']; [|done].
  generalize (shrink t' [] (length v - length (@nil (N * H))) s1). intros x.
  trans (drop_endpoints t' x); [by apply steady_same|]. case_match; [done|].
  etrans; [apply clear_hosts_steady|by apply steady_same].
Qed.

Lemma steady_enforce_all t now ts s : steady t s (enforce_all sha256 now ts s).2.
Proof.
  revert s. induction ts as [|t' ts IH]; intros s; cbn [enforce_all]; [done|].
  unfold enforce_tunnel_locked.
  match goal with |- context [Nat.iter ?n ?f ?x] => pose proof (counted_evicted n t' EvictedOnEnforce now x) as C end.
  match goal with |- context [enforce_all _ _ _ ?x] => specialize (IH x); destruct (enforce_all sha256 now ts x) end.
  cbn in *. etrans; [|exact IH]. etrans; [|by apply steady_counted].
  etrans; [|by apply steady_same]. apply steady_shrink, sublist_filter.
Qed.

Lemma steady_policy t next order now s : steady t s (set_agent_key_policy sha256 next order now s).2.
Proof.
  unfold set_agent_key_policy, swap_agent_key_policy_locked. cbn zeta.
  match goal with |- context [enforce_all _ _ ?l _] => etrans; [|apply (steady_enforce_all t now l (set_policy next s))] end.
  by apply steady_same.
Qed.

Lemma pin_proven_steady t t' p s : steady t s (pin_proven_locked t' p s).2.
Proof.
  unfold pin_proven_locked. destruct (pin (pin_of t' s)) as [current|] eqn:E.
  - case_bool_decide as K; [|case_match]; cbn; apply steady_set_pins; intros ->; cbn.
    + split; [done|right]. rewrite E. intros q [= <-]. destruct (N.ltb_spec (issued_at current) (issued_at p)).
      * exists p. split; [done|]. split; [done|lia].
      * by exists current.
    + split; [set_solver|by left].
    + split; [done|right]. intros q Eq. by exists q.
  - apply steady_set_pins. intros ->. split; [done|right]. rewrite E. done.
Qed.

Lemma check_steady t t' mode proof now s :
  steady t s (check_agent_key sha256 t' mode proof now s).2.
Proof.
  unfold check_agent_key. destruct (is_revoked t' s); [done|]. destruct proof as [p|]; cbn.
  - pose proof (pin_proven_steady t t' p s) as A.
    destruct (pin_proven_locked t' p s) as [[| |r] s1]; cbn in *; [done|..];
      (etrans; [exact A|etrans; [|apply steady_counted, counted_violation]]); [|done].
    apply steady_shrink, sublist_nil_l.
  - apply steady_counted, counted_violation.
Qed.

(** A registration counts as proven only for a proof whose key is the pinned one. *)
Lemma check_proves t mode proof now s removed s1 :
  check_agent_key sha256 t mode proof now s = (Ok (true, removed), s1) →
  ∃ p q, proof = Some p ∧ pin (pin_of t s1) = Some q ∧ renews p q.
Proof.
  unfold check_agent_key. destruct (is_revoked t s); [done|]. destruct proof as [p|]; [|by repeat case_match].
  intros E. exists p. unfold pin_proven_locked in E. destruct (pin (pin_of t s)) as [current|] eqn:Ep.
  - case_bool_decide as K; [|destruct (N.ltb_spec (issued_at current) (issued_at p))]; cbn in E.
    + injection E as _ <-. unfold pin_of; cbn. simplify_map_eq; cbn.
      destruct (N.ltb_spec (issued_at current) (issued_at p)); eexists; (split_and!; [done..|split; [done|lia]]).
    + injection E as _ <-.
      match goal with |- context [note_agent_key_violation sha256 ?a ?b ?c ?x] =>
        pose proof (counted_violation a b c x) as C end.
      unfold pin_of. rewrite (cd_pins _ _ C). cbn. simplify_map_eq; cbn. by exists p.
    + case_match; discriminate.
  - injection E as _ <-. unfold pin_of; cbn. simplify_map_eq; cbn. by exists p.
Qed.

(** The registration came by a checked registration of the run whose proof was for the key the
    tunnel is pinned to in [s]. *)
Definition vouched (ops : list (Op)) (s : EdgeState (H := H)) (t : bytes) (id : N) (h : H) : Prop :=
  ∃ pre post c mode p now removed q,
    ops = pre ++ ORegisterChecked t h c mode (Some p) now :: post ∧
    (register_with_candidate_checked sha256 t h c mode (Some p) now (run new pre)).1 = Ok (id, removed) ∧
    pin (pin_of t s) = Some q ∧ renews p q.

Lemma vouched_steady ops op s s' t id h :
  (∀ p, pin (pin_of t s) = Some p → ∃ q, pin (pin_of t s') = Some q ∧ renews p q) →
  vouched ops s t id h → vouched (ops ++ [op]) s' t id h.
Proof.
  intros K (pre & post & c & mode & p & now & removed & q & -> & R & (q' & Eq' & R2)%K & R1).
  exists pre, (post ++ [op]), c, mode, p, now, removed, q'. split_and!; try done.
  - by rewrite <- app_assoc.
  - by etrans.
Qed.

Lemma step_steady op t s :
  checked op = true → (∀ t h c mode proof now, op ≠ ORegisterChecked t h c mode proof now) →
  steady t s (step s op).
Proof.
  intros K N.
  destruct op as [t' h now|t' h c now|t' h now|t' h c now|t' h c mode proof now|t' id|t'|t'|ts|host t'|t'| |host t'
    |host|host gelb|t' p|n|t' w|t' now|t' now|t' mode now|t' closed|closed|t' a cert order|t' up down kind now
    |now age|next order now|read order now|t'|]; cbn [step checked] in *; try done;
    try (by apply steady_same).
  - by destruct (N t' h c mode proof now).
  - apply steady_remove_registration.
  - apply steady_remove.
  - unfold revoke_token. set (s0 := set_revoked _ _ s). trans s0; [by apply steady_same|].
    etrans; [apply (steady_remove t t' s0)|by apply steady_same].
  - unfold register_host. repeat case_match; by apply steady_same.
  - apply clear_hosts_steady.
  - unfold require_host_auth. case_match; by apply steady_same.
  - unfold authorize_host. case_match; by apply steady_same.
  - unfold unauthorize_host. case_match; by apply steady_same.
  - unfold set_cert_tier. case_match; by apply steady_same.
  - unfold set_access_policy. repeat case_match; by apply steady_same.
  - unfold rendezvous_allowed. repeat case_match; by apply steady_same.
  - unfold park_tcp_agent_checked. destruct (is_revoked t' s); [done|].
    etrans; [apply steady_counted, (counted_violation t' UnprovenTcp now)|].
    generalize (note_agent_key_violation sha256 t' UnprovenTcp now s). intros x.
    case_bool_decide; by apply steady_same.
  - unfold deliver_to_tcp_agent_draining.
    destruct (drain_frame (S (length (slots_of t' s))) t' closed s) as (f & -> & _). by apply steady_same.
  - unfold advertise_direct.
    destruct (is_revoked t' s || _); [done|]. destruct (_ || _); [|destruct (find _ _)]; by apply steady_same.
  - unfold note_relay. repeat case_match; by apply steady_same.
  - apply steady_policy.
  - destruct (reload_cases read order now s) as [->|[next ->]]; [done|]. apply steady_policy.
Qed.

Definition all_vouched (ops : list Op) (s : EdgeState (H := H)) : Prop :=
  ∀ t id h, (id, h) ∈ agents_of t s → id ∈ proven_of t s → vouched ops s t id h.

Lemma checked_vouched ops t h c mode proof now :
  let s := run new ops in let op := ORegisterChecked t h c mode proof now in
  wf s → all_vouched ops s → all_vouched (ops ++ [op]) (step s op).
Proof.
  intros s op W V t0 id h0 Ha Hp. unfold op in *. cbn [step] in *.
  pose proof (check_steady t0 t mode proof now s) as St.
  pose proof (check_agent_key_wf t mode proof now s W) as (W1 & _ & _).
  unfold register_with_candidate_checked in *.
  destruct (check_agent_key sha256 t mode proof now s) as [[[b removed]|reason] s1] eqn:E; cbn [snd] in *.
  2: { destruct (St id h0 Ha Hp) as (Ha' & Hp' & K). eapply vouched_steady; [exact K|by apply V]. }
  pose proof (steady_register t0 t h now s1 W1) as R.
  assert (steady t0 s (set_candidate t c (register_locked t h now s1).2)) as S2.
  { etrans; [exact St|]. etrans; [exact R|by apply steady_same]. }
  destruct b.
  2: { destruct (S2 id h0 Ha Hp) as (Ha' & Hp' & K). eapply vouched_steady; [exact K|by apply V]. }
  pose proof (counted_proven t (insert_proven t (next_reg (registry s1))
    (set_candidate t c (register_locked t h now s1).2))) as C.
  destruct (steady_counted t0 _ _ C id h0 Ha Hp) as (Ha3 & Hp3 & K3).
  change (agents_of t0 (insert_proven t ?i (set_candidate t c ?x))) with (agents_of t0 x) in Ha3.
  assert (∀ p, pin (pin_of t0 s1) = Some p → ∃ q, pin (pin_of t0 (note_agent_key_proven sha256 t
     (insert_proven t (next_reg (registry s1)) (set_candidate t c (register_locked t h now s1).2)))) = Some q ∧
     renews p q) as K1.
  { intros p Epin. apply K3. unfold pin_of in *; cbn.
    destruct (decide (t = t0)) as [->|Ht]; simplify_map_eq; cbn; [done|done]. }
  rewrite agents_of_register in Ha3.
  assert (id ∈ proven_of t0 s1 ∨ t0 = t ∧ id = next_reg (registry s1)) as Hid.
  { unfold proven_of, pin_of in Hp3 |- *; cbn in Hp3.
    destruct (decide (t = t0)) as [->|Ht]; simplify_map_eq; [|by left]. cbn in Hp3. set_solver. }
  destruct Hid as [Hid|[-> ->]].
  - destruct (R id h0) as (Ha4 & _ & _); [by rewrite agents_of_register|exact Hid|].
    destruct (St id h0 Ha4 Hid) as (Ha5 & Hp5 & K5).
    eapply vouched_steady; [|by apply V]. intros p (q & (r & Er & R2)%K1 & R1)%K5.
    exists r. split; [exact Er|by etrans].
  - rewrite decide_True in Ha3 by done. apply elem_of_app in Ha3 as [Ha3|Ha3].
    { pose proof (ok_ids _ _ _ _ (wf_registry _ W1) Ha3). lia. }
    apply list_elem_of_singleton in Ha3 as [= ->].
    destruct (check_proves _ _ _ _ _ _ _ E) as (p & q & -> & (q' & Eq' & R')%K1 & Rq).
    exists ops, [], c, mode, p, now, removed, q'. split_and!; [done| |exact Eq'|by etrans].
    unfold register_with_candidate_checked. fold s. by rewrite E.
Qed.

Lemma run_vouched ops :
  1 + N.of_nat (length ops) < U64 → forallb checked ops = true → all_vouched ops (run new ops).
Proof.
  induction ops as [|op ops IH] using rev_ind; intros B K.
  { intros t id h Ha. by apply elem_of_nil in Ha. }
  rewrite length_app in B. cbn in B. rewrite forallb_app in K. apply andb_true_iff in K as [K K1].
  cbn in K1. rewrite andb_true_r in K1. specialize (IH ltac:(lia) K).
  destruct (run_sound ops 1 new) as (W & _); [lia|split; [apply new_wf|done]|].
  unfold run in *. rewrite foldl_app. cbn [foldl].
  assert ((∃ t h c mode proof now, op = ORegisterChecked t h c mode proof now) ∨
    ∀ t h c mode proof now, op ≠ ORegisterChecked t h c mode proof now) as [(t & h & c & m & p & n & ->)|N].
  { destruct op; eauto 10. }
  { by apply checked_vouched. }
  intros t id h Ha Hp.
  destruct (step_steady _ t (foldl step new ops) K1 N id h Ha Hp) as (Ha' & Hp' & Kp).
  eapply vouched_steady; [exact Kp|by apply IH].
Qed.

(** C11 a tunnel in force of key proofs serves only agents that proved its key: when the serve
    loops register and park through the checks (fewer than 2^64 operations), then at any time,
    whatever policies were put in force or reloaded meanwhile, an enforced tunnel has no parked
    fallback connection, and each of its registrations was made by a checked registration of
    this run that carried a key proof and was answered Ok with this id, for the very key the
    tunnel is pinned to now, whose pin has since at most been renewed by a later binding of the
    same key. The last part holds for every registration that counts as proven, on any tunnel. *)
Theorem enforced_only_proven ops :
  1 + N.of_nat (length ops) < U64 → forallb checked ops = true →
  let s := run new ops in
  (∀ t, agent_key_mode_for sha256 t s = Enforce →
     slots_of t s = [] ∧ ∀ id h, (id, h) ∈ agents_of t s → id ∈ proven_of t s ∧ vouched ops s t id h) ∧
  ∀ t id h, (id, h) ∈ agents_of t s → id ∈ proven_of t s → vouched ops s t id h.
Proof.
  intros B K s. assert (∀ s, forallb checked ops = true → enforced_ok s → enforced_ok (run s ops)) as Hr.
  { clear. induction ops as [|op ops IH]; intros s K E; cbn; [done|].
    apply andb_true_iff in K as [K Ks]. by apply IH, step_enforced. }
  pose proof (run_vouched ops B K) as V. split; [|exact V].
  intros t M. destruct (Hr new K) with (t := t) as [C1 C2]; [|exact M|].
  { intros t' _. split; [|done]. by intros id h ?%elem_of_nil. }
  split; [exact C2|]. intros id h Ha. pose proof (C1 id h Ha). split; [done|by apply V].
Qed.

End tunnels.

(** ** Concrete runs *)

Definition tok : bytes := replicate 32 x07.
Definition other : bytes := replicate 32 x08.
Definition host_a : bytes := lit "a.example".
Definition key_a (n : N) : ProvenKey := {| key := replicate 32 x0a; issued_at := n |}.
Definition key_b (n : N) : ProvenKey := {| key := replicate 32 x0b; issued_at := n |}.
Definition at_a : SocketAddr :=
  {| ip := Ip4 (V4 10 0 0 1); port := 443; flowinfo := 0; scope_id := 0 |}.

(** Every tunnel enforced. *)
Definition enforce_policy : AgentKeyPolicy :=
  {| default_mode := Enforce; enforce_set := ∅; enforce_file := None; issuers := [] |}.

(** An unproven agent, a parked connection, and a hostname; then the policy is enforced and a
    proven agent registers, and one with an older binding. *)
Definition life : list (Op (H := N)) :=
  [ORegisterChecked tok 1 at_a Log None 10; OParkChecked tok Log 11; ORegisterHost host_a tok;
   OPolicy enforce_policy [] 12; OParkChecked tok Log 13;
   ORegisterChecked tok 2 at_a Log (Some (key_a 5)) 14;
   ORegisterChecked tok 3 at_a Log (Some (key_b 4)) 15].

Definition sha (b : bytes) : bytes := b.

Example life_agents :
  agents_of tok (run sha new life) = [(2, 2)] ∧ slots_of tok (run sha new life) = [] ∧
  pin (pin_of tok (run sha new life)) = Some (key_a 5) ∧
  route_host host_a (run sha new life) = Some tok.
Proof. by vm_compute. Qed.

Lemma edge_state_wf_witness : wf (run sha new life).
Proof. apply (edge_state_wf sha life). by vm_compute. Defined.

Lemma enforced_only_proven_witness :
  agent_key_mode_for sha tok (run sha new life) = Enforce ∧
  vouched sha life (run sha new life) tok 2 2.
Proof.
  split; [by vm_compute|].
  apply (proj1 (enforced_only_proven sha life ltac:(by vm_compute) ltac:(by vm_compute)) tok).
  - by vm_compute.
  - assert (agents_of tok (run sha new life) = [(2, 2)]) as -> by (by vm_compute).
    by apply list_elem_of_singleton.
Defined.

Lemma revoked_stays_down_witness :
  gone tok (run sha new (life ++ ORevoke tok :: life)).
Proof. apply (revoked_stays_down sha tok life life); by vm_compute. Defined.

Lemma pin_never_goes_back_witness :
  ∃ p', pin (pin_of tok (run sha (run sha new life)
          [ORemoveRegistration tok 2; ORevoke other; ORegisterChecked tok 4 at_a Log (Some (key_b 9)) 20])) = Some p' ∧
        newer (key_a 5) p'.
Proof.
  apply (pin_never_goes_back sha tok [ORemoveRegistration tok 2; ORevoke other;
           ORegisterChecked tok 4 at_a Log (Some (key_b 9)) 20] (run sha new life) (key_a 5)); by vm_compute.
Defined.

(** The gauge of parked connections is not what is parked: a teardown drops the connections and
    leaves the gauge. *)
Example parked_gauge_drifts :
  let s := run sha (new (H := N)) [OParkChecked tok Log 1; OParkChecked tok Log 2; ORevoke tok] in
  count_all (tcp_agents (fallback s)) = 0%nat ∧ tcp_parked_gauge (fallback s) = 2.
Proof. by vm_compute. Qed.

(** A tunnel that only ever parked keeps its time of connection when its last connection is
    reaped, and shows it again when it comes back. *)
Example uptime_survives_reaping :
  let s := run sha (new (H := N)) [OParkChecked tok Log 100; OReap (λ _, true); OParkChecked tok Log 9000] in
  connected_since (traffic (run sha (new (H := N)) [OParkChecked tok Log 100; OReap (λ _, true)])) !! tok = Some 100 ∧
  connected_since (traffic s) !! tok = Some 100.
Proof. by vm_compute. Qed.

End Tunnels.
