(* ===== verification/KeyProof.v ===== *)
(** * The proof of an agent's key

    [crates/edge/src/agent_key.rs] and the two registering roles of [serve_connection] in
    [serve.rs]: the handshake in which an agent proves the key an issuer bound to its token,
    what a registration then changes, how long it lasts, and the start-up configuration. What
    the peer sends before a read times out or fails is given as the bytes [recv]; other tasks
    may change the state while the edge waits for them. *)

From S2P Require Import Prelude RustStd Maps Interfaces Codec Binding Reach EdgeState EdgeTunnels.
Import Binding.Binding (SignedAgentBinding, AgentBindingError, authorised).
Import EdgeState.EdgeState (AgentKeyMode, AgentKeyReason, ProvenKey, Log, Enforce, pin, pin_of).
Import Reach.Address.

Module KeyProof.

(** src/crates/edge/src/agent_key.rs:24-24 [MAX_BINDING_LEN] *)
Definition MAX_BINDING_LEN : nat := 512.

(** src/crates/edge/src/agent_key.rs:83-95 [map_binding_error] *)
Definition map_binding_error (e : AgentBindingError) : AgentKeyReason :=
  match e with
  | Binding.TokenMismatch | Binding.TunnelIdTooLong => EdgeState.BindingToken
  | Binding.Malformed | Binding.UnknownIssuer | Binding.BadKey | Binding.IssuedInFuture =>
    EdgeState.BadBinding
  | Binding.BadSignature => EdgeState.BadProof
  | Binding.Expired => EdgeState.Expired
  end.

(** [map_err]. *)
Definition map_err {A E F} (f : E → F) (r : Result A E) : Result A F :=
  match r with Ok a => Ok a | Err e => Err (f e) end.

(** One [read_exact] under the handshake's timeout. *)
Definition read_in_time (recv : bytes) (n : nat) : Result (bytes * bytes) AgentKeyReason :=
  ok_or (take_cur recv n) EdgeState.Timeout.

Section with_ed25519.
Context (sha256 : bytes → bytes).
Context (key_ok : bytes → bool) (verify_strict : bytes → bytes → bytes → bool).

(** src/crates/edge/src/agent_key.rs:29-81 [prove_agent_key]: [nonce] is the one drawn, [sent]
    whether it could be written. *)
Definition prove_agent_key (sent : bool) (nonce recv token : bytes) (issuers : list bytes) (now : N)
    : Result ProvenKey AgentKeyReason :=
  if negb sent then Err EdgeState.Timeout
  else
    p <-? read_in_time recv 2; let '(len_bytes, recv) := p in
    let len := N.to_nat (be_val len_bytes) in
    if (MAX_BINDING_LEN <? len)%nat then Err EdgeState.Oversize
    else
      p <-? read_in_time recv len; let '(binding_bytes, recv) := p in
      p <-? read_in_time recv 64; let '(signature, _) := p in
      signed <-? map_err map_binding_error (Binding.decode binding_bytes);
      _ <-? map_err map_binding_error
              (Binding.verify_registration sha256 key_ok verify_strict issuers signed token nonce
                 signature now);
      Ok {| EdgeState.key := Binding.agent_pubkey (Binding.binding signed);
            EdgeState.issued_at := Binding.issued_at (Binding.binding signed) |}.

(** The agent's half of the handshake, on the wire. *)
Definition reply (s : SignedAgentBinding) (signature : bytes) : bytes :=
  u16_be (N.of_nat (length (Binding.encode s))) ++ Binding.encode s ++ signature.

Lemma read_in_time_Ok recv n h t : read_in_time recv n = Ok (h, t) ↔ length h = n ∧ recv = h ++ t.
Proof.
  unfold read_in_time. rewrite <- take_cur_Some. destruct (take_cur recv n) as [[? ?]|]; cbn; naive_solver.
Qed.

Lemma encode_short s : Binding.signed_ok s → (length (Binding.encode s) ≤ 276)%nat.
Proof.
  intros O. rewrite Binding.length_encoded by done. destruct O as [(_ & L & _) _].
  unfold Binding.MAX_TUNNEL_ID_LEN in L. lia.
Qed.

(** C39 a key is proven exactly by the handshake: the edge takes a key and its time of issue
    from a connection if and only if the peer answered with the wire form of a well-formed
    binding that names them, whose token hash is the digest of the very token presented, which
    has not expired and was not issued more than the clock skew ahead, which one of the
    configured issuers signed, and with a signature by that very key over this handshake's nonce
    and token; whatever follows on the stream does not matter. Every other answer is refused. *)
Theorem agent_proof_exact sent nonce recv token issuers now proof :
  prove_agent_key sent nonce recv token issuers now = Ok proof ↔
  sent = true ∧
  ∃ s signature rest,
    Binding.signed_ok s ∧ length signature = 64%nat ∧ recv = reply s signature ++ rest ∧
    authorised sha256 key_ok verify_strict issuers s token nonce signature now ∧
    proof = {| EdgeState.key := Binding.agent_pubkey (Binding.binding s);
               EdgeState.issued_at := Binding.issued_at (Binding.binding s) |}.
Proof.
  unfold prove_agent_key. destruct sent; cbn [negb]; [|split; [done|by intros [? _]]].
  split.
  - destruct (read_in_time recv 2) as [[lb r1]|] eqn:E1; cbn [rbind]; [|done].
    destruct (_ <? _)%nat eqn:L; [done|].
    destruct (read_in_time r1 _) as [[bb r2]|] eqn:E2; cbn [rbind]; [|done].
    destruct (read_in_time r2 64) as [[sg r3]|] eqn:E3; cbn [rbind]; [|done].
    destruct (Binding.decode bb) as [s|] eqn:D; cbn [map_err rbind]; [|done].
    destruct (Binding.verify_registration _ _ _ _ _ _ _ _ _) as [[]|] eqn:V; cbn [map_err rbind]; [|done].
    intros [= <-]. split; [done|]. apply Binding.decode_Ok in D as [O ->].
    apply Binding.verify_registration_Ok in V; [|done].
    apply read_in_time_Ok in E1 as [L1 ->], E2 as [L2 ->], E3 as [L3 ->].
    exists s, sg, r3. split_and!; try done. unfold reply.
    rewrite <- !app_assoc. f_equal. rewrite L2, N2Nat.id.
    unfold u16_be. rewrite <- L1. symmetry. apply be_bytes_be_val.
  - intros (_ & s & sg & rest & O & Ls & -> & A & ->). unfold reply. rewrite <- !app_assoc.
    pose proof (encode_short s O) as B.
    assert (∀ h t n, length h = n → read_in_time (h ++ t) n = Ok (h, t)) as R
      by (intros; by apply read_in_time_Ok).
    rewrite R by apply length_be_bytes. cbn [rbind]. unfold u16_be.
    rewrite be_val_be_bytes, N.mod_small by (change (256 ^ N.of_nat 2) with 65536; lia).
    rewrite Nat2N.id, (proj2 (Nat.ltb_ge _ _)) by (unfold MAX_BINDING_LEN; lia).
    rewrite R by done. cbn [rbind]. rewrite R by done. cbn [rbind].
    rewrite Binding.binding_read_back by done. cbn [map_err rbind].
    by rewrite (proj2 (Binding.verify_registration_Ok _ _ _ _ _ _ _ _ _ O) A).
Qed.

(** ** The registering roles *)

Context {H : Type}.
Notation State := (EdgeState.EdgeState (H := H)).

(** [agent_key_issuers]. *)
Definition agent_key_issuers (s : State) : list bytes :=
  EdgeState.issuers (EdgeState.agent_key_policy (EdgeState.keys s)).

(** What one stream ended with: the answer written, and the registration returned to the owner
    of the connection, or the error of a write or a read. *)
Inductive Served := Returned (registration : option (bytes * N)) | Failed.

(** [send.write_all(answer).await?], and then what is returned. *)
Definition answered (written : bool) (registration : option (bytes * N)) : Served :=
  if written then Returned registration else Failed.

(** src/crates/edge/src/serve.rs:2157-2236 [serve_connection]: the role 'A' once its token is read,
    with the connections closed; the audit log is left out. *)
Definition serve_a (conn : H) (remote : SocketAddr) (token : bytes) (wall_now : N) (written : bool)
    (s : State) : Served * list H * State :=
  let mode := EdgeState.agent_key_mode_for sha256 token s in
  let '(admitted, s) :=
    EdgeState.register_with_candidate_checked sha256 token conn remote mode None wall_now s in
  match admitted with
  | Ok (reg, removed) => (answered written (Some (token, reg)), removed, s)
  | Err _ => (answered written None, [], s)
  end.

(** src/crates/edge/src/serve.rs:2244-2310 [serve_connection]: the role 'V' once its token is
    read, with the connections closed; [between] is what other tasks do to the state during the handshake. *)
Definition serve_v (conn : H) (remote : SocketAddr) (token nonce recv : bytes) (sent : bool)
    (between : State → State) (now wall_now : N) (written : bool) (s : State)
    : Served * list H * State :=
  let mode := EdgeState.agent_key_mode_for sha256 token s in
  let issuers := agent_key_issuers s in
  let proof := prove_agent_key sent nonce recv token issuers now in
  let s := between s in
  match proof with
  | Err reason =>
    (answered written None, [], EdgeState.note_agent_key_violation sha256 token reason wall_now s)
  | Ok proven =>
    let '(admitted, s) := EdgeState.register_with_candidate_checked sha256 token conn remote mode
                            (Some proven) wall_now s in
    match admitted with
    | Ok (reg, removed) => (answered written (Some (token, reg)), removed, s)
    | Err _ => (answered written None, [], s)
    end
  end.

Lemma pin_of_same t (s s' : State) :
  EdgeState.agent_pins (EdgeState.keys s') = EdgeState.agent_pins (EdgeState.keys s) →
  pin_of t s' = pin_of t s.
Proof. unfold pin_of. by intros ->. Qed.

Lemma pin_of_set t t' e (s : State) :
  pin (pin_of t (EdgeState.set_pins (<[t' := e]> (EdgeState.agent_pins (EdgeState.keys s))) s))
  = if bool_decide (t = t') then pin e else pin (pin_of t s).
Proof.
  unfold pin_of; cbn. destruct (decide (t = t')) as [->|]; [rewrite bool_decide_true by done|
    rewrite bool_decide_false by done]; by simplify_map_eq.
Qed.

Lemma violation_pin t token reason wall_now (s : State) :
  pin (pin_of t (EdgeState.note_agent_key_violation sha256 token reason wall_now s)) = pin (pin_of t s).
Proof. f_equal. apply pin_of_same, Tunnels.counted_violation. Qed.

(** The pin of [t] is the one it had, or [t] is the tunnel and the pin the key proven. *)
Definition pinned (t t' : bytes) (proof : option ProvenKey) (s s' : State) : Prop :=
  pin (pin_of t s') = pin (pin_of t s) ∨ (t = t' ∧ ∃ p, proof = Some p ∧ pin (pin_of t s') = Some p).

Lemma pin_proven_pin t t' p (s : State) :
  pinned t t' (Some p) s (EdgeState.pin_proven_locked t' p s).2.
Proof.
  unfold pinned, EdgeState.pin_proven_locked.
  destruct (pin (pin_of t' s)) as [c|] eqn:E; [destruct (bool_decide (_ = _))|];
    [| destruct (_ <? _)|]; cbn [snd]; rewrite pin_of_set; cbn [pin]; case_bool_decide; subst;
    rewrite ?E; eauto 6.
  destruct (_ <? _); eauto 6.
Qed.

(** What a checked registration pins: nothing new, or the key proven. *)
Lemma check_pin t t' mode proof wall_now (s : State) :
  pinned t t' proof s (EdgeState.check_agent_key sha256 t' mode proof wall_now s).2.
Proof.
  unfold EdgeState.check_agent_key. destruct (EdgeState.is_revoked t' s); [by left|].
  destruct proof as [p|]; [|left; apply violation_pin].
  pose proof (pin_proven_pin t t' p s) as P. unfold pinned in *.
  destruct (EdgeState.pin_proven_locked t' p s) as [[| |r] s1];
    cbn [snd EdgeState.take_registrations_locked] in *; rewrite ?violation_pin; exact P.
Qed.

(** What a registering role pins. *)
Lemma register_pin t t' conn remote mode proof wall_now (s : State) :
  pinned t t' proof s
    (EdgeState.register_with_candidate_checked sha256 t' conn remote mode proof wall_now s).2.
Proof.
  pose proof (check_pin t t' mode proof wall_now s) as P. unfold pinned in *.
  unfold EdgeState.register_with_candidate_checked.
  destruct (EdgeState.check_agent_key _ _ _ _ _ s) as [[[proves removed]|r] s1]; [|exact P].
  cbn [EdgeState.register_locked snd] in *. destruct proves; cbn [snd]; [|exact P].
  rewrite (pin_of_same t _ _ (Tunnels.cd_pins _ _ (Tunnels.counted_proven sha256 t' _))).
  unfold EdgeState.insert_proven. rewrite pin_of_set. cbn [pin].
  case_bool_decide; [subst t'|]; exact P.
Qed.

(** only authorised keys are pinned: when a stream of the role 'V' leaves a tunnel pinned
    to something it was not pinned to when the handshake ended, the tunnel is the stream's, the
    new pin is the key and time of a binding that one of the issuers in force at the start of
    the handshake signed for this very token, unexpired then, and the peer signed the edge's
    nonce with that key; and a stream of the role 'A' never changes a pin. *)
Theorem pinned_keys_authorised conn remote token nonce recv sent between now wall_now written t s :
  let s' := (serve_v conn remote token nonce recv sent between now wall_now written s).2 in
  (pin (pin_of t s') = pin (pin_of t (between s)) ∨
   (t = token ∧ ∃ b signature,
      Binding.signed_ok b ∧
      authorised sha256 key_ok verify_strict (agent_key_issuers s) b token nonce signature now ∧
      pin (pin_of t s') = Some {| EdgeState.key := Binding.agent_pubkey (Binding.binding b);
                                  EdgeState.issued_at := Binding.issued_at (Binding.binding b) |})) ∧
  pin (pin_of t (serve_a conn remote token wall_now written s).2) = pin (pin_of t s).
Proof.
  cbn zeta. split.
  - unfold serve_v. destruct (prove_agent_key _ _ _ _ _ _) as [p|r] eqn:E; [|left; apply violation_pin].
    apply agent_proof_exact in E as (_ & b & sg & rest & O & _ & _ & A & Ep).
    pose proof (register_pin t token conn remote (EdgeState.agent_key_mode_for sha256 token s)
                  (Some p) wall_now (between s)) as P.
    destruct (EdgeState.register_with_candidate_checked _ _ _ _ _ _ _ _) as [[[]|] s1] in P |- *;
      cbn [snd] in *; (destruct P as [P|(-> & q & [= <-] & P)]; [by left|]);
      right; (split; [done|]); exists b, sg; by rewrite <- Ep.
  - unfold serve_a.
    pose proof (register_pin t token conn remote (EdgeState.agent_key_mode_for sha256 token s)
                  None wall_now s) as P.
    destruct (EdgeState.register_with_candidate_checked _ _ _ _ _ _ _ _) as [[[]|] s1];
      cbn [snd] in *; by destruct P as [P|(_ & ? & ? & _)].
Qed.

(** ** The life of a connection *)

(** A stream of the connection: what serving it does to the state. *)
Definition Stream : Type := State → Served * list H * State.

(** src/crates/edge/src/serve.rs:2586-2586 [serve_agent_connection]: the streams after a
    registration, until one fails or the connection closes. *)
Fixpoint serve_further (streams : list Stream) (s : State) : State :=
  match streams with
  | [] => s
  | f :: fs => let '(r, _, s) := f s in match r with Returned _ => serve_further fs s | Failed => s end
  end.

(** src/crates/edge/src/serve.rs:2577-2589 [serve_agent_connection] *)
Definition serve_agent_connection (streams : list Stream) (s : State) : Served * State :=
  match streams with
  | [] => (Failed, s)
  | f :: fs =>
    let '(registered, _, s) := f s in
    (registered, match registered with Returned (Some _) => serve_further fs s | _ => s end)
  end.

(** src/crates/edge/src/serve.rs:5352-5377 [run_edge]: one connection, from its first stream until
    it is closed and evicted. *)
Definition connection (streams : list Stream) (s : State) : State :=
  let '(registered, s) := serve_agent_connection streams s in
  match registered with
  | Returned (Some (token, reg)) => EdgeState.remove_registration token reg s
  | _ => s
  end.

Lemma shrunk_to t v n (s : State) : EdgeState.agents_of t (EdgeState.shrink t v n s) = v.
Proof. by rewrite Tunnels.agents_of_shrink, decide_True. Qed.

Lemma removed_registration t id (s : State) h :
  (id, h) ∉ EdgeState.agents_of t (EdgeState.remove_registration t id s).
Proof.
  assert (∀ l : list (N * H), (id, h) ∉ filter (λ a, a.1 ≠ id) l) as F
    by (intros l Hin; apply list_elem_of_filter in Hin; by destruct Hin).
  assert (∀ u u' : State, EdgeState.registry u' = EdgeState.registry u →
          (id, h) ∉ EdgeState.agents_of t u → (id, h) ∉ EdgeState.agents_of t u') as Same
    by (intros u u' R; unfold EdgeState.agents_of; by rewrite R).
  unfold EdgeState.remove_registration.
  set (s1 := match EdgeState.agent_pins (EdgeState.keys s) !! t with Some e => _ | None => s end).
  destruct (EdgeState.agents (EdgeState.registry s1) !! t) as [v|] eqn:E.
  2: { unfold EdgeState.agents_of. rewrite E. apply not_elem_of_nil. }
  destruct (filter _ v) as [|a v'] eqn:V; [|rewrite shrunk_to, <- V; apply F].
  assert (∀ n, (id, h) ∉ EdgeState.agents_of t (EdgeState.shrink t [] n s1)) as G
    by (intros n; rewrite shrunk_to; apply not_elem_of_nil).
  destruct (EdgeState.has_tcp_agent t _); [eapply Same; [|apply G]; done|].
  eapply Same; [|apply G]. unfold EdgeState.clear_hosts_for; by case_match.
Qed.

(** The registration a connection's first stream was answered with is gone once the connection
    is closed, whatever its further streams did. *)
Theorem first_registration_evicted f streams s token reg h :
  (f s).1.1 = Returned (Some (token, reg)) →
  (reg, h) ∉ EdgeState.agents_of token (connection (f :: streams) s).
Proof.
  intros E. unfold connection, serve_agent_connection. destruct (f s) as [[r l] s1]. cbn in E. subst r.
  apply removed_registration.
Qed.

End with_ed25519.

(** ** The configuration *)

(** A line the operator is warned with; the text is left out. *)
Inductive Warning :=
| UnknownMode (value : bytes)
| BadIssuer (part : bytes)
| BadEnforceFile (e : EdgeState.ReloadError)
| UnreadableEnforceFile.

(** src/crates/edge/src/agent_key.rs:101-107 [AgentKeyConfig] *)
Record AgentKeyConfig := {
  mode : AgentKeyMode; enforce_file : option bytes; enforce_set : gset bytes;
  config_issuers : list bytes; warnings : list Warning }.

(** src/crates/edge/src/agent_key.rs:119-129 [agent_key_config_with]: the mode. *)
Definition read_mode (value : option bytes) : AgentKeyMode * list Warning :=
  match value with
  | None => (Log, [])
  | Some v =>
    if bool_decide (v = lit "log") then (Log, [])
    else if bool_decide (v = lit "enforce") then (Enforce, [])
    else (Log, [UnknownMode v])
  end.

(** src/crates/edge/src/agent_key.rs:131-141 [agent_key_config_with]: the issuers. *)
Definition read_issuers (raw : option bytes) : list bytes * list Warning :=
  match raw with
  | None => ([], [])
  | Some raw =>
    foldl (λ acc part,
      match Hex.decode_32 part with
      | Some key => (acc.1 ++ [key], acc.2)
      | None => (acc.1, acc.2 ++ [BadIssuer part])
      end) ([], []) (filter (λ s, s ≠ []) (trim <$> split_on x2c raw))
  end.

(** src/crates/edge/src/agent_key.rs:143-166 [agent_key_config_with]: the enforce file, its set,
    and whether it could not be used. *)
Definition read_enforce (file : option bytes) (read_file : bytes → option bytes)
    : gset bytes * bool * list Warning :=
  match file with
  | None => (∅, false, [])
  | Some path =>
    match read_file path with
    | None => (∅, true, [UnreadableEnforceFile])
    | Some text =>
      match EdgeState.parse_enforce_list text with
      | Ok set => (set, false, [])
      | Err e => (∅, true, [BadEnforceFile e])
      end
    end
  end.

(** src/crates/edge/src/agent_key.rs:114-183 [agent_key_config_with]: [get] looks a variable up;
    [None] is the refusal to start. *)
Definition agent_key_config_with (get : bytes → option bytes) (read_file : bytes → option bytes)
    : option AgentKeyConfig :=
  let '(mode, w1) := read_mode (get (lit "CT_EDGE_AGENT_KEY_MODE")) in
  let '(issuers, w2) := read_issuers (get (lit "CT_EDGE_AGENT_BINDING_ISSUER_PUBKEYS")) in
  let enforce_file := get (lit "CT_EDGE_AGENT_KEY_ENFORCE_FILE") in
  let '(enforce_set, unreadable, w3) := read_enforce enforce_file read_file in
  let enforce_applies := bool_decide (mode = Enforce) || negb (bool_decide (enforce_set = ∅)) in
  if enforce_applies && (bool_decide (issuers = []) || unreadable) then None
  else Some {| mode := mode; enforce_file := enforce_file; enforce_set := enforce_set;
               config_issuers := issuers; warnings := w1 ++ w2 ++ w3 |}.

(** An edge that starts with proofs in force can check them: where the mode or the list of
    tunnels enforces, at least one well-formed issuer is configured and the list, if one is
    named, was read. *)
Theorem enforcement_can_be_met get read_file c :
  agent_key_config_with get read_file = Some c →
  mode c = Enforce ∨ enforce_set c ≠ ∅ →
  (∃ issuer, issuer ∈ config_issuers c) ∧
  ∀ path, enforce_file c = Some path →
    ∃ text, read_file path = Some text ∧ EdgeState.parse_enforce_list text = Ok (enforce_set c).
Proof.
  unfold agent_key_config_with.
  destruct (read_mode _) as [m w1], (read_issuers _) as [iss w2].
  destruct (read_enforce (get _) read_file) as [[set bad] w3] eqn:R.
  destruct (_ && _) eqn:G; [done|]. intros [= <-] A; cbn in *.
  assert (bool_decide (m = Enforce) || negb (bool_decide (set = ∅)) = true) as Ea
    by (destruct A; [by rewrite bool_decide_true|rewrite (bool_decide_false (set = ∅)) by done;
        by rewrite orb_true_r]).
  rewrite Ea in G. cbn in G. apply orb_false_iff in G as [G1 ->]. bool_facts. split.
  - destruct iss as [|i iss]; [done|]. exists i. by left.
  - intros path P. rewrite P in R. cbn in R. destruct (read_file path) as [text|]; [|done].
    destruct (EdgeState.parse_enforce_list text) as [set'|] eqn:T; [|done].
    injection R as -> _. by exists text.
Qed.

(** ** Concrete handshakes *)

Definition sha (b : bytes) : bytes := take 32 (b ++ replicate 32 x00).
Definition tok : bytes := replicate 32 x07.
Definition nonce : bytes := replicate 32 x09.
Definition at_a : SocketAddr := {| ip := Ip4 (V4 10 0 0 1); port := 4433; flowinfo := 0; scope_id := 0 |}.

(** The toy signatures of [Interfaces], a binding of key 5 issued by key 1 and the answer of its
    holder. *)
Definition strict : bytes → bytes → bytes → bool := @ed_verify Toy.ed25519.
Definition parses : bytes → bool := @key_ok Toy.ed25519.
Definition toy_sign : byte → bytes → bytes := @sign Toy.ed25519.
Definition bound : SignedAgentBinding :=
  Binding.mint toy_sign x01 {| Binding.tunnel_id := lit "tunnel-a"; Binding.token_hash := sha tok;
    Binding.agent_pubkey := replicate 32 x05; Binding.issued_at := 1000; Binding.expires_at := 2000 |}.
Definition answer : bytes := reply bound (Binding.sign_registration toy_sign x05 nonce tok).

Example honest_agent_proven :
  prove_agent_key sha parses strict true nonce answer tok [replicate 32 x02; replicate 32 x01] 1500
  = Ok {| EdgeState.key := replicate 32 x05; EdgeState.issued_at := 1000 |}.
Proof. by vm_compute. Qed.

Example stolen_token_refused :
  prove_agent_key sha parses strict true nonce answer (replicate 32 x08) [replicate 32 x01] 1500
    = Err EdgeState.BindingToken ∧
  prove_agent_key sha parses strict true nonce (reply bound (toy_sign x06 nonce)) tok [replicate 32 x01] 1500
    = Err EdgeState.BadProof ∧
  prove_agent_key sha parses strict true nonce answer tok [replicate 32 x01] 2000 = Err EdgeState.Expired ∧
  prove_agent_key sha parses strict true nonce (take 40 answer) tok [replicate 32 x01] 1500
    = Err EdgeState.Timeout.
Proof. by vm_compute. Qed.

(** A registration whose answer cannot be written, and one made by a further stream of the same
    connection, outlive it: nothing evicts them. *)
Example unanswered_registration_stays :
  EdgeState.agents_of tok
    (connection [serve_a sha 4 at_a tok 1 false] (EdgeState.new (H := N))) = [(1, 4)] ∧
  EdgeState.agents_of tok
    (connection [serve_a sha 4 at_a tok 1 true; serve_a sha 4 at_a tok 2 true] (EdgeState.new (H := N)))
  = [(2, 4)] ∧
  EdgeState.agents_of tok
    (connection [serve_a sha 4 at_a tok 1 true] (EdgeState.new (H := N))) = [].
Proof. by vm_compute. Qed.

End KeyProof.
