(* ===== verification/Delivery.v ===== *)
(** * Confirmed delivery on a channel session

    [common/src/delivery.rs]: the capabilities of a session and their negotiation, the records
    DATA, FIN, FIN_ACK and PROGRESS, and the pump of one end as steps: one step is what one of
    its three futures does between two waits. A write is begun (the record is sealed) and later
    ended; reading, writing and the passing of time are the events of the step. The Noise
    transport is a parameter by its promise: what one end opens is, record for record and in
    order, what the other sealed, and it may stop at any record. *)

From S2P Require Import Prelude RustStd Maps Codec.

Module Delivery.

(** ** Capabilities *)

(** src/crates/common/src/delivery.rs:85-85 [CAPS_MAGIC] *)
Definition CAPS_MAGIC : bytes := lit "CTC".
(** src/crates/common/src/delivery.rs:90-90 [CAPS_VERSION] *)
Definition CAPS_VERSION : byte := x01.
(** src/crates/common/src/delivery.rs:93-93 [CAP_DELIVERY_ACK] *)
Definition CAP_DELIVERY_ACK : N := 1.

(** src/crates/common/src/delivery.rs:98-100 [SessionCaps] *)
Record SessionCaps := { flags : N }.

(** src/crates/common/src/delivery.rs:104-104 [SessionCaps::NONE] *)
Definition NONE : SessionCaps := {| flags := 0 |}.
(** src/crates/common/src/delivery.rs:106-106 [SessionCaps::DELIVERY_ACK] *)
Definition DELIVERY_ACK : SessionCaps := {| flags := CAP_DELIVERY_ACK |}.
(** src/crates/common/src/delivery.rs:110-112 [SessionCaps::from_flags] *)
Definition from_flags (f : N) : SessionCaps := {| flags := f |}.
(** src/crates/common/src/delivery.rs:120-122 [SessionCaps::delivery_ack] *)
Definition delivery_ack (c : SessionCaps) : bool := negb (N.land (flags c) CAP_DELIVERY_ACK =? 0).
(** src/crates/common/src/delivery.rs:125-127 [SessionCaps::intersect] *)
Definition intersect (a b : SessionCaps) : SessionCaps := {| flags := N.land (flags a) (flags b) |}.

(** src/crates/common/src/delivery.rs:131-140 [SessionCaps::to_payload] *)
Definition to_payload (c : SessionCaps) : bytes :=
  if flags c =? 0 then [] else CAPS_MAGIC ++ [CAPS_VERSION] ++ u16_be (flags c).

(** src/crates/common/src/delivery.rs:144-149 [SessionCaps::from_payload] *)
Definition from_payload (payload : bytes) : option SessionCaps :=
  if (length payload <? 6)%nat || negb (bool_decide (take 3 payload = CAPS_MAGIC)) ||
     bool_decide (payload !! 3%nat = Some x00)
  then None
  else Some {| flags := be_val (take 2 (drop 4 payload)) |}.

(** src/crates/common/src/a2a.rs:205-207 [a2a_respond_verified_with_caps]: what the responder
    agrees to, given the payload of message 1. *)
Definition responder_agrees (own : SessionCaps) (offer : bytes) : SessionCaps :=
  match from_payload offer with Some o => intersect o own | None => NONE end.

(** src/crates/common/src/a2a.rs:99-99 [a2a_initiate_with_caps]: what the initiator agrees to,
    given the payload of message 2. *)
Definition initiator_agrees (offer : SessionCaps) (answer : bytes) : SessionCaps :=
  match from_payload answer with Some a => intersect a offer | None => NONE end.

(** ** Reasons and errors *)

(** src/crates/common/src/delivery.rs:158-173 [FinReason] *)
Inductive FinReason :=
| Normal | OwnGrantExpired | OwnGrantRevoked | PeerGrantEnded | LocalError | PeerGrantRefused
| Unknown (b : byte).

#[global] Instance reason_eq_dec : EqDecision FinReason.
Proof. solve_decision. Defined.

(** src/crates/common/src/delivery.rs:177-187 [FinReason::to_byte] *)
Definition to_byte (r : FinReason) : byte :=
  match r with
  | Normal => x00 | OwnGrantExpired => x01 | OwnGrantRevoked => x02 | PeerGrantEnded => x03
  | LocalError => x04 | PeerGrantRefused => x05 | Unknown b => b
  end.

(** src/crates/common/src/delivery.rs:190-200 [FinReason::from_byte] *)
Definition from_byte (b : byte) : FinReason :=
  match b with
  | x00 => Normal | x01 => OwnGrantExpired | x02 => OwnGrantRevoked | x03 => PeerGrantEnded
  | x04 => LocalError | x05 => PeerGrantRefused | other => Unknown other
  end.

(** src/crates/common/src/delivery.rs:203-213 [FinReason::local_words] *)
Definition local_words (r : FinReason) : bytes :=
  match r with
  | Normal => lit "the local input ended"
  | OwnGrantExpired => lit "this member's channel grant expired"
  | OwnGrantRevoked => lit "this member's channel grant was revoked"
  | PeerGrantEnded => lit "the peer's channel grant ended"
  | LocalError => lit "the local side failed"
  | PeerGrantRefused => lit "the peer's grant was refused"
  | Unknown b => lit "reason code " ++ decimal (N_of_byte b)
  end.

(** src/crates/common/src/delivery.rs:216-226 [FinReason::peer_words] *)
Definition peer_words (r : FinReason) : bytes :=
  match r with
  | Normal => lit "the peer's input ended"
  | OwnGrantExpired => lit "the peer's own channel grant expired"
  | OwnGrantRevoked => lit "the peer's own channel grant was revoked"
  | PeerGrantEnded => lit "the peer reports that this member's channel grant ended"
  | LocalError => lit "the peer's local side failed"
  | PeerGrantRefused => lit "the peer refused this member's grant"
  | Unknown b => lit "the peer ended with reason code " ++ decimal (N_of_byte b)
  end.

(** The kinds of [io::Error] the pump uses; the kind of an error of the local side is a number. *)
Inductive ErrorKind :=
| PermissionDenied | Other | UnexpectedEof | InvalidData | ConnectionAborted | TimedOut
| LocalKind (k : N).

(** src/crates/common/src/delivery.rs:229-237 [FinReason::error_kind] *)
Definition error_kind (r : FinReason) : ErrorKind :=
  match r with
  | OwnGrantExpired | OwnGrantRevoked | PeerGrantEnded | PeerGrantRefused => PermissionDenied
  | _ => Other
  end.

(** src/crates/common/src/delivery.rs:244-249 [DeliveryReport] *)
Record DeliveryReport := { rep_sent : N; rep_received : N }.

(** src/crates/common/src/delivery.rs:255-283 [DeliveryError]: a [Duration] is in nanoseconds. *)
Inductive DeliveryError :=
| TransportEnded (received : N) (peer_fin : bool) (sent : N) (fin_sent : bool) (confirmed : bool)
    (cause : bytes)
| Truncated (announced received : N)
| Unconfirmed (sent confirmed : N)
| AckTimeout (sent idle : N)
| PeerEnded (reason : FinReason) (announced received : N)
| LocalEnded (reason : FinReason) (sent : N) (detail : bytes)
| Protocol (what : bytes).

Definition num (n : N) : bytes := decimal n.

(** src/crates/common/src/delivery.rs:286-358 [DeliveryError::fmt] *)
Definition display (e : DeliveryError) : bytes :=
  match e with
  | TransportEnded received peer_fin sent fin_sent confirmed cause =>
    match fin_sent, confirmed, peer_fin with
    | false, _, false =>
      lit "session cut: the transport ended (" ++ cause ++ lit ") while both directions were still open ("
      ++ num sent ++ lit " bytes sent, " ++ num received ++ lit " received; a direction is confirmed only when it ends)"
    | false, _, true =>
      lit "session cut: the transport ended (" ++ cause ++ lit ") while our direction was still open ("
      ++ num sent ++ lit " bytes sent, none of them confirmed yet; the peer's stream ended complete after "
      ++ num received ++ lit " bytes)"
    | true, false, false =>
      lit "delivery not confirmed: the transport ended (" ++ cause ++ lit ") before the peer's confirmation of our "
      ++ num sent ++ lit " bytes and before the end of the peer's stream (" ++ num received
      ++ lit " bytes received, then nothing)"
    | true, false, true =>
      lit "delivery not confirmed: the transport ended (" ++ cause ++ lit ") before the peer's confirmation of our "
      ++ num sent ++ lit " bytes (the peer's stream ended complete after " ++ num received ++ lit " bytes)"
    | true, true, false =>
      lit "the peer's stream is incomplete: the transport ended (" ++ cause
      ++ lit ") before the end of the peer's stream (" ++ num received ++ lit " bytes received, then nothing); our "
      ++ num sent ++ lit " bytes were confirmed"
    | true, true, true =>
      lit "the transport ended (" ++ cause ++ lit ") before our confirmation of the peer's " ++ num received
      ++ lit " bytes was out; our " ++ num sent ++ lit " bytes were confirmed"
    end
  | Truncated announced received =>
    lit "delivery truncated: the peer sent " ++ num announced ++ lit " bytes, " ++ num received ++ lit " arrived"
  | Unconfirmed sent confirmed =>
    lit "delivery not confirmed: the peer confirmed " ++ num confirmed ++ lit " of our " ++ num sent ++ lit " bytes"
  | AckTimeout sent idle =>
    lit "delivery not confirmed: no word from the peer for " ++ num (idle / 1000000000)
    ++ lit "s (no data, no progress report) while waiting for its confirmation of our " ++ num sent ++ lit " bytes"
  | PeerEnded reason announced received =>
    lit "the peer ended the session early: " ++ peer_words reason ++ lit " (it had sent " ++ num announced
    ++ lit " bytes, " ++ num received ++ lit " arrived)"
  | LocalEnded reason sent detail =>
    lit "ended the session early: " ++ local_words reason ++ lit " after sending " ++ num sent ++ lit " bytes ("
    ++ detail ++ lit ")"
  | Protocol what => lit "delivery protocol violated by the peer: " ++ what
  end.

(** An [io::Error] of the pump: a delivery error inside, or one of the session's own. *)
Inductive IoError := Delivery (kind : ErrorKind) (e : DeliveryError) | Plain (text : bytes).

(** src/crates/common/src/delivery.rs:370-372 [delivery_error] *)
Definition delivery_error (e : IoError) : option DeliveryError :=
  match e with Delivery _ e => Some e | Plain _ => None end.

(** ** Records *)

(** src/crates/common/src/delivery.rs:378-378 [DEFAULT_FIN_ACK_IDLE] *)
Definition DEFAULT_FIN_ACK_IDLE : N := 60 * 1000000000.
(** src/crates/common/src/delivery.rs:384-384 [PROGRESS_EVERY_MAX] *)
Definition PROGRESS_EVERY_MAX : N := 15 * 1000000000.
(** src/crates/common/src/delivery.rs:388-388 [ABORT_GRACE] *)
Definition ABORT_GRACE : N := 2 * 1000000000.
(** src/crates/common/src/delivery.rs:390-390 [REC_DATA] *)
Definition REC_DATA : byte := x00.
(** src/crates/common/src/delivery.rs:391-391 [REC_FIN] *)
Definition REC_FIN : byte := x01.
(** src/crates/common/src/delivery.rs:392-392 [REC_FIN_ACK] *)
Definition REC_FIN_ACK : byte := x02.
(** src/crates/common/src/delivery.rs:393-393 [REC_PROGRESS] *)
Definition REC_PROGRESS : byte := x03.
(** src/crates/common/src/delivery.rs:467-467 [CHUNK] *)
Definition CHUNK : nat := 16384.

(** A record an end seals: [tag | body]. *)
Inductive Rec :=
| RData (body : bytes) | RFin (sent : N) (reason : FinReason) | RFinAck (received : N)
| RProgress (delivered : N).

(** src/crates/common/src/delivery.rs:403-408 [fin_body] *)
Definition fin_body (sent : N) (reason : FinReason) : bytes := u64_be sent ++ [to_byte reason].

(** src/crates/common/src/delivery.rs:410-414 [u64_at] *)
Definition u64_at (bs : bytes) : N := be_val (take 8 bs).

(** The plaintext of a record, as [write_record] assembles it and as a DATA record is sealed from
    its buffer. *)
Definition encode (r : Rec) : bytes :=
  match r with
  | RData body => REC_DATA :: body
  | RFin sent reason => REC_FIN :: fin_body sent reason
  | RFinAck received => REC_FIN_ACK :: u64_be received
  | RProgress delivered => REC_PROGRESS :: u64_be delivered
  end.

(** src/crates/common/src/delivery.rs:396-401 [ToOutbound] *)
Inductive ToOutbound := FinAck (received : N) | Abort (reason : FinReason) (e : IoError).

(** ** The pump of one end *)

(** The write the outbound future is waiting for. [WAbort] is the FIN of an abort, after which
    the pump ends with the error. *)
Inductive Writing :=
| WFinAck (received : N) | WProgress (delivered : N) | WFin | WData (n : N) | WAbort (e : IoError).

(** Where the inbound future waits: for a record, for the local side to take data, for the
    local side to close, or at its end with an error to return. *)
Inductive Phase := Reading | Delivering (data : bytes) | Closing | Leaving (e : IoError).

(** src/crates/common/src/delivery.rs:474-490 [noise_pump_v2]: the variables of the outbound future,
    those of the inbound future and those they share, the channel between them, the watchdog's
    deadline, what was read from and written to the local side, and the result. Times are
    nanoseconds since [start]; [fin_out_at] and [last_record_at] milliseconds. *)
Record Pump := {
  sent : N; local_open : bool; fin_ack_out : bool; reported : N; writing : option Writing;
  received : N; their_fin : bool; our_fin_confirmed : bool; phase : Phase;
  sent_total : N; received_total : N; fin_sent : bool; peer_fin : bool; confirmed : bool;
  fin_out : bool; fin_out_at : N; last_record_at : N; deadline : option N;
  commands : list ToOutbound;
  local_read : bytes; local_written : bytes; local_closed : bool;
  result : option (Result DeliveryReport IoError);
}.

(** src/crates/common/src/delivery.rs:474-490 [noise_pump_v2] *)
Definition start : Pump := {|
  sent := 0; local_open := true; fin_ack_out := false; reported := 0; writing := None;
  received := 0; their_fin := false; our_fin_confirmed := false; phase := Reading;
  sent_total := 0; received_total := 0; fin_sent := false; peer_fin := false; confirmed := false;
  fin_out := false; fin_out_at := 0; last_record_at := 0; deadline := None;
  commands := []; local_read := []; local_written := []; local_closed := false; result := None |}.

(** What a read of the local side gives; [local_end]'s answer comes with it. *)
Inductive LocalRead :=
| LEof (reason : FinReason) | LChunk (data : bytes) | LFail (kind : ErrorKind) (text : bytes) (reason : FinReason).

(** How a write to the transport ends: [None] is success. *)
Definition WriteEnd : Type := option (ErrorKind * bytes).

(** How the local side takes what it is given: all of it, or the first [n] bytes and a failure. *)
Inductive LocalTake := TakeAll | TakeFail (n : nat) (kind : ErrorKind) (text : bytes) (reason : FinReason).

Inductive Ev :=
| ECommand
| ETick
| ERead (r : LocalRead)
| EWritten (r : WriteEnd) (now : N)
| ESealFails (data text : bytes)
| ERecord (pt : bytes) (now : N)
| ETransportFails (kind : ErrorKind) (text : bytes)
| EOpenFails (text : bytes)
| ETaken (r : LocalTake) (now : N)
| ELeave
| EArm
| EFire (now : N)
| EJoin.

Definition ms (now : N) : N := wrap64 (now / 1000000).
Definition nanos (millis : N) : N := millis * 1000000.

(** A reason of the local side is never a normal end. *)
Definition not_normal (r : FinReason) : FinReason :=
  match r with Normal => LocalError | other => other end.

Definition set_out (p : Pump) (w : option Writing) (cmds : list ToOutbound) : Pump :=
  {| sent := sent p; local_open := local_open p; fin_ack_out := fin_ack_out p; reported := reported p;
     writing := w; received := received p; their_fin := their_fin p;
     our_fin_confirmed := our_fin_confirmed p; phase := phase p; sent_total := sent_total p;
     received_total := received_total p; fin_sent := fin_sent p; peer_fin := peer_fin p;
     confirmed := confirmed p; fin_out := fin_out p; fin_out_at := fin_out_at p;
     last_record_at := last_record_at p; deadline := deadline p; commands := cmds;
     local_read := local_read p; local_written := local_written p; local_closed := local_closed p;
     result := result p |}.

Definition set_in (p : Pump) (ph : Phase) (last : N) : Pump :=
  {| sent := sent p; local_open := local_open p; fin_ack_out := fin_ack_out p; reported := reported p;
     writing := writing p; received := received p; their_fin := their_fin p;
     our_fin_confirmed := our_fin_confirmed p; phase := ph; sent_total := sent_total p;
     received_total := received_total p; fin_sent := fin_sent p; peer_fin := peer_fin p;
     confirmed := confirmed p; fin_out := fin_out p; fin_out_at := fin_out_at p;
     last_record_at := last; deadline := deadline p; commands := commands p;
     local_read := local_read p; local_written := local_written p; local_closed := local_closed p;
     result := result p |}.

Definition set_deadline (p : Pump) (d : option N) : Pump :=
  {| sent := sent p; local_open := local_open p; fin_ack_out := fin_ack_out p; reported := reported p;
     writing := writing p; received := received p; their_fin := their_fin p;
     our_fin_confirmed := our_fin_confirmed p; phase := phase p; sent_total := sent_total p;
     received_total := received_total p; fin_sent := fin_sent p; peer_fin := peer_fin p;
     confirmed := confirmed p; fin_out := fin_out p; fin_out_at := fin_out_at p;
     last_record_at := last_record_at p; deadline := d; commands := commands p;
     local_read := local_read p; local_written := local_written p; local_closed := local_closed p;
     result := result p |}.

Definition finish (p : Pump) (r : Result DeliveryReport IoError) : Pump :=
  {| sent := sent p; local_open := local_open p; fin_ack_out := fin_ack_out p; reported := reported p;
     writing := writing p; received := received p; their_fin := their_fin p;
     our_fin_confirmed := our_fin_confirmed p; phase := phase p; sent_total := sent_total p;
     received_total := received_total p; fin_sent := fin_sent p; peer_fin := peer_fin p;
     confirmed := confirmed p; fin_out := fin_out p; fin_out_at := fin_out_at p;
     last_record_at := last_record_at p; deadline := deadline p; commands := commands p;
     local_read := local_read p; local_written := local_written p; local_closed := local_closed p;
     result := Some r |}.

(** src/crates/common/src/delivery.rs:493-508 [noise_pump_v2]: the closure [transport_ended]. *)
Definition transport_ended (p : Pump) (kind : ErrorKind) (text : bytes) : IoError :=
  let cause := match kind with UnexpectedEof => lit "end of stream" | _ => text end in
  Delivery UnexpectedEof
    (TransportEnded (received_total p) (peer_fin p) (sent_total p) (fin_sent p) (confirmed p) cause).

(** src/crates/common/src/delivery.rs:509-509 [noise_pump_v2]: the closure [protocol]. *)
Definition protocol (what : bytes) : IoError := Delivery InvalidData (Protocol what).

(** ** The outbound future *)

(** src/crates/common/src/delivery.rs:513-513 [noise_pump_v2]: the period of the progress timer. *)
Definition progress_every (fin_ack_idle : N) : N := N.max (N.min (fin_ack_idle / 4) PROGRESS_EVERY_MAX) 10000000.

(** The outbound loop waits in its [select!]. *)
Definition selecting (p : Pump) : bool :=
  match writing p with None => local_open p || negb (fin_ack_out p) | Some _ => false end.

(** A write is begun: the record is on its way. *)
Definition write (p : Pump) (w : Writing) (cmds : list ToOutbound) (r : Rec) : option (Pump * list Rec) :=
  Some (set_out p (Some w) cmds, [r]).

(** src/crates/common/src/delivery.rs:533-550 [noise_pump_v2]: a command of the inbound future. *)
Definition on_command (p : Pump) : option (Pump * list Rec) :=
  match commands p with
  | FinAck n :: cmds => write p (WFinAck n) cmds (RFinAck n)
  | Abort reason e :: cmds => write p (WAbort e) cmds (RFin (sent p) reason)
  | [] => None
  end.

(** src/crates/common/src/delivery.rs:556-564 [noise_pump_v2]: the progress timer. *)
Definition on_tick (p : Pump) : option (Pump * list Rec) :=
  match commands p with
  | [] =>
    if fin_ack_out p then None
    else if reported p <? received_total p
    then write p (WProgress (received_total p)) [] (RProgress (received_total p))
    else Some (p, [])
  | _ => None
  end.

(** The flags are set before the FIN is written. *)
Definition announce (p : Pump) : Pump :=
  {| sent := sent p; local_open := local_open p; fin_ack_out := fin_ack_out p; reported := reported p;
     writing := writing p; received := received p; their_fin := their_fin p;
     our_fin_confirmed := our_fin_confirmed p; phase := phase p; sent_total := sent p;
     received_total := received_total p; fin_sent := true; peer_fin := peer_fin p;
     confirmed := confirmed p; fin_out := fin_out p; fin_out_at := fin_out_at p;
     last_record_at := last_record_at p; deadline := deadline p; commands := commands p;
     local_read := local_read p; local_written := local_written p; local_closed := local_closed p;
     result := result p |}.

Definition took (p : Pump) (data : bytes) : Pump :=
  {| sent := sent p; local_open := local_open p; fin_ack_out := fin_ack_out p; reported := reported p;
     writing := writing p; received := received p; their_fin := their_fin p;
     our_fin_confirmed := our_fin_confirmed p; phase := phase p; sent_total := sent_total p;
     received_total := received_total p; fin_sent := fin_sent p; peer_fin := peer_fin p;
     confirmed := confirmed p; fin_out := fin_out p; fin_out_at := fin_out_at p;
     last_record_at := last_record_at p; deadline := deadline p; commands := commands p;
     local_read := local_read p ++ data; local_written := local_written p; local_closed := local_closed p;
     result := result p |}.

(** src/crates/common/src/delivery.rs:565-624 [noise_pump_v2]: a read of the local side. A read
    gives at most [CHUNK] bytes. *)
Definition on_read (p : Pump) (r : LocalRead) : option (Pump * list Rec) :=
  match commands p with
  | _ :: _ => None
  | [] =>
    if local_open p then
      match r with
      | LEof reason =>
        if negb (bool_decide (reason = Normal)) then
          write p (WAbort (Delivery (error_kind reason) (LocalEnded reason (sent p) (lit "the local side ended"))))
                [] (RFin (sent p) reason)
        else write (announce p) WFin [] (RFin (sent p) reason)
      | LChunk data =>
        match data with
        | [] => None
        | _ => if (CHUNK <? length data)%nat then None
               else write (took p data) (WData (N.of_nat (length data))) [] (RData data)
        end
      | LFail kind text reason =>
        let reason := not_normal reason in
        write p (WAbort (Delivery kind (LocalEnded reason (sent p) (lit "reading the local side failed: " ++ text))))
              [] (RFin (sent p) reason)
      end
    else None
  end.

(** What a write that succeeded changes. *)
Definition wrote (p : Pump) (w : Writing) (now : N) : Pump :=
  {| sent := match w with WData n => wrap64 (sent p + n) | _ => sent p end;
     local_open := match w with WFin => false | _ => local_open p end;
     fin_ack_out := match w with WFinAck _ => true | _ => fin_ack_out p end;
     reported := match w with WProgress d => d | _ => reported p end;
     writing := None; received := received p; their_fin := their_fin p;
     our_fin_confirmed := our_fin_confirmed p; phase := phase p;
     sent_total := match w with WData n => wrap64 (sent p + n) | _ => sent_total p end;
     received_total := received_total p; fin_sent := fin_sent p; peer_fin := peer_fin p;
     confirmed := confirmed p;
     fin_out := match w with WFin => true | _ => fin_out p end;
     fin_out_at := match w with WFin => ms now | _ => fin_out_at p end;
     last_record_at := last_record_at p; deadline := deadline p; commands := commands p;
     local_read := local_read p; local_written := local_written p; local_closed := local_closed p;
     result := result p |}.

(** src/crates/common/src/delivery.rs:533-624 [noise_pump_v2]: the end of a write. An abort ends
    the pump however its write ended. *)
Definition on_written (p : Pump) (r : WriteEnd) (now : N) : option Pump :=
  match writing p with
  | None => None
  | Some (WAbort e) => Some (finish p (Err e))
  | Some w => match r with
              | None => Some (wrote p w now)
              | Some (kind, text) => Some (finish p (Err (transport_ended p kind text)))
              end
  end.

(** src/crates/common/src/delivery.rs:596-596 [noise_pump_v2]: sealing a DATA record fails. *)
Definition on_seal_fails (p : Pump) (data text : bytes) : option Pump :=
  match commands p with
  | [] => if local_open p then Some (finish (took p data) (Err (Plain text))) else None
  | _ => None
  end.

(** ** The inbound future *)

(** The inbound loop waits for a record. *)
Definition reading (p : Pump) : bool :=
  match phase p with Reading => negb (their_fin p && our_fin_confirmed p) | _ => false end.

Definition confirm (p : Pump) : Pump :=
  {| sent := sent p; local_open := local_open p; fin_ack_out := fin_ack_out p; reported := reported p;
     writing := writing p; received := received p; their_fin := their_fin p;
     our_fin_confirmed := true; phase := phase p; sent_total := sent_total p;
     received_total := received_total p; fin_sent := fin_sent p; peer_fin := peer_fin p;
     confirmed := true; fin_out := fin_out p; fin_out_at := fin_out_at p;
     last_record_at := last_record_at p; deadline := deadline p; commands := commands p;
     local_read := local_read p; local_written := local_written p; local_closed := local_closed p;
     result := result p |}.

(** src/crates/common/src/delivery.rs:661-757 [noise_pump_v2]: a record that was opened at [now]. *)
Definition on_record (p : Pump) (pt : bytes) (now : N) : Pump :=
  let p := set_in p (phase p) (ms now) in
  let fail e := finish p (Err e) in
  let len := blen pt in
  match pt with
  | [] => fail (protocol (lit "an empty record"))
  | tag :: body =>
    if bool_decide (tag = REC_DATA) then
      if their_fin p then fail (protocol (lit "application data after the peer's FIN"))
      else set_in p (Delivering body) (ms now)
    else if bool_decide (tag = REC_FIN) then
      if negb (len =? 1 + 9) then fail (protocol (lit "a FIN record of " ++ num len ++ lit " bytes"))
      else
        let announced := u64_at body in
        let reason := from_byte (default x00 (body !! 8%nat)) in
        if negb (bool_decide (reason = Normal)) then
          set_in p (Leaving (Delivery ConnectionAborted (PeerEnded reason announced (received p)))) (ms now)
        else if their_fin p then fail (protocol (lit "a second FIN"))
        else if negb (announced =? received p) then
          fail (Delivery UnexpectedEof (Truncated announced (received p)))
        else set_in p Closing (ms now)
    else if bool_decide (tag = REC_FIN_ACK) then
      if negb (len =? 1 + 8) then fail (protocol (lit "a FIN_ACK record of " ++ num len ++ lit " bytes"))
      else if negb (fin_sent p) then fail (protocol (lit "a FIN_ACK before this side's FIN"))
      else if our_fin_confirmed p then fail (protocol (lit "a second FIN_ACK"))
      else
        let got := u64_at body in
        if negb (got =? sent_total p) then fail (Delivery Other (Unconfirmed (sent_total p) got))
        else confirm p
    else if bool_decide (tag = REC_PROGRESS) then
      if negb (len =? 1 + 8) then fail (protocol (lit "a PROGRESS record of " ++ num len ++ lit " bytes"))
      else p
    else fail (protocol (lit "an unknown record tag 0x" ++ Hex.encode [tag]))
  end.

(** The local side took [n] bytes of what it was given. *)
Definition gave (p : Pump) (bs : bytes) (count : N) (closed fin : bool) (cmds : list ToOutbound) (ph : Phase)
    (last : N) : Pump :=
  {| sent := sent p; local_open := local_open p; fin_ack_out := fin_ack_out p; reported := reported p;
     writing := writing p; received := count; their_fin := fin;
     our_fin_confirmed := our_fin_confirmed p; phase := ph; sent_total := sent_total p;
     received_total := count; fin_sent := fin_sent p; peer_fin := fin;
     confirmed := confirmed p; fin_out := fin_out p; fin_out_at := fin_out_at p;
     last_record_at := last; deadline := deadline p; commands := commands p ++ cmds;
     local_read := local_read p; local_written := local_written p ++ bs; local_closed := closed;
     result := result p |}.

(** src/crates/common/src/delivery.rs:640-657 [noise_pump_v2]: the closure [abort]. *)
Definition abort_error (p : Pump) (kind : ErrorKind) (text : bytes) (reason : FinReason) : IoError :=
  Delivery kind (LocalEnded (not_normal reason) (sent_total p) (lit "delivering to the local side failed: " ++ text)).

(** src/crates/common/src/delivery.rs:677-733 [noise_pump_v2]: the local side has taken the data,
    or is closed, or fails. *)
Definition on_taken (p : Pump) (r : LocalTake) (now : N) : option Pump :=
  match phase p with
  | Delivering data =>
    match r with
    | TakeAll =>
      Some (gave p data (wrap64 (received p + blen data)) (local_closed p) (their_fin p) [] Reading (ms now))
    | TakeFail n kind text reason =>
      let e := abort_error p kind text reason in
      Some (gave p (take n data) (received p) (local_closed p) (their_fin p)
              [Abort (not_normal reason) e] (Leaving e) (ms now))
    end
  | Closing =>
    match r with
    | TakeAll => Some (gave p [] (received p) true true [FinAck (received p)] Reading (ms now))
    | TakeFail n kind text reason =>
      let e := abort_error p kind text reason in
      Some (gave p [] (received p) (local_closed p) (their_fin p)
              [Abort (not_normal reason) e] (Leaving e) (ms now))
    end
  | _ => None
  end.

(** ** The watchdog *)

(** The local side is being given data or closed. *)
Definition delivering (p : Pump) : bool :=
  match phase p with Delivering _ | Closing => true | _ => false end.

Section pump.
Context (fin_ack_idle : N).

(** src/crates/common/src/delivery.rs:763-770 [noise_pump_v2]: the watchdog computes its deadline. *)
Definition on_arm (p : Pump) : option Pump :=
  if fin_out p && negb (confirmed p) then
    match deadline p with
    | None => Some (set_deadline p (Some (nanos (N.max (fin_out_at p) (last_record_at p)) + fin_ack_idle)))
    | Some _ => None
    end
  else None.

(** src/crates/common/src/delivery.rs:771-792 [noise_pump_v2]: the deadline has passed. *)
Definition on_fire (p : Pump) (now : N) : option Pump :=
  match deadline p with
  | None => None
  | Some d =>
    if now <? d then None
    else if confirmed p then Some (set_deadline p None)
    else if delivering p then Some (set_deadline (set_in p (phase p) (ms now)) None)
    else if nanos (N.max (fin_out_at p) (last_record_at p)) + fin_ack_idle <=? now
         then Some (finish p (Err (Delivery TimedOut (AckTimeout (sent_total p) fin_ack_idle))))
         else Some (set_deadline p None)
  end.

(** ** One step *)

(** The three futures have ended well. *)
Definition joined (p : Pump) : bool :=
  match writing p, phase p with
  | None, Reading =>
    negb (local_open p) && fin_ack_out p && their_fin p && our_fin_confirmed p && fin_out p && confirmed p
  | _, _ => false
  end.

(** src/crates/common/src/delivery.rs:455-801 [noise_pump_v2]: one step of the pump and the records
    it seals; no step when an event cannot happen in this state or the pump has ended. *)
Definition pump_step (p : Pump) (e : Ev) : option (Pump * list Rec) :=
  let quiet o := (λ p, (p, [])) <$> o in
  match result p with
  | Some _ => None
  | None =>
    match e with
    | ECommand => if selecting p then on_command p else None
    | ETick => if selecting p then on_tick p else None
    | ERead r => if selecting p then on_read p r else None
    | ESealFails data text => if selecting p then quiet (on_seal_fails p data text) else None
    | EWritten r now => quiet (on_written p r now)
    | ERecord pt now => if reading p then Some (on_record p pt now, []) else None
    | ETransportFails kind text =>
      if reading p then Some (finish p (Err (transport_ended p kind text)), []) else None
    | EOpenFails text => if reading p then Some (finish p (Err (Plain (lit "noise: " ++ text))), []) else None
    | ETaken r now => quiet (on_taken p r now)
    | ELeave => match phase p with Leaving e => Some (finish p (Err e), []) | _ => None end
    | EArm => quiet (on_arm p)
    | EFire now => quiet (on_fire p now)
    | EJoin => if joined p then Some (finish p (Ok {| rep_sent := sent p; rep_received := received p |}), [])
               else None
    end
  end.

End pump.

(** ** A session: two pumps and the records between them *)

(** A pump with the records it has sealed and those it has opened. *)
Record Side := { pump : Pump; out : list Rec; inn : list Rec }.

(** A reason whose byte is not mistaken for that of a normal end: all but [FinReason::Unknown(0)]. *)
Definition sound_reason (r : FinReason) : Prop := to_byte r = x00 → r = Normal.

(** The reasons with which the local sides of a session may end, as their [local_end] answers. *)
Definition tells_apart (ends : FinReason → Prop) : Prop := ∀ r, ends r → sound_reason r.

Definition event_ends (ends : FinReason → Prop) (e : Ev) : Prop :=
  match e with
  | ERead (LEof r) | ERead (LFail _ _ r) | ETaken (TakeFail _ _ _ r) _ => ends r
  | _ => True
  end.
Definition sound_event : Ev → Prop := event_ends sound_reason.

Lemma event_sound ends e : tells_apart ends → event_ends ends e → sound_event e.
Proof. intros T. destruct e as [| |[]| | | | | |[] ?| | | |]; cbn; auto. Qed.

Definition is_record (e : Ev) : bool := match e with ERecord _ _ => true | _ => false end.

(** A step of one side, whose peer has sealed [feed]: an event of its own, or the next record. *)
Inductive side_step (ends : FinReason → Prop) (idle : N) (feed : list Rec) (s : Side) : Side → Prop :=
| side_own e p rs :
    is_record e = false → event_ends ends e → pump_step idle (pump s) e = Some (p, rs) →
    side_step ends idle feed s {| pump := p; out := out s ++ rs; inn := inn s |}
| side_opens r now p :
    feed !! length (inn s) = Some r → pump_step idle (pump s) (ERecord (encode r) now) = Some (p, []) →
    side_step ends idle feed s {| pump := p; out := out s; inn := inn s ++ [r] |}.

Definition fresh : Side := {| pump := start; out := []; inn := [] |}.

(** ** What is in a list of records *)

Definition data_of (r : Rec) : bytes := match r with RData b => b | _ => [] end.
Definition datas (rs : list Rec) : bytes := concat (map data_of rs).
Definition fin_of (r : Rec) : option N := match r with RFin n Normal => Some n | _ => None end.
Definition fins (rs : list Rec) : list N := omap fin_of rs.
Definition ack_of (r : Rec) : option N := match r with RFinAck n => Some n | _ => None end.
Definition acks (rs : list Rec) : list N := omap ack_of rs.
Definition ack_cmd (c : ToOutbound) : option N := match c with FinAck n => Some n | _ => None end.

(** Records that may follow a FIN. *)
Definition no_more (r : Rec) : Prop := match r with RData _ | RFin _ Normal => False | _ => True end.

Fixpoint closed (rs : list Rec) : Prop :=
  match rs with
  | [] => True
  | RFin _ Normal :: rest => Forall no_more rest
  | _ :: rest => closed rest
  end.

Lemma datas_app a b : datas (a ++ b) = datas a ++ datas b.
Proof. unfold datas. by rewrite map_app, concat_app. Qed.
Lemma fins_app a b : fins (a ++ b) = fins a ++ fins b.
Proof. apply omap_app. Qed.
Lemma acks_app a b : acks (a ++ b) = acks a ++ acks b.
Proof. apply omap_app. Qed.

Lemma no_more_data rs : Forall no_more rs → datas rs = [] ∧ fins rs = [].
Proof.
  induction 1 as [|[| ? []| |] rs Hr _ [IH1 IH2]]; cbn in *; unfold datas in *; cbn; try done.
Qed.

Lemma closed_snoc rs r : closed rs → fins rs = [] ∨ no_more r → closed (rs ++ [r]).
Proof.
  induction rs as [|x rs IH]; intros C Hr; [by destruct r as [| ? []| |]; cbn|].
  destruct x as [|n []| |]; cbn in *; try (apply IH; [done|]; by destruct Hr; auto).
  destruct Hr as [?|?]; [done|]. apply Forall_app; split; [done|]. by constructor.
Qed.

Lemma closed_split pre n post : closed (pre ++ RFin n Normal :: post) → fins pre = [] ∧ Forall no_more post.
Proof.
  induction pre as [|x pre IH]; cbn; [done|].
  destruct x as [|m []| |]; cbn; try apply IH. intros C%list.Forall_app.
  destruct C as [_ C]. by inversion C.
Qed.

Lemma fins_elem rs n : n ∈ fins rs ↔ RFin n Normal ∈ rs.
Proof.
  unfold fins. rewrite list_elem_of_omap. split.
  - intros (r & Hr & E). destruct r as [|m []| |]; cbn in E; simplify_eq. done.
  - intros Hr. by exists (RFin n Normal).
Qed.

Lemma acks_elem rs n : n ∈ acks rs ↔ RFinAck n ∈ rs.
Proof.
  unfold acks. rewrite list_elem_of_omap. split.
  - intros (r & Hr & E). destruct r; cbn in E; simplify_eq. done.
  - intros Hr. by exists (RFinAck n).
Qed.

(** ** The invariant of one side *)

(** Bytes of a DATA record that is being written. *)
Definition pending (p : Pump) : N := match writing p with Some (WData n) => n | _ => 0 end.

Definition failed (p : Pump) : Prop := match result p with Some (Err _) => True | _ => False end.

Record out_ok (p : Pump) (o : list Rec) : Prop := {
  oo_read : datas o = local_read p ∨ fin_sent p = false ∧ failed p;
  oo_sent : ∃ k, sent p = wrap64 k ∧ k + pending p = blen (datas o);
  oo_total : sent_total p = sent p;
  oo_open : fin_sent p = false → local_open p = true ∧ writing p ≠ Some WFin ∧ fin_out p = false ∧ fins o = [];
  oo_fin : fin_sent p = true → fins o = [sent p] ∧ pending p = 0 ∧
    (local_open p = true ∧ writing p = Some WFin ∧ fin_out p = false ∨ local_open p = false ∧ fin_out p = true);
  oo_closed : closed o;
  oo_acks : acks o ++ omap ack_cmd (commands p) = if their_fin p then [received p] else [];
  oo_ack : acks o = [] ↔ fin_ack_out p = false ∧ (∀ n, writing p ≠ Some (WFinAck n));
  oo_reasons : ∀ n r, RFin n r ∈ o → sound_reason r;
  oo_commands : ∀ r e, Abort r e ∈ commands p → r ≠ Normal ∧ sound_reason r;
}.

Record in_ok (p : Pump) (i : list Rec) : Prop := {
  io_fin : their_fin p = true → ∃ pre n post, i = pre ++ RFin n Normal :: post ∧
    local_written p = datas pre ∧ local_closed p = true ∧ fins pre = [] ∧
    received p = wrap64 (blen (local_written p));
  io_received : (∀ e, phase p ≠ Leaving e) ∧ ¬ failed p → received p = wrap64 (blen (local_written p));
  io_data : their_fin p = false → ¬ failed p →
    match phase p with
    | Reading => datas i = local_written p ∧ fins i = []
    | Delivering d => datas i = local_written p ++ d ∧ fins i = []
    | Closing => ∃ pre n, i = pre ++ [RFin n Normal] ∧ datas pre = local_written p ∧ fins pre = []
    | Leaving _ => True
    end;
  io_phase : their_fin p = true → match phase p with Reading | Leaving _ => True | _ => False end;
  io_confirmed : confirmed p = our_fin_confirmed p;
  io_acked : our_fin_confirmed p = true → fin_sent p = true ∧ acks i ≠ [];
  io_unacked : our_fin_confirmed p = false → ¬ failed p → acks i = [];
  io_peer_fin : peer_fin p = their_fin p ∧ received_total p = received p;
  io_result : ∀ rep, result p = Some (Ok rep) → joined p = true ∧ rep = {| rep_sent := sent p; rep_received := received p |};
}.

Definition side_ok (s : Side) : Prop := out_ok (pump s) (out s) ∧ in_ok (pump s) (inn s).

Lemma fresh_ok : side_ok fresh.
Proof.
  split; constructor; cbn; try done; try naive_solver.
  - by exists 0.
  - by intros ? ? ?%elem_of_nil.
  - by intros ? ? ?%elem_of_nil.
Qed.

Lemma in_ok_set_out p i w cmds : result p = None → in_ok p i → in_ok (set_out p w cmds) i.
Proof. intros R []. constructor; try done. cbn. by rewrite R. Qed.

(** A record that is neither data nor a normal FIN is begun. *)
Lemma begin_out p o w cmds r :
  out_ok p o → writing p = None → data_of r = [] → fin_of r = None → no_more r →
  (∀ n x, r = RFin n x → sound_reason x) → w ≠ WFin → (∀ n, w ≠ WData n) →
  omap ack_cmd (commands p) = option_list (ack_of r) ++ omap ack_cmd cmds →
  (ack_of r = None ↔ ∀ n, w ≠ WFinAck n) → (∀ x e, Abort x e ∈ cmds → Abort x e ∈ commands p) →
  out_ok (set_out p (Some w) cmds) (o ++ [r]).
Proof.
  intros O W D F M Hr Hw Hd Ha Hack Hc. pose proof O as [].
  assert (datas [r] = []) as Dr by (unfold datas; cbn; by rewrite D).
  assert (fins [r] = []) as Fr by (unfold fins; cbn; by rewrite F).
  assert (acks [r] = option_list (ack_of r)) as Ar by (unfold acks; cbn; by destruct (ack_of r)).
  assert (∀ w', w ≠ w' → Some w ≠ Some w') as Hs by congruence.
  unfold pending in *. rewrite W in *.
  constructor; cbn; rewrite ?datas_app, ?fins_app, ?Dr, ?Fr, ?app_nil_r; try done.
  - unfold pending; cbn. destruct w; try done. by destruct (Hd n).
  - intros Fs. destruct (oo_open0 Fs) as (? & _ & ? & ?). auto.
  - intros Fs. unfold pending; cbn. destruct (oo_fin0 Fs) as (? & _ & [(? & ? & ?)|?]); [congruence|].
    split_and!; [done|destruct w; try done; by destruct (Hd n)|by right].
  - apply closed_snoc; auto.
  - rewrite acks_app, Ar, <- app_assoc, <- Ha. done.
  - rewrite acks_app, Ar. destruct (ack_of r); cbn.
    + split; [by destruct (acks o)|]. intros [_ Hn]. destruct Hack as [_ Hack].
      discriminate Hack. intros m ->. by apply (Hn m).
    + rewrite app_nil_r, oo_ack0. destruct Hack as [Hack _]. naive_solver.
  - intros n x [Hx|Hx%list_elem_of_singleton]%elem_of_app; [by eapply oo_reasons0|by eapply Hr].
  - intros x e Hx. by eapply oo_commands0, Hc.
Qed.

Lemma on_command_ok p o i p' rs :
  result p = None → selecting p = true → on_command p = Some (p', rs) →
  out_ok p o → in_ok p i → out_ok p' (o ++ rs) ∧ in_ok p' i.
Proof.
  intros R S E O I. unfold on_command, write in E. unfold selecting in S.
  destruct (writing p) eqn:W; [done|].
  destruct (commands p) as [|[n|reason e] cmds] eqn:C; [done|..]; injection E as <- <-;
    (split; [|by apply in_ok_set_out]); apply begin_out; try done.
  - by rewrite C.
  - cbn. split; [done|]. intros Hn. by destruct (Hn n).
  - rewrite C. intros. by right.
  - cbn. destruct reason; try done. by destruct (oo_commands _ _ O Normal e) as [? _]; [rewrite C; left|].
  - cbn. destruct reason; try done. by destruct (oo_commands _ _ O Normal e) as [? _]; [rewrite C; left|].
  - intros n x [= _ <-]. apply (oo_commands _ _ O reason e). rewrite C. by left.
  - by rewrite C.
  - rewrite C. intros. by right.
Qed.

Lemma on_tick_ok p o i p' rs :
  result p = None → selecting p = true → on_tick p = Some (p', rs) →
  out_ok p o → in_ok p i → out_ok p' (o ++ rs) ∧ in_ok p' i.
Proof.
  intros R S E O I. unfold on_tick, write in E. unfold selecting in S.
  destruct (writing p) eqn:W; [done|].
  destruct (commands p) as [|] eqn:C; [|done]. destruct (fin_ack_out p); [done|].
  destruct (_ <? _); injection E as <- <-; [|by rewrite app_nil_r].
  split; [|by apply in_ok_set_out]. apply begin_out; try done; [by rewrite C|by intros ? ? ?%elem_of_nil].
Qed.

Lemma in_ok_finish p i e : in_ok p i → in_ok (finish p (Err e)) i.
Proof. intros []. constructor; cbn; try done; intros; unfold failed in *; cbn in *; tauto. Qed.

Lemma out_ok_finish p o r : out_ok p o → fin_sent p = true ∨ datas o = local_read p → out_ok (finish p r) o.
Proof. intros [] Hr. constructor; try done. cbn. destruct Hr as [Hr|Hr]; [|by left]. destruct oo_read0 as [|[? _]]; [by left|congruence]. Qed.

Lemma in_ok_announce p i : result p = None → in_ok p i → fin_sent p = false → in_ok (announce p) i.
Proof.
  intros R [] F. constructor; cbn; try done.
  intros Ho. by destruct (io_acked0 Ho) as [_ ?].
Qed.

Lemma in_ok_took p i data : result p = None → in_ok p i → in_ok (took p data) i.
Proof. intros R []. by constructor. Qed.

Lemma announce_out p o :
  out_ok p o → writing p = None → commands p = [] → result p = None → fin_sent p = false →
  out_ok (set_out (announce p) (Some WFin) []) (o ++ [RFin (sent p) Normal]).
Proof.
  intros O W C R Fs. pose proof O as []. destruct (oo_open0 Fs) as (Lo & _ & Fo & Fe).
  unfold pending in *. rewrite W in *.
  constructor; cbn; rewrite ?datas_app, ?fins_app, ?acks_app, ?app_nil_r; cbn; rewrite ?app_nil_r; try done.
  - left. destruct oo_read0 as [?|[_ Hf]]; [done|]. unfold failed in Hf. by rewrite R in Hf.
  - intros _. rewrite Fe. split_and!; [done|done|]. by left.
  - apply closed_snoc; auto.
  - by rewrite <- oo_acks0, C, app_nil_r.
  - rewrite oo_ack0. naive_solver.
  - intros n r [Hr|Hr%list_elem_of_singleton]%elem_of_app; [by eapply oo_reasons0|by simplify_eq].
  - by intros ? ? ?%elem_of_nil.
Qed.

Lemma datas_chunk d : datas [RData d] = d.
Proof. unfold datas; cbn. apply app_nil_r. Qed.

Lemma chunk_out p o data :
  out_ok p o → writing p = None → commands p = [] → result p = None → fin_sent p = false →
  out_ok (set_out (took p data) (Some (WData (N.of_nat (length data)))) []) (o ++ [RData data]).
Proof.
  intros O W C R Fs. pose proof O as []. destruct (oo_open0 Fs) as (Lo & _ & Fo & Fe).
  unfold pending in *. rewrite W in *.
  constructor; cbn; rewrite ?datas_app, ?datas_chunk, ?fins_app, ?acks_app, ?app_nil_r; cbn; rewrite ?app_nil_r; try done.
  - left. destruct oo_read0 as [->|[_ Hf]]; [done|].
    unfold failed in Hf. by rewrite R in Hf.
  - destruct oo_sent0 as (k & Ek & El). exists k. split; [done|]. cbn.
    unfold blen in *. rewrite length_app. lia.
  - by rewrite Fs.
  - apply closed_snoc; auto.
  - by rewrite <- oo_acks0, C, app_nil_r.
  - rewrite oo_ack0. naive_solver.
  - intros n r [Hr|Hr%list_elem_of_singleton]%elem_of_app; [by eapply oo_reasons0|by simplify_eq].
  - by intros ? ? ?%elem_of_nil.
Qed.

Lemma on_read_ok p o i r p' rs :
  result p = None → selecting p = true → sound_event (ERead r) → on_read p r = Some (p', rs) →
  out_ok p o → in_ok p i → out_ok p' (o ++ rs) ∧ in_ok p' i.
Proof.
  intros R S Hs E O I. unfold on_read, write in E. unfold selecting in S.
  destruct (writing p) eqn:W; [done|].
  destruct (commands p) as [|] eqn:C; [|done]. destruct (local_open p) eqn:Lo; [|done].
  assert (∀ w reason, reason ≠ Normal → sound_reason reason → (∀ e, w = WAbort e → True) →
    (∃ e, w = WAbort e) → out_ok (set_out p (Some w) []) (o ++ [RFin (sent p) reason])) as Habort.
  { intros w reason Hn Hr _ [e ->]. apply begin_out; try done; try by destruct reason.
    - by intros n x [= _ <-].
    - by rewrite C.
    - by intros ? ? ?%elem_of_nil. }
  assert (fin_sent p = false) as Fs.
  { destruct (fin_sent p) eqn:Fs; [|done]. destruct (oo_fin _ _ O Fs) as (_ & _ & [(_ & ? & _)|[? _]]); congruence. }
  destruct (oo_open _ _ O Fs) as (_ & _ & Fo & Fe).
  destruct r as [reason|data|kind text reason]; cbn in Hs.
  - destruct (bool_decide_reflect (reason = Normal)) as [->|Hn]; cbn in E; injection E as <- <-.
    + split; [by apply announce_out|by apply in_ok_set_out, in_ok_announce].
    + split; [|by apply in_ok_set_out]. apply Habort; eauto.
  - destruct data as [|b data]; [done|]. destruct (_ <? _)%nat; [done|]. injection E as <- <-.
    split; [by apply chunk_out|by apply in_ok_set_out, in_ok_took].
  - injection E as <- <-. split; [|by apply in_ok_set_out]. apply Habort; eauto.
    + by destruct reason.
    + by destruct reason.
Qed.

Lemma finish_err_ok p o i e :
  result p = None → out_ok p o → in_ok p i → out_ok (finish p (Err e)) o ∧ in_ok (finish p (Err e)) i.
Proof.
  intros R O I. split; [|by apply in_ok_finish]. apply out_ok_finish; [done|]. right.
  destruct (oo_read _ _ O) as [?|[_ F]]; [done|]. unfold failed in F. by rewrite R in F.
Qed.

Lemma wrap64_add_wrap k n : wrap64 (wrap64 k + n) = wrap64 (k + n).
Proof. unfold wrap64. apply N.Div0.add_mod_idemp_l. Qed.

Lemma wrote_ok p o i w now :
  result p = None → writing p = Some w → (∀ e, w ≠ WAbort e) → out_ok p o → in_ok p i →
  out_ok (wrote p w now) o ∧ in_ok (wrote p w now) i.
Proof.
  intros R W Hw O I. pose proof O as []. pose proof I as []. unfold pending in *. rewrite W in *.
  split.
  - constructor; try done; cbn.
    + destruct oo_sent0 as (k & Ek & El). destruct w; try (exists k; split; [done|]; cbn; lia).
      exists (k + n). rewrite Ek, wrap64_add_wrap. split; [done|]. cbn. lia.
    + rewrite oo_total0. by destruct w.
    + intros Fs. destruct (oo_open0 Fs) as (? & Hn & ? & ?). by destruct w; split_and!.
    + intros Fs. destruct (oo_fin0 Fs) as (Ef & Ep & [(? & [= ->] & ?)|[? ?]]).
      * rewrite Ef. split_and!; [done|done|by right].
      * destruct w; rewrite Ef; (split_and!; [|done|by right]); try done.
        cbn in Ep. subst n. f_equal. destruct oo_sent0 as (k & -> & _).
        rewrite N.add_0_r. unfold wrap64. by rewrite N.Div0.mod_mod.
    + rewrite oo_ack0. destruct w; naive_solver.
  - constructor; try done. cbn. by rewrite R.
Qed.

Lemma on_written_ok p o i r now p' :
  result p = None → on_written p r now = Some p' → out_ok p o → in_ok p i → out_ok p' o ∧ in_ok p' i.
Proof.
  intros R E O I. unfold on_written in E. destruct (writing p) as [w|] eqn:W; [|done].
  destruct w, r as [[kind text]|]; simplify_eq; try (by apply finish_err_ok);
    by apply wrote_ok.
Qed.

(** ** The events of the inbound future *)

Lemma u64_at_be n rest : u64_at (u64_be n ++ rest) = wrap64 n.
Proof.
  unfold u64_at, u64_be. rewrite take_app_length' by (by rewrite length_be_bytes).
  rewrite be_val_be_bytes. done.
Qed.

Lemma from_to_byte r : sound_reason r → from_byte (to_byte r) = Normal ↔ r = Normal.
Proof.
  intros S. split; [|by intros ->]. destruct r as [| | | | | |b]; try done.
  unfold sound_reason in S. cbn in *. intros E. apply S. by destruct b.
Qed.

Lemma out_ok_set_in p o ph n : out_ok p o → out_ok (set_in p ph n) o.
Proof. intros []. by constructor. Qed.

(** What opening a record does, record by record. *)
Lemma on_record_data p d now :
  on_record p (encode (RData d)) now =
  let p' := set_in p (phase p) (ms now) in
  if their_fin p then finish p' (Err (protocol (lit "application data after the peer's FIN")))
  else set_in p (Delivering d) (ms now).
Proof. done. Qed.

Lemma on_record_fin p n r now :
  on_record p (encode (RFin n r)) now =
  let p' := set_in p (phase p) (ms now) in
  if negb (bool_decide (from_byte (to_byte r) = Normal)) then
    set_in p (Leaving (Delivery ConnectionAborted (PeerEnded (from_byte (to_byte r)) (wrap64 n) (received p)))) (ms now)
  else if their_fin p then finish p' (Err (protocol (lit "a second FIN")))
  else if negb (wrap64 n =? received p) then
    finish p' (Err (Delivery UnexpectedEof (Truncated (wrap64 n) (received p))))
  else set_in p Closing (ms now).
Proof.
  assert (blen (encode (RFin n r)) = 10) as L.
  { unfold blen; cbn [encode length]. unfold fin_body. rewrite length_app. unfold u64_be.
    by rewrite length_be_bytes. }
  unfold on_record. rewrite L. cbn [encode]. unfold fin_body. rewrite u64_at_be.
  rewrite lookup_app_r by (unfold u64_be; by rewrite length_be_bytes).
  unfold u64_be. rewrite length_be_bytes. done.
Qed.

Lemma on_record_ack p n now :
  on_record p (encode (RFinAck n)) now =
  let p' := set_in p (phase p) (ms now) in
  if negb (fin_sent p) then finish p' (Err (protocol (lit "a FIN_ACK before this side's FIN")))
  else if our_fin_confirmed p then finish p' (Err (protocol (lit "a second FIN_ACK")))
  else if negb (wrap64 n =? sent_total p) then
    finish p' (Err (Delivery Other (Unconfirmed (sent_total p) (wrap64 n))))
  else confirm p'.
Proof.
  assert (blen (encode (RFinAck n)) = 9) as L.
  { unfold blen; cbn [encode length]. unfold u64_be. by rewrite length_be_bytes. }
  unfold on_record. rewrite L. cbn [encode]. rewrite <- (app_nil_r (u64_be n)), u64_at_be. done.
Qed.

Lemma on_record_progress p n now :
  on_record p (encode (RProgress n)) now = set_in p (phase p) (ms now).
Proof.
  assert (blen (encode (RProgress n)) = 9) as L.
  { unfold blen; cbn [encode length]. unfold u64_be. by rewrite length_be_bytes. }
  unfold on_record. rewrite L. done.
Qed.

Lemma set_in_ok p i r now :
  result p = None → phase p = Reading → in_ok p i → data_of r = [] → fin_of r = None → ack_of r = None →
  in_ok (set_in p Reading (ms now)) (i ++ [r]).
Proof.
  intros R Ph [] D F A.
  assert (datas (i ++ [r]) = datas i) as Ed by (rewrite datas_app; unfold datas at 2; cbn; by rewrite D, !app_nil_r).
  assert (fins (i ++ [r]) = fins i) as Ef by (rewrite fins_app; unfold fins at 2; cbn; by rewrite F, app_nil_r).
  assert (acks (i ++ [r]) = acks i) as Ea by (rewrite acks_app; unfold acks at 2; cbn; by rewrite A, app_nil_r).
  constructor; cbn; rewrite ?Ed, ?Ef, ?Ea; try done.
  - intros T. destruct (io_fin0 T) as (pre & n & post & -> & ?). exists pre, n, (post ++ [r]).
    by rewrite <- app_assoc.
  - intros [_ Fl]. apply io_received0. split; [by rewrite Ph|done].
  - intros T Fl. specialize (io_data0 T Fl). by rewrite Ph in io_data0.
  - by rewrite R.
Qed.

Lemma alive_not_failed p : result p = None → ¬ failed p.
Proof. unfold failed. intros ->. tauto. Qed.

(** A pump that failed or leaves promises little. *)
Lemma in_ok_dead p i r q :
  result p = None → in_ok p i → (failed q ∨ ∃ e, phase q = Leaving e) → (∀ rep, result q ≠ Some (Ok rep)) →
  their_fin q = their_fin p → received q = received p → local_written q = local_written p →
  local_closed q = local_closed p → confirmed q = confirmed p → our_fin_confirmed q = our_fin_confirmed p →
  fin_sent q = fin_sent p → peer_fin q = peer_fin p → received_total q = received_total p →
  (their_fin p = true → match phase q with Reading | Leaving _ => True | _ => False end) →
  (acks [r] = [] ∨ failed q) →
  in_ok q (i ++ [r]).
Proof.
  intros R [] Hd Hr E1 E2 E3 E4 E5 E6 E7 E8 E9 Hp Ha.
  constructor; rewrite ?E1, ?E2, ?E3, ?E4, ?E5, ?E6, ?E7, ?E8, ?E9; try done.
  - intros T. destruct (io_fin0 T) as (pre & n & post & -> & ?). exists pre, n, (post ++ [r]).
    by rewrite <- app_assoc.
  - intros [Hn Hf]. destruct Hd as [?|[e Hd]]; [done|]. by destruct (Hn e).
  - intros T Hf. destruct Hd as [?|[e ->]]; done.
  - intros C. destruct (io_acked0 C) as [? Hn]. split; [done|]. rewrite acks_app. by destruct (acks i).
  - intros C Hf. destruct Ha as [Ha|]; [|done]. rewrite acks_app, Ha, app_nil_r. apply io_unacked0; [done|].
    by apply alive_not_failed.
  - intros rep Hrep. by destruct (Hr rep).
Qed.

Lemma record_ok p o i r now :
  result p = None → reading p = true → (∀ n x, r = RFin n x → sound_reason x) → out_ok p o → in_ok p i →
  out_ok (on_record p (encode r) now) o ∧ in_ok (on_record p (encode r) now) (i ++ [r]).
Proof.
  intros R Rd Sr O I. unfold reading in Rd. destruct (phase p) eqn:Ph; [|done..].
  apply negb_true_iff, andb_false_iff in Rd.
  pose proof (alive_not_failed _ R) as Nf.
  assert (∀ e, out_ok (finish (set_in p Reading (ms now)) (Err e)) o ∧
               in_ok (finish (set_in p Reading (ms now)) (Err e)) (i ++ [r])) as Hfail.
  { intros e. destruct (finish_err_ok p o i e R O I) as [[] _]. split; [by constructor|].
    apply (in_ok_dead p); try done; [by left|by right]. }
  destruct r as [d|n r|n|n].
  - rewrite on_record_data. cbn zeta. rewrite Ph. destruct (their_fin p) eqn:T; [apply Hfail|].
    split; [by apply out_ok_set_in|]. pose proof I as [].
    specialize (io_data0 T Nf). rewrite Ph in io_data0. destruct io_data0 as [Dw Fw].
    constructor; cbn; try done.
    + by rewrite T.
    + intros _. apply io_received0. split; [by rewrite Ph|done].
    + intros _ _. rewrite datas_app, datas_chunk, fins_app, Dw, Fw. done.
    + by rewrite T.
    + intros C. destruct (io_acked0 C) as [? Hn]. split; [done|]. rewrite acks_app. by destruct (acks i).
    + intros C _. rewrite acks_app. cbn. by rewrite app_nil_r, io_unacked0.
    + by rewrite R.
  - rewrite on_record_fin. cbn zeta. rewrite Ph.
    destruct (bool_decide_reflect (from_byte (to_byte r) = Normal)) as [Er|Er]; cbn [negb].
    2: { split; [by apply out_ok_set_in|]. apply (in_ok_dead p); try done; cbn.
         - right. by eexists.
         - by rewrite R.
         - by left. }
    destruct (their_fin p) eqn:T; [apply Hfail|]. destruct (N.eqb_spec (wrap64 n) (received p)) as [En|En]; cbn [negb].
    2: { apply Hfail. }
    split; [by apply out_ok_set_in|]. pose proof I as [].
    specialize (io_data0 T Nf). rewrite Ph in io_data0. destruct io_data0 as [Dw Fw].
    constructor; cbn; try done.
    + by rewrite T.
    + intros _. apply io_received0. split; [by rewrite Ph|done].
    + intros _ _. exists i, n. by rewrite (proj1 (from_to_byte r (Sr n r eq_refl)) Er).
    + by rewrite T.
    + intros C. destruct (io_acked0 C) as [? Hn]. split; [done|]. rewrite acks_app. by destruct (acks i).
    + intros C _. rewrite acks_app. cbn. by rewrite app_nil_r, io_unacked0.
    + by rewrite R.
  - rewrite on_record_ack. cbn zeta. rewrite Ph.
    destruct (fin_sent p) eqn:Fs; cbn [negb]; [|apply Hfail].
    destruct (our_fin_confirmed p) eqn:Oc; [apply Hfail|].
    destruct (N.eqb_spec (wrap64 n) (sent_total p)) as [En|En]; cbn [negb]; [|apply Hfail].
    split; [by destruct O; constructor|]. pose proof I as [].
    constructor; cbn; try done.
    + intros T. destruct (io_fin0 T) as (pre & m & post & -> & ?). exists pre, m, (post ++ [RFinAck n]).
      by rewrite <- app_assoc.
    + intros _. apply io_received0. split; [by rewrite Ph|done].
    + intros T _. specialize (io_data0 T Nf). rewrite Ph in io_data0. rewrite datas_app, fins_app.
      change (datas [RFinAck n]) with (@nil byte). change (fins [RFinAck n]) with (@nil N). by rewrite !app_nil_r.
    + intros _. split; [done|]. rewrite acks_app. by destruct (acks i).
    + by rewrite R.
  - rewrite on_record_progress, Ph. split; [by apply out_ok_set_in|]. by apply set_in_ok.
Qed.

Lemma taken_ok p o i r now p' :
  result p = None → sound_event (ETaken r now) → on_taken p r now = Some p' → out_ok p o → in_ok p i →
  out_ok p' o ∧ in_ok p' i.
Proof.
  intros R Hs E O I. pose proof (alive_not_failed _ R) as Nf. pose proof O as []. pose proof I as [].
  unfold on_taken in E. destruct (phase p) as [|d| |] eqn:Ph; [done| | |done].
  - assert (their_fin p = false) as T by (destruct (their_fin p); [by destruct (io_phase0 eq_refl)|done]).
    specialize (io_data0 T Nf). destruct io_data0 as [Dw Fw]. rewrite T in oo_acks0.
    destruct r as [|n kind text reason]; injection E as <-; split; constructor; try done; cbn.
    + by rewrite app_nil_r, T.
    + rewrite app_nil_r. intros x e. apply oo_commands0.
    + intros _. rewrite io_received0, wrap64_add_wrap by done. unfold blen. by rewrite length_app, Nat2N.inj_add.
    + by rewrite R.
    + by rewrite omap_app, T, app_nil_r.
    + intros x e [?|Hx%list_elem_of_singleton]%elem_of_app; [by eapply oo_commands0|]. simplify_eq.
      cbn in Hs. by destruct reason.
    + intros [Hn _]. by destruct (Hn _ eq_refl).
    + by rewrite R.
  - assert (their_fin p = false) as T by (destruct (their_fin p); [by destruct (io_phase0 eq_refl)|done]).
    specialize (io_data0 T Nf). destruct io_data0 as (pre & n & -> & Dw & Fw). rewrite T in oo_acks0.
    assert (received p = wrap64 (blen (local_written p))) as Er by by apply io_received0.
    destruct r as [|k kind text reason]; injection E as <-; split; constructor; try done; cbn.
    + by rewrite omap_app, app_assoc, oo_acks0.
    + intros x e [?|Hx%list_elem_of_singleton]%elem_of_app; [by eapply oo_commands0|done].
    + intros _. exists pre, n, []. by rewrite app_nil_r.
    + intros _. by rewrite app_nil_r.
    + by rewrite R.
    + by rewrite omap_app, T, app_nil_r.
    + intros x e [?|Hx%list_elem_of_singleton]%elem_of_app; [by eapply oo_commands0|]. simplify_eq.
      cbn in Hs. by destruct reason.
    + intros [Hn _]. by destruct (Hn _ eq_refl).
    + by rewrite R.
Qed.

Lemma deadline_ok p o i d : out_ok p o → in_ok p i → out_ok (set_deadline p d) o ∧ in_ok (set_deadline p d) i.
Proof. intros [] []. split; by constructor. Qed.

Lemma seal_fails_ok p o i data text p' :
  result p = None → selecting p = true → on_seal_fails p data text = Some p' → out_ok p o → in_ok p i →
  out_ok p' o ∧ in_ok p' i.
Proof.
  intros R S E O I. unfold on_seal_fails in E. unfold selecting in S.
  destruct (writing p) eqn:W; [done|]. destruct (commands p); [|done]. destruct (local_open p) eqn:Lo; [|done].
  injection E as <-. split; [|apply in_ok_finish; by apply in_ok_took].
  assert (fin_sent p = false) as Fs.
  { destruct (fin_sent p) eqn:Fs; [|done]. destruct (oo_fin _ _ O Fs) as (_ & _ & [(_ & ? & _)|[? _]]); congruence. }
  destruct O. constructor; try done. right. by split.
Qed.

(** Every step of a side keeps its invariant, whoever its peer is, as long as the peer's abnormal
    ends are not mistaken for normal ones. *)
Lemma side_step_ok ends idle feed s s' :
  tells_apart ends → (∀ n r, RFin n r ∈ feed → sound_reason r) → side_step ends idle feed s s' →
  side_ok s → side_ok s'.
Proof.
  intros Ht Hf St [O I]. destruct St as [e p rs Hr Hs E|r now p Hr E]; unfold side_ok; cbn [pump out inn] in *.
  - apply event_sound in Hs; [|done]. unfold pump_step in E. destruct (result (pump s)) eqn:R; [done|].
    destruct e as [| |r|r now|data text|pt now|kind text|text|r now| | |now|]; cbn [is_record] in Hr; try done.
    + destruct (selecting _) eqn:S; [|done]. by eapply on_command_ok.
    + destruct (selecting _) eqn:S; [|done]. by eapply on_tick_ok.
    + destruct (selecting _) eqn:S; [|done]. by eapply on_read_ok.
    + apply fmap_Some in E as (q & E & [= -> ->]). rewrite app_nil_r. by eapply on_written_ok.
    + destruct (selecting _) eqn:S; [|done]. apply fmap_Some in E as (q & E & [= -> ->]). rewrite app_nil_r.
      by eapply seal_fails_ok.
    + destruct (reading _); simplify_eq. rewrite app_nil_r. by apply finish_err_ok.
    + destruct (reading _); simplify_eq. rewrite app_nil_r. by apply finish_err_ok.
    + apply fmap_Some in E as (q & E & [= -> ->]). rewrite app_nil_r. by eapply taken_ok.
    + destruct (phase _); simplify_eq. rewrite app_nil_r. by apply finish_err_ok.
    + apply fmap_Some in E as (q & E & [= -> ->]). rewrite app_nil_r. unfold on_arm in E.
      repeat case_match; simplify_eq. by apply deadline_ok.
    + apply fmap_Some in E as (q & E & [= -> ->]). rewrite app_nil_r. unfold on_fire in E.
      repeat case_match; simplify_eq; try (by apply deadline_ok); [|by apply finish_err_ok].
      apply deadline_ok; [by apply out_ok_set_in|]. destruct I. by constructor.
    + destruct (joined _) eqn:J; simplify_eq. rewrite app_nil_r. split.
      * apply out_ok_finish; [done|]. right. destruct (oo_read _ _ O) as [?|[_ F]]; [done|].
        by apply alive_not_failed in F.
      * pose proof (alive_not_failed _ R). destruct I. constructor; try done; cbn.
        -- intros [? _]. by apply io_received0.
        -- intros. by apply io_data0.
        -- intros. by apply io_unacked0.
        -- intros rep [= <-]. by split.
  - unfold pump_step in E. destruct (result (pump s)) eqn:R; [done|].
    destruct (reading (pump s)) eqn:Rd; simplify_eq. apply record_ok; try done.
    intros n x ->. apply (Hf n x). by apply list_elem_of_lookup_2 in Hr.
Qed.

(** ** What a session promises *)

Section session.
Context (idle_a idle_b : N) (ends : FinReason → Prop).

Inductive session_step : Side * Side → Side * Side → Prop :=
| step_a a b a' : side_step ends idle_a (out b) a a' → session_step (a, b) (a', b)
| step_b a b b' : side_step ends idle_b (out a) b b' → session_step (a, b) (a, b').

(** The states of a session whose ends both start fresh. *)
Definition reached (s : Side * Side) : Prop := rtc session_step (fresh, fresh) s.

(** Each end is in order, and has opened what the other sealed, so far. *)
Record linked (a b : Side) : Prop := {
  ln_a : side_ok a; ln_b : side_ok b;
  ln_ab : inn b `prefix_of` out a; ln_ba : inn a `prefix_of` out b;
}.

Lemma side_step_grows idle feed s s' :
  side_step ends idle feed s s' → inn s `prefix_of` feed → out s `prefix_of` out s' ∧ inn s' `prefix_of` feed.
Proof.
  intros [e p rs _ _ _|r now p Hr _] P; cbn; [split; [by apply prefix_app_r|done]|]. split; [done|].
  destruct P as [k ->]. rewrite lookup_app_r, Nat.sub_diag in Hr by done. destruct k as [|x k]; simplify_eq/=.
  exists k. by rewrite <- app_assoc.
Qed.

Lemma session_step_linked s s' :
  tells_apart ends → session_step s s' → linked s.1 s.2 → linked s'.1 s'.2.
Proof.
  intros Ht [a b a' St|a b b' St] [La Lb Lab Lba]; cbn in *.
  - destruct (side_step_grows _ _ _ _ St Lba) as [G1 G2].
    constructor; [|done|by etrans|done]. eapply side_step_ok; [done| |done..]. apply Lb.
  - destruct (side_step_grows _ _ _ _ St Lab) as [G1 G2].
    constructor; [done| |done|by etrans]. eapply side_step_ok; [done| |done..]. apply La.
Qed.

Lemma reached_linked s : tells_apart ends → reached s → linked s.1 s.2.
Proof.
  intros Ht St. assert (linked (fresh, fresh).1 (fresh, fresh).2) as L0.
  { constructor; cbn; try apply fresh_ok; done. }
  induction St as [s|s1 s2 s3 St _ IH]; [done|]. by apply IH, (session_step_linked s1).
Qed.

(** A FIN that was opened came after all the data of its sender. *)
Lemma opened_fin a b pre n post :
  linked a b → inn b = pre ++ RFin n Normal :: post →
  fin_sent (pump a) = true ∧ n = sent (pump a) ∧ datas (out a) = datas pre ∧ datas pre = local_read (pump a) ∧
  sent (pump a) = wrap64 (blen (datas pre)).
Proof.
  intros L E. destruct (ln_ab _ _ L) as [k Ek]. rewrite E in Ek. destruct (ln_a _ _ L) as [O _].
  pose proof (oo_closed _ _ O) as C. rewrite Ek, <- app_assoc in C.
  change ((RFin n Normal :: post) ++ k) with (RFin n Normal :: (post ++ k)) in C.
  apply closed_split in C as [Fp Fk]. apply no_more_data in Fk as [Dk Fk].
  assert (fins (out a) = [n]) as Ef.
  { rewrite Ek, <- app_assoc, fins_app, Fp. change (n :: fins (post ++ k) = [n]). by rewrite Fk. }
  assert (datas (out a) = datas pre) as Ed.
  { rewrite Ek, <- app_assoc, datas_app.
    change (datas pre ++ datas (post ++ k) = datas pre). by rewrite Dk, app_nil_r. }
  destruct (fin_sent (pump a)) eqn:Fs.
  2: { destruct (oo_open _ _ O Fs) as (_ & _ & _ & F0). congruence. }
  destruct (oo_fin _ _ O Fs) as (F1 & P1 & _).
  split_and!; [done|congruence|done| |].
  - destruct (oo_read _ _ O) as [E1|[? _]]; congruence.
  - destruct (oo_sent _ _ O) as (m & -> & Em). rewrite P1, N.add_0_r in Em. by rewrite Em, Ed.
Qed.

(** An end that acknowledged has delivered everything. *)
Lemma acknowledged a b :
  linked a b → acks (out b) ≠ [] →
  their_fin (pump b) = true ∧ local_written (pump b) = local_read (pump a) ∧ local_closed (pump b) = true ∧
  fin_sent (pump a) = true ∧ acks (out b) = [sent (pump a)].
Proof.
  intros L Ha. destruct (ln_b _ _ L) as [O I]. pose proof (oo_acks _ _ O) as Ea.
  destruct (their_fin (pump b)) eqn:T; [|by apply app_nil in Ea as [? _]].
  destruct (io_fin _ _ I T) as (pre & n & post & Ei & Ew & Ec & _ & Er).
  destruct (opened_fin a b pre n post L Ei) as (Fs & En & Ed & Ed' & Es).
  split_and!; [done|congruence|done|done|].
  rewrite Es, <- Ew, <- Er. destruct (acks (out b)) as [|x l]; [done|]. cbn in Ea. injection Ea as -> Ea.
  by apply app_nil in Ea as [-> _].
Qed.

(** An end that returned a report has everything delivered. *)
Lemma ended_delivered a b rep :
  linked a b → result (pump a) = Some (Ok rep) →
  local_written (pump b) = local_read (pump a) ∧ local_closed (pump b) = true ∧
  local_written (pump a) = local_read (pump b) ∧ local_closed (pump a) = true ∧
  local_open (pump a) = false ∧ fin_sent (pump b) = true ∧
  rep_sent rep = wrap64 (blen (local_read (pump a))) ∧ rep_received rep = wrap64 (blen (local_read (pump b))).
Proof.
  intros L Hrep. destruct (ln_a _ _ L) as [O I].
  destruct (io_result _ _ I rep Hrep) as [J ->]. unfold joined in J.
  destruct (writing _); [done|]. destruct (phase _); try done. rewrite !andb_true_iff, negb_true_iff in J.
  destruct J as (((((Lo & _) & T) & C) & _) & _).
  destruct (io_acked _ _ I C) as [_ Ha].
  assert (acks (out b) ≠ []) as Hb.
  { destruct (ln_ba _ _ L) as [k ->]. rewrite acks_app. by destruct (acks (inn a)). }
  destruct (acknowledged a b L Hb) as (Tb & Ew & Ec & Fs & Ea).
  destruct (io_fin _ _ I T) as (pre & n & post & Ei & Ewa & Eca & _ & Er).
  assert (linked b a) as L' by (destruct L; by constructor).
  destruct (opened_fin b a pre n post L' Ei) as (Fb & _ & _ & Ed & _).
  cbn. split_and!; try done; [congruence| |by rewrite Er, Ewa, Ed].
  destruct (io_fin _ _ (proj2 (ln_b _ _ L)) Tb) as (pre' & n' & post' & Ei' & _).
  destruct (opened_fin a b pre' n' post' L Ei') as (_ & _ & _ & E1 & ->). by rewrite E1.
Qed.

(** C19 a session that ends well was delivered, both ways. Whatever the timing of reads, writes and
    timers at both ends, wherever the transport stops and however the peer ends - as long as no local
    side of the two is said to end with [FinReason::Unknown(0)], whose wire byte is that of a normal
    end ([unknown_zero_reads_as_normal]): if one end returns a report, then every byte it read from its
    local side has been written, in order, to the local side of the peer, whose write side was closed
    behind it; every byte the peer read was written to this end's local side, and it was all the peer
    had, since the peer's input had ended; and the two counts reported are those of these bytes. *)
Theorem ok_means_delivered a b rep :
  tells_apart ends → reached (a, b) → result (pump a) = Some (Ok rep) →
  local_written (pump b) = local_read (pump a) ∧ local_closed (pump b) = true ∧
  local_written (pump a) = local_read (pump b) ∧ local_closed (pump a) = true ∧
  local_open (pump a) = false ∧ fin_sent (pump b) = true ∧
  rep_sent rep = wrap64 (blen (local_read (pump a))) ∧ rep_received rep = wrap64 (blen (local_read (pump b))).
Proof. intros Ht Hr. apply ended_delivered. exact (reached_linked _ Ht Hr). Qed.

(** The errors that blame the peer for breaking the protocol or losing data. *)
Definition accusation (e : IoError) : bool :=
  match delivery_error e with
  | Some (Truncated _ _) | Some (Unconfirmed _ _) | Some (Protocol _) => true
  | _ => false
  end.

Record calm (p : Pump) : Prop := {
  ca_result : ∀ e, result p = Some (Err e) → accusation e = false;
  ca_phase : ∀ e, phase p = Leaving e → accusation e = false;
  ca_writing : ∀ e, writing p = Some (WAbort e) → accusation e = false;
  ca_commands : ∀ r e, Abort r e ∈ commands p → accusation e = false;
}.

(** What an end that reads finds next is what its state allows. *)
Lemma next_record a b r now :
  linked a b → result (pump a) = None → reading (pump a) = true → out b !! length (inn a) = Some r →
  result (on_record (pump a) (encode r) now) = None ∧
  (∀ e, phase (on_record (pump a) (encode r) now) = Leaving e → accusation e = false).
Proof.
  intros L R Rd Hr. pose proof (alive_not_failed _ R) as Nf. unfold reading in Rd.
  destruct (phase (pump a)) eqn:Ph; [|done..].
  destruct (ln_a _ _ L) as [Oa Ia], (ln_b _ _ L) as [Ob Ib].
  destruct (ln_ba _ _ L) as [k Ek]. rewrite Ek, lookup_app_r, Nat.sub_diag in Hr by done.
  destruct k as [|r' k]; simplify_eq/=.
  assert (linked b a) as L' by (destruct L; by constructor).
  (* after the peer's FIN only harmless records are left *)
  assert (their_fin (pump a) = true → no_more r) as Hfin.
  { intros T. destruct (io_fin _ _ Ia T) as (pre & n & post & Ei & _). rewrite Ei in Ek.
    pose proof (oo_closed _ _ Ob) as C. rewrite Ek, <- app_assoc in C.
    change ((RFin n Normal :: post) ++ r :: k) with (RFin n Normal :: (post ++ r :: k)) in C.
    apply closed_split in C as [_ C]. apply list.Forall_app in C as [_ C]. by inversion C. }
  destruct r as [d|n x|n|n].
  - rewrite on_record_data. cbn zeta. destruct (their_fin (pump a)) eqn:T; [by destruct (Hfin eq_refl)|]. done.
  - rewrite on_record_fin. cbn zeta.
    assert (sound_reason x) as Sx by (apply (oo_reasons _ _ Ob n); rewrite Ek; set_solver).
    destruct (bool_decide_reflect (from_byte (to_byte x) = Normal)) as [E|E]; cbn [negb].
    2: { split; [done|]. by intros e [= <-]. }
    apply (from_to_byte x Sx) in E. subst x.
    destruct (their_fin (pump a)) eqn:T; [by destruct (Hfin eq_refl)|].
    pose proof (io_data _ _ Ia T Nf) as Hd. rewrite Ph in Hd. destruct Hd as [Dw _].
    pose proof (oo_closed _ _ Ob) as C. rewrite Ek in C. apply closed_split in C as [Fp Fk].
    apply no_more_data in Fk as [Dk Fk].
    assert (fins (out b) = [n]) as Ef.
    { rewrite Ek, fins_app, Fp. change (n :: fins k = [n]). by rewrite Fk. }
    assert (datas (out b) = datas (inn a)) as Ed.
    { rewrite Ek, datas_app. change (datas (inn a) ++ datas k = datas (inn a)). by rewrite Dk, app_nil_r. }
    destruct (fin_sent (pump b)) eqn:Fs.
    2: { destruct (oo_open _ _ Ob Fs) as (_ & _ & _ & F0). congruence. }
    destruct (oo_fin _ _ Ob Fs) as (F1 & P1 & _). rewrite F1 in Ef. injection Ef as <-.
    destruct (oo_sent _ _ Ob) as (m & Em & El). rewrite P1, N.add_0_r in El. subst m.
    assert (wrap64 (sent (pump b)) = received (pump a)) as ->.
    { rewrite (io_received _ _ Ia) by (split; [by rewrite Ph|done]). rewrite Em, Ed, Dw.
      unfold wrap64. by rewrite N.Div0.mod_mod. }
    rewrite N.eqb_refl. done.
  - rewrite on_record_ack. cbn zeta.
    assert (acks (out b) ≠ []) as Hb.
    { rewrite Ek, acks_app. by destruct (acks (inn a)). }
    destruct (acknowledged a b L Hb) as (Tb & Ew & Ec & Fs & Ea). rewrite Fs. cbn [negb].
    rewrite Ek, acks_app in Ea. change (acks (inn a) ++ n :: acks k = [sent (pump a)]) in Ea.
    destruct (our_fin_confirmed (pump a)) eqn:Oc.
    { destruct (io_acked _ _ Ia Oc) as [_ Hn]. destruct (acks (inn a)) as [|y l]; [done|]. injection Ea as _ Ea.
      by apply app_nil in Ea as [_ ?]. }
    rewrite (io_unacked _ _ Ia Oc Nf) in Ea. injection Ea as -> _. rewrite (oo_total _ _ Oa).
    assert (wrap64 (sent (pump a)) = sent (pump a)) as ->.
    { destruct (oo_sent _ _ Oa) as (m & -> & _). unfold wrap64. by rewrite N.Div0.mod_mod. }
    rewrite N.eqb_refl. cbn. by rewrite Ph.
  - rewrite on_record_progress. cbn. by rewrite Ph.
Qed.

Lemma on_record_frame p pt now :
  writing (on_record p pt now) = writing p ∧ commands (on_record p pt now) = commands p.
Proof. unfold on_record. repeat case_match; done. Qed.

Lemma calm_step idle a b a' :
  linked a b → side_step ends idle (out b) a a' → calm (pump a) → calm (pump a').
Proof.
  intros L [e p rs Hr Hs E|r now p Hr E] [C1 C2 C3 C4]; cbn [pump]; unfold pump_step in E;
    destruct (result (pump a)) eqn:R; try done.
  - destruct e as [| |r|r now|data text|pt now|kind text|text|r now| | |now|]; try done.
    + destruct (selecting _); [|done]. unfold on_command, write in E.
      destruct (commands (pump a)) as [|[n|reason x] cmds] eqn:C; [done|..]; injection E as <- <-;
        constructor; cbn; try done.
      * by rewrite R.
      * intros r e He. apply (C4 r e). by right.
      * by rewrite R.
      * intros e [= <-]. apply (C4 reason x). by left.
      * intros r e He. apply (C4 r e). by right.
    + destruct (selecting _); [|done]. unfold on_tick, write in E.
      destruct (commands (pump a)) eqn:C; [|done]. destruct (fin_ack_out _); [done|].
      destruct (_ <? _); simplify_eq; constructor; cbn; try done; by rewrite ?R, ?C.
    + destruct (selecting _); [|done]. unfold on_read, write in E. repeat case_match; simplify_eq;
        constructor; cbn; try (by rewrite R); try done; try (by intros ? ? ?%elem_of_nil); by intros ? [= <-].
    + apply fmap_Some in E as (q & E & [= -> ->]). unfold on_written in E.
      destruct (writing (pump a)) as [w|] eqn:W; [|done].
      destruct w, r as [[k x]|]; simplify_eq; constructor; cbn; try done; try (by rewrite R);
        try (by rewrite W); intros ? [= <-]; first [done|by apply C3].
    + destruct (selecting _); [|done]. apply fmap_Some in E as (q & E & [= -> ->]). unfold on_seal_fails in E.
      destruct (commands (pump a)) eqn:C; [|done]. destruct (local_open _); simplify_eq.
      constructor; cbn; try done; [by intros e [= <-]|by rewrite C].
    + destruct (reading _); simplify_eq. constructor; cbn; try done. by intros e [= <-].
    + destruct (reading _); simplify_eq. constructor; cbn; try done. by intros e [= <-].
    + apply fmap_Some in E as (q & E & [= -> ->]). unfold on_taken in E.
      repeat case_match; simplify_eq; constructor; cbn; try done; try (by rewrite R); try (by intros e [= <-]);
        intros x e [He|He]%elem_of_app; try (by eapply C4);
        first [by apply elem_of_nil in He|apply list_elem_of_singleton in He; by simplify_eq].
    + destruct (phase (pump a)) eqn:Ph; simplify_eq. constructor; cbn; try done;
        [intros e' [= <-]; by apply C2|by rewrite Ph].
    + apply fmap_Some in E as (q & E & [= -> ->]). unfold on_arm in E. repeat case_match; simplify_eq.
      constructor; cbn; try done. by rewrite R.
    + apply fmap_Some in E as (q & E & [= -> ->]). unfold on_fire in E.
      repeat case_match; simplify_eq; constructor; cbn; try done; try (by rewrite R). by intros e [= <-].
    + destruct (joined _); simplify_eq. by constructor.
  - destruct (reading (pump a)) eqn:Rd; simplify_eq.
    destruct (next_record a b r now L R Rd Hr) as [N1 N2].
    destruct (on_record_frame (pump a) (encode r) now) as [F1 F2].
    constructor; rewrite ?F1, ?F2; try done. by rewrite N1.
Qed.

Lemma linked_sym a b : linked a b → linked b a.
Proof. intros []. by constructor. Qed.

Lemma fresh_linked : linked fresh fresh.
Proof. constructor; try apply fresh_ok; done. Qed.

Lemma reached_calm s : tells_apart ends → reached s → calm (pump s.1) ∧ calm (pump s.2).
Proof.
  intros Ht Hr. assert (linked (fresh, fresh).1 (fresh, fresh).2) as L by apply fresh_linked.
  assert (calm (pump (fresh, fresh).1) ∧ calm (pump (fresh, fresh).2)) as C.
  { split; constructor; cbn; try done; by intros ? ? ?%elem_of_nil. }
  revert L C. induction Hr as [s|s1 s2 s3 St _ IH]; [done|]. intros L [C1 C2].
  apply IH; [by apply (session_step_linked s1)|].
  destruct St as [a b a' St|a b b' St]; cbn in *.
  - split; [by eapply calm_step|done].
  - split; [done|]. eapply calm_step; [by apply linked_sym|exact St|done].
Qed.

(** C21 two ends that follow the protocol never accuse each other: whatever the timing and wherever
    the transport stops, as long as no local side is said to end with [FinReason::Unknown(0)] (whose
    wire byte is that of a normal end), neither end of a session ends it with truncated data, a wrong
    confirmation or a violation of the protocol. What is left for it to report is the end of the
    transport, the silence of the peer, an end that closed the session on purpose, or a cipher that
    failed to seal or to open a record. *)
Theorem honest_never_accused a b e :
  tells_apart ends → reached (a, b) →
  result (pump a) = Some (Err e) ∨ result (pump b) = Some (Err e) →
  accusation e = false ∧
  match e with
  | Delivery _ (TransportEnded _ _ _ _ _ _) | Delivery _ (AckTimeout _ _)
  | Delivery _ (LocalEnded _ _ _) | Delivery _ (PeerEnded _ _ _) | Plain _ => True
  | _ => False
  end.
Proof.
  intros Ht Hr Hs. pose proof (reached_calm _ Ht Hr) as [C1 C2]. cbn in *.
  assert (accusation e = false) as A by (by destruct Hs as [Hs|Hs]; [apply (ca_result _ C1)|apply (ca_result _ C2)]).
  split; [done|]. by destruct e as [k []|].
Qed.

End session.

(** ** Sessions without faults *)

Section smooth.
Context (idle_a idle_b : N).

(** The inputs of the local sides, cut into the chunks the reads give. *)
Definition Input : Type := list bytes.
Definition chunks_ok (i : Input) : Prop := Forall (λ d, d ≠ [] ∧ (length d <= CHUNK)%nat) i.

(** Steps without a fault: no read, write or transport fails and no end aborts. A tick of the
    progress timer counts when it reports something. The watchdog's steps are apart, below. *)
Inductive smooth_side (idle : N) (feed : list Rec) : Side * Input → Side * Input → Prop :=
| sm_command s todo p rs :
    pump_step idle (pump s) ECommand = Some (p, rs) →
    smooth_side idle feed (s, todo) ({| pump := p; out := out s ++ rs; inn := inn s |}, todo)
| sm_tick s todo p r :
    pump_step idle (pump s) ETick = Some (p, [r]) →
    smooth_side idle feed (s, todo) ({| pump := p; out := out s ++ [r]; inn := inn s |}, todo)
| sm_chunk s d todo p rs :
    pump_step idle (pump s) (ERead (LChunk d)) = Some (p, rs) →
    smooth_side idle feed (s, d :: todo) ({| pump := p; out := out s ++ rs; inn := inn s |}, todo)
| sm_eof s p rs :
    pump_step idle (pump s) (ERead (LEof Normal)) = Some (p, rs) →
    smooth_side idle feed (s, []) ({| pump := p; out := out s ++ rs; inn := inn s |}, [])
| sm_written s todo now p :
    pump_step idle (pump s) (EWritten None now) = Some (p, []) →
    smooth_side idle feed (s, todo) ({| pump := p; out := out s ++ []; inn := inn s |}, todo)
| sm_taken s todo now p :
    pump_step idle (pump s) (ETaken TakeAll now) = Some (p, []) →
    smooth_side idle feed (s, todo) ({| pump := p; out := out s ++ []; inn := inn s |}, todo)
| sm_join s todo p :
    pump_step idle (pump s) EJoin = Some (p, []) →
    smooth_side idle feed (s, todo) ({| pump := p; out := out s ++ []; inn := inn s |}, todo)
| sm_opens s todo r now p :
    feed !! length (inn s) = Some r → pump_step idle (pump s) (ERecord (encode r) now) = Some (p, []) →
    smooth_side idle feed (s, todo) ({| pump := p; out := out s; inn := inn s ++ [r] |}, todo).

Definition Smooth : Type := (Side * Input) * (Side * Input).

Inductive smooth_step : Smooth → Smooth → Prop :=
| smooth_a a b a' : smooth_side idle_a (out b.1) a a' → smooth_step (a, b) (a', b)
| smooth_b a b b' : smooth_side idle_b (out a.1) b b' → smooth_step (a, b) (a, b').

(** The watchdog computes its deadline, and wakes up at it. The peer is in time while less than the
    idle time has passed since the FIN and the last record, or its confirmation is there, or it is the
    local side of this end that takes its time. *)
Definition in_time (idle : N) (p : Pump) (now : N) : bool :=
  confirmed p || delivering p || (now <? nanos (N.max (fin_out_at p) (last_record_at p)) + idle).

Inductive watch_side (idle : N) : Side * Input → Side * Input → Prop :=
| wa_arm s todo p :
    pump_step idle (pump s) EArm = Some (p, []) →
    watch_side idle (s, todo) ({| pump := p; out := out s ++ []; inn := inn s |}, todo)
| wa_fire s todo now p :
    in_time idle (pump s) now = true → pump_step idle (pump s) (EFire now) = Some (p, []) →
    watch_side idle (s, todo) ({| pump := p; out := out s ++ []; inn := inn s |}, todo).

Inductive watch_step : Smooth → Smooth → Prop :=
| watch_a a b a' : watch_side idle_a a a' → watch_step (a, b) (a', b)
| watch_b a b b' : watch_side idle_b b b' → watch_step (a, b) (a, b').

(** A run with [n] steps other than the watchdog's. *)
Inductive smooth_run : nat → Smooth → Smooth → Prop :=
| run_nil x : smooth_run 0 x x
| run_work n x y z : smooth_step x y → smooth_run n y z → smooth_run (S n) x z
| run_watch n x y z : watch_step x y → smooth_run n y z → smooth_run n x z.

Lemma normal_apart : tells_apart (eq Normal).
Proof. by intros r <-. Qed.

Lemma watch_is_step idle feed x x' : watch_side idle x x' → side_step (eq Normal) idle feed x.1 x'.1.
Proof. by intros [s todo p E|s todo now p _ E]; cbn; (eapply side_own; [| |exact E]). Qed.

Lemma smooth_is_step idle feed x x' : smooth_side idle feed x x' → side_step (eq Normal) idle feed x.1 x'.1.
Proof.
  intros [s todo p rs E|s todo p r E|s d todo p rs E|s p rs E|s todo now p E|s todo now p E|s todo p E
         |s todo r now p Hr E]; cbn;
    [eapply side_own; [| |exact E]; done..|eapply side_opens; [exact Hr|exact E]].
Qed.

(** ** Every fault-free run ends, and ends well *)

(** What is left to do at one side, with what its peer still has to open. *)
Definition rec_weight (r : Rec) : nat :=
  match r with RData _ => 6 | RFin _ _ => 12 | RFinAck _ => 2 | RProgress _ => 2 end.
Definition phase_weight (ph : Phase) : nat :=
  match ph with Delivering _ => 5 | Closing => 9 | _ => 0 end.
Definition unreported (p : Pump) : nat :=
  let r := match writing p with Some (WProgress d) => d | _ => reported p end in
  if r <? received_total p then 4 else 0.
Definition local_weight (p : Pump) (todo : Input) : nat :=
  (16 * length todo + (if fin_sent p then 0 else 16) + (match writing p with Some _ => 1 | None => 0 end)
   + phase_weight (phase p) + 7 * length (commands p) + unreported p
   + (match result p with None => 1 | _ => 0 end))%nat.
Definition flight (from : Side) (to : Side) : list Rec := drop (length (inn to)) (out from).
Definition flight_weight (from to : Side) : nat := sum_list_with rec_weight (flight from to).
Definition weight (x : Smooth) : nat :=
  (local_weight (pump x.1.1) x.1.2 + local_weight (pump x.2.1) x.2.2
   + flight_weight x.1.1 x.2.1 + flight_weight x.2.1 x.1.1)%nat.

(** A side of a run without faults, whose input was [i]. *)
Record happy (i : bytes) (s : Side) (todo : Input) : Prop := {
  ha_result : ∀ e, result (pump s) ≠ Some (Err e);
  ha_phase : ∀ e, phase (pump s) ≠ Leaving e;
  ha_writing : ∀ e, writing (pump s) ≠ Some (WAbort e);
  ha_commands : Forall (λ c, is_Some (ack_cmd c)) (commands (pump s));
  ha_out : ∀ n r, RFin n r ∈ out s → r = Normal;
  ha_input : local_read (pump s) ++ concat todo = i;
  ha_todo : fin_sent (pump s) = true → todo = [];
  ha_chunks : chunks_ok todo;
}.

Lemma flight_weight_app p o i rs a :
  inn a `prefix_of` o →
  flight_weight {| pump := p; out := o ++ rs; inn := i |} a
  = (flight_weight {| pump := p; out := o; inn := i |} a + sum_list_with rec_weight rs)%nat.
Proof.
  intros P%prefix_length. unfold flight_weight, flight; cbn.
  rewrite drop_app_le by done. apply sum_list_with_app.
Qed.

(** Opening takes a record off the flight. *)
Lemma flight_weight_open b p o i r :
  out b !! length i = Some r →
  flight_weight b {| pump := p; out := o; inn := i |}
  = (rec_weight r + flight_weight b {| pump := p; out := o; inn := i ++ [r] |})%nat.
Proof.
  intros Hr. unfold flight_weight, flight; cbn. rewrite length_app, Nat.add_1_r.
  by rewrite (drop_S _ _ _ Hr).
Qed.

Lemma happy_out i s todo p o :
  happy i s todo → result p = None → (∀ e, phase p ≠ Leaving e) → (∀ e, writing p ≠ Some (WAbort e)) →
  Forall (λ c, is_Some (ack_cmd c)) (commands p) → (∀ n r, RFin n r ∈ o → r = Normal) →
  local_read p = local_read (pump s) → (fin_sent p = true → todo = []) →
  happy i {| pump := p; out := out s ++ o; inn := inn s |} todo.
Proof.
  intros [] R Ph W C Ho Lr Fs. constructor; cbn; try done; [by rewrite R| |by rewrite Lr].
  intros n r [Hr|Hr]%elem_of_app; [by eapply ha_out0|by eapply Ho].
Qed.

Ltac open_step R S W :=
  match goal with
  | E : pump_step _ (pump ?s) _ = Some _ |- _ =>
    unfold pump_step in E; destruct (result (pump s)) eqn:R; [done|];
    destruct (selecting (pump s)) eqn:S; [|done]; unfold selecting in S;
    destruct (writing (pump s)) eqn:W; [done|]
  end.

Lemma no_fin_in n r : RFin n r ∈ [] → r = Normal.
Proof. by intros ?%elem_of_nil. Qed.

Lemma smooth_command idle i s todo p rs :
  pump_step idle (pump s) ECommand = Some (p, rs) → happy i s todo →
  (local_weight p todo + sum_list_with rec_weight rs < local_weight (pump s) todo)%nat ∧
  happy i {| pump := p; out := out s ++ rs; inn := inn s |} todo.
Proof.
  intros E H. open_step R Sel W. unfold on_command, write in E. pose proof (ha_commands _ _ _ H) as Hc.
  destruct (commands (pump s)) as [|[n|r e] cmds] eqn:C; [done|..]; injection E as <- <-;
    apply list.Forall_cons in Hc as [Hx Hc]; [|by destruct Hx].
  split.
  - unfold local_weight, unreported; cbn. rewrite R, W, C; cbn. unfold rec_weight. lia.
  - apply happy_out; cbn; try done; try apply H. by intros ? ? ?%list_elem_of_singleton.
Qed.

Lemma smooth_tick idle i s todo p r :
  pump_step idle (pump s) ETick = Some (p, [r]) → happy i s todo →
  (local_weight p todo + rec_weight r < local_weight (pump s) todo)%nat ∧
  happy i {| pump := p; out := out s ++ [r]; inn := inn s |} todo.
Proof.
  intros E H. open_step R Sel W. unfold on_tick, write in E.
  destruct (commands (pump s)) eqn:C; [|done]. destruct (fin_ack_out _); [done|].
  destruct (reported _ <? _) eqn:L; [|done]. injection E as <- <-. split.
  - unfold local_weight, unreported; cbn. rewrite R, W, C, L, N.ltb_irrefl; cbn. unfold rec_weight. lia.
  - apply happy_out; cbn; try done; try apply H. by intros ? ? ?%list_elem_of_singleton.
Qed.

Lemma smooth_chunk idle i s d todo p rs :
  pump_step idle (pump s) (ERead (LChunk d)) = Some (p, rs) → happy i s (d :: todo) →
  (local_weight p todo + sum_list_with rec_weight rs < local_weight (pump s) (d :: todo))%nat ∧
  happy i {| pump := p; out := out s ++ rs; inn := inn s |} todo.
Proof.
  intros E H. open_step R Sel W. unfold on_read, write in E.
  destruct (commands (pump s)) eqn:C; [|done]. destruct (local_open _); [|done].
  destruct d as [|x d]; [done|]. destruct (_ <? _)%nat eqn:L; [done|]. injection E as <- <-. split.
  - unfold local_weight, unreported; cbn -[Nat.mul]. rewrite R, W, C; cbn -[Nat.mul]. unfold rec_weight. lia.
  - destruct H. constructor; cbn -[CHUNK]; try done.
    + intros n r [Hr|Hr%list_elem_of_singleton]%elem_of_app; [by eapply ha_out0|done].
    + by rewrite <- app_assoc.
    + intros Fs. by discriminate (ha_todo0 Fs).
    + by apply list.Forall_cons in ha_chunks0 as [_ ?].
Qed.

Lemma smooth_eof idle i s p rs :
  pump_step idle (pump s) (ERead (LEof Normal)) = Some (p, rs) → happy i s [] → side_ok s →
  (local_weight p [] + sum_list_with rec_weight rs < local_weight (pump s) [])%nat ∧
  happy i {| pump := p; out := out s ++ rs; inn := inn s |} [].
Proof.
  intros E H [O _]. open_step R Sel W. unfold on_read, write in E.
  destruct (commands (pump s)) eqn:C; [|done]. destruct (local_open _) eqn:Lo; [|done].
  cbn in E. injection E as <- <-.
  assert (fin_sent (pump s) = false) as Fs.
  { destruct (fin_sent (pump s)) eqn:Fs; [|done].
    destruct (oo_fin _ _ O Fs) as (_ & _ & [(_ & ? & _)|[? _]]); congruence. }
  split.
  - unfold local_weight, unreported; cbn -[Nat.mul]. rewrite R, W, C, Fs; cbn -[Nat.mul]. unfold rec_weight. lia.
  - apply happy_out; cbn; try done; try apply H. by intros ? ? ?%list_elem_of_singleton; simplify_eq.
Qed.

Lemma smooth_written idle i s todo now p :
  pump_step idle (pump s) (EWritten None now) = Some (p, []) → happy i s todo →
  (local_weight p todo < local_weight (pump s) todo)%nat ∧
  happy i {| pump := p; out := out s ++ []; inn := inn s |} todo.
Proof.
  intros E H. unfold pump_step in E. destruct (result (pump s)) eqn:R; [done|].
  apply fmap_Some in E as (q & E & [= ->]). unfold on_written in E.
  destruct (writing (pump s)) as [w|] eqn:W; [|done]. pose proof (ha_writing _ _ _ H) as Hw. rewrite W in Hw.
  assert (q = wrote (pump s) w now) as -> by (destruct w; first [by simplify_eq|by destruct (Hw e)]).
  split.
  - unfold local_weight, unreported; cbn -[Nat.mul]. rewrite R, W. destruct w; cbn -[Nat.mul]; lia.
  - apply happy_out; cbn; try done; try apply H. by intros ? ? ?%elem_of_nil.
Qed.

Lemma smooth_taken idle i s todo now p :
  pump_step idle (pump s) (ETaken TakeAll now) = Some (p, []) → happy i s todo → side_ok s →
  (local_weight p todo < local_weight (pump s) todo)%nat ∧
  happy i {| pump := p; out := out s ++ []; inn := inn s |} todo.
Proof.
  intros E H [_ I]. unfold pump_step in E. destruct (result (pump s)) eqn:R; [done|].
  apply fmap_Some in E as (q & E & [= ->]). unfold on_taken in E.
  assert (∀ r, unreported r <= 4)%nat as U by (intros; unfold unreported; destruct (_ <? _); lia).
  destruct (phase (pump s)) eqn:Ph; simplify_eq; split.
  - unfold local_weight; cbn -[Nat.mul unreported]. rewrite R, Ph, app_nil_r; cbn -[Nat.mul unreported].
    match goal with |- context [unreported ?q] => pose proof (U q) end. lia.
  - apply happy_out; cbn; try done; try apply H; [rewrite app_nil_r; apply H|].
    by intros ? ? ?%elem_of_nil.
  - unfold local_weight, unreported; cbn -[Nat.mul]. rewrite R, Ph, length_app, (proj2 (io_peer_fin _ _ I)); cbn -[Nat.mul]. lia.
  - apply happy_out; cbn; try done; try apply H; [|by intros ? ? ?%elem_of_nil].
    apply list.Forall_app; split; [apply H|]. constructor; [by eexists|done].
Qed.

Lemma smooth_opens idle i s todo b j tb r now p :
  linked s b → happy i s todo → happy j b tb → out b !! length (inn s) = Some r →
  pump_step idle (pump s) (ERecord (encode r) now) = Some (p, []) →
  (local_weight p todo < local_weight (pump s) todo + rec_weight r)%nat ∧
  happy i {| pump := p; out := out s; inn := inn s ++ [r] |} todo.
Proof.
  intros L H Hb Hr E. unfold pump_step in E. destruct (result (pump s)) eqn:R; [done|].
  destruct (reading (pump s)) eqn:Rd; [|done]. injection E as <-.
  destruct (next_record (eq Normal) s b r now L R Rd Hr) as [N1 N2].
  destruct (on_record_frame (pump s) (encode r) now) as [F1 F2].
  unfold reading in Rd. destruct (phase (pump s)) eqn:Ph; [|done..]. revert N1 N2 F1 F2.
  destruct r as [d|n r|n|n].
  - rewrite on_record_data. cbn zeta. destruct (their_fin _); [done|]. intros _ _ _ _. split.
    + unfold local_weight, unreported; cbn -[Nat.mul]. rewrite R, Ph; cbn -[Nat.mul]. lia.
    + destruct H. constructor; cbn; try done; by rewrite ?R.
  - rewrite on_record_fin. cbn zeta.
    assert (r = Normal) as -> by (eapply (ha_out _ _ _ Hb); by apply list_elem_of_lookup_2 in Hr).
    change (from_byte (to_byte Normal)) with Normal. rewrite (bool_decide_eq_true_2 (Normal = Normal)) by done.
    cbn [negb]. destruct (their_fin _); [done|]. destruct (wrap64 n =? _); [|done]. intros _ _ _ _. split.
    + unfold local_weight, unreported; cbn -[Nat.mul]. rewrite R, Ph; cbn -[Nat.mul]. lia.
    + destruct H. constructor; cbn; try done; by rewrite ?R.
  - rewrite on_record_ack. cbn zeta. destruct (fin_sent (pump s)) eqn:Fs; [|done].
    destruct (our_fin_confirmed _); [done|]. cbn [negb]. destruct (wrap64 n =? _); [|done]. intros _ _ _ _. split.
    + unfold local_weight, unreported; cbn -[Nat.mul]. rewrite R, Ph, Fs; cbn -[Nat.mul]. lia.
    + destruct H. constructor; cbn; try done; by rewrite ?R, ?Ph.
  - rewrite on_record_progress. intros _ _ _ _. split.
    + unfold local_weight, unreported; cbn -[Nat.mul]. rewrite R, Ph; cbn -[Nat.mul]. lia.
    + destruct H. constructor; cbn; try done; by rewrite ?R, ?Ph.
Qed.

(** Every step without a fault leaves less to do. *)
Lemma smooth_side_progress idle i j s todo b tb s' todo' :
  linked s b → happy i s todo → happy j b tb → smooth_side idle (out b) (s, todo) (s', todo') →
  (local_weight (pump s') todo' + flight_weight s' b + flight_weight b s'
   < local_weight (pump s) todo + flight_weight s b + flight_weight b s)%nat ∧
  happy i s' todo'.
Proof.
  intros L H Hb St. pose proof (ln_ab _ _ L) as Pr.
  assert (∀ p rs t, (local_weight p t + sum_list_with rec_weight rs < local_weight (pump s) todo)%nat →
    (local_weight p t + flight_weight {| pump := p; out := out s ++ rs; inn := inn s |} b
      + flight_weight b {| pump := p; out := out s ++ rs; inn := inn s |}
     < local_weight (pump s) todo + flight_weight s b + flight_weight b s)%nat) as Own.
  { intros p rs t Hl. rewrite flight_weight_app by done. unfold flight_weight, flight in *; cbn [inn out]. lia. }
  inversion St; subst; cbn [pump].
  - destruct (smooth_command idle i s todo' p rs) as [? ?]; auto.
  - destruct (smooth_tick idle i s todo' p r) as [? ?]; [done..|]. split; [|done]. apply Own. cbn [sum_list_with]. lia.
  - destruct (smooth_chunk idle i s d todo' p rs) as [? ?]; auto.
  - destruct (smooth_eof idle i s p rs) as [? ?]; auto. apply L.
  - destruct (smooth_written idle i s todo' now p) as [? ?]; [done..|]. split; [|done]. apply Own. cbn [sum_list_with]. lia.
  - destruct (smooth_taken idle i s todo' now p) as [? ?]; [done| |apply L|]; [done|].
    split; [|done]. apply Own. cbn [sum_list_with]. lia.
  - match goal with E : pump_step _ _ EJoin = _ |- _ => unfold pump_step in E; rename E into Ej end.
    destruct (result (pump s)) eqn:R; [done|]. destruct (joined _); [|done]. injection Ej as <-. split.
    + apply Own. unfold local_weight, unreported; cbn -[Nat.mul]. rewrite R. lia.
    + rewrite app_nil_r. destruct H. by constructor.
  - destruct (smooth_opens idle i s todo' b j tb r now p) as [Hw Hh]; [done..|]. split; [|done].
    assert (flight_weight b s = rec_weight r + flight_weight b {| pump := p; out := out s; inn := inn s ++ [r] |})%nat as ->
      by by rewrite <- (flight_weight_open b p (out s)).
    unfold flight_weight, flight in *; cbn [inn out] in *. lia.
Qed.

(** ** When nothing is left to do *)

(** A side that waits: all it can do is open a record, or nothing. *)
Record quiet (s : Side) : Prop := {
  qu_writing : writing (pump s) = None;
  qu_phase : phase (pump s) = Reading;
  qu_commands : commands (pump s) = [];
  qu_open : local_open (pump s) = false;
}.

Lemma no_commands s :
  Forall (λ c, is_Some (ack_cmd c)) (commands (pump s)) → omap ack_cmd (commands (pump s)) = [] →
  commands (pump s) = [].
Proof. destruct (commands (pump s)) as [|[n|? ?] l]; [done|..]; intros F; [done|]. by apply list.Forall_cons in F as [[? ?] _]. Qed.

Lemma joined_quiet i s todo : side_ok s → happy i s todo → joined (pump s) = true → quiet s.
Proof.
  intros [O I] H J. unfold joined in J. destruct (writing (pump s)) eqn:W; [done|].
  destruct (phase (pump s)) eqn:Ph; try done. rewrite !andb_true_iff, negb_true_iff in J.
  destruct J as (((((Lo & Fa) & T) & _) & _) & _). constructor; try done.
  apply no_commands; [apply H|]. pose proof (oo_acks _ _ O) as Ea. rewrite T in Ea.
  destruct (acks (out s)) eqn:A; [|by injection Ea as _ Ea; apply app_nil in Ea as [_ ?]].
  apply (oo_ack _ _ O) in A as [? _]. congruence.
Qed.

(** A side that has not ended can go on, or waits. *)
Lemma go_on idle feed i s todo :
  side_ok s → happy i s todo → result (pump s) = None →
  (∃ x, smooth_side idle feed (s, todo) x) ∨ quiet s.
Proof.
  intros [O I] H R. destruct (writing (pump s)) as [w|] eqn:W.
  { left. eexists. apply (sm_written _ _ s todo 0 (wrote (pump s) w 0)). unfold pump_step. rewrite R. cbn.
    unfold on_written. rewrite W. pose proof (ha_writing _ _ _ H) as Hw. rewrite W in Hw.
    destruct w; try done. by destruct (Hw e). }
  destruct (phase (pump s)) as [|d| |e] eqn:Ph.
  2,3: left; eexists; eapply (sm_taken _ _ s todo 0); unfold pump_step; rewrite R; cbn; unfold on_taken; by rewrite Ph.
  2: { by destruct (ha_phase _ _ _ H e). }
  destruct (commands (pump s)) as [|c cmds] eqn:C.
  - destruct (local_open (pump s)) eqn:Lo; [left|right; by constructor].
    destruct todo as [|d todo]; eexists.
    + eapply sm_eof. unfold pump_step, selecting, on_read. by rewrite R, W, C, Lo.
    + pose proof (ha_chunks _ _ _ H) as Hc. apply list.Forall_cons in Hc as [[Hd Hl%Nat.ltb_ge] _].
      eapply sm_chunk. unfold pump_step, selecting, on_read. rewrite R, W, C, Lo, Hl. cbn [orb].
      by destruct d.
  - pose proof (ha_commands _ _ _ H) as Hc. rewrite C in Hc. apply list.Forall_cons in Hc as [Hx _].
    destruct c as [n|]; [|by destruct Hx]. left. eexists. eapply sm_command. unfold pump_step.
    assert (fin_ack_out (pump s) = false) as Fa.
    { apply (oo_ack _ _ O). pose proof (oo_acks _ _ O) as Ea. rewrite C in Ea. cbn in Ea.
      destruct (their_fin (pump s)).
      - apply (f_equal length) in Ea. rewrite length_app in Ea. cbn in Ea. destruct (acks (out s)); [done|]. cbn in Ea. lia.
      - by apply app_nil in Ea as [_ ?]. }
    unfold selecting, on_command. by rewrite R, W, C, Fa, orb_true_r.
Qed.

(** Of two sides that wait, with nothing left to open, each has finished. *)
Lemma waiting_finished a b :
  linked a b → quiet a → quiet b → (reading (pump a) = true → inn a = out b) → ¬ failed (pump a) →
  their_fin (pump a) = true.
Proof.
  intros L Qa Qb Hi Nf. destruct (their_fin (pump a)) eqn:T; [done|]. exfalso.
  destruct (ln_a _ _ L) as [Oa Ia], (ln_b _ _ L) as [Ob Ib].
  assert (inn a = out b) as E by (apply Hi; unfold reading; by rewrite (qu_phase _ Qa), T).
  pose proof (io_data _ _ Ia T Nf) as D. rewrite (qu_phase _ Qa), E in D. destruct D as [_ D].
  destruct (fin_sent (pump b)) eqn:Fb.
  - destruct (oo_fin _ _ Ob Fb) as (F & _). congruence.
  - destruct (oo_open _ _ Ob Fb) as (Lo & _). rewrite (qu_open _ Qb) in Lo. done.
Qed.

Lemma quiet_fin s : side_ok s → quiet s → fin_sent (pump s) = true ∧ fin_out (pump s) = true.
Proof.
  intros [O _] [W _ _ Lo]. destruct (fin_sent (pump s)) eqn:F.
  - destruct (oo_fin _ _ O F) as (_ & _ & [(? & _)|[_ ?]]); [congruence|done].
  - destruct (oo_open _ _ O F) as (? & _). congruence.
Qed.

Lemma quiet_acked s :
  side_ok s → quiet s → their_fin (pump s) = true → acks (out s) ≠ [] ∧ fin_ack_out (pump s) = true.
Proof.
  intros [O _] [W _ C _] T. pose proof (oo_acks _ _ O) as Ea. rewrite T, C in Ea. cbn in Ea.
  rewrite app_nil_r in Ea. split; [by rewrite Ea|]. destruct (fin_ack_out (pump s)) eqn:F; [done|].
  assert (acks (out s) = []) as E; [|congruence]. apply (oo_ack _ _ O). rewrite W. by split.
Qed.

Lemma waiting_joined a b :
  linked a b → quiet a → their_fin (pump a) = true → acks (out b) ≠ [] → ¬ failed (pump a) →
  (reading (pump a) = true → inn a = out b) → joined (pump a) = true.
Proof.
  intros L Q T Ab Nf Hi. destruct (ln_a _ _ L) as [O I].
  destruct (quiet_fin a (ln_a _ _ L) Q) as [_ Fo]. destruct (quiet_acked a (ln_a _ _ L) Q T) as [_ Fa].
  assert (our_fin_confirmed (pump a) = true) as C.
  { destruct (our_fin_confirmed (pump a)) eqn:C; [done|]. exfalso. apply Ab.
    rewrite <- Hi by (unfold reading; by rewrite (qu_phase _ Q), T, C). by apply (io_unacked _ _ I). }
  unfold joined. by rewrite (qu_writing _ Q), (qu_phase _ Q), (qu_open _ Q), Fa, T, C, Fo, (io_confirmed _ _ I), C.
Qed.

(** A side that waits can open what is in flight, or has opened all. *)
Lemma open_or_drained idle s todo b :
  linked s b → quiet s → result (pump s) = None ∨ joined (pump s) = true →
  (∃ x, smooth_side idle (out b) (s, todo) x) ∨ (reading (pump s) = true → inn s = out b).
Proof.
  intros L Q R. destruct (ln_ba _ _ L) as [[|r k] Ek]; [right; by rewrite app_nil_r in Ek|].
  destruct (reading (pump s)) eqn:Rd; [left|by right]. destruct R as [R|J].
  - eexists. apply (sm_opens _ _ s todo r 0 (on_record (pump s) (encode r) 0)).
    + by rewrite Ek, lookup_app_r, Nat.sub_diag by done.
    + unfold pump_step. by rewrite R, Rd.
  - unfold joined, reading in *. destruct (writing _); [done|]. destruct (phase _); [|done..].
    destruct (their_fin _), (our_fin_confirmed _); rewrite ?andb_false_r in J; cbn in *; done.
Qed.

(** A side of a run without faults can go on, or waits, or has ended well. *)
Lemma go_on_or_wait idle feed i s todo :
  side_ok s → happy i s todo →
  (∃ x, smooth_side idle feed (s, todo) x) ∨ quiet s ∧ (result (pump s) = None ∨ joined (pump s) = true).
Proof.
  intros O H. destruct (result (pump s)) as [[rep|e]|] eqn:R.
  - destruct (io_result _ _ (proj2 O) rep R) as [J _]. right. split; [by eapply joined_quiet|by right].
  - by destruct (ha_result _ _ _ H e).
  - destruct (go_on idle feed i s todo O H R); auto.
Qed.

Lemma happy_not_failed i s todo : happy i s todo → ¬ failed (pump s).
Proof. intros H. unfold failed. destruct (result (pump s)) as [[?|e]|] eqn:E; try tauto. by destruct (ha_result _ _ _ H e). Qed.

Lemma join_or_joined idle feed i s todo :
  happy i s todo → joined (pump s) = true →
  (∃ x, smooth_side idle feed (s, todo) x) ∨ ∃ rep, result (pump s) = Some (Ok rep).
Proof.
  intros H J. destruct (result (pump s)) as [[rep|e]|] eqn:R; [by right; eexists|by destruct (ha_result _ _ _ H e)|].
  left. eexists. eapply sm_join. unfold pump_step. by rewrite R, J.
Qed.

(** What a session without faults ends with, for the inputs [i] and [j]. *)
Definition completed (i j : bytes) (x : Smooth) : Prop :=
  local_written (pump x.2.1) = i ∧ local_closed (pump x.2.1) = true ∧
  local_written (pump x.1.1) = j ∧ local_closed (pump x.1.1) = true ∧
  result (pump x.1.1) = Some (Ok {| rep_sent := wrap64 (blen i); rep_received := wrap64 (blen j) |}) ∧
  result (pump x.2.1) = Some (Ok {| rep_sent := wrap64 (blen j); rep_received := wrap64 (blen i) |}).

Lemma happy_read i s todo : happy i s todo → fin_sent (pump s) = true → local_read (pump s) = i.
Proof. intros H F. pose proof (ha_input _ _ _ H) as E. by rewrite (ha_todo _ _ _ H F), app_nil_r in E. Qed.

Lemma ended_completed i j a ta b tb ra rb :
  linked a b → happy i a ta → happy j b tb → result (pump a) = Some (Ok ra) → result (pump b) = Some (Ok rb) →
  completed i j ((a, ta), (b, tb)).
Proof.
  intros L Ha Hb Ra Rb. destruct (ended_delivered a b ra L Ra) as (W1 & C1 & W2 & C2 & _ & Fb & S1 & S2).
  destruct (ended_delivered b a rb (linked_sym _ _ L) Rb) as (_ & _ & _ & _ & _ & Fa & S3 & S4).
  rewrite (happy_read i a ta Ha Fa), (happy_read j b tb Hb Fb) in *.
  unfold completed; cbn. rewrite Ra, Rb. destruct ra, rb; cbn in *. by subst.
Qed.

Lemma smooth_goes_on i j a ta b tb :
  linked a b → happy i a ta → happy j b tb →
  (∃ x, smooth_step ((a, ta), (b, tb)) x) ∨ completed i j ((a, ta), (b, tb)).
Proof.
  intros L Ha Hb. pose proof (linked_sym _ _ L) as L'.
  pose proof (happy_not_failed _ _ _ Ha) as Fa. pose proof (happy_not_failed _ _ _ Hb) as Fb.
  assert ((∃ x, smooth_side idle_a (out b) (a, ta) x) → ∃ x, smooth_step ((a, ta), (b, tb)) x) as Sa
    by (intros [x Hx]; eexists; by apply smooth_a).
  assert ((∃ x, smooth_side idle_b (out a) (b, tb) x) → ∃ x, smooth_step ((a, ta), (b, tb)) x) as Sb
    by (intros [x Hx]; eexists; by apply smooth_b).
  destruct (go_on_or_wait idle_a (out b) i a ta (ln_a _ _ L) Ha) as [?|[Qa Ea]]; [by left; apply Sa|].
  destruct (go_on_or_wait idle_b (out a) j b tb (ln_b _ _ L) Hb) as [?|[Qb Eb]]; [by left; apply Sb|].
  destruct (open_or_drained idle_a a ta b L Qa Ea) as [?|Da]; [by left; apply Sa|].
  destruct (open_or_drained idle_b b tb a L' Qb Eb) as [?|Db]; [by left; apply Sb|].
  pose proof (waiting_finished a b L Qa Qb Da Fa) as Ta. pose proof (waiting_finished b a L' Qb Qa Db Fb) as Tb.
  destruct (quiet_acked a (ln_a _ _ L) Qa Ta) as [Ka _], (quiet_acked b (ln_b _ _ L) Qb Tb) as [Kb _].
  destruct (join_or_joined idle_a (out b) i a ta Ha) as [?|[ra Ra]]; [by eapply waiting_joined|by left; apply Sa|].
  destruct (join_or_joined idle_b (out a) j b tb Hb) as [?|[rb Rb]]; [by eapply waiting_joined|by left; apply Sb|].
  right. by eapply ended_completed.
Qed.

(** The invariant of a run without faults. *)
Definition smooth_ok (i j : bytes) (x : Smooth) : Prop :=
  linked x.1.1 x.2.1 ∧ happy i x.1.1 x.1.2 ∧ happy j x.2.1 x.2.2.

Lemma smooth_step_ok i j x y : smooth_step x y → smooth_ok i j x → smooth_ok i j y ∧ (weight y < weight x)%nat.
Proof.
  intros [[a ta] [b tb] [a' ta'] St|[a ta] [b tb] [b' tb'] St] (L & Ha & Hb); cbn [fst snd] in *.
  - destruct (smooth_side_progress idle_a i j a ta b tb a' ta' L Ha Hb St) as [Hw Hh]. split.
    + split_and!; [|done..]. apply (session_step_linked idle_a idle_b (eq Normal) (a, b) (a', b)); [exact normal_apart| |done].
      apply step_a. by apply smooth_is_step in St.
    + unfold weight; cbn [fst snd]. lia.
  - destruct (smooth_side_progress idle_b j i b tb a ta b' tb' (linked_sym _ _ L) Hb Ha St) as [Hw Hh]. split.
    + split_and!; [|done..]. apply (session_step_linked idle_a idle_b (eq Normal) (a, b) (a, b')); [exact normal_apart| |done].
      apply step_b. by apply smooth_is_step in St.
    + unfold weight; cbn [fst snd]. lia.
Qed.

Definition opening (i j : Input) : Smooth := ((fresh, i), (fresh, j)).

Lemma opening_ok i j : chunks_ok i → chunks_ok j → smooth_ok (concat i) (concat j) (opening i j).
Proof.
  intros Hi Hj. split_and!; [apply fresh_linked|..]; constructor; cbn; try done; by intros ? ? ?%elem_of_nil.
Qed.

(** A step of the watchdog in time changes nothing but its own timer. *)
Lemma watch_side_frame idle i s todo s' todo' :
  watch_side idle (s, todo) (s', todo') → happy i s todo →
  todo' = todo ∧ happy i s' todo ∧ out s' = out s ∧ inn s' = inn s ∧
  local_weight (pump s') todo = local_weight (pump s) todo.
Proof.
  intros St H. inversion St as [? ? p E|? ? now p T E]; subst; cbn [pump out inn]; rewrite app_nil_r; (split; [done|]);
    unfold pump_step in E; destruct (result (pump s)) eqn:R; try done; cbn beta iota in E;
    apply fmap_Some in E as (q & E & [= ->]).
  - unfold on_arm in E. repeat case_match; simplify_eq. split_and!; [by destruct H; constructor|done..].
  - unfold on_fire, in_time in *. destruct (deadline (pump s)) as [d|]; [|done]. destruct (now <? d); [done|].
    destruct (confirmed (pump s)); [simplify_eq; split_and!; [by destruct H; constructor|done..]|].
    destruct (delivering (pump s)); [simplify_eq; split_and!; [by destruct H; constructor|done..]|].
    cbn [orb] in T. apply N.ltb_lt, N.leb_gt in T. rewrite T in E. simplify_eq.
    split_and!; [by destruct H; constructor|done..].
Qed.

Lemma watch_step_ok i j x y : watch_step x y → smooth_ok i j x → smooth_ok i j y ∧ weight y = weight x.
Proof.
  intros [[a ta] [b tb] [a' ta'] St|[a ta] [b tb] [b' tb'] St] (L & Ha & Hb); cbn [fst snd] in *.
  - destruct (watch_side_frame _ _ _ _ _ _ St Ha) as (-> & Ha' & Eo & Ei & Ew). split.
    + split_and!; [|done..]. apply (session_step_linked idle_a idle_b (eq Normal) (a, b) (a', b)); [exact normal_apart| |done].
      apply step_a. exact (watch_is_step idle_a (out b) _ _ St).
    + unfold weight, flight_weight, flight; cbn [fst snd]. by rewrite Eo, Ei, Ew.
  - destruct (watch_side_frame _ _ _ _ _ _ St Hb) as (-> & Hb' & Eo & Ei & Ew). split.
    + split_and!; [|done..]. apply (session_step_linked idle_a idle_b (eq Normal) (a, b) (a, b')); [exact normal_apart| |done].
      apply step_b. exact (watch_is_step idle_b (out a) _ _ St).
    + unfold weight, flight_weight, flight; cbn [fst snd]. by rewrite Eo, Ei, Ew.
Qed.

Lemma smooth_run_ok i j n x y :
  smooth_run n x y → smooth_ok i j x → smooth_ok i j y ∧ (n + weight y <= weight x)%nat.
Proof.
  induction 1 as [x|n x y z St _ IH|n x y z St _ IH]; intros H; [split; [done|lia]|..].
  - destruct (smooth_step_ok _ _ _ _ St H) as [Hy Hw]. destruct (IH Hy) as [Hz Hn]. split; [done|lia].
  - destruct (watch_step_ok _ _ _ _ St H) as [Hy Hw]. destruct (IH Hy) as [Hz Hn]. split; [done|lia].
Qed.

(** C20 a session without faults ends, and ends well. Two ends whose local sides give the chunks of
    [i] and of [j] and whose transport does not fail take a number of steps bounded by the number of
    chunks, in whatever order the scheduler takes them; and as long as not both ends have returned
    their report, with both inputs delivered whole and both local sides closed, one of them can
    take a step. The watchdogs run beside that, and their steps are not counted: each may arm itself
    and wake up at its deadline whenever it likes, as long as the peer is in time at that moment
    ([in_time]: the idle time has not passed since the last record, or the confirmation is there, or
    the local side is being given data), and none of this ends the session or holds it up. *)
Theorem smooth_session_completes i j n x :
  chunks_ok i → chunks_ok j → smooth_run n (opening i j) x →
  (n <= 34 + 16 * (length i + length j))%nat ∧
  (completed (concat i) (concat j) x ∨ ∃ y, smooth_step x y).
Proof.
  intros Hi Hj Hr. destruct (smooth_run_ok _ _ _ _ _ Hr (opening_ok i j Hi Hj)) as [(L & Ha & Hb) Hn]. split.
  - enough (weight (opening i j) = 34 + 16 * (length i + length j))%nat by lia.
    unfold weight, local_weight, flight_weight, flight, unreported; cbn -[Nat.mul]. lia.
  - destruct x as [[a ta] [b tb]]; cbn in *. destruct (smooth_goes_on _ _ a ta b tb L Ha Hb); auto.
Qed.

End smooth.

(** ** Negotiation *)

Lemma from_to_payload c :
  flags c < 2 ^ 16 → from_payload (to_payload c) = if flags c =? 0 then None else Some c.
Proof.
  intros Hc. unfold to_payload. destruct (flags c =? 0); [done|].
  unfold from_payload, CAPS_MAGIC, CAPS_VERSION. rewrite !length_app. unfold u16_be. rewrite length_be_bytes. cbn -[be_bytes].
  rewrite drop_0, take_ge by by rewrite length_be_bytes. rewrite be_val_be_bytes, N.mod_small by done. by destruct c.
Qed.

(** the two ends of a handshake agree on the same capabilities, those that one offers and the
    other has: the responder finds the offer in message 1, and the initiator finds in message 2
    what the responder agreed to. *)
Theorem negotiation_agrees (offer own : SessionCaps) :
  flags offer < 2 ^ 16 →
  let agreed := responder_agrees own (to_payload offer) in
  agreed = intersect offer own ∧ initiator_agrees offer (to_payload agreed) = agreed.
Proof.
  intros Ho agreed.
  assert (agreed = intersect offer own) as E.
  { unfold agreed, responder_agrees. rewrite from_to_payload by done.
    destruct (N.eqb_spec (flags offer) 0) as [E|]; [|done]. unfold intersect. by rewrite E, N.land_0_l. }
  split; [done|]. rewrite E. unfold initiator_agrees. rewrite from_to_payload.
  - cbn. destruct (N.eqb_spec (N.land (flags offer) (flags own)) 0) as [Z|]; unfold intersect, NONE; cbn; [by rewrite Z|].
    f_equal. apply N.bits_inj. intros k. rewrite !N.land_spec. by destruct (N.testbit (flags offer) k), (N.testbit _ _).
  - cbn. destruct (N.eq_dec (N.land (flags offer) (flags own)) 0) as [->|Hn]; [done|].
    apply N.log2_lt_pow2; [lia|]. eapply N.le_lt_trans; [apply N.log2_land|].
    destruct (N.eq_dec (flags offer) 0) as [Z|]; [by rewrite Z in Hn|].
    apply N.min_lt_iff. left. apply N.log2_lt_pow2; [lia|done].
Qed.

(** ** Concrete sessions *)

(** One move of a side in a schedule: an event of its own, or the next record opened at a time. *)
Inductive Move := Own (e : Ev) | Opens (now : N).

Definition move (idle : N) (feed : list Rec) (s : Side) (m : Move) : option Side :=
  match m with
  | Own e =>
    if is_record e then None
    else (λ '(p, rs), {| pump := p; out := out s ++ rs; inn := inn s |}) <$> pump_step idle (pump s) e
  | Opens now =>
    r ← feed !! length (inn s);
    match pump_step idle (pump s) (ERecord (encode r) now) with
    | Some (p, []) => Some {| pump := p; out := out s; inn := inn s ++ [r] |}
    | _ => None
    end
  end.

Fixpoint play (idle : N) (moves : list (bool * Move)) (s : Side * Side) : option (Side * Side) :=
  match moves with
  | [] => Some s
  | (true, m) :: rest => a ← move idle (out s.2) s.1 m; play idle rest (a, s.2)
  | (false, m) :: rest => b ← move idle (out s.1) s.2 m; play idle rest (s.1, b)
  end.

Definition ends_move (ends : FinReason → Prop) (m : Move) : Prop :=
  match m with Own e => event_ends ends e | Opens _ => True end.

Lemma move_step ends idle feed s m s' :
  ends_move ends m → move idle feed s m = Some s' → side_step ends idle feed s s'.
Proof.
  intros Hs E. destruct m as [e|now]; cbn in *.
  - destruct (is_record e) eqn:R; [done|]. apply fmap_Some in E as ([p rs] & E & ->). by eapply side_own.
  - apply bind_Some in E as (r & Hr & E). destruct (pump_step _ _ _) as [[p [|]]|] eqn:E2; simplify_eq.
    by eapply side_opens.
Qed.

Lemma play_steps ends idle moves s s' :
  Forall (λ m, ends_move ends m.2) moves → play idle moves s = Some s' → rtc (session_step idle idle ends) s s'.
Proof.
  revert s. induction moves as [|[[] m] moves IH]; intros [a b] F E; cbn in E; [by simplify_eq|..];
    apply list.Forall_cons in F as [F1 F2]; apply bind_Some in E as (c & E1 & E2);
    (eapply rtc_l; [|by apply IH]); [apply step_a|apply step_b]; by eapply move_step.
Qed.

Definition demo_idle : N := DEFAULT_FIN_ACK_IDLE.
Definition from_a (e : Ev) : bool * Move := (true, Own e).
Definition from_b (e : Ev) : bool * Move := (false, Own e).
Definition written : Ev := EWritten None 1000000.
Definition taken : Ev := ETaken TakeAll 2000000.

(** The first end sends a greeting, the second only listens. *)
Definition greeting : list (bool * Move) := [
  from_a (ERead (LChunk (lit "hello"))); from_a written; from_b (ERead (LEof Normal)); from_b written;
  (false, Opens 3000000); from_b taken; from_b ETick; from_b written;
  from_a (ERead (LEof Normal)); from_a written; (true, Opens 4000000); from_a taken; from_a ECommand; from_a written;
  (true, Opens 5000000); (false, Opens 5000000); from_b taken; from_b ECommand; from_b written;
  (false, Opens 6000000); (true, Opens 6000000); from_a EJoin; from_b EJoin].

Definition after (moves : list (bool * Move)) : Side * Side :=
  default (fresh, fresh) (play demo_idle moves (fresh, fresh)).

Lemma after_reached ends moves s :
  Forall (λ m, ends_move ends m.2) moves → play demo_idle moves (fresh, fresh) = Some s →
  reached demo_idle demo_idle ends (s.1, s.2).
Proof. destruct s. apply play_steps. Qed.

Lemma ok_means_delivered_witness :
  reached demo_idle demo_idle (eq Normal) ((after greeting).1, (after greeting).2) ∧ local_written (pump (after greeting).2) = lit "hello" ∧
  rep_sent {| rep_sent := 5; rep_received := 0 |} = wrap64 (blen (local_read (pump (after greeting).1))).
Proof.
  assert (reached demo_idle demo_idle (eq Normal) ((after greeting).1, (after greeting).2)) as R.
  { apply (after_reached (eq Normal) greeting); [repeat constructor; done|by vm_compute]. }
  assert (result (pump (after greeting).1) = Some (Ok {| rep_sent := 5; rep_received := 0 |})) as E by by vm_compute.
  split; [exact R|].
  destruct (ok_means_delivered demo_idle demo_idle (eq Normal) (after greeting).1 (after greeting).2
              {| rep_sent := 5; rep_received := 0 |} normal_apart R E) as (-> & _ & _ & _ & _ & _ & -> & _).
  split; [by vm_compute|reflexivity].
Defined.

(** The same session, whose transport is cut before the second end has the FIN. *)
Definition cut : list (bool * Move) := [
  from_a (ERead (LChunk (lit "hello"))); from_a written; (false, Opens 3000000); from_b taken;
  from_a (ERead (LEof Normal)); from_a written; from_b (ETransportFails UnexpectedEof [])].

Definition cut_error : IoError :=
  Delivery UnexpectedEof (TransportEnded 5 false 0 false false (lit "end of stream")).

Lemma honest_never_accused_witness :
  reached demo_idle demo_idle (eq Normal) ((after cut).1, (after cut).2) ∧ accusation cut_error = false.
Proof.
  assert (reached demo_idle demo_idle (eq Normal) ((after cut).1, (after cut).2)) as R.
  { apply (after_reached (eq Normal) cut); [repeat constructor; done|by vm_compute]. }
  split; [exact R|]. apply (honest_never_accused demo_idle demo_idle (eq Normal) (after cut).1 (after cut).2 cut_error normal_apart); [exact R|].
  right. by vm_compute.
Defined.

(** The second end, which has nothing to send, waits for its confirmation with its watchdog armed; it
    wakes up in time and goes on. *)
Definition watched (moves : list (bool * Move)) (s : Side) : Side :=
  (default (fresh, s) (play demo_idle moves (fresh, s))).2.
Definition listening : Side := watched [from_b (ERead (LEof Normal)); from_b written] fresh.
Definition armed : Side := watched [from_b EArm] listening.

Lemma smooth_session_completes_witness :
  ∃ x, smooth_run demo_idle demo_idle 3 (opening [lit "hello"] []) x ∧ deadline (pump x.2.1) = Some 60001000000 ∧
  (completed (lit "hello") [] x ∨ ∃ y, smooth_step demo_idle demo_idle x y).
Proof.
  eexists. assert (smooth_run demo_idle demo_idle 3 (opening [lit "hello"] [])
    (({| pump := (after (take 1 greeting)).1.(pump); out := [RData (lit "hello")]; inn := [] |}, []),
     (armed, []))) as R.
  { eapply run_work; [apply smooth_a, sm_chunk; by vm_compute|].
    eapply run_work; [apply smooth_b, sm_eof; by vm_compute|].
    eapply run_work; [apply smooth_b, (sm_written _ _ _ _ 1000000); by vm_compute|].
    eapply run_watch; [apply watch_b, wa_arm; by vm_compute|]. by apply run_nil. }
  split; [exact R|]. split; [by vm_compute|].
  refine (proj2 (smooth_session_completes demo_idle demo_idle [lit "hello"] [] 3 _ _ _ R)).
  - constructor; [|constructor]. split; [by vm_compute|]. apply Nat.leb_le. by vm_compute.
  - constructor.
Defined.

Lemma negotiation_agrees_witness :
  flags DELIVERY_ACK < 2 ^ 16 ∧ responder_agrees (from_flags 3) (to_payload DELIVERY_ACK) = DELIVERY_ACK.
Proof.
  split; [done|].
  destruct (negotiation_agrees DELIVERY_ACK (from_flags 3) eq_refl) as [-> _]. by vm_compute.
Defined.

(** The reason [Unknown 0] has the byte of a normal end. An end whose local side fails with it
    tells its peer that its input ended, and the peer takes the session for complete. *)
Definition hidden_abort : list (bool * Move) := [
  from_a (ERead (LFail Other (lit "disk") (Unknown x00))); from_a written;
  (false, Opens 1000000); from_b taken].

Example unknown_zero_reads_as_normal :
  to_byte (Unknown x00) = to_byte Normal ∧
  (result (pump (after hidden_abort).1), their_fin (pump (after hidden_abort).2),
   local_closed (pump (after hidden_abort).2))
  = (Some (Err (Delivery Other (LocalEnded (Unknown x00) 0 (lit "reading the local side failed: disk")))), true, true).
Proof. by vm_compute. Qed.

End Delivery.
