(* ===== verification/Receipts.v ===== *)
(** * Signed receipts

    [common/src/receipt.rs]: the canonical text of a JSON value, the receipt, its signer and the
    verifier of a chain of receipts. [Json] holds the values of [serde_json] with their canonical
    text, [Receipt] the rest. The texts of scalars are the library's and a parameter. *)

From S2P Require Import Prelude RustStd Maps Interfaces Codec.

(** ** JSON values *)

Module Json.

(** [serde_json::Value]: a number is an integer, or a float given by its bits; an object is the
    content of its [BTreeMap], in the order of the keys. *)
Inductive Value :=
| Null | Bool (b : bool) | Number (n : Z) | Float (bits : N) | Str (s : bytes)
| Array (items : list Value) | Object (map : list (bytes * Value)).

Definition scalar (v : Value) : Prop := match v with Array _ | Object _ => False | _ => True end.

(** Induction over values, through the lists of arrays and objects. *)
Lemma value_ind (P : Value → Prop) :
  (∀ v, scalar v → P v) → (∀ l, Forall P l → P (Array l)) → (∀ m, Forall (λ kv, P kv.2) m → P (Object m)) →
  ∀ v, P v.
Proof.
  intros Hs Ha Ho. fix IH 1. intros [| | | | |l|m]; try (by apply Hs).
  - apply Ha. induction l; constructor; [apply IH|done].
  - apply Ho. induction m as [|[k v] m IHm]; constructor; [apply IH|done].
Qed.

Definition key_lt (a b : bytes) : Prop := bytes_leb a b = true ∧ a ≠ b.

(** The keys of a [BTreeMap] ascend. *)
Inductive ok : Value → Prop :=
| ok_scalar v : scalar v → ok v
| ok_array l : Forall ok l → ok (Array l)
| ok_object m : StronglySorted key_lt m.*1 → Forall (λ kv, ok kv.2) m → ok (Object m).

(** [Map::insert] of a [BTreeMap]. *)
Fixpoint insert (k : bytes) (v : Value) (m : list (bytes * Value)) : list (bytes * Value) :=
  match m with
  | [] => [(k, v)]
  | (k', v') :: rest =>
    if bool_decide (k = k') then (k, v) :: rest
    else if bytes_leb k k' then (k, v) :: m else (k', v') :: insert k v rest
  end.

(** [Value::get] with a key, and [Value::as_u64]. *)
Definition get (v : Value) (key : bytes) : option Value :=
  match v with Object m => snd <$> find (λ kv, bool_decide (kv.1 = key)) m | _ => None end.
Definition as_u64 (v : Value) : option N :=
  match v with Number n => if (n <? 0)%Z then None else Some (Z.to_N n) | _ => None end.

(** What the texts of scalars promise: the text [Value::to_string] gives a scalar, the value
    [serde_json::from_str] reads. A text ends where a separator follows, and starts like none. *)
Class JsonText := { to_string : Value → bytes }.

Definition separators : bytes := lit ",:]}".
Definition ends (x : bytes) : Prop := match x with [] => True | b :: _ => b ∈ separators end.

Class JsonTextLaws `{JsonText} : Prop := {
  to_string_cut a b x y : scalar a → scalar b → ends x → ends y →
    to_string a ++ x = to_string b ++ y → a = b ∧ x = y;
  to_string_head a : scalar a → ∃ c t, to_string a = c :: t ∧ c ∉ lit ",:]}[{";
}.

(** src/crates/common/src/receipt.rs:374-375 [write_canonical]: the text of an object's members is
    written for each and then sorted by key. *)
Definition key_leb (a b : bytes * bytes) : bool := bytes_leb a.1 b.1.

Section canonical.
Context `{JsonText}.

Definition member (kt : bytes * bytes) : bytes := to_string (Str kt.1) ++ lit ":" ++ kt.2.

(** src/crates/common/src/receipt.rs:371-401 [write_canonical] *)
Fixpoint write_canonical (v : Value) : bytes :=
  match v with
  | Object m =>
    lit "{" ++ RustStd.join (lit ",") (map member (sort_by key_leb (map (λ kv, (kv.1, write_canonical kv.2)) m)))
    ++ lit "}"
  | Array items => lit "[" ++ RustStd.join (lit ",") (map write_canonical items) ++ lit "]"
  | scalar => to_string scalar
  end.

(** src/crates/common/src/receipt.rs:365-369 [canonical_json] *)
Definition canonical_json (v : Value) : bytes := write_canonical v.

End canonical.

(** *** The canonical text determines the value *)

Section facts.
Context `{JsonTextLaws}.

Lemma sort_sorted (l : list (bytes * bytes)) : StronglySorted key_lt l.*1 → sort_by key_leb l = l.
Proof.
  induction l as [|[k t] l IH]; cbn; intros S; [done|]. apply StronglySorted_inv in S as [S F].
  unfold sort_by in *. cbn. rewrite IH by done. destruct l as [|[k' t'] l]; cbn; [done|].
  apply list.Forall_cons in F as [[F _] _]. unfold key_leb; cbn in *. by rewrite F.
Qed.

Lemma canonical_object m :
  StronglySorted key_lt m.*1 →
  write_canonical (Object m)
  = lit "{" ++ RustStd.join (lit ",") (map (λ kv, member (kv.1, write_canonical kv.2)) m) ++ lit "}".
Proof.
  intros S. cbn [write_canonical]. rewrite sort_sorted.
  - by rewrite map_map.
  - assert ((map (λ kv, (kv.1, write_canonical kv.2)) m).*1 = m.*1) as ->; [|done].
    clear S. induction m as [|[k v] m IH]; cbn; [done|]. by f_equal.
Qed.

(** The rest of a bracketed list after an element. *)
Definition rest {A} (f : A → bytes) (close : byte) (l : list A) (x : bytes) : bytes :=
  match l with [] => close :: x | _ => lit "," ++ RustStd.join (lit ",") (map f l) ++ close :: x end.

Lemma bracket_cons {A} (f : A → bytes) close a (l : list A) x :
  RustStd.join (lit ",") (map f (a :: l)) ++ close :: x = f a ++ rest f close l x.
Proof. destruct l as [|b l]; cbn; [done|]. by rewrite <- !app_assoc. Qed.

Lemma ends_rest {A} (f : A → bytes) close (l : list A) x : close ∈ separators → ends (rest f close l x).
Proof. destruct l; cbn; [done|]. intros _. by left. Qed.

Definition starts_well (s : bytes) : Prop := ∃ c t, s = c :: t ∧ c ∉ separators.

(** Bracketed lists of texts that can be cut are equal only element by element. *)
Lemma join_cut {A} (f : A → bytes) (P : A → Prop) close (l k : list A) x y :
  close ∈ separators → close ≠ x2c →
  Forall (λ a, ∀ b z w, P b → ends z → ends w → f a ++ z = f b ++ w → a = b ∧ z = w) l →
  Forall P k → Forall (λ a, starts_well (f a)) (l ++ k) →
  RustStd.join (lit ",") (map f l) ++ close :: x = RustStd.join (lit ",") (map f k) ++ close :: y → l = k ∧ x = y.
Proof.
  intros Hc Hn. revert k x y. induction l as [|a l IH]; intros k x y Fl Fk Fs E.
  - destruct k as [|b k]; [by simplify_eq|]. exfalso.
    apply list.Forall_app in Fs as [_ Fs]. apply list.Forall_cons in Fs as [(c & t & Eb & Hs) _].
    rewrite bracket_cons, Eb in E. injection E as -> _. done.
  - destruct k as [|b k].
    { exfalso. apply list.Forall_cons in Fs as [(c & t & Ea & Hs) _].
      rewrite bracket_cons, Ea in E. injection E as -> _. done. }
    apply list.Forall_cons in Fl as [Fa Fl]. apply list.Forall_cons in Fk as [Fb Fk].
    apply list.Forall_app in Fs as [Fs1 Fs2]. apply list.Forall_cons in Fs1 as [_ Fs1].
    apply list.Forall_cons in Fs2 as [_ Fs2].
    rewrite !bracket_cons in E. apply Fa in E as [-> E]; [|done|by apply ends_rest|by apply ends_rest].
    assert (l = k ∧ x = y) as [-> ->]; [|done].
    destruct l as [|a' l], k as [|b' k]; cbn [rest] in E.
    + by simplify_eq.
    + by injection E as -> _.
    + by injection E as <- _.
    + apply app_inv_head in E. apply IH; try done. by apply list.Forall_app.
Qed.

Lemma canonical_starts v : ok v → starts_well (write_canonical v).
Proof.
  intros Hv. inversion Hv as [v' S|l|m]; subst.
  - destruct (to_string_head v S) as (c & t & E & Hc).
    assert (write_canonical v = c :: t) as -> by by destruct v.
    exists c, t. split; [done|]. intros Hs. apply Hc. unfold separators in Hs.
    revert Hs. rewrite !list_elem_of_In. cbn. tauto.
  - exists x5b. eexists. split; [done|]. unfold separators. rewrite list_elem_of_In. cbn. by intuition.
  - exists x7b. eexists. split; [done|]. unfold separators. rewrite list_elem_of_In. cbn. by intuition.
Qed.

Lemma canonical_first v w x y :
  ok v → ok w → scalar v → write_canonical v ++ x = write_canonical w ++ y → scalar w.
Proof.
  intros Hv Hw S E. destruct (to_string_head v S) as (c & t & Ev & Hc).
  assert (write_canonical v = c :: t) as Ev' by by destruct v. rewrite Ev' in E.
  destruct w; try done; cbn in E; injection E as -> _; exfalso; apply Hc;
    rewrite list_elem_of_In; cbn; tauto.
Qed.

Lemma scalar_text v : scalar v → write_canonical v = to_string v.
Proof. by destruct v. Qed.

Lemma member_cut (m m' : bytes * Value) z w :
  (∀ b z w, ok b → ends z → ends w → write_canonical m.2 ++ z = write_canonical b ++ w → m.2 = b ∧ z = w) →
  ok m'.2 → ends z → ends w →
  member (m.1, write_canonical m.2) ++ z = member (m'.1, write_canonical m'.2) ++ w → m = m' ∧ z = w.
Proof.
  intros IH Ho Hz Hw E. destruct m as [k v], m' as [k' v']. unfold member in E; cbn [fst snd] in *.
  rewrite <- !app_assoc in E. apply to_string_cut in E as [Ek E]; [|done|done|..].
  - injection Ek as <-. apply app_inv_head in E. apply IH in E as [<- <-]; done.
  - cbn. rewrite list_elem_of_In. cbn. tauto.
  - cbn. rewrite list_elem_of_In. cbn. tauto.
Qed.

Lemma member_starts (m : bytes * Value) : starts_well (member (m.1, write_canonical m.2)).
Proof.
  destruct (to_string_head (Str m.1) I) as (c & t & E & Hc). unfold member; cbn [fst snd]. rewrite E.
  exists c. eexists. split; [done|]. intros Hs. apply Hc. unfold separators in Hs.
  revert Hs. rewrite !list_elem_of_In. cbn. tauto.
Qed.

(** A canonical text, followed by nothing or a separator, is the text of one value only. *)
Lemma canonical_cut a b x y :
  ok a → ok b → ends x → ends y → write_canonical a ++ x = write_canonical b ++ y → a = b ∧ x = y.
Proof.
  intros Ha. revert b x y. induction a as [a Sa|l IHl|m IHm] using value_ind; intros b x y Hb Hx Hy E.
  - pose proof (canonical_first a b x y Ha Hb Sa E) as Sb. rewrite !scalar_text in E by done.
    by apply to_string_cut in E.
  - inversion Ha as [? Hs|? Fl|]; subst; [done|]. destruct b as [| | | | |k|k].
    1-5: by apply symmetry, canonical_first in E.
    + inversion Hb as [? Hs|? Fk|]; subst; [done|]. cbn in E. rewrite <- !app_assoc in E. injection E as E.
      apply (join_cut _ ok) in E as [<- <-]; [done|..]; try done.
      * rewrite list_elem_of_In. cbn. tauto.
      * apply list.Forall_forall. intros c Hc d z w Hd Hz Hw Ec.
        rewrite list.Forall_forall in IHl, Fl. eapply IHl; eauto.
      * apply list.Forall_app; split; eapply list.Forall_impl; try done; intros; by apply canonical_starts.
    + done.
  - inversion Ha as [? Hs| |? Sm Fm]; subst; [done|]. destruct b as [| | | | |k|k].
    1-5: by apply symmetry, canonical_first in E.
    + rewrite canonical_object in E by done. done.
    + inversion Hb as [? Hs| |? Sk Fk]; subst; [done|]. rewrite !canonical_object in E by done.
      cbn in E. rewrite <- !app_assoc in E. injection E as E.
      apply (join_cut _ (λ kv, ok kv.2)) in E as [<- <-]; [done|..]; try done.
      * rewrite list_elem_of_In. cbn. tauto.
      * apply list.Forall_forall. intros c Hc d z w Hd Hz Hw Ec.
        rewrite list.Forall_forall in IHm, Fm. eapply member_cut; eauto.
      * apply list.Forall_true. intros. apply member_starts.
Qed.

Lemma canonical_inj a b : ok a → ok b → canonical_json a = canonical_json b → a = b.
Proof.
  intros Ha Hb E. apply (canonical_cut a b [] []); try done. by rewrite !app_nil_r.
Qed.

End facts.
End Json.

(** ** A toy text of scalars, on which the witnesses evaluate

    A scalar is written as [x] and the hexadecimal digits of its bytes; the reader is the parser of
    the canonical texts built on it. *)

Module ToyJson.
Import Json.

Fixpoint pos_bits (p : positive) : bytes :=
  match p with xH => [] | xO p => x00 :: pos_bits p | xI p => x01 :: pos_bits p end.
Fixpoint bits_pos (l : bytes) : positive :=
  match l with [] => xH | x00 :: l => xO (bits_pos l) | _ :: l => xI (bits_pos l) end.

Lemma bits_pos_bits p : bits_pos (pos_bits p) = p.
Proof. induction p; cbn; by rewrite ?IHp. Qed.

Definition ser (v : Value) : bytes :=
  match v with
  | Null => [x00]
  | Bool true => [x01; x01] | Bool false => [x01; x00]
  | Number 0 => [x02; x02] | Number (Zpos p) => x02 :: x03 :: pos_bits p | Number (Zneg p) => x02 :: x04 :: pos_bits p
  | Float 0 => [x03; x02] | Float (Npos p) => x03 :: x03 :: pos_bits p
  | Str s => x04 :: s
  | _ => []
  end.

Definition deser (b : bytes) : option Value :=
  match b with
  | [x00] => Some Null
  | [x01; x01] => Some (Bool true) | [x01; x00] => Some (Bool false)
  | [x02; x02] => Some (Number 0)
  | x02 :: x03 :: l => Some (Number (Zpos (bits_pos l))) | x02 :: x04 :: l => Some (Number (Zneg (bits_pos l)))
  | [x03; x02] => Some (Float 0) | x03 :: x03 :: l => Some (Float (Npos (bits_pos l)))
  | x04 :: s => Some (Str s)
  | _ => None
  end.

Lemma deser_ser v : scalar v → deser (ser v) = Some v.
Proof.
  destruct v as [|[]|[]|[]| | |]; cbn; rewrite ?bits_pos_bits; done.
Qed.

#[export] Instance text : JsonText := {| to_string v := lit "x" ++ Hex.encode (ser v) |}.

(** Characters of a scalar's text. *)
Definition plain (c : byte) : bool := bool_decide (c = x78) || Hex.hex_digit c.

Lemma plain_not_separator c : plain c = true → c ∉ lit ",:]}[{".
Proof.
  intros Hp Hc. revert Hp. rewrite list_elem_of_In in Hc. cbn in Hc.
  by repeat destruct Hc as [<-|Hc].
Qed.

Lemma encode_plain b : Forall (λ c, plain c = true) (Hex.encode b).
Proof.
  unfold Hex.encode. induction b as [|c b IH]; [constructor|]. cbn [flat_map]. apply list.Forall_app. split; [|done].
  revert c. assert (∀ c, forallb plain (Hex.encode_byte c) = true) as Hb by (apply Hex.byte_check; by vm_compute).
  intros c. apply list.Forall_forall. intros d Hd. specialize (Hb c). rewrite forallb_forall in Hb.
  by apply Hb, list_elem_of_In.
Qed.

Lemma text_plain v : Forall (λ c, plain c = true) (to_string v).
Proof. cbn. constructor; [done|]. apply encode_plain. Qed.

Lemma ends_not_plain x c : ends (c :: x) → plain c = true → False.
Proof.
  intros He Hp. apply plain_not_separator in Hp. apply Hp. cbn in He. revert He.
  rewrite !list_elem_of_In. cbn. tauto.
Qed.

Lemma plain_cut (a b x y : bytes) :
  Forall (λ c, plain c = true) a → Forall (λ c, plain c = true) b → ends x → ends y →
  a ++ x = b ++ y → a = b ∧ x = y.
Proof.
  intros Fa. revert b. induction Fa as [|c a Hc Fa IH]; intros b Fb Hx Hy E.
  - destruct Fb as [|d b Hd Fb]; [done|]. cbn in E. subst x. exfalso. by eapply ends_not_plain.
  - destruct Fb as [|d b Hd Fb]; cbn in E; [subst y; exfalso; by eapply ends_not_plain|].
    injection E as -> E. destruct (IH b Fb Hx Hy E) as [-> ->]. done.
Qed.

#[export] Instance text_laws : JsonTextLaws.
Proof.
  split.
  - intros a b x y Ha Hb Hx Hy E. apply plain_cut in E as [E ->]; [|apply text_plain..|done|done].
    split; [|done]. cbn in E. injection E as E. apply (f_equal Hex.decode) in E.
    rewrite !Hex.hex_decode_encode in E. injection E as E. apply (f_equal deser) in E.
    rewrite !deser_ser in E by done. congruence.
  - intros a Ha. exists x78. eexists. split; [reflexivity|]. by apply plain_not_separator.
Qed.

(** The first characters of a scalar's text. *)
Fixpoint span_plain (s : bytes) : bytes * bytes :=
  match s with
  | c :: t => if plain c then let '(h, r) := span_plain t in (c :: h, r) else ([], s)
  | [] => ([], [])
  end.

Lemma span_app h r : Forall (λ c, plain c = true) h → ends r → span_plain (h ++ r) = (h, r).
Proof.
  induction 1 as [|c h Hc _ IH]; intros He; cbn.
  - destruct r as [|c r]; [done|]. cbn. destruct (plain c) eqn:P; [|done]. exfalso. by eapply ends_not_plain.
  - by rewrite Hc, IH.
Qed.

Definition parse_scalar (s : bytes) : option (Value * bytes) :=
  match span_plain s with
  | (x78 :: h, r) => b ← Hex.decode h; v ← deser b; Some (v, r)
  | _ => None
  end.

Lemma parse_scalar_text v r : scalar v → ends r → parse_scalar (to_string v ++ r) = Some (v, r).
Proof.
  intros Hv Hr. unfold parse_scalar. rewrite span_app by (done || apply text_plain). cbn.
  rewrite Hex.hex_decode_encode. cbn. by rewrite deser_ser.
Qed.

Fixpoint parse (fuel : nat) (s : bytes) : option (Value * bytes) :=
  match fuel with
  | O => None
  | S f =>
    match s with
    | x5b :: x5d :: r => Some (Array [], r)
    | x5b :: t => lr ← items f t; Some (Array lr.1, lr.2)
    | x7b :: x7d :: r => Some (Object [], r)
    | x7b :: t => mr ← members f t; Some (Object mr.1, mr.2)
    | _ => parse_scalar s
    end
  end
with items (fuel : nat) (s : bytes) : option (list Value * bytes) :=
  match fuel with
  | O => None
  | S f =>
    vr ← parse f s;
    match vr.2 with
    | x2c :: t => lr ← items f t; Some (vr.1 :: lr.1, lr.2)
    | x5d :: t => Some ([vr.1], t)
    | _ => None
    end
  end
with members (fuel : nat) (s : bytes) : option (list (bytes * Value) * bytes) :=
  match fuel with
  | O => None
  | S f =>
    kr ← parse_scalar s;
    match kr with
    | (Str k, x3a :: t) =>
      vr ← parse f t;
      match vr.2 with
      | x2c :: t => mr ← members f t; Some ((k, vr.1) :: mr.1, mr.2)
      | x7d :: t => Some ([(k, vr.1)], t)
      | _ => None
      end
    | _ => None
    end
  end.

Definition value_from_str (s : bytes) : option Value :=
  match parse (S (length s)) s with Some (v, []) => Some v | _ => None end.

(** *** The parser reads every canonical text *)

Lemma parse_array f c t : c ≠ x5d → parse (S f) (x5b :: c :: t) = (lr ← items f (c :: t); Some (Array lr.1, lr.2)).
Proof. intros Hc. by destruct c. Qed.
Lemma parse_object f c t : c ≠ x7d → parse (S f) (x7b :: c :: t) = (mr ← members f (c :: t); Some (Object mr.1, mr.2)).
Proof. intros Hc. by destruct c. Qed.

Definition reads (v : Value) : Prop :=
  ∀ f r, ends r → (length (write_canonical v) < f)%nat → parse f (write_canonical v ++ r) = Some (v, r).

Lemma starts_not v c t d : ok v → write_canonical v = c :: t → d ∈ separators → c ≠ d.
Proof. intros Hv E Hd ->. destruct (canonical_starts v Hv) as (c' & t' & E' & Hc). rewrite E in E'. by simplify_eq. Qed.

Lemma length_join_cons {A} (g : A → bytes) a l :
  length (RustStd.join (lit ",") (map g (a :: l))) =
  (length (g a) + match l with [] => 0 | _ => 1 + length (RustStd.join (lit ",") (map g l)) end)%nat.
Proof. destruct l; cbn; [by rewrite Nat.add_0_r|]. rewrite length_app. cbn. lia. Qed.

Lemma items_read l : l ≠ [] → Forall reads l → ∀ f r,
  (length (RustStd.join (lit ",") (map write_canonical l)) + 1 < f)%nat →
  items f (RustStd.join (lit ",") (map write_canonical l) ++ x5d :: r) = Some (l, r).
Proof.
  intros Hl F. induction F as [|a l Ha F IH]; [done|]. clear Hl. intros f r Hf.
  rewrite length_join_cons in Hf. rewrite bracket_cons. destruct f as [|f]; [lia|]. cbn [items].
  rewrite Ha; [|apply ends_rest; rewrite list_elem_of_In; cbn; tauto|destruct l; lia].
  cbn [mbind option_bind fst snd]. destruct l as [|b l]; [done|].
  cbn [rest app lit String.list_byte_of_string]. 
  change (lit "," ++ RustStd.join (lit ",") (map write_canonical (b :: l)) ++ x5d :: r)
    with (x2c :: (RustStd.join (lit ",") (map write_canonical (b :: l)) ++ x5d :: r)).
  cbn iota. rewrite IH by (done || lia). done.
Qed.

Definition text_of (kv : bytes * Value) : bytes := member (kv.1, write_canonical kv.2).

Lemma members_read m : m ≠ [] → Forall (λ kv, reads kv.2) m → ∀ f r,
  (length (RustStd.join (lit ",") (map text_of m)) + 1 < f)%nat →
  members f (RustStd.join (lit ",") (map text_of m) ++ x7d :: r) = Some (m, r).
Proof.
  intros Hm F. induction F as [|[k v] m Hv F IH]; [done|]. clear Hm. intros f r Hf.
  rewrite length_join_cons in Hf. rewrite bracket_cons. destruct f as [|f]; [lia|]. cbn [members].
  unfold text_of at 1 in Hf. unfold text_of at 1. unfold member in *. cbn [fst snd] in *.
  rewrite <- !app_assoc. rewrite parse_scalar_text by (done || (cbn; rewrite list_elem_of_In; cbn; tauto)).
  cbn [mbind option_bind].
  change (lit ":" ++ write_canonical v ++ rest text_of x7d m r) with (x3a :: (write_canonical v ++ rest text_of x7d m r)).
  rewrite !length_app in Hf. cbn iota.
  rewrite Hv; [|apply ends_rest; rewrite list_elem_of_In; cbn; tauto|destruct m; lia].
  cbn [mbind option_bind fst snd]. destruct m as [|b m]; [done|].
  unfold rest. change (lit "," ++ RustStd.join (lit ",") (map text_of (b :: m)) ++ x7d :: r)
    with (x2c :: (RustStd.join (lit ",") (map text_of (b :: m)) ++ x7d :: r)).
  cbn iota. rewrite IH by (done || lia). done.
Qed.

Lemma join_head {A} (g : A → bytes) a l c t x :
  g a = c :: t → ∃ u, RustStd.join (lit ",") (map g (a :: l)) ++ x = c :: u.
Proof. intros E. destruct l; cbn; rewrite E; eexists; reflexivity. Qed.

Lemma parse_scalar_first f v r : scalar v → parse (S f) (to_string v ++ r) = parse_scalar (to_string v ++ r).
Proof. done. Qed.

Lemma canonical_reads v : ok v → reads v.
Proof.
  intros Hv. induction v as [v S|l IHl|m IHm] using value_ind; intros f r Hr Hf.
  - rewrite scalar_text in * by done. destruct f as [|f]; [lia|]. rewrite parse_scalar_first by done.
    by apply parse_scalar_text.
  - inversion Hv as [? Hs|? Fl|]; subst; [done|]. destruct f as [|f]; [lia|].
    destruct l as [|a l]; [done|].
    assert (Forall reads (a :: l)) as Fr.
    { rewrite list.Forall_forall in *. intros x Hx. by apply IHl, Fl. }
    apply list.Forall_cons in Fl as [Ha _].
    destruct (write_canonical a) as [|c t] eqn:Ea; [by destruct (canonical_starts a Ha) as (? & ? & ? & _); congruence|].
    assert (c ≠ x5d) as Hc by (eapply starts_not; [exact Ha|exact Ea|rewrite list_elem_of_In; cbn; tauto]).
    cbn [write_canonical] in *. rewrite <- !app_assoc.
    change (lit "[" ++ ?x) with (x5b :: x) in *. change (lit "]" ++ r) with (x5d :: r).
    destruct (join_head write_canonical a l c t (x5d :: r) Ea) as [u Eu]. rewrite Eu, parse_array by done.
    rewrite <- Eu, items_read; [done..|]. cbn [length] in Hf. rewrite length_app in Hf. cbn [length lit] in Hf. 
    change (length (lit "]")) with 1%nat in Hf. lia.
  - inversion Hv as [? Hs| |? Sm Fm]; subst; [done|]. destruct f as [|f]; [lia|].
    rewrite canonical_object in * by done.
    destruct m as [|[k v] m]; [done|].
    assert (Forall (λ kv, reads kv.2) ((k, v) :: m)) as Fr.
    { rewrite list.Forall_forall in *. intros x Hx. by apply IHm, Fm. }
    destruct (text_of (k, v)) as [|c t] eqn:Ea; [by destruct (member_starts (k, v)) as (? & ? & ? & _); unfold text_of in Ea; congruence|].
    assert (c ≠ x7d) as Hc.
    { intros ->. destruct (member_starts (k, v)) as (c' & t' & E' & Hc'). unfold text_of in Ea. rewrite Ea in E'.
      injection E' as <- <-. apply Hc'. rewrite list_elem_of_In. cbn. tauto. }
    rewrite <- !app_assoc. change (lit "{" ++ ?x) with (x7b :: x) in *. change (lit "}" ++ r) with (x7d :: r).
    change (map (λ kv : bytes * Value, member (kv.1, write_canonical kv.2)) ((k, v) :: m)) with (map text_of ((k, v) :: m)) in *.
    destruct (join_head text_of (k, v) m c t (x7d :: r) Ea) as [u Eu]. rewrite Eu, parse_object by done.
    rewrite <- Eu, members_read; [done..|]. cbn [length] in Hf. rewrite length_app in Hf.
    change (length (lit "}")) with 1%nat in Hf. lia.
Qed.

Lemma value_reads v : ok v → value_from_str (canonical_json v) = Some v.
Proof.
  intros Hv. unfold value_from_str, canonical_json.
  pose proof (canonical_reads v Hv (S (length (write_canonical v))) [] I) as R. rewrite app_nil_r in R.
  by rewrite R by lia.
Qed.

End ToyJson.

(** ** Receipts *)

Module Receipt.
Import Json.

(** src/crates/common/src/receipt.rs:52-52 [GENESIS_PREV_HASH] *)
Definition GENESIS_PREV_HASH : bytes := replicate 64 x30.
(** src/crates/common/src/receipt.rs:56-56 [KIND_SESSION_OPEN] *)
Definition KIND_SESSION_OPEN : bytes := lit "session_open".
(** src/crates/common/src/receipt.rs:59-59 [KIND_SESSION_CLOSE] *)
Definition KIND_SESSION_CLOSE : bytes := lit "session_close".
(** src/crates/common/src/receipt.rs:63-63 [KIND_BYTES] *)
Definition KIND_BYTES : bytes := lit "bytes".

(** src/crates/common/src/receipt.rs:67-86 [Receipt] *)
Record Receipt := {
  seq : N; prev_hash : bytes; ts : Z; edge_id : bytes; kind : bytes; token_hash : bytes;
  payload : Value; hash : bytes; sig : bytes;
}.

(** src/crates/common/src/receipt.rs:104-120 [VerifyError] *)
Inductive VerifyError :=
| BadPubkey | Malformed (seq : N) (field : bytes) | HashMismatch (seq : N) | BadSignature (seq : N)
| BrokenLink (seq : N) | SeqGap (seq expected : N) | EdgeIdMismatch (seq : N).

(** src/crates/common/src/receipt.rs:124-134 [VerifyError::seq] *)
Definition error_seq (e : VerifyError) : option N :=
  match e with
  | BadPubkey => None
  | Malformed seq _ | HashMismatch seq | BadSignature seq | BrokenLink seq | SeqGap seq _
  | EdgeIdMismatch seq => Some seq
  end.

(** src/crates/common/src/receipt.rs:138-152 [VerifyError::fmt] *)
Definition display (e : VerifyError) : bytes :=
  let at_seq seq text := lit "receipt seq " ++ decimal seq ++ lit ": " ++ text in
  match e with
  | BadPubkey => lit "public key is not a valid ed25519 key"
  | Malformed seq field => at_seq seq (lit "malformed field `" ++ field ++ lit "`")
  | HashMismatch seq => at_seq seq (lit "hash does not match its content")
  | BadSignature seq => at_seq seq (lit "signature does not verify")
  | BrokenLink seq => at_seq seq (lit "prev_hash does not link to the previous receipt")
  | SeqGap seq expected =>
    at_seq seq (lit "expected seq " ++ decimal expected ++ lit " (a receipt is missing or out of order)")
  | EdgeIdMismatch seq => at_seq seq (lit "edge_id differs from the chain's")
  end.

(** src/crates/common/src/receipt.rs:159-181 [VerifiedSummary] *)
Record VerifiedSummary := {
  count : N; sum_edge_id : option bytes; first_seq : option N; last_seq : option N;
  first_ts : option Z; last_ts : option Z; first_prev_hash : option bytes; last_hash : option bytes;
  from_genesis : bool; sessions_opened : N; sessions_closed : N; bytes_in : N; bytes_out : N;
}.

(** src/crates/common/src/receipt.rs:158-158 [VerifiedSummary] *)
Definition default_summary : VerifiedSummary := {|
  count := 0; sum_edge_id := None; first_seq := None; last_seq := None; first_ts := None; last_ts := None;
  first_prev_hash := None; last_hash := None; from_genesis := false; sessions_opened := 0;
  sessions_closed := 0; bytes_in := 0; bytes_out := 0 |}.

Definition eq_ignore_ascii_case (a b : bytes) : bool :=
  bool_decide (to_ascii_lowercase a = to_ascii_lowercase b).

(** src/crates/common/src/receipt.rs:276-278 [payload_u64] *)
Definition payload_u64 (payload : Value) (key : bytes) : N := default 0 (get payload key ≫= as_u64).

(** src/crates/common/src/receipt.rs:264-274 [tally] *)
Definition tally (s : VerifiedSummary) (r : Receipt) : VerifiedSummary :=
  if bool_decide (kind r = KIND_SESSION_OPEN) then
    {| count := count s; sum_edge_id := sum_edge_id s; first_seq := first_seq s; last_seq := last_seq s;
       first_ts := first_ts s; last_ts := last_ts s; first_prev_hash := first_prev_hash s;
       last_hash := last_hash s; from_genesis := from_genesis s; sessions_opened := sessions_opened s + 1;
       sessions_closed := sessions_closed s; bytes_in := bytes_in s; bytes_out := bytes_out s |}
  else if bool_decide (kind r = KIND_SESSION_CLOSE) then
    {| count := count s; sum_edge_id := sum_edge_id s; first_seq := first_seq s; last_seq := last_seq s;
       first_ts := first_ts s; last_ts := last_ts s; first_prev_hash := first_prev_hash s;
       last_hash := last_hash s; from_genesis := from_genesis s; sessions_opened := sessions_opened s;
       sessions_closed := sessions_closed s + 1;
       bytes_in := saturating_add64 (bytes_in s) (payload_u64 (payload r) (lit "bytes_in"));
       bytes_out := saturating_add64 (bytes_out s) (payload_u64 (payload r) (lit "bytes_out")) |}
  else s.

(** The first receipt's fields go into the summary. *)
Definition begin (s : VerifiedSummary) (r : Receipt) : VerifiedSummary :=
  {| count := count s; sum_edge_id := Some (edge_id r); first_seq := Some (seq r); last_seq := last_seq s;
     first_ts := Some (ts r); last_ts := last_ts s; first_prev_hash := Some (prev_hash r);
     last_hash := last_hash s;
     from_genesis := (seq r =? 1) && eq_ignore_ascii_case (prev_hash r) GENESIS_PREV_HASH;
     sessions_opened := sessions_opened s; sessions_closed := sessions_closed s;
     bytes_in := bytes_in s; bytes_out := bytes_out s |}.

(** The end of a round of the loop. *)
Definition advance (s : VerifiedSummary) (r : Receipt) : VerifiedSummary :=
  {| count := count s + 1; sum_edge_id := sum_edge_id s; first_seq := first_seq s; last_seq := Some (seq r);
     first_ts := first_ts s; last_ts := Some (ts r); first_prev_hash := first_prev_hash s;
     last_hash := Some (hash r); from_genesis := from_genesis s; sessions_opened := sessions_opened s;
     sessions_closed := sessions_closed s; bytes_in := bytes_in s; bytes_out := bytes_out s |}.

Definition decode_sized (n : nat) (s : bytes) : option bytes :=
  b ← Hex.decode s; if (length b =? n)%nat then Some b else None.

(** src/crates/common/src/receipt.rs:282-285 [ReceiptSigner] *)
Record ReceiptSigner `{Ed25519} := { key : SigningKey; signer_id : bytes }.

Section receipts.
Context `{JsonText} `{Ed25519} (sha256 : bytes → bytes).

(** src/crates/common/src/receipt.rs:346-348 [routing_token_hash] *)
Definition routing_token_hash (token : bytes) : bytes := Hex.encode (sha256 token).

(** src/crates/common/src/receipt.rs:352-359 [content_hash]: the object that is hashed. *)
Definition content (r : Receipt) : Value :=
  Object (insert (lit "ts") (Number (ts r))
    (insert (lit "seq") (Number (Z.of_N (seq r)))
      (insert (lit "routing_token_hash") (Str (token_hash r))
        (insert (lit "prev_hash") (Str (prev_hash r))
          (insert (lit "payload") (payload r)
            (insert (lit "kind") (Str (kind r))
              (insert (lit "edge_id") (Str (edge_id r)) []))))))).

(** src/crates/common/src/receipt.rs:351-361 [content_hash] *)
Definition content_hash (r : Receipt) : bytes := sha256 (canonical_json (content r)).

(** src/crates/common/src/receipt.rs:216-246 [verify_chain_anchored]: the format of a receipt and its
    link to what came before. *)
Definition check_link (anchor : option bytes) (s : VerifiedSummary) (prev : option (N * bytes)) (r : Receipt)
    : Result VerifiedSummary VerifyError :=
  match prev with
  | Some (prev_seq, prev_hash') =>
    let expected := wrap64 (prev_seq + 1) in
    if negb (seq r =? expected) then Err (SeqGap (seq r) expected)
    else if negb (bool_decide (prev_hash r = prev_hash')) then Err (BrokenLink (seq r))
    else if negb (bool_decide (sum_edge_id s = Some (edge_id r))) then Err (EdgeIdMismatch (seq r))
    else Ok s
  | None =>
    let required := match anchor with
                    | Some a => Some a
                    | None => if seq r =? 1 then Some GENESIS_PREV_HASH else None
                    end in
    match required with
    | Some q => if negb (eq_ignore_ascii_case (prev_hash r) q) then Err (BrokenLink (seq r)) else Ok (begin s r)
    | None => Ok (begin s r)
    end
  end.

(** src/crates/common/src/receipt.rs:203-260 [verify_chain_anchored]: one round of the loop. *)
Definition check_receipt (pubkey : bytes) (anchor : option bytes) (s : VerifiedSummary)
    (prev : option (N * bytes)) (r : Receipt) : Result VerifiedSummary VerifyError :=
  match decode_sized 32 (prev_hash r), decode_sized 32 (hash r), decode_sized 64 (sig r) with
  | None, _, _ => Err (Malformed (seq r) (lit "prev_hash"))
  | Some _, None, _ => Err (Malformed (seq r) (lit "hash"))
  | Some _, Some _, None => Err (Malformed (seq r) (lit "sig"))
  | Some _, Some hash_bytes, Some sig_bytes =>
    match check_link anchor s prev r with
    | Err e => Err e
    | Ok s =>
      if negb (bool_decide (content_hash r = hash_bytes)) then Err (HashMismatch (seq r))
      else if negb (ed_verify pubkey hash_bytes sig_bytes) then Err (BadSignature (seq r))
      else Ok (advance (tally s r) r)
    end
  end.

Fixpoint check_all (pubkey : bytes) (anchor : option bytes) (s : VerifiedSummary) (prev : option (N * bytes))
    (rs : list Receipt) : Result VerifiedSummary VerifyError :=
  match rs with
  | [] => Ok s
  | r :: rest =>
    match check_receipt pubkey anchor s prev r with
    | Ok s' => check_all pubkey anchor s' (Some (seq r, hash r)) rest
    | Err e => Err e
    end
  end.

(** src/crates/common/src/receipt.rs:195-262 [verify_chain_anchored] *)
Definition verify_chain_anchored (receipts : list Receipt) (pubkey : bytes) (anchor : option bytes)
    : Result VerifiedSummary VerifyError :=
  if key_ok pubkey then check_all pubkey anchor default_summary None receipts else Err BadPubkey.

(** src/crates/common/src/receipt.rs:188-190 [verify_chain] *)
Definition verify_chain (receipts : list Receipt) (pubkey : bytes) : Result VerifiedSummary VerifyError :=
  verify_chain_anchored receipts pubkey None.

(** src/crates/common/src/receipt.rs:293-295 [ReceiptSigner::edge_id] *)
Definition signer_edge_id (s : ReceiptSigner) : bytes := signer_id s.

(** src/crates/common/src/receipt.rs:297-299 [ReceiptSigner::pubkey_bytes] *)
Definition pubkey_bytes (s : ReceiptSigner) : bytes := verifying_key (key s).

(** src/crates/common/src/receipt.rs:303-305 [ReceiptSigner::pubkey_hex] *)
Definition pubkey_hex (s : ReceiptSigner) : bytes := Hex.encode (pubkey_bytes s).

(** src/crates/common/src/receipt.rs:308-332 [ReceiptSigner::sign] *)
Definition sign (s : ReceiptSigner) (seq : N) (prev_hash : bytes) (ts : Z) (kind token_hash : bytes)
    (payload : Value) : Receipt :=
  let unsigned := {| seq := seq; prev_hash := prev_hash; ts := ts; edge_id := signer_id s; kind := kind;
                     token_hash := token_hash; payload := payload; hash := []; sig := [] |} in
  let h := content_hash unsigned in
  {| seq := seq; prev_hash := prev_hash; ts := ts; edge_id := signer_id s; kind := kind;
     token_hash := token_hash; payload := payload; hash := Hex.encode h;
     sig := Hex.encode (Interfaces.sign (key s) h) |}.

End receipts.

(** src/crates/common/src/receipt.rs:458-460 [pubkey_from_hex] *)
Definition pubkey_from_hex (s : bytes) : option bytes := decode_sized 32 (trim s).

(** ** The export file *)

(** src/crates/common/src/receipt.rs:92-99 [ExportHeader] *)
Record ExportHeader := { header_pubkey : bytes; header_edge_id : bytes; tunnel : option bytes }.

(** src/crates/common/src/receipt.rs:405-408 [ParsedExport] *)
Record ParsedExport := { header : ExportHeader; receipts : list Receipt }.

(** src/crates/common/src/receipt.rs:412-416 [ParseError] *)
Inductive ParseError := Empty | BadHeader (e : bytes) | BadReceipt (line : N) (e : bytes).

(** [str::lines]: a line ends with a line feed, before which a carriage return is dropped. *)
Definition strip_cr (s : bytes) : bytes :=
  match rev s with x0d :: t => rev t | _ => s end.
Fixpoint lines_of (parts : list bytes) : list bytes :=
  match parts with
  | [] => []
  | [last] => match last with [] => [] | _ => [last] end
  | part :: rest => strip_cr part :: lines_of rest
  end.
Definition lines (text : bytes) : list bytes := lines_of (split_on x0a text).

(** [enumerate]. *)
Fixpoint number_from (n : N) (l : list bytes) : list (N * bytes) :=
  match l with [] => [] | x :: l => (n, x) :: number_from (n + 1) l end.

(** The JSON forms of the two types are derived; [serde_json] reads and writes them. *)
Class Jsonl := {
  header_from_str : bytes → Result ExportHeader bytes; header_to_string : ExportHeader → bytes;
  receipt_from_str : bytes → Result Receipt bytes; receipt_to_string : Receipt → bytes;
}.

Section export.
Context `{Jsonl}.

Fixpoint parse_receipts (l : list (N * bytes)) : Result (list Receipt) ParseError :=
  match l with
  | [] => Ok []
  | (idx, line) :: rest =>
    match receipt_from_str line with
    | Err e => Err (BadReceipt (idx + 1) e)
    | Ok r => match parse_receipts rest with Ok rs => Ok (r :: rs) | Err e => Err e end
    end
  end.

(** src/crates/common/src/receipt.rs:433-444 [parse_jsonl] *)
Definition parse_jsonl (text : bytes) : Result ParsedExport ParseError :=
  match filter (λ l, bool_decide (trim l.2 = []) = false) (number_from 0 (lines text)) with
  | [] => Err Empty
  | (_, header_line) :: rest =>
    match header_from_str header_line with
    | Err e => Err (BadHeader e)
    | Ok h => match parse_receipts rest with Ok rs => Ok {| header := h; receipts := rs |} | Err e => Err e end
    end
  end.

(** src/crates/common/src/receipt.rs:447-455 [to_jsonl] *)
Definition to_jsonl (h : ExportHeader) (rs : list Receipt) : bytes :=
  header_to_string h ++ [x0a] ++ concat (map (λ r, receipt_to_string r ++ [x0a]) rs).

End export.

(** ** What a verified chain says *)

Section facts.
Context `{JsonTextLaws} `{Ed25519Laws} (sha256 : bytes → bytes).

Lemma content_fields r :
  content r = Object [(lit "edge_id", Str (edge_id r)); (lit "kind", Str (kind r)); (lit "payload", payload r);
    (lit "prev_hash", Str (prev_hash r)); (lit "routing_token_hash", Str (token_hash r));
    (lit "seq", Number (Z.of_N (seq r))); (lit "ts", Number (ts r))].
Proof. reflexivity. Qed.

Lemma content_ok r : ok (payload r) → ok (content r).
Proof.
  intros Hp. rewrite content_fields. apply ok_object.
  - cbn. repeat first [done|constructor]; by vm_compute.
  - repeat first [done|constructor].
Qed.

(** Two receipts with the same signed content. *)
Definition same_content (r e : Receipt) : Prop :=
  seq r = seq e ∧ prev_hash r = prev_hash e ∧ ts r = ts e ∧ edge_id r = edge_id e ∧ kind r = kind e ∧
  token_hash r = token_hash e ∧ payload r = payload e.

Lemma content_same r e : content r = content e → same_content r e.
Proof. rewrite !content_fields. intros [= ]. split_and!; try done. lia. Qed.

Lemma text_same r e :
  ok (payload r) → ok (payload e) → canonical_json (content r) = canonical_json (content e) → same_content r e.
Proof. intros Hr He E. apply content_same, canonical_inj; [by apply content_ok..|done]. Qed.

(** The receipts an edge signs, each linked to the one before. *)
Inductive chain (s : ReceiptSigner) : N → bytes → list Receipt → Prop :=
| chain_nil n prev : chain s n prev []
| chain_cons n prev t k th p rest :
    ok p → chain s (n + 1) (hash (sign sha256 s n prev t k th p)) rest →
    chain s n prev (sign sha256 s n prev t k th p :: rest).

Lemma chain_lookup s n prev E i e :
  chain s n prev E → E !! i = Some e → seq e = n + N.of_nat i ∧ ok (payload e) ∧ edge_id e = signer_id s.
Proof.
  intros C. revert i. induction C as [|n prev t k th p rest Hp C IH]; intros i Hi; [done|].
  destruct i as [|i]; [injection Hi as <-; cbn; split_and!; [lia|done..]|].
  destruct (IH i Hi) as (-> & ?). split; [lia|done].
Qed.

Lemma check_receipt_Ok pk anchor s prev r s' :
  check_receipt sha256 pk anchor s prev r = Ok s' →
  ∃ h sg, decode_sized 32 (hash r) = Some h ∧ decode_sized 64 (sig r) = Some sg ∧
    content_hash sha256 r = h ∧ ed_verify pk h sg = true ∧
    ∀ n p, prev = Some (n, p) → seq r = wrap64 (n + 1) ∧ prev_hash r = p.
Proof.
  unfold check_receipt. intros E. destruct (decode_sized 32 (prev_hash r)); [|done].
  destruct (decode_sized 32 (hash r)) as [h|]; [|done]. destruct (decode_sized 64 (sig r)) as [sg|]; [|done].
  destruct (check_link anchor s prev r) eqn:L; [|done].
  destruct (bool_decide_reflect (content_hash sha256 r = h)) as [Eh|]; [|done]. cbn [negb] in E.
  destruct (ed_verify pk h sg) eqn:V; [|done]. exists h, sg. split_and!; try done.
  intros n p ->. unfold check_link in L. destruct (N.eqb_spec (seq r) (wrap64 (n + 1))); [|done].
  destruct (bool_decide_reflect (prev_hash r = p)); [|done]. done.
Qed.

(** A forgery: a signature that verifies over a hash the edge never signed. *)
Definition forged (pk : bytes) (E rs : list Receipt) : Prop :=
  ∃ r h sg, r ∈ rs ∧ decode_sized 64 (sig r) = Some sg ∧ content_hash sha256 r = h ∧
    ed_verify pk h sg = true ∧ h ∉ map (content_hash sha256) E.

(** A collision of SHA-256 between a receipt in hand and one the edge signed. *)
Definition collides (E rs : list Receipt) : Prop :=
  ∃ r e, r ∈ rs ∧ e ∈ E ∧ canonical_json (content r) ≠ canonical_json (content e) ∧
    sha256 (canonical_json (content r)) = sha256 (canonical_json (content e)).

Lemma attested_one pk E rs anchor s prev r s' :
  Forall (λ e, ok (payload e)) E → ok (payload r) → r ∈ rs →
  check_receipt sha256 pk anchor s prev r = Ok s' →
  (∃ e, e ∈ E ∧ same_content r e) ∨ forged pk E rs ∨ collides E rs.
Proof.
  intros FE Hr Hin Hc. apply check_receipt_Ok in Hc as (h & sg & _ & Es & Eh & V & _).
  destruct (decide (h ∈ map (content_hash sha256) E)) as [Hh|Hh].
  - apply list_elem_of_In, in_map_iff in Hh as (e & Ee & He). apply list_elem_of_In in He.
    destruct (decide (canonical_json (content r) = canonical_json (content e))) as [Et|Et].
    + left. exists e. split; [done|]. apply text_same; [done| |done].
      rewrite list.Forall_forall in FE. by apply FE.
    + right; right. exists r, e. split_and!; try done. by rewrite <- Eh in Ee.
  - right; left. by exists r, h, sg.
Qed.

Lemma chain_payloads s n prev E : chain s n prev E → Forall (λ e, ok (payload e)) E.
Proof.
  intros C. apply list.Forall_lookup. intros i e Hi. by destruct (chain_lookup _ _ _ _ _ _ C Hi) as (_ & ? & _).
Qed.

(** The rest of a verified chain follows the log from where its head is in it. *)
Lemma verified_from s pk E anchor sm r rs all :
  chain s 1 GENESIS_PREV_HASH E → N.of_nat (length E) < U64 - 1 →
  Forall (λ e, ok (payload e)) rs → rs ⊆ all → is_ok (check_all sha256 pk anchor sm (Some (seq r, hash r)) rs) = true →
  (∃ e, e ∈ E ∧ same_content r e) →
  (∃ n, N.of_nat n = seq r ∧ Forall2 same_content rs (take (length rs) (drop n E)))
  ∨ forged pk E all ∨ collides E all.
Proof.
  intros C B. revert sm r. induction rs as [|r' rs IH]; intros sm r F Sub V (e & He & Er).
  { left. exists (N.to_nat (seq r)). split; [lia|]. constructor. }
  cbn in V. destruct (check_receipt sha256 pk anchor sm (Some (seq r, hash r)) r') as [sm'|] eqn:Hc; [|done].
  apply list.Forall_cons in F as [Fr F].
  assert (r' ∈ all) as Hall by (apply Sub; by left).
  destruct (attested_one pk E all _ _ _ _ _ (chain_payloads _ _ _ _ C) Fr Hall Hc) as [(e' & He' & Er')|Bad];
    [|by right].
  destruct (IH sm' r' F) as [(n & En & F2)|Bad]; [by set_solver|done|by exists e'| |by right].
  left. exists (N.to_nat (seq r)). split; [lia|].
  apply list_elem_of_lookup in He as [i Hi], He' as [j Hj].
  destruct (chain_lookup _ _ _ _ _ _ C Hi) as (Ei & _), (chain_lookup _ _ _ _ _ _ C Hj) as (Ej & _).
  apply lookup_lt_Some in Hi as Li. apply lookup_lt_Some in Hj as Lj.
  assert (seq r' = seq r + 1) as Es.
  { apply check_receipt_Ok in Hc as (_ & _ & _ & _ & _ & _ & Hn). destruct (Hn _ _ eq_refl) as [-> _].
    unfold wrap64. apply N.mod_small. destruct Er as [-> _]. lia. }
  destruct Er as [Er _]. destruct Er' as [Er1 Er'].
  assert (N.to_nat (seq r) = j) as -> by lia. assert (n = Datatypes.S j) as -> by lia.
  rewrite (drop_S _ _ _ Hj). cbn. constructor; [by split|done].
Qed.

(** C24 a verified chain is what the edge attested. Take the log of every receipt an edge ever
    signed. If a list of receipts, from wherever, verifies under the edge's key, then it has the
    content of a contiguous stretch of that log, receipt by receipt: nothing altered, nothing
    removed between the first and the last, nothing reordered, nothing added; or the list exhibits
    a signature of a hash the edge never signed, or two contents with the same SHA-256. *)
Theorem verified_was_attested s E rs anchor sm :
  chain s 1 GENESIS_PREV_HASH E → N.of_nat (length E) < U64 - 1 → Forall (λ r, ok (payload r)) rs →
  verify_chain_anchored sha256 rs (pubkey_bytes s) anchor = Ok sm →
  (∃ n, Forall2 same_content rs (take (length rs) (drop n E)))
  ∨ forged (pubkey_bytes s) E rs ∨ collides E rs.
Proof.
  intros C B F V. unfold verify_chain_anchored in V. destruct (key_ok _); [|done].
  destruct rs as [|r rs]; [left; exists 0%nat; constructor|]. cbn in V.
  destruct (check_receipt sha256 (pubkey_bytes s) anchor default_summary None r) as [sm'|] eqn:Hc; [|done].
  apply list.Forall_cons in F as [Fr F].
  destruct (attested_one _ E (r :: rs) _ _ _ _ _ (chain_payloads _ _ _ _ C) Fr ltac:(by left) Hc)
    as [(e & He & Er)|Bad]; [|by right].
  destruct (verified_from s (pubkey_bytes s) E anchor sm' r rs (r :: rs) C B F) as [(n & En & F2)|Bad];
    [by set_solver|by rewrite V|by exists e| |by right].
  left. apply list_elem_of_lookup in He as [i Hi].
  destruct (chain_lookup _ _ _ _ _ _ C Hi) as (Ei & _). pose proof (proj1 Er) as Es.
  exists i. rewrite (drop_S _ _ _ Hi). cbn. constructor; [done|]. by assert (n = Datatypes.S i) as -> by lia.
Qed.

(** ** What the edge signed verifies *)

Context (sha256_length : ∀ x, length (sha256 x) = 32%nat).

Lemma decode_encoded n b : length b = n → decode_sized n (Hex.encode b) = Some b.
Proof.
  intros L. unfold decode_sized. rewrite Hex.hex_decode_encode. cbn. by rewrite L, Nat.eqb_refl.
Qed.

Definition well_hex (h : bytes) : Prop := is_Some (decode_sized 32 h).

Lemma signed_hash_hex s n prev t k th p : well_hex (hash (sign sha256 s n prev t k th p)).
Proof. eexists. apply decode_encoded. apply sha256_length. Qed.

Lemma check_signed s anchor sm sm' prev n p t k th pl :
  well_hex p → check_link anchor sm prev (sign sha256 s n p t k th pl) = Ok sm' →
  check_receipt sha256 (pubkey_bytes s) anchor sm prev (sign sha256 s n p t k th pl)
  = Ok (advance (tally sm' (sign sha256 s n p t k th pl)) (sign sha256 s n p t k th pl)).
Proof.
  intros [b Hb] L. unfold check_receipt. rewrite L. cbn [prev_hash hash sig sign]. rewrite Hb.
  rewrite !decode_encoded by (apply sha256_length || apply signature_length).
  rewrite bool_decide_eq_true_2 by done. cbn [negb].
  by rewrite (sign_verifies (key s)).
Qed.

Definition counted (s : VerifiedSummary) (r : Receipt) : VerifiedSummary := advance (tally s r) r.

Lemma counted_edge s r : sum_edge_id (counted s r) = sum_edge_id s.
Proof. unfold counted, tally. by repeat case_match. Qed.

Lemma rest_verifies s anchor sm n prev rs :
  chain s (n + 1) prev rs → well_hex prev → n + N.of_nat (length rs) < U64 →
  sum_edge_id sm = Some (signer_id s) →
  check_all sha256 (pubkey_bytes s) anchor sm (Some (n, prev)) rs = Ok (foldl counted sm rs).
Proof.
  intros C. remember (n + 1) as m eqn:Em. revert n sm Em.
  induction C as [m prev|m prev t k th p rest Hp C IH]; intros n sm -> W B He; [done|].
  cbn [check_all foldl length] in *.
  assert (wrap64 (n + 1) = n + 1) as Ew by (unfold wrap64; apply N.mod_small; lia).
  rewrite (check_signed s anchor sm sm) by (unfold check_link; cbn [seq prev_hash edge_id sign];
    rewrite ?Ew, ?N.eqb_refl, ?bool_decide_eq_true_2 by done; done || done).
  apply IH; [done|apply signed_hash_hex|cbn [seq sign]; lia|by rewrite counted_edge].
Qed.

(** The summary of a chain that verifies. *)
Definition summary_of (rs : list Receipt) : VerifiedSummary :=
  match rs with [] => default_summary | r :: _ => foldl counted (begin default_summary r) rs end.

Definition anchored (anchor : option bytes) (n : N) (prev : bytes) : Prop :=
  match anchor with
  | Some a => eq_ignore_ascii_case prev a = true
  | None => n = 1 → eq_ignore_ascii_case prev GENESIS_PREV_HASH = true
  end.

Lemma chain_verifies s anchor n prev rs :
  chain s n prev rs → well_hex prev → n + N.of_nat (length rs) <= U64 → anchored anchor n prev →
  verify_chain_anchored sha256 rs (pubkey_bytes s) anchor = Ok (summary_of rs).
Proof.
  intros C W B A. unfold verify_chain_anchored, pubkey_bytes. rewrite verifying_key_ok.
  destruct C as [|n prev t k th p rest Hp C]; [done|]. cbn [check_all summary_of foldl length] in *.
  rewrite (check_signed s anchor default_summary (begin default_summary (sign sha256 s n prev t k th p))); [|done|].
  - apply rest_verifies; [done|apply signed_hash_hex|cbn [seq sign]; lia|by rewrite counted_edge].
  - unfold check_link, anchored in *. destruct anchor as [a|]; cbn [prev_hash seq sign]; [by rewrite A|].
    destruct (N.eqb_spec n 1) as [->|]; [by rewrite A|done].
Qed.

Lemma chain_drop s n prev E i :
  chain s n prev E → well_hex prev → (i <= length E)%nat →
  ∃ prev', chain s (n + N.of_nat i) prev' (drop i E) ∧ well_hex prev' ∧ (i = 0%nat → prev' = prev).
Proof.
  revert n prev E. induction i as [|i IH]; intros n prev E C W L.
  - exists prev. rewrite N.add_0_r. by split_and!.
  - destruct C as [|n0 prev0 t k th p rest Hp C]; cbn in L; [lia|].
    destruct (IH _ _ _ C) as (prev' & C' & W' & _); [apply signed_hash_hex|lia|].
    exists prev'. cbn [drop]. rewrite Nat2N.inj_succ, <- N.add_1_l, N.add_assoc. by split_and!.
Qed.

Lemma chain_take s n prev E m : chain s n prev E → chain s n prev (take m E).
Proof.
  intros C. revert m. induction C as [|n prev t k th p rest Hp C IH]; intros [|m]; cbn; try constructor; auto.
Qed.

Lemma genesis_hex : well_hex GENESIS_PREV_HASH.
Proof. eexists. by vm_compute. Qed.

(** Every stretch of the log verifies, alone or after the export that precedes it. *)
Lemma stretch_verifies s E i m :
  chain s 1 GENESIS_PREV_HASH E → N.of_nat (length E) < U64 - 1 →
  let rs := take m (drop i E) in verify_chain sha256 rs (pubkey_bytes s) = Ok (summary_of rs).
Proof.
  intros C B rs. destruct (decide (i <= length E)%nat) as [L|L].
  - destruct (chain_drop s 1 _ E i C genesis_hex L) as (prev & C' & W & Z).
    apply (chain_verifies s None (1 + N.of_nat i) prev).
    + by apply chain_take.
    + done.
    + subst rs. rewrite length_take, length_drop. lia.
    + intros E1. rewrite Z by lia. by vm_compute.
  - subst rs. rewrite drop_ge, take_nil by lia. unfold verify_chain, verify_chain_anchored, pubkey_bytes.
    by rewrite verifying_key_ok.
Qed.

Lemma log_seq_inj s E a b :
  chain s 1 GENESIS_PREV_HASH E → a ∈ E → b ∈ E → seq a = seq b → a = b.
Proof.
  intros C Ha Hb Es. apply list_elem_of_lookup in Ha as [i Hi], Hb as [j Hj].
  destruct (chain_lookup _ _ _ _ _ _ C Hi) as (Ei & _), (chain_lookup _ _ _ _ _ _ C Hj) as (Ej & _).
  assert (i = j) as -> by lia. congruence.
Qed.

Lemma verified_consecutive s E anchor sm r rs :
  chain s 1 GENESIS_PREV_HASH E → N.of_nat (length E) < U64 - 1 → r ∈ E → Forall (.∈ E) rs →
  is_ok (check_all sha256 (pubkey_bytes s) anchor sm (Some (seq r, hash r)) rs) = true →
  rs = take (length rs) (drop (N.to_nat (seq r)) E).
Proof.
  intros C B. revert sm r. induction rs as [|r' rs IH]; intros sm r Hr F V; [done|].
  cbn in V. destruct (check_receipt sha256 (pubkey_bytes s) anchor sm (Some (seq r, hash r)) r') as [sm'|] eqn:Hc; [|done].
  apply list.Forall_cons in F as [Hr' F]. specialize (IH sm' r' Hr' F V).
  apply list_elem_of_lookup in Hr as [i Hi]. pose proof Hr' as Hj. apply list_elem_of_lookup in Hj as [j Hj].
  destruct (chain_lookup _ _ _ _ _ _ C Hi) as (Ei & _), (chain_lookup _ _ _ _ _ _ C Hj) as (Ej & _).
  apply lookup_lt_Some in Hi as Li. apply lookup_lt_Some in Hj as Lj.
  apply check_receipt_Ok in Hc as (_ & _ & _ & _ & _ & _ & Hn). destruct (Hn _ _ eq_refl) as [Es _].
  unfold wrap64 in Es. rewrite N.mod_small in Es by lia.
  assert (N.to_nat (seq r) = j) as -> by lia. rewrite (drop_S _ _ _ Hj). cbn. f_equal.
  by assert (N.to_nat (seq r') = Datatypes.S j) as <- by lia.
Qed.

(** A list of receipts of the log verifies exactly when it is a stretch of it. *)
Lemma verifies_iff_stretch s E rs :
  chain s 1 GENESIS_PREV_HASH E → N.of_nat (length E) < U64 - 1 → Forall (.∈ E) rs →
  is_ok (verify_chain sha256 rs (pubkey_bytes s)) = true ↔ ∃ n, rs = take (length rs) (drop n E).
Proof.
  intros C B F. split.
  - destruct rs as [|r rs]; [by exists 0%nat|]. unfold verify_chain, verify_chain_anchored. intros V.
    destruct (key_ok _); [|done]. cbn in V.
    destruct (check_receipt sha256 (pubkey_bytes s) None default_summary None r) as [sm'|] eqn:Hc; [|done].
    apply list.Forall_cons in F as [Hr F].
    pose proof (verified_consecutive s E None sm' r rs C B Hr F V) as R.
    apply list_elem_of_lookup in Hr as [i Hi]. destruct (chain_lookup _ _ _ _ _ _ C Hi) as (Ei & _).
    exists i. rewrite (drop_S _ _ _ Hi). cbn. f_equal. by assert (N.to_nat (seq r) = Datatypes.S i) as <- by lia.
  - intros [n ->]. by rewrite stretch_verifies.
Qed.

End facts.

(** ** An export reads back *)

Section export_facts.

(** A JSON text of a struct is one line. *)
Definition one_line (s : bytes) : Prop := x0a ∉ s ∧ x0d ∉ s ∧ trim s ≠ [].

Class JsonlLaws `{Jsonl} : Prop := {
  header_reads h : header_from_str (header_to_string h) = Ok h;
  receipt_reads r : receipt_from_str (receipt_to_string r) = Ok r;
  header_line h : one_line (header_to_string h);
  receipt_line r : one_line (receipt_to_string r);
}.

Context `{JsonlLaws}.

Lemma split_on_line c s rest : c ∉ s → split_on c (s ++ c :: rest) = s :: split_on c rest.
Proof.
  induction s as [|b s IH]; intros Hc; cbn [app split_on].
  - destruct (split_on_nonempty c rest) as (w & ws & ->). by rewrite bool_decide_eq_true_2.
  - rewrite IH by set_solver. rewrite bool_decide_eq_false_2 by set_solver. done.
Qed.

Lemma strip_cr_line s : x0d ∉ s → strip_cr s = s.
Proof.
  intros Hs. unfold strip_cr. destruct (rev s) as [|b t] eqn:E; [done|].
  assert (b ∈ s) as Hb by (rewrite list_elem_of_In, in_rev, E; by left).
  destruct (decide (b = x0d)) as [->|Hn]; [done|]. by destruct b.
Qed.

Lemma lines_terminated l :
  Forall one_line l → lines (concat (map (λ s, s ++ [x0a]) l)) = l.
Proof.
  unfold lines. induction 1 as [|s l (Hn & Hr & _) _ IH]; [done|].
  cbn [map concat]. rewrite <- app_assoc. cbn [app]. rewrite split_on_line by done.
  destruct (split_on_nonempty x0a (concat (map (λ s, s ++ [x0a]) l))) as (w & ws & Ew).
  rewrite Ew in *. cbn [lines_of]. rewrite strip_cr_line by done. f_equal. exact IH.
Qed.

Lemma number_snd n l : map snd (number_from n l) = l.
Proof. revert n. induction l as [|x l IH]; intros n; cbn; [done|]. by rewrite IH. Qed.

Lemma filter_lines l n :
  Forall one_line l → filter (λ l : N * bytes, bool_decide (trim l.2 = []) = false) (number_from n l) = number_from n l.
Proof.
  intros F. revert n. induction F as [|s l (_ & _ & Ht) _ IH]; intros n; [done|]. cbn [number_from].
  rewrite filter_cons_True by (cbn [snd]; by apply bool_decide_eq_false_2). by rewrite IH.
Qed.

Lemma parse_written n rs : parse_receipts (number_from n (map receipt_to_string rs)) = Ok rs.
Proof.
  revert n. induction rs as [|r rs IH]; intros n; cbn; [done|]. by rewrite receipt_reads, IH.
Qed.

(** an export reads back: parsing the file that is written for a header and a list of receipts
    gives that header and those receipts, whatever characters their fields hold. *)
Theorem export_roundtrip h rs : parse_jsonl (to_jsonl h rs) = Ok {| header := h; receipts := rs |}.
Proof.
  unfold parse_jsonl. assert (to_jsonl h rs = concat (map (λ s, s ++ [x0a]) (header_to_string h :: map receipt_to_string rs))) as ->.
  { unfold to_jsonl. cbn [map concat]. rewrite map_map, <- app_assoc. done. }
  assert (Forall one_line (header_to_string h :: map receipt_to_string rs)) as F.
  { constructor; [apply header_line|]. apply list.Forall_forall. intros s Hs.
    apply list_elem_of_In, in_map_iff in Hs as (r & <- & _). apply receipt_line. }
  rewrite lines_terminated, filter_lines by done. cbn [number_from]. by rewrite header_reads, parse_written.
Qed.

End export_facts.

(** ** A concrete chain *)

Section demo.

#[local] Existing Instance Toy.ed25519.
#[local] Existing Instance Toy.laws.
#[local] Existing Instance ToyJson.text.
#[local] Existing Instance ToyJson.text_laws.

Definition demo_sha (x : bytes) : bytes := be_bytes 32 (foldl (λ a b, a * 257 + N_of_byte b) 7 x).
Definition demo_signer : ReceiptSigner := {| key := x2a; signer_id := lit "edge-1" |}.
Definition demo_open : Receipt :=
  sign demo_sha demo_signer 1 GENESIS_PREV_HASH 1000 KIND_SESSION_OPEN (lit "t1") (Object [(lit "connected_at", Number 1000)]).
Definition demo_close : Receipt :=
  sign demo_sha demo_signer 2 (hash demo_open) 5000 KIND_SESSION_CLOSE (lit "t1")
    (Object [(lit "bytes_in", Number 150); (lit "bytes_out", Number 60)]).
Definition demo_log : list Receipt := [demo_open; demo_close].

Lemma demo_payloads : ok (payload demo_open) ∧ ok (payload demo_close).
Proof.
  split; apply ok_object; cbn; repeat first [done|constructor]; by vm_compute.
Qed.

Lemma demo_chain : chain demo_sha demo_signer 1 GENESIS_PREV_HASH demo_log.
Proof.
  constructor; [apply demo_payloads|]. constructor; [apply demo_payloads|]. constructor.
Qed.

Lemma verified_was_attested_witness :
  ∃ sm, verify_chain_anchored demo_sha [demo_close] (pubkey_bytes demo_signer) (Some (hash demo_open)) = Ok sm ∧
  ((∃ n, Forall2 same_content [demo_close] (take 1 (drop n demo_log)))
   ∨ forged demo_sha (pubkey_bytes demo_signer) demo_log [demo_close] ∨ collides demo_sha demo_log [demo_close]).
Proof.
  destruct (verify_chain_anchored demo_sha [demo_close] (pubkey_bytes demo_signer) (Some (hash demo_open))) as [sm|e] eqn:E.
  - exists sm. split; [reflexivity|].
    refine (verified_was_attested demo_sha demo_signer demo_log [demo_close] _ sm demo_chain _ _ E).
    + by vm_compute.
    + constructor; [apply demo_payloads|constructor].
  - exfalso. assert (is_ok (verify_chain_anchored demo_sha [demo_close] (pubkey_bytes demo_signer) (Some (hash demo_open))) = true) as V
      by by vm_compute. rewrite E in V. discriminate V.
Defined.

(** A receipt that was changed after it was signed, and one that was left out. *)
Example tampering_is_named :
  let altered := {| seq := 2; prev_hash := hash demo_open; ts := 5000; edge_id := lit "edge-1";
                    kind := KIND_SESSION_CLOSE; token_hash := lit "t1";
                    payload := Object [(lit "bytes_in", Number 15); (lit "bytes_out", Number 60)];
                    hash := hash demo_close; sig := sig demo_close |} in
  let third := sign demo_sha demo_signer 3 (hash demo_close) 6000 KIND_BYTES (lit "t1") (Object []) in
  let verify rs := error_seq <$> match verify_chain demo_sha rs (pubkey_bytes demo_signer) with Ok _ => None | Err e => Some e end in
  verify [demo_open; altered] = Some (Some 2) ∧ verify [demo_open; third] = Some (Some 3) ∧
  verify [demo_open; demo_close; third] = None.
Proof. by vm_compute. Qed.

End demo.

End Receipt.
