(* ===== verification/History.v ===== *)
(** * The session history of an edge and its signed receipts

    [edge/src/tunnel_history.rs]: the table of sessions, the table of receipts with its head, and
    every operation of the store, each under the connection's lock and so one step. Reading and
    writing rows is assumed to work; the transaction that appends a receipt may fail, and the
    argument [commits] of the operations says which do. *)

From S2P Require Import Prelude RustStd Maps Interfaces Codec Sqlite Receipts.
Import Json Receipt.

Module History.

(** src/crates/edge/src/tunnel_history.rs:58-58 [TRANSPORT_QUIC] *)
Definition TRANSPORT_QUIC : bytes := lit "quic".
(** src/crates/edge/src/tunnel_history.rs:60-60 [TRANSPORT_TCP_FALLBACK] *)
Definition TRANSPORT_TCP_FALLBACK : bytes := lit "tcp-fallback".
(** src/crates/edge/src/tunnel_history.rs:76-76 [WINDOW_24H] *)
Definition WINDOW_24H : Z := 24 * 60 * 60.
(** src/crates/edge/src/tunnel_history.rs:77-77 [WINDOW_7D] *)
Definition WINDOW_7D : Z := 7 * WINDOW_24H.
(** src/crates/edge/src/tunnel_history.rs:78-78 [WINDOW_30D] *)
Definition WINDOW_30D : Z := 30 * WINDOW_24H.
(** src/crates/edge/src/tunnel_history.rs:103-103 [RECEIPTS_MAX_LIMIT] *)
Definition RECEIPTS_MAX_LIMIT : N := 1000.

(** src/crates/edge/src/tunnel_history.rs:143-152 [from_connection]: a row of [tunnel_sessions]. *)
Record Row := {
  row_token : bytes; transport : bytes; connected_at : Z; disconnected_at : option Z;
  reason : option bytes; row_in : Z; row_out : Z; last_flush : Z;
}.

(** src/crates/edge/src/tunnel_history.rs:158-167 [from_connection]: a row of [tunnel_receipts],
    but for its key. *)
Record ReceiptRow := {
  r_prev_hash : bytes; r_ts : Z; r_edge_id : bytes; r_kind : bytes; r_token_hash : bytes;
  r_payload : bytes; r_hash : bytes; r_sig : bytes;
}.

(** src/crates/edge/src/tunnel_history.rs:117-126 [ReceiptEmitter] *)
Record Emitter `{Ed25519} := { signer : ReceiptSigner; head : N * bytes; snapshots : gmap Z (N * N) }.

(** src/crates/edge/src/tunnel_history.rs:106-113 [SqliteTunnelHistory]: the tables and the emitter.
    [log] is not in the code: the receipts committed so far, in order. *)
Record Store `{Ed25519} := {
  sessions : gmap Z Row; table : gmap Z ReceiptRow; head_row : option (Z * bytes);
  emitter : option Emitter; log : list Receipt;
}.

Inductive SqlError := SqlFailure | BadPayload.

(** src/crates/edge/src/tunnel_history.rs:643-645 [clamp_i64] *)
Definition clamp_i64 (v : N) : Z := if v <? 2 ^ 63 then Z.of_N v else I64_MAX.

Definition in_i64 (z : Z) : Prop := (- 2 ^ 63 <= z < 2 ^ 63)%Z.

(** An [i64] column read as [u64]. *)
Definition unsigned (z : Z) : N := Z.to_N (Z.max z 0).

(** Rows in the order of their ids. *)
Definition by_id {A} (t : gmap Z A) : list (Z * A) :=
  sort_by (λ a b : Z * A, (a.1 <=? b.1)%Z) (map_to_list t).

Definition is_open (r : Row) : bool := bool_decide (disconnected_at r = None).

(** SQLite gives a new row the largest id plus one. *)
Definition next_id {A} (t : gmap Z A) : Z := (1 + foldr Z.max 0 (map fst (map_to_list t)))%Z.

(** A value that JSON text carries exactly: no fraction, and no number outside the integer types. *)
Definition exact (v : Value) : Prop :=
  match v with
  | Null | Bool _ | Str _ => True
  | Number n => (- 2 ^ 63 <= n < 2 ^ 64)%Z
  | _ => False
  end.

(** An object of such values, its keys in order: what the payloads of the edge are. *)
Definition flat (v : Value) : Prop :=
  ∃ m, v = Object m ∧ StronglySorted key_lt m.*1 ∧ Forall (λ kv : bytes * Value, exact kv.2) m.

(** The text of a payload, read back. *)
Class JsonRead := { value_from_str : bytes → option Value }.
Class JsonReadLaws `{JsonText} `{JsonRead} : Prop :=
  value_reads v : flat v → value_from_str (canonical_json v) = Some v.

Section store.
Context `{JsonText} `{JsonRead} `{Ed25519} (sha256 : bytes → bytes).

(** src/crates/edge/src/tunnel_history.rs:140-182 [from_connection] *)
Definition from_connection : Store :=
  {| sessions := ∅; table := ∅; head_row := None; emitter := None; log := [] |}.

Definition set_emitter (e : option Emitter) (s : Store) : Store :=
  {| sessions := sessions s; table := table s; head_row := head_row s; emitter := e; log := log s |}.
Definition set_sessions (m : gmap Z Row) (s : Store) : Store :=
  {| sessions := m; table := table s; head_row := head_row s; emitter := emitter s; log := log s |}.

(** src/crates/edge/src/tunnel_history.rs:195-213 [install_receipts]: also what a restart does, with
    the tables it finds. *)
Definition install_receipts (sg : ReceiptSigner) (s : Store) : Store :=
  let h := match head_row s with
           | Some (n, x) => (unsigned n, x)
           | None => (0, GENESIS_PREV_HASH)
           end in
  set_emitter (Some {| signer := sg; head := h; snapshots := ∅ |}) s.

(** src/crates/edge/src/tunnel_history.rs:216-218 [receipts_enabled] *)
Definition receipts_enabled (s : Store) : bool := bool_decide (is_Some (head <$> emitter s)).

(** src/crates/edge/src/tunnel_history.rs:221-223 [receipts_pubkey_hex] *)
Definition receipts_pubkey_hex (s : Store) : option bytes := (λ e, pubkey_hex (signer e)) <$> emitter s.

(** src/crates/edge/src/tunnel_history.rs:226-228 [receipts_edge_id] *)
Definition receipts_edge_id (s : Store) : option bytes := (λ e, signer_id (signer e)) <$> emitter s.

(** src/crates/edge/src/tunnel_history.rs:232-235 [receipts_head] *)
Definition receipts_head (s : Store) : option (N * bytes) := head <$> emitter s.

(** src/crates/edge/src/tunnel_history.rs:608-613 [routing_token_hash_of_hex] *)
Definition routing_token_hash_of_hex (token_hex : bytes) : bytes :=
  match Hex.decode token_hex with
  | Some b => routing_token_hash sha256 b
  | None => routing_token_hash sha256 token_hex
  end.

Definition row_of (r : Receipt) : ReceiptRow :=
  {| r_prev_hash := prev_hash r; r_ts := ts r; r_edge_id := edge_id r; r_kind := kind r;
     r_token_hash := token_hash r; r_payload := canonical_json (payload r); r_hash := hash r; r_sig := sig r |}.

(** src/crates/edge/src/tunnel_history.rs:242-281 [emit] *)
Definition emit (commits : bool) (now : Z) (kind token_hex : bytes) (payload : Value) (s : Store)
    : Result unit SqlError * Store :=
  match emitter s with
  | None => (Ok (), s)
  | Some em =>
    let r := sign sha256 (signer em) ((head em).1 + 1) (head em).2 now kind
               (routing_token_hash_of_hex token_hex) payload in
    match sql_insert (clamp_i64 (seq r)) (row_of r) (table s) with
    | None => (Err SqlFailure, s)
    | Some t =>
      if commits then
        (Ok (), {| sessions := sessions s; table := t; head_row := Some (clamp_i64 (seq r), hash r);
                   emitter := Some {| signer := signer em; head := (seq r, hash r); snapshots := snapshots em |};
                   log := log s ++ [r] |})
      else (Err SqlFailure, s)
    end
  end.

Definition read_receipt (k : Z) (r : ReceiptRow) : option Receipt :=
  v ← value_from_str (r_payload r);
  Some {| seq := unsigned k; prev_hash := r_prev_hash r; ts := r_ts r; edge_id := r_edge_id r;
          kind := r_kind r; token_hash := r_token_hash r; payload := v; hash := r_hash r; sig := r_sig r |}.

(** src/crates/edge/src/tunnel_history.rs:287-316 [receipts_for] *)
Definition receipts_for (th : bytes) (since limit : N) (s : Store) : Result (list Receipt) SqlError :=
  match emitter s with
  | None => Ok []
  | Some _ =>
    let rows := filter (λ kr : Z * ReceiptRow, r_token_hash kr.2 = th ∧ (clamp_i64 since < kr.1)%Z) (by_id (table s)) in
    ok_or (mapM (λ kr, read_receipt kr.1 kr.2) (take (N.to_nat (N.max 1 (N.min limit RECEIPTS_MAX_LIMIT))) rows))
      BadPayload
  end.

Definition set_snapshots (m : gmap Z (N * N)) (s : Store) : Store :=
  match emitter s with
  | None => s
  | Some em => set_emitter (Some {| signer := signer em; head := head em; snapshots := m |}) s
  end.

Definition snaps (s : Store) : gmap Z (N * N) := match emitter s with Some em => snapshots em | None => ∅ end.

(** src/crates/edge/src/tunnel_history.rs:372-376 [forget_snapshot] *)
Definition forget_snapshot (id : Z) (s : Store) : Store := set_snapshots (delete id (snaps s)) s.

(** The open rows, of one tunnel or of all, by id. *)
Definition still_open (token : option bytes) (s : Store) : list (Z * Row) :=
  filter (λ ir : Z * Row, is_open ir.2 = true ∧ (token = None ∨ token = Some (row_token ir.2)))
    (by_id (sessions s)).

(** SQLite turns an integer sum that overflows into a REAL, and a column with one is not read as an
    [i64] again: the query fails. *)
Definition readable (r : Row) : bool := (row_in r <=? I64_MAX)%Z && (row_out r <=? I64_MAX)%Z.

(** src/crates/edge/src/tunnel_history.rs:587-602 [open_rows] *)
Definition open_rows (token : option bytes) (s : Store) : Result (list (Z * Row)) SqlError :=
  let rows := still_open token s in
  if forallb (λ ir : Z * Row, readable ir.2) rows then Ok rows else Err SqlFailure.

(** A JSON object with unsigned numbers and texts. *)
Definition num (n : N) : Value := Number (Z.of_N n).
Definition bytes_payload (r : Row) : Value :=
  Object [(lit "bytes_in", num (unsigned (row_in r))); (lit "bytes_out", num (unsigned (row_out r)));
          (lit "connected_at", Number (connected_at r))].
Definition open_payload (now : Z) (transport : bytes) : Value :=
  Object [(lit "connected_at", Number now); (lit "transport", Str transport)].
Definition close_payload (r : Row) (now : Z) (reason : bytes) : Value :=
  Object [(lit "bytes_in", num (unsigned (row_in r))); (lit "bytes_out", num (unsigned (row_out r)));
          (lit "connected_at", Number (connected_at r)); (lit "disconnected_at", Number now);
          (lit "reason", Str reason)].

(** src/crates/edge/src/tunnel_history.rs:344-359 [emit_bytes_snapshots]: the loop over open rows. *)
Fixpoint snapshot_rows (commits : Z → bool) (now : Z) (rows : list (Z * Row)) (emitted : N) (s : Store)
    : Result N SqlError * Store :=
  match rows with
  | [] => (Ok emitted, s)
  | (id, r) :: rest =>
    let now_at := (unsigned (row_in r), unsigned (row_out r)) in
    if bool_decide (default (0, 0) (snaps s !! id) = now_at) then snapshot_rows commits now rest emitted s
    else match emit (commits id) now KIND_BYTES (row_token r) (bytes_payload r) s with
         | (Err e, s) => (Err e, s)
         | (Ok _, s) => snapshot_rows commits now rest (emitted + 1) (set_snapshots (<[id := now_at]> (snaps s)) s)
         end
  end.

(** src/crates/edge/src/tunnel_history.rs:323-361 [emit_bytes_snapshots] *)
Definition emit_bytes_snapshots (commits : Z → bool) (now : Z) (s : Store) : Result N SqlError * Store :=
  match emitter s with
  | None => (Ok 0, s)
  | Some _ =>
    match open_rows None s with
    | Err e => (Err e, s)
    | Ok rows => snapshot_rows commits now rows 0 s
    end
  end.

(** src/crates/edge/src/tunnel_history.rs:367-369 [prune_receipts_older_than] *)
Definition prune_receipts_older_than (cutoff : Z) (s : Store) : N * Store :=
  let old := λ (_ : Z) (r : ReceiptRow), (r_ts r <? cutoff)%Z in
  (N.of_nat (sql_count old (table s)),
   {| sessions := sessions s; table := sql_delete old (table s); head_row := head_row s;
      emitter := emitter s; log := log s |}).

(** src/crates/edge/src/tunnel_history.rs:382-420 [open_session] *)
Definition open_session (commits : Z → bool) (token_hex : bytes) (tr : bytes) (now : Z) (s : Store)
    : Result Z SqlError * Store :=
  match last (still_open (Some token_hex) s) with
  | Some (id, r) =>
    (Ok id, if bool_decide (transport r = tr) then s
            else set_sessions (<[id := {| row_token := row_token r; transport := tr;
                   connected_at := connected_at r; disconnected_at := disconnected_at r; reason := reason r;
                   row_in := row_in r; row_out := row_out r; last_flush := last_flush r |}]> (sessions s)) s)
  | None =>
    let id := next_id (sessions s) in
    let s := set_sessions (<[id := {| row_token := token_hex; transport := tr; connected_at := now;
               disconnected_at := None; reason := None; row_in := 0; row_out := 0; last_flush := now |}]>
               (sessions s)) s in
    match emit (commits id) now KIND_SESSION_OPEN token_hex (open_payload now tr) s with
    | (Err e, s) => (Err e, s)
    | (Ok _, s) => (Ok id, s)
    end
  end.

Definition closed (now : Z) (why : bytes) (r : Row) : Row :=
  {| row_token := row_token r; transport := transport r; connected_at := connected_at r;
     disconnected_at := Some now; reason := Some why; row_in := row_in r; row_out := row_out r;
     last_flush := now |}.

(** src/crates/edge/src/tunnel_history.rs:447-463 [emit_close] *)
Definition emit_close (commits : Z → bool) (row : Z * Row) (now : Z) (why : bytes) (s : Store)
    : Result unit SqlError * Store :=
  match emit (commits row.1) now KIND_SESSION_CLOSE (row_token row.2) (close_payload row.2 now why) s with
  | (Err e, s) => (Err e, s)
  | (Ok _, s) => (Ok (), forget_snapshot row.1 s)
  end.

Fixpoint emit_closes (commits : Z → bool) (rows : list (Z * Row)) (now : Z) (why : bytes) (s : Store)
    : Result unit SqlError * Store :=
  match rows with
  | [] => (Ok (), s)
  | row :: rest =>
    match emit_close commits row now why s with
    | (Err e, s) => (Err e, s)
    | (Ok _, s) => emit_closes commits rest now why s
    end
  end.

(** The [UPDATE] that closes the open rows that are selected. *)
Definition close_rows (sel : Row → bool) (now : Z) (why : bytes) (s : Store) : Store :=
  set_sessions ((λ r, if sel r && is_open r then closed now why r else r) <$> sessions s) s.

Definition has_token (t : bytes) (r : Row) : bool := bool_decide (row_token r = t).

(** src/crates/edge/src/tunnel_history.rs:429-444 [close_session] *)
Definition close_session (commits : Z → bool) (token_hex : bytes) (now : Z) (why : bytes) (s : Store)
    : Result bool SqlError * Store :=
  match open_rows (Some token_hex) s with
  | Err e => (Err e, s)
  | Ok [] => (Ok false, s)
  | Ok open =>
    match emit_closes commits open now why (close_rows (has_token token_hex) now why s) with
    | (Err e, s) => (Err e, s)
    | (Ok _, s) => (Ok true, s)
    end
  end.

(** src/crates/edge/src/tunnel_history.rs:467-481 [add_session_bytes]: the sums are
    those of the column while they fit; above, they stand for the REAL that [readable] refuses. *)
Definition add_session_bytes (token_hex : bytes) (delta_in delta_out : N) (now : Z) (s : Store) : bool * Store :=
  let n := size (filter (λ ir : Z * Row, has_token token_hex ir.2 && is_open ir.2 = true) (sessions s)) in
  (bool_decide (n ≠ 0%nat),
   set_sessions ((λ r, if has_token token_hex r && is_open r
     then {| row_token := row_token r; transport := transport r; connected_at := connected_at r;
             disconnected_at := disconnected_at r; reason := reason r;
             row_in := row_in r + clamp_i64 delta_in; row_out := row_out r + clamp_i64 delta_out;
             last_flush := now |}
     else r) <$> sessions s) s).

(** src/crates/edge/src/tunnel_history.rs:489-489 [sessions_for]: newest first. *)
Definition newer (a b : Z * Row) : bool :=
  (connected_at b.2 <? connected_at a.2)%Z || ((connected_at b.2 =? connected_at a.2)%Z && (b.1 <=? a.1)%Z).
(** src/crates/edge/src/tunnel_history.rs:485-503 [sessions_for] *)
Definition sessions_for (token_hex : bytes) (limit : N) (s : Store) : Result (list Row) SqlError :=
  let rows := take (Z.to_nat (clamp_i64 limit)) (map snd (sort_by newer
    (filter (λ ir : Z * Row, row_token ir.2 = token_hex) (by_id (sessions s))))) in
  if forallb readable rows then Ok rows else Err SqlFailure.

(** src/crates/edge/src/tunnel_history.rs:620-635 [uptime_percent]: the seconds of the window that the
    spans cover; the percentage is their quotient, in floating point. *)
Definition covered (spans : list (Z * option Z)) (now window : Z) : Z :=
  foldl (λ acc '(start, stop),
    let overlap := (Z.min (default now stop) now - Z.max start (now - window))%Z in
    if (0 <? overlap)%Z then saturating_add_i64 acc overlap else acc) 0%Z spans.

(** src/crates/edge/src/tunnel_history.rs:508-522 [uptime_summary]: the rows it counts. *)
Definition uptime_spans (token_hex : bytes) (now : Z) (s : Store) : list (Z * option Z) :=
  map (λ ir : Z * Row, (connected_at ir.2, disconnected_at ir.2))
    (filter (λ ir : Z * Row, row_token ir.2 = token_hex ∧
       (now - WINDOW_30D <= default now (disconnected_at ir.2) ∨ disconnected_at ir.2 = None)%Z)
      (by_id (sessions s))).

(** src/crates/edge/src/tunnel_history.rs:527-532 [prune_closed_older_than] *)
Definition prune_closed_older_than (cutoff : Z) (s : Store) : N * Store :=
  let old := λ (_ : Z) (r : Row), match disconnected_at r with Some d => (d <? cutoff)%Z | None => false end in
  (N.of_nat (sql_count old (sessions s)), set_sessions (sql_delete old (sessions s)) s).

(** src/crates/edge/src/tunnel_history.rs:535-546 [open_session_exists] *)
Definition open_session_exists (token_hex : bytes) (s : Store) : bool :=
  negb (bool_decide (still_open (Some token_hex) s = [])).

(** src/crates/edge/src/tunnel_history.rs:555-567 [close_stale_open_sessions] *)
Definition close_stale_open_sessions (commits : Z → bool) (now : Z) (why : bytes) (s : Store)
    : Result N SqlError * Store :=
  match open_rows None s with
  | Err e => (Err e, s)
  | Ok open =>
    match emit_closes commits open now why (close_rows (λ _, true) now why s) with
    | (Err e, s) => (Err e, s)
    | (Ok _, s) => (Ok (N.of_nat (length open)), s)
    end
  end.

End store.

(** ** Runs of the store *)

Inductive Op :=
| OOpen (commits : Z → bool) (token transport : bytes) (now : Z)
| OClose (commits : Z → bool) (token : bytes) (now : Z) (why : bytes)
| OBytes (token : bytes) (delta_in delta_out : N) (now : Z)
| OSnapshots (commits : Z → bool) (now : Z)
| OPruneReceipts (cutoff : Z) | OPrune (cutoff : Z)
| OStale (commits : Z → bool) (now : Z) (why : bytes)
| ORestart.

Section runs.
Context `{JsonTextLaws} `{Ed25519Laws} `{JsonRead} (sha256 : bytes → bytes).
Context (sha256_length : ∀ x, length (sha256 x) = 32%nat).
Context `{!JsonReadLaws}.
Context (sg : ReceiptSigner).

Definition run (op : Op) (s : Store) : Store :=
  match op with
  | OOpen c t tr now => (open_session sha256 c t tr now s).2
  | OClose c t now why => (close_session sha256 c t now why s).2
  | OBytes t i o now => (add_session_bytes t i o now s).2
  | OSnapshots c now => (emit_bytes_snapshots sha256 c now s).2
  | OPruneReceipts cutoff => (prune_receipts_older_than cutoff s).2
  | OPrune cutoff => (prune_closed_older_than cutoff s).2
  | OStale c now why => (close_stale_open_sessions sha256 c now why s).2
  | ORestart => install_receipts sg s
  end.

Definition boot : Store := install_receipts sg from_connection.
Definition runs (ops : list Op) : Store := foldl (flip run) boot ops.

(** The clock readings of an operation are [i64]s, as their type has it. *)
Definition timely (op : Op) : Prop :=
  match op with
  | OOpen _ _ _ now | OClose _ _ now _ | OBytes _ _ _ now | OSnapshots _ now | OStale _ now _ => in_i64 now
  | _ => True
  end.

(** The log fits the column of its numbers. *)
Definition bounded (s : Store) : Prop := N.of_nat (length (log s)) < 2 ^ 63.

Definition last_hash (E : list Receipt) : bytes := default GENESIS_PREV_HASH (hash <$> last E).

(** *** The chain in the store *)

Lemma flat_ok v : flat v → ok v.
Proof.
  intros (m & -> & S & F). apply ok_object; [done|]. eapply list.Forall_impl; [exact F|].
  intros [k x] Hx. apply ok_scalar. by destruct x.
Qed.

Ltac payload_flat :=
  eexists; split; [reflexivity|]; cbn; split; [repeat first [done|constructor]; by vm_compute|];
  repeat constructor; cbn; unfold unsigned, readable, in_i64, I64_MAX in *; bool_facts; lia.

Lemma bytes_payload_flat r : in_i64 (connected_at r) → readable r = true → flat (bytes_payload r).
Proof. intros C [R1 R2]%andb_true_iff. unfold bytes_payload, num. payload_flat. Qed.
Lemma open_payload_flat now tr : in_i64 now → flat (open_payload now tr).
Proof. intros C. unfold open_payload. payload_flat. Qed.
Lemma close_payload_flat r now why :
  in_i64 now → in_i64 (connected_at r) → readable r = true → flat (close_payload r now why).
Proof. intros N C [R1 R2]%andb_true_iff. unfold close_payload, num. payload_flat. Qed.


Record kept (s : Store) : Prop := {
  ke_emitter : ∃ m, emitter s = Some {| signer := sg; head := (N.of_nat (length (log s)), last_hash (log s)); snapshots := m |};
  ke_head : head_row s = match log s with [] => None | _ => Some (Z.of_nat (length (log s)), last_hash (log s)) end;
  ke_chain : chain sha256 sg 1 GENESIS_PREV_HASH (log s);
  ke_table : ∀ k r, table s !! k = Some r → ∃ i e, log s !! i = Some e ∧ k = Z.of_nat (Datatypes.S i) ∧ r = row_of e;
  ke_flat : Forall (λ e, flat (payload e)) (log s);
  ke_rows : map_Forall (λ _ r, in_i64 (connected_at r)) (sessions s);
}.

Lemma clamp_small n : n < 2 ^ 63 → clamp_i64 n = Z.of_N n.
Proof. intros L. unfold clamp_i64. by rewrite (proj2 (N.ltb_lt _ _) L). Qed.

Lemma chain_snoc n prev E t k th p :
  chain sha256 sg n prev E → ok p →
  chain sha256 sg n prev (E ++ [sign sha256 sg (n + N.of_nat (length E)) (default prev (hash <$> last E)) t k th p]).
Proof.
  induction 1 as [n prev|n prev t' k' th' p' rest Hp' C IH]; intros Hp; cbn [app length].
  - rewrite N.add_0_r. cbn. constructor; [done|constructor].
  - constructor; [done|]. specialize (IH Hp).
    rewrite Nat2N.inj_succ, <- N.add_1_l, N.add_assoc. rewrite last_cons.
    destruct (last rest) eqn:L; cbn in *; exact IH.
Qed.

(** What a receipt costs: nothing changes, or one receipt is added. *)
Lemma emit_spec commits now kd t p s :
  kept s → bounded s → flat p →
  let '(res, s') := emit sha256 commits now kd t p s in
  s' = s ∧ res = Err SqlFailure ∧ (commits = false ∨ N.of_nat (length (log s)) + 1 = 2 ^ 63) ∨
  (∃ r, log s' = log s ++ [r] ∧ token_hash r = routing_token_hash_of_hex sha256 t ∧ kind r = kd ∧ payload r = p ∧ ts r = now) ∧
  res = Ok () ∧ sessions s' = sessions s ∧ snaps s' = snaps s ∧ (bounded s' → kept s').
Proof.
  intros K B Hf. pose proof (flat_ok _ Hf) as Hp. destruct K as [[m Em] Hh Hc Ht Hfl Hro]. unfold emit. rewrite Em. cbn [head signer snapshots fst snd].
  set (r := sign sha256 sg (N.of_nat (length (log s)) + 1) (last_hash (log s)) now kd
              (routing_token_hash_of_hex sha256 t) p).
  destruct (sql_insert (clamp_i64 (seq r)) (row_of r) (table s)) as [tb|] eqn:I.
  2: { left. split_and!; try done. right.
       unfold sql_insert in I. destruct (table s !! clamp_i64 (seq r)) as [x|] eqn:L; [|done].
       destruct (Ht _ _ L) as (i & e & Hi & Ek & _). apply lookup_lt_Some in Hi.
       unfold bounded in B. destruct (decide (N.of_nat (length (log s)) + 1 < 2 ^ 63)) as [Lt|]; [|lia].
       unfold r in Ek. cbn [seq sign] in Ek. rewrite clamp_small in Ek by done. lia. }
  destruct commits; [|by left; split_and!; auto]. right. apply sql_insert_Some in I as [Hn ->].
  split; [exists r; by split_and!|]. split_and!; try done.
  { unfold snaps; cbn. by rewrite Em. }
  unfold bounded; cbn [log]. rewrite length_app; cbn [length]. intros B'.
  assert (seq r = N.of_nat (length (log s)) + 1) as Es by done.
  assert (clamp_i64 (seq r) = Z.of_nat (Datatypes.S (length (log s)))) as Ec by (rewrite clamp_small; lia).
  constructor; cbn [emitter log head_row table].
  - exists m. rewrite length_app; cbn [length]. unfold last_hash. rewrite last_snoc. cbn. do 3 f_equal. lia.
  - destruct (log s ++ [r]) eqn:El; [by destruct (log s)|]. rewrite <- El, length_app, Ec. unfold last_hash.
    rewrite last_snoc. cbn [length]. by rewrite Nat.add_1_r.
  - unfold r. rewrite N.add_comm. by apply (chain_snoc 1 GENESIS_PREV_HASH).
  - intros k x. rewrite lookup_insert. destruct (decide _) as [<-|Hk].
    + intros [= <-]. exists (length (log s)), r. rewrite list_lookup_middle by done. by split_and!.
    + intros L. destruct (Ht _ _ L) as (i & e & Hi & -> & ->). exists i, e. split_and!; try done.
      by apply lookup_app_l_Some.
  - apply Forall_app. split; [done|]. by constructor.
  - done.
Qed.

(** A change of the store that keeps the chain in order, as long as its result is bounded. *)
Definition keeps (s s' : Store) : Prop :=
  (length (log s) <= length (log s'))%nat ∧ (kept s → bounded s' → kept s').

Lemma keeps_refl s : keeps s s.
Proof. by split. Qed.

Lemma keeps_trans a b c : keeps a b → keeps b c → keeps a c.
Proof.
  intros [L1 K1] [L2 K2]. split; [lia|]. intros K B. apply K2; [|done]. apply K1; [done|].
  unfold bounded in *. lia.
Qed.

Lemma elem_of_by_id {A} (t : gmap Z A) k a : (k, a) ∈ by_id t ↔ t !! k = Some a.
Proof. unfold by_id. rewrite sort_by_Permutation. apply elem_of_map_to_list. Qed.

Lemma elem_of_still_open id r t s :
  (id, r) ∈ still_open t s ↔ sessions s !! id = Some r ∧ is_open r = true ∧ (t = None ∨ t = Some (row_token r)).
Proof. unfold still_open. rewrite list_elem_of_filter, elem_of_by_id. cbn. tauto. Qed.

(** **** What an operation does to the sessions and to the log *)

Lemma emit_sessions c now kd t p s : sessions (emit sha256 c now kd t p s).2 = sessions s.
Proof. unfold emit. by repeat case_match. Qed.

Lemma set_snapshots_sessions m s : sessions (set_snapshots m s) = sessions s.
Proof. unfold set_snapshots. by case_match. Qed.

Lemma emit_closes_sessions c rows now why s : sessions (emit_closes sha256 c rows now why s).2 = sessions s.
Proof.
  revert s. induction rows as [|[id r] rows IH]; intros s; cbn [emit_closes]; [done|]. unfold emit_close. cbn [fst snd].
  pose proof (emit_sessions (c id) now KIND_SESSION_CLOSE (row_token r) (close_payload r now why) s) as E.
  destruct (emit _ _ _ _ _ _ _) as [[] s2]; cbn in *; [|done]. rewrite IH. unfold forget_snapshot.
  by rewrite set_snapshots_sessions.
Qed.

Lemma snapshot_rows_sessions c now rows n s : sessions (snapshot_rows sha256 c now rows n s).2 = sessions s.
Proof.
  revert n s. induction rows as [|[id r] rows IH]; intros n s; cbn [snapshot_rows]; [done|]. case_bool_decide; [apply IH|].
  pose proof (emit_sessions (c id) now KIND_BYTES (row_token r) (bytes_payload r) s) as E.
  destruct (emit _ _ _ _ _ _ _) as [[] s2]; cbn in *; [|done]. by rewrite IH, set_snapshots_sessions.
Qed.

Lemma open_session_cases c t tr now s :
  (∃ id r, sessions s !! id = Some r ∧ is_open r = true ∧ row_token r = t ∧
     (open_session sha256 c t tr now s).2 =
       if bool_decide (transport r = tr) then s
       else set_sessions (<[id := {| row_token := row_token r; transport := tr; connected_at := connected_at r;
              disconnected_at := disconnected_at r; reason := reason r; row_in := row_in r; row_out := row_out r;
              last_flush := last_flush r |}]> (sessions s)) s) ∨
  still_open (Some t) s = [] ∧
  (open_session sha256 c t tr now s).2 =
    (emit sha256 (c (next_id (sessions s))) now KIND_SESSION_OPEN t (open_payload now tr)
       (set_sessions (<[next_id (sessions s) := {| row_token := t; transport := tr; connected_at := now;
          disconnected_at := None; reason := None; row_in := 0; row_out := 0; last_flush := now |}]> (sessions s)) s)).2.
Proof.
  unfold open_session. destruct (last (still_open (Some t) s)) as [[id r]|] eqn:L.
  - left. exists id, r. apply last_Some in L as [l El].
    assert ((id, r) ∈ still_open (Some t) s) as Hin by (rewrite El; set_solver).
    apply elem_of_still_open in Hin as (Hs & Ho & [|[= ->]]); [done|]. by split_and!.
  - right. split; [by apply last_None|]. by destruct (emit _ _ _ _ _ _ _) as [[] ?].
Qed.

Lemma emit_prefix c now kd t p s : log s `prefix_of` log (emit sha256 c now kd t p s).2.
Proof. unfold emit. repeat case_match; try done. cbn. by apply prefix_app_r. Qed.

Lemma set_snapshots_log m s : log (set_snapshots m s) = log s.
Proof. unfold set_snapshots. by case_match. Qed.

Lemma emit_closes_prefix c rows now why s : log s `prefix_of` log (emit_closes sha256 c rows now why s).2.
Proof.
  revert s. induction rows as [|[id r] rows IH]; intros s; cbn [emit_closes]; [done|]. unfold emit_close. cbn [fst snd].
  pose proof (emit_prefix (c id) now KIND_SESSION_CLOSE (row_token r) (close_payload r now why) s) as E.
  destruct (emit _ _ _ _ _ _ _) as [[] s2]; cbn in *; [|done]. etrans; [exact E|]. etrans; [|apply IH].
  unfold forget_snapshot. by rewrite set_snapshots_log.
Qed.

Lemma snapshot_rows_prefix c now rows n s : log s `prefix_of` log (snapshot_rows sha256 c now rows n s).2.
Proof.
  revert n s. induction rows as [|[id r] rows IH]; intros n s; cbn [snapshot_rows]; [done|]. case_bool_decide; [apply IH|].
  pose proof (emit_prefix (c id) now KIND_BYTES (row_token r) (bytes_payload r) s) as E.
  destruct (emit _ _ _ _ _ _ _) as [[] s2]; cbn in *; [|done]. etrans; [exact E|]. etrans; [|apply IH].
  by rewrite set_snapshots_log.
Qed.

Lemma run_prefix op s : log s `prefix_of` log (run op s).
Proof.
  destruct op as [c t tr now|c t now why|t i o now|c now|cutoff|cutoff|c now why|]; cbn [run]; try done.
  - destruct (open_session_cases c t tr now s) as [(id & r & _ & _ & _ & ->)|[_ ->]]; [by case_bool_decide|].
    match goal with |- _ `prefix_of` log (emit _ ?c ?n ?k ?t ?p ?s').2 => exact (emit_prefix c n k t p s') end.
  - unfold close_session. destruct (open_rows (Some t) s) as [[|row rows]|e]; [done| |done].
    pose proof (emit_closes_prefix c (row :: rows) now why (close_rows (has_token t) now why s)) as P.
    by destruct (emit_closes _ _ _ _ _ _) as [[] s2].
  - unfold emit_bytes_snapshots. destruct (emitter s); [|done]. destruct (open_rows None s); [|done].
    apply snapshot_rows_prefix.
  - unfold close_stale_open_sessions. destruct (open_rows None s) as [rows|err]; [|done].
    pose proof (emit_closes_prefix c rows now why (close_rows (λ _, true) now why s)) as P.
    by destruct (emit_closes _ _ _ _ _ _) as [[] s2].
Qed.

(** **** The operations keep the chain in order *)

Lemma emit_keeps commits now kd t p s : flat p → keeps s (emit sha256 commits now kd t p s).2.
Proof.
  intros Hp. split; [apply prefix_length, emit_prefix|]. intros K B. assert (bounded s) as Bs.
  { pose proof (prefix_length _ _ (emit_prefix commits now kd t p s)). unfold bounded in *. lia. }
  pose proof (emit_spec commits now kd t p s K Bs Hp) as E.
  destruct (emit sha256 commits now kd t p s) as [res s']. destruct E as [(-> & _)|(_ & _ & _ & _ & Hk)]; auto.
Qed.

Definition rows_ok (m : gmap Z Row) : Prop := map_Forall (λ _ r, in_i64 (connected_at r)) m.

Lemma sessions_keeps m s : (rows_ok (sessions s) → rows_ok m) → keeps s (set_sessions m s).
Proof. intros Hm. split; [done|]. intros [] _. constructor; try done. by apply Hm. Qed.

Lemma fmap_rows_ok (f : Row → Row) m :
  (∀ r, connected_at (f r) = connected_at r) → rows_ok m → rows_ok (f <$> m).
Proof. intros Hf O i r Hr. apply lookup_fmap_Some in Hr as (x & <- & Hx). rewrite Hf. exact (O i x Hx). Qed.

Lemma close_rows_keeps sel now why s : keeps s (close_rows sel now why s).
Proof. apply sessions_keeps, fmap_rows_ok. intros r. by case_match. Qed.

Lemma snapshots_keeps m s : keeps s (set_snapshots m s).
Proof.
  unfold set_snapshots. destruct (emitter s) as [em|] eqn:E; [|apply keeps_refl]. split; [done|].
  intros [[m' Em] Hh Hc Ht Hf Hr] _. constructor; cbn; try done. exists m. rewrite Em in E. by simplify_eq.
Qed.

(** A row whose payloads can be read back. *)
Definition row_ok (ir : Z * Row) : Prop := in_i64 (connected_at ir.2) ∧ readable ir.2 = true.

Lemma open_rows_ok t s rows :
  kept s → open_rows t s = Ok rows → rows = still_open t s ∧ Forall row_ok rows.
Proof.
  intros K. unfold open_rows. destruct (forallb _ _) eqn:F; [|done]. intros [= <-]. split; [done|].
  apply list.Forall_forall. intros [id r] Hin. split.
  - apply elem_of_still_open in Hin as (Hr & _). exact (ke_rows _ K id r Hr).
  - rewrite forallb_forall in F. by apply (F (id, r)), list_elem_of_In.
Qed.

Lemma emit_closes_keeps c rows now why s :
  in_i64 now → Forall row_ok rows → keeps s (emit_closes sha256 c rows now why s).2.
Proof.
  intros N. revert s. induction rows as [|[id r] rows IH]; intros s F; cbn [emit_closes]; [apply keeps_refl|].
  apply list.Forall_cons in F as [[C R] F]. unfold emit_close. cbn [fst snd] in *.
  pose proof (emit_keeps (c id) now KIND_SESSION_CLOSE (row_token r) (close_payload r now why) s
                (close_payload_flat _ _ _ N C R)) as E.
  destruct (emit sha256 (c id) _ _ _ _ s) as [[] s2]; cbn in *; [|done].
  eapply keeps_trans; [exact E|]. eapply keeps_trans; [|by apply IH]. apply snapshots_keeps.
Qed.

Lemma snapshot_rows_keeps c now rows n s : Forall row_ok rows → keeps s (snapshot_rows sha256 c now rows n s).2.
Proof.
  revert n s. induction rows as [|[id r] rows IH]; intros n s F; cbn [snapshot_rows]; [apply keeps_refl|].
  apply list.Forall_cons in F as [[C R] F]. case_bool_decide; [by apply IH|].
  pose proof (emit_keeps (c id) now KIND_BYTES (row_token r) (bytes_payload r) s (bytes_payload_flat _ C R)) as E.
  destruct (emit sha256 (c id) _ _ _ _ s) as [[] s2]; cbn in *; [|done].
  eapply keeps_trans; [exact E|]. eapply keeps_trans; [|by apply IH]. apply snapshots_keeps.
Qed.

Lemma open_session_keeps c t tr now s : in_i64 now → keeps s (open_session sha256 c t tr now s).2.
Proof.
  intros N. destruct (open_session_cases c t tr now s) as [(id & r & Hr & Ho & Ht & ->)|[_ ->]].
  - case_bool_decide; [apply keeps_refl|]. apply sessions_keeps. intros O. apply map_Forall_insert_2; [|done].
    exact (O id r Hr).
  - eapply keeps_trans; [|apply emit_keeps, open_payload_flat, N]. apply sessions_keeps. intros O.
    by apply map_Forall_insert_2.
Qed.

Lemma install_keeps s : keeps s (install_receipts sg s).
Proof.
  split; [done|]. intros [_ Hh Hc Ht Hf Hr] B. constructor; cbn; try done. exists ∅. do 2 f_equal. rewrite Hh.
  destruct (log s) as [|e l] eqn:L; [done|]. unfold unsigned. f_equal; lia.
Qed.

Lemma close_session_keeps c t now why s : in_i64 now → keeps s (close_session sha256 c t now why s).2.
Proof.
  intros N. split; [apply prefix_length, (run_prefix (OClose c t now why))|]. intros K.
  unfold close_session. destruct (open_rows (Some t) s) as [[|row rows]|e] eqn:O; [by apply keeps_refl| |by apply keeps_refl].
  destruct (open_rows_ok _ _ _ K O) as [_ F].
  pose proof (emit_closes_keeps c (row :: rows) now why (close_rows (has_token t) now why s) N F) as E.
  destruct (emit_closes _ _ _ _ _ _) as [[] s2]; cbn in *;
    (apply (keeps_trans s _ s2 (close_rows_keeps (has_token t) now why s) E); exact K).
Qed.

Lemma stale_keeps c now why s : in_i64 now → keeps s (close_stale_open_sessions sha256 c now why s).2.
Proof.
  intros N. split; [apply prefix_length, (run_prefix (OStale c now why))|]. intros K.
  unfold close_stale_open_sessions. destruct (open_rows None s) as [rows|err] eqn:O; [|by apply keeps_refl].
  destruct (open_rows_ok _ _ _ K O) as [_ F].
  pose proof (emit_closes_keeps c rows now why (close_rows (λ _, true) now why s) N F) as E.
  destruct (emit_closes _ _ _ _ _ _) as [[] s2]; cbn in *;
    (apply (keeps_trans s _ s2 (close_rows_keeps (λ _, true) now why s) E); exact K).
Qed.

Lemma run_keeps op s : timely op → keeps s (run op s).
Proof.
  destruct op as [c t tr now|c t now why|t i o now|c now|cutoff|cutoff|c now why|]; cbn [run timely]; intros N.
  - by apply open_session_keeps.
  - by apply close_session_keeps.
  - apply sessions_keeps, fmap_rows_ok. intros r. by case_match.
  - split; [apply prefix_length, (run_prefix (OSnapshots c now))|]. intros K.
    unfold emit_bytes_snapshots. destruct (emitter s); [|by apply keeps_refl].
    destruct (open_rows None s) as [rows|err] eqn:O; [|by apply keeps_refl].
    destruct (open_rows_ok _ _ _ K O) as [_ F]. by apply snapshot_rows_keeps.
  - unfold prune_receipts_older_than. cbn. split; [done|]. intros [Em Hh Hc Ht Hf Hr] B. constructor; cbn; try done.
    intros k r Hk. apply lookup_sql_delete in Hk as [Hk _]. by apply Ht.
  - apply sessions_keeps. intros O id r Hr. apply lookup_sql_delete in Hr as [Hr _]. exact (O id r Hr).
  - by apply stale_keeps.
  - apply install_keeps.
Qed.

Lemma boot_kept : kept boot.
Proof. constructor; cbn; try done; [by exists ∅|constructor]. Qed.

Lemma runs_kept ops : Forall timely ops → bounded (runs ops) → kept (runs ops).
Proof.
  intros F B. enough (keeps boot (runs ops)) as [_ K] by (by apply K, B; apply boot_kept).
  unfold runs. clear B. generalize boot. induction F as [|op ops N F IH]; intros s; cbn; [apply keeps_refl|].
  eapply keeps_trans; [by apply run_keeps|apply IH].
Qed.

(** *** What a tunnel's page holds *)

Lemma read_row s k r :
  kept s → bounded s → table s !! k = Some r → ∃ e, e ∈ log s ∧ read_receipt k r = Some e ∧ k = Z.of_N (seq e) ∧
    r_token_hash r = token_hash e.
Proof.
  intros [_ _ Hc Ht Hf _] B L. destruct (Ht _ _ L) as (i & e & Hi & -> & ->).
  destruct (chain_lookup _ _ _ _ _ _ _ Hc Hi) as (Es & Hp & _).
  assert (e ∈ log s) as He by (by eapply list_elem_of_lookup_2). exists e. split_and!; [done| |lia|done].
  rewrite list.Forall_forall in Hf. unfold read_receipt, row_of; cbn. rewrite value_reads by (by apply Hf). cbn.
  assert (unsigned (Z.of_nat (Datatypes.S i)) = seq e) as -> by (unfold unsigned; lia).
  by destruct e.
Qed.

Lemma by_id_keys {A} (t : gmap Z A) : NoDup (by_id t).*1.
Proof. unfold by_id. rewrite sort_by_Permutation. apply NoDup_fst_map_to_list. Qed.

Lemma by_id_sorted {A} (t : gmap Z A) : StronglySorted (λ a b : Z * A, (a.1 < b.1)%Z) (by_id t).
Proof.
  pose proof (by_id_keys t) as N. unfold by_id in *.
  assert (StronglySorted (λ x y : Z * A, (x.1 <=? y.1)%Z = true) (sort_by (λ a b : Z * A, (a.1 <=? b.1)%Z) (map_to_list t))) as S.
  { apply sort_by_sorted; [intros x y|intros x y z]; rewrite !Z.leb_le; lia. }
  revert N S. generalize (sort_by (λ a b : Z * A, (a.1 <=? b.1)%Z) (map_to_list t)). intros l.
  induction l as [|x l IH]; intros N S; [constructor|]. apply StronglySorted_inv in S as [S F].
  cbn in N. apply NoDup_cons in N as [Nx N]. constructor; [by apply IH|].
  rewrite list.Forall_forall in *. intros y Hy. specialize (F y Hy). apply Z.leb_le in F.
  assert (x.1 ≠ y.1); [|lia]. intros E. apply Nx. rewrite E. by apply list_elem_of_fmap_2.
Qed.

Lemma sublist_sorted {A} (R : A → A → Prop) l k : sublist l k → StronglySorted R k → StronglySorted R l.
Proof.
  induction 1 as [|x l k Hs IH|x l k Hs IH]; intros S; [done|..]; apply StronglySorted_inv in S as [S F]; [|by apply IH].
  constructor; [by apply IH|]. rewrite list.Forall_forall in *. intros y Hy. apply F.
  by eapply elem_of_sublist.
Qed.

(** Reading rows of the store. *)
Lemma read_rows s rows :
  kept s → bounded s → Forall (λ kr : Z * ReceiptRow, table s !! kr.1 = Some kr.2) rows →
  ∃ rs, mapM (λ kr : Z * ReceiptRow, read_receipt kr.1 kr.2) rows = Some rs ∧
    Forall2 (λ (kr : Z * ReceiptRow) r, r ∈ log s ∧ kr.1 = Z.of_N (seq r) ∧ r_token_hash kr.2 = token_hash r) rows rs.
Proof.
  intros K B. induction 1 as [|[k r] rows L _ (rs & E & F)]; [by exists []|]. cbn [fst snd] in *.
  destruct (read_row s k r K B L) as (e & He & Er & Ek & Et). exists (e :: rs). split; [|by constructor].
  cbn. by rewrite Er, E.
Qed.

Lemma page_rows s th since limit :
  ∃ rows, Forall (λ kr : Z * ReceiptRow, table s !! kr.1 = Some kr.2 ∧ r_token_hash kr.2 = th ∧ (clamp_i64 since < kr.1)%Z) rows ∧
    StronglySorted (λ a b : Z * ReceiptRow, (a.1 < b.1)%Z) rows ∧
    rows = take (N.to_nat (N.max 1 (N.min limit RECEIPTS_MAX_LIMIT)))
      (filter (λ kr : Z * ReceiptRow, r_token_hash kr.2 = th ∧ (clamp_i64 since < kr.1)%Z) (by_id (table s))).
Proof.
  eexists. split_and!; [| |reflexivity].
  - apply list.Forall_forall. intros [k r] Hkr. eapply elem_of_sublist in Hkr; [|apply sublist_take].
    apply list_elem_of_filter in Hkr as [[Ht Hk] Hkr]. by apply elem_of_by_id in Hkr.
  - eapply sublist_sorted; [|apply by_id_sorted]. etrans; [apply sublist_take|apply list.sublist_filter].
Qed.

(** C25 the export of a tunnel, and when it verifies. Whatever the store went through (sessions of
    any tunnels, failed appends, pruning, restarts, clocks that step back), a page of a tunnel's
    receipts reads back as receipts that the edge signed, of this tunnel and after the cursor, in the
    order of their numbers; and the page verifies under the edge's key exactly when it is a contiguous
    stretch of the log of the whole edge. It is none when a receipt of another tunnel lies in between
    ([interleaved_export_fails]), nor when one of the tunnel's own was pruned from the middle, which
    pruning by time does after the clock has stepped back ([pruned_export_fails]). Assumed of the JSON
    library: an object of texts and of numbers within the integer types reads back from its text;
    of the run: clocks within [i64] and fewer than 2^63 receipts, as the code's types have it. *)
Theorem tunnel_export_verifies_iff ops th since limit :
  Forall timely ops → bounded (runs ops) →
  ∃ rs, receipts_for th since limit (runs ops) = Ok rs ∧
    Forall (λ r, r ∈ log (runs ops) ∧ token_hash r = th ∧ since < seq r) rs ∧
    StronglySorted (λ a b, seq a < seq b) rs ∧
    (is_ok (verify_chain sha256 rs (pubkey_bytes sg)) = true ↔ ∃ n, rs = take (length rs) (drop n (log (runs ops)))).
Proof.
  intros Ti B. pose proof (runs_kept ops Ti B) as K. set (s := runs ops) in *.
  destruct (page_rows s th since limit) as (rows & F & S & Erows).
  destruct (read_rows s rows K B) as (rs & Ers & F2); [eapply list.Forall_impl; [exact F|naive_solver]|].
  exists rs. destruct (ke_emitter _ K) as [m Em].
  assert (∀ e, e ∈ log s → seq e < 2 ^ 63) as Sm.
  { intros e [i Hi]%list_elem_of_lookup. destruct (chain_lookup _ _ _ _ _ _ _ (ke_chain _ K) Hi) as (Es & _).
    apply lookup_lt_Some in Hi. unfold bounded in B. lia. }
  assert (Forall (λ r, r ∈ log s ∧ token_hash r = th ∧ since < seq r) rs) as Fr.
  { clear -F F2 Sm. induction F2 as [|[k r] e rows rs (He & Ek & Et) F2 IH]; [constructor|].
    apply list.Forall_cons in F as [(_ & Hth & Hk) F]. cbn [fst snd] in *. constructor; [|by apply IH].
    split_and!; [done|congruence|]. specialize (Sm e He).
    unfold clamp_i64, I64_MAX in Hk. destruct (N.ltb_spec since (2 ^ 63)); lia. }
  split_and!; [|done| |].
  - unfold receipts_for. rewrite Em, <- Erows, Ers. done.
  - clear -S F2. revert S. induction F2 as [|kr e rows rs (He & Ek & Et) F2 IH]; [constructor|].
    intros [S Fk]%StronglySorted_inv. constructor; [by apply IH|]. clear -Fk F2 Ek. revert Fk.
    induction F2 as [|kr' e' rows rs (_ & Ek' & _) F2 IH]; [constructor|].
    intros [Hk Fk]%list.Forall_cons. constructor; [lia|by apply IH].
  - apply verifies_iff_stretch; [done|apply K| |].
    + unfold bounded in B. unfold U64. lia.
    + eapply list.Forall_impl; [exact Fr|naive_solver].
Qed.

(** *** Sessions *)

Lemma close_session_sessions c t now why s :
  sessions (close_session sha256 c t now why s).2 = sessions s ∨
  sessions (close_session sha256 c t now why s).2 = sessions (close_rows (has_token t) now why s).
Proof.
  unfold close_session. destruct (open_rows _ _) as [[|row rows]|e]; [by left|right|by left].
  pose proof (emit_closes_sessions c (row :: rows) now why (close_rows (has_token t) now why s)) as E.
  by destruct (emit_closes _ _ _ _ _ _) as [[] s2].
Qed.

Lemma stale_sessions c now why s :
  sessions (close_stale_open_sessions sha256 c now why s).2 = sessions s ∨
  sessions (close_stale_open_sessions sha256 c now why s).2 = sessions (close_rows (λ _, true) now why s).
Proof.
  unfold close_stale_open_sessions. destruct (open_rows None s) as [rows|err]; [right|by left].
  pose proof (emit_closes_sessions c rows now why (close_rows (λ _, true) now why s)) as E.
  by destruct (emit_closes _ _ _ _ _ _) as [[] s2].
Qed.

Lemma next_id_fresh {A} (t : gmap Z A) : t !! next_id t = None.
Proof.
  destruct (t !! next_id t) as [a|] eqn:L; [|done]. exfalso.
  apply elem_of_map_to_list, (list_elem_of_fmap_2 fst) in L. cbn in L. unfold next_id in L.
  change (fst <$> map_to_list t) with (map fst (map_to_list t)) in L. revert L.
  generalize (map fst (map_to_list t)). intros l Hl.
  assert (∀ x, x ∈ l → x <= foldr Z.max 0 l)%Z as M; [|specialize (M _ Hl); lia].
  clear Hl. induction l as [|y l IH]; intros x; [by intros ?%elem_of_nil|].
  intros [->|Hx]%elem_of_cons; cbn; [lia|]. specialize (IH x Hx). lia.
Qed.

(** At most one session of a tunnel is open. *)
Definition one_open (m : gmap Z Row) : Prop :=
  ∀ i j a b, m !! i = Some a → m !! j = Some b → is_open a = true → is_open b = true → row_token a = row_token b → i = j.

Lemma one_open_fmap (f : Row → Row) m :
  (∀ r, row_token (f r) = row_token r) → (∀ r, is_open (f r) = true → is_open r = true) → one_open m → one_open (f <$> m).
Proof.
  intros Ft Fo O i j a b Ha Hb Oa Ob E. apply lookup_fmap_Some in Ha as (x & <- & Hx), Hb as (y & <- & Hy).
  rewrite !Ft in E. eapply O; eauto.
Qed.

Lemma one_open_close sel now why s : one_open (sessions s) → one_open (sessions (close_rows sel now why s)).
Proof. apply one_open_fmap; intros r; case_match; done. Qed.

Lemma run_one_open op s : one_open (sessions s) → one_open (sessions (run op s)).
Proof.
  intros O. destruct op as [c t tr now|c t now why|t i o now|c now|cutoff|cutoff|c now why|]; cbn [run]; try done.
  - destruct (open_session_cases c t tr now s) as [(id & r & Hr & Ho & Ht & ->)|[E ->]].
    + case_bool_decide; [done|]. cbn. intros i j a b. rewrite !lookup_insert.
      destruct (decide (id = i)) as [<-|], (decide (id = j)) as [<-|]; try done.
      * intros [= <-] Hb _ Ob Et. cbn in Et. by eapply O.
      * intros Ha [= <-] Oa _ Et. cbn in Et. by eapply O.
      * apply O.
    + rewrite emit_sessions. cbn.
      assert (∀ j b, sessions s !! j = Some b → is_open b = true → row_token b ≠ t) as Hno.
      { intros j b Hb Ob Et. assert ((j, b) ∈ still_open (Some t) s) as Hin
          by (apply elem_of_still_open; subst t; auto). rewrite E in Hin. by apply elem_of_nil in Hin. }
      intros i j a b. rewrite !lookup_insert.
      destruct (decide (_ = i)) as [<-|], (decide (_ = j)) as [<-|]; try done.
      * intros [= <-] Hb _ Ob Et. cbn in Et. by destruct (Hno _ _ Hb Ob).
      * intros Ha [= <-] Oa _ Et. cbn in Et. by destruct (Hno _ _ Ha Oa).
      * apply O.
  - destruct (close_session_sessions c t now why s) as [->| ->]; [done|by apply one_open_close].
  - apply one_open_fmap; [intros r; by case_match| |done]. intros r. by case_match.
  - unfold emit_bytes_snapshots. destruct (emitter s); [|done]. destruct (open_rows None s); [|done].
    cbn. by rewrite snapshot_rows_sessions.
  - cbn. intros i j a b Ha Hb. apply lookup_sql_delete in Ha as [Ha _], Hb as [Hb _]. by apply O.
  - destruct (stale_sessions c now why s) as [->| ->]; [done|by apply one_open_close].
Qed.

(** *** Every session is attested *)

Definition lossless (op : Op) : Prop :=
  match op with
  | OOpen c _ _ _ | OClose c _ _ _ | OSnapshots c _ | OStale c _ _ => ∀ id, c id = true
  | _ => True
  end.

(** A receipt of the log with this kind and payload, for the tunnel of a row. *)
Definition has_receipt (l : list Receipt) (kd : bytes) (r : Row) (p : Value) : Prop :=
  ∃ e, e ∈ l ∧ kind e = kd ∧ token_hash e = routing_token_hash_of_hex sha256 (row_token r) ∧ payload e = p.

Definition opened_by (l : list Receipt) (r : Row) : Prop :=
  ∃ tr, has_receipt l KIND_SESSION_OPEN r (open_payload (connected_at r) tr).
Definition closed_by (l : list Receipt) (r : Row) : Prop :=
  ∀ d, disconnected_at r = Some d → ∃ why, reason r = Some why ∧ has_receipt l KIND_SESSION_CLOSE r (close_payload r d why).

Definition attested (s : Store) : Prop :=
  ∀ id r, sessions s !! id = Some r → opened_by (log s) r ∧ closed_by (log s) r.

Lemma has_receipt_mono l l' kd r p : l `prefix_of` l' → has_receipt l kd r p → has_receipt l' kd r p.
Proof. intros [k ->] (e & He & ?). exists e. split; [|done]. apply elem_of_app. by left. Qed.

Lemma attested_mono s s' : sessions s' = sessions s → log s `prefix_of` log s' → attested s → attested s'.
Proof.
  intros E P A id r Hr. rewrite E in Hr. destruct (A id r Hr) as [[tr Ho] Hc]. split.
  - exists tr. by eapply has_receipt_mono.
  - intros d Hd. destruct (Hc d Hd) as (why & Ew & Hw). exists why. split; [done|]. by eapply has_receipt_mono.
Qed.

(** There is room for one more number. *)
Definition roomy (s : Store) : Prop := N.of_nat (length (log s)) + 1 < 2 ^ 63.

Lemma roomy_bounded s : roomy s → bounded s.
Proof. unfold roomy, bounded. lia. Qed.

Lemma roomy_before s s' : log s `prefix_of` log s' → roomy s' → roomy s.
Proof. intros P%prefix_length. unfold roomy. lia. Qed.

(** An append that commits is in the log. *)
Lemma emit_appends now kd t p s :
  kept s → flat p → roomy (emit sha256 true now kd t p s).2 →
  (∃ e, e ∈ log (emit sha256 true now kd t p s).2 ∧ kind e = kd ∧
     token_hash e = routing_token_hash_of_hex sha256 t ∧ payload e = p) ∧
  (emit sha256 true now kd t p s).1 = Ok () ∧ kept (emit sha256 true now kd t p s).2.
Proof.
  intros K Hp R. pose proof (roomy_before s _ (emit_prefix true now kd t p s) R) as Rs.
  pose proof (emit_spec true now kd t p s K (roomy_bounded _ Rs) Hp) as E.
  destruct (emit sha256 true now kd t p s) as [res s']; cbn in *.
  destruct E as [(_ & _ & [?|Hf])|((r & El & Et & Ek & Ep & _) & -> & _ & _ & Hk)]; [done|unfold roomy in Rs; lia|].
  split_and!; [|done|by apply Hk, roomy_bounded]. exists r. rewrite El. split_and!; try done. set_solver.
Qed.

Lemma emit_closes_all c rows now why s :
  (∀ id, c id = true) → in_i64 now → Forall row_ok rows → kept s →
  roomy (emit_closes sha256 c rows now why s).2 →
  ∀ id r, (id, r) ∈ rows →
    has_receipt (log (emit_closes sha256 c rows now why s).2) KIND_SESSION_CLOSE r (close_payload r now why).
Proof.
  intros Hc N. revert s. induction rows as [|[id0 r0] rows IH]; intros s Fr K R id r Hin; [by apply elem_of_nil in Hin|].
  apply list.Forall_cons in Fr as [[C0 R0] Fr]. cbn [emit_closes fst snd] in *. unfold emit_close in *. cbn [fst snd] in *. rewrite Hc in *.
  pose proof (emit_appends now KIND_SESSION_CLOSE (row_token r0) (close_payload r0 now why) s K
                (close_payload_flat _ _ _ N C0 R0)) as E.
  destruct (emit sha256 true now KIND_SESSION_CLOSE (row_token r0) (close_payload r0 now why) s) as [res s2]; cbn [fst snd] in *.
  destruct res as [[]|e].
  - pose proof (emit_closes_prefix c rows now why (forget_snapshot id0 s2)) as P.
    unfold forget_snapshot in P at 1. rewrite set_snapshots_log in P.
    destruct E as (Hr & _ & K2); [by eapply roomy_before|].
    apply elem_of_cons in Hin as [[= -> ->]|Hin].
    + destruct P as [k ->]. destruct Hr as (e & He & ?). exists e. split; [set_solver|done].
    + eapply IH; [done| |done|done]. apply snapshots_keeps; [done|]. unfold bounded, forget_snapshot.
      rewrite set_snapshots_log. apply roomy_bounded. by eapply roomy_before.
  - destruct E as (_ & E & _); [done|]. done.
Qed.

Lemma opened_mono l l' r : l `prefix_of` l' → opened_by l r → opened_by l' r.
Proof. intros P [tr Ho]. exists tr. by eapply has_receipt_mono. Qed.

Lemma closed_mono l l' r : l `prefix_of` l' → closed_by l r → closed_by l' r.
Proof. intros P Hc d Hd. destruct (Hc d Hd) as (why & ? & ?). exists why. split; [done|]. by eapply has_receipt_mono. Qed.

(** Closing rows, with a receipt for each. *)
Lemma close_attested c sel rows now why s :
  (∀ id, c id = true) → in_i64 now → Forall row_ok rows → kept s → attested s →
  let s' := (emit_closes sha256 c rows now why (close_rows sel now why s)).2 in
  roomy s' → (∀ id r, sessions s !! id = Some r → sel r && is_open r = true → (id, r) ∈ rows) → attested s'.
Proof.
  intros Hc N Fr K A s' R Hrows id r' Hr'. unfold s' in Hr'. rewrite emit_closes_sessions in Hr'.
  apply lookup_fmap_Some in Hr' as (r & <- & Hr). destruct (A id r Hr) as [Ho Hcl].
  pose proof (emit_closes_prefix c rows now why (close_rows sel now why s)) as P.
  change (log (close_rows sel now why s)) with (log s) in P. fold s' in P.
  destruct (sel r && is_open r) eqn:Es; [|split; [by eapply opened_mono|by eapply closed_mono]]. split.
  - apply (opened_mono _ _ _ P Ho).
  - intros d [= <-]. exists why. split; [done|].
    apply (emit_closes_all c rows now why (close_rows sel now why s) Hc N Fr) with (id := id) (r := r); auto.
    apply close_rows_keeps; [done|]. apply roomy_bounded. by eapply roomy_before.
Qed.

Lemma open_attested c t tr now s :
  (∀ id, c id = true) → in_i64 now → kept s → attested s → roomy (open_session sha256 c t tr now s).2 →
  attested (open_session sha256 c t tr now s).2.
Proof.
  intros Hc N K A. destruct (open_session_cases c t tr now s) as [(id & r & Hr & Ho & Ht & ->)|[E ->]].
  - case_bool_decide; [done|]. intros _ i x. cbn. rewrite lookup_insert. destruct (decide (id = i)) as [<-|]; [|apply A].
    intros [= <-]. destruct (A id r Hr) as [? Hcl]. split; [done|]. intros d Hd. exact (Hcl d Hd).
  - rewrite Hc. set (s1 := set_sessions _ s). intros R.
    assert (kept s1) as K1.
    { apply sessions_keeps; [|done|].
      { intros O. by apply map_Forall_insert_2. }
      apply roomy_bounded. eapply roomy_before; [|exact R].
      apply (emit_prefix true now KIND_SESSION_OPEN t (open_payload now tr) s1). }
    destruct (emit_appends now KIND_SESSION_OPEN t (open_payload now tr) s1 K1 (open_payload_flat _ _ N) R) as (He & _ & _).
    intros i x. rewrite emit_sessions. unfold s1 at 1. cbn [sessions set_sessions]. rewrite lookup_insert.
    destruct (decide (_ = i)) as [<-|]; [|intros Hx].
    + intros [= <-]. split; [|by intros d [=]]. exists tr. exact He.
    + destruct (A i x Hx) as [Ho Hcl]. pose proof (emit_prefix true now KIND_SESSION_OPEN t (open_payload now tr) s1) as P.
      split; [by eapply opened_mono|by eapply closed_mono].
Qed.

Lemma run_attested op s : lossless op → timely op → kept s → roomy (run op s) → attested s → attested (run op s).
Proof.
  intros Hl N K R A. destruct op as [c t tr now|c t now why|t i o now|c now|cutoff|cutoff|c now why|];
    cbn [run lossless timely] in *; try done.
  - by apply open_attested.
  - unfold close_session in *. destruct (open_rows (Some t) s) as [[|row rows]|e] eqn:O; [done| |done].
    destruct (open_rows_ok _ _ _ K O) as [Er Fr].
    pose proof (close_attested c (has_token t) (row :: rows) now why s Hl N Fr K A) as C. cbn zeta in C.
    destruct (emit_closes _ _ _ _ _ _) as [[] s2]; cbn [snd] in *; (apply C; [done|]);
      intros id r Hr Es; rewrite Er; apply elem_of_still_open; apply andb_true_iff in Es as [Et Eo];
      apply bool_decide_eq_true in Et; split_and!; auto; right; by f_equal.
  - intros id x Hx. cbn in Hx. apply lookup_fmap_Some in Hx as (r & <- & Hr). destruct (A id r Hr) as [Ho Hcl].
    cbn [log add_session_bytes set_sessions snd]. destruct (has_token t r && is_open r) eqn:Es; [|done]. split; [done|].
    intros d Hd. cbn in Hd. apply andb_true_iff in Es as [_ Eo]. unfold is_open in Eo. apply bool_decide_eq_true in Eo. congruence.
  - unfold emit_bytes_snapshots. destruct (emitter s); [|done]. destruct (open_rows None s) as [rows|err]; [|done].
    eapply attested_mono; [|apply snapshot_rows_prefix|done]. by rewrite snapshot_rows_sessions.
  - intros id r Hr. cbn in Hr. apply lookup_sql_delete in Hr as [Hr _]. exact (A id r Hr).
  - unfold close_stale_open_sessions in *. destruct (open_rows None s) as [rows|err] eqn:O; [|done].
    destruct (open_rows_ok _ _ _ K O) as [Er Fr].
    pose proof (close_attested c (λ _, true) rows now why s Hl N Fr K A) as C. cbn zeta in C.
    destruct (emit_closes _ _ _ _ _ _) as [[] s2]; cbn [snd] in *; (apply C; [done|]);
      intros id r Hr Es; rewrite Er; apply elem_of_still_open; by split_and!; auto.
Qed.

Lemma fold_prefix ops s : log s `prefix_of` log (foldl (flip run) s ops).
Proof. revert s. induction ops as [|op ops IH]; intros s; cbn; [done|]. etrans; [apply (run_prefix op)|apply IH]. Qed.

Lemma runs_attested ops s :
  Forall lossless ops → Forall timely ops → kept s → one_open (sessions s) → attested s → roomy (foldl (flip run) s ops) →
  one_open (sessions (foldl (flip run) s ops)) ∧ attested (foldl (flip run) s ops).
Proof.
  revert s. induction ops as [|op ops IH]; intros s F T K O A R; [done|]. cbn in *.
  apply list.Forall_cons in F as [Fo F], T as [To T].
  pose proof (roomy_before _ _ (fold_prefix ops (run op s)) R) as R1. apply IH; [done|done| |by apply run_one_open|by apply run_attested|done].
  by apply run_keeps, roomy_bounded.
Qed.

(** C26 every session of the history is attested. As long as the appends reach the disk, at most
    one session of a tunnel is open, and each session in the table has a receipt of its opening
    with its start, and, once closed, a receipt of its closing with its start, its end, its reason
    and its final byte counts, whatever moved between transports, was pruned, or was cut by a
    restart. The receipt of the opening names the transport of that moment; the row names the latest,
    and no receipt tells of the change. The byte counts of a row that is still open are attested by
    the hourly snapshots alone, and by nothing before the first. (Clocks are within [i64] and there
    are fewer than 2^63 receipts, as the code's types have it; a receipt is one the edge has written,
    which a later pruning of the receipts' table may have removed from it.) *)
Theorem every_session_attested ops :
  Forall lossless ops → Forall timely ops → N.of_nat (length (log (runs ops))) + 1 < 2 ^ 63 →
  one_open (sessions (runs ops)) ∧
  ∀ id r, sessions (runs ops) !! id = Some r → opened_by (log (runs ops)) r ∧ closed_by (log (runs ops)) r.
Proof.
  intros F T R. apply runs_attested; [done|done|apply boot_kept| | |exact R].
  - by intros i j a b Ha.
  - by intros i r Hr.
Qed.

End runs.

(** ** Two tunnels on one edge *)

Section demo.

#[local] Existing Instance Toy.ed25519.
#[local] Existing Instance Toy.laws.
#[local] Existing Instance ToyJson.text.
#[local] Existing Instance ToyJson.text_laws.
#[local] Instance demo_read : JsonRead := {| value_from_str := ToyJson.value_from_str |}.
#[local] Instance demo_reads : JsonReadLaws := λ v Hv, ToyJson.value_reads v (flat_ok v Hv).

Definition demo_sha (x : bytes) : bytes := be_bytes 32 (foldl (λ a b, a * 257 + N_of_byte b) 7 x).

Lemma demo_sha_length x : length (demo_sha x) = 32%nat.
Proof. apply length_be_bytes. Qed.

Definition demo_signer : ReceiptSigner := {| key := x2a; signer_id := lit "edge-1" |}.
Definition fine : Z → bool := λ _, true.
Definition tunnel_a : bytes := lit "aa".
Definition tunnel_b : bytes := lit "bb".

Definition demo_ops : list Op := [
  OOpen fine tunnel_a TRANSPORT_QUIC 1000; OOpen fine tunnel_b TRANSPORT_TCP_FALLBACK 1100;
  OBytes tunnel_a 100 40 1200; OSnapshots fine 4600; ORestart; OStale fine 5000 (lit "edge-restart")].

Lemma demo_timely : Forall timely demo_ops.
Proof. repeat constructor; by vm_compute. Qed.

Definition demo_store : Store := runs demo_sha demo_signer demo_ops.

Lemma tunnel_export_verifies_iff_witness :
  ∃ rs, receipts_for (routing_token_hash_of_hex demo_sha tunnel_a) 0 100 demo_store = Ok rs ∧
    Forall (λ r, r ∈ log demo_store ∧ token_hash r = routing_token_hash_of_hex demo_sha tunnel_a ∧ 0 < seq r) rs ∧
    StronglySorted (λ a b, seq a < seq b) rs ∧
    (is_ok (verify_chain demo_sha rs (pubkey_bytes demo_signer)) = true
     ↔ ∃ n, rs = take (length rs) (drop n (log demo_store))).
Proof.
  assert (bounded (runs demo_sha demo_signer demo_ops)) as B by (unfold bounded; by vm_compute).
  exact (tunnel_export_verifies_iff demo_sha demo_sha_length demo_signer demo_ops
           (routing_token_hash_of_hex demo_sha tunnel_a) 0 100 demo_timely B).
Defined.

Lemma every_session_attested_witness :
  one_open (sessions demo_store) ∧
  ∀ id r, sessions demo_store !! id = Some r → opened_by demo_sha (log demo_store) r ∧ closed_by demo_sha (log demo_store) r.
Proof.
  assert (N.of_nat (length (log (runs demo_sha demo_signer demo_ops))) + 1 < 2 ^ 63) as R by by vm_compute.
  assert (Forall lossless demo_ops) as L by repeat constructor.
  exact (every_session_attested demo_sha demo_sha_length demo_signer demo_ops L demo_timely R).
Defined.

(** The owner's page of the first tunnel: the receipts of the other tunnel on the edge are not in
    it, and the verifier refuses the first gap they leave. *)
Example interleaved_export_fails :
  match receipts_for (routing_token_hash_of_hex demo_sha tunnel_a) 0 1000 demo_store with
  | Ok rs => (map seq rs, verify_chain demo_sha rs (pubkey_bytes demo_signer))
  | Err _ => ([], Ok default_summary)
  end = ([1; 3; 4], Err (SeqGap 3 2)).
Proof. by vm_compute. Qed.

(** One tunnel, whose clock steps back: the pruning by time takes the second receipt and leaves the
    first and the third, and the verifier refuses the gap. *)
Definition pruned_ops : list Op := [
  OOpen fine tunnel_a TRANSPORT_QUIC 1000; OClose fine tunnel_a 500 (lit "removed");
  OOpen fine tunnel_a TRANSPORT_QUIC 2000; OPruneReceipts 600].

Example pruned_export_fails :
  match receipts_for (routing_token_hash_of_hex demo_sha tunnel_a) 0 1000 (runs demo_sha demo_signer pruned_ops) with
  | Ok rs => (map seq rs, verify_chain demo_sha rs (pubkey_bytes demo_signer))
  | Err _ => ([], Ok default_summary)
  end = ([1; 3], Err (SeqGap 3 2)).
Proof. by vm_compute. Qed.

(** A session that moves from QUIC to the TCP fallback: its row says so, its one receipt does not. *)
Example moved_session_unattested :
  let s := runs demo_sha demo_signer [OOpen fine tunnel_a TRANSPORT_QUIC 1000;
             OOpen fine tunnel_a TRANSPORT_TCP_FALLBACK 1500] in
  transport <$> sessions s !! 1%Z = Some TRANSPORT_TCP_FALLBACK ∧
  map payload (log s) = [open_payload 1000 TRANSPORT_QUIC].
Proof. by vm_compute. Qed.

(** Two reports of 2^63 bytes and more overflow the column, and the session can no longer be closed. *)
Example overflowed_session_stays :
  let s := runs demo_sha demo_signer [OOpen fine tunnel_a TRANSPORT_QUIC 1000;
             OBytes tunnel_a (2 ^ 63) 0 1100; OBytes tunnel_a (2 ^ 63) 0 1200] in
  close_session demo_sha fine tunnel_a 2000 (lit "removed") s = (Err SqlFailure, s).
Proof. by vm_compute. Qed.

(** A close whose append fails leaves no trace: the next receipt takes its number, and the chain of
    the edge verifies without it. *)
Definition lossy_ops : list Op := [
  OOpen fine tunnel_a TRANSPORT_QUIC 1000; OClose (λ _, false) tunnel_a 2000 (lit "removed");
  OOpen fine tunnel_a TRANSPORT_QUIC 3000].

Example missed_receipt_leaves_no_gap :
  let s := runs demo_sha demo_signer lossy_ops in
  match receipts_for (routing_token_hash_of_hex demo_sha tunnel_a) 0 1000 s with
  | Ok rs => (map (λ r, (seq r, kind r)) rs, is_ok (verify_chain demo_sha rs (pubkey_bytes demo_signer)))
  | Err _ => ([], false)
  end = ([(1, KIND_SESSION_OPEN); (2, KIND_SESSION_OPEN)], true).
Proof. by vm_compute. Qed.

End demo.

End History.
