(* ===== verification/Upgrade.v ===== *)
(** * Moving a relayed session to a direct connection

    [Coordinator]: the messages, the retry schedule and the byte meter of [common/src/upgrade.rs],
    with its two negotiations. [Mux]: the multiplexed pump of [common/src/noise.rs] as steps of its
    three futures, with the relay and the direct connection as two channels. [Orchestrated]: the
    session of [upgrade.rs] that runs the negotiation beside the pump. *)

From S2P Require Import Prelude RustStd Maps Codec SockAddr Reach.

Module Coordinator.

(** ** Messages *)

(** src/crates/common/src/upgrade.rs:62-70 [UpgradeMsg] *)
Inductive UpgradeMsg := Offer (direct_endpoint : bytes) | Ready | Abort.

(** src/crates/common/src/upgrade.rs:78-89 [UpgradeMsg::encode] *)
Definition encode (m : UpgradeMsg) : bytes :=
  match m with Offer e => x00 :: e | Ready => [x01] | Abort => [x02] end.

(** src/crates/common/src/upgrade.rs:94-108 [UpgradeMsg::decode] *)
Definition decode (b : bytes) : option UpgradeMsg :=
  match b with
  | [] => None
  | tag :: rest =>
    if bool_decide (tag = x00) then
      match rest with [] => None | _ => Offer <$> from_utf8 rest end
    else if bool_decide (tag = x01) && bool_decide (rest = []) then Some Ready
    else if bool_decide (tag = x02) && bool_decide (rest = []) then Some Abort
    else None
  end.

(** An endpoint is a Rust string; an offer carries one that is not empty. *)
Definition msg_ok (m : UpgradeMsg) : Prop :=
  match m with Offer e => e ≠ [] ∧ utf8_valid e = true | _ => True end.

(** the wire form of the upgrade messages is exact: what decodes is the encoding of one valid
    message, and every valid message decodes to itself. *)
Theorem upgrade_msg_exact b m : decode b = Some m ↔ msg_ok m ∧ b = encode m.
Proof.
  split.
  - destruct b as [|t r]; cbn; [done|].
    destruct (bool_decide_reflect (t = x00)) as [->|N0].
    { destruct r as [|c r]; [done|]. intros (e & E & ->)%fmap_Some.
      unfold from_utf8 in E. destruct (utf8_valid (c :: r)) eqn:U; simplify_eq. by split. }
    destruct (bool_decide_reflect (t = x01)) as [->|N1], (bool_decide_reflect (r = [])) as [->|Nr];
      cbn; try (by intros [= <-]); rewrite ?andb_false_r; try done;
      destruct (bool_decide_reflect (t = x02)) as [->|N2]; cbn; try done; by intros [= <-].
  - intros [Ho ->]. destruct m as [e| |]; [|done..]. destruct Ho as [Hn Hu]. cbn.
    destruct e as [|c e]; [done|]. unfold from_utf8. by rewrite Hu.
Qed.

(** ** The coordinator *)

(** src/crates/common/src/upgrade.rs:30-35 [Path] *)
Inductive Path := Relay | Direct.
(** src/crates/common/src/upgrade.rs:41-46 [Role] *)
Inductive Role := Initiator | Responder.

#[global] Instance path_eq_dec : EqDecision Path.
Proof. solve_decision. Defined.
#[global] Instance role_eq_dec : EqDecision Role.
Proof. solve_decision. Defined.

(** src/crates/common/src/upgrade.rs:49-49 [DEFAULT_BASE_INTERVAL_SECS] *)
Definition DEFAULT_BASE_INTERVAL_SECS : N := 5.
(** src/crates/common/src/upgrade.rs:50-50 [DEFAULT_MAX_INTERVAL_SECS] *)
Definition DEFAULT_MAX_INTERVAL_SECS : N := 60.

(** src/crates/common/src/upgrade.rs:120-129 [UpgradeCoordinator] *)
Record UpgradeCoordinator := {
  role : Role; path : Path; started_at : N; upgraded_at : option N; next_attempt_at : N;
  attempts : N; base_interval : N; max_interval : N;
}.

(** src/crates/common/src/upgrade.rs:140-152 [UpgradeCoordinator::with_backoff] *)
Definition with_backoff (r : Role) (now base max : N) : UpgradeCoordinator :=
  let base := N.max base 1 in
  {| role := r; path := Relay; started_at := now; upgraded_at := None;
     next_attempt_at := saturating_add64 now base; attempts := 0; base_interval := base;
     max_interval := N.max max base |}.

(** src/crates/common/src/upgrade.rs:135-137 [UpgradeCoordinator::new] *)
Definition new (r : Role) (now : N) : UpgradeCoordinator :=
  with_backoff r now DEFAULT_BASE_INTERVAL_SECS DEFAULT_MAX_INTERVAL_SECS.

(** src/crates/common/src/upgrade.rs:157-159 [UpgradeCoordinator::should_attempt] *)
Definition should_attempt (c : UpgradeCoordinator) (now : N) : bool :=
  bool_decide (role c = Initiator) && bool_decide (path c = Relay) && (next_attempt_at c <=? now).

(** [u64::saturating_mul], and [u32::saturating_add] of one. *)
Definition saturating_mul64 (a b : N) : N := N.min (a * b) (U64 - 1).
Definition saturating_succ32 (a : N) : N := N.min (a + 1) (U32 - 1).

(** src/crates/common/src/upgrade.rs:163-171 [UpgradeCoordinator::record_attempt_failed] *)
Definition record_attempt_failed (now : N) (c : UpgradeCoordinator) : UpgradeCoordinator :=
  let attempts := saturating_succ32 (attempts c) in
  let shift := N.min attempts 16 in
  let backoff := N.min (saturating_mul64 (base_interval c) (N.shiftl 1 shift)) (max_interval c) in
  {| role := role c; path := path c; started_at := started_at c; upgraded_at := upgraded_at c;
     next_attempt_at := saturating_add64 now backoff; attempts := attempts;
     base_interval := base_interval c; max_interval := max_interval c |}.

(** src/crates/common/src/upgrade.rs:175-180 [UpgradeCoordinator::confirm_upgraded] *)
Definition confirm_upgraded (now : N) (c : UpgradeCoordinator) : UpgradeCoordinator :=
  if bool_decide (path c = Direct) then c
  else {| role := role c; path := Direct; started_at := started_at c; upgraded_at := Some now;
          next_attempt_at := next_attempt_at c; attempts := attempts c;
          base_interval := base_interval c; max_interval := max_interval c |}.

(** src/crates/common/src/upgrade.rs:188-190 [UpgradeCoordinator::is_direct] *)
Definition is_direct (c : UpgradeCoordinator) : bool := bool_decide (path c = Direct).

(** src/crates/common/src/upgrade.rs:194-196 [UpgradeCoordinator::time_to_upgrade] *)
Definition time_to_upgrade (c : UpgradeCoordinator) : option N := (λ t, t - started_at c) <$> upgraded_at c.

(** *** The schedule of attempts *)

Inductive CoordOp := OFail (now : N) | OConfirm (now : N).
Definition coord_run (op : CoordOp) (c : UpgradeCoordinator) : UpgradeCoordinator :=
  match op with OFail now => record_attempt_failed now c | OConfirm now => confirm_upgraded now c end.

Record coord_ok (c : UpgradeCoordinator) : Prop := {
  co_intervals : 1 <= base_interval c <= max_interval c;
  co_path : path c = Direct ↔ upgraded_at c ≠ None;
  co_attempts : u32_ok (attempts c);
}.

Lemma coord_ok_run op c : coord_ok c → coord_ok (coord_run op c).
Proof.
  intros []. destruct op as [now|now]; cbn.
  - constructor; cbn; try done. unfold saturating_succ32, u32_ok, U32. lia.
  - unfold confirm_upgraded. case_bool_decide; [by constructor|]. by constructor.
Qed.

Lemma coord_reachable r start base max ops :
  let c := foldl (flip coord_run) (with_backoff r start base max) ops in coord_ok c ∧ role c = r.
Proof.
  assert (coord_ok (with_backoff r start base max) ∧ role (with_backoff r start base max) = r) as K.
  { split; [constructor; cbn|done]; [lia| |unfold u32_ok, U32; lia]. by split. }
  revert K. generalize (with_backoff r start base max). induction ops as [|op ops IH]; intros c [K E]; [done|].
  cbn. apply IH. split; [by apply coord_ok_run|]. destruct op; cbn; [done|].
  unfold confirm_upgraded. by case_bool_decide.
Qed.

(** the retries of the direct dial. From any coordinator and whatever happened since, a failed
    attempt is followed by a wait of at least one second and at most the maximum, which doubles
    with each failure until the maximum is reached (the exponent and the clock saturate, so nothing
    wraps); only an initiator that is still relayed ever attempts, and never before the wait is over. *)
Theorem backoff_bounds r start base max ops now t :
  let c := foldl (flip coord_run) (with_backoff r start base max) ops in
  let c' := record_attempt_failed now c in
  now + max_interval c < U64 → base_interval c * 2 ^ 16 < U64 →
  next_attempt_at c' = now + N.min (base_interval c * 2 ^ N.min (saturating_succ32 (attempts c)) 16) (max_interval c) ∧
  now + 1 <= next_attempt_at c' <= now + max_interval c ∧
  (should_attempt c' t = true ↔ r = Initiator ∧ path c = Relay ∧ next_attempt_at c' <= t).
Proof.
  intros c c' B1 B2.
  pose proof (coord_reachable r start base max ops) as K. cbv zeta in K. fold c in K.
  destruct K as [[Hi _ _] Hr].
  assert (2 ^ N.min (saturating_succ32 (attempts c)) 16 <= 2 ^ 16) as Hp by (apply N.pow_le_mono_r; lia).
  assert (1 <= 2 ^ N.min (saturating_succ32 (attempts c)) 16) as Hp1.
  { change 1 with (2 ^ 0) at 1. apply N.pow_le_mono_r; lia. }
  assert (next_attempt_at c' = now + N.min (base_interval c * 2 ^ N.min (saturating_succ32 (attempts c)) 16) (max_interval c)) as En.
  { unfold c', record_attempt_failed; cbn [next_attempt_at]. rewrite N.shiftl_mul_pow2, N.mul_1_l.
    unfold saturating_mul64, saturating_add64. nia. }
  split; [done|]. split; [rewrite En; nia|].
  unfold should_attempt. unfold c' at 1 2; cbn [role path record_attempt_failed]. rewrite Hr.
  rewrite !andb_true_iff, !bool_decide_eq_true, N.leb_le. tauto.
Qed.

(** the handover is recorded once: the first confirmation sets the path and the time, and
    whatever follows, neither changes; a session that is direct attempts no more dials. *)
Theorem handover_is_final r start base max ops now ops' t :
  let c := coord_run (OConfirm now) (foldl (flip coord_run) (with_backoff r start base max) ops) in
  let c' := foldl (flip coord_run) c ops' in
  path c' = Direct ∧ upgraded_at c' = upgraded_at c ∧ time_to_upgrade c' = time_to_upgrade c ∧
  should_attempt c' t = false.
Proof.
  intros c c'.
  assert (path c = Direct) as P.
  { unfold c; cbn. unfold confirm_upgraded. by case_bool_decide. }
  assert (path c' = Direct ∧ upgraded_at c' = upgraded_at c ∧ started_at c' = started_at c) as (P' & U & S).
  { unfold c'. clear c'. clearbody c. revert c P. induction ops' as [|op ops' IH]; intros c P; [done|]. cbn.
    assert (path (coord_run op c) = Direct ∧ upgraded_at (coord_run op c) = upgraded_at c ∧
            started_at (coord_run op c) = started_at c) as (P1 & U1 & S1).
    { destruct op; cbn; [done|]. unfold confirm_upgraded. by rewrite bool_decide_eq_true_2. }
    destruct (IH _ P1) as (? & ? & ?). split_and!; [done|congruence|congruence]. }
  split_and!; [done|done| |].
  - unfold time_to_upgrade. by rewrite U, S.
  - unfold should_attempt. rewrite P'. by rewrite andb_false_r.
Qed.

(** ** The byte meter *)

(** src/crates/common/src/upgrade.rs:208-211 [PathMeter] *)
Record PathMeter := { relay_bytes : N; direct_bytes : N }.

(** src/crates/common/src/upgrade.rs:215-217 [PathMeter::new] *)
Definition new_meter : PathMeter := {| relay_bytes := 0; direct_bytes := 0 |}.

(** src/crates/common/src/upgrade.rs:220-225 [PathMeter::record] *)
Definition record (p : Path) (n : N) (m : PathMeter) : PathMeter :=
  match p with
  | Relay => {| relay_bytes := saturating_add64 (relay_bytes m) n; direct_bytes := direct_bytes m |}
  | Direct => {| relay_bytes := relay_bytes m; direct_bytes := saturating_add64 (direct_bytes m) n |}
  end.

(** src/crates/common/src/upgrade.rs:238-240 [PathMeter::total_bytes] *)
Definition total_bytes (m : PathMeter) : N := saturating_add64 (relay_bytes m) (direct_bytes m).

(** ** Framing *)

(** src/crates/common/src/noise.rs:182-187 [frame] *)
Definition frame (msg : bytes) : bytes := u16_be (blen msg mod 2 ^ 16) ++ msg.

(** src/crates/common/src/noise.rs:191-200 [take_frame] *)
Definition take_frame (buf : bytes) : option (bytes * nat) :=
  if (length buf <? 2)%nat then None
  else let n := N.to_nat (be_val (take 2 buf)) in
       if (length buf <? 2 + n)%nat then None else Some (take n (drop 2 buf), (2 + n)%nat).

(** src/crates/common/src/noise.rs:207-217 [read_frame_into]: [None] is the end of the stream inside
    or before a frame. *)
Definition read_frame (stream : bytes) : option (bytes * bytes) :=
  if (length stream <? 2)%nat then None
  else let n := N.to_nat (be_val (take 2 stream)) in
       let rest := drop 2 stream in
       if (length rest <? n)%nat then None else Some (take n rest, drop n rest).

(** src/crates/common/src/a2a.rs:407-407 [MAX_MESSAGE_BYTES] *)
Definition MAX_MESSAGE_BYTES : N := 65535.

(** src/crates/common/src/a2a.rs:417-445 [write_message]: what is written, or the refusal. *)
Definition write_message (msg : bytes) : option bytes :=
  if MAX_MESSAGE_BYTES <? blen msg then None else Some (frame msg).

Lemma frame_head msg : length (u16_be (blen msg mod 2 ^ 16)) = 2%nat.
Proof. apply length_be_bytes. Qed.

(** frames read back: a message that the guarded writer lets through is read back whole,
    whatever follows it on the stream, by the reader of streams and by the splitter of buffers;
    a message that is too long is refused before a byte is written. *)
Theorem framing_exact msg rest :
  match write_message msg with
  | Some w => blen msg <= MAX_MESSAGE_BYTES ∧ read_frame (w ++ rest) = Some (msg, rest) ∧
              take_frame (w ++ rest) = Some (msg, length w)
  | None => MAX_MESSAGE_BYTES < blen msg
  end.
Proof.
  unfold write_message. destruct (N.ltb_spec MAX_MESSAGE_BYTES (blen msg)) as [L|L]; [done|]. split; [done|].
  assert (be_val (u16_be (blen msg mod 2 ^ 16)) = blen msg) as Ev.
  { unfold u16_be. rewrite be_val_be_bytes. unfold MAX_MESSAGE_BYTES in L.
    rewrite (N.mod_small (blen msg)) by lia. apply N.mod_small. cbn. lia. }
  unfold frame. rewrite <- app_assoc. pose proof (frame_head msg) as H2.
  assert (take 2 (u16_be (blen msg mod 2 ^ 16) ++ msg ++ rest) = u16_be (blen msg mod 2 ^ 16)) as Et
    by (rewrite <- H2; apply take_app_length).
  assert (drop 2 (u16_be (blen msg mod 2 ^ 16) ++ msg ++ rest) = msg ++ rest) as Ed
    by (rewrite <- H2; apply drop_app_length).
  assert (N.to_nat (blen msg) = length msg) as En by (unfold blen; lia).
  unfold read_frame, take_frame. rewrite Et, Ed, Ev, En, !length_app, H2.
  rewrite !(proj2 (Nat.ltb_ge _ _)) by lia. rewrite take_app_length, drop_app_length. done.
Qed.

(** ** The negotiation *)

(** src/crates/common/src/upgrade.rs:313-324 [offered_endpoint_is_safe] *)
Definition offered_endpoint_is_safe (endpoint : bytes) : bool :=
  match SockAddr.parse endpoint with Some a => Reach.Address.is_global_unicast a | None => false end.

(** src/crates/common/src/upgrade.rs:392-401 [drive_initiator_upgrade]: nothing, or an offer. *)
Definition initiator_opens (c : UpgradeCoordinator) (now : N) (discovered : option bytes)
    : option bytes * UpgradeCoordinator :=
  if negb (should_attempt c now) then (None, c)
  else match discovered with
       | None => (None, record_attempt_failed now c)
       | Some e => (Some e, c)
       end.

(** src/crates/common/src/upgrade.rs:412-421 [drive_initiator_upgrade]: what it does with the reply. *)
Definition initiator_hears (c : UpgradeCoordinator) (now : N) (reply : option bytes) : bool * UpgradeCoordinator :=
  match reply ≫= decode with
  | Some Ready => (true, confirm_upgraded now c)
  | _ => (false, record_attempt_failed now c)
  end.

(** src/crates/common/src/upgrade.rs:266-308 [initiator_negotiate_upgrade]: the reply is what the
    stream gives after the offer was written. The first part is [None] when the offer is too long
    to be written; then the coordinator is left as it is. *)
Definition initiator_negotiate_upgrade (c : UpgradeCoordinator) (now : N) (discovered : option bytes)
    (stream : bytes) : option bool * bytes * UpgradeCoordinator :=
  match initiator_opens c now discovered with
  | (None, c) => (Some false, [], c)
  | (Some e, c) =>
    match write_message (encode (Offer e)) with
    | None => (None, [], c)
    | Some w => let '(ok, c) := initiator_hears c now (fst <$> read_frame stream) in (Some ok, w, c)
    end
  end.

(** src/crates/common/src/upgrade.rs:381-422 [drive_initiator_upgrade]: in-band; [alive] says that the
    pump still takes control messages. *)
Definition drive_initiator_upgrade (c : UpgradeCoordinator) (now : N) (discovered : option bytes)
    (alive : bool) (reply : option bytes) : option bytes * list bytes * UpgradeCoordinator :=
  match initiator_opens c now discovered with
  | (None, c) => (None, [], c)
  | (Some e, c) =>
    if alive then
      let '(ok, c) := initiator_hears c now reply in
      (if ok then Some e else None, [encode (Offer e)], c)
    else (None, [], record_attempt_failed now c)
  end.

(** src/crates/common/src/upgrade.rs:441-452 [drive_responder_upgrade]: the answer to one control message: the
    endpoint that was dialed, the answer, and the coordinator. *)
Definition responder_answers (c : UpgradeCoordinator) (now : N) (dial : bytes → bool) (msg : option bytes)
    : option bytes * option UpgradeMsg * UpgradeCoordinator :=
  match msg ≫= decode with
  | Some (Offer e) =>
    if offered_endpoint_is_safe e && dial e then (Some e, Some Ready, confirm_upgraded now c)
    else (None, Some Abort, c)
  | _ => (None, None, c)
  end.

(** src/crates/common/src/upgrade.rs:331-363 [responder_negotiate_upgrade] *)
Definition responder_negotiate_upgrade (c : UpgradeCoordinator) (now : N) (dial : bytes → bool) (stream : bytes)
    : bool * bytes * UpgradeCoordinator :=
  let '(e, answer, c) := responder_answers c now dial (fst <$> read_frame stream) in
  (bool_decide (is_Some e), default [] (answer ≫= λ m, write_message (encode m)), c).

(** src/crates/common/src/upgrade.rs:430-453 [drive_responder_upgrade] *)
Definition drive_responder_upgrade (c : UpgradeCoordinator) (now : N) (dial : bytes → bool) (msg : option bytes)
    : option bytes * list bytes * UpgradeCoordinator :=
  let '(e, answer, c) := responder_answers c now dial msg in (e, option_list (encode <$> answer), c).

(** both ends agree on the outcome. Let the initiator's offer reach the responder and the
    responder's answer the initiator (each as the control channel gives it: the first message, if
    any). Then both ends go direct or neither does: they name the same endpoint, which the
    initiator discovered, which is a global unicast address and port, and which the responder's
    own dial reached; an unsafe endpoint is never dialed. *)
Theorem negotiation_agrees_on_direct ci cr now now' discovered dial :
  utf8_valid (default [] discovered) = true → discovered ≠ Some [] →
  let offer := (drive_initiator_upgrade ci now discovered true None).1.2 in
  let '(er, answer, cr') := drive_responder_upgrade cr now' dial (head offer) in
  let '(ei, sent, ci') := drive_initiator_upgrade ci now discovered true (head answer) in
  sent = offer ∧ ei = er ∧
  match ei with
  | Some e => discovered = Some e ∧ should_attempt ci now = true ∧ offered_endpoint_is_safe e = true ∧ dial e = true ∧
              path ci' = Direct ∧ path cr' = Direct
  | None => path ci' = path ci ∧ cr' = cr
  end.
Proof.
  intros U Hn. unfold drive_initiator_upgrade, initiator_opens.
  destruct (should_attempt ci now) eqn:A; cbn [negb]; [|done].
  destruct discovered as [e|]; [|done]. cbn [default from_option id] in U.
  assert (decode (encode (Offer e)) = Some (Offer e)) as D.
  { cbn. destruct e as [|x e]; [done|]. unfold from_utf8. by rewrite U. }
  unfold initiator_hears at 1. cbn [mbind option_bind fst snd]. unfold drive_responder_upgrade, responder_answers.
  cbn [head mbind option_bind]. rewrite D.
  destruct (offered_endpoint_is_safe e && dial e) eqn:S; cbn.
  - apply andb_true_iff in S as [S1 S2]. split_and!; try done; unfold confirm_upgraded; by case_bool_decide.
  - done.
Qed.

(** the separate control stream decides like the in-band one: over framed streams that carry the
    other's message, the two halves report success under the same conditions. *)
Theorem framed_negotiation_agrees ci cr now now' discovered dial rest rest' :
  utf8_valid (default [] discovered) = true → discovered ≠ Some [] →
  blen (default [] discovered) < MAX_MESSAGE_BYTES →
  let offer := (initiator_negotiate_upgrade ci now discovered []).1.2 in
  let '(okr, answer, cr') := responder_negotiate_upgrade cr now' dial (offer ++ rest) in
  let '(oki, sent, ci') := initiator_negotiate_upgrade ci now discovered (answer ++ rest') in
  offer ≠ [] → sent = offer ∧ oki = Some okr ∧
  (okr = true → ∃ e, discovered = Some e ∧ offered_endpoint_is_safe e = true ∧ dial e = true ∧
     path ci' = Direct ∧ path cr' = Direct).
Proof.
  intros U Hn L. unfold initiator_negotiate_upgrade, initiator_opens.
  destruct (should_attempt ci now) eqn:A; cbn [negb].
  2: { cbn [fst snd app]. destruct (responder_negotiate_upgrade _ _ _ _) as [[? ?] ?]. done. }
  destruct discovered as [e|]; cbn [default from_option id] in *.
  2: { cbn [fst snd app]. destruct (responder_negotiate_upgrade _ _ _ _) as [[? ?] ?]. done. }
  assert (decode (encode (Offer e)) = Some (Offer e)) as D.
  { cbn. destruct e as [|x e]; [done|]. unfold from_utf8. by rewrite U. }
  pose proof (framing_exact (encode (Offer e)) rest) as F.
  destruct (write_message (encode (Offer e))) as [w|]; [|cbn in F; unfold blen in *; cbn [length] in F; lia].
  destruct F as (_ & F & _). destruct (initiator_hears ci now (fst <$> read_frame [])) as [? ?]. cbn [fst snd].
  unfold responder_negotiate_upgrade. rewrite F. cbn [fmap option_fmap option_map fst]. unfold responder_answers.
  cbn [mbind option_bind]. rewrite D. destruct (offered_endpoint_is_safe e && dial e) eqn:S.
  - apply andb_true_iff in S as [S1 S2]. cbn [mbind option_bind].
    pose proof (framing_exact (encode Ready) rest') as G. change (write_message (encode Ready)) with (Some (frame [x01])) in *.
    destruct G as (_ & G & _). cbn [default from_option id]. rewrite G. cbn. intros _. split_and!; try done.
    intros _. exists e. split_and!; try done; unfold confirm_upgraded; by case_bool_decide.
  - cbn [mbind option_bind].
    pose proof (framing_exact (encode Abort) rest') as G. change (write_message (encode Abort)) with (Some (frame [x02])) in *.
    destruct G as (_ & G & _). cbn [default from_option id]. rewrite G. cbn. done.
Qed.

End Coordinator.

(** ** The multiplexed pump *)

Module Mux.
Import Coordinator.

(** src/crates/common/src/noise.rs:359-359 [PUMP_TAG_DATA] *)
Definition PUMP_TAG_DATA : byte := x00.
(** src/crates/common/src/noise.rs:360-360 [PUMP_TAG_CUTOVER] *)
Definition PUMP_TAG_CUTOVER : byte := x01.
(** src/crates/common/src/noise.rs:367-367 [PUMP_TAG_CONTROL] *)
Definition PUMP_TAG_CONTROL : byte := x02.
(** src/crates/common/src/noise.rs:373-373 [CONTROL_IN_CHANNEL_BOUND] *)
Definition CONTROL_IN_CHANNEL_BOUND : nat := 32.
(** src/crates/common/src/noise.rs:425-425 [noise_pump_multiplexed] *)
Definition CHUNK : nat := 16 * 1024.

(** src/crates/common/src/noise.rs:380-386 [PumpControl] *)
Inductive PumpControl := Send (payload : bytes) | Cutover.

(** The receiving end of a loop's one-shot, as the loop sees it: nothing yet, the half of the direct
    session, dropped without one, or taken out by the first cutover. *)
Inductive Slot (A : Type) := Waiting | Filled (a : A) | Dropped | Taken.
Arguments Waiting {A}. Arguments Filled {A} a. Arguments Dropped {A}. Arguments Taken {A}.

(** One direction of a connection: the bytes on their way, whether the writer has shut it down, and
    whether the network has broken it. *)
Record Conn := { c_bytes : bytes; c_closed : bool; c_broken : bool }.
Definition conn0 : Conn := {| c_bytes := []; c_closed := false; c_broken := false |}.
Definition put (w : bytes) (c : Conn) : option Conn :=
  if c_broken c then None else Some {| c_bytes := c_bytes c ++ w; c_closed := c_closed c; c_broken := false |}.
Definition shutdown (c : Conn) : Conn := {| c_bytes := c_bytes c; c_closed := true; c_broken := c_broken c |}.
Definition break (keep : nat) (c : Conn) : Conn :=
  {| c_bytes := take keep (c_bytes c); c_closed := c_closed c; c_broken := true |}.

Section Pump.
(** A session's sending and receiving halves, and their two operations: [write_message] into a
    buffer with so much room, and [read_message]. *)
Context {TX RX : Type} (seal : TX → bytes → nat → option (bytes * TX)) (open : RX → bytes → option (bytes * RX)).

(** src/crates/common/src/noise.rs:255-261 [seal_frame] *)
Definition seal_frame (ts : TX) (plaintext : bytes) (ct : nat) : option (bytes * TX) :=
  match seal ts plaintext (ct - 2) with
  | Some (c, ts) => Some (frame c, ts)
  | None => None
  end.

(** src/crates/common/src/noise.rs:473-479 [noise_pump_multiplexed]: the sending loop of one pump. [o_taken] and [o_log] record the application bytes it has read and
    the frames it has put on a connection. *)
Record Out := {
  o_relay : TX; o_direct : option TX; o_slot : Slot TX; control_open : bool; queue : list PumpControl;
  driver : bool; o_end : option bool; o_taken : bytes; o_log : list bytes;
}.

(** src/crates/common/src/noise.rs:536-540 [noise_pump_multiplexed]: the receiving loop of the other pump. [i_cut] says that it waits for its half of the direct
    session, with the marker read; [plain] is what it has written to its application, and [app_ok]
    records that the application has taken all of it. *)
Record In := {
  i_relay : RX; i_direct : option RX; i_slot : Slot RX; i_cut : bool; i_end : option bool;
  plain : bytes; control_in : list bytes; control_rx : bool; i_log : list bytes; app_ok : bool;
}.

Record Flow := { out : Out; relay : Conn; direct : Conn; inb : In }.

Definition start (rs : TX) (rr : RX) : Flow := {|
  out := {| o_relay := rs; o_direct := None; o_slot := Waiting; control_open := true; queue := [];
            driver := true; o_end := None; o_taken := []; o_log := [] |};
  relay := conn0; direct := conn0;
  inb := {| i_relay := rr; i_direct := None; i_slot := Waiting; i_cut := false; i_end := None;
            plain := []; control_in := []; control_rx := true; i_log := []; app_ok := true |} |}.

(** *** Sending *)

Definition o_fail (o : Out) : Out :=
  {| o_relay := o_relay o; o_direct := o_direct o; o_slot := o_slot o; control_open := control_open o;
     queue := queue o; driver := driver o; o_end := Some false; o_taken := o_taken o; o_log := o_log o |}.
Definition o_sealed (rs : TX) (ds : option TX) (msg : bytes) (o : Out) : Out :=
  {| o_relay := rs; o_direct := ds; o_slot := o_slot o; control_open := control_open o;
     queue := queue o; driver := driver o; o_end := o_end o; o_taken := o_taken o; o_log := o_log o ++ [msg] |}.

(** src/crates/common/src/noise.rs:475-475 [noise_pump_multiplexed]: the room for a frame. *)
Definition CT_ROOM : nat := 2 + 1 + CHUNK + 256.

(** src/crates/common/src/noise.rs:500-510 [noise_pump_multiplexed]: one tagged frame, on the direct connection
    once there is one; the application's bytes (521-529) go the same way. *)
Definition send_tagged (tag : byte) (payload : bytes) (o : Out) (rl dr : Conn) : Out * Conn * Conn :=
  let msg := tag :: payload in
  match o_direct o with
  | Some dts =>
    match seal_frame dts msg CT_ROOM with
    | Some (ct, dts) =>
      match put ct dr with Some dr => (o_sealed (o_relay o) (Some dts) msg o, rl, dr) | None => (o_fail o, rl, dr) end
    | None => (o_fail o, rl, dr)
    end
  | None =>
    match seal_frame (o_relay o) msg CT_ROOM with
    | Some (ct, rts) =>
      match put ct rl with Some rl => (o_sealed rts None msg o, rl, dr) | None => (o_fail o, rl, dr) end
    | None => (o_fail o, rl, dr)
    end
  end.

Definition o_pop (o : Out) : Out :=
  {| o_relay := o_relay o; o_direct := o_direct o; o_slot := o_slot o; control_open := control_open o;
     queue := tail (queue o); driver := driver o; o_end := o_end o; o_taken := o_taken o; o_log := o_log o |}.
Definition o_take (o : Out) : Out :=
  {| o_relay := o_relay o; o_direct := o_direct o; o_slot := Taken; control_open := control_open o;
     queue := queue o; driver := driver o; o_end := o_end o; o_taken := o_taken o; o_log := o_log o |}.
Definition o_control_closed (o : Out) : Out :=
  {| o_relay := o_relay o; o_direct := o_direct o; o_slot := o_slot o; control_open := false;
     queue := queue o; driver := driver o; o_end := o_end o; o_taken := o_taken o; o_log := o_log o |}.
Definition o_read (n : bytes) (o : Out) : Out :=
  {| o_relay := o_relay o; o_direct := o_direct o; o_slot := o_slot o; control_open := control_open o;
     queue := queue o; driver := driver o; o_end := o_end o; o_taken := o_taken o ++ n; o_log := o_log o |}.
Definition o_done (o : Out) : Out :=
  {| o_relay := o_relay o; o_direct := o_direct o; o_slot := o_slot o; control_open := control_open o;
     queue := queue o; driver := driver o; o_end := Some true; o_taken := o_taken o; o_log := o_log o |}.

(** src/crates/common/src/noise.rs:483-511 [noise_pump_multiplexed]: the branch of the control channel;
    [None] while it is pending. A cutover that waits for its half stays at the head of the queue: no
    other branch runs before it is done. *)
Definition outbound_control (o : Out) (rl dr : Conn) : option (Out * Conn * Conn) :=
  if negb (control_open o) then None
  else match queue o with
  | [] => if driver o then None else Some (o_control_closed o, rl, dr)
  | Cutover :: _ =>
    match o_slot o with
    | Waiting => None
    | Taken => Some (o_pop o, rl, dr)
    | Dropped => Some (o_take (o_pop o), rl, dr)
    | Filled entry =>
      let o := o_take (o_pop o) in
      match seal_frame (o_relay o) [PUMP_TAG_CUTOVER] CT_ROOM with
      | Some (ct, rts) =>
        match put ct rl with
        | Some rl => Some (o_sealed rts (Some entry) [PUMP_TAG_CUTOVER] o, rl, dr)
        | None => Some (o_fail o, rl, dr)
        end
      | None => Some (o_fail o, rl, dr)
      end
    end
  | Send payload :: _ => Some (send_tagged PUMP_TAG_CONTROL payload (o_pop o) rl dr)
  end.

(** src/crates/common/src/noise.rs:512-531 [noise_pump_multiplexed]: the branch of the application's
    bytes; the selection is biased, so it runs only while the control channel is pending or closed. *)
Definition outbound_plain (chunk : option bytes) (o : Out) (rl dr : Conn) : option (Out * Conn * Conn) :=
  if control_open o && (negb (driver o) || negb (bool_decide (queue o = []))) then None
  else match chunk with
  | None => Some (o_fail o, rl, dr)
  | Some n =>
    if (CHUNK <? length n)%nat then None
    else if bool_decide (n = []) then
      Some (o_done o, shutdown rl, match o_direct o with Some _ => shutdown dr | None => dr end)
    else Some (send_tagged PUMP_TAG_DATA n (o_read n o) rl dr)
  end.

(** *** Receiving *)

Definition i_finish (ok : bool) (i : In) : In :=
  {| i_relay := i_relay i; i_direct := i_direct i; i_slot := i_slot i; i_cut := i_cut i; i_end := Some ok;
     plain := plain i; control_in := control_in i; control_rx := control_rx i; i_log := i_log i; app_ok := app_ok i |}.
Definition i_opened (rr : RX) (dr : option RX) (msg : bytes) (i : In) : In :=
  {| i_relay := rr; i_direct := dr; i_slot := i_slot i; i_cut := i_cut i; i_end := i_end i;
     plain := plain i; control_in := control_in i; control_rx := control_rx i; i_log := i_log i ++ [msg]; app_ok := app_ok i |}.
Definition i_wait (i : In) : In :=
  {| i_relay := i_relay i; i_direct := i_direct i; i_slot := i_slot i; i_cut := true; i_end := i_end i;
     plain := plain i; control_in := control_in i; control_rx := control_rx i; i_log := i_log i; app_ok := app_ok i |}.
Definition i_switch (r : RX) (i : In) : In :=
  {| i_relay := i_relay i; i_direct := Some r; i_slot := Taken; i_cut := false; i_end := i_end i;
     plain := plain i; control_in := control_in i; control_rx := control_rx i; i_log := i_log i; app_ok := app_ok i |}.
Definition i_plain (b : bytes) (i : In) : In :=
  {| i_relay := i_relay i; i_direct := i_direct i; i_slot := i_slot i; i_cut := i_cut i; i_end := i_end i;
     plain := plain i ++ b; control_in := control_in i; control_rx := control_rx i; i_log := i_log i; app_ok := app_ok i |}.
(** src/crates/common/src/noise.rs:591-599 [noise_pump_multiplexed]: [try_send] on the bounded channel; the message
    is dropped when it is full or its receiver is gone. *)
Definition i_control (b : bytes) (i : In) : In :=
  {| i_relay := i_relay i; i_direct := i_direct i; i_slot := i_slot i; i_cut := i_cut i; i_end := i_end i;
     plain := plain i;
     control_in := if control_rx i && (length (control_in i) <? CONTROL_IN_CHANNEL_BOUND)%nat
                   then control_in i ++ [b] else control_in i;
     control_rx := control_rx i; i_log := i_log i; app_ok := app_ok i |}.

(** src/crates/common/src/noise.rs:599-602 [noise_pump_multiplexed]: [write_all] and [flush] towards the
    application. [Some k] is a write that fails after [k] bytes, or a flush that fails after all of
    them: the loop ends with the error. *)
Definition i_deliver (w : option nat) (b : bytes) (i : In) : In :=
  match w with
  | None => i_plain b i
  | Some k =>
    {| i_relay := i_relay i; i_direct := i_direct i; i_slot := i_slot i; i_cut := i_cut i; i_end := Some false;
       plain := plain i ++ take k b; control_in := control_in i; control_rx := control_rx i;
       i_log := i_log i; app_ok := false |}
  end.

(** src/crates/common/src/noise.rs:564-604 [noise_pump_multiplexed]: what an opened frame does. *)
Definition dispatch (w : option nat) (pt : bytes) (i : In) : In :=
  match pt with
  | [] => i
  | tag :: rest =>
    if bool_decide (tag = PUMP_TAG_CUTOVER) then
      match i_slot i with Taken => i | _ => i_wait i end
    else if bool_decide (tag = PUMP_TAG_CONTROL) then i_control rest i
    else i_deliver w rest i
  end.

(** src/crates/common/src/noise.rs:541-606 [noise_pump_multiplexed]: one turn of the receiving loop; [None]
    while it waits for a frame or for its half of the direct session. [w] is how the application
    takes what the turn writes to it. *)
Definition inbound (w : option nat) (i : In) (rl dr : Conn) : option (In * Conn * Conn) :=
  if i_cut i then
    match i_slot i with
    | Waiting => None
    | Filled entry => Some (i_switch entry i, rl, dr)
    | Dropped | Taken => Some (i_finish false i, rl, dr)
    end
  else
    let c := match i_direct i with Some _ => dr | None => rl end in
    match read_frame (c_bytes c) with
    | None => if c_closed c || c_broken c then Some (i_finish true i, rl, dr) else None
    | Some (fr, rest) =>
      let c := {| c_bytes := rest; c_closed := c_closed c; c_broken := c_broken c |} in
      match i_direct i with
      | Some dts =>
        match open dts fr with
        | Some (pt, dts) => Some (dispatch w pt (i_opened (i_relay i) (Some dts) pt i), rl, c)
        | None => Some (i_finish false i, rl, c)
        end
      | None =>
        match open (i_relay i) fr with
        | Some (pt, rts) => Some (dispatch w pt (i_opened rts None pt i), c, dr)
        | None => Some (i_finish false i, c, dr)
        end
      end
    end.

(** *** One direction of a session *)

Definition o_install (s : option TX) (o : Out) : Out :=
  {| o_relay := o_relay o; o_direct := o_direct o;
     o_slot := match s with Some ts => Filled ts | None => Dropped end; control_open := control_open o;
     queue := queue o; driver := driver o; o_end := o_end o; o_taken := o_taken o; o_log := o_log o |}.
Definition i_install (r : option RX) (i : In) : In :=
  {| i_relay := i_relay i; i_direct := i_direct i;
     i_slot := match r with Some ts => Filled ts | None => Dropped end; i_cut := i_cut i; i_end := i_end i;
     plain := plain i; control_in := control_in i; control_rx := control_rx i; i_log := i_log i; app_ok := app_ok i |}.

(** src/crates/common/src/noise.rs:443-449 [noise_pump_multiplexed]: the installers of the two pumps hand
    their halves of the direct session on, or drop them when the session never comes. *)
Definition install_out (s : option TX) (o : Out) : option Out :=
  match o_slot o with Waiting => Some (o_install s o) | _ => None end.
(** src/crates/common/src/noise.rs:443-449 [noise_pump_multiplexed]: the same at the receiver. *)
Definition install_in (r : option RX) (i : In) : option In :=
  match i_slot i with Waiting => Some (i_install r i) | _ => None end.

Definition o_driven (c : option PumpControl) (o : Out) : Out :=
  {| o_relay := o_relay o; o_direct := o_direct o; o_slot := o_slot o; control_open := control_open o;
     queue := queue o ++ option_list c; driver := match c with Some _ => driver o | None => false end;
     o_end := o_end o; o_taken := o_taken o; o_log := o_log o |}.
Definition i_driver (alive : bool) (i : In) : In :=
  {| i_relay := i_relay i; i_direct := i_direct i; i_slot := i_slot i; i_cut := i_cut i; i_end := i_end i;
     plain := plain i; control_in := tail (control_in i); control_rx := alive; i_log := i_log i; app_ok := app_ok i |}.

(** What can happen: the sending driver asks for something or goes away, a loop takes a turn, an
    installer acts, the receiving driver takes a message or goes away, the network breaks a connection
    and loses what is on its way beyond some byte. *)
Inductive Ev :=
  | EDriver (c : option PumpControl)
  | EControl
  | EPlain (chunk : option bytes)
  | EInbound (w : option nat)
  | EInstallOut (ok : bool)
  | EInstallIn (ok : bool)
  | ETake (alive : bool)
  | EBreakRelay (keep : nat)
  | EBreakDirect (keep : nat).

Context (ds : TX) (dr : RX).

Definition on_out (f : Flow) (r : option (Out * Conn * Conn)) : option Flow :=
  '(o, rl, d) ← r; Some {| out := o; relay := rl; direct := d; inb := inb f |}.
Definition on_in (f : Flow) (r : option (In * Conn * Conn)) : option Flow :=
  '(i, rl, d) ← r; Some {| out := out f; relay := rl; direct := d; inb := i |}.
Definition with_out (f : Flow) (o : Out) : Flow := {| out := o; relay := relay f; direct := direct f; inb := inb f |}.
Definition with_in (f : Flow) (i : In) : Flow := {| out := out f; relay := relay f; direct := direct f; inb := i |}.

(** src/crates/common/src/noise.rs:407-612 [noise_pump_multiplexed]: one step of one direction; a loop that has
    ended takes no further turn. *)
Definition step (e : Ev) (f : Flow) : option Flow :=
  match e with
  | EDriver c => if driver (out f) then Some (with_out f (o_driven c (out f))) else None
  | EControl =>
    if bool_decide (o_end (out f) = None) then on_out f (outbound_control (out f) (relay f) (direct f)) else None
  | EPlain chunk =>
    if bool_decide (o_end (out f) = None) then on_out f (outbound_plain chunk (out f) (relay f) (direct f)) else None
  | EInbound w =>
    if bool_decide (i_end (inb f) = None) then on_in f (inbound w (inb f) (relay f) (direct f)) else None
  | EInstallOut ok => with_out f <$> install_out (if ok then Some ds else None) (out f)
  | EInstallIn ok => with_in f <$> install_in (if ok then Some dr else None) (inb f)
  | ETake alive => Some (with_in f (i_driver alive (inb f)))
  | EBreakRelay keep => Some {| out := out f; relay := break keep (relay f); direct := direct f; inb := inb f |}
  | EBreakDirect keep => Some {| out := out f; relay := relay f; direct := break keep (direct f); inb := inb f |}
  end.

Fixpoint run (es : list Ev) (f : Flow) : option Flow :=
  match es with [] => Some f | e :: es => step e f ≫= run es end.

(** *** Frames in flight *)

(** The documented behaviour of a session: what one half seals fits the room and a frame's length,
    and the other half opens it, in the order of sealing. *)
Context (paired : TX → RX → Prop).
Definition session_law : Prop := ∀ s r m room c s',
  paired s r → seal s m room = Some (c, s') →
  blen c <= MAX_MESSAGE_BYTES ∧ ∃ r', open r c = Some (m, r') ∧ paired s' r'.

Inductive flight : RX → list bytes → TX → bytes → Prop :=
  | flight_nil s r : paired s r → flight r [] s []
  | flight_cons r c m r' ms s bs :
      open r c = Some (m, r') → blen c <= MAX_MESSAGE_BYTES → flight r' ms s bs → flight r (m :: ms) s (frame c ++ bs).

Lemma flight_snoc r ms s bs m room w s' :
  session_law → flight r ms s bs → seal_frame s m room = Some (w, s') → flight r (ms ++ [m]) s' (bs ++ w).
Proof.
  intros Law F. induction F as [s r Hp|r c m0 r' ms s bs Ho Hl F IH]; intros E.
  - unfold seal_frame in E. destruct (seal s m (room - 2)) as [[c s1]|] eqn:Es; simplify_eq.
    destruct (Law _ _ _ _ _ _ Hp Es) as (Hl & r' & Ho & Hp'). cbn. rewrite <- (app_nil_r (frame c)).
    by econstructor; [..|constructor].
  - cbn. rewrite <- app_assoc. econstructor; [done..|]. by apply IH.
Qed.

Lemma read_frame_frame c rest : blen c <= MAX_MESSAGE_BYTES → read_frame (frame c ++ rest) = Some (c, rest).
Proof.
  intros L. pose proof (framing_exact c rest) as F. unfold write_message in F.
  rewrite (proj2 (N.ltb_ge _ _) L) in F. tauto.
Qed.

(** More bytes do not change a frame that is complete. *)
Lemma read_frame_app b t fr rest : read_frame b = Some (fr, rest) → read_frame (b ++ t) = Some (fr, rest ++ t).
Proof.
  unfold read_frame. destruct (Nat.ltb_spec (length b) 2) as [|L]; [done|].
  rewrite length_app, (proj2 (Nat.ltb_ge (length b + _) 2)) by lia.
  rewrite (drop_app_le b), (take_app_le b) by lia. rewrite length_app.
  destruct (Nat.ltb_spec (length (drop 2 b)) (N.to_nat (be_val (take 2 b)))) as [|L2]; [done|].
  rewrite (proj2 (Nat.ltb_ge (_ + _) _)) by lia. intros [= <- <-].
  by rewrite take_app_le, drop_app_le by lia.
Qed.

(** A connection carries the frames in flight, cut short when the network has broken it. *)
Definition linked (c : Conn) (r : RX) (ms : list bytes) (s : TX) : Prop :=
  ∃ full, flight r ms s full ∧ c_bytes c `prefix_of` full ∧ (c_broken c = false → c_bytes c = full).

Lemma linked_put c r ms s m room w s' c' :
  session_law → linked c r ms s → seal_frame s m room = Some (w, s') → put w c = Some c' → linked c' r (ms ++ [m]) s'.
Proof.
  intros Law (full & F & _ & E) Hs Hp. unfold put in Hp. destruct (c_broken c); simplify_eq.
  exists (full ++ w). cbn. rewrite (E eq_refl). split; [by eapply flight_snoc|done].
Qed.

Lemma linked_read c r ms s fr rest :
  linked c r ms s → read_frame (c_bytes c) = Some (fr, rest) →
  ∃ m ms' r', ms = m :: ms' ∧ open r fr = Some (m, r') ∧
    linked {| c_bytes := rest; c_closed := c_closed c; c_broken := c_broken c |} r' ms' s.
Proof.
  intros (full & F & [t Ht] & E) R. pose proof (read_frame_app _ t _ _ R) as R'. rewrite <- Ht in R'.
  destruct F as [s r Hp|r c0 m r' ms s bs Ho Hl F]; [done|].
  rewrite read_frame_frame in R' by done. simplify_eq. exists m, ms, r'. split_and!; [done..|].
  exists (rest ++ t). split; [done|]. cbn. split; [by exists t|]. intros B. specialize (E B).
  rewrite <- E in Ht. rewrite <- (app_nil_r (c_bytes c)) in Ht at 1. apply app_inv_head in Ht as <-.
  by rewrite app_nil_r.
Qed.

Lemma linked_break k c r ms s : linked c r ms s → linked (break k c) r ms s.
Proof.
  intros (full & F & P & _). exists full. split_and!; [done| |done]. cbn.
  etrans; [|exact P]. rewrite <- (take_drop k (c_bytes c)) at 2. by apply prefix_app_r.
Qed.

Lemma linked_end c r ms s : linked c r ms s → c_broken c = false → read_frame (c_bytes c) = None → ms = [].
Proof.
  intros (full & F & _ & E) B R. rewrite (E B) in R. destruct F; [done|]. by rewrite read_frame_frame in R.
Qed.

Lemma linked_shutdown c r ms s : linked c r ms s → linked (shutdown c) r ms s.
Proof. done. Qed.

(** *** The invariant *)

(** The application bytes that frames carry. *)
Definition data_of (m : bytes) : bytes :=
  match m with tag :: p => if bool_decide (tag = PUMP_TAG_DATA) then p else [] | [] => [] end.
Definition data (ms : list bytes) : bytes := concat (map data_of ms).
Arguments data : simpl never.

(** A frame of data or of control. *)
Definition ordinary (m : bytes) : Prop :=
  match m with [] => False | tag :: _ => tag = PUMP_TAG_DATA ∨ tag = PUMP_TAG_CONTROL end.

(** How far the cutover is: no frame has gone direct; the marker is the last frame on the relay; it
    has been read; the receiver has switched. *)
Inductive phase : Flow → list bytes → list bytes → Prop :=
  | on_relay f rf :
      o_direct (out f) = None → i_direct (inb f) = None → i_cut (inb f) = false → i_slot (inb f) ≠ Taken →
      Forall ordinary rf → phase f rf []
  | cutting f rf df s :
      o_direct (out f) = Some s → i_direct (inb f) = None → i_cut (inb f) = false → i_slot (inb f) ≠ Taken →
      Forall ordinary rf → Forall ordinary df → phase f (rf ++ [[PUMP_TAG_CUTOVER]]) df
  | waiting f df s :
      o_direct (out f) = Some s → i_direct (inb f) = None → i_cut (inb f) = true → i_slot (inb f) ≠ Taken →
      Forall ordinary df → phase f [] df
  | on_direct f df s r :
      o_direct (out f) = Some s → i_direct (inb f) = Some r → i_cut (inb f) = false → i_slot (inb f) = Taken →
      Forall ordinary df → phase f [] df.

Record inv (f : Flow) (rf df : list bytes) : Prop := {
  iv_relay : linked (relay f) (i_relay (inb f)) rf (o_relay (out f));
  iv_direct : linked (direct f) (default dr (i_direct (inb f))) df (default ds (o_direct (out f)));
  iv_phase : phase f rf df;
  iv_log : o_log (out f) = i_log (inb f) ++ rf ++ df;
  iv_oslot : ∀ s, o_slot (out f) = Filled s → s = ds ∧ o_direct (out f) = None;
  iv_odirect : o_direct (out f) ≠ None → o_slot (out f) = Taken;
  iv_islot : ∀ r, i_slot (inb f) = Filled r → r = dr;
  iv_plain : plain (inb f) `prefix_of` data (i_log (inb f));
  iv_plain_ok : app_ok (inb f) = true → plain (inb f) = data (i_log (inb f));
  iv_taken : data (o_log (out f)) `prefix_of` o_taken (out f);
  iv_taken_ok : o_end (out f) ≠ Some false → data (o_log (out f)) = o_taken (out f);
  iv_closed : c_closed (relay f) = true ∨ c_closed (direct f) = true → o_end (out f) = Some true;
  iv_end : o_end (out f) = Some true → c_closed (relay f) = true ∧ (o_direct (out f) ≠ None → c_closed (direct f) = true);
  iv_control : (length (control_in (inb f)) ≤ CONTROL_IN_CHANNEL_BOUND)%nat;
  iv_done : i_end (inb f) = Some true → c_broken (relay f) = false → c_broken (direct f) = false →
            rf = [] ∧ df = [] ∧ o_end (out f) = Some true;
  iv_why : i_end (inb f) = Some (negb (i_cut (inb f)) && app_ok (inb f)) ∧
             (i_cut (inb f) = true → i_slot (inb f) = Dropped) ∨
           i_end (inb f) = None ∧ app_ok (inb f) = true;
}.

Definition ok (f : Flow) : Prop := ∃ rf df, inv f rf df.

Lemma ok_start rs rr : paired rs rr → paired ds dr → ok (start rs rr).
Proof.
  intros P D. exists [], []. constructor; cbn; try done.
  - exists []. split; [by constructor|done].
  - exists []. split; [by constructor|done].
  - by constructor.
  - lia.
  - unfold CONTROL_IN_CHANNEL_BOUND. lia.
  - by right.
Qed.

Lemma data_app ms ms' : data (ms ++ ms') = data ms ++ data ms'.
Proof. unfold data. by rewrite map_app, concat_app. Qed.

Lemma data_snoc ms tag p :
  data (ms ++ [tag :: p]) = data ms ++ (if bool_decide (tag = PUMP_TAG_DATA) then p else []).
Proof. rewrite data_app. unfold data at 2. cbn [map concat data_of]. by rewrite app_nil_r. Qed.

(** **** Steps of the sender *)

Lemma put_same w c c' : put w c = Some c' → c_closed c' = c_closed c ∧ c_broken c' = c_broken c.
Proof. unfold put. destruct (c_broken c) eqn:E; [done|]. by intros [= <-]. Qed.

(** A sender that fails keeps what is in flight. *)
Lemma ok_o_fail f rf df o rl d :
  inv f rf df → o_end (out f) = None → o_relay o = o_relay (out f) → o_direct o = o_direct (out f) →
  o_log o = o_log (out f) → (∀ s, o_slot o = Filled s → s = ds ∧ o_direct o = None) → (o_direct o ≠ None → o_slot o = Taken) →
  o_taken (out f) `prefix_of` o_taken o → rl = relay f → d = direct f →
  ok {| out := o_fail o; relay := rl; direct := d; inb := inb f |}.
Proof.
  intros [] E R D L S1 S2 T -> ->. exists rf, df. constructor; cbn; rewrite ?R, ?D, ?L; try done.
  - destruct iv_phase0; [econstructor|econstructor|econstructor 3|econstructor 4]; cbn; rewrite ?D; done.
  - by rewrite D in S1.
  - by rewrite D in S2.
  - by etrans.
  - intros [K|K]; exfalso; rewrite iv_closed0 in E; auto; done.
  - intros K B1 B2. destruct (iv_done0 K B1 B2) as (_ & _ & K'). congruence.
Qed.

(** Sending one ordinary frame, after bytes [n] have been read for it. *)
Lemma ok_send_tagged f rf df o tag p n :
  session_law → inv f rf df → o_end (out f) = None →
  ordinary (tag :: p) → n = (if bool_decide (tag = PUMP_TAG_DATA) then p else []) →
  o_relay o = o_relay (out f) → o_direct o = o_direct (out f) → o_slot o = o_slot (out f) → o_end o = None →
  o_log o = o_log (out f) → o_taken o = o_taken (out f) ++ n →
  ok (let '(o', rl, d) := send_tagged tag p o (relay f) (direct f) in
      {| out := o'; relay := rl; direct := d; inb := inb f |}).
Proof.
  intros Law I E Ho -> R D S Eo L T.
  assert (∀ o1 rl d, o1 = o → rl = relay f → d = direct f →
    ok {| out := o_fail o1; relay := rl; direct := d; inb := inb f |}) as Fail.
  { intros o1 rl d -> -> ->. eapply (ok_o_fail f rf df); try done.
    - rewrite S, D. apply I.
    - rewrite S, D. apply I.
    - rewrite T. by apply prefix_app_r. }
  assert (data (o_log o ++ [tag :: p]) = o_taken o) as Ed.
  { rewrite data_snoc, L, T, (iv_taken_ok _ _ _ I) by (by rewrite E). done. }
  unfold send_tagged. rewrite D. destruct (o_direct (out f)) as [s|] eqn:Ds.
  - destruct (seal_frame s (tag :: p) CT_ROOM) as [[w s']|] eqn:Es; [|by apply Fail].
    destruct (put w (direct f)) as [d'|] eqn:Ep; [|by apply Fail].
    destruct (put_same _ _ _ Ep) as [C1 C2]. destruct I.
    exists rf, (df ++ [tag :: p]). constructor; cbn; rewrite ?R, ?S, ?C1, ?C2, ?Eo; try done.
    + rewrite Ds in iv_direct0. by eapply linked_put.
    + destruct iv_phase0; simplify_eq; [eapply cutting|eapply waiting|eapply on_direct]; cbn; eauto;
        apply Forall_app; eauto.
    + rewrite L, iv_log0. by rewrite <- !app_assoc.
    + intros s0 K. by destruct (iv_oslot0 s0 K); congruence.
    + intros _. apply iv_odirect0. by rewrite Ds.
    + by rewrite Ed.
    + intros [K|K]; rewrite iv_closed0 in E; auto; done.
    + intros K B1 B2. destruct (iv_done0 K B1 B2) as (_ & _ & K'). congruence.
  - destruct (seal_frame (o_relay o) (tag :: p) CT_ROOM) as [[w s']|] eqn:Es; [|by apply Fail].
    destruct (put w (relay f)) as [d'|] eqn:Ep; [|by apply Fail].
    destruct (put_same _ _ _ Ep) as [C1 C2]. rewrite R in Es. destruct I.
    destruct iv_phase0 as [f rf D0 I0 C0 S0 Ha|f rf df s D0|f df s D0|f df s r D0]; [|congruence..].
    exists (rf ++ [tag :: p]), []. constructor; cbn; rewrite ?S, ?C1, ?C2, ?Eo; try done.
    + by eapply linked_put.
    + by rewrite Ds in iv_direct0.
    + eapply on_relay; cbn; try done. apply Forall_app; eauto.
    + rewrite L, iv_log0. by rewrite !app_nil_r, <- app_assoc.
    + intros s0 K. split; [|done]. by destruct (iv_oslot0 s0 K).
    + by rewrite Ed.
    + intros [K|K]; rewrite iv_closed0 in E; auto; done.
    + intros K B1 B2. destruct (iv_done0 K B1 B2) as (_ & _ & K'). congruence.
Qed.

(** A sender that changes none of what the invariant speaks of. *)
Lemma ok_o_same f rf df o :
  inv f rf df → o_relay o = o_relay (out f) → o_direct o = o_direct (out f) →
  (o_slot o = o_slot (out f) ∨ o_slot o = Taken) → o_end o = o_end (out f) →
  o_taken o = o_taken (out f) → o_log o = o_log (out f) → ok (with_out f o).
Proof.
  intros [] R D S E T L. exists rf, df. constructor; cbn; rewrite ?R, ?D, ?E, ?T, ?L; try done.
  - destruct iv_phase0; [eapply on_relay|eapply cutting|eapply waiting|eapply on_direct]; cbn; rewrite ?D; done.
  - intros s K. destruct S as [S|S]; [|congruence]. rewrite S in K. eauto.
  - intros K. destruct S as [-> | ->]; eauto.
Qed.

Lemma ok_cutover f rf df s q :
  session_law → inv f rf df → o_end (out f) = None → o_slot (out f) = Filled s →
  queue (out f) = Cutover :: q →
  ∀ r, outbound_control (out f) (relay f) (direct f) = r → from_option ok True (on_out f r).
Proof.
  intros Law I E S Q r <-. unfold outbound_control. destruct (control_open (out f)); [|done]. rewrite Q, S. cbn [negb].
  pose proof (iv_oslot _ _ _ I _ S) as [-> Dn].
  assert (ok {| out := o_fail (o_take (o_pop (out f))); relay := relay f; direct := direct f; inb := inb f |}) as Fail.
  { eapply (ok_o_fail f rf df); try done; cbn; rewrite ?Dn; done. }
  destruct (seal_frame _ _ _) as [[w s']|] eqn:Es; [|done]. cbn [o_take o_pop o_relay] in Es.
  destruct (put w (relay f)) as [d'|] eqn:Ep; [|done].
  destruct (put_same _ _ _ Ep) as [C1 C2]. destruct I.
  destruct iv_phase0 as [f rf D0 I0 C0 S0 Ha|f rf df s D0|f df s D0|f df s r D0]; [|congruence..].
  cbn. exists (rf ++ [[PUMP_TAG_CUTOVER]]), []. constructor; cbn; rewrite ?C1, ?C2; try done.
  - by eapply linked_put.
  - by rewrite Dn in iv_direct0.
  - by eapply cutting.
  - rewrite iv_log0. by rewrite !app_nil_r, <- app_assoc.
  - rewrite data_snoc. cbn. by rewrite app_nil_r.
  - rewrite data_snoc. cbn. by rewrite app_nil_r.
  - intros K. congruence.
  - intros K B1 B2. destruct (iv_done0 K B1 B2) as (_ & _ & K'). congruence.
Qed.

Lemma ok_control f :
  session_law → ok f → o_end (out f) = None →
  from_option ok True (on_out f (outbound_control (out f) (relay f) (direct f))).
Proof.
  intros Law [rf [df I]] E. destruct (queue (out f)) as [|[p|] q] eqn:Q.
  - unfold outbound_control. destruct (control_open (out f)); [|done]. rewrite Q. cbn [negb].
    destruct (driver (out f)); [done|]. cbn. apply (ok_o_same f rf df); cbn; auto.
  - unfold outbound_control. destruct (control_open (out f)); [|done]. rewrite Q. cbn [negb].
    pose proof (ok_send_tagged f rf df (o_pop (out f)) PUMP_TAG_CONTROL p [] Law I E) as K.
    destruct (send_tagged _ _ _ _ _) as [[o' rl] d]. cbn in *. apply K; try done; [by right|by rewrite app_nil_r].
  - destruct (o_slot (out f)) as [|s| |] eqn:S.
    + unfold outbound_control. destruct (control_open (out f)); [|done]. by rewrite Q, S.
    + by eapply ok_cutover.
    + unfold outbound_control. destruct (control_open (out f)); [|done]. rewrite Q, S.
      cbn. apply (ok_o_same f rf df); cbn; auto.
    + unfold outbound_control. destruct (control_open (out f)); [|done]. rewrite Q, S.
      cbn. apply (ok_o_same f rf df); cbn; auto.
Qed.

Lemma ok_plain f chunk :
  session_law → ok f → o_end (out f) = None →
  from_option ok True (on_out f (outbound_plain chunk (out f) (relay f) (direct f))).
Proof.
  intros Law [rf [df I]] E. unfold outbound_plain. destruct (control_open (out f) && _); [done|].
  destruct chunk as [n|].
  2: { cbn. eapply (ok_o_fail f rf df); try done; apply I. }
  destruct (CHUNK <? length n)%nat; [done|]. case_bool_decide as N.
  - cbn. destruct I. exists rf, df.
    constructor; cbn; try done.
    + destruct (o_direct (out f)); [by apply linked_shutdown|done].
    + destruct iv_phase0; [eapply on_relay|eapply cutting|eapply waiting|eapply on_direct]; cbn; done.
    + intros _. apply iv_taken_ok0. by rewrite E.
    + intros _. split; [done|]. by destruct (o_direct (out f)).
    + intros K B1 B2. assert (c_broken (direct f) = false) as B3 by (by destruct (o_direct (out f))).
      destruct (iv_done0 K B1 B3) as (_ & _ & K'). congruence.
  - pose proof (ok_send_tagged f rf df (o_read n (out f)) PUMP_TAG_DATA n n Law I E) as K.
    destruct (send_tagged _ _ _ _ _) as [[o' rl] d]. cbn in *. apply K; try done. by left.
Qed.

(** **** Steps of the receiver *)

(** A receiver that changes none of what the invariant speaks of. *)
Lemma ok_i_same f rf df i :
  inv f rf df → i_relay i = i_relay (inb f) → i_direct i = i_direct (inb f) → i_slot i = i_slot (inb f) →
  i_cut i = i_cut (inb f) → i_end i = i_end (inb f) → plain i = plain (inb f) → i_log i = i_log (inb f) →
  app_ok i = app_ok (inb f) → (length (control_in i) ≤ CONTROL_IN_CHANNEL_BOUND)%nat → inv (with_in f i) rf df.
Proof.
  intros [] R D S C E P L A Q. constructor; cbn; rewrite ?R, ?D, ?S, ?C, ?E, ?P, ?L, ?A; try done.
  destruct iv_phase0; [eapply on_relay|eapply cutting|eapply waiting|eapply on_direct]; cbn; rewrite ?D, ?S, ?C; done.
Qed.

(** The receiver ends: with an error, or at the end of its connection. *)
Lemma ok_i_finish f rf df b :
  inv f rf df → app_ok (inb f) = true → (b = true → c_broken (relay f) = false → c_broken (direct f) = false →
                 rf = [] ∧ df = [] ∧ o_end (out f) = Some true) →
  b = negb (i_cut (inb f)) → (i_cut (inb f) = true → i_slot (inb f) = Dropped) →
  ok (with_in f (i_finish b (inb f))).
Proof.
  intros [] A F Eb Sl. exists rf, df. constructor; cbn; try done.
  - destruct iv_phase0; [eapply on_relay|eapply cutting|eapply waiting|eapply on_direct]; cbn; done.
  - intros [= ->]. by apply F.
  - left. by rewrite Eb, A, andb_true_r.
Qed.

Lemma control_bound p i :
  (length (control_in i) ≤ CONTROL_IN_CHANNEL_BOUND)%nat →
  (length (control_in (i_control p i)) ≤ CONTROL_IN_CHANNEL_BOUND)%nat.
Proof.
  intros L. unfold i_control; cbn [control_in]. destruct (control_rx i); cbn [andb]; [|done].
  destruct (Nat.ltb_spec (length (control_in i)) CONTROL_IN_CHANNEL_BOUND) as [L'|]; [|done].
  rewrite length_app. cbn. lia.
Qed.

(** An opened ordinary frame: only the bytes written and the control queue change. *)
Lemma dispatch_ordinary w m i :
  ordinary m →
  dispatch w m i = i_deliver w (data_of m) i ∨
  ∃ p, dispatch w m i = i_control p i ∧ data_of m = [].
Proof.
  destruct m as [|t p]; [done|]. intros [->| ->]; cbn.
  - by left.
  - right. by exists p.
Qed.

(** Reading one ordinary frame: the invariant of the rest, whichever connection it came from. *)
Lemma ok_i_read w f f0 rf df m rf' df' rr d :
  inv f rf df → i_end (inb f) = None → i_cut (inb f) = false → ordinary m → rf ++ df = m :: rf' ++ df' →
  out f0 = out f → inb f0 = i_opened rr d m (inb f) →
  c_closed (relay f0) = c_closed (relay f) → c_closed (direct f0) = c_closed (direct f) →
  linked (relay f0) rr rf' (o_relay (out f)) →
  linked (direct f0) (default dr d) df' (default ds (o_direct (out f))) → phase f0 rf' df' →
  ok (with_in f0 (dispatch w m (inb f0))).
Proof.
  intros [] E Ec Ho Hm Ho0 Hi C1 C2 L1 L2 P. exists rf', df'.
  assert (app_ok (inb f) = true) as Ok by (destruct iv_why0 as [[K _]|[_ K]]; [congruence|done]).
  assert (data (i_log (inb f) ++ [m]) = plain (inb f) ++ data_of m) as Ed.
  { rewrite data_app, iv_plain_ok0 by done. unfold data at 2. cbn. by rewrite app_nil_r. }
  assert (phase (with_in f0 (dispatch w m (inb f0))) rf' df') as P'.
  { destruct (dispatch_ordinary w m (inb f0) Ho) as [->|(p & -> & _)]; [destruct w|];
      destruct P; [eapply on_relay|eapply cutting|eapply waiting|eapply on_direct|
                   eapply on_relay|eapply cutting|eapply waiting|eapply on_direct|
                   eapply on_relay|eapply cutting|eapply waiting|eapply on_direct]; done. }
  destruct (dispatch_ordinary w m (inb f0) Ho) as [Ei|(p & Ei & Hd)]; [destruct w as [k|]|]; rewrite Ei in *;
    (constructor; cbn [with_in inb out relay direct]; try exact P'; rewrite ?Ho0, ?Hi;
     cbn -[CONTROL_IN_CHANNEL_BOUND]; rewrite ?C1, ?C2, ?Ed, ?Hd, ?app_nil_r; try done).
  - rewrite iv_log0, <- app_assoc, Hm. done.
  - apply prefix_app. rewrite <- (take_drop k (data_of m)) at 2. by apply prefix_app_r.
  - left. rewrite andb_false_r. split; [done|congruence].
  - rewrite iv_log0, <- app_assoc, Hm. done.
  - by rewrite E.
  - rewrite iv_log0, <- app_assoc, Hm. done.
  - by apply (control_bound p (inb f)).
  - by rewrite E.
Qed.

(** The marker is read: the receiver waits for its half. *)
Lemma ok_i_cutover w f c df r' s :
  inv f [[PUMP_TAG_CUTOVER]] df → i_end (inb f) = None → o_direct (out f) = Some s → i_direct (inb f) = None →
  i_slot (inb f) ≠ Taken → Forall ordinary df → c_closed c = c_closed (relay f) → linked c r' [] (o_relay (out f)) →
  ok {| out := out f; relay := c; direct := direct f;
        inb := dispatch w [PUMP_TAG_CUTOVER] (i_opened r' None [PUMP_TAG_CUTOVER] (inb f)) |}.
Proof.
  intros [] E Ds Dn Sl Hb Cc L.
  assert (dispatch w [PUMP_TAG_CUTOVER] (i_opened r' None [PUMP_TAG_CUTOVER] (inb f)) =
          i_wait (i_opened r' None [PUMP_TAG_CUTOVER] (inb f))) as ->.
  { cbn. by destruct (i_slot (inb f)). }
  exists [], df. constructor; cbn -[CONTROL_IN_CHANNEL_BOUND]; rewrite ?Cc; try done.
  - by rewrite Dn in iv_direct0.
  - by eapply waiting.
  - rewrite iv_log0. by rewrite <- app_assoc.
  - rewrite data_snoc. cbn. by rewrite app_nil_r.
  - rewrite data_snoc. cbn. by rewrite app_nil_r.
  - by rewrite E.
  - right. destruct iv_why0 as [[K _]|K]; [congruence|exact K].
Qed.

(** A loop that still runs has an application that took everything. *)
Lemma running_ok f rf df : inv f rf df → i_end (inb f) = None → app_ok (inb f) = true.
Proof. intros [] E. destruct iv_why0 as [[K _]|[_ K]]; [congruence|done]. Qed.

(** A turn that reads from the relay. *)
Lemma ok_inbound_relay w f rf df r :
  inv f rf df → i_end (inb f) = None → i_direct (inb f) = None → i_cut (inb f) = false →
  on_in f (inbound w (inb f) (relay f) (direct f)) = Some r → ok r.
Proof.
  intros I E D C. unfold inbound. rewrite C, D.
  destruct (read_frame (c_bytes (relay f))) as [[fr rest]|] eqn:R.
  - destruct (linked_read _ _ _ _ _ _ (iv_relay _ _ _ I) R) as (m & rf' & r' & -> & Ho & L). rewrite Ho.
    intros [= <-]. pose proof (iv_direct _ _ _ I) as Ld. rewrite D in Ld.
    set (c := {| c_bytes := rest; c_closed := c_closed (relay f); c_broken := c_broken (relay f) |}) in *.
    set (f0 := {| out := out f; relay := c; direct := direct f; inb := i_opened r' None m (inb f) |}).
    pose proof (iv_phase _ _ _ I) as Ph; inversion Ph as [? rf0 Do Di Dc Ds Ha|? rf0 ? s Do Di Dc Ds Ha Hb| |]; simplify_eq.
    + inversion Ha; simplify_eq.
      by apply (ok_i_read w f f0 (m :: rf') [] m rf' [] r' None); try done; apply on_relay.
    + destruct rf0 as [|m0 rf0]; cbn in *; simplify_eq; [by eapply ok_i_cutover|].
      inversion Ha; simplify_eq.
      by apply (ok_i_read w f f0 (m :: rf0 ++ [[PUMP_TAG_CUTOVER]]) df m (rf0 ++ [[PUMP_TAG_CUTOVER]]) df r' None);
        try done; eapply cutting.
  - destruct (c_closed (relay f) || c_broken (relay f)) eqn:B; [|done]. intros [= <-].
    apply (ok_i_finish f rf df true I (running_ok _ _ _ I E)); rewrite ?C; [|done..]. intros _ B1 B2. rewrite B1, orb_false_r in B.
    pose proof (linked_end _ _ _ _ (iv_relay _ _ _ I) B1 R) as ->.
    pose proof (iv_phase _ _ _ I) as Ph; inversion Ph as [|? rf0| |]; simplify_eq; try congruence; try (by destruct rf0).
    split_and!; [done..|]. apply (iv_closed _ _ _ I). by left.
Qed.

(** A turn that reads from the direct connection. *)
Lemma ok_inbound_direct w f rf df d r :
  inv f rf df → i_end (inb f) = None → i_direct (inb f) = Some d → i_cut (inb f) = false →
  on_in f (inbound w (inb f) (relay f) (direct f)) = Some r → ok r.
Proof.
  intros I E D C. unfold inbound. rewrite C, D.
  pose proof (iv_phase _ _ _ I) as Ph; inversion Ph as [|? rf0| |? ? s r0 Do Di Dc Ds Ha]; simplify_eq.
  pose proof (iv_direct _ _ _ I) as Ld. rewrite D in Ld.
  destruct (read_frame (c_bytes (direct f))) as [[fr rest]|] eqn:R.
  - destruct (linked_read _ _ _ _ _ _ Ld R) as (m & df' & r' & -> & Ho & L). cbn in Ho. rewrite Ho.
    intros [= <-]. inversion Ha; simplify_eq.
    set (c := {| c_bytes := rest; c_closed := c_closed (direct f); c_broken := c_broken (direct f) |}) in *.
    set (f0 := {| out := out f; relay := relay f; direct := c; inb := i_opened (i_relay (inb f)) (Some r') m (inb f) |}).
    by apply (ok_i_read w f f0 [] (m :: df') m [] df' (i_relay (inb f)) (Some r')); try done;
      [apply I|eapply on_direct].
  - destruct (c_closed (direct f) || c_broken (direct f)) eqn:B; [|done]. intros [= <-].
    apply (ok_i_finish f [] df true I (running_ok _ _ _ I E)); rewrite ?C; [|done..]. intros _ B1 B2. rewrite B2, orb_false_r in B.
    pose proof (linked_end _ _ _ _ Ld B2 R) as ->.
    split_and!; [done..|]. apply (iv_closed _ _ _ I). by right.
Qed.

(** The receiver installs its half and switches, or fails when there is none (#482). *)
Lemma ok_inbound_waits w f rf df r :
  inv f rf df → i_end (inb f) = None → i_cut (inb f) = true →
  on_in f (inbound w (inb f) (relay f) (direct f)) = Some r → ok r.
Proof.
  intros I E C. unfold inbound. rewrite C.
  destruct (i_slot (inb f)) as [|e| |] eqn:S; [done| |intros [= <-]; by apply (ok_i_finish f rf df false I (running_ok _ _ _ I E)); rewrite ?C|].
  2: { pose proof (iv_phase _ _ _ I) as Ph; inversion Ph; congruence. }
  intros [= <-]. pose proof (iv_islot _ _ _ I _ S) as ->.
  pose proof (iv_phase _ _ _ I) as Ph; inversion Ph as [|? rf0|? ? s Do Di Dc Ds Ha|]; simplify_eq; [congruence..| |congruence].
  destruct I. exists [], df. constructor; cbn -[CONTROL_IN_CHANNEL_BOUND]; try done.
  - by rewrite Di in iv_direct0.
  - by eapply on_direct.
  - right. destruct iv_why0 as [[K _]|K]; [congruence|exact K].
Qed.

Lemma ok_step e f f' : session_law → ok f → step e f = Some f' → ok f'.
Proof.
  intros Law O. destruct e as [c| |chunk|w|b|b|alive|k|k]; cbn [step].
  - destruct (driver (out f)); [|done]. intros [= <-]. destruct O as (rf & df & I). apply (ok_o_same f rf df); cbn; auto.
  - case_bool_decide as E; [|done]. intros K. pose proof (ok_control f Law O E) as P. by rewrite K in P.
  - case_bool_decide as E; [|done]. intros K. pose proof (ok_plain f chunk Law O E) as P. by rewrite K in P.
  - case_bool_decide as E; [|done]. destruct O as (rf & df & I).
    destruct (i_cut (inb f)) eqn:C; [by apply (ok_inbound_waits w f rf df)|].
    destruct (i_direct (inb f)) as [d|] eqn:D; [by apply (ok_inbound_direct w f rf df d)|by apply (ok_inbound_relay w f rf df)].
  - unfold install_out. destruct (o_slot (out f)) eqn:S; try done. intros [= <-]. destruct O as (rf & df & []).
    exists rf, df. constructor; cbn; try done.
    + destruct iv_phase0; [eapply on_relay|eapply cutting|eapply waiting|eapply on_direct]; cbn; done.
    + assert (o_direct (out f) = None) as Dn by (destruct (o_direct (out f)); [by rewrite iv_odirect0 in S|done]).
      intros s. destruct b; by intros [= <-].
    + intros K. by rewrite iv_odirect0 in S.
  - unfold install_in. destruct (i_slot (inb f)) eqn:S; try done. intros [= <-]. destruct O as (rf & df & []).
    exists rf, df. constructor; cbn -[CONTROL_IN_CHANNEL_BOUND]; try done.
    + destruct iv_phase0; [eapply on_relay|eapply cutting|eapply waiting|congruence]; cbn; try done; by destruct b.
    + intros s. destruct b; by intros [= <-].
    + destruct iv_why0 as [[K1 K2]|K]; [left; split; [done|]; intros Kc; specialize (K2 Kc); congruence|by right].
  - intros [= <-]. destruct O as (rf & df & I). exists rf, df. apply ok_i_same; try done. cbn.
    pose proof (iv_control _ _ _ I). destruct (control_in (inb f)); cbn in *; lia.
  - intros [= <-]. destruct O as (rf & df & []). exists rf, df. constructor; cbn; try done.
    + by apply linked_break.
    + destruct iv_phase0; [eapply on_relay|eapply cutting|eapply waiting|eapply on_direct]; cbn; done.
  - intros [= <-]. destruct O as (rf & df & []). exists rf, df. constructor; cbn; try done.
    + by apply linked_break.
    + destruct iv_phase0; [eapply on_relay|eapply cutting|eapply waiting|eapply on_direct]; cbn; done.
Qed.

Lemma ok_run es f f' : session_law → ok f → run es f = Some f' → ok f'.
Proof.
  intros Law. revert f. induction es as [|e es IH]; intros f O; cbn; [by intros [= <-]|].
  destruct (step e f) as [f1|] eqn:E; [|done]. cbn. apply IH. by eapply ok_step.
Qed.

(** *** What the pump promises *)

(** The application has taken all that was written to it, as long as no turn of the run had a
    write refused. *)
Lemma step_app_ok e f f' :
  (∀ k, e ≠ EInbound (Some k)) → step e f = Some f' → app_ok (inb f) = true → app_ok (inb f') = true.
Proof.
  intros N. destruct e as [c| |chunk|w|b|b|alive|k|k]; cbn [step]; try (by intros [= <-]).
  - destruct (driver (out f)); [|done]. by intros [= <-].
  - case_bool_decide; [|done]. destruct (outbound_control _ _ _) as [[[o rl] d]|]; [|done]. by intros [= <-].
  - case_bool_decide; [|done]. destruct (outbound_plain _ _ _ _) as [[[o rl] d]|]; [|done]. by intros [= <-].
  - case_bool_decide; [|done]. destruct w as [k|]; [by destruct (N k)|].
    assert (∀ m i, app_ok (dispatch None m i) = app_ok i) as Hd.
    { intros [|x m] i; [done|]. cbn. case_bool_decide; [by destruct (i_slot i)|by case_bool_decide]. }
    unfold on_in, inbound. destruct (i_cut (inb f)); [destruct (i_slot (inb f)); [done|..]; by intros [= <-]|].
    destruct (read_frame _) as [[fr rest]|]; [|destruct (_ || _); [|done]; by intros [= <-]].
    destruct (i_direct (inb f)); (destruct (open _ fr) as [[pt r']|]; intros [= <-]; cbn; by rewrite ?Hd).
  - unfold install_out. destruct (o_slot (out f)); try done. by intros [= <-].
  - unfold install_in. destruct (i_slot (inb f)); try done. by intros [= <-].
Qed.

Lemma run_app_ok es f f' :
  Forall (λ e, ∀ k, e ≠ EInbound (Some k)) es → run es f = Some f' → app_ok (inb f) = true → app_ok (inb f') = true.
Proof.
  intros Hf. revert f. induction Hf as [|e es He Hf IH]; intros f; cbn; [by intros [= <-]|].
  destruct (step e f) as [f1|] eqn:E; [|done]. cbn. intros R A. apply (IH f1 R). by eapply step_app_ok.
Qed.

(** C16 the cutover is seamless. Whatever the driver asks for and whenever the halves of the direct
    session arrive, the loops take their turns, or the network breaks a connection: the receiver opens
    the frames in the order in which they were sealed, none twice and none skipped, across the switch
    of connections; what it writes to its application is what those frames carry, a prefix of what the
    sender's application gave; and when it ends at the end of an unbroken connection, the sender has
    ended there too and the application has everything. The control queue never exceeds its bound.
    An application that fails in the middle of a write, or at its flush, has a prefix of what the
    frames carry, and the loop has ended with the error. *)
Theorem cutover_seamless rs rr es f :
  session_law → paired rs rr → paired ds dr → run es (start rs rr) = Some f →
  i_log (inb f) `prefix_of` o_log (out f) ∧
  (if app_ok (inb f) then plain (inb f) = data (i_log (inb f))
   else plain (inb f) `prefix_of` data (i_log (inb f)) ∧ i_end (inb f) = Some false) ∧
  (Forall (λ e, ∀ k, e ≠ EInbound (Some k)) es → app_ok (inb f) = true) ∧
  plain (inb f) `prefix_of` o_taken (out f) ∧
  (length (control_in (inb f)) ≤ CONTROL_IN_CHANNEL_BOUND)%nat ∧
  (i_end (inb f) = Some true → c_broken (relay f) = false → c_broken (direct f) = false →
   o_end (out f) = Some true ∧ plain (inb f) = o_taken (out f)).
Proof.
  intros Law P1 P2 R. destruct (ok_run es _ f Law (ok_start rs rr P1 P2) R) as (rf & df & []).
  assert (i_log (inb f) `prefix_of` o_log (out f)) as Hp by (rewrite iv_log0; by apply prefix_app_r).
  split_and!; [done| | | |done|].
  - destruct (app_ok (inb f)) eqn:A; [by apply iv_plain_ok0|]. split; [done|].
    destruct iv_why0 as [[-> _]|[_ K]]; [by rewrite andb_false_r|done].
  - intros Hf. by eapply run_app_ok.
  - etrans; [exact iv_plain0|]. etrans; [|exact iv_taken0]. rewrite iv_log0, data_app. by apply prefix_app_r.
  - intros E B1 B2. destruct (iv_done0 E B1 B2) as (-> & -> & Eo). split; [done|].
    assert (app_ok (inb f) = true) as A.
    { destruct iv_why0 as [[K _]|[K _]]; [|congruence]. rewrite K in E. injection E as E.
      by apply andb_true_iff in E as [_ ?]. }
    rewrite <- iv_taken_ok0 by congruence. by rewrite iv_plain_ok0, iv_log0, !app_nil_r.
Qed.

(** What is left for the receiver to do. *)
Definition left_over (f : Flow) : nat :=
  length (c_bytes (relay f)) + length (c_bytes (direct f)) + (if i_cut (inb f) then 1 else 0).

Lemma read_frame_shrinks b fr rest : read_frame b = Some (fr, rest) → (length rest + 2 ≤ length b)%nat.
Proof.
  unfold read_frame. destruct (Nat.ltb_spec (length b) 2) as [|L]; [done|].
  destruct (Nat.ltb_spec (length (drop 2 b)) (N.to_nat (be_val (take 2 b)))) as [|L2]; [done|].
  intros [= <- <-]. rewrite !length_drop in *. lia.
Qed.

Lemma dispatch_cut m i : ((if i_cut (dispatch None m i) then 1 else 0) ≤ 1)%nat.
Proof. destruct (i_cut (dispatch None m i)); lia. Qed.

Lemma dispatch_same m i :
  i_slot (dispatch None m i) = i_slot i ∧ i_end (dispatch None m i) = i_end i.
Proof.
  destruct m as [|t p]; [done|]. cbn. case_bool_decide; [by destruct (i_slot i) eqn:E|]. by case_bool_decide.
Qed.

(** The sender has ended, the network is whole and the receiver's half is settled. *)
Definition settled (f : Flow) : Prop :=
  o_end (out f) = Some true ∧ c_broken (relay f) = false ∧ c_broken (direct f) = false ∧
  i_slot (inb f) ≠ Waiting.

Lemma inbound_progress f :
  ok f → settled f → i_end (inb f) = None →
  ∃ f1, step (EInbound None) f = Some f1 ∧ out f1 = out f ∧ settled f1 ∧
        (i_slot (inb f1) = Dropped ↔ i_slot (inb f) = Dropped) ∧
        (i_end (inb f1) ≠ None ∨ (left_over f1 < left_over f)%nat).
Proof.
  intros (rf & df & I) (So & B1 & B2 & Sl) E. cbn [step]. rewrite bool_decide_eq_true_2 by done.
  unfold on_in, inbound. destruct (iv_end _ _ _ I So) as [Cr Cd]. pose proof (iv_phase _ _ _ I) as Ph.
  unfold settled, left_over. destruct (i_cut (inb f)) eqn:C.
  { destruct (i_slot (inb f)) as [|e| |] eqn:S; [done|..]; cbn; eexists; (split; [done|]); cbn;
      rewrite ?S; split_and!; try done; [right; lia|by left..]. }
  destruct (i_direct (inb f)) as [d|] eqn:D.
  - inversion Ph as [|? rf0| |? ? s r0 Do Di Dc Ds Ha]; simplify_eq.
    pose proof (iv_direct _ _ _ I) as Ld. rewrite D in Ld.
    destruct (read_frame (c_bytes (direct f))) as [[fr rest]|] eqn:R.
    + destruct (linked_read _ _ _ _ _ _ Ld R) as (m & df' & r' & -> & Ho & L). cbn in Ho. rewrite Ho. cbn.
      eexists. split; [done|]. cbn.
      destruct (dispatch_same m (i_opened (i_relay (inb f)) (Some r') m (inb f))) as [K1 K2].
      rewrite K1, K2. cbn. pose proof (dispatch_cut m (i_opened (i_relay (inb f)) (Some r') m (inb f))).
      pose proof (read_frame_shrinks _ _ _ R). split_and!; try done. right. lia.
    + rewrite Cd by congruence. cbn. eexists. split; [done|]. cbn. split_and!; try done. by left.
  - destruct (read_frame (c_bytes (relay f))) as [[fr rest]|] eqn:R.
    + destruct (linked_read _ _ _ _ _ _ (iv_relay _ _ _ I) R) as (m & df' & r' & -> & Ho & L). rewrite Ho. cbn.
      eexists. split; [done|]. cbn.
      destruct (dispatch_same m (i_opened r' None m (inb f))) as [K1 K2].
      rewrite K1, K2. cbn. pose proof (dispatch_cut m (i_opened r' None m (inb f))).
      pose proof (read_frame_shrinks _ _ _ R). split_and!; try done. right. lia.
    + rewrite Cr. cbn. eexists. split; [done|]. cbn. split_and!; try done. by left.
Qed.

Lemma drain n f :
  session_law → ok f → settled f → i_end (inb f) = None → (left_over f < n)%nat →
  ∃ es f', run es f = Some f' ∧ ok f' ∧ Forall (λ e, e = EInbound None) es ∧ out f' = out f ∧ settled f' ∧
           (i_slot (inb f') = Dropped ↔ i_slot (inb f) = Dropped) ∧ i_end (inb f') ≠ None.
Proof.
  intros Law. revert f. induction n as [|n IH]; intros f O S E L; [lia|].
  destruct (inbound_progress f O S E) as (f1 & St & Eo & S1 & Sl & P).
  pose proof (ok_step _ _ _ Law O St) as O1.
  destruct (i_end (inb f1)) as [b|] eqn:E1.
  - exists [EInbound None], f1. cbn [run]. rewrite St. cbn. split_and!; try done; [by constructor|by rewrite E1].
  - destruct P as [P|P]; [done|].
    destruct (IH f1 O1 S1 E1 ltac:(lia)) as (es & f' & R & O' & Hf & Eo' & S' & Sl' & En).
    exists (EInbound None :: es), f'. cbn [run]. rewrite St. cbn. split_and!; try done; [by constructor|congruence|].
    by rewrite Sl'.
Qed.

(** C17 nothing stays behind. From every reachable state in which the sender's application has ended and
    its half of the pump with it, the network is whole, the receiver's half of the direct session has
    come or has been given up, and the receiving loop still runs, that loop ends by its own turns, while
    its application takes what they write to it. It ends well with the application holding everything,
    unless the sender cut over and the receiver's own dial failed: then, and only then, it ends with the
    error instead of waiting on the relay. (A loop whose application fails ends with that error at once:
    [cutover_seamless].) *)
Theorem pump_drains rs rr es f :
  session_law → paired rs rr → paired ds dr → run es (start rs rr) = Some f →
  settled f → i_end (inb f) = None →
  ∃ es' f', run es' f = Some f' ∧ Forall (λ e, e = EInbound None) es' ∧
    if bool_decide (is_Some (o_direct (out f))) && match i_slot (inb f) with Dropped => true | _ => false end
    then i_end (inb f') = Some false
    else i_end (inb f') = Some true ∧ plain (inb f') = o_taken (out f).
Proof.
  intros Law P1 P2 R S E. pose proof (ok_run es _ f Law (ok_start rs rr P1 P2) R) as O.
  destruct (drain (Datatypes.S (left_over f)) f Law O S E ltac:(lia)) as (es' & f' & R' & O' & Hf & Eo & S' & Sl & En).
  exists es', f'. split_and!; [done..|]. destruct O' as (rf & df & I), S' as (So & B1 & B2 & _).
  assert (app_ok (inb f') = true) as A.
  { destruct O as (rf0 & df0 & I0). eapply (run_app_ok es' f f'); [|done|by eapply running_ok].
    eapply list.Forall_impl; [exact Hf|]. by intros e ->. }
  destruct (iv_why _ _ _ I) as [[Ew Es]|[? _]]; [|done].
  assert (i_cut (inb f') = bool_decide (is_Some (o_direct (out f))) &&
          match i_slot (inb f) with Dropped => true | _ => false end) as <-.
  { rewrite <- Eo. destruct (i_cut (inb f')) eqn:C.
    - rewrite (proj1 Sl) by auto. pose proof (iv_phase _ _ _ I) as Ph. rewrite andb_true_r.
      inversion Ph; simplify_eq; try congruence. symmetry. apply bool_decide_eq_true. by eexists.
    - destruct (iv_done _ _ _ I ltac:(by rewrite Ew, A) B1 B2) as (-> & -> & _).
      pose proof (iv_phase _ _ _ I) as Ph. inversion Ph as [|? rf0| |? ? s r0 Do Di Dc Ds]; simplify_eq; try congruence.
      + by rewrite bool_decide_eq_false_2; [|intros [? ?]; congruence].
      + by destruct rf0.
      + destruct (i_slot (inb f)); rewrite ?andb_false_r; try done. by rewrite Ds in Sl; destruct Sl as [_ Sl]; discriminate Sl. }
  rewrite Ew, A. destruct (i_cut (inb f')) eqn:C; [done|]. split; [done|].
  destruct (iv_done _ _ _ I ltac:(by rewrite Ew, A) B1 B2) as (-> & -> & _). destruct I. rewrite <- Eo.
  rewrite <- iv_taken_ok0 by congruence. by rewrite iv_plain_ok0, iv_log0, !app_nil_r.
Qed.

End Pump.
End Mux.

(** ** The session around the pump *)

Module Orchestrated.
Import Coordinator Mux.

(** Where the coordinator of a session is: about to open, or to listen; waiting for the reply to its
    offer; probing what it was sent; establishing the direct session; parked. *)
Inductive Phase := Opening | Hearing (e : bytes) | Listening | Probing (msg : bytes) | Establishing (e : bytes) | Parked.

Section Session.
Context {TX RX : Type} (seal : TX → bytes → nat → option (bytes * TX)) (open : RX → bytes → option (bytes * RX)).
(** What [discover_direct] finds, and the time the session was given. *)
Context (discovered : option bytes) (now : N).

(** One end of a session: its two loops with the connections they write and read, the coordinator
    beside them, the one-shot between the coordinator and the installer. [issued] records what the
    coordinator has asked of the pump, [relay_wrote] and [direct_wrote] the bytes this end has put on
    the two connections. *)
Record Session := {
  s_out : Out (TX := TX); s_in : In (RX := RX); rl_out : Conn; dr_out : Conn; rl_in : Conn; dr_in : Conn;
  s_coord : UpgradeCoordinator; s_phase : Phase; s_dir : Slot (TX * RX); s_inst : bool;
  issued : list PumpControl; relay_wrote : bytes; direct_wrote : bytes;
}.

(** src/crates/common/src/upgrade.rs:582-589 [run_upgradable_session_initiator_inner]: the session after the
    handshake on the relay. *)
Definition begin (rts : TX) (rtr : RX) (c : UpgradeCoordinator) : Session := {|
  s_out := out (start rts rtr); s_in := inb (start rts rtr);
  rl_out := conn0; dr_out := conn0; rl_in := conn0; dr_in := conn0; s_coord := c;
  s_phase := match role c with Initiator => Opening | Responder => Listening end;
  s_dir := Waiting; s_inst := false; issued := []; relay_wrote := []; direct_wrote := [] |}.

(** What the coordinator does in a turn: to its own state, to the one-shot, and to the queue. *)
Definition coordinate (s : Session) (c : UpgradeCoordinator) (p : Phase) (d : Slot (TX * RX)) (l : list PumpControl) : Session := {|
  s_out := foldl (λ o x, o_driven (Some x) o) (s_out s) l; s_in := s_in s;
  rl_out := rl_out s; dr_out := dr_out s; rl_in := rl_in s; dr_in := dr_in s;
  s_coord := c; s_phase := p; s_dir := d; s_inst := s_inst s; issued := issued s ++ l;
  relay_wrote := relay_wrote s; direct_wrote := direct_wrote s |}.

(** src/crates/common/src/upgrade.rs:392-411 [drive_initiator_upgrade]: up to the wait for the reply. *)
Definition open_turn (s : Session) : option Session :=
  match s_phase s with
  | Opening =>
    match initiator_opens (s_coord s) now discovered with
    | (None, c) => Some (coordinate s c Parked Dropped [])
    | (Some e, c) => Some (coordinate s c (Hearing e) Waiting [Send (encode (Offer e))])
    end
  | _ => None
  end.

(** [inbound.recv()] takes the oldest control message, and is pending while there is none: the sender
    lives as long as the pump. *)
Definition taking (s : Session) (s' : bytes → Session) : option Session :=
  match control_in (s_in s) with
  | [] => None
  | m :: _ => let t := s' m in
    Some {| s_out := s_out t; s_in := i_driver true (s_in t); rl_out := rl_out t; dr_out := dr_out t;
            rl_in := rl_in t; dr_in := dr_in t; s_coord := s_coord t; s_phase := s_phase t; s_dir := s_dir t;
            s_inst := s_inst t; issued := issued t; relay_wrote := relay_wrote t;
            direct_wrote := direct_wrote t |}
  end.

(** src/crates/common/src/upgrade.rs:412-421 [drive_initiator_upgrade]: the wait for a message, which
    [drive_responder_upgrade] starts with. *)
Definition recv_turn (s : Session) : option Session :=
  match s_phase s with
  | Hearing e =>
    taking s (λ m, let '(ok, c) := initiator_hears (s_coord s) now (Some m) in
                   if ok then coordinate s c (Establishing e) Waiting [] else coordinate s c Parked Dropped [])
  | Listening => taking s (λ m, coordinate s (s_coord s) (Probing m) Waiting [])
  | _ => None
  end.

(** src/crates/common/src/upgrade.rs:445-452 [drive_responder_upgrade]: the probe and the answer. *)
Definition probe_turn (dial : bytes → bool) (s : Session) : option Session :=
  match s_phase s with
  | Probing m =>
    let '(e, answer, c) := responder_answers (s_coord s) now dial (Some m) in
    let l := option_list ((Send ∘ encode) <$> answer) in
    Some (match e with
          | Some e => coordinate s c (Establishing e) Waiting l
          | None => coordinate s c Parked Dropped l
          end)
  | _ => None
  end.

(** src/crates/common/src/upgrade.rs:588-604 [run_upgradable_session_initiator_inner]: the direct session is
    established, or is not; the responder's coordinator does the same. *)
Definition establish_turn (session : option (TX * RX)) (s : Session) : option Session :=
  match s_phase s with
  | Establishing e =>
    Some (match session with
          | Some ses => coordinate s (s_coord s) Parked (Filled ses) [Cutover]
          | None => coordinate s (s_coord s) Parked Dropped []
          end)
  | _ => None
  end.

(** src/crates/common/src/noise.rs:443-449 [noise_pump_multiplexed]: the installer. *)
Definition installer (s : Session) : option Session :=
  if s_inst s then None
  else match s_dir s with
  | Waiting => None
  | d =>
    let ses := match d with Filled ses => Some ses | _ => None end in
    Some {| s_out := o_install (fst <$> ses) (s_out s); s_in := i_install (snd <$> ses) (s_in s);
            rl_out := rl_out s; dr_out := dr_out s; rl_in := rl_in s; dr_in := dr_in s;
            s_coord := s_coord s; s_phase := s_phase s; s_dir := s_dir s; s_inst := true; issued := issued s;
            relay_wrote := relay_wrote s; direct_wrote := direct_wrote s |}
  end.

(** Steps of one end. The peer and the network may put any bytes on the incoming connections, close
    them, or break any connection. *)
Inductive Turn :=
  | TOpen | TRecv | TProbe (dial : bytes → bool) | TEstablish (session : option (TX * RX)) | TInstall
  | TControl | TPlain (chunk : option bytes) | TInbound (w : option nat)
  | TIncoming (rl dr : Conn) | TOutgoing (rl dr : Conn).

(** What a turn has put on a connection. *)
Definition added (c c' : Conn) : bytes := drop (length (c_bytes c)) (c_bytes c').

Definition pumped (s : Session) (r : option (Out * Conn * Conn)) : option Session :=
  '(o, rl, d) ← r;
  Some {| s_out := o; s_in := s_in s; rl_out := rl; dr_out := d; rl_in := rl_in s; dr_in := dr_in s;
          s_coord := s_coord s; s_phase := s_phase s; s_dir := s_dir s; s_inst := s_inst s; issued := issued s;
          relay_wrote := relay_wrote s ++ added (rl_out s) rl;
          direct_wrote := direct_wrote s ++ added (dr_out s) d |}.
Definition received (s : Session) (r : option (In * Conn * Conn)) : option Session :=
  '(i, rl, d) ← r;
  Some {| s_out := s_out s; s_in := i; rl_out := rl_out s; dr_out := dr_out s; rl_in := rl; dr_in := d;
          s_coord := s_coord s; s_phase := s_phase s; s_dir := s_dir s; s_inst := s_inst s; issued := issued s;
     relay_wrote := relay_wrote s; direct_wrote := direct_wrote s |}.
Definition rewired (s : Session) (ro do ri di : Conn) : Session :=
  {| s_out := s_out s; s_in := s_in s; rl_out := ro; dr_out := do; rl_in := ri; dr_in := di;
     s_coord := s_coord s; s_phase := s_phase s; s_dir := s_dir s; s_inst := s_inst s; issued := issued s;
     relay_wrote := relay_wrote s; direct_wrote := direct_wrote s |}.

(** src/crates/common/src/upgrade.rs:558-612 [run_upgradable_session_initiator_inner]: after the handshake, the
    pump and the coordinator side by side; the responder's session has the same parts. *)
Definition turn (t : Turn) (s : Session) : option Session :=
  match t with
  | TOpen => open_turn s
  | TRecv => recv_turn s
  | TProbe dial => probe_turn dial s
  | TEstablish ses => establish_turn ses s
  | TInstall => installer s
  | TControl => if bool_decide (o_end (s_out s) = None) then pumped s (outbound_control seal (s_out s) (rl_out s) (dr_out s)) else None
  | TPlain chunk => if bool_decide (o_end (s_out s) = None) then pumped s (outbound_plain seal chunk (s_out s) (rl_out s) (dr_out s)) else None
  | TInbound w => if bool_decide (i_end (s_in s) = None) then received s (inbound open w (s_in s) (rl_in s) (dr_in s)) else None
  | TIncoming rl dr => Some (rewired s (rl_out s) (dr_out s) rl dr)
  | TOutgoing rl dr => Some (rewired s rl dr (rl_in s) (dr_in s))
  end.

Fixpoint turns (ts : list Turn) (s : Session) : option Session :=
  match ts with [] => Some s | t :: ts => turn t s ≫= turns ts end.

(** src/crates/common/src/noise.rs:608-612 [noise_pump_multiplexed]: the three futures are joined, then the
    first error counts; the session returns what the pump returns. *)
Definition returned (s : Session) : option bool :=
  match o_end (s_out s), i_end (s_in s) with
  | Some o, Some i => if s_inst s then Some (o && i) else None
  | _, _ => None
  end.

(** *** What a session may do *)

(** The control frames and markers among frames. *)
Definition ctl_of (m : bytes) : list PumpControl :=
  match m with
  | [] => []
  | t :: p => if bool_decide (t = PUMP_TAG_CUTOVER) then [Cutover]
              else if bool_decide (t = PUMP_TAG_CONTROL) then [Send p] else []
  end.
Definition ctl (ms : list bytes) : list PumpControl := concat (map ctl_of ms).
Arguments ctl : simpl never.

Lemma ctl_snoc ms m : ctl (ms ++ [m]) = ctl ms ++ ctl_of m.
Proof. unfold ctl. rewrite map_app, concat_app. cbn. by rewrite app_nil_r. Qed.

(** A control message has come in. *)
Definition heard (m : bytes) (s : Session) : Prop := PUMP_TAG_CONTROL :: m ∈ i_log (s_in s).

(** Both ends have agreed on an endpoint, as one end can tell. *)
Definition agreed (r : Role) (e : bytes) (s : Session) : Prop :=
  match r with
  | Initiator => discovered = Some e ∧ ∃ m, heard m s ∧ decode m = Some Ready
  | Responder => offered_endpoint_is_safe e = true ∧ ∃ m, heard m s ∧ decode m = Some (Offer e)
  end.
Definition first_word (r : Role) (e : bytes) : PumpControl :=
  match r with Initiator => Send (encode (Offer e)) | Responder => Send (encode Ready) end.

Definition phase_inv (r : Role) (s : Session) : Prop :=
  match s_phase s with
  | Opening => r = Initiator ∧ s_dir s = Waiting ∧ issued s = []
  | Hearing e => r = Initiator ∧ s_dir s = Waiting ∧ discovered = Some e ∧ issued s = [first_word r e]
  | Listening => r = Responder ∧ s_dir s = Waiting ∧ issued s = []
  | Probing m => r = Responder ∧ s_dir s = Waiting ∧ issued s = [] ∧ heard m s
  | Establishing e => s_dir s = Waiting ∧ agreed r e s ∧ issued s = [first_word r e]
  | Parked =>
    (r = Initiator ∧ issued s = [] ∨ ∃ m, heard m s) ∧
    (s_dir s = Dropped ∧ Cutover ∉ issued s ∨
     ∃ e ses, s_dir s = Filled ses ∧ agreed r e s ∧ issued s = [first_word r e; Cutover])
  end.

Record sinv (r : Role) (s : Session) : Prop := {
  sv_phase : phase_inv r s;
  sv_inst : s_inst s = true → s_phase s = Parked;
  sv_heard : ∀ m, m ∈ control_in (s_in s) → heard m s;
  sv_driver : driver (s_out s) = true;
  sv_slot : match o_slot (s_out s) with
            | Waiting => s_inst s = false
            | Filled _ => ∃ ses, s_dir s = Filled ses
            | Dropped => s_dir s = Dropped
            | Taken => s_dir s = Dropped ∨ Cutover ∈ ctl (o_log (s_out s)) ∨ o_end (s_out s) = Some false
            end;
  sv_ctl : ctl (o_log (s_out s)) `prefix_of` issued s;
  sv_queue : o_end (s_out s) ≠ Some false → issued s = ctl (o_log (s_out s)) ++ queue (s_out s);
  sv_direct : o_direct (s_out s) ≠ None → Cutover ∈ ctl (o_log (s_out s));
}.

Lemma agreed_mono r e s s' :
  (∀ m, heard m s → heard m s') → agreed r e s → agreed r e s'.
Proof. intros H. destruct r; intros [A (m & K & D)]; split; eauto. Qed.

Lemma phase_inv_mono r s s' :
  s_phase s' = s_phase s → s_dir s' = s_dir s → issued s' = issued s → (∀ m, heard m s → heard m s') →
  phase_inv r s → phase_inv r s'.
Proof.
  intros P D I H. unfold phase_inv. rewrite P, D, I.
  destruct (s_phase s); try done; [intros (? & ? & ? & ?); auto|intros (? & ? & ?); eauto using agreed_mono|].
  intros [A B]. split; [destruct A as [|[m A]]; eauto|]. destruct B as [|(e & ses & ? & ? & ?)]; eauto 8 using agreed_mono.
Qed.

Lemma sinv_begin rts rtr c : sinv (role c) (begin rts rtr c).
Proof.
  constructor; cbn; try done.
  - unfold phase_inv, begin; cbn. by destruct (role c) eqn:E.
  - by intros m ?%elem_of_nil.
Qed.

(** **** The coordinator's turns *)

Lemma driven_fields l (o : Out (TX := TX)) :
  let o' := foldl (λ o x, o_driven (Some x) o) o l in
  o_slot o' = o_slot o ∧ o_log o' = o_log o ∧ o_end o' = o_end o ∧ o_direct o' = o_direct o ∧
  queue o' = queue o ++ l ∧ driver o' = driver o.
Proof.
  revert o. induction l as [|x l IH]; intros o; cbn; [by rewrite app_nil_r|].
  destruct (IH (o_driven (Some x) o)) as (-> & -> & -> & -> & -> & ->). cbn. by rewrite <- app_assoc.
Qed.

(** A turn that keeps the one-shot as it was, or settles it before the installer has acted. *)
Lemma sinv_coordinate r s c p d l :
  sinv r s → s_inst s = false → s_dir s = Waiting → phase_inv r (coordinate s c p d l) → sinv r (coordinate s c p d l).
Proof.
  intros [] I W P. pose proof (driven_fields l (s_out s)) as K. cbv zeta in K.
  destruct K as (K1 & K2 & K3 & K4 & K5 & K6).
  constructor; cbn; rewrite ?K1, ?K2, ?K3, ?K4, ?K5, ?K6; try done.
  - by rewrite I.
  - destruct (o_slot (s_out s)); [done|destruct sv_slot0; congruence|congruence|].
    destruct sv_slot0 as [?|?]; [congruence|by right].
  - etrans; [done|]. by apply prefix_app_r.
  - intros E. rewrite sv_queue0 by done. by rewrite app_assoc.
Qed.


Lemma sinv_inst_waiting r s : sinv r s → s_phase s ≠ Parked → s_inst s = false.
Proof. intros [] N. destruct (s_inst s); [|done]. by exfalso; apply N; auto. Qed.

Lemma sinv_taking r s k s' :
  taking s k = Some s' → (∀ m, m ∈ control_in (s_in s) → s_in (k m) = s_in s ∧ sinv r (k m)) → sinv r s'.
Proof.
  unfold taking. destruct (control_in (s_in s)) as [|m q] eqn:Q; [done|]. intros [= <-] H.
  destruct (H m (list_elem_of_here _ _)) as [Ei []]. constructor; cbn; try done.
  intros x Hx. apply sv_heard0. rewrite Ei, Q in *. by apply list_elem_of_further.
Qed.

Lemma sinv_turn_coordinator r s s' t :
  sinv r s → turn t s = Some s' →
  match t with TOpen | TRecv | TProbe _ | TEstablish _ => sinv r s' | _ => True end.
Proof.
  intros I. pose proof (sv_phase _ _ I) as P. unfold phase_inv in P. destruct t as [| |dial|ses| | | | | |]; try done; cbn [turn].
  - unfold open_turn. destruct (s_phase s) eqn:Ep; try done. destruct P as (-> & W & Is).
    assert (s_inst s = false) as Hi by (eapply sinv_inst_waiting; [done|congruence]).
    unfold initiator_opens. destruct (should_attempt (s_coord s) now); cbn [negb];
      [destruct discovered as [e|] eqn:Ed|]; intros [= <-]; apply sinv_coordinate; try done;
      unfold phase_inv; cbn; rewrite Is; try done.
    + split; [by left|]. left. split; [done|]. by intros ?%elem_of_nil.
    + split; [by left|]. left. split; [done|]. by intros ?%elem_of_nil.
  - unfold recv_turn. destruct (s_phase s) as [|e| | | |] eqn:Ep; try done.
    + destruct P as (-> & W & Di & Is). intros T. eapply sinv_taking; [exact T|]. intros m Hm.
      assert (s_inst s = false) as Hi by (eapply sinv_inst_waiting; [done|congruence]).
      pose proof (sv_heard _ _ I m Hm) as Hh. unfold initiator_hears. cbn [mbind option_bind].
      destruct (decode m) as [[| |]|] eqn:D; (split; [done|]); apply sinv_coordinate; try done;
        unfold phase_inv; cbn; rewrite Is; cbn;
        try (split; [by right; exists m|left; split; [done|by intros [?|?%elem_of_nil]%elem_of_cons]]).
      split_and!; try done. by exists m.
    + destruct P as (-> & W & Is). intros T. eapply sinv_taking; [exact T|]. intros m Hm.
      assert (s_inst s = false) as Hi by (eapply sinv_inst_waiting; [done|congruence]).
      pose proof (sv_heard _ _ I m Hm) as Hh. split; [done|]. apply sinv_coordinate; try done.
      unfold phase_inv; cbn. by rewrite Is.
  - unfold probe_turn. destruct (s_phase s) as [| | |m| |] eqn:Ep; try done. destruct P as (-> & W & Is & Hh).
    assert (s_inst s = false) as Hi by (eapply sinv_inst_waiting; [done|congruence]).
    unfold responder_answers. cbn [mbind option_bind].
    destruct (decode m) as [[e| |]|] eqn:D;
      [destruct (offered_endpoint_is_safe e && dial e) eqn:Sf|..]; intros [= <-]; apply sinv_coordinate; try done;
      unfold phase_inv; cbn; rewrite Is; cbn;
      try (split; [by right; exists m|left; split; [done|by intros ?%elem_of_nil || by intros [?|?%elem_of_nil]%elem_of_cons]]).
    apply andb_true_iff in Sf as [Sf _]. split_and!; try done. by exists m.
  - unfold establish_turn. destruct (s_phase s) as [| | | |e|] eqn:Ep; try done. destruct P as (W & A & Is).
    assert (s_inst s = false) as Hi by (eapply sinv_inst_waiting; [done|congruence]).
    assert (∃ m, heard m s) as Hm by (destruct r; destruct A as [_ (m & ? & _)]; by exists m).
    destruct ses as [ses|]; intros [= <-]; apply sinv_coordinate; try done; unfold phase_inv; cbn; rewrite Is; cbn.
    + split; [by right|]. right. by exists e, ses.
    + split; [by right|]. left. split; [done|]. intros [K|?%elem_of_nil]%elem_of_cons; [|done]. by destruct r.
Qed.

(** **** The pump's turns *)

Lemma send_tagged_cases tag p o rl dr o' rl' dr' :
  send_tagged seal tag p o rl dr = (o', rl', dr') →
  queue o' = queue o ∧ driver o' = driver o ∧ o_slot o' = o_slot o ∧ (o_direct o' ≠ None ↔ o_direct o ≠ None) ∧
  (o_log o' = o_log o ++ [tag :: p] ∧ o_end o' = o_end o ∨ o_log o' = o_log o ∧ o_end o' = Some false).
Proof.
  unfold send_tagged.
  destruct (o_direct o) as [d|] eqn:D; destruct (seal_frame _ _ _ _) as [[w s']|];
    try destruct (put w _); intros [= <- <- <-]; cbn; rewrite ?D; intuition congruence.
Qed.

(** A turn of the sending loop keeps the rest of the session. *)
Lemma sinv_pumped r s s' o rl d :
  pumped s (Some (o, rl, d)) = Some s' → sinv r s → driver o = true →
  (o_slot o = o_slot (s_out s) ∨ o_slot o = Taken) →
  (o_slot o = Taken → s_dir s = Dropped ∨ Cutover ∈ ctl (o_log o) ∨ o_end o = Some false) →
  ctl (o_log o) `prefix_of` issued s → (o_end o ≠ Some false → issued s = ctl (o_log o) ++ queue o) →
  (o_direct o ≠ None → Cutover ∈ ctl (o_log o)) →
  sinv r s'.
Proof.
  intros [= <-] [] D S T P Q C. constructor; cbn; try done.
  destruct S as [S|S]; rewrite ?S in *; [|by apply T].
  destruct (o_slot (s_out s)); try done. by apply T.
Qed.

Lemma not_first_word r e : Cutover ∉ [first_word r e].
Proof. rewrite list_elem_of_singleton. by destruct r. Qed.

Lemma cutover_issued r s :
  phase_inv r s → Cutover ∈ issued s →
  ∃ e ses, s_dir s = Filled ses ∧ agreed r e s ∧ issued s = [first_word r e; Cutover].
Proof.
  unfold phase_inv. intros P Hc.
  assert (∀ l, issued s = l → Cutover ∉ l → False) as Hn by congruence.
  destruct (s_phase s).
  - destruct P as (_ & _ & Is). by destruct (Hn _ Is ltac:(apply not_elem_of_nil)).
  - destruct P as (_ & _ & _ & Is). by destruct (Hn _ Is ltac:(apply not_first_word)).
  - destruct P as (_ & _ & Is). by destruct (Hn _ Is ltac:(apply not_elem_of_nil)).
  - destruct P as (_ & _ & Is & _). by destruct (Hn _ Is ltac:(apply not_elem_of_nil)).
  - destruct P as (_ & _ & Is). by destruct (Hn _ Is ltac:(apply not_first_word)).
  - destruct P as [_ [[_ N]|(e & ses & K)]]; [done|]. by exists e, ses.
Qed.

Lemma cutover_queued r s q :
  sinv r s → o_end (s_out s) ≠ Some false → queue (s_out s) = Cutover :: q →
  ∃ e ses, s_dir s = Filled ses ∧ issued s = [first_word r e; Cutover] ∧
           ctl (o_log (s_out s)) = [first_word r e] ∧ q = [].
Proof.
  intros [] E Q. specialize (sv_queue0 E). rewrite Q in sv_queue0.
  destruct (cutover_issued r s sv_phase0) as (e & ses & Di & _ & Is).
  { rewrite sv_queue0. apply elem_of_app. right. by left. }
  rewrite Is in sv_queue0. exists e, ses. do 2 (split; [done|]).
  destruct (ctl (o_log (s_out s))) as [|x [|y l]]; cbn in sv_queue0; injection sv_queue0.
  - intros _ K. by destruct r.
  - by intros <- <-.
  - intros K. by destruct l.
Qed.

Lemma sinv_control r s s' : sinv r s → o_end (s_out s) = None →
  pumped s (outbound_control seal (s_out s) (rl_out s) (dr_out s)) = Some s' → sinv r s'.
Proof.
  intros I E K. assert (o_end (s_out s) ≠ Some false) as E' by congruence.
  unfold outbound_control in K. destruct (control_open (s_out s)); [|done]. cbn [negb] in K.
  destruct (queue (s_out s)) as [|[p|] q] eqn:Q; [by rewrite (sv_driver _ _ I) in K| |].
  - destruct (send_tagged seal PUMP_TAG_CONTROL p (o_pop (s_out s)) (rl_out s) (dr_out s)) as [[o rl] d] eqn:Es.
    destruct (send_tagged_cases _ _ _ _ _ _ _ _ Es) as (Kq & Kd & Ks & Kt & Kl). cbn in *. rewrite Q in Kq. cbn in Kq.
    pose proof (sv_queue _ _ I E') as Iq. rewrite Q in Iq. destruct Kl as [[Kl Ke]|[Kl Ke]].
    + apply (sinv_pumped r s s' o rl d K I); try done; rewrite ?Kl, ?ctl_snoc, ?Kq, ?Ks; cbn [ctl_of].
      * rewrite Kd. apply I.
      * by left.
      * intros T. pose proof (sv_slot _ _ I) as S. rewrite T in S. destruct S as [?|[?|?]]; [auto| |congruence].
        right. left. apply elem_of_app. auto.
      * rewrite Iq. exists q. by rewrite <- app_assoc.
      * intros _. rewrite Iq. by rewrite <- app_assoc.
      * intros T. apply elem_of_app. left. by apply (sv_direct _ _ I), Kt.
    + apply (sinv_pumped r s s' o rl d K I); try done; rewrite ?Kl, ?Ks; [rewrite Kd; apply I|by left|by auto|apply I|].
      intros T. by apply (sv_direct _ _ I), Kt.
  - destruct (cutover_queued _ _ _ I E' Q) as (e & ses & Di & Is & Lg & ->).
    pose proof (sv_slot _ _ I) as S. destruct (o_slot (s_out s)) as [|entry| |] eqn:Sl; [done| |congruence|].
    2: { destruct S as [S|[S|S]]; [congruence| |congruence]. rewrite Lg in S. exfalso.
         apply list_elem_of_singleton in S. by destruct r. }
    destruct (seal_frame _ _ _ _) as [[w ts]|]; [destruct (put w (rl_out s)) as [rl'|]|]; simplify_eq; cbn in K; simplify_eq.
    + apply (sinv_pumped r s _ (o_sealed ts (Some entry) [PUMP_TAG_CUTOVER] (o_take (o_pop (s_out s)))) (rl') (dr_out s) eq_refl I); cbn; rewrite ?ctl_snoc, ?Lg, ?Is, ?Q; try done; try apply I; auto;
        intros; [right; left|]; apply elem_of_app; right; by left.
    + apply (sinv_pumped r s _ (o_fail (o_take (o_pop (s_out s)))) (rl_out s) (dr_out s) eq_refl I); cbn; try done; try apply I; auto.
    + apply (sinv_pumped r s _ (o_fail (o_take (o_pop (s_out s)))) (rl_out s) (dr_out s) eq_refl I); cbn; try done; try apply I; auto.
Qed.

Lemma sinv_plain r s s' chunk : sinv r s → o_end (s_out s) = None →
  pumped s (outbound_plain seal chunk (s_out s) (rl_out s) (dr_out s)) = Some s' → sinv r s'.
Proof.
  intros I E K. assert (o_end (s_out s) ≠ Some false) as E' by congruence.
  assert (o_slot (s_out s) = Taken → s_dir s = Dropped ∨ Cutover ∈ ctl (o_log (s_out s))) as Tk.
  { intros T. pose proof (sv_slot _ _ I) as S. rewrite T in S. destruct S as [?|[?|?]]; [auto|auto|congruence]. }
  unfold outbound_plain in K. destruct (control_open (s_out s) && _); [done|].
  destruct chunk as [n|].
  2: { change (pumped s (Some (o_fail (s_out s), rl_out s, dr_out s)) = Some s') in K.
       apply (sinv_pumped r s s' _ _ _ K I); cbn; try done; try apply I; auto. }
  destruct (CHUNK <? length n)%nat; [done|]. case_bool_decide as N.
  - apply (sinv_pumped r s s' _ _ _ K I); cbn; try done; try apply I; auto.
    + intros T. destruct (Tk T); auto.
    + intros _. by apply I.
  - destruct (send_tagged seal PUMP_TAG_DATA n (o_read n (s_out s)) (rl_out s) (dr_out s)) as [[o rl] d] eqn:Es.
    destruct (send_tagged_cases _ _ _ _ _ _ _ _ Es) as (Kq & Kd & Ks & Kt & Kl). cbn in Kq, Kd, Ks, Kt, Kl.
    assert (ctl (o_log o) = ctl (o_log (s_out s))) as Ec.
    { destruct Kl as [[-> _]|[-> _]]; [|done]. rewrite ctl_snoc. cbn. by rewrite app_nil_r. }
    apply (sinv_pumped r s s' o rl d K I); rewrite ?Ec, ?Kd, ?Ks, ?Kq; try done; try apply I; auto.
    + intros T. destruct (Tk T); auto.
    + intros _. by apply I.
    + intros T. by apply (sv_direct _ _ I), Kt.
Qed.

(** The receiving loop's turn keeps what was heard and hears what it queues. *)
Lemma inbound_heard w i rl dr i' rl' dr' :
  inbound open w i rl dr = Some (i', rl', dr') →
  (∀ m, m ∈ i_log i → m ∈ i_log i') ∧
  (∀ m, m ∈ control_in i' → m ∈ control_in i ∨ PUMP_TAG_CONTROL :: m ∈ i_log i').
Proof.
  assert (∀ pt (i0 : In (RX := RX)), (∀ m, m ∈ control_in (dispatch w pt i0) → m ∈ control_in i0 ∨ PUMP_TAG_CONTROL :: m = pt) ∧
            i_log (dispatch w pt i0) = i_log i0) as Disp.
  { intros [|t p] i0; [by split; [by left|]|]. cbn. case_bool_decide; [by destruct (i_slot i0); split; try left|].
    case_bool_decide as T; [|by destruct w; split; [by left|done|by left|done]]. split; [|done]. intros m. unfold i_control; cbn [control_in].
    destruct (control_rx i0 && _); [|by left]. intros [?|K%list_elem_of_singleton]%elem_of_app; [by left|right; by subst]. }
  unfold inbound. destruct (i_cut i); [destruct (i_slot i); intros [= <- <- <-]; cbn; auto|].
  destruct (read_frame _) as [[fr rest]|]; [|destruct (_ || _); intros [= <- <- <-]; cbn; auto].
  destruct (i_direct i); (destruct (open _ fr) as [[pt r']|]; intros [= <- <- <-]; cbn; [|by auto]);
    match goal with |- context [dispatch w pt ?i0] => destruct (Disp pt i0) as [D1 D2] end; rewrite D2; cbn;
    (split; [intros m Hm; apply elem_of_app; by left|]);
    intros m [Hm|Hm]%D1; [by left|right|by left|right]; apply elem_of_app; right; rewrite Hm; by left.
Qed.

Lemma sinv_turn r s s' t : sinv r s → turn t s = Some s' → sinv r s'.
Proof.
  intros I. pose proof (sinv_turn_coordinator r s s' t I) as Hc. destruct t; try exact Hc; clear Hc; cbn [turn].
  - unfold installer. destruct (s_inst s) eqn:Hi; [done|].
    destruct I. destruct (s_dir s) as [|ses| |] eqn:Di; [done|intros [= <-]..].
    + constructor; cbn; try done; [by eapply phase_inv_mono; [..|exact sv_phase0]; rewrite ?Di| |by exists ses].
      unfold phase_inv in sv_phase0. rewrite Di in sv_phase0. destruct (s_phase s); naive_solver.
    + constructor; cbn; try done; [by eapply phase_inv_mono; [..|exact sv_phase0]; rewrite ?Di|].
      unfold phase_inv in sv_phase0. rewrite Di in sv_phase0. destruct (s_phase s); naive_solver.
    + exfalso. unfold phase_inv in sv_phase0. rewrite Di in sv_phase0. destruct (s_phase s); naive_solver.
  - case_bool_decide; [|done]. by apply sinv_control.
  - case_bool_decide; [|done]. by apply sinv_plain.
  - case_bool_decide; [|done]. destruct (inbound open w (s_in s) (rl_in s) (dr_in s)) as [[[i rl] d]|] eqn:Ei; [|done].
    intros [= <-]. destruct (inbound_heard _ _ _ _ _ _ _ Ei) as [H1 H2]. destruct I. constructor; cbn; try done.
    + eapply phase_inv_mono; [..|exact sv_phase0]; try done. intros m. apply H1.
    + intros m [Hm|Hm]%H2; [|done]. apply H1. by apply sv_heard0.
  - intros [= <-]. destruct I. by constructor.
  - intros [= <-]. destruct I. by constructor.
Qed.

Lemma sinv_turns r ts s s' : sinv r s → turns ts s = Some s' → sinv r s'.
Proof.
  revert s. induction ts as [|t ts IH]; intros s I; cbn; [by intros [= <-]|].
  destruct (turn t s) as [s1|] eqn:E; [|done]. cbn. apply IH. by eapply sinv_turn.
Qed.

(** **** What goes on which connection *)





















(** a session returns only after a control message. Whatever happens, a session whose coordinator
    waits for a message has not returned, even when both applications and both connections have
    ended: it has heard a control message when it returns, unless it is an initiator that offered
    nothing. *)
Theorem session_returns_only_after_reply ts rts rtr c s b :
  turns ts (begin rts rtr c) = Some s → returned s = Some b →
  s_phase s = Parked ∧ (role c = Initiator ∧ issued s = [] ∨ ∃ m, heard m s).
Proof.
  intros T R. pose proof (sinv_turns _ _ _ _ (sinv_begin rts rtr c) T) as []. unfold returned in R.
  destruct (o_end (s_out s)), (i_end (s_in s)), (s_inst s) eqn:Hi; try done.
  specialize (sv_inst0 eq_refl). split; [done|]. unfold phase_inv in sv_phase0. rewrite sv_inst0 in sv_phase0. tauto.
Qed.

End Session.
End Orchestrated.

(** ** Sample sessions *)

Module UpgradeSamples.
Import Coordinator Mux Orchestrated.

(** A session whose halves count and mark each message with their counter. *)
Definition toy_seal (n : nat) (m : bytes) (room : nat) : option (bytes * nat) :=
  if bool_decide (blen m < MAX_MESSAGE_BYTES) && bool_decide (length m < room)%nat
  then Some (byte_of_N (N.of_nat n) :: m, S n) else None.
Definition toy_open (n : nat) (c : bytes) : option (bytes * nat) :=
  match c with
  | b :: m => if bool_decide (b = byte_of_N (N.of_nat n)) then Some (m, S n) else None
  | [] => None
  end.

Lemma toy_law : session_law toy_seal toy_open eq.
Proof.
  intros s r m room c s' <-. unfold toy_seal, toy_open. case_bool_decide as L; [|done].
  case_bool_decide; [|done]. intros [= <- <-]. split; [unfold blen in *; cbn; lia|].
  exists (S s). by rewrite bool_decide_eq_true_2.
Qed.

Definition hello : bytes := [x68; x69].
Definition world : bytes := [x6f; x6b].

(** Bytes before and after the switch, with the marker on the relay in between. *)
Definition switch_run : list Ev :=
  [EPlain (Some hello); EInstallOut true; EDriver (Some (Send (encode Ready))); EDriver (Some Cutover);
   EControl; EControl; EPlain (Some world); EInbound None; EInbound None; EInstallIn true; EPlain (Some [])].
Definition switch_rest : list Ev := [EInbound None; EInbound None; EInbound None; EInbound None].

Definition switched (es : list Ev) : option (Flow (TX := nat) (RX := nat)) :=
  run toy_seal toy_open 100%nat 100%nat es (start 0%nat 0%nat).

Lemma cutover_seamless_witness : ∃ f,
  switched (switch_run ++ switch_rest) = Some f ∧ plain (inb f) = hello ++ world ∧
  o_end (out f) = Some true ∧ plain (inb f) = o_taken (out f).
Proof.
  eexists. split; [by vm_compute|]. split; [done|].
  refine (proj2 (proj2 (proj2 (proj2 (proj2 (cutover_seamless toy_seal toy_open 100%nat 100%nat eq 0%nat 0%nat
    (switch_run ++ switch_rest) _ toy_law eq_refl eq_refl _))))) _ _ _); by vm_compute.
Defined.

Lemma pump_drains_witness : ∃ f es' f',
  switched switch_run = Some f ∧ run toy_seal toy_open 100%nat 100%nat es' f = Some f' ∧
  i_end (inb f') = Some true ∧ plain (inb f') = hello ++ world.
Proof.
  eexists.
  destruct (pump_drains toy_seal toy_open 100%nat 100%nat eq 0%nat 0%nat switch_run _ toy_law eq_refl eq_refl
    ltac:(by vm_compute) ltac:(by vm_compute) ltac:(by vm_compute)) as (es' & f' & R & _ & K).
  exists es', f'. split; [by vm_compute|]. split; [exact R|exact K].
Defined.

(** A responder that takes an offer, dials, answers and switches. *)
Definition endpoint : bytes := [x38; x2e; x38; x2e; x38; x2e; x38; x3a; x34; x34; x33].
Definition incoming (b : bytes) (closed : bool) : Conn := {| c_bytes := b; c_closed := closed; c_broken := false |}.



(** An initiator that finds no endpoint returns when both directions have ended. *)
Definition unoffered : list (Turn (TX := nat) (RX := nat)) :=
  [TOpen; TInstall; TPlain (Some []); TIncoming (incoming [] true) conn0; TInbound None].

Lemma session_returns_only_after_reply_witness : ∃ s,
  turns toy_seal toy_open None 5 unoffered (begin 0%nat 0%nat (new Initiator 0)) = Some s ∧
  returned s = Some true ∧ s_phase s = Parked.
Proof.
  eexists. split; [by vm_compute|]. split; [done|].
  exact (proj1 (session_returns_only_after_reply toy_seal toy_open None 5 unoffered 0%nat 0%nat (new Initiator 0)
    _ true ltac:(by vm_compute) ltac:(by vm_compute))).
Defined.

(** Its peer, to which nothing was offered, has ended both directions as well and does not return:
    no turn is left but a control message, and none will come. *)
Definition never_offered : list (Turn (TX := nat) (RX := nat)) :=
  [TPlain (Some []); TIncoming (incoming [] true) conn0; TInbound None].
Example unoffered_responder_waits : ∃ s,
  turns toy_seal toy_open None 5 never_offered (begin 0%nat 0%nat (new Responder 0)) = Some s ∧
  o_end (s_out s) = Some true ∧ i_end (s_in s) = Some true ∧ returned s = None ∧
  turn toy_seal toy_open None 5 TRecv s = None ∧ turn toy_seal toy_open None 5 TInstall s = None.
Proof. eexists. split; [by vm_compute|]. by vm_compute. Qed.

(** A receiver whose own dial failed ends with the error when its peer cuts over. *)
Example missing_half_is_an_error : ∃ f,
  switched [EPlain (Some hello); EInstallOut true; EInstallIn false; EDriver (Some Cutover); EControl;
            EInbound None; EInbound None; EInbound None] = Some f ∧
  i_end (inb f) = Some false ∧ plain (inb f) = hello.
Proof. eexists. split; [by vm_compute|]. by vm_compute. Qed.

(** A receiver whose application breaks off has given it a prefix, and ends with the error. *)
Example broken_application_is_an_error : ∃ f,
  switched [EPlain (Some hello); EInbound (Some 1%nat)] = Some f ∧
  i_end (inb f) = Some false ∧ plain (inb f) = take 1 hello ∧ app_ok (inb f) = false.
Proof. eexists. split; [by vm_compute|]. by vm_compute. Qed.

Lemma backoff_bounds_witness :
  let c := foldl (flip coord_run) (with_backoff Initiator 0 5 60) [OFail 5; OFail 15] in
  next_attempt_at (record_attempt_failed 40 c) = 80.
Proof.
  exact (proj1 (backoff_bounds Initiator 0 5 60 [OFail 5; OFail 15] 40 80 ltac:(by vm_compute) ltac:(by vm_compute))).
Defined.

Lemma negotiation_agrees_on_direct_witness :
  (drive_initiator_upgrade (new Initiator 0) 5 (Some endpoint) true (Some (encode Ready))).1.1 = Some endpoint ∧
  path (drive_initiator_upgrade (new Initiator 0) 5 (Some endpoint) true (Some (encode Ready))).2 = Direct.
Proof.
  destruct (negotiation_agrees_on_direct (new Initiator 0) (new Responder 0) 5 5 (Some endpoint) (λ _, true)
    ltac:(by vm_compute) ltac:(done)) as (_ & _ & K). vm_compute in K. split; [by vm_compute|apply K].
Defined.

End UpgradeSamples.
