(* ===== verification/TunnelStore.v ===== *)
(** * The tunnel store of the control plane

    [SqliteTunnelStore] ([crates/control-plane/src/storage.rs]) is the durable record of every
    customer's tunnels: who owns each and with whom it is shared, its hostname and routing token,
    the login gate of the hostname with its allow-list and access requests, share links, access
    windows, badges, alerts with their delivery log, bridge probes, the certificate tier of the
    hostname with the queue for its own certificate, and the ledger of issuances. [TunnelStore]
    holds its tables and operations and shows what the operations keep. *)

From S2P Require Import Prelude RustStd Maps Codec Sqlite Wire AccessWindow Receipts FrontDoor.

Module TunnelStore.

Inductive StoreError := StoreDb.

(** ** Tables *)

(** The values of the columns [status] and [claim_state]. *)
Inductive Status := Rot | Gelb | Gruen.
Inductive ClaimState := NoClaim | Offered | Lapsed.

#[global] Instance status_eq_dec : EqDecision Status.
Proof. solve_decision. Defined.
#[global] Instance claim_state_eq_dec : EqDecision ClaimState.
Proof. solve_decision. Defined.

(** src/crates/control-plane/src/storage.rs:2657-2682 [SqliteTunnelStore::from_connection]: the
    certificate columns of [subject_tunnels]. *)
Record CertCols := {
  status : Status; assigned_ca : option bytes; queued_at : option Z; claim_state : ClaimState;
  claim_offered_at : option Z; claim_deadline : option Z; pending_revert : bool; opt_out : bool;
}.

(** src/crates/control-plane/src/storage.rs:2670-2675 [SqliteTunnelStore::from_connection]: the login
    gate. *)
Record GateCols := { require_login : bool; allow_any : bool }.

(** src/crates/control-plane/src/storage.rs:2692-2696 [SqliteTunnelStore::from_connection]: direct
    serving. *)
Record DirectCols := {
  direct_endpoint : option bytes; direct_enabled : bool; direct_advertised : bool;
  direct_failures : N; direct_probed_at : option Z;
}.

(** src/crates/control-plane/src/storage.rs:2620-2627 [SqliteTunnelStore::from_connection]: a row of
    [subject_tunnels]. *)
Record TunnelRow := {
  subject : bytes; name : bytes; hostname : option bytes; created_at : Z; routing_token : bytes;
  cert : CertCols; gate : GateCols; direct : DirectCols;
  topology_id : option bytes; rest_bridge_mode : bytes; bridge_grant : option bytes;
}.

Definition cert0 : CertCols := {|
  status := Rot; assigned_ca := None; queued_at := None; claim_state := NoClaim;
  claim_offered_at := None; claim_deadline := None; pending_revert := false; opt_out := false |}.
Definition direct0 : DirectCols := {|
  direct_endpoint := None; direct_enabled := false; direct_advertised := false;
  direct_failures := 0; direct_probed_at := None |}.

(** src/crates/control-plane/src/storage.rs:2757-2763 [SqliteTunnelStore::from_connection] *)
Record AllowRow := { added_by : bytes; added_at : Z }.
(** src/crates/control-plane/src/storage.rs:2774-2780 [SqliteTunnelStore::from_connection] *)
Record RequestRow := { note : bytes; requested_at : Z }.
(** src/crates/control-plane/src/storage.rs:2786-2790 [SqliteTunnelStore::from_connection] *)
Record DisabledRow := { disabled_by : bytes; disabled_at : Z }.
(** src/crates/control-plane/src/storage.rs:2796-2801 [SqliteTunnelStore::from_connection] *)
Record PolicyRow := { policy_subject : bytes; policy_json : bytes; updated_at : Z }.
(** src/crates/control-plane/src/storage.rs:2811-2816 [SqliteTunnelStore::from_connection] *)
Record BadgeRow := { badge_subject : bytes; public_id : bytes; badge_created : Z }.
(** src/crates/control-plane/src/storage.rs:2870-2884 [SqliteTunnelStore::from_connection] *)
Record AlertCols := {
  alert_subject : bytes; webhook_url : bytes; secret_hex : bytes; threshold_secs : Z;
  enabled : bool; state : bytes; state_since : Z; last_seen_hint : option Z;
  last_delivery_at : option Z; last_delivery_status : option bytes; failures : Z; alert_created : Z;
}.
(** src/crates/control-plane/src/storage.rs:2886-2893 [SqliteTunnelStore::from_connection] *)
Record DeliveryRow := { delivered_for : bytes; ts : Z; event : bytes; outcome : bytes; detail : option bytes }.
(** src/crates/control-plane/src/storage.rs:2906-2912 [SqliteTunnelStore::from_connection] *)
Record ProbeRow := { probe_subject : bytes; agent_version : option bytes; readiness_json : option bytes; probed_at : Z }.
(** src/crates/control-plane/src/storage.rs:2924-2936 [SqliteTunnelStore::from_connection] *)
Record LinkRow := {
  link_tunnel : bytes; link_subject : bytes; link_hostname : bytes; token_hash : bytes;
  label : option bytes; expires_at : Z; single_use : bool; used_at : option Z; link_created : Z;
  revoked_at : option Z;
}.
(** src/crates/control-plane/src/storage.rs:2740-2746 [SqliteTunnelStore::from_connection] *)
Record LogRow := { log_ca : bytes; log_domain : bytes; log_hostname : bytes; issued_at : Z }.

(** src/crates/control-plane/src/storage.rs:2618-2944 [SqliteTunnelStore::from_connection]: the tables. *)
Record TunnelStore := {
  tunnels : gmap bytes TunnelRow;
  grants : gmap (bytes * bytes) ();
  revoked_tokens : gmap bytes Z;
  login_allow : gmap (bytes * bytes) AllowRow;
  requests : gmap (bytes * bytes) RequestRow;
  disabled : gmap bytes DisabledRow;
  policies : gmap bytes PolicyRow;
  badges : gmap bytes BadgeRow;
  alerts : gmap bytes AlertCols;
  deliveries : gmap Z DeliveryRow;
  next_delivery : Z;
  probes : gmap bytes ProbeRow;
  links : gmap bytes LinkRow;
  issuance : list LogRow;
}.

Definition empty : TunnelStore := {|
  tunnels := ∅; grants := ∅; revoked_tokens := ∅; login_allow := ∅; requests := ∅; disabled := ∅;
  policies := ∅; badges := ∅; alerts := ∅; deliveries := ∅; next_delivery := 1; probes := ∅;
  links := ∅; issuance := [] |}.

(** One table replaced. *)
Definition set_tunnels t s := {|
  tunnels := t; grants := grants s; revoked_tokens := revoked_tokens s;
  login_allow := login_allow s; requests := requests s; disabled := disabled s;
  policies := policies s; badges := badges s; alerts := alerts s; deliveries := deliveries s;
  next_delivery := next_delivery s; probes := probes s; links := links s;
  issuance := issuance s |}.
Definition set_grants t s := {|
  tunnels := tunnels s; grants := t; revoked_tokens := revoked_tokens s;
  login_allow := login_allow s; requests := requests s; disabled := disabled s;
  policies := policies s; badges := badges s; alerts := alerts s; deliveries := deliveries s;
  next_delivery := next_delivery s; probes := probes s; links := links s;
  issuance := issuance s |}.
Definition set_revoked_tokens t s := {|
  tunnels := tunnels s; grants := grants s; revoked_tokens := t; login_allow := login_allow s;
  requests := requests s; disabled := disabled s; policies := policies s; badges := badges s;
  alerts := alerts s; deliveries := deliveries s; next_delivery := next_delivery s;
  probes := probes s; links := links s; issuance := issuance s |}.
Definition set_login_allow t s := {|
  tunnels := tunnels s; grants := grants s; revoked_tokens := revoked_tokens s;
  login_allow := t; requests := requests s; disabled := disabled s; policies := policies s;
  badges := badges s; alerts := alerts s; deliveries := deliveries s;
  next_delivery := next_delivery s; probes := probes s; links := links s;
  issuance := issuance s |}.
Definition set_requests t s := {|
  tunnels := tunnels s; grants := grants s; revoked_tokens := revoked_tokens s;
  login_allow := login_allow s; requests := t; disabled := disabled s; policies := policies s;
  badges := badges s; alerts := alerts s; deliveries := deliveries s;
  next_delivery := next_delivery s; probes := probes s; links := links s;
  issuance := issuance s |}.
Definition set_disabled t s := {|
  tunnels := tunnels s; grants := grants s; revoked_tokens := revoked_tokens s;
  login_allow := login_allow s; requests := requests s; disabled := t; policies := policies s;
  badges := badges s; alerts := alerts s; deliveries := deliveries s;
  next_delivery := next_delivery s; probes := probes s; links := links s;
  issuance := issuance s |}.
Definition set_policies t s := {|
  tunnels := tunnels s; grants := grants s; revoked_tokens := revoked_tokens s;
  login_allow := login_allow s; requests := requests s; disabled := disabled s; policies := t;
  badges := badges s; alerts := alerts s; deliveries := deliveries s;
  next_delivery := next_delivery s; probes := probes s; links := links s;
  issuance := issuance s |}.
Definition set_badges t s := {|
  tunnels := tunnels s; grants := grants s; revoked_tokens := revoked_tokens s;
  login_allow := login_allow s; requests := requests s; disabled := disabled s;
  policies := policies s; badges := t; alerts := alerts s; deliveries := deliveries s;
  next_delivery := next_delivery s; probes := probes s; links := links s;
  issuance := issuance s |}.
Definition set_alerts t s := {|
  tunnels := tunnels s; grants := grants s; revoked_tokens := revoked_tokens s;
  login_allow := login_allow s; requests := requests s; disabled := disabled s;
  policies := policies s; badges := badges s; alerts := t; deliveries := deliveries s;
  next_delivery := next_delivery s; probes := probes s; links := links s;
  issuance := issuance s |}.
Definition set_probes t s := {|
  tunnels := tunnels s; grants := grants s; revoked_tokens := revoked_tokens s;
  login_allow := login_allow s; requests := requests s; disabled := disabled s;
  policies := policies s; badges := badges s; alerts := alerts s; deliveries := deliveries s;
  next_delivery := next_delivery s; probes := t; links := links s; issuance := issuance s |}.
Definition set_links t s := {|
  tunnels := tunnels s; grants := grants s; revoked_tokens := revoked_tokens s;
  login_allow := login_allow s; requests := requests s; disabled := disabled s;
  policies := policies s; badges := badges s; alerts := alerts s; deliveries := deliveries s;
  next_delivery := next_delivery s; probes := probes s; links := t; issuance := issuance s |}.
Definition set_issuance t s := {|
  tunnels := tunnels s; grants := grants s; revoked_tokens := revoked_tokens s;
  login_allow := login_allow s; requests := requests s; disabled := disabled s;
  policies := policies s; badges := badges s; alerts := alerts s; deliveries := deliveries s;
  next_delivery := next_delivery s; probes := probes s; links := links s; issuance := t |}.
Definition set_deliveries t n s := {|
  tunnels := tunnels s; grants := grants s; revoked_tokens := revoked_tokens s;
  login_allow := login_allow s; requests := requests s; disabled := disabled s;
  policies := policies s; badges := badges s; alerts := alerts s; deliveries := t;
  next_delivery := n; probes := probes s; links := links s; issuance := issuance s |}.
Definition row_cert v (r : TunnelRow) : TunnelRow := {|
  subject := subject r; name := name r; hostname := hostname r; created_at := created_at r;
  routing_token := routing_token r; cert := v; gate := gate r; direct := direct r;
  topology_id := topology_id r; rest_bridge_mode := rest_bridge_mode r;
  bridge_grant := bridge_grant r |}.
Definition row_gate v (r : TunnelRow) : TunnelRow := {|
  subject := subject r; name := name r; hostname := hostname r; created_at := created_at r;
  routing_token := routing_token r; cert := cert r; gate := v; direct := direct r;
  topology_id := topology_id r; rest_bridge_mode := rest_bridge_mode r;
  bridge_grant := bridge_grant r |}.
Definition row_direct v (r : TunnelRow) : TunnelRow := {|
  subject := subject r; name := name r; hostname := hostname r; created_at := created_at r;
  routing_token := routing_token r; cert := cert r; gate := gate r; direct := v;
  topology_id := topology_id r; rest_bridge_mode := rest_bridge_mode r;
  bridge_grant := bridge_grant r |}.
Definition row_name v (r : TunnelRow) : TunnelRow := {|
  subject := subject r; name := v; hostname := hostname r; created_at := created_at r;
  routing_token := routing_token r; cert := cert r; gate := gate r; direct := direct r;
  topology_id := topology_id r; rest_bridge_mode := rest_bridge_mode r;
  bridge_grant := bridge_grant r |}.
Definition row_topology v (r : TunnelRow) : TunnelRow := {|
  subject := subject r; name := name r; hostname := hostname r; created_at := created_at r;
  routing_token := routing_token r; cert := cert r; gate := gate r; direct := direct r;
  topology_id := v; rest_bridge_mode := rest_bridge_mode r; bridge_grant := bridge_grant r |}.
Definition row_mode v (r : TunnelRow) : TunnelRow := {|
  subject := subject r; name := name r; hostname := hostname r; created_at := created_at r;
  routing_token := routing_token r; cert := cert r; gate := gate r; direct := direct r;
  topology_id := topology_id r; rest_bridge_mode := v; bridge_grant := bridge_grant r |}.
Definition row_grant v (r : TunnelRow) : TunnelRow := {|
  subject := subject r; name := name r; hostname := hostname r; created_at := created_at r;
  routing_token := routing_token r; cert := cert r; gate := gate r; direct := direct r;
  topology_id := topology_id r; rest_bridge_mode := rest_bridge_mode r; bridge_grant := v |}.
Definition row_owner v (r : TunnelRow) : TunnelRow := {|
  subject := v; name := name r; hostname := hostname r; created_at := created_at r;
  routing_token := routing_token r; cert := cert r; gate := gate r; direct := direct r;
  topology_id := None; rest_bridge_mode := rest_bridge_mode r; bridge_grant := bridge_grant r |}.

(** [COLLATE NOCASE]: ASCII letters compare without their case. *)
Definition nocase (a b : bytes) : bool := bool_decide (to_ascii_lowercase a = to_ascii_lowercase b).

(** A row that the caller owns: [WHERE id = ?1 AND subject = ?2]. *)
Definition owned (s : TunnelStore) (who id : bytes) : option TunnelRow :=
  r ← tunnels s !! id; if bool_decide (subject r = who) then Some r else None.

(** [UPDATE subject_tunnels SET .. WHERE id = ? AND subject = ?], and whether it changed a row. *)
Definition update_owned (s : TunnelStore) (who id : bytes) (f : TunnelRow → TunnelRow) : bool * TunnelStore :=
  match owned s who id with
  | Some r => (true, set_tunnels (<[id := f r]> (tunnels s)) s)
  | None => (false, s)
  end.

(** [UPDATE subject_tunnels SET .. WHERE p], and how many rows it changed. *)
Definition update_where (s : TunnelStore) (p : TunnelRow → bool) (f : TunnelRow → TunnelRow) : nat * TunnelStore :=
  (sql_count (λ _, p) (tunnels s), set_tunnels ((λ r, if p r then f r else r) <$> tunnels s) s).

(** [WHERE hostname = ?]. *)
Definition has_hostname (h : bytes) (r : TunnelRow) : bool := bool_decide (hostname r = Some h).

(** ** Creating tunnels *)

(** src/crates/control-plane/src/storage.rs:2363-2377 [SubjectTunnel] *)
Record SubjectTunnel := {
  st_id : bytes; st_name : bytes; st_hostname : option bytes; st_created_at : Z; st_routing_token : bytes;
}.
Definition view (id : bytes) (r : TunnelRow) : SubjectTunnel := {|
  st_id := id; st_name := name r; st_hostname := hostname r; st_created_at := created_at r;
  st_routing_token := routing_token r |}.

(** src/crates/control-plane/src/storage.rs:2262-2266 [CreateTunnelOutcome] *)
Inductive CreateTunnelOutcome := Created (t : SubjectTunnel) | OverLimit | HostnameTaken.

Definition new_row (who nm : bytes) (host : option bytes) (now : N) (token : bytes) : TunnelRow := {|
  subject := who; name := nm; hostname := host; created_at := as_i64 now; routing_token := token;
  cert := cert0; gate := {| require_login := false; allow_any := false |}; direct := direct0;
  topology_id := None; rest_bridge_mode := lit "off"; bridge_grant := None |}.

(** The check of the hostname under the writer's lock. *)
Definition hostname_taken (s : TunnelStore) (host : option bytes) : bool :=
  match host with
  | Some h => bool_decide (0 < sql_count (λ _, has_hostname h) (tunnels s))%nat
  | None => false
  end.

(** src/crates/control-plane/src/storage.rs:2960-2998 [SqliteTunnelStore::create]: [idb] and [tokb] are
    what the generator gives. *)
Definition create (s : TunnelStore) (who nm : bytes) (host : option bytes) (now : N) (idb tokb : bytes)
    : Result CreateTunnelOutcome StoreError * TunnelStore :=
  let id := Hex.encode idb in
  let r := new_row who nm host now (Hex.encode tokb) in
  if hostname_taken s host then (Ok HostnameTaken, s)
  else match sql_insert id r (tunnels s) with
       | None => (Err StoreDb, s)
       | Some t => (Ok (Created (view id r)), set_tunnels t s)
       end.

Definition owned_count (s : TunnelStore) (who : bytes) : N :=
  N.of_nat (sql_count (λ _ r, bool_decide (subject r = who)) (tunnels s)).

(** src/crates/control-plane/src/storage.rs:3009-3065 [SqliteTunnelStore::create_if_under_owned_limit] *)
Definition create_if_under_owned_limit (s : TunnelStore) (who nm : bytes) (host : option bytes) (max : N)
    (now : N) (idb tokb : bytes) : Result CreateTunnelOutcome StoreError * TunnelStore :=
  if max <=? owned_count s who then (Ok OverLimit, s) else create s who nm host now idb tokb.

(** ** Revoking and moving tunnels *)

Definition of_tunnel {R} (id : bytes) : bytes → R → bool := λ k _, bool_decide (k = id).
Definition of_host {R} (h : bytes) : bytes * bytes → R → bool := λ k _, nocase k.1 h.

(** src/crates/control-plane/src/storage.rs:3118-3162 [SqliteTunnelStore::revoke] *)
Definition revoke (s : TunnelStore) (who id : bytes) (now : N) : option bytes * TunnelStore :=
  match owned s who id with
  | None => (None, s)
  | Some r =>
    let s := set_tunnels (delete id (tunnels s)) s in
    let s := match hostname r with
             | Some h => set_requests (sql_delete (of_host h) (requests s))
                           (set_login_allow (sql_delete (of_host h) (login_allow s)) s)
             | None => s
             end in
    let s := set_policies (delete id (policies s)) s in
    let s := set_alerts (delete id (alerts s)) s in
    let s := set_deliveries (sql_delete (λ _ d, bool_decide (delivered_for d = id)) (deliveries s)) (next_delivery s) s in
    let s := set_grants (sql_delete (λ k _, bool_decide (k.1 = id)) (grants s)) s in
    let s := set_badges (delete id (badges s)) s in
    let s := set_probes (delete id (probes s)) s in
    let s := set_links (sql_delete (λ _ l, bool_decide (link_tunnel l = id)) (links s)) s in
    (Some (routing_token r), set_revoked_tokens (<[routing_token r := as_i64 now]> (revoked_tokens s)) s)
  end.

(** src/crates/control-plane/src/storage.rs:2287-2296 [TransferReport] *)
Record TransferReport := { moved : SubjectTunnel; cleared_topology_id : option bytes; target_owned_after : N }.

(** src/crates/control-plane/src/storage.rs:2270-2283 [TransferTunnelOutcome] *)
Inductive TransferTunnelOutcome :=
  | Transferred (report : TransferReport) | AlreadyOwnedByTarget (t : SubjectTunnel) | NotFound
  | OwnerMismatch | TargetMissing.

Definition policy_to to p := {| policy_subject := to; policy_json := policy_json p; updated_at := updated_at p |}.
Definition badge_to to b := {| badge_subject := to; public_id := public_id b; badge_created := badge_created b |}.
Definition alert_to to a := {|
  alert_subject := to; webhook_url := webhook_url a; secret_hex := secret_hex a; threshold_secs := threshold_secs a;
  enabled := enabled a; state := state a; state_since := state_since a; last_seen_hint := last_seen_hint a;
  last_delivery_at := last_delivery_at a; last_delivery_status := last_delivery_status a; failures := failures a;
  alert_created := alert_created a |}.
Definition probe_to to p := {|
  probe_subject := to; agent_version := agent_version p; readiness_json := readiness_json p; probed_at := probed_at p |}.
Definition link_to to l := {|
  link_tunnel := link_tunnel l; link_subject := to; link_hostname := link_hostname l; token_hash := token_hash l;
  label := label l; expires_at := expires_at l; single_use := single_use l; used_at := used_at l;
  link_created := link_created l; revoked_at := revoked_at l |}.

(** src/crates/control-plane/src/storage.rs:3202-3271 [SqliteTunnelStore::transfer_tunnel] *)
Definition transfer_tunnel (s : TunnelStore) (id from to : bytes) (target_exists : Result bool StoreError)
    : Result TransferTunnelOutcome StoreError * TunnelStore :=
  match tunnels s !! id with
  | None => (Ok NotFound, s)
  | Some r =>
    if bool_decide (subject r = to) then (Ok (AlreadyOwnedByTarget (view id r)), s)
    else if negb (bool_decide (subject r = from)) then (Ok OwnerMismatch, s)
    else match target_exists with
    | Err e => (Err e, s)
    | Ok false => (Ok TargetMissing, s)
    | Ok true =>
      let s := set_tunnels (<[id := row_owner to r]> (tunnels s)) s in
      let s := set_alerts (sql_update (alert_to to) id (alerts s)) s in
      let s := set_badges (sql_update (badge_to to) id (badges s)) s in
      let s := set_links ((λ l, if bool_decide (link_tunnel l = id) then link_to to l else l) <$> links s) s in
      let s := set_policies (sql_update (policy_to to) id (policies s)) s in
      let s := set_probes (sql_update (probe_to to) id (probes s)) s in
      let s := set_grants (delete (id, to) (grants s)) s in
      (Ok (Transferred {| moved := view id r; cleared_topology_id := topology_id r;
                          target_owned_after := owned_count s to |}), s)
    end
  end.

(** src/crates/control-plane/src/storage.rs:3290-3292 [SqliteTunnelStore::owns] *)
Definition owns (s : TunnelStore) (who id : bytes) : bool := bool_decide (is_Some (owned s who id)).

(** src/crates/control-plane/src/storage.rs:3296-3305 [SqliteTunnelStore::tunnel_hostname] *)
Definition tunnel_hostname (s : TunnelStore) (who id : bytes) : option bytes := owned s who id ≫= hostname.

(** src/crates/control-plane/src/storage.rs:3310-3318 [SqliteTunnelStore::routing_token] *)
Definition token_of (s : TunnelStore) (who id : bytes) : option bytes := routing_token <$> owned s who id.

(** src/crates/control-plane/src/storage.rs:3646-3663 [SqliteTunnelStore::owned_tunnel] *)
Definition owned_tunnel (s : TunnelStore) (who id : bytes) : option SubjectTunnel := view id <$> owned s who id.

(** ** Sharing a tunnel *)

(** src/crates/control-plane/src/storage.rs:2434-2440 [GrantError] *)
Inductive GrantError := NotOwner.

(** src/crates/control-plane/src/storage.rs:5193-5200 [SqliteTunnelStore::owner_of] *)
Definition owner_of (s : TunnelStore) (id : bytes) : option bytes := subject <$> tunnels s !! id.

(** src/crates/control-plane/src/storage.rs:5205-5216 [SqliteTunnelStore::grant] *)
Definition grant (s : TunnelStore) (who id grantee : bytes) : Result () GrantError * TunnelStore :=
  if bool_decide (owner_of s id = Some who)
  then (Ok (), set_grants (<[(id, grantee) := tt]> (grants s)) s)
  else (Err NotOwner, s).

(** src/crates/control-plane/src/storage.rs:5220-5236 [SqliteTunnelStore::revoke_grant] *)
Definition revoke_grant (s : TunnelStore) (who id grantee : bytes) : Result bool GrantError * TunnelStore :=
  if bool_decide (owner_of s id = Some who)
  then (Ok (bool_decide (is_Some (grants s !! (id, grantee)))), set_grants (delete (id, grantee) (grants s)) s)
  else (Err NotOwner, s).

(** src/crates/control-plane/src/storage.rs:5263-5276 [SqliteTunnelStore::has_grant] *)
Definition has_grant (s : TunnelStore) (id who : bytes) : bool := bool_decide (is_Some (grants s !! (id, who))).

(** src/crates/control-plane/src/storage.rs:5289-5296 [SqliteTunnelStore::is_authorized] *)
Definition is_authorized (s : TunnelStore) (who id : bytes) : bool :=
  if bool_decide (owner_of s id = Some who) then true else has_grant s id who.

(** src/crates/control-plane/src/storage.rs:4678-4699 [SqliteTunnelStore::routing_token_if_authorized] *)
Definition routing_token_if_authorized (s : TunnelStore) (who id : bytes) : option bytes :=
  r ← tunnels s !! id;
  if bool_decide (subject r = who) then Some (routing_token r)
  else if has_grant s id who then Some (routing_token r) else None.

(** src/crates/control-plane/src/storage.rs:4707-4728 [SqliteTunnelStore::hostname_if_authorized] *)
Definition hostname_if_authorized (s : TunnelStore) (who id : bytes) : option bytes :=
  r ← tunnels s !! id;
  if bool_decide (subject r = who) then hostname r
  else if has_grant s id who then hostname r else None.

(** ** Access windows *)

Section policies.
(** The JSON of a policy, which [serde] derives. *)
Context (to_json : AccessWindow.AccessPolicy → bytes) (from_json : bytes → option AccessWindow.AccessPolicy).

(** src/crates/control-plane/src/storage.rs:3325-3347 [SqliteTunnelStore::set_access_policy] *)
Definition set_access_policy (s : TunnelStore) (who id : bytes) (p : AccessWindow.AccessPolicy) (now : Z) : bool * TunnelStore :=
  if bool_decide (owner_of s id = Some who)
  then (true, set_policies (<[id := {| policy_subject := who; policy_json := to_json p; updated_at := now |}]> (policies s)) s)
  else (false, s).

(** src/crates/control-plane/src/storage.rs:3466-3477 [SqliteTunnelStore::parse_access_policy] *)
Definition parse_access_policy (json : bytes) : option AccessWindow.AccessPolicy :=
  match from_json json with
  | Some p => if AccessWindow.is_unrestricted p then None else Some p
  | None => None
  end.

(** src/crates/control-plane/src/storage.rs:3368-3382 [SqliteTunnelStore::access_policy] *)
Definition access_policy (s : TunnelStore) (who id : bytes) : option AccessWindow.AccessPolicy :=
  p ← policies s !! id;
  if bool_decide (policy_subject p = who) then parse_access_policy (policy_json p) else None.

(** src/crates/control-plane/src/storage.rs:3387-3414 [SqliteTunnelStore::access_policy_batch] *)
Definition access_policy_batch (s : TunnelStore) (who : bytes) (ids : list bytes) : gmap bytes AccessWindow.AccessPolicy :=
  list_to_map (omap (λ id, pair id <$> access_policy s who id) ids).

(** src/crates/control-plane/src/storage.rs:3420-3435 [SqliteTunnelStore::access_policy_for_token]: the
    rows behind the token, in the order they are delivered. *)
Definition access_policy_for_token (rows : list (bytes * PolicyRow)) (s : TunnelStore) (token : bytes)
    : option AccessWindow.AccessPolicy :=
  kp ← head (filter (λ kp, routing_token <$> tunnels s !! kp.1 = Some token) rows);
  parse_access_policy (policy_json kp.2).

End policies.

(** src/crates/control-plane/src/storage.rs:3353-3363 [SqliteTunnelStore::clear_access_policy] *)
Definition clear_access_policy (s : TunnelStore) (who id : bytes) : bool * TunnelStore :=
  if bool_decide (owner_of s id = Some who)
  then (true, set_policies (sql_delete (λ k p, bool_decide (k = id) && bool_decide (policy_subject p = who)) (policies s)) s)
  else (false, s).

(** ** The login gate *)

(** src/crates/control-plane/src/storage.rs:3481-3487 [SqliteTunnelStore::set_require_login] *)
Definition set_require_login (s : TunnelStore) (who id : bytes) (on : bool) : bool * TunnelStore :=
  update_owned s who id (λ r, row_gate {| require_login := on; allow_any := allow_any (gate r) |} r).

(** src/crates/control-plane/src/storage.rs:4201-4207 [SqliteTunnelStore::set_allow_any_login] *)
Definition set_allow_any_login (s : TunnelStore) (who id : bytes) (on : bool) : bool * TunnelStore :=
  update_owned s who id (λ r, row_gate {| require_login := require_login (gate r); allow_any := on |} r).

(** src/crates/control-plane/src/storage.rs:3505-3514 [SqliteTunnelStore::require_login] *)
Definition get_require_login (s : TunnelStore) (who id : bytes) : option bool :=
  (λ r, require_login (gate r)) <$> owned s who id.

(** src/crates/control-plane/src/storage.rs:4306-4315 [SqliteTunnelStore::allow_any_login] *)
Definition get_allow_any_login (s : TunnelStore) (who id : bytes) : option bool :=
  (λ r, allow_any (gate r)) <$> owned s who id.

(** src/crates/control-plane/src/storage.rs:4497-4516 [SqliteTunnelStore::require_login_batch] *)
Definition require_login_batch (s : TunnelStore) (who : bytes) (ids : list bytes) : gmap bytes (bool * bool) :=
  list_to_map (omap (λ id, (λ r, (id, (require_login (gate r), allow_any (gate r)))) <$> owned s who id) ids).

(** The hostname of a tunnel the caller owns. *)
Definition owned_hostname (s : TunnelStore) (who id : bytes) : option bytes := owned s who id ≫= hostname.

(** src/crates/control-plane/src/storage.rs:4337-4360 [SqliteTunnelStore::login_allowlist_add] *)
Definition login_allowlist_add (s : TunnelStore) (who id email : bytes) (now : N) : bool * TunnelStore :=
  match owned_hostname s who id with
  | None => (false, s)
  | Some h => (true, set_login_allow (<[(h, to_ascii_lowercase email) :=
                {| added_by := who; added_at := as_i64 now |}]> (login_allow s)) s)
  end.

(** src/crates/control-plane/src/storage.rs:4364-4380 [SqliteTunnelStore::login_allowlist_remove] *)
Definition login_allowlist_remove (s : TunnelStore) (who id email : bytes) : bool * TunnelStore :=
  match owned_hostname s who id with
  | None => (false, s)
  | Some h => (true, set_login_allow (delete (h, to_ascii_lowercase email) (login_allow s)) s)
  end.

(** src/crates/control-plane/src/storage.rs:4409-4419 [SqliteTunnelStore::email_allowed_for_hostname] *)
Definition email_allowed_for_hostname (s : TunnelStore) (h email : bytes) : bool :=
  bool_decide (0 < sql_count (λ k _, nocase k.1 h && bool_decide (k.2 = to_ascii_lowercase email)) (login_allow s))%nat.

(** src/crates/control-plane/src/storage.rs:4432-4432 [SqliteTunnelStore::MAX_PENDING_ACCESS_REQUESTS_PER_HOSTNAME] *)
Definition MAX_PENDING_ACCESS_REQUESTS_PER_HOSTNAME : nat := 500.

(** src/crates/control-plane/src/storage.rs:4655-4672 [SqliteTunnelStore::dismiss_access_request] *)
Definition dismiss_access_request (s : TunnelStore) (who id email : bytes) : bool * TunnelStore :=
  match owned_hostname s who id with
  | None => (false, s)
  | Some h =>
    let p := λ k (_ : RequestRow), nocase k.1 h && bool_decide (k.2 = to_ascii_lowercase email) in
    (bool_decide (0 < sql_count p (requests s))%nat, set_requests (sql_delete p (requests s)) s)
  end.

(** ** Disabled hostnames *)

(** src/crates/control-plane/src/storage.rs:4138-4145 [SqliteTunnelStore::disable_hostname] *)
Definition disable_hostname (s : TunnelStore) (h who : bytes) (at_ : Z) : TunnelStore :=
  set_disabled (<[h := {| disabled_by := who; disabled_at := at_ |}]> (disabled s)) s.

(** src/crates/control-plane/src/storage.rs:4154-4160 [SqliteTunnelStore::enable_hostname] *)
Definition enable_hostname (s : TunnelStore) (h : bytes) : bool * TunnelStore :=
  (bool_decide (is_Some (disabled s !! h)), set_disabled (delete h (disabled s)) s).

(** src/crates/control-plane/src/storage.rs:4166-4176 [SqliteTunnelStore::is_hostname_disabled] *)
Definition is_hostname_disabled (s : TunnelStore) (h : bytes) : bool := bool_decide (is_Some (disabled s !! h)).

(** ** Names, topologies, the bridge, direct serving *)

(** src/crates/control-plane/src/storage.rs:4063-4080 [SqliteTunnelStore::rename] *)
Definition rename (s : TunnelStore) (who id nm : bytes) : Result bool bytes * TunnelStore :=
  let trimmed := trim nm in
  if bool_decide (trimmed = []) then (Err (lit "name must not be empty"), s)
  else if (60 <? length (FrontDoor.Ja4.chars trimmed))%nat then (Err (lit "name must be 60 characters or fewer"), s)
  else let '(b, s) := update_owned s who id (row_name trimmed) in (Ok b, s).

(** src/crates/control-plane/src/storage.rs:3523-3529 [SqliteTunnelStore::set_topology_link] *)
Definition set_topology_link (s : TunnelStore) (who id : bytes) (topology : option bytes) : bool * TunnelStore :=
  update_owned s who id (row_topology topology).

(** src/crates/control-plane/src/storage.rs:3534-3543 [SqliteTunnelStore::topology_link] *)
Definition topology_link (s : TunnelStore) (who id : bytes) : option bytes := owned s who id ≫= topology_id.

(** src/crates/control-plane/src/storage.rs:4523-4542 [SqliteTunnelStore::topology_link_batch] *)
Definition topology_link_batch (s : TunnelStore) (who : bytes) (ids : list bytes) : gmap bytes bytes :=
  list_to_map (omap (λ id, pair id <$> topology_link s who id) ids).

(** src/crates/control-plane/src/storage.rs:3557-3589 [SqliteTunnelStore::set_rest_bridge_mode]: the text
    of the refusal is left out. *)
Definition set_rest_bridge_mode (s : TunnelStore) (who id mode : bytes) : option bool * TunnelStore :=
  if negb (bool_decide (mode ∈ [lit "off"; lit "ephemeral"; lit "permanent"])) then (None, s)
  else
    let off := bool_decide (mode = lit "off") in
    let '(b, s) := update_owned s who id (λ r,
      let r := row_mode mode r in
      if off then row_grant None r
      else row_gate {| require_login := true; allow_any := allow_any (gate r) |} r) in
    (Some b, s).

(** src/crates/control-plane/src/storage.rs:3594-3602 [SqliteTunnelStore::rest_bridge_mode] *)
Definition get_rest_bridge_mode (s : TunnelStore) (who id : bytes) : option bytes := rest_bridge_mode <$> owned s who id.

(** src/crates/control-plane/src/storage.rs:4549-4568 [SqliteTunnelStore::rest_bridge_mode_batch] *)
Definition rest_bridge_mode_batch (s : TunnelStore) (who : bytes) (ids : list bytes) : gmap bytes bytes :=
  list_to_map (omap (λ id, pair id <$> get_rest_bridge_mode s who id) ids).

(** src/crates/control-plane/src/storage.rs:3612-3622 [SqliteTunnelStore::set_bridge_grant] *)
Definition set_bridge_grant (s : TunnelStore) (who id hex : bytes) : bool * TunnelStore :=
  update_owned s who id (row_grant (Some hex)).

(** src/crates/control-plane/src/storage.rs:3628-3637 [SqliteTunnelStore::bridge_grant] *)
Definition get_bridge_grant (s : TunnelStore) (who id : bytes) : option bytes := owned s who id ≫= bridge_grant.

(** src/crates/control-plane/src/storage.rs:4215-4239 [SqliteTunnelStore::set_direct_serving] *)
Definition set_direct_serving (s : TunnelStore) (who id : bytes) (on : bool) (endpoint : option bytes) : bool * TunnelStore :=
  update_owned s who id (λ r, let d := direct r in
    row_direct (if on then {| direct_endpoint := endpoint; direct_enabled := true; direct_advertised := direct_advertised d;
                              direct_failures := direct_failures d; direct_probed_at := direct_probed_at d |}
                else {| direct_endpoint := direct_endpoint d; direct_enabled := false; direct_advertised := false;
                        direct_failures := 0; direct_probed_at := None |}) r).

(** src/crates/control-plane/src/storage.rs:4243-4256 [SqliteTunnelStore::direct_serving] *)
Definition direct_serving (s : TunnelStore) (who id : bytes) : option (bool * option bytes * bool) :=
  (λ r, (direct_enabled (direct r), direct_endpoint (direct r), direct_advertised (direct r))) <$> owned s who id.

(** src/crates/control-plane/src/direct_serving.rs:32-37 [DirectServingState] *)
Record DirectServingState := { advertised : bool; consecutive_failures : N }.

(** src/crates/control-plane/src/direct_serving.rs:26-26 [WITHDRAW_AFTER_FAILURES] *)
Definition WITHDRAW_AFTER_FAILURES : N := 2.

(** src/crates/control-plane/src/direct_serving.rs:49-57 [DirectServingAction] *)
Inductive DirectServingAction := Publish | Withdraw | Hold.

(** src/crates/control-plane/src/direct_serving.rs:75-90 [fold_probe] *)
Definition fold_probe (st : DirectServingState) (reachable : bool) : DirectServingState * DirectServingAction :=
  if reachable then
    ({| advertised := true; consecutive_failures := 0 |}, if advertised st then Hold else Publish)
  else
    let failures := N.min (consecutive_failures st + 1) (U32 - 1) in
    if advertised st && (WITHDRAW_AFTER_FAILURES <=? failures)
    then ({| advertised := false; consecutive_failures := failures |}, Withdraw)
    else ({| advertised := advertised st; consecutive_failures := failures |}, Hold).

(** src/crates/control-plane/src/storage.rs:4290-4302 [SqliteTunnelStore::record_direct_probe] *)
Definition record_direct_probe (s : TunnelStore) (id : bytes) (st : DirectServingState) (now : N) : TunnelStore :=
  set_tunnels (sql_update (λ r, let d := direct r in
    row_direct {| direct_endpoint := direct_endpoint d; direct_enabled := direct_enabled d;
                  direct_advertised := advertised st; direct_failures := consecutive_failures st;
                  direct_probed_at := Some (as_i64 now) |} r) id (tunnels s)) s.

(** ** Bridge probes *)

(** src/crates/control-plane/src/storage.rs:2464-2472 [BridgeProbe] *)
Record BridgeProbe := { p_agent_version : option bytes; p_readiness : option Json.Value; p_probed_at : Z }.

(** src/crates/control-plane/src/storage.rs:2476-2481 [ProbeUpdate] *)
Inductive ProbeUpdate := PVersion (v : bytes) | PReadiness (m : list (bytes * Json.Value)).

(** src/crates/control-plane/src/storage.rs:2485-2485 [PROBE_STRING_MAX_CHARS] *)
Definition PROBE_STRING_MAX_CHARS : nat := 64.

(** src/crates/control-plane/src/storage.rs:2491-2497 [is_readiness_key] *)
Definition is_readiness_key (key : bytes) : bool :=
  ends_with (lit "_configured") key || ends_with (lit "_available") key || ends_with (lit "_disabled") key
  || bool_decide (key = lit "oidc_credential") || bool_decide (key = lit "role").

Definition cap (s : bytes) : bytes := concat (take PROBE_STRING_MAX_CHARS (FrontDoor.Ja4.chars s)).

(** src/crates/control-plane/src/storage.rs:2505-2530 [probe_from_result] *)
Definition probe_from_result (tool : bytes) (result : Json.Value) : option ProbeUpdate :=
  if bool_decide (tool = lit "bridge/status") then
    v ← Json.get result (lit "version");
    match v with
    | Json.Str s => let version := trim s in
                    if bool_decide (version = []) then None else Some (PVersion (cap version))
    | _ => None
    end
  else if bool_decide (tool = lit "bridge/config") then
    match result with
    | Json.Object m => Some (PReadiness (omap (λ kv : bytes * Json.Value,
        if is_readiness_key kv.1 then
          match kv.2 with
          | Json.Bool b => Some (kv.1, Json.Bool b)
          | Json.Str s => Some (kv.1, Json.Str (cap s))
          | _ => None
          end
        else None) m))
    | _ => None
    end
  else None.

Section probes.
(** The text of a JSON value and its parser ([serde_json]). *)
Context (to_text : Json.Value → bytes) (from_text : bytes → option Json.Value).

(** src/crates/control-plane/src/storage.rs:3674-3717 [SqliteTunnelStore::record_bridge_probe] *)
Definition record_bridge_probe (s : TunnelStore) (who id tool : bytes) (result : Json.Value) (now : Z) : bool * TunnelStore :=
  match probe_from_result tool result with
  | None => (false, s)
  | Some u =>
    match owned s who id with
    | None => (false, s)
    | Some _ =>
      let old := probes s !! id in
      let row := match u with
        | PVersion v => {| probe_subject := who; agent_version := Some v;
                           readiness_json := old ≫= readiness_json; probed_at := now |}
        | PReadiness m => {| probe_subject := who; agent_version := old ≫= agent_version;
                             readiness_json := Some (to_text (Json.Object m)); probed_at := now |}
        end in
      (true, set_probes (<[id := row]> (probes s)) s)
    end
  end.

(** src/crates/control-plane/src/storage.rs:3723-3741 [SqliteTunnelStore::bridge_probe] *)
Definition bridge_probe (s : TunnelStore) (who id : bytes) : option BridgeProbe :=
  p ← probes s !! id;
  if bool_decide (probe_subject p = who) then
    Some {| p_agent_version := agent_version p;
            p_readiness := v ← readiness_json p ≫= from_text;
                           match v with Json.Object _ => Some v | _ => None end;
            p_probed_at := probed_at p |}
  else None.

End probes.

(** ** Badges *)

(** src/crates/control-plane/src/storage.rs:3750-3787 [SqliteTunnelStore::enable_badge]: [drawn] is what
    the generator gives; the public ids are unique. *)
Definition enable_badge (s : TunnelStore) (who id : bytes) (now : N) (drawn : bytes)
    : Result (option bytes) StoreError * TunnelStore :=
  match owned s who id with
  | None => (Ok None, s)
  | Some _ =>
    match b ← badges s !! id; if bool_decide (badge_subject b = who) then Some (public_id b) else None with
    | Some p => (Ok (Some p), s)
    | None =>
      let p := Hex.encode drawn in
      if bool_decide (0 < sql_count (λ _ b, bool_decide (public_id b = p)) (badges s))%nat then (Err StoreDb, s)
      else match sql_insert id {| badge_subject := who; public_id := p; badge_created := as_i64 now |} (badges s) with
           | None => (Err StoreDb, s)
           | Some t => (Ok (Some p), set_badges t s)
           end
    end
  end.

(** src/crates/control-plane/src/storage.rs:3794-3800 [SqliteTunnelStore::disable_badge] *)
Definition disable_badge (s : TunnelStore) (who id : bytes) : bool * TunnelStore :=
  match badges s !! id with
  | Some b => if bool_decide (badge_subject b = who) then (true, set_badges (delete id (badges s)) s) else (false, s)
  | None => (false, s)
  end.

(** src/crates/control-plane/src/storage.rs:3804-3812 [SqliteTunnelStore::badge_public_id] *)
Definition badge_public_id (s : TunnelStore) (who id : bytes) : option bytes :=
  b ← badges s !! id; if bool_decide (badge_subject b = who) then Some (public_id b) else None.

(** src/crates/control-plane/src/storage.rs:3820-3828 [SqliteTunnelStore::badge_lookup]: the public ids
    are unique, so the order of the rows does not matter. *)
Definition badge_lookup (s : TunnelStore) (p : bytes) : option (bytes * bytes) :=
  kb ← head (filter (λ kb : bytes * BadgeRow, public_id kb.2 = p) (map_to_list (badges s)));
  Some (badge_subject kb.2, kb.1).

(** ** Share links *)

(** src/crates/control-plane/src/storage.rs:5705-5705 [MAX_ACTIVE_SHARE_LINKS_PER_TUNNEL] *)
Definition MAX_ACTIVE_SHARE_LINKS_PER_TUNNEL : nat := 50.
(** src/crates/control-plane/src/storage.rs:5710-5710 [SHARE_LINK_PRUNE_AFTER_SECS] *)
Definition SHARE_LINK_PRUNE_AFTER_SECS : N := 7 * 24 * 60 * 60.

(** src/crates/control-plane/src/storage.rs:5739-5748 [ShareLinkMint] *)
Inductive ShareLinkMint := Minted (link_id token host : bytes) | NotEligible | TooMany.

(** src/crates/control-plane/src/storage.rs:5753-5759 [RedeemedLink] *)
Record RedeemedLink := { r_link_id : bytes; r_tunnel_id : bytes; r_single_use : bool; r_expires_at : N }.

Definition stale_link (now : N) (l : LinkRow) : bool :=
  let cutoff := as_i64 (now - SHARE_LINK_PRUNE_AFTER_SECS) in
  (expires_at l <? cutoff)%Z || match revoked_at l with Some r => (r <? cutoff)%Z | None => false end.

(** src/crates/control-plane/src/storage.rs:5732-5734 [ShareLinkRow::is_active] *)
Definition is_active (now : Z) (l : LinkRow) : bool :=
  bool_decide (revoked_at l = None) && (now <? expires_at l)%Z
  && negb (single_use l && bool_decide (is_Some (used_at l))).

Section links.
(** SHA-256 and the unpadded URL-safe alphabet of base64. *)
Context (sha256 base64url : bytes → bytes).

(** src/crates/control-plane/src/storage.rs:5698-5700 [share_link_token_hash] *)
Definition share_link_token_hash (token : bytes) : bytes := Hex.encode (sha256 token).

(** src/crates/control-plane/src/storage.rs:3846-3908 [SqliteTunnelStore::mint_share_link]: the rows pruned
    first stay when the request is refused. *)
Definition mint_share_link (s : TunnelStore) (who id : bytes) (lbl : option bytes) (ttl_secs : N) (single : bool)
    (now : N) (idb tokb : bytes) : Result ShareLinkMint StoreError * TunnelStore :=
  let kept := sql_delete (λ _, stale_link now) (links s) in
  match owned_hostname s who id with
  | None => (Ok NotEligible, s)
  | Some h =>
    let active := sql_count (λ _ l, bool_decide (link_tunnel l = id) && is_active (as_i64 now) l) kept in
    if (MAX_ACTIVE_SHARE_LINKS_PER_TUNNEL <=? active)%nat then (Ok TooMany, s)
    else
      let token := base64url tokb in
      let hash := share_link_token_hash token in
      if bool_decide (0 < sql_count (λ _ l, bool_decide (token_hash l = hash)) kept)%nat then (Err StoreDb, s)
      else match sql_insert (Hex.encode idb)
             {| link_tunnel := id; link_subject := who; link_hostname := h; token_hash := hash;
                label := l ← trim <$> lbl; if bool_decide (l = []) then None else Some l;
                expires_at := as_i64 (saturating_add64 now (N.max ttl_secs 1)); single_use := single;
                used_at := None; link_created := as_i64 now; revoked_at := None |} kept with
           | None => (Err StoreDb, s)
           | Some t => (Ok (Minted (Hex.encode idb) token h), set_links t s)
           end
  end.

Definition link_used (now : Z) (l : LinkRow) : LinkRow := {|
  link_tunnel := link_tunnel l; link_subject := link_subject l; link_hostname := link_hostname l;
  token_hash := token_hash l; label := label l; expires_at := expires_at l; single_use := single_use l;
  used_at := Some now; link_created := link_created l; revoked_at := revoked_at l |}.
Definition link_revoked (now : Z) (l : LinkRow) : LinkRow := {|
  link_tunnel := link_tunnel l; link_subject := link_subject l; link_hostname := link_hostname l;
  token_hash := token_hash l; label := label l; expires_at := expires_at l; single_use := single_use l;
  used_at := used_at l; link_created := link_created l; revoked_at := Some now |}.

(** The join of a link with its tunnel: still there, with the owner of the link, and both with the
    hostname that is asked for. *)
Definition link_joins (s : TunnelStore) (h : bytes) (l : LinkRow) : bool :=
  match tunnels s !! link_tunnel l with
  | Some r => bool_decide (subject r = link_subject l) && nocase (link_hostname l) h
              && match hostname r with Some h' => nocase h' (link_hostname l) | None => false end
  | None => false
  end.

(** src/crates/control-plane/src/storage.rs:3956-3993 [SqliteTunnelStore::redeem_share_link]: the hashes are
    unique, so the order of the rows does not matter. *)
Definition redeem_share_link (s : TunnelStore) (h token : bytes) (now : N) : option RedeemedLink * TunnelStore :=
  match head (filter (λ kl : bytes * LinkRow, token_hash kl.2 = share_link_token_hash token ∧ link_joins s h kl.2 = true)
                (map_to_list (links s))) with
  | None => (None, s)
  | Some (k, l) =>
    if bool_decide (is_Some (revoked_at l)) || (expires_at l <=? as_i64 now)%Z
       || single_use l && bool_decide (is_Some (used_at l)) then (None, s)
    else
      (Some {| r_link_id := k; r_tunnel_id := link_tunnel l; r_single_use := single_use l;
               r_expires_at := as_u64 (expires_at l) |},
       if single_use l then set_links (<[k := link_used (as_i64 now) l]> (links s)) s else s)
  end.

End links.

(** src/crates/control-plane/src/storage.rs:3939-3946 [SqliteTunnelStore::revoke_share_link] *)
Definition revoke_share_link (s : TunnelStore) (who id link_id : bytes) (now : N) : bool * TunnelStore :=
  match links s !! link_id with
  | Some l =>
    if bool_decide (link_subject l = who) && bool_decide (link_tunnel l = id) && bool_decide (revoked_at l = None)
    then (true, set_links (<[link_id := link_revoked (as_i64 now) l]> (links s)) s) else (false, s)
  | None => (false, s)
  end.

(** src/crates/control-plane/src/storage.rs:4000-4013 [SqliteTunnelStore::share_link_active] *)
Definition share_link_active (s : TunnelStore) (link_id h : bytes) (now : N) : bool :=
  match links s !! link_id with
  | Some l => link_joins s h l && bool_decide (revoked_at l = None) && (as_i64 now <? expires_at l)%Z
  | None => false
  end.

(** src/crates/control-plane/src/storage.rs:4018-4023 [SqliteTunnelStore::prune_share_links] *)
Definition prune_share_links (s : TunnelStore) (now : N) : nat * TunnelStore :=
  (sql_count (λ _, stale_link now) (links s), set_links (sql_delete (λ _, stale_link now) (links s)) s).

(** ** The certificate tier of a hostname *)

(** src/crates/control-plane/src/storage.rs:2391-2412 [CertAdmission] *)
Record CertAdmission := {
  ca_status : Status; ca_assigned : option bytes; ca_claim_state : ClaimState; ca_deadline : option Z;
  ca_queue_position : option N; ca_opt_out : bool;
}.

(** src/crates/control-plane/src/storage.rs:2426-2428 [CertAdmission::may_issue_now] *)
Definition may_issue_now (a : CertAdmission) (now : Z) : bool :=
  bool_decide (ca_status a = Gruen)
  || bool_decide (ca_claim_state a = Offered) && match ca_deadline a with Some d => (now <? d)%Z | None => false end.

(** src/crates/control-plane/src/storage.rs:3494-3500 [SqliteTunnelStore::set_cert_claim_opt_out] *)
Definition set_cert_claim_opt_out (s : TunnelStore) (who id : bytes) (on : bool) : bool * TunnelStore :=
  update_owned s who id (λ r, let c := cert r in
    row_cert {| status := status c; assigned_ca := assigned_ca c; queued_at := queued_at c;
                claim_state := claim_state c; claim_offered_at := claim_offered_at c;
                claim_deadline := claim_deadline c; pending_revert := pending_revert c; opt_out := on |} r).

(** A row that waits in the queue. *)
Definition waiting (r : TunnelRow) : bool :=
  bool_decide (status (cert r) = Gelb) && bool_decide (claim_state (cert r) = NoClaim) && negb (opt_out (cert r)).

(** How many wait in front of a time of entry: the rows that wait with an earlier one. *)
Definition ahead (s : TunnelStore) (t : Z) : N :=
  N.of_nat (sql_count (λ _ r, waiting r && match queued_at (cert r) with Some q => (q <? t)%Z | None => false end) (tunnels s)).

Definition admission_of (s : TunnelStore) (r : TunnelRow) : CertAdmission :=
  let c := cert r in {|
    ca_status := status c; ca_assigned := assigned_ca c; ca_claim_state := claim_state c; ca_deadline := claim_deadline c;
    ca_queue_position := if waiting r then ahead s <$> queued_at c else None; ca_opt_out := opt_out c |}.

(** src/crates/control-plane/src/storage.rs:4868-4875 [SqliteTunnelStore::enter_gelb_queue] *)
Definition enter_gelb_queue (s : TunnelStore) (h : bytes) (now : Z) : bool * TunnelStore :=
  let '(n, s) := update_where s (λ r, has_hostname h r && bool_decide (status (cert r) = Rot)) (λ r, let c := cert r in
    row_cert {| status := Gelb; assigned_ca := assigned_ca c; queued_at := Some now; claim_state := claim_state c;
                claim_offered_at := claim_offered_at c; claim_deadline := claim_deadline c;
                pending_revert := pending_revert c; opt_out := opt_out c |} r) in
  ((0 <? n)%nat, s).

(** src/crates/control-plane/src/storage.rs:4929-4937 [SqliteTunnelStore::offer_claim] *)
Definition offer_claim (s : TunnelStore) (h ca : bytes) (now deadline : Z) : bool * TunnelStore :=
  let '(n, s) := update_where s (λ r, has_hostname h r && bool_decide (assigned_ca (cert r) = None)) (λ r, let c := cert r in
    row_cert {| status := status c; assigned_ca := Some ca; queued_at := queued_at c; claim_state := Offered;
                claim_offered_at := Some now; claim_deadline := Some deadline;
                pending_revert := pending_revert c; opt_out := opt_out c |} r) in
  ((0 <? n)%nat, s).

(** src/crates/control-plane/src/storage.rs:4945-4963 [SqliteTunnelStore::lapse_expired_claims] *)
Definition lapse_expired_claims (s : TunnelStore) (now : Z) : nat * TunnelStore :=
  update_where s (λ r, bool_decide (claim_state (cert r) = Offered)
                       && match claim_deadline (cert r) with Some d => (d <? now)%Z | None => false end) (λ r, let c := cert r in
    row_cert {| status := status c; assigned_ca := None; queued_at := if opt_out c then None else Some now;
                claim_state := NoClaim; claim_offered_at := None; claim_deadline := None;
                pending_revert := pending_revert c; opt_out := opt_out c |} r).

Definition requeued (now : Z) (r : TunnelRow) : TunnelRow :=
  let c := cert r in
  row_cert {| status := status c; assigned_ca := assigned_ca c; queued_at := Some now; claim_state := NoClaim;
              claim_offered_at := claim_offered_at c; claim_deadline := claim_deadline c;
              pending_revert := pending_revert c; opt_out := opt_out c |} r.

(** src/crates/control-plane/src/storage.rs:4977-4984 [SqliteTunnelStore::requeue_legacy_lapsed_claims] *)
Definition requeue_legacy_lapsed_claims (s : TunnelStore) (now : Z) : nat * TunnelStore :=
  update_where s (λ r, bool_decide (claim_state (cert r) = Lapsed) && negb (opt_out (cert r))) (requeued now).

(** src/crates/control-plane/src/storage.rs:4992-5000 [SqliteTunnelStore::reclaim_cert_slot] *)
Definition reclaim_cert_slot (s : TunnelStore) (who h : bytes) (now : Z) : bool * TunnelStore :=
  let '(n, s) := update_where s (λ r, has_hostname h r && bool_decide (subject r = who)
                                      && bool_decide (claim_state (cert r) = Lapsed)) (requeued now) in
  ((0 <? n)%nat, s).

(** src/crates/control-plane/src/storage.rs:47-47 [MIN_ISSUANCE_LOG_INTERVAL_SECS] *)
Definition MIN_ISSUANCE_LOG_INTERVAL_SECS : Z := 24 * 60 * 60.

(** [i64::saturating_sub]. *)
Definition saturating_sub_i64 (a b : Z) : Z := Z.max (- 2 ^ 63) (Z.min (a - b) I64_MAX).

(** The latest issuance of a hostname in the ledger. *)
Definition last_issued (s : TunnelStore) (h : bytes) : option Z :=
  foldr (λ l acc, if bool_decide (log_hostname l = h)
                  then Some (match acc with Some m => Z.max (issued_at l) m | None => issued_at l end) else acc)
        None (issuance s).

(** The CA assigned to a hostname; hostnames are unique. *)
Definition ca_of (s : TunnelStore) (h : bytes) : option bytes :=
  kr ← head (filter (λ kr : bytes * TunnelRow, has_hostname h kr.2 = true) (map_to_list (tunnels s)));
  assigned_ca (cert kr.2).

(** A row for which an issuance is accepted, and what becomes of it. *)
Definition completes (h : bytes) (r : TunnelRow) : bool :=
  has_hostname h r && (bool_decide (status (cert r) = Gruen)
                       || bool_decide (status (cert r) = Gelb) && bool_decide (claim_state (cert r) = Offered)).
Definition issued_row (r : TunnelRow) : TunnelRow :=
  let c := cert r in
  row_cert {| status := Gruen; assigned_ca := assigned_ca c; queued_at := queued_at c; claim_state := NoClaim;
              claim_offered_at := None; claim_deadline := None; pending_revert := true; opt_out := opt_out c |} r.

(** src/crates/control-plane/src/storage.rs:5052-5108 [SqliteTunnelStore::record_issuance_complete] *)
Definition record_issuance_complete (s : TunnelStore) (h domain : bytes) (now : Z) : option bytes * TunnelStore :=
  let ca := ca_of s h in
  let '(rows, s) := update_where s (completes h) issued_row in
  if (rows =? 0)%nat then (None, s)
  else (ca, match ca with
            | None => s
            | Some ca =>
              let recently := match last_issued s h with
                | Some last => (saturating_sub_i64 now last <? MIN_ISSUANCE_LOG_INTERVAL_SECS)%Z | None => false end in
              if recently then s
              else set_issuance (issuance s ++ [{| log_ca := ca; log_domain := domain; log_hostname := h; issued_at := now |}]) s
            end).

(** src/crates/control-plane/src/storage.rs:5125-5129 [SqliteTunnelStore::prune_acme_issuance_log] *)
Definition prune_acme_issuance_log (s : TunnelStore) (cutoff : Z) : nat * TunnelStore :=
  (length (filter (λ l, (issued_at l < cutoff)%Z) (issuance s)),
   set_issuance (filter (λ l, ¬ (issued_at l < cutoff)%Z) (issuance s)) s).

(** src/crates/control-plane/src/storage.rs:5151-5156 [SqliteTunnelStore::clear_pending_revert] *)
Definition clear_pending_revert (s : TunnelStore) (h : bytes) : TunnelStore :=
  (update_where s (has_hostname h) (λ r, let c := cert r in
    row_cert {| status := status c; assigned_ca := assigned_ca c; queued_at := queued_at c; claim_state := claim_state c;
                claim_offered_at := claim_offered_at c; claim_deadline := claim_deadline c;
                pending_revert := false; opt_out := opt_out c |} r)).2.

(** src/crates/control-plane/src/storage.rs:912-919 [registered_domain] *)
Definition registered_domain (h : bytes) : bytes :=
  match split_on x2e h with
  | _ :: (_ :: _ :: _) as labels => RustStd.join [x2e] (tail labels)
  | _ => h
  end.

(** src/crates/control-plane/src/storage.rs:5165-5190 [SqliteTunnelStore::ca_budget_usage] *)
Definition ca_budget_usage (s : TunnelStore) (ca domain : bytes) (since : Z) : Z * Z :=
  (Z.of_nat (length (filter (λ l, log_ca l = ca ∧ log_domain l = domain ∧ (since <= issued_at l)%Z) (issuance s))),
   Z.of_nat (sql_count (λ _ r, bool_decide (assigned_ca (cert r) = Some ca) && bool_decide (claim_state (cert r) = Offered)
                               && match hostname r with Some h => bool_decide (registered_domain h = domain) | None => false end)
               (tunnels s))).

(** ** Alerts *)

(** src/crates/control-plane/src/storage.rs:5304-5304 [ALERT_DELIVERY_KEEP] *)
Definition ALERT_DELIVERY_KEEP : nat := 50.

(** src/crates/control-plane/src/storage.rs:5356-5363 [AlertUpsert] *)
Inductive AlertUpsert := AlertCreated (secret : bytes) | AlertUpdated.

(** src/crates/control-plane/src/storage.rs:5379-5432 [SqliteTunnelStore::upsert_alert] *)
Definition upsert_alert (s : TunnelStore) (who id url : bytes) (threshold now : Z) (drawn : bytes)
    : Result (option AlertUpsert) StoreError * TunnelStore :=
  match owned s who id with
  | None => (Ok None, s)
  | Some _ =>
    match a ← alerts s !! id; if bool_decide (alert_subject a = who) then Some a else None with
    | Some a =>
      (Ok (Some AlertUpdated),
       set_alerts (<[id := {| alert_subject := alert_subject a; webhook_url := url; secret_hex := secret_hex a;
         threshold_secs := threshold; enabled := true; state := lit "unknown"; state_since := now;
         last_seen_hint := last_seen_hint a; last_delivery_at := last_delivery_at a;
         last_delivery_status := last_delivery_status a; failures := failures a; alert_created := alert_created a |}]> (alerts s)) s)
    | None =>
      match sql_insert id {| alert_subject := who; webhook_url := url; secret_hex := Hex.encode drawn;
         threshold_secs := threshold; enabled := true; state := lit "unknown"; state_since := now;
         last_seen_hint := None; last_delivery_at := None; last_delivery_status := None; failures := 0%Z;
         alert_created := now |} (alerts s) with
      | None => (Err StoreDb, s)
      | Some t => (Ok (Some (AlertCreated (Hex.encode drawn))), set_alerts t s)
      end
    end
  end.

Definition of_deliveries (id : bytes) (d : DeliveryRow) : bool := bool_decide (delivered_for d = id).

(** src/crates/control-plane/src/storage.rs:5436-5448 [SqliteTunnelStore::delete_alert] *)
Definition delete_alert (s : TunnelStore) (who id : bytes) : bool * TunnelStore :=
  match a ← alerts s !! id; if bool_decide (alert_subject a = who) then Some a else None with
  | None => (false, s)
  | Some _ =>
    let s := set_alerts (delete id (alerts s)) s in
    (true, set_deliveries (sql_delete (λ _, of_deliveries id) (deliveries s)) (next_delivery s) s)
  end.

Definition alert_with (st : bytes) (since : Z) (hint : option Z) (at_ : option Z) (how : option bytes) (fails : Z) (a : AlertCols) : AlertCols := {|
  alert_subject := alert_subject a; webhook_url := webhook_url a; secret_hex := secret_hex a;
  threshold_secs := threshold_secs a; enabled := enabled a; state := st; state_since := since; last_seen_hint := hint;
  last_delivery_at := at_; last_delivery_status := how; failures := fails; alert_created := alert_created a |}.

(** src/crates/control-plane/src/storage.rs:5520-5526 [SqliteTunnelStore::set_alert_state] *)
Definition set_alert_state (s : TunnelStore) (id st : bytes) (since : Z) : TunnelStore :=
  set_alerts (sql_update (λ a, alert_with st since (last_seen_hint a) (last_delivery_at a) (last_delivery_status a)
                                          (failures a) a) id (alerts s)) s.

(** src/crates/control-plane/src/storage.rs:5530-5536 [SqliteTunnelStore::touch_alert_seen] *)
Definition touch_alert_seen (s : TunnelStore) (id : bytes) (seen_at : Z) : TunnelStore :=
  set_alerts (sql_update (λ a, alert_with (state a) (state_since a) (Some seen_at) (last_delivery_at a)
                                          (last_delivery_status a) (failures a) a) id (alerts s)) s.

(** The deliveries of a tunnel with their numbers, newest first. *)
Definition newest_first (id : bytes) (t : gmap Z DeliveryRow) : list (Z * DeliveryRow) :=
  sort_by (λ a b : Z * DeliveryRow, (b.1 <=? a.1)%Z)
    (filter (λ kd : Z * DeliveryRow, delivered_for kd.2 = id) (map_to_list t)).

(** src/crates/control-plane/src/storage.rs:5543-5575 [SqliteTunnelStore::record_delivery] *)
Definition record_delivery (s : TunnelStore) (id : bytes) (at_ : Z) (ev how : bytes) (det : option bytes) : TunnelStore :=
  let t := <[next_delivery s := {| delivered_for := id; ts := at_; event := ev; outcome := how; detail := det |}]> (deliveries s) in
  let keep := (take ALERT_DELIVERY_KEEP (newest_first id t)).*1 in
  let s := set_deliveries (sql_delete (λ k d, of_deliveries id d && negb (bool_decide (k ∈ keep))) t) (next_delivery s + 1) s in
  set_alerts (sql_update (λ a, alert_with (state a) (state_since a) (last_seen_hint a) (Some at_) (Some how)
    (if bool_decide (how = lit "ok") then 0%Z else if bool_decide (how = lit "failed") then (failures a + 1)%Z else failures a) a)
    id (alerts s)) s.

(** src/crates/control-plane/src/storage.rs:5310-5328 [TunnelAlert] *)
Record TunnelAlert := {
  ta_tunnel_id : bytes; ta_subject : bytes; ta_webhook_url : bytes; ta_threshold_secs : Z; ta_enabled : bool;
  ta_state : bytes; ta_state_since : Z; ta_last_seen_hint : option Z; ta_last_delivery_at : option Z;
  ta_last_delivery_status : option bytes; ta_failures : Z; ta_created_at : Z;
}.

(** src/crates/control-plane/src/storage.rs:5450-5465 [SqliteTunnelStore::alert_from_row] *)
Definition alert_from_row (id : bytes) (a : AlertCols) : TunnelAlert := {|
  ta_tunnel_id := id; ta_subject := alert_subject a; ta_webhook_url := webhook_url a;
  ta_threshold_secs := threshold_secs a; ta_enabled := enabled a; ta_state := state a; ta_state_since := state_since a;
  ta_last_seen_hint := last_seen_hint a; ta_last_delivery_at := last_delivery_at a;
  ta_last_delivery_status := last_delivery_status a; ta_failures := failures a; ta_created_at := alert_created a |}.

(** The alert of a tunnel under its owner's name. *)
Definition owned_alert (s : TunnelStore) (who id : bytes) : option AlertCols :=
  a ← alerts s !! id; if bool_decide (alert_subject a = who) then Some a else None.

(** src/crates/control-plane/src/storage.rs:5469-5477 [SqliteTunnelStore::alert_for] *)
Definition alert_for (s : TunnelStore) (who id : bytes) : option TunnelAlert := alert_from_row id <$> owned_alert s who id.

(** src/crates/control-plane/src/storage.rs:5334-5339 [AlertRow] *)
Record AlertRow := { ar_alert : TunnelAlert; ar_secret_hex : bytes; ar_name : bytes; ar_routing_token : bytes }.

(** src/crates/control-plane/src/storage.rs:5479-5486 [SqliteTunnelStore::alert_row_from_row]: with the tunnel it joins. *)
Definition alert_row_from_row (s : TunnelStore) (id : bytes) (a : AlertCols) : option AlertRow :=
  r ← owned s (alert_subject a) id;
  Some {| ar_alert := alert_from_row id a; ar_secret_hex := secret_hex a; ar_name := name r;
          ar_routing_token := routing_token r |}.

(** src/crates/control-plane/src/storage.rs:5490-5502 [SqliteTunnelStore::alert_row_for] *)
Definition alert_row_for (s : TunnelStore) (who id : bytes) : option AlertRow :=
  owned_alert s who id ≫= alert_row_from_row s id.

(** src/crates/control-plane/src/storage.rs:5506-5515 [SqliteTunnelStore::all_enabled_alerts] *)
Definition all_enabled_alerts (s : TunnelStore) : list AlertRow :=
  omap (λ ka : bytes * AlertCols, if enabled ka.2 then alert_row_from_row s ka.1 ka.2 else None)
    (sort_by (λ a b : bytes * AlertCols, bytes_leb a.1 b.1) (map_to_list (alerts s))).

(** src/crates/control-plane/src/storage.rs:5579-5598 [SqliteTunnelStore::deliveries_for] *)
Definition deliveries_for (s : TunnelStore) (who id : bytes) (limit : nat) : list (Z * DeliveryRow) :=
  match owned_alert s who id with Some _ => take limit (newest_first id (deliveries s)) | None => [] end.

(** src/crates/control-plane/src/storage.rs:5603-5611 [SqliteTunnelStore::delivery_count_since] *)
Definition delivery_count_since (s : TunnelStore) (who : bytes) (since : Z) : nat :=
  sql_count (λ _ d, (since <=? ts d)%Z && bool_decide (outcome d ∈ [lit "ok"; lit "failed"])
                    && match alerts s !! delivered_for d with Some a => bool_decide (alert_subject a = who) | None => false end)
    (deliveries s).

(** ** Queries whose order of equal keys SQLite does not fix

    [scan] and [scan2] are the orders in which the rows of a table are delivered. *)

Section queries.
Context (scan : ∀ R, gmap bytes R → list (bytes * R)) (scan2 : ∀ R, gmap (bytes * bytes) R → list (bytes * bytes * R)).

Definition rows (s : TunnelStore) : list (bytes * TunnelRow) := scan _ (tunnels s).
Definition the_view (kr : bytes * TunnelRow) : SubjectTunnel := view kr.1 kr.2.

(** [ORDER BY created_at DESC, id]. *)
Definition newest_leb (a b : bytes * TunnelRow) : bool :=
  (created_at b.2 <? created_at a.2)%Z
  || (created_at a.2 =? created_at b.2)%Z && bytes_leb a.1 b.1.

(** src/crates/control-plane/src/storage.rs:3068-3084 [SqliteTunnelStore::list_for_subject] *)
Definition list_for_subject (s : TunnelStore) (who : bytes) : list SubjectTunnel :=
  the_view <$> sort_by newest_leb (filter (λ kr : bytes * TunnelRow, subject kr.2 = who) (rows s)).

(** src/crates/control-plane/src/storage.rs:3089-3103 [SqliteTunnelStore::all] *)
Definition all (s : TunnelStore) : list SubjectTunnel :=
  the_view <$> sort_by (λ a b : bytes * TunnelRow, bytes_leb a.1 b.1) (rows s).

(** src/crates/control-plane/src/storage.rs:4733-4758 [SqliteTunnelStore::list_authorized_for_subject] *)
Definition list_authorized_for_subject (s : TunnelStore) (who : bytes) : list (SubjectTunnel * bool) :=
  (λ kr, (the_view kr, bool_decide (subject kr.2 = who))) <$>
    sort_by newest_leb (filter (λ kr : bytes * TunnelRow, subject kr.2 = who ∨ is_Some (grants s !! (kr.1, who))) (rows s)).

(** src/crates/control-plane/src/storage.rs:3280-3285 [SqliteTunnelStore::list_revoked_tokens] *)
Definition list_revoked_tokens (s : TunnelStore) : list bytes := (scan _ (revoked_tokens s)).*1.

Definition name_leb (a b : bytes * TunnelRow) : bool := bytes_leb (name a.2) (name b.2).

(** src/crates/control-plane/src/storage.rs:4033-4052 [SqliteTunnelStore::rest_bridges_for_subject] *)
Definition rest_bridges_for_subject (s : TunnelStore) (who : bytes) : list (SubjectTunnel * bytes) :=
  (λ kr, (the_view kr, rest_bridge_mode kr.2)) <$>
    sort_by name_leb (filter (λ kr : bytes * TunnelRow, subject kr.2 = who ∧ rest_bridge_mode kr.2 ≠ lit "off") (rows s)).

(** src/crates/control-plane/src/storage.rs:4086-4102 [SqliteTunnelStore::tunnels_linked_to_topology] *)
Definition tunnels_linked_to_topology (s : TunnelStore) (who topology : bytes) : list SubjectTunnel :=
  the_view <$> sort_by name_leb (filter (λ kr : bytes * TunnelRow, subject kr.2 = who ∧ topology_id kr.2 = Some topology) (rows s)).

(** The first row with a hostname, whatever the case of its letters. *)
Definition by_hostname_nocase (s : TunnelStore) (h : bytes) : option TunnelRow :=
  snd <$> head (filter (λ kr : bytes * TunnelRow, match hostname kr.2 with Some h' => nocase h' h | None => false end = true) (rows s)).
Definition by_hostname (s : TunnelStore) (h : bytes) : option TunnelRow :=
  snd <$> head (filter (λ kr : bytes * TunnelRow, has_hostname h kr.2 = true) (rows s)).

(** src/crates/control-plane/src/storage.rs:4118-4129 [SqliteTunnelStore::require_login_for_hostname] *)
Definition require_login_for_hostname (s : TunnelStore) (h : bytes) : bool :=
  default false ((λ r, require_login (gate r)) <$> by_hostname_nocase s h).

(** src/crates/control-plane/src/storage.rs:4321-4332 [SqliteTunnelStore::allow_any_login_for_hostname] *)
Definition allow_any_login_for_hostname (s : TunnelStore) (h : bytes) : bool :=
  default false ((λ r, allow_any (gate r)) <$> by_hostname_nocase s h).

(** src/crates/control-plane/src/storage.rs:4767-4775 [SqliteTunnelStore::routing_token_for_hostname] *)
Definition routing_token_for_hostname (s : TunnelStore) (h : bytes) : option bytes := routing_token <$> by_hostname s h.

(** src/crates/control-plane/src/storage.rs:4783-4810 [SqliteTunnelStore::cert_admission_for_hostname] *)
Definition cert_admission_for_hostname (s : TunnelStore) (h : bytes) : option CertAdmission :=
  admission_of s <$> by_hostname s h.

(** src/crates/control-plane/src/storage.rs:4821-4863 [SqliteTunnelStore::cert_admission_for_hostnames]: the
    times of entry are sorted once and each position is found in them. *)
Definition queue_times (s : TunnelStore) : list Z :=
  sort_by Z.leb (omap (λ kr : bytes * TunnelRow, if waiting kr.2 then queued_at (cert kr.2) else None) (rows s)).
Fixpoint partition_point (p : Z → bool) (l : list Z) : nat :=
  match l with [] => 0%nat | x :: l => if p x then Datatypes.S (partition_point p l) else 0%nat end.
Definition batched_admission (s : TunnelStore) (r : TunnelRow) : CertAdmission :=
  let c := cert r in {|
    ca_status := status c; ca_assigned := assigned_ca c; ca_claim_state := claim_state c; ca_deadline := claim_deadline c;
    ca_queue_position := if waiting r
      then (λ qa, N.of_nat (partition_point (λ x, (x <? qa)%Z) (queue_times s))) <$> queued_at c else None;
    ca_opt_out := opt_out c |}.
Definition cert_admission_for_hostnames (s : TunnelStore) (hs : list bytes) : gmap bytes CertAdmission :=
  list_to_map (omap (λ kr : bytes * TunnelRow,
      h ← hostname kr.2; if bool_decide (h ∈ hs) then Some (h, batched_admission s kr.2) else None) (rows s)).

(** src/crates/control-plane/src/storage.rs:4883-4889 [SqliteTunnelStore::rot_hostnames] *)
Definition rot_hostnames (s : TunnelStore) : list bytes :=
  omap (hostname ∘ snd) (filter (λ kr : bytes * TunnelRow, status (cert kr.2) = Rot) (rows s)).

(** src/crates/control-plane/src/storage.rs:4899-4905 [SqliteTunnelStore::gelb_hostnames] *)
Definition gelb_hostnames (s : TunnelStore) : list bytes :=
  omap (hostname ∘ snd) (filter (λ kr : bytes * TunnelRow, status (cert kr.2) = Gelb) (rows s)).

(** [ORDER BY queued_at ASC]: SQLite puts NULL first. *)
Definition queued_leb (a b : bytes * TunnelRow) : bool :=
  match queued_at (cert a.2), queued_at (cert b.2) with
  | None, _ => true | Some _, None => false | Some x, Some y => (x <=? y)%Z end.

(** src/crates/control-plane/src/storage.rs:4909-4922 [SqliteTunnelStore::gelb_queue_fifo]: a row without a
    hostname fails the query. *)
Definition gelb_queue_fifo (s : TunnelStore) : option (list bytes) :=
  mapM (hostname ∘ snd) (sort_by queued_leb
    (filter (λ kr : bytes * TunnelRow, waiting kr.2 = true ∧ assigned_ca (cert kr.2) = None) (rows s))).

(** src/crates/control-plane/src/storage.rs:5139-5146 [SqliteTunnelStore::pending_revert_hostnames] *)
Definition pending_revert_hostnames (s : TunnelStore) : list bytes :=
  omap (hostname ∘ snd) (filter (λ kr : bytes * TunnelRow, status (cert kr.2) = Gruen ∧ pending_revert (cert kr.2) = true) (rows s)).

(** src/crates/control-plane/src/storage.rs:4263-4284 [SqliteTunnelStore::direct_serving_candidates] *)
Definition direct_serving_candidates (s : TunnelStore) : list (bytes * bytes * bytes * DirectServingState) :=
  omap (λ kr : bytes * TunnelRow, let d := direct kr.2 in
    h ← hostname kr.2; e ← direct_endpoint d;
    if direct_enabled d then Some (kr.1, h, e, {| advertised := direct_advertised d;
                                                  consecutive_failures := direct_failures d |}) else None) (rows s).

(** src/crates/control-plane/src/storage.rs:4384-4399 [SqliteTunnelStore::login_allowlist_list] *)
Definition login_allowlist_list (s : TunnelStore) (who id : bytes) : option (list bytes) :=
  h ← owned_hostname s who id;
  Some ((λ kr : bytes * bytes * AllowRow, kr.1.2) <$>
    sort_by (λ a b : bytes * bytes * AllowRow, (added_at a.2 <=? added_at b.2)%Z)
      (filter (λ kr, kr.1.1 = h) (scan2 _ (login_allow s)))).

(** src/crates/control-plane/src/storage.rs:4466-4489 [SqliteTunnelStore::pending_access_requests] *)
Definition pending_access_requests (s : TunnelStore) (who id : bytes) : option (list (bytes * bytes * Z)) :=
  h ← owned_hostname s who id;
  Some ((λ kr : bytes * bytes * RequestRow, (kr.1.2, note kr.2, requested_at kr.2)) <$>
    sort_by (λ a b : bytes * bytes * RequestRow, (requested_at a.2 <=? requested_at b.2)%Z)
      (filter (λ kr, nocase kr.1.1 h = true) (scan2 _ (requests s)))).

(** src/crates/control-plane/src/storage.rs:5241-5252 [SqliteTunnelStore::list_grants] *)
Definition list_grants (s : TunnelStore) (who id : bytes) : Result (list bytes) GrantError :=
  if bool_decide (owner_of s id = Some who) then
    Ok ((λ kr : bytes * bytes * (), kr.1.2) <$>
      sort_by (λ a b : bytes * bytes * (), bytes_leb a.1.2 b.1.2) (filter (λ kr, kr.1.1 = id) (scan2 _ (grants s))))
  else Err NotOwner.

(** src/crates/control-plane/src/storage.rs:4180-4195 [SqliteTunnelStore::list_disabled_hostnames] *)
Definition list_disabled_hostnames (s : TunnelStore) : list (bytes * DisabledRow) :=
  sort_by (λ a b : bytes * DisabledRow, (disabled_at b.2 <=? disabled_at a.2)%Z) (scan _ (disabled s)).

(** src/crates/control-plane/src/storage.rs:3913-3933 [SqliteTunnelStore::share_links_for] *)
Definition share_links_for (s : TunnelStore) (who id : bytes) : list (bytes * LinkRow) :=
  sort_by (λ a b : bytes * LinkRow, (link_created b.2 <? link_created a.2)%Z
             || (link_created a.2 =? link_created b.2)%Z && bytes_leb a.1 b.1)
    (filter (λ kl : bytes * LinkRow, link_tunnel kl.2 = id ∧ link_subject kl.2 = who) (scan _ (links s))).

(** src/crates/control-plane/src/storage.rs:4434-4442 [SqliteTunnelStore::record_access_request]: what is
    looked up first, on a connection of its own and without the writer's lock. *)
Definition access_request_checked (s : TunnelStore) (h : bytes) : option bytes :=
  h ← Hostname.normalize_hostname h; if require_login_for_hostname s h then Some h else None.

(** src/crates/control-plane/src/storage.rs:4443-4458 [SqliteTunnelStore::record_access_request]: what is then
    written under the lock. *)
Definition access_request_written (s : TunnelStore) (h email note_ : bytes) (now : N) : TunnelStore :=
  let t := <[(h, to_ascii_lowercase email) := {| note := note_; requested_at := as_i64 now |}]> (requests s) in
  let keep := (λ kr : bytes * bytes * RequestRow, kr.1.2) <$> take MAX_PENDING_ACCESS_REQUESTS_PER_HOSTNAME
    (sort_by (λ a b : bytes * bytes * RequestRow, (requested_at b.2 <=? requested_at a.2)%Z)
       (filter (λ kr : bytes * bytes * RequestRow, kr.1.1 = h) (scan2 _ t))) in
  set_requests (sql_delete (λ k _, bool_decide (k.1 = h) && negb (bool_decide (k.2 ∈ keep))) t) s.

(** src/crates/control-plane/src/storage.rs:4434-4459 [SqliteTunnelStore::record_access_request]: with nothing in
    between. *)
Definition record_access_request (s : TunnelStore) (h email note_ : bytes) (now : N) : bool * TunnelStore :=
  match access_request_checked s h with
  | Some h => (true, access_request_written s h email note_ now)
  | None => (false, s)
  end.

(** src/crates/control-plane/src/storage.rs:3441-3460 [SqliteTunnelStore::access_policies_by_token]: the map that
    the rows fill one by one, so that of two rows with the same token the later one counts. *)
Definition access_policies_by_token (from_json : bytes → option AccessWindow.AccessPolicy) (s : TunnelStore)
    : gmap bytes AccessWindow.AccessPolicy :=
  foldl (λ out (kp : bytes * PolicyRow),
    match tunnels s !! kp.1, parse_access_policy from_json (policy_json kp.2) with
    | Some r, Some p => <[routing_token r := p]> out
    | _, _ => out
    end) ∅ (scan _ (policies s)).

End queries.

End TunnelStore.
