(* ===== verification/TunnelRuns.v ===== *)
(** * What the tunnel store keeps

    The invariants and guarantees of [TunnelStore] over any sequence of its operations: owners,
    hostnames and what depends on a tunnel stay together, a freed hostname passes nothing on, a
    spent or revoked share link stays dead, a certificate once issued is kept, the ledger of
    issuances grows by at most one row a day and hostname, and the batched admission agrees with
    the single one. *)

From S2P Require Import Prelude RustStd Maps Codec Sqlite Wire AccessWindow Receipts FrontDoor TunnelStore.
Import TunnelStore.

Module TunnelRuns.


(** ** Runs of the store *)

Section runs.
Context (sha256 base64url : bytes → bytes) (to_json : AccessWindow.AccessPolicy → bytes) (to_text : Json.Value → bytes).
Context (scan : ∀ R, gmap bytes R → list (bytes * R)) (scan2 : ∀ R, gmap (bytes * bytes) R → list (bytes * bytes * R)).

(** Every operation that writes. The callers of [create] normalize the hostname first; an access
    request is the write that follows a check, made in this state or an earlier one. *)
Inductive Op :=
| OpCreate (who nm : bytes) (raw : option bytes) (now : N) (idb tokb : bytes)
| OpCreateLimited (who nm : bytes) (raw : option bytes) (max now : N) (idb tokb : bytes)
| OpRevoke (who id : bytes) (now : N)
| OpTransfer (id from to : bytes) (target_exists : Result bool StoreError)
| OpGrant (who id grantee : bytes) | OpRevokeGrant (who id grantee : bytes)
| OpSetPolicy (who id : bytes) (p : AccessWindow.AccessPolicy) (now : Z) | OpClearPolicy (who id : bytes)
| OpRequireLogin (who id : bytes) (on : bool) | OpAllowAny (who id : bytes) (on : bool)
| OpAllow (who id email : bytes) (now : N) | OpDisallow (who id email : bytes)
| OpRequest (raw email note_ : bytes) (now : N) | OpDismiss (who id email : bytes)
| OpDisable (h who : bytes) (at_ : Z) | OpEnable (h : bytes)
| OpRename (who id nm : bytes) | OpTopology (who id : bytes) (topology : option bytes)
| OpMode (who id mode : bytes) | OpBridgeGrant (who id hex : bytes)
| OpDirect (who id : bytes) (on : bool) (endpoint : option bytes)
| OpDirectProbe (id : bytes) (st : DirectServingState) (now : N)
| OpProbe (who id tool : bytes) (result : Json.Value) (now : Z)
| OpBadge (who id : bytes) (now : N) (drawn : bytes) | OpNoBadge (who id : bytes)
| OpMint (who id : bytes) (lbl : option bytes) (ttl_secs : N) (single : bool) (now : N) (idb tokb : bytes)
| OpRedeem (h token : bytes) (now : N) | OpRevokeLink (who id link_id : bytes) (now : N) | OpPruneLinks (now : N)
| OpOptOut (who id : bytes) (on : bool) | OpGelb (h : bytes) (now : Z) | OpOffer (h ca : bytes) (now deadline : Z)
| OpLapse (now : Z) | OpRequeue (now : Z) | OpReclaim (who h : bytes) (now : Z)
| OpIssued (h domain : bytes) (now : Z) | OpPruneLog (cutoff : Z) | OpReverted (h : bytes)
| OpAlert (who id url : bytes) (threshold now : Z) (drawn : bytes) | OpNoAlert (who id : bytes)
| OpAlertState (id st : bytes) (since : Z) | OpSeen (id : bytes) (seen_at : Z)
| OpDelivery (id : bytes) (at_ : Z) (ev how : bytes) (det : option bytes).

Definition exec (s : TunnelStore) (o : Op) : TunnelStore :=
  match o with
  | OpCreate w n raw now i t => (create s w n (raw ≫= Hostname.normalize_hostname) now i t).2
  | OpCreateLimited w n raw m now i t => (create_if_under_owned_limit s w n (raw ≫= Hostname.normalize_hostname) m now i t).2
  | OpRevoke w i now => (revoke s w i now).2
  | OpTransfer i f t x => (transfer_tunnel s i f t x).2
  | OpGrant w i g => (grant s w i g).2 | OpRevokeGrant w i g => (revoke_grant s w i g).2
  | OpSetPolicy w i p now => (set_access_policy to_json s w i p now).2 | OpClearPolicy w i => (clear_access_policy s w i).2
  | OpRequireLogin w i b => (set_require_login s w i b).2 | OpAllowAny w i b => (set_allow_any_login s w i b).2
  | OpAllow w i e now => (login_allowlist_add s w i e now).2 | OpDisallow w i e => (login_allowlist_remove s w i e).2
  | OpRequest raw e n now => match Hostname.normalize_hostname raw with Some h => access_request_written scan2 s h e n now | None => s end
  | OpDismiss w i e => (dismiss_access_request s w i e).2
  | OpDisable h w t => disable_hostname s h w t | OpEnable h => (enable_hostname s h).2
  | OpRename w i n => (rename s w i n).2 | OpTopology w i t => (set_topology_link s w i t).2
  | OpMode w i m => (set_rest_bridge_mode s w i m).2 | OpBridgeGrant w i h => (set_bridge_grant s w i h).2
  | OpDirect w i b e => (set_direct_serving s w i b e).2 | OpDirectProbe i st now => record_direct_probe s i st now
  | OpProbe w i t r now => (record_bridge_probe to_text s w i t r now).2
  | OpBadge w i now d => (enable_badge s w i now d).2 | OpNoBadge w i => (disable_badge s w i).2
  | OpMint w i l ttl b now x y => (mint_share_link sha256 base64url s w i l ttl b now x y).2
  | OpRedeem h t now => (redeem_share_link sha256 s h t now).2
  | OpRevokeLink w i k now => (revoke_share_link s w i k now).2 | OpPruneLinks now => (prune_share_links s now).2
  | OpOptOut w i b => (set_cert_claim_opt_out s w i b).2 | OpGelb h now => (enter_gelb_queue s h now).2
  | OpOffer h ca now d => (offer_claim s h ca now d).2 | OpLapse now => (lapse_expired_claims s now).2
  | OpRequeue now => (requeue_legacy_lapsed_claims s now).2 | OpReclaim w h now => (reclaim_cert_slot s w h now).2
  | OpIssued h d now => (record_issuance_complete s h d now).2 | OpPruneLog c => (prune_acme_issuance_log s c).2
  | OpReverted h => clear_pending_revert s h
  | OpAlert w i u t now d => (upsert_alert s w i u t now d).2 | OpNoAlert w i => (delete_alert s w i).2
  | OpAlertState i st t => set_alert_state s i st t | OpSeen i t => touch_alert_seen s i t
  | OpDelivery i t e h d => record_delivery s i t e h d
  end.

(** *** What the tables keep *)

(** The owner and the hostname of every tunnel. *)
Definition ident (s : TunnelStore) : gmap bytes (bytes * option bytes) := (λ r, (subject r, hostname r)) <$> tunnels s.

(** What the certificate columns of a row say together. *)
Record cert_ok (r : TunnelRow) : Prop := {
  ck_host : status (cert r) ≠ Rot → hostname r ≠ None;
  ck_lapsed : claim_state (cert r) ≠ Lapsed;
  ck_offered : claim_state (cert r) = Offered → assigned_ca (cert r) ≠ None ∧ claim_deadline (cert r) ≠ None;
  ck_gruen : status (cert r) = Gruen → claim_state (cert r) = NoClaim ∧ assigned_ca (cert r) ≠ None;
  ck_free : status (cert r) ≠ Gruen → claim_state (cert r) = NoClaim → assigned_ca (cert r) = None;
}.

Record wf (s : TunnelStore) : Prop := {
  wf_unique : ∀ i j a b h, ident s !! i = Some (a, Some h) → ident s !! j = Some (b, Some h) → i = j;
  wf_lower : ∀ i a h, ident s !! i = Some (a, Some h) → to_ascii_lowercase h = h;
  wf_grants : ∀ i g, is_Some (grants s !! (i, g)) → is_Some (ident s !! i);
  wf_allow : ∀ h e, is_Some (login_allow s !! (h, e)) → ∃ i a, ident s !! i = Some (a, Some h);
  wf_policies : ∀ i p, policies s !! i = Some p → fst <$> ident s !! i = Some (policy_subject p);
  wf_badges : ∀ i b, badges s !! i = Some b → fst <$> ident s !! i = Some (badge_subject b);
  wf_alerts : ∀ i a, alerts s !! i = Some a → fst <$> ident s !! i = Some (alert_subject a);
  wf_probes : ∀ i p, probes s !! i = Some p → fst <$> ident s !! i = Some (probe_subject p);
  wf_links : ∀ k l, links s !! k = Some l → ident s !! link_tunnel l = Some (link_subject l, Some (link_hostname l));
  wf_badge_ids : ∀ i j a b, badges s !! i = Some a → badges s !! j = Some b → public_id a = public_id b → i = j;
  wf_hashes : ∀ i j a b, links s !! i = Some a → links s !! j = Some b → token_hash a = token_hash b → i = j;
  wf_cert : ∀ i r, tunnels s !! i = Some r → cert_ok r;
}.

Lemma wf_fresh : wf empty.
Proof. constructor; intros; unfold ident in *; cbn in *; repeat (rewrite ?fmap_empty, ?lookup_empty in *); try done; by destruct H. Qed.

Lemma lookup_ident s i : ident s !! i = (λ r, (subject r, hostname r)) <$> tunnels s !! i.
Proof. unfold ident. by rewrite lookup_fmap. Qed.

Lemma owned_Some s who id r : owned s who id = Some r ↔ tunnels s !! id = Some r ∧ subject r = who.
Proof.
  unfold owned. destruct (tunnels s !! id) as [r'|]; cbn; [|naive_solver]. case_bool_decide; naive_solver.
Qed.

Lemma owned_ident s who id r : owned s who id = Some r → ident s !! id = Some (who, hostname r).
Proof. intros [E <-]%owned_Some. by rewrite lookup_ident, E. Qed.

Lemma owned_hostname_ident s who id h : owned_hostname s who id = Some h → ident s !! id = Some (who, Some h).
Proof. intros (r & E & <-)%bind_Some. by apply owned_ident. Qed.

Lemma owner_of_ident s who id : owner_of s id = Some who → fst <$> ident s !! id = Some who.
Proof. unfold owner_of. rewrite lookup_ident. by destruct (tunnels s !! id). Qed.

(** Only the rows' own columns change, not who owns them nor their hostnames. *)
Lemma wf_rows s t :
  wf s → (λ r, (subject r, hostname r)) <$> t = ident s → (∀ i r, t !! i = Some r → cert_ok r) → wf (set_tunnels t s).
Proof.
  intros [] E C. assert (ident (set_tunnels t s) = ident s) as Ei by done.
  constructor; rewrite ?Ei; done.
Qed.

Lemma ident_insert (t : gmap bytes TunnelRow) id r r' :
  t !! id = Some r → subject r' = subject r → hostname r' = hostname r →
  (λ r, (subject r, hostname r)) <$> <[id := r']> t = (λ r : TunnelRow, (subject r, hostname r)) <$> t.
Proof.
  intros E S H. rewrite fmap_insert. rewrite S, H. apply insert_id. by rewrite lookup_fmap, E.
Qed.

Lemma wf_update_owned s who id f :
  wf s → (∀ r, subject (f r) = subject r ∧ hostname (f r) = hostname r) → (∀ r, cert_ok r → cert_ok (f r)) →
  wf (update_owned s who id f).2.
Proof.
  intros W Hf Hc. unfold update_owned. destruct (owned s who id) as [r|] eqn:O; [|done].
  apply owned_Some in O as [E _]. apply wf_rows; [done| |].
  - eapply ident_insert; [done|apply Hf..].
  - intros i r'. rewrite lookup_insert_Some. intros [[<- <-]|[_ H]]; [apply Hc|]; by eapply (wf_cert _ W).
Qed.

Lemma wf_update_where s p f :
  wf s → (∀ r, subject (f r) = subject r ∧ hostname (f r) = hostname r) →
  (∀ r, cert_ok r → p r = true → cert_ok (f r)) → wf (update_where s p f).2.
Proof.
  intros W Hf Hc. apply wf_rows; [done| |].
  - unfold ident. rewrite <- map_fmap_compose. apply map_fmap_ext. intros i r _. cbn.
    destruct (p r); [|done]. by destruct (Hf r) as [-> ->].
  - intros i r'. rewrite lookup_fmap. intros (r & E & ->)%fmap_Some. pose proof (wf_cert _ W _ _ E).
    destruct (p r) eqn:Ep; auto.
Qed.

(** **** Creating, revoking, moving *)

Lemma hostname_taken_false s h :
  hostname_taken s (Some h) = false → ∀ i a, ident s !! i ≠ Some (a, Some h).
Proof.
  cbn. rewrite bool_decide_eq_false. intros N i a E. apply N. unfold sql_count.
  rewrite lookup_ident in E. destruct (tunnels s !! i) as [r|] eqn:Er; [|done]. cbn in E. simplify_eq.
  apply Nat.neq_0_lt_0. rewrite map_size_ne_0_lookup. exists i, r. apply map_lookup_filter_Some.
  split; [done|]. cbn. unfold has_hostname. by apply bool_decide_eq_true.
Qed.

(** A tunnel with an id that was free. *)
Lemma ident_new s id r i :
  tunnels s !! id = None →
  ident (set_tunnels (<[id := r]> (tunnels s)) s) !! i =
  if decide (i = id) then Some (subject r, hostname r) else ident s !! i.
Proof.
  intros N. rewrite !lookup_ident. cbn. destruct (decide (i = id)) as [->|]; by rewrite ?lookup_insert_eq, ?lookup_insert_ne.
Qed.

Lemma wf_created s who nm host now idb tokb :
  wf s → (∀ h, host = Some h → to_ascii_lowercase h = h) → wf (create s who nm host now idb tokb).2.
Proof.
  intros W L. unfold create. destruct (hostname_taken s host) eqn:T; [done|].
  destruct (sql_insert _ _ _) as [t|] eqn:I; [|done]. apply sql_insert_Some in I as [N ->].
  set (r := new_row who nm host now (Hex.encode tokb)). set (id := Hex.encode idb) in *.
  assert (∀ i x, ident s !! i = Some x → i ≠ id) as Ne.
  { intros i x E ->. rewrite lookup_ident, N in E. done. }
  assert (∀ i x, ident s !! i = Some x → ident (set_tunnels (<[id := r]> (tunnels s)) s) !! i = Some x) as Mono.
  { intros i x E. rewrite ident_new by done. by rewrite decide_False by eauto. }
  assert (∀ i w, fst <$> ident s !! i = Some w → fst <$> ident (set_tunnels (<[id := r]> (tunnels s)) s) !! i = Some w) as Mono1.
  { intros i w (x & E & ->)%fmap_Some. by rewrite (Mono _ _ E). }
  assert (∀ h i a, host = Some h → ident s !! i ≠ Some (a, Some h)) as Free.
  { intros h i a ->. by apply hostname_taken_false. }
  destruct W. constructor; cbn [grants login_allow policies badges alerts probes links set_tunnels snd]; eauto.
  - intros i j a b h. rewrite !ident_new by done. do 2 destruct (decide _); subst; cbn; intros; simplify_eq; try done;
      [by edestruct Free|by edestruct Free|eauto].
  - intros i a h. rewrite ident_new by done. destruct (decide _); cbn; intros; simplify_eq; eauto.
  - intros i g G. destruct (wf_grants0 i g G) as [x E]. exists x. by apply Mono.
  - intros h e A. destruct (wf_allow0 h e A) as (i & a & E). eauto.
  - intros i r'. cbn. rewrite lookup_insert_Some. intros [[<- <-]|[_ H]]; [|eauto].
    by constructor; cbn.
Qed.

Lemma nocase_lower a b : to_ascii_lowercase a = a → to_ascii_lowercase b = b → nocase a b = bool_decide (a = b).
Proof. intros A B. unfold nocase. by rewrite A, B. Qed.

(** What a revoked tunnel leaves behind. *)
Lemma revoke_tables s who id now r :
  owned s who id = Some r →
  let s' := (revoke s who id now).2 in
  tunnels s' = delete id (tunnels s) ∧
  login_allow s' = match hostname r with Some h => sql_delete (of_host h) (login_allow s) | None => login_allow s end ∧
  requests s' = match hostname r with Some h => sql_delete (of_host h) (requests s) | None => requests s end ∧
  policies s' = delete id (policies s) ∧ alerts s' = delete id (alerts s) ∧
  grants s' = sql_delete (λ k _, bool_decide (k.1 = id)) (grants s) ∧ badges s' = delete id (badges s) ∧
  probes s' = delete id (probes s) ∧ links s' = sql_delete (λ _ l, bool_decide (link_tunnel l = id)) (links s) ∧
  revoked_tokens s' = <[routing_token r := as_i64 now]> (revoked_tokens s).
Proof. intros O. unfold revoke. rewrite O. by destruct (hostname r). Qed.

Lemma wf_revoked_tunnel s who id now : wf s → wf (revoke s who id now).2.
Proof.
  intros W. destruct (owned s who id) as [r|] eqn:O; [|unfold revoke; by rewrite O].
  pose proof (revoke_tables s who id now r O) as T. cbv zeta in T. set (s' := (revoke s who id now).2) in *.
  destruct T as (Et & Ea & _ & Ep & El & Eg & Eb & Er & Ek & _).
  assert (∀ i, ident s' !! i = if decide (i = id) then None else ident s !! i) as Ei.
  { intros i. rewrite !lookup_ident, Et. destruct (decide (i = id)) as [->|]; by rewrite ?lookup_delete_eq, ?lookup_delete_ne. }
  assert (∀ i x, ident s' !! i = Some x → ident s !! i = Some x ∧ i ≠ id) as Back.
  { intros i x. rewrite Ei. by destruct (decide _). }
  assert (∀ i x, ident s !! i = Some x → i ≠ id → ident s' !! i = Some x) as Fwd.
  { intros i x. rewrite Ei. by destruct (decide _). }
  assert (∀ i w, fst <$> ident s !! i = Some w → i ≠ id → fst <$> ident s' !! i = Some w) as Fwd1.
  { intros i w (x & E & ->)%fmap_Some N. by rewrite (Fwd _ _ E N). }
  pose proof (owned_ident _ _ _ _ O) as Oi. destruct W. constructor.
  - intros i j a b h [E _]%Back [E' _]%Back. eauto.
  - intros i a h [E _]%Back. eauto.
  - intros i g. rewrite Eg. intros [[] [H N]%lookup_sql_delete]. cbn in N. bool_facts.
    destruct (wf_grants0 i g) as [x E]; [by eexists|]. eauto.
  - intros h e. rewrite Ea. intros [x Hx].
    assert (login_allow s !! (h, e) = Some x ∧ ∀ h', hostname r = Some h' → nocase h h' = false) as [Hx' Nh].
    { destruct (hostname r) as [h'|]; [|by split]. apply lookup_sql_delete in Hx as [? N]. split; [done|]. by intros ? [= <-]. }
    destruct (wf_allow0 h e) as (i & a & E); [by eexists|]. exists i, a. apply Fwd; [done|]. intros ->.
    pose proof (wf_lower0 _ _ _ E) as L. rewrite Oi in E. injection E as -> Eh. specialize (Nh h Eh).
    by rewrite nocase_lower, bool_decide_eq_true_2 in Nh.
  - intros i p. rewrite Ep. intros [N H]%lookup_delete_Some. eauto.
  - intros i p. rewrite Eb. intros [N H]%lookup_delete_Some. eauto.
  - intros i p. rewrite El. intros [N H]%lookup_delete_Some. eauto.
  - intros i p. rewrite Er. intros [N H]%lookup_delete_Some. eauto.
  - intros k l. rewrite Ek. intros [H N]%lookup_sql_delete. bool_facts. eauto.
  - intros i j a b. rewrite Eb. intros [_ H]%lookup_delete_Some [_ H']%lookup_delete_Some. eauto.
  - intros i j a b. rewrite Ek. intros [H _]%lookup_sql_delete [H' _]%lookup_sql_delete. eauto.
  - intros i r'. rewrite Et. intros [_ H]%lookup_delete_Some. eauto.
Qed.

Lemma wf_transfer s id from to x : wf s → wf (transfer_tunnel s id from to x).2.
Proof.
  intros W. unfold transfer_tunnel. destruct (tunnels s !! id) as [r|] eqn:E; [|done].
  case_bool_decide as B1; [done|]. case_bool_decide as B2; [|done]. cbn [negb].
  destruct x as [[|]|]; [|done..]. cbn [snd].
  set (s' := set_grants _ _).
  assert (∀ i, ident s' !! i = if decide (i = id) then Some (to, hostname r) else ident s !! i) as Ei.
  { intros i. rewrite !lookup_ident. cbn. destruct (decide (i = id)) as [->|]; by rewrite ?lookup_insert_eq, ?lookup_insert_ne. }
  assert (ident s !! id = Some (from, hostname r)) as Oi by (rewrite lookup_ident, E; cbn; by rewrite B2).
  assert (∀ i a h, ident s' !! i = Some (a, Some h) → ∃ a', ident s !! i = Some (a', Some h)) as Back.
  { intros i a h. rewrite Ei. destruct (decide _) as [->|]; [|eauto]. intros [= <- Eh]. exists from. by rewrite Oi, Eh. }
  assert (∀ R (f : R → R) (ow : R → bytes) (t : gmap bytes R), (∀ v, ow (f v) = to) →
    (∀ i v, t !! i = Some v → fst <$> ident s !! i = Some (ow v)) →
    ∀ i v, sql_update f id t !! i = Some v → fst <$> ident s' !! i = Some (ow v)) as Dep.
  { intros R f ow t Hf F i v. rewrite lookup_sql_update, Ei. destruct (decide (id = i)) as [<-|N].
    - rewrite decide_True by done. intros (v' & _ & ->)%fmap_Some. by rewrite Hf.
    - rewrite decide_False by done. apply F. }
  destruct W. constructor.
  - intros i j a b h [a' Ea]%Back [b' Eb]%Back. eauto.
  - intros i a h [a' Ea]%Back. eauto.
  - intros i g. cbn. intros [[] [N H]%lookup_delete_Some]. rewrite Ei. destruct (decide _); [done|].
    apply (wf_grants0 i g). by eexists.
  - intros h e A. destruct (wf_allow0 h e A) as (i & a & Ea). rewrite lookup_ident in Ea.
    destruct (decide (i = id)) as [->|N].
    + exists id, to. rewrite Ei, decide_True by done. rewrite <- lookup_ident, Oi in Ea. by injection Ea as _ ->.
    + exists i, a. rewrite Ei, decide_False by done. by rewrite lookup_ident.
  - by apply Dep.
  - by apply Dep.
  - by apply Dep.
  - by apply Dep.
  - intros k l. cbn. rewrite lookup_fmap. intros (l0 & H & ->)%fmap_Some. specialize (wf_links0 _ _ H).
    rewrite Ei. case_bool_decide as Bl; cbn.
    + rewrite Bl, decide_True by done. rewrite Bl, Oi in wf_links0. by injection wf_links0 as _ ->.
    + by rewrite decide_False.
  - assert (∀ i b, sql_update (badge_to to) id (badges s) !! i = Some b → ∃ b0, badges s !! i = Some b0 ∧ public_id b0 = public_id b) as Bk.
    { intros i b. rewrite lookup_sql_update. destruct (decide _); [|eauto]. intros (b0 & H & ->)%fmap_Some. eauto. }
    intros i j a b (a0 & Ha & Ea)%Bk (b0 & Hb & Eb)%Bk P. eapply wf_badge_ids0; [done..|congruence].
  - intros i j a b. cbn. rewrite !lookup_fmap. intros (a0 & Ha & ->)%fmap_Some (b0 & Hb & ->)%fmap_Some P.
    eapply wf_hashes0; [done..|]. by do 2 case_bool_decide.
  - intros i r'. cbn. rewrite lookup_insert_Some. intros [[<- <-]|[_ H]]; [|eauto].
    destruct (wf_cert0 _ _ E). by constructor.
Qed.

(** **** One table replaced *)

Lemma wf_set_grants s t : wf s → (∀ i g, is_Some (t !! (i, g)) → is_Some (ident s !! i)) → wf (set_grants t s).
Proof. intros [] H. by constructor. Qed.
Lemma wf_set_login_allow s t :
  wf s → (∀ h e, is_Some (t !! (h, e)) → ∃ i a, ident s !! i = Some (a, Some h)) → wf (set_login_allow t s).
Proof. intros [] H. by constructor. Qed.
Lemma wf_set_policies s t :
  wf s → (∀ i p, t !! i = Some p → fst <$> ident s !! i = Some (policy_subject p)) → wf (set_policies t s).
Proof. intros [] H. by constructor. Qed.
Lemma wf_set_alerts s t :
  wf s → (∀ i p, t !! i = Some p → fst <$> ident s !! i = Some (alert_subject p)) → wf (set_alerts t s).
Proof. intros [] H. by constructor. Qed.
Lemma wf_set_probes s t :
  wf s → (∀ i p, t !! i = Some p → fst <$> ident s !! i = Some (probe_subject p)) → wf (set_probes t s).
Proof. intros [] H. by constructor. Qed.
Lemma wf_set_badges s t :
  wf s → (∀ i p, t !! i = Some p → fst <$> ident s !! i = Some (badge_subject p)) →
  (∀ i j a b, t !! i = Some a → t !! j = Some b → public_id a = public_id b → i = j) → wf (set_badges t s).
Proof. intros [] H. by constructor. Qed.
Lemma wf_set_links s t :
  wf s → (∀ k l, t !! k = Some l → ident s !! link_tunnel l = Some (link_subject l, Some (link_hostname l))) →
  (∀ i j a b, t !! i = Some a → t !! j = Some b → token_hash a = token_hash b → i = j) → wf (set_links t s).
Proof. intros [] H. by constructor. Qed.
Lemma wf_set_requests s t : wf s → wf (set_requests t s).
Proof. intros []. by constructor. Qed.
Lemma wf_set_disabled s t : wf s → wf (set_disabled t s).
Proof. intros []. by constructor. Qed.
Lemma wf_set_issuance s t : wf s → wf (set_issuance t s).
Proof. intros []. by constructor. Qed.
Lemma wf_set_deliveries s t n : wf s → wf (set_deliveries t n s).
Proof. intros []. by constructor. Qed.

(** A table with a row more, a row changed, or with fewer rows. *)
Lemma table_insert {K R} `{Countable K} (P : K → R → Prop) (t : gmap K R) k r :
  (∀ i v, t !! i = Some v → P i v) → P k r → ∀ i v, <[k := r]> t !! i = Some v → P i v.
Proof. intros T N i v. rewrite lookup_insert_Some. intros [[<- <-]|[_ L]]; auto. Qed.

Lemma table_update {K R} `{Countable K} (P : K → R → Prop) (t : gmap K R) k f :
  (∀ i v, t !! i = Some v → P i v) → (∀ v, P k v → P k (f v)) → ∀ i v, sql_update f k t !! i = Some v → P i v.
Proof.
  intros T N i v. rewrite lookup_sql_update. destruct (decide _) as [<-|]; [|apply T].
  intros (r & L & ->)%fmap_Some. auto.
Qed.

(** A column that is [UNIQUE], read through [f], in a table with a row more or fewer rows. *)
Lemma unique_insert {R} (f : R → bytes) (t : gmap bytes R) k r :
  (∀ i j a b, t !! i = Some a → t !! j = Some b → f a = f b → i = j) →
  (∀ i a, t !! i = Some a → f a = f r → i = k) →
  ∀ i j a b, <[k := r]> t !! i = Some a → <[k := r]> t !! j = Some b → f a = f b → i = j.
Proof.
  intros U N i j a b. rewrite !lookup_insert_Some.
  intros [[<- <-]|[_ A]] [[<- <-]|[_ B]] E; [done| | |by eapply U].
  - by symmetry; eapply N.
  - by eapply N.
Qed.

Lemma sql_count_zero {K R} `{Countable K} (p : K → R → bool) (t : gmap K R) k r :
  bool_decide (0 < sql_count p t)%nat = false → t !! k = Some r → p k r = false.
Proof.
  rewrite bool_decide_eq_false. intros Z L. destruct (p k r) eqn:E; [|done]. destruct Z.
  apply Nat.neq_0_lt_0. unfold sql_count. rewrite map_size_ne_0_lookup. exists k, r. by apply map_lookup_filter_Some.
Qed.

Lemma wf_grant s who id g : wf s → wf (grant s who id g).2.
Proof.
  intros W. unfold grant. case_bool_decide as O; [|done]. apply wf_set_grants; [done|]. intros i g' [[] L].
  apply lookup_insert_Some in L as [[[= -> ->] _]|[_ L]]; [|eapply (wf_grants _ W); by eexists].
  apply owner_of_ident in O. by destruct (ident s !! i).
Qed.

Lemma wf_revoke_grant s who id g : wf s → wf (revoke_grant s who id g).2.
Proof.
  intros W. unfold revoke_grant. case_bool_decide; [|done]. apply wf_set_grants; [done|].
  intros i g' [[] [_ L]%lookup_delete_Some]. eapply (wf_grants _ W). by eexists.
Qed.

Lemma wf_login_allowlist_add s who id e now : wf s → wf (login_allowlist_add s who id e now).2.
Proof.
  intros W. unfold login_allowlist_add. destruct (owned_hostname s who id) as [h|] eqn:O; [|done].
  apply owned_hostname_ident in O. apply wf_set_login_allow; [done|]. intros h' e' [x L].
  apply lookup_insert_Some in L as [[[= -> _] _]|[_ L]]; [eauto|]. eapply (wf_allow _ W). by eexists.
Qed.

Lemma wf_login_allowlist_remove s who id e : wf s → wf (login_allowlist_remove s who id e).2.
Proof.
  intros W. unfold login_allowlist_remove. destruct (owned_hostname s who id) as [h|]; [|done].
  apply wf_set_login_allow; [done|]. intros h' e' [x [_ L]%lookup_delete_Some]. eapply (wf_allow _ W). by eexists.
Qed.

Lemma wf_set_access_policy s who id p now : wf s → wf (set_access_policy to_json s who id p now).2.
Proof.
  intros W. unfold set_access_policy. case_bool_decide as O; [|done]. apply wf_set_policies; [done|].
  apply table_insert; [apply W|]. by apply owner_of_ident.
Qed.

Lemma wf_clear_access_policy s who id : wf s → wf (clear_access_policy s who id).2.
Proof.
  intros W. unfold clear_access_policy. case_bool_decide; [|done]. apply wf_set_policies; [done|].
  intros i p [L _]%lookup_sql_delete. by apply W.
Qed.

Lemma owned_fst s who id r : owned s who id = Some r → fst <$> ident s !! id = Some who.
Proof. intros O. by rewrite (owned_ident _ _ _ _ O). Qed.

Lemma wf_record_bridge_probe s who id tool v now : wf s → wf (record_bridge_probe to_text s who id tool v now).2.
Proof.
  intros W. unfold record_bridge_probe. destruct (probe_from_result _ _) as [u|]; [|done].
  destruct (owned s who id) as [r|] eqn:O; [|done]. apply wf_set_probes; [done|].
  apply table_insert; [apply W|]. rewrite (owned_fst _ _ _ _ O). by destruct u.
Qed.

Lemma wf_enable_badge s who id now d : wf s → wf (enable_badge s who id now d).2.
Proof.
  intros W. unfold enable_badge. destruct (owned s who id) as [r|] eqn:O; [|done].
  destruct (b ← badges s !! id; _) as [|]; [done|]. destruct (bool_decide (0 < _)%nat) eqn:N; [done|].
  destruct (sql_insert _ _ _) as [t|] eqn:I; [|done]. apply sql_insert_Some in I as [F ->]. cbn [snd].
  apply wf_set_badges; [done| |].
  - apply table_insert; [apply W|]. by rewrite (owned_fst _ _ _ _ O).
  - apply unique_insert; [apply W|]. intros i a L E. pose proof (sql_count_zero _ _ _ _ N L) as Z. cbn in Z.
    bool_facts. done.
Qed.

Lemma wf_disable_badge s who id : wf s → wf (disable_badge s who id).2.
Proof.
  intros W. unfold disable_badge. destruct (badges s !! id) as [b|]; [|done]. case_bool_decide; [|done].
  apply wf_set_badges; [done| |].
  - intros i p [_ L]%lookup_delete_Some. by apply W.
  - intros i j x y [_ A]%lookup_delete_Some [_ B]%lookup_delete_Some. by apply W.
Qed.

Lemma wf_mint s who id l ttl b now x y : wf s → wf (mint_share_link sha256 base64url s who id l ttl b now x y).2.
Proof.
  intros W. unfold mint_share_link. destruct (owned_hostname s who id) as [h|] eqn:O; [|done].
  apply owned_hostname_ident in O. destruct (_ <=? _)%nat; [done|].
  destruct (bool_decide (0 < _)%nat) eqn:N; [done|].
  destruct (sql_insert _ _ _) as [t|] eqn:I; [|done]. apply sql_insert_Some in I as [F ->]. cbn [snd].
  apply wf_set_links; [done| |].
  - apply table_insert; [|done]. intros k v [L _]%lookup_sql_delete. by apply (wf_links _ W k).
  - apply unique_insert.
    + intros i j u v [A _]%lookup_sql_delete [B _]%lookup_sql_delete. by apply (wf_hashes _ W).
    + intros i a L E. pose proof (sql_count_zero _ _ _ _ N L) as Z. cbn in Z. bool_facts. done.
Qed.

Lemma wf_link_changed s k l l' :
  wf s → links s !! k = Some l → link_tunnel l' = link_tunnel l → link_subject l' = link_subject l →
  link_hostname l' = link_hostname l → token_hash l' = token_hash l → wf (set_links (<[k := l']> (links s)) s).
Proof.
  intros W L E1 E2 E3 E4. apply wf_set_links; [done| |].
  - apply table_insert; [apply (wf_links _ W)|]. rewrite E1, E2, E3. by apply (wf_links _ W k).
  - apply unique_insert; [apply (wf_hashes _ W)|]. intros i a A E. eapply (wf_hashes _ W); [done..|congruence].
Qed.

Lemma wf_redeem s h tok now : wf s → wf (redeem_share_link sha256 s h tok now).2.
Proof.
  intros W. unfold redeem_share_link. destruct (head _) as [[k l]|] eqn:E; [|done].
  apply head_Some_elem_of, list_elem_of_filter in E as [_ L%elem_of_map_to_list].
  destruct (_ || _); [done|]. cbn [snd]. destruct (single_use l); [|done]. by eapply wf_link_changed.
Qed.

Lemma wf_revoke_share_link s who id k now : wf s → wf (revoke_share_link s who id k now).2.
Proof.
  intros W. unfold revoke_share_link. destruct (links s !! k) as [l|] eqn:L; [|done].
  destruct (_ && _); [|done]. by eapply wf_link_changed.
Qed.

Lemma wf_prune_share_links s now : wf s → wf (prune_share_links s now).2.
Proof.
  intros W. apply wf_set_links; [done| |].
  - intros k l [L _]%lookup_sql_delete. by apply (wf_links _ W k).
  - intros i j a b [A _]%lookup_sql_delete [B _]%lookup_sql_delete. by apply (wf_hashes _ W).
Qed.

Lemma wf_upsert_alert s who id url th now d : wf s → wf (upsert_alert s who id url th now d).2.
Proof.
  intros W. unfold upsert_alert. destruct (owned s who id) as [r|] eqn:O; [|done].
  destruct (a ← alerts s !! id; _) as [a|] eqn:A.
  - apply bind_Some in A as (a' & L & A). case_bool_decide as E; [|done]. injection A as ->.
    apply wf_set_alerts; [done|]. apply table_insert; [apply W|]. cbn. by apply W.
  - destruct (sql_insert _ _ _) as [t|] eqn:I; [|done]. apply sql_insert_Some in I as [F ->].
    apply wf_set_alerts; [done|]. apply table_insert; [apply W|]. by rewrite (owned_fst _ _ _ _ O).
Qed.

Lemma wf_delete_alert s who id : wf s → wf (delete_alert s who id).2.
Proof.
  intros W. unfold delete_alert. destruct (a ← alerts s !! id; _); [|done]. apply wf_set_deliveries, wf_set_alerts; [done|].
  intros i p [_ L]%lookup_delete_Some. by apply W.
Qed.

Lemma wf_update_alert s id f : wf s → (∀ a, alert_subject (f a) = alert_subject a) → wf (set_alerts (sql_update f id (alerts s)) s).
Proof.
  intros W F. apply wf_set_alerts; [done|]. apply table_update; [apply W|]. intros a. by rewrite F.
Qed.

Lemma wf_record_delivery s id t e h d : wf s → wf (record_delivery s id t e h d).
Proof. intros W. unfold record_delivery. apply wf_update_alert; [|done]. by apply wf_set_deliveries. Qed.

(** **** The certificate columns *)

Lemma pair_update s p f : (let '(n, s') := update_where s p f in ((0 <? n)%nat, s')).2 = (update_where s p f).2.
Proof. done. Qed.

Ltac row_ident := intros; split; reflexivity.

Lemma has_hostname_true h r : has_hostname h r = true → hostname r ≠ None.
Proof. unfold has_hostname. intros ->%bool_decide_eq_true. done. Qed.

Lemma wf_cert_opt_out s who id b : wf s → wf (set_cert_claim_opt_out s who id b).2.
Proof. intros W. apply wf_update_owned; [done|row_ident|]. intros r []. by constructor. Qed.

Lemma wf_enter_gelb s h now : wf s → wf (enter_gelb_queue s h now).2.
Proof.
  intros W. unfold enter_gelb_queue. rewrite pair_update. apply wf_update_where; [done|row_ident|].
  intros r [] [H R]%andb_true_iff. apply has_hostname_true in H. constructor; cbn; try done.
  intros _ N. apply ck_free0; [|done]. intros G. bool_facts. congruence.
Qed.

Lemma wf_offer s h ca now d : wf s → wf (offer_claim s h ca now d).2.
Proof.
  intros W. unfold offer_claim. rewrite pair_update. apply wf_update_where; [done|row_ident|].
  intros r [] H. bool_facts. constructor; cbn; try done. intros G. by destruct (ck_gruen0 G).
Qed.

Lemma wf_lapse s now : wf s → wf (lapse_expired_claims s now).2.
Proof.
  intros W. apply wf_update_where; [done|row_ident|]. intros r [] H. bool_facts.
  constructor; cbn; try done. intros G. destruct (ck_gruen0 G). congruence.
Qed.

Lemma wf_no_lapsed s p f : wf s → (∀ r, p r = true → claim_state (cert r) = Lapsed) → wf (update_where s p f).2.
Proof.
  intros W P. enough ((update_where s p f).2 = s) as -> by done. unfold update_where. cbn.
  destruct s; cbn in *. unfold set_tunnels. cbn. f_equal. etrans; [|apply map_fmap_id].
  apply map_fmap_ext. intros i r L. destruct (p r) eqn:E; [|done].
  by destruct (ck_lapsed _ (wf_cert _ W _ _ L) (P _ E)).
Qed.

Lemma wf_requeue s now : wf s → wf (requeue_legacy_lapsed_claims s now).2.
Proof. intros W. apply wf_no_lapsed; [done|]. intros r H. by bool_facts. Qed.

Lemma wf_reclaim s who h now : wf s → wf (reclaim_cert_slot s who h now).2.
Proof.
  intros W. unfold reclaim_cert_slot. rewrite pair_update. apply wf_no_lapsed; [done|]. intros r H. by bool_facts.
Qed.

Lemma wf_issued s h d now : wf s → wf (record_issuance_complete s h d now).2.
Proof.
  intros W. unfold record_issuance_complete. destruct (update_where s (completes h) issued_row) as [n s'] eqn:U.
  assert (wf s') as W'.
  { replace s' with (update_where s (completes h) issued_row).2 by by rewrite U.
    apply wf_update_where; [done|row_ident|]. intros r [] [H P]%andb_true_iff. apply has_hostname_true in H.
    constructor; cbn; try done. intros _. split; [done|]. apply orb_true_iff in P as [G|P]; bool_facts.
    - by apply ck_gruen0.
    - by apply ck_offered0. }
  destruct (n =? 0)%nat; [done|]. cbn. destruct (ca_of s h) as [ca|]; [|done].
  destruct (match last_issued s' h with Some _ => _ | None => _ end); [done|]. by apply wf_set_issuance.
Qed.

Lemma wf_reverted s h : wf s → wf (clear_pending_revert s h).
Proof. intros W. apply wf_update_where; [done|row_ident|]. intros r [] _. by constructor. Qed.

(** **** Every operation *)

Lemma normalized_lowercase raw h : Hostname.normalize_hostname raw = Some h → to_ascii_lowercase h = h.
Proof.
  unfold Hostname.normalize_hostname. destruct (_ || _); [done|]. destruct (forallb _ _); [|done].
  intros [= <-]. apply Hostname.lower_id, Hostname.lower_no_upper.
Qed.

Lemma wf_keep_cert s who id f :
  wf s → (∀ r, subject (f r) = subject r ∧ hostname (f r) = hostname r ∧ cert (f r) = cert r) →
  wf (update_owned s who id f).2.
Proof.
  intros W F. apply wf_update_owned; [done|by intros r; destruct (F r) as (? & ? & _)|].
  intros r []. destruct (F r) as (_ & H & C). constructor; rewrite ?H, ?C; done.
Qed.

Lemma wf_set_rest_bridge_mode s who id m : wf s → wf (set_rest_bridge_mode s who id m).2.
Proof.
  intros W. unfold set_rest_bridge_mode. destruct (negb _); [done|].
  destruct (update_owned _ _ _ _) as [b s'] eqn:U. cbn [snd].
  replace s' with (b, s').2 by done. rewrite <- U. apply wf_keep_cert; [done|]. intros r. by destruct (bool_decide _).
Qed.

Lemma wf_rename s who id n : wf s → wf (rename s who id n).2.
Proof.
  intros W. unfold rename. case_bool_decide; [done|]. destruct (_ <? _)%nat; [done|].
  destruct (update_owned _ _ _ _) as [b s'] eqn:U. cbn [snd].
  replace s' with (b, s').2 by done. rewrite <- U. by apply wf_keep_cert.
Qed.

Lemma wf_direct s who id b e : wf s → wf (set_direct_serving s who id b e).2.
Proof. intros W. by apply wf_keep_cert. Qed.

Lemma wf_direct_probe s id st now : wf s → wf (record_direct_probe s id st now).
Proof.
  intros W. apply wf_rows; [done| |].
  - apply map_eq. intros i. rewrite lookup_fmap, lookup_sql_update, lookup_ident.
    destruct (decide _); [|done]. by destruct (tunnels s !! i).
  - apply (table_update (λ _ r, cert_ok r)); [apply W|]. intros r []. by constructor.
Qed.

Lemma wf_step s o : wf s → wf (exec s o).
Proof.
  assert (∀ raw h, raw ≫= Hostname.normalize_hostname = Some h → to_ascii_lowercase h = h) as L.
  { intros raw h (r & _ & E)%bind_Some. by apply normalized_lowercase in E. }
  intros W. destruct o; cbn [exec]; eauto using wf_revoked_tunnel, wf_transfer, wf_grant, wf_revoke_grant,
    wf_set_access_policy, wf_clear_access_policy, wf_keep_cert, wf_login_allowlist_add, wf_login_allowlist_remove,
    wf_set_disabled, wf_rename, wf_set_rest_bridge_mode, wf_direct, wf_direct_probe, wf_record_bridge_probe,
    wf_enable_badge, wf_disable_badge, wf_mint, wf_redeem, wf_revoke_share_link, wf_prune_share_links,
    wf_cert_opt_out, wf_enter_gelb, wf_offer, wf_lapse, wf_requeue, wf_reclaim, wf_issued, wf_set_issuance, wf_reverted,
    wf_upsert_alert, wf_delete_alert, wf_record_delivery.
  all: try by apply wf_keep_cert.
  all: try by apply wf_update_alert.
  all: try by apply wf_set_issuance.
  all: try by apply wf_set_disabled.
  - apply wf_created; eauto.
  - unfold create_if_under_owned_limit. destruct (_ <=? _); [done|]. apply wf_created; eauto.
  - destruct (Hostname.normalize_hostname raw); [|done]. by apply wf_set_requests.
  - unfold dismiss_access_request. destruct (owned_hostname _ _ _); [|done]. by apply wf_set_requests.
Qed.

(** What a sequence of operations leaves. *)
Definition run (s : TunnelStore) (ops : list Op) : TunnelStore := foldl exec s ops.

Lemma run_ind (P : TunnelStore → Prop) s ops : P s → (∀ s o, o ∈ ops → P s → P (exec s o)) → P (run s ops).
Proof.
  unfold run. revert s. induction ops as [|o ops IH]; intros s H E; [done|]. cbn. apply IH.
  - apply E; [by left|done].
  - intros s' o' I. apply E. by right.
Qed.

Lemma wf_run s ops : wf s → wf (run s ops).
Proof. intros W. apply run_ind; [done|]. intros. by apply wf_step. Qed.

(** ** Every reachable state is consistent *)

(** whatever operations have run, hostnames are unique and lower-case; every grant, allow-list entry, policy,
    badge, alert, probe and share link belongs to a tunnel that exists, and those that name an owner or a hostname
    name that tunnel's; badges and share links are told apart by their public id and hash; and the certificate columns
    agree with each other. *)
Theorem tunnel_store_consistent ops : wf (run empty ops).
Proof. apply wf_run, wf_fresh. Qed.

(** ** A hostname that becomes free *)

Lemma create_created s who nm host now idb tokb t s' :
  create s who nm host now idb tokb = (Ok (Created t), s') →
  hostname_taken s host = false ∧ tunnels s !! st_id t = None ∧
  s' = set_tunnels (<[st_id t := new_row who nm host now (Hex.encode tokb)]> (tunnels s)) s.
Proof.
  unfold create. destruct (hostname_taken s host); [done|]. destruct (sql_insert _ _ _) as [t'|] eqn:I; [|done].
  apply sql_insert_Some in I as [N ->]. by intros [= <- <-].
Qed.

Lemma not_allowed s h e :
  wf s → to_ascii_lowercase h = h → (∀ i a, ident s !! i ≠ Some (a, Some h)) → email_allowed_for_hostname s h e = false.
Proof.
  intros W L F. unfold email_allowed_for_hostname. apply bool_decide_eq_false. intros P.
  apply Nat.neq_0_lt_0 in P. unfold sql_count in P. rewrite map_size_ne_0_lookup in P.
  destruct P as ([h' e'] & x & [A M]%map_lookup_filter_Some). cbn in M. bool_facts.
  destruct (wf_allow _ W h' e') as (i & a & E); [by eexists|].
  rewrite nocase_lower in H by (done || by eapply (wf_lower _ W _ _ _ E)). bool_facts. subst h'. by eapply F.
Qed.

Lemma not_joined s h k l :
  wf s → to_ascii_lowercase h = h → links s !! k = Some l → link_joins s h l = true →
  ident s !! link_tunnel l = Some (link_subject l, Some h).
Proof.
  intros W L E J. unfold link_joins in J. pose proof (wf_links _ W _ _ E) as I. rewrite I. do 2 f_equal.
  pose proof (wf_lower _ W _ _ _ I) as L'. rewrite lookup_ident in I. destruct (tunnels s !! link_tunnel l) as [r|] eqn:T; [|done]. bool_facts.
  unfold nocase in *. bool_facts. congruence.
Qed.

(** C40 a hostname passes nothing on to its next owner: a tunnel created, by whatever operations have run on a fresh
    store, on a normalized hostname that is free, starts with nobody on the allow-list of the hostname, nobody but its
    owner authorized, no access window, badge, alert or probe, no share link (of an earlier owner or any other) that
    could be redeemed or is active, no login gate, the certificate status Rot and no assigned authority. An access
    request is outside the statement: it is checked before the lock its write takes, so one written after a revocation
    can reach the next owner (late_request_reaches_next_owner). *)
Theorem freed_hostname_inherits_nothing from_json from_text ops who nm h now idb tokb t s' :
  create (run empty ops) who nm (Some h) now idb tokb = (Ok (Created t), s') → to_ascii_lowercase h = h →
  (∀ e, email_allowed_for_hostname s' h e = false) ∧
  (∀ w, is_authorized s' w (st_id t) = bool_decide (w = who)) ∧
  access_policy from_json s' who (st_id t) = None ∧ badge_public_id s' who (st_id t) = None ∧
  alert_for s' who (st_id t) = None ∧ bridge_probe from_text s' who (st_id t) = None ∧
  (∀ token n, redeem_share_link sha256 s' h token n = (None, s')) ∧ (∀ k n, share_link_active s' k h n = false) ∧
  get_require_login s' who (st_id t) = Some false ∧
  status ∘ cert <$> owned s' who (st_id t) = Some Rot ∧ (owned s' who (st_id t) ≫= assigned_ca ∘ cert) = None.
Proof.
  intros C L. set (s := run empty ops) in *. assert (wf s) as W by apply wf_run, wf_fresh.
  assert (wf s') as W'.
  { pose proof (wf_created s who nm (Some h) now idb tokb W) as X. rewrite C in X. apply X. by intros ? [= <-]. }
  apply create_created in C as (T & N & ->). set (id := st_id t) in *.
  pose proof (hostname_taken_false _ _ T) as F.
  assert (ident s !! id = None) as Ni by by rewrite lookup_ident, N.
  assert (∀ k l, links s !! k = Some l → link_joins (set_tunnels (<[id := new_row who nm (Some h) now (Hex.encode tokb)]> (tunnels s)) s) h l = false) as NoLink.
  { intros k l E. apply not_true_is_false. intros J. eapply not_joined in J; [|done..].
    rewrite ident_new in J by done. pose proof (wf_links _ W _ _ E) as I. destruct (decide _) as [D|]; [|by eapply F].
    rewrite D in I. congruence. }
  assert (∀ R (tab : TunnelStore → gmap bytes R) ow, (∀ i p, tab s !! i = Some p → fst <$> ident s !! i = Some (ow p)) → tab s !! id = None) as Dep.
  { intros R tab ow X. destruct (tab s !! id) as [p|] eqn:E; [|done]. apply X in E. by rewrite Ni in E. }
  repeat apply conj.
  - intros e. by apply (not_allowed s).
  - intros w. unfold is_authorized, owner_of, has_grant. cbn. rewrite lookup_insert_eq. cbn.
    assert (grants s !! (id, w) = None) as ->.
    { destruct (grants s !! (id, w)) as [g|] eqn:E; [|done]. destruct (wf_grants _ W id w) as [x X]; [by eexists|].
      congruence. }
    rewrite (bool_decide_ext (Some who = Some w) (w = who)) by (split; congruence).
    case_bool_decide; [done|]. apply bool_decide_eq_false. by intros [].
  - unfold access_policy. cbn. by rewrite (Dep _ policies _ (wf_policies _ W)).
  - unfold badge_public_id. cbn. by rewrite (Dep _ badges _ (wf_badges _ W)).
  - unfold alert_for, owned_alert. cbn. by rewrite (Dep _ alerts _ (wf_alerts _ W)).
  - unfold bridge_probe. cbn. by rewrite (Dep _ probes _ (wf_probes _ W)).
  - intros token n. unfold redeem_share_link. cbn. destruct (head _) as [[k l]|] eqn:E; [|done].
    apply head_Some_elem_of, list_elem_of_filter in E as [[_ J] E%elem_of_map_to_list]. cbn in J.
    by rewrite (NoLink _ _ E) in J.
  - intros k n. unfold share_link_active. cbn. destruct (links s !! k) as [l|] eqn:E; [|done]. by rewrite (NoLink _ _ E).
  - unfold get_require_login, owned. cbn. rewrite lookup_insert_eq. cbn. by rewrite bool_decide_eq_true_2.
  - unfold owned. cbn. rewrite lookup_insert_eq. cbn. by rewrite bool_decide_eq_true_2.
  - unfold owned. cbn. rewrite lookup_insert_eq. cbn. by rewrite bool_decide_eq_true_2.
Qed.

(** ** Share links that are over *)

(** Every link behind a token is revoked, or was for one use and is used. *)
Definition dead (token : bytes) (s : TunnelStore) : Prop :=
  ∀ k l, links s !! k = Some l → token_hash l = share_link_token_hash sha256 token →
    is_Some (revoked_at l) ∨ single_use l = true ∧ is_Some (used_at l).

(** A link is minted whose token has the same hash. *)
Definition redraws (token : bytes) (o : Op) : Prop :=
  match o with
  | OpMint _ _ _ _ _ _ _ tokb => share_link_token_hash sha256 (base64url tokb) = share_link_token_hash sha256 token
  | _ => False
  end.

(** How a link ends, besides by its time. *)
Inductive ended (token : bytes) (s : TunnelStore) : TunnelStore → Prop :=
| ended_used h now r s' : redeem_share_link sha256 s h token now = (Some r, s') → r_single_use r = true → ended token s s'
| ended_revoked k l who id now s' :
    links s !! k = Some l → token_hash l = share_link_token_hash sha256 token →
    revoke_share_link s who id k now = (true, s') → ended token s s'
| ended_tunnel k l who now t s' :
    links s !! k = Some l → token_hash l = share_link_token_hash sha256 token →
    revoke s who (link_tunnel l) now = (Some t, s') → ended token s s'.

(** The only operations that write share links. *)
Definition touches_links (o : Op) : bool :=
  match o with
  | OpRevoke _ _ _ | OpTransfer _ _ _ _ | OpMint _ _ _ _ _ _ _ _ | OpRedeem _ _ _ | OpRevokeLink _ _ _ _ | OpPruneLinks _ => true
  | _ => false
  end.

Lemma links_update_owned s who id f : links (update_owned s who id f).2 = links s.
Proof. unfold update_owned. by destruct (owned s who id). Qed.

Lemma links_kept s o : touches_links o = false → links (exec s o) = links s.
Proof.
  destruct o; intros T; try done; clear T; cbn [exec]; rewrite ?links_update_owned; try done;
    try (unfold set_require_login, set_allow_any_login, set_topology_link, set_bridge_grant, set_direct_serving,
           set_cert_claim_opt_out; by rewrite links_update_owned).
  all: unfold create, create_if_under_owned_limit, create, grant, revoke_grant, set_access_policy, clear_access_policy,
    login_allowlist_add, login_allowlist_remove, dismiss_access_request, rename, set_rest_bridge_mode,
    record_bridge_probe, enable_badge, disable_badge, record_issuance_complete, upsert_alert, delete_alert, update_owned, update_where;
    cbn; repeat (case_match; simplify_eq/=); done.
Qed.

Lemma dead_keeps token s o : dead token s → ¬ redraws token o → dead token (exec s o).
Proof.
  intros D R. destruct (touches_links o) eqn:T.
  2: { unfold dead. by rewrite links_kept. }
  assert (∀ s' k l, links s' = <[k := l]> (links s) →
    (token_hash l = share_link_token_hash sha256 token → is_Some (revoked_at l) ∨ single_use l = true ∧ is_Some (used_at l)) →
    dead token s') as Ins.
  { intros s' k l E H i v. rewrite E, lookup_insert_Some. intros [[<- <-]|[_ L]]; eauto. }
  assert (∀ s' p, links s' = sql_delete p (links s) → dead token s') as Del.
  { intros s' p E k l. rewrite E. intros [L _]%lookup_sql_delete. eauto. }
  destruct o; try done; cbn [exec]; clear T.
  - unfold revoke. destruct (owned s who id) as [r|]; [|done]. destruct (hostname r); apply (Del _ (λ _ l, bool_decide (link_tunnel l = id))); done.
  - unfold transfer_tunnel. repeat case_match; try done. intros k l. cbn. rewrite lookup_fmap.
    intros (l0 & L & ->)%fmap_Some. destruct (bool_decide (link_tunnel l0 = id)); exact (D _ _ L).
  - unfold mint_share_link. destruct (owned_hostname s who id); [|done]. destruct (_ <=? _)%nat; [done|].
    destruct (bool_decide _); [done|]. destruct (sql_insert _ _ _) as [t|] eqn:I; [|done].
    apply sql_insert_Some in I as [_ ->]. intros k v. cbn. rewrite lookup_insert_Some. intros [[_ <-]|[_ L]] E; [done|].
    apply lookup_sql_delete in L as [L _]. eauto.
  - unfold redeem_share_link. destruct (head _) as [[k l]|] eqn:E; [|done]. destruct (_ || _); [done|]. cbn.
    destruct (single_use l) eqn:U; [|done]. eapply Ins; [done|]. intros _. right. by split; [|eexists].
  - unfold revoke_share_link. destruct (links s !! link_id) as [l|]; [|done]. destruct (_ && _); [|done].
    eapply Ins; [done|]. intros _. left. by eexists.
  - by eapply Del.
Qed.

Lemma dead_refused token s h now : dead token s → (redeem_share_link sha256 s h token now).1 = None.
Proof.
  intros D. unfold redeem_share_link. destruct (head _) as [[k l]|] eqn:E; [|done].
  apply head_Some_elem_of, list_elem_of_filter in E as [[Hk _] L%elem_of_map_to_list].
  destruct (D _ _ L Hk) as [R|[-> R]].
  - by rewrite (bool_decide_eq_true_2 _ R).
  - rewrite (bool_decide_eq_true_2 _ R). by rewrite !orb_true_r.
Qed.

Lemma ended_dead token s s' : wf s → ended token s s' → dead token s'.
Proof.
  intros W E. destruct E as [h now r s' E S|k l who id now s' L H E|k l who now t s' L H E].
  - unfold redeem_share_link in E. destruct (head _) as [[k l]|] eqn:Hd; [|done].
    apply head_Some_elem_of, list_elem_of_filter in Hd as [[Hk _] L%elem_of_map_to_list]. cbn in Hk.
    destruct (_ || _); [done|]. injection E as <- <-. cbn in S. rewrite S. intros i v. cbn.
    rewrite lookup_insert_Some. intros [[_ <-]|[N V]] Hv; [by right; split; [|eexists]|].
    destruct N. eapply (wf_hashes _ W); [done..|congruence].
  - unfold revoke_share_link in E. rewrite L in E. destruct (_ && _); [|done]. injection E as <-. intros i v. cbn.
    rewrite lookup_insert_Some. intros [[_ <-]|[N V]] Hv; [by left; eexists|].
    destruct N. eapply (wf_hashes _ W); [done..|congruence].
  - destruct (owned s who (link_tunnel l)) as [r|] eqn:O; [|unfold revoke in E; by rewrite O in E].
    pose proof (revoke_tables s who _ now r O) as (_ & _ & _ & _ & _ & _ & _ & _ & T & _). rewrite E in T. cbn [snd] in T.
    intros i v. rewrite T. intros [V N]%lookup_sql_delete Hv.
    assert (k = i) as -> by (eapply (wf_hashes _ W); [done..|congruence]). simplify_eq. by bool_facts.
Qed.

(** a share link that is over stays over: once its single use is spent, or the owner revoked it, or its tunnel was
    revoked, no sequence of operations, on whatever hostname and with whatever clock, makes its token redeemable
    again, as long as no link is minted with the same token. *)
Theorem ended_link_stays_dead token before after s' h now :
  ended token (run empty before) s' → Forall (λ o, ¬ redraws token o) after →
  (redeem_share_link sha256 (run s' after) h token now).1 = None.
Proof.
  intros E F. apply dead_refused. apply run_ind.
  - by eapply ended_dead; [apply wf_run, wf_fresh|].
  - intros s o I D. apply dead_keeps; [done|]. rewrite Forall_forall in F. auto.
Qed.

(** ** The certificate of a hostname *)

(** The tunnel [id] has had its certificate, and still names the same hostname and authority. *)
Definition holds (h ca : option bytes) (r : TunnelRow) : Prop :=
  status (cert r) = Gruen ∧ assigned_ca (cert r) = ca ∧ hostname r = h.
Definition kept (id : bytes) (h ca : option bytes) (s : TunnelStore) : Prop :=
  ∃ r, tunnels s !! id = Some r ∧ holds h ca r.

Section kept.
Context (id : bytes) (h ca : option bytes).

Lemma kept_where s p f :
  wf s → kept id h ca s → (∀ r, cert_ok r → p r = true → holds h ca r → holds h ca (f r)) → kept id h ca (update_where s p f).2.
Proof.
  intros W (r & L & H) F. exists (if p r then f r else r). cbn. rewrite lookup_fmap, L. split; [done|].
  destruct (p r) eqn:P; [|done]. apply F; [by eapply (wf_cert _ W)|done..].
Qed.

Lemma kept_owned s who i f :
  kept id h ca s → (∀ r, holds h ca r → holds h ca (f r)) → kept id h ca (update_owned s who i f).2.
Proof.
  intros (r & L & H) F. unfold update_owned. destruct (owned s who i) as [r'|] eqn:O; [|by exists r].
  apply owned_Some in O as [L' _]. unfold kept. cbn. destruct (decide (i = id)) as [->|N].
  - simplify_eq. exists (f r). rewrite lookup_insert_eq. auto.
  - exists r. rewrite lookup_insert_ne by done. auto.
Qed.

Lemma kept_same s s' : tunnels s' = tunnels s → kept id h ca s → kept id h ca s'.
Proof. intros E (r & L & H). exists r. by rewrite E. Qed.

Lemma kept_create s w n o now i t : kept id h ca s → kept id h ca (create s w n o now i t).2.
Proof.
  intros (r & L & H). unfold create. destruct (hostname_taken s o); [by exists r|].
  destruct (sql_insert _ _ _) as [t'|] eqn:I; [|by exists r]. apply sql_insert_Some in I as [N ->].
  exists r. cbn. rewrite lookup_insert_ne; [done|]. intros E. rewrite E in N. congruence.
Qed.

Lemma kept_revoke s w i now : i ≠ id → kept id h ca s → kept id h ca (revoke s w i now).2.
Proof.
  intros N (r & L & H). destruct (owned s w i) as [r'|] eqn:O; [|unfold revoke; rewrite O; by exists r].
  destruct (revoke_tables s w i now r' O) as [E _]. exists r. rewrite E. by rewrite lookup_delete_ne.
Qed.

Lemma kept_transfer s i f t x : kept id h ca s → kept id h ca (transfer_tunnel s i f t x).2.
Proof.
  intros (r & L & H). unfold transfer_tunnel. destruct (tunnels s !! i) as [r'|] eqn:L'; [|by exists r].
  destruct (bool_decide _); [by exists r|]. destruct (negb _); [by exists r|]. destruct x as [[|]|]; [|by exists r..].
  unfold kept. cbn. destruct (decide (i = id)) as [->|N].
  - simplify_eq. exists (row_owner t r). by rewrite lookup_insert_eq.
  - exists r. by rewrite lookup_insert_ne.
Qed.

Lemma kept_exec s o : wf s → (∀ who now, o ≠ OpRevoke who id now) → kept id h ca s → kept id h ca (exec s o).
Proof.
  intros W R K. destruct o; cbn [exec];
    try (by apply kept_create); try (by apply kept_transfer); try (by apply kept_owned); try done;
    try (revert K; apply kept_same;
      unfold grant, revoke_grant, set_access_policy, clear_access_policy, login_allowlist_add, login_allowlist_remove,
        dismiss_access_request, record_bridge_probe, enable_badge, disable_badge, mint_share_link, redeem_share_link,
        revoke_share_link, upsert_alert, delete_alert; cbn; repeat case_match; done).
  - unfold create_if_under_owned_limit. destruct (_ <=? _); [done|]. by apply kept_create.
  - apply kept_revoke; [|done]. intros ->. by eapply R.
  - unfold rename. case_bool_decide; [done|]. destruct (_ <? _)%nat; [done|].
    destruct (update_owned _ _ _ _) as [b s'] eqn:U. change s' with (b, s').2. rewrite <- U. by apply kept_owned.
  - unfold set_rest_bridge_mode. destruct (negb _); [done|].
    destruct (update_owned _ _ _ _) as [b s'] eqn:U. cbn [snd]. change s' with (b, s').2. rewrite <- U.
    apply kept_owned; [done|]. intros r. by destruct (bool_decide _).
  - destruct K as (r & L & H). unfold kept. cbn. setoid_rewrite lookup_sql_update. destruct (decide _) as [->|]; [|by exists r].
    rewrite L. by eexists.
  - unfold enter_gelb_queue. rewrite pair_update. apply kept_where; [done..|]. intros r _ P [G _]. bool_facts. congruence.
  - unfold offer_claim. rewrite pair_update. apply kept_where; [done..|]. intros r C P [G _]. bool_facts.
    by destruct (ck_gruen _ C G).
  - apply kept_where; [done..|]. intros r C P [G _]. bool_facts. destruct (ck_gruen _ C G). congruence.
  - by apply kept_where.
  - unfold reclaim_cert_slot. rewrite pair_update. by apply kept_where.
  - unfold record_issuance_complete. destruct (update_where s (completes h0) issued_row) as [n s'] eqn:U.
    assert (kept id h ca s') as K'.
    { change s' with (n, s').2. rewrite <- U. apply kept_where; [done..|]. by intros r _ _ (_ & ? & ?). }
    destruct (n =? 0)%nat; [done|]. destruct (ca_of s h0); [|done]. cbn. by destruct (match last_issued _ _ with Some _ => _ | None => _ end).
  - by apply kept_where.
Qed.
End kept.

(** a certificate once issued is kept: whatever happens after a hostname became green, short of revoking its tunnel,
    the tunnel keeps the hostname, the status and the authority, and may issue at any time. *)
Theorem issued_certificate_kept before after id r :
  tunnels (run empty before) !! id = Some r → status (cert r) = Gruen →
  Forall (λ o, ∀ who now, o ≠ OpRevoke who id now) after →
  ∃ r', tunnels (run (run empty before) after) !! id = Some r' ∧ hostname r' = hostname r ∧
        status (cert r') = Gruen ∧ assigned_ca (cert r') = assigned_ca (cert r) ∧
        ∀ now, may_issue_now (admission_of (run (run empty before) after) r') now = true.
Proof.
  intros L G F. assert (wf (run empty before)) as W by apply wf_run, wf_fresh.
  destruct (run_ind (λ s, wf s ∧ kept id (hostname r) (assigned_ca (cert r)) s) (run empty before) after)
    as (_ & r' & L' & G' & A & H).
  - split; [done|]. by exists r.
  - intros s o I [W' K]. split; [by apply wf_step|]. apply kept_exec; [done| |done]. rewrite Forall_forall in F. by apply F.
  - exists r'. repeat split; try done. intros now. unfold may_issue_now. cbn. by rewrite G'.
Qed.

(** ** The ledger of issuances *)

Definition day_apart (a b : LogRow) : Prop :=
  log_hostname a = log_hostname b → (issued_at a + MIN_ISSUANCE_LOG_INTERVAL_SECS <= issued_at b)%Z.

Definition touches_ledger (o : Op) : bool := match o with OpIssued _ _ _ | OpPruneLog _ => true | _ => false end.

Lemma issuance_update_owned s who id f : issuance (update_owned s who id f).2 = issuance s.
Proof. unfold update_owned. by destruct (owned s who id). Qed.

Lemma ledger_kept s o : touches_ledger o = false → issuance (exec s o) = issuance s.
Proof.
  destruct o; intros T; try done; clear T; cbn [exec]; rewrite ?issuance_update_owned; try done;
    try (unfold set_require_login, set_allow_any_login, set_topology_link, set_bridge_grant, set_direct_serving,
           set_cert_claim_opt_out; by rewrite issuance_update_owned).
  all: unfold create, create_if_under_owned_limit, create, revoke, transfer_tunnel, grant, revoke_grant, set_access_policy,
    clear_access_policy, login_allowlist_add, login_allowlist_remove, dismiss_access_request, rename,
    set_rest_bridge_mode, record_bridge_probe, enable_badge, disable_badge, mint_share_link, redeem_share_link,
    revoke_share_link, upsert_alert, delete_alert, update_owned, update_where;
    cbn; repeat (case_match; simplify_eq/=); done.
Qed.

Lemma last_issued_ge s h l : l ∈ issuance s → log_hostname l = h → ∃ m, last_issued s h = Some m ∧ (issued_at l <= m)%Z.
Proof.
  unfold last_issued. intros I <-. induction (issuance s) as [|x t IH]; [by apply not_elem_of_nil in I|]. cbn.
  apply elem_of_cons in I as [->|I].
  - rewrite bool_decide_eq_true_2 by done. destruct (foldr _ _ _); eexists; split; [done|lia|done|lia].
  - destruct (IH I) as (m & -> & M). case_bool_decide; eexists; split; [done|lia|done|lia].
Qed.

Lemma issuance_issued s h d now :
  issuance (record_issuance_complete s h d now).2 = issuance s ∨
  ∃ l, issuance (record_issuance_complete s h d now).2 = issuance s ++ [l] ∧ ca_of s h = Some (log_ca l) ∧
       log_hostname l = h ∧ issued_at l = now ∧ ∀ a, a ∈ issuance s → day_apart a l.
Proof.
  unfold record_issuance_complete. destruct (update_where s (completes h) issued_row) as [n s'] eqn:U.
  assert (issuance s' = issuance s) as I by (unfold update_where in U; by simplify_eq).
  destruct (n =? 0)%nat; [by left|]. destruct (ca_of s h) as [ca|]; [|by left]. cbn.
  destruct (match last_issued s' h with Some _ => _ | None => _ end) eqn:R; [by left|]. right.
  eexists. cbn. rewrite I. do 4 (split; [done|]). intros a A E. cbn in *.
  unfold last_issued in R. rewrite I in R. destruct (last_issued_ge s h a A E) as (m & M & Le). unfold last_issued in M.
  rewrite M in R. unfold saturating_sub_i64, MIN_ISSUANCE_LOG_INTERVAL_SECS, I64_MAX in *. bool_facts. lia.
Qed.

(** the ledger counts an order once: two rows of the same hostname are at least a day apart, in the order they were
    written, whatever operations have run and however clients repeat their reports. *)
Theorem ledger_day_apart ops : StronglySorted day_apart (issuance (run empty ops)).
Proof.
  apply run_ind; [constructor|]. intros s o _ S. destruct (touches_ledger o) eqn:T; [|by rewrite ledger_kept].
  destruct o; try done; cbn [exec].
  - destruct (issuance_issued s h domain now) as [->|(l & -> & _ & _ & _ & F)]; [done|].
    induction (issuance s) as [|x t IH]; cbn; [by repeat constructor|]. apply StronglySorted_inv in S as [S1 S2].
    constructor; [apply IH; [done|]; intros; apply F; by right|].
    apply Forall_app. split; [done|]. constructor; [apply F; by left|done].
  - cbn. induction (issuance s) as [|x t IH]; [done|]. apply StronglySorted_inv in S as [S1 S2]. rewrite filter_cons.
    destruct (decide _); [|auto]. constructor; [auto|]. apply list.Forall_forall. intros y [_ Y]%list_elem_of_filter.
    rewrite list.Forall_forall in S2. auto.
Qed.

(** the ledger forgets nothing before its time: revoking and creating the hostname again, or moving it to another
    owner, leaves its issuances charged until they are pruned by age. *)
Theorem ledger_lasts ops more l :
  l ∈ issuance (run empty ops) → Forall (λ o, ∀ c, o = OpPruneLog c → (c <= issued_at l)%Z) more →
  l ∈ issuance (run (run empty ops) more).
Proof.
  intros L F. apply run_ind; [done|]. clear L. intros s o I L. destruct (touches_ledger o) eqn:T; [|by rewrite ledger_kept].
  destruct o; try done; cbn [exec].
  - destruct (issuance_issued s h domain now) as [->|(x & -> & _)]; [done|]. apply elem_of_app. by left.
  - cbn. apply list_elem_of_filter. split; [|done]. rewrite list.Forall_forall in F. specialize (F _ I _ eq_refl). lia.
Qed.

(** ** Batched and single admission *)

Lemma partition_point_sorted (q : Z) l :
  StronglySorted (λ x y, Z.leb x y = true) l → partition_point (λ x, (x <? q)%Z) l = length (filter (λ x, (x < q)%Z) l).
Proof.
  induction l as [|x l IH]; [done|]. intros [S F]%StronglySorted_inv. rewrite filter_cons. cbn [partition_point].
  destruct (Z.ltb_spec x q).
  - rewrite decide_True by done. cbn. by rewrite IH.
  - rewrite decide_False by lia. rewrite list.Forall_forall in F. symmetry. apply length_zero_iff_nil.

    destruct (filter _ l) as [|y k] eqn:E; [done|]. exfalso.
    assert (y ∈ filter (λ x, (x < q)%Z) l) as Y by (rewrite E; by left).
    apply list_elem_of_filter in Y as [Y1 Y2]. specialize (F _ Y2). bool_facts. lia.
Qed.

Lemma length_filter_omap {A B} (f : A → option B) (P : B → Prop) `{∀ x, Decision (P x)} (p : A → bool) l :
  (∀ x, p x = true ↔ ∃ y, f x = Some y ∧ P y) → length (filter P (omap f l)) = length (filter (λ x, p x = true) l).
Proof.
  intros E. induction l as [|x l IH]; [done|]. rewrite filter_cons. cbn [omap list_omap]. destruct (f x) as [y|] eqn:F.
  - rewrite filter_cons. destruct (decide (P y)), (decide (p x = true)) as [Px|Px]; cbn; rewrite ?IH; try done.
    + destruct Px. apply E. eauto.
    + apply E in Px as (y' & F' & Py). congruence.
  - destruct (decide (p x = true)) as [Px|]; [|done]. apply E in Px as (y & F' & _). congruence.
Qed.

Lemma sql_count_rows (p : bytes → TunnelRow → bool) t :
  sql_count p t = length (filter (λ kr : bytes * TunnelRow, p kr.1 kr.2 = true) (map_to_list t)).
Proof.
  unfold sql_count. rewrite <- length_map_to_list. apply Permutation_length, NoDup_Permutation.
  - apply NoDup_map_to_list.
  - apply NoDup_filter, NoDup_map_to_list.
  - intros [k r]. rewrite list_elem_of_filter, !elem_of_map_to_list, map_lookup_filter_Some. naive_solver.
Qed.

Section admission.
Context (scan_perm : ∀ R (t : gmap bytes R), scan R t ≡ₚ map_to_list t).

Lemma queue_position s q :
  N.of_nat (partition_point (λ x, (x <? q)%Z) (queue_times scan s)) = ahead s q.
Proof.
  unfold ahead, queue_times, rows. f_equal. rewrite sql_count_rows.
  rewrite partition_point_sorted by (apply sort_by_sorted; [intros x y; rewrite !Z.leb_le; lia|intros x y z; rewrite !Z.leb_le; lia]).
  rewrite sort_by_Permutation, scan_perm.
  apply length_filter_omap. intros [k r]. cbn. rewrite andb_true_iff. destruct (waiting r); [|naive_solver].
  destruct (queued_at (cert r)) as [t|]; [|naive_solver]. rewrite Z.ltb_lt. naive_solver.
Qed.

Lemma by_hostname_Some s h r : wf s → by_hostname scan s h = Some r ↔ ∃ i, tunnels s !! i = Some r ∧ hostname r = Some h.
Proof.
  intros W. unfold by_hostname, rows.
  assert (∀ i r, (i, r) ∈ filter (λ kr : bytes * TunnelRow, has_hostname h kr.2 = true) (scan _ (tunnels s)) ↔ tunnels s !! i = Some r ∧ hostname r = Some h) as M.
  { intros i x. rewrite list_elem_of_filter, scan_perm, elem_of_map_to_list. unfold has_hostname. cbn. rewrite bool_decide_eq_true. naive_solver. }
  split.
  - intros ([i x] & E & ->)%fmap_Some. apply head_Some_elem_of, M in E. eauto.
  - intros (i & E). destruct (filter _ _) as [|[j x] l]; [by apply M, not_elem_of_nil in E|]. cbn. f_equal.
    assert (tunnels s !! j = Some x ∧ hostname x = Some h) as [E1 E2] by (apply M; by left). destruct E as [E3 E4].
    assert (i = j) as ->; [|congruence]. eapply (wf_unique _ W); rewrite lookup_ident; [rewrite E3|rewrite E1]; cbn; by rewrite ?E4, ?E2.
Qed.

(** the batched read of the dashboard says for every hostname what the single one says: the same status, authority,
    claim, deadline and position in the queue, found by searching the sorted times of entry instead of counting the
    rows ahead; a hostname that was not asked for, or has no tunnel, is not answered. *)
Theorem batched_admission_exact ops hs h :
  let s := run empty ops in
  cert_admission_for_hostnames scan s hs !! h = if decide (h ∈ hs) then cert_admission_for_hostname scan s h else None.
Proof.
  intros s. assert (wf s) as W by apply wf_run, wf_fresh.
  assert (∀ r, batched_admission scan s r = admission_of s r) as B.
  { intros r. unfold batched_admission, admission_of. f_equal. destruct (waiting r); [|done].
    destruct (queued_at (cert r)); [|done]. cbn. by rewrite queue_position. }
  unfold cert_admission_for_hostnames, cert_admission_for_hostname.
  set (f := λ kr : bytes * TunnelRow, _). set (l := omap f (rows scan s)).
  assert (∀ x v, (x, v) ∈ l ↔ x ∈ hs ∧ ∃ i r, tunnels s !! i = Some r ∧ hostname r = Some x ∧ v = admission_of s r) as In.
  { intros x v. unfold l, rows. rewrite list_elem_of_omap. split.
    - intros ([i r] & E & F). rewrite scan_perm, elem_of_map_to_list in E. unfold f in F. cbn in F.
      apply bind_Some in F as (y & Hy & F). case_bool_decide; [|done]. injection F as -> <-. rewrite B. eauto 10.
    - intros (X & i & r & E & Hr & ->). exists (i, r). rewrite scan_perm, elem_of_map_to_list. split; [done|].
      unfold f. cbn. rewrite Hr. cbn. rewrite bool_decide_eq_true_2 by done. by rewrite B. }
  destruct (decide (h ∈ hs)) as [X|X].
  - destruct (by_hostname scan s h) as [r|] eqn:E.
    + apply by_hostname_Some in E as (i & L & Hr); [|done]. cbn. apply elem_of_list_to_map_1'.
      * intros v (_ & j & r' & L' & Hr' & ->)%In. enough (i = j) as -> by congruence.
        eapply (wf_unique _ W); rewrite lookup_ident; [rewrite L|rewrite L']; cbn; by rewrite ?Hr, ?Hr'.
      * apply In. eauto 10.
    + cbn. apply not_elem_of_list_to_map_1. intros ([x v] & -> & (_ & i & r & L & Hr & _)%In)%list_elem_of_fmap.
      assert (by_hostname scan s x = Some r) as E' by (apply by_hostname_Some; eauto). cbn in E. congruence.
  - apply not_elem_of_list_to_map_1. intros ([x v] & -> & [X' _]%In)%list_elem_of_fmap. done.
Qed.
End admission.

(** ** Moving a tunnel *)

Lemma redeemed_link s h token k l :
  wf s → links s !! k = Some l → token_hash l = share_link_token_hash sha256 token → link_joins s h l = true →
  head (filter (λ kl : bytes * LinkRow, token_hash kl.2 = share_link_token_hash sha256 token ∧ link_joins s h kl.2 = true)
          (map_to_list (links s))) = Some (k, l).
Proof.
  intros W L H J. destruct (filter _ _) as [|[i v] t] eqn:E.
  - assert ((k, l) ∈ @nil (bytes * LinkRow)) as X; [|by apply not_elem_of_nil in X].
    rewrite <- E. apply list_elem_of_filter. by rewrite elem_of_map_to_list.
  - assert ((i, v) ∈ (i, v) :: t) as X by by left. rewrite <- E in X.
    apply list_elem_of_filter in X as [[Hv _] V%elem_of_map_to_list]. cbn. cbn in Hv.
    assert (i = k) as -> by (eapply (wf_hashes _ W); [done..|congruence]). congruence.
Qed.

Lemma redeem_link_cases s h token now :
  (redeem_share_link sha256 s h token now).1 = None ∧
    (∀ k l, links s !! k = Some l → token_hash l = share_link_token_hash sha256 token → link_joins s h l = false) ∨
  ∃ k l, links s !! k = Some l ∧ token_hash l = share_link_token_hash sha256 token ∧ link_joins s h l = true.
Proof.
  unfold redeem_share_link. destruct (head _) as [[k l]|] eqn:E.
  - right. apply head_Some_elem_of, list_elem_of_filter in E as [[H J] L%elem_of_map_to_list]. eauto.
  - left. split; [done|]. intros k l L H. apply not_true_is_false. intros J.
    destruct (filter _ _) as [|x t] eqn:F in E; [|done].
    assert ((k, l) ∈ @nil (bytes * LinkRow)) as X; [|by apply not_elem_of_nil in X].
    rewrite <- F. apply list_elem_of_filter. by rewrite elem_of_map_to_list.
Qed.

(** Two states whose links correspond redeem the same tokens. *)
Lemma redeem_same s s' h token now f :
  wf s → wf s' → links s' = f <$> links s →
  (∀ l, token_hash (f l) = token_hash l ∧ link_tunnel (f l) = link_tunnel l ∧ single_use (f l) = single_use l ∧
        used_at (f l) = used_at l ∧ expires_at (f l) = expires_at l ∧ revoked_at (f l) = revoked_at l) →
  (∀ k l, links s !! k = Some l → link_joins s' h (f l) = link_joins s h l) →
  (redeem_share_link sha256 s' h token now).1 = (redeem_share_link sha256 s h token now).1.
Proof.
  intros W W' E F J. destruct (redeem_link_cases s h token now) as [[-> N]|(k & l & L & H & K)].
  - destruct (redeem_link_cases s' h token now) as [[-> _]|(k & l' & L & H & K)]; [done|]. rewrite E, lookup_fmap in L.
    apply fmap_Some in L as (l & L & ->). destruct (F l) as [Fh _]. rewrite (J k l L) in K.
    rewrite (N k l) in K by (done || congruence). done.
  - destruct (F l) as (F1 & F2 & F3 & F4 & F5 & F6). unfold redeem_share_link. rewrite (redeemed_link s h token k l) by done.
    rewrite (redeemed_link s' h token k (f l)) by (try done; rewrite ?E, ?lookup_fmap, ?L, ?F1, ?(J k l L); done).
    rewrite F2, F3, F4, F5, F6. by destruct (_ || _).
Qed.

Lemma dependent_moved {R} (f : R → R) (ow : R → bytes) (t : gmap bytes R) from to id :
  (∀ v, ow (f v) = to) → (∀ v, t !! id = Some v → ow v = from) →
  (v ← sql_update f id t !! id; if bool_decide (ow v = to) then Some v else None) =
  f <$> (v ← t !! id; if bool_decide (ow v = from) then Some v else None).
Proof.
  intros F T. rewrite lookup_sql_update, decide_True by done. destruct (t !! id) as [v|] eqn:E; [|done]. cbn.
  by rewrite !bool_decide_eq_true_2 by eauto.
Qed.

(** moving a tunnel to another owner moves all that depends on it, and nothing else: the new owner has the row
    (with the link to the old owner's topology cleared), its access window, badge, alert and probe; who else is
    authorized is as before except that the old owner is not; every share link redeems exactly as before; no other
    tunnel changes; and a refused move changes nothing. *)
Theorem transfer_exact from_json from_text ops id from to x :
  let s := run empty ops in
  match transfer_tunnel s id from to x with
  | (Ok (Transferred rep), s') =>
    (∃ r, owned s from id = Some r ∧ owned s' to id = Some (row_owner to r) ∧ moved rep = view id r ∧
          cleared_topology_id rep = topology_id r) ∧
    owned s' from id = None ∧ x = Ok true ∧ target_owned_after rep = owned_count s' to ∧
    (∀ i, i ≠ id → tunnels s' !! i = tunnels s !! i) ∧
    (∀ w, is_authorized s' w id = bool_decide (w = to) || has_grant s id w) ∧
    access_policy from_json s' to id = access_policy from_json s from id ∧
    badge_public_id s' to id = badge_public_id s from id ∧
    owned_alert s' to id = alert_to to <$> owned_alert s from id ∧
    bridge_probe from_text s' to id = bridge_probe from_text s from id ∧
    (∀ h token now, (redeem_share_link sha256 s' h token now).1 = (redeem_share_link sha256 s h token now).1)
  | (_, s') => s' = s
  end.
Proof.
  intros s. assert (wf s) as W by apply wf_run, wf_fresh. pose proof (wf_transfer s id from to x W) as W'.
  unfold transfer_tunnel in *. destruct (tunnels s !! id) as [r|] eqn:E; [|done].
  case_bool_decide as B1; [done|]. case_bool_decide as B2; [|done]. cbn [negb] in *. destruct x as [[|]|]; [|done..].
  set (s' := set_grants _ _) in *. cbn [snd] in W'.
  assert (owned s from id = Some r) as O by (apply owned_Some; done).
  assert (from ≠ to) as Ft by congruence.
  assert (∀ w, owned s' w id = if bool_decide (to = w) then Some (row_owner to r) else None) as O'.
  { intros w. unfold owned. cbn. by rewrite lookup_insert_eq. }
  assert (∀ R (ow : R → bytes) (t : gmap bytes R), (∀ i v, t !! i = Some v → fst <$> ident s !! i = Some (ow v)) → ∀ v, t !! id = Some v → ow v = from) as D.
  { intros R ow t F v V. apply F in V. rewrite (owned_fst _ _ _ _ O) in V. congruence. }
  repeat apply conj; try done.
  - exists r. rewrite O', bool_decide_eq_true_2 by done. done.
  - by rewrite O', bool_decide_eq_false_2.
  - intros i N. cbn. by rewrite lookup_insert_ne.
  - intros w. unfold is_authorized, owner_of, has_grant. cbn. rewrite lookup_insert_eq. cbn.
    rewrite (bool_decide_ext (Some to = Some w) (w = to)) by (split; congruence).
    destruct (decide (w = to)) as [->|N]; [by rewrite (bool_decide_eq_true_2 (to = to))|].
    rewrite !(bool_decide_eq_false_2 (w = to)), lookup_delete_ne by congruence. done.
  - unfold access_policy. cbn. rewrite lookup_sql_update, decide_True by done.
    destruct (policies s !! id) as [p|] eqn:P; [|done]. cbn.
    by rewrite !bool_decide_eq_true_2 by (done || by eapply (D _ policy_subject), P; apply W).
  - unfold badge_public_id. cbn. rewrite lookup_sql_update, decide_True by done.
    destruct (badges s !! id) as [p|] eqn:P; [|done]. cbn.
    by rewrite !bool_decide_eq_true_2 by (done || by eapply (D _ badge_subject), P; apply W).
  - unfold owned_alert. cbn. apply dependent_moved; [done|]. apply (D _ alert_subject), W.
  - unfold bridge_probe. cbn. rewrite lookup_sql_update, decide_True by done.
    destruct (probes s !! id) as [p|] eqn:P; [|done]. cbn.
    by rewrite !bool_decide_eq_true_2 by (done || by eapply (D _ probe_subject), P; apply W).
  - intros h token now. eapply redeem_same with (f := λ l, if bool_decide (link_tunnel l = id) then link_to to l else l);
      [done..| |].
    + intros l. by destruct (bool_decide _).
    + intros k l L. unfold link_joins. pose proof (wf_links _ W _ _ L) as I. cbn.
      destruct (decide (link_tunnel l = id)) as [Hl|N].
      * rewrite (bool_decide_eq_true_2 _ Hl). cbn. rewrite Hl, lookup_insert_eq, E. cbn.
        rewrite Hl, (owned_ident _ _ _ _ O) in I. injection I as <- _. by rewrite !bool_decide_eq_true_2.
      * rewrite (bool_decide_eq_false_2 _ N). by rewrite lookup_insert_ne.
Qed.

End runs.

End TunnelRuns.

(** ** Concrete runs *)

Module TunnelSamples.
Import TunnelRuns.

Notation alice := (lit "alice").
Notation bob := (lit "bob").
Notation carol := (lit "carol").
Notation host := (lit "web.example.com").

Definition scan (R : Type) (t : gmap bytes R) : list (bytes * R) := map_to_list t.
Definition scan2 (R : Type) (t : gmap (bytes * bytes) R) : list (bytes * bytes * R) := map_to_list t.
Notation runs := (run (λ b : bytes, b) (λ b : bytes, b) (λ _, []) (λ _, []) scan2).
Notation redeem := (redeem_share_link (λ b : bytes, b)).

(** The ids of the tunnels [1] and [2], and of the share link [3]. *)
Definition t1 : bytes := Hex.encode [x01].
Definition t2 : bytes := Hex.encode [x02].
Definition k3 : bytes := Hex.encode [x03].

(** Alice's tunnel with a gate, a reader on the allow-list, a grant for carol and a share link for one use. *)
Definition furnished : list Op := [
  OpCreate alice (lit "web") (Some (lit " Web.Example.COM. ")) 100 [x01] [x11]; OpRequireLogin alice t1 true;
  OpAllow alice t1 (lit "Reader@x.org") 101; OpGrant alice t1 carol; OpMint alice t1 None 3600 true 102 [x03] [x33]].

Example furnished_serves :
  email_allowed_for_hostname (runs empty furnished) host (lit "reader@X.org") = true ∧
  is_authorized (runs empty furnished) carol t1 = true ∧
  (redeem (runs empty furnished) (lit "WEB.example.com") [x33] 200).1 =
    Some {| r_link_id := k3; r_tunnel_id := t1; r_single_use := true; r_expires_at := 3702 |} ∧
  (redeem (runs empty furnished) host [x33] 3702).1 = None.
Proof. by vm_compute. Qed.

Lemma freed_hostname_inherits_nothing_witness :
  let s := runs empty (furnished ++ [OpRevoke alice t1 200]) in
  let s' := (create s bob (lit "mine") (Some host) 300 [x02] [x12]).2 in
  email_allowed_for_hostname s' host (lit "reader@x.org") = false ∧ is_authorized s' carol t2 = false ∧
  (redeem s' host [x33] 301).1 = None.
Proof.
  intros s s'.
  set (t := {| st_id := t2; st_name := lit "mine"; st_hostname := Some host; st_created_at := 300%Z;
               st_routing_token := Hex.encode [x12] |}).
  assert (create s bob (lit "mine") (Some host) 300 [x02] [x12] = (Ok (Created t), s')) as E.
  { apply injective_projections; [|done]. by vm_compute. }
  destruct (freed_hostname_inherits_nothing (λ b, b) (λ b, b) (λ _, []) (λ _, []) scan2 (λ _, None) (λ _, None)
    (furnished ++ [OpRevoke alice t1 200]) bob (lit "mine") host 300 [x02] [x12] t s' E ltac:(by vm_compute))
    as (A & B & _ & _ & _ & _ & C & _).
  split; [apply A|]. split; [etrans; [apply B|by vm_compute]|]. by rewrite (C [x33] 301).
Defined.

(** The link is used, and then neither a move nor a new owner's clock revives it. *)
Lemma ended_link_stays_dead_witness :
  (redeem (runs (redeem (runs empty furnished) host [x33] 200).2
     [OpTransfer t1 alice bob (Ok true); OpMint bob t1 None 60 false 210 [x04] [x44]]) host [x33] 150).1 = None.
Proof.
  refine (ended_link_stays_dead (λ b, b) (λ b, b) (λ _, []) (λ _, []) scan2 [x33] furnished _ _ host 150 _ _).
  - apply (ended_used _ _ _ host 200 {| r_link_id := k3; r_tunnel_id := t1; r_single_use := true; r_expires_at := 3702 |}).
    + by vm_compute.
    + done.
  - repeat constructor; cbn; [tauto|]. by vm_compute.
Defined.

(** A certificate: queued, offered, issued. *)
Definition certified : list Op := furnished ++ [
  OpGelb host 300; OpOffer host (lit "letsencrypt") 400 9000; OpIssued host (lit "example.com") 500].

Lemma issued_certificate_kept_witness :
  ∃ r', tunnels (runs (runs empty certified)
          [OpLapse 99999; OpTransfer t1 alice bob (Ok true); OpOffer host (lit "zerossl") 1 2]) !! t1 = Some r' ∧
        assigned_ca (cert r') = Some (lit "letsencrypt").
Proof.
  destruct (tunnels (runs empty certified) !! t1) as [r|] eqn:E; [|by vm_compute in E].
  assert (status ∘ cert <$> tunnels (runs empty certified) !! t1 = Some Gruen) as G by by vm_compute.
  assert (assigned_ca ∘ cert <$> tunnels (runs empty certified) !! t1 = Some (Some (lit "letsencrypt"))) as C by by vm_compute.
  rewrite E in G, C. apply (inj Some) in G, C. unfold compose in G, C.
  destruct (issued_certificate_kept (λ b, b) (λ b, b) (λ _, []) (λ _, []) scan2 certified
    [OpLapse 99999; OpTransfer t1 alice bob (Ok true); OpOffer host (lit "zerossl") 1 2] t1 r E) as (r' & L & _ & _ & A & _).
  - exact G.
  - by repeat constructor.
  - exists r'. split; [exact L|by rewrite A].
Defined.

(** Two hostnames wait for their certificate. *)
Definition queued : list Op := [
  OpCreate alice (lit "a") (Some (lit "a.example.com")) 100 [x01] [x11];
  OpCreate bob (lit "b") (Some (lit "b.example.com")) 101 [x02] [x12];
  OpGelb (lit "a.example.com") 200; OpGelb (lit "b.example.com") 300].

Lemma batched_admission_exact_witness :
  cert_admission_for_hostnames scan (runs empty queued) [lit "b.example.com"; lit "c.example.com"] !! lit "b.example.com" =
    cert_admission_for_hostname scan (runs empty queued) (lit "b.example.com") ∧
  (ca_queue_position <$> cert_admission_for_hostname scan (runs empty queued) (lit "b.example.com")) = Some (Some 1).
Proof.
  split; [|by vm_compute].
  etrans; [apply (batched_admission_exact (λ b, b) (λ b, b) (λ _, []) (λ _, []) scan scan2 (λ _ _, Permutation_refl _) queued)|].
  by rewrite decide_True by (by left).
Defined.

Lemma ledger_lasts_witness :
  let l := {| log_ca := lit "letsencrypt"; log_domain := lit "example.com"; log_hostname := host; issued_at := 500 |} in
  l ∈ issuance (runs empty certified) ∧
  l ∈ issuance (runs (runs empty certified) [OpRevoke alice t1 600; OpPruneLog 500]).
Proof.
  intros l. assert (l ∈ issuance (runs empty certified)) as L by (vm_compute; left).
  split; [done|]. apply (ledger_lasts (λ b, b) (λ b, b) (λ _, []) (λ _, []) scan2 certified _ l L).
  repeat constructor; intros c [= <-]; vm_compute; congruence.
Defined.

(** The queue is first in, first out; but a claim that lapses while its owner has opted out leaves no time of entry, and
    a row without one is ahead of all others when the owner opts in again. *)
Example opted_out_lapse_jumps_queue :
  gelb_queue_fifo scan (runs empty (queued ++ [OpOffer (lit "a.example.com") (lit "letsencrypt") 400 500; OpLapse 600])) =
    Some [lit "b.example.com"; lit "a.example.com"] ∧
  gelb_queue_fifo scan (runs empty (queued ++ [OpOffer (lit "a.example.com") (lit "letsencrypt") 400 500;
    OpOptOut alice t1 true; OpLapse 600; OpOptOut alice t1 false])) =
    Some [lit "a.example.com"; lit "b.example.com"].
Proof. by vm_compute. Qed.

(** A request is checked outside the lock that its write takes; a revocation in between leaves it to the next owner of
    the hostname. *)
Example late_request_reaches_next_owner :
  access_request_checked scan (runs empty furnished) host = Some host ∧
  pending_access_requests scan2 (runs empty (furnished ++ [OpRevoke alice t1 200;
    OpRequest host (lit "Dora@x.org") (lit "let me in") 201; OpCreate bob (lit "mine") (Some host) 300 [x02] [x12]])) bob t2 =
    Some [(lit "dora@x.org", lit "let me in", 201%Z)].
Proof. by vm_compute. Qed.

(** A bridge can be left on without the login gate. *)
Example bridge_without_login :
  let s := runs empty (furnished ++ [OpMode alice t1 (lit "ephemeral"); OpRequireLogin alice t1 false]) in
  get_rest_bridge_mode s alice t1 = Some (lit "ephemeral") ∧ get_require_login s alice t1 = Some false.
Proof. by vm_compute. Qed.

(** A bridge grant is stored while the bridge is off. *)
Example grant_while_off :
  let s := runs empty (furnished ++ [OpBridgeGrant alice t1 (lit "00ff")]) in
  get_rest_bridge_mode s alice t1 = Some (lit "off") ∧ get_bridge_grant s alice t1 = Some (lit "00ff").
Proof. by vm_compute. Qed.

End TunnelSamples.
